(* ===== verification/_CoqProject ===== *)
-Q . S2P
Prelude.v
RustStr.v
ByteStr.v
Utf8.v
PatchParser.v
PatchParserInv.v
PatchRoundTrip.v
SeekSequence.v
TextFile.v
FileUpdate.v
FileUpdateProofs.v
UpdateSpec.v
ApplyHunks.v
ApplyHunksProofs.v
ExecRule.v
ExecPolicy.v
ExecPolicyProofs.v
ExecPolicyBuilder.v
ExecAmend.v
StreamText.v
InlineHiddenTag.v
TaggedLine.v
Utf8Stream.v
Truncate.v
TruncateProofs.v
Template.v
HeadTail.v
RolloutScan.v
Rollout.v
RolloutProofs.v
RolloutRead.v
History.v
HistoryProofs.v
Readiness.v
PasteBurst.v
DangerousCommand.v
PathUri.v
PathUriProofs.v
Permissions.v
PermissionsProofs.v
PermissionsLegacy.v
NetAddr.v
NetDomain.v
NetDomainProofs.v
NetConfig.v
NetHook.v
NetState.v
NetRuntime.v
NetStateProofs.v
NetRuntimeProofs.v
NetHookProofs.v
Profile.v
ProfileProofs.v
ExecApproval.v
ExecApprovalProofs.v
Orchestrator.v
OrchestratorProofs.v
ConfigToml.v
ConfigLayers.v
ConfigLayersProofs.v
ShellEnv.v
TextArea.v
TextAreaProofs.v
TextAreaOps.v
Agents.v
AgentsProofs.v
AgentResidency.v
PatchSafety.v
FuzzyMatch.v
Hooks.v
HookOutput.v
HookEvents.v
HookProofs.v
HookDiscovery.v
HookDiscoveryProofs.v
MarkdownStream.v
Transcript.v
TranscriptProofs.v
TurnInput.v
StringUtils.v
