(* ===== verification/Prelude.v ===== *)
(** * rexux: a verification library for the deterministic core of the agent

    rexux is a coding agent: a terminal interface and an app server around a
    core that talks to a model, runs the commands and edits the files the model
    asks for.  Most of its code is asynchronous input and output.  This library
    models the parts whose results the user's files and safety depend on and
    that are deterministic functions of their inputs:

    - [apply-patch]: the patch language, and its application to files;
    - [execpolicy]: the rules that allow, ask about or forbid a command;
    - [utils/stream-parser]: the parsers that hide citations and plan blocks
      in the text streamed by the model;
    - [utils/output-truncation] and its helpers: the truncation of tool
      output before it is sent to the model;
    - [utils/template]: the templates of prompts;
    - [utils/path-uri] and the permissions of [protocol]: paths of executors
      and the sandbox policies that decide on them;
    - [shell-command]: the classification of dangerous commands;
    - [network-proxy]: which hosts a command may reach, and what managed
      configuration makes of that;
    - the permission profiles of [protocol] and their transformation in
      [sandboxing];
    - the approval of commands and the orchestrator of tools in [core];
    - [config]: layers of configuration and their merge, and the environment
      of commands that comes out of it;
    - [rollout]: the recording of a session and reading it back;
    - the history normalisation and the output buffer of [core];
    - [utils/readiness]: a flag several tasks wait for;
    - the paste detector and the text area of the composer ([tui]);
    - the registry, the residency and the execution limit of agents in [core],
      with the agent paths of [protocol];
    - the safety check of patches in [core];
    - [hooks]: the commands a configuration attaches to events of a session,
      from their discovery to what their answers decide;
    - [utils/fuzzy-match]: the filter of popups;
    - the streaming of an answer into the transcript, with its table detection,
      pacing and resizing ([tui]);
    - the input queue of a turn and the context window it fills ([core]);
    - [utils/string]: cuts at char boundaries, metric tags, locations in links
      and ASCII JSON.

    They meet in the model as they do in the program: a patch is parsed
    ([PatchParser]), located ([SeekSequence]) and applied ([FileUpdate],
    [ApplyHunks]); a permission decides on a path by the containment of its URI
    ([PathUri]); a command is judged by the rules and by what it looks like
    ([ExecPolicy], [DangerousCommand]), which gives the requirement of approval
    ([ExecApproval]) that the orchestrator follows when it asks, chooses a
    sandbox for the profile ([Profile]) and runs the tool ([Orchestrator]); a
    patch is judged by the same policies ([PatchSafety]); trusted hooks
    ([HookDiscovery]) can block the call or answer for the user ([HookEvents]);
    the network it uses goes through the proxy ([NetRuntime]); the output of a
    command is capped ([HeadTail], [Truncate]) and enters a history ([History])
    whose items a recorder appends to a file ([Rollout]) that is read back from
    its end ([RolloutScan], [RolloutRead]).

    ** How the code is represented

    A Rust [String] is the list of its chars, each a scalar value in [N]
    ([RustStr]); bytes and UTF-8, with the error positions of
    [str::from_utf8], are in [Utf8].  [Result] is [result], with the notation
    [let?] for the question mark operator.  A method on [&mut self] takes the
    state and returns it; a method that fails half way returns the state it
    reached.  Where Rust panics (an index, a slice, an unsigned subtraction,
    [expect]) the model returns [None] or [Panic], so that the absence of
    panics is a theorem and not an assumption.  Lengths and budgets of
    truncation are [usize] values with the saturating operations of the code;
    byte offsets and line numbers elsewhere are unbounded, since they are
    bounded by the size of a text in memory.

    Code outside the repository, and the operating system, are parameters:
    the file system and path operations of a patch application ([PathOps],
    [ExecutorFileSystem], with [FileSystemView] for the places that paths lead to
    and [FileSystemLaws] for what a file system promises about regular files
    without a second hard link), absolute paths ([HostPaths]) and word splitting and
    rendering ([BuilderEnv]) of policy files, the outcome of evaluating a
    Starlark file (the calls it makes and its error), the answers of each
    system call of an append or a migration, the JSON encoding of a string,
    the audio token estimate; URLs of the [url] crate and percent and base64
    codecs ([UrlCrate], [Codecs], with [UrlLaws] and [CodecLaws]); paths,
    environment and glob compiler of the host ([Host], with [HostLaws]); the
    [watch] channel of [tokio] ([WatchChannel], with [WatchLaws]); the JSON
    codec of rollout lines and the answer of each operation on a rollout file;
    the commands of a shell script, the Windows rules of dangerous commands and
    the other shell functions ([Shells]); globs ([GlobCrate], with
    [GlobLaws]), hosts of URLs ([UrlHost], [UrlParse]), paths and set order ([NetHost])
    and header types and form decoding ([HookCrates]) of the network proxy; the
    session, the user and the tool of an orchestrated call ([World]); paths,
    serde and the version hash of configuration layers ([ConfigPaths],
    [TomlCrates]), the Unicode tables of lower case ([Unicode], [Casing]) and
    patterns of environment variables ([WildMatch]); graphemes and words of the
    text area ([Segmentation], with [SegmentationLaws]); the text of thread ids
    ([ThreadIds], with [ThreadIdLaws]); regular expressions ([RegexCrate]), the
    JSON of hooks ([HookWires], [HookInputs]), what their handlers answer and in
    which order ([HookRuntime], with [HookRuntimeLaws]) and the hash of a hook
    ([DiscoveryEnv]); the rendering of Markdown into lines ([MarkdownRenderer],
    with [MarkdownLaws]).
    Each class has an instance that is a concrete function, used by the
    witnesses.

    ** The files

    - [Prelude]: results, tactics, hint databases, lemmas on lists.
    - [RustStr], [ByteStr], [Utf8]: strings, byte offsets into them and UTF-8.
    - [PatchParser]: [apply-patch/src/parser.rs] and [streaming_parser.rs].
      [PatchParserInv]: streaming and the well-formedness of hunks.
      [PatchRoundTrip]: a printer of patches and the round trip.
    - [SeekSequence]: [seek_sequence.rs] and its specification.
    - [TextFile]: [text_file.rs], lines with their endings.
    - [FileUpdate]: [file_update.rs]; [FileUpdateProofs].  [UpdateSpec]: an
      abstract account of an update, which the code is shown to refine.
    - [ApplyHunks]: [apply-patch/src/lib.rs]; [ApplyHunksProofs], with the
      in-memory file system [MemFs].
    - [ExecRule]: [execpolicy/src/rule.rs], [decision.rs], [error.rs].
      [ExecPolicy]: [policy.rs], [executable_name.rs]; [ExecPolicyProofs].
      [ExecPolicyBuilder]: [parser.rs], [execpolicycheck.rs].
      [ExecAmend]: [amend.rs], [sandbox_migration.rs].
    - [StreamText]: the trait [StreamTextParser] and the chunk contract
      [ChunkInvariant].  [InlineHiddenTag]: [inline_hidden_tag.rs],
      [citation.rs].  [TaggedLine]: [tagged_line_parser.rs],
      [proposed_plan.rs].
      [Utf8Stream]: [utf8_stream.rs], [assistant_text.rs].
    - [Truncate]: [utils/string/src/truncate.rs],
      [utils/output-truncation/src/lib.rs] and [TruncationPolicy] of
      [protocol]; [TruncateProofs].
    - [Template]: [utils/template/src/lib.rs].
    - [HeadTail]: [core/src/unified_exec/head_tail_buffer.rs].
    - [RolloutScan]: [rollout/src/reverse_jsonl_scanner.rs].
      [Rollout]: [ordinal.rs] and the writer task of
      [recorder.rs]; [RolloutProofs].  [RolloutRead]: what a reader and a
      resumed session find in the file.
    - [History]: [core/src/context_manager/normalize.rs] and its callers in
      [history.rs]; [HistoryProofs].
    - [Readiness]: [utils/readiness/src/lib.rs], operations as atomic steps of
      concurrent tasks.
    - [PasteBurst]: [tui/src/bottom_pane/paste_burst.rs] and the handlers of
      [chat_composer.rs] that drive it, with what a paste becomes
      ([sanitize_user_text] of [history_cell/messages.rs], placeholders).
    - [DangerousCommand]:
      [shell-command/src/command_safety/is_dangerous_command.rs].
    - [PathUri]: [utils/path-uri/src/lib.rs],
      [absolute_path_normalization.rs] and the rendering of
      [api_path_string.rs]; [PathUriProofs], with the URLs [MiniUrl].
    - [Permissions]: [protocol/src/permissions.rs]; [PermissionsProofs], with
      the host [MiniHost]; [PermissionsLegacy]: older policies and roots.
    - [NetAddr], [NetDomain]: [network-proxy/src/policy.rs];
      [NetDomainProofs].  [NetConfig]: [config.rs].
      [NetHook]: [mitm_hook.rs], [authorization_path.rs]; [NetHookProofs].
      [NetState]: [state.rs]; [NetStateProofs].  [NetRuntime]: [runtime.rs],
      [network_policy.rs], [connect_policy.rs] and the states of
      [core/src/config/network_proxy_spec.rs], operations as locked sections
      of concurrent tasks; [NetRuntimeProofs].
    - [Profile]: the profiles of [protocol/src/models.rs] and
      [sandboxing/src/policy_transforms.rs]; [ProfileProofs].
    - [ExecApproval]: [core/src/exec_policy.rs] with [model_policy.rs] and
      [executable_identity.rs], and the recognition of shells of
      [shell-command]; [ExecApprovalProofs].
    - [Orchestrator]: [core/src/tools/orchestrator.rs],
      [core/src/tools/sandboxing.rs], what [runtimes/apply_patch.rs] overrides of
      it, the choice of [sandboxing/src/manager.rs]
      and [core/src/network_policy_decision.rs], as a computation that leaves a
      trace of what was asked and run; [OrchestratorProofs], with a small Hoare
      logic on traces.
    - [ConfigToml]: [config/src/merge.rs], [key_aliases.rs], [overrides.rs],
      [fingerprint.rs].  [ConfigLayers]: [state.rs],
      [config_layer_source.rs], [constraint.rs]; [ConfigLayersProofs].
      [ShellEnv]: [protocol/src/shell_environment.rs] and
      [core/src/exec_env.rs].
    - [TextArea]: [tui/src/bottom_pane/textarea.rs]; [TextAreaProofs]: its
      invariant, edits and elements; [TextAreaOps]: every operation.
    - [Agents]: [protocol/src/agent_path.rs] and [core/src/agent/registry.rs],
      its locked sections and atomic accesses as steps of concurrent tasks;
      [AgentsProofs].  [AgentResidency]: [core/src/agent/control/residency.rs]
      and [execution.rs].
    - [PatchSafety]: [core/src/safety.rs].
    - [FuzzyMatch]: [utils/fuzzy-match/src/lib.rs].
    - [Hooks]: handlers, matchers, dispatcher and spilling of [hooks/src/engine]
      and [hooks/src/events/common.rs].  [HookOutput]: [output_parser.rs] and
      the wire types of [schema.rs].  [HookEvents]: the files of
      [hooks/src/events]; [HookProofs].  [HookDiscovery]:
      [hooks/src/engine/discovery.rs] and the hook configuration of [config];
      [HookDiscoveryProofs].
    - [MarkdownStream]: [tui/src/table_detect.rs],
      [streaming/table_holdback.rs], [markdown_stream.rs] and the unwrapping of
      fences.  [Transcript]: [streaming/mod.rs], [controller.rs], [render.rs],
      [code_fence.rs], [chunking.rs] and [commit_tick.rs];
      [TranscriptProofs].
    - [TurnInput]: [core/src/session/input_queue.rs], the pending input of
      [core/src/state/turn.rs] and [auto_compact_window.rs].
    - [StringUtils]: [utils/string/src/lib.rs] and [json.rs].

    ** What the theorems show

    Patches.  Every patch the format can express is parsed back to the hunks
    it denotes, alone or in a heredoc; cutting the text into deltas changes
    nothing; every parsed hunk is well formed, and that is what the update code
    needs: no index of it can be out of range, whatever the file.  The block
    search returns the first position of the strictest level that matches; at the
    end of a file it has one position only.
    The replacements of a parsed patch are ordered and disjoint, and the file
    written is the old one with the edits of the chunks carried out position by
    position, every untouched line keeping its text and ending.  The delta an application returns is a faithful log when it is
    flagged exact: it can be replayed and undone, also after a failure, on
    every file system that obeys the laws, for files without a second hard link:
    directories may be linked, since the log is read at the places its paths lead
    to, and the laws say nothing about directories and symbolic links themselves.

    Policies.  The decision of a check is the strictest of the rules that
    match, so that no overlay and no further command can relax it; rule files
    give well-formed policies in which the examples hold; a call of
    [prefix_rule] covers exactly the commands its pattern describes; a program
    path stands for its base name only when it is listed.  An append to a
    policy file adds one line and loses no byte, and the migration removes
    exactly the banned lines, once.

    Streams.  Each text parser satisfies the chunk contract: what it shows and
    extracts does not depend on how the text was cut ([ChunkInvariant]).  The
    UTF-8 wrapper is proved against the contract for every parser, and the
    assistant parser is the composition of the two specifications.

    Truncation and templates.  A cut keeps the longest beginning and end that
    fit at char boundaries; media items survive; a template renders to its
    pieces, exactly when the values given are those of its placeholders.

    Permissions.  Containment of URIs is the prefix order on decoded
    segments, equality agrees with hashing, and the walk to the root ends.  The
    most specific entry decides on a path, the strictest among equals; denied
    reads survive a change of the rest of the policy; a policy that reports
    full write access gives it on every path; metadata directories stay
    protected; older policies survive the translation; replacing symbolic
    project roots by real ones changes no decision.  A forced [rm] is found
    behind every nesting of wrappers.

    Network.  An address that is not public is reached only when it is written
    out on the allow list; what the proxy lets through is within the managed
    lists; in every interleaving the configuration in force respects the
    constraints in force, whatever configurations [NetworkProxySpec] and remote
    launches load, and an update of a list changes the entries of its
    host only, atomically.  Paths checked for hooks have one reading; a request
    is authorised only by a configured hook.

    Approvals.  The requirement of a command is that of its strictest part; a
    hidden forced [rm] never runs unasked; leaving allow rules out never
    relaxes anything; a rule the user accepts answers the question it was
    proposed with.  Additional permissions lift no denial, and the intersection
    of requested and granted ones stays within both, denied reads included, for
    globs that match below their fixed part.  Nothing runs without the
    approval it needs, a sandbox is left only for a reason, and a denied read
    keeps every attempt in the sandbox, for the runtimes of patches and of
    commands, which differ in when they retry.

    Configuration.  Merging layers is decided path by path by the highest layer
    that says something, where one form of the filters of the shell environment
    silences the other form below it; the recorded origin of a field is that layer; edits of
    the user's files keep the stack in order; a constrained value satisfies all
    constraints.  The environment of a command is decided variable by variable
    by the policy, and the launch context never gets into it.

    Sessions.  Whatever fails and wherever a write is torn, the rollout file is
    a log of the items queued, in order and with consecutive ordinals; an
    acknowledged item is in it; the reverse scanner terminates and yields its
    records whatever the chunks; a resumed session continues the ordinals.  A
    normalised history pairs calls and outputs that have a call id, but for the
    results of searches the server ran, and removal of
    the oldest item keeps the pairs.  The output buffer is a summary of the
    whole output.

    Concurrency and input.  In every interleaving the readiness flag becomes
    ready once and only by a token or an empty subscription set, and a
    registered waiter is woken; the paste detector loses and duplicates no
    key of an ordinary text, which the draft shows after the next flush.  Every operation of the text area keeps the cursor and the elements at
    char boundaries and never panics; an edit keeps the elements it does not
    cover, and a kill followed by a yank restores the text.  The fuzzy match
    finds exactly the subsequences and highlights them.

    Agents.  In every interleaving there are no more agents than the limit under
    which all are spawned, no path is held twice, and the count is exact up to the
    slots that a second commit for a thread loses; nicknames are distinct while the pool lasts; agent paths are the
    slash-separated names below the root.  The residents are distinct and every
    pending slot belongs to a reservation.

    Hooks.  Every handler that runs is managed, a bundled cleanup call or
    trusted by the user under a hash that determines what runs; without a load error every required hook is active.  A
    tool is blocked by the first handler, in configured order, that says so; any
    denial of a permission request that uses no unsupported field denies it; a stop is ended or continued as
    the answers say, whatever the order in which handlers finish.  A patch runs
    unasked exactly within the writable paths and in a sandbox that holds it there,
    or where the user gave up both.

    Transcript.  The incremental scanner of tables agrees with a scan of the
    whole text, and only fences that hold a table are unwrapped.  However an
    answer is cut and whatever the width is set to on the way, streaming reaches
    none of its slices out of range; without a resize a raw transcript shows
    each line of the source once and in order.  The pace does not flap: a
    queue that is not empty keeps catching up until it was calm for the hold
    time, and catching up starts again after the second hold time or under a
    severe backlog only.

    Turns.  Mail and input are taken in the order and under the options of the
    code, none lost or doubled; a subscriber sees mail that came before or
    after it subscribed; the reminder of the context window is given once per
    window.

    Strings.  A cut is the longest prefix that fits, a metric tag is always
    valid, a location suffix of a link is normalised to the lines and columns
    it names, and ASCII JSON decodes to the text it was made of.

    Some theorems show defects of the code: in [NormalizeToLf] mode an edit
    can be lost at the end of a file ([normalize_loses_overlapping_edit]) and a
    blank last line is dropped ([normalize_drops_blank_last_line]); a rename
    onto the same path deletes the file ([move_onto_itself_deletes_file]); a
    session whose first line was torn cannot be resumed
    ([torn_metadata_cannot_be_resumed]); a waiter of the readiness flag can
    miss the broadcast ([wait_ready_can_wait_forever]); Enter after the first
    held char comes out before it ([enter_after_first_char_is_misplaced]); two
    equal URIs can differ in the directories that contain them
    ([equal_uris_differ_in_containment]); an entry with a port slips past the
    managed allow list of the proxy ([managed_allowlist_bypass]), a recorded
    block can be lost in an update ([blocked_request_can_be_lost]) and a forced
    reload forgets the total ([force_reload_forgets_total]); the intersection
    of permissions drops read-only parts of the request
    ([intersection_can_exceed_request]) and denials by globs with braces
    ([brace_denial_is_dropped]); origins of replaced list items stay
    ([origins_keep_replaced_items]); registering an agent thread twice loses a
    slot ([registering_again_leaks_a_slot]), the residents can exceed their
    capacity ([residency_can_exceed_capacity]) and the running turns their limit
    ([execution_limit_can_be_exceeded]); a needle with a final sigma is not
    found in its own text ([final_sigma_does_not_match]); a hook that denies and
    asks to interrupt is reported as failed and its denial is dropped
    ([interrupting_denial_is_dropped]); a resize in the middle of a stream can
    repeat a line ([resize_repeats_line]) and a definition that changes lines
    already shown hides the next one ([definition_hides_next_line]).  Two show
    where the code differs from its comments: a search at the end of a file does
    not fall back to the positions before it ([eof_search_does_not_fall_back]), and
    a denied patch is retried outside the sandbox when approvals are on request
    ([patch_is_retried_on_request]).

    ** Fuel

    [InlineHiddenTag.push_loop] consumes a
    delimiter at each turn, and [push_str] gives it one more unit than the
    pending text has chars ([push_loop_fuel]: more fuel changes nothing).
    [Template.parse_loop] consumes a char or more at each turn and gets the
    length of the source.
    [RolloutScan.scan_loop] gets the number of bytes not yet read and
    [scan_all] the number of calls ([scan_next_terminates],
    [reverse_scan_yields_records]).  [Readiness.fresh_token] tries two ids more
    than there are tokens.  [PathUri.ancestors] gets the segments of the path
    ([ancestors_end_at_root]).  [DangerousCommand] counts the levels of
    wrappers down from the bound of the code;
    [ExecApproval.detect_shell_loop] strips a suffix at each turn and gets the
    length of the path.  [ConfigToml.merge_toml_values_at_path] gets the nesting
    of the overlay, which falls at each level ([merge_leaf]).
    [TextArea.boundary_down] and [boundary_up] get the distance to the ends of
    the text and [expand_loop] one more than the elements, each turn taking one
    more in ([boundary_down_spec], [boundary_up_spec], [expand_loop_spec]).
    [AgentResidency.pop_loop] gets the number of residents and
    [HookDiscovery.str_replace_loop] the length of the text.
    [MarkdownStream.strip_blockquote_loop] strips a marker at each turn and gets
    the length of the line ([strip_blockquote_complete]).  In all these cases the theorems
    give the result of the code, not only its partial correctness.

    ** What is not modelled

    Of the components above: recognising [apply_patch] in shell scripts
    ([apply-patch/src/invocation.rs]) and the parsers of shell scripts, which
    are tree-sitter grammars; the unified diff of a patch, printed by a diff
    library; the JSON output of the policy check; the lists of platform roots of
    a sandbox policy, which follow symbolic links; conversions between URIs and
    native paths of the running machine; Windows path prefixes and the Windows
    rules of dangerous commands; the wrapping cache of the text area with the
    vertical motion that reads it, and the composer's Vim mode, popups, history
    and submission; the listing of rollouts; running the processes and
    MCP tools of hooks; unloading an agent; the permissions granted in a turn
    and its requests for permissions and user input; the search for UUIDs in a text; the copy
    targets of streamed cells; and the loading of rule and
    configuration files with their requirements, which is decoding by serde.

    The rest of the repository is input and output around them: terminal
    rendering, the app server and its clients, the model clients, the servers,
    sockets and credential broker of the network proxy, the sandboxes of the
    platforms and the command lines that set them up, the SQL of the state
    database, MCP, plugins, skills and extensions, telemetry and
    authentication.  Their behaviour is that of the services, system calls and
    libraries they call, for which a model would be a made-up definition. *)

From stdpp Require Export base tactics option list numbers sets gmap.
From stdpp Require Import strings pretty.
From Stdlib Require Import Ascii Sorted.

#[global] Set Default Proof Using "Type".

(** ** Results

    Rust's [Result<T, E>].  The error type comes first so that a component
    can fix it once: [result ParseError (list Hunk)]. *)
Inductive result (E A : Type) : Type :=
  | Ok (a : A)
  | Err (e : E).
Arguments Ok {E A} a.
Arguments Err {E A} e.

Declare Scope rexux_scope.
Delimit Scope rexux_scope with rexux.
Open Scope rexux_scope.

(** [let? x := c in k] is [let x = c?; k]: the error of [c] is returned
    unchanged. *)
Notation "'let?' x ':=' c 'in' k" :=
  (match c with Ok x => k | Err e => Err e end)
  (at level 10, x pattern, c at level 100, k at level 200,
   format "'[v' 'let?'  x  ':='  c  'in' '/' k ']'") : rexux_scope.

(** [Result::map_err]. *)
Definition map_err {E E' A} (f : E → E') (r : result E A) : result E' A :=
  match r with Ok a => Ok a | Err e => Err (f e) end.

(** [Result::ok]. *)
Definition ok {E A} (r : result E A) : option A :=
  match r with Ok a => Some a | Err _ => None end.

(** [Option::ok_or]. *)
Definition ok_or {E A} (o : option A) (e : E) : result E A :=
  match o with Some a => Ok a | None => Err e end.

(** [Result::is_ok]. *)
Definition is_ok {E A} (r : result E A) : bool :=
  match r with Ok _ => true | Err _ => false end.

#[global] Instance result_eq_dec `{EqDecision E, EqDecision A} : EqDecision (result E A).
Proof. solve_decision. Defined.

(** [iter().map(f).collect::<Result<Vec<_>, _>>()]: the first error wins. *)
Fixpoint map_result {E A B} (f : A → result E B) (l : list A) : result E (list B) :=
  match l with
  | [] => Ok []
  | x :: l' => let? y := f x in let? ys := map_result f l' in Ok (y :: ys)
  end.

Lemma map_result_Ok {E A B} (f : A → result E B) l ys :
  map_result f l = Ok ys ↔ Forall2 (λ x y, f x = Ok y) l ys.
Proof.
  revert ys. induction l as [|x l IH]; intros ys; simpl; split.
  - intros [= <-]. constructor.
  - by inversion_clear 1.
  - destruct (f x) eqn:Hx, (map_result f l) eqn:Hl; intros [= <-].
    constructor; [done|]. by apply IH.
  - inversion_clear 1 as [|? y ? ys' Hx Hl]. rewrite Hx.
    by apply IH in Hl as ->.
Qed.

(** The question mark operator succeeds when both parts do. *)
Lemma let_Ok {E A B} (r : result E A) (k : A → result E B) b : (let? x := r in k x) = Ok b ↔ ∃ a, r = Ok a ∧ k a = Ok b.
Proof. destruct r; naive_solver. Qed.

(** ** Tactics *)

(** Splits on the innermost scrutinee of a [match] in the goal or in a
    hypothesis, remembers the equation and discards impossible branches. *)
Ltac break_match_hyp H :=
  match type of H with
  | context [ match ?x with _ => _ end ] =>
      lazymatch x with
      | context [ match _ with _ => _ end ] => fail
      | _ => let E := fresh "E" in destruct x eqn:E
      end
  end.

Ltac break_match_goal :=
  match goal with
  | |- context [ match ?x with _ => _ end ] =>
      lazymatch x with
      | context [ match _ with _ => _ end ] => fail
      | _ => let E := fresh "E" in destruct x eqn:E
      end
  end.

Ltac break_match :=
  match goal with
  | H : context [ match _ with _ => _ end ] |- _ => break_match_hyp H
  | _ => break_match_goal
  end.

(** Turns the boolean tests of the code into propositions. *)
Ltac reflect_bools :=
  repeat match goal with
  | H : bool_decide _ = true |- _ => apply bool_decide_eq_true_1 in H
  | H : bool_decide _ = false |- _ => apply bool_decide_eq_false_1 in H
  | H : (_ && _)%bool = true |- _ => apply andb_true_iff in H as [? ?]
  | H : (_ || _)%bool = false |- _ => apply orb_false_iff in H as [? ?]
  | H : negb _ = true |- _ => apply negb_true_iff in H
  | H : negb _ = false |- _ => apply negb_false_iff in H
  | H : Nat.eqb _ _ = true |- _ => apply Nat.eqb_eq in H
  | H : Nat.eqb _ _ = false |- _ => apply Nat.eqb_neq in H
  | H : Nat.leb _ _ = true |- _ => apply Nat.leb_le in H
  | H : Nat.leb _ _ = false |- _ => apply Nat.leb_gt in H
  | H : Nat.ltb _ _ = true |- _ => apply Nat.ltb_lt in H
  | H : Nat.ltb _ _ = false |- _ => apply Nat.ltb_ge in H
  end.

(** Executes the early returns of a [Result] computation that is known to
    have succeeded (or failed) and keeps the surviving branch. *)
Ltac run H := repeat (break_match_hyp H; try discriminate H); reflect_bools; simplify_eq.

(** ** List lemmas shared by the components *)

Create HintDb rexux.
Create Rewrite HintDb rexux.

Section Lists.
Context {A : Type}.
Implicit Types (l : list A) (x : A).

(** [Vec::last().is_some_and(p)]. *)
Definition last_is (p : A → bool) l : bool :=
  match last l with Some x => p x | None => false end.

(** [for x in v.last_mut() { f(x) }]. *)
Fixpoint alter_last (f : A → A) l : list A :=
  match l with
  | [] => []
  | [x] => [f x]
  | x :: l' => x :: alter_last f l'
  end.

Lemma alter_last_snoc f l x : alter_last f (l ++ [x]) = l ++ [f x].
Proof. induction l as [|y [|z l] IH]; simpl in *; congruence. Qed.

Lemma last_is_snoc p l x : last_is p (l ++ [x]) = p x.
Proof. unfold last_is. by rewrite last_snoc. Qed.

(** Every list is empty or ends in an element. *)
Lemma list_snoc_cases l : l = [] ∨ ∃ l' x, l = l' ++ [x].
Proof. destruct l as [|x l' _] using rev_ind; eauto. Qed.

Lemma last_Some_snoc l x : last l = Some x → ∃ l', l = l' ++ [x].
Proof. intros H. by apply last_Some in H. Qed.

Lemma Forall_snoc_iff (P : A → Prop) l x : Forall P (l ++ [x]) ↔ Forall P l ∧ P x.
Proof. rewrite Forall_app, Forall_singleton. done. Qed.
End Lists.

(** [existsb] and [Iterator::find_map]. *)
Lemma existsb_false_Forall {A} (p : A → bool) l : existsb p l = false → Forall (λ x, p x = false) l.
Proof. induction l as [|x l IH]; simpl; [done|]. intros [Hx Hl]%orb_false_iff. constructor; auto. Qed.

Lemma forallb_Forall {A} (p : A → bool) l : forallb p l = true ↔ Forall (λ x, p x = true) l.
Proof.
  induction l as [|x l IH]; cbn; [by split|]. by rewrite andb_true_iff, Forall_cons, IH.
Qed.
Lemma existsb_elem {A} (p : A → bool) x l : x ∈ l → p x = true → existsb p l = true.
Proof. intros Hx Hp. apply existsb_exists. exists x. by rewrite <- list_elem_of_In. Qed.
Lemma existsb_true_elem {A} (p : A → bool) l : existsb p l = true → ∃ x, x ∈ l ∧ p x = true.
Proof. intros (x & ? & ?)%existsb_exists. exists x. by rewrite list_elem_of_In. Qed.

Lemma elem_of_List_filter {A} (p : A → bool) l x : x ∈ List.filter p l ↔ x ∈ l ∧ p x = true.
Proof. rewrite !list_elem_of_In. apply filter_In. Qed.

Fixpoint find_map {A B} (f : A → option B) (l : list A) : option B :=
  match l with
  | [] => None
  | x :: l => match f x with Some y => Some y | None => find_map f l end
  end.
Lemma find_map_Some {A B} (f : A → option B) l y : find_map f l = Some y → ∃ x, x ∈ l ∧ f x = Some y.
Proof.
  induction l as [|x l IH]; cbn; [done|]. destruct (f x) eqn:Hx; [intros [= ->]; exists x; by split; [left|]|].
  intros (z & ? & ?)%IH. exists z. by split; [right|].
Qed.
Lemma find_map_None {A B} (f : A → option B) l : find_map f l = None → ∀ x, x ∈ l → f x = None.
Proof.
  induction l as [|y l IH]; cbn; [by intros _ ? ?%elem_of_nil|]. destruct (f y) eqn:Hy; [done|].
  intros Hn x [->|Hx]%elem_of_cons; auto.
Qed.

#[export] Hint Rewrite @alter_last_snoc @last_is_snoc @last_snoc : rexux.

(** Acting on one element of a list splits the list. *)
Lemma list_lookup_split {A} (l : list A) i x :
  l !! i = Some x → ∃ l1 l2, l = l1 ++ x :: l2 ∧
    (∀ y, <[i := y]> l = l1 ++ y :: l2) ∧ delete i l = l1 ++ l2.
Proof.
  intros Hi. exists (take i l), (drop (S i) l). split_and!.
  - symmetry. by apply take_drop_middle.
  - intros y. apply insert_take_drop. by eapply lookup_lt_Some.
  - apply delete_take_drop.
Qed.
