(* ===== verification/RustStr.v ===== *)
(** * Rust strings

    A Rust [String] or [&str] is modelled by the list of its [char]s, each a
    Unicode scalar value ([N]).  The operations of [str] and [char] that the
    modelled crates call are defined here with the behaviour the standard
    library documents, together with the algebraic facts the components share.
    Byte lengths ([str::len]) are computed from the UTF-8 width of each char. *)
From stdpp Require Import numbers strings pretty.
From Stdlib Require Import Ascii.
From S2P Require Import Prelude.
Export Ascii.AsciiSyntax.

Abbreviation char := N.
Abbreviation str := (list N).

(** A string literal of the source. *)
Definition lit (s : string) : str := N_of_ascii <$> String.list_ascii_of_string s.
Arguments lit s%_string : simpl never.

Definition LF : char := 10%N.
Definition CR : char := 13%N.
Definition SPACE : char := 32%N.
Arguments LF : simpl never.
Arguments CR : simpl never.
Arguments SPACE : simpl never.

(** The literal char [c]. *)
Definition chr (c : ascii) : char := N_of_ascii c.
Arguments chr c%_char : simpl never.

(** [a == b] on strings. *)
Definition str_eqb (s t : str) : bool := bool_decide (s = t).

(** [format!("{n}")] for an unsigned integer. *)
Definition fmt_N (n : N) : str := lit (pretty n).
Definition fmt_nat (n : nat) : str := fmt_N (N.of_nat n).

(** ** [char] *)

(** [char::is_whitespace]: the Unicode property [White_Space]. *)
Definition is_whitespace (c : char) : bool :=
  ((9 <=? c) && (c <=? 13) || (c =? 32) || (c =? 133) || (c =? 160) || (c =? 5760)
   || ((8192 <=? c) && (c <=? 8202)) || (c =? 8232) || (c =? 8233) || (c =? 8239)
   || (c =? 8287) || (c =? 12288))%N.

(** [char::is_ascii_digit]. *)
Definition is_ascii_digit (c : char) : bool := ((48 <=? c) && (c <=? 57))%N.

(** [char::to_ascii_lowercase]. *)
Definition char_to_ascii_lowercase (c : char) : char :=
  if ((65 <=? c) && (c <=? 90))%N then (c + 32)%N else c.

(** [char::len_utf8]. *)
Definition len_utf8 (c : char) : N :=
  (if c <? 128 then 1 else if c <? 2048 then 2 else if c <? 65536 then 3 else 4)%N.

(** ** [str] *)

(** [str::len]: the number of UTF-8 bytes. *)
Fixpoint blen (s : str) : N :=
  match s with [] => 0%N | c :: s' => (len_utf8 c + blen s')%N end.

(** [str::to_ascii_lowercase]. *)
Definition to_ascii_lowercase (s : str) : str := char_to_ascii_lowercase <$> s.

(** [str::trim_start], [str::trim_end] and [str::trim]. *)
Fixpoint trim_start (s : str) : str :=
  match s with
  | [] => []
  | c :: s' => if is_whitespace c then trim_start s' else s
  end.

Fixpoint trim_end_matches (p : char → bool) (s : str) : str :=
  match s with
  | [] => []
  | c :: s' =>
      match trim_end_matches p s' with
      | [] => if p c then [] else [c]
      | r => c :: r
      end
  end.

Definition trim_end (s : str) : str := trim_end_matches is_whitespace s.
Definition trim (s : str) : str := trim_end (trim_start s).

(** [str::strip_prefix], [str::starts_with]. *)
Fixpoint strip_prefix (p s : str) : option str :=
  match p, s with
  | [], _ => Some s
  | c :: p', d :: s' => if (c =? d)%N then strip_prefix p' s' else None
  | _ :: _, [] => None
  end.

Definition starts_with (p s : str) : bool :=
  match strip_prefix p s with Some _ => true | None => false end.

(** [str::strip_suffix], [str::ends_with]. *)
Definition strip_suffix (p s : str) : option str :=
  if bool_decide (length p ≤ length s) then
    let k := length s - length p in
    if str_eqb (drop k s) p then Some (take k s) else None
  else None.

Definition ends_with (p s : str) : bool :=
  match strip_suffix p s with Some _ => true | None => false end.

(** [str::find]: the offset of the first occurrence.  Offsets are counted in
    chars; every offset the code slices at is a char boundary. *)
Fixpoint find (p s : str) : option nat :=
  if starts_with p s then Some 0
  else match s with
       | [] => None
       | _ :: s' => S <$> find p s'
       end.

Definition contains (p s : str) : bool :=
  match find p s with Some _ => true | None => false end.

(** [s.contains(c)] for a char. *)
Definition contains_char (c : char) (s : str) : bool := existsb (N.eqb c) s.

(** [s.split(c)]: never empty. *)
Fixpoint split (c : char) (s : str) : list str :=
  match s with
  | [] => [[]]
  | d :: s' =>
      if (d =? c)%N then [] :: split c s'
      else match split c s' with
           | [] => [[d]]
           | w :: ws => (d :: w) :: ws
           end
  end.

(** [s.split_inclusive(c)]: each piece keeps its separator; no empty last piece. *)
Fixpoint split_inclusive (c : char) (s : str) : list str :=
  match s with
  | [] => []
  | d :: s' =>
      if (d =? c)%N then [d] :: split_inclusive c s'
      else match split_inclusive c s' with
           | [] => [[d]]
           | w :: ws => (d :: w) :: ws
           end
  end.

(** [s.split_once(c)] and [s.rsplit_once(c)] for a char. *)
Fixpoint split_once (c : char) (s : str) : option (str * str) :=
  match s with
  | [] => None
  | d :: s' =>
      if (d =? c)%N then Some ([], s')
      else match split_once c s' with
           | Some (a, b) => Some (d :: a, b)
           | None => None
           end
  end.

Fixpoint rsplit_once (c : char) (s : str) : option (str * str) :=
  match s with
  | [] => None
  | d :: s' =>
      match rsplit_once c s' with
      | Some (a, b) => Some (d :: a, b)
      | None => if (d =? c)%N then Some ([], s') else None
      end
  end.

(** The line ending [str::lines] removes: ["\n"] or ["\r\n"]. *)
Definition strip_line_ending (line : str) : str :=
  match strip_suffix [LF] line with
  | None => line
  | Some l => default l (strip_suffix [CR] l)
  end.

(** [str::lines]. *)
Definition lines (s : str) : list str := strip_line_ending <$> split_inclusive LF s.

(** [[T]::join]. *)
Fixpoint join (sep : str) (l : list str) : str :=
  match l with
  | [] => []
  | [s] => s
  | s :: l' => s ++ sep ++ join sep l'
  end.

(** [format!("{}\n", line)]. *)
Definition ln (s : str) : str := s ++ [LF].

(** ** Order *)

(** [Ord] on vectors is lexicographic, and so is [Ord] on strings, since UTF-8
    orders like the code points it encodes. *)
Fixpoint lex {A} (cmp : A → A → comparison) (a b : list A) : comparison :=
  match a, b with
  | [], [] => Eq
  | [], _ :: _ => Lt
  | _ :: _, [] => Gt
  | x :: a', y :: b' => match cmp x y with Eq => lex cmp a' b' | c => c end
  end.
Definition str_cmp : str → str → comparison := lex N.compare.

(** ** [io::Error] *)

(** [io::Error]: a kind and the text it displays. *)
Inductive ErrorKind : Type := NotFound | AlreadyExists | InvalidInput | InvalidData | OtherKind.
Record io_error : Type := mkIo { io_kind : ErrorKind; io_text : str }.

#[global] Instance ErrorKind_eq_dec : EqDecision ErrorKind.
Proof. solve_decision. Defined.

(** ** Facts *)

Lemma str_eqb_refl s : str_eqb s s = true.
Proof. unfold str_eqb. by case_bool_decide. Qed.

Lemma str_eqb_eq s t : str_eqb s t = true ↔ s = t.
Proof. unfold str_eqb. by rewrite bool_decide_eq_true. Qed.

Lemma str_eqb_neq s t : str_eqb s t = false ↔ s ≠ t.
Proof. unfold str_eqb. by rewrite bool_decide_eq_false. Qed.

(** *** Prefixes and suffixes *)

Lemma strip_prefix_app p s : strip_prefix p (p ++ s) = Some s.
Proof. induction p as [|c p IH]; simpl; [done|]. by rewrite N.eqb_refl. Qed.

Lemma strip_prefix_Some p s r : strip_prefix p s = Some r ↔ s = p ++ r.
Proof.
  split; [|intros ->; apply strip_prefix_app].
  revert s; induction p as [|c p IH]; intros [|d s] H; simplify_eq/=; try done.
  destruct (N.eqb_spec c d); simplify_eq. by rewrite (IH s).
Qed.

Lemma starts_with_spec p s : starts_with p s = true ↔ ∃ r, s = p ++ r.
Proof.
  unfold starts_with. destruct (strip_prefix p s) as [r|] eqn:E.
  - apply strip_prefix_Some in E. naive_solver.
  - split; [done|]. intros [r ->]. by rewrite strip_prefix_app in E.
Qed.

Lemma starts_with_app p s : starts_with p (p ++ s) = true.
Proof. apply starts_with_spec. eauto. Qed.

Lemma strip_suffix_Some p s r : strip_suffix p s = Some r ↔ s = r ++ p.
Proof.
  unfold strip_suffix. case_bool_decide as Hlen; [destruct (str_eqb _ _) eqn:E|].
  - apply str_eqb_eq in E. split; intros H; simplify_eq.
    + rewrite <- E at 2. by rewrite take_drop.
    + f_equal. rewrite length_app, Nat.add_sub, take_app_le, take_ge by lia. done.
  - split; [done|]. intros ->. apply str_eqb_neq in E.
    rewrite length_app, Nat.add_sub, drop_app_length in E. done.
  - split; [done|]. intros ->. rewrite length_app in Hlen. lia.
Qed.

Lemma strip_suffix_app p s : strip_suffix p (s ++ p) = Some s.
Proof. by apply strip_suffix_Some. Qed.

Lemma ends_with_spec p s : ends_with p s = true ↔ ∃ r, s = r ++ p.
Proof.
  unfold ends_with. destruct (strip_suffix p s) as [r|] eqn:E.
  - apply strip_suffix_Some in E. naive_solver.
  - split; [done|]. intros [r ->]. by rewrite strip_suffix_app in E.
Qed.

(** *** Trimming *)

Lemma trim_start_id s c : head s = Some c → is_whitespace c = false → trim_start s = s.
Proof. destruct s as [|d s]; simpl; [done|]. by intros [= ->] ->. Qed.

Lemma trim_end_matches_id p s c :
  last s = Some c → p c = false → trim_end_matches p s = s.
Proof.
  induction s as [|d [|e s] IH]; intros Hl Hp; simplify_eq/=; [by rewrite Hp|].
  rewrite IH by done. done.
Qed.

Lemma trim_end_id s c : last s = Some c → is_whitespace c = false → trim_end s = s.
Proof. apply trim_end_matches_id. Qed.

Lemma trim_id s c d :
  head s = Some c → is_whitespace c = false →
  last s = Some d → is_whitespace d = false → trim s = s.
Proof.
  intros. unfold trim. rewrite (trim_start_id s c) by done. by apply (trim_end_id s d).
Qed.

(** What is trimmed off satisfies the predicate, and the rest ends in a char
    that does not. *)
Lemma trim_end_matches_spec p s :
  ∃ t, s = trim_end_matches p s ++ t ∧ Forall (λ c, p c = true) t ∧
       ∀ c, last (trim_end_matches p s) = Some c → p c = false.
Proof.
  induction s as [|d s (t & Hs & Ht & Hl)]; simpl; [exists []; naive_solver|].
  destruct (trim_end_matches p s) as [|e r] eqn:E.
  - destruct (p d) eqn:Hd.
    + exists (d :: t). subst s. simpl in *. naive_solver.
    + exists t. subst s. simpl. naive_solver.
  - exists t. split_and!; [by rewrite Hs at 1|done|].
    intros c. rewrite last_cons_cons. apply Hl.
Qed.

Lemma trim_start_spec s :
  ∃ t, s = t ++ trim_start s ∧ Forall (λ c, is_whitespace c = true) t ∧
       ∀ c, head (trim_start s) = Some c → is_whitespace c = false.
Proof.
  induction s as [|d s (t & Hs & Ht & Hl)]; simpl; [exists []; naive_solver|].
  destruct (is_whitespace d) eqn:Hd; [|exists []; naive_solver].
  exists (d :: t). simpl. split_and!; [by rewrite Hs at 1|by constructor|done].
Qed.

(** *** Splitting and joining *)

Lemma split_ne_nil c s : split c s ≠ [].
Proof. destruct s; simpl; [done|]. repeat case_match; done. Qed.

Lemma join_cons sep s l : l ≠ [] → join sep (s :: l) = s ++ sep ++ join sep l.
Proof. by destruct l. Qed.

Lemma join_split c s : join [c] (split c s) = s.
Proof.
  induction s as [|d s IH]; [done|]. simpl.
  destruct (N.eqb_spec d c) as [->|_].
  - rewrite join_cons by apply split_ne_nil. simpl. by rewrite IH.
  - destruct (split c s) as [|w ws] eqn:E; [by destruct (split_ne_nil c s)|].
    destruct ws; simpl in *; congruence.
Qed.

Lemma split_no_sep c s : c ∉ s → split c s = [s].
Proof.
  induction s as [|d s IH]; [done|]. rewrite not_elem_of_cons. intros [Hd Hs]. simpl.
  destruct (N.eqb_spec d c); [congruence|]. by rewrite IH.
Qed.

Lemma split_app c a b : c ∉ a → split c (a ++ c :: b) = a :: split c b.
Proof.
  induction a as [|d a IH]; simpl; [by rewrite N.eqb_refl|].
  rewrite not_elem_of_cons. intros [Hd Ha].
  destruct (N.eqb_spec d c); [congruence|]. by rewrite IH.
Qed.

Lemma split_join c l : l ≠ [] → Forall (λ s, c ∉ s) l → split c (join [c] l) = l.
Proof.
  induction l as [|s [|t l] IH]; [done|..]; intros _ Hl; inversion_clear Hl as [|?? Hs Hl'].
  - by apply split_no_sep.
  - rewrite join_cons by done. cbn [app]. rewrite split_app by done. by rewrite IH.
Qed.

Lemma split_once_Some c s a b : split_once c s = Some (a, b) → s = a ++ c :: b.
Proof.
  revert a b. induction s as [|d s IH]; intros a b; simpl; [done|].
  destruct (N.eqb_spec d c) as [->|]; [by intros [= <- <-]|].
  destruct (split_once c s) as [[a' b']|]; [|done]. intros [= <- <-]. simpl. f_equal. by apply IH.
Qed.

Lemma split_inclusive_concat c s : concat (split_inclusive c s) = s.
Proof.
  induction s as [|d s IH]; [done|]. simpl.
  destruct (N.eqb_spec d c) as [->|_]; [simpl; congruence|].
  destruct (split_inclusive c s) as [|w ws]; simpl in *; congruence.
Qed.

Lemma split_inclusive_app c a b :
  c ∉ a → split_inclusive c (a ++ c :: b) = (a ++ [c]) :: split_inclusive c b.
Proof.
  induction a as [|d a IH]; simpl; [by rewrite N.eqb_refl|].
  rewrite not_elem_of_cons. intros [Hd Ha].
  destruct (N.eqb_spec d c); [congruence|]. by rewrite IH.
Qed.

Lemma split_inclusive_no_sep c s : c ∉ s → s ≠ [] → split_inclusive c s = [s].
Proof.
  induction s as [|d s IH]; [done|]. rewrite not_elem_of_cons. intros [Hd Hs] _. simpl.
  destruct (N.eqb_spec d c); [congruence|].
  destruct s as [|e s]; [done|]. by rewrite IH.
Qed.

(** A line as [lines] returns it: no line feed, and no carriage return at the
    end. *)
Definition clean_line (s : str) : Prop := (LF ∉ s) ∧ last s ≠ Some CR.

#[global] Instance clean_line_dec s : Decision (clean_line s).
Proof. unfold clean_line. apply _. Defined.

Lemma strip_suffix_single_None c s : last s ≠ Some c → strip_suffix [c] s = None.
Proof.
  intros H. destruct (strip_suffix [c] s) as [r|] eqn:E; [|done].
  apply strip_suffix_Some in E as ->. by rewrite last_snoc in H.
Qed.

Lemma strip_line_ending_ln s : clean_line s → strip_line_ending (s ++ [LF]) = s.
Proof.
  intros [_ H]. unfold strip_line_ending. rewrite strip_suffix_app.
  by rewrite strip_suffix_single_None.
Qed.

Lemma strip_line_ending_no_lf s : LF ∉ s → strip_line_ending s = s.
Proof.
  intros H. unfold strip_line_ending. rewrite strip_suffix_single_None; [done|].
  intros [s' ->]%last_Some. set_solver.
Qed.

Lemma lines_app a b : clean_line a → lines (a ++ LF :: b) = a :: lines b.
Proof.
  intros Ha. unfold lines. rewrite split_inclusive_app by apply Ha. simpl.
  by rewrite strip_line_ending_ln.
Qed.

(** Joining clean lines and splitting again is the identity, as long as the
    last one is not empty ([lines] drops an empty last piece). *)
Lemma lines_join l s :
  Forall clean_line l → LF ∉ s → s ≠ [] → lines (join [LF] (l ++ [s])) = l ++ [s].
Proof.
  intros Hl Hs Hne. induction Hl as [|a l Ha Hl IH]; cbn [app].
  - unfold lines. simpl join. rewrite split_inclusive_no_sep by done. simpl.
    by rewrite strip_line_ending_no_lf.
  - rewrite join_cons by (by destruct l). cbn [app].
    rewrite lines_app by done. by rewrite IH.
Qed.

(** Cutting a text at a separator that does not follow another one. *)
Lemma split_inclusive_app_ne c a b :
  a ≠ [] → last a ≠ Some c →
  ∃ ws w, split_inclusive c a = ws ++ [w] ∧ (c ∉ w) ∧ last w = last a ∧
          split_inclusive c (a ++ c :: b) = ws ++ (w ++ [c]) :: split_inclusive c b.
Proof.
  induction a as [|d a IH]; intros Hne Hlast; [done|]. destruct a as [|e a].
  - simpl in *. destruct (N.eqb_spec d c); [congruence|]. rewrite N.eqb_refl.
    exists [], [d]. split_and!; [done|set_solver|done|done].
  - destruct IH as (ws & w & Hs & Hw & Hl & Happ); [done|by destruct a|].
    cbn [app split_inclusive] in *. rewrite Hs, Happ.
    destruct (N.eqb_spec d c) as [->|Hd].
    + exists ([c] :: ws), w. split_and!; [done|done|by destruct a|done].
    + destruct ws as [|v ws].
      * exists [], (d :: w). split_and!; [done|set_solver| |done].
        destruct w as [|x w]; [by apply eq_sym, last_None in Hl|exact Hl].
      * exists ((d :: v) :: ws), w. split_and!; [done|done|by destruct a|done].
Qed.

Lemma lines_app_ne a b :
  a ≠ [] → last a ≠ Some LF → last a ≠ Some CR → lines (a ++ LF :: b) = lines a ++ lines b.
Proof.
  intros Hne Hlf Hcr. destruct (split_inclusive_app_ne LF a b) as (ws & w & Hs & Hw & Hl & Happ);
    [done..|]. unfold lines. rewrite Happ, Hs, !fmap_app, fmap_cons, <- app_assoc. simpl.
  rewrite strip_line_ending_ln, strip_line_ending_no_lf; [done|done|]. split; [done|]. by rewrite Hl.
Qed.

(** *** Byte lengths *)

(** Text that ends in [c] splits off whole. *)
Lemma split_inclusive_app_full c a b :
  a = [] ∨ last a = Some c → split_inclusive c (a ++ b) = split_inclusive c a ++ split_inclusive c b.
Proof.
  remember (length a) as n eqn:Hn. revert a Hn. induction (lt_wf n) as [n _ IH]. intros a -> Ha.
  destruct (decide (a = [])) as [->|Hne]; [done|]. destruct Ha as [|Ha]; [done|].
  assert (c ∈ a) as (l & r & -> & Hl)%list_elem_of_split_l
    by (apply last_Some in Ha as [a' ->]; set_solver).
  rewrite <- app_assoc. simpl. rewrite !split_inclusive_app by done. simpl. f_equal.
  apply (IH (length r)); [rewrite length_app; simpl; lia|done|].
  destruct (list_snoc_cases r) as [->|(r' & x & ->)]; [by left|right].
  rewrite app_comm_cons, app_assoc, !last_snoc in Ha. by rewrite last_snoc.
Qed.

Lemma len_utf8_bounds c : (1 ≤ len_utf8 c ≤ 4)%N.
Proof. unfold len_utf8. repeat case_match; lia. Qed.

Lemma blen_app s t : blen (s ++ t) = (blen s + blen t)%N.
Proof. induction s; simpl; lia. Qed.

Lemma blen_zero s : blen s = 0%N ↔ s = [].
Proof.
  destruct s as [|c s]; simpl; [done|]. pose proof (len_utf8_bounds c).
  split; [lia|done].
Qed.

(** *** Order *)

Lemma lex_eq {A} (cmp : A → A → comparison) a b :
  (∀ x y, cmp x y = Eq ↔ x = y) → lex cmp a b = Eq ↔ a = b.
Proof.
  intros Hc. revert b. induction a as [|x a IH]; intros [|y b]; simpl; try done.
  destruct (cmp x y) eqn:E.
  - apply Hc in E as ->. rewrite IH. naive_solver.
  - split; [done|]. intros [= -> ->]. by rewrite (proj2 (Hc y y)) in E.
  - split; [done|]. intros [= -> ->]. by rewrite (proj2 (Hc y y)) in E.
Qed.

Lemma str_cmp_eq a b : str_cmp a b = Eq ↔ a = b.
Proof. apply lex_eq. apply N.compare_eq_iff. Qed.
