(* ===== verification/ByteStr.v ===== *)
(** * Strings addressed by byte offsets

    The editable buffer of the composer addresses its text with byte offsets.
    A string is still the list of its [char]s; the operations of [str] and
    [String] that take a byte offset are defined here.  Slicing, inserting and
    replacing return [None] where Rust panics: an offset past the end or in the
    middle of a char.  The lemmas characterise each operation by the way it
    splits the text, so that the components never reason about offsets one
    char at a time. *)
From stdpp Require Import numbers strings list.
From S2P Require Import Prelude RustStr.

(** ** Operations *)

(** [str::split_at_checked]. *)
Fixpoint split_at_byte (n : N) (s : str) : option (str * str) :=
  if (n =? 0)%N then Some ([], s)
  else match s with
       | [] => None
       | c :: s' =>
           if (len_utf8 c <=? n)%N then
             match split_at_byte (n - len_utf8 c) s' with
             | Some (a, b) => Some (c :: a, b)
             | None => None
             end
           else None
       end.

(** [str::is_char_boundary]. *)
Definition is_char_boundary (s : str) (n : N) : bool :=
  match split_at_byte n s with Some _ => true | None => false end.

(** [&s[..n]] and [&s[n..]]. *)
Definition slice_to (n : N) (s : str) : option str := fst <$> split_at_byte n s.
Definition slice_from (n : N) (s : str) : option str := snd <$> split_at_byte n s.

(** [s.get(a..b)]; [&s[a..b]] panics where it is [None]. *)
Definition get_range (a b : N) (s : str) : option str :=
  if (a <=? b)%N then pre ← slice_to b s; slice_from a pre else None.

(** [String::replace_range]. *)
Definition str_replace_range (a b : N) (t s : str) : option str :=
  if (a <=? b)%N then pre ← slice_to a s; post ← slice_from b s; Some (pre ++ t ++ post)
  else None.

(** [String::insert_str]. *)
Definition str_insert (n : N) (t s : str) : option str :=
  '(pre, post) ← split_at_byte n s; Some (pre ++ t ++ post).

(** [str::find] with a char predicate: the byte offset of the first match. *)
Fixpoint find_char (p : char → bool) (s : str) : option N :=
  match s with
  | [] => None
  | c :: s' => if p c then Some 0%N else (λ i, (len_utf8 c + i)%N) <$> find_char p s'
  end.

(** [s.char_indices().rev().find(p)]: the last match with its byte offset. *)
Fixpoint rfind_char (p : char → bool) (s : str) : option (N * char) :=
  match s with
  | [] => None
  | c :: s' =>
      match rfind_char p s' with
      | Some (i, d) => Some (len_utf8 c + i, d)%N
      | None => if p c then Some (0%N, c) else None
      end
  end.

(** ** Boundaries *)

Definition boundary (s : str) (n : N) : Prop := is_char_boundary s n = true.

Lemma len_utf8_pos c : (0 < len_utf8 c)%N.
Proof. pose proof (len_utf8_bounds c). lia. Qed.

Lemma split_at_byte_app a b : split_at_byte (blen a) (a ++ b) = Some (a, b).
Proof.
  induction a as [|c a IH]; simpl; [by destruct b|].
  pose proof (len_utf8_pos c).
  destruct (N.eqb_spec (len_utf8 c + blen a) 0); [lia|].
  destruct (N.leb_spec (len_utf8 c) (len_utf8 c + blen a)); [|lia].
  by replace (len_utf8 c + blen a - len_utf8 c)%N with (blen a) by lia; rewrite IH.
Qed.

Lemma split_at_byte_Some n s a b : split_at_byte n s = Some (a, b) ↔ s = a ++ b ∧ blen a = n.
Proof.
  split; [|intros [-> <-]; apply split_at_byte_app].
  revert n a. induction s as [|c s IH]; intros n a; simpl.
  - destruct (N.eqb_spec n 0) as [->|]; [intros [= <- <-]; done|done].
  - destruct (N.eqb_spec n 0) as [->|]; [intros [= <- <-]; done|].
    destruct (N.leb_spec (len_utf8 c) n); [|done].
    destruct (split_at_byte _ _) as [[a' b']|] eqn:E; [|done].
    intros [= <- <-]. destruct (IH _ _ E) as [-> ?]. simpl. split; [done|lia].
Qed.

Lemma boundary_iff s n : boundary s n ↔ ∃ a b, s = a ++ b ∧ blen a = n.
Proof.
  unfold boundary, is_char_boundary. split.
  - destruct (split_at_byte n s) as [[a b]|] eqn:E; [|done]. apply split_at_byte_Some in E. eauto.
  - intros (a & b & H). apply split_at_byte_Some in H. by rewrite H.
Qed.

#[global] Instance boundary_dec s n : Decision (boundary s n).
Proof. unfold boundary. apply _. Defined.

Lemma boundary_0 s : boundary s 0.
Proof. apply boundary_iff. by exists [], s. Qed.

Lemma boundary_len s : boundary s (blen s).
Proof. apply boundary_iff. exists s, []. by rewrite app_nil_r. Qed.

Lemma boundary_le s n : boundary s n → (n ≤ blen s)%N.
Proof. intros (a & b & -> & <-)%boundary_iff. rewrite blen_app. lia. Qed.

Lemma boundary_blen_app a b : boundary (a ++ b) (blen a).
Proof. apply boundary_iff. eauto. Qed.

(** Two splits of one text: the shorter first part is a prefix of the longer. *)
Lemma app_blen_le (a b p q : str) :
  a ++ b = p ++ q → (blen a ≤ blen p)%N → ∃ m, p = a ++ m ∧ b = m ++ q.
Proof.
  revert p. induction a as [|c a IH]; intros p H Hle; [by exists p|].
  destruct p as [|d p]; simpl in *.
  - pose proof (len_utf8_pos c). lia.
  - simplify_eq. destruct (IH p) as (m & -> & ->); [done|lia|]. by exists m.
Qed.

Lemma app_blen_eq (a b p q : str) : a ++ b = p ++ q → blen a = blen p → a = p ∧ b = q.
Proof.
  intros H E. destruct (app_blen_le a b p q H) as (m & -> & ->); [lia|].
  rewrite blen_app in E. assert (m = []) as -> by (apply blen_zero; lia).
  by rewrite app_nil_r.
Qed.

Lemma boundary_app_l p q n : (n ≤ blen p)%N → boundary (p ++ q) n ↔ boundary p n.
Proof.
  intros Hn. rewrite !boundary_iff. split.
  - intros (a & b & E & <-). destruct (app_blen_le a b p q) as (m & -> & _); [done|done|].
    by exists a, m.
  - intros (a & b & -> & <-). exists a, (b ++ q). by rewrite app_assoc.
Qed.

Lemma boundary_app_r p q n : boundary (p ++ q) (blen p + n) ↔ boundary q n.
Proof.
  rewrite !boundary_iff. split.
  - intros (a & b & E & H). destruct (app_blen_le p q a b) as (m & -> & ->); [done|lia|].
    rewrite blen_app in H. exists m, b. split; [done|lia].
  - intros (a & b & -> & <-). exists (p ++ a), b. by rewrite <-app_assoc, blen_app.
Qed.

(** ** Slices *)

Lemma slice_to_Some n s a : slice_to n s = Some a ↔ ∃ b, s = a ++ b ∧ blen a = n.
Proof.
  unfold slice_to. rewrite fmap_Some. split.
  - intros ([a' b] & E & ->). apply split_at_byte_Some in E. eauto.
  - intros (b & H). apply split_at_byte_Some in H. by exists (a, b).
Qed.

Lemma slice_from_Some n s b : slice_from n s = Some b ↔ ∃ a, s = a ++ b ∧ blen a = n.
Proof.
  unfold slice_from. rewrite fmap_Some. split.
  - intros ([a b'] & E & ->). apply split_at_byte_Some in E. eauto.
  - intros (a & H). apply split_at_byte_Some in H. by exists (a, b).
Qed.

Lemma get_range_Some a b s m :
  get_range a b s = Some m ↔ ∃ p q, s = p ++ m ++ q ∧ blen p = a ∧ (blen p + blen m = b)%N.
Proof.
  unfold get_range. split.
  - destruct (N.leb_spec a b); [|done]. rewrite bind_Some.
    intros (pre & (q & -> & Hb)%slice_to_Some & (p & -> & Ha)%slice_from_Some).
    exists p, q. rewrite <-app_assoc. rewrite blen_app in Hb. split; [done|lia].
  - intros (p & q & -> & <- & <-). destruct (N.leb_spec (blen p) (blen p + blen m)); [|lia].
    assert (slice_to (blen p + blen m) (p ++ m ++ q) = Some (p ++ m)) as ->.
    { apply slice_to_Some. exists q. by rewrite <-app_assoc, blen_app. }
    simpl. apply slice_from_Some. eauto.
Qed.

(** A range between two boundaries splits the text in three. *)
Lemma boundary_split s a b :
  boundary s a → boundary s b → (a ≤ b)%N →
  ∃ p m q, s = p ++ m ++ q ∧ blen p = a ∧ (blen p + blen m = b)%N.
Proof.
  intros (p & r & E1 & <-)%boundary_iff (p' & q & E2 & <-)%boundary_iff Hle.
  destruct (app_blen_le p r p' q) as (m & -> & ->); [congruence|done|].
  exists p, m, q. by rewrite blen_app.
Qed.

Lemma get_range_is_Some s a b :
  is_Some (get_range a b s) ↔ boundary s a ∧ boundary s b ∧ (a ≤ b)%N.
Proof.
  split.
  - intros [m (p & q & -> & <- & <-)%get_range_Some]. split_and!.
    + apply boundary_blen_app.
    + rewrite app_assoc, <-blen_app. apply boundary_blen_app.
    + lia.
  - intros (Ha & Hb & Hle). destruct (boundary_split s a b) as (p & m & q & ?); [done..|].
    exists m. apply get_range_Some. eauto.
Qed.

Lemma str_replace_range_split p m q t :
  str_replace_range (blen p) (blen p + blen m) t (p ++ m ++ q) = Some (p ++ t ++ q).
Proof.
  unfold str_replace_range. destruct (N.leb_spec (blen p) (blen p + blen m)); [|lia].
  assert (slice_to (blen p) (p ++ m ++ q) = Some p) as -> by (apply slice_to_Some; eauto).
  assert (slice_from (blen p + blen m) (p ++ m ++ q) = Some q) as ->; [|done].
  apply slice_from_Some. exists (p ++ m). by rewrite <-app_assoc, blen_app.
Qed.

Lemma str_insert_split p q t : str_insert (blen p) t (p ++ q) = Some (p ++ t ++ q).
Proof. unfold str_insert. by rewrite split_at_byte_app. Qed.

(** ** Edits

    Replacing the middle [m] of [p ++ m ++ q] by [t] keeps the boundaries and
    slices before it and shifts those after it. *)
Section edit.
Context (p m q t : str).

Lemma edit_boundary_before n :
  (n ≤ blen p)%N → boundary (p ++ m ++ q) n → boundary (p ++ t ++ q) n.
Proof. intros Hn. by rewrite !boundary_app_l. Qed.

Lemma edit_boundary_after n :
  (blen p + blen m ≤ n)%N → boundary (p ++ m ++ q) n →
  boundary (p ++ t ++ q) (n - blen m + blen t).
Proof.
  intros Hn. rewrite !app_assoc.
  replace n with (blen (p ++ m) + (n - blen p - blen m))%N by (rewrite blen_app; lia).
  rewrite boundary_app_r. intros Hb.
  replace (blen (p ++ m) + (n - blen p - blen m) - blen m + blen t)%N
    with (blen (p ++ t) + (n - blen p - blen m))%N by (rewrite !blen_app; lia).
  by apply boundary_app_r.
Qed.

Lemma edit_boundary_end : boundary (p ++ t ++ q) (blen p + blen t).
Proof. rewrite app_assoc, <-blen_app. apply boundary_blen_app. Qed.

Lemma edit_get_before a b :
  (b ≤ blen p)%N → get_range a b (p ++ t ++ q) = get_range a b (p ++ m ++ q).
Proof.
  intros Hb. unfold get_range. destruct (a <=? b)%N; [|done]. f_equal.
  apply option_eq. intros pre. rewrite !slice_to_Some. split; intros (r & E & <-).
  - destruct (app_blen_le pre r p (t ++ q)) as (x & -> & _); [done|done|].
    exists (x ++ m ++ q). by rewrite !app_assoc.
  - destruct (app_blen_le pre r p (m ++ q)) as (x & -> & _); [done|done|].
    exists (x ++ t ++ q). by rewrite !app_assoc.
Qed.

Lemma edit_get_after a b x :
  (blen p + blen m ≤ a)%N → get_range a b (p ++ m ++ q) = Some x →
  get_range (a - blen m + blen t) (b - blen m + blen t) (p ++ t ++ q) = Some x.
Proof.
  intros Ha (u & v & E & Hu & Hx)%get_range_Some. apply get_range_Some.
  rewrite app_assoc in E.
  destruct (app_blen_le (p ++ m) q u (x ++ v)) as (w & -> & ->); [done|rewrite blen_app; lia|].
  exists (p ++ t ++ w), v. rewrite !blen_app in *. rewrite <-!app_assoc. split; [done|lia].
Qed.
End edit.

(** ** Searching *)

Lemma find_char_Some p s i :
  find_char p s = Some i →
  ∃ a c b, s = a ++ c :: b ∧ blen a = i ∧ p c = true ∧ Forall (λ d, p d = false) a.
Proof.
  revert i. induction s as [|c s IH]; intros i; simpl; [done|].
  destruct (p c) eqn:Hc; [intros [= <-]; exists [], c, s; by repeat constructor|].
  rewrite fmap_Some. intros (j & Hj & ->). destruct (IH j Hj) as (a & d & b & -> & <- & Hd & Ha).
  exists (c :: a), d, b. by repeat constructor.
Qed.

Lemma find_char_None p s : find_char p s = None ↔ Forall (λ d, p d = false) s.
Proof.
  induction s as [|c s IH]; simpl; [by split; [constructor|]|].
  rewrite Forall_cons, <-IH. destruct (p c); [by split; [|intros [? _]]|].
  rewrite fmap_None. naive_solver.
Qed.

Lemma rfind_char_Some p s i c :
  rfind_char p s = Some (i, c) →
  ∃ a b, s = a ++ c :: b ∧ blen a = i ∧ p c = true ∧ Forall (λ d, p d = false) b.
Proof.
  revert i. induction s as [|d s IH]; intros i; simpl; [done|].
  destruct (rfind_char p s) as [[j e]|] eqn:E.
  - intros [= <- <-]. destruct (IH _ eq_refl) as (a & b & -> & <- & Hp & Hb).
    by exists (d :: a), b.
  - destruct (p d) eqn:Hd; [|done]. intros [= <- <-]. exists [], s. split_and!; [done..|].
    clear -E. revert E. induction s as [|e s IH]; simpl; [by constructor|].
    destruct (rfind_char p s) as [[]|]; [done|]. destruct (p e) eqn:He; [done|]. by constructor; auto.
Qed.
