(* ===== verification/Utf8.v ===== *)
(** * UTF-8

    [std::str::from_utf8] with the error positions it reports, and the
    encoding of text, for the code that handles raw bytes. *)
From stdpp Require Import numbers.
From S2P Require Import Prelude RustStr.

(** A byte is a number below 256. *)
Abbreviation bytes := (list N).

(** [Utf8Error]. *)
Record Utf8Error : Type := mkUtf8Error { valid_up_to : nat; error_len : option nat }.

Definition is_cont (b : N) : bool := ((128 <=? b) && (b <=? 191))%N.

(** The second bytes a three-byte and a four-byte sequence may have. *)
Definition second3 (b0 b1 : N) : bool :=
  ((if b0 =? 224 then 160 else 128) <=? b1)%N && (b1 <=? (if b0 =? 237 then 159 else 191))%N.
Definition second4 (b0 b1 : N) : bool :=
  ((if b0 =? 240 then 144 else 128) <=? b1)%N && (b1 <=? (if b0 =? 244 then 143 else 191))%N.

Definition cons_char (c : char) (r : result Utf8Error str) : result Utf8Error str :=
  let? s := r in Ok (c :: s).

(** [from_utf8] from position [pos]. *)
Fixpoint decode (pos : nat) (bs : bytes) : result Utf8Error str :=
  let err n := Err (mkUtf8Error pos n) in
  match bs with
  | [] => Ok []
  | b0 :: t0 =>
      if (b0 <? 128)%N then cons_char b0 (decode (pos + 1) t0)
      else if ((194 <=? b0) && (b0 <=? 223))%N then
        match t0 with
        | [] => err None
        | b1 :: t1 =>
            if is_cont b1 then cons_char ((b0 - 192) * 64 + (b1 - 128))%N (decode (pos + 2) t1)
            else err (Some 1)
        end
      else if ((224 <=? b0) && (b0 <=? 239))%N then
        match t0 with
        | [] => err None
        | b1 :: t1 =>
            if second3 b0 b1 then
              match t1 with
              | [] => err None
              | b2 :: t2 =>
                  if is_cont b2
                  then cons_char ((b0 - 224) * 4096 + (b1 - 128) * 64 + (b2 - 128))%N (decode (pos + 3) t2)
                  else err (Some 2)
              end
            else err (Some 1)
        end
      else if ((240 <=? b0) && (b0 <=? 244))%N then
        match t0 with
        | [] => err None
        | b1 :: t1 =>
            if second4 b0 b1 then
              match t1 with
              | [] => err None
              | b2 :: t2 =>
                  if is_cont b2 then
                    match t2 with
                    | [] => err None
                    | b3 :: t3 =>
                        if is_cont b3
                        then cons_char ((b0 - 240) * 262144 + (b1 - 128) * 4096 + (b2 - 128) * 64 + (b3 - 128))%N
                               (decode (pos + 4) t3)
                        else err (Some 3)
                    end
                  else err (Some 2)
              end
            else err (Some 1)
        end
      else err (Some 1)
  end.

(** [std::str::from_utf8]. *)
Definition from_utf8 (bs : bytes) : result Utf8Error str := decode 0 bs.

(** [char::encode_utf8], [str::as_bytes]. *)
Definition encode_char (c : char) : bytes :=
  (if c <? 128 then [c]
   else if c <? 2048 then [192 + c / 64; 128 + c mod 64]
   else if c <? 65536 then [224 + c / 4096; 128 + c / 64 mod 64; 128 + c mod 64]
   else [240 + c / 262144; 128 + c / 4096 mod 64; 128 + c / 64 mod 64; 128 + c mod 64])%N.
Definition encode (s : str) : bytes := s ≫= encode_char.

(** A [char] is a Unicode scalar value. *)
Definition is_scalar (c : char) : bool := ((c <? 55296) || ((57343 <? c) && (c <? 1114112)))%N.
Definition scalar_text (s : str) : Prop := Forall (λ c, is_scalar c = true) s.

(** ** Facts *)

(** [lia] with quotients and remainders. *)
#[local] Ltac Zify.zify_post_hook ::= Z.to_euclidean_division_equations.

Lemma encode_app s t : encode (s ++ t) = encode s ++ encode t.
Proof. apply bind_app. Qed.
Lemma encode_cons c s : encode (c :: s) = encode_char c ++ encode s.
Proof. done. Qed.

Lemma encode_char_length c : length (encode_char c) = N.to_nat (len_utf8 c).
Proof. unfold encode_char, len_utf8. repeat case_match; done. Qed.
Lemma encode_length s : length (encode s) = N.to_nat (blen s).
Proof.
  induction s as [|c s IH]; [done|]. rewrite encode_cons, length_app, encode_char_length, IH. simpl. lia.
Qed.
Lemma encode_char_pos c : 0 < length (encode_char c).
Proof. rewrite encode_char_length. pose proof (len_utf8_bounds c). lia. Qed.

Ltac split_N_bools :=
  repeat match goal with
  | H : (_ && _)%bool = true |- _ => apply andb_true_iff in H as [? ?]
  | H : (_ || _)%bool = true |- _ => apply orb_true_iff in H as [?|?]
  | H : (_ <=? _)%N = true |- _ => apply N.leb_le in H
  | H : (_ <=? _)%N = false |- _ => apply N.leb_gt in H
  | H : (_ <? _)%N = true |- _ => apply N.ltb_lt in H
  | H : (_ <? _)%N = false |- _ => apply N.ltb_ge in H
  | H : (_ =? _)%N = true |- _ => apply N.eqb_eq in H
  | H : (_ =? _)%N = false |- _ => apply N.eqb_neq in H
  end.

(** Proves a test of the decoder from the ranges of its numbers. *)
Ltac byte_test :=
  unfold second3, second4, is_cont, is_scalar in *; split_N_bools;
  repeat match goal with |- context [if (?a =? ?b)%N then _ else _] => destruct (N.eqb_spec a b) end;
  first [ apply andb_true_iff; split; apply N.leb_le; lia
        | apply andb_false_iff; first [left; apply N.leb_gt; lia | right; apply N.leb_gt; lia]
        | apply N.ltb_ge; lia ].

(** The tests the bytes of a scalar value pass, by the length of its encoding. *)
Lemma sequence2 c (b0 := (192 + c / 64)%N) (b1 := (128 + c mod 64)%N) :
  (c <? 128)%N = false → (c <? 2048)%N = true →
  (b0 <? 128)%N = false ∧ ((194 <=? b0) && (b0 <=? 223))%N = true ∧ is_cont b1 = true ∧
  ((b0 - 192) * 64 + (b1 - 128))%N = c.
Proof. intros. subst b0 b1. split_and!; [byte_test..|split_N_bools; lia]. Qed.

Lemma sequence3 c (b0 := (224 + c / 4096)%N) (b1 := (128 + c / 64 mod 64)%N) (b2 := (128 + c mod 64)%N) :
  is_scalar c = true → (c <? 2048)%N = false → (c <? 65536)%N = true →
  (b0 <? 128)%N = false ∧ ((194 <=? b0) && (b0 <=? 223))%N = false ∧
  ((224 <=? b0) && (b0 <=? 239))%N = true ∧ second3 b0 b1 = true ∧ is_cont b2 = true ∧
  ((b0 - 224) * 4096 + (b1 - 128) * 64 + (b2 - 128))%N = c.
Proof. intros. subst b0 b1 b2. split_and!; [byte_test..|split_N_bools; lia]. Qed.

Lemma sequence4 c (b0 := (240 + c / 262144)%N) (b1 := (128 + c / 4096 mod 64)%N)
    (b2 := (128 + c / 64 mod 64)%N) (b3 := (128 + c mod 64)%N) :
  is_scalar c = true → (c <? 65536)%N = false →
  (b0 <? 128)%N = false ∧ ((194 <=? b0) && (b0 <=? 223))%N = false ∧
  ((224 <=? b0) && (b0 <=? 239))%N = false ∧ ((240 <=? b0) && (b0 <=? 244))%N = true ∧
  second4 b0 b1 = true ∧ is_cont b2 = true ∧ is_cont b3 = true ∧
  ((b0 - 240) * 262144 + (b1 - 128) * 4096 + (b2 - 128) * 64 + (b3 - 128))%N = c.
Proof. intros. subst b0 b1 b2 b3. split_and!; [byte_test..|split_N_bools; lia]. Qed.

(** Decoding the bytes of a scalar value yields it. *)
Lemma decode_char pos c bs :
  is_scalar c = true →
  decode pos (encode_char c ++ bs) = cons_char c (decode (pos + length (encode_char c)) bs).
Proof.
  intros Hs. unfold encode_char.
  destruct (c <? 128)%N eqn:E1; [cbn [app decode length]; by rewrite E1|].
  destruct (c <? 2048)%N eqn:E2; [|destruct (c <? 65536)%N eqn:E3]; cbn [app decode length].
  - destruct (sequence2 c E1 E2) as (-> & -> & -> & ->). done.
  - destruct (sequence3 c Hs E2 E3) as (-> & -> & -> & -> & -> & ->). done.
  - destruct (sequence4 c Hs E3) as (-> & -> & -> & -> & -> & -> & -> & ->). done.
Qed.

(** A sequence that is cut short is incomplete, not invalid. *)
Lemma decode_cut pos c r r' :
  is_scalar c = true → encode_char c = r ++ r' → r ≠ [] → r' ≠ [] →
  decode pos r = Err (mkUtf8Error pos None).
Proof.
  intros Hs. unfold encode_char.
  destruct (c <? 128)%N eqn:E1; [by destruct r as [|? [|? ?]], r'; intros; simplify_eq|].
  destruct (c <? 2048)%N eqn:E2; [|destruct (c <? 65536)%N eqn:E3]; intros Heq Hr Hr'.
  - destruct (sequence2 c E1 E2) as (H1 & H2 & _).
    destruct r as [|? [|? [|? ?]]], r'; simplify_eq/=. by rewrite H1, H2.
  - destruct (sequence3 c Hs E2 E3) as (H1 & H2 & H3 & H4 & _).
    destruct r as [|? [|? [|? [|? ?]]]], r'; simplify_eq/=; rewrite H1, H2, H3; [done|by rewrite H4].
  - destruct (sequence4 c Hs E3) as (H1 & H2 & H3 & H4 & H5 & H6 & _).
    destruct r as [|? [|? [|? [|? [|? ?]]]]], r'; simplify_eq/=; rewrite H1, H2, H3, H4;
      [done|by rewrite H5|by rewrite H5, H6].
Qed.

(** Decoding text followed by other bytes. *)
Lemma decode_text pos s bs :
  scalar_text s →
  decode pos (encode s ++ bs) = let? t := decode (pos + length (encode s)) bs in Ok (s ++ t).
Proof.
  intros Hs. revert pos. induction Hs as [|c s Hc Hs IH]; intros pos.
  - simpl. rewrite Nat.add_0_r. by destruct (decode pos bs).
  - rewrite encode_cons, <- app_assoc, decode_char, IH by done.
    rewrite length_app, Nat.add_assoc. by destruct (decode _ bs).
Qed.

(** Round trip. *)
Lemma from_utf8_encode s : scalar_text s → from_utf8 (encode s) = Ok s.
Proof.
  intros Hs. unfold from_utf8. rewrite <- (app_nil_r (encode s)), decode_text by done. simpl.
  by rewrite app_nil_r.
Qed.

(** [r] is empty or a proper part of the encoding of the first char of [s]. *)
Definition partial (r : bytes) (s : str) : Prop :=
  r = [] ∨ ∃ c s' r', s = c :: s' ∧ encode_char c = r ++ r' ∧ r ≠ [] ∧ r' ≠ [].

(** A prefix of encoded text is text followed by part of a char. *)
Lemma encode_prefix pre suf s :
  encode s = pre ++ suf →
  ∃ s1 s2 r, s = s1 ++ s2 ∧ pre = encode s1 ++ r ∧ partial r s2 ∧ encode s2 = r ++ suf.
Proof.
  revert pre. induction s as [|c s IH]; intros pre Heq.
  { symmetry in Heq. apply app_eq_nil in Heq as [-> ->]. exists [], [], []. split_and!; try done. by left. }
  rewrite encode_cons in Heq.
  destruct (decide (length (encode_char c) ≤ length pre)) as [Hle|Hgt].
  - apply app_eq_inv in Heq as [(k & Hk & Hk')|(k & -> & Hk')].
    + destruct k as [|b k]; [|apply (f_equal length) in Hk; rewrite length_app in Hk; simpl in Hk; lia].
      rewrite app_nil_r in Hk. subst pre. simpl in Hk'.
      exists [c], s, []. split_and!; [done| |by left|done]. rewrite app_nil_r. unfold encode. simpl. by rewrite app_nil_r.
    + destruct (IH k Hk') as (s1 & s2 & r & -> & -> & Hp & He).
      exists (c :: s1), s2, r. split_and!; [done| |done..]. by rewrite encode_cons, app_assoc.
  - exists [], (c :: s), pre. split_and!; [done..| |by rewrite encode_cons].
    destruct pre as [|b pre]; [by left|right]. apply app_eq_inv in Heq as [(k & Hk & _)|(k & Hk & _)].
    + exists c, s, k. split_and!; [done..|]. intros ->. rewrite app_nil_r in Hk. rewrite Hk in Hgt. lia.
    + exfalso. rewrite Hk, length_app in Hgt. lia.
Qed.


(** The converse: bytes that pass the tests encode the value they decode to. *)
Ltac scalar_test :=
  unfold is_scalar; apply orb_true_iff;
  first [ left; apply N.ltb_lt; lia
        | right; apply andb_true_iff; split; apply N.ltb_lt; lia ].
Ltac encoded :=
  unfold encode_char;
  repeat match goal with
  | |- context [(?a <? ?b)%N] =>
      first [ rewrite (proj2 (N.ltb_lt a b)) by lia | rewrite (proj2 (N.ltb_ge a b)) by lia ]
  end;
  repeat (f_equal; [lia|]); try (f_equal; lia).

Lemma sequence1_inv b0 : (b0 <? 128)%N = true → is_scalar b0 = true ∧ encode_char b0 = [b0].
Proof. intros. split; [split_N_bools; scalar_test|]. unfold encode_char. by rewrite H. Qed.

Lemma sequence2_inv b0 b1 (c := ((b0 - 192) * 64 + (b1 - 128))%N) :
  ((194 <=? b0) && (b0 <=? 223))%N = true → is_cont b1 = true →
  is_scalar c = true ∧ encode_char c = [b0; b1].
Proof.
  intros H0 H1. subst c. unfold is_cont in *. split_N_bools. split; [scalar_test|encoded].
Qed.

Lemma sequence3_inv b0 b1 b2 (c := ((b0 - 224) * 4096 + (b1 - 128) * 64 + (b2 - 128))%N) :
  ((224 <=? b0) && (b0 <=? 239))%N = true → second3 b0 b1 = true → is_cont b2 = true →
  is_scalar c = true ∧ encode_char c = [b0; b1; b2].
Proof.
  intros H0 H1 H2. subst c. unfold is_cont, second3 in *. split_N_bools.
  destruct (N.eqb_spec b0 224), (N.eqb_spec b0 237); try lia;
    (split; [first [scalar_test|destruct (N.ltb_spec b0 237); scalar_test]|encoded]).
Qed.

Lemma sequence4_inv b0 b1 b2 b3
    (c := ((b0 - 240) * 262144 + (b1 - 128) * 4096 + (b2 - 128) * 64 + (b3 - 128))%N) :
  ((240 <=? b0) && (b0 <=? 244))%N = true → second4 b0 b1 = true → is_cont b2 = true → is_cont b3 = true →
  is_scalar c = true ∧ encode_char c = [b0; b1; b2; b3].
Proof.
  intros H0 H1 H2 H3. subst c. unfold is_cont, second4 in *. split_N_bools.
  destruct (N.eqb_spec b0 240), (N.eqb_spec b0 244); try lia; (split; [scalar_test|encoded]).
Qed.

(** What [from_utf8] accepts is the encoding of scalar values. *)
Lemma decode_Ok pos bs s : decode pos bs = Ok s → scalar_text s ∧ encode s = bs.
Proof.
  remember (length bs) as n eqn:Hn. revert pos bs s Hn. induction (lt_wf n) as [n _ IH].
  intros pos bs s ->.
  assert (∀ c pre pos' t, bs = pre ++ t → is_scalar c = true ∧ encode_char c = pre →
    cons_char c (decode pos' t) = Ok s → scalar_text s ∧ encode s = bs) as Hstep.
  { intros c pre pos' t -> [Hsc <-] Hc. unfold cons_char in Hc.
    destruct (decode pos' t) as [s'|] eqn:E; [|done]. injection Hc as <-.
    assert (length t < length (encode_char c ++ t)) as Hlt
      by (rewrite length_app; pose proof (encode_char_pos c); lia).
    destruct (IH _ Hlt pos' t s' eq_refl E) as [Hs' <-]. split; [by constructor|done]. }
  destruct bs as [|b0 t0]; cbn [decode]; [intros [= <-]; split; [constructor|done]|].
  destruct (b0 <? 128)%N eqn:E1; [by apply (Hstep _ [b0]), sequence1_inv|].
  destruct ((194 <=? b0) && (b0 <=? 223))%N eqn:E2.
  { destruct t0 as [|b1 t1]; [done|]. destruct (is_cont b1) eqn:C1; [|done].
    by apply (Hstep _ [b0; b1]), sequence2_inv. }
  destruct ((224 <=? b0) && (b0 <=? 239))%N eqn:E3.
  { destruct t0 as [|b1 t1]; [done|]. destruct (second3 b0 b1) eqn:C1; [|done].
    destruct t1 as [|b2 t2]; [done|]. destruct (is_cont b2) eqn:C2; [|done].
    by apply (Hstep _ [b0; b1; b2]), sequence3_inv. }
  destruct ((240 <=? b0) && (b0 <=? 244))%N eqn:E4; [|done].
  destruct t0 as [|b1 t1]; [done|]. destruct (second4 b0 b1) eqn:C1; [|done].
  destruct t1 as [|b2 t2]; [done|]. destruct (is_cont b2) eqn:C2; [|done].
  destruct t2 as [|b3 t3]; [done|]. destruct (is_cont b3) eqn:C3; [|done].
  by apply (Hstep _ [b0; b1; b2; b3]), sequence4_inv.
Qed.

Lemma from_utf8_Ok bs s : from_utf8 bs = Ok s ↔ bs = encode s ∧ scalar_text s.
Proof.
  split; [intros [Hs <-]%decode_Ok; done|]. intros [-> Hs]. by apply from_utf8_encode.
Qed.
