(* ===== verification/PatchParser.v ===== *)
(** * The apply_patch parser ([apply-patch/src/parser.rs], [streaming_parser.rs])

    [StreamingPatchParser] is a state machine fed with arbitrary pieces of
    patch text; [parse_patch] checks the envelope of a complete patch and runs
    the state machine over it.  The state is threaded explicitly: an operation
    on [&mut self] takes the parser and returns the new parser. *)
From stdpp Require Import numbers strings.
From S2P Require Import Prelude RustStr.

(** ** Data *)

Definition BEGIN_PATCH_MARKER : str := lit "*** Begin Patch".
Definition END_PATCH_MARKER : str := lit "*** End Patch".
Definition ADD_FILE_MARKER : str := lit "*** Add File: ".
Definition DELETE_FILE_MARKER : str := lit "*** Delete File: ".
Definition UPDATE_FILE_MARKER : str := lit "*** Update File: ".
Definition MOVE_TO_MARKER : str := lit "*** Move to: ".
Definition EOF_MARKER : str := lit "*** End of File".
Definition CHANGE_CONTEXT_MARKER : str := lit "@@ ".
Definition EMPTY_CHANGE_CONTEXT_MARKER : str := lit "@@".
Definition ENVIRONMENT_ID_MARKER : str := lit "*** Environment ID:".

Arguments BEGIN_PATCH_MARKER : simpl never.
Arguments END_PATCH_MARKER : simpl never.
Arguments ADD_FILE_MARKER : simpl never.
Arguments DELETE_FILE_MARKER : simpl never.
Arguments UPDATE_FILE_MARKER : simpl never.
Arguments MOVE_TO_MARKER : simpl never.
Arguments EOF_MARKER : simpl never.
Arguments CHANGE_CONTEXT_MARKER : simpl never.
Arguments EMPTY_CHANGE_CONTEXT_MARKER : simpl never.
Arguments ENVIRONMENT_ID_MARKER : simpl never.

Inductive ParseError : Type :=
  | InvalidPatchError (message : str)
  | InvalidHunkError (message : str) (line_number : nat).

Record UpdateFileChunk : Type := mkChunk {
  change_context : option str;
  old_lines : list str;
  new_lines : list str;
  context_line_indices : list (nat * nat);
  is_end_of_file : bool;
}.

(** [UpdateFileChunk::default()]. *)
Definition default_chunk : UpdateFileChunk := mkChunk None [] [] [] false.

(** A [PathBuf] built from patch text is the text itself. *)
Inductive Hunk : Type :=
  | AddFile (path : str) (contents : str)
  | DeleteFile (path : str)
  | UpdateFile (path : str) (move_path : option str) (chunks : list UpdateFileChunk).

#[global] Instance ParseError_eq_dec : EqDecision ParseError.
Proof. solve_decision. Defined.
#[global] Instance UpdateFileChunk_eq_dec : EqDecision UpdateFileChunk.
Proof. solve_decision. Defined.
#[global] Instance Hunk_eq_dec : EqDecision Hunk.
Proof. solve_decision. Defined.

(** [Hunk::path]: the destination of a rename, else the path named. *)
Definition hunk_path (h : Hunk) : str :=
  match h with
  | AddFile path _ => path
  | DeleteFile path => path
  | UpdateFile _ (Some path) _ => path
  | UpdateFile path None _ => path
  end.

(** The path [Hunk::resolve_path] joins to the working directory: the source
    of a rename, unlike [Hunk::path]. *)
Definition hunk_source_path (h : Hunk) : str :=
  match h with
  | UpdateFile path _ _ => path
  | AddFile _ _ | DeleteFile _ => hunk_path h
  end.

(** [UpdateFileChunk::push_context_line]. *)
Definition push_context_line (line : str) (c : UpdateFileChunk) : UpdateFileChunk :=
  mkChunk (change_context c) (old_lines c ++ [line]) (new_lines c ++ [line])
    (context_line_indices c ++ [(length (old_lines c), length (new_lines c))])
    (is_end_of_file c).

(** [chunk.new_lines.push(line)], [chunk.old_lines.push(line)] and
    [chunk.is_end_of_file = true]. *)
Definition push_new_line (line : str) (c : UpdateFileChunk) : UpdateFileChunk :=
  mkChunk (change_context c) (old_lines c) (new_lines c ++ [line])
    (context_line_indices c) (is_end_of_file c).
Definition push_old_line (line : str) (c : UpdateFileChunk) : UpdateFileChunk :=
  mkChunk (change_context c) (old_lines c ++ [line]) (new_lines c)
    (context_line_indices c) (is_end_of_file c).
Definition set_end_of_file (c : UpdateFileChunk) : UpdateFileChunk :=
  mkChunk (change_context c) (old_lines c) (new_lines c) (context_line_indices c) true.

(** [chunk.old_lines.is_empty() && chunk.new_lines.is_empty()]. *)
Definition chunk_has_no_lines (c : UpdateFileChunk) : bool :=
  bool_decide (old_lines c = []) && bool_decide (new_lines c = []).

Inductive StreamingParserMode : Type :=
  | NotStarted
  | StartedPatch
  | InAddFile
  | InDeleteFile
  | InUpdateFile (hunk_line_number : nat)
  | EndedPatch.

#[global] Instance StreamingParserMode_eq_dec : EqDecision StreamingParserMode.
Proof. solve_decision. Defined.

Record StreamingPatchParser : Type := mkParser {
  line_buffer : str;
  mode : StreamingParserMode;
  hunks : list Hunk;
  environment_id : option str;
  line_number : nat;
}.

(** [StreamingPatchParser::default()]. *)
Definition new_parser : StreamingPatchParser := mkParser [] NotStarted [] None 0.

Definition set_mode (m : StreamingParserMode) (p : StreamingPatchParser) :=
  mkParser (line_buffer p) m (hunks p) (environment_id p) (line_number p).
Definition set_hunks (hs : list Hunk) (p : StreamingPatchParser) :=
  mkParser (line_buffer p) (mode p) hs (environment_id p) (line_number p).
Definition set_environment_id (e : option str) (p : StreamingPatchParser) :=
  mkParser (line_buffer p) (mode p) (hunks p) e (line_number p).
Definition push_hunk (h : Hunk) (m : StreamingParserMode) (p : StreamingPatchParser) :=
  set_mode m (set_hunks (hunks p ++ [h]) p).

(** ** Messages *)

Definition msg_unexpected_line (line : str) : str :=
  lit "Unexpected line found in update hunk: '" ++ line ++
  lit "'. Every line should start with ' ' (context line), '+' (added line), or '-' (removed line)".
Definition msg_expected_context (line : str) : str :=
  lit "Expected update hunk to start with a @@ context marker, got: '" ++ line ++ lit "'".
Definition msg_not_a_header (trimmed : str) : str :=
  lit "'" ++ trimmed ++
  lit "' is not a valid hunk header. Valid hunk headers: '*** Add File: {path}', '*** Delete File: {path}', '*** Update File: {path}'".
Definition msg_empty_update (path : str) : str :=
  lit "Update file hunk for path '" ++ path ++ lit "' is empty".
Definition msg_no_lines : str := lit "Update hunk does not contain any lines".
Definition msg_first_line : str := lit "The first line of the patch must be '*** Begin Patch'".
Definition msg_last_line : str := lit "The last line of the patch must be '*** End Patch'".

(** ** The state machine *)

(** [ensure_update_hunk_is_not_empty]. *)
Definition ensure_update_hunk_is_not_empty (p : StreamingPatchParser) (line : str)
  : result ParseError unit :=
  match last (hunks p) with
  | Some (UpdateFile path _ chunks) =>
      match chunks, mode p with
      | [], InUpdateFile hunk_line_number =>
          Err (InvalidHunkError (msg_empty_update path) hunk_line_number)
      | _, _ =>
          if last_is chunk_has_no_lines chunks then
            if str_eqb line END_PATCH_MARKER
            then Err (InvalidHunkError msg_no_lines (line_number p))
            else Err (InvalidHunkError (msg_unexpected_line line) (line_number p))
          else Ok tt
      end
  | _ => Ok tt
  end.

(** [handle_hunk_headers_and_end_patch]: [Ok (Some p)] is [Ok(true)] with the
    new state, [Ok None] is [Ok(false)].  No error path changes the state. *)
Definition handle_hunk_headers_and_end_patch (p : StreamingPatchParser) (trimmed : str)
  : result ParseError (option StreamingPatchParser) :=
  match (match mode p with StartedPatch => strip_prefix ENVIRONMENT_ID_MARKER trimmed
         | _ => None end) with
  | Some env =>
      match environment_id p with
      | Some _ => Err (InvalidPatchError
                    (lit "apply_patch environment_id cannot be specified more than once"))
      | None =>
          let env := trim env in
          if bool_decide (env = [])
          then Err (InvalidPatchError (lit "apply_patch environment_id cannot be empty"))
          else Ok (Some (set_environment_id (Some env) p))
      end
  | None =>
  if str_eqb trimmed END_PATCH_MARKER then
    let? _ := ensure_update_hunk_is_not_empty p trimmed in
    Ok (Some (set_mode EndedPatch p))
  else match strip_prefix ADD_FILE_MARKER trimmed with
  | Some path =>
      let? _ := ensure_update_hunk_is_not_empty p trimmed in
      Ok (Some (push_hunk (AddFile path []) InAddFile p))
  | None =>
  match strip_prefix DELETE_FILE_MARKER trimmed with
  | Some path =>
      let? _ := ensure_update_hunk_is_not_empty p trimmed in
      Ok (Some (push_hunk (DeleteFile path) InDeleteFile p))
  | None =>
  match strip_prefix UPDATE_FILE_MARKER trimmed with
  | Some path =>
      let? _ := ensure_update_hunk_is_not_empty p trimmed in
      Ok (Some (push_hunk (UpdateFile path None []) (InUpdateFile (line_number p)) p))
  | None => Ok None
  end end end end.

(** [if chunks.is_empty() { chunks.push(UpdateFileChunk::default()) }]. *)
Definition or_default_chunk (chunks : list UpdateFileChunk) : list UpdateFileChunk :=
  match chunks with [] => [default_chunk] | _ => chunks end.

(** A line of an update hunk that is not a header: the branches of the
    [StreamingParserMode::UpdateFile] arm of [process_line] that work on the
    [move_path] and [chunks] of the last hunk, in the order of the source. *)
Definition process_update_line (line_number : nat) (line : str)
    (move_path : option str) (chunks : list UpdateFileChunk)
  : result ParseError (option str * list UpdateFileChunk) :=
  let update_line := trim_end line in
  let is_context := str_eqb update_line EMPTY_CHANGE_CONTEXT_MARKER
                    || starts_with CHANGE_CONTEXT_MARKER update_line in
  if last_is is_end_of_file chunks && bool_decide (update_line = []) then
    Ok (move_path, chunks)
  else if last_is is_end_of_file chunks && negb is_context then
    Err (InvalidHunkError (msg_expected_context line) line_number)
  else match (match chunks, move_path with
              | [], None => strip_prefix MOVE_TO_MARKER update_line
              | _, _ => None end) with
  | Some move_to_path => Ok (Some move_to_path, chunks)
  | None =>
  if is_context && last_is chunk_has_no_lines chunks then
    Err (InvalidHunkError (msg_unexpected_line line) line_number)
  else if str_eqb update_line EMPTY_CHANGE_CONTEXT_MARKER then
    Ok (move_path, chunks ++ [default_chunk])
  else match strip_prefix CHANGE_CONTEXT_MARKER update_line with
  | Some ctx => Ok (move_path, chunks ++ [mkChunk (Some ctx) [] [] [] false])
  | None =>
  if str_eqb update_line EOF_MARKER then
    if last_is chunk_has_no_lines chunks
    then Err (InvalidHunkError msg_no_lines line_number)
    else Ok (move_path, alter_last set_end_of_file chunks)
  else match line with
  | [] => Ok (move_path, alter_last (push_context_line []) (or_default_chunk chunks))
  | c :: text =>
      if (c =? chr " ")%N then
        Ok (move_path, alter_last (push_context_line text) (or_default_chunk chunks))
      else if (c =? chr "+")%N then
        Ok (move_path, alter_last (push_new_line text) (or_default_chunk chunks))
      else if (c =? chr "-")%N then
        Ok (move_path, alter_last (push_old_line text) (or_default_chunk chunks))
      else if last_is (λ c, negb (chunk_has_no_lines c)) chunks then
        Err (InvalidHunkError (msg_expected_context line) line_number)
      else
        Err (InvalidHunkError (msg_unexpected_line line) line_number)
  end end end.

(** [process_line].  No error path changes the state. *)
Definition process_line (p : StreamingPatchParser) (line : str)
  : result ParseError StreamingPatchParser :=
  let trimmed := trim line in
  match mode p with
  | NotStarted =>
      if str_eqb trimmed BEGIN_PATCH_MARKER then Ok (set_mode StartedPatch p)
      else Err (InvalidPatchError msg_first_line)
  | StartedPatch | InDeleteFile =>
      let? handled := handle_hunk_headers_and_end_patch p trimmed in
      match handled with
      | Some p' => Ok p'
      | None => Err (InvalidHunkError (msg_not_a_header trimmed) (line_number p))
      end
  | InAddFile =>
      let? handled := handle_hunk_headers_and_end_patch p trimmed in
      match handled with
      | Some p' => Ok p'
      | None =>
          match line, last (hunks p) with
          | c :: line_to_add, Some (AddFile path contents) =>
              if (c =? chr "+")%N then
                Ok (set_hunks (alter_last (λ _, AddFile path (contents ++ ln line_to_add))
                                 (hunks p)) p)
              else Err (InvalidHunkError (msg_not_a_header trimmed) (line_number p))
          | _, _ => Err (InvalidHunkError (msg_not_a_header trimmed) (line_number p))
          end
      end
  | InUpdateFile _ =>
      let? handled := handle_hunk_headers_and_end_patch p (trim_end line) in
      match handled with
      | Some p' => Ok p'
      | None =>
          match last (hunks p) with
          | Some (UpdateFile path move_path chunks) =>
              let? (move_path', chunks') :=
                process_update_line (line_number p) line move_path chunks in
              Ok (set_hunks (alter_last (λ _, UpdateFile path move_path' chunks') (hunks p)) p)
          | _ => Err (InvalidHunkError (msg_unexpected_line line) (line_number p))
          end
      end
  | EndedPatch =>
      if bool_decide (trimmed = []) then Ok p
      else Err (InvalidPatchError msg_last_line)
  end.

(** [line.truncate(line.strip_suffix('\r').map_or(line.len(), str::len))]. *)
Definition strip_cr (line : str) : str := default line (strip_suffix [CR] line).

(** The state in which [push_delta] calls [process_line] on a complete line. *)
Definition take_line (p : StreamingPatchParser) : StreamingPatchParser :=
  mkParser [] (mode p) (hunks p) (environment_id p) (S (line_number p)).
Definition push_char (c : char) (p : StreamingPatchParser) : StreamingPatchParser :=
  mkParser (line_buffer p ++ [c]) (mode p) (hunks p) (environment_id p) (line_number p).

(** The loop of [push_delta].  After an error the rest of the delta is dropped
    and the parser keeps the state reached. *)
Fixpoint push_chars (p : StreamingPatchParser) (delta : str)
  : StreamingPatchParser * result ParseError unit :=
  match delta with
  | [] => (p, Ok tt)
  | ch :: delta' =>
      if (ch =? LF)%N then
        let line := strip_cr (line_buffer p) in
        match process_line (take_line p) line with
        | Ok p' => push_chars p' delta'
        | Err e => (take_line p, Err e)
        end
      else push_chars (push_char ch p) delta'
  end.

(** [push_delta]. *)
Definition push_delta (p : StreamingPatchParser) (delta : str)
  : StreamingPatchParser * result ParseError (list Hunk) :=
  match push_chars p delta with
  | (p', Ok _) => (p', Ok (hunks p'))
  | (p', Err e) => (p', Err e)
  end.

(** The part of [finish] that consumes an unterminated last line. *)
Definition finish_line (p : StreamingPatchParser)
  : StreamingPatchParser * result ParseError unit :=
  match line_buffer p with
  | [] => (p, Ok tt)
  | line =>
      let p1 := take_line p in
      if str_eqb (trim line) END_PATCH_MARKER then
        match ensure_update_hunk_is_not_empty p1 (trim line) with
        | Ok _ => (set_mode EndedPatch p1, Ok tt)
        | Err e => (p1, Err e)
        end
      else match process_line p1 line with
           | Ok p' => (p', Ok tt)
           | Err e => (p1, Err e)
           end
  end.

(** [finish]. *)
Definition finish (p : StreamingPatchParser)
  : StreamingPatchParser * result ParseError (list Hunk) :=
  match finish_line p with
  | (p', Err e) => (p', Err e)
  | (p', Ok _) =>
      match mode p' with
      | EndedPatch => (p', Ok (hunks p'))
      | _ => (p', Err (InvalidPatchError msg_last_line))
      end
  end.

(** ** The whole patch *)

Record ApplyPatchArgs : Type := mkArgs {
  args_patch : str;
  args_hunks : list Hunk;
  args_workdir : option str;
  args_environment_id : option str;
}.

Inductive ParseMode : Type := Strict | Lenient.

(** [check_start_and_end_lines_strict]. *)
Definition check_start_and_end_lines_strict (first_line last_line : option str)
  : result ParseError unit :=
  match trim <$> first_line, trim <$> last_line with
  | Some first, Some last =>
      if str_eqb first BEGIN_PATCH_MARKER && str_eqb last END_PATCH_MARKER then Ok tt
      else if negb (str_eqb first BEGIN_PATCH_MARKER)
      then Err (InvalidPatchError msg_first_line)
      else Err (InvalidPatchError msg_last_line)
  | Some first, None =>
      if negb (str_eqb first BEGIN_PATCH_MARKER)
      then Err (InvalidPatchError msg_first_line)
      else Err (InvalidPatchError msg_last_line)
  | None, _ => Err (InvalidPatchError msg_last_line)
  end.

(** [check_patch_boundaries_strict]: [[first]] gives the same line twice. *)
Definition check_patch_boundaries_strict (ls : list str) : result ParseError (list str) :=
  let? _ := check_start_and_end_lines_strict (head ls) (last ls) in Ok ls.

(** The three spellings of the heredoc opener. *)
Definition is_heredoc_opener (first : str) : bool :=
  str_eqb first (lit "<<EOF") || str_eqb first (lit "<<'EOF'")
  || str_eqb first (lit "<<" ++ [34%N] ++ lit "EOF" ++ [34%N]).

(** [check_patch_boundaries_lenient]. *)
Definition check_patch_boundaries_lenient (original_lines : list str)
  : result ParseError (list str) :=
  match check_patch_boundaries_strict original_lines with
  | Ok ls => Ok ls
  | Err original_parse_error =>
      match original_lines with
      | first :: _ :: _ =>
          if is_heredoc_opener first && last_is (ends_with (lit "EOF")) original_lines
             && bool_decide (4 ≤ length original_lines)
          then check_patch_boundaries_strict (take (length original_lines - 2) (drop 1 original_lines))
          else Err original_parse_error
      | _ => Err original_parse_error
      end
  end.

(** [parse_patch_text]. *)
Definition parse_patch_text (patch : str) (m : ParseMode) : result ParseError ApplyPatchArgs :=
  let ls := lines (trim patch) in
  let? patch_lines := match m with
                      | Strict => check_patch_boundaries_strict ls
                      | Lenient => check_patch_boundaries_lenient ls end in
  let patch := join [LF] patch_lines in
  match push_delta new_parser patch with
  | (_, Err e) => Err e
  | (p, Ok _) =>
      match finish p with
      | (_, Err e) => Err e
      | (p', Ok hs) => Ok (mkArgs patch hs None (environment_id p'))
      end
  end.

Definition PARSE_IN_STRICT_MODE : bool := false.

(** [parse_patch]. *)
Definition parse_patch (patch : str) : result ParseError ApplyPatchArgs :=
  parse_patch_text patch (if PARSE_IN_STRICT_MODE then Strict else Lenient).

Example parse_patch_basic :
  parse_patch (join [LF] [lit "*** Begin Patch"; lit "*** Add File: a"; lit "+x";
     lit "*** Update File: b"; lit "*** Move to: c"; lit "@@ def f():"; lit " ctx"; lit "-o";
     lit "+n"; lit "*** End Patch"])
  = Ok (mkArgs (join [LF] [lit "*** Begin Patch"; lit "*** Add File: a"; lit "+x";
     lit "*** Update File: b"; lit "*** Move to: c"; lit "@@ def f():"; lit " ctx"; lit "-o";
     lit "+n"; lit "*** End Patch"])
     [AddFile (lit "a") (ln (lit "x"));
      UpdateFile (lit "b") (Some (lit "c"))
        [mkChunk (Some (lit "def f():")) [lit "ctx"; lit "o"] [lit "ctx"; lit "n"] [(0, 0)] false]]
     None None).
Proof. vm_compute. reflexivity. Qed.
