(* ===== verification/PatchParserInv.v ===== *)
(** * Streaming and well-formedness of the patch parser

    Feeding a patch in pieces is the same as feeding it at once, and every
    hunk list the parser returns is well formed: the context indices of a chunk
    point at equal lines of both sides in increasing order, and no update hunk
    is empty.  The second fact is what the file-update code relies on. *)
From stdpp Require Import numbers strings.
From Stdlib Require Import Sorted.
From S2P Require Import Prelude RustStr PatchParser.

(** ** Streaming *)

Lemma push_chars_app p a b :
  push_chars p (a ++ b) =
  match push_chars p a with
  | (p', Ok _) => push_chars p' b
  | (p', Err e) => (p', Err e)
  end.
Proof.
  revert p; induction a as [|c a IH]; intros p; simpl; [done|].
  case_match; [|apply IH]. case_match; [apply IH|done].
Qed.

(** A client that stops at the first error. *)
Fixpoint push_deltas (p : StreamingPatchParser) (ds : list str)
  : StreamingPatchParser * result ParseError (list Hunk) :=
  match ds with
  | [] => (p, Ok (hunks p))
  | d :: ds' =>
      match push_delta p d with
      | (p', Ok _) => push_deltas p' ds'
      | (p', Err e) => (p', Err e)
      end
  end.

Lemma push_deltas_concat_aux p ds : push_deltas p ds = push_delta p (concat ds).
Proof.
  revert p; induction ds as [|d ds IH]; intros p; simpl; [done|].
  unfold push_delta in *. rewrite push_chars_app.
  destruct (push_chars p d) as [p' [u|e]]; simpl; [|done]. by rewrite IH.
Qed.

(** ** Well-formed chunks *)

Definition before (a b : nat * nat) : Prop := a.1 < b.1 ∧ a.2 < b.2.

(** The context indices of a chunk name, in increasing order, positions at
    which both sides hold the same line. *)
Definition chunk_wf (c : UpdateFileChunk) : Prop :=
  Forall (λ ij, ∃ line, old_lines c !! ij.1 = Some line ∧ new_lines c !! ij.2 = Some line)
    (context_line_indices c) ∧
  StronglySorted before (context_line_indices c).

Definition chunk_has_lines (c : UpdateFileChunk) : Prop := chunk_has_no_lines c = false.

Definition hunk_wf (h : Hunk) : Prop :=
  match h with
  | AddFile _ contents => contents = [] ∨ last contents = Some LF
  | DeleteFile _ => True
  | UpdateFile _ _ chunks => Forall chunk_wf chunks
  end.

Definition hunk_complete (h : Hunk) : Prop :=
  match h with
  | UpdateFile _ _ chunks => chunks ≠ [] ∧ Forall chunk_has_lines chunks
  | _ => True
  end.

(** The chunks of the hunk being read: only the last may still be empty. *)
Definition open_chunks (chunks : list UpdateFileChunk) : Prop :=
  chunks = [] ∨ ∃ cs c, chunks = cs ++ [c] ∧ Forall chunk_has_lines cs.

Definition mode_inv (m : StreamingParserMode) (hs : list Hunk) : Prop :=
  match m with
  | NotStarted | StartedPatch => hs = []
  | InAddFile => ∃ hs' path contents, hs = hs' ++ [AddFile path contents] ∧ Forall hunk_complete hs'
  | InDeleteFile => ∃ hs' path, hs = hs' ++ [DeleteFile path] ∧ Forall hunk_complete hs'
  | InUpdateFile _ =>
      ∃ hs' path mp chunks, hs = hs' ++ [UpdateFile path mp chunks] ∧
        Forall hunk_complete hs' ∧ open_chunks chunks
  | EndedPatch => Forall hunk_complete hs
  end.

Definition parser_inv (p : StreamingPatchParser) : Prop :=
  Forall hunk_wf (hunks p) ∧ mode_inv (mode p) (hunks p).

Lemma StronglySorted_snoc {A} (R : A → A → Prop) l x :
  StronglySorted R l → Forall (λ y, R y x) l → StronglySorted R (l ++ [x]).
Proof.
  induction 1 as [|y l Hs IH Hy]; intros Hx; simpl; [repeat constructor|].
  inversion_clear Hx. constructor; [by apply IH|]. by rewrite Forall_snoc_iff.
Qed.

Lemma chunk_wf_context c line : chunk_wf c → chunk_wf (push_context_line line c).
Proof.
  intros [Hidx Hs]. split; simpl.
  - rewrite Forall_snoc_iff; simpl. split.
    + eapply Forall_impl; [done|]. intros ij (l & Ho & Hn).
      exists l. eauto using lookup_app_l_Some.
    + exists line. by rewrite !list_lookup_middle.
  - apply StronglySorted_snoc; [done|]. eapply Forall_impl; [done|].
    intros ij (l & Ho & Hn). split; simpl; eapply lookup_lt_Some; eauto.
Qed.

Lemma chunk_wf_new c line : chunk_wf c → chunk_wf (push_new_line line c).
Proof.
  intros [Hidx Hs]. split; simpl; [|done]. eapply Forall_impl; [done|].
  intros ij (l & Ho & Hn). eauto using lookup_app_l_Some.
Qed.

Lemma chunk_wf_old c line : chunk_wf c → chunk_wf (push_old_line line c).
Proof.
  intros [Hidx Hs]. split; simpl; [|done]. eapply Forall_impl; [done|].
  intros ij (l & Ho & Hn). eauto using lookup_app_l_Some.
Qed.

Lemma chunk_wf_default ctx : chunk_wf (mkChunk ctx [] [] [] false).
Proof. repeat constructor. Qed.

#[export] Hint Resolve chunk_wf_context chunk_wf_new chunk_wf_old chunk_wf_default : rexux.

Lemma or_default_chunk_open chunks :
  open_chunks chunks → Forall chunk_wf chunks →
  ∃ cs c, or_default_chunk chunks = cs ++ [c] ∧ Forall chunk_has_lines cs ∧
          Forall chunk_wf cs ∧ chunk_wf c.
Proof.
  intros [->|(cs & c & -> & Hcs)] Hwf.
  - exists [], default_chunk. repeat constructor.
  - exists cs, c. rewrite Forall_snoc_iff in Hwf. destruct cs; naive_solver.
Qed.

(** Altering the last chunk keeps the hunk open and well formed. *)
Lemma alter_last_open (f : UpdateFileChunk → UpdateFileChunk) chunks :
  (∀ c, chunk_wf c → chunk_wf (f c)) →
  open_chunks chunks → Forall chunk_wf chunks →
  open_chunks (alter_last f chunks) ∧ Forall chunk_wf (alter_last f chunks).
Proof.
  intros Hf [->|(cs & c & -> & Hcs)] Hwf; simpl; [split; [by left|done]|].
  rewrite alter_last_snoc. rewrite Forall_snoc_iff in Hwf |- *.
  split; [right; eauto|]. naive_solver.
Qed.

Lemma alter_last_or_default_open (f : UpdateFileChunk → UpdateFileChunk) chunks :
  (∀ c, chunk_wf c → chunk_wf (f c)) →
  open_chunks chunks → Forall chunk_wf chunks →
  open_chunks (alter_last f (or_default_chunk chunks)) ∧
  Forall chunk_wf (alter_last f (or_default_chunk chunks)).
Proof.
  intros Hf Ho Hwf. destruct (or_default_chunk_open _ Ho Hwf) as (cs & c & -> & ?).
  apply alter_last_open; [done|right; naive_solver|]. rewrite Forall_snoc_iff. naive_solver.
Qed.

(** A new chunk may only be opened once the last one has lines. *)
Lemma snoc_chunk_open chunks ctx :
  open_chunks chunks → Forall chunk_wf chunks → last_is chunk_has_no_lines chunks = false →
  open_chunks (chunks ++ [mkChunk ctx [] [] [] false]) ∧
  Forall chunk_wf (chunks ++ [mkChunk ctx [] [] [] false]).
Proof.
  intros Ho Hwf Hlast. split; [|rewrite Forall_snoc_iff; auto with rexux].
  right. eexists _, _. split; [done|].
  destruct Ho as [->|(cs & c & -> & Hcs)]; [done|].
  rewrite last_is_snoc in Hlast. by rewrite Forall_snoc_iff.
Qed.

Lemma set_end_of_file_wf c : chunk_wf c → chunk_wf (set_end_of_file c).
Proof. done. Qed.
#[export] Hint Resolve set_end_of_file_wf : rexux.

Lemma process_update_line_inv n line mp chunks mp' chunks' :
  open_chunks chunks → Forall chunk_wf chunks →
  process_update_line n line mp chunks = Ok (mp', chunks') →
  open_chunks chunks' ∧ Forall chunk_wf chunks'.
Proof.
  intros Ho Hwf H. unfold process_update_line in H.
  set (is_context := str_eqb _ _ || _) in H.
  destruct (last_is is_end_of_file chunks && _); [by simplify_eq|].
  destruct (last_is is_end_of_file chunks && _); [done|].
  destruct (match chunks, mp with [], None => _ | _, _ => None end); [by simplify_eq|].
  destruct (is_context && last_is chunk_has_no_lines chunks) eqn:Ectx; [done|].
  destruct (str_eqb (trim_end line) EMPTY_CHANGE_CONTEXT_MARKER) eqn:Eempty.
  { simplify_eq. apply snoc_chunk_open; [done..|].
    subst is_context. by rewrite ?Eempty in Ectx. }
  destruct (strip_prefix CHANGE_CONTEXT_MARKER (trim_end line)) as [ctx|] eqn:Epre.
  { simplify_eq. apply snoc_chunk_open; [done..|].
    subst is_context. unfold starts_with in Ectx. by rewrite Epre in Ectx. }
  destruct (str_eqb (trim_end line) EOF_MARKER).
  { destruct (last_is chunk_has_no_lines chunks); simplify_eq.
    apply alter_last_open; auto with rexux. }
  destruct line as [|c text]; [simplify_eq; apply alter_last_or_default_open; auto with rexux|].
  repeat case_match; simplify_eq; apply alter_last_or_default_open; auto with rexux.
Qed.

(** ** The parser invariant *)

Lemma ensure_complete p line u :
  parser_inv p → mode p ≠ NotStarted → ensure_update_hunk_is_not_empty p line = Ok u →
  Forall hunk_complete (hunks p).
Proof.
  intros [_ Hm] Hns H. unfold ensure_update_hunk_is_not_empty in H.
  destruct (mode p) as [| | | |n|] eqn:Em; simpl in Hm; [done|by rewrite Hm| | | |done].
  - destruct Hm as (hs & path & cs & -> & Hhs). rewrite Forall_snoc_iff; naive_solver.
  - destruct Hm as (hs & path & -> & Hhs). rewrite Forall_snoc_iff; naive_solver.
  - destruct Hm as (hs & path & mp & chunks & Hh & Hhs & Ho).
    rewrite Hh, last_snoc in H. rewrite Hh, Forall_snoc_iff. split; [done|].
    destruct Ho as [->|(cs & c & -> & Hcs)]; [done|].
    rewrite last_is_snoc in H. split; [by destruct cs|].
    rewrite Forall_snoc_iff. split; [done|]. unfold chunk_has_lines.
    destruct (chunk_has_no_lines c); [|done]. by destruct cs, (str_eqb line END_PATCH_MARKER).
Qed.

Lemma push_hunk_inv p h m :
  parser_inv p → Forall hunk_complete (hunks p) → hunk_wf h →
  mode_inv m (hunks p ++ [h]) → parser_inv (push_hunk h m p).
Proof.
  intros [Hwf _] Hc Hh Hm. split; simpl; [|done]. by rewrite Forall_snoc_iff.
Qed.

Lemma handle_headers_inv p line p' :
  parser_inv p → mode p ≠ NotStarted →
  handle_hunk_headers_and_end_patch p line = Ok (Some p') → parser_inv p'.
Proof.
  intros Hinv Hns H. unfold handle_hunk_headers_and_end_patch in H.
  destruct (match mode p with StartedPatch => _ | _ => None end); [by run H|].
  destruct (str_eqb line END_PATCH_MARKER).
  { destruct (ensure_update_hunk_is_not_empty p line) eqn:E; simplify_eq.
    apply ensure_complete in E; [|done..]. split; [apply Hinv|done]. }
  destruct (strip_prefix ADD_FILE_MARKER line) as [path|];
    [|destruct (strip_prefix DELETE_FILE_MARKER line) as [path|];
    [|destruct (strip_prefix UPDATE_FILE_MARKER line) as [path|]; [|done]]];
  destruct (ensure_update_hunk_is_not_empty p line) eqn:E; simplify_eq;
  apply ensure_complete in E; try done; apply push_hunk_inv; simpl; eauto 10.
  - exists (hunks p), path, None, []. split_and!; [done|done|by left].
Qed.

Lemma process_line_inv p line p' :
  parser_inv p → process_line p line = Ok p' → parser_inv p'.
Proof.
  intros Hinv H. pose proof (handle_headers_inv p) as Hhd. pose proof Hinv as [Hwf Hm].
  unfold process_line in H. destruct (mode p) as [| | | |n|] eqn:Em; simpl in Hm.
  - run H. split; simpl; [apply Hinv|done].
  - run H. eapply Hhd; eauto.
  - destruct (handle_hunk_headers_and_end_patch p (trim line)) as [[q|]|e] eqn:Eh; simplify_eq;
      [eapply Hhd; eauto|].
    destruct Hm as (hs & path & cs & Hh & Hhs). rewrite Hh, last_snoc in H. run H.
    split; simpl; rewrite alter_last_snoc; [|rewrite Em; simpl; eauto 10].
    rewrite Hh in Hwf. rewrite Forall_snoc_iff in Hwf |- *. split; [apply Hwf|].
    right. unfold ln. by rewrite app_assoc, last_snoc.
  - run H. eapply Hhd; eauto.
  - destruct (handle_hunk_headers_and_end_patch p (trim_end line)) as [[q|]|e] eqn:Eh; simplify_eq;
      [eapply Hhd; eauto|].
    destruct Hm as (hs & path & mp & chunks & Hh & Hhs & Ho). rewrite Hh, last_snoc in H.
    rewrite Hh, Forall_snoc_iff in Hwf.
    destruct (process_update_line (line_number p) line mp chunks) as [[mp' chunks']|e] eqn:Eu; simplify_eq.
    apply process_update_line_inv in Eu as [Ho' Hwf']; [|done|apply Hwf].
    split; simpl; rewrite alter_last_snoc; [rewrite Forall_snoc_iff; naive_solver|].
    rewrite Em. simpl. eauto 10.
  - by run H.
Qed.

Lemma push_chars_inv p delta p' u :
  parser_inv p → push_chars p delta = (p', Ok u) → parser_inv p'.
Proof.
  revert p; induction delta as [|c delta IH]; intros p Hinv H; simplify_eq/=; [done|].
  case_match; [|by eapply IH in H].
  destruct (process_line (take_line p) _) eqn:E; simplify_eq.
  apply process_line_inv in E; [|done]. by eapply IH in H.
Qed.

Lemma finish_inv p p' hs :
  parser_inv p → finish p = (p', Ok hs) → Forall hunk_wf hs ∧ Forall hunk_complete hs.
Proof.
  intros Hinv H. unfold finish in H.
  destruct (finish_line p) as [q [u|e]] eqn:Ef; [|done].
  destruct (mode q) eqn:Em; simplify_eq.
  assert (parser_inv p') as [? Hm]; [|by rewrite Em in Hm].
  unfold finish_line in Ef. destruct (line_buffer p) as [|c b] eqn:Eb; [by simplify_eq|].
  destruct (str_eqb (trim (c :: b)) END_PATCH_MARKER).
  - destruct (ensure_update_hunk_is_not_empty (take_line p) _) eqn:E; simplify_eq.
    destruct (decide (mode p = NotStarted)) as [Hns|Hns].
    + split; simpl; [apply Hinv|]. destruct Hinv as [_ Hm]. rewrite Hns in Hm. by rewrite Hm.
    + apply (ensure_complete (take_line p)) in E; [|done..]. split; simpl; [apply Hinv|done].
  - destruct (process_line (take_line p) (c :: b)) eqn:E; simplify_eq.
    by apply process_line_inv in E.
Qed.

Lemma new_parser_inv : parser_inv new_parser.
Proof. by split. Qed.

Lemma parse_patch_text_wf patch m args :
  parse_patch_text patch m = Ok args →
  Forall hunk_wf (args_hunks args) ∧ Forall hunk_complete (args_hunks args).
Proof.
  unfold parse_patch_text. intros H.
  destruct (match m with Strict => _ | Lenient => _ end); [|done].
  unfold push_delta in H. destruct (push_chars new_parser _) as [p [u|e]] eqn:Ep; [|done].
  destruct (finish p) as [q [hs|e]] eqn:Ef; simplify_eq/=.
  eapply finish_inv; [|done]. eapply push_chars_inv; [apply new_parser_inv|done].
Qed.

(** ** Properties *)

(** Streaming is transparent.  However the patch text is cut into deltas,
    pushing them one by one (stopping at the first error) leaves the parser in
    the same state and returns the same hunks or the same error as pushing the
    whole text at once. *)
Theorem push_deltas_concat (p : StreamingPatchParser) (ds : list str) :
  push_deltas p ds = push_delta p (concat ds).
Proof. apply push_deltas_concat_aux. Qed.

(** C38: every hunk list [parse_patch] returns is well formed.  No update hunk
    is empty, each of its chunks has lines, the context indices of a chunk are
    strictly increasing and name equal lines of both sides, and the contents of
    an added file are empty or end in a line feed. *)
Theorem parse_patch_well_formed (patch : str) (args : ApplyPatchArgs) :
  parse_patch patch = Ok args →
  Forall (λ h, hunk_wf h ∧ hunk_complete h) (args_hunks args).
Proof.
  intros [Hw Hc]%parse_patch_text_wf. by apply Forall_and.
Qed.

Definition example_text : str :=
  join [LF] [lit "*** Begin Patch"; lit "*** Update File: b"; lit "@@"; lit " ctx"; lit "-o";
             lit "+n"; lit "*** End Patch"].
Definition example_hunk : Hunk :=
  UpdateFile (lit "b") None [mkChunk None [lit "ctx"; lit "o"] [lit "ctx"; lit "n"] [(0, 0)] false].

Lemma parse_patch_well_formed_witness :
  parse_patch example_text = Ok (mkArgs example_text [example_hunk] None None) ∧
  Forall (λ h, hunk_wf h ∧ hunk_complete h) [example_hunk].
Proof.
  assert (parse_patch example_text = Ok (mkArgs example_text [example_hunk] None None)) as H
    by (vm_compute; reflexivity).
  split; [exact H|]. exact (parse_patch_well_formed example_text _ H).
Defined.
