(* ===== verification/PatchRoundTrip.v ===== *)
(** * Printing and parsing patches

    [render_patch] prints the patch grammar documented at the top of
    [apply-patch/src/parser.rs]; [parse_patch_render] shows that the parser
    reads every printed patch back to the hunks it denotes.  The side
    conditions ([patch_ok]) say what the format cannot express: line feeds
    inside a line, a carriage return at its end, and headers that end in
    white space. *)
From stdpp Require Import numbers strings.
From S2P Require Import Prelude RustStr PatchParser.

(** ** The abstract syntax of a patch *)

Inductive DiffLine : Type :=
  | Context (text : str)
  | Removed (text : str)
  | Added (text : str).

Record SrcChunk : Type := mkSrcChunk {
  sc_context : option str;
  sc_body : list DiffLine;
  sc_eof : bool;
}.

Inductive SrcHunk : Type :=
  | SrcAdd (path : str) (text : list str)
  | SrcDelete (path : str)
  | SrcUpdate (path : str) (move_to : option str) (chunks : list SrcChunk).

Record SrcPatch : Type := mkSrcPatch {
  sp_environment_id : option str;
  sp_hunks : list SrcHunk;
}.

Definition render_diff_line (d : DiffLine) : str :=
  match d with
  | Context s => chr " " :: s
  | Removed s => chr "-" :: s
  | Added s => chr "+" :: s
  end.

Definition render_context (ctx : option str) : str :=
  match ctx with
  | None => EMPTY_CHANGE_CONTEXT_MARKER
  | Some s => CHANGE_CONTEXT_MARKER ++ s
  end.

Definition render_chunk (c : SrcChunk) : list str :=
  render_context (sc_context c) :: (render_diff_line <$> sc_body c) ++
  (if sc_eof c then [EOF_MARKER] else []).

Definition render_hunk (h : SrcHunk) : list str :=
  match h with
  | SrcAdd path text => (ADD_FILE_MARKER ++ path) :: (cons (chr "+") <$> text)
  | SrcDelete path => [DELETE_FILE_MARKER ++ path]
  | SrcUpdate path move_to chunks =>
      (UPDATE_FILE_MARKER ++ path) ::
      match move_to with Some q => [MOVE_TO_MARKER ++ q] | None => [] end ++
      concat (render_chunk <$> chunks)
  end.

Definition render_body (sp : SrcPatch) : list str :=
  BEGIN_PATCH_MARKER ::
  match sp_environment_id sp with
  | Some e => [ENVIRONMENT_ID_MARKER ++ chr " " :: e]
  | None => []
  end ++ concat (render_hunk <$> sp_hunks sp).

Definition render_patch (sp : SrcPatch) : str :=
  join [LF] (render_body sp ++ [END_PATCH_MARKER]).

(** ** What a patch denotes *)

Definition add_diff_line (c : UpdateFileChunk) (d : DiffLine) : UpdateFileChunk :=
  match d with
  | Context s => push_context_line s c
  | Removed s => push_old_line s c
  | Added s => push_new_line s c
  end.

Definition chunk_of (c : SrcChunk) : UpdateFileChunk :=
  let c' := fold_left add_diff_line (sc_body c) (mkChunk (sc_context c) [] [] [] false) in
  if sc_eof c then set_end_of_file c' else c'.

Definition hunk_of (h : SrcHunk) : Hunk :=
  match h with
  | SrcAdd path text => AddFile path (concat (ln <$> text))
  | SrcDelete path => DeleteFile path
  | SrcUpdate path move_to chunks => UpdateFile path move_to (chunk_of <$> chunks)
  end.

(** ** Side conditions *)

Definition header_text_ok (s : str) : bool :=
  bool_decide (LF ∉ s) &&
  match last s with Some c => negb (is_whitespace c) | None => false end.
Definition line_ok (s : str) : bool := bool_decide (clean_line s).
Definition diff_line_ok (d : DiffLine) : bool :=
  match d with Context s | Removed s | Added s => line_ok s end.
Definition chunk_ok (c : SrcChunk) : bool :=
  match sc_context c with Some s => header_text_ok s | None => true end &&
  negb (bool_decide (length (sc_body c) = 0)) && forallb diff_line_ok (sc_body c).
Definition hunk_ok (h : SrcHunk) : bool :=
  match h with
  | SrcAdd path text => header_text_ok path && forallb line_ok text
  | SrcDelete path => header_text_ok path
  | SrcUpdate path move_to chunks =>
      header_text_ok path && match move_to with Some q => header_text_ok q | None => true end &&
      negb (bool_decide (length chunks = 0)) && forallb chunk_ok chunks
  end.
(** An environment id is trimmed on both sides. *)
Definition env_ok (e : str) : bool :=
  header_text_ok e && match head e with Some c => negb (is_whitespace c) | None => false end.
Definition patch_ok (sp : SrcPatch) : bool :=
  match sp_environment_id sp with Some e => env_ok e | None => true end &&
  forallb hunk_ok (sp_hunks sp).

(** ** Printed lines are clean *)

Lemma header_text_ok_spec s :
  header_text_ok s = true →
  (LF ∉ s) ∧ ∃ c, last s = Some c ∧ is_whitespace c = false.
Proof.
  unfold header_text_ok. intros H. destruct (last s); reflect_bools; [eauto|done].
Qed.

Lemma clean_line_cons c s : c ≠ LF → c ≠ CR → clean_line s → clean_line (c :: s).
Proof.
  intros ?? [Hs Hl]. split; [set_solver|]. destruct s; simpl in *; [congruence|done].
Qed.

Lemma last_app_r {A} (a b : list A) x : last b = Some x → last (a ++ b) = Some x.
Proof. intros [b' ->]%last_Some. by rewrite app_assoc, last_snoc. Qed.

Lemma clean_header m s :
  (LF ∉ m) → header_text_ok s = true → clean_line (m ++ s).
Proof.
  intros Hm (Hs & c & Hc & Hw)%header_text_ok_spec. split; [set_solver|].
  rewrite (last_app_r _ _ c) by done. intros [= ->]. vm_compute in Hw. done.
Qed.

Lemma line_ok_spec s : line_ok s = true → clean_line s.
Proof. unfold line_ok. intros H. by reflect_bools. Qed.

Ltac no_lf := apply (bool_decide_unpack _); vm_compute; exact I.

Lemma clean_diff_line d : diff_line_ok d = true → clean_line (render_diff_line d).
Proof.
  destruct d; simpl; intros H%line_ok_spec; apply clean_line_cons; try done; no_lf.
Qed.

Lemma clean_chunk c : chunk_ok c = true → Forall clean_line (render_chunk c).
Proof.
  unfold chunk_ok, render_chunk. intros H. reflect_bools.
  constructor; [|rewrite Forall_app; split].
  - destruct (sc_context c); cbn [render_context]; [apply clean_header; [no_lf|done]|no_lf].
  - apply Forall_fmap, Forall_forall. intros d Hd%list_elem_of_In. simpl.
    apply clean_diff_line. eapply forallb_forall in Hd; eauto.
  - destruct (sc_eof c); repeat constructor; no_lf.
Qed.

Lemma clean_concat {A} (f : A → list str) (ok : A → bool) l :
  (∀ x, ok x = true → Forall clean_line (f x)) → forallb ok l = true →
  Forall clean_line (concat (f <$> l)).
Proof.
  intros Hf. induction l as [|x l IH]; simpl; [constructor|].
  intros H. reflect_bools. rewrite Forall_app. auto.
Qed.

Lemma clean_hunk h : hunk_ok h = true → Forall clean_line (render_hunk h).
Proof.
  destruct h as [path text|path|path mv chunks]; cbn [hunk_ok render_hunk]; intros H; reflect_bools.
  - constructor; [apply clean_header; [no_lf|done]|].
    apply Forall_fmap, Forall_forall. intros s Hs%list_elem_of_In. simpl.
    apply clean_line_cons; [no_lf..|]. apply line_ok_spec. eapply forallb_forall in Hs; eauto.
  - repeat constructor; apply clean_header; done || no_lf.
  - constructor; [apply clean_header; [no_lf|done]|]. rewrite Forall_app. split.
    + destruct mv; repeat constructor; apply clean_header; done || no_lf.
    + by apply (clean_concat _ chunk_ok); [apply clean_chunk|].
Qed.

Lemma clean_body sp : patch_ok sp = true → Forall clean_line (render_body sp).
Proof.
  unfold patch_ok, env_ok, render_body. intros H.
  constructor; [no_lf|]. rewrite Forall_app. reflect_bools. split.
  - destruct (sp_environment_id sp) as [e|]; [|done]. reflect_bools.
    repeat constructor; change (chr " " :: e) with ([chr " "] ++ e); rewrite app_assoc;
      apply clean_header; done || no_lf.
  - by apply (clean_concat _ hunk_ok); [apply clean_hunk|].
Qed.

(** ** Feeding lines *)

Lemma handle_headers_buffer p line p' :
  handle_hunk_headers_and_end_patch p line = Ok (Some p') → line_buffer p' = line_buffer p.
Proof.
  unfold handle_hunk_headers_and_end_patch.
  destruct (match mode p with StartedPatch => _ | _ => None end); [by intros H; run H|].
  destruct (str_eqb line END_PATCH_MARKER); [by intros H; run H|].
  destruct (strip_prefix ADD_FILE_MARKER line); [by intros H; run H|].
  destruct (strip_prefix DELETE_FILE_MARKER line); [by intros H; run H|].
  destruct (strip_prefix UPDATE_FILE_MARKER line); by intros H; run H.
Qed.

Lemma process_line_buffer p line p' :
  process_line p line = Ok p' → line_buffer p' = line_buffer p.
Proof.
  unfold process_line. intros H.
  pose proof (handle_headers_buffer p (trim line) p') as Ht.
  pose proof (handle_headers_buffer p (trim_end line) p') as He.
  destruct (mode p); [by run H| | | | |by run H];
  (destruct (handle_hunk_headers_and_end_patch p _) as [[q|]|]; simplify_eq;
   first [by auto | by run H]).
Qed.

Lemma push_chars_plain p l rest :
  LF ∉ l →
  push_chars p (l ++ rest) =
  push_chars (mkParser (line_buffer p ++ l) (mode p) (hunks p) (environment_id p) (line_number p)) rest.
Proof.
  revert p; induction l as [|c l IH]; intros p Hl; simpl.
  - rewrite app_nil_r. by destruct p.
  - rewrite not_elem_of_cons in Hl. destruct Hl as [Hc Hl].
    destruct (N.eqb_spec c LF); [congruence|]. rewrite IH by done.
    simpl. by rewrite <- app_assoc.
Qed.

(** [feeds p ls p']: the complete lines [ls] take [p] to [p']. *)
Inductive feeds : StreamingPatchParser → list str → StreamingPatchParser → Prop :=
  | feeds_nil p : feeds p [] p
  | feeds_cons p p1 p2 l ls :
      process_line (take_line p) l = Ok p1 → feeds p1 ls p2 → feeds p (l :: ls) p2.
#[local] Hint Constructors feeds : rexux.

Lemma feeds_app p ls p1 ls' p2 : feeds p ls p1 → feeds p1 ls' p2 → feeds p (ls ++ ls') p2.
Proof. induction 1; simpl; eauto with rexux. Qed.

Lemma feeds_push_chars p ls p' rest :
  line_buffer p = [] → Forall clean_line ls → feeds p ls p' →
  push_chars p (concat (ln <$> ls) ++ rest) = push_chars p' rest ∧ line_buffer p' = [].
Proof.
  intros Hb Hc Hf. revert Hb Hc. induction Hf as [|p p1 p2 l ls Hl Hf IH]; intros Hb Hc; [done|].
  inversion_clear Hc as [|?? [Hlf Hcr] Hcs].
  change (concat (ln <$> l :: ls)) with ((l ++ [LF]) ++ concat (ln <$> ls)).
  rewrite <- !app_assoc, push_chars_plain by done.
  rewrite Hb. simpl. unfold strip_cr. rewrite strip_suffix_single_None by done.
  change (take_line (mkParser _ _ _ _ _)) with (take_line p). simpl.
  rewrite Hl. apply IH; [|done]. by apply process_line_buffer in Hl.
Qed.

(** ** Headers *)

(** A state between two hunks (or before the first): the next header is
    accepted. *)
Definition ready (p : StreamingPatchParser) : Prop :=
  match mode p with NotStarted | EndedPatch => False | _ => True end ∧
  match last (hunks p) with
  | Some (UpdateFile _ _ chunks) => chunks ≠ [] ∧ last_is chunk_has_no_lines chunks = false
  | _ => True
  end.

Lemma ready_ensure p l : ready p → ensure_update_hunk_is_not_empty (take_line p) l = Ok tt.
Proof.
  intros [_ H]. unfold ensure_update_hunk_is_not_empty. simpl.
  destruct (last (hunks p)) as [[| |? ? chunks]|]; try done. destruct H as [Hne ->].
  by destruct chunks.
Qed.

(** A line the header handler accepts is accepted in every reading mode. *)
Lemma process_line_handled p l p' :
  match mode p with NotStarted | EndedPatch => False | _ => True end →
  trim l = l → trim_end l = l →
  handle_hunk_headers_and_end_patch p l = Ok (Some p') → process_line p l = Ok p'.
Proof.
  intros Hm Ht Hte Hh. unfold process_line. rewrite Ht, Hte, Hh. by destruct (mode p).
Qed.

Lemma trim_end_header m s : header_text_ok s = true → trim_end (m ++ s) = m ++ s.
Proof.
  intros (_ & c & Hc & Hw)%header_text_ok_spec. apply (trim_end_id _ c); [|done].
  by apply last_app_r.
Qed.

Lemma trim_header d m s :
  is_whitespace d = false → header_text_ok s = true → trim ((d :: m) ++ s) = (d :: m) ++ s.
Proof.
  intros Hd Hs. unfold trim. rewrite (trim_start_id _ d) by done. by apply trim_end_header.
Qed.

Ltac header_step p marker :=
  apply process_line_handled;
  [done | by apply (trim_header (chr "*")) | by apply trim_end_header | ];
  unfold handle_hunk_headers_and_end_patch; cbn [mode take_line];
  rewrite (strip_prefix_app marker), !ready_ensure by done;
  by destruct (mode p).

Lemma process_add_header p path :
  ready p → header_text_ok path = true →
  process_line (take_line p) (ADD_FILE_MARKER ++ path) =
  Ok (push_hunk (AddFile path []) InAddFile (take_line p)).
Proof. intros Hr Hp. pose proof Hr as [Hm _]. header_step p ADD_FILE_MARKER. Qed.

Lemma process_delete_header p path :
  ready p → header_text_ok path = true →
  process_line (take_line p) (DELETE_FILE_MARKER ++ path) =
  Ok (push_hunk (DeleteFile path) InDeleteFile (take_line p)).
Proof. intros Hr Hp. pose proof Hr as [Hm _]. header_step p DELETE_FILE_MARKER. Qed.

Lemma process_update_header p path :
  ready p → header_text_ok path = true →
  process_line (take_line p) (UPDATE_FILE_MARKER ++ path) =
  Ok (push_hunk (UpdateFile path None []) (InUpdateFile (S (line_number p))) (take_line p)).
Proof. intros Hr Hp. pose proof Hr as [Hm _]. header_step p UPDATE_FILE_MARKER. Qed.

(** ** Body lines of an update hunk *)

(** The parser is reading the chunks of an update hunk. *)
Definition in_update (p : StreamingPatchParser) (hs : list Hunk) (path : str)
    (mp : option str) (chunks : list UpdateFileChunk) (env : option str) : Prop :=
  (∃ n, mode p = InUpdateFile n) ∧ hunks p = hs ++ [UpdateFile path mp chunks] ∧
  environment_id p = env.

(** Headers and markers start with a star, so a line that starts otherwise is
    left to [process_update_line]. *)
Lemma handle_not_header p n c r :
  mode p = InUpdateFile n → c ≠ chr "*" →
  handle_hunk_headers_and_end_patch p (c :: r) = Ok None.
Proof.
  intros Hm Hc. unfold handle_hunk_headers_and_end_patch. rewrite Hm.
  assert (str_eqb (c :: r) END_PATCH_MARKER = false) as ->
    by (apply str_eqb_neq; intros [=]; by apply Hc).
  assert (∀ m : str, strip_prefix (chr "*" :: m) (c :: r) = None) as Hs.
  { intros m. cbn [strip_prefix]. destruct (N.eqb_spec (chr "*") c); [congruence|done]. }
  change ADD_FILE_MARKER with (chr "*" :: lit "** Add File: ").
  change DELETE_FILE_MARKER with (chr "*" :: lit "** Delete File: ").
  change UPDATE_FILE_MARKER with (chr "*" :: lit "** Update File: ").
  by rewrite !Hs.
Qed.

Lemma process_in_update p hs path mp chunks env l mp' chunks' :
  in_update p hs path mp chunks env →
  handle_hunk_headers_and_end_patch (take_line p) (trim_end l) = Ok None →
  process_update_line (S (line_number p)) l mp chunks = Ok (mp', chunks') →
  ∃ p', process_line (take_line p) l = Ok p' ∧ in_update p' hs path mp' chunks' env.
Proof.
  intros ([n Hm] & Hh & He) Hhd Hu. unfold process_line. simpl. rewrite Hm, Hhd, Hh, last_snoc.
  rewrite Hu. eexists. split; [done|]. unfold in_update. simpl.
  rewrite alter_last_snoc, Hm. naive_solver.
Qed.

Lemma trim_end_cons c s : trim_end (c :: s) = [] ∨ ∃ r, trim_end (c :: s) = c :: r.
Proof.
  unfold trim_end. simpl. destruct (trim_end_matches is_whitespace s); [case_match|]; eauto.
Qed.

Lemma trim_end_diff_line d :
  trim_end (render_diff_line d) = [] ∨
  ∃ r, trim_end (render_diff_line d) = chr " " :: r ∨
       trim_end (render_diff_line d) = chr "-" :: r ∨
       trim_end (render_diff_line d) = chr "+" :: r.
Proof.
  destruct d as [s|s|s]; cbn [render_diff_line];
    [destruct (trim_end_cons (chr " ") s) as [->|[r ->]]
    |destruct (trim_end_cons (chr "-") s) as [->|[r ->]]
    |destruct (trim_end_cons (chr "+") s) as [->|[r ->]]]; eauto 10.
Qed.

(** The context, removed and added lines of a chunk. *)
Lemma process_diff_line n mp cs c d :
  is_end_of_file c = false →
  process_update_line n (render_diff_line d) mp (cs ++ [c]) = Ok (mp, cs ++ [add_diff_line c d]).
Proof.
  intros He. unfold process_update_line. rewrite !last_is_snoc, He.
  cbn [andb].
  assert (∀ x : option str,
    match cs ++ [c], mp with [], None => x | _, _ => None end = None) as ->
    by (intros; by destruct cs).
  assert (str_eqb (trim_end (render_diff_line d)) EMPTY_CHANGE_CONTEXT_MARKER = false ∧
          strip_prefix CHANGE_CONTEXT_MARKER (trim_end (render_diff_line d)) = None ∧
          str_eqb (trim_end (render_diff_line d)) EOF_MARKER = false) as (H1 & H2 & H3).
  { destruct (trim_end_diff_line d) as [->|[r [->|[->| ->]]]]; split_and!; reflexivity. }
  unfold starts_with. rewrite H1, H2, H3. cbn [orb andb].
  assert (or_default_chunk (cs ++ [c]) = cs ++ [c]) as -> by (by destruct cs).
  destruct d; cbn [render_diff_line add_diff_line]; rewrite !alter_last_snoc; reflexivity.
Qed.

Lemma feeds_diff_lines p hs path mp cs c env body :
  in_update p hs path mp (cs ++ [c]) env → is_end_of_file c = false →
  ∃ p', feeds p (render_diff_line <$> body) p' ∧
        in_update p' hs path mp (cs ++ [fold_left add_diff_line body c]) env.
Proof.
  revert p c. induction body as [|d body IH]; intros p c Hp He; simpl; [eauto with rexux|].
  destruct (process_in_update p hs path mp (cs ++ [c]) env (render_diff_line d)
              mp (cs ++ [add_diff_line c d])) as (p1 & Hl & Hp1); [done| |by apply process_diff_line|].
  - destruct Hp as ([n Hm] & _).
    destruct (trim_end_diff_line d) as [->|[r [->|[->| ->]]]];
    [unfold handle_hunk_headers_and_end_patch; cbn [mode take_line]; by rewrite Hm
    |by apply (handle_not_header _ n)..].
  - destruct (IH p1 (add_diff_line c d)) as (p2 & Hf & Hp2); [done|by destruct d|].
    eauto with rexux.
Qed.

(** ** Chunks and hunks *)

Lemma fold_add_diff_line_eof body c :
  is_end_of_file (fold_left add_diff_line body c) = is_end_of_file c.
Proof. revert c; induction body as [|d body IH]; intros c; simpl; [done|]. rewrite IH. by destruct d. Qed.

Lemma add_diff_line_lines c d : chunk_has_no_lines (add_diff_line c d) = false.
Proof.
  unfold chunk_has_no_lines. destruct d; simpl;
  repeat case_bool_decide; try done; by destruct (old_lines c), (new_lines c).
Qed.

Lemma fold_add_diff_line_lines body c :
  body ≠ [] → chunk_has_no_lines (fold_left add_diff_line body c) = false.
Proof.
  destruct (list_snoc_cases body) as [->|(b & d & ->)]; [done|]. intros _.
  rewrite fold_left_app. apply add_diff_line_lines.
Qed.

Lemma chunk_of_lines c : chunk_ok c = true → chunk_has_no_lines (chunk_of c) = false.
Proof.
  unfold chunk_ok, chunk_of. intros H. reflect_bools.
  assert (sc_body c ≠ []) as Hb by (by destruct (sc_body c)).
  destruct (sc_eof c); by apply fold_add_diff_line_lines with
    (c := mkChunk (sc_context c) [] [] [] false) in Hb.
Qed.

Definition last_has_lines (chunks : list UpdateFileChunk) : Prop :=
  last_is chunk_has_no_lines chunks = false.

(** A context marker opens a chunk once the previous one has lines. *)
Lemma process_context n mp chunks ctx :
  match ctx with Some s => header_text_ok s | None => true end = true →
  last_has_lines chunks →
  process_update_line n (render_context ctx) mp chunks =
  Ok (mp, chunks ++ [mkChunk ctx [] [] [] false]).
Proof.
  intros Hctx Hlast. unfold process_update_line, last_has_lines in *. rewrite Hlast.
  assert (trim_end (render_context ctx) = render_context ctx) as ->
    by (destruct ctx; [by apply trim_end_header|done]).
  rewrite !andb_false_r.
  destruct ctx as [s|]; cbn [render_context].
  - assert (starts_with CHANGE_CONTEXT_MARKER (CHANGE_CONTEXT_MARKER ++ s) = true) as ->
      by apply starts_with_app.
    rewrite orb_true_r, strip_prefix_app. cbn [negb]. rewrite andb_false_r.
    assert (str_eqb (CHANGE_CONTEXT_MARKER ++ s) EMPTY_CHANGE_CONTEXT_MARKER = false) as ->
      by (apply str_eqb_neq; done).
    rewrite ?andb_false_r. by destruct chunks, mp.
  - rewrite str_eqb_refl. cbn [orb negb]. rewrite andb_false_r.
    rewrite ?andb_false_r. by destruct chunks, mp.
Qed.

Lemma trim_end_render_context ctx :
  match ctx with Some s => header_text_ok s | None => true end = true →
  ∃ r, trim_end (render_context ctx) = chr "@" :: r.
Proof.
  destruct ctx as [s|]; cbn [render_context]; intros H; [|eexists; reflexivity].
  rewrite trim_end_header by done. eexists. reflexivity.
Qed.

Lemma process_eof n mp cs c :
  is_end_of_file c = false → chunk_has_no_lines c = false →
  process_update_line n EOF_MARKER mp (cs ++ [c]) = Ok (mp, cs ++ [set_end_of_file c]).
Proof.
  intros He Hl. unfold process_update_line. rewrite !last_is_snoc, He, Hl, alter_last_snoc.
  change (trim_end EOF_MARKER) with EOF_MARKER. by destruct cs, mp.
Qed.

Lemma feeds_chunk p hs path mp chunks env c :
  chunk_ok c = true → in_update p hs path mp chunks env → last_has_lines chunks →
  ∃ p', feeds p (render_chunk c) p' ∧
        in_update p' hs path mp (chunks ++ [chunk_of c]) env.
Proof.
  intros Hok Hp Hlast. pose proof Hok as Hok'. unfold chunk_ok in Hok. reflect_bools.
  destruct (trim_end_render_context (sc_context c)) as [r Hr]; [done|].
  destruct (process_in_update p hs path mp chunks env (render_context (sc_context c))
    mp (chunks ++ [mkChunk (sc_context c) [] [] [] false])) as (p1 & Hl & Hp1); [done| | |].
  { destruct Hp as ([n Hm] & _). rewrite Hr. by apply (handle_not_header _ n). }
  { by apply process_context. }
  destruct (feeds_diff_lines p1 hs path mp chunks (mkChunk (sc_context c) [] [] [] false) env
    (sc_body c)) as (p2 & Hf & Hp2); [done..|].
  unfold render_chunk, chunk_of. set (c1 := fold_left _ _ _) in *.
  destruct (sc_eof c) eqn:Eeof.
  - destruct (process_in_update p2 hs path mp (chunks ++ [c1]) env EOF_MARKER mp
      (chunks ++ [set_end_of_file c1]) Hp2) as (p3 & Hl3 & Hp3);
      [|subst c1; apply process_eof; [by rewrite fold_add_diff_line_eof|]|].
    { destruct Hp2 as ([n Hm] & _). unfold handle_hunk_headers_and_end_patch. simpl. by rewrite Hm. }
    { apply fold_add_diff_line_lines. by destruct (sc_body c). }
    exists p3. split; [|done]. econstructor; [done|]. eapply feeds_app; [done|]. eauto with rexux.
  - exists p2. split; [|done]. rewrite app_nil_r. eauto with rexux.
Qed.

Lemma feeds_chunks p hs path mp chunks env cs :
  forallb chunk_ok cs = true → in_update p hs path mp chunks env → last_has_lines chunks →
  ∃ p', feeds p (concat (render_chunk <$> cs)) p' ∧
        in_update p' hs path mp (chunks ++ (chunk_of <$> cs)) env.
Proof.
  revert p chunks. induction cs as [|c cs IH]; intros p chunks Hok Hp Hl; cbn [fmap list_fmap concat].
  - rewrite app_nil_r. eauto with rexux.
  - simpl in Hok. reflect_bools.
    destruct (feeds_chunk p hs path mp chunks env c) as (p1 & Hf & Hp1); [done..|].
    destruct (IH p1 (chunks ++ [chunk_of c])) as (p2 & Hf2 & Hp2); [done..| |].
    { unfold last_has_lines. rewrite last_is_snoc. by apply chunk_of_lines. }
    exists p2. split; [by eapply feeds_app|]. by rewrite <- app_assoc in Hp2.
Qed.

(** Between two hunks, with the hunks read so far. *)
Definition at_hunks (p : StreamingPatchParser) (hs : list Hunk) (env : option str) : Prop :=
  ready p ∧ hunks p = hs ∧ environment_id p = env.

(** The added lines of a new file. *)
Lemma feeds_added p hs path contents env text :
  mode p = InAddFile → hunks p = hs ++ [AddFile path contents] → environment_id p = env →
  ∃ p', feeds p (cons (chr "+") <$> text) p' ∧ mode p' = InAddFile ∧
        hunks p' = hs ++ [AddFile path (contents ++ concat (ln <$> text))] ∧
        environment_id p' = env.
Proof.
  revert p contents. induction text as [|s text IH]; intros p contents Hm Hh He;
    cbn [fmap list_fmap concat].
  { exists p. rewrite app_nil_r. eauto with rexux. }
  assert (∃ p1, process_line (take_line p) (chr "+" :: s) = Ok p1 ∧ mode p1 = InAddFile ∧
     hunks p1 = hs ++ [AddFile path (contents ++ ln s)] ∧ environment_id p1 = env)
    as (p1 & Hl & Hm1 & Hh1 & He1).
  { unfold process_line. cbn [mode take_line hunks]. rewrite Hm.
    assert (handle_hunk_headers_and_end_patch (take_line p) (trim (chr "+" :: s)) = Ok None) as ->.
    { unfold trim. rewrite (trim_start_id _ (chr "+")) by done.
      unfold handle_hunk_headers_and_end_patch. cbn [mode take_line]. rewrite Hm.
      by destruct (trim_end_cons (chr "+") s) as [->|[r ->]]. }
    rewrite Hh, last_snoc, N.eqb_refl. eexists. split; [done|].
    cbn [set_hunks hunks mode environment_id take_line]. by rewrite alter_last_snoc. }
  destruct (IH p1 _ Hm1 Hh1 He1) as (p2 & Hf & ? & Hh2 & ?).
  exists p2. split; [eauto with rexux|]. rewrite Hh2, <- app_assoc. done.
Qed.

Lemma process_move p hs path env q :
  in_update p hs path None [] env → header_text_ok q = true →
  ∃ p', process_line (take_line p) (MOVE_TO_MARKER ++ q) = Ok p' ∧
        in_update p' hs path (Some q) [] env.
Proof.
  intros Hp Hq. apply (process_in_update p hs path None [] env); [done|..].
  - rewrite trim_end_header by done. destruct Hp as ([n Hm] & _).
    unfold handle_hunk_headers_and_end_patch. cbn [mode take_line]. by rewrite Hm.
  - unfold process_update_line. rewrite trim_end_header by done. cbn [last_is last andb].
    by rewrite strip_prefix_app.
Qed.

Lemma feeds_hunk p hs env h :
  hunk_ok h = true → at_hunks p hs env →
  ∃ p', feeds p (render_hunk h) p' ∧ at_hunks p' (hs ++ [hunk_of h]) env.
Proof.
  intros Hok (Hr & Hh & He). destruct h as [path text|path|path mv chunks];
    cbn [hunk_ok render_hunk hunk_of] in *; reflect_bools.
  - destruct (feeds_added (push_hunk (AddFile path []) InAddFile (take_line p)) hs path [] env text)
      as (p' & Hf & Hm & Hh' & He'); [done|by rewrite <- Hh|done|].
    exists p'. split; [econstructor; [by apply process_add_header|done]|].
    unfold at_hunks, ready. by rewrite Hm, Hh', last_snoc.
  - eexists. split; [econstructor; [by apply process_delete_header|constructor]|].
    unfold at_hunks, ready. cbn. by rewrite Hh, last_snoc.
  - set (p1 := push_hunk (UpdateFile path None []) (InUpdateFile (S (line_number p))) (take_line p)).
    assert (in_update p1 hs path None [] env) as Hp1
      by (split_and!; [eexists; done|by rewrite <- Hh|done]).
    assert (∃ p2, feeds p1 (match mv with Some q => [MOVE_TO_MARKER ++ q] | None => [] end) p2 ∧
                  in_update p2 hs path mv [] env) as (p2 & Hf2 & Hp2).
    { destruct mv as [q|]; [|eauto with rexux].
      destruct (process_move p1 hs path env q) as (p2 & ? & ?); [done..|]. eauto with rexux. }
    destruct (feeds_chunks p2 hs path mv [] env chunks) as (p3 & Hf3 & [n Hm3] & Hh3 & He3); [done..|].
    exists p3. split.
    + econstructor; [by apply process_update_header|]. by eapply feeds_app.
    + unfold at_hunks, ready. rewrite Hm3, Hh3, last_snoc. split_and!; try done.
      * by destruct chunks.
      * destruct (list_snoc_cases chunks) as [->|(cs & c & ->)]; [done|].
        rewrite fmap_app. cbn [app fmap list_fmap]. rewrite last_is_snoc. apply chunk_of_lines.
        rewrite forallb_app in *. simpl in *. reflect_bools. done.
Qed.

Lemma feeds_hunks p hs env l :
  forallb hunk_ok l = true → at_hunks p hs env →
  ∃ p', feeds p (concat (render_hunk <$> l)) p' ∧ at_hunks p' (hs ++ (hunk_of <$> l)) env.
Proof.
  revert p hs. induction l as [|h l IH]; intros p hs Hok Hp; cbn [fmap list_fmap concat].
  - rewrite app_nil_r. eauto with rexux.
  - simpl in Hok. reflect_bools. destruct (feeds_hunk p hs env h) as (p1 & Hf & Hp1); [done..|].
    destruct (IH p1 (hs ++ [hunk_of h])) as (p2 & Hf2 & Hp2); [done..|].
    exists p2. split; [by eapply feeds_app|]. by rewrite <- app_assoc in Hp2.
Qed.

Lemma feeds_body sp :
  patch_ok sp = true →
  ∃ p, feeds new_parser (render_body sp) p ∧
       at_hunks p (hunk_of <$> sp_hunks sp) (sp_environment_id sp).
Proof.
  unfold patch_ok, render_body. intros H. reflect_bools.
  set (p1 := set_mode StartedPatch (take_line new_parser)).
  assert (∃ p2, feeds p1 (match sp_environment_id sp with
      | Some e => [ENVIRONMENT_ID_MARKER ++ chr " " :: e] | None => [] end) p2 ∧
      at_hunks p2 [] (sp_environment_id sp)) as (p2 & Hf2 & Hp2).
  { destruct (sp_environment_id sp) as [e|]; [|exists p1; split; [constructor|done]].
    unfold env_ok in H. destruct (head e) as [c|] eqn:Hc; reflect_bools; [|done].
    assert (header_text_ok e = true) as (_ & d & Hd & Hdw)%header_text_ok_spec by done.
    assert (trim e = e) as Htrim by (by apply (trim_id e c d)).
    assert (last (ENVIRONMENT_ID_MARKER ++ chr " " :: e) = Some d) as Hlast.
    { apply last_app_r. by apply (last_app_r [chr " "] e). }
    exists (set_environment_id (Some e) (take_line p1)). split; [|done].
    econstructor; [|constructor]. apply process_line_handled; [done| | |].
    - by apply (trim_id _ (chr "*") d).
    - by apply (trim_end_id _ d).
    - unfold handle_hunk_headers_and_end_patch. cbn [mode take_line p1 set_mode environment_id].
      rewrite strip_prefix_app.
      replace (trim (chr " " :: e)) with e by (unfold trim; simpl; by rewrite <- Htrim at 1).
      rewrite bool_decide_eq_false_2; [done|]. by destruct e. }
  destruct (feeds_hunks p2 [] (sp_environment_id sp) (sp_hunks sp)) as (p3 & Hf3 & Hp3); [done..|].
  exists p3. split; [|done]. econstructor; [reflexivity|]. by eapply feeds_app.
Qed.

Lemma join_lf_snoc l s : join [LF] (l ++ [s]) = concat (ln <$> l) ++ s.
Proof.
  induction l as [|a l IH]; cbn [app]; [done|].
  rewrite join_cons by (by destruct l). rewrite IH.
  change (concat (ln <$> a :: l)) with ((a ++ [LF]) ++ concat (ln <$> l)).
  by rewrite <- !app_assoc.
Qed.

Lemma finish_at_end p :
  line_buffer p = END_PATCH_MARKER → ready p →
  finish p = (set_mode EndedPatch (take_line p), Ok (hunks p)).
Proof.
  intros Hb Hr. unfold finish, finish_line. rewrite Hb.
  remember END_PATCH_MARKER as m eqn:Em. destruct m as [|c m]; [done|]. rewrite Em.
  change (trim END_PATCH_MARKER) with END_PATCH_MARKER.
  by rewrite str_eqb_refl, ready_ensure.
Qed.

(** The streaming parser reads the printed patch. *)
Lemma stream_render sp :
  patch_ok sp = true →
  ∃ p p', push_delta new_parser (render_patch sp) = (p, Ok (hunk_of <$> sp_hunks sp)) ∧
          finish p = (p', Ok (hunk_of <$> sp_hunks sp)) ∧
          environment_id p' = sp_environment_id sp.
Proof.
  intros Hok. destruct (feeds_body sp Hok) as (p & Hf & Hr & Hh & He).
  unfold push_delta, render_patch. rewrite join_lf_snoc.
  destruct (feeds_push_chars new_parser (render_body sp) p END_PATCH_MARKER) as [-> Hb];
    [done|by apply clean_body|done|].
  rewrite <- (app_nil_r END_PATCH_MARKER), push_chars_plain by no_lf.
  rewrite Hb, app_nil_l. cbn [push_chars]. set (q := mkParser _ _ _ _ _).
  exists q, (set_mode EndedPatch (take_line q)). split_and!; [by rewrite <- Hh| |done].
  by rewrite (finish_at_end q), <- Hh.
Qed.

Lemma render_patch_trim sp : trim (render_patch sp) = render_patch sp.
Proof.
  apply (trim_id _ (chr "*") (chr "h")); [|done| |done].
  - unfold render_patch, render_body. rewrite join_lf_snoc. reflexivity.
  - unfold render_patch. rewrite join_lf_snoc. by apply last_app_r.
Qed.

Lemma render_patch_lines sp :
  patch_ok sp = true → lines (render_patch sp) = render_body sp ++ [END_PATCH_MARKER].
Proof. intros Hok. apply lines_join; [by apply clean_body|no_lf|done]. Qed.

Lemma render_patch_boundaries sp :
  check_patch_boundaries_strict (render_body sp ++ [END_PATCH_MARKER]) =
  Ok (render_body sp ++ [END_PATCH_MARKER]).
Proof.
  unfold check_patch_boundaries_strict. rewrite last_snoc. unfold render_body. reflexivity.
Qed.

Lemma parse_render_aux sp m :
  patch_ok sp = true →
  parse_patch_text (render_patch sp) m =
  Ok (mkArgs (render_patch sp) (hunk_of <$> sp_hunks sp) None (sp_environment_id sp)).
Proof.
  intros Hok. unfold parse_patch_text. rewrite render_patch_trim, render_patch_lines by done.
  destruct (stream_render sp Hok) as (p & p' & Hpush & Hfin & Henv).
  set (ls := render_body sp ++ _) in *.
  assert (match m with Strict => check_patch_boundaries_strict ls
                     | Lenient => check_patch_boundaries_lenient ls end = Ok ls) as ->
    by (unfold check_patch_boundaries_lenient, ls; destruct m; by rewrite render_patch_boundaries).
  change (join [LF] ls) with (render_patch sp). by rewrite Hpush, Hfin, Henv.
Qed.

(** ** Heredoc envelopes *)

Lemma trimmed_last s c : trim s = s → last s = Some c → is_whitespace c = false.
Proof.
  unfold trim, trim_end. intros Ht Hl.
  destruct (trim_end_matches_spec is_whitespace (trim_start s)) as (t & _ & _ & H).
  apply H. by rewrite Ht.
Qed.

Lemma trimmed_last_ne s c : trim s = s → is_whitespace c = true → last s ≠ Some c.
Proof. intros Ht Hc Hl. apply trimmed_last in Hl; congruence. Qed.

(** The text of a heredoc around [patch]. *)
Definition heredoc (opener patch : str) : str := opener ++ LF :: patch ++ LF :: lit "EOF".

Lemma lines_heredoc opener patch :
  clean_line opener → patch ≠ [] → trim patch = patch →
  lines (heredoc opener patch) = opener :: lines patch ++ [lit "EOF"].
Proof.
  intros Ho Hne Ht. unfold heredoc. rewrite lines_app by done. f_equal.
  rewrite lines_app_ne; [reflexivity|done|by apply trimmed_last_ne..].
Qed.

Lemma opener_facts opener :
  is_heredoc_opener opener = true →
  clean_line opener ∧ trim opener = opener ∧ opener ≠ BEGIN_PATCH_MARKER ∧
  head opener = Some (chr "<").
Proof.
  unfold is_heredoc_opener. rewrite !orb_true_iff, !str_eqb_eq.
  intros [[-> | ->]| ->]; split_and!; done || no_lf.
Qed.

Lemma strict_two_lines ls ls' :
  check_patch_boundaries_strict ls = Ok ls' → ls' = ls ∧ 2 ≤ length ls.
Proof.
  unfold check_patch_boundaries_strict, check_start_and_end_lines_strict.
  destruct ls as [|a [|b ls]]; [done| |simpl; intros H; run H; split; [done|lia]].
  cbn [head last fmap option_fmap option_map]. intros H. exfalso.
  destruct (str_eqb (trim a) BEGIN_PATCH_MARKER) eqn:E1; [|done].
  apply str_eqb_eq in E1. rewrite E1 in H. done.
Qed.

Lemma lenient_heredoc opener ls ls' :
  is_heredoc_opener opener = true → check_patch_boundaries_strict ls = Ok ls' →
  check_patch_boundaries_lenient (opener :: ls ++ [lit "EOF"]) = Ok ls'.
Proof.
  intros Ho Hs. destruct (opener_facts _ Ho) as (_ & Ht & Hb & _).
  destruct (strict_two_lines _ _ Hs) as [-> Hlen].
  unfold check_patch_boundaries_lenient at 1.
  assert (∃ e, check_patch_boundaries_strict (opener :: ls ++ [lit "EOF"]) = Err e) as [e ->].
  { unfold check_patch_boundaries_strict, check_start_and_end_lines_strict.
    cbn [head fmap option_fmap option_map]. rewrite Ht.
    assert (str_eqb opener BEGIN_PATCH_MARKER = false) as -> by (by apply str_eqb_neq).
    destruct (trim <$> last (opener :: ls ++ [lit "EOF"])); simpl; eauto. }
  destruct (ls ++ [lit "EOF"]) as [|l2 rest] eqn:E; [by destruct ls|]. rewrite <- E.
  rewrite Ho. change (opener :: ls ++ [lit "EOF"]) with ((opener :: ls) ++ [lit "EOF"]).
  rewrite last_is_snoc, bool_decide_eq_true_2 by (rewrite length_app; simpl; lia).
  change (ends_with (lit "EOF") (lit "EOF")) with true. cbn [andb].
  assert (take (length ((opener :: ls) ++ [lit "EOF"]) - 2) (drop 1 ((opener :: ls) ++ [lit "EOF"]))
          = ls) as ->; [|done].
  rewrite length_app. simpl. rewrite skipn_O, take_app_le, take_ge by lia. done.
Qed.

Lemma heredoc_trim opener patch :
  is_heredoc_opener opener = true → trim (heredoc opener patch) = heredoc opener patch.
Proof.
  intros (_ & _ & _ & Hh)%opener_facts. apply (trim_id _ (chr "<") (chr "F")); [|done| |done].
  - unfold heredoc. by destruct opener.
  - unfold heredoc. apply last_app_r, (last_app_r (LF :: patch)), (last_app_r [LF]). done.
Qed.

(** ** Properties *)

(** C11: round trip.  Every patch that the format can express is read back by
    [parse_patch] to the hunks it denotes, with its environment id, in both
    parse modes the text itself being unchanged. *)
Theorem parse_patch_render (sp : SrcPatch) :
  patch_ok sp = true →
  parse_patch (render_patch sp) =
  Ok (mkArgs (render_patch sp) (hunk_of <$> sp_hunks sp) None (sp_environment_id sp)).
Proof. apply parse_render_aux. Qed.

Definition example_patch : SrcPatch :=
  mkSrcPatch (Some (lit "env-1"))
    [SrcAdd (lit "a.txt") [lit "x"; lit ""];
     SrcDelete (lit "old dir/b");
     SrcUpdate (lit "c.rs") (Some (lit "d.rs"))
       [mkSrcChunk (Some (lit "fn main() {")) [Context (lit ""); Removed (lit "a"); Added (lit "*** End Patch")] false;
        mkSrcChunk None [Added (lit "z  ")] true]].

Lemma parse_patch_render_witness :
  parse_patch (render_patch example_patch) =
  Ok (mkArgs (render_patch example_patch) (hunk_of <$> sp_hunks example_patch) None (Some (lit "env-1"))).
Proof. apply (parse_patch_render example_patch). vm_compute. reflexivity. Defined.

(** lenient mode.  A patch that parses on its own parses to the same
    arguments inside any of the three heredoc spellings ([<<EOF], [<<'EOF'] and
    the double-quoted one), which strict mode refuses. *)
Theorem parse_patch_heredoc (opener patch : str) (args : ApplyPatchArgs) :
  is_heredoc_opener opener = true → trim patch = patch →
  parse_patch_text patch Strict = Ok args →
  parse_patch (heredoc opener patch) = Ok args ∧
  ∃ e, parse_patch_text (heredoc opener patch) Strict = Err e.
Proof.
  intros Ho Ht Hs. destruct (opener_facts _ Ho) as (Hc & Hto & Hb & _).
  assert (patch ≠ []) as Hne by (by intros ->).
  unfold parse_patch, parse_patch_text in *. cbn [PARSE_IN_STRICT_MODE].
  rewrite heredoc_trim, lines_heredoc by done. rewrite Ht in Hs. split.
  - destruct (check_patch_boundaries_strict (lines patch)) as [ls|e] eqn:E; [|done].
    by rewrite (lenient_heredoc _ _ ls).
  - unfold check_patch_boundaries_strict, check_start_and_end_lines_strict.
    cbn [head fmap option_fmap option_map]. rewrite Hto.
    assert (str_eqb opener BEGIN_PATCH_MARKER = false) as -> by (by apply str_eqb_neq).
    destruct (trim <$> last (opener :: lines patch ++ [lit "EOF"])); simpl; eauto.
Qed.

Lemma parse_patch_heredoc_witness :
  (∃ args, parse_patch (heredoc (lit "<<'EOF'") (render_patch example_patch)) = Ok args) ∧
  ∃ e, parse_patch_text (heredoc (lit "<<'EOF'") (render_patch example_patch)) Strict = Err e.
Proof.
  destruct (parse_patch_heredoc (lit "<<'EOF'") (render_patch example_patch)
    (mkArgs (render_patch example_patch) (hunk_of <$> sp_hunks example_patch) None (Some (lit "env-1"))))
    as [H1 H2]; [vm_compute; reflexivity..|]. eauto.
Defined.
