(* ===== verification/SeekSequence.v ===== *)
(** * Locating a block of lines ([apply-patch/src/seek_sequence.rs])

    [seek_sequence] looks for a block of pattern lines with decreasing
    strictness: equal lines, equal up to trailing white space, up to
    surrounding white space, and up to typographic punctuation.  The
    specification says that it returns the first position of the strictest
    level that matches anywhere, and nothing exactly when even the most
    permissive level does not match. *)
From stdpp Require Import numbers strings.
From S2P Require Import Prelude RustStr.

(** [ApplyPatchFileUpdateMode] ([apply-patch/src/lib.rs]). *)
Inductive ApplyPatchFileUpdateMode : Type := NormalizeToLf | PreserveLineEndings.

#[global] Instance ApplyPatchFileUpdateMode_eq_dec : EqDecision ApplyPatchFileUpdateMode.
Proof. solve_decision. Defined.

(** The [match c] of [normalise]. *)
Definition normalise_char (c : char) : char :=
  if (c =? 8208)%N || (c =? 8209)%N || (c =? 8210)%N || (c =? 8211)%N || (c =? 8212)%N
     || (c =? 8213)%N || (c =? 8722)%N then chr "-"
  else if (c =? 8216)%N || (c =? 8217)%N || (c =? 8218)%N || (c =? 8219)%N then chr "'"
  else if (c =? 8220)%N || (c =? 8221)%N || (c =? 8222)%N || (c =? 8223)%N then 34%N
  else if (c =? 160)%N || ((8194 <=? c) && (c <=? 8202))%N || (c =? 8239)%N
          || (c =? 8287)%N || (c =? 12288)%N then chr " "
  else c.

Definition normalise (s : str) : str := normalise_char <$> trim s.

(** [lines[i + p_idx]] against [pat], for each [p_idx], under a normal form
    [f]: the inner loop of the last three passes.  The [[]] case of [ls] would
    be an out-of-bounds access; the outer loop never reaches it. *)
Fixpoint lines_match (f : str → str) (ls pattern : list str) {struct pattern} : bool :=
  match pattern, ls with
  | [], _ => true
  | pat :: pattern', l :: ls' => str_eqb (f l) (f pat) && lines_match f ls' pattern'
  | _ :: _, [] => false
  end.

(** [lines[i..i + pattern.len()] == *pattern]. *)
Definition slice_eq (ls pattern : list str) (i : nat) : bool :=
  bool_decide (take (length pattern) (drop i ls) = pattern).

(** [for i in lo..=hi { if p(i) { return Some(i) } }]. *)
Definition find_in_range (p : nat → bool) (lo hi : nat) : option nat :=
  List.find p (seq lo (S hi - lo)).

(** [a.or_else(b)] for the consecutive passes. *)
Definition or_pass (a b : option nat) : option nat :=
  match a with Some i => Some i | None => b end.

(** The index the passes start from. *)
Definition search_start (ls pattern : list str) (start : nat) (eof : bool)
    (m : ApplyPatchFileUpdateMode) : nat :=
  if eof && bool_decide (length pattern ≤ length ls) then
    let eof_start := length ls - length pattern in
    match m with
    | NormalizeToLf => eof_start
    | PreserveLineEndings => eof_start `max` start
    end
  else start.

Definition seek_sequence (ls pattern : list str) (start : nat) (eof : bool)
    (m : ApplyPatchFileUpdateMode) : option nat :=
  match pattern with
  | [] => Some start
  | _ =>
      if bool_decide (length ls < length pattern) then None
      else
        let lo := search_start ls pattern start eof m in
        let hi := length ls - length pattern in
        or_pass (find_in_range (slice_eq ls pattern) lo hi)
        (or_pass (find_in_range (λ i, lines_match trim_end (drop i ls) pattern) lo hi)
        (or_pass (find_in_range (λ i, lines_match trim (drop i ls) pattern) lo hi)
          (find_in_range (λ i, lines_match normalise (drop i ls) pattern) lo hi)))
  end.

(** ** Specification *)

(** The four normal forms, strictest first. *)
Definition levels : list (str → str) := [λ s, s; trim_end; trim; normalise].

(** [pattern] occurs at [i] up to the normal form [f]. *)
Definition occurs_at (f : str → str) (ls pattern : list str) (i : nat) : Prop :=
  i + length pattern ≤ length ls ∧
  ∀ k p, pattern !! k = Some p → ∃ l, ls !! (i + k) = Some l ∧ f l = f p.

(** [i] is the first occurrence from [lo] at the strictest level that has one. *)
Definition best_match (ls pattern : list str) (lo i : nat) : Prop :=
  ∃ k f, levels !! k = Some f ∧ lo ≤ i ∧ occurs_at f ls pattern i ∧
    (∀ j, lo ≤ j < i → ¬ occurs_at f ls pattern j) ∧
    (∀ k' f' j, k' < k → levels !! k' = Some f' → lo ≤ j → ¬ occurs_at f' ls pattern j).

(** ** Facts *)

Lemma lines_match_spec f ls pattern :
  lines_match f ls pattern = true ↔
  length pattern ≤ length ls ∧
  ∀ k p, pattern !! k = Some p → ∃ l, ls !! k = Some l ∧ f l = f p.
Proof.
  revert ls; induction pattern as [|p pattern IH]; intros ls; simpl.
  { split; [|done]. intros _. split; [lia|]. intros k p Hk. by rewrite lookup_nil in Hk. }
  destruct ls as [|l ls]; simpl; [split; [done|lia]|].
  rewrite andb_true_iff, str_eqb_eq, IH. split.
  - intros (Hl & Hlen & Hrest). split; [lia|]. intros [|k] q Hq; simplify_eq/=; eauto.
  - intros (Hlen & Hall). split_and!; [|lia|intros k q; apply (Hall (S k))].
    destruct (Hall 0 p eq_refl) as (l' & Hl' & ?). by simplify_eq/=.
Qed.

Lemma occurs_at_lines_match f ls pattern i :
  i ≤ length ls → lines_match f (drop i ls) pattern = true ↔ occurs_at f ls pattern i.
Proof.
  intros Hi. rewrite lines_match_spec. unfold occurs_at. rewrite length_drop.
  setoid_rewrite lookup_drop. intuition lia.
Qed.

Lemma occurs_at_slice_eq ls pattern i :
  i ≤ length ls → slice_eq ls pattern i = true ↔ occurs_at (λ s, s) ls pattern i.
Proof.
  intros Hi. unfold slice_eq. rewrite bool_decide_eq_true. split.
  - intros H. assert (length (take (length pattern) (drop i ls)) = length pattern) as Hlen
      by congruence. rewrite length_take, length_drop in Hlen. split; [lia|].
    intros k p Hk. exists p. split; [|done]. rewrite <- H in Hk.
    by rewrite lookup_take_Some, lookup_drop in Hk; destruct Hk.
  - intros [Hlen Hall]. apply list_eq_same_length with (length pattern);
      [done|rewrite length_take, length_drop; lia|].
    intros k x y Hk Hx Hy. apply lookup_take_Some in Hx as [Hx _]. rewrite lookup_drop in Hx.
    destruct (Hall k y Hy) as (l & Hl & ->). congruence.
Qed.

Lemma find_in_range_Some p lo hi i :
  find_in_range p lo hi = Some i ↔
  lo ≤ i ≤ hi ∧ p i = true ∧ ∀ j, lo ≤ j < i → p j = false.
Proof.
  unfold find_in_range. remember (S hi - lo) as n eqn:En.
  revert lo En; induction n as [|n IH]; intros lo En; simpl; [split; [done|lia]|].
  destruct (p lo) eqn:Hp.
  - split; [intros [= <-]; split_and!; [lia..|done|lia]|].
    intros (Hi & Hpi & Hj). destruct (decide (lo = i)) as [->|]; [done|].
    rewrite Hj in Hp; [done|lia].
  - rewrite IH by lia. split; intros (Hi & Hpi & Hj); split_and!; try lia; try done.
    + intros j Hlo. destruct (decide (lo = j)) as [->|]; [done|]. apply Hj. lia.
    + destruct (decide (lo = i)); [congruence|lia].
    + intros j Hlo. apply Hj. lia.
Qed.

Lemma find_in_range_None p lo hi :
  find_in_range p lo hi = None ↔ ∀ j, lo ≤ j ≤ hi → p j = false.
Proof.
  unfold find_in_range. split.
  - intros H j Hj. eapply find_none; [done|]. apply in_seq. lia.
  - intros H. destruct (List.find _ _) as [i|] eqn:E; [|done].
    apply find_some in E as [Hin Hp]. apply in_seq in Hin. rewrite H in Hp; [done|lia].
Qed.

(** A pass of the loop at level [f]. *)
Definition is_pass (f : str → str) (ls pattern : list str) (lo : nat) (r : option nat) : Prop :=
  match r with
  | Some i => lo ≤ i ∧ occurs_at f ls pattern i ∧ ∀ j, lo ≤ j < i → ¬ occurs_at f ls pattern j
  | None => ∀ j, lo ≤ j → ¬ occurs_at f ls pattern j
  end.

Lemma find_is_pass f (p : nat → bool) ls pattern lo :
  length pattern ≤ length ls →
  (∀ i, i ≤ length ls → p i = true ↔ occurs_at f ls pattern i) →
  is_pass f ls pattern lo (find_in_range p lo (length ls - length pattern)).
Proof.
  intros Hlen Hp. destruct (find_in_range _ _ _) as [i|] eqn:E; simpl.
  - apply find_in_range_Some in E as (Hi & Hpi & Hj). split_and!; [lia|apply Hp; [lia|done]|].
    intros j Hlo Ho. apply Hp in Ho; [|destruct Ho; lia]. rewrite Hj in Ho; [done|lia].
  - intros j Hlo Ho. pose proof Ho as [? _]. apply Hp in Ho; [|lia].
    rewrite find_in_range_None in E. rewrite E in Ho; [done|lia].
Qed.

(** The levels are ordered: what matches strictly matches permissively. *)
Lemma occurs_at_mono f g ls pattern i :
  (∀ a b, f a = f b → g a = g b) → occurs_at f ls pattern i → occurs_at g ls pattern i.
Proof. intros Hfg [Hlen Hall]. split; [done|]. intros k p Hk. naive_solver. Qed.

Lemma trim_start_app_ws s t :
  Forall (λ c, is_whitespace c = true) t → trim_end (trim_start (s ++ t)) = trim_end (trim_start s).
Proof.
  intros Ht. induction s as [|c s IH]; simpl.
  - induction Ht as [|c t Hc Ht IH]; simpl; [done|]. by rewrite Hc.
  - destruct (is_whitespace c) eqn:Hc; [done|]. unfold trim_end. simpl.
    assert (trim_end_matches is_whitespace (s ++ t) = trim_end_matches is_whitespace s) as ->; [|done].
    clear IH. induction s as [|d s IH]; simpl; [|by rewrite IH].
    induction Ht as [|e t He Ht IH]; simpl; [done|]. by rewrite IH, He.
Qed.

(** Trimming the end first does not matter. *)
Lemma trim_trim_end s : trim (trim_end s) = trim s.
Proof.
  destruct (trim_end_matches_spec is_whitespace s) as (t & Hs & Ht & _).
  unfold trim. rewrite Hs at 2. symmetry. by apply trim_start_app_ws.
Qed.

Lemma levels_mono k f : levels !! k = Some f → ∀ a b, f a = f b → normalise a = normalise b.
Proof.
  intros Hf a b H. unfold normalise.
  destruct k as [|[|[|[|k]]]]; simplify_eq/=; [done| |by rewrite H|done].
  rewrite <- (trim_trim_end a), <- (trim_trim_end b). by rewrite H.
Qed.

Lemma pass_step f k ls pattern lo a b :
  levels !! k = Some f → is_pass f ls pattern lo a →
  (∀ k' f' j, k' < k → levels !! k' = Some f' → lo ≤ j → ¬ occurs_at f' ls pattern j) →
  ((∀ k' f' j, k' < S k → levels !! k' = Some f' → lo ≤ j → ¬ occurs_at f' ls pattern j) →
   match b with
   | Some i => best_match ls pattern lo i
   | None => ∀ j, lo ≤ j → ¬ occurs_at normalise ls pattern j end) →
  match or_pass a b with
  | Some i => best_match ls pattern lo i
  | None => ∀ j, lo ≤ j → ¬ occurs_at normalise ls pattern j end.
Proof.
  intros Hk Ha Hstrict Hb. destruct a as [i|]; simpl in *.
  - destruct Ha as (? & ? & ?). exists k, f. eauto 10.
  - apply Hb. intros k' f' j Hk' Hf' Hj. destruct (decide (k' = k)) as [->|]; [simplify_eq; auto|].
    eapply Hstrict; [|done..]. lia.
Qed.

Lemma seek_sequence_spec ls pattern start eof m :
  pattern ≠ [] →
  match seek_sequence ls pattern start eof m with
  | Some i => best_match ls pattern (search_start ls pattern start eof m) i
  | None => ∀ j, search_start ls pattern start eof m ≤ j → ¬ occurs_at normalise ls pattern j
  end.
Proof.
  intros Hne. destruct pattern as [|p0 pattern']; [done|]. clear Hne.
  unfold seek_sequence. set (pattern := p0 :: pattern').
  case_bool_decide as Hlen; [intros j _ [? _]; lia|].
  set (lo := search_start ls pattern start eof m).
  apply (pass_step (λ s, s) 0); [done| |lia|intros H0].
  { apply find_is_pass; [lia|]. intros. by apply occurs_at_slice_eq. }
  apply (pass_step trim_end 1); [done| |done|intros H1].
  { apply find_is_pass; [lia|]. intros. by apply occurs_at_lines_match. }
  apply (pass_step trim 2); [done| |done|intros H2].
  { apply find_is_pass; [lia|]. intros. by apply occurs_at_lines_match. }
  pose proof (find_is_pass normalise (λ i, lines_match normalise (drop i ls) pattern) ls pattern lo)
    as Hp.
  destruct (find_in_range _ _ _) as [i|]; cbn [is_pass] in Hp.
  - destruct Hp as (? & ? & ?); [lia|intros; by apply occurs_at_lines_match|].
    exists 3, normalise. eauto 10.
  - apply Hp; [lia|]. intros; by apply occurs_at_lines_match.
Qed.

(** What the callers use: the block found lies inside the file, starts at or
    after the search start, and agrees with the pattern up to [normalise]. *)
Lemma seek_sequence_bounds ls pattern start eof m i :
  pattern ≠ [] → seek_sequence ls pattern start eof m = Some i →
  search_start ls pattern start eof m ≤ i ∧ occurs_at normalise ls pattern i.
Proof.
  intros Hne Hs. pose proof (seek_sequence_spec ls pattern start eof m Hne) as H.
  rewrite Hs in H. destruct H as (k & f & Hk & Hlo & Ho & _). split; [done|].
  eapply occurs_at_mono; [|done]. by eapply levels_mono.
Qed.

(** In [PreserveLineEndings] mode the search never goes back. *)
Lemma search_start_preserve ls pattern start eof :
  start ≤ search_start ls pattern start eof PreserveLineEndings.
Proof. unfold search_start. case_match; lia. Qed.

(** Both outcomes of a search. *)
Lemma seek_sequence_cases ls pattern start eof m :
  pattern ≠ [] →
  match seek_sequence ls pattern start eof m with
  | Some i => best_match ls pattern (search_start ls pattern start eof m) i ∧
              i + length pattern ≤ length ls
  | None => ∀ k f j, levels !! k = Some f → search_start ls pattern start eof m ≤ j →
              ¬ occurs_at f ls pattern j
  end.
Proof.
  intros Hne. pose proof (seek_sequence_spec ls pattern start eof m Hne) as H.
  destruct (seek_sequence ls pattern start eof m) as [i|] eqn:E.
  - split; [done|]. destruct (seek_sequence_bounds _ _ _ _ _ _ Hne E) as [_ [? _]]. done.
  - intros k f j Hk Hj Ho. apply (H j Hj). eapply occurs_at_mono; [|done]. by eapply levels_mono.
Qed.

(** A best match is unique. *)
Lemma best_match_unique ls pattern lo i j :
  best_match ls pattern lo i → best_match ls pattern lo j → i = j.
Proof.
  intros (k & f & Hf & Hi & Ho & Hfirst & Hlevel) (k' & f' & Hf' & Hj & Ho' & Hfirst' & Hlevel').
  destruct (Nat.lt_trichotomy k k') as [Hk|[->|Hk]];
    [by destruct (Hlevel' k f i Hk Hf Hi)| |by destruct (Hlevel k' f' j Hk Hf' Hj)].
  simplify_eq. destruct (Nat.lt_trichotomy i j) as [H|[H|H]]; [|done|].
  - by destruct (Hfirst' i).
  - by destruct (Hfirst j).
Qed.

(** ** Properties *)

(** The positions a search may return: from [start] on, or with [eof] the end of
    the file alone, which in [NormalizeToLf] mode may lie before [start]. *)
Definition admitted (ls pattern : list str) (start : nat) (eof : bool) (m : ApplyPatchFileUpdateMode) (j : nat) : Prop :=
  if eof then j + length pattern = length ls ∧ (m = PreserveLineEndings → start ≤ j) else start ≤ j.
Lemma admitted_iff f ls pattern start eof m j :
  occurs_at f ls pattern j → search_start ls pattern start eof m ≤ j ↔ admitted ls pattern start eof m j.
Proof.
  intros [Hlen _]. unfold search_start, admitted. destruct eof; cbn [andb]; [|done].
  case_bool_decide; [|lia]. destruct m; intuition (try done; lia).
Qed.



(** A block that is in the file but not at its end is not found with [eof],
    although the comment of [seek_sequence] promises to search from [start]. *)
Lemma eof_search_does_not_fall_back :
  seek_sequence [lit "a"; lit "b"] [lit "a"] 0 true NormalizeToLf = None ∧
  seek_sequence [lit "a"; lit "b"] [lit "a"] 0 true PreserveLineEndings = None.
Proof. by vm_compute. Qed.
