(* ===== verification/TextFile.v ===== *)
(** * Source files with their line endings ([apply-patch/src/text_file.rs])

    [SourceFile::parse] splits a file at LF, CRLF and CR and remembers each
    ending; [into_contents] is its inverse.  [source_apply_replacements] is the
    single forward pass that rebuilds the file; the index subtraction it
    performs is explicit, and [None] stands for the panic of an underflow. *)
From stdpp Require Import numbers strings.
From S2P Require Import Prelude RustStr.

(** [(start_index, old_len, new_lines)]. *)
Abbreviation Replacement := (nat * nat * list str)%type.

Inductive LineEnding : Type := Lf | CrLf | Cr.

(** [LineEnding::as_str]. *)
Definition ending_str (e : LineEnding) : str :=
  match e with Lf => [LF] | CrLf => [CR; LF] | Cr => [CR] end.

Record SourceLine : Type := mkLine { text : str; ending : option LineEnding }.

Record SourceFile : Type := mkFile {
  file_lines : list SourceLine;
  preferred_ending : LineEnding;
}.

(** [Option::get_or_insert]. *)
Definition get_or_insert {A} (o : option A) (a : A) : option A :=
  match o with Some _ => o | None => Some a end.

(** The loop of [SourceFile::parse]: [line] is [contents[line_start..cursor]],
    [rest] is [contents[cursor..]].  The bytes compared are ASCII, so the scan
    over bytes and the scan over chars stop at the same places. *)
Fixpoint parse_loop (rest line : str) (ls : list SourceLine) (pref : option LineEnding)
  : list SourceLine * option LineEnding :=
  match rest with
  | [] => (match line with [] => ls | _ => ls ++ [mkLine line None] end, pref)
  | c :: rest1 =>
      if (c =? CR)%N then
        match rest1 with
        | d :: rest2 =>
            if (d =? LF)%N
            then parse_loop rest2 [] (ls ++ [mkLine line (Some CrLf)]) (get_or_insert pref CrLf)
            else parse_loop rest1 [] (ls ++ [mkLine line (Some Cr)]) (get_or_insert pref Cr)
        | [] => parse_loop rest1 [] (ls ++ [mkLine line (Some Cr)]) (get_or_insert pref Cr)
        end
      else if (c =? LF)%N then
        parse_loop rest1 [] (ls ++ [mkLine line (Some Lf)]) (get_or_insert pref Lf)
      else parse_loop rest1 (line ++ [c]) ls pref
  end.

(** [SourceFile::parse]. *)
Definition source_parse (contents : str) : SourceFile :=
  match parse_loop contents [] [] None with
  | (ls, pref) => mkFile ls (default Lf pref)
  end.

(** [SourceFile::line_texts]. *)
Definition line_texts (f : SourceFile) : list str := text <$> file_lines f.

(** The replacement loop of [SourceFile::apply_replacements]: [src] is the
    iterator over the remaining source lines. *)
Fixpoint replace_loop (pref : LineEnding) (src : list SourceLine) (source_index : nat)
    (rs : list Replacement) : option (list SourceLine) :=
  match rs with
  | [] => Some src
  | (start_idx, old_len, new_segment) :: rs' =>
      if bool_decide (start_idx < source_index) then None
      else
        let k := start_idx - source_index in
        rest ← replace_loop pref (drop old_len (drop k src)) (start_idx + old_len) rs';
        Some (take k src ++ ((λ t, mkLine t (Some pref)) <$> new_segment) ++ rest)
  end.

(** [line.ending.get_or_insert(preferred)] for every line. *)
Definition fill_ending (pref : LineEnding) (l : SourceLine) : SourceLine :=
  mkLine (text l) (get_or_insert (ending l) pref).

(** [SourceFile::apply_replacements]. *)
Definition source_apply_replacements (f : SourceFile) (rs : list Replacement) : option SourceFile :=
  ls ← replace_loop (preferred_ending f) (file_lines f) 0 rs;
  Some (mkFile (fill_ending (preferred_ending f) <$> ls) (preferred_ending f)).

Definition line_str (l : SourceLine) : str :=
  text l ++ match ending l with Some e => ending_str e | None => [] end.

(** [SourceFile::into_contents]. *)
Definition into_contents (f : SourceFile) : str := concat (line_str <$> file_lines f).

(** ** Splicing: the specification of a set of replacements *)

(** The replacements, in order, do not overlap and stay below [n]. *)
Fixpoint ordered_from (n pos : nat) (rs : list Replacement) : Prop :=
  match rs with
  | [] => pos ≤ n
  | (start_idx, old_len, _) :: rs' => pos ≤ start_idx ∧ ordered_from n (start_idx + old_len) rs'
  end.

(** [src] is what is left of the list from position [pos] on; each block is
    replaced by its segment, the rest is copied. *)
Fixpoint splice {A} (inj : str → A) (src : list A) (pos : nat) (rs : list Replacement) : list A :=
  match rs with
  | [] => src
  | (start_idx, old_len, seg) :: rs' =>
      take (start_idx - pos) src ++ (inj <$> seg) ++
      splice inj (drop (start_idx - pos + old_len) src) (start_idx + old_len) rs'
  end.

(** ** Facts *)

Lemma into_contents_app ls ls' pref pref' :
  into_contents (mkFile (ls ++ ls') pref) =
  into_contents (mkFile ls pref') ++ into_contents (mkFile ls' pref).
Proof. unfold into_contents. simpl. by rewrite fmap_app, concat_app. Qed.

Lemma parse_loop_contents rest line ls pref :
  concat (line_str <$> (parse_loop rest line ls pref).1) =
  concat (line_str <$> ls) ++ line ++ rest.
Proof.
  remember (length rest) as n eqn:Hn. assert (length rest ≤ n) as Hle by lia. clear Hn.
  revert rest line ls pref Hle. induction n as [|n IH]; intros rest line ls pref Hle.
  { destruct rest; [|simpl in Hle; lia]. destruct line; simpl; rewrite ?app_nil_r; [done|].
    rewrite fmap_app, concat_app. simpl. unfold line_str. simpl. by rewrite !app_nil_r. }
  destruct rest as [|c rest]; simpl in *.
  { destruct line; simpl; rewrite ?app_nil_r; [done|].
    rewrite fmap_app, concat_app. simpl. unfold line_str. simpl. by rewrite !app_nil_r. }
  assert (∀ e rest' pref', length rest' ≤ n →
    concat (line_str <$> (parse_loop rest' [] (ls ++ [mkLine line (Some e)]) pref').1) =
    concat (line_str <$> ls) ++ line ++ ending_str e ++ rest') as Hline.
  { intros e rest' pref' Hl. rewrite IH by done. rewrite fmap_app, concat_app. simpl.
    unfold line_str at 2. simpl. by rewrite app_nil_r, <- !app_assoc. }
  destruct (N.eqb_spec c CR) as [->|HCR]; [|destruct (N.eqb_spec c LF) as [->|HLF]].
  - destruct rest as [|d rest]; [apply (Hline Cr []); simpl; lia|].
    destruct (N.eqb_spec d LF) as [->|]; [apply (Hline CrLf)|apply (Hline Cr)]; simpl in *; lia.
  - apply (Hline Lf). lia.
  - rewrite IH by lia. by rewrite <- !app_assoc.
Qed.

Definition no_breaks (s : str) : Prop := (LF ∉ s) ∧ (CR ∉ s).

Lemma parse_loop_texts rest line ls pref :
  no_breaks line → Forall (λ l, no_breaks (text l)) ls →
  Forall (λ l, no_breaks (text l)) (parse_loop rest line ls pref).1.
Proof.
  remember (length rest) as n eqn:Hn. assert (length rest ≤ n) as Hle by lia. clear Hn.
  revert rest line ls pref Hle. induction n as [|n IH]; intros rest line ls pref Hle Hline Hls;
    (destruct rest as [|c rest]; simpl in *;
     [destruct line; [done|by rewrite Forall_snoc_iff]|try lia]).
  assert (no_breaks []) by (split; set_solver).
  assert (∀ e, Forall (λ l, no_breaks (text l)) (ls ++ [mkLine line e]))
    by (intros e; by rewrite Forall_snoc_iff).
  destruct (N.eqb_spec c CR) as [->|HCR]; [|destruct (N.eqb_spec c LF) as [->|HLF]].
  - destruct rest as [|d rest]; [by apply IH; [simpl; lia|..]|].
    destruct (N.eqb_spec d LF) as [->|]; apply IH; simpl in *; auto; lia.
  - apply IH; auto; lia.
  - apply IH; [lia| |done]. destruct Hline. split; set_solver.
Qed.

(** The forward pass is the splice, and it never underflows on ordered
    replacements. *)
Lemma replace_loop_splice pref n src pos rs :
  ordered_from n pos rs →
  replace_loop pref src pos rs = Some (splice (λ t, mkLine t (Some pref)) src pos rs).
Proof.
  revert src pos. induction rs as [|[[s k] seg] rs IH]; intros src pos H; simpl in *; [done|].
  destruct H as [Hpos Hrs]. rewrite bool_decide_eq_false_2 by lia.
  rewrite IH by done. simpl. by rewrite drop_drop.
Qed.

Lemma splice_fmap {A B} (f : A → B) inj src pos rs :
  f <$> splice inj src pos rs = splice (f ∘ inj) (f <$> src) pos rs.
Proof.
  revert src pos. induction rs as [|[[s k] seg] rs IH]; intros src pos; simpl; [done|].
  rewrite !fmap_app, IH, fmap_take, fmap_drop. by rewrite <- list_fmap_compose.
Qed.

(** Dropping the ordered prefix condition to a later position. *)
Lemma ordered_from_le n pos rs : ordered_from n pos rs → pos ≤ n.
Proof.
  revert pos. induction rs as [|[[s k] seg] rs IH]; intros pos; simpl; [done|].
  intros [? ?%IH]. lia.
Qed.

Lemma ordered_from_weaken n pos pos' rs : pos' ≤ pos → ordered_from n pos rs → ordered_from n pos' rs.
Proof. destruct rs as [|[[s k] seg] rs]; simpl; [lia|]. intros ? [? ?]. split; [lia|done]. Qed.

(** ** Properties *)

(** [SourceFile::parse] loses nothing: writing the parsed file back gives
    the original contents, whatever mix of LF, CRLF and CR endings it has, and
    no parsed line contains a line break. *)
Theorem source_parse_roundtrip (contents : str) :
  into_contents (source_parse contents) = contents ∧
  Forall no_breaks (line_texts (source_parse contents)).
Proof.
  unfold into_contents, source_parse, line_texts.
  pose proof (parse_loop_contents contents [] [] None) as Hc.
  pose proof (parse_loop_texts contents [] [] None) as Ht.
  destruct (parse_loop contents [] [] None) as [ls pref]; simpl in *. split; [done|].
  rewrite Forall_fmap. apply Ht; [split; set_solver|done].
Qed.
