(* ===== verification/FileUpdate.v ===== *)
(** * Computing and applying replacements ([apply-patch/src/file_update.rs])

    [compute_replacements] locates every chunk of an update hunk in the file
    and turns it into replacements; [apply_replacements] performs them on the
    lines ([NormalizeToLf]) and [SourceFile::apply_replacements] on the lines
    with their endings ([PreserveLineEndings]).  Index arithmetic that Rust
    checks ([v[a..b]], [Vec::insert], unsigned subtraction) is explicit: the
    outer [option] of a result is [None] for a panic. *)
From stdpp Require Import numbers strings.
From Stdlib Require Import Sorted.
From S2P Require Import Prelude RustStr PatchParser PatchParserInv SeekSequence TextFile.

(** ** Errors *)

Inductive ApplyPatchError : Type :=
  | ParseErr (e : ParseError)
  | IoError (context : str) (source : io_error)
  | ComputeReplacements (message : str)
  | PathUri (message : str)
  | ImplicitInvocation.

(** ** Checked index arithmetic *)

(** [a - b] on [usize]. *)
Definition usub (a b : nat) : option nat := if bool_decide (b ≤ a) then Some (a - b) else None.

(** [&v[a..b]]. *)
Definition slice {A} (v : list A) (a b : nat) : option (list A) :=
  if bool_decide (a ≤ b ∧ b ≤ length v) then Some (take (b - a) (drop a v)) else None.

(** [Vec::insert]. *)
Definition vec_insert {A} (v : list A) (i : nat) (x : A) : option (list A) :=
  if bool_decide (i ≤ length v) then Some (take i v ++ x :: drop i v) else None.

(** [Vec::remove] at a position in range. *)
Definition vec_remove {A} (v : list A) (i : nat) : list A := take i v ++ drop (S i) v.

(** ** [compute_replacements] *)

(** The loop over [chunk.context_line_indices] of the
    [PreserveLineEndings] branch. *)
Fixpoint context_loop (start_idx : nat) (pattern_len : nat) (new_slice : list str)
    (idx : list (nat * nat)) (old_start new_start : nat) (acc : list Replacement)
  : option (list Replacement * nat * nat) :=
  match idx with
  | [] => Some (acc, old_start, new_start)
  | (old_context, new_context) :: idx' =>
      if bool_decide (pattern_len ≤ old_context ∨ length new_slice ≤ new_context)
      then Some (acc, old_start, new_start)
      else
        acc' ← (if bool_decide (old_start ≠ old_context ∨ new_start ≠ new_context) then
                  old_len ← usub old_context old_start;
                  seg ← slice new_slice new_start new_context;
                  Some (acc ++ [(start_idx + old_start, old_len, seg)])
                else Some acc);
        context_loop start_idx pattern_len new_slice idx' (S old_context) (S new_context) acc'
  end.

(** The replacements a located chunk contributes. *)
Definition chunk_replacements (m : ApplyPatchFileUpdateMode) (start_idx : nat)
    (pattern new_slice : list str) (idx : list (nat * nat)) : option (list Replacement) :=
  match m with
  | NormalizeToLf => Some [(start_idx, length pattern, new_slice)]
  | PreserveLineEndings =>
      '(acc, old_start, new_start) ←
        context_loop start_idx (length pattern) new_slice idx 0 0 [];
      if bool_decide (old_start ≠ length pattern ∨ new_start ≠ length new_slice) then
        old_len ← usub (length pattern) old_start;
        seg ← slice new_slice new_start (length new_slice);
        Some (acc ++ [(start_idx + old_start, old_len, seg)])
      else Some acc
  end.

(** [v.last().is_some_and(String::is_empty)]. *)
Definition last_is_empty (v : list str) : bool := last_is (λ s, bool_decide (s = [])) v.

(** [&v[..v.len() - 1]]. *)
Definition drop_last {A} (v : list A) : list A := take (length v - 1) v.

(** The block to look for: [old_lines], or [old_lines] without a trailing
    empty line when the first search fails. *)
Definition locate_chunk (original_lines : list str) (chunk : UpdateFileChunk)
    (line_index : nat) (m : ApplyPatchFileUpdateMode) : option nat * list str * list str :=
  let pattern := old_lines chunk in
  let new_slice := new_lines chunk in
  match seek_sequence original_lines pattern line_index (is_end_of_file chunk) m with
  | Some i => (Some i, pattern, new_slice)
  | None =>
      if last_is_empty pattern then
        let pattern' := drop_last pattern in
        let new_slice' := if last_is_empty new_slice then drop_last new_slice else new_slice in
        (seek_sequence original_lines pattern' line_index (is_end_of_file chunk) m,
         pattern', new_slice')
      else (None, pattern, new_slice)
  end.

(** Where a chunk without old lines inserts. *)
Definition insertion_index (original_lines : list str) (m : ApplyPatchFileUpdateMode) : nat :=
  match m with
  | NormalizeToLf =>
      if last_is_empty original_lines then length original_lines - 1 else length original_lines
  | PreserveLineEndings => length original_lines
  end.

Definition msg_no_context (ctx_line path : str) : str :=
  lit "Failed to find context '" ++ ctx_line ++ lit "' in " ++ path.
Definition msg_no_lines_found (path : str) (old : list str) : str :=
  lit "Failed to find expected lines in " ++ path ++ lit ":" ++ [LF] ++ join [LF] old.

(** The [change_context] of a chunk moves [line_index] past the context line. *)
Definition seek_context (original_lines : list str) (path : str) (chunk : UpdateFileChunk)
    (m : ApplyPatchFileUpdateMode) (line_index : nat) : result ApplyPatchError nat :=
  match change_context chunk with
  | None => Ok line_index
  | Some ctx_line =>
      match seek_sequence original_lines [ctx_line] line_index false m with
      | Some idx => Ok (S idx)
      | None => Err (ComputeReplacements (msg_no_context ctx_line path))
      end
  end.

(** One iteration of the loop over the chunks: the new [line_index] and the
    replacements pushed. *)
Definition compute_chunk (original_lines : list str) (path : str) (chunk : UpdateFileChunk)
    (m : ApplyPatchFileUpdateMode) (line_index : nat)
  : option (result ApplyPatchError (nat * list Replacement)) :=
  match seek_context original_lines path chunk m line_index with
  | Err e => Some (Err e)
  | Ok line_index =>
      match old_lines chunk with
      | [] => Some (Ok (line_index, [(insertion_index original_lines m, 0, new_lines chunk)]))
      | _ =>
          match locate_chunk original_lines chunk line_index m with
          | (Some start_idx, pattern, new_slice) =>
              rs ← chunk_replacements m start_idx pattern new_slice (context_line_indices chunk);
              Some (Ok (start_idx + length pattern, rs))
          | (None, _, _) =>
              Some (Err (ComputeReplacements (msg_no_lines_found path (old_lines chunk))))
          end
      end
  end.

Fixpoint compute_chunks (original_lines : list str) (path : str) (chunks : list UpdateFileChunk)
    (m : ApplyPatchFileUpdateMode) (line_index : nat) (acc : list Replacement)
  : option (result ApplyPatchError (list Replacement)) :=
  match chunks with
  | [] => Some (Ok acc)
  | chunk :: chunks' =>
      r ← compute_chunk original_lines path chunk m line_index;
      match r with
      | Err e => Some (Err e)
      | Ok (line_index', rs) => compute_chunks original_lines path chunks' m line_index' (acc ++ rs)
      end
  end.

(** [sort_by_key(|(index, _, _)| *index)]: a stable sort. *)
Fixpoint insert_by_start (r : Replacement) (rs : list Replacement) : list Replacement :=
  match rs with
  | [] => [r]
  | r' :: rs' => if r.1.1 <=? r'.1.1 then r :: rs else r' :: insert_by_start r rs'
  end.
Definition sort_by_start (rs : list Replacement) : list Replacement :=
  foldr insert_by_start [] rs.

Definition compute_replacements (original_lines : list str) (path : str)
    (chunks : list UpdateFileChunk) (m : ApplyPatchFileUpdateMode)
  : option (result ApplyPatchError (list Replacement)) :=
  r ← compute_chunks original_lines path chunks m 0 [];
  match r with
  | Err e => Some (Err e)
  | Ok rs => Some (Ok (sort_by_start rs))
  end.

(** ** [apply_replacements] *)

(** [for _ in 0..old_len { if start_idx < lines.len() { lines.remove(start_idx) } }]. *)
Fixpoint remove_loop (old_len start_idx : nat) (ls : list str) : list str :=
  match old_len with
  | 0 => ls
  | S old_len' =>
      remove_loop old_len' start_idx
        (if bool_decide (start_idx < length ls) then vec_remove ls start_idx else ls)
  end.

(** [for (offset, line) in seg.iter().enumerate() { lines.insert(start_idx + offset, line) }]. *)
Fixpoint insert_loop (seg : list str) (i : nat) (ls : list str) : option (list str) :=
  match seg with
  | [] => Some ls
  | x :: seg' => ls' ← vec_insert ls i x; insert_loop seg' (S i) ls'
  end.

Definition apply_one (ls : list str) (r : Replacement) : option (list str) :=
  match r with
  | (start_idx, old_len, seg) => insert_loop seg start_idx (remove_loop old_len start_idx ls)
  end.

Fixpoint apply_each (ls : list str) (rs : list Replacement) : option (list str) :=
  match rs with
  | [] => Some ls
  | r :: rs' => ls' ← apply_one ls r; apply_each ls' rs'
  end.

(** [replacements.iter().rev()]. *)
Definition apply_replacements (ls : list str) (rs : list Replacement) : option (list str) :=
  apply_each ls (reverse rs).

(** ** [derive_new_contents_from_chunks] after the file has been read *)

Definition new_contents (original_contents path_text : str) (chunks : list UpdateFileChunk)
    (m : ApplyPatchFileUpdateMode) : option (result ApplyPatchError str) :=
  match m with
  | NormalizeToLf =>
      let ls := split LF original_contents in
      let original_lines := if last_is_empty ls then drop_last ls else ls in
      r ← compute_replacements original_lines path_text chunks m;
      match r with
      | Err e => Some (Err e)
      | Ok rs =>
          new ← apply_replacements original_lines rs;
          let new := if last_is_empty new then new else new ++ [[]] in
          Some (Ok (join [LF] new))
      end
  | PreserveLineEndings =>
      let f := source_parse original_contents in
      r ← compute_replacements (line_texts f) path_text chunks m;
      match r with
      | Err e => Some (Err e)
      | Ok rs => f' ← source_apply_replacements f rs; Some (Ok (into_contents f'))
      end
  end.
