(* ===== verification/FileUpdateProofs.v ===== *)
(** * Correctness of file updates

    [PreserveLineEndings]: the replacements computed for a parsed patch are
    ordered and disjoint, so the forward pass never underflows and produces
    the splice of the file.  [NormalizeToLf]: the backward pass never indexes
    out of bounds, and it too is the splice when the replacements are disjoint;
    at the end of a file they need not be, and an edit can be lost. *)
From stdpp Require Import numbers strings.
From Stdlib Require Import Sorted.
From S2P Require Import Prelude RustStr PatchParser PatchParserInv SeekSequence TextFile FileUpdate.

(** ** The backward pass *)

Lemma remove_loop_spec k s (ls : list str) : remove_loop k s ls = take s ls ++ drop (s + k) ls.
Proof.
  revert ls. induction k as [|k IH]; intros ls; simpl.
  { by rewrite Nat.add_0_r, take_drop. }
  rewrite IH. case_bool_decide as Hlt; unfold vec_remove.
  - rewrite take_app_le, take_take, Nat.min_id by (rewrite length_take; lia).
    f_equal. rewrite drop_app_ge by (rewrite length_take; lia).
    rewrite length_take, drop_drop. f_equal. lia.
  - by rewrite !drop_ge by lia.
Qed.

Lemma insert_loop_spec seg i (ls : list str) :
  i ≤ length ls → insert_loop seg i ls = Some (take i ls ++ seg ++ drop i ls).
Proof.
  revert i ls. induction seg as [|x seg IH]; intros i ls Hi; simpl.
  { by rewrite take_drop. }
  unfold vec_insert. rewrite bool_decide_eq_true_2 by done. simpl.
  rewrite IH by (rewrite length_app, length_take; simpl; rewrite length_drop; lia).
  assert (length (take i ls) = i) as Hl by (rewrite length_take; lia).
  rewrite take_app_ge, drop_app_ge by lia. rewrite Hl.
  replace (S i - i) with 1 by lia. simpl. by rewrite <- app_assoc.
Qed.

Lemma apply_one_spec s k seg (ls : list str) :
  s ≤ length ls → apply_one ls (s, k, seg) = Some (take s ls ++ seg ++ drop (s + k) ls).
Proof.
  intros Hs. simpl. rewrite remove_loop_spec, insert_loop_spec
    by (rewrite length_app, length_take; lia).
  assert (length (take s ls) = s) as Hl by (rewrite length_take; lia).
  by rewrite take_app_length', drop_app_length' by done.
Qed.

Lemma apply_each_app ls rs rs' :
  apply_each ls (rs ++ rs') = (ls' ← apply_each ls rs; apply_each ls' rs').
Proof.
  revert ls. induction rs as [|r rs IH]; intros ls; simpl; [done|].
  destruct (apply_one ls r); simpl; [apply IH|done].
Qed.

Lemma apply_replacements_cons ls r rs :
  apply_replacements ls (r :: rs) = (ls' ← apply_replacements ls rs; apply_one ls' r).
Proof.
  unfold apply_replacements. rewrite reverse_cons, apply_each_app.
  destruct (apply_each ls (reverse rs)) as [ls'|]; simpl; [|done].
  by destruct (apply_one ls' r).
Qed.

Definition start_le (a b : Replacement) : Prop := a.1.1 ≤ b.1.1.

(** Replacements sorted by start, each starting inside the file, are all
    applied: no insertion is out of range. *)
Lemma apply_replacements_total ls rs :
  StronglySorted start_le rs → Forall (λ r, r.1.1 ≤ length ls) rs →
  ∃ ls', apply_replacements ls rs = Some ls' ∧
         ∀ s, s ≤ length ls → Forall (λ r, s ≤ r.1.1) rs → s ≤ length ls'.
Proof.
  induction rs as [|[[s k] seg] rs IH]; intros Hs Hr; [exists ls; eauto|].
  apply StronglySorted_inv in Hs as [Hs Hle]. inversion_clear Hr as [|?? Hsl Hr'].
  destruct IH as (ls1 & Hap & Hlen); [done..|]. simpl in *.
  assert (s ≤ length ls1) as Hs1 by (by apply Hlen).
  exists (take s ls1 ++ seg ++ drop (s + k) ls1). split.
  - rewrite apply_replacements_cons, Hap. simpl. by rewrite <- apply_one_spec.
  - intros s' Hs' Hall. inversion_clear Hall. simpl in *.
    rewrite length_app, length_take. lia.
Qed.

(** On ordered replacements the backward pass is the splice. *)
Lemma apply_replacements_splice_from ls pos rs :
  ordered_from (length ls) pos rs →
  apply_replacements ls rs = Some (take pos ls ++ splice (λ t, t) (drop pos ls) pos rs).
Proof.
  revert pos. induction rs as [|[[s k] seg] rs IH]; intros pos H; simpl in *.
  { unfold apply_replacements. simpl. by rewrite take_drop. }
  destruct H as [Hpos Hrs]. pose proof (ordered_from_le _ _ _ Hrs) as Hle.
  rewrite apply_replacements_cons, (IH (s + k)) by done. cbn [mbind option_bind].
  assert (length (take (s + k) ls) = s + k) as Hl by (rewrite length_take; lia).
  rewrite apply_one_spec by (rewrite length_app; lia).
  rewrite take_app_le, drop_app_length', take_take, Nat.min_l by lia.
  assert (take s ls = take pos ls ++ take (s - pos) (drop pos ls)) as ->.
  { rewrite <- (take_drop pos (take s ls)), take_take, Nat.min_l, take_drop_commute by lia.
    by replace (pos + (s - pos)) with s by lia. }
  rewrite drop_drop, list_fmap_id. replace (pos + (s - pos + k)) with (s + k) by lia.
  by rewrite <- app_assoc.
Qed.

(** ** Order of the computed replacements *)

Definition end_of (r : Replacement) : nat := r.1.1 + r.1.2.
Definition below (a b : Replacement) : Prop := end_of a ≤ b.1.1.
(** A pure insertion at the end of the file. *)
Definition at_end (n : nat) (r : Replacement) : Prop := r.1.1 = n ∧ r.1.2 = 0.

Lemma ordered_from_app n m pos rs rs' :
  ordered_from m pos rs → ordered_from n m rs' → ordered_from n pos (rs ++ rs').
Proof.
  revert pos. induction rs as [|[[s k] seg] rs IH]; intros pos; simpl.
  - apply ordered_from_weaken.
  - intros [? ?] ?. split; [done|]. by apply IH.
Qed.

Lemma ordered_from_sorted n pos rs :
  ordered_from n pos rs ↔ pos ≤ n ∧ StronglySorted below rs ∧
    Forall (λ r, pos ≤ r.1.1 ∧ end_of r ≤ n) rs.
Proof.
  revert pos. induction rs as [|[[s k] seg] rs IH]; intros pos; simpl.
  { split; [|naive_solver]. intros. split_and!; [done|constructor..]. }
  rewrite IH. unfold end_of. split.
  - intros (Hp & Hk & Hs & Hall). split_and!; [lia| |].
    + constructor; [done|]. eapply Forall_impl; [done|]. unfold below, end_of; simpl. naive_solver lia.
    + constructor; simpl; [lia|]. eapply Forall_impl; [done|]. simpl. naive_solver lia.
  - intros (Hp & [Hs Hb]%StronglySorted_inv & Hall). inversion_clear Hall as [|?? [Hps Hend] Hall'].
    simpl in *. split_and!; [lia..|done|].
    rewrite Forall_forall in Hb, Hall' |- *. intros r Hr. specialize (Hb r Hr).
    specialize (Hall' r Hr). unfold below, end_of in *. simpl in *. lia.
Qed.

Lemma insert_by_start_perm r rs : insert_by_start r rs ≡ₚ r :: rs.
Proof.
  induction rs as [|r' rs IH]; simpl; [done|]. case_match; [done|]. rewrite IH. constructor.
Qed.

Lemma sort_by_start_perm rs : sort_by_start rs ≡ₚ rs.
Proof.
  induction rs as [|r rs IH]; simpl; [done|]. unfold sort_by_start in *. simpl.
  by rewrite insert_by_start_perm, IH.
Qed.

Lemma insert_by_start_sorted r rs :
  StronglySorted start_le rs → StronglySorted start_le (insert_by_start r rs).
Proof.
  induction 1 as [|r' rs Hs IH Hall]; simpl; [repeat constructor|].
  destruct (Nat.leb_spec r.1.1 r'.1.1) as [Hle|Hgt].
  - constructor; [by constructor|]. constructor; [done|].
    eapply Forall_impl; [done|]. unfold start_le. lia.
  - constructor; [done|]. rewrite insert_by_start_perm. constructor; [unfold start_le; lia|done].
Qed.

Lemma sort_by_start_sorted rs : StronglySorted start_le (sort_by_start rs).
Proof.
  induction rs as [|r rs IH]; [constructor|]. unfold sort_by_start. simpl.
  by apply insert_by_start_sorted.
Qed.

(** Pairs of replacements in the order they were pushed. *)
Definition pushed (n : nat) (a b : Replacement) : Prop := below a b ∨ at_end n a.

Lemma insert_by_start_below n r rs :
  Forall (pushed n r) rs → end_of r ≤ n → Forall (λ r', end_of r' ≤ n) rs →
  StronglySorted below rs → StronglySorted below (insert_by_start r rs).
Proof.
  induction rs as [|r' rs IH]; intros Hp Hr Hn Hs; simpl; [repeat constructor|].
  apply StronglySorted_inv in Hs as [Hs Hb].
  inversion_clear Hp as [|?? Hp' Hps]. inversion_clear Hn as [|?? Hn' Hns].
  destruct (Nat.leb_spec r.1.1 r'.1.1) as [Hle|Hgt].
  - constructor; [by constructor|]. unfold pushed, at_end, below, end_of in *.
    constructor; [lia|]. rewrite Forall_forall in *. intros x Hx.
    specialize (Hps x Hx). specialize (Hb x Hx). lia.
  - constructor; [by apply IH|]. rewrite insert_by_start_perm. constructor; [|done]. unfold pushed, at_end, below, end_of in *. lia.
Qed.

(** Sorting puts the pushed replacements in order. *)
Lemma sort_ordered n rs :
  StronglySorted (pushed n) rs → Forall (λ r, end_of r ≤ n) rs → ordered_from n 0 (sort_by_start rs).
Proof.
  intros Hs Hn. apply ordered_from_sorted. split_and!; [lia| |].
  - induction Hs as [|r rs Hs IH Hp]; [constructor|]. inversion_clear Hn.
    unfold sort_by_start. simpl. apply (insert_by_start_below n);
      [by rewrite sort_by_start_perm|done|by rewrite sort_by_start_perm|by apply IH].
  - rewrite sort_by_start_perm. eapply Forall_impl; [done|]. simpl. lia.
Qed.

(** ** One chunk in [PreserveLineEndings] mode *)

Lemma slice_ok {A} (v : list A) a b :
  a ≤ b → b ≤ length v → slice v a b = Some (take (b - a) (drop a v)).
Proof. intros. unfold slice. by rewrite bool_decide_eq_true_2. Qed.

Lemma usub_ok a b : b ≤ a → usub a b = Some (a - b).
Proof. intros. unfold usub. by rewrite bool_decide_eq_true_2. Qed.

(** The loop over the context indices yields ordered replacements between the
    context lines. *)
Lemma context_loop_ok start plen (new_slice : list str) idx os ns acc :
  StronglySorted before idx → Forall (λ ij, os ≤ ij.1 ∧ ns ≤ ij.2) idx →
  os ≤ plen → ns ≤ length new_slice →
  ∃ rs os' ns', context_loop start plen new_slice idx os ns acc = Some (acc ++ rs, os', ns') ∧
    os ≤ os' ≤ plen ∧ ns' ≤ length new_slice ∧ ordered_from (start + os') (start + os) rs.
Proof.
  revert os ns acc. induction idx as [|[i j] idx IH]; intros os ns acc Hs Hall Hos Hns; simpl.
  { exists [], os, ns. rewrite app_nil_r. simpl. split_and!; done || lia. }
  case_bool_decide as Hbr.
  { exists [], os, ns. rewrite app_nil_r. simpl. split_and!; done || lia. }
  apply StronglySorted_inv in Hs as [Hs Hb]. inversion_clear Hall as [|?? [Hi Hj] Hall']. simpl in *.
  assert (Forall (λ ij, S i ≤ ij.1 ∧ S j ≤ ij.2) idx) as Hnext.
  { eapply Forall_impl; [exact Hb|]. intros ij [? ?]. simpl in *. lia. }
  case_bool_decide as Hne.
  - rewrite usub_ok, slice_ok by lia. cbn [mbind option_bind].
    destruct (IH (S i) (S j) (acc ++ [(start + os, i - os, take (j - ns) (drop ns new_slice))]))
      as (rs & os' & ns' & Hl & ? & ? & Ho); [done..|lia|lia|].
    exists ((start + os, i - os, take (j - ns) (drop ns new_slice)) :: rs), os', ns'.
    rewrite Hl, <- app_assoc. split_and!; [done|lia..|]. simpl. split; [lia|].
    eapply ordered_from_weaken; [|done]. lia.
  - cbn [mbind option_bind].
    destruct (IH (S i) (S j) acc) as (rs & os' & ns' & Hl & ? & ? & Ho); [done..|lia|lia|].
    exists rs, os', ns'. split_and!; [done|lia..|]. eapply ordered_from_weaken; [|done]. lia.
Qed.

Lemma chunk_replacements_ok start (pattern new_slice : list str) idx :
  StronglySorted before idx →
  ∃ rs, chunk_replacements PreserveLineEndings start pattern new_slice idx = Some rs ∧
        ordered_from (start + length pattern) start rs.
Proof.
  intros Hs. destruct (context_loop_ok start (length pattern) new_slice idx 0 0 [])
    as (rs & os & ns & Hl & Hos & Hns & Ho); [done|apply Forall_true; intros; lia|lia..|].
  simpl. rewrite Hl. cbn [mbind option_bind app]. rewrite Nat.add_0_r in Ho.
  case_bool_decide.
  - rewrite usub_ok, slice_ok by lia. cbn [mbind option_bind]. eexists. split; [done|].
    eapply ordered_from_app; [done|]. simpl. lia.
  - exists rs. split; [done|]. by replace (length pattern) with os by lia.
Qed.

(** What [locate_chunk] finds is a block of the file at or after the search
    start; in [NormalizeToLf] mode it may lie before [line_index]. *)
Lemma locate_chunk_bounds ls chunk li m i pattern new_slice :
  li ≤ length ls → old_lines chunk ≠ [] →
  locate_chunk ls chunk li m = (Some i, pattern, new_slice) →
  i + length pattern ≤ length ls ∧ (m = PreserveLineEndings → li ≤ i).
Proof.
  intros Hli Hne. unfold locate_chunk.
  destruct (seek_sequence ls (old_lines chunk) li (is_end_of_file chunk) m) as [i'|] eqn:E1.
  - intros; simplify_eq. apply seek_sequence_bounds in E1 as [Hlo [? _]]; [|done].
    split; [done|]. intros ->. etrans; [apply search_start_preserve|done].
  - case_match; [|done]. intros; simplify_eq.
    destruct (drop_last (old_lines chunk)) as [|p ps] eqn:Ed; [simplify_eq/=; lia|].
    match goal with H : seek_sequence _ _ _ _ _ = Some _ |- _ =>
      apply seek_sequence_bounds in H as [Hlo [? _]]; [|done] end.
    split; [done|]. intros ->. etrans; [apply search_start_preserve|done].
Qed.

(** ** All the chunks *)

(** What the loop maintains about the replacements pushed so far. *)
Definition pushed_inv (n li : nat) (rs : list Replacement) : Prop :=
  li ≤ n ∧ StronglySorted (pushed n) rs ∧
  Forall (λ r, end_of r ≤ n ∧ (end_of r ≤ li ∨ at_end n r)) rs.

Lemma StronglySorted_app {A} (R : A → A → Prop) l l' :
  StronglySorted R l → StronglySorted R l' → Forall (λ x, Forall (R x) l') l →
  StronglySorted R (l ++ l').
Proof.
  induction 1 as [|x l Hs IH Hx]; intros Hs' Hall; simpl; [done|].
  inversion_clear Hall. constructor; [by apply IH|]. by rewrite Forall_app.
Qed.

Lemma pushed_inv_app n li li' rs rs' :
  pushed_inv n li rs → li ≤ li' ≤ n →
  StronglySorted (pushed n) rs' →
  Forall (λ r, end_of r ≤ n ∧ (li ≤ r.1.1) ∧ (end_of r ≤ li' ∨ at_end n r)) rs' →
  pushed_inv n li' (rs ++ rs').
Proof.
  intros (Hli & Hs & Hall) Hli' Hs' Hall'. split_and!; [lia| |].
  - apply StronglySorted_app; [done..|]. rewrite Forall_forall in Hall |- *. intros r Hr.
    destruct (Hall r Hr) as [_ [Hend|Hend]]; [|apply Forall_true; by right].
    eapply Forall_impl; [done|]. intros r' (_ & ? & _). left. unfold below. lia.
  - rewrite Forall_app. split; eapply Forall_impl; try done; simpl; naive_solver lia.
Qed.

Lemma ordered_pushed n lo hi rs :
  ordered_from hi lo rs → hi ≤ n →
  StronglySorted (pushed n) rs ∧
  Forall (λ r, end_of r ≤ n ∧ (lo ≤ r.1.1) ∧ (end_of r ≤ hi ∨ at_end n r)) rs.
Proof.
  intros (Hlh & Hs & Hall)%ordered_from_sorted Hhi. split.
  - clear Hall. induction Hs as [|r rs Hs IH Hb]; constructor; [done|].
    eapply Forall_impl; [done|]. by left.
  - eapply Forall_impl; [done|]. simpl. intros r [? ?]. split_and!; [lia|done|by left].
Qed.

Lemma seek_context_bounds ls path chunk m li li' :
  li ≤ length ls → seek_context ls path chunk m li = Ok li' → li ≤ li' ≤ length ls.
Proof.
  intros Hli. unfold seek_context. destruct (change_context chunk) as [ctx|]; [|intros [= <-]; lia].
  destruct (seek_sequence ls [ctx] li false m) as [i|] eqn:E; intros [= <-].
  apply seek_sequence_bounds in E as [Hlo [Hb _]]; [|done].
  unfold search_start in Hlo. simpl in *. lia.
Qed.

Lemma compute_chunk_preserve ls path chunk li :
  li ≤ length ls → chunk_wf chunk →
  match compute_chunk ls path chunk PreserveLineEndings li with
  | None => False
  | Some (Err _) => True
  | Some (Ok (li', rs)) => ∀ acc, pushed_inv (length ls) li acc → pushed_inv (length ls) li' (acc ++ rs)
  end.
Proof.
  intros Hli [_ Hidx]. unfold compute_chunk.
  destruct (seek_context ls path chunk PreserveLineEndings li) as [li1|e] eqn:Ectx; [|done].
  apply seek_context_bounds in Ectx as Hli1; [|done].
  destruct (old_lines chunk) as [|o os] eqn:Eold.
  - intros acc Hacc. eapply pushed_inv_app; [done|lia|repeat constructor|].
    constructor; [|done]. unfold end_of, at_end. simpl. split_and!; [lia..|by right].
  - destruct (locate_chunk ls chunk li1 PreserveLineEndings) as [[[i|] pattern] new_slice] eqn:El;
      [|done].
    apply locate_chunk_bounds in El as [Hend Hi]; [|lia|by rewrite Eold].
    destruct (chunk_replacements_ok i pattern new_slice (context_line_indices chunk) Hidx)
      as (rs & -> & Ho). cbn [mbind option_bind]. intros acc Hacc.
    destruct (ordered_pushed (length ls) _ _ _ Ho) as [Hs Hall]; [lia|].
    specialize (Hi eq_refl). eapply pushed_inv_app; [done|lia|done|].
    eapply Forall_impl; [done|]. simpl. naive_solver lia.
Qed.

Lemma compute_chunks_preserve ls path chunks li acc :
  Forall chunk_wf chunks → pushed_inv (length ls) li acc →
  match compute_chunks ls path chunks PreserveLineEndings li acc with
  | None => False
  | Some (Err _) => True
  | Some (Ok rs) => ∃ li', pushed_inv (length ls) li' rs
  end.
Proof.
  intros Hwf. revert li acc. induction Hwf as [|chunk chunks Hc Hcs IH]; intros li acc Hacc; simpl.
  { eauto. }
  pose proof (compute_chunk_preserve ls path chunk li) as Hstep.
  destruct (compute_chunk ls path chunk PreserveLineEndings li) as [[[li' rs]|e]|]; simpl;
    [|done|apply Hstep; [apply Hacc|done]].
  apply IH, Hstep; [apply Hacc|done|done].
Qed.

Lemma compute_replacements_preserve ls path chunks :
  Forall chunk_wf chunks →
  match compute_replacements ls path chunks PreserveLineEndings with
  | None => False
  | Some (Err _) => True
  | Some (Ok rs) => ordered_from (length ls) 0 rs
  end.
Proof.
  intros Hwf. unfold compute_replacements.
  pose proof (compute_chunks_preserve ls path chunks 0 [] Hwf) as H.
  destruct (compute_chunks ls path chunks PreserveLineEndings 0 []) as [[rs|e]|]; simpl; [|done|].
  - destruct H as (li & _ & Hs & Hall); [split_and!; [lia|constructor..]|].
    apply sort_ordered; [done|]. eapply Forall_impl; [done|]. simpl. naive_solver.
  - apply H. split_and!; [lia|constructor..].
Qed.

(** ** [NormalizeToLf]: nothing is out of bounds *)

Definition starts_below (n : nat) (rs : list Replacement) : Prop := Forall (λ r, r.1.1 ≤ n) rs.

Lemma compute_chunk_normalize ls path chunk li :
  li ≤ length ls →
  match compute_chunk ls path chunk NormalizeToLf li with
  | None => False
  | Some (Err _) => True
  | Some (Ok (li', rs)) => li' ≤ length ls ∧ starts_below (length ls) rs
  end.
Proof.
  intros Hli. unfold compute_chunk.
  destruct (seek_context ls path chunk NormalizeToLf li) as [li1|e] eqn:Ectx; [|done].
  apply seek_context_bounds in Ectx as Hli1; [|done].
  destruct (old_lines chunk) as [|o os] eqn:Eold.
  - split; [lia|]. constructor; [|done]. simpl. case_match; lia.
  - destruct (locate_chunk ls chunk li1 NormalizeToLf) as [[[i|] pattern] new_slice] eqn:El; [|done].
    apply locate_chunk_bounds in El as [Hend _]; [|lia|by rewrite Eold].
    simpl. split; [lia|]. constructor; [simpl; lia|done].
Qed.

Lemma compute_chunks_normalize ls path chunks li acc :
  li ≤ length ls → starts_below (length ls) acc →
  match compute_chunks ls path chunks NormalizeToLf li acc with
  | None => False
  | Some (Err _) => True
  | Some (Ok rs) => starts_below (length ls) rs
  end.
Proof.
  revert li acc. induction chunks as [|chunk chunks IH]; intros li acc Hli Hacc; simpl; [done|].
  pose proof (compute_chunk_normalize ls path chunk li Hli) as Hstep.
  destruct (compute_chunk ls path chunk NormalizeToLf li) as [[[li' rs]|e]|]; simpl; [|done..].
  destruct Hstep. apply IH; [done|]. by apply Forall_app.
Qed.

Lemma compute_replacements_normalize ls path chunks :
  match compute_replacements ls path chunks NormalizeToLf with
  | None => False
  | Some (Err _) => True
  | Some (Ok rs) => ∃ ls', apply_replacements ls rs = Some ls'
  end.
Proof.
  unfold compute_replacements.
  pose proof (compute_chunks_normalize ls path chunks 0 []) as H.
  destruct (compute_chunks ls path chunks NormalizeToLf 0 []) as [[rs|e]|]; simpl;
    [|done|apply H; [lia|constructor]].
  destruct (apply_replacements_total ls (sort_by_start rs)) as (ls' & ? & _);
    [apply sort_by_start_sorted| |eauto].
  rewrite sort_by_start_perm. apply H; [lia|constructor].
Qed.

(** The new contents in [PreserveLineEndings] mode. *)
Lemma new_contents_preserve contents path chunks :
  Forall chunk_wf chunks →
  match new_contents contents path chunks PreserveLineEndings with
  | None => False
  | Some (Err e) =>
      compute_replacements (line_texts (source_parse contents)) path chunks PreserveLineEndings = Some (Err e)
  | Some (Ok out) => ∃ rs,
      compute_replacements (line_texts (source_parse contents)) path chunks PreserveLineEndings = Some (Ok rs) ∧
      ordered_from (length (line_texts (source_parse contents))) 0 rs ∧
      out = concat (line_str ∘ fill_ending (preferred_ending (source_parse contents)) <$>
              splice (λ t, mkLine t (Some (preferred_ending (source_parse contents))))
                (file_lines (source_parse contents)) 0 rs)
  end.
Proof.
  intros Hwf. set (f := source_parse contents). simpl. fold f.
  pose proof (compute_replacements_preserve (line_texts f) path chunks Hwf) as H.
  destruct (compute_replacements (line_texts f) path chunks PreserveLineEndings) as [[rs|e]|] eqn:E;
    simpl; [|done..].
  unfold source_apply_replacements. rewrite (replace_loop_splice _ _ _ _ _ H).
  simpl. exists rs. split_and!; [done..|]. unfold into_contents. simpl.
  by rewrite list_fmap_compose.
Qed.

Lemma new_contents_total contents path chunks m :
  Forall chunk_wf chunks → is_Some (new_contents contents path chunks m).
Proof.
  intros Hwf. destruct m.
  - unfold new_contents.
    match goal with |- context [compute_replacements ?ls _ _ _] =>
      pose proof (compute_replacements_normalize ls path chunks) as H;
      destruct (compute_replacements ls path chunks NormalizeToLf) as [[rs|e]|] end; simpl; [|eauto|done].
    destruct H as [ls' ->]. simpl. eauto.
  - pose proof (new_contents_preserve contents path chunks Hwf) as H.
    destruct (new_contents contents path chunks PreserveLineEndings); [eauto|done].
Qed.

(** ** Final newline *)

Lemma last_join_snoc_nil l : l ≠ [] → last (join [LF] (l ++ [[]])) = Some LF.
Proof.
  induction l as [|a l IH]; [done|]. intros _. cbn [app]. rewrite join_cons by (by destruct l).
  destruct l as [|b l]; [by rewrite app_assoc, app_nil_r, last_snoc|].
  rewrite app_assoc, last_app, IH by done. done.
Qed.

Lemma join_terminated (l : list str) :
  last_is_empty l = true → join [LF] l = [] ∨ last (join [LF] l) = Some LF.
Proof.
  intros H. destruct (list_snoc_cases l) as [->|(l' & x & ->)]; [by left|].
  unfold last_is_empty in H. rewrite last_is_snoc in H. reflect_bools. subst x.
  destruct l' as [|a l']; [by left|]. right. by apply last_join_snoc_nil.
Qed.

Definition ends_in_newline (s : str) : Prop := s = [] ∨ last s = Some LF ∨ last s = Some CR.

Lemma ends_in_newline_concat (l : list str) :
  Forall (λ s, s ≠ [] ∧ ends_in_newline s) l → ends_in_newline (concat l).
Proof.
  intros H. destruct (list_snoc_cases l) as [->|(l' & x & ->)]; [by left|].
  apply Forall_snoc_iff in H as [_ [Hne Hx]]. rewrite concat_app. simpl. rewrite app_nil_r.
  right. destruct Hx as [?|Hx]; [done|]. rewrite last_app. by destruct Hx as [-> | ->]; auto.
Qed.

Lemma line_str_filled pref l :
  line_str (fill_ending pref l) ≠ [] ∧ ends_in_newline (line_str (fill_ending pref l)).
Proof.
  unfold line_str, fill_ending, ends_in_newline. simpl.
  assert (∃ e, get_or_insert (ending l) pref = Some e) as [e ->] by (destruct (ending l); simpl; eauto).
  split; [by destruct (text l), e|]. right. rewrite last_app. destruct e; simpl; auto.
Qed.

(** ** Properties *)

(** the replacements computed in [PreserveLineEndings] mode for the chunks
    of a parsed patch are sorted, disjoint and inside the file, so the
    [debug_assert!] and the index subtraction of
    [SourceFile::apply_replacements] never fail. *)
Theorem compute_replacements_ordered ls path chunks rs :
  Forall chunk_wf chunks →
  compute_replacements ls path chunks PreserveLineEndings = Some (Ok rs) →
  ordered_from (length ls) 0 rs.
Proof.
  intros Hwf H. pose proof (compute_replacements_preserve ls path chunks Hwf) as Ho.
  by rewrite H in Ho.
Qed.

Definition ex_chunk1 : UpdateFileChunk :=
  mkChunk None [lit "a"; lit "b"] [lit "a"; lit "x"] [(0, 0)] false.
Definition ex_chunk2 : UpdateFileChunk := mkChunk None [] [lit "end"] [] false.

Lemma ex_chunks_wf : Forall chunk_wf [ex_chunk1; ex_chunk2].
Proof.
  assert (chunk_wf ex_chunk1).
  { split; [|repeat constructor]. constructor; [|constructor]. exists (lit "a"). done. }
  constructor; [done|]. constructor; [|constructor]. split; constructor.
Defined.

Lemma compute_replacements_ordered_witness :
  ordered_from 3 0 [(1, 1, [lit "x"]); (3, 0, [lit "end"])].
Proof.
  apply (compute_replacements_ordered [lit "a"; lit "b"; lit "c"] (lit "f") [ex_chunk1; ex_chunk2]);
    [apply ex_chunks_wf|vm_compute; reflexivity].
Defined.

(** the backward pass of [apply_replacements] (remove then insert, from the
    last replacement to the first) equals the one-pass splice whenever the
    replacements are ordered and disjoint. *)
Theorem apply_replacements_splice ls rs :
  ordered_from (length ls) 0 rs →
  apply_replacements ls rs = Some (splice (λ t, t) ls 0 rs).
Proof. intros H. by rewrite (apply_replacements_splice_from ls 0 rs H). Qed.

Lemma apply_replacements_splice_witness :
  apply_replacements [lit "a"; lit "b"; lit "c"] [(0, 1, [lit "x"; lit "y"]); (2, 1, [])]
  = Some [lit "x"; lit "y"; lit "b"].
Proof.
  rewrite (apply_replacements_splice [lit "a"; lit "b"; lit "c"] [(0, 1, [lit "x"; lit "y"]); (2, 1, [])]);
    [reflexivity|simpl; lia].
Defined.

Definition ex_contents : str := lit "a" ++ [CR; LF] ++ lit "b" ++ [LF] ++ lit "c".
Definition ex_out : str :=
  lit "a" ++ [CR; LF] ++ lit "x" ++ [CR; LF] ++ lit "c" ++ [CR; LF] ++ lit "end" ++ [CR; LF].

(** C30: applying a patch that parsed never indexes out of bounds.  For every
    update hunk of a parsed patch, both update modes run to a result (new
    contents or an error) on every file: no slice, insertion or index
    subtraction of the update code can panic. *)
Theorem parsed_update_never_panics patch args path mv chunks contents path_text m :
  parse_patch patch = Ok args → UpdateFile path mv chunks ∈ args_hunks args →
  ∃ r, new_contents contents path_text chunks m = Some r.
Proof.
  intros [Hwf _]%parse_patch_text_wf Hin. rewrite Forall_forall in Hwf.
  apply Hwf in Hin. destruct (new_contents_total contents path_text chunks m Hin). eauto.
Qed.

Lemma parsed_update_never_panics_witness :
  ∃ r, new_contents ex_contents (lit "b")
         [mkChunk None [lit "ctx"; lit "o"] [lit "ctx"; lit "n"] [(0, 0)] false] NormalizeToLf = Some r.
Proof.
  apply (parsed_update_never_panics example_text (mkArgs example_text [example_hunk] None None)
           (lit "b") None); [vm_compute; reflexivity|apply list_elem_of_here].
Defined.

(** an updated file is terminated.  The contents either mode writes are
    empty or end in a line break ([NormalizeToLf] always in LF). *)
Theorem update_terminates_file contents path chunks m out :
  Forall chunk_wf chunks → new_contents contents path chunks m = Some (Ok out) →
  ends_in_newline out ∧ (m = NormalizeToLf → out = [] ∨ last out = Some LF).
Proof.
  intros Hwf H. destruct m.
  - assert (out = [] ∨ last out = Some LF) as Hout; [|unfold ends_in_newline; naive_solver].
    unfold new_contents in H.
    match type of H with context [compute_replacements ?ls _ _ _] =>
      destruct (compute_replacements ls path chunks NormalizeToLf) as [[rs|e]|]; simplify_eq/=;
      destruct (apply_replacements ls rs) as [new|]; simplify_eq/= end.
    destruct (last_is_empty new) eqn:E; apply join_terminated; [done|].
    unfold last_is_empty. by rewrite last_is_snoc.
  - pose proof (new_contents_preserve contents path chunks Hwf) as Hp. rewrite H in Hp.
    destruct Hp as (rs & _ & _ & ->). split; [|done]. apply ends_in_newline_concat.
    apply Forall_fmap, Forall_true. intros l. apply line_str_filled.
Qed.

Lemma update_terminates_file_witness :
  ends_in_newline ex_out ∧ (PreserveLineEndings = NormalizeToLf → ex_out = [] ∨ last ex_out = Some LF).
Proof.
  apply (update_terminates_file ex_contents (lit "f") [ex_chunk1; ex_chunk2] PreserveLineEndings);
    [apply ex_chunks_wf|vm_compute; reflexivity].
Defined.

(** ** A located block is exchanged for its new lines *)

Lemma occurs_at_exact (pre old post : list str) :
  occurs_at (λ s, s) (pre ++ old ++ post) old (length pre).
Proof.
  split; [rewrite !length_app; lia|]. intros k p Hk. exists p. split; [|done].
  rewrite lookup_app_r by lia. replace (length pre + k - length pre) with k by lia.
  by apply lookup_app_l_Some.
Qed.

Lemma seek_exact (pre old post : list str) m :
  old ≠ [] → (∀ j, j < length pre → ¬ occurs_at (λ s, s) (pre ++ old ++ post) old j) →
  seek_sequence (pre ++ old ++ post) old 0 false m = Some (length pre).
Proof.
  intros Hne Hfirst. pose proof (occurs_at_exact pre old post) as Hocc.
  pose proof (seek_sequence_spec (pre ++ old ++ post) old 0 false m Hne) as H.
  destruct (seek_sequence (pre ++ old ++ post) old 0 false m) as [i|].
  - destruct H as (k & f & Hk & Hlo & Ho & Hleast & Hstrict). f_equal.
    destruct k as [|k]; [|exfalso; apply (Hstrict 0 (λ s, s) (length pre));
      [lia|done|unfold search_start; simpl; lia|done]].
    simplify_eq/=. destruct (decide (i < length pre)) as [Hlt|Hge]; [by destruct (Hfirst i)|].
    destruct (decide (i = length pre)); [done|]. destruct (Hleast (length pre));
      [unfold search_start; simpl; lia|done].
  - exfalso. apply (H (length pre)); [unfold search_start; simpl; lia|].
    eapply occurs_at_mono; [|done]. by intros a b ->.
Qed.

(** the basic edit.  A chunk without context line whose old lines occur in
    the file is replaced at its first occurrence and nothing else changes: a
    file of lines [pre ++ old ++ post] becomes [pre ++ new ++ post] (in
    [NormalizeToLf] mode, for files and results whose last line is not
    blank). *)
Theorem update_single_chunk path (pre old new post : list str) :
  old ≠ [] → Forall (λ s, LF ∉ s) (pre ++ old ++ post) →
  last_is_empty (pre ++ new ++ post) = false → pre ++ new ++ post ≠ [] →
  (∀ j, j < length pre → ¬ occurs_at (λ s, s) (pre ++ old ++ post) old j) →
  new_contents (join [LF] (pre ++ old ++ post ++ [[]])) path [mkChunk None old new [] false] NormalizeToLf
  = Some (Ok (join [LF] (pre ++ new ++ post ++ [[]]))).
Proof.
  intros Hne Hlf Hblank Hnil Hfirst. unfold new_contents.
  assert (split LF (join [LF] (pre ++ old ++ post ++ [[]])) = (pre ++ old ++ post) ++ [[]]) as ->.
  { rewrite split_join; [by rewrite <- !app_assoc|by destruct pre, old|].
    rewrite !app_assoc, Forall_snoc_iff, <- !app_assoc. split; [done|set_solver]. }
  assert (last_is_empty ((pre ++ old ++ post) ++ [[]]) = true) as ->
    by (unfold last_is_empty; by rewrite last_is_snoc).
  unfold drop_last. rewrite length_app, take_app_length' by (simpl; lia).
  unfold compute_replacements. simpl. unfold compute_chunk, seek_context, locate_chunk. simpl.
  rewrite seek_exact by done.
  assert (∀ A (x y : A), match old with [] => x | _ :: _ => y end = y) as -> by (by destruct old).
  cbn [mbind option_bind sort_by_start foldr insert_by_start app].
  rewrite (apply_replacements_splice_from _ 0) by (simpl; rewrite !length_app; lia). simpl.
  rewrite Nat.sub_0_r, skipn_O, take_app_length, list_fmap_id, drop_app_ge by lia.
  rewrite Nat.add_comm, Nat.add_sub, drop_app_length, Hblank. by rewrite <- !app_assoc.
Qed.

Lemma update_single_chunk_witness :
  new_contents (join [LF] [lit "a"; lit "b"; lit "c"; []]) (lit "f")
    [mkChunk None [lit "b"] [lit "x"; lit "y"] [] false] NormalizeToLf
  = Some (Ok (join [LF] [lit "a"; lit "x"; lit "y"; lit "c"; []])).
Proof.
  apply (update_single_chunk (lit "f") [lit "a"] [lit "b"] [lit "x"; lit "y"] [lit "c"]);
    [discriminate| |vm_compute; reflexivity|discriminate|].
  - repeat constructor; apply (bool_decide_unpack _); vm_compute; exact I.
  - intros j Hj [_ H]. destruct j as [|j]; [|simpl in Hj; lia].
    destruct (H 0 (lit "b") eq_refl) as (l & Hl & Hf). vm_compute in Hl, Hf. congruence.
Defined.

(** [NormalizeToLf] can lose an edit.  With the end-of-file marker the
    search starts at the end of the file even when an earlier chunk already
    replaced those lines; both chunks then claim the same line and the second
    one's text is overwritten, with no error.  [PreserveLineEndings] reports
    that the lines are not found. *)
Theorem normalize_loses_overlapping_edit :
  let chunks := [mkChunk None [lit "b"] [lit "x"] [] false; mkChunk None [lit "b"] [lit "y"] [] true] in
  let contents := join [LF] [lit "a"; lit "b"; []] in
  new_contents contents (lit "f") chunks NormalizeToLf = Some (Ok (join [LF] [lit "a"; lit "x"; []])) ∧
  compute_replacements [lit "a"; lit "b"] (lit "f") chunks NormalizeToLf =
    Some (Ok [(1, 1, [lit "x"]); (1, 1, [lit "y"])]) ∧
  ∃ e, new_contents contents (lit "f") chunks PreserveLineEndings = Some (Err e).
Proof.
  split; [vm_compute; reflexivity|]. split; [vm_compute; reflexivity|].
  exists (ComputeReplacements (msg_no_lines_found (lit "f") [lit "b"])). vm_compute. reflexivity.
Qed.

(** [NormalizeToLf] drops a blank last line.  A file whose last line is
    blank loses that line when any other line is edited, because the check
    that re-adds the final newline takes the blank line for it;
    [PreserveLineEndings] keeps it. *)
Theorem normalize_drops_blank_last_line :
  let chunk := mkChunk None [lit "a"] [lit "b"] [] false in
  let contents := join [LF] [lit "a"; []; []] in
  new_contents contents (lit "f") [chunk] NormalizeToLf = Some (Ok (join [LF] [lit "b"; []])) ∧
  new_contents contents (lit "f") [chunk] PreserveLineEndings = Some (Ok (join [LF] [lit "b"; []; []])).
Proof. split; vm_compute; reflexivity. Qed.
