(* ===== verification/UpdateSpec.v ===== *)
(** * What an update does to a file

    An abstract account of [PreserveLineEndings] updates that mentions neither
    replacements nor sorting.  Each chunk inserts lines before positions of
    the file and deletes lines of the block it was located at; the new file is
    read off position by position: first the lines inserted there, in the
    order of the patch, then the line itself unless it was deleted, with its
    own ending.  [update_refines_edits] shows that the code implements it. *)
From stdpp Require Import numbers strings.
From Stdlib Require Import Sorted.
From S2P Require Import Prelude RustStr PatchParser PatchParserInv SeekSequence TextFile FileUpdate FileUpdateProofs.

(** ** Edits *)

(** Lines to insert, each with the position it is inserted before, and the
    positions of the lines to delete. *)
Record Edits : Type := mkEdits {
  insertions : list (nat * str);
  deletions : list nat;
}.

Definition no_edits : Edits := mkEdits [] [].
Definition edits_app (a b : Edits) : Edits :=
  mkEdits (insertions a ++ insertions b) (deletions a ++ deletions b).

(** What the new file holds at position [p] of the old one. *)
Definition slot {A} (inj : str → A) (ls : list A) (e : Edits) (p : nat) : list A :=
  (inj <$> (filter (λ pt : nat * str, pt.1 = p) (insertions e)).*2) ++
  (if bool_decide (p ∈ deletions e) then [] else option_list (ls !! p)).

Definition edited {A} (inj : str → A) (ls : list A) (e : Edits) : list A :=
  seq 0 (S (length ls)) ≫= slot inj ls e.

(** ** The edits of a chunk *)

(** Where the new line [j] goes, relative to the block: after the last context
    line before it. *)
Definition gap_start (os : nat) (ctx : list (nat * nat)) (j : nat) : nat :=
  foldl (λ g ij, if ij.2 <? j then S ij.1 else g) os ctx.

(** The context pairs inside the block. *)
Definition context_inside (olen nlen : nat) (ctx : list (nat * nat)) : list (nat * nat) :=
  filter (λ ij, ij.1 < olen ∧ ij.2 < nlen) ctx.

(** A block of [olen] lines at [i] becomes [new]: the lines of [new] that are
    not context are inserted, the lines of the block that are not context are
    deleted, and context lines stay. *)
Definition block_edits_from (i os ns olen : nat) (new : list str) (ctx : list (nat * nat)) : Edits :=
  mkEdits
    (seq ns (length new - ns) ≫= λ j,
       if bool_decide (j ∈ ctx.*2) then [] else (λ t, (i + gap_start os ctx j, t)) <$> option_list (new !! j))
    (seq os (olen - os) ≫= λ o, if bool_decide (o ∈ ctx.*1) then [] else [i + o]).
Definition block_edits (i olen : nat) (new : list str) (ctx : list (nat * nat)) : Edits :=
  block_edits_from i 0 0 olen new (context_inside olen (length new) ctx).

(** ** Locating the chunks *)

Definition search_from (ls pattern : list str) (li : nat) (eof : bool) : nat :=
  if eof then (length ls - length pattern) `max` li else li.

(** No level of matching finds [pattern] from [lo] on. *)
Definition absent (ls pattern : list str) (lo : nat) : Prop :=
  ∀ k f j, levels !! k = Some f → lo ≤ j → ¬ occurs_at f ls pattern j.

(** The context line of a chunk moves the position behind its best match. *)
Definition context_at (ls : list str) (c : UpdateFileChunk) (li li' : nat) : Prop :=
  match change_context c with
  | None => li' = li
  | Some ctx => ∃ i, best_match ls [ctx] li i ∧ li' = S i
  end.

(** [pattern] is found at [i]; an empty pattern is at the current position. *)
Definition found_at (ls pattern : list str) (li : nat) (eof : bool) (i : nat) : Prop :=
  match pattern with
  | [] => i = li
  | _ => best_match ls pattern (search_from ls pattern li eof) i
  end.

(** The old lines of a chunk are found; or they are absent and end in an
    empty line, and the block without it is found, an empty last new line
    being dropped as well. *)
Inductive block_at (ls : list str) (c : UpdateFileChunk) (li : nat) :
    list str → list str → nat → Prop :=
  | block_whole i :
      best_match ls (old_lines c) (search_from ls (old_lines c) li (is_end_of_file c)) i →
      block_at ls c li (old_lines c) (new_lines c) i
  | block_trimmed pattern new i :
      absent ls (old_lines c) (search_from ls (old_lines c) li (is_end_of_file c)) →
      old_lines c = pattern ++ [[]] →
      new_lines c = new ++ [[]] ∨ new_lines c = new ∧ last new ≠ Some [] →
      found_at ls pattern li (is_end_of_file c) i →
      block_at ls c li pattern new i.

(** The edits of a chunk, and the position the next chunk is searched from.  A
    chunk without old lines appends to the file. *)
Inductive chunk_edits (ls : list str) (c : UpdateFileChunk) (li : nat) : nat → Edits → Prop :=
  | chunk_append li' :
      context_at ls c li li' → old_lines c = [] →
      chunk_edits ls c li li' (mkEdits ((λ t, (length ls, t)) <$> new_lines c) [])
  | chunk_block li' pattern new i :
      context_at ls c li li' → old_lines c ≠ [] → block_at ls c li' pattern new i →
      chunk_edits ls c li (i + length pattern)
        (block_edits i (length pattern) new (context_line_indices c)).

(** The edits of a list of chunks, searched in order. *)
Inductive edits_of (ls : list str) : nat → list UpdateFileChunk → Edits → Prop :=
  | edits_nil li : edits_of ls li [] no_edits
  | edits_cons li li' c cs e e' :
      chunk_edits ls c li li' e → edits_of ls li' cs e' → edits_of ls li (c :: cs) (edits_app e e').

(** ** Replacements as edits *)

Definition edits_of_replacements (rs : list Replacement) : Edits :=
  mkEdits (rs ≫= λ r, (λ t, (r.1.1, t)) <$> r.2) (rs ≫= λ r, seq r.1.1 r.1.2).

Lemma edits_of_replacements_app rs rs' :
  edits_of_replacements (rs ++ rs') = edits_app (edits_of_replacements rs) (edits_of_replacements rs').
Proof. unfold edits_of_replacements, edits_app. simpl. by rewrite !bind_app. Qed.

Lemma edits_app_assoc a b c : edits_app (edits_app a b) c = edits_app a (edits_app b c).
Proof. unfold edits_app. simpl. by rewrite <- !app_assoc. Qed.
Lemma edits_app_nil_r e : edits_app e no_edits = e.
Proof. destruct e. unfold edits_app. simpl. by rewrite !app_nil_r. Qed.
Lemma edits_app_nil_l e : edits_app no_edits e = e.
Proof. by destruct e. Qed.

(** *** The splice, position by position *)

Lemma slot_app {A} (inj : str → A) ls a b p :
  slot inj ls (edits_app a b) p =
  (inj <$> (filter (λ pt : nat * str, pt.1 = p) (insertions a)).*2) ++
  (if bool_decide (p ∈ deletions a)
   then inj <$> (filter (λ pt : nat * str, pt.1 = p) (insertions b)).*2 else slot inj ls b p).
Proof.
  unfold slot. simpl. rewrite filter_app, !fmap_app, <- app_assoc. f_equal.
  destruct (decide (p ∈ deletions a)) as [Ha|Ha].
  - rewrite (bool_decide_true (p ∈ _ ++ _)), (bool_decide_true (p ∈ deletions a)) by set_solver.
    apply app_nil_r.
  - rewrite (bool_decide_false (p ∈ deletions a)) by done.
    by rewrite (bool_decide_ext (p ∈ deletions a ++ deletions b) (p ∈ deletions b)) by set_solver.
Qed.

Lemma bind_seq_ext {A} (f g : nat → list A) a m :
  (∀ p, a ≤ p < a + m → f p = g p) → seq a m ≫= f = seq a m ≫= g.
Proof.
  revert a. induction m as [|m IH]; intros a Hfg; simpl; [done|].
  rewrite Hfg by lia. f_equal. apply IH. intros. apply Hfg. lia.
Qed.

Lemma bind_seq_nil {A} (f : nat → list A) a m :
  (∀ p, a ≤ p < a + m → f p = []) → seq a m ≫= f = [].
Proof.
  revert a. induction m as [|m IH]; intros a Hf; simpl; [done|].
  rewrite Hf by lia. apply IH. intros. apply Hf. lia.
Qed.

Lemma bind_seq_lookup {A} (ls : list A) a m :
  seq a m ≫= (λ p, option_list (ls !! p)) = take m (drop a ls).
Proof.
  revert a. induction m as [|m IH]; intros a; simpl; [done|]. rewrite IH.
  destruct (ls !! a) as [x|] eqn:E; simpl.
  - by rewrite (drop_S _ _ _ E).
  - apply lookup_ge_None in E. by rewrite !drop_ge by lia; destruct m.
Qed.

Lemma filter_pos_fmap (s p : nat) (seg : list str) :
  (filter (λ pt : nat * str, pt.1 = p) ((λ t, (s, t)) <$> seg)).*2 = if bool_decide (s = p) then seg else [].
Proof.
  induction seg as [|t seg IH]; [by case_match|]. rewrite fmap_cons, filter_cons. simpl.
  destruct (decide (s = p)) as [->|Hsp].
  - rewrite bool_decide_true in * by done. by rewrite fmap_cons, IH.
  - by rewrite IH, !bool_decide_false by done.
Qed.

Lemma filter_pos_none (p : nat) (ins : list (nat * str)) :
  Forall (λ pt, p ≠ pt.1) ins → filter (λ pt : nat * str, pt.1 = p) ins = [].
Proof.
  induction 1 as [|pt ins Hp Hall IH]; [done|]. rewrite filter_cons. by rewrite decide_False by done.
Qed.

Lemma ordered_edits_bounds n pos rs :
  ordered_from n pos rs →
  Forall (λ pt, pos ≤ pt.1) (insertions (edits_of_replacements rs)) ∧
  Forall (λ p, pos ≤ p) (deletions (edits_of_replacements rs)).
Proof.
  revert pos. induction rs as [|[[s k] seg] rs IH]; intros pos; simpl; [repeat constructor|].
  intros [Hpos Hrs]. destruct (IH _ Hrs) as [Hi Hd]. rewrite !Forall_app. simpl in *. split_and!.
  - apply Forall_fmap, Forall_true. simpl. lia.
  - eapply Forall_impl; [done|]. simpl. lia.
  - apply Forall_forall. intros p Hp%elem_of_seq. lia.
  - eapply Forall_impl; [done|]. simpl. lia.
Qed.

(** The splice of ordered replacements reads off the positions. *)
Lemma splice_slots {A} (inj : str → A) (ls : list A) rs pos :
  ordered_from (length ls) pos rs →
  splice inj (drop pos ls) pos rs =
  seq pos (S (length ls) - pos) ≫= slot inj ls (edits_of_replacements rs).
Proof.
  revert pos. induction rs as [|[[s k] seg] rs IH]; intros pos Hrs; simpl.
  { simpl in Hrs. rewrite (bind_seq_ext _ (λ p, option_list (ls !! p))) by done.
    rewrite bind_seq_lookup, take_ge; [done|]. rewrite length_drop. lia. }
  destruct Hrs as [Hpos Hrs]. pose proof (ordered_from_le _ _ _ Hrs) as Hle.
  destruct (ordered_edits_bounds _ _ _ Hrs) as [Hins Hdel].
  rewrite drop_drop. replace (pos + (s - pos + k)) with (s + k) by lia. rewrite (IH (s + k)) by done.
  change ((s, k, seg) :: rs) with ([(s, k, seg)] ++ rs). rewrite edits_of_replacements_app.
  set (e := edits_of_replacements rs) in *.
  assert (∀ p, slot inj ls (edits_app (edits_of_replacements [(s, k, seg)]) e) p =
    (inj <$> if bool_decide (s = p) then seg else []) ++
    if bool_decide (s ≤ p < s + k) then inj <$> (filter (λ pt : nat * str, pt.1 = p) (insertions e)).*2
    else slot inj ls e p) as Hslot.
  { intros p. rewrite slot_app. simpl. rewrite !app_nil_r, filter_pos_fmap.
    by rewrite (bool_decide_ext (p ∈ seq s k) (s ≤ p < s + k)) by apply elem_of_seq. }
  assert (∀ p, p < s + k → filter (λ pt : nat * str, pt.1 = p) (insertions e) = []) as Hnone.
  { intros p Hp. apply filter_pos_none. eapply Forall_impl; [done|]. simpl. lia. }
  replace (S (length ls) - pos) with ((s - pos) + (k + (S (length ls) - (s + k)))) by lia.
  rewrite !seq_app, !bind_app. replace (pos + (s - pos)) with s by lia.
  f_equal.
  { rewrite <- bind_seq_lookup. apply bind_seq_ext. intros p Hp. rewrite Hslot.
    rewrite !bool_decide_false by lia. unfold slot. rewrite Hnone by lia.
    rewrite bool_decide_false; [done|]. rewrite Forall_forall in Hdel. intros Hin%Hdel. lia. }
  rewrite (bind_seq_ext (slot inj ls (edits_app _ _)) (λ p, (inj <$> if bool_decide (s = p) then seg else [])
    ++ slot inj ls e p) (s + k)).
  2:{ intros p Hp. rewrite Hslot. by rewrite (bool_decide_false (s ≤ p < s + k)) by lia. }
  destruct k as [|k].
  - rewrite Nat.add_0_r. replace (S (length ls) - s) with (S (length ls - s)) by lia. simpl.
    rewrite bool_decide_true by done. rewrite <- app_assoc. do 2 f_equal.
    apply bind_seq_ext. intros p Hp. by rewrite bool_decide_false by lia.
  - change (seq s (S k)) with (s :: seq (S s) k). rewrite bind_cons, Hslot, !bool_decide_true, Hnone by lia.
    rewrite app_nil_r, (bind_seq_nil (slot inj ls (edits_app _ _)) (S s)).
    2:{ intros p Hp. rewrite Hslot, bool_decide_false, bool_decide_true, Hnone by lia. done. }
    rewrite app_nil_r. f_equal. apply bind_seq_ext. intros p Hp. by rewrite bool_decide_false by lia.
Qed.

(** *** Sorting does not change the edits *)

Lemma insertions_cons r rs :
  insertions (edits_of_replacements (r :: rs)) =
  ((λ t, (r.1.1, t)) <$> r.2) ++ insertions (edits_of_replacements rs).
Proof. done. Qed.

Lemma insert_by_start_insertions r rs p :
  filter (λ pt : nat * str, pt.1 = p) (insertions (edits_of_replacements (insert_by_start r rs))) =
  filter (λ pt : nat * str, pt.1 = p) (insertions (edits_of_replacements (r :: rs))).
Proof.
  induction rs as [|r' rs IH]; [done|]. cbn [insert_by_start].
  destruct (Nat.leb_spec r.1.1 r'.1.1) as [Hle|Hgt]; [done|].
  rewrite !insertions_cons, !filter_app, IH, insertions_cons, filter_app, !app_assoc. f_equal.
  destruct (decide (r'.1.1 = p)) as [<-|Hp].
  - rewrite (filter_pos_none _ ((λ t, (r.1.1, t)) <$> r.2)); [by rewrite app_nil_r|].
    apply Forall_fmap, Forall_true. simpl. lia.
  - rewrite (filter_pos_none _ ((λ t, (r'.1.1, t)) <$> r'.2)); [by rewrite app_nil_r|].
    apply Forall_fmap, Forall_true. simpl. congruence.
Qed.

Lemma sort_by_start_slot {A} (inj : str → A) ls rs p :
  slot inj ls (edits_of_replacements (sort_by_start rs)) p = slot inj ls (edits_of_replacements rs) p.
Proof.
  unfold slot. f_equal.
  - f_equal. f_equal. induction rs as [|r rs IH]; [done|]. unfold sort_by_start in *. cbn [foldr].
    by rewrite insert_by_start_insertions, !insertions_cons, !filter_app, IH.
  - simpl. by rewrite (bool_decide_ext _ (p ∈ rs ≫= λ r, seq r.1.1 r.1.2)) by (by rewrite sort_by_start_perm).
Qed.

(** *** One chunk *)

Lemma bind_seq_pairs (i : nat) (new : list str) ns m :
  seq ns m ≫= (λ j, (λ t, (i, t)) <$> option_list (new !! j)) = (λ t, (i, t)) <$> take m (drop ns new).
Proof.
  rewrite <- bind_seq_lookup. revert ns. induction m as [|m IH]; intros ns; simpl; [done|].
  by rewrite fmap_app, IH.
Qed.

Lemma bind_seq_shift i os m : seq os m ≫= (λ o, [i + o]) = seq (i + os) m.
Proof.
  revert os. induction m as [|m IH]; intros os; simpl; [done|]. f_equal.
  rewrite IH. f_equal. lia.
Qed.

(** The edits between two context lines. *)
Definition gap_edits (i os ns o j : nat) (new : list str) : Edits :=
  mkEdits ((λ t, (i + os, t)) <$> take (j - ns) (drop ns new)) (seq (i + os) (o - os)).

Lemma block_edits_nil i os ns olen new :
  block_edits_from i os ns olen new [] = gap_edits i os ns olen (length new) new.
Proof.
  unfold block_edits_from, gap_edits. cbn [fmap list_fmap]. f_equal.
  - rewrite <- bind_seq_pairs. apply bind_seq_ext. intros j Hj. by rewrite bool_decide_false by set_solver.
  - rewrite <- bind_seq_shift. apply bind_seq_ext. intros o Ho. by rewrite bool_decide_false by set_solver.
Qed.

Lemma gap_start_below os ctx j : Forall (λ ij, j ≤ ij.2) ctx → gap_start os ctx j = os.
Proof.
  unfold gap_start. intros Hall. revert os. induction Hall as [|ij ctx Hj Hall IH]; intros os; simpl; [done|].
  destruct (Nat.ltb_spec ij.2 j); [lia|apply IH].
Qed.

Lemma block_edits_cons i os ns olen new o j ctx :
  os ≤ o < olen → ns ≤ j < length new → Forall (λ ij, o < ij.1 ∧ j < ij.2) ctx →
  block_edits_from i os ns olen new ((o, j) :: ctx) =
  edits_app (gap_edits i os ns o j new) (block_edits_from i (S o) (S j) olen new ctx).
Proof.
  intros Ho Hj Hall. unfold block_edits_from, gap_edits, edits_app. cbn [insertions deletions fmap list_fmap fst snd].
  assert (∀ o', o' ≤ o → o' ∉ ctx.*1) as Hfst.
  { intros o' Ho' ([? ?] & -> & Hin)%list_elem_of_fmap. rewrite Forall_forall in Hall.
    apply Hall in Hin. simpl in *. lia. }
  assert (∀ j', j' ≤ j → j' ∉ ctx.*2) as Hsnd.
  { intros j' Hj' ([? ?] & -> & Hin)%list_elem_of_fmap. rewrite Forall_forall in Hall.
    apply Hall in Hin. simpl in *. lia. }
  f_equal.
  - replace (length new - ns) with ((j - ns) + (1 + (length new - S j))) by lia.
    rewrite seq_app, bind_app, seq_app, bind_app. replace (ns + (j - ns)) with j by lia. f_equal.
    + rewrite <- bind_seq_pairs. apply bind_seq_ext. intros j' Hj'.
      rewrite bool_decide_false by (specialize (Hsnd j'); set_solver by lia).
      rewrite gap_start_below; [done|]. constructor; simpl; [lia|].
      eapply Forall_impl; [done|]. simpl. lia.
    + cbn [seq mbind list_bind]. rewrite bool_decide_true by set_solver. cbn [app].
      rewrite Nat.add_1_r. apply bind_seq_ext. intros j' Hj'.
      rewrite (bool_decide_ext (j' ∈ j :: ctx.*2) (j' ∈ ctx.*2)) by set_solver by lia.
      unfold gap_start. cbn [foldl fst snd]. destruct (Nat.ltb_spec j j'); [done|lia].
  - replace (olen - os) with ((o - os) + (1 + (olen - S o))) by lia.
    rewrite seq_app, bind_app, seq_app, bind_app. replace (os + (o - os)) with o by lia. f_equal.
    + rewrite <- bind_seq_shift. apply bind_seq_ext. intros o' Ho'.
      by rewrite bool_decide_false by (specialize (Hfst o'); set_solver by lia).
    + cbn [seq mbind list_bind]. rewrite bool_decide_true by set_solver. cbn [app].
      rewrite Nat.add_1_r. apply bind_seq_ext. intros o' Ho'.
      by rewrite (bool_decide_ext (o' ∈ o :: ctx.*1) (o' ∈ ctx.*1)) by set_solver by lia.
Qed.

Lemma edits_of_replacement s k seg :
  edits_of_replacements [(s, k, seg)] = mkEdits ((λ t, (s, t)) <$> seg) (seq s k).
Proof. unfold edits_of_replacements. simpl. by rewrite !app_nil_r. Qed.

Lemma context_inside_none olen nlen ctx i j :
  (olen ≤ i ∨ nlen ≤ j) → Forall (before (i, j)) ctx → context_inside olen nlen ctx = [].
Proof.
  intros Hij Hall. unfold context_inside. induction Hall as [|ij ctx [? ?] Hall IH]; [done|].
  rewrite filter_cons. simpl in *. by rewrite decide_False by lia.
Qed.

(** The loop over the context indices, with what is left of the block after it. *)
Lemma context_loop_edits start plen (new : list str) idx os ns acc :
  StronglySorted before idx → Forall (λ ij, os ≤ ij.1 ∧ ns ≤ ij.2) idx →
  os ≤ plen → ns ≤ length new →
  ∃ res os' ns', context_loop start plen new idx os ns acc = Some (res, os', ns') ∧
    os' ≤ plen ∧ ns' ≤ length new ∧
    edits_app (edits_of_replacements res) (gap_edits start os' ns' plen (length new) new) =
    edits_app (edits_of_replacements acc)
      (block_edits_from start os ns plen new (context_inside plen (length new) idx)).
Proof.
  revert os ns acc. induction idx as [|[i j] idx IH]; intros os ns acc Hs Hall Hos Hns; cbn [context_loop].
  { exists acc, os, ns. split_and!; [done..|]. unfold context_inside. simpl. by rewrite block_edits_nil. }
  apply StronglySorted_inv in Hs as [Hs Hb]. inversion_clear Hall as [|?? [Hi Hj] Hall']. simpl in Hi, Hj.
  unfold context_inside. rewrite filter_cons. simpl. case_bool_decide as Hbr.
  { exists acc, os, ns. split_and!; [done..|]. rewrite decide_False by lia.
    fold (context_inside plen (length new) idx). by rewrite (context_inside_none _ _ _ i j), block_edits_nil. }
  rewrite decide_True by lia. fold (context_inside plen (length new) idx).
  assert (Forall (λ ij, S i ≤ ij.1 ∧ S j ≤ ij.2) idx) as Hnext.
  { eapply Forall_impl; [exact Hb|]. intros ij [? ?]. simpl in *. lia. }
  rewrite block_edits_cons; [|lia..|].
  2:{ apply Forall_forall. intros ij [_ Hin]%list_elem_of_filter. rewrite Forall_forall in Hnext.
      apply Hnext in Hin. lia. }
  case_bool_decide as Hne.
  - rewrite usub_ok, slice_ok by lia. cbn [mbind option_bind].
    destruct (IH (S i) (S j) (acc ++ [(start + os, i - os, take (j - ns) (drop ns new))]))
      as (res & os' & ns' & Hl & ? & ? & He); [done..|lia|lia|].
    exists res, os', ns'. split_and!; [done..|]. rewrite He, edits_of_replacements_app, edits_of_replacement.
    by rewrite edits_app_assoc.
  - cbn [mbind option_bind]. destruct (IH (S i) (S j) acc) as (res & os' & ns' & Hl & ? & ? & He); [done..|lia|lia|].
    exists res, os', ns'. split_and!; [done..|]. rewrite He. f_equal.
    unfold gap_edits. by replace (j - ns) with 0 by lia; replace (i - os) with 0 by lia; rewrite edits_app_nil_l.
Qed.

Lemma chunk_replacements_edits start (pattern new : list str) idx :
  StronglySorted before idx →
  ∃ rs, chunk_replacements PreserveLineEndings start pattern new idx = Some rs ∧
        edits_of_replacements rs = block_edits start (length pattern) new idx.
Proof.
  intros Hs. destruct (context_loop_edits start (length pattern) new idx 0 0 [])
    as (res & os & ns & Hl & Hos & Hns & He); [done|apply Forall_true; intros; lia|lia..|].
  cbn [chunk_replacements]. rewrite Hl. cbn [mbind option_bind]. unfold block_edits.
  change (edits_of_replacements []) with no_edits in He. rewrite edits_app_nil_l in He. rewrite <- He.
  case_bool_decide.
  - rewrite usub_ok, slice_ok by lia. cbn [mbind option_bind]. eexists. split; [done|].
    by rewrite edits_of_replacements_app, edits_of_replacement.
  - exists res. split; [done|]. unfold gap_edits.
    replace (length pattern - os) with 0 by lia. replace (length new - ns) with 0 by lia.
    by rewrite edits_app_nil_r.
Qed.

(** ** Locating *)

Lemma search_start_from ls pattern li eof :
  search_start ls pattern li eof PreserveLineEndings = search_from ls pattern li eof.
Proof. unfold search_start, search_from. destruct eof; simpl; [|done]. case_bool_decide; lia. Qed.

(** A search finds its pattern or shows that it is absent. *)
Lemma seek_preserve ls pattern li eof :
  pattern ≠ [] →
  match seek_sequence ls pattern li eof PreserveLineEndings with
  | Some i => best_match ls pattern (search_from ls pattern li eof) i
  | None => absent ls pattern (search_from ls pattern li eof)
  end.
Proof.
  intros Hne. pose proof (seek_sequence_cases ls pattern li eof PreserveLineEndings Hne) as H.
  rewrite search_start_from in H. by destruct (seek_sequence ls pattern li eof PreserveLineEndings) as [i|];
    [destruct H|].
Qed.

Lemma best_match_absent ls pattern lo i : best_match ls pattern lo i → absent ls pattern lo → False.
Proof. intros (k & f & Hf & Hlo & Ho & _) Ha. by eapply Ha. Qed.

Lemma context_at_spec ls path c li :
  match seek_context ls path c PreserveLineEndings li with
  | Ok li' => context_at ls c li li'
  | Err _ => ∀ li', ¬ context_at ls c li li'
  end.
Proof.
  unfold seek_context, context_at. destruct (change_context c) as [ctx|]; [|done].
  pose proof (seek_preserve ls [ctx] li false ltac:(done)) as H. unfold search_from in H.
  destruct (seek_sequence ls [ctx] li false PreserveLineEndings) as [i|]; [eauto|].
  intros li' (i & Hi & _). by eapply best_match_absent.
Qed.

Lemma context_at_unique ls c li li1 li2 : context_at ls c li li1 → context_at ls c li li2 → li1 = li2.
Proof.
  unfold context_at. destruct (change_context c); [|congruence].
  intros (i & Hi & ->) (j & Hj & ->). f_equal. by eapply best_match_unique.
Qed.

Lemma last_is_empty_snoc (v : list str) : last_is_empty v = true ↔ last v = Some [].
Proof.
  unfold last_is_empty. destruct (list_snoc_cases v) as [->|(v' & x & ->)]; [done|].
  rewrite last_is_snoc, last_snoc, bool_decide_eq_true. naive_solver.
Qed.

Lemma drop_last_snoc {A} (v : list A) x : drop_last (v ++ [x]) = v.
Proof. unfold drop_last. rewrite length_app. simpl. by rewrite take_app_length' by lia. Qed.

Lemma locate_chunk_spec ls c li :
  old_lines c ≠ [] →
  match locate_chunk ls c li PreserveLineEndings with
  | (Some i, pattern, new) => block_at ls c li pattern new i
  | (None, _, _) => ∀ pattern new i, ¬ block_at ls c li pattern new i
  end.
Proof.
  intros Hne. unfold locate_chunk. pose proof (seek_preserve ls (old_lines c) li (is_end_of_file c) Hne) as H.
  destruct (seek_sequence ls (old_lines c) li (is_end_of_file c) PreserveLineEndings) as [i|];
    [by constructor|].
  destruct (list_snoc_cases (old_lines c)) as [?|(pattern & x & Hold)]; [done|].
  destruct (last_is_empty (old_lines c)) eqn:El.
  2:{ intros pattern' new i Hb. inversion Hb as [? Hm|??? _ Ho]; [by eapply best_match_absent|].
      rewrite Ho in El. rewrite (proj2 (last_is_empty_snoc _)) in El; [done|]. by rewrite last_snoc. }
  apply last_is_empty_snoc in El. rewrite Hold, last_snoc in El. injection El as ->.
  rewrite Hold, drop_last_snoc.
  set (new := if last_is_empty (new_lines c) then drop_last (new_lines c) else new_lines c).
  assert (new_lines c = new ++ [[]] ∨ new_lines c = new ∧ last new ≠ Some []) as Hnew.
  { subst new. destruct (last_is_empty (new_lines c)) eqn:E.
    - left. apply last_is_empty_snoc in E. apply last_Some_snoc in E as [l' ->]. by rewrite drop_last_snoc.
    - right. split; [done|]. intros Hl%last_is_empty_snoc. congruence. }
  rewrite Hold in H.
  assert (match seek_sequence ls pattern li (is_end_of_file c) PreserveLineEndings with
    | Some i => found_at ls pattern li (is_end_of_file c) i
    | None => ∀ i, ¬ found_at ls pattern li (is_end_of_file c) i end) as Hfound.
  { destruct pattern as [|q qs]; [done|].
    pose proof (seek_preserve ls (q :: qs) li (is_end_of_file c) ltac:(done)) as Hs.
    destruct (seek_sequence ls (q :: qs) li (is_end_of_file c) PreserveLineEndings); [done|].
    intros i Hi. by eapply best_match_absent. }
  destruct (seek_sequence ls pattern li (is_end_of_file c) PreserveLineEndings) as [i|].
  - by apply block_trimmed; rewrite ?Hold.
  - intros pattern' new' i Hb. inversion Hb as [? Hm|??? _ Ho _ Hf]; subst.
    + rewrite Hold in Hm. by eapply best_match_absent.
    + rewrite Hold in Ho. apply app_inj_tail in Ho as [-> _]. by eapply Hfound.
Qed.

Lemma found_at_unique ls pattern li eof i j :
  found_at ls pattern li eof i → found_at ls pattern li eof j → i = j.
Proof. destruct pattern; [simpl; congruence|]. apply best_match_unique. Qed.

Lemma block_at_unique ls c li pattern new i pattern' new' i' :
  block_at ls c li pattern new i → block_at ls c li pattern' new' i' →
  pattern = pattern' ∧ new = new' ∧ i = i'.
Proof.
  intros [j Hj|p1 n1 j Ha Ho Hn Hf] [j' Hj'|p2 n2 j' Ha' Ho' Hn' Hf'].
  - split_and!; [done..|by eapply best_match_unique].
  - by destruct (best_match_absent _ _ _ _ Hj Ha').
  - by destruct (best_match_absent _ _ _ _ Hj' Ha).
  - rewrite Ho in Ho'. apply app_inj_tail in Ho' as [-> _].
    split_and!; [done| |by eapply found_at_unique].
    destruct Hn as [Hn|[Hn Hl]], Hn' as [Hn'|[Hn' Hl']].
    + rewrite Hn in Hn'. by apply app_inj_tail in Hn' as [-> _].
    + by rewrite <- Hn', Hn, last_snoc in Hl'.
    + by rewrite <- Hn, Hn', last_snoc in Hl.
    + congruence.
Qed.

Lemma chunk_edits_unique ls c li li1 e1 li2 e2 :
  chunk_edits ls c li li1 e1 → chunk_edits ls c li li2 e2 → li1 = li2 ∧ e1 = e2.
Proof.
  intros [l1 Hc1 Ho1|l1 p1 n1 i1 Hc1 Ho1 Hb1] [l2 Hc2 Ho2|l2 p2 n2 i2 Hc2 Ho2 Hb2]; try done;
    pose proof (context_at_unique _ _ _ _ _ Hc1 Hc2) as ->; [done|].
  by destruct (block_at_unique _ _ _ _ _ _ _ _ _ Hb1 Hb2) as (-> & -> & ->).
Qed.

(** One chunk of the loop. *)
Lemma compute_chunk_edits ls path c li :
  chunk_wf c →
  match compute_chunk ls path c PreserveLineEndings li with
  | None => False
  | Some (Err _) => ∀ li' e, ¬ chunk_edits ls c li li' e
  | Some (Ok (li', rs)) => chunk_edits ls c li li' (edits_of_replacements rs)
  end.
Proof.
  intros [_ Hidx]. unfold compute_chunk. pose proof (context_at_spec ls path c li) as Hctx.
  destruct (seek_context ls path c PreserveLineEndings li) as [li1|e].
  2:{ intros li' e' Hc. inversion Hc; by eapply Hctx. }
  destruct (decide (old_lines c = [])) as [Hold|Hold].
  - rewrite Hold. cbn [insertion_index]. rewrite edits_of_replacement. by apply chunk_append.
  - assert (∀ A (x y : A), match old_lines c with [] => x | _ => y end = y) as ->
      by (intros; by destruct (old_lines c)).
    pose proof (locate_chunk_spec ls c li1 Hold) as Hl.
    destruct (locate_chunk ls c li1 PreserveLineEndings) as [[[i|] pattern] new].
    + destruct (chunk_replacements_edits i pattern new (context_line_indices c) Hidx) as (rs & -> & He).
      cbn [mbind option_bind]. rewrite He. by eapply chunk_block.
    + intros li' e' Hc. inversion Hc as [|? p n i Hc' _ Hb]; simplify_eq.
      pose proof (context_at_unique _ _ _ _ _ Hc' Hctx) as ->. by eapply Hl.
Qed.

Lemma compute_chunks_edits ls path chunks li acc :
  Forall chunk_wf chunks →
  match compute_chunks ls path chunks PreserveLineEndings li acc with
  | None => False
  | Some (Err _) => ∀ e, ¬ edits_of ls li chunks e
  | Some (Ok rs) => ∃ e, edits_of ls li chunks e ∧
      edits_of_replacements rs = edits_app (edits_of_replacements acc) e
  end.
Proof.
  intros Hwf. revert li acc. induction Hwf as [|c chunks Hc Hcs IH]; intros li acc; simpl.
  { exists no_edits. split; [constructor|by rewrite edits_app_nil_r]. }
  pose proof (compute_chunk_edits ls path c li Hc) as Hstep.
  destruct (compute_chunk ls path c PreserveLineEndings li) as [[[li' rs]|e]|]; cbn [mbind option_bind]; [| |done].
  - specialize (IH li' (acc ++ rs)).
    destruct (compute_chunks ls path chunks PreserveLineEndings li' (acc ++ rs)) as [[rs'|e]|]; [| |done].
    + destruct IH as (e & He & Heq). exists (edits_app (edits_of_replacements rs) e).
      split; [by econstructor|]. by rewrite Heq, edits_of_replacements_app, edits_app_assoc.
    + intros e' He. inversion He as [|? li2 ??? e2 Hc2 He2]; simplify_eq.
      destruct (chunk_edits_unique _ _ _ _ _ _ _ Hstep Hc2) as [<- _]. by eapply IH.
  - intros e' He. inversion He; simplify_eq. by eapply Hstep.
Qed.

(** ** Properties *)

(** A line with its own ending, or the preferred one of the file. *)
Definition terminated (pref : LineEnding) (l : SourceLine) : str :=
  text l ++ ending_str (default pref (ending l)).

Lemma line_str_terminated pref l : line_str (fill_ending pref l) = terminated pref l.
Proof. unfold line_str, terminated, fill_ending. simpl. by destruct (ending l). Qed.

(** C10: an update in [PreserveLineEndings] mode carries out the edits of its
    chunks.  It never panics; it fails exactly when some chunk cannot be
    located after the chunks before it; and otherwise it writes, position by
    position, the lines the patch inserts there, in the ending the file
    prefers, and the line of the file unless the patch deletes it, with its
    own text and ending. *)
Theorem update_refines_edits contents path chunks :
  Forall chunk_wf chunks →
  let f := source_parse contents in
  match new_contents contents path chunks PreserveLineEndings with
  | None => False
  | Some (Err _) => ∀ e, ¬ edits_of (line_texts f) 0 chunks e
  | Some (Ok out) => ∃ e, edits_of (line_texts f) 0 chunks e ∧
      out = concat (terminated (preferred_ending f) <$>
        edited (λ t, mkLine t (Some (preferred_ending f))) (file_lines f) e)
  end.
Proof.
  intros Hwf f. pose proof (new_contents_preserve contents path chunks Hwf) as H. fold f in H.
  pose proof (compute_chunks_edits (line_texts f) path chunks 0 [] Hwf) as He.
  destruct (new_contents contents path chunks PreserveLineEndings) as [[out|e]|]; [| |done].
  - destruct H as (rs & Hrs & Hord & ->). unfold compute_replacements in Hrs.
    destruct (compute_chunks (line_texts f) path chunks PreserveLineEndings 0 []) as [[rs'|]|]; simplify_eq/=.
    destruct He as (e & He & Heq). rewrite edits_app_nil_l in Heq. exists e. split; [done|].
    unfold line_texts in Hord. rewrite length_fmap in Hord.
    rewrite <- (drop_0 (file_lines f)) at 1. rewrite splice_slots by done. rewrite Nat.sub_0_r.
    unfold edited. f_equal. rewrite <- Heq.
    rewrite (bind_seq_ext (slot _ _ (edits_of_replacements (sort_by_start rs'))) _ _ _
      (λ p _, sort_by_start_slot _ _ _ p)).
    apply list_fmap_ext. intros i l _. apply line_str_terminated.
  - unfold compute_replacements in H.
    by destruct (compute_chunks (line_texts f) path chunks PreserveLineEndings 0 []) as [[rs'|]|]; simplify_eq/=.
Qed.

Lemma update_refines_edits_witness :
  new_contents ex_contents (lit "f") [ex_chunk1; ex_chunk2] PreserveLineEndings = Some (Ok ex_out) ∧
  ∃ e, edits_of [lit "a"; lit "b"; lit "c"] 0 [ex_chunk1; ex_chunk2] e ∧
    ex_out = concat (terminated CrLf <$>
      edited (λ t, mkLine t (Some CrLf)) (file_lines (source_parse ex_contents)) e).
Proof.
  pose proof (update_refines_edits ex_contents (lit "f") [ex_chunk1; ex_chunk2] ex_chunks_wf) as H.
  assert (new_contents ex_contents (lit "f") [ex_chunk1; ex_chunk2] PreserveLineEndings
          = Some (Ok ex_out)) as E by (vm_compute; reflexivity).
  rewrite E in H. split; [exact E|exact H].
Defined.

(** The edits of that example, computed from the definitions: the line [x] is
    inserted before line 1, which is deleted, and [end] at the end of the file. *)
Example ex_edits :
  edits_app (block_edits 0 2 [lit "a"; lit "x"] [(0, 0)]) (mkEdits [(3, lit "end")] []) =
  mkEdits [(1, lit "x"); (3, lit "end")] [1].
Proof. reflexivity. Qed.
