(* ===== verification/ApplyHunks.v ===== *)
(** * Applying hunks to a file system ([apply-patch/src/lib.rs])

    [apply_hunks_to_files] runs the hunks of a patch against an
    [ExecutorFileSystem] and records in an [AppliedPatchDelta] what it
    committed, with a flag that says whether the record is exact.  The file
    system and the path type are interfaces: the trait of [file-system] and the
    [PathUri] operations the crate calls.  State is threaded explicitly; a
    failing step returns the state it reached together with the error. *)
From stdpp Require Import numbers strings gmap.
From S2P Require Import Prelude RustStr PatchParser SeekSequence TextFile FileUpdate.

(** ** Interfaces *)

(** The fields of [FileMetadata] the crate reads. *)
Record FileMetadata : Type := mkMeta {
  is_directory : bool;
  is_file : bool;
  is_symlink : bool;
}.

(** [PathUri]: [join] (with the displayed parse error), [parent] and
    [inferred_native_path_string]. *)
Class PathOps (path : Type) : Type := {
  path_join : path → str → result str path;
  path_parent : path → option path;
  native_path : path → str;
}.

(** The operations of [ExecutorFileSystem] the crate calls, at a fixed
    sandbox.  [bool] is [follow_symlinks]; text is written as its UTF-8 bytes. *)
Class ExecutorFileSystem (S path : Type) : Type := {
  read_file_text : S → path → bool → result io_error str;
  write_file : S → path → str → bool → S * result io_error unit;
  create_directory : S → path → bool → S * result io_error unit;
  get_metadata : S → path → bool → result io_error FileMetadata;
  remove : S → path → bool → S * result io_error unit;
}.

(** A path that is a regular file and not a symbolic link, or does not exist,
    as [get_metadata] reports it. *)
Definition plain {S path} `{ExecutorFileSystem S path} (s : S) (p : path) (follow : bool) : bool :=
  match get_metadata s p follow with
  | Ok metadata => is_file metadata && negb (is_symlink metadata)
  | Err source => bool_decide (io_kind source = NotFound)
  end.

(** What a file system promises about plain paths; nothing is promised about
    directories and symbolic links.

    [locate] is the place a path names: its directories, and with
    [follow_symlinks] its last component too, resolved through the symbolic
    links on the way as far as they exist, and the rest taken as it is written.
    Two paths that lead to the same place through a linked directory have the
    same location.  [files] is the map from the locations of regular files to
    their text.  [unshared] says that the file at a path, if there is one, has
    no second hard link.

    Operations on a plain path that succeed do what they say at its location,
    and only there if the file is not shared; a write or a read that reports
    [NotFound] found no such file and changed nothing; a [remove] that reports
    an error removed its own file or nothing; creating a directory changes no
    file and, created for a path, does not create the path itself.  None of
    them makes a link, so that locations stay and no file becomes shared
    ([same_links]); a regular file that was not removed stays one ([stays_plain]).
    A path where nothing was may stop being plain. *)
Class FileSystemView (S path : Type) : Type := {
  location : Type;
  location_eq_dec :: EqDecision location;
  location_countable :: Countable location;
  locate : S → bool → path → location;
  files : S → gmap location str;
  unshared : S → bool → path → Prop;
}.

Record same_links {S path} `{FileSystemView S path} (fl : bool) (s s' : S) : Prop := {
  locate_same q : locate s' fl q = locate s fl q;
  unshared_same q : unshared s fl q → unshared s' fl q;
}.
Definition stays_plain {S path} `{ExecutorFileSystem S path, FileSystemView S path} (fl : bool) (s s' : S) : Prop :=
  ∀ q : path, is_Some (files s !! locate s fl q) → plain s q fl = true → plain s' q fl = true.

Class FileSystemLaws (S path : Type) `{PathOps path, ExecutorFileSystem S path, FileSystemView S path} : Prop := {
  read_ok s p fl c : plain s p fl = true → read_file_text s p fl = Ok c →
    files s !! locate s fl p = Some c;
  read_not_found s p fl e : plain s p fl = true →
    read_file_text s p fl = Err e → io_kind e = NotFound → files s !! locate s fl p = None;
  write_ok s p c fl s' : plain s p fl = true → unshared s fl p → write_file s p c fl = (s', Ok tt) →
    files s' = <[locate s fl p := c]> (files s) ∧ same_links fl s s' ∧ stays_plain fl s s';
  write_not_found s p c fl s' e : plain s p fl = true →
    write_file s p c fl = (s', Err e) → io_kind e = NotFound →
    files s' = files s ∧ same_links fl s s' ∧ stays_plain fl s s' ∧ plain s' p fl = true;
  create_directory_files s dir fl s' r : create_directory s dir fl = (s', r) →
    files s' = files s ∧ same_links fl s s' ∧ stays_plain fl s s' ∧
    ∀ q, path_parent q = Some dir → plain s q fl = true → plain s' q fl = true;
  remove_ok s p fl s' : plain s p fl = true → is_Some (files s !! locate s fl p) →
    remove s p fl = (s', Ok tt) → files s' = delete (locate s fl p) (files s) ∧ same_links fl s s';
  remove_err s p fl s' e : plain s p fl = true → is_Some (files s !! locate s fl p) →
    remove s p fl = (s', Err e) →
    (files s' = files s ∨ files s' = delete (locate s fl p) (files s)) ∧ same_links fl s s' ∧
    plain s' p fl = true;
}.

(** ** Data *)

Record ApplyPatchOptions : Type := mkOptions {
  update_file_mode : ApplyPatchFileUpdateMode;
  follow_symlinks : bool;
}.

(** [ApplyPatchOptions::default()]. *)
Definition default_options : ApplyPatchOptions := mkOptions NormalizeToLf true.

Inductive AppliedPatchFileChange (path : Type) : Type :=
  | Add (content : str) (overwritten_content : option str)
  | Delete (content : str)
  | Update (move_path : option path) (old_content : str)
      (overwritten_move_content : option str) (new_content : str).
Arguments Add {path} _ _.
Arguments Delete {path} _.
Arguments Update {path} _ _ _ _.

Record AppliedPatchChange (path : Type) : Type := mkChange {
  change_path : path;
  change : AppliedPatchFileChange path;
}.
Arguments mkChange {path} _ _.
Arguments change_path {path} _.
Arguments change {path} _.

Record AppliedPatchDelta (path : Type) : Type := mkDelta {
  changes : list (AppliedPatchChange path);
  exact : bool;
}.
Arguments mkDelta {path} _ _.
Arguments changes {path} _.
Arguments exact {path} _.

(** [AppliedPatchDelta::empty]. *)
Definition empty_delta {path} : AppliedPatchDelta path := mkDelta [] true.

(** [AppliedPatchDelta::append]. *)
Definition delta_append {path} (d other : AppliedPatchDelta path) : AppliedPatchDelta path :=
  mkDelta (changes d ++ changes other) (exact d && exact other).

Record AffectedPaths : Type := mkAffected {
  added : list str;
  modified : list str;
  deleted : list str;
}.

(** An [anyhow::Error]: the outermost message and the [io::Error] that
    [downcast_ref] finds, if any.  [Panic] is a panic of the update code. *)
Inductive failure : Type :=
  | Failed (message : str) (io : option io_error)
  | Panic.

(** [Display] of the errors. *)
Definition display_parse_error (e : ParseError) : str :=
  match e with
  | InvalidPatchError message => lit "invalid patch: " ++ message
  | InvalidHunkError message line_number =>
      lit "invalid hunk at line " ++ fmt_nat line_number ++ lit ", " ++ message
  end.
Definition display_error (e : ApplyPatchError) : str :=
  match e with
  | ParseErr e => display_parse_error e
  | IoError context source => context ++ lit ": " ++ io_text source
  | ComputeReplacements message => message
  | PathUri message => message
  | ImplicitInvocation =>
      lit "patch detected without explicit call to apply_patch. Rerun as [" ++ [34%N] ++
      lit "apply_patch" ++ [34%N] ++ lit ", " ++ [34%N] ++ lit "<patch>" ++ [34%N] ++ lit "]"
  end.

(** [io_result.with_context(|| message)]. *)
Definition with_context (message : str) (e : io_error) : failure := Failed message (Some e).

Section Apply.
Context {S path : Type} `{PathOps path} `{FS : ExecutorFileSystem S path}.
Implicit Types (s : S) (p : path) (d : AppliedPatchDelta path) (fl : bool).

Abbreviation Delta := (AppliedPatchDelta path).

(** [ensure_not_directory]. *)
Definition ensure_not_directory s p fl : result io_error unit :=
  let? metadata := get_metadata s p fl in
  if is_directory metadata then Err (mkIo InvalidInput (lit "path is a directory")) else Ok tt.

(** [remove_failure_was_side_effect_free]. *)
Definition remove_failure_was_side_effect_free s p (expected_content : option str) fl : bool :=
  match expected_content with
  | Some expected =>
      match read_file_text s p fl with Ok content => str_eqb content expected | Err _ => false end
  | None => false
  end.

(** [note_existing_path_delta_support]: the new value of [*exact]. *)
Definition note_existing_path_delta_support s p fl (exact : bool) : bool :=
  match get_metadata s p fl with
  | Ok metadata => if is_file metadata && negb (is_symlink metadata) then exact else false
  | Err source => if bool_decide (io_kind source = NotFound) then exact else false
  end.

(** [read_optional_file_text_for_delta]. *)
Definition read_optional_file_text_for_delta s p fl (exact : bool) : option str * bool :=
  let exact := note_existing_path_delta_support s p fl exact in
  match read_file_text s p fl with
  | Ok content => (Some content, exact)
  | Err source =>
      if bool_decide (io_kind source = NotFound) then (None, exact) else (None, false)
  end.

Definition msg_write p : str := lit "Failed to write file " ++ native_path p.

(** [write_file_with_missing_parent_retry]. *)
Definition write_file_with_missing_parent_retry s p (contents : str) fl : S * result failure unit :=
  match write_file s p contents fl with
  | (s1, Ok _) => (s1, Ok tt)
  | (s1, Err err) =>
      if bool_decide (io_kind err = NotFound) then
        let created := match path_parent p with
                       | Some parent => create_directory s1 parent fl
                       | None => (s1, Ok tt)
                       end in
        match created with
        | (s2, Err e) =>
            (s2, Err (with_context (lit "Failed to create parent directories for " ++ native_path p) e))
        | (s2, Ok _) =>
            match write_file s2 p contents fl with
            | (s3, Ok _) => (s3, Ok tt)
            | (s3, Err e) => (s3, Err (with_context (msg_write p) e))
            end
        end
      else (s1, Err (with_context (msg_write p) err))
  end.

(** [derive_new_contents_from_chunks]: the original and the new contents. *)
Definition derive_new_contents_from_chunks s p (chunks : list UpdateFileChunk)
    (m : ApplyPatchFileUpdateMode) fl : option (result ApplyPatchError (str * str)) :=
  match read_file_text s p fl with
  | Err err => Some (Err (IoError (lit "Failed to read file to update " ++ native_path p) err))
  | Ok original =>
      r ← new_contents original (native_path p) chunks m;
      match r with
      | Ok new => Some (Ok (original, new))
      | Err e => Some (Err e)
      end
  end.

(** [delta.changes.push]. *)
Definition push_change d (exact : bool) p (c : AppliedPatchFileChange path) : Delta :=
  mkDelta (changes d ++ [mkChange p c]) exact.

(** The [Hunk::AddFile] arm of [apply_hunks_to_files]. *)
Definition apply_add (opts : ApplyPatchOptions) s d p (contents : str)
  : S * Delta * result failure unit :=
  let fl := follow_symlinks opts in
  let '(overwritten, ex) := read_optional_file_text_for_delta s p fl (exact d) in
  match write_file_with_missing_parent_retry s p contents fl with
  | (s1, Err e) => (s1, mkDelta (changes d) false, Err e)
  | (s1, Ok _) => (s1, push_change d ex p (Add contents overwritten), Ok tt)
  end.

(** The [Hunk::DeleteFile] arm. *)
Definition apply_delete (opts : ApplyPatchOptions) s d p : S * Delta * result failure unit :=
  let fl := follow_symlinks opts in
  let msg := lit "Failed to delete file " ++ native_path p in
  let ex := note_existing_path_delta_support s p fl (exact d) in
  let deleted_content := ok (read_file_text s p fl) in
  let ex := match deleted_content with Some _ => ex | None => false end in
  match ensure_not_directory s p fl with
  | Err e => (s, mkDelta (changes d) ex, Err (with_context msg e))
  | Ok _ =>
      match remove s p fl with
      | (s1, Err e) =>
          (s1, mkDelta (changes d) (ex && remove_failure_was_side_effect_free s1 p deleted_content fl),
           Err (with_context msg e))
      | (s1, Ok _) =>
          match deleted_content with
          | Some content => (s1, push_change d ex p (Delete content), Ok tt)
          | None => (s1, mkDelta (changes d) ex, Ok tt)
          end
      end
  end.

(** The part of the [Hunk::UpdateFile] arm that moves the file: write the
    destination, record it as an addition, remove the source, and turn the
    record into an update. *)
Definition apply_move (opts : ApplyPatchOptions) s d (ex : bool) p dest (original new : str)
  : S * Delta * result failure unit :=
  let fl := follow_symlinks opts in
  let msg := lit "Failed to remove original " ++ native_path p in
  let '(overwritten, ex) := read_optional_file_text_for_delta s dest fl ex in
  match write_file_with_missing_parent_retry s dest new fl with
  | (s1, Err e) => (s1, mkDelta (changes d) false, Err e)
  | (s1, Ok _) =>
      let d1 := push_change d ex dest (Add new overwritten) in
      match ensure_not_directory s1 p fl with
      | Err e => (s1, d1, Err (with_context msg e))
      | Ok _ =>
          match remove s1 p fl with
          | (s2, Err e) =>
              (s2, mkDelta (changes d1)
                     (exact d1 && remove_failure_was_side_effect_free s2 p (Some original) fl),
               Err (with_context msg e))
          | (s2, Ok _) =>
              (s2, push_change d ex p (Update (Some dest) original overwritten new), Ok tt)
          end
      end
  end.

(** The [Hunk::UpdateFile] arm. *)
Definition apply_update (opts : ApplyPatchOptions) (cwd : path) s d p (move_path : option str)
    (chunks : list UpdateFileChunk) : S * Delta * result failure unit :=
  let fl := follow_symlinks opts in
  let ex := note_existing_path_delta_support s p fl (exact d) in
  match derive_new_contents_from_chunks s p chunks (update_file_mode opts) fl with
  | None => (s, mkDelta (changes d) ex, Err Panic)
  | Some (Err e) => (s, mkDelta (changes d) ex, Err (Failed (display_error e) None))
  | Some (Ok (original, new)) =>
      match move_path with
      | Some dest =>
          match path_join cwd dest with
          | Err e => (s, mkDelta (changes d) ex, Err (Failed e None))
          | Ok dest_uri => apply_move opts s d ex p dest_uri original new
          end
      | None =>
          match write_file s p new fl with
          | (s1, Err e) => (s1, mkDelta (changes d) false, Err (with_context (msg_write p) e))
          | (s1, Ok _) => (s1, push_change d ex p (Update None original None new), Ok tt)
          end
      end
  end.

(** The body of the loop over the hunks. *)
Definition apply_hunk (opts : ApplyPatchOptions) (cwd : path) (h : Hunk) s d
  : S * Delta * result failure unit :=
  match path_join cwd (hunk_source_path h) with
  | Err e => (s, d, Err (Failed e None))
  | Ok p =>
      match h with
      | AddFile _ contents => apply_add opts s d p contents
      | DeleteFile _ => apply_delete opts s d p
      | UpdateFile _ move_path chunks => apply_update opts cwd s d p move_path chunks
      end
  end.

(** [added.push], [deleted.push] or [modified.push] of the affected path. *)
Definition affect (h : Hunk) (a : AffectedPaths) : AffectedPaths :=
  match h with
  | AddFile _ _ => mkAffected (added a ++ [hunk_path h]) (modified a) (deleted a)
  | DeleteFile _ => mkAffected (added a) (modified a) (deleted a ++ [hunk_path h])
  | UpdateFile _ _ _ => mkAffected (added a) (modified a ++ [hunk_path h]) (deleted a)
  end.

Fixpoint apply_hunks_loop (opts : ApplyPatchOptions) (cwd : path) (hs : list Hunk) s d
    (a : AffectedPaths) : S * Delta * result failure AffectedPaths :=
  match hs with
  | [] => (s, d, Ok a)
  | h :: hs' =>
      match apply_hunk opts cwd h s d with
      | (s1, d1, Err e) => (s1, d1, Err e)
      | (s1, d1, Ok _) => apply_hunks_loop opts cwd hs' s1 d1 (affect h a)
      end
  end.

(** [apply_hunks_to_files]. *)
Definition apply_hunks_to_files (opts : ApplyPatchOptions) (cwd : path) (hs : list Hunk) s d
  : S * Delta * result failure AffectedPaths :=
  match hs with
  | [] => (s, d, Err (Failed (lit "No files were modified.") None))
  | _ => apply_hunks_loop opts cwd hs s d (mkAffected [] [] [])
  end.

(** [print_summary] into a buffer. *)
Definition print_summary (a : AffectedPaths) : str :=
  ln (lit "Success. Updated the following files:") ++
  concat ((λ q : str, ln (lit "A " ++ q)) <$> added a) ++
  concat ((λ q : str, ln (lit "M " ++ q)) <$> modified a) ++
  concat ((λ q : str, ln (lit "D " ++ q)) <$> deleted a).

(** What the commands return: the final file system, the text on stdout and
    stderr, and the delta or the [ApplyPatchFailure].  The writers are
    in-memory buffers, on which [writeln!] does not fail.  [None] in the
    error position is a panic. *)
Record outcome : Type := mkOutcome {
  out_fs : S;
  out_stdout : str;
  out_stderr : str;
  out_result : result (option ApplyPatchError * Delta) Delta;
}.

(** [apply_hunks_with_options]. *)
Definition apply_hunks_with_options (opts : ApplyPatchOptions) (cwd : path) (hs : list Hunk) s
  : outcome :=
  match apply_hunks_to_files opts cwd hs s empty_delta with
  | (s1, d, Ok affected) => mkOutcome s1 (print_summary affected) [] (Ok d)
  | (s1, d, Err (Failed msg (Some io))) =>
      mkOutcome s1 [] (ln msg) (Err (Some (IoError (lit "I/O error") io), d))
  | (s1, d, Err (Failed msg None)) =>
      mkOutcome s1 [] (ln msg) (Err (Some (IoError msg (mkIo OtherKind msg)), d))
  | (s1, d, Err Panic) => mkOutcome s1 [] [] (Err (None, d))
  end.

(** [apply_patch_with_options]. *)
Definition apply_patch_with_options (patch : str) (opts : ApplyPatchOptions) (cwd : path) s
  : outcome :=
  match parse_patch patch with
  | Err e =>
      let text := match e with
                  | InvalidPatchError message => lit "Invalid patch: " ++ message
                  | InvalidHunkError message line_number =>
                      lit "Invalid patch hunk on line " ++ fmt_nat line_number ++ lit ": " ++ message
                  end in
      mkOutcome s [] (ln text) (Err (Some (ParseErr e), empty_delta))
  | Ok args => apply_hunks_with_options opts cwd (args_hunks args) s
  end.

(** [apply_patch]. *)
Definition apply_patch (patch : str) (cwd : path) s : outcome :=
  apply_patch_with_options patch default_options cwd s.
End Apply.
