(* ===== verification/ApplyHunksProofs.v ===== *)
(** * The committed delta of a patch application

    On every file system that satisfies [FileSystemLaws], a delta flagged
    exact is a faithful log: replaying it on the initial files gives the final
    files, and undoing it from the final files gives the initial ones, also
    when the application failed half way.  Files are identified by their
    location, so that a file may be reached by several paths through linked
    directories; the files a patch touches must not have a second hard link. *)
From stdpp Require Import numbers strings gmap.
From S2P Require Import Prelude RustStr PatchParser PatchParserInv SeekSequence TextFile FileUpdate FileUpdateProofs ApplyHunks.

(** ** Replaying and undoing *)

Section Replay.
Context {path loc : Type} `{Countable loc} (at_ : path → loc).
Implicit Types (m : gmap loc str) (c : AppliedPatchChange path).

(** What a committed change did to the files, with the paths of the change
    taken to their locations by [at_]. *)
Definition replay_change m c : gmap loc str :=
  match change c with
  | Add content _ => <[at_ (change_path c) := content]> m
  | Delete _ => delete (at_ (change_path c)) m
  | Update None _ _ new => <[at_ (change_path c) := new]> m
  | Update (Some dest) _ _ new => delete (at_ (change_path c)) (<[at_ dest := new]> m)
  end.

(** [None] removes the file, [Some text] restores it. *)
Definition restore (p : loc) (o : option str) m : gmap loc str :=
  match o with Some text => <[p := text]> m | None => delete p m end.

Definition undo_change c m : gmap loc str :=
  match change c with
  | Add _ overwritten => restore (at_ (change_path c)) overwritten m
  | Delete content => <[at_ (change_path c) := content]> m
  | Update None old _ _ => <[at_ (change_path c) := old]> m
  | Update (Some dest) old overwritten _ =>
      <[at_ (change_path c) := old]> (restore (at_ dest) overwritten m)
  end.

Definition replay (cs : list (AppliedPatchChange path)) m : gmap loc str :=
  fold_left replay_change cs m.
Definition undo (cs : list (AppliedPatchChange path)) m : gmap loc str :=
  foldr undo_change m cs.

Lemma replay_app cs cs' m : replay (cs ++ cs') m = replay cs' (replay cs m).
Proof. apply fold_left_app. Qed.
Lemma undo_app cs cs' m : undo (cs ++ cs') m = undo cs (undo cs' m).
Proof. apply foldr_app. Qed.

(** [restore] with the previous entry of [p] undoes any change at [p]. *)
Lemma restore_lookup p o m m' :
  m !! p = o → (∀ q, q ≠ p → m' !! q = m !! q) → restore p o m' = m.
Proof.
  intros Ho Hq. apply map_eq. intros q. destruct (decide (q = p)) as [->|Hne].
  - destruct o; simpl; [by rewrite lookup_insert_eq|by rewrite lookup_delete_eq].
  - destruct o; simpl; [rewrite lookup_insert_ne by done|rewrite lookup_delete_ne by done]; auto.
Qed.

(** The files before a rename, from the files after it. *)
Lemma undo_rename m p dest original new o :
  m !! p = Some original → m !! dest = o →
  <[p := original]> (restore dest o (delete p (<[dest := new]> m))) = m.
Proof.
  intros Hp Ho. apply map_eq. intros q.
  destruct (decide (q = p)) as [->|Hq]; [by rewrite lookup_insert_eq|].
  rewrite lookup_insert_ne by done. destruct (decide (q = dest)) as [->|Hqd].
  - destruct o; simpl; [by rewrite lookup_insert_eq|by rewrite lookup_delete_eq].
  - assert (∀ m' : gmap loc str, restore dest o m' !! q = m' !! q) as ->
      by (intros m'; destruct o; simpl; [by rewrite lookup_insert_ne|by rewrite lookup_delete_ne]).
    by rewrite lookup_delete_ne, lookup_insert_ne.
Qed.
End Replay.

(** Locations that agree replay and undo alike. *)
Lemma replay_ext {path loc} `{Countable loc} (at1 at2 : path → loc) cs m :
  (∀ p, at1 p = at2 p) → replay at1 cs m = replay at2 cs m ∧ undo at1 cs m = undo at2 cs m.
Proof.
  intros He. assert (∀ m c, replay_change at1 m c = replay_change at2 m c) as Hr
    by (intros m' [p [| |[]]]; unfold replay_change; simpl; by rewrite ?He).
  assert (∀ m c, undo_change at1 c m = undo_change at2 c m) as Hu
    by (intros m' [p [| |[]]]; unfold undo_change; simpl; by rewrite ?He).
  split; [|induction cs as [|c cs IH]; simpl; [done|by rewrite IH, Hu]].
  revert m. induction cs as [|c cs IH]; intros m; simpl; [done|by rewrite Hr, IH].
Qed.

Section Laws.
#[local] Set Default Proof Using "Type*".
Context {S path : Type} `{PathOps path} {FS : ExecutorFileSystem S path} {V : FileSystemView S path}
  {L : FileSystemLaws S path}.
Implicit Types (s : S) (p : path) (d : AppliedPatchDelta path) (fl : bool).

Lemma same_links_refl fl s : same_links fl s s.
Proof. by split. Qed.
Lemma same_links_trans fl s0 s1 s2 : same_links fl s0 s1 → same_links fl s1 s2 → same_links fl s0 s2.
Proof. intros [Hl Hu] [Hl' Hu']. split; [intros q; by rewrite Hl', Hl|auto]. Qed.
Lemma stays_plain_trans fl s0 s1 s2 :
  same_links fl s0 s1 → (∀ l, is_Some (files s0 !! l) → is_Some (files s1 !! l)) →
  stays_plain fl s0 s1 → stays_plain fl s1 s2 → stays_plain fl s0 s2.
Proof. intros [Hl _] Hf H1 H2 q Hq Hp. apply H2; [|by apply H1]. rewrite Hl. auto. Qed.

Section Log.
(** The paths an application touches. *)
Variable touched : path → Prop.

Definition all_unshared fl s : Prop := ∀ p, touched p → unshared s fl p.

(** [s1] is reached from [s0] by committing [cs]; the log of an exact delta
    is right in both directions, and no path has changed its location. *)
Definition logged fl (s0 : S) (d0 : AppliedPatchDelta path) (s1 : S) (d1 : AppliedPatchDelta path)
  : Prop :=
  ∃ cs, changes d1 = changes d0 ++ cs ∧ (exact d1 = true → exact d0 = true) ∧
    (exact d1 = true → all_unshared fl s0 →
     files s1 = replay (locate s0 fl) cs (files s0) ∧ files s0 = undo (locate s0 fl) cs (files s1) ∧
     same_links fl s0 s1).

Lemma logged_refl fl s d : logged fl s d s d.
Proof. exists []. rewrite app_nil_r. split_and!; [done..|]. intros _ _. split_and!; [done..|apply same_links_refl]. Qed.

Lemma logged_trans fl s0 d0 s1 d1 s2 d2 :
  logged fl s0 d0 s1 d1 → logged fl s1 d1 s2 d2 → logged fl s0 d0 s2 d2.
Proof.
  intros (cs & Hc & He & Hl) (cs' & Hc' & He' & Hl'). exists (cs ++ cs').
  split_and!; [by rewrite Hc', Hc, app_assoc|auto|]. intros Hex Hun.
  destruct (Hl (He' Hex) Hun) as (Hr0 & Hu0 & Hs).
  destruct (Hl' Hex) as (Hr & Hu & Hs'); [by intros p Hp%Hun; apply Hs|].
  destruct (replay_ext (locate s1 fl) (locate s0 fl) cs' (files s1)) as [Er _]; [apply Hs|].
  destruct (replay_ext (locate s1 fl) (locate s0 fl) cs' (files s2)) as [_ Eu]; [apply Hs|].
  rewrite replay_app, undo_app, <- Hr0, <- Er, <- Hr, <- Eu, <- Hu.
  split_and!; [done..|by eapply same_links_trans].
Qed.

(** A step that gave up exactness says nothing more. *)
Lemma logged_inexact fl s0 d0 s1 cs : logged fl s0 d0 s1 (mkDelta (changes d0 ++ cs) false).
Proof. by exists cs. Qed.
Lemma logged_gave_up fl s0 d0 s1 : logged fl s0 d0 s1 (mkDelta (changes d0) false).
Proof. rewrite <- (app_nil_r (changes d0)). apply logged_inexact. Qed.

(** A step that changed no file. *)
Lemma logged_same fl s0 d0 s1 ex :
  (ex = true → exact d0 = true ∧ files s1 = files s0 ∧ same_links fl s0 s1) →
  logged fl s0 d0 s1 (mkDelta (changes d0) ex).
Proof.
  intros Hs. exists []. rewrite app_nil_r. simpl. split_and!; [done|by intros [? _]%Hs|].
  intros Hex _. destruct (Hs Hex) as (_ & Hf & ?). by rewrite Hf.
Qed.

(** The flag stays up only for plain paths. *)
Lemma note_exact s p fl ex :
  note_existing_path_delta_support s p fl ex = true → ex = true ∧ plain s p fl = true.
Proof. unfold note_existing_path_delta_support, plain. intros Hn. by repeat case_match. Qed.

Lemma read_optional_exact s p fl ex o ex' :
  read_optional_file_text_for_delta s p fl ex = (o, ex') → ex' = true →
  ex = true ∧ plain s p fl = true ∧ files s !! locate s fl p = o.
Proof.
  unfold read_optional_file_text_for_delta. intros Hr Hex.
  destruct (read_file_text s p fl) as [c|e] eqn:E.
  - injection Hr as <- Hn. rewrite Hex in Hn. apply note_exact in Hn as [-> Hp].
    by apply read_ok in E.
  - case_bool_decide; injection Hr as <- Hn; rewrite Hex in Hn; [|done].
    apply note_exact in Hn as [-> Hp]. split_and!; [done..|by eapply read_not_found].
Qed.

(** The second attempt of a write, in a state with the same files. *)
Lemma write_again s s1 p c fl s' :
  files s1 = files s → same_links fl s s1 → stays_plain fl s s1 → plain s1 p fl = true → unshared s fl p →
  write_file s1 p c fl = (s', Ok tt) →
  files s' = <[locate s fl p := c]> (files s) ∧ same_links fl s s' ∧ stays_plain fl s s'.
Proof.
  intros Hf Hl Hs Hp Hun Hw. apply write_ok in Hw as (Hf' & Hl' & Hs'); [|done|by apply Hl].
  rewrite Hf', Hf, (locate_same _ _ _ Hl). split_and!; [done|by eapply same_links_trans|].
  eapply stays_plain_trans; [done| |done..]. by rewrite Hf.
Qed.

(** A write that succeeded, at the first or the second attempt, wrote its file
    and left the regular files plain. *)
Lemma write_retry_ok s p c fl s' u :
  plain s p fl = true → unshared s fl p → write_file_with_missing_parent_retry s p c fl = (s', Ok u) →
  files s' = <[locate s fl p := c]> (files s) ∧ same_links fl s s' ∧ stays_plain fl s s'.
Proof.
  unfold write_file_with_missing_parent_retry. intros Hp Hun Hw.
  destruct (write_file s p c fl) as [s1 [[]|e]] eqn:E1; [simplify_eq; by apply write_ok in E1|].
  case_bool_decide as Hnf; [|done]. apply write_not_found in E1 as (Hf1 & Hl1 & Hs1 & Hp1); [|done..].
  destruct (path_parent p) as [parent|] eqn:Epar.
  - destruct (create_directory s1 parent fl) as [s2 [[]|e2]] eqn:E2; [|done].
    apply create_directory_files in E2 as (Hf2 & Hl2 & Hs2 & Hp2).
    destruct (write_file s2 p c fl) as [s3 [[]|e3]] eqn:E3; simplify_eq.
    eapply (write_again s s2); [congruence|by eapply same_links_trans| |auto|done|done].
    eapply stays_plain_trans; [done| |done..]. by rewrite Hf1.
  - destruct (write_file s1 p c fl) as [s3 [[]|e3]] eqn:E3; simplify_eq. by eapply (write_again s s1).
Qed.

(** A removal that failed and left the file readable changed nothing. *)
Lemma remove_failed_same s p fl s' e (content : option str) :
  plain s p fl = true → is_Some (files s !! locate s fl p) → remove s p fl = (s', Err e) →
  remove_failure_was_side_effect_free s' p content fl = true → files s' = files s ∧ same_links fl s s'.
Proof.
  intros Hp Hsome Hr Hfree. destruct content as [content|]; [|done]. simpl in Hfree.
  apply remove_err in Hr as (Hr & Hl & Hp'); [|done..]. split; [|done].
  destruct (read_file_text s' p fl) as [c|] eqn:E; [|done]. apply read_ok in E; [|done].
  destruct Hr as [?|Hr]; [done|]. by rewrite Hr, (locate_same _ _ _ Hl), lookup_delete_eq in E.
Qed.

(** The log entry of an addition. *)
Lemma logged_add fl s d s' p ex contents o :
  (ex = true → exact d = true) →
  (ex = true → all_unshared fl s → files s !! locate s fl p = o ∧
     files s' = <[locate s fl p := contents]> (files s) ∧ same_links fl s s') →
  logged fl s d s' (push_change d ex p (Add contents o)).
Proof.
  intros He Hs. exists [mkChange p (Add contents o)]. simpl. split_and!; [done|done|].
  intros Hex Hun. destruct (Hs Hex Hun) as (Ho & -> & Hl). split_and!; [done| |done]. symmetry.
  apply restore_lookup; [done|]. intros q Hq. by rewrite lookup_insert_ne.
Qed.

Lemma apply_add_logged opts s d p contents s' d' r :
  touched p → apply_add opts s d p contents = (s', d', r) → logged (follow_symlinks opts) s d s' d'.
Proof.
  unfold apply_add. intros Ht Ha.
  destruct (read_optional_file_text_for_delta s p _ (exact d)) as [o ex] eqn:Er.
  destruct (write_file_with_missing_parent_retry s p contents _) as [s1 [u|e]] eqn:Ew; simplify_eq.
  - apply logged_add; intros Hex; eapply read_optional_exact in Er as (? & Hp & ?); try done. intros Hun.
    by apply write_retry_ok in Ew as (? & ? & _); auto.
  - apply logged_gave_up.
Qed.

Lemma apply_delete_logged opts s d p s' d' r :
  apply_delete opts s d p = (s', d', r) → logged (follow_symlinks opts) s d s' d'.
Proof.
  unfold apply_delete. intros Ha.
  destruct (read_file_text s p (follow_symlinks opts)) as [c|e] eqn:Er; simpl in Ha.
  - destruct (ensure_not_directory s p _); simplify_eq.
    2:{ apply logged_same. intros [Hex _]%note_exact. split_and!; [done..|apply same_links_refl]. }
    assert (plain s p (follow_symlinks opts) = true → files s !! locate s (follow_symlinks opts) p = Some c) as Hc
      by (intros Hp; by apply read_ok in Er).
    destruct (remove s p (follow_symlinks opts)) as [s1 [[]|e]] eqn:Erm; simplify_eq.
    + exists [mkChange p (Delete c)]. simpl. split_and!; [done|by intros [? _]%note_exact|].
      intros [_ Hp]%note_exact _. apply remove_ok in Erm as [-> Hl]; [|done|by rewrite Hc].
      split_and!; [done| |done]. unfold undo, undo_change. simpl. by rewrite insert_delete_eq, insert_id by auto.
    + apply logged_same. intros [[Hex Hp]%note_exact Hfree]%andb_true_iff. split; [done|].
      eapply (remove_failed_same _ _ _ _ _ (Some c)); try done. by rewrite Hc.
  - destruct (ensure_not_directory s p _); simplify_eq; [|apply logged_gave_up].
    destruct (remove s p (follow_symlinks opts)) as [s1 [[]|e']]; simplify_eq; apply logged_gave_up.
Qed.

Lemma apply_move_logged opts s d ex p dest original new s' d' r :
  touched dest → (ex = true → exact d = true ∧ plain s p (follow_symlinks opts) = true ∧
     files s !! locate s (follow_symlinks opts) p = Some original) →
  apply_move opts s d ex p dest original new = (s', d', r) → logged (follow_symlinks opts) s d s' d'.
Proof.
  intros Ht Hsrc. unfold apply_move. intros Ha.
  destruct (read_optional_file_text_for_delta s dest _ ex) as [o ex'] eqn:Er.
  destruct (write_file_with_missing_parent_retry s dest new _) as [s1 [u|e]] eqn:Ew.
  2:{ simplify_eq. apply logged_gave_up. }
  set (fl := follow_symlinks opts) in *.
  assert (ex' = true → exact d = true) as He.
  { intros Hex. eapply read_optional_exact in Er as (Hex0 & _); [|done]. by apply Hsrc. }
  assert (ex' = true → all_unshared fl s → files s !! locate s fl p = Some original ∧
    plain s1 p fl = true ∧ files s !! locate s fl dest = o ∧
    files s1 = <[locate s fl dest := new]> (files s) ∧ same_links fl s s1) as Hall.
  { intros Hex Hun. eapply read_optional_exact in Er as (Hex0 & Hd & Ho); [|done].
    destruct (Hsrc Hex0) as (? & Hp & Hsome). apply write_retry_ok in Ew as (Hf & Hl & Hkeep); [|by auto..].
    split_and!; try done. apply Hkeep; [by rewrite Hsome|done]. }
  clear Hsrc Er Ew.
  assert (ex' = true → all_unshared fl s → is_Some (files s1 !! locate s1 fl p)) as Hthere.
  { intros Hex Hun. destruct (Hall Hex Hun) as (Hsome & _ & _ & -> & Hl). rewrite (locate_same _ _ _ Hl).
    rewrite lookup_insert_is_Some, Hsome. by destruct (decide (locate s fl dest = locate s fl p)); eauto. }
  assert (∀ s2 : S, (ex' = true → all_unshared fl s → files s2 = files s1 ∧ same_links fl s1 s2) →
    logged fl s d s2 (push_change d ex' dest (Add new o))) as Hadd.
  { intros s2 Hs2. apply logged_add; [done|]. intros Hex Hun. destruct (Hs2 Hex Hun) as [-> Hl2].
    destruct (Hall Hex Hun) as (_ & _ & ? & ? & Hl). split_and!; [done..|by eapply same_links_trans]. }
  destruct (ensure_not_directory s1 p _); simplify_eq.
  2:{ apply Hadd. intros _ _. split; [done|apply same_links_refl]. }
  destruct (remove s1 p fl) as [s2 [[]|e]] eqn:Erm; simplify_eq.
  - exists [mkChange p (Update (Some dest) original o new)]. simpl. split_and!; [done|naive_solver|].
    intros Hex Hun. destruct (Hall Hex Hun) as (Hsome & Hp & Ho & Hf & Hl).
    apply remove_ok in Erm as [-> Hl2]; [|by auto..]. rewrite (locate_same _ _ _ Hl), Hf. split_and!; [done| |by eapply same_links_trans].
    symmetry. by apply undo_rename.
  - destruct (exact _ && _) eqn:Eex.
    + apply andb_true_iff in Eex as [Hex Hfree]. simpl in Hex. subst ex'.
      apply Hadd. intros _ Hun. destruct (Hall eq_refl Hun) as (_ & Hp & _). eapply remove_failed_same in Hfree; eauto.
    + apply (logged_inexact fl s d s' [mkChange dest (Add new o)]).
Qed.

Lemma apply_update_logged opts cwd s d p mv chunks s' d' r :
  touched p → (∀ name dest, mv = Some name → path_join cwd name = Ok dest → touched dest) →
  apply_update opts cwd s d p mv chunks = (s', d', r) → logged (follow_symlinks opts) s d s' d'.
Proof.
  unfold apply_update. intros Ht Htd Ha. set (ex := note_existing_path_delta_support _ _ _ _) in Ha.
  assert (ex = true → exact d = true ∧ plain s p (follow_symlinks opts) = true) as Hex
    by apply note_exact.
  assert (logged (follow_symlinks opts) s d s (mkDelta (changes d) ex)) as Hsame.
  { apply logged_same. intros [? _]%Hex. split_and!; [done..|apply same_links_refl]. }
  destruct (derive_new_contents_from_chunks s p chunks _ _) as [[[original new]|e]|] eqn:Ed;
    [|by simplify_eq..].
  assert (ex = true → files s !! locate s (follow_symlinks opts) p = Some original) as Hp.
  { intros [_ Hp]%Hex. unfold derive_new_contents_from_chunks in Ed.
    destruct (read_file_text s p _) as [c|] eqn:Er; [|done]. apply read_ok in Er; [|done].
    destruct (new_contents c (native_path p) chunks _) as [[?|?]|]; by simplify_eq/=. }
  destruct mv as [dest|].
  - destruct (path_join cwd dest) eqn:Ej; simplify_eq; [|done]. eapply apply_move_logged; [by eapply Htd| |done]. naive_solver.
  - destruct (write_file s p new _) as [s1 [[]|e]] eqn:Ew; simplify_eq; [|apply logged_gave_up].
    exists [mkChange p (Update None original None new)]. simpl. split_and!; [done|naive_solver|].
    intros H1 Hun. apply write_ok in Ew as (-> & Hl & _); [|naive_solver|by apply Hun]. split_and!; [done| |done].
    unfold undo, undo_change. simpl. rewrite insert_insert_eq, insert_id; auto.
Qed.

(** The names a hunk gives to the files it reads, writes or removes. *)
Definition hunk_names (h : Hunk) : list str :=
  hunk_source_path h :: match h with UpdateFile _ (Some dest) _ => [dest] | _ => [] end.

Definition hunk_touches cwd (h : Hunk) : Prop :=
  ∀ name p, name ∈ hunk_names h → path_join cwd name = Ok p → touched p.

Lemma apply_hunk_logged opts cwd h s d s' d' r :
  hunk_touches cwd h →
  apply_hunk opts cwd h s d = (s', d', r) → logged (follow_symlinks opts) s d s' d'.
Proof.
  unfold apply_hunk, hunk_touches. intros Ht. destruct (path_join cwd (hunk_source_path h)) as [p|e] eqn:Ej.
  - assert (touched p) as Hp by (eapply Ht, Ej; left).
    destruct h; eauto using apply_add_logged, apply_delete_logged.
    apply apply_update_logged; [done|]. intros name dest -> Hd. eapply Ht, Hd. right. left.
  - intros; simplify_eq. apply logged_refl.
Qed.

Lemma apply_hunks_loop_logged opts cwd hs s d a s' d' r :
  Forall (hunk_touches cwd) hs →
  apply_hunks_loop opts cwd hs s d a = (s', d', r) → logged (follow_symlinks opts) s d s' d'.
Proof.
  intros Hhs. revert s d a. induction Hhs as [|h hs Hh Hhs IH]; intros s d a Ha; simplify_eq/=; [apply logged_refl|].
  destruct (apply_hunk opts cwd h s d) as [[s1 d1] [u|e]] eqn:Eh; simplify_eq; apply apply_hunk_logged in Eh; try done.
  apply IH in Ha. by eapply logged_trans.
Qed.

Lemma apply_hunks_to_files_logged opts cwd hs s d s' d' r :
  Forall (hunk_touches cwd) hs →
  apply_hunks_to_files opts cwd hs s d = (s', d', r) → logged (follow_symlinks opts) s d s' d'.
Proof.
  unfold apply_hunks_to_files. destruct hs; [intros; simplify_eq; apply logged_refl|].
  apply apply_hunks_loop_logged.
Qed.
End Log.

(** [p] is a path that a patch applied in [cwd] reads, writes or removes. *)
Definition touches (cwd : path) (patch : str) (p : path) : Prop :=
  ∃ args h name, parse_patch patch = Ok args ∧ h ∈ args_hunks args ∧ name ∈ hunk_names h ∧
    path_join cwd name = Ok p.

(** The delta an outcome carries, whether it succeeded or failed. *)
Definition out_delta (o : @outcome S path) : AppliedPatchDelta path :=
  match out_result o with Ok d => d | Err (_, d) => d end.

Lemma apply_patch_logged opts cwd patch s :
  logged (touches cwd patch) (follow_symlinks opts) s empty_delta (out_fs (apply_patch_with_options patch opts cwd s))
    (out_delta (apply_patch_with_options patch opts cwd s)).
Proof.
  unfold apply_patch_with_options. destruct (parse_patch patch) as [args|e] eqn:Ep; [|apply logged_refl].
  unfold apply_hunks_with_options, out_delta.
  destruct (apply_hunks_to_files opts cwd (args_hunks args) s empty_delta) as [[s1 d] r] eqn:E.
  apply (apply_hunks_to_files_logged (touches cwd patch)) in E.
  - destruct r as [a|[msg [io|]|]]; done.
  - apply Forall_forall. intros h Hh name p Hname Hp. by exists args, h, name.
Qed.

End Laws.

(** ** No panic *)

Section NoPanic.
Context {S path : Type} `{PathOps path} {FS : ExecutorFileSystem S path}.

Lemma write_retry_no_panic (s : S) (p : path) c fl s' e :
  write_file_with_missing_parent_retry s p c fl = (s', Err e) → e ≠ Panic.
Proof.
  unfold write_file_with_missing_parent_retry, with_context. intros Hw ->.
  by repeat (case_match; simplify_eq/=).
Qed.

Lemma apply_hunk_no_panic opts cwd h (s s' : S) (d d' : AppliedPatchDelta path) e :
  hunk_wf h → apply_hunk opts cwd h s d = (s', d', Err e) → e ≠ Panic.
Proof.
  intros Hwf. unfold apply_hunk. destruct (path_join cwd (hunk_source_path h)) as [p|m];
    [|by intros; simplify_eq].
  destruct h as [q c|q|q mv chunks]; intros Ha ->.
  - unfold apply_add in Ha. destruct (read_optional_file_text_for_delta _ _ _ _).
    destruct (write_file_with_missing_parent_retry _ _ _ _) as [s1 [u|e']] eqn:Ew; simplify_eq.
    by apply write_retry_no_panic in Ew.
  - unfold apply_delete, with_context in Ha. by repeat (case_match; simplify_eq/=).
  - unfold apply_update in Ha.
    assert (is_Some (derive_new_contents_from_chunks s p chunks (update_file_mode opts)
              (follow_symlinks opts))) as [r Hr].
    { unfold derive_new_contents_from_chunks. destruct (read_file_text _ _ _) as [c|]; [|eauto].
      destruct (new_contents_total c (native_path p) chunks (update_file_mode opts) Hwf) as [r ->].
      simpl. destruct r; eauto. }
    rewrite Hr in Ha. destruct r as [[original new]|e']; [|done].
    destruct mv as [dest|]; [|by repeat (case_match; simplify_eq/=)].
    destruct (path_join cwd dest); [|done]. unfold apply_move, with_context in Ha.
    destruct (read_optional_file_text_for_delta _ _ _ _).
    destruct (write_file_with_missing_parent_retry _ _ _ _) as [s1 [u|e']] eqn:Ew; simplify_eq;
      [|by apply write_retry_no_panic in Ew].
    by repeat (case_match; simplify_eq/=).
Qed.

Lemma apply_hunks_to_files_no_panic opts cwd hs (s s' : S) (d d' : AppliedPatchDelta path) e :
  Forall hunk_wf hs → apply_hunks_to_files opts cwd hs s d = (s', d', Err e) → e ≠ Panic.
Proof.
  intros Hwf. unfold apply_hunks_to_files. destruct hs as [|h0 hs0]; [by intros; simplify_eq|].
  revert Hwf. generalize (h0 :: hs0) as hs, (mkAffected [] [] []) as a. intros hs a Hwf.
  revert s d a. induction Hwf as [|h hs Hh Hhs IH]; intros s d a E; simplify_eq/=.
  destruct (apply_hunk opts cwd h s d) as [[s2 d2] [u|e']] eqn:Eh; [by eapply IH|].
  simplify_eq. by eapply apply_hunk_no_panic.
Qed.
End NoPanic.

(** ** An in-memory file system

    Paths are strings.  A path is a regular file, a symbolic link or nothing; a
    link that is followed is followed once.  Parent directories always exist,
    except that nothing can be below a regular file.  The directory [/link] is
    a link to [/real], so that a file below it has two paths; there are no hard
    links. *)
Module MemFs.
#[export] Instance paths : PathOps str := {
  path_join cwd p := Ok (cwd ++ p);
  path_parent _ := None;
  native_path p := p;
}.

Inductive entry : Type :=
  | File (text : str)
  | Link (target : str).

Definition text_of_entry (e : entry) : option str :=
  match e with File text => Some text | Link _ => None end.

Definition not_found : io_error := mkIo NotFound (lit "not found").
Definition not_a_directory : io_error := mkIo OtherKind (lit "not a directory").
Definition is_link : io_error := mkIo OtherKind (lit "symbolic link").

(** The path with the linked directory replaced. *)
Definition real_path (p : str) : str :=
  match strip_prefix (lit "/link/") p with Some rest => lit "/real/" ++ rest | None => p end.

(** A proper prefix of the path is a regular file. *)
Definition below_file (s : gmap str entry) (p : str) : bool :=
  existsb (λ n, match s !! take n p with Some (File _) => starts_with [chr "/"] (drop n p) | _ => false end)
    (seq 0 (length p)).

Definition absent (s : gmap str entry) (p : str) : io_error :=
  if below_file s p then not_a_directory else not_found.

#[export] Instance fs : ExecutorFileSystem (gmap str entry) str := {
  read_file_text s p follow :=
    match s !! real_path p with
    | Some (File text) => Ok text
    | Some (Link target) =>
        if follow then ok_or (s !! target ≫= text_of_entry) not_found else Err is_link
    | None => Err (absent s (real_path p))
    end;
  write_file s p c follow :=
    match s !! real_path p with
    | Some (File _) => (<[real_path p := File c]> s, Ok tt)
    | Some (Link target) =>
        if follow then (<[target := File c]> s, Ok tt) else (s, Err is_link)
    | None =>
        if below_file s (real_path p) then (s, Err not_a_directory)
        else (<[real_path p := File c]> s, Ok tt)
    end;
  create_directory s _ _ := (s, Ok tt);
  get_metadata s p _ :=
    match s !! real_path p with
    | Some (File _) => Ok (mkMeta false true false)
    | Some (Link _) => Ok (mkMeta false true true)
    | None => Err (absent s (real_path p))
    end;
  remove s p _ :=
    match s !! real_path p with
    | Some _ => (delete (real_path p) s, Ok tt)
    | None => (s, Err (absent s (real_path p)))
    end;
}.

Lemma plain_insert (s : gmap str entry) p q c fl :
  is_Some (s !! real_path q) → plain s q fl = true → plain (<[p := File c]> s) q fl = true.
Proof.
  unfold plain, get_metadata. simpl. destruct (decide (real_path q = p)) as [->|Hq];
    [by rewrite lookup_insert_eq|rewrite lookup_insert_ne by done]. by intros [[] ->].
Qed.

(** No law speaks of a path that is a link, which can be located anywhere. *)
#[export] Instance view : FileSystemView (gmap str entry) str := {|
  location := str; locate _ _ p := real_path p; files s := omap text_of_entry s; unshared _ _ _ := True;
|}.

#[export] Instance laws : FileSystemLaws (gmap str entry) str.
Proof.
  split; intros *; try intros Hp.
  - revert Hp. unfold plain. cbn. rewrite lookup_omap.
    destruct (s !! real_path p) as [[]|]; intros; by simplify_eq/=.
  - revert Hp. unfold plain. cbn. rewrite lookup_omap.
    destruct (s !! real_path p) as [[]|]; intros; by simplify_eq/=.
  - intros _ Hw. assert (s' = <[real_path p := File c]> s) as ->.
    { revert Hp Hw. unfold plain. cbn. destruct (s !! real_path p) as [[]|]; [by intros; simplify_eq/=..|].
      intros _. by destruct (below_file _ _); intros; simplify_eq. }
    split_and!; [by apply (omap_insert_Some text_of_entry)|done|]. intros q Hq. cbn in Hq. apply plain_insert.
    rewrite lookup_omap in Hq. destruct (s !! real_path q); [done|by destruct Hq].
  - revert Hp. unfold plain, write_file. cbn. destruct (s !! real_path p) as [[]|]; [by intros; simplify_eq/=..|].
    intros _. destruct (below_file _ _); intros; by simplify_eq/=.
  - cbn in Hp. simplify_eq. split_and!; [done|done|by intros q ?|by intros q ?].
  - cbn. case_match; intros; simplify_eq. split; [by rewrite omap_delete|done].
  - cbn. rewrite lookup_omap. destruct (s !! real_path p); [by intros; simplify_eq|by intros []].
Defined.
End MemFs.

(** ** Properties *)

Section Properties.
Context {S path : Type} `{PathOps path} {FS : ExecutorFileSystem S path} {V : FileSystemView S path}
  {L : FileSystemLaws S path}.

(** C1: an exact delta is a faithful log of the application.  Whatever the
    patch and whether it succeeded or failed half way, if the delta returned
    is flagged exact and no file the patch touches has a second hard link, then
    replaying its changes on the initial files gives the files on disk, and
    undoing them in reverse order from the files on disk gives the initial
    files.  The paths of the changes stand for the places they lead to, which
    the application has not changed. *)
Theorem apply_patch_delta_exact opts cwd patch (s : S) :
  let o := apply_patch_with_options patch opts cwd s in
  let fl := follow_symlinks opts in
  exact (out_delta o) = true →
  (∀ p, touches cwd patch p → unshared s fl p) →
  files (out_fs o) = replay (locate s fl) (changes (out_delta o)) (files s) ∧
  files s = undo (locate s fl) (changes (out_delta o)) (files (out_fs o)) ∧
  ∀ p, locate (out_fs o) fl p = locate s fl p.
Proof using Type*.
  intros o fl Hex Hun. destruct (apply_patch_logged opts cwd patch s) as (cs & Hc & _ & Hl).
  fold o fl in Hc, Hl. simpl in Hc. rewrite Hc. destruct (Hl Hex Hun) as (? & ? & ? & _). by split_and!.
Qed.

(** A successful application reports every hunk.  When
    [apply_hunks_to_files] succeeds, the added, modified and deleted paths it
    returns are those of the add, update and delete hunks of the patch, in
    order, a rename being reported under its destination; and it fails on an
    empty patch. *)
Theorem apply_hunks_affected opts cwd hs (s s' : S) (d d' : AppliedPatchDelta path) a :
  apply_hunks_to_files opts cwd hs s d = (s', d', Ok a) →
  hs ≠ [] ∧
  added a = omap (λ h, match h with AddFile p _ => Some p | _ => None end) hs ∧
  modified a = omap (λ h, match h with UpdateFile _ _ _ => Some (hunk_path h) | _ => None end) hs ∧
  deleted a = omap (λ h, match h with DeleteFile p => Some p | _ => None end) hs.
Proof.
  intros Ha. unfold apply_hunks_to_files in Ha. destruct hs as [|h0 hs0]; [done|].
  split; [done|]. revert Ha. generalize (h0 :: hs0) as hs. intros hs Ha.
  assert (added a = added (mkAffected [] [] []) ++
      omap (λ h, match h with AddFile p _ => Some p | _ => None end) hs ∧
    modified a = modified (mkAffected [] [] []) ++
      omap (λ h, match h with UpdateFile _ _ _ => Some (hunk_path h) | _ => None end) hs ∧
    deleted a = deleted (mkAffected [] [] []) ++
      omap (λ h, match h with DeleteFile p => Some p | _ => None end) hs) as Hgen; [|done].
  revert s d Ha. generalize (mkAffected [] [] []) as a0.
  induction hs as [|h hs IH]; intros a0 s d Ha; simplify_eq/=; [by rewrite !app_nil_r|].
  destruct (apply_hunk opts cwd h s d) as [[s1 d1] [u|e]]; [|done].
  apply IH in Ha as (-> & -> & ->). by destruct h; simpl; rewrite <- ?app_assoc.
Qed.

(** Applying a patch never panics: whatever the patch text and the file
    system, the outcome is a delta or a failure that carries an error. *)
Theorem apply_patch_never_panics opts cwd patch (s : S) :
  ∀ d, out_result (apply_patch_with_options patch opts cwd s) ≠ Err (None, d).
Proof.
  intros d. unfold apply_patch_with_options.
  destruct (parse_patch patch) as [args|e] eqn:Ep; [|done].
  apply parse_patch_text_wf in Ep as [Hwf _]. unfold apply_hunks_with_options.
  destruct (apply_hunks_to_files opts cwd (args_hunks args) s empty_delta) as [[s1 d1] r] eqn:E.
  destruct r as [a|e]; [done|]. apply apply_hunks_to_files_no_panic in E; [|done].
  by destruct e as [msg [io|]|].
Qed.
End Properties.

Import MemFs.

(** A patch that adds a file and renames another. *)
Definition mem_patch : str :=
  join [LF] [lit "*** Begin Patch"; lit "*** Add File: new"; lit "+n";
    lit "*** Update File: a"; lit "*** Move to: b"; lit "@@"; lit "-x"; lit "+y"; lit "*** End Patch"].
Definition mem_files : gmap str entry := {[lit "/real/a" := File (ln (lit "x"))]}.

Lemma apply_patch_delta_exact_witness :
  let o := apply_patch_with_options mem_patch default_options (lit "/link/") mem_files in
  changes (out_delta o) =
    [mkChange (lit "/link/new") (Add (ln (lit "n")) None);
     mkChange (lit "/link/a") (Update (Some (lit "/link/b")) (ln (lit "x")) None (ln (lit "y")))] ∧
  files (out_fs o) = replay real_path (changes (out_delta o)) (files mem_files) ∧
  files mem_files = undo real_path (changes (out_delta o)) (files (out_fs o)) ∧
  ∀ p, locate (out_fs o) true p = locate mem_files true p.
Proof.
  intros o. split; [vm_compute; reflexivity|].
  apply (apply_patch_delta_exact (L := MemFs.laws) default_options (lit "/link/") mem_patch mem_files).
  - vm_compute. reflexivity.
  - done.
Defined.

Lemma apply_hunks_affected_witness :
  added (mkAffected [lit "new"] [] [lit "a"]) = [lit "new"] ∧
  deleted (mkAffected [lit "new"] [] [lit "a"]) = [lit "a"].
Proof.
  destruct (apply_hunks_affected (S := gmap str entry) (path := str) default_options (lit "/real/")
    [AddFile (lit "new") []; DeleteFile (lit "a")] mem_files
    (<[lit "/real/new" := File []]> ∅) empty_delta
    (mkDelta [mkChange (lit "/real/new") (Add [] None); mkChange (lit "/real/a") (Delete (ln (lit "x")))] true)
    (mkAffected [lit "new"] [] [lit "a"])) as (_ & Ha & _ & Hd).
  - vm_compute. reflexivity.
  - split; [exact Ha|exact Hd].
Defined.

(** Writing through a symbolic link is not recorded as exact: the file that
    changed is the target of the link. *)
Example link_is_inexact :
  let s : gmap str entry := {[lit "/a" := Link (lit "/t"); lit "/t" := File (ln (lit "x"))]} in
  let o := apply_patch_with_options (join [LF] [lit "*** Begin Patch"; lit "*** Update File: a"; lit "@@";
    lit "-x"; lit "+y"; lit "*** End Patch"]) default_options (lit "/") s in
  exact (out_delta o) = false ∧ out_fs o !! lit "/t" = Some (File (ln (lit "y"))).
Proof. split; vm_compute; reflexivity. Qed.

(** A rename onto the file itself loses the file: the new contents are written
    to the destination and then the source, the same file, is removed.  The
    application reports success. *)
Theorem move_onto_itself_deletes_file :
  let patch := join [LF] [lit "*** Begin Patch"; lit "*** Update File: a"; lit "*** Move to: a"; lit "@@";
    lit "-x"; lit "+y"; lit "*** End Patch"] in
  let o := apply_patch_with_options patch default_options (lit "/real/") mem_files in
  is_ok (out_result o) = true ∧ out_fs o !! lit "/real/a" = None.
Proof. split; vm_compute; reflexivity. Qed.
