(* ===== verification/ExecRule.v ===== *)
(** * Rules of the execution policy ([execpolicy/src/rule.rs], [decision.rs], [error.rs])

    A prefix rule matches a command by its leading tokens; a network rule
    names a host.  [normalize_network_rule_host] is the one place where a host
    is turned into the form the network proxy compares. *)
From stdpp Require Import numbers strings.
From S2P Require Import Prelude RustStr.

(** ** Decisions *)

(** The order of the constructors is the order of [max]. *)
Inductive Decision : Type := Allow | Prompt | Forbidden.

#[global] Instance Decision_eq_dec : EqDecision Decision.
Proof. solve_decision. Defined.

Definition decision_rank (d : Decision) : nat :=
  match d with Allow => 0 | Prompt => 1 | Forbidden => 2 end.
Definition decision_le (a b : Decision) : Prop := decision_rank a ≤ decision_rank b.
(** [Ord::max] on decisions. *)
Definition decision_max (a b : Decision) : Decision :=
  if bool_decide (decision_rank a ≤ decision_rank b) then b else a.

#[global] Instance decision_le_dec : RelDecision decision_le.
Proof. intros a b. unfold decision_le. apply _. Defined.

(** ** Errors *)

Record ErrorLocation : Type := mkLocation {
  loc_path : str;
  loc_start : nat * nat;
  loc_end : nat * nat;
}.

Inductive Error : Type :=
  | InvalidDecision (message : str)
  | InvalidPattern (message : str)
  | InvalidExample (message : str)
  | InvalidRule (message : str)
  | ExampleDidNotMatch (rules examples : list str) (location : option ErrorLocation)
  | ExampleDidMatch (rule example : str) (location : option ErrorLocation)
  (** [Starlark]: an error of the evaluator, or one a builtin returned to it. *)
  | Starlark (message : str)
  | StarlarkBuiltin (source : Error).

(** [Error::with_location]: an error keeps the first location it was given. *)
Definition with_location (e : Error) (location : ErrorLocation) : Error :=
  match e with
  | ExampleDidNotMatch rules examples None => ExampleDidNotMatch rules examples (Some location)
  | ExampleDidMatch rule example None => ExampleDidMatch rule example (Some location)
  | other => other
  end.

(** [Decision::parse]. *)
Definition decision_parse (raw : str) : result Error Decision :=
  if str_eqb raw (lit "allow") then Ok Allow
  else if str_eqb raw (lit "prompt") then Ok Prompt
  else if str_eqb raw (lit "forbidden") then Ok Forbidden
  else Err (InvalidDecision raw).

(** ** Prefix rules *)

Inductive PatternToken : Type :=
  | Single (expected : str)
  | Alts (alternatives : list str).

(** [PatternToken::matches]. *)
Definition token_matches (t : PatternToken) (token : str) : bool :=
  match t with
  | Single expected => str_eqb expected token
  | Alts alternatives => existsb (λ alt, str_eqb alt token) alternatives
  end.

(** [PatternToken::alternatives]. *)
Definition token_alternatives (t : PatternToken) : list str :=
  match t with Single expected => [expected] | Alts alternatives => alternatives end.

Record PrefixPattern : Type := mkPattern { first : str; rest : list PatternToken }.

(** The loop over [self.rest.iter().zip(&cmd[1..pattern_length])]. *)
Fixpoint tokens_match (pattern : list PatternToken) (tokens : list str) : bool :=
  match pattern, tokens with
  | t :: pattern', token :: tokens' => token_matches t token && tokens_match pattern' tokens'
  | _, _ => true
  end.

(** [PrefixPattern::matches_prefix]. *)
Definition matches_prefix (p : PrefixPattern) (cmd : list str) : option (list str) :=
  let pattern_length := S (length (rest p)) in
  match cmd with
  | [] => None
  | c :: args =>
      if bool_decide (length cmd < pattern_length) || negb (str_eqb c (first p)) then None
      else if tokens_match (rest p) (take (length (rest p)) args)
      then Some (take pattern_length cmd)
      else None
  end.

Record PrefixRule : Type := mkRule {
  pattern : PrefixPattern;
  rule_decision : Decision;
  justification : option str;
}.

(** [RuleMatch]; [resolved_program] is an [AbsolutePathBuf]. *)
Inductive RuleMatch (path : Type) : Type :=
  | PrefixRuleMatch (matched_prefix : list str) (decision : Decision)
      (resolved_program : option path) (justification : option str)
  | HeuristicsRuleMatch (command : list str) (decision : Decision).
Arguments PrefixRuleMatch {path} _ _ _ _.
Arguments HeuristicsRuleMatch {path} _ _.

(** [RuleMatch::decision]. *)
Definition match_decision {path} (m : RuleMatch path) : Decision :=
  match m with PrefixRuleMatch _ d _ _ => d | HeuristicsRuleMatch _ d => d end.

(** [RuleMatch::with_resolved_program]. *)
Definition with_resolved_program {path} (m : RuleMatch path) (p : path) : RuleMatch path :=
  match m with
  | PrefixRuleMatch matched d _ j => PrefixRuleMatch matched d (Some p) j
  | other => other
  end.

(** [Rule::program] and [Rule::matches] of [PrefixRule], the only rule type. *)
Definition rule_program (r : PrefixRule) : str := first (pattern r).
Definition rule_matches {path} (r : PrefixRule) (cmd : list str) : option (RuleMatch path) :=
  (λ matched, PrefixRuleMatch matched (rule_decision r) None (justification r))
    <$> matches_prefix (pattern r) cmd.

(** ** Network rules *)

Inductive NetworkRuleProtocol : Type := Http | Https | Socks5Tcp | Socks5Udp.

(** [NetworkRuleProtocol::parse]. *)
Definition protocol_parse (raw : str) : result Error NetworkRuleProtocol :=
  if str_eqb raw (lit "http") then Ok Http
  else if str_eqb raw (lit "https") || str_eqb raw (lit "https_connect")
          || str_eqb raw (lit "http-connect") then Ok Https
  else if str_eqb raw (lit "socks5_tcp") then Ok Socks5Tcp
  else if str_eqb raw (lit "socks5_udp") then Ok Socks5Udp
  else Err (InvalidRule
    (lit "network_rule protocol must be one of http, https, socks5_tcp, socks5_udp (got " ++ raw ++ lit ")")).

(** [NetworkRuleProtocol::as_policy_string]. *)
Definition as_policy_string (p : NetworkRuleProtocol) : str :=
  match p with
  | Http => lit "http" | Https => lit "https"
  | Socks5Tcp => lit "socks5_tcp" | Socks5Udp => lit "socks5_udp"
  end.

Record NetworkRule : Type := mkNetworkRule {
  host : str;
  protocol : NetworkRuleProtocol;
  network_decision : Decision;
  network_justification : option str;
}.

Definition msg_host_empty : str := lit "network_rule host cannot be empty".
Definition msg_host_scheme : str :=
  lit "network_rule host must be a hostname or IP literal (without scheme or path)".
Definition msg_host_bracket : str := lit "network_rule host has an invalid bracketed IPv6 literal".
Definition msg_host_suffix (raw : str) : str :=
  lit "network_rule host contains an unsupported suffix: " ++ raw.
Definition msg_host_wildcard : str :=
  lit "network_rule host must be a specific host; wildcards are not allowed".
Definition msg_host_whitespace : str := lit "network_rule host cannot contain whitespace".

(** [!s.is_empty() && s.chars().all(|c| c.is_ascii_digit())]. *)
Definition is_port (s : str) : bool := negb (bool_decide (s = [])) && forallb is_ascii_digit s.

(** The brackets and the port are removed here. *)
Definition strip_port (raw host : str) : result Error str :=
  match strip_prefix [chr "["] host with
  | Some stripped =>
      match split_once (chr "]") stripped with
      | None => Err (InvalidRule msg_host_bracket)
      | Some (inside, rest) =>
          let port_ok := match strip_prefix [chr ":"] rest with Some port => is_port port | None => false end in
          if negb (bool_decide (rest = [])) && negb port_ok
          then Err (InvalidRule (msg_host_suffix raw))
          else Ok inside
      end
  | None =>
      if bool_decide (length (filter (λ c, c = chr ":") host) = 1) then
        match rsplit_once (chr ":") host with
        | Some (candidate, port) =>
            if negb (bool_decide (candidate = [])) && is_port port then Ok candidate else Ok host
        | None => Ok host
        end
      else Ok host
  end.

(** [normalize_network_rule_host]. *)
Definition normalize_network_rule_host (raw : str) : result Error str :=
  let host := trim raw in
  if bool_decide (host = []) then Err (InvalidRule msg_host_empty)
  else if contains (lit "://") host || contains_char (chr "/") host || contains_char (chr "?") host
          || contains_char (chr "#") host then Err (InvalidRule msg_host_scheme)
  else
    let? host := strip_port raw host in
    let normalized := to_ascii_lowercase (trim (trim_end_matches (N.eqb (chr ".")) host)) in
    if bool_decide (normalized = []) then Err (InvalidRule msg_host_empty)
    else if contains_char (chr "*") normalized then Err (InvalidRule msg_host_wildcard)
    else if existsb is_whitespace normalized then Err (InvalidRule msg_host_whitespace)
    else Ok normalized.

(** ** Facts *)

Lemma decision_max_l a b : decision_le a (decision_max a b).
Proof. unfold decision_le, decision_max. case_bool_decide; lia. Qed.
Lemma decision_max_r a b : decision_le b (decision_max a b).
Proof. unfold decision_le, decision_max. case_bool_decide; lia. Qed.
Lemma decision_max_either a b : decision_max a b = a ∨ decision_max a b = b.
Proof. unfold decision_max. case_bool_decide; auto. Qed.

#[global] Instance decision_le_po : PartialOrder decision_le.
Proof.
  unfold decision_le. split; [split|].
  - intros a. done.
  - intros a b c. lia.
  - intros a b. destruct a, b; simpl; (lia || done).
Qed.

Lemma tokens_match_Forall2 ts tokens :
  length ts = length tokens →
  tokens_match ts tokens = true ↔ Forall2 (λ t token, token_matches t token = true) ts tokens.
Proof.
  revert tokens. induction ts as [|t ts IH]; intros [|token tokens] Hlen; simplify_eq/=.
  - split; [constructor|done].
  - rewrite andb_true_iff, IH by done. split; [intros [? ?]; by constructor|by inversion_clear 1].
Qed.

(** A prefix rule matches exactly the commands that start with its program
    followed by one token per pattern element. *)
Lemma matches_prefix_spec p cmd matched :
  matches_prefix p cmd = Some matched ↔
  ∃ tokens args, cmd = first p :: tokens ++ args ∧ matched = first p :: tokens ∧
    Forall2 (λ t token, token_matches t token = true) (rest p) tokens.
Proof.
  unfold matches_prefix. destruct cmd as [|c args]; [split; [done|naive_solver]|].
  destruct (bool_decide (length (c :: args) < S (length (rest p)))) eqn:El; simpl; reflect_bools.
  { split; [done|]. intros (tokens & args' & [= -> ->] & _ & Hf%Forall2_length).
    simpl in El. rewrite length_app in El. lia. }
  destruct (str_eqb c (first p)) eqn:Ec; simpl.
  2:{ apply str_eqb_neq in Ec. split; [done|]. intros (? & ? & [= -> _] & _). done. }
  apply str_eqb_eq in Ec as ->. simpl in El.
  assert (length (rest p) = length (take (length (rest p)) args)) as Hlen
    by (rewrite length_take; lia).
  destruct (tokens_match _ _) eqn:Em; split.
  - intros [= <-]. exists (take (length (rest p)) args), (drop (length (rest p)) args).
    rewrite take_drop. split_and!; [done..|]. by apply tokens_match_Forall2.
  - intros (tokens & args' & [= ->] & -> & Hf). apply Forall2_length in Hf as Hl.
    by rewrite Hl, take_app_length.
  - done.
  - intros (tokens & args' & [= ->] & -> & Hf). apply Forall2_length in Hf as Hl.
    rewrite Hl, take_app_length in Em. apply tokens_match_Forall2 in Hf; [congruence|done].
Qed.

(** Lower-case text contains no upper-case ASCII letter. *)
Definition lowercase_char (c : char) : Prop := char_to_ascii_lowercase c = c.

Lemma to_ascii_lowercase_lower s : Forall lowercase_char (to_ascii_lowercase s).
Proof.
  unfold to_ascii_lowercase, lowercase_char. rewrite Forall_fmap. apply Forall_true. intros c. simpl.
  unfold char_to_ascii_lowercase.
  destruct ((65 <=? c) && (c <=? 90))%N eqn:E; [|by rewrite E].
  destruct ((65 <=? c + 32) && (c + 32 <=? 90))%N eqn:E'; [|done].
  apply andb_true_iff in E as [?%N.leb_le ?%N.leb_le].
  apply andb_true_iff in E' as [?%N.leb_le ?%N.leb_le]. lia.
Qed.
