(* ===== verification/ExecPolicy.v ===== *)
(** * The execution policy ([execpolicy/src/policy.rs])

    A policy maps program names to prefix rules, keeps a list of network rules
    and the absolute paths that may stand for a program name.  [check] returns
    the strictest decision among the rules that match a command, or the
    decision of a fallback when none does. *)
From stdpp Require Import numbers strings gmap.
From S2P Require Import Prelude RustStr ExecRule.

(** [AbsolutePathBuf]: parsing a string as an absolute path, the file name of a
    path, and the lookup key of that name ([executable_name.rs]; the identity
    on Unix). *)
Class HostPaths (path : Type) : Type := {
  host_path_eq_dec :: EqDecision path;
  absolute_path : str → option path;
  file_name : path → option str;
  executable_lookup_key : str → str;
}.

(** [executable_path_lookup_key]. *)
Definition executable_path_lookup_key `{HostPaths path} (p : path) : option str :=
  executable_lookup_key <$> file_name p.

(** A [MultiMap<String, RuleRef>]: each key has its rules in insertion order. *)
Abbreviation rule_map := (gmap str (list PrefixRule)).

Definition multimap_insert (m : rule_map) (k : str) (r : PrefixRule) : rule_map :=
  <[k := default [] (m !! k) ++ [r]]> m.
(** [get_vec(k)], with no rules for an absent key. *)
Definition rules_for (m : rule_map) (k : str) : list PrefixRule := default [] (m !! k).

Record Policy (path : Type) : Type := mkPolicy {
  rules_by_program : rule_map;
  network_rules : list NetworkRule;
  host_executables_by_name : gmap str (list path);
}.
Arguments mkPolicy {path} _ _ _.
Arguments rules_by_program {path} _.
Arguments network_rules {path} _.
Arguments host_executables_by_name {path} _.

Record Evaluation (path : Type) : Type := mkEvaluation {
  decision : Decision;
  matched_rules : list (RuleMatch path);
}.
Arguments mkEvaluation {path} _ _.
Arguments decision {path} _.
Arguments matched_rules {path} _.

(** [entries.retain(|entry| entry != host); entries.push(host)]. *)
Definition retain_ne (h : str) (entries : list str) : list str := filter (λ e, e ≠ h) entries.
Definition upsert_domain (entries : list str) (h : str) : list str := retain_ne h entries ++ [h].

(** The loop body of [compiled_network_domains]. *)
Definition compile_domain (acc : list str * list str) (r : NetworkRule) : list str * list str :=
  let '(allowed, denied) := acc in
  match network_decision r with
  | Allow => (upsert_domain allowed (host r), retain_ne (host r) denied)
  | Forbidden => (retain_ne (host r) allowed, upsert_domain denied (host r))
  | Prompt => (allowed, denied)
  end.

(** [render_pattern_token]. *)
Definition render_pattern_token (t : PatternToken) : str :=
  match t with
  | Single value => value
  | Alts alternatives => lit "[" ++ join (lit "|") alternatives ++ lit "]"
  end.

Section Policy.
Context {path : Type} `{HP : HostPaths path}.
Implicit Types (pol : Policy path) (cmd : list str).

(** [Policy::empty]. *)
Definition empty_policy : Policy path := mkPolicy ∅ [] ∅.

(** [Policy::add_prefix_rule]. *)
Definition add_prefix_rule pol (prefix : list str) (d : Decision) : result Error (Policy path) :=
  match prefix with
  | [] => Err (InvalidPattern (lit "prefix cannot be empty"))
  | first_token :: rest =>
      let rule := mkRule (mkPattern first_token (Single <$> rest)) d None in
      Ok (mkPolicy (multimap_insert (rules_by_program pol) first_token rule)
            (network_rules pol) (host_executables_by_name pol))
  end.

(** [Policy::add_network_rule]. *)
Definition add_network_rule pol (h : str) (p : NetworkRuleProtocol) (d : Decision)
    (j : option str) : result Error (Policy path) :=
  let? h := normalize_network_rule_host h in
  match j with
  | Some raw =>
      if bool_decide (trim raw = [])
      then Err (InvalidRule (lit "justification cannot be empty"))
      else Ok (mkPolicy (rules_by_program pol) (network_rules pol ++ [mkNetworkRule h p d j])
                 (host_executables_by_name pol))
  | None => Ok (mkPolicy (rules_by_program pol) (network_rules pol ++ [mkNetworkRule h p d j])
                  (host_executables_by_name pol))
  end.

(** [Policy::set_host_executable_paths]. *)
Definition set_host_executable_paths pol (name : str) (paths : list path) : Policy path :=
  mkPolicy (rules_by_program pol) (network_rules pol)
    (<[name := paths]> (host_executables_by_name pol)).

(** [Policy::merge_overlay]: the rules of a program follow those it already
    had; a host executable of the overlay replaces the base's. *)
Definition merge_overlay pol (overlay : Policy path) : Policy path :=
  mkPolicy
    (map_fold (λ program rules m, foldl (λ m r, multimap_insert m program r) m rules)
       (rules_by_program pol) (rules_by_program overlay))
    (network_rules pol ++ network_rules overlay)
    (host_executables_by_name overlay ∪ host_executables_by_name pol).

(** [Policy::compiled_network_domains]. *)
Definition compiled_network_domains pol : list str * list str :=
  foldl compile_domain ([], []) (network_rules pol).

(** [match_exact_rules]: [None] on an empty command. *)
Definition match_exact_rules pol cmd : option (list (RuleMatch path)) :=
  match cmd with
  | [] => None
  | first :: _ => Some (omap (λ r, rule_matches r cmd) (rules_for (rules_by_program pol) first))
  end.

(** [match_host_executable_rules]. *)
Definition match_host_executable_rules pol cmd : list (RuleMatch path) :=
  match cmd with
  | [] => []
  | first :: args =>
      match absolute_path first with
      | None => []
      | Some program =>
          match executable_path_lookup_key program with
          | None => []
          | Some basename =>
              match rules_by_program pol !! basename with
              | None => []
              | Some rules =>
                  let refused := match host_executables_by_name pol !! basename with
                                 | Some paths => negb (existsb (λ p, bool_decide (p = program)) paths)
                                 | None => false
                                 end in
                  if refused then []
                  else (λ m, with_resolved_program m program) <$>
                         omap (λ r, rule_matches r (basename :: args)) rules
              end
          end
      end
  end.

(** The rules that match, before the fallback. *)
Definition matched_rules_of pol cmd (resolve_host_executables : bool) : list (RuleMatch path) :=
  match match_exact_rules pol cmd with
  | Some (m :: ms) => m :: ms
  | _ => if resolve_host_executables then match_host_executable_rules pol cmd else []
  end.

(** [matches_for_command_with_options]. *)
Definition matches_for_command_with_options pol cmd
    (heuristics_fallback : option (list str → Decision)) (resolve_host_executables : bool)
  : list (RuleMatch path) :=
  match matched_rules_of pol cmd resolve_host_executables, heuristics_fallback with
  | [], Some fallback => [HeuristicsRuleMatch cmd (fallback cmd)]
  | matched, _ => matched
  end.

(** [iter().map(decision).max()]. *)
Definition max_decision (ms : list (RuleMatch path)) : option Decision :=
  match ms with
  | [] => None
  | m :: ms' => Some (foldl (λ d m, decision_max d (match_decision m)) (match_decision m) ms')
  end.

(** [Evaluation::from_matches]; [None] is the panic of [expect]. *)
Definition from_matches (ms : list (RuleMatch path)) : option (Evaluation path) :=
  (λ d, mkEvaluation d ms) <$> max_decision ms.

(** [Evaluation::is_match]. *)
Definition is_match (e : Evaluation path) : bool :=
  existsb (λ m, match m with HeuristicsRuleMatch _ _ => false | _ => true end) (matched_rules e).

(** [Policy::check_with_options]; [Policy::check] is its instance without
    host executables. *)
Definition check_with_options pol cmd (fallback : list str → Decision) (resolve : bool)
  : option (Evaluation path) :=
  from_matches (matches_for_command_with_options pol cmd (Some fallback) resolve).
Definition check pol cmd (fallback : list str → Decision) : option (Evaluation path) :=
  check_with_options pol cmd fallback false.

(** [Policy::check_multiple_with_options]. *)
Definition check_multiple_with_options pol (commands : list (list str))
    (fallback : list str → Decision) (resolve : bool) : option (Evaluation path) :=
  from_matches (commands ≫= λ cmd,
    matches_for_command_with_options pol cmd (Some fallback) resolve).
End Policy.
Arguments empty_policy {path}.

(** [Policy::get_allowed_prefixes]. *)

(** [Ord] on vectors of strings. *)
Definition prefix_cmp : list str → list str → comparison := lex str_cmp.

Fixpoint insert_prefix (p : list str) (l : list (list str)) : list (list str) :=
  match l with
  | [] => [p]
  | q :: l' => match prefix_cmp p q with Gt => q :: insert_prefix p l' | _ => p :: l end
  end.
(** [Vec::sort]. *)
Definition sort_prefixes (l : list (list str)) : list (list str) := foldr insert_prefix [] l.
(** [Vec::dedup]. *)
Fixpoint dedup (l : list (list str)) : list (list str) :=
  match l with
  | [] => []
  | [x] => [x]
  | x :: ((y :: _) as l') => if bool_decide (x = y) then dedup l' else x :: dedup l'
  end.

Definition allowed_prefix (r : PrefixRule) : option (list str) :=
  match rule_decision r with
  | Allow => Some (first (pattern r) :: (render_pattern_token <$> rest (pattern r)))
  | _ => None
  end.

Definition get_allowed_prefixes {path} (pol : Policy path) : list (list str) :=
  dedup (sort_prefixes (map_to_list (rules_by_program pol) ≫= λ kv, omap allowed_prefix kv.2)).
