(* ===== verification/ExecPolicyProofs.v ===== *)
(** * Properties of the execution policy

    The decision of a policy is the strictest of the rules that match, no
    overlay can relax a rule that matches, several commands are judged by the
    strictest of them, and the compiled network domains follow the last
    decision taken for each host. *)
From stdpp Require Import numbers strings gmap.
From S2P Require Import Prelude RustStr ExecRule ExecPolicy.

(** ** Decisions *)

Section Facts.
Context {path : Type} `{HP : HostPaths path}.
Implicit Types (pol overlay : Policy path) (cmd : list str) (ms : list (RuleMatch path)).

(** [d] is the strictest decision of [ms]. *)
Definition strictest (ms : list (RuleMatch path)) (d : Decision) : Prop :=
  (∃ m, m ∈ ms ∧ match_decision m = d) ∧ ∀ m, m ∈ ms → decision_le (match_decision m) d.

Lemma foldl_decision_max ms d :
  let r := foldl (λ d m, decision_max d (match_decision m)) d ms in
  decision_le d r ∧ (∀ m, m ∈ ms → decision_le (match_decision m) r) ∧
  (r = d ∨ ∃ m, m ∈ ms ∧ match_decision m = r).
Proof.
  revert d. induction ms as [|m ms IH]; intros d; simpl; [split_and!; [done|set_solver|auto]|].
  destruct (IH (decision_max d (match_decision m))) as (Hd & Hms & Hr). split_and!.
  - etrans; [apply decision_max_l|done].
  - intros m' [->|Hm']%elem_of_cons; [|auto]. etrans; [apply decision_max_r|done].
  - destruct Hr as [->|(m' & ? & ?)]; [|set_solver].
    destruct (decision_max_either d (match_decision m)) as [->|Hm]; [auto|].
    right. exists m. rewrite Hm. set_solver.
Qed.

Lemma max_decision_strictest ms d : max_decision ms = Some d → strictest ms d.
Proof.
  destruct ms as [|m ms]; [done|]. intros [= <-].
  destruct (foldl_decision_max ms (match_decision m)) as (Hd & Hms & Hr). split.
  - destruct Hr as [->|(m' & ? & ?)]; set_solver.
  - intros m' [->|Hm']%elem_of_cons; auto.
Qed.

Lemma strictest_unique ms d d' : strictest ms d → strictest ms d' → d = d'.
Proof.
  intros [(m & Hm & <-) Hd] [(m' & Hm' & <-) Hd']. apply (anti_symm decision_le); auto.
Qed.

Lemma strictest_mono ms ms' d d' :
  strictest ms d → strictest ms' d' → ms ⊆ ms' → decision_le d d'.
Proof. intros [(m & Hm & <-) _] [_ Hd'] Hsub. auto. Qed.

Lemma from_matches_Some ms : ms ≠ [] → ∃ d, from_matches ms = Some (mkEvaluation d ms) ∧ strictest ms d.
Proof.
  intros Hne. destruct (max_decision ms) as [d|] eqn:E; [|by destruct ms].
  exists d. split; [unfold from_matches; by rewrite E|by apply max_decision_strictest].
Qed.

Lemma matches_with_fallback pol cmd f resolve :
  matches_for_command_with_options pol cmd (Some f) resolve ≠ [].
Proof. unfold matches_for_command_with_options. by destruct (matched_rules_of _ _ _). Qed.

(** ** Overlays *)

Lemma rules_for_insert m k k' r :
  rules_for (multimap_insert m k r) k' = rules_for m k' ++ (if decide (k = k') then [r] else []).
Proof.
  unfold rules_for, multimap_insert. rewrite lookup_insert. case_decide as Hk; simpl; subst; [done|].
  by rewrite app_nil_r.
Qed.

Lemma rules_for_insert_all m k k' rs :
  rules_for (foldl (λ m r, multimap_insert m k r) m rs) k' =
  rules_for m k' ++ (if decide (k = k') then rs else []).
Proof.
  revert m. induction rs as [|r rs IH]; intros m; simpl.
  - by case_decide; rewrite app_nil_r.
  - rewrite IH, rules_for_insert. by case_decide; simpl; rewrite <- app_assoc.
Qed.

(** The rules of a program after a merge: the base's, then the overlay's. *)
Lemma rules_for_merge pol overlay k :
  rules_for (rules_by_program (merge_overlay pol overlay)) k =
  rules_for (rules_by_program pol) k ++ rules_for (rules_by_program overlay) k.
Proof.
  simpl. generalize (rules_by_program overlay) as o.
  apply (map_fold_weak_ind (λ m (o : rule_map),
    rules_for m k = rules_for (rules_by_program pol) k ++ rules_for o k)).
  - unfold rules_for at 3. by rewrite lookup_empty, app_nil_r.
  - intros program rules o m Hnone IH. rewrite rules_for_insert_all, IH, <- app_assoc. f_equal.
    unfold rules_for. rewrite lookup_insert. case_decide as Hk; subst; simpl.
    + by rewrite Hnone.
    + by rewrite app_nil_r.
Qed.

(** The exact matches of a command. *)
Definition exact_matches pol cmd : list (RuleMatch path) :=
  match cmd with
  | [] => []
  | first :: _ => omap (λ r, rule_matches r cmd) (rules_for (rules_by_program pol) first)
  end.

Lemma exact_matches_merge pol overlay cmd :
  exact_matches (merge_overlay pol overlay) cmd = exact_matches pol cmd ++ exact_matches overlay cmd.
Proof. destruct cmd as [|c cmd]; [done|]. unfold exact_matches. by rewrite rules_for_merge, omap_app. Qed.

Lemma matches_exact pol cmd f resolve :
  exact_matches pol cmd ≠ [] →
  matches_for_command_with_options pol cmd f resolve = exact_matches pol cmd.
Proof.
  unfold matches_for_command_with_options, matched_rules_of, match_exact_rules, exact_matches.
  destruct cmd as [|c cmd]; [done|]. by destruct (omap _ _).
Qed.

Lemma rule_in_exact_matches pol first args r matched :
  r ∈ rules_for (rules_by_program pol) first →
  matches_prefix (pattern r) (first :: args) = Some matched →
  PrefixRuleMatch matched (rule_decision r) None (justification r) ∈ exact_matches pol (first :: args).
Proof.
  intros Hr Hm. unfold exact_matches. apply list_elem_of_omap. exists r. split; [done|].
  unfold rule_matches. by rewrite Hm.
Qed.
End Facts.

(** ** Network domains *)

(** The last decision other than [Prompt] taken for [h]. *)
Definition last_decision (h : str) (rules : list NetworkRule) : option Decision :=
  network_decision <$>
    last (filter (λ r, host r = h ∧ network_decision r ≠ Prompt) rules).

Lemma elem_of_retain_ne h e l : e ∈ retain_ne h l ↔ e ≠ h ∧ e ∈ l.
Proof. unfold retain_ne. by rewrite list_elem_of_filter. Qed.

Lemma elem_of_upsert h e l : e ∈ upsert_domain l h ↔ e = h ∨ e ∈ l.
Proof.
  unfold upsert_domain. rewrite elem_of_app, elem_of_retain_ne, list_elem_of_singleton.
  destruct (decide (e = h)); naive_solver.
Qed.

Lemma NoDup_upsert h l : NoDup l → NoDup (upsert_domain l h).
Proof.
  intros Hl. unfold upsert_domain. apply NoDup_app. split_and!.
  - by apply NoDup_filter.
  - intros x [? ?]%elem_of_retain_ne. set_solver.
  - apply NoDup_singleton.
Qed.

Lemma last_decision_snoc h rules r :
  last_decision h (rules ++ [r]) =
  if decide (host r = h ∧ network_decision r ≠ Prompt) then Some (network_decision r)
  else last_decision h rules.
Proof.
  unfold last_decision. rewrite filter_app, filter_cons, filter_nil.
  case_decide; [by rewrite last_snoc|by rewrite app_nil_r].
Qed.

Lemma compiled_domains_spec rules allowed denied :
  foldl compile_domain ([], []) rules = (allowed, denied) →
  NoDup allowed ∧ NoDup denied ∧
  ∀ h, (h ∈ allowed ↔ last_decision h rules = Some Allow) ∧
       (h ∈ denied ↔ last_decision h rules = Some Forbidden).
Proof.
  revert allowed denied. induction rules as [|r rules IH] using rev_ind; intros allowed denied.
  { intros [= <- <-]. split_and!; [constructor..|]. intros h. set_solver. }
  rewrite foldl_app. simpl. destruct (foldl compile_domain ([], []) rules) as [al de].
  destruct (IH al de eq_refl) as (Ha & Hd & Hh). clear IH. unfold compile_domain.
  destruct (network_decision r) eqn:Ed; intros [= <- <-]; (split_and!;
    [first [by apply NoDup_upsert|by apply NoDup_filter|done]
    |first [by apply NoDup_upsert|by apply NoDup_filter|done]|]);
    intros h; rewrite last_decision_snoc, ?Ed; specialize (Hh h);
    rewrite ?elem_of_upsert, ?elem_of_retain_ne;
    case_decide as Hc; destruct (decide (h = host r)) as [->|]; naive_solver.
Qed.

(** ** Properties *)

Section Properties.
Context {path : Type} `{HP : HostPaths path}.
Implicit Types (pol overlay : Policy path) (cmd : list str).

(** C12: a check always yields a decision, and it is the strictest one among
    the rules that match; when no rule matches it is the decision of the
    fallback, reported as such. *)
Theorem check_strictest pol cmd fallback resolve :
  ∃ e, check_with_options pol cmd fallback resolve = Some e ∧
    strictest (matched_rules e) (decision e) ∧
    match matched_rules_of pol cmd resolve with
    | [] => decision e = fallback cmd ∧ is_match e = false
    | ms => matched_rules e = ms
    end.
Proof.
  destruct (from_matches_Some _ (matches_with_fallback pol cmd fallback resolve)) as (d & Hd & Hs).
  exists (mkEvaluation d (matches_for_command_with_options pol cmd (Some fallback) resolve)).
  split; [done|]. split; [done|]. simpl. unfold matches_for_command_with_options, is_match in *.
  destruct (matched_rules_of pol cmd resolve) as [|m ms]; [|done]. simpl. split; [|done].
  eapply strictest_unique; [done|]. split; [eexists; split; [apply list_elem_of_here|done]|].
  intros m [->|Hm]%elem_of_cons; [done|set_solver].
Qed.

(** No overlay relaxes a rule.  If a rule of the base policy or of the
    overlay matches the command, the merged policy's decision is at least as
    strict as that rule's; in particular a forbidden prefix stays forbidden
    whatever is merged with it. *)
Theorem merge_overlay_never_relaxes pol overlay first args r matched fallback resolve :
  r ∈ rules_for (rules_by_program pol) first ∨ r ∈ rules_for (rules_by_program overlay) first →
  matches_prefix (pattern r) (first :: args) = Some matched →
  ∃ e, check_with_options (merge_overlay pol overlay) (first :: args) fallback resolve = Some e ∧
    decision_le (rule_decision r) (decision e).
Proof.
  intros Hr Hm.
  destruct (from_matches_Some _ (matches_with_fallback (merge_overlay pol overlay)
    (first :: args) fallback resolve)) as (d & Hd & Hs).
  assert (PrefixRuleMatch matched (rule_decision r) None (justification r)
    ∈ exact_matches (merge_overlay pol overlay) (first :: args)) as Hin.
  { rewrite exact_matches_merge, elem_of_app.
    destruct Hr; [left|right]; by apply rule_in_exact_matches. }
  eexists. split; [exact Hd|]. destruct Hs as [_ Hs]. simpl.
  rewrite matches_exact in Hs by (intros Hnil; rewrite Hnil in Hin; set_solver).
  by apply Hs in Hin.
Qed.

(** several commands are judged together by the strictest of them:
    [check_multiple] succeeds on every non-empty list, its decision is the
    maximum of the decisions of the commands checked alone; on an empty list
    it panics. *)
Theorem check_multiple_strictest pol (cmds : list (list str)) fallback resolve :
  match check_multiple_with_options pol cmds fallback resolve with
  | None => cmds = []
  | Some e =>
      (∀ cmd, cmd ∈ cmds → ∃ e1, check_with_options pol cmd fallback resolve = Some e1 ∧
         decision_le (decision e1) (decision e)) ∧
      ∃ cmd e1, cmd ∈ cmds ∧ check_with_options pol cmd fallback resolve = Some e1 ∧
         decision e1 = decision e
  end.
Proof.
  unfold check_multiple_with_options, check_with_options.
  set (f := λ cmd, matches_for_command_with_options pol cmd (Some fallback) resolve).
  destruct (from_matches (cmds ≫= f)) as [e|] eqn:E.
  - assert (cmds ≫= f ≠ []) as Hne by (intros Hn; rewrite Hn in E; done).
    destruct (from_matches_Some _ Hne) as (d & Hd & Hs). rewrite E in Hd. simplify_eq. simpl.
    assert (∀ cmd, cmd ∈ cmds → ∃ e1, from_matches (f cmd) = Some e1 ∧
      strictest (f cmd) (decision e1) ∧ f cmd ⊆ cmds ≫= f) as Hone.
    { intros cmd Hcmd. destruct (from_matches_Some _ (matches_with_fallback pol cmd fallback resolve))
        as (d1 & Hd1 & Hs1). eexists. split_and!; [exact Hd1|exact Hs1|].
      intros m Hm. apply list_elem_of_bind. eauto. }
    split.
    + intros cmd Hcmd. destruct (Hone cmd Hcmd) as (e1 & He1 & Hs1 & Hsub).
      exists e1. split; [done|]. by eapply strictest_mono.
    + destruct Hs as [(m & (cmd & Hm & Hcmd)%list_elem_of_bind & <-) Hmax].
      destruct (Hone cmd Hcmd) as (e1 & He1 & Hs1 & Hsub). exists cmd, e1. split_and!; [done..|].
      destruct Hs1 as [(m1 & Hm1 & Hd1) Hmax1]. apply (anti_symm decision_le); [|auto].
      rewrite <- Hd1. auto.
  - destruct cmds as [|cmd cmds]; [done|]. exfalso. unfold from_matches in E.
    assert (f cmd ≠ []) as Hne by apply matches_with_fallback. simpl in E.
    by destruct (f cmd).
Qed.

(** the compiled network domains follow the last decision.  A host is
    allowed (denied) exactly when the last rule about it that is not a prompt
    allows (forbids) it, so no host is in both lists, and neither list
    repeats a host. *)
Theorem compiled_network_domains_last pol allowed denied :
  compiled_network_domains pol = (allowed, denied) →
  NoDup allowed ∧ NoDup denied ∧
  ∀ h, (h ∈ allowed ↔ last_decision h (network_rules pol) = Some Allow) ∧
       (h ∈ denied ↔ last_decision h (network_rules pol) = Some Forbidden).
Proof. apply compiled_domains_spec. Qed.

(** A program path stands for a rule only if it is listed.  When a
    command has no exact match and its policy lists host executables for the
    basename of its program, a rule can match it through that basename only
    if the program is one of the listed paths. *)
Theorem host_executable_listed pol program_text args program basename paths m :
  absolute_path program_text = Some program →
  executable_path_lookup_key program = Some basename →
  host_executables_by_name pol !! basename = Some paths →
  exact_matches pol (program_text :: args) = [] →
  m ∈ matched_rules_of pol (program_text :: args) true →
  program ∈ paths ∧
  ∃ r matched, r ∈ rules_for (rules_by_program pol) basename ∧
    matches_prefix (pattern r) (basename :: args) = Some matched ∧
    m = PrefixRuleMatch matched (rule_decision r) (Some program) (justification r).
Proof.
  intros Hp Hb Hl Hex Hm. unfold matched_rules_of, match_exact_rules, exact_matches in *.
  rewrite Hex in Hm. unfold match_host_executable_rules in Hm. rewrite Hp, Hb, Hl in Hm.
  destruct (rules_by_program pol !! basename) as [rules|] eqn:Er; [|set_solver].
  destruct (existsb _ paths) eqn:Ee; simpl in Hm; [|set_solver]. split.
  - apply existsb_exists in Ee as (q & Hq%list_elem_of_In & Heq). reflect_bools. by subst.
  - apply list_elem_of_fmap in Hm as (m0 & -> & (r & Hr & Hrm)%list_elem_of_omap).
    unfold rule_matches in Hrm. destruct (matches_prefix (pattern r) (basename :: args)) as [mt|] eqn:Em;
      simplify_eq/=. exists r, mt. unfold rules_for. rewrite Er. done.
Qed.

(** an added prefix is honoured.  After [add_prefix_rule] with decision
    [d], every command that starts with that prefix is matched by the new
    rule, so its decision is at least as strict as [d]; and it is exactly
    [d] if no earlier rule of the program matches it. *)
Theorem add_prefix_rule_honoured pol (prefix args : list str) d pol' fallback resolve :
  add_prefix_rule pol prefix d = Ok pol' →
  ∃ e, check_with_options pol' (prefix ++ args) fallback resolve = Some e ∧
    decision_le d (decision e) ∧
    (exact_matches pol (prefix ++ args) = [] → decision e = d).
Proof.
  intros Ha. destruct prefix as [|c prefix]; simplify_eq/=.
  set (r := mkRule (mkPattern c (Single <$> prefix)) d None).
  set (pol' := mkPolicy _ _ _).
  destruct (from_matches_Some _ (matches_with_fallback pol' (c :: prefix ++ args) fallback resolve))
    as (d' & Hd & Hs).
  assert (matches_prefix (pattern r) (c :: prefix ++ args) = Some (c :: prefix)) as Hm.
  { apply matches_prefix_spec. exists prefix, args. split_and!; [done..|]. simpl.
    clear. induction prefix as [|x prefix IH]; simpl; constructor; [apply str_eqb_refl|done]. }
  assert (exact_matches pol' (c :: prefix ++ args) =
    exact_matches pol (c :: prefix ++ args) ++ [PrefixRuleMatch (c :: prefix) d None None]) as Hex.
  { unfold exact_matches, pol'. simpl. rewrite rules_for_insert, decide_True by done.
    rewrite omap_app. simpl. unfold rule_matches at 2. by rewrite Hm. }
  assert (exact_matches pol' (c :: prefix ++ args) ≠ []) as Hne
    by (rewrite Hex; by destruct (exact_matches pol _)).
  eexists. split; [exact Hd|]. cbn [decision]. rewrite (matches_exact _ _ _ _ Hne), Hex in Hs.
  split.
  - destruct Hs as [_ Hs]. by apply (Hs (PrefixRuleMatch (c :: prefix) d None None)); set_solver.
  - intros Hnil. change (exact_matches pol (c :: prefix ++ args) = []) in Hnil. rewrite Hnil in Hs. destruct Hs as [(m & Hm' & <-) _]. set_solver.
Qed.
End Properties.

(** ** Witnesses *)

(** Unix paths as text: absolute when they start with a slash. *)
Definition UnixPaths : HostPaths str := {|
  host_path_eq_dec := _;
  absolute_path s := if starts_with (lit "/") s then Some s else None;
  file_name p := snd <$> rsplit_once (chr "/") p;
  executable_lookup_key s := s;
|}.
#[local] Existing Instance UnixPaths.

Definition git_rule (d : Decision) : PrefixRule :=
  mkRule (mkPattern (lit "git") [Alts [lit "push"; lit "fetch"]]) d None.
Definition git_policy (d : Decision) : Policy str :=
  mkPolicy {[ lit "git" := [git_rule d] ]} [] {[ lit "git" := [lit "/usr/bin/git"] ]}.

Lemma merge_overlay_never_relaxes_witness :
  ∃ e, check_with_options (merge_overlay (git_policy Forbidden) (git_policy Allow))
         [lit "git"; lit "push"; lit "-f"] (λ _, Allow) false = Some e ∧
    decision_le Forbidden (decision e).
Proof.
  apply (merge_overlay_never_relaxes (git_policy Forbidden) (git_policy Allow) (lit "git")
    [lit "push"; lit "-f"] (git_rule Forbidden) [lit "git"; lit "push"] (λ _, Allow) false).
  - left. vm_compute. left.
  - reflexivity.
Defined.

Definition two_domains : list NetworkRule :=
  [mkNetworkRule (lit "a.b") Https Allow None; mkNetworkRule (lit "c.d") Https Allow None;
   mkNetworkRule (lit "a.b") Http Forbidden None; mkNetworkRule (lit "c.d") Http Prompt None].

Lemma compiled_network_domains_last_witness :
  NoDup [lit "c.d"] ∧ NoDup [lit "a.b"] ∧
  ∀ h, (h ∈ [lit "c.d"] ↔ last_decision h two_domains = Some Allow) ∧
       (h ∈ [lit "a.b"] ↔ last_decision h two_domains = Some Forbidden).
Proof.
  apply (compiled_network_domains_last (mkPolicy (path := str) ∅ two_domains ∅)). vm_compute. reflexivity.
Defined.

Lemma host_executable_listed_witness :
  lit "/usr/bin/git" ∈ [lit "/usr/bin/git"] ∧
  ∃ r matched, r ∈ rules_for (rules_by_program (git_policy Prompt)) (lit "git") ∧
    matches_prefix (pattern r) [lit "git"; lit "push"] = Some matched ∧
    PrefixRuleMatch [lit "git"; lit "push"] Prompt (Some (lit "/usr/bin/git")) None =
    PrefixRuleMatch matched (rule_decision r) (Some (lit "/usr/bin/git")) (justification r).
Proof.
  apply (host_executable_listed (git_policy Prompt) (lit "/usr/bin/git") [lit "push"]
    (lit "/usr/bin/git") (lit "git")); [reflexivity..|vm_compute; reflexivity|].
  vm_compute. left.
Defined.

Lemma add_prefix_rule_honoured_witness :
  ∃ pol', add_prefix_rule (git_policy Prompt) [lit "cargo"; lit "test"] Allow = Ok pol' ∧
  ∃ e, check_with_options pol' [lit "cargo"; lit "test"; lit "-q"] (λ _, Forbidden) true = Some e ∧
    decision_le Allow (decision e) ∧
    (exact_matches (git_policy Prompt) [lit "cargo"; lit "test"; lit "-q"] = [] → decision e = Allow).
Proof.
  eexists. split; [reflexivity|].
  by apply (add_prefix_rule_honoured (git_policy Prompt) [lit "cargo"; lit "test"] [lit "-q"]).
Defined.
