(* ===== verification/ExecPolicyBuilder.v ===== *)
(** * Building a policy from rule files ([execpolicy/src/parser.rs])

    A rule file is a Starlark program whose builtins [prefix_rule],
    [network_rule] and [host_executable] update a builder.  The examples of a
    [prefix_rule] call are checked once the whole file has been evaluated,
    because a later [host_executable] call may change what they match. *)
From stdpp Require Import numbers strings gmap.
From S2P Require Import Prelude RustStr ExecRule ExecPolicy ExecPolicyProofs.

(** What the builder uses of the crates around it: [shlex], the Starlark
    evaluator, the [Debug] text of rules, and [std::path] on names. *)
Class BuilderEnv (path : Type) `{HostPaths path} : Type := {
  shlex_split : str → option (list str);
  shlex_try_join : list str → option str;
  debug_rule : PrefixRule → str;
  debug_match : RuleMatch path → str;
  path_is_absolute : str → bool;
  absolute_path_error : str → str;
  path_component_count : str → nat;
  path_file_name : str → option str;
}.

(** A Starlark value as the builtins see it. *)
Inductive Value : Type :=
  | VStr (s : str)
  | VList (items : list Value)
  | VOther (type_name : str).

(** [Value::get_type]. *)
Definition get_type (v : Value) : str :=
  match v with VStr _ => lit "string" | VList _ => lit "list" | VOther t => t end.
(** [Value::unpack_str]. *)
Definition unpack_str (v : Value) : option str := match v with VStr s => Some s | _ => None end.

(** A call of a builtin, its arguments unpacked.  [location] is the call's
    source location, where the evaluator has one. *)
Inductive BuiltinCall : Type :=
  | PrefixRuleCall (pattern : list Value) (decision : option str) (matches not_matches : option (list Value))
      (justification : option str) (location : option ErrorLocation)
  | NetworkRuleCall (host protocol decision : str) (justification : option str)
  | HostExecutableCall (name : str) (paths : list Value).

(** A file's evaluation: the calls it makes in order, and the evaluator's own
    error that ends it, if any.  The builtins return [None] whatever the
    builder holds, so the calls depend on the file alone. *)
Record Evaluated : Type := mkEvaluated { calls : list BuiltinCall; eval_error : option str }.

(** [PendingExampleValidation]. *)
Record PendingExampleValidation : Type := mkPending {
  pending_rules : list PrefixRule;
  pending_matches : list (list str);
  pending_not_matches : list (list str);
  pending_location : option ErrorLocation;
}.

(** [PolicyBuilder]: the parts of a policy and the pending validations. *)
Record PolicyBuilder (path : Type) : Type := mkBuilder {
  parts : Policy path;
  pending_example_validations : list PendingExampleValidation;
}.
Arguments mkBuilder {path} _ _.
Arguments parts {path} _.
Arguments pending_example_validations {path} _.

(** ** Arguments *)

Definition must_be_strings (err : str → Error) (values : list Value) : result Error (list str) :=
  map_result (λ v, ok_or (unpack_str v) (err (get_type v))) values.

(** [parse_pattern_token]. *)
Definition parse_pattern_token (v : Value) : result Error PatternToken :=
  match v with
  | VStr s => Ok (Single s)
  | VList items =>
      let? tokens := must_be_strings (λ t, InvalidPattern
        (lit "pattern alternative must be a string (got " ++ t ++ lit ")")) items in
      match tokens with
      | [] => Err (InvalidPattern (lit "pattern alternatives cannot be empty"))
      | [single] => Ok (Single single)
      | _ => Ok (Alts tokens)
      end
  | VOther t => Err (InvalidPattern
      (lit "pattern element must be a string or list of strings (got " ++ t ++ lit ")"))
  end.

(** [parse_pattern]. *)
Definition parse_pattern (pattern : list Value) : result Error (list PatternToken) :=
  let? tokens := map_result parse_pattern_token pattern in
  if bool_decide (length tokens = 0) then Err (InvalidPattern (lit "pattern cannot be empty"))
  else Ok tokens.

(** [parse_network_rule_decision]. *)
Definition parse_network_rule_decision (raw : str) : result Error Decision :=
  if str_eqb raw (lit "deny") then Ok Forbidden else decision_parse raw.

(** The check of [justification] the builtins share. *)
Definition parse_justification (j : option str) : result Error (option str) :=
  match j with
  | Some raw => if bool_decide (trim raw = [])
                then Err (InvalidRule (lit "justification cannot be empty")) else Ok (Some raw)
  | None => Ok None
  end.

(** [attach_validation_location]. *)
Definition attach_validation_location (e : Error) (location : option ErrorLocation) : Error :=
  match location with Some l => with_location e l | None => e end.

Section Builder.
Context {path : Type} `{HP : HostPaths path} `{BE : !BuilderEnv path}.
Implicit Types (b : PolicyBuilder path) (pol : Policy path).

(** [parse_string_example], [parse_list_example], [parse_example]. *)
Definition parse_string_example (raw : str) : result Error (list str) :=
  let? tokens := ok_or (shlex_split raw)
                   (InvalidExample (lit "example string has invalid shell syntax")) in
  if bool_decide (length tokens = 0)
  then Err (InvalidExample (lit "example cannot be an empty string")) else Ok tokens.
Definition parse_list_example (items : list Value) : result Error (list str) :=
  let? tokens := must_be_strings (λ t, InvalidExample
    (lit "example tokens must be strings (got " ++ t ++ lit ")")) items in
  if bool_decide (length tokens = 0)
  then Err (InvalidExample (lit "example cannot be an empty list")) else Ok tokens.
Definition parse_example (v : Value) : result Error (list str) :=
  match v with
  | VStr raw => parse_string_example raw
  | VList items => parse_list_example items
  | VOther t => Err (InvalidExample
      (lit "example must be a string or list of strings (got " ++ t ++ lit ")"))
  end.

(** [parse_examples]; [parse_optional_examples] is
    [map(parse_examples).transpose()?.unwrap_or_default()]. *)
Definition parse_examples (examples : list Value) : result Error (list (list str)) :=
  map_result parse_example examples.
Definition parse_optional_examples (examples : option (list Value)) : result Error (list (list str)) :=
  match examples with Some l => parse_examples l | None => Ok [] end.

(** [parse_literal_absolute_path]. *)
Definition parse_literal_absolute_path (raw : str) : result Error path :=
  if negb (path_is_absolute raw)
  then Err (InvalidRule (lit "host_executable paths must be absolute (got " ++ raw ++ lit ")"))
  else ok_or (absolute_path raw)
         (InvalidRule (lit "invalid absolute path `" ++ raw ++ lit "`: " ++ absolute_path_error raw)).

(** [validate_host_executable_name]. *)
Definition validate_host_executable_name (name : str) : result Error unit :=
  if bool_decide (name = []) then Err (InvalidRule (lit "host_executable name cannot be empty"))
  else if negb (bool_decide (path_component_count name = 1))
          || negb (bool_decide (path_file_name name = Some name))
  then Err (InvalidRule (lit "host_executable name must be a bare executable name (got " ++ name ++ lit ")"))
  else Ok tt.

(** ** The builder *)

Definition new_builder : PolicyBuilder path := mkBuilder empty_policy [].

Definition insert_rule (m : rule_map) (r : PrefixRule) : rule_map :=
  multimap_insert m (rule_program r) r.

(** [PolicyBuilder::add_rule]. *)
Definition add_rule b (r : PrefixRule) : PolicyBuilder path :=
  mkBuilder (mkPolicy (insert_rule (rules_by_program (parts b)) r)
               (network_rules (parts b)) (host_executables_by_name (parts b)))
    (pending_example_validations b).
(** [PolicyBuilder::add_network_rule]. *)
Definition builder_add_network_rule b (r : NetworkRule) : PolicyBuilder path :=
  mkBuilder (mkPolicy (rules_by_program (parts b)) (network_rules (parts b) ++ [r])
               (host_executables_by_name (parts b)))
    (pending_example_validations b).
(** [PolicyBuilder::add_host_executable]. *)
Definition add_host_executable b (name : str) (paths : list path) : PolicyBuilder path :=
  mkBuilder (set_host_executable_paths (parts b) name paths) (pending_example_validations b).
(** [PolicyBuilder::add_pending_example_validation]. *)
Definition add_pending_example_validation b (v : PendingExampleValidation) : PolicyBuilder path :=
  mkBuilder (parts b) (pending_example_validations b ++ [v]).

(** ** The builtins *)

(** The rules of a [prefix_rule] call: one for each alternative of the
    first token. *)
Definition expand_rules (tokens : list PatternToken) (d : Decision) (j : option str)
  : result Error (list PrefixRule) :=
  match tokens with
  | [] => Err (InvalidPattern (lit "pattern cannot be empty"))
  | first_token :: rest =>
      Ok ((λ head, mkRule (mkPattern head rest) d j) <$> token_alternatives first_token)
  end.

(** [prefix_rule], up to its update of the builder. *)
Definition prefix_rule_pending (pattern : list Value) (decision : option str)
    (matches not_matches : option (list Value)) (j : option str) (location : option ErrorLocation)
  : result Error PendingExampleValidation :=
  let? d := match decision with Some raw => decision_parse raw | None => Ok Allow end in
  let? j := parse_justification j in
  let? tokens := parse_pattern pattern in
  let? ms := parse_optional_examples matches in
  let? nms := parse_optional_examples not_matches in
  let? rules := expand_rules tokens d j in
  Ok (mkPending rules ms nms location).

(** [prefix_rule]. *)
Definition prefix_rule b (pattern : list Value) (decision : option str)
    (matches not_matches : option (list Value)) (j : option str) (location : option ErrorLocation)
  : result Error (PolicyBuilder path) :=
  let? v := prefix_rule_pending pattern decision matches not_matches j location in
  Ok (foldl add_rule (add_pending_example_validation b v) (pending_rules v)).

(** [network_rule]. *)
Definition network_rule b (h p d : str) (j : option str) : result Error (PolicyBuilder path) :=
  let? p := protocol_parse p in
  let? d := parse_network_rule_decision d in
  let? j := parse_justification j in
  let? h := normalize_network_rule_host h in
  Ok (builder_add_network_rule b (mkNetworkRule h p d j)).

(** One iteration over the paths of [host_executable]. *)
Definition host_executable_path (name : str) (parsed : list path) (v : Value) : result Error (list path) :=
  let? raw := ok_or (unpack_str v)
                (InvalidRule (lit "host_executable paths must be strings (got " ++ get_type v ++ lit ")")) in
  let? p := parse_literal_absolute_path raw in
  let mismatch := InvalidRule (lit "host_executable path `" ++ raw ++ lit "` must have basename `"
                               ++ name ++ lit "`") in
  let? path_name := ok_or (executable_path_lookup_key p) mismatch in
  if negb (str_eqb path_name (executable_lookup_key name)) then Err mismatch
  else if existsb (λ existing, bool_decide (existing = p)) parsed then Ok parsed
  else Ok (parsed ++ [p]).
Fixpoint host_executable_paths (name : str) (parsed : list path) (values : list Value)
  : result Error (list path) :=
  match values with
  | [] => Ok parsed
  | v :: values' => let? parsed := host_executable_path name parsed v in
                    host_executable_paths name parsed values'
  end.

(** [host_executable]. *)
Definition host_executable b (name : str) (paths : list Value) : result Error (PolicyBuilder path) :=
  let? _ := validate_host_executable_name name in
  let? parsed := host_executable_paths name [] paths in
  Ok (add_host_executable b (executable_lookup_key name) parsed).

Definition run_call b (c : BuiltinCall) : result Error (PolicyBuilder path) :=
  match c with
  | PrefixRuleCall pattern decision ms nms j location => prefix_rule b pattern decision ms nms j location
  | NetworkRuleCall h p d j => network_rule b h p d j
  | HostExecutableCall name paths => host_executable b name paths
  end.

(** The evaluation of a module's calls: a failing builtin ends it, and what
    the calls before it did to the builder stays. *)
Fixpoint run_calls b (cs : list BuiltinCall) (error : option str) : PolicyBuilder path * result Error unit :=
  match cs with
  | [] => (b, match error with Some e => Err (Starlark e) | None => Ok tt end)
  | c :: cs' => match run_call b c with
                | Ok b' => run_calls b' cs' error
                | Err e => (b, Err (StarlarkBuiltin e))
                end
  end.

(** ** Examples *)

Definition render_example (example : list str) : str :=
  default (lit "unable to render example") (shlex_try_join example).

(** [validate_match_examples]. *)
Definition validate_match_examples pol (rules : list PrefixRule) (matches : list (list str))
  : result Error unit :=
  let unmatched := render_example <$>
    filter (λ example, matches_for_command_with_options pol example None true = []) matches in
  if bool_decide (length unmatched = 0) then Ok tt
  else Err (ExampleDidNotMatch (debug_rule <$> rules) unmatched None).

(** [validate_not_match_examples]. *)
Fixpoint validate_not_match_examples pol (not_matches : list (list str)) : result Error unit :=
  match not_matches with
  | [] => Ok tt
  | example :: not_matches' =>
      match matches_for_command_with_options pol example None true with
      | m :: _ => Err (ExampleDidMatch (debug_match m) (render_example example) None)
      | [] => validate_not_match_examples pol not_matches'
      end
  end.

(** The policy a validation is checked against: the call's own rules, with
    the host executables of the whole builder. *)
Definition validation_policy b (v : PendingExampleValidation) : Policy path :=
  mkPolicy (foldl insert_rule ∅ (pending_rules v)) [] (host_executables_by_name (parts b)).

Definition validate_pending b (v : PendingExampleValidation) : result Error unit :=
  let attach := λ e, attach_validation_location e (pending_location v) in
  let? _ := map_err attach (validate_not_match_examples (validation_policy b v) (pending_not_matches v)) in
  map_err attach (validate_match_examples (validation_policy b v) (pending_rules v) (pending_matches v)).
Fixpoint validate_all b (vs : list PendingExampleValidation) : result Error unit :=
  match vs with
  | [] => Ok tt
  | v :: vs' => let? _ := validate_pending b v in validate_all b vs'
  end.
(** [validate_pending_examples_from]. *)
Definition validate_pending_examples_from b (start : nat) : result Error unit :=
  validate_all b (drop start (pending_example_validations b)).

(** ** The parser *)

(** [PolicyParser::parse], on the evaluation of a file. *)
Definition parse b (file : Evaluated) : PolicyBuilder path * result Error unit :=
  let pending_validation_count := length (pending_example_validations b) in
  match run_calls b (calls file) (eval_error file) with
  | (b', Err e) => (b', Err e)
  | (b', Ok _) => (b', validate_pending_examples_from b' pending_validation_count)
  end.

(** [PolicyParser::build]. *)
Definition build b : Policy path := parts b.

(** [load_policies], on the evaluations of the files: the first error ends it. *)
Fixpoint load_from b (files : list Evaluated) : result Error (Policy path) :=
  match files with
  | [] => Ok (build b)
  | file :: files' => match parse b file with
                      | (b', Ok _) => load_from b' files'
                      | (_, Err e) => Err e
                      end
  end.
Definition load_policies (files : list Evaluated) : result Error (Policy path) :=
  load_from new_builder files.
End Builder.

(** * Properties of policies built from rule files

    A built policy keeps its rules under their program, its network hosts in
    normal form and its host executables under their own base name; the
    examples of every [prefix_rule] call hold of it; and a [prefix_rule] call
    covers exactly the commands that start with its pattern. *)

#[local] Arguments rules_for : simpl never.
#[local] Arguments insert_rule : simpl never.

(** ** Network hosts *)

(** The form the network proxy compares: not empty, lower case, and free of
    white space, wildcards and URL syntax. *)
Definition host_normal (h : str) : Prop :=
  h ≠ [] ∧ Forall lowercase_char h ∧ Forall (λ c, is_whitespace c = false) h ∧
  Forall (λ c, c ∉ [chr "*"; chr "/"; chr "?"; chr "#"]) h.

Lemma trim_subseteq s : trim s ⊆ s.
Proof.
  destruct (trim_start_spec s) as (t & Hs & _). destruct (trim_end_matches_spec is_whitespace (trim_start s))
    as (t' & Hs' & _). unfold trim, trim_end. rewrite Hs at 2. rewrite Hs' at 2. set_solver.
Qed.
Lemma trim_end_matches_subseteq p s : trim_end_matches p s ⊆ s.
Proof. destruct (trim_end_matches_spec p s) as (t & Hs & _). rewrite Hs at 2. set_solver. Qed.

Lemma rsplit_once_Some c s a b : rsplit_once c s = Some (a, b) → s = a ++ c :: b.
Proof.
  revert a b. induction s as [|d s IH]; intros a b; simpl; [done|].
  destruct (rsplit_once c s) as [[a' b']|].
  - intros [= <- <-]. simpl. f_equal. by apply IH.
  - destruct (N.eqb_spec d c) as [->|]; [by intros [= <- <-]|done].
Qed.

Lemma strip_port_subseteq raw h h' : strip_port raw h = Ok h' → h' ⊆ h.
Proof.
  unfold strip_port. intros H. run H; try done;
    repeat match goal with
    | H : strip_prefix _ _ = Some _ |- _ => apply strip_prefix_Some in H; subst
    | H : split_once _ _ = Some _ |- _ => apply split_once_Some in H; subst
    | H : rsplit_once _ _ = Some _ |- _ => apply rsplit_once_Some in H; subst
    end; set_solver.
Qed.

Lemma contains_char_false c s : contains_char c s = false ↔ c ∉ s.
Proof.
  unfold contains_char. induction s as [|d s IH]; simpl; [set_solver|].
  rewrite orb_false_iff, not_elem_of_cons, IH, N.eqb_neq. done.
Qed.

(** Lower-casing creates no character outside the letters. *)
Lemma lowercase_not_elem c s :
  (c < 97)%N → c ∉ s → c ∉ to_ascii_lowercase s.
Proof.
  intros Hc Hs (d & Hd & Hin)%list_elem_of_fmap. unfold char_to_ascii_lowercase in Hd.
  destruct ((65 <=? d) && (d <=? 90))%N eqn:E; [|congruence].
  apply andb_true_iff in E as [?%N.leb_le ?%N.leb_le]. lia.
Qed.

Lemma normalize_host_normal raw h : normalize_network_rule_host raw = Ok h → host_normal h.
Proof.
  unfold normalize_network_rule_host. intros H. run H.
  match goal with H : strip_port _ _ = Ok ?s |- _ => apply strip_port_subseteq in H as Hsub; set (k := s) in * end.
  set (t := trim (trim_end_matches (N.eqb (chr ".")) k)) in *.
  assert (t ⊆ trim raw) as Ht.
  { etrans; [apply trim_subseteq|]. etrans; [apply trim_end_matches_subseteq|done]. }
  repeat match goal with H : contains_char _ _ = false |- _ => apply contains_char_false in H end.
  split_and!; [done|apply to_ascii_lowercase_lower|by apply existsb_false_Forall|].
  apply Forall_forall. intros c Hc Hbad.
  assert (∀ d, (d < 97)%N → d ∉ trim raw → c ≠ d) as Hno.
  { intros d Hd Hin ->. revert Hc. apply lowercase_not_elem; [done|]. set_solver. }
  rewrite !elem_of_cons, elem_of_nil in Hbad.
  destruct Hbad as [->|[->|[->|[->|[]]]]]; [done|by apply (Hno (chr "/"))|by apply (Hno (chr "?"))
    |by apply (Hno (chr "#"))].
Qed.

Section Invariant.
Context {path : Type} `{HP : HostPaths path} `{BE : !BuilderEnv path}.
Implicit Types (b : PolicyBuilder path) (pol : Policy path).

(** ** The invariant of a built policy *)

(** An alternative has at least two options. *)
Definition token_wf (t : PatternToken) : Prop :=
  match t with Single _ => True | Alts alternatives => 2 ≤ length alternatives end.
Definition rule_wf (r : PrefixRule) : Prop := Forall token_wf (rest (pattern r)).

(** The paths listed under a name are distinct and have that name. *)
Definition executables_wf (name : str) (paths : list path) : Prop :=
  NoDup paths ∧ Forall (λ p, executable_path_lookup_key p = Some name) paths.

Definition policy_wf pol : Prop :=
  (∀ program, Forall (λ r, rule_program r = program ∧ rule_wf r)
                (rules_for (rules_by_program pol) program)) ∧
  Forall (λ r, host_normal (host r)) (network_rules pol) ∧
  map_Forall executables_wf (host_executables_by_name pol).

(** The rules of a pending validation are rules of the builder. *)
Definition pending_wf pol (v : PendingExampleValidation) : Prop :=
  Forall (λ r, r ∈ rules_for (rules_by_program pol) (rule_program r)) (pending_rules v).
Definition builder_wf b : Prop :=
  policy_wf (parts b) ∧ Forall (pending_wf (parts b)) (pending_example_validations b).

Lemma new_builder_wf : builder_wf new_builder.
Proof.
  split; [|constructor]. split_and!; [|constructor|apply map_Forall_empty].
  intros program. unfold rules_for. simpl. rewrite lookup_empty. constructor.
Qed.

Lemma map_result_elem {E A B} (f : A → result E B) l ys y :
  map_result f l = Ok ys → y ∈ ys → ∃ x, x ∈ l ∧ f x = Ok y.
Proof.
  intros Hf%map_result_Ok (i & Hi)%list_elem_of_lookup.
  destruct (Forall2_lookup_r _ _ _ _ _ Hf Hi) as (x & Hx & ?). exists x.
  split; [by apply list_elem_of_lookup_2 in Hx|done].
Qed.

Lemma parse_pattern_token_wf v t : parse_pattern_token v = Ok t → token_wf t.
Proof. unfold parse_pattern_token. intros H. run H; simpl; try done; lia. Qed.

Lemma parse_pattern_wf vs ts : parse_pattern vs = Ok ts → ts ≠ [] ∧ Forall token_wf ts.
Proof.
  unfold parse_pattern. intros H. run H. split; [by intros ->|].
  apply Forall_forall. intros t Ht. eapply map_result_elem in Ht as (v & _ & Hv); [|done].
  by eapply parse_pattern_token_wf.
Qed.

(** What a successful [prefix_rule] call has parsed. *)
Lemma prefix_rule_pending_Ok pat d ms nms j loc v :
  prefix_rule_pending pat d ms nms j loc = Ok v →
  ∃ tokens dec, parse_pattern pat = Ok tokens ∧
    match d with Some raw => decision_parse raw | None => Ok Allow end = Ok dec ∧
    parse_optional_examples ms = Ok (pending_matches v) ∧
    parse_optional_examples nms = Ok (pending_not_matches v) ∧
    expand_rules tokens dec j = Ok (pending_rules v).
Proof.
  unfold prefix_rule_pending, parse_justification. intros H.
  destruct d, j; run H; simpl; eauto 10.
Qed.

Lemma expand_rules_wf tokens d j rules :
  expand_rules tokens d j = Ok rules → Forall token_wf tokens → Forall rule_wf rules.
Proof.
  destruct tokens as [|t ts]; simpl; [done|]. intros [= <-] [_ Hts]%Forall_cons.
  rewrite Forall_fmap. by apply Forall_true.
Qed.

(** Adding rules leaves every other part alone and puts each rule under its
    program. *)
Lemma rules_for_add_all (m : rule_map) rules k :
  rules_for (foldl insert_rule m rules) k =
  rules_for m k ++ filter (λ r, rule_program r = k) rules.
Proof.
  revert m. induction rules as [|r rules IH]; intros m; simpl; [by rewrite app_nil_r|].
  rewrite IH. unfold insert_rule. rewrite rules_for_insert, filter_cons, <- app_assoc.
  by case_decide.
Qed.

Lemma add_rules_eq b rules :
  foldl add_rule b rules =
  mkBuilder (mkPolicy (foldl insert_rule (rules_by_program (parts b)) rules)
               (network_rules (parts b)) (host_executables_by_name (parts b)))
    (pending_example_validations b).
Proof.
  revert b. induction rules as [|r rules IH]; intros b; simpl; [by destruct b as [[]]|].
  by rewrite IH.
Qed.

(** [pol'] has the rules of [pol] and possibly more. *)
Definition more_rules pol pol' : Prop :=
  ∀ k, rules_for (rules_by_program pol) k ⊆ rules_for (rules_by_program pol') k.

Lemma pending_wf_mono pol pol' v : more_rules pol pol' → pending_wf pol v → pending_wf pol' v.
Proof. intros Hm Hv. eapply Forall_impl; [exact Hv|]. intros r Hr. by apply Hm. Qed.

(** ** The builtins preserve it *)

Lemma prefix_rule_wf b pat d ms nms j loc b' :
  prefix_rule b pat d ms nms j loc = Ok b' → builder_wf b → builder_wf b'.
Proof.
  unfold prefix_rule. intros H [(Hr & Hn & Hh) Hp]. run H. rewrite add_rules_eq.
  match goal with H : prefix_rule_pending _ _ _ _ _ _ = Ok ?v |- _ =>
    apply prefix_rule_pending_Ok in H as (tokens & dec & Hpat & Hdec & _ & _ & Hex); set (w := v) in * end.
  apply parse_pattern_wf in Hpat as [_ Hwf]. apply expand_rules_wf in Hex as Hrw; [|done].
  split; simpl; [split_and!; [|done..]|].
  - intros program. simpl. rewrite rules_for_add_all, Forall_app. split; [done|].
    apply Forall_forall. intros r [<- Hin]%list_elem_of_filter. split; [done|].
    by apply (Forall_forall rule_wf (pending_rules w)).
  - apply Forall_snoc_iff. split.
    + eapply Forall_impl; [exact Hp|]. intros v. apply pending_wf_mono. intros k. simpl.
      rewrite rules_for_add_all. set_solver.
    + apply Forall_forall. intros r Hin. simpl. rewrite rules_for_add_all, elem_of_app. right.
      by apply list_elem_of_filter.
Qed.

Lemma host_executable_path_wf name parsed v parsed' :
  host_executable_path name parsed v = Ok parsed' →
  executables_wf (executable_lookup_key name) parsed →
  executables_wf (executable_lookup_key name) parsed'.
Proof.
  unfold host_executable_path. intros H [Hnd Hf]. run H; [done|]. split.
  - apply NoDup_app. split_and!; [done| |apply NoDup_singleton].
    intros x Hx ->%list_elem_of_singleton.
    match goal with H : existsb _ _ = false |- _ => apply existsb_false_Forall in H as Hne end.
    rewrite Forall_forall in Hne. specialize (Hne _ Hx). by case_bool_decide.
  - apply Forall_snoc_iff. split; [done|].
    match goal with H : ok_or ?o _ = Ok _, H' : str_eqb _ _ = true |- _ =>
      apply str_eqb_eq in H'; subst; by destruct o; simplify_eq/= end.
Qed.

Lemma host_executable_paths_wf name values parsed parsed' :
  host_executable_paths name parsed values = Ok parsed' →
  executables_wf (executable_lookup_key name) parsed →
  executables_wf (executable_lookup_key name) parsed'.
Proof.
  revert parsed. induction values as [|v values IH]; intros parsed; simpl; [by intros [= <-]|].
  intros H Hwf. destruct (host_executable_path name parsed v) eqn:E; [|done].
  eapply IH; [done|]. by eapply host_executable_path_wf.
Qed.

Lemma run_call_wf b c b' : run_call b c = Ok b' → builder_wf b → builder_wf b'.
Proof.
  destruct c as [pat d ms nms j loc|h p d j|name paths]; simpl.
  - apply prefix_rule_wf.
  - unfold network_rule. intros H [(Hr & Hn & Hh) Hp]. run H.
    split; [split_and!; [done| |done]|done]. simpl. apply Forall_snoc_iff. split; [done|].
    by eapply normalize_host_normal.
  - unfold host_executable. intros H [(Hr & Hn & Hh) Hp]. run H.
    split; [split_and!; [done..|]|done]. simpl. apply map_Forall_insert_2; [|done].
    eapply host_executable_paths_wf; [done|]. split; constructor.
Qed.

Lemma run_calls_wf b cs e : builder_wf b → builder_wf (run_calls b cs e).1.
Proof.
  revert b. induction cs as [|c cs IH]; intros b Hb; simpl; [done|].
  destruct (run_call b c) eqn:E; [|done]. apply IH. by eapply run_call_wf.
Qed.

Lemma parse_fst b file : (parse b file).1 = (run_calls b (calls file) (eval_error file)).1.
Proof. unfold parse. by destruct (run_calls _ _ _) as [b' [|]]. Qed.

Lemma parse_wf b file : builder_wf b → builder_wf (parse b file).1.
Proof. rewrite parse_fst. apply run_calls_wf. Qed.
End Invariant.

(** ** Examples *)

Section Examples.
Context {path : Type} `{HP : HostPaths path} `{BE : !BuilderEnv path}.
Implicit Types (b : PolicyBuilder path) (pol : Policy path).

Lemma matches_no_fallback pol cmd resolve :
  matches_for_command_with_options pol cmd None resolve = matched_rules_of pol cmd resolve.
Proof. unfold matches_for_command_with_options. by destruct (matched_rules_of _ _ _). Qed.

Lemma validate_match_examples_Ok pol rules ms :
  validate_match_examples pol rules ms = Ok tt ↔ Forall (λ ex, matched_rules_of pol ex true ≠ []) ms.
Proof.
  unfold validate_match_examples. rewrite length_fmap. split.
  - intros H. run H. apply Forall_forall. intros ex Hex Hnil. rewrite <- matches_no_fallback in Hnil.
    assert (ex ∈ filter (λ ex, matches_for_command_with_options pol ex None true = []) ms) as Hin
      by by apply list_elem_of_filter.
    match goal with H : length _ = 0 |- _ => apply length_zero_iff_nil in H; rewrite H in Hin; set_solver end.
  - intros Hall. rewrite bool_decide_true; [done|]. apply length_zero_iff_nil.
    destruct (filter _ ms) as [|ex l] eqn:E; [done|]. exfalso.
    assert (ex ∈ filter (λ ex, matches_for_command_with_options pol ex None true = []) ms)
      as [Hnil Hex]%list_elem_of_filter by (rewrite E; left).
    rewrite matches_no_fallback in Hnil. rewrite Forall_forall in Hall. by apply Hall in Hex.
Qed.

Lemma validate_not_match_examples_Ok pol nms :
  validate_not_match_examples pol nms = Ok tt ↔ Forall (λ ex, matched_rules_of pol ex true = []) nms.
Proof.
  induction nms as [|ex nms IH]; simpl; [by split; [constructor|]|].
  rewrite matches_no_fallback, Forall_cons, <- IH.
  destruct (matched_rules_of pol ex true); naive_solver.
Qed.

Lemma validate_all_Ok b vs :
  validate_all b vs = Ok tt ↔
  Forall (λ v, Forall (λ ex, matched_rules_of (validation_policy b v) ex true = []) (pending_not_matches v)
             ∧ Forall (λ ex, matched_rules_of (validation_policy b v) ex true ≠ []) (pending_matches v)) vs.
Proof.
  induction vs as [|v vs IH]; simpl; [by split; [constructor|]|].
  rewrite Forall_cons, <- IH, <- validate_not_match_examples_Ok.
  rewrite <- (validate_match_examples_Ok _ (pending_rules v)). unfold validate_pending.
  destruct (validate_not_match_examples _ _) as [[]|], (validate_match_examples _ _ _) as [[]|];
    simpl; naive_solver.
Qed.

(** More rules with the same host executables match at least as much. *)
Lemma matched_rules_mono pol pol' cmd :
  more_rules pol pol' →
  host_executables_by_name pol = host_executables_by_name pol' →
  matched_rules_of pol cmd true ≠ [] → matched_rules_of pol' cmd true ≠ [].
Proof.
  intros Hm Hh. unfold matched_rules_of, match_exact_rules.
  assert (∀ (k : str) c (m : RuleMatch path),
    m ∈ omap (λ r, rule_matches r c) (rules_for (rules_by_program pol) k) →
    omap (λ r, rule_matches r c) (rules_for (rules_by_program pol') k) ≠ ([] : list (RuleMatch path))) as Hsub.
  { intros k c m (r & Hr & Hrm)%list_elem_of_omap Hnil. apply Hm in Hr.
    assert (m ∈ omap (λ r, rule_matches r c) (rules_for (rules_by_program pol') k)) as Hin
      by (apply list_elem_of_omap; eauto). rewrite Hnil in Hin. set_solver. }
  destruct cmd as [|c args]; [done|].
  destruct (omap _ (rules_for (rules_by_program pol) c)) as [|m ms] eqn:E.
  2:{ intros _. specialize (Hsub c (c :: args) m). rewrite E in Hsub.
      destruct (omap _ (rules_for (rules_by_program pol') c)); [|done]. by destruct Hsub; [left|]. }
  intros Hne. destruct (omap _ (rules_for (rules_by_program pol') c)); [|done].
  revert Hne. unfold match_host_executable_rules. rewrite <- Hh.
  destruct (absolute_path c) as [p|]; [|done].
  destruct (executable_path_lookup_key p) as [k|]; [|done].
  specialize (Hsub k (k :: args)). unfold rules_for in Hsub.
  destruct (rules_by_program pol !! k) as [rs|]; [|done]. simpl in Hsub.
  destruct (omap _ rs) as [|m ms] eqn:E'; [intros []; by case_match; [case_match|]|].
  assert (m ∈ m :: ms) as Hin by left. specialize (Hsub m Hin).
  destruct (rules_by_program pol' !! k) as [rs'|]; [|done]. simpl in Hsub.
  destruct (omap _ rs'); [done|]. by repeat case_match.
Qed.

(** A validated call is a pending validation of the builder. *)
Lemma run_calls_pending b cs b' :
  run_calls b cs None = (b', Ok tt) →
  ∃ vs, pending_example_validations b' = pending_example_validations b ++ vs ∧
    ∀ pat d ms nms j loc, PrefixRuleCall pat d ms nms j loc ∈ cs →
      ∃ v, prefix_rule_pending pat d ms nms j loc = Ok v ∧ v ∈ vs.
Proof.
  revert b. induction cs as [|c cs IH]; intros b; simpl.
  { intros [= <-]. exists []. rewrite app_nil_r. split; [done|]. set_solver. }
  destruct (run_call b c) as [b1|] eqn:E; [|done]. intros (vs & Hvs & Hin)%IH.
  assert (∃ ws, pending_example_validations b1 = pending_example_validations b ++ ws ∧
    ∀ pat d ms nms j loc, c = PrefixRuleCall pat d ms nms j loc →
      ∃ v, prefix_rule_pending pat d ms nms j loc = Ok v ∧ v ∈ ws) as (ws & Hws & Hw).
  { destruct c as [pat d ms nms j loc|h p d j|name paths]; simpl in E.
    - unfold prefix_rule in E. run E. rewrite add_rules_eq. simpl. eexists. split; [done|].
      intros ?????? [= <- <- <- <- <- <-]. eexists. split; [done|]. set_solver.
    - unfold network_rule in E. run E. exists []. rewrite app_nil_r. done.
    - unfold host_executable in E. run E. exists []. rewrite app_nil_r. done. }
  exists (ws ++ vs). split; [by rewrite Hvs, Hws, <- app_assoc|].
  intros pat d ms nms j loc [<-|Hc]%elem_of_cons.
  - edestruct Hw as (v & ? & ?); [done|]. exists v. set_solver.
  - edestruct Hin as (v & ? & ?); [done|]. exists v. set_solver.
Qed.

Lemma parse_Ok b file b' :
  parse b file = (b', Ok tt) →
  run_calls b (calls file) None = (b', Ok tt) ∧ eval_error file = None ∧
  validate_pending_examples_from b' (length (pending_example_validations b)) = Ok tt.
Proof.
  unfold parse. destruct file as [cs err]. simpl.
  destruct (run_calls b cs err) as [b1 [[]|e]] eqn:E; [|done]. intros [= -> Hv].
  enough (err = None) as -> by done.
  clear Hv. revert b E. induction cs as [|c cs IH]; intros b; simpl; [by destruct err|].
  destruct (run_call b c); [apply IH|done].
Qed.

Lemma validation_policy_more b v :
  pending_wf (parts b) v → more_rules (validation_policy b v) (parts b).
Proof.
  intros Hv k r. unfold validation_policy. simpl. rewrite rules_for_add_all.
  unfold rules_for at 1. rewrite lookup_empty. simpl. intros [<- Hr]%list_elem_of_filter.
  by apply (Forall_forall _ _) with (x := r) in Hv.
Qed.

(** No rule of an unmatched example's call matches it. *)
Lemma unmatched_rules b v ex r :
  matched_rules_of (validation_policy b v) ex true = [] → r ∈ pending_rules v →
  matches_prefix (pattern r) ex = None.
Proof.
  intros Hnil Hr. destruct (matches_prefix (pattern r) ex) as [m|] eqn:E; [|done]. exfalso.
  pose proof E as E'. apply matches_prefix_spec in E' as (tokens & args & -> & _).
  unfold matched_rules_of, match_exact_rules in Hnil.
  assert (PrefixRuleMatch (path := path) m (rule_decision r) None (justification r) ∈
    omap (λ r0, rule_matches r0 (first (pattern r) :: tokens ++ args))
      (rules_for (rules_by_program (validation_policy b v)) (first (pattern r)))) as Hin.
  { apply list_elem_of_omap. exists r. unfold rule_matches. rewrite E. split; [|done].
    simpl. rewrite rules_for_add_all, elem_of_app. right. by apply list_elem_of_filter. }
  destruct (omap _ _); [set_solver|done].
Qed.

(** ** Coverage *)

Lemma token_matches_alternatives t token : token_matches t token = true ↔ token ∈ token_alternatives t.
Proof.
  destruct t as [e|alts]; simpl.
  - rewrite str_eqb_eq, list_elem_of_singleton. naive_solver.
  - induction alts as [|a alts IH]; simpl; [set_solver|].
    rewrite orb_true_iff, elem_of_cons, IH, str_eqb_eq. naive_solver.
Qed.

(** The rules of a call match exactly the commands its pattern starts. *)
Lemma expand_rules_matches tokens d j rules c args (m : RuleMatch path) :
  expand_rules tokens d j = Ok rules →
  m ∈ omap (λ r, rule_matches r (c :: args)) (filter (λ r, rule_program r = c) rules) ↔
  ∃ matched args', c :: args = matched ++ args' ∧
    Forall2 (λ t token, token_matches t token = true) tokens matched ∧
    m = PrefixRuleMatch matched d None j.
Proof.
  destruct tokens as [|t ts]; simpl; [done|]. intros [= <-]. rewrite list_elem_of_omap. split.
  - intros (r & [Hc (head & -> & Hh)%list_elem_of_fmap]%list_elem_of_filter & Hm).
    unfold rule_matches in Hm. destruct (matches_prefix _ _) as [mt|] eqn:E; [|done].
    apply matches_prefix_spec in E as (tokens & args' & Heq & -> & Hf). simplify_eq/=.
    exists (head :: tokens), args'. split_and!; [done| |done]. constructor; [|done].
    by apply token_matches_alternatives.
  - intros (matched & args' & Heq & Hf & ->). inversion Hf as [|? c' ? mt Hc Hts]; simplify_eq/=.
    exists (mkRule (mkPattern c' ts) d j). split.
    + apply list_elem_of_filter. split; [done|]. apply list_elem_of_fmap. exists c'.
      split; [done|]. by apply token_matches_alternatives.
    + unfold rule_matches. erewrite (proj2 (matches_prefix_spec _ _ _)); [done|].
      exists mt, args'. done.
Qed.
End Examples.

(** ** Properties *)

Section Properties.
Context {path : Type} `{HP : HostPaths path} `{BE : !BuilderEnv path}.
Implicit Types (b : PolicyBuilder path).

(** The builder after some files, whether or not they parsed. *)
Definition builder_after (files : list Evaluated) : PolicyBuilder path :=
  foldl (λ b file, (parse b file).1) new_builder files.

Lemma builder_after_wf files : builder_wf (builder_after files).
Proof.
  unfold builder_after. induction files as [|file files IH] using rev_ind; [apply new_builder_wf|].
  rewrite foldl_app. simpl. by apply parse_wf.
Qed.

(** A policy built from rule files is well formed: each rule is stored
    under its own program and has no degenerate alternative, each network
    host is in normal form, and the paths listed for a program name are
    distinct and have that base name.  This holds whatever the files
    contain, and also for the rules a failing file left in the parser. *)
Theorem built_policy_wf files : policy_wf (build (builder_after files)).
Proof. apply builder_after_wf. Qed.

(** The examples of a rule file hold of the policy.  When a file is
    parsed without error, each of its [prefix_rule] calls has been parsed;
    each of the call's [match] examples is matched by the policy as built so
    far, and no rule of the call matches one of its [not_match] examples. *)
Theorem parsed_examples_hold files file b' pat d ms nms j loc :
  parse (builder_after files) file = (b', Ok tt) →
  PrefixRuleCall pat d ms nms j loc ∈ calls file →
  ∃ v, prefix_rule_pending pat d ms nms j loc = Ok v ∧
    Forall (λ ex, matched_rules_of (build b') ex true ≠ []) (pending_matches v) ∧
    Forall (λ ex, Forall (λ r, matches_prefix (pattern r) ex = None) (pending_rules v))
      (pending_not_matches v).
Proof.
  intros Hp Hc. pose proof (parse_wf _ file (builder_after_wf files)) as [_ Hwf].
  rewrite Hp in Hwf. simpl in Hwf. apply parse_Ok in Hp as (Hrun & _ & Hval).
  apply run_calls_pending in Hrun as (vs & Hvs & Hin). apply Hin in Hc as (v & Hv & Hin').
  exists v. split; [done|]. unfold validate_pending_examples_from in Hval.
  rewrite Hvs, drop_app_length in Hval. apply validate_all_Ok in Hval.
  rewrite Forall_forall in Hval. apply Hval in Hin' as Hex. destruct Hex as [Hnm Hm].
  rewrite Hvs, Forall_app in Hwf. destruct Hwf as [_ Hwf]. rewrite Forall_forall in Hwf. split.
  - eapply Forall_impl; [exact Hm|]. intros ex. apply matched_rules_mono; [|done].
    by apply validation_policy_more, Hwf.
  - eapply Forall_impl; [exact Hnm|]. intros ex Hnil. apply Forall_forall. intros r Hr.
    exact (unmatched_rules b' v ex r Hnil Hr).
Qed.

(** A [prefix_rule] call adds what its pattern says.  After the call, the
    matches of a command are those it had before followed by a match of the
    call exactly when the command starts with one token for each element of
    the pattern, alternatives of the first element included; the match
    carries the call's decision ([allow] by default) and justification. *)
Theorem prefix_rule_covers b pat d ms nms j loc b' :
  prefix_rule b pat d ms nms j loc = Ok b' →
  ∃ tokens dec, parse_pattern pat = Ok tokens ∧
    match d with Some raw => decision_parse raw | None => Ok Allow end = Ok dec ∧
    ∀ cmd, ∃ added, exact_matches (build b') cmd = exact_matches (build b) cmd ++ added ∧
      ∀ m, m ∈ added ↔ ∃ matched args, cmd = matched ++ args ∧
        Forall2 (λ t token, token_matches t token = true) tokens matched ∧
        m = PrefixRuleMatch matched dec None j.
Proof.
  unfold prefix_rule. intros H. run H. rewrite add_rules_eq.
  match goal with H : prefix_rule_pending _ _ _ _ _ _ = Ok ?v |- _ =>
    apply prefix_rule_pending_Ok in H as (tokens & dec & Hpat & Hdec & _ & _ & Hex); set (w := v) in * end.
  exists tokens, dec. split; [done|]. split; [done|]. apply parse_pattern_wf in Hpat as [Hne _].
  intros [|c args].
  - exists []. simpl. split; [done|]. intros m. split; [set_solver|].
    intros (matched & args & [-> ->]%eq_sym%app_eq_nil & Hf & _). by inversion Hf.
  - unfold exact_matches, build. cbn [parts rules_by_program add_pending_example_validation].
    rewrite rules_for_add_all, omap_app. eexists. split; [done|]. intros m.
    by apply expand_rules_matches.
Qed.

(** a network rule is added with its host in normal form.  A host that
    [add_network_rule] accepts becomes the last network rule of the policy
    in normal form, with the given protocol, decision and justification, and
    nothing else changes; a blank justification is refused. *)
Theorem add_network_rule_normal (pol pol' : Policy path) h p d j :
  add_network_rule pol h p d j = Ok pol' →
  ∃ h', host_normal h' ∧ pol' = mkPolicy (rules_by_program pol)
    (network_rules pol ++ [mkNetworkRule h' p d j]) (host_executables_by_name pol) ∧
    ∀ raw, j = Some raw → trim raw ≠ [].
Proof.
  unfold add_network_rule. intros H. run H;
    (eexists; split_and!; [by eapply normalize_host_normal|done|naive_solver]).
Qed.
End Properties.

(** ** Witnesses *)

#[local] Existing Instance UnixPaths.

Definition plain_env : BuilderEnv str := {|
  shlex_split s := Some (filter (λ w, w ≠ []) (split SPACE s));
  shlex_try_join ws := Some (join [SPACE] ws);
  debug_rule r := rule_program r;
  debug_match _ := [];
  path_is_absolute s := starts_with (lit "/") s;
  absolute_path_error _ := [];
  path_component_count s := length (split (chr "/") s);
  path_file_name s := last (split (chr "/") s);
|}.
#[local] Existing Instance plain_env.

(** [prefix_rule(pattern=["git", ["push", "pull"]], decision="prompt",
    match=["git push -f", "/usr/bin/git pull"], not_match=["git log"])]. *)
Definition git_call : BuiltinCall :=
  PrefixRuleCall [VStr (lit "git"); VList [VStr (lit "push"); VStr (lit "pull")]] (Some (lit "prompt"))
    (Some [VStr (lit "git push -f"); VStr (lit "/usr/bin/git pull")])
    (Some [VList [VStr (lit "git"); VStr (lit "log")]]) None None.
Definition git_file : Evaluated :=
  mkEvaluated [git_call; HostExecutableCall (lit "git") [VStr (lit "/usr/bin/git")]] None.

Lemma parsed_examples_hold_witness :
  ∃ v, prefix_rule_pending (path := str)
      [VStr (lit "git"); VList [VStr (lit "push"); VStr (lit "pull")]] (Some (lit "prompt"))
      (Some [VStr (lit "git push -f"); VStr (lit "/usr/bin/git pull")])
      (Some [VList [VStr (lit "git"); VStr (lit "log")]]) None None = Ok v ∧
    Forall (λ ex, matched_rules_of (build (parse (builder_after []) git_file).1) ex true ≠ []) (pending_matches v) ∧
    Forall (λ ex, Forall (λ r, matches_prefix (pattern r) ex = None) (pending_rules v))
      (pending_not_matches v).
Proof.
  apply (parsed_examples_hold [] git_file); [vm_compute; reflexivity|apply list_elem_of_here].
Defined.

Lemma prefix_rule_covers_witness :
  ∃ b' tokens dec, prefix_rule (path := str) new_builder [VStr (lit "ls")] None None None None None = Ok b' ∧
    parse_pattern [VStr (lit "ls")] = Ok tokens ∧ Ok Allow = @Ok Error _ dec ∧
    ∀ cmd, ∃ added, exact_matches (build b') cmd = exact_matches (build new_builder) cmd ++ added ∧
      ∀ m, m ∈ added ↔ ∃ matched args, cmd = matched ++ args ∧
        Forall2 (λ t token, token_matches t token = true) tokens matched ∧
        m = PrefixRuleMatch matched dec None None.
Proof.
  destruct (prefix_rule_covers new_builder [VStr (lit "ls")] None None None None None _ eq_refl)
    as (tokens & dec & H). by eexists _, tokens, dec.
Defined.

Lemma add_network_rule_normal_witness :
  ∃ h', host_normal h' ∧
    mkPolicy ∅ [mkNetworkRule (lit "api.github.com") Https Allow None] ∅ =
    mkPolicy (path := str) ∅ ([] ++ [mkNetworkRule h' Https Allow None]) ∅ ∧
    ∀ raw, None = Some raw → trim raw ≠ [].
Proof.
  apply (add_network_rule_normal empty_policy _ (lit " Api.GitHub.com.:443 ")). vm_compute. reflexivity.
Defined.
