(* ===== verification/ExecAmend.v ===== *)
(** * Policy files ([execpolicy/src/amend.rs], [sandbox_migration.rs])

    Rules are appended to a policy file one line at a time under a file lock;
    a one-shot migration removes the allow rules that are no longer offered.
    A file is a sequence of bytes, and every call of the operating system may
    fail: what each call answers is an argument. *)
From stdpp Require Import numbers strings gmap.
From S2P Require Import Prelude RustStr Utf8 ExecRule.

(** ** Errors *)

Inductive AmendError : Type :=
  | EmptyPrefix
  | InvalidNetworkRule (message : str)
  | MissingParent (path : str)
  | CreatePolicyDir (dir : str) (source : io_error)
  | SerializePrefix (source : str)
  | SerializeNetworkRule (source : str)
  | OpenPolicyFile (path : str) (source : io_error)
  | WritePolicyFile (path : str) (source : io_error)
  | LockPolicyFile (path : str) (source : io_error)
  | SeekPolicyFile (path : str) (source : io_error)
  | ReadPolicyFile (path : str) (source : io_error).

(** What the calls of one append answer: [None] is success, and a write that
    fails has accepted some bytes. *)
Record AppendIo : Type := mkAppendIo {
  parent_dir : option str;
  create_dir_error : option io_error;
  open_error : option io_error;
  lock_error : option io_error;
  seek_error : option io_error;
  read_error : option io_error;
  newline_error : option (nat * io_error);
  line_error : option (nat * io_error);
}.

(** Every call succeeds. *)
Definition good_io (dir : str) : AppendIo := mkAppendIo (Some dir) None None None None None None None.

(** [write_all] on a file opened for appending. *)
Definition write_all (file data : bytes) (outcome : option (nat * io_error)) : bytes * result io_error unit :=
  match outcome with
  | None => (file ++ data, Ok tt)
  | Some (n, e) => (file ++ take n data, Err e)
  end.

(** [read_to_string]: bytes that are not UTF-8 are an error. *)
Definition invalid_data : io_error := mkIo InvalidData (lit "stream did not contain valid UTF-8").
Definition read_to_string (file : bytes) (outcome : option io_error) : result io_error str :=
  match outcome with
  | Some e => Err e
  | None => map_err (λ _, invalid_data) (from_utf8 file)
  end.

(** [append_locked_line]; [None] is an absent file. *)
Definition append_locked_line (io : AppendIo) (path : str) (file : option bytes) (line : str)
  : option bytes * result AmendError unit :=
  match open_error io with
  | Some e => (file, Err (OpenPolicyFile path e))
  | None =>
      let bs := default [] file in
      match lock_error io with
      | Some e => (Some bs, Err (LockPolicyFile path e))
      | None =>
          match seek_error io with
          | Some e => (Some bs, Err (SeekPolicyFile path e))
          | None =>
              match read_to_string bs (read_error io) with
              | Err e => (Some bs, Err (ReadPolicyFile path e))
              | Ok contents =>
                  if existsb (str_eqb line) (lines contents) then (Some bs, Ok tt)
                  else
                    let '(bs, r) :=
                      if negb (bool_decide (contents = [])) && negb (ends_with [LF] contents)
                      then write_all bs (encode [LF]) (newline_error io) else (bs, Ok tt) in
                    match r with
                    | Err e => (Some bs, Err (WritePolicyFile path e))
                    | Ok _ =>
                        let '(bs, r) := write_all bs (encode (line ++ [LF])) (line_error io) in
                        (Some bs, map_err (WritePolicyFile path) r)
                    end
              end
          end
      end
  end.

(** [append_rule_line]. *)
Definition append_rule_line (io : AppendIo) (path : str) (file : option bytes) (rule : str)
  : option bytes * result AmendError unit :=
  match parent_dir io with
  | None => (file, Err (MissingParent path))
  | Some dir =>
      match create_dir_error io with
      | Some e => if bool_decide (io_kind e = AlreadyExists) then append_locked_line io path file rule
                  else (file, Err (CreatePolicyDir dir e))
      | None => append_locked_line io path file rule
      end
  end.

Section Rules.
(** [serde_json::to_string] on a string, [serde_json::from_str] to a
    [Vec<String>], and the [Debug] text of a vector of strings. *)
Context (json_string : str → result str str).
Context (json_strings : str → option (list str)).
Context (debug_strings : list str → str).

(** [Display] of the policy errors. *)
Fixpoint error_display (e : Error) : str :=
  match e with
  | InvalidDecision m => lit "invalid decision: " ++ m
  | InvalidPattern m => lit "invalid pattern element: " ++ m
  | InvalidExample m => lit "invalid example: " ++ m
  | InvalidRule m => lit "invalid rule: " ++ m
  | ExampleDidNotMatch rules examples _ =>
      lit "expected every example to match at least one rule. rules: " ++ debug_strings rules ++
      lit "; unmatched examples: " ++ debug_strings examples
  | ExampleDidMatch rule example _ =>
      lit "expected example to not match rule `" ++ rule ++ lit "`: " ++ example
  | Starlark m => lit "starlark error: " ++ m
  | StarlarkBuiltin e => lit "starlark error: " ++ error_display e
  end.

Definition RULE_START : str := lit "prefix_rule(pattern=".
Definition RULE_END : str := lit ", decision=" ++ [34%N] ++ lit "allow" ++ [34%N] ++ lit ")".

(** The line of an allow rule. *)
Definition allow_rule_line (prefix : list str) : result AmendError str :=
  match prefix with
  | [] => Err EmptyPrefix
  | _ => let? tokens := map_err SerializePrefix (map_result json_string prefix) in
         Ok (RULE_START ++ (lit "[" ++ join (lit ", ") tokens ++ lit "]") ++ RULE_END)
  end.

(** [blocking_append_allow_prefix_rule]. *)
Definition blocking_append_allow_prefix_rule (io : AppendIo) (path : str) (file : option bytes)
    (prefix : list str) : option bytes * result AmendError unit :=
  match allow_rule_line prefix with
  | Err e => (file, Err e)
  | Ok rule => append_rule_line io path file rule
  end.

Definition decision_word (d : Decision) : str :=
  match d with Allow => lit "allow" | Prompt => lit "prompt" | Forbidden => lit "deny" end.

(** The line of a network rule. *)
Definition network_rule_line (host : str) (p : NetworkRuleProtocol) (d : Decision) (j : option str)
  : result AmendError str :=
  let? host := map_err (λ e, InvalidNetworkRule (error_display e)) (normalize_network_rule_host host) in
  if match j with Some raw => bool_decide (trim raw = []) | None => false end
  then Err (InvalidNetworkRule (lit "justification cannot be empty"))
  else
    let? host := map_err SerializeNetworkRule (json_string host) in
    let? protocol := map_err SerializeNetworkRule (json_string (as_policy_string p)) in
    let? decision := map_err SerializeNetworkRule (json_string (decision_word d)) in
    let args := [lit "host=" ++ host; lit "protocol=" ++ protocol; lit "decision=" ++ decision] in
    let? args := match j with
                 | None => Ok args
                 | Some j => let? j := map_err SerializeNetworkRule (json_string j) in
                             Ok (args ++ [lit "justification=" ++ j])
                 end in
    Ok (lit "network_rule(" ++ join (lit ", ") args ++ lit ")").

(** [blocking_append_network_rule]. *)
Definition blocking_append_network_rule (io : AppendIo) (path : str) (file : option bytes)
    (host : str) (p : NetworkRuleProtocol) (d : Decision) (j : option str)
  : option bytes * result AmendError unit :=
  match network_rule_line host p d j with
  | Err e => (file, Err e)
  | Ok rule => append_rule_line io path file rule
  end.

(** ** The migration *)

(** [should_remove_rule]. *)
Definition should_remove_rule (line : str) (banned : gset (list str)) : bool :=
  let line := default line (strip_suffix [LF] line) in
  let line := default line (strip_suffix [CR] line) in
  match strip_prefix RULE_START line ≫= strip_suffix RULE_END with
  | None => false
  | Some pattern =>
      match json_strings pattern with
      | None => false
      | Some prefix => bool_decide ((to_ascii_lowercase <$> prefix) ∈ banned)
      end
  end.

(** [banned_prefixes], in lower case. *)
Definition banned_set (banned : list (list str)) : gset (list str) :=
  list_to_set ((λ prefix : list str, to_ascii_lowercase <$> prefix) <$> banned).

(** [strip_banned_allow_rules]. *)
Definition strip_banned_allow_rules (contents : str) (banned : list (list str)) : str :=
  concat (filter (λ line, should_remove_rule line (banned_set banned) = false) (split_inclusive LF contents)).

(** What the calls of a migration answer; [between] is what other processes
    do to the file between the first read and the opening. *)
Record MigrationIo : Type := mkMigrationIo {
  exists_error : option io_error;
  first_read_error : option io_error;
  between : option bytes → option bytes;
  reopen_error : option io_error;
  second_read_error : option io_error;
  rewind_error : option io_error;
  rewrite_error : option (nat * io_error);
  set_len_error : option io_error;
  create_home_error : option io_error;
  temp_file_error : option io_error;
  persist_error : option io_error;
}.

(** Writing [data] over the start of a file. *)
Definition overwrite (file data : bytes) (outcome : option (nat * io_error)) : bytes * result io_error unit :=
  match outcome with
  | None => (data ++ drop (length data) file, Ok tt)
  | Some (n, e) => (take n data ++ drop (length (take n data)) file, Err e)
  end.

(** [clean_rules_file]. *)
Definition clean_rules_file (io : MigrationIo) (file : option bytes) (banned : list (list str))
  : option bytes * result io_error unit :=
  match file with
  | None => (file, match first_read_error io with
                   | Some e => if bool_decide (io_kind e = NotFound) then Ok tt else Err e
                   | None => Ok tt
                   end)
  | Some bs =>
      match read_to_string bs (first_read_error io) with
      | Err e => (file, if bool_decide (io_kind e = NotFound) then Ok tt else Err e)
      | Ok contents =>
          if str_eqb (strip_banned_allow_rules contents banned) contents then (file, Ok tt)
          else
            match between io file, reopen_error io with
            | None, None => (None, Ok tt)
            | file, Some e => (file, if bool_decide (io_kind e = NotFound) then Ok tt else Err e)
            | Some bs, None =>
                match read_to_string bs (second_read_error io) with
                | Err e => (Some bs, Err e)
                | Ok contents =>
                    let retained := strip_banned_allow_rules contents banned in
                    if str_eqb retained contents then (Some bs, Ok tt)
                    else
                      match rewind_error io with
                      | Some e => (Some bs, Err e)
                      | None =>
                          match overwrite bs (encode retained) (rewrite_error io) with
                          | (bs, Err e) => (Some bs, Err e)
                          | (bs, Ok _) =>
                              match set_len_error io with
                              | Some e => (Some bs, Err e)
                              | None => (Some (take (length (encode retained)) bs), Ok tt)
                              end
                          end
                      end
                end
            end
      end
  end.

(** [write_migration_marker]. *)
Definition write_migration_marker (io : MigrationIo) (marker : bool) : bool * result io_error unit :=
  match create_home_error io with
  | Some e => (marker, Err e)
  | None =>
      match temp_file_error io with
      | Some e => (marker, Err e)
      | None =>
          match persist_error io with
          | Some e => if bool_decide (io_kind e = AlreadyExists) then (true, Ok tt) else (marker, Err e)
          | None => (true, Ok tt)
          end
      end
  end.

(** [prefix_rule_migration]: the marker and the policy file. *)
Definition prefix_rule_migration (io : MigrationIo) (marker : bool) (file : option bytes)
    (banned : list (list str)) : bool * option bytes * result io_error unit :=
  match exists_error io with
  | Some e => (marker, file, Err e)
  | None =>
      if marker then (marker, file, Ok tt)
      else
        match clean_rules_file io file banned with
        | (file, Err e) => (marker, file, Err e)
        | (file, Ok _) => let '(marker, r) := write_migration_marker io marker in (marker, file, r)
        end
  end.
End Rules.

(** * Properties of policy files

    An append adds one line and loses nothing, whichever call fails; the
    migration removes exactly the banned allow rules and runs once. *)

(** ** Appending *)

(** The text after an append of [line]. *)
Definition appended (contents line : str) : str :=
  contents ++ (if negb (bool_decide (contents = [])) && negb (ends_with [LF] contents) then [LF] else [])
    ++ line ++ [LF].

Lemma append_good io_dir path file contents line :
  default [] file = encode contents → scalar_text contents →
  append_locked_line (good_io io_dir) path file line =
  (Some (encode (if existsb (str_eqb line) (lines contents) then contents else appended contents line)), Ok tt).
Proof.
  intros Hf Hs. unfold append_locked_line, good_io. simpl.
  rewrite Hf, from_utf8_encode by done. simpl.
  destruct (existsb _ _); [done|]. unfold appended.
  destruct (_ && _); unfold write_all; rewrite !encode_app, <- ?app_assoc; done.
Qed.

Lemma existsb_str_eqb line l : existsb (str_eqb line) l = true ↔ line ∈ l.
Proof.
  rewrite existsb_exists. setoid_rewrite str_eqb_eq. split.
  - intros (x & Hx & ->). by apply list_elem_of_In.
  - intros Hl. exists line. split; [by apply list_elem_of_In|done].
Qed.

Lemma ends_with_last c s : ends_with [c] s = true ↔ last s = Some c.
Proof.
  rewrite ends_with_spec. split.
  - intros [r ->]. by rewrite last_snoc.
  - intros [r ->]%last_Some_snoc. by exists r.
Qed.

(** A line of its own, at the end of whatever was there. *)
Lemma lines_app_terminated a b : a = [] ∨ last a = Some LF → lines (a ++ b) = lines a ++ lines b.
Proof.
  intros Ha. unfold lines. rewrite split_inclusive_app_full, fmap_app by done. done.
Qed.

Lemma lines_single line : clean_line line → lines (line ++ [LF]) = [line].
Proof. intros Hl. by rewrite (lines_app line [] Hl). Qed.

Lemma appended_lines contents line :
  clean_line line → last contents ≠ Some CR → lines (appended contents line) = lines contents ++ [line].
Proof.
  intros Hl Hcr. unfold appended. destruct (_ && _) eqn:E; reflect_bools.
  - assert (last contents ≠ Some LF) by (intros ?%ends_with_last; congruence).
    simpl. rewrite lines_app_ne by done. by rewrite lines_single.
  - cbn [app]. rewrite lines_app_terminated, lines_single; [done..|].
    apply andb_false_iff in E as [E|E]; reflect_bools; [by left|right]. by apply ends_with_last.
Qed.

Lemma appended_has_line contents line : clean_line line → line ∈ lines (appended contents line).
Proof.
  intros Hl. unfold appended. rewrite app_assoc. rewrite lines_app_terminated, lines_single; [set_solver|done|].
  - destruct (_ && _) eqn:E; [right; by rewrite last_snoc|]. rewrite app_nil_r.
    apply andb_false_iff in E as [E|E]; reflect_bools; [by left|right]. by apply ends_with_last.
Qed.

Lemma scalar_appended contents line :
  scalar_text contents → scalar_text line → scalar_text (appended contents line).
Proof.
  intros Hc Hl. unfold appended, scalar_text in *. rewrite !Forall_app. split_and!; [done| |done|].
  - by destruct (_ && _); repeat constructor.
  - by repeat constructor.
Qed.

Lemma append_only_step io path file line :
  ∃ suffix, default [] (append_locked_line io path file line).1 = default [] file ++ suffix.
Proof.
  unfold append_locked_line, write_all. repeat case_match; simplify_eq; simpl;
    rewrite <- ?app_assoc; first [by exists []; rewrite app_nil_r|by eexists].
Qed.

(** ** Stripping *)

(** Dropping pieces leaves the other pieces as they are. *)
Lemma split_inclusive_filter c s (P : str → Prop) `{!∀ x, base.Decision (P x)} :
  split_inclusive c (concat (filter P (split_inclusive c s))) = filter P (split_inclusive c s).
Proof.
  remember (length s) as n eqn:Hn. revert s Hn. induction (lt_wf n) as [n _ IH]. intros s ->.
  destruct (decide (c ∈ s)) as [(l & r & -> & Hl)%list_elem_of_split_l|Hno].
  - rewrite (split_inclusive_app c l r) by done. rewrite filter_cons.
    assert (length r < length (l ++ c :: r)) as Hlt by (rewrite length_app; simpl; lia).
    case_decide; [|by apply (IH _ Hlt)]. cbn [concat]. rewrite <- app_assoc. cbn [app].
    rewrite split_inclusive_app by done. f_equal. by apply (IH _ Hlt).
  - destruct (decide (s = [])) as [->|Hne]; [done|]. rewrite (split_inclusive_no_sep c s) by done.
    rewrite filter_cons. case_decide; [|done]. cbn [concat filter list_filter]. rewrite app_nil_r.
    by apply split_inclusive_no_sep.
Qed.

Section Strip.
Context (json_string : str → result str str) (json_strings : str → option (list str)).

Notation should_remove := (should_remove_rule json_strings).
Notation strip := (strip_banned_allow_rules json_strings).

Lemma strip_lines contents banned :
  split_inclusive LF (strip contents banned) =
  filter (λ line, should_remove line (banned_set banned) = false) (split_inclusive LF contents).
Proof. apply (split_inclusive_filter LF contents). Qed.

Lemma strip_scalar contents banned : scalar_text contents → scalar_text (strip contents banned).
Proof.
  intros Hs. unfold strip_banned_allow_rules. apply Forall_concat.
  apply Forall_forall. intros l [_ Hl]%list_elem_of_filter. apply Forall_forall. intros c Hc.
  rewrite <- (split_inclusive_concat LF contents) in Hs. unfold scalar_text in Hs.
  apply Forall_concat in Hs. rewrite Forall_forall in Hs. specialize (Hs l Hl). rewrite Forall_forall in Hs. auto.
Qed.

Lemma strip_append contents line banned :
  contents = [] ∨ last contents = Some LF → LF ∉ line →
  strip (contents ++ line ++ [LF]) banned =
  strip contents banned ++ (if should_remove (line ++ [LF]) (banned_set banned) then [] else line ++ [LF]).
Proof.
  intros Hc Hl. unfold strip_banned_allow_rules.
  rewrite split_inclusive_app_full, (split_inclusive_app LF line []) by done.
  rewrite filter_app, concat_app, filter_cons. f_equal.
  destruct (should_remove (line ++ [LF]) _); [by rewrite decide_False|].
  rewrite decide_True by done. simpl. by rewrite app_nil_r.
Qed.

(** The line of an allow rule is recognised. *)
Lemma should_remove_allow prefix rule banned tokens :
  allow_rule_line json_string prefix = Ok rule →
  map_result json_string prefix = Ok tokens →
  json_strings (lit "[" ++ join (lit ", ") tokens ++ lit "]") = Some prefix →
  should_remove (rule ++ [LF]) banned = bool_decide ((to_ascii_lowercase <$> prefix) ∈ banned).
Proof.
  unfold allow_rule_line. intros Hr Ht Hj. destruct prefix as [|t prefix]; [done|].
  rewrite Ht in Hr. cbn [map_err] in Hr.
  set (mid := lit "[" ++ join (lit ", ") tokens ++ lit "]") in *.
  assert (rule = RULE_START ++ mid ++ RULE_END) as Hrule by congruence. clear Hr.
  assert (strip_suffix [CR] rule = None) as Hcr.
  { apply strip_suffix_single_None. rewrite Hrule, app_assoc, last_app.
    vm_compute. done. }
  unfold should_remove_rule. rewrite strip_suffix_app. change (default (rule ++ [LF]) (Some rule)) with rule.
  rewrite Hcr. change (default rule None) with rule. rewrite Hrule, strip_prefix_app. cbn [mbind option_bind].
  by rewrite strip_suffix_app, Hj.
Qed.

Lemma clean_rules_Ok io file banned file' :
  clean_rules_file json_strings io file banned = (file', Ok tt) →
  (∀ e, first_read_error io = Some e ∨ reopen_error io = Some e → io_kind e ≠ NotFound) →
  file' = None ∨ ∃ before, (file = Some (encode before) ∨ between io file = Some (encode before)) ∧
    scalar_text before ∧ file' = Some (encode (strip before banned)).
Proof.
  unfold clean_rules_file, read_to_string, overwrite. intros H Hsane.
  destruct file as [bs|]; [|left; congruence].
  destruct (first_read_error io) as [e|] eqn:Ef.
  { rewrite bool_decide_false in H by (apply Hsane; auto). done. }
  destruct (from_utf8 bs) as [contents|] eqn:E1; simpl in H; [|done].
  apply from_utf8_Ok in E1 as [-> Hs].
  destruct (str_eqb (strip contents banned) contents) eqn:Eq.
  { apply str_eqb_eq in Eq. simplify_eq. right. exists contents. rewrite Eq. auto. }
  destruct (reopen_error io) as [e|] eqn:Er.
  { rewrite bool_decide_false in H by (apply Hsane; auto). by destruct (between io _). }
  destruct (between io (Some (encode contents))) as [bs|] eqn:Eb; simplify_eq; [|by left]. right.
  destruct (second_read_error io); [done|].
  destruct (from_utf8 bs) as [again|] eqn:E2; simpl in H; [|done].
  apply from_utf8_Ok in E2 as [-> Hs2]. exists again. split_and!; [by right|done|].
  destruct (str_eqb (strip again banned) again) eqn:Eq2.
  { apply str_eqb_eq in Eq2. rewrite Eq2. by simplify_eq. }
  repeat case_match; simplify_eq. by rewrite take_app_length.
Qed.

(** ** Properties *)

(** The migration removes exactly the banned allow rules and happens
    once.  If it succeeds, the marker is set; a marker that was already set
    leaves the file alone; otherwise the file that remains is a version of
    the file that was read with exactly the banned lines removed, every
    other line unchanged and in order, also when another process changed
    the file in between.  If it fails, the marker keeps its value, so the
    migration will be tried again. *)
Theorem migration_once io marker file banned :
  (∀ e, first_read_error io = Some e ∨ reopen_error io = Some e → io_kind e ≠ NotFound) →
  match prefix_rule_migration json_strings io marker file banned with
  | (marker', file', Err _) => marker' = marker
  | (marker', file', Ok _) =>
      marker' = true ∧
      if marker then file' = file
      else file' = None ∨ ∃ before after,
        (file = Some (encode before) ∨ between io file = Some (encode before)) ∧
        file' = Some (encode after) ∧
        split_inclusive LF after =
          filter (λ line, should_remove line (banned_set banned) = false) (split_inclusive LF before)
  end.
Proof.
  intros Hsane. unfold prefix_rule_migration. destruct (exists_error io); [done|].
  destruct marker; [done|]. destruct (clean_rules_file _ _ _ _) as [file' [[]|e]] eqn:Ec; [|done].
  assert (∀ P : Prop, P → match write_migration_marker io false with
    | (m, Err _) => m = false | (m, Ok _) => m = true ∧ P end) as Hw.
  { intros P HP. unfold write_migration_marker. repeat case_match; simplify_eq; done. }
  apply clean_rules_Ok in Ec; [|done].
  specialize (Hw (file' = None ∨ ∃ before after,
    (file = Some (encode before) ∨ between io file = Some (encode before)) ∧
    file' = Some (encode after) ∧
    split_inclusive LF after =
      filter (λ line, should_remove line (banned_set banned) = false) (split_inclusive LF before))).
  destruct (write_migration_marker io false) as [m [[]|e]]; apply Hw;
    (destruct Ec as [->|(before & Hb & Hs & ->)]; [by left|right]);
    exists before, (strip before banned); (split_and!; [done|done|apply strip_lines]).
Qed.

(** the migration recognises what the amender wrote.  When an allow rule
    is appended to a policy file that ends with a newline, the migration
    removes that line if its prefix is banned, ignoring ASCII case, and keeps
    it otherwise; it treats the rest of the file as before. *)
Theorem migration_recognises_amended prefix rule tokens contents banned :
  allow_rule_line json_string prefix = Ok rule →
  map_result json_string prefix = Ok tokens →
  json_strings (lit "[" ++ join (lit ", ") tokens ++ lit "]") = Some prefix →
  LF ∉ rule → contents = [] ∨ last contents = Some LF →
  strip (appended contents rule) banned =
  strip contents banned ++
    (if bool_decide ((to_ascii_lowercase <$> prefix) ∈ banned_set banned) then [] else rule ++ [LF]).
Proof.
  intros Hr Ht Hj Hlf Hc. unfold appended.
  assert (negb (bool_decide (contents = [])) && negb (ends_with [LF] contents) = false) as ->.
  { destruct Hc as [->|Hl%ends_with_last]; [done|]. rewrite Hl. by destruct (bool_decide _). }
  cbn [app]. rewrite strip_append by done. by erewrite should_remove_allow.
Qed.
End Strip.

(** an append adds one line.  On a readable policy file, appending a line
    succeeds; if the line is already there nothing changes, otherwise the
    lines of the file are the old ones followed by the new one, whether or not
    the file ended with a newline. *)
Theorem append_adds_line dir path file contents line :
  default [] file = encode contents → scalar_text contents →
  clean_line line → last contents ≠ Some CR →
  ∃ contents', append_locked_line (good_io dir) path file line = (Some (encode contents'), Ok tt) ∧
    lines contents' = if bool_decide (line ∈ lines contents) then lines contents else lines contents ++ [line].
Proof.
  intros Hf Hs Hl Hcr. rewrite (append_good dir path file contents line Hf Hs). eexists. split; [done|].
  destruct (existsb (str_eqb line) (lines contents)) eqn:E.
  - apply existsb_str_eqb in E. by rewrite bool_decide_true.
  - rewrite bool_decide_false by (intros ?%existsb_str_eqb; congruence). by apply appended_lines.
Qed.

(** Appending is idempotent: a second append of the same line to a
    readable policy file, absent or not, leaves it as the first one left it. *)
Theorem append_idempotent dir path file contents line :
  default [] file = encode contents → scalar_text contents → scalar_text line → clean_line line →
  append_locked_line (good_io dir) path (append_locked_line (good_io dir) path file line).1 line =
  append_locked_line (good_io dir) path file line.
Proof.
  intros Hf Hs Hsl Hl. rewrite (append_good dir path file contents line Hf Hs). simpl.
  destruct (existsb (str_eqb line) (lines contents)) eqn:E.
  - rewrite (append_good dir path _ contents line) by done. by rewrite E.
  - rewrite (append_good dir path _ (appended contents line) line); [|done|by apply scalar_appended].
    by rewrite (proj2 (existsb_str_eqb _ _)) by (by apply appended_has_line).
Qed.

(** An append loses nothing.  Whichever call of the operating system
    fails, and wherever a write stops, the file after an append of a rule
    starts with all the bytes it had before. *)
Theorem append_loses_nothing io path file line :
  ∃ suffix, default [] (append_rule_line io path file line).1 = default [] file ++ suffix.
Proof.
  unfold append_rule_line. repeat case_match; first [apply append_only_step|by exists []; rewrite app_nil_r].
Qed.

(** ** Witnesses *)

(** Double quotes around a token, and the inverse on one-token lists. *)
Definition quote (s : str) : result str str := Ok ([34%N] ++ s ++ [34%N]).
Definition unquote (s : str) : option (list str) :=
  (strip_prefix ([chr "["] ++ [34%N]) s ≫= strip_suffix ([34%N] ++ [chr "]"])) ≫= λ t, Some [t].

Definition sudo_rule : str := RULE_START ++ (lit "[" ++ [34%N] ++ lit "Sudo" ++ [34%N] ++ lit "]") ++ RULE_END.
Definition ls_line : str := lit "# keep" ++ [LF].

Definition quiet_io : MigrationIo :=
  mkMigrationIo None None (λ f, f) None None None None None None None None.

Lemma migration_once_witness :
  match prefix_rule_migration unquote quiet_io false (Some (encode (ls_line ++ sudo_rule ++ [LF]))) [[lit "sudo"]] with
  | (marker', file', Err _) => marker' = false
  | (marker', file', Ok _) =>
      marker' = true ∧ (file' = None ∨ ∃ before after,
        (Some (encode (ls_line ++ sudo_rule ++ [LF])) = Some (encode before) ∨
         Some (encode (ls_line ++ sudo_rule ++ [LF])) = Some (encode before)) ∧
        file' = Some (encode after) ∧
        split_inclusive LF after =
          filter (λ line, should_remove_rule unquote line (banned_set [[lit "sudo"]]) = false) (split_inclusive LF before))
  end.
Proof.
  apply (migration_once unquote quiet_io false (Some (encode (ls_line ++ sudo_rule ++ [LF]))) [[lit "sudo"]]).
  intros e [H|H]; discriminate.
Defined.

(** The rule is gone and the comment stays. *)
Example migration_example :
  prefix_rule_migration unquote quiet_io false (Some (encode (ls_line ++ sudo_rule ++ [LF]))) [[lit "sudo"]]
  = (true, Some (encode ls_line), Ok tt).
Proof. vm_compute. reflexivity. Qed.

Lemma migration_recognises_amended_witness :
  strip_banned_allow_rules unquote (appended ls_line sudo_rule) [[lit "sudo"]] =
  strip_banned_allow_rules unquote ls_line [[lit "sudo"]] ++
    (if bool_decide ((to_ascii_lowercase <$> [lit "Sudo"]) ∈ banned_set [[lit "sudo"]]) then [] else sudo_rule ++ [LF]).
Proof.
  apply (migration_recognises_amended quote unquote [lit "Sudo"] sudo_rule [[34%N] ++ lit "Sudo" ++ [34%N]]).
  - reflexivity.
  - reflexivity.
  - vm_compute. reflexivity.
  - apply (bool_decide_unpack _). vm_compute. exact I.
  - right. reflexivity.
Defined.

Lemma append_adds_line_witness :
  ∃ contents', append_locked_line (good_io []) (lit "p") (Some (encode (lit "a"))) (lit "b") =
      (Some (encode contents'), Ok tt) ∧
    lines contents' = if bool_decide (lit "b" ∈ lines (lit "a")) then lines (lit "a") else lines (lit "a") ++ [lit "b"].
Proof.
  apply append_adds_line; [reflexivity|repeat constructor| |vm_compute; discriminate].
  apply (bool_decide_unpack _). vm_compute. exact I.
Defined.

Lemma append_idempotent_witness :
  append_locked_line (good_io []) (lit "p") (append_locked_line (good_io []) (lit "p") None (lit "b")).1 (lit "b") =
  append_locked_line (good_io []) (lit "p") None (lit "b").
Proof.
  apply (append_idempotent [] (lit "p") None []); [reflexivity|constructor|repeat constructor|].
  apply (bool_decide_unpack _). vm_compute. exact I.
Defined.
