(* ===== verification/StreamText.v ===== *)
(** * Streamed text parsers ([utils/stream-parser/src/stream_text.rs])

    The trait [StreamTextParser] as a class, and the contract the wrappers
    around a parser rely on: what a parser emits for a text does not depend on
    how the text was cut into chunks. *)
From stdpp Require Import numbers.
From S2P Require Import Prelude RustStr.

Record StreamTextChunk (T : Type) : Type := mkChunkOut {
  visible_text : str;
  extracted : list T;
}.
Arguments mkChunkOut {T} _ _.
Arguments visible_text {T} _.
Arguments extracted {T} _.

(** [StreamTextChunk::default]. *)
Definition chunk_default {T} : StreamTextChunk T := mkChunkOut [] [].

(** [StreamTextChunk::is_empty]. *)
Definition chunk_is_empty {T} (c : StreamTextChunk T) : bool :=
  match visible_text c, extracted c with [], [] => true | _, _ => false end.

(** Appending the text and the payloads of a later chunk. *)
Definition chunk_app {T} (a b : StreamTextChunk T) : StreamTextChunk T :=
  mkChunkOut (visible_text a ++ visible_text b) (extracted a ++ extracted b).

(** The trait. *)
Class StreamTextParser (P T : Type) : Type := {
  push_str : P → str → P * StreamTextChunk T;
  finish : P → P * StreamTextChunk T;
}.

(** Feeding a parser chunk by chunk. *)
Fixpoint push_all `{StreamTextParser P T} (p : P) (chunks : list str) : P * StreamTextChunk T :=
  match chunks with
  | [] => (p, chunk_default)
  | c :: chunks' =>
      let '(p1, o1) := push_str p c in
      let '(p2, o2) := push_all p1 chunks' in
      (p2, chunk_app o1 o2)
  end.

(** Feeding the chunks and flushing, the outputs joined. *)
Definition run_chunks `{StreamTextParser P T} (p : P) (chunks : list str) : StreamTextChunk T :=
  let '(p1, o1) := push_all p chunks in chunk_app o1 (finish p1).2.

(** The contract.  [chunk_equiv] says when two outputs carry the same payload;
    it is coarser than equality for parsers that may emit a run of text in
    several pieces.  The law holds of the states that satisfy [parser_ok]. *)
Class ChunkInvariant (P T : Type) `{StreamTextParser P T} : Type := {
  chunk_equiv : relation (StreamTextChunk T);
  chunk_equivalence :: Equivalence chunk_equiv;
  chunk_app_proper :: Proper (chunk_equiv ==> chunk_equiv ==> chunk_equiv) chunk_app;
  chunk_equiv_visible : ∀ a b, chunk_equiv a b → visible_text a = visible_text b;
  parser_ok : P → Prop;
  push_str_ok : ∀ p s, parser_ok p → parser_ok (push_str p s).1;
  push_str_nil : ∀ p, parser_ok p → (push_str p []).1 = p ∧ chunk_equiv (push_str p []).2 chunk_default;
  push_str_app : ∀ p s t, parser_ok p →
    (push_str p (s ++ t)).1 = (push_str (push_str p s).1 t).1 ∧
    chunk_equiv (push_str p (s ++ t)).2
      (chunk_app (push_str p s).2 (push_str (push_str p s).1 t).2);
}.

Section Facts.
Context {T : Type}.
Implicit Types (a b c : StreamTextChunk T).

Lemma chunk_app_nil_l a : chunk_app chunk_default a = a.
Proof. by destruct a. Qed.
Lemma chunk_app_nil_r a : chunk_app a chunk_default = a.
Proof. destruct a. unfold chunk_app. simpl. by rewrite !app_nil_r. Qed.
Lemma chunk_app_assoc a b c : chunk_app (chunk_app a b) c = chunk_app a (chunk_app b c).
Proof. unfold chunk_app. simpl. by rewrite <- !app_assoc. Qed.
End Facts.

Section Contract.
Context {P T : Type} `{CI : ChunkInvariant P T}.
Implicit Types (p : P).

Lemma push_all_ok p chunks : parser_ok p → parser_ok (push_all p chunks).1.
Proof.
  revert p. induction chunks as [|c chunks IH]; intros p Hp; [done|]. simpl.
  pose proof (push_str_ok p c Hp) as H1. destruct (push_str p c) as [p1 o1].
  specialize (IH p1 H1). by destruct (push_all p1 chunks).
Qed.

(** Feeding the chunks amounts to feeding their concatenation. *)
Lemma push_all_concat p chunks :
  parser_ok p →
  (push_all p chunks).1 = (push_str p (concat chunks)).1 ∧
  chunk_equiv (push_all p chunks).2 (push_str p (concat chunks)).2.
Proof.
  revert p. induction chunks as [|c chunks IH]; intros p Hp; simpl.
  - destruct (push_str_nil p Hp) as [-> ->]. done.
  - destruct (push_str_app p c (concat chunks) Hp) as [-> ->].
    pose proof (push_str_ok p c Hp) as H1. destruct (push_str p c) as [p1 o1]. simpl in *.
    destruct (IH p1 H1) as [He Ho]. destruct (push_all p1 chunks) as [p2 o2]. simpl in *.
    split; [done|]. by rewrite Ho.
Qed.

(** Two ways of cutting the same text give equivalent outputs. *)
Lemma run_chunks_equiv p chunks chunks' :
  parser_ok p → concat chunks = concat chunks' →
  chunk_equiv (run_chunks p chunks) (run_chunks p chunks').
Proof.
  intros Hp Heq. unfold run_chunks.
  destruct (push_all_concat p chunks Hp) as [H1 H2], (push_all_concat p chunks' Hp) as [H1' H2'].
  destruct (push_all p chunks) as [p1 o1], (push_all p chunks') as [p1' o1']. simpl in *.
  rewrite Heq in H1, H2. rewrite H2, H2'. by rewrite H1, H1'.
Qed.
End Contract.
