(* ===== verification/InlineHiddenTag.v ===== *)
(** * Hidden inline tags ([utils/stream-parser/src/inline_hidden_tag.rs], [citation.rs])

    The parser hides delimited spans of a streamed text and returns what they
    contain.  It may only emit text that cannot become part of a delimiter, so
    it holds back the longest suffix of its input that starts one. *)
From stdpp Require Import numbers strings.
From S2P Require Import Prelude RustStr StreamText.

Record ExtractedInlineTag (T : Type) : Type := mkExtracted { ext_tag : T; ext_content : str }.
Record InlineTagSpec (T : Type) : Type := mkSpec { spec_tag : T; spec_open : str; spec_close : str }.
Record ActiveTag (T : Type) : Type := mkActive { act_tag : T; act_close : str; act_content : str }.
Arguments mkExtracted {T} _ _.
Arguments ext_tag {T} _.
Arguments ext_content {T} _.
Arguments mkSpec {T} _ _ _.
Arguments spec_tag {T} _.
Arguments spec_open {T} _.
Arguments spec_close {T} _.
Arguments mkActive {T} _ _ _.
Arguments act_tag {T} _.
Arguments act_close {T} _.
Arguments act_content {T} _.

Record InlineHiddenTagParser (T : Type) : Type := mkInline {
  specs : list (InlineTagSpec T);
  pending : str;
  active : option (ActiveTag T);
}.
Arguments mkInline {T} _ _ _.
Arguments specs {T} _.
Arguments pending {T} _.
Arguments active {T} _.

(** [for k in (1..=max).rev()], [k] counted in chars. *)
Fixpoint lsp_from (k : nat) (s needle : str) : nat :=
  match k with
  | 0 => 0
  | S k' => if ends_with (take k needle) s then k else lsp_from k' s needle
  end.

(** [longest_suffix_prefix_len]. *)
Definition longest_suffix_prefix_len (s needle : str) : nat :=
  lsp_from (Nat.min (length s) (length needle - 1)) s needle.

(** A position, the byte length of the delimiter and the index of its spec. *)
Definition candidate : Type := nat * N * nat.

(** The comparison of [find_next_open]: earlier, then longer, then first. *)
Definition candidate_cmp (a b : candidate) : comparison :=
  let '(pos_a, len_a, idx_a) := a in
  let '(pos_b, len_b, idx_b) := b in
  match Nat.compare pos_a pos_b with
  | Eq => match N.compare len_b len_a with
          | Eq => Nat.compare idx_a idx_b
          | c => c
          end
  | c => c
  end.

(** [Iterator::min_by]: the first of the least elements. *)
Definition min_by {A} (cmp : A → A → comparison) (l : list A) : option A :=
  match l with
  | [] => None
  | x :: l' => Some (foldl (λ m y, match cmp m y with Gt => y | _ => m end) x l')
  end.

Section Inline.
Context {T : Type}.
Implicit Types (sp : list (InlineTagSpec T)) (p : InlineHiddenTagParser T).

(** [InlineHiddenTagParser::new]; [None] is the failure of an assertion. *)
Definition inline_new sp : option (InlineHiddenTagParser T) :=
  if bool_decide (length sp = 0) then None
  else if forallb (λ s, negb (bool_decide (spec_open s = [])) && negb (bool_decide (spec_close s = []))) sp
  then Some (mkInline sp [] None) else None.

Definition open_candidates sp (pending : str) : list candidate :=
  omap (λ '(idx, s), (λ pos, (pos, blen (spec_open s), idx)) <$> find (spec_open s) pending)
    (imap pair sp).
(** [find_next_open]. *)
Definition find_next_open sp (pending : str) : option (nat * nat) :=
  (λ '(pos, _, idx), (pos, idx)) <$> min_by candidate_cmp (open_candidates sp pending).

(** [max_open_prefix_suffix_len]. *)
Definition max_open_prefix_suffix_len sp (pending : str) : nat :=
  foldr Nat.max 0 ((λ s, longest_suffix_prefix_len pending (spec_open s)) <$> sp).

Definition push_visible (out : StreamTextChunk (ExtractedInlineTag T)) (text : str) :=
  mkChunkOut (visible_text out ++ text) (extracted out).
Definition push_extracted (out : StreamTextChunk (ExtractedInlineTag T)) (e : ExtractedInlineTag T) :=
  mkChunkOut (visible_text out) (extracted out ++ [e]).

(** The loop of [push_str].  Each iteration but the last removes a
    delimiter from [pending], so [length pending] iterations are enough. *)
Fixpoint push_loop (fuel : nat) sp (act : option (ActiveTag T)) (pending : str)
    (out : StreamTextChunk (ExtractedInlineTag T))
  : option (ActiveTag T) * str * StreamTextChunk (ExtractedInlineTag T) :=
  match fuel with
  | 0 => (act, pending, out)
  | S fuel' =>
      match act with
      | Some a =>
          match find (act_close a) pending with
          | Some close_idx =>
              let e := mkExtracted (act_tag a) (act_content a ++ take close_idx pending) in
              push_loop fuel' sp None (drop (close_idx + length (act_close a)) pending)
                (push_extracted out e)
          | None =>
              let keep := longest_suffix_prefix_len pending (act_close a) in
              let n := length pending - keep in
              (Some (mkActive (act_tag a) (act_close a) (act_content a ++ take n pending)),
               drop n pending, out)
          end
      | None =>
          match find_next_open sp pending with
          | Some (open_idx, spec_idx) =>
              match sp !! spec_idx with
              | Some s =>
                  push_loop fuel' sp (Some (mkActive (spec_tag s) (spec_close s) []))
                    (drop (open_idx + length (spec_open s)) pending)
                    (push_visible out (take open_idx pending))
              | None => (act, pending, out)
              end
          | None =>
              let keep := max_open_prefix_suffix_len sp pending in
              let n := length pending - keep in
              (None, drop n pending, push_visible out (take n pending))
          end
      end
  end.

(** [InlineHiddenTagParser::push_str]. *)
Definition inline_push_str p (chunk : str)
  : InlineHiddenTagParser T * StreamTextChunk (ExtractedInlineTag T) :=
  let input := pending p ++ chunk in
  let '(act, rest, out) := push_loop (S (length input)) (specs p) (active p) input chunk_default in
  (mkInline (specs p) rest act, out).

(** [InlineHiddenTagParser::finish]. *)
Definition inline_finish p : InlineHiddenTagParser T * StreamTextChunk (ExtractedInlineTag T) :=
  match active p with
  | Some a => (mkInline (specs p) [] None,
               mkChunkOut [] [mkExtracted (act_tag a) (act_content a ++ pending p)])
  | None => (mkInline (specs p) [] None, mkChunkOut (pending p) [])
  end.

#[global] Instance InlineHiddenTagParser_StreamTextParser :
  StreamTextParser (InlineHiddenTagParser T) (ExtractedInlineTag T) :=
  { push_str := inline_push_str; finish := inline_finish }.
End Inline.

(** ** Citations *)

Inductive CitationTag : Type := Citation.

Definition CITATION_OPEN : str := lit "<oai-mem-citation>".
Definition CITATION_CLOSE : str := lit "</oai-mem-citation>".

Definition citation_specs : list (InlineTagSpec CitationTag) :=
  [mkSpec Citation CITATION_OPEN CITATION_CLOSE].

Record CitationStreamParser : Type := mkCitation { citation_inner : InlineHiddenTagParser CitationTag }.

(** [CitationStreamParser::new]; the assertions of the inner constructor hold. *)
Definition citation_new : CitationStreamParser := mkCitation (mkInline citation_specs [] None).

(** [extracted.into_iter().map(|tag| tag.content).collect()]. *)
Definition citation_chunk (c : StreamTextChunk (ExtractedInlineTag CitationTag)) : StreamTextChunk str :=
  mkChunkOut (visible_text c) (ext_content <$> extracted c).

Definition citation_push_str (p : CitationStreamParser) (chunk : str)
  : CitationStreamParser * StreamTextChunk str :=
  let '(inner, out) := push_str (citation_inner p) chunk in (mkCitation inner, citation_chunk out).
Definition citation_finish (p : CitationStreamParser) : CitationStreamParser * StreamTextChunk str :=
  let '(inner, out) := finish (citation_inner p) in (mkCitation inner, citation_chunk out).

#[global] Instance CitationStreamParser_StreamTextParser : StreamTextParser CitationStreamParser str :=
  { push_str := citation_push_str; finish := citation_finish }.

(** [strip_citations]. *)
Definition strip_citations (text : str) : str * list str :=
  let '(p, out) := push_str citation_new text in
  let '(_, tail) := finish p in
  (visible_text out ++ visible_text tail, extracted out ++ extracted tail).

Example strip_citations_example :
  strip_citations (lit "hello <oai-mem-citation>doc A</oai-mem-citation> world<oai-mem-citation>b")
  = (lit "hello  world", [lit "doc A"; lit "b"]).
Proof. vm_compute. reflexivity. Qed.

(** * Properties of the inline tag parser

    Cutting the input into chunks never changes what is shown or extracted,
    as long as no opening delimiter occurs inside another; and the tags of a
    text are stripped exactly where they stand. *)

(** ** Occurrences *)

(** [w] occurs in [s] at offset [i]. *)
Definition occ (w s : str) (i : nat) : Prop := ∃ l r, s = l ++ w ++ r ∧ length l = i.

Lemma occ_app_r w s t i : occ w s i → occ w (s ++ t) i.
Proof. intros (l & r & -> & Hl). exists l, (r ++ t). by rewrite <- !app_assoc. Qed.

Lemma occ_shift w s t i : occ w s i → occ w (t ++ s) (length t + i).
Proof.
  intros (l & r & -> & Hl). exists (t ++ l), r. rewrite <- !app_assoc, length_app. split; [done|lia].
Qed.

Lemma occ_bound w s i : occ w s i → i + length w ≤ length s.
Proof. intros (l & r & -> & Hl). rewrite !length_app. lia. Qed.

Lemma occ_take_drop w s i : occ w s i → take (length w) (drop i s) = w.
Proof. intros (l & r & -> & <-). by rewrite drop_app_length, take_app_length. Qed.

Lemma occ_of_take_drop w s i : take (length w) (drop i s) = w → i ≤ length s → occ w s i.
Proof.
  intros H Hi. exists (take i s), (drop (length w) (drop i s)).
  rewrite <- H at 1. by rewrite !take_drop, length_take_le.
Qed.

(** An occurrence that ends within [s] is one of [s]. *)
Lemma occ_app_inv w s t i : occ w (s ++ t) i → i + length w ≤ length s → occ w s i.
Proof.
  intros H Hi. apply occ_take_drop in H. apply occ_of_take_drop; [|lia].
  rewrite drop_app_le, take_app_le in H; [done|rewrite length_drop; lia|lia].
Qed.

(** An occurrence that starts after [s1] is one of the rest. *)
Lemma occ_shift_inv w s1 s2 i : occ w (s1 ++ s2) i → length s1 ≤ i → occ w s2 (i - length s1).
Proof.
  intros H Hi. apply occ_bound in H as Hb. rewrite length_app in Hb.
  apply occ_take_drop in H. apply occ_of_take_drop; [|lia].
  rewrite drop_app_ge in H by lia. done.
Qed.

(** An occurrence that ends outside [s] starts with a suffix of [s]. *)
Lemma occ_crossing w s t i :
  occ w (s ++ t) i → i ≤ length s → length s < i + length w →
  ends_with (take (length s - i) w) s = true.
Proof.
  intros H Hi Hlt. apply ends_with_spec. exists (take i s).
  apply occ_take_drop in H. rewrite <- H, take_take, drop_app_le by lia.
  rewrite take_app_le by (rewrite length_drop; lia).
  rewrite (take_ge (drop i s)) by (rewrite length_drop; lia). by rewrite take_drop.
Qed.

Lemma starts_with_occ w s : starts_with w s = true ↔ occ w s 0.
Proof.
  rewrite starts_with_spec. split.
  - intros [r ->]. by exists [], r.
  - intros (l & r & -> & Hl). apply length_zero_iff_nil in Hl as ->. eauto.
Qed.

Lemma occ_cons w c s i : occ w (c :: s) (S i) ↔ occ w s i.
Proof.
  split.
  - intros H. apply (occ_shift_inv w [c] s (S i)) in H; [|simpl; lia]. simpl in H.
    by rewrite Nat.sub_0_r in H.
  - apply (occ_shift w s [c]).
Qed.

(** [find] returns the first occurrence. *)
Lemma find_spec w s :
  match find w s with
  | Some i => occ w s i ∧ ∀ j, occ w s j → i ≤ j
  | None => ∀ j, ¬ occ w s j
  end.
Proof.
  induction s as [|c s IH]; cbn [find].
  - destruct (starts_with w []) eqn:E; [split; [by apply starts_with_occ|lia]|].
    intros j Hj. apply occ_bound in Hj as Hb. simpl in Hb. assert (j = 0) as -> by lia.
    apply starts_with_occ in Hj. congruence.
  - destruct (starts_with w (c :: s)) eqn:E; [split; [by apply starts_with_occ|lia]|].
    assert (∀ j, occ w (c :: s) j → ∃ j', j = S j' ∧ occ w s j') as Hs.
    { intros [|j] Hj; [apply starts_with_occ in Hj; congruence|]. exists j. by rewrite occ_cons in Hj. }
    destruct (find w s) as [i|]; simpl.
    + destruct IH as [Hi Hmin]. split; [by apply occ_cons|].
      intros j (j' & -> & ?%Hmin)%Hs. lia.
    + intros j (j' & -> & ?%IH)%Hs. done.
Qed.

Lemma find_Some w s i : find w s = Some i ↔ occ w s i ∧ ∀ j, occ w s j → i ≤ j.
Proof.
  pose proof (find_spec w s) as H. destruct (find w s) as [i'|]; split.
  - by intros [= ->].
  - intros [Hi Hmin]. destruct H as [H1 H2]. f_equal. apply Nat.le_antisymm; auto.
  - done.
  - intros [Hi _]. by apply H in Hi.
Qed.
Lemma find_None w s : find w s = None ↔ ∀ j, ¬ occ w s j.
Proof.
  pose proof (find_spec w s) as H. destruct (find w s); [|done].
  split; [done|]. intros Hn. destruct H as [H _]. by apply Hn in H.
Qed.

(** A longer text keeps the first occurrence. *)
Lemma find_app w s t i : find w s = Some i → find w (s ++ t) = Some i.
Proof.
  rewrite !find_Some. intros [Hi Hmin]. split; [by apply occ_app_r|].
  intros j Hj. destruct (decide (j + length w ≤ length s)) as [Hle|].
  - apply Hmin. by eapply occ_app_inv.
  - apply occ_bound in Hi. lia.
Qed.

(** ** The suffix that is held back *)

Lemma lsp_from_spec n s w :
  let k := lsp_from n s w in
  k ≤ n ∧ ends_with (take k w) s = true ∧
  ∀ k', k' ≤ n → ends_with (take k' w) s = true → k' ≤ k.
Proof.
  induction n as [|n IH]; simpl.
  - split_and!; [done| |lia]. apply ends_with_spec. exists s. simpl. by rewrite app_nil_r.
  - destruct (ends_with (take (S n) w) s) eqn:E; [by split_and!|].
    destruct IH as (H1 & H2 & H3). split_and!; [lia|done|].
    intros k' Hk' He. apply H3; [|done]. assert (k' ≠ S n) by congruence. lia.
Qed.

Lemma ends_with_length w s : ends_with w s = true → length w ≤ length s.
Proof. intros [r ->]%ends_with_spec. rewrite length_app. lia. Qed.

(** The longest proper prefix of [w] that [s] ends with. *)
Lemma lsp_spec s w :
  let k := longest_suffix_prefix_len s w in
  k ≤ length s ∧ k ≤ length w - 1 ∧ ends_with (take k w) s = true ∧
  ∀ k', k' < length w → ends_with (take k' w) s = true → k' ≤ k.
Proof.
  unfold longest_suffix_prefix_len. destruct (lsp_from_spec (Nat.min (length s) (length w - 1)) s w)
    as (H1 & H2 & H3). split_and!; [lia|lia|done|].
  intros k' Hk' He. apply H3; [|done]. apply ends_with_length in He as Hl.
  rewrite length_take in Hl. lia.
Qed.

(** The suffix [s2] is all that later text can extend to an occurrence. *)
Lemma occ_tail w s1 s2 t :
  longest_suffix_prefix_len (s1 ++ s2) w ≤ length s2 → (∀ j, ¬ occ w (s1 ++ s2) j) →
  ∀ i, occ w ((s1 ++ s2) ++ t) i ↔ length s1 ≤ i ∧ occ w (s2 ++ t) (i - length s1).
Proof.
  intros Hk Hno i. split.
  - intros Hi. assert (length s1 ≤ i) as Hle.
    { destruct (decide (i + length w ≤ length (s1 ++ s2))) as [Hin|Hout].
      - by apply occ_app_inv, Hno in Hi.
      - destruct (decide (length s1 ≤ i)) as [|Hlt]; [done|]. exfalso.
        rewrite length_app in Hout.
        apply occ_crossing in Hi; [|rewrite length_app; lia..].
        apply lsp_spec in Hi; [|rewrite length_app; lia]. rewrite length_app in Hi. lia. }
    split; [done|]. rewrite <- app_assoc in Hi. by apply occ_shift_inv.
  - intros [Hle Hi]. apply (occ_shift _ _ s1) in Hi. rewrite app_assoc in Hi.
    by replace (length s1 + (i - length s1)) with i in Hi by lia.
Qed.

Lemma find_tail w s1 s2 t :
  longest_suffix_prefix_len (s1 ++ s2) w ≤ length s2 → find w (s1 ++ s2) = None →
  find w ((s1 ++ s2) ++ t) = Nat.add (length s1) <$> find w (s2 ++ t).
Proof.
  intros Hk Hno. pose proof (occ_tail w s1 s2 t Hk (proj1 (find_None _ _) Hno)) as Htail.
  pose proof (find_spec w (s2 ++ t)) as H. destruct (find w (s2 ++ t)) as [i|]; simpl.
  - destruct H as [Hi Hmin]. apply find_Some. split.
    + apply Htail. split; [lia|]. by replace (length s1 + i - length s1) with i by lia.
    + intros j [Hle Hj%Hmin]%Htail. lia.
  - apply find_None. intros j [_ Hj]%Htail. by apply H in Hj.
Qed.

Lemma ends_with_app_r w s t : ends_with w t = true → ends_with w (s ++ t) = true.
Proof. rewrite !ends_with_spec. intros [r ->]. exists (s ++ r). by rewrite app_assoc. Qed.

Lemma ends_with_app_inv w s t : ends_with w (s ++ t) = true → length w ≤ length t → ends_with w t = true.
Proof.
  rewrite !ends_with_spec. intros [r Hr] Hle. exists (drop (length s) r).
  apply (f_equal length) in Hr as Hl. rewrite !length_app in Hl.
  apply (f_equal (drop (length s))) in Hr. rewrite drop_app_length, drop_app_le in Hr; [done|lia].
Qed.

Lemma ends_with_app_split w s t :
  ends_with w (s ++ t) = true → length t ≤ length w →
  ends_with (take (length w - length t) w) s = true.
Proof.
  rewrite !ends_with_spec. intros [r Hr] Hle. exists r.
  assert (w = take (length w - length t) w ++ t) as Hw.
  { rewrite <- (take_drop (length w - length t) w) at 1. f_equal.
    apply (f_equal (drop (length (s ++ t) - length t))) in Hr as Hd.
    apply (f_equal length) in Hr as Hl. rewrite !length_app in Hl. rewrite length_app in Hd.
    rewrite drop_app_ge in Hd by lia. rewrite drop_app_ge in Hd by lia.
    replace (length s + length t - length t - length s) with 0 in Hd by lia.
    rewrite drop_0 in Hd. rewrite Hd at 2. f_equal. lia. }
  rewrite Hw, app_assoc in Hr at 1. by apply app_inv_tail in Hr.
Qed.

Lemma lsp_tail w s1 s2 t :
  longest_suffix_prefix_len (s1 ++ s2) w ≤ length s2 →
  longest_suffix_prefix_len ((s1 ++ s2) ++ t) w = longest_suffix_prefix_len (s2 ++ t) w.
Proof.
  intros Hk. destruct w as [|c w].
  { unfold longest_suffix_prefix_len. simpl. by rewrite !Nat.min_0_r. }
  destruct (lsp_spec ((s1 ++ s2) ++ t) (c :: w)) as (Ha & Ha' & He & Hmax).
  destruct (lsp_spec (s2 ++ t) (c :: w)) as (Hb & Hb' & He' & Hmax').
  set (k := longest_suffix_prefix_len ((s1 ++ s2) ++ t) (c :: w)) in *.
  set (k' := longest_suffix_prefix_len (s2 ++ t) (c :: w)) in *. simpl length in Ha', Hb'.
  apply Nat.le_antisymm.
  - apply Hmax'; [simpl; lia|].
    assert (length (take k (c :: w)) = k) as Hlen by (rewrite length_take; simpl; lia).
    destruct (decide (k ≤ length (s2 ++ t))) as [Hle|Hgt].
    + rewrite <- app_assoc in He. eapply ends_with_app_inv; [exact He|lia].
    + exfalso. rewrite length_app in Hgt. apply ends_with_app_split in He; [|lia].
      rewrite Hlen, take_take in He. apply lsp_spec in He; [lia|simpl; lia].
  - apply Hmax; [simpl; lia|]. rewrite <- app_assoc. by apply ends_with_app_r.
Qed.

(** ** The next opening delimiter *)

Section Open.
Context {T : Type}.
Implicit Types (sp : list (InlineTagSpec T)).

(** No opening delimiter occurs inside another one. *)
Definition opens_disjoint sp : Prop :=
  ∀ i j a b k, sp !! i = Some a → sp !! j = Some b → i ≠ j → ¬ occ (spec_open a) (spec_open b) k.
Definition specs_ok sp : Prop :=
  Forall (λ s, spec_open s ≠ [] ∧ spec_close s ≠ []) sp ∧ opens_disjoint sp.

Lemma elem_of_candidates sp s pos len idx :
  (pos, len, idx) ∈ open_candidates sp s ↔
  ∃ a, sp !! idx = Some a ∧ len = blen (spec_open a) ∧ find (spec_open a) s = Some pos.
Proof.
  unfold open_candidates. rewrite list_elem_of_omap. split.
  - intros ([i a] & (n & Hn)%list_elem_of_lookup & H). rewrite list_lookup_imap in Hn.
    destruct (sp !! n) as [a'|] eqn:E; simplify_eq/=.
    destruct (find (spec_open a) s) eqn:Ef; simplify_eq/=. eauto.
  - intros (a & Ha & -> & Hf). exists (idx, a). rewrite Hf. split; [|done].
    apply list_elem_of_lookup. exists idx. by rewrite list_lookup_imap, Ha.
Qed.

Definition cand_pos (c : candidate) : nat := c.1.1.

Lemma candidate_cmp_pos a b :
  match candidate_cmp a b with Gt => cand_pos b ≤ cand_pos a | _ => cand_pos a ≤ cand_pos b end.
Proof.
  destruct a as [[pa la] ia], b as [[pb lb] ib]. unfold candidate_cmp, cand_pos. simpl.
  destruct (Nat.compare_spec pa pb); [|lia..]. repeat case_match; lia.
Qed.

(** [min_by] returns an element at the least position. *)
Lemma min_by_spec (l : list candidate) c :
  min_by candidate_cmp l = Some c → c ∈ l ∧ ∀ d, d ∈ l → cand_pos c ≤ cand_pos d.
Proof.
  destruct l as [|x l]; [done|]. simpl. intros [= <-]. revert x.
  induction l as [|y l IH]; intros x; simpl; [set_solver|].
  pose proof (candidate_cmp_pos x y) as Hc.
  destruct (candidate_cmp x y); [destruct (IH x) as [Hin Hle]|destruct (IH x) as [Hin Hle]
    |destruct (IH y) as [Hin Hle]]; (split; [set_solver|]); intros d Hd;
    pose proof (Hle _ (list_elem_of_here _ _)); rewrite !elem_of_cons in Hd;
    destruct Hd as [->|[->|Hd]]; try lia; apply Hle; set_solver.
Qed.

Lemma find_next_open_Some sp s p i :
  find_next_open sp s = Some (p, i) →
  ∃ a, sp !! i = Some a ∧ find (spec_open a) s = Some p ∧
    ∀ j b q, sp !! j = Some b → find (spec_open b) s = Some q → p ≤ q.
Proof.
  unfold find_next_open. destruct (min_by _ _) as [[[p' len] i']|] eqn:E; [|done].
  intros [= -> ->]. apply min_by_spec in E as [(a & Ha & _ & Hf)%elem_of_candidates Hmin].
  exists a. split_and!; [done..|]. intros j b q Hb Hq.
  apply (Hmin (q, blen (spec_open b), j)). apply elem_of_candidates. eauto.
Qed.

Lemma find_next_open_None sp s :
  find_next_open sp s = None ↔ ∀ j b, sp !! j = Some b → find (spec_open b) s = None.
Proof.
  unfold find_next_open. destruct (open_candidates sp s) as [|[[p len] i] l] eqn:E; simpl.
  - split; [|done]. intros _ j b Hb. destruct (find (spec_open b) s) as [q|] eqn:Ef; [|done].
    assert ((q, blen (spec_open b), j) ∈ open_candidates sp s) as Hin by (apply elem_of_candidates; eauto).
    rewrite E in Hin. set_solver.
  - assert ((p, len, i) ∈ open_candidates sp s) as (a & Ha & _ & Hf)%elem_of_candidates
      by (rewrite E; left).
    split; [done|]. intros H. apply H in Ha. congruence.
Qed.

(** The next delimiter stays the next one when text is appended. *)
Lemma find_next_open_app sp s t r :
  opens_disjoint sp → find_next_open sp s = Some r → find_next_open sp (s ++ t) = Some r.
Proof.
  destruct r as [p i]. intros Hd (a & Ha & Hf & Hmin)%find_next_open_Some.
  apply (find_app _ _ t) in Hf as Hft.
  destruct (find_next_open sp (s ++ t)) as [[q j]|] eqn:E.
  2:{ apply find_next_open_None with (j := i) (b := a) in E; [congruence|done]. }
  apply find_next_open_Some in E as (b & Hb & Hq & Hmin'). f_equal.
  specialize (Hmin' _ _ _ Ha Hft). destruct (decide (i = j)) as [<-|Hij]; [congruence|]. exfalso.
  apply find_Some in Hf as [Ho _]. apply find_Some in Hq as [Ho' Hq].
  apply occ_bound in Ho as Hbound.
  destruct (decide (q + length (spec_open b) < p + length (spec_open a))) as [Hlt|Hge].
  - (* [b] ends before [a] does, within [s] *)
    assert (occ (spec_open b) s q) as Hob by (eapply occ_app_inv; [done|lia]).
    destruct (find (spec_open b) s) as [q'|] eqn:Eq; [|by eapply find_None in Eq].
    apply find_Some in Eq as Eq'. destruct Eq' as [_ Hle]. apply Hle in Hob as Hle'.
    specialize (Hmin _ _ _ Hb Eq). assert (q = p) as -> by lia.
    apply (Hd j i b a 0 Hb Ha); [done|]. apply occ_of_take_drop; [|lia].
    apply occ_take_drop in Ho, Hob. rewrite drop_0, <- Ho, take_take.
    by rewrite Nat.min_l by lia.
  - (* [a] lies within [b] *)
    apply (Hd i j a b (p - q) Ha Hb); [done|]. apply (occ_app_r _ _ t), occ_take_drop in Ho.
    apply occ_of_take_drop; [|lia]. apply occ_take_drop in Ho'. rewrite <- Ho'.
    rewrite skipn_firstn_comm, take_take, drop_drop.
    replace (q + (p - q)) with p by lia. rewrite Nat.min_l by lia. done.
Qed.

Lemma omap_fmap_elem {A B C} (f : A → option B) (g : A → option C) (h : C → B) (l : list A) :
  (∀ x, x ∈ l → f x = h <$> g x) → omap f l = h <$> omap g l.
Proof.
  induction l as [|x l IH]; intros Hx; [done|]. csimpl. rewrite (Hx x) by left.
  destruct (g x); csimpl; rewrite IH by set_solver; done.
Qed.

Lemma min_by_fmap {A} (cmp : A → A → comparison) (h : A → A) :
  (∀ a b, cmp (h a) (h b) = cmp a b) → ∀ l, min_by cmp (h <$> l) = h <$> min_by cmp l.
Proof.
  intros Hh [|c l]; [done|]. simpl. f_equal. revert c. induction l as [|d l IH]; intros c; [done|].
  simpl. rewrite Hh, <- IH. by destruct (cmp c d).
Qed.

(** Text that only a delimiter's start was kept of finds the same one. *)
Lemma find_next_open_tail sp s1 s2 t :
  Forall (λ a, longest_suffix_prefix_len (s1 ++ s2) (spec_open a) ≤ length s2) sp →
  find_next_open sp (s1 ++ s2) = None →
  find_next_open sp ((s1 ++ s2) ++ t) = prod_map (Nat.add (length s1)) id <$> find_next_open sp (s2 ++ t).
Proof.
  intros Hk Hno. pose proof (proj1 (find_next_open_None _ _) Hno) as Hno'. unfold find_next_open.
  set (sh := λ c : candidate, (length s1 + c.1.1, c.1.2, c.2)).
  assert (open_candidates sp ((s1 ++ s2) ++ t) = sh <$> open_candidates sp (s2 ++ t)) as ->.
  { unfold open_candidates. assert (∀ i a, (i, a) ∈ imap pair sp → sp !! i = Some a) as Hin.
    { intros i a (n & Hn)%list_elem_of_lookup. rewrite list_lookup_imap in Hn.
      by destruct (sp !! n) eqn:E; simplify_eq/=. }
    apply omap_fmap_elem. intros [i a] Ha%Hin.
    rewrite find_tail; [|by eapply Forall_lookup_1 in Hk|by eapply Hno'].
    by destruct (find (spec_open a) (s2 ++ t)). }
  assert (∀ a b, candidate_cmp (sh a) (sh b) = candidate_cmp a b) as Hcmp.
  { intros [[pa la] ia] [[pb lb] ib]. unfold sh, candidate_cmp. simpl.
    destruct (Nat.compare_spec pa pb), (Nat.compare_spec (length s1 + pa) (length s1 + pb)); (done || lia). }
  rewrite (min_by_fmap _ sh Hcmp). by destruct (min_by _ _) as [[[p len] i]|].
Qed.

Lemma max_open_spec sp s :
  Forall (λ a, longest_suffix_prefix_len s (spec_open a) ≤ max_open_prefix_suffix_len sp s) sp ∧
  max_open_prefix_suffix_len sp s ≤ length s.
Proof.
  unfold max_open_prefix_suffix_len. induction sp as [|a sp [IH1 IH2]]; simpl; [split; [done|lia]|].
  split.
  - constructor; [lia|]. eapply Forall_impl; [exact IH1|]. intros b Hb. etrans; [exact Hb|apply Nat.le_max_r].
  - destruct (lsp_spec s (spec_open a)) as [Hl _]. by apply Nat.max_lub.
Qed.

Lemma max_open_tail sp s1 s2 t :
  Forall (λ a, longest_suffix_prefix_len (s1 ++ s2) (spec_open a) ≤ length s2) sp →
  max_open_prefix_suffix_len sp ((s1 ++ s2) ++ t) = max_open_prefix_suffix_len sp (s2 ++ t).
Proof.
  unfold max_open_prefix_suffix_len. induction 1 as [|a sp Ha Hsp IH]; [done|].
  rewrite !fmap_cons. cbn [foldr]. by rewrite IH, lsp_tail.
Qed.
End Open.

(** ** The loop *)

Section Loop.
Context {T : Type}.
Implicit Types (sp : list (InlineTagSpec T)) (act : option (ActiveTag T)) (p : InlineHiddenTagParser T).

(** The delimiter that is searched for is not empty. *)
Definition active_ok act : Prop := match act with Some a => act_close a ≠ [] | None => True end.

Lemma push_loop_out n sp act s out :
  push_loop n sp act s out =
  let '(act', s', o) := push_loop n sp act s chunk_default in (act', s', chunk_app out o).
Proof.
  revert act s out. induction n as [|n IH]; intros act s out; simpl; [by rewrite chunk_app_nil_r|].
  destruct act as [a|].
  - destruct (find (act_close a) s) as [i|].
    + rewrite IH, (IH _ _ (push_extracted chunk_default _)).
      destruct (push_loop n sp None _ _) as [[act' s'] o]. unfold chunk_app. simpl.
      by rewrite <- app_assoc.
    + by rewrite chunk_app_nil_r.
  - destruct (find_next_open sp s) as [[i j]|].
    + destruct (sp !! j) as [a|]; [|by rewrite chunk_app_nil_r].
      rewrite IH, (IH _ _ (push_visible chunk_default _)).
      destruct (push_loop n sp (Some _) _ _) as [[act' s'] o]. unfold chunk_app. simpl.
      by rewrite <- app_assoc.
    + unfold chunk_app, push_visible. simpl. by rewrite app_nil_r.
Qed.

Lemma find_consumes w s i : w ≠ [] → find w s = Some i → length (drop (i + length w) s) < length s.
Proof.
  intros Hw [Hi%occ_bound _]%find_Some. rewrite length_drop. destruct w; [done|]. simpl in *. lia.
Qed.

Lemma find_next_open_consumes sp s i j a :
  specs_ok sp → find_next_open sp s = Some (i, j) → sp !! j = Some a →
  length (drop (i + length (spec_open a)) s) < length s.
Proof.
  intros [Hne _] (a' & Ha' & Hf & _)%find_next_open_Some Ha. simplify_eq.
  eapply Forall_lookup_1 in Hne; [|done]. apply find_consumes; [by apply Hne|done].
Qed.

(** More fuel than characters changes nothing. *)
Lemma push_loop_fuel n m sp act s out :
  specs_ok sp → active_ok act → length s < n → length s < m →
  push_loop n sp act s out = push_loop m sp act s out.
Proof.
  intros Hsp. revert m act s out.
  induction n as [|n IH]; intros [|m] act s out Hact Hn Hm; [lia..|]. simpl.
  destruct act as [a|].
  - destruct (find (act_close a) s) as [i|] eqn:E; [|done].
    apply find_consumes in E; [|done]. apply IH; [done|lia..].
  - destruct (find_next_open sp s) as [[i j]|] eqn:E; [|done].
    destruct (sp !! j) as [a|] eqn:Ea; [|done].
    pose proof (find_next_open_consumes _ _ _ _ _ Hsp E Ea). apply IH; [|lia..].
    destruct Hsp as [Hne _]. eapply Forall_lookup_1 in Hne; [|done]. apply Hne.
Qed.

Lemma push_loop_active n sp act s out :
  specs_ok sp → active_ok act → active_ok (push_loop n sp act s out).1.1.
Proof.
  intros [Hne _]. revert act s out. induction n as [|n IH]; intros act s out Hact; simpl; [done|].
  destruct act as [a|].
  - destruct (find (act_close a) s); [by apply IH|done].
  - destruct (find_next_open sp s) as [[i j]|]; [|done].
    destruct (sp !! j) as [a|] eqn:Ea; [|done]. apply IH.
    eapply Forall_lookup_1 in Hne; [|done]. apply Hne.
Qed.

(** The loop with the fuel [push_str] gives it, as an equation. *)
Definition loop sp act (s : str) := push_loop (S (length s)) sp act s chunk_default.

(** The outputs of a first and a second part joined. *)
Definition after (out : StreamTextChunk (ExtractedInlineTag T))
    (r : option (ActiveTag T) * str * StreamTextChunk (ExtractedInlineTag T)) :=
  let '(act, s, o) := r in (act, s, chunk_app out o).

Lemma after_after o1 o2 r : after o1 (after o2 r) = after (chunk_app o1 o2) r.
Proof. destruct r as [[act s] o]. simpl. by rewrite chunk_app_assoc. Qed.

Lemma loop_eq sp act s :
  specs_ok sp → active_ok act →
  loop sp act s =
  match act with
  | Some a =>
      match find (act_close a) s with
      | Some i => after (mkChunkOut [] [mkExtracted (act_tag a) (act_content a ++ take i s)])
                    (loop sp None (drop (i + length (act_close a)) s))
      | None => let n := length s - longest_suffix_prefix_len s (act_close a) in
                (Some (mkActive (act_tag a) (act_close a) (act_content a ++ take n s)), drop n s, chunk_default)
      end
  | None =>
      match find_next_open sp s with
      | Some (i, j) =>
          match sp !! j with
          | Some a => after (mkChunkOut (take i s) [])
                        (loop sp (Some (mkActive (spec_tag a) (spec_close a) []))
                           (drop (i + length (spec_open a)) s))
          | None => (None, s, chunk_default)
          end
      | None => let n := length s - max_open_prefix_suffix_len sp s in
                (None, drop n s, mkChunkOut (take n s) [])
      end
  end.
Proof.
  intros Hsp Hact. unfold loop. cbn [push_loop]. destruct act as [a|].
  - destruct (find (act_close a) s) as [i|] eqn:E; [|done]. apply find_consumes in E; [|done].
    rewrite push_loop_out, (push_loop_fuel _ (S (length (drop (i + length (act_close a)) s)))) by (done || lia).
    done.
  - destruct (find_next_open sp s) as [[i j]|] eqn:E; [|done].
    destruct (sp !! j) as [a|] eqn:Ea; [|done].
    pose proof (find_next_open_consumes _ _ _ _ _ Hsp E Ea).
    rewrite push_loop_out, (push_loop_fuel _ (S (length (drop (i + length (spec_open a)) s)))); [done..| |lia|lia].
    destruct Hsp as [Hne _]. eapply Forall_lookup_1 in Hne; [|done]. apply Hne.
Qed.

Lemma loop_active sp act s : specs_ok sp → active_ok act → active_ok (loop sp act s).1.1.
Proof. apply push_loop_active. Qed.

Lemma take_drop_tail (s t : str) n i :
  n ≤ length s → take n s ++ take i (drop n s ++ t) = take (n + i) (s ++ t) ∧
  drop i (drop n s ++ t) = drop (n + i) (s ++ t).
Proof.
  intros Hn. assert (length (take n s) = n) as Hl by (rewrite length_take; lia).
  replace (s ++ t) with (take n s ++ (drop n s ++ t)) by (by rewrite app_assoc, take_drop).
  rewrite (take_app_ge (take n s)), (drop_app_ge (take n s)) by lia. rewrite Hl.
  replace (n + i - n) with i by lia. done.
Qed.

(** Resuming inside a tag. *)
Lemma loop_resume_active sp a s t :
  specs_ok sp → act_close a ≠ [] → find (act_close a) s = None →
  let n := length s - longest_suffix_prefix_len s (act_close a) in
  loop sp (Some a) (s ++ t) =
  loop sp (Some (mkActive (act_tag a) (act_close a) (act_content a ++ take n s))) (drop n s ++ t).
Proof.
  intros Hsp Ha Hno n. rewrite !loop_eq by done. cbn [act_tag act_close act_content].
  destruct (lsp_spec s (act_close a)) as [Hmax _].
  assert (length (drop n s) = longest_suffix_prefix_len s (act_close a)) as Hlen
    by (rewrite length_drop; lia).
  assert (length (take n s) = n) as Hn by (rewrite length_take; lia).
  pose proof (find_tail (act_close a) (take n s) (drop n s) t) as Hf.
  pose proof (lsp_tail (act_close a) (take n s) (drop n s) t) as Hl.
  rewrite take_drop in Hf, Hl. rewrite Hf, Hl, Hn by (done || lia).
  destruct (find (act_close a) (drop n s ++ t)) as [i|]; simpl.
  - destruct (take_drop_tail s t n i) as [Ht _]; [lia|].
    destruct (take_drop_tail s t n (i + length (act_close a))) as [_ Hd]; [lia|].
    rewrite <- app_assoc, Ht, Hd. by replace (n + i + length (act_close a)) with (n + (i + length (act_close a))) by lia.
  - set (k := longest_suffix_prefix_len (drop n s ++ t) (act_close a)).
    assert (k ≤ length (drop n s ++ t)) as Hk by apply lsp_spec.
    destruct (take_drop_tail s t n (length (drop n s ++ t) - k)) as [Ht Hd]; [lia|].
    rewrite <- app_assoc, Ht, Hd. rewrite length_app in Hk. rewrite !length_app, Hlen.
    replace (length s + length t - k) with (n + (longest_suffix_prefix_len s (act_close a) + length t - k)) by lia.
    done.
Qed.

(** Resuming outside a tag. *)
Lemma loop_resume_inactive sp s t :
  specs_ok sp → find_next_open sp s = None →
  let n := length s - max_open_prefix_suffix_len sp s in
  loop sp None (s ++ t) = after (mkChunkOut (take n s) []) (loop sp None (drop n s ++ t)).
Proof.
  intros Hsp Hno n. rewrite !loop_eq by done. destruct (max_open_spec sp s) as [Hall Hmax].
  assert (length (drop n s) = max_open_prefix_suffix_len sp s) as Hlen by (rewrite length_drop; lia).
  assert (length (take n s) = n) as Hn by (rewrite length_take; lia).
  pose proof (find_next_open_tail sp (take n s) (drop n s) t) as Hf.
  pose proof (max_open_tail sp (take n s) (drop n s) t) as Hl.
  rewrite take_drop, Hlen in Hf, Hl. rewrite Hf, Hl, Hn by done.
  destruct (find_next_open sp (drop n s ++ t)) as [[i j]|] eqn:Enext; simpl.
  - destruct (sp !! j) as [a|] eqn:Ej.
    + rewrite after_after. destruct (take_drop_tail s t n i) as [Ht _]; [lia|].
      destruct (take_drop_tail s t n (i + length (spec_open a))) as [_ Hd]; [lia|].
      unfold chunk_app. simpl. rewrite Ht, Hd.
      by replace (n + i + length (spec_open a)) with (n + (i + length (spec_open a))) by lia.
    + apply find_next_open_Some in Enext as (a & Ha & _). congruence.
  - set (k := max_open_prefix_suffix_len sp (drop n s ++ t)).
    assert (k ≤ length (drop n s ++ t)) as Hk by apply max_open_spec.
    destruct (take_drop_tail s t n (length (drop n s ++ t) - k)) as [Ht Hd]; [lia|].
    unfold chunk_app. simpl. rewrite Ht, Hd. rewrite length_app in Hk. rewrite !length_app, Hlen.
    replace (length s + length t - k) with (n + (max_open_prefix_suffix_len sp s + length t - k)) by lia.
    done.
Qed.

(** Resuming on more input continues where the loop stopped. *)
Lemma loop_resume sp act s t :
  specs_ok sp → active_ok act →
  loop sp act (s ++ t) = let '(act', s', o) := loop sp act s in after o (loop sp act' (s' ++ t)).
Proof.
  intros Hsp. remember (length s) as len eqn:Hlen. revert act s Hlen.
  induction (lt_wf len) as [len _ IH]. intros act s -> Hact. rewrite (loop_eq sp act s) by done.
  destruct act as [a|].
  - destruct (find (act_close a) s) as [i|] eqn:E.
    + apply find_consumes in E as Hc; [|done]. apply find_Some in E as Hb. destruct Hb as [Hb%occ_bound _].
      rewrite loop_eq, (find_app _ _ t _ E), take_app_le, drop_app_le by (done || lia).
      rewrite (IH _ Hc) by done. destruct (loop sp None _) as [[act' s'] o]. simpl.
      by rewrite after_after.
    + rewrite (loop_resume_active sp a s t) by done. cbv beta iota zeta.
      destruct (loop sp (Some _) (_ ++ t)) as [[act' s'] o]. by destruct o.
  - destruct (find_next_open sp s) as [[i j]|] eqn:E.
    + destruct (sp !! j) as [a|] eqn:Ea.
      2:{ apply find_next_open_Some in E as (a & Ha & _). congruence. }
      pose proof (find_next_open_consumes _ _ _ _ _ Hsp E Ea) as Hc.
      apply find_next_open_Some in E as Hb. destruct Hb as (a' & Ha' & Hb & _). simplify_eq.
      apply find_Some in Hb as [Hb%occ_bound _].
      rewrite loop_eq, (find_next_open_app _ _ t _ (proj2 Hsp) E), Ea, take_app_le, drop_app_le by (done || lia).
      rewrite (IH _ Hc) by (done || (destruct Hsp as [Hne _]; eapply Forall_lookup_1 in Hne; [apply Hne|done])).
      destruct (loop sp (Some _) _) as [[act' s'] o]. simpl. by rewrite after_after.
    + by rewrite (loop_resume_inactive sp s t).
Qed.

(** A loop that has stopped does nothing more without new input. *)
Lemma loop_idle sp act s :
  specs_ok sp → active_ok act →
  let '(act', s', _) := loop sp act s in loop sp act' s' = (act', s', chunk_default).
Proof.
  intros Hsp Hact. pose proof (loop_resume sp act s [] Hsp Hact) as H.
  rewrite app_nil_r in H. destruct (loop sp act s) as [[act' s'] o]. rewrite app_nil_r in H.
  destruct (loop sp act' s') as [[act'' s''] o']. simpl in H. injection H as -> -> Ho.
  f_equal. destruct o as [v e], o' as [v' e']. unfold chunk_app in Ho. simpl in Ho.
  injection Ho as Hv He. apply (f_equal length) in Hv as Hlv, He as Hle.
  rewrite length_app in Hlv, Hle. destruct v', e'; simpl in *; (done || lia).
Qed.
End Loop.

(** ** The contract *)

Section Instances.
Context {T : Type}.
Implicit Types (p : InlineHiddenTagParser T).

(** The states a parser reaches: it has nothing more to do with what it
    holds back. *)
Definition inline_ok p : Prop :=
  specs_ok (specs p) ∧ active_ok (active p) ∧
  loop (specs p) (active p) (pending p) = (active p, pending p, chunk_default).

Lemma inline_push_str_loop p s :
  inline_push_str p s =
  let '(act, rest, out) := loop (specs p) (active p) (pending p ++ s) in (mkInline (specs p) rest act, out).
Proof. done. Qed.

Lemma inline_push_str_ok p s : inline_ok p → inline_ok (inline_push_str p s).1.
Proof.
  intros (Hsp & Hact & _). rewrite inline_push_str_loop.
  pose proof (loop_active (specs p) (active p) (pending p ++ s) Hsp Hact) as Ha.
  pose proof (loop_idle (specs p) (active p) (pending p ++ s) Hsp Hact) as Hi.
  by destruct (loop _ _ _) as [[act' s'] o].
Qed.

#[global] Program Instance inline_ChunkInvariant :
  ChunkInvariant (InlineHiddenTagParser T) (ExtractedInlineTag T) :=
  { chunk_equiv := eq; parser_ok := inline_ok }.
Next Obligation. intros a b ->. done. Qed.
Next Obligation. apply inline_push_str_ok. Qed.
Next Obligation.
  intros p (Hsp & Hact & Hidle). simpl. rewrite inline_push_str_loop, app_nil_r, Hidle. by destruct p.
Qed.
Next Obligation.
  intros p s t (Hsp & Hact & _). cbn [push_str InlineHiddenTagParser_StreamTextParser].
  rewrite !(inline_push_str_loop p), app_assoc.
  rewrite loop_resume by done. destruct (loop _ _ (pending p ++ s)) as [[act' s'] o]. cbn [fst snd].
  rewrite inline_push_str_loop. cbn [specs active pending]. by destruct (loop _ _ (s' ++ t)) as [[act'' s''] o'].
Qed.

Lemma inline_new_ok sp p : inline_new sp = Some p → opens_disjoint sp → inline_ok p.
Proof.
  unfold inline_new. intros H Hd. run H.
  assert (specs_ok sp) as Hsp.
  { split; [|done]. apply Forall_forall. intros s Hs.
    match goal with H : forallb _ _ = true |- _ => rewrite forallb_forall in H;
      specialize (H s); rewrite <- list_elem_of_In in H; apply H in Hs end.
    reflect_bools. done. }
  split_and!; [done..|]. simpl. rewrite loop_eq by done.
  rewrite (proj2 (find_next_open_None _ _)); [done|].
  intros j a Ha. apply find_None. intros i Hi%occ_bound.
  destruct Hsp as [Hne _]. eapply Forall_lookup_1 in Hne as [Ho _]; [|done].
  destruct (spec_open a); [done|]. simpl in Hi. lia.
Qed.
End Instances.

Lemma single_disjoint {T} (a : InlineTagSpec T) : opens_disjoint [a].
Proof.
  intros i j x y k [-> _]%list_lookup_singleton_Some [-> _]%list_lookup_singleton_Some. done.
Qed.

(** ** Citations *)

Lemma citation_chunk_app a b : citation_chunk (chunk_app a b) = chunk_app (citation_chunk a) (citation_chunk b).
Proof. unfold citation_chunk, chunk_app. simpl. by rewrite fmap_app. Qed.

Lemma citation_push_str_fst p s : (citation_push_str p s).1 = mkCitation (push_str (citation_inner p) s).1.
Proof. unfold citation_push_str. by destruct (push_str _ _). Qed.
Lemma citation_push_str_snd p s : (citation_push_str p s).2 = citation_chunk (push_str (citation_inner p) s).2.
Proof. unfold citation_push_str. by destruct (push_str _ _). Qed.

#[global] Program Instance citation_ChunkInvariant : ChunkInvariant CitationStreamParser str :=
  { chunk_equiv := eq; parser_ok p := parser_ok (citation_inner p) }.
Next Obligation. intros a b ->. done. Qed.
Next Obligation.
  intros p s Hp. cbn [push_str CitationStreamParser_StreamTextParser]. rewrite citation_push_str_fst.
  by apply (push_str_ok (citation_inner p)).
Qed.
Next Obligation.
  intros p Hp. cbn [push_str CitationStreamParser_StreamTextParser].
  rewrite citation_push_str_fst, citation_push_str_snd.
  destruct (push_str_nil (citation_inner p) Hp) as [-> ->]. by destruct p.
Qed.
Next Obligation.
  intros p s t Hp. cbn [push_str CitationStreamParser_StreamTextParser].
  rewrite !citation_push_str_fst, !citation_push_str_snd. cbn [citation_inner].
  destruct (push_str_app (citation_inner p) s t Hp) as [-> ->]. by rewrite citation_chunk_app.
Qed.

Lemma citation_specs_ok : specs_ok citation_specs.
Proof. split; [repeat constructor; done|apply single_disjoint]. Qed.

Lemma citation_new_ok : parser_ok citation_new.
Proof. apply (inline_new_ok citation_specs); [reflexivity|apply single_disjoint]. Qed.

(** What [push_str] followed by [finish] returns from a state. *)
Definition flush (r : option (ActiveTag CitationTag) * str * StreamTextChunk (ExtractedInlineTag CitationTag)) :=
  let '(act, s, o) := r in chunk_app o (inline_finish (mkInline citation_specs s act)).2.
Definition total act (s : str) : StreamTextChunk str := citation_chunk (flush (loop citation_specs act s)).

Lemma strip_citations_total text :
  strip_citations text = (visible_text (total None text), extracted (total None text)).
Proof.
  unfold strip_citations, total, push_str, finish. simpl. unfold citation_push_str, citation_finish. simpl.
  rewrite inline_push_str_loop. simpl. destruct (loop citation_specs None text) as [[act s] o]. simpl.
  destruct (inline_finish _) as [p tail]. simpl. by rewrite fmap_app.
Qed.

Lemma flush_after o r : flush (after o r) = chunk_app o (flush r).
Proof. destruct r as [[act s] o']. simpl. by rewrite chunk_app_assoc. Qed.

Lemma find_next_open_single s :
  find_next_open citation_specs s = (λ i, (i, 0)) <$> find CITATION_OPEN s.
Proof.
  unfold find_next_open, open_candidates, citation_specs. cbn -[CITATION_OPEN CITATION_CLOSE].
  by destruct (find CITATION_OPEN s).
Qed.

(** A citation is found right after [pre] when it cannot start earlier. *)
Definition visible_ok (pre : str) : Prop := find CITATION_OPEN (pre ++ CITATION_OPEN) = Some (length pre).
Definition body_ok (body : str) : Prop := find CITATION_CLOSE (body ++ CITATION_CLOSE) = Some (length body).

Lemma total_visible pre s act :
  visible_ok pre → act = mkActive Citation CITATION_CLOSE [] →
  total None (pre ++ CITATION_OPEN ++ s) = chunk_app (mkChunkOut pre []) (total (Some act) s).
Proof.
  intros Hpre ->. unfold total. rewrite loop_eq by (apply citation_specs_ok || done).
  rewrite find_next_open_single, app_assoc, (find_app _ _ s _ Hpre). cbn [fmap option_fmap option_map citation_specs lookup list_lookup].
  rewrite flush_after, citation_chunk_app. cbn [spec_open spec_tag spec_close].
  rewrite <- length_app, drop_app_length, <- app_assoc, take_app_length. done.
Qed.

Lemma total_body body s content :
  body_ok body →
  total (Some (mkActive Citation CITATION_CLOSE content)) (body ++ CITATION_CLOSE ++ s) =
  chunk_app (mkChunkOut [] [content ++ body]) (total None s).
Proof.
  intros Hb. unfold total. rewrite loop_eq by (apply citation_specs_ok || done). cbn [act_close act_content act_tag].
  rewrite app_assoc, (find_app _ _ s _ Hb), flush_after, citation_chunk_app.
  rewrite <- length_app, drop_app_length, <- app_assoc, take_app_length. done.
Qed.

(** The end of a text: no citation, or one that is never closed. *)
Lemma total_end s : find CITATION_OPEN s = None → total None s = mkChunkOut s [].
Proof.
  intros Hf. unfold total. rewrite loop_eq by (apply citation_specs_ok || done).
  rewrite find_next_open_single, Hf. unfold citation_chunk, chunk_app. simpl. by rewrite take_drop.
Qed.
Lemma total_unclosed s content :
  find CITATION_CLOSE s = None →
  total (Some (mkActive Citation CITATION_CLOSE content)) s = mkChunkOut [] [content ++ s].
Proof.
  intros Hf. unfold total. rewrite loop_eq by (apply citation_specs_ok || done). cbn [act_close act_content act_tag].
  rewrite Hf. unfold citation_chunk, chunk_app. simpl. by rewrite <- app_assoc, take_drop.
Qed.

(** A text with citations: the visible text before each and its body, the text
    after the last, and the body of a citation that is still open. *)
Definition render_citations (segments : list (str * str)) (tail : str) (unclosed : option str) : str :=
  concat ((λ '(pre, body), pre ++ CITATION_OPEN ++ body ++ CITATION_CLOSE) <$> segments) ++ tail ++
  match unclosed with Some body => CITATION_OPEN ++ body | None => [] end.

Definition segments_ok (segments : list (str * str)) (tail : str) (unclosed : option str) : Prop :=
  Forall (λ '(pre, body), visible_ok pre ∧ body_ok body) segments ∧
  match unclosed with
  | Some body => visible_ok tail ∧ find CITATION_CLOSE body = None
  | None => find CITATION_OPEN tail = None
  end.

Lemma total_render segments tail unclosed :
  segments_ok segments tail unclosed →
  total None (render_citations segments tail unclosed) =
  mkChunkOut (concat segments.*1 ++ tail) (segments.*2 ++ option_list unclosed).
Proof.
  intros [Hs Hend]. unfold render_citations.
  induction Hs as [|[pre body] segments [Hpre Hbody] Hs IH];
    rewrite ?fmap_cons; cbn [fmap list_fmap concat app fst snd].
  - destruct unclosed as [body|].
    + destruct Hend as [Hv Hc]. rewrite (total_visible _ _ _ Hv eq_refl), total_unclosed by done.
      unfold chunk_app. simpl. by rewrite app_nil_r.
    + by rewrite app_nil_r, total_end.
  - rewrite <- !app_assoc, (total_visible _ _ _ Hpre eq_refl), total_body by done.
    rewrite IH. unfold chunk_app. simpl. done.
Qed.

(** ** Properties *)

(** The inline tag parser does not depend on how its input is cut.  For
    every set of delimiters the constructor accepts in which no opening
    delimiter occurs inside another, two ways of cutting the same text into
    chunks give the same visible text and the same extracted tags. *)
Theorem inline_chunks_irrelevant {T} (sp : list (InlineTagSpec T)) p chunks chunks' :
  inline_new sp = Some p → opens_disjoint sp → concat chunks = concat chunks' →
  run_chunks p chunks = run_chunks p chunks'.
Proof. intros Hp Hd. apply (run_chunks_equiv (CI := inline_ChunkInvariant)). by eapply inline_new_ok. Qed.

Lemma inline_chunks_irrelevant_witness :
  run_chunks (mkInline citation_specs [] None) [lit "a<oai-mem-"; lit "citation>b</oai"; lit "-mem-citation>c"]
  = run_chunks (mkInline citation_specs [] None) [lit "a<oai-mem-citation>b</oai-mem-citation>c"].
Proof.
  apply (inline_chunks_irrelevant citation_specs); [reflexivity|apply single_disjoint|vm_compute; reflexivity].
Defined.

(** The hypothesis is needed: when one opening delimiter starts another, a cut
    after the shorter one decides for it. *)
Example inline_chunks_relevant :
  let p := mkInline [mkSpec 0 (lit "<a") (lit ">"); mkSpec 1 (lit "<ab") (lit ">")] [] None in
  run_chunks p [lit "<a"; lit "b>"] = mkChunkOut [] [mkExtracted 0 (lit "b")] ∧
  run_chunks p [lit "<ab>"] = mkChunkOut [] [mkExtracted 1 []].
Proof. split; vm_compute; reflexivity. Qed.

(** Citations are stripped exactly where they stand.  A text made of
    visible parts and citations, the last one possibly left open, is split
    into the concatenation of the visible parts and the list of the bodies, an
    open citation being closed by the end of the text. *)
Theorem strip_citations_render segments tail unclosed :
  segments_ok segments tail unclosed →
  strip_citations (render_citations segments tail unclosed) =
  (concat segments.*1 ++ tail, segments.*2 ++ option_list unclosed).
Proof. intros H. by rewrite strip_citations_total, total_render. Qed.

Lemma strip_citations_render_witness :
  strip_citations (render_citations [(lit "x<", lit "doc</"); ([], lit "<oai-mem-citation>")] (lit "y") (Some (lit "z<")))
  = (lit "x<y", [lit "doc</"; lit "<oai-mem-citation>"; lit "z<"]).
Proof.
  apply (strip_citations_render [(lit "x<", lit "doc</"); ([], lit "<oai-mem-citation>")] (lit "y") (Some (lit "z<"))).
  split; [repeat constructor; vm_compute; reflexivity|split; vm_compute; reflexivity].
Defined.
