(* ===== verification/TaggedLine.v ===== *)
(** * Tag blocks on lines of their own
    ([utils/stream-parser/src/tagged_line_parser.rs], [proposed_plan.rs])

    A tag counts only when it stands alone on a line.  The parser buffers a
    line while it may still turn out to be a tag and passes it on as text as
    soon as it cannot. *)
From stdpp Require Import numbers strings.
From S2P Require Import Prelude RustStr StreamText.

Record TagSpec (T : Type) : Type := mkTagSpec { tag_open : str; tag_close : str; tag_of : T }.
Arguments mkTagSpec {T} _ _ _.
Arguments tag_open {T} _.
Arguments tag_close {T} _.
Arguments tag_of {T} _.

Inductive TaggedLineSegment (T : Type) : Type :=
  | Normal (text : str)
  | TagStart (tag : T)
  | TagDelta (tag : T) (text : str)
  | TagEnd (tag : T).
Arguments Normal {T} _.
Arguments TagStart {T} _.
Arguments TagDelta {T} _ _.
Arguments TagEnd {T} _.

Record TaggedLineParser (T : Type) : Type := mkTagged {
  tag_specs : list (TagSpec T);
  active_tag : option T;
  detect_tag : bool;
  line_buffer : str;
}.
Arguments mkTagged {T} _ _ _ _.
Arguments tag_specs {T} _.
Arguments active_tag {T} _.
Arguments detect_tag {T} _.
Arguments line_buffer {T} _.

Section Tagged.
Context {T : Type} `{!EqDecision T}.
Implicit Types (p : TaggedLineParser T) (segments : list (TaggedLineSegment T)).

(** [TaggedLineParser::new]. *)
Definition tagged_new (sp : list (TagSpec T)) : TaggedLineParser T := mkTagged sp None true [].

(** [push_segment]: text joins a last segment of the same kind. *)
Definition push_segment segments (segment : TaggedLineSegment T) : list (TaggedLineSegment T) :=
  match segment with
  | Normal delta =>
      if bool_decide (delta = []) then segments
      else match last segments with
           | Some (Normal _) =>
               alter_last (λ s, match s with Normal existing => Normal (existing ++ delta) | s => s end) segments
           | _ => segments ++ [Normal delta]
           end
  | TagDelta tag delta =>
      if bool_decide (delta = []) then segments
      else match last segments with
           | Some (TagDelta existing_tag _) =>
               if bool_decide (existing_tag = tag)
               then alter_last (λ s, match s with
                                     | TagDelta t existing => TagDelta t (existing ++ delta)
                                     | s => s end) segments
               else segments ++ [TagDelta tag delta]
           | _ => segments ++ [TagDelta tag delta]
           end
  | TagStart tag => segments ++ [TagStart tag]
  | TagEnd tag => segments ++ [TagEnd tag]
  end.

(** [push_text]. *)
Definition push_text (active : option T) (text : str) segments : list (TaggedLineSegment T) :=
  match active with
  | Some tag => push_segment segments (TagDelta tag text)
  | None => push_segment segments (Normal text)
  end.

(** [is_tag_prefix]. *)
Definition is_tag_prefix (sp : list (TagSpec T)) (slug : str) : bool :=
  let slug := trim_end slug in
  existsb (λ s, starts_with slug (tag_open s) || starts_with slug (tag_close s)) sp.

(** [match_open], [match_close]. *)
Definition match_open (sp : list (TagSpec T)) (slug : str) : option T :=
  tag_of <$> List.find (λ s, str_eqb (tag_open s) slug) sp.
Definition match_close (sp : list (TagSpec T)) (slug : str) : option T :=
  tag_of <$> List.find (λ s, str_eqb (tag_close s) slug) sp.

(** [without_newline.trim_start().trim_end()]. *)
Definition line_slug (line : str) : str :=
  trim_end (trim_start (default line (strip_suffix [LF] line))).

(** What a complete line does: the new active tag and the segments. *)
Definition complete_line (sp : list (TagSpec T)) (active : option T) (line : str) segments
  : option T * list (TaggedLineSegment T) :=
  let slug := line_slug line in
  match match_open sp slug, active with
  | Some tag, None => (Some tag, push_segment segments (TagStart tag))
  | _, _ =>
      match match_close sp slug with
      | Some tag =>
          if bool_decide (active = Some tag) then (None, push_segment segments (TagEnd tag))
          else (active, push_text active line segments)
      | None => (active, push_text active line segments)
      end
  end.

(** [finish_line]. *)
Definition finish_tag_line p segments : TaggedLineParser T * list (TaggedLineSegment T) :=
  let '(active, segments) := complete_line (tag_specs p) (active_tag p) (line_buffer p) segments in
  (mkTagged (tag_specs p) active true [], segments).

(** One iteration of the loop of [parse]; [run] is the text of the current
    line that is known not to be a tag. *)
Definition parse_char p (run : str) segments (ch : char)
  : TaggedLineParser T * str * list (TaggedLineSegment T) :=
  if detect_tag p then
    let '(run, segments) :=
      if bool_decide (run = []) then (run, segments) else ([], push_text (active_tag p) run segments) in
    let line := line_buffer p ++ [ch] in
    let p := mkTagged (tag_specs p) (active_tag p) true line in
    if (ch =? LF)%N then
      let '(p, segments) := finish_tag_line p segments in (p, run, segments)
    else
      let slug := trim_start line in
      if bool_decide (slug = []) || is_tag_prefix (tag_specs p) slug then (p, run, segments)
      else (mkTagged (tag_specs p) (active_tag p) false [], run, push_text (active_tag p) line segments)
  else
    let run := run ++ [ch] in
    if (ch =? LF)%N
    then (mkTagged (tag_specs p) (active_tag p) true (line_buffer p), [], push_text (active_tag p) run segments)
    else (p, run, segments).

Fixpoint parse_chars p (run : str) segments (delta : str)
  : TaggedLineParser T * str * list (TaggedLineSegment T) :=
  match delta with
  | [] => (p, run, segments)
  | ch :: delta' => let '(p, run, segments) := parse_char p run segments ch in
                    parse_chars p run segments delta'
  end.

(** [TaggedLineParser::parse]. *)
Definition tagged_parse p (delta : str) : TaggedLineParser T * list (TaggedLineSegment T) :=
  let '(p, run, segments) := parse_chars p [] [] delta in
  (p, if bool_decide (run = []) then segments else push_text (active_tag p) run segments).

(** [TaggedLineParser::finish]. *)
Definition tagged_finish p : TaggedLineParser T * list (TaggedLineSegment T) :=
  let '(active, segments) :=
    if bool_decide (line_buffer p = []) then (active_tag p, [])
    else complete_line (tag_specs p) (active_tag p) (line_buffer p) [] in
  let segments := match active with Some tag => push_segment segments (TagEnd tag) | None => segments end in
  (mkTagged (tag_specs p) None true [], segments).
End Tagged.

(** ** Proposed plans *)

Definition PLAN_OPEN_TAG : str := lit "<proposed_plan>".
Definition PLAN_CLOSE_TAG : str := lit "</proposed_plan>".

Inductive PlanTag : Type := ProposedPlan.
#[global] Instance PlanTag_eq_dec : EqDecision PlanTag.
Proof. solve_decision. Defined.

Inductive ProposedPlanSegment : Type :=
  | PlanNormal (text : str)
  | ProposedPlanStart
  | ProposedPlanDelta (text : str)
  | ProposedPlanEnd.

Record ProposedPlanParser : Type := mkPlan { plan_parser : TaggedLineParser PlanTag }.

Definition plan_specs : list (TagSpec PlanTag) := [mkTagSpec PLAN_OPEN_TAG PLAN_CLOSE_TAG ProposedPlan].

(** [ProposedPlanParser::new]. *)
Definition plan_new : ProposedPlanParser := mkPlan (tagged_new plan_specs).

Definition map_segment (s : TaggedLineSegment PlanTag) : ProposedPlanSegment :=
  match s with
  | Normal text => PlanNormal text
  | TagStart ProposedPlan => ProposedPlanStart
  | TagDelta ProposedPlan text => ProposedPlanDelta text
  | TagEnd ProposedPlan => ProposedPlanEnd
  end.
Definition visible_part (s : ProposedPlanSegment) : str :=
  match s with PlanNormal text => text | _ => [] end.

(** [map_segments]. *)
Definition map_segments (segments : list (TaggedLineSegment PlanTag)) : StreamTextChunk ProposedPlanSegment :=
  foldl (λ out s, let mapped := map_segment s in
           mkChunkOut (visible_text out ++ visible_part mapped) (extracted out ++ [mapped]))
    chunk_default segments.

Definition plan_push_str (p : ProposedPlanParser) (chunk : str)
  : ProposedPlanParser * StreamTextChunk ProposedPlanSegment :=
  let '(inner, segments) := tagged_parse (plan_parser p) chunk in (mkPlan inner, map_segments segments).
Definition plan_finish (p : ProposedPlanParser)
  : ProposedPlanParser * StreamTextChunk ProposedPlanSegment :=
  let '(inner, segments) := tagged_finish (plan_parser p) in (mkPlan inner, map_segments segments).

#[global] Instance ProposedPlanParser_StreamTextParser :
  StreamTextParser ProposedPlanParser ProposedPlanSegment :=
  { push_str := plan_push_str; finish := plan_finish }.

(** [strip_proposed_plan_blocks]. *)
Definition strip_proposed_plan_blocks (text : str) : str :=
  let '(p, out) := push_str plan_new text in visible_text out ++ visible_text (finish p).2.

(** The loop of [extract_proposed_plan_text]. *)
Definition extract_step (acc : str * bool) (s : ProposedPlanSegment) : str * bool :=
  let '(plan_text, saw_plan_block) := acc in
  match s with
  | ProposedPlanStart => ([], true)
  | ProposedPlanDelta delta => (plan_text ++ delta, saw_plan_block)
  | ProposedPlanEnd | PlanNormal _ => (plan_text, saw_plan_block)
  end.

(** [extract_proposed_plan_text]. *)
Definition extract_proposed_plan_text (text : str) : option str :=
  let '(p, out) := push_str plan_new text in
  let '(plan_text, saw_plan_block) := foldl extract_step ([], false) (extracted out ++ extracted (finish p).2) in
  if saw_plan_block : bool then Some plan_text else None.

Example plan_example :
  let text := lit "Intro" ++ [LF] ++ lit "  <proposed_plan>" ++ [LF] ++ lit "- step" ++ [LF]
    ++ lit "</proposed_plan> " ++ [LF] ++ lit "Outro <proposed_plan>" in
  strip_proposed_plan_blocks text = lit "Intro" ++ [LF] ++ lit "Outro <proposed_plan>" ∧
  extract_proposed_plan_text text = Some (lit "- step" ++ [LF]).
Proof. split; vm_compute; reflexivity. Qed.

(** * Properties of the tagged line parser

    The parser is compared with a definition that sees whole lines: a line
    that is an opening or a closing tag starts or ends a block, every other
    line is text.  Segments are compared by the events they stand for, since
    the parser may deliver a run of text in several pieces. *)

(** ** Events *)

Inductive event (T : Type) : Type :=
  | EText (active : option T) (c : char)
  | EStart (tag : T)
  | EEnd (tag : T).
Arguments EText {T} _ _.
Arguments EStart {T} _.
Arguments EEnd {T} _.

Section Events.
Context {T : Type} `{!EqDecision T}.
Implicit Types (p : TaggedLineParser T) (segments : list (TaggedLineSegment T)) (sp : list (TagSpec T)).

Definition segment_events (s : TaggedLineSegment T) : list (event T) :=
  match s with
  | Normal text => EText None <$> text
  | TagDelta tag text => EText (Some tag) <$> text
  | TagStart tag => [EStart tag]
  | TagEnd tag => [EEnd tag]
  end.
Definition events segments : list (event T) := segments ≫= segment_events.

Lemma events_app a b : events (a ++ b) = events a ++ events b.
Proof. apply bind_app. Qed.
Lemma events_snoc segments s : events (segments ++ [s]) = events segments ++ segment_events s.
Proof. rewrite events_app. unfold events at 2. simpl. by rewrite app_nil_r. Qed.

(** Merging with the last segment does not change the events. *)
Lemma events_push_segment segments s : events (push_segment segments s) = events segments ++ segment_events s.
Proof.
  destruct s as [text|tag|tag text|tag]; simpl; try apply events_snoc.
  - case_bool_decide; [subst; by rewrite app_nil_r|].
    destruct (list_snoc_cases segments) as [->|(l & x & ->)]; [apply (events_snoc [])|].
    rewrite last_snoc. destruct x as [existing| | |]; rewrite ?events_snoc; try done.
    rewrite alter_last_snoc, !events_snoc, <- app_assoc. simpl. by rewrite fmap_app.
  - case_bool_decide; [subst; by rewrite app_nil_r|].
    destruct (list_snoc_cases segments) as [->|(l & x & ->)]; [apply (events_snoc [])|].
    rewrite last_snoc. destruct x as [| |t existing|]; rewrite ?events_snoc; try done.
    case_bool_decide; [subst|by rewrite !events_snoc].
    rewrite alter_last_snoc, !events_snoc, <- app_assoc. simpl. by rewrite fmap_app.
Qed.

Lemma events_push_text active text segments :
  events (push_text active text segments) = events segments ++ (EText active <$> text).
Proof. unfold push_text. destruct active; apply events_push_segment. Qed.

(** The events of a complete line, and the tag that is active after it. *)
Definition line_events sp (active : option T) (line : str) : option T * list (event T) :=
  let slug := line_slug line in
  match match_open sp slug, active with
  | Some tag, None => (Some tag, [EStart tag])
  | _, _ =>
      match match_close sp slug with
      | Some tag => if bool_decide (active = Some tag) then (None, [EEnd tag])
                    else (active, EText active <$> line)
      | None => (active, EText active <$> line)
      end
  end.

Lemma complete_line_events sp active line segments :
  let '(active', segments') := complete_line sp active line segments in
  line_events sp active line = (active', drop (length (events segments)) (events segments')) ∧
  events segments' = events segments ++ (line_events sp active line).2.
Proof.
  unfold complete_line, line_events.
  repeat case_match; simplify_eq; rewrite ?events_push_text, ?events_push_segment, ?drop_app_length; done.
Qed.

(** ** The parser by its events *)

(** One character: the new state and the events it makes certain. *)
Definition step p (ch : char) : TaggedLineParser T * list (event T) :=
  if detect_tag p then
    let line := line_buffer p ++ [ch] in
    if (ch =? LF)%N then
      let '(active, ev) := line_events (tag_specs p) (active_tag p) line in
      (mkTagged (tag_specs p) active true [], ev)
    else if bool_decide (trim_start line = []) || is_tag_prefix (tag_specs p) (trim_start line)
    then (mkTagged (tag_specs p) (active_tag p) true line, [])
    else (mkTagged (tag_specs p) (active_tag p) false [], EText (active_tag p) <$> line)
  else (mkTagged (tag_specs p) (active_tag p) (ch =? LF)%N (line_buffer p), [EText (active_tag p) ch]).

Fixpoint steps p (s : str) : TaggedLineParser T * list (event T) :=
  match s with
  | [] => (p, [])
  | c :: s' => let '(p1, e1) := step p c in let '(p2, e2) := steps p1 s' in (p2, e1 ++ e2)
  end.

Lemma steps_app p s t :
  steps p (s ++ t) = let '(p1, e1) := steps p s in let '(p2, e2) := steps p1 t in (p2, e1 ++ e2).
Proof.
  revert p. induction s as [|c s IH]; intros p; simpl; [by destruct (steps p t)|].
  destruct (step p c) as [p1 e1]. rewrite IH. destruct (steps p1 s) as [p2 e2].
  destruct (steps p2 t) as [p3 e3]. by rewrite app_assoc.
Qed.

(** The run that is not yet a segment is text of the current line. *)
Definition all_events p (run : str) segments : list (event T) :=
  events segments ++ (EText (active_tag p) <$> run).

Lemma parse_char_step p run segments ch :
  (detect_tag p = true → run = []) →
  let '(p', run', segments') := parse_char p run segments ch in
  p' = (step p ch).1 ∧ (detect_tag p' = true → run' = []) ∧
  all_events p' run' segments' = all_events p run segments ++ (step p ch).2.
Proof.
  intros Hrun. unfold parse_char, step, all_events. destruct (detect_tag p) eqn:Ed.
  - rewrite Hrun by done. rewrite bool_decide_true by done.
    destruct (ch =? LF)%N eqn:El.
    + unfold finish_tag_line. cbn [tag_specs active_tag line_buffer].
      pose proof (complete_line_events (tag_specs p) (active_tag p) (line_buffer p ++ [ch]) segments) as H.
      destruct (complete_line _ _ _ _) as [active' segments']. destruct H as [Hl He].
      rewrite Hl in *. simpl in *. rewrite !app_nil_r. by rewrite He at 1.
    + destruct (bool_decide _ || _) eqn:Ep; simpl; split_and!; try done.
      * by rewrite !app_nil_r.
      * by rewrite events_push_text, !app_nil_r.
  - destruct (ch =? LF)%N eqn:El; simpl; split_and!; try done.
    + rewrite events_push_text, fmap_app, app_nil_r, <- app_assoc. done.
    + destruct p; simpl in *. by subst.
    + congruence.
    + by rewrite fmap_app, app_assoc.
Qed.

Lemma parse_chars_steps p run segments s :
  (detect_tag p = true → run = []) →
  let '(p', run', segments') := parse_chars p run segments s in
  p' = (steps p s).1 ∧ all_events p' run' segments' = all_events p run segments ++ (steps p s).2.
Proof.
  revert p run segments. induction s as [|c s IH]; intros p run segments Hrun; simpl; [by rewrite app_nil_r|].
  pose proof (parse_char_step p run segments c Hrun) as Hc.
  destruct (parse_char p run segments c) as [[p1 run1] segments1]. destruct Hc as (-> & Hrun1 & He).
  specialize (IH _ run1 segments1 Hrun1). destruct (parse_chars _ run1 segments1 s) as [[p2 run2] segments2].
  destruct (step p c) as [p1' e1]. simpl in *. destruct (steps p1' s) as [p3 e3]. simpl in *.
  destruct IH as [-> IH]. split; [done|]. by rewrite IH, He, app_assoc.
Qed.

(** [parse] performs the steps of its characters. *)
Lemma tagged_parse_steps p s :
  (tagged_parse p s).1 = (steps p s).1 ∧ events (tagged_parse p s).2 = (steps p s).2.
Proof.
  unfold tagged_parse. pose proof (parse_chars_steps p [] [] s (λ _, eq_refl)) as H.
  destruct (parse_chars p [] [] s) as [[p' run'] segments']. destruct H as [-> He].
  split; [done|]. unfold all_events in He. simpl in He. rewrite <- He.
  case_bool_decide; simpl; [subst; by rewrite app_nil_r|apply events_push_text].
Qed.

Lemma tagged_parse_app p s t :
  (tagged_parse p (s ++ t)).1 = (tagged_parse (tagged_parse p s).1 t).1 ∧
  events (tagged_parse p (s ++ t)).2 =
    events (tagged_parse p s).2 ++ events (tagged_parse (tagged_parse p s).1 t).2.
Proof.
  destruct (tagged_parse_steps p (s ++ t)) as [-> ->], (tagged_parse_steps p s) as [-> ->].
  destruct (tagged_parse_steps (steps p s).1 t) as [-> ->]. rewrite steps_app.
  destruct (steps p s) as [p1 e1]. simpl. by destruct (steps p1 t).
Qed.

(** ** Whole lines *)

Lemma trim_end_prefix s t : ∃ r, trim_end (s ++ t) = trim_end s ++ r.
Proof.
  unfold trim_end. induction s as [|c s [r IH]]; simpl; [by eexists|]. rewrite IH.
  destruct (trim_end_matches is_whitespace s) as [|d m]; simpl.
  - destruct (is_whitespace c); simpl; [by eexists|]. destruct r; by eexists.
  - by eexists.
Qed.

Lemma trim_start_app s t : trim_start s ≠ [] → trim_start (s ++ t) = trim_start s ++ t.
Proof. induction s as [|c s IH]; simpl; [done|]. destruct (is_whitespace c); auto. Qed.

(** A beginning of a tag line may always still become a tag. *)
Lemma tag_line_prefix sp q r tag :
  match_open sp (trim_end (trim_start (q ++ r))) = Some tag ∨
  match_close sp (trim_end (trim_start (q ++ r))) = Some tag →
  bool_decide (trim_start q = []) || is_tag_prefix sp (trim_start q) = true.
Proof.
  destruct (decide (trim_start q = [])) as [Hq|Hq]; [by rewrite bool_decide_true|].
  rewrite trim_start_app by done. destruct (trim_end_prefix (trim_start q) r) as [r' ->].
  intros H. apply orb_true_iff. right. unfold is_tag_prefix, match_open, match_close in *.
  apply existsb_exists.
  destruct H as [H|H]; (destruct (List.find _ sp) as [s|] eqn:E; [|done]);
    apply find_some in E as [Hin Heq%str_eqb_eq]; exists s; (split; [done|]);
    apply orb_true_iff; rewrite Heq, starts_with_app; auto.
Qed.

Lemma line_events_plain sp active line :
  (∀ tag, match_open sp (line_slug line) ≠ Some tag) → (∀ tag, match_close sp (line_slug line) ≠ Some tag) →
  line_events sp active line = (active, EText active <$> line).
Proof. intros Ho Hc. unfold line_events. repeat case_match; simplify_eq; naive_solver. Qed.

Lemma line_slug_ln l : line_slug (l ++ [LF]) = trim_end (trim_start l).
Proof. unfold line_slug. by rewrite strip_suffix_app. Qed.
Lemma line_slug_no_lf l : LF ∉ l → line_slug l = trim_end (trim_start l).
Proof.
  intros H. unfold line_slug. rewrite strip_suffix_single_None; [done|].
  intros [s' ->]%last_Some. set_solver.
Qed.

(** Feeding part of a line: it stays buffered, or it has been passed on and
    no line that starts with it is a tag. *)
Lemma steps_line sp active q r :
  LF ∉ r →
  steps (mkTagged sp active true q) r = (mkTagged sp active true (q ++ r), []) ∨
  (steps (mkTagged sp active true q) r = (mkTagged sp active false [], EText active <$> (q ++ r)) ∧
   ∀ r' tag, match_open sp (trim_end (trim_start (q ++ r ++ r'))) ≠ Some tag ∧
             match_close sp (trim_end (trim_start (q ++ r ++ r'))) ≠ Some tag).
Proof.
  revert q. induction r as [|c r IH]; intros q Hlf; [left; by rewrite app_nil_r|].
  apply not_elem_of_cons in Hlf as [Hc Hr]. cbn [steps]. unfold step.
  cbn [detect_tag line_buffer tag_specs active_tag].
  destruct (N.eqb_spec c LF) as [?|_]; [congruence|].
  destruct (bool_decide _ || _) eqn:E.
  - destruct (IH (q ++ [c]) Hr) as [->|[-> Hno]].
    + left. by rewrite <- app_assoc.
    + right. split; [by rewrite <- app_assoc|]. intros r' tag. specialize (Hno r' tag).
      by rewrite <- app_assoc in Hno.
  - right. assert (steps (mkTagged sp active false []) r = (mkTagged sp active false [], EText active <$> r)) as ->.
    { clear IH E. induction r as [|d r IHr]; [done|]. apply not_elem_of_cons in Hr as [Hd Hr].
      cbn [steps]. unfold step. cbn [detect_tag line_buffer tag_specs active_tag].
      destruct (N.eqb_spec d LF); [congruence|]. by rewrite IHr. }
    split; [by rewrite <- fmap_app, <- app_assoc|].
    intros r' tag. pose proof (tag_line_prefix sp (q ++ [c]) (r ++ r') tag) as Hp.
    rewrite <- app_assoc in Hp. simpl in *. split; intros Htag; rewrite Hp in E; auto; done.
Qed.

(** Feeding a whole line. *)
Lemma steps_full_line sp active l :
  LF ∉ l →
  steps (mkTagged sp active true []) (l ++ [LF]) =
  let '(active', ev) := line_events sp active (l ++ [LF]) in (mkTagged sp active' true [], ev).
Proof.
  intros Hl. rewrite steps_app. destruct (steps_line sp active [] l Hl) as [->|[-> Hno]]; simpl.
  - unfold step. cbn [detect_tag line_buffer tag_specs active_tag]. rewrite N.eqb_refl.
    destruct (line_events sp active (l ++ [LF])). by rewrite app_nil_r.
  - rewrite line_events_plain, fmap_app; [done|..]; rewrite line_slug_ln; intros tag;
      specialize (Hno [] tag); rewrite app_nil_r in Hno; apply Hno.
Qed.

(** The reference: the events of a list of lines, and the tag that is
    active after them. *)
Fixpoint lines_events sp (active : option T) (ls : list str) : option T * list (event T) :=
  match ls with
  | [] => (active, [])
  | l :: ls' => let '(a1, e1) := line_events sp active l in
                let '(a2, e2) := lines_events sp a1 ls' in (a2, e1 ++ e2)
  end.
(** A block that is still open at the end of the text is closed there. *)
Definition reference sp (active : option T) (text : str) : list (event T) :=
  let '(a, e) := lines_events sp active (split_inclusive LF text) in e ++ (EEnd <$> option_list a).

Definition finish_events p : list (event T) := events (tagged_finish p).2.

Lemma finish_events_eq p :
  finish_events p =
  let '(a, e) := if bool_decide (line_buffer p = []) then (active_tag p, [])
                 else line_events (tag_specs p) (active_tag p) (line_buffer p) in
  e ++ (EEnd <$> option_list a).
Proof.
  unfold finish_events, tagged_finish. case_bool_decide as Hb.
  - destruct (active_tag p); [apply (events_push_segment [])|done].
  - pose proof (complete_line_events (tag_specs p) (active_tag p) (line_buffer p) []) as H.
    destruct (complete_line _ _ _ _) as [active' segments']. destruct H as [Hl He]. rewrite Hl in *.
    simpl in *. destruct active'; simpl; rewrite ?events_snoc, ?app_nil_r; done.
Qed.

Lemma steps_reference sp active text :
  let '(p, e) := steps (mkTagged sp active true []) text in
  e ++ finish_events p = reference sp active text.
Proof.
  remember (length text) as n eqn:Hn. revert active text Hn.
  induction (lt_wf n) as [n _ IH]. intros active text ->. unfold reference.
  destruct (decide (LF ∈ text)) as [(l & rest & -> & Hl)%list_elem_of_split_l|Hno].
  - rewrite split_inclusive_app by done. simpl lines_events.
    replace (l ++ LF :: rest) with ((l ++ [LF]) ++ rest) by (by rewrite <- app_assoc).
    rewrite steps_app, steps_full_line by done.
    destruct (line_events sp active (l ++ [LF])) as [a1 e1].
    specialize (IH (length rest) ltac:(rewrite length_app; simpl; lia) a1 rest eq_refl).
    unfold reference in IH. destruct (steps (mkTagged sp a1 true []) rest) as [p2 e2].
    destruct (lines_events sp a1 _) as [a2 e2']. by rewrite <- !app_assoc, IH.
  - destruct (decide (text = [])) as [->|Hne].
    { simpl. rewrite finish_events_eq. simpl. done. }
    rewrite split_inclusive_no_sep by done. simpl.
    destruct (steps_line sp active [] text Hno) as [->|[-> Hplain]]; rewrite finish_events_eq; simpl.
    + rewrite bool_decide_false by done. destruct (line_events sp active text). by rewrite app_nil_r.
    + rewrite line_events_plain by (rewrite line_slug_no_lf by done; intros tag;
        specialize (Hplain [] tag); rewrite app_nil_r in Hplain; apply Hplain).
      by rewrite app_nil_r.
Qed.
End Events.

(** ** Proposed plans *)

Definition plan_segment_events (s : ProposedPlanSegment) : list (event PlanTag) :=
  match s with
  | PlanNormal text => EText None <$> text
  | ProposedPlanStart => [EStart ProposedPlan]
  | ProposedPlanDelta text => EText (Some ProposedPlan) <$> text
  | ProposedPlanEnd => [EEnd ProposedPlan]
  end.
Definition plan_events (ss : list ProposedPlanSegment) : list (event PlanTag) := ss ≫= plan_segment_events.

(** The visible characters of a list of events. *)
Definition event_visible {T} (e : event T) : option char :=
  match e with EText None c => Some c | _ => None end.
Definition visible_of {T} (es : list (event T)) : str := omap event_visible es.

Lemma plan_events_app a b : plan_events (a ++ b) = plan_events a ++ plan_events b.
Proof. apply bind_app. Qed.
Lemma visible_of_app {T} (a b : list (event T)) : visible_of (a ++ b) = visible_of a ++ visible_of b.
Proof. apply omap_app. Qed.
Lemma visible_of_text {T} (active : option T) s :
  visible_of (EText active <$> s) = match active with None => s | Some _ => [] end.
Proof. unfold visible_of. induction s as [|c s IH]; destruct active; csimpl; rewrite ?IH; done. Qed.

Lemma map_segments_spec segments :
  plan_events (extracted (map_segments segments)) = events segments ∧
  visible_text (map_segments segments) = visible_of (events segments).
Proof.
  unfold map_segments. induction segments as [|s segments [IHe IHv]] using rev_ind; [done|].
  rewrite foldl_app. simpl. rewrite events_snoc, plan_events_app, visible_of_app, IHe, IHv.
  assert (plan_events [map_segment s] = segment_events s) as ->
    by (destruct s as [|[]|[]|[]]; unfold plan_events; simpl; by rewrite ?app_nil_r).
  split; [done|]. f_equal. destruct s as [|[]|[]|[]]; simpl; by rewrite ?visible_of_text.
Qed.

(** Outputs that stand for the same events. *)
Definition plan_equiv (a b : StreamTextChunk ProposedPlanSegment) : Prop :=
  visible_text a = visible_text b ∧ plan_events (extracted a) = plan_events (extracted b).

#[global] Instance plan_equiv_equivalence : Equivalence plan_equiv.
Proof.
  unfold plan_equiv. split; [done|intros a b [-> ->]; done|intros a b c [-> ->] [-> ->]; done].
Qed.
#[global] Instance plan_equiv_app : Proper (plan_equiv ==> plan_equiv ==> plan_equiv) chunk_app.
Proof.
  intros a a' [H1 H2] b b' [H3 H4]. unfold plan_equiv, chunk_app. simpl.
  by rewrite !plan_events_app, H1, H2, H3, H4.
Qed.

Lemma plan_push_str_spec p s :
  (plan_push_str p s).1 = mkPlan (tagged_parse (plan_parser p) s).1 ∧
  (plan_push_str p s).2 = map_segments (tagged_parse (plan_parser p) s).2.
Proof. unfold plan_push_str. by destruct (tagged_parse _ _). Qed.

#[global] Program Instance plan_ChunkInvariant : ChunkInvariant ProposedPlanParser ProposedPlanSegment :=
  { chunk_equiv := plan_equiv; parser_ok _ := True }.
Next Obligation. by intros a b [-> _]. Qed.
Next Obligation. done. Qed.
Next Obligation. intros p _. by destruct p. Qed.
Next Obligation.
  intros p s t _. cbn [push_str ProposedPlanParser_StreamTextParser].
  destruct (plan_push_str_spec p (s ++ t)) as [-> ->], (plan_push_str_spec p s) as [-> ->].
  destruct (plan_push_str_spec (mkPlan (tagged_parse (plan_parser p) s).1) t) as [-> ->]. cbn [plan_parser].
  destruct (tagged_parse_app (plan_parser p) s t) as [-> He]. split; [done|].
  unfold plan_equiv, chunk_app. simpl. rewrite plan_events_app.
  destruct (map_segments_spec (tagged_parse (plan_parser p) (s ++ t)).2) as [-> ->].
  destruct (map_segments_spec (tagged_parse (plan_parser p) s).2) as [-> ->].
  destruct (map_segments_spec (tagged_parse (tagged_parse (plan_parser p) s).1 t).2) as [-> ->].
  by rewrite He, visible_of_app.
Qed.

(** A text pushed and flushed gives the reference's events. *)
Lemma plan_run_reference text :
  let out := chunk_app (push_str plan_new text).2 (finish (push_str plan_new text).1).2 in
  plan_events (extracted out) = reference plan_specs None text ∧
  visible_text out = visible_of (reference plan_specs None text).
Proof.
  cbn [push_str finish ProposedPlanParser_StreamTextParser].
  destruct (plan_push_str_spec plan_new text) as [-> ->]. unfold plan_finish. cbn [plan_parser].
  destruct (tagged_parse_steps (tagged_new plan_specs) text) as [Hs He].
  pose proof (steps_reference plan_specs None text) as Hr.
  fold (tagged_new plan_specs) in Hr. cbn [plan_new plan_parser].
  destruct (steps (tagged_new plan_specs) text) as [p e]. unfold finish_events in Hr.
  destruct (tagged_parse (tagged_new plan_specs) text) as [p' segs]. simpl in *. subst.
  destruct (tagged_finish p) as [p'' segs']. simpl in *.
  destruct (map_segments_spec segs) as [H1 H2], (map_segments_spec segs') as [H3 H4].
  by rewrite plan_events_app, H1, H2, H3, H4, <- visible_of_app, Hr.
Qed.

(** [extract_proposed_plan_text] by its events. *)
Definition extract_event (acc : str * bool) (e : event PlanTag) : str * bool :=
  match e with
  | EStart _ => ([], true)
  | EText (Some _) c => (acc.1 ++ [c], acc.2)
  | _ => acc
  end.

Lemma extract_event_text acc active s :
  foldl extract_event acc (EText active <$> s) =
  match active with Some _ => (acc.1 ++ s, acc.2) | None => acc end.
Proof.
  revert acc. induction s as [|c s IH]; intros [t b]; destruct active as [[]|]; csimpl;
    rewrite ?app_nil_r, ?IH; try done.
  simpl. by rewrite <- app_assoc.
Qed.

Lemma extract_step_events acc ss :
  foldl extract_step acc ss = foldl extract_event acc (plan_events ss).
Proof.
  revert acc. induction ss as [|s ss IH]; intros [t b]; [done|].
  change (plan_events (s :: ss)) with (plan_segment_events s ++ plan_events ss).
  rewrite foldl_app. simpl. rewrite IH. f_equal.
  destruct s as [text| |text|]; simpl; by rewrite ?extract_event_text.
Qed.

Lemma strip_plan_reference text :
  strip_proposed_plan_blocks text = visible_of (reference plan_specs None text).
Proof.
  unfold strip_proposed_plan_blocks. destruct (plan_run_reference text) as [_ <-].
  by destruct (push_str plan_new text).
Qed.

Lemma extract_plan_reference text :
  extract_proposed_plan_text text =
  let '(plan_text, saw) := foldl extract_event ([], false) (reference plan_specs None text) in
  if saw : bool then Some plan_text else None.
Proof.
  unfold extract_proposed_plan_text. destruct (plan_run_reference text) as [<- _].
  destruct (push_str plan_new text) as [p out]. by rewrite extract_step_events.
Qed.

(** ** Texts with one block *)

(** Text made of complete lines, none of which is the tag [w]. *)
Definition lines_without (w text : str) : Prop :=
  (text = [] ∨ last text = Some LF) ∧
  Forall (λ l, line_slug l ≠ w) (split_inclusive LF text).

Lemma lines_events_app {T} `{!EqDecision T} (sp : list (TagSpec T)) active a b :
  lines_events sp active (a ++ b) =
  let '(a1, e1) := lines_events sp active a in
  let '(a2, e2) := lines_events sp a1 b in (a2, e1 ++ e2).
Proof.
  revert active. induction a as [|l a IH]; intros active; simpl; [by destruct (lines_events sp active b)|].
  destruct (line_events sp active l) as [a1 e1]. rewrite IH. destruct (lines_events sp a1 a) as [a2 e2].
  destruct (lines_events sp a2 b) as [a3 e3]. by rewrite app_assoc.
Qed.

Lemma match_open_plan slug : match_open plan_specs slug = if str_eqb PLAN_OPEN_TAG slug then Some ProposedPlan else None.
Proof. unfold match_open. cbn -[PLAN_OPEN_TAG]. by destruct (str_eqb PLAN_OPEN_TAG slug). Qed.
Lemma match_close_plan slug : match_close plan_specs slug = if str_eqb PLAN_CLOSE_TAG slug then Some ProposedPlan else None.
Proof. unfold match_close. cbn -[PLAN_CLOSE_TAG]. by destruct (str_eqb PLAN_CLOSE_TAG slug). Qed.

(** Outside a block only the opening tag matters, inside only the closing one. *)
Lemma plain_lines_events active ls :
  Forall (λ l, line_slug l ≠ match active with Some _ => PLAN_CLOSE_TAG | None => PLAN_OPEN_TAG end) ls →
  lines_events plan_specs active ls = (active, EText active <$> concat ls).
Proof.
  induction 1 as [|l ls Hl Hls IH]; cbn [lines_events concat]; [done|].
  assert (line_events plan_specs active l = (active, EText active <$> l)) as ->.
  { unfold line_events. rewrite match_open_plan, match_close_plan.
    destruct active as [[]|].
    - rewrite (proj2 (str_eqb_neq PLAN_CLOSE_TAG _)) by done. by destruct (str_eqb _ _).
    - rewrite (proj2 (str_eqb_neq PLAN_OPEN_TAG _)) by done. by destruct (str_eqb _ _). }
  rewrite IH. by rewrite fmap_app.
Qed.

Definition open_line (l : str) : Prop := LF ∉ l ∧ trim l = PLAN_OPEN_TAG.
Definition close_line (l : str) : Prop := LF ∉ l ∧ trim l = PLAN_CLOSE_TAG.

Definition plan_text (pre o body c post : str) : str := pre ++ ln o ++ body ++ ln c ++ post.

Lemma reference_one_block pre o body c post :
  lines_without PLAN_OPEN_TAG pre → open_line o → lines_without PLAN_CLOSE_TAG body → close_line c →
  Forall (λ l, line_slug l ≠ PLAN_OPEN_TAG) (split_inclusive LF post) →
  reference plan_specs None (plan_text pre o body c post) =
  (EText None <$> pre) ++ [EStart ProposedPlan] ++ (EText (Some ProposedPlan) <$> body) ++
  [EEnd ProposedPlan] ++ (EText None <$> post).
Proof.
  intros [Hpre Hpre'] [Ho Ho'] [Hbody Hbody'] [Hc Hc'] Hpost. unfold reference, plan_text, ln.
  rewrite split_inclusive_app_full by done. rewrite <- (app_assoc o). cbn [app]. rewrite split_inclusive_app by done.
  rewrite split_inclusive_app_full by done. rewrite <- (app_assoc c). cbn [app]. rewrite split_inclusive_app by done.
  rewrite lines_events_app, (plain_lines_events None), split_inclusive_concat by done. simpl lines_events.
  unfold line_events at 1. rewrite line_slug_ln. fold (trim o). rewrite Ho', match_open_plan, str_eqb_refl.
  rewrite lines_events_app, (plain_lines_events (Some ProposedPlan)), split_inclusive_concat by done. simpl lines_events.
  unfold line_events at 1. rewrite line_slug_ln. fold (trim c). rewrite Hc', match_open_plan, match_close_plan.
  rewrite str_eqb_refl, (proj2 (str_eqb_neq PLAN_OPEN_TAG PLAN_CLOSE_TAG)) by done.
  rewrite bool_decide_true by done. cbv beta iota zeta.
  rewrite (plain_lines_events None), split_inclusive_concat by done.
  rewrite <- !app_assoc. simpl. by rewrite app_nil_r.
Qed.

(** ** Properties *)

(** The tagged line parser agrees with its definition on whole lines.  For
    every set of tags and every text, however it is delivered, the events of
    the parser are those of the lines of the text taken one by one: a line
    that is an opening tag outside a block starts one, a line that is the
    closing tag of the current block ends it, every other line is text, and a
    block that is open at the end is closed. *)
Theorem tagged_lines_reference {T} `{!EqDecision T} (sp : list (TagSpec T)) (text : str) :
  let '(p, segments) := tagged_parse (tagged_new sp) text in
  events (segments ++ (tagged_finish p).2) = reference sp None text.
Proof.
  destruct (tagged_parse_steps (tagged_new sp) text) as [Hs He].
  pose proof (steps_reference sp None text) as Hr. fold (tagged_new sp) in Hr.
  destruct (tagged_parse (tagged_new sp) text) as [p segments]. simpl in *.
  destruct (steps (tagged_new sp) text) as [p' e]. simpl in *. subst. rewrite events_app. done.
Qed.

(** Plan blocks do not depend on how the text is cut.  Two ways of cutting
    a text into chunks give the same visible text and plan segments that stand
    for the same sequence of events. *)
Theorem plan_chunks_irrelevant chunks chunks' :
  concat chunks = concat chunks' →
  visible_text (run_chunks plan_new chunks) = visible_text (run_chunks plan_new chunks') ∧
  plan_events (extracted (run_chunks plan_new chunks)) = plan_events (extracted (run_chunks plan_new chunks')).
Proof. apply (run_chunks_equiv (CI := plan_ChunkInvariant)). done. Qed.

Lemma plan_chunks_irrelevant_witness :
  let chunks := [lit "a"; [LF]; lit "<prop"; lit "osed_plan>"; [LF]; lit "x"] in
  let chunks' := [lit "a" ++ [LF] ++ lit "<proposed_plan>" ++ [LF] ++ lit "x"] in
  visible_text (run_chunks plan_new chunks) = visible_text (run_chunks plan_new chunks') ∧
  plan_events (extracted (run_chunks plan_new chunks)) = plan_events (extracted (run_chunks plan_new chunks')).
Proof. apply plan_chunks_irrelevant. vm_compute. reflexivity. Defined.

(** a plan block is cut out and returned unchanged.  In a text whose only
    opening tag line is followed by lines without a closing tag and then a
    closing tag line, the visible text is what precedes and follows the block
    and the extracted plan is the block's text. *)
Theorem plan_block_extracted pre o body c post :
  lines_without PLAN_OPEN_TAG pre → open_line o → lines_without PLAN_CLOSE_TAG body → close_line c →
  Forall (λ l, line_slug l ≠ PLAN_OPEN_TAG) (split_inclusive LF post) →
  strip_proposed_plan_blocks (plan_text pre o body c post) = pre ++ post ∧
  extract_proposed_plan_text (plan_text pre o body c post) = Some body.
Proof.
  intros. rewrite strip_plan_reference, extract_plan_reference, reference_one_block by done.
  rewrite !visible_of_app, !visible_of_text, !foldl_app, !extract_event_text. split; [done|]. done.
Qed.

Lemma plan_block_extracted_witness :
  let pre := lit "Intro" ++ [LF] in
  let body := lit "- step" ++ [LF] ++ lit "  <proposed_plan>" ++ [LF] in
  strip_proposed_plan_blocks (plan_text pre (lit " <proposed_plan>") body (lit "</proposed_plan> ") (lit "Outro"))
    = pre ++ lit "Outro" ∧
  extract_proposed_plan_text (plan_text pre (lit " <proposed_plan>") body (lit "</proposed_plan> ") (lit "Outro"))
    = Some body.
Proof.
  apply plan_block_extracted.
  - split; [right; reflexivity|repeat constructor; vm_compute; discriminate].
  - split; [apply (bool_decide_unpack _); vm_compute; exact I|reflexivity].
  - split; [right; reflexivity|repeat constructor; vm_compute; discriminate].
  - split; [apply (bool_decide_unpack _); vm_compute; exact I|reflexivity].
  - repeat constructor; vm_compute; discriminate.
Defined.
