(* ===== verification/Utf8Stream.v ===== *)
(** * Bytes to parsed text ([utils/stream-parser/src/utf8_stream.rs], [assistant_text.rs])

    [Utf8StreamParser] feeds a text parser from raw bytes, holding back a code
    point that a chunk cuts; [AssistantTextStreamParser] strips citations and,
    in plan mode, plan blocks from what remains.  Both are proved against the
    contract of the parser they wrap. *)
From stdpp Require Import numbers strings.
From S2P Require Import Prelude RustStr Utf8 StreamText InlineHiddenTag TaggedLine.

Inductive Utf8StreamParserError : Type :=
  | InvalidUtf8 (valid_up_to error_len : nat)
  | IncompleteUtf8AtEof.

(** [Display] of the error. *)
Definition utf8_error_display (e : Utf8StreamParserError) : str :=
  match e with
  | InvalidUtf8 valid_up_to error_len =>
      lit "invalid UTF-8 in streamed bytes at offset " ++ fmt_nat valid_up_to ++
      lit " (error length " ++ fmt_nat error_len ++ lit ")"
  | IncompleteUtf8AtEof => lit "incomplete UTF-8 code point at end of stream"
  end.

Record Utf8StreamParser (P : Type) : Type := mkUtf8Parser { inner : P; pending_utf8 : bytes }.
Arguments mkUtf8Parser {P} _ _.
Arguments inner {P} _.
Arguments pending_utf8 {P} _.

Section Utf8Stream.
Context {P T : Type} `{SP : StreamTextParser P T}.
Implicit Types (u : Utf8StreamParser P).

(** [Utf8StreamParser::new]. *)
Definition utf8_new (p : P) : Utf8StreamParser P := mkUtf8Parser p [].

(** [Utf8StreamParser::push_bytes]. *)
Definition push_bytes u (chunk : bytes)
  : Utf8StreamParser P * result Utf8StreamParserError (StreamTextChunk T) :=
  let old_len := length (pending_utf8 u) in
  let pending := pending_utf8 u ++ chunk in
  match from_utf8 pending with
  | Ok text => let '(p, out) := push_str (inner u) text in (mkUtf8Parser p [], Ok out)
  | Err err =>
      match error_len err with
      | Some n => (mkUtf8Parser (inner u) (take old_len pending), Err (InvalidUtf8 (valid_up_to err) n))
      | None =>
          if bool_decide (valid_up_to err = 0) then (mkUtf8Parser (inner u) pending, Ok chunk_default)
          else
            match from_utf8 (take (valid_up_to err) pending) with
            | Ok text =>
                let '(p, out) := push_str (inner u) text in
                (mkUtf8Parser p (drop (valid_up_to err) pending), Ok out)
            | Err prefix_err =>
                (mkUtf8Parser (inner u) (take old_len pending),
                 Err (InvalidUtf8 (valid_up_to prefix_err) (default 0 (error_len prefix_err))))
            end
      end
  end.

(** The error of a buffer that does not decode. *)
Definition utf8_error (err : Utf8Error) : Utf8StreamParserError :=
  match error_len err with
  | Some n => InvalidUtf8 (valid_up_to err) n
  | None => IncompleteUtf8AtEof
  end.

(** [Utf8StreamParser::finish]. *)
Definition utf8_finish u : Utf8StreamParser P * result Utf8StreamParserError (StreamTextChunk T) :=
  if bool_decide (pending_utf8 u = []) then
    let '(p, tail) := finish (inner u) in (mkUtf8Parser p [], Ok (chunk_app chunk_default tail))
  else
    match from_utf8 (pending_utf8 u) with
    | Err err => (u, Err (utf8_error err))
    | Ok text =>
        let '(p1, out) := push_str (inner u) text in
        let '(p2, tail) := finish p1 in (mkUtf8Parser p2 [], Ok (chunk_app out tail))
    end.

(** [Utf8StreamParser::into_inner], [into_inner_lossy]. *)
Definition into_inner u : result Utf8StreamParserError P :=
  if bool_decide (pending_utf8 u = []) then Ok (inner u)
  else match from_utf8 (pending_utf8 u) with
       | Ok _ => Ok (inner u)
       | Err err => Err (utf8_error err)
       end.
Definition into_inner_lossy u : P := inner u.

(** Feeding chunks of bytes and flushing; the first error ends it. *)
Fixpoint push_bytes_all u (chunks : list bytes)
  : Utf8StreamParser P * result Utf8StreamParserError (StreamTextChunk T) :=
  match chunks with
  | [] => (u, Ok chunk_default)
  | c :: chunks' =>
      match push_bytes u c with
      | (u1, Err e) => (u1, Err e)
      | (u1, Ok o1) => match push_bytes_all u1 chunks' with
                       | (u2, Err e) => (u2, Err e)
                       | (u2, Ok o2) => (u2, Ok (chunk_app o1 o2))
                       end
      end
  end.
Definition run_bytes (p : P) (chunks : list bytes) : result Utf8StreamParserError (StreamTextChunk T) :=
  match push_bytes_all (utf8_new p) chunks with
  | (_, Err e) => Err e
  | (u, Ok o) => let? tail := (utf8_finish u).2 in Ok (chunk_app o tail)
  end.
End Utf8Stream.

(** ** Assistant text *)

Record AssistantTextChunk : Type := mkAssistantChunk {
  assistant_visible : str;
  citations : list str;
  plan_segments : list ProposedPlanSegment;
}.

(** [AssistantTextChunk::is_empty]. *)
Definition assistant_is_empty (c : AssistantTextChunk) : bool :=
  match assistant_visible c, citations c, plan_segments c with [], [], [] => true | _, _, _ => false end.

Record AssistantTextStreamParser : Type := mkAssistant {
  plan_mode : bool;
  citation_parser : CitationStreamParser;
  plan : ProposedPlanParser;
}.

(** [AssistantTextStreamParser::new]. *)
Definition assistant_new (mode : bool) : AssistantTextStreamParser := mkAssistant mode citation_new plan_new.

(** [parse_visible_text]. *)
Definition parse_visible_text (a : AssistantTextStreamParser) (text : str)
  : AssistantTextStreamParser * AssistantTextChunk :=
  if plan_mode a then
    let '(p, out) := push_str (plan a) text in
    (mkAssistant true (citation_parser a) p, mkAssistantChunk (visible_text out) [] (extracted out))
  else (a, mkAssistantChunk text [] []).

(** [AssistantTextStreamParser::push_str]. *)
Definition assistant_push_str (a : AssistantTextStreamParser) (chunk : str)
  : AssistantTextStreamParser * AssistantTextChunk :=
  let '(c, citation_chunk) := push_str (citation_parser a) chunk in
  let '(a, out) := parse_visible_text (mkAssistant (plan_mode a) c (plan a)) (visible_text citation_chunk) in
  (a, mkAssistantChunk (assistant_visible out) (extracted citation_chunk) (plan_segments out)).

(** [AssistantTextStreamParser::finish]. *)
Definition assistant_finish (a : AssistantTextStreamParser)
  : AssistantTextStreamParser * AssistantTextChunk :=
  let '(c, citation_chunk) := finish (citation_parser a) in
  let '(a, out) := parse_visible_text (mkAssistant (plan_mode a) c (plan a)) (visible_text citation_chunk) in
  let '(a, out) :=
    if plan_mode a then
      let '(p, tail) := finish (plan a) in
      (mkAssistant true (citation_parser a) p,
       if chunk_is_empty tail then out
       else mkAssistantChunk (assistant_visible out ++ visible_text tail) (citations out)
              (plan_segments out ++ extracted tail))
    else (a, out) in
  (a, mkAssistantChunk (assistant_visible out) (extracted citation_chunk) (plan_segments out)).

(** The assistant parser's output as a chunk of the trait. *)
Definition assistant_app (a b : AssistantTextChunk) : AssistantTextChunk :=
  mkAssistantChunk (assistant_visible a ++ assistant_visible b) (citations a ++ citations b)
    (plan_segments a ++ plan_segments b).
Fixpoint assistant_push_all (a : AssistantTextStreamParser) (chunks : list str)
  : AssistantTextStreamParser * AssistantTextChunk :=
  match chunks with
  | [] => (a, mkAssistantChunk [] [] [])
  | c :: chunks' =>
      let '(a1, o1) := assistant_push_str a c in
      let '(a2, o2) := assistant_push_all a1 chunks' in (a2, assistant_app o1 o2)
  end.
Definition assistant_run (a : AssistantTextStreamParser) (chunks : list str) : AssistantTextChunk :=
  let '(a1, o1) := assistant_push_all a chunks in assistant_app o1 (assistant_finish a1).2.

(** ** Decoding does not depend on the cuts *)

Section Decoding.
Context {P T : Type} `{CI : ChunkInvariant P T}.
Implicit Types (u : Utf8StreamParser P) (p : P).

(** What decoding a prefix of encoded text does. *)
Lemma push_bytes_prefix p pending chunk suf s :
  parser_ok p → scalar_text s → encode s = (pending ++ chunk) ++ suf →
  ∃ s1 s2 r out, s = s1 ++ s2 ∧ encode s2 = r ++ suf ∧ partial r s2 ∧
    push_bytes (mkUtf8Parser p pending) chunk = (mkUtf8Parser (push_str p s1).1 r, Ok out) ∧
    chunk_equiv out (push_str p s1).2.
Proof.
  intros Hp Hs Henc. apply encode_prefix in Henc as (s1 & s2 & r & -> & Hpre & Hpart & Hsuf).
  apply Forall_app in Hs as [Hs1 Hs2]. unfold push_bytes. cbn [pending_utf8 inner]. rewrite Hpre.
  destruct Hpart as [->|(c & s2' & r' & -> & Hc & Hr & Hr')].
  - rewrite app_nil_r, from_utf8_encode by done.
    destruct (push_str p s1) as [p1 o1] eqn:E. exists s1, s2, [], o1. rewrite E.
    split_and!; try done. by left.
  - apply Forall_cons in Hs2 as [Hsc _]. unfold from_utf8 at 1. rewrite decode_text by done.
    rewrite (decode_cut _ c r r') by done. cbn [error_len valid_up_to].
    case_bool_decide as Hz.
    + assert (s1 = []) as ->.
      { rewrite encode_length in Hz. apply blen_zero. simpl in Hz. lia. }
      exists [], (c :: s2'), r, chunk_default. destruct (push_str_nil p Hp) as [-> Hn].
      split_and!; [done..| |done|by rewrite Hn]. right. eauto 10.
    + simpl. rewrite take_app_length, drop_app_length, from_utf8_encode by done.
      destruct (push_str p s1) as [p1 o1] eqn:E. exists s1, (c :: s2'), r, o1. rewrite E.
      split_and!; try done. right. eauto 10.
Qed.

Lemma push_bytes_all_text p pending chunks s :
  parser_ok p → scalar_text s → encode s = pending ++ concat chunks → chunks ≠ [] ∨ pending = [] →
  ∃ out, push_bytes_all (mkUtf8Parser p pending) chunks = (mkUtf8Parser (push_str p s).1 [], Ok out) ∧
    chunk_equiv out (push_str p s).2.
Proof.
  revert p pending s. induction chunks as [|c chunks IH]; intros p pending s Hp Hs Henc Hne.
  - destruct Hne as [?| ->]; [done|]. simpl in Henc. assert (s = []) as ->.
    { apply (f_equal length) in Henc. rewrite encode_length in Henc. apply blen_zero. simpl in Henc. lia. }
    exists chunk_default. destruct (push_str_nil p Hp) as [-> Hn]. by rewrite Hn.
  - simpl in Henc. rewrite app_assoc in Henc.
    destruct (push_bytes_prefix p pending c (concat chunks) s Hp Hs Henc)
      as (s1 & s2 & r & o1 & -> & Hsuf & Hpart & Hpush & Ho1).
    simpl. rewrite Hpush. pose proof (push_str_ok p s1 Hp) as Hp1. apply Forall_app in Hs as [_ Hs2].
    destruct (IH (push_str p s1).1 r s2) as (o2 & Hall & Ho2); [done..| |].
    { destruct chunks; [right|by left]. simpl in Hsuf. rewrite app_nil_r in Hsuf.
      destruct Hpart as [|(ch & s' & r' & -> & Hc & Hr & Hr')]; [done|]. exfalso.
      rewrite encode_cons, Hc in Hsuf. apply (f_equal length) in Hsuf. rewrite !length_app in Hsuf.
      destruct r'; [done|]. simpl in Hsuf. lia. }
    rewrite Hall. exists (chunk_app o1 o2). destruct (push_str_app p s1 s2 Hp) as [-> Happ].
    split; [done|]. by rewrite Ho1, Ho2, Happ.
Qed.

(** The bytes of a text, however cut, are parsed as the text. *)
Lemma run_bytes_text p chunks s :
  parser_ok p → scalar_text s → encode s = concat chunks →
  ∃ out, run_bytes p chunks = Ok out ∧ chunk_equiv out (run_chunks p [s]).
Proof.
  intros Hp Hs Henc. destruct (push_bytes_all_text p [] chunks s Hp Hs Henc) as (o & Hall & Ho); [by right|].
  unfold run_bytes, utf8_new, run_chunks. rewrite Hall. unfold utf8_finish. cbn [pending_utf8 inner].
  rewrite bool_decide_true by done. cbn [push_all].
  destruct (push_str p s) as [p1 o1]. cbn [fst snd] in *.
  destruct (finish p1) as [p2 tail]. cbn [fst snd]. eexists. split; [done|].
  by rewrite chunk_app_nil_l, chunk_app_nil_r, Ho.
Qed.
End Decoding.

(** ** The assistant parser is a pipeline *)

Lemma push_all_app `{StreamTextParser P T} (p : P) a b :
  push_all p (a ++ b) =
  let '(p1, o1) := push_all p a in let '(p2, o2) := push_all p1 b in (p2, chunk_app o1 o2).
Proof.
  revert p. induction a as [|c a IH]; intros p; simpl.
  - destruct (push_all p b). by rewrite chunk_app_nil_l.
  - destruct (push_str p c) as [p1 o1]. rewrite IH. destruct (push_all p1 a) as [p2 o2].
    destruct (push_all p2 b) as [p3 o3]. by rewrite chunk_app_assoc.
Qed.

(** What the plan parser has been fed: nothing outside plan mode. *)
Definition plan_fed (mode : bool) (p : ProposedPlanParser) (pieces : list str)
  : ProposedPlanParser * AssistantTextChunk :=
  if mode then let '(p1, o) := push_all p pieces in (p1, mkAssistantChunk (visible_text o) [] (extracted o))
  else (p, mkAssistantChunk (concat pieces) [] []).

Lemma assistant_push_all_spec mode c p chunks :
  ∃ pieces, concat pieces = visible_text (push_all c chunks).2 ∧
    assistant_push_all (mkAssistant mode c p) chunks =
    (mkAssistant mode (push_all c chunks).1 (plan_fed mode p pieces).1,
     mkAssistantChunk (assistant_visible (plan_fed mode p pieces).2) (extracted (push_all c chunks).2)
       (plan_segments (plan_fed mode p pieces).2)).
Proof.
  revert c p. induction chunks as [|ch chunks IH]; intros c p; cbn [assistant_push_all push_all].
  { exists []. by destruct mode. }
  unfold assistant_push_str. cbn [citation_parser plan_mode plan].
  destruct (push_str c ch) as [c1 co1]. unfold parse_visible_text. cbn [citation_parser plan_mode plan].
  destruct mode.
  - destruct (push_str p (visible_text co1)) as [p1 po1] eqn:Ep.
    destruct (IH c1 p1) as (pieces & Hc & ->). exists (visible_text co1 :: pieces).
    unfold plan_fed in *. cbn [push_all concat]. rewrite Ep, Hc.
    destruct (push_all c1 chunks) as [c2 co2], (push_all p1 pieces) as [p2 po2]. done.
  - destruct (IH c1 p) as (pieces & Hc & ->). exists (visible_text co1 :: pieces).
    unfold plan_fed. cbn [concat]. rewrite Hc. by destruct (push_all c1 chunks) as [c2 co2].
Qed.

Lemma chunk_is_empty_true {T} (c : StreamTextChunk T) : chunk_is_empty c = true → c = chunk_default.
Proof. destruct c as [[|] [|]]; done. Qed.

(** The pieces the plan parser sees make up the text without citations. *)
Lemma assistant_run_spec mode c p chunks :
  ∃ pieces, concat pieces = visible_text (run_chunks c chunks) ∧
    assistant_run (mkAssistant mode c p) chunks =
    mkAssistantChunk (if mode then visible_text (run_chunks p pieces) else concat pieces)
      (extracted (run_chunks c chunks)) (if mode then extracted (run_chunks p pieces) else []).
Proof.
  destruct (assistant_push_all_spec mode c p chunks) as (pieces & Hc & Heq).
  unfold assistant_run, run_chunks. rewrite Heq.
  destruct (push_all c chunks) as [c1 co1]. cbn [fst snd] in *.
  exists (pieces ++ [visible_text (finish c1).2]). split.
  { rewrite concat_app, Hc. simpl. by rewrite app_nil_r. }
  unfold assistant_finish. cbn [citation_parser plan_mode plan]. destruct (finish c1) as [c2 ct].
  unfold parse_visible_text, plan_fed. cbn [citation_parser plan_mode plan snd]. destruct mode.
  - rewrite push_all_app. destruct (push_all p pieces) as [p1 po1]. cbn [fst snd push_all].
    destruct (push_str p1 (visible_text ct)) as [p2 po2]. cbn [plan_mode plan citation_parser].
    rewrite chunk_app_nil_r. destruct (finish p2) as [p3 tail]. cbn [snd].
    destruct (chunk_is_empty tail) eqn:Et; unfold assistant_app, chunk_app; simpl.
    + apply chunk_is_empty_true in Et as ->. simpl. by rewrite !app_nil_r.
    + by rewrite <- !app_assoc.
  - unfold assistant_app. simpl. rewrite concat_app. simpl. by rewrite app_nil_r.
Qed.

Lemma run_chunks_citations chunks :
  strip_citations (concat chunks) =
  (visible_text (run_chunks citation_new chunks), extracted (run_chunks citation_new chunks)).
Proof.
  assert (run_chunks citation_new chunks = run_chunks citation_new [concat chunks]) as ->.
  { apply (run_chunks_equiv (CI := citation_ChunkInvariant)); [apply citation_new_ok|].
    simpl. by rewrite app_nil_r. }
  unfold strip_citations, run_chunks. cbn [push_all].
  destruct (push_str citation_new (concat chunks)) as [p o]. rewrite chunk_app_nil_r.
  by destruct (finish p).
Qed.

Lemma run_chunks_plan pieces :
  visible_text (run_chunks plan_new pieces) = strip_proposed_plan_blocks (concat pieces) ∧
  plan_events (extracted (run_chunks plan_new pieces)) = reference plan_specs None (concat pieces).
Proof.
  assert (plan_equiv (run_chunks plan_new pieces) (run_chunks plan_new [concat pieces])) as [-> ->].
  { apply (run_chunks_equiv (CI := plan_ChunkInvariant)); [done|]. simpl. by rewrite app_nil_r. }
  rewrite strip_plan_reference. destruct (plan_run_reference (concat pieces)) as [<- <-].
  unfold run_chunks. cbn [push_all]. destruct (push_str plan_new (concat pieces)) as [p o].
  by rewrite chunk_app_nil_r.
Qed.

(** ** Properties *)

(** The bytes of a text can be cut anywhere, inside a code point too.
    For every parser that keeps the chunk contract, feeding the UTF-8 encoding
    of a text in any chunks of bytes never fails, and gives an output
    equivalent to that of the parser on the whole text. *)
Theorem utf8_stream_cuts `{CI : ChunkInvariant P T} (p : P) (chunks : list bytes) (s : str) :
  parser_ok p → scalar_text s → concat chunks = encode s →
  ∃ out, run_bytes p chunks = Ok out ∧ chunk_equiv out (run_chunks p [s]).
Proof. intros Hp Hs Henc. by apply run_bytes_text. Qed.

(** The bytes of ["é<oai-mem-citation>x"], one by one. *)
Lemma utf8_stream_cuts_witness :
  ∃ out, run_bytes citation_new ((λ b, [b]) <$> encode (233%N :: lit "<oai-mem-citation>x")) = Ok out ∧
    chunk_equiv out (run_chunks citation_new [233%N :: lit "<oai-mem-citation>x"]).
Proof.
  apply utf8_stream_cuts; [apply citation_new_ok| |vm_compute; reflexivity].
  repeat constructor.
Defined.

(** a chunk with invalid bytes is rolled back.  When [push_bytes] fails,
    the parser is exactly as it was: neither the buffered bytes nor the
    wrapped parser have changed. *)
Theorem push_bytes_rolls_back `{StreamTextParser P T} (u u' : Utf8StreamParser P) chunk e :
  push_bytes u chunk = (u', Err e) → u' = u.
Proof.
  unfold push_bytes. intros H1. repeat case_match; simplify_eq; rewrite take_app_length; by destruct u.
Qed.

Lemma push_bytes_rolls_back_witness :
  (push_bytes (mkUtf8Parser citation_new [195%N]) [169%N; 255%N]).1 = mkUtf8Parser citation_new [195%N].
Proof. apply (push_bytes_rolls_back _ _ [169%N; 255%N] (InvalidUtf8 2 1)). vm_compute. reflexivity. Defined.

(** The assistant parser is the citation parser followed, in plan mode,
    by the plan parser, for every way of cutting the text: the citations are
    those of the whole text, the visible text is the text without citations
    and without plan blocks, and the plan segments stand for the events of the
    text without citations. *)
Theorem assistant_pipeline mode (chunks : list str) :
  let '(shown, cites) := strip_citations (concat chunks) in
  let out := assistant_run (assistant_new mode) chunks in
  citations out = cites ∧
  assistant_visible out = (if mode then strip_proposed_plan_blocks shown else shown) ∧
  plan_events (plan_segments out) = (if mode then reference plan_specs None shown else []).
Proof.
  rewrite run_chunks_citations. destruct (assistant_run_spec mode citation_new plan_new chunks) as (pieces & Hc & Heq).
  unfold assistant_new. rewrite Heq. simpl. split; [done|].
  destruct (run_chunks_plan pieces) as [Hv He]. rewrite <- Hc. by destruct mode.
Qed.
