(* ===== verification/Truncate.v ===== *)
(** * Truncation of output ([utils/string/src/truncate.rs], [utils/output-truncation/src/lib.rs])

    Long output is cut in the middle at char boundaries, with a marker that
    says how much is missing.  Lengths and budgets are [usize] values: natural
    numbers up to [USIZE_MAX] with the saturating operations of the code. *)
From stdpp Require Import numbers strings.
From S2P Require Import Prelude RustStr.

(** ** Machine integers *)

Definition USIZE_MAX : N := 18446744073709551615.
Definition I64_MAX : Z := 9223372036854775807.
Definition sat_add (a b : N) : N := N.min (a + b) USIZE_MAX.
Definition sat_mul (a b : N) : N := N.min (a * b) USIZE_MAX.

(** ** [truncate.rs] *)

Definition APPROX_BYTES_PER_TOKEN : N := 4.

(** [approx_token_count], [approx_bytes_for_tokens], [approx_tokens_from_byte_count]. *)
Definition approx_token_count (text : str) : N :=
  (sat_add (blen text) (APPROX_BYTES_PER_TOKEN - 1) / APPROX_BYTES_PER_TOKEN)%N.
Definition approx_bytes_for_tokens (tokens : N) : N := sat_mul tokens APPROX_BYTES_PER_TOKEN.
Definition approx_tokens_from_byte_count (n : N) : N :=
  (sat_add n (APPROX_BYTES_PER_TOKEN - 1) / APPROX_BYTES_PER_TOKEN)%N.

(** [&s[..n]] and [&s[n..]]: [None] is the panic at an offset that is not a
    char boundary. *)
Fixpoint split_at (s : str) (n : N) : option (str * str) :=
  if (n =? 0)%N then Some ([], s)
  else match s with
       | [] => None
       | c :: s' => if (n <? len_utf8 c)%N then None
                    else (λ '(a, b), (c :: a, b)) <$> split_at s' (n - len_utf8 c)
       end.

(** The variables of the loop of [split_string]. *)
Record split_state : Type := mkSplit {
  prefix_end : N;
  suffix_start : N;
  removed_chars : N;
  suffix_started : bool;
}.

(** One iteration at byte offset [idx]. *)
Definition split_step (beginning_bytes tail_start_target : N) (st : split_state) (idx : N) (ch : char)
  : split_state :=
  let char_end := (idx + len_utf8 ch)%N in
  if (char_end <=? beginning_bytes)%N
  then mkSplit char_end (suffix_start st) (removed_chars st) (suffix_started st)
  else if (tail_start_target <=? idx)%N then
    if suffix_started st then st
    else mkSplit (prefix_end st) idx (removed_chars st) true
  else mkSplit (prefix_end st) (suffix_start st) (sat_add (removed_chars st) 1) (suffix_started st).

Fixpoint split_loop (beginning_bytes tail_start_target : N) (st : split_state) (idx : N) (s : str)
  : split_state :=
  match s with
  | [] => st
  | ch :: s' => split_loop beginning_bytes tail_start_target
                  (split_step beginning_bytes tail_start_target st idx ch) (idx + len_utf8 ch) s'
  end.

(** [split_string]. *)
Definition split_string (s : str) (beginning_bytes end_bytes : N) : option (N * str * str) :=
  match s with
  | [] => Some (0%N, [], [])
  | _ =>
      let len := blen s in
      let st := split_loop beginning_bytes (len - end_bytes) (mkSplit 0 len 0 false) 0 s in
      let start := if (suffix_start st <? prefix_end st)%N then prefix_end st else suffix_start st in
      match split_at s (prefix_end st), split_at s start with
      | Some (before, _), Some (_, after) => Some (removed_chars st, before, after)
      | _, _ => None
      end
  end.

(** [split_budget]. *)
Definition split_budget (budget : N) : N * N := let left := (budget / 2)%N in (left, (budget - left)%N).

(** [format_truncation_marker]; the ellipsis is U+2026. *)
Definition format_truncation_marker (use_tokens : bool) (removed_count : N) : str :=
  [8230%N] ++ fmt_N removed_count ++ (if use_tokens then lit " tokens truncated" else lit " chars truncated")
    ++ [8230%N].

(** [removed_units]. *)
Definition removed_units (use_tokens : bool) (removed_bytes removed_chars : N) : N :=
  if use_tokens then approx_tokens_from_byte_count removed_bytes else removed_chars.

(** [assemble_truncated_output]. *)
Definition assemble_truncated_output (prefix suffix marker : str) : str := prefix ++ marker ++ suffix.

(** [truncate_with_byte_estimate]; [None] is a panic. *)
Definition truncate_with_byte_estimate (s : str) (max_bytes : N) (use_tokens : bool) : option str :=
  match s with
  | [] => Some []
  | _ =>
      let total_chars := N.of_nat (length s) in
      if (max_bytes =? 0)%N then
        Some (format_truncation_marker use_tokens (removed_units use_tokens (blen s) total_chars))
      else if (blen s <=? max_bytes)%N then Some s
      else
        let total_bytes := blen s in
        let '(left_budget, right_budget) := split_budget max_bytes in
        match split_string s left_budget right_budget with
        | None => None
        | Some (removed, left_part, right_part) =>
            let marker := format_truncation_marker use_tokens
                            (removed_units use_tokens (total_bytes - max_bytes) removed) in
            Some (assemble_truncated_output left_part right_part marker)
        end
  end.

(** [truncate_middle_chars]. *)
Definition truncate_middle_chars (s : str) (max_bytes : N) : option str :=
  truncate_with_byte_estimate s max_bytes false.

(** [truncate_middle_with_token_budget]. *)
Definition truncate_middle_with_token_budget (s : str) (max_tokens : N) : option (str * option N) :=
  match s with
  | [] => Some ([], None)
  | _ =>
      if (0 <? max_tokens)%N && (blen s <=? approx_bytes_for_tokens max_tokens)%N then Some (s, None)
      else
        match truncate_with_byte_estimate s (approx_bytes_for_tokens max_tokens) true with
        | None => None
        | Some truncated =>
            let total_tokens := approx_token_count s in
            if str_eqb truncated s then Some (truncated, None) else Some (truncated, Some total_tokens)
        end
  end.

(** ** [output-truncation] *)

Inductive TruncationPolicy : Type := Bytes (n : N) | Tokens (n : N).

(** [TruncationPolicy::token_budget], [byte_budget]. *)
Definition token_budget (p : TruncationPolicy) : N :=
  match p with Bytes n => approx_tokens_from_byte_count n | Tokens n => n end.
Definition byte_budget (p : TruncationPolicy) : N :=
  match p with Bytes n => n | Tokens n => approx_bytes_for_tokens n end.

(** [truncate_text]. *)
Definition truncate_text (content : str) (policy : TruncationPolicy) : option str :=
  match policy with
  | Bytes n => truncate_middle_chars content n
  | Tokens n => fst <$> truncate_middle_with_token_budget content n
  end.

(** [formatted_truncate_text]. *)
Definition formatted_truncate_text (content : str) (policy : TruncationPolicy) : option str :=
  if (blen content <=? byte_budget policy)%N then Some content
  else
    let original_token_count := approx_token_count content in
    let total_lines := length (lines content) in
    (λ result, lit "Warning: truncated output (original token count: " ++ fmt_N original_token_count ++
       lit ")" ++ [LF] ++ lit "Total output lines: " ++ fmt_nat total_lines ++ [LF; LF] ++ result)
      <$> truncate_text content policy.

(** [FunctionCallOutputContentItem]; the image detail is kept as it is. *)
Inductive ContentItem (detail : Type) : Type :=
  | InputText (text : str)
  | InputImage (image_url : str) (d : option detail)
  | InputAudio (audio_url : str)
  | EncryptedContent (encrypted_content : str).
Arguments InputText {detail} _.
Arguments InputImage {detail} _ _.
Arguments InputAudio {detail} _.
Arguments EncryptedContent {detail} _.

Section Items.
Context {detail : Type} (estimate_audio_token_count : str → N).
Implicit Types (items : list (ContentItem detail)).

Definition text_of (i : ContentItem detail) : option str :=
  match i with InputText text => Some text | _ => None end.
Definition is_text (i : ContentItem detail) : bool := match i with InputText _ => true | _ => false end.

(** The texts joined by newlines; an empty text at the start adds none. *)
Definition combine_texts (texts : list str) : str :=
  foldl (λ combined text, (if bool_decide (combined = []) then combined else combined ++ [LF]) ++ text) [] texts.

(** [formatted_truncate_text_content_items_with_policy]. *)
Definition formatted_truncate_text_content_items_with_policy items (policy : TruncationPolicy)
  : option (list (ContentItem detail) * option N) :=
  match omap text_of items with
  | [] => Some (items, None)
  | text_segments =>
      let combined := combine_texts text_segments in
      if (blen combined <=? byte_budget policy)%N then Some (items, None)
      else
        (λ text, (InputText text :: filter (λ i, is_text i = false) items, Some (approx_token_count combined)))
          <$> formatted_truncate_text combined policy
  end.

(** The variables of [truncate_function_output_items_with_policy]. *)
Record items_state : Type := mkItems {
  items_out : list (ContentItem detail);
  remaining_budget : N;
  omitted_text_items : N;
  omitted_audio_items : N;
}.

Definition text_cost (policy : TruncationPolicy) (text : str) : N :=
  match policy with Bytes _ => blen text | Tokens _ => approx_token_count text end.
Definition audio_cost (policy : TruncationPolicy) (audio_url : str) : N :=
  let token_cost := estimate_audio_token_count audio_url in
  match policy with Bytes _ => approx_bytes_for_tokens token_cost | Tokens _ => token_cost end.
Definition with_budget (policy : TruncationPolicy) (n : N) : TruncationPolicy :=
  match policy with Bytes _ => Bytes n | Tokens _ => Tokens n end.

(** One item. *)
Definition item_step (policy : TruncationPolicy) (st : items_state) (item : ContentItem detail)
  : option items_state :=
  let '(mkItems out budget texts audios) := st in
  match item with
  | InputText text =>
      if bool_decide (text = []) then Some st
      else if (budget =? 0)%N then Some (mkItems out budget (texts + 1) audios)
      else
        let cost := text_cost policy text in
        if (cost <=? budget)%N then Some (mkItems (out ++ [item]) (budget - cost) texts audios)
        else
          (λ snippet, if bool_decide (snippet = [])
                      then mkItems out 0 (texts + 1) audios
                      else mkItems (out ++ [InputText snippet]) 0 texts audios)
            <$> truncate_text text (with_budget policy budget)
  | InputAudio audio_url =>
      let cost := audio_cost policy audio_url in
      if (cost <=? budget)%N then Some (mkItems (out ++ [item]) (budget - cost) texts audios)
      else Some (mkItems out budget texts (audios + 1))
  | InputImage _ _ | EncryptedContent _ => Some (mkItems (out ++ [item]) budget texts audios)
  end.

Fixpoint items_loop (policy : TruncationPolicy) (st : items_state) items : option items_state :=
  match items with
  | [] => Some st
  | i :: items' => match item_step policy st i with
                   | None => None
                   | Some st => items_loop policy st items'
                   end
  end.

Definition initial_budget (policy : TruncationPolicy) : N :=
  match policy with Bytes _ => byte_budget policy | Tokens _ => token_budget policy end.
Definition omitted_note (n : N) (what : str) : list (ContentItem detail) :=
  if (0 <? n)%N then [InputText (lit "[omitted " ++ fmt_N n ++ what)] else [].

(** [truncate_function_output_items_with_policy]. *)
Definition truncate_function_output_items_with_policy items (policy : TruncationPolicy)
  : option (list (ContentItem detail)) :=
  (λ st, items_out st ++ omitted_note (omitted_text_items st) (lit " text items ...]")
           ++ omitted_note (omitted_audio_items st) (lit " audio items ...]"))
    <$> items_loop policy (mkItems [] (initial_budget policy) 0 0) items.

(** [FunctionCallOutputBody] and [truncate_function_output_payload]. *)
Inductive OutputBody : Type :=
  | BodyText (text : str)
  | BodyItems (items : list (ContentItem detail)).
Definition truncate_function_output_payload (body : OutputBody) (policy : TruncationPolicy)
  : option OutputBody :=
  match body with
  | BodyText text => BodyText <$> truncate_text text policy
  | BodyItems items => BodyItems <$> truncate_function_output_items_with_policy items policy
  end.
End Items.

(** [approx_tokens_from_byte_count_i64]. *)
Definition approx_tokens_from_byte_count_i64 (n : Z) : Z :=
  if (n <=? 0)%Z then 0%Z
  else Z.min (Z.of_N (approx_tokens_from_byte_count (N.min (Z.to_N n) USIZE_MAX))) I64_MAX.

Example truncate_example :
  truncate_middle_chars (lit "abcdefghij") 4 =
  Some (lit "ab" ++ [8230%N] ++ lit "6 chars truncated" ++ [8230%N] ++ lit "ij").
Proof. vm_compute. reflexivity. Qed.
