(* ===== verification/TruncateProofs.v ===== *)
(** * Properties of truncation

    The middle is cut at char boundaries, the parts that remain fit their
    budgets and could not be longer, and the marker counts what is missing. *)
From stdpp Require Import numbers strings.
From S2P Require Import Prelude RustStr Truncate.

(** ** Offsets *)

Lemma split_at_app a b : split_at (a ++ b) (blen a) = Some (a, b).
Proof.
  induction a as [|c a IH]; [by destruct b|]. simpl. pose proof (len_utf8_bounds c).
  rewrite (proj2 (N.eqb_neq _ _)) by lia. rewrite (proj2 (N.ltb_ge _ _)) by lia.
  replace (len_utf8 c + blen a - len_utf8 c)%N with (blen a) by lia. by rewrite IH.
Qed.

Lemma blen_cons c s : blen (c :: s) = (len_utf8 c + blen s)%N.
Proof. done. Qed.

(** [c] does not fit a budget [b] after [n] bytes; nothing to fit is fine. *)
Definition no_room (b n : N) (s : str) : Prop :=
  match s with [] => True | c :: _ => (b < n + len_utf8 c)%N end.

(** The longest prefix within a budget. *)
Lemma prefix_exists (b n : N) s :
  (n ≤ b)%N → ∃ before rest, s = before ++ rest ∧ (n + blen before ≤ b)%N ∧ no_room b (n + blen before) rest.
Proof.
  revert n. induction s as [|c s IH]; intros n Hn.
  - exists [], []. simpl. split_and!; [done|lia|done].
  - destruct (decide (n + len_utf8 c ≤ b)%N) as [Hle|Hgt].
    + destruct (IH _ Hle) as (before & rest & -> & H1 & H2). exists (c :: before), rest.
      rewrite blen_cons, N.add_assoc. done.
    + exists [], (c :: s). simpl. split_and!; [done|lia|lia].
Qed.

(** ** The loop of [split_string] *)

Section Loop.
Context (b t : N).

(** Chars that fit the prefix only move its end. *)
Lemma split_loop_prefix before rest start removed started idx :
  (idx + blen before ≤ b)%N →
  split_loop b t (mkSplit idx start removed started) idx (before ++ rest) =
  split_loop b t (mkSplit (idx + blen before) start removed started) (idx + blen before) rest.
Proof.
  revert idx. induction before as [|c before IH]; intros idx Hle; simpl; [by rewrite N.add_0_r|].
  rewrite blen_cons in Hle. unfold split_step. rewrite (proj2 (N.leb_le _ _)) by lia. simpl.
  rewrite IH by lia. by rewrite N.add_assoc.
Qed.

(** Once the suffix has started, nothing changes. *)
Lemma split_loop_started s st idx :
  suffix_started st = true → (t ≤ idx)%N → no_room b idx s → split_loop b t st idx s = st.
Proof.
  revert idx. induction s as [|c s IH]; intros idx Hst Ht Hroom; simpl; [done|]. simpl in Hroom.
  unfold split_step. rewrite (proj2 (N.leb_gt _ _)) by lia. rewrite (proj2 (N.leb_le _ _)) by lia.
  rewrite Hst. apply IH; [done|lia|]. destruct s as [|d s]; [done|]. simpl.
  pose proof (len_utf8_bounds d). lia.
Qed.

(** After the prefix: chars are removed until the suffix starts. *)
Lemma split_loop_rest s st idx :
  suffix_started st = false → no_room b idx s → suffix_start st = (idx + blen s)%N → (removed_chars st ≤ USIZE_MAX)%N →
  ∃ mid after, s = mid ++ after ∧
    prefix_end (split_loop b t st idx s) = prefix_end st ∧
    suffix_start (split_loop b t st idx s) = (idx + blen mid)%N ∧
    removed_chars (split_loop b t st idx s) = N.min (removed_chars st + N.of_nat (length mid)) USIZE_MAX ∧
    (after ≠ [] → (t ≤ idx + blen mid)%N) ∧
    (∀ m c, mid = m ++ [c] → (idx + blen m < t)%N).
Proof.
  revert st idx. induction s as [|c s IH]; intros st idx Hst Hroom Hstart Hmax; simpl.
  - exists [], []. simpl in *. rewrite Hstart. split_and!; try done; [lia|].
    intros m c Heq. by destruct m.
  - simpl in Hroom. unfold split_step. rewrite (proj2 (N.leb_gt _ _)) by lia.
    pose proof (len_utf8_bounds c).
    assert (no_room b (idx + len_utf8 c) s) as Hroom'.
    { destruct s as [|d s]; [done|]. simpl. pose proof (len_utf8_bounds d). lia. }
    destruct (t <=? idx)%N eqn:Et.
    + apply N.leb_le in Et. rewrite Hst. rewrite split_loop_started; [|done|lia|done].
      exists [], (c :: s). simpl. split_and!; try done; [lia|lia|lia|].
      intros m d Heq. by destruct m.
    + apply N.leb_gt in Et.
      edestruct (IH (mkSplit (prefix_end st) (suffix_start st) (sat_add (removed_chars st) 1) (suffix_started st))
        (idx + len_utf8 c)%N) as (mid & after & -> & H1 & H2 & H3 & H4 & H5); simpl; [done|done| |unfold sat_add; lia|].
      { rewrite Hstart, blen_cons. lia. }
      exists (c :: mid), after. rewrite blen_cons. simpl in *.
      split_and!; [done|done|rewrite H2; lia|rewrite H3; unfold sat_add; lia|intros Ha; specialize (H4 Ha); lia|].
      intros [|d m] e Heq; simplify_eq/=; [lia|]. specialize (H5 m e eq_refl). lia.
Qed.
End Loop.

Lemma split_string_ne s b e :
  s ≠ [] →
  split_string s b e =
  let st := split_loop b (blen s - e) (mkSplit 0 (blen s) 0 false) 0 s in
  let start := if (suffix_start st <? prefix_end st)%N then prefix_end st else suffix_start st in
  match split_at s (prefix_end st), split_at s start with
  | Some (before, _), Some (_, after) => Some (removed_chars st, before, after)
  | _, _ => None
  end.
Proof. by destruct s. Qed.

(** [split_string] never panics: it returns the longest prefix and, after it,
    the longest suffix that fit their budgets, and counts the chars between. *)
Lemma split_string_spec s b e :
  ∃ before mid after, s = before ++ mid ++ after ∧
    split_string s b e = Some (N.min (N.of_nat (length mid)) USIZE_MAX, before, after) ∧
    (blen before ≤ b)%N ∧ (blen after ≤ e)%N ∧ no_room b (blen before) (mid ++ after) ∧
    (∀ m c, mid = m ++ [c] → (e < len_utf8 c + blen after)%N).
Proof.
  destruct (decide (s = [])) as [->|Hne].
  { exists [], [], []. simpl. split_and!; try done; [lia|lia|]. intros m d Heq. by destruct m. }
  rename s into full. set (t := (blen full - e)%N).
  destruct (prefix_exists b 0 full) as (before & rest & Hs & Hle & Hroom); [lia|]. rewrite N.add_0_l in *.
  destruct (split_loop_rest b t rest (mkSplit (blen before) (blen full) 0 false) (blen before))
    as (mid & after & -> & H1 & H2 & H3 & H4 & H5); try done.
  { simpl. by rewrite Hs, blen_app. }
  assert (split_loop b t (mkSplit 0 (blen full) 0 false) 0 full =
    split_loop b t (mkSplit (blen before) (blen full) 0 false) (blen before) (mid ++ after)) as Hloop.
  { rewrite Hs at 2. by rewrite split_loop_prefix. }
  assert (blen full = blen before + blen mid + blen after)%N as Hlen by (rewrite Hs, !blen_app; lia).
  assert (split_string full b e = Some (N.min (N.of_nat (length mid)) USIZE_MAX, before, after)) as ->.
  { rewrite split_string_ne by done. fold t. rewrite Hloop. cbv zeta. rewrite H1, H2, H3. cbn [prefix_end removed_chars].
    rewrite (proj2 (N.ltb_ge _ _)) by lia. rewrite Hs, split_at_app, app_assoc, <- blen_app, split_at_app.
    by rewrite N.add_0_l. }
  exists before, mid, after. split_and!; [done|done|lia| |done|].
  - destruct (decide (after = [])) as [->|Ha]; [simpl; lia|]. specialize (H4 Ha). lia.
  - intros m d ->. specialize (H5 m d eq_refl). rewrite blen_app in Hlen. simpl in Hlen. lia.
Qed.

(** ** Text *)

Lemma truncate_cut s max use_tokens :
  (0 < max)%N → (max < blen s)%N →
  ∃ before mid after, s = before ++ mid ++ after ∧ mid ≠ [] ∧
    truncate_with_byte_estimate s max use_tokens =
      Some (before ++ format_truncation_marker use_tokens
              (removed_units use_tokens (blen s - max) (N.min (N.of_nat (length mid)) USIZE_MAX)) ++ after) ∧
    (blen before ≤ max / 2)%N ∧ (blen after ≤ max - max / 2)%N ∧
    no_room (max / 2) (blen before) (mid ++ after) ∧
    (∀ m c, mid = m ++ [c] → (max - max / 2 < len_utf8 c + blen after)%N).
Proof.
  intros Hpos Hlen. assert (s ≠ []) as Hne by (intros ->; simpl in Hlen; lia).
  destruct (split_string_spec s (max / 2) (max - max / 2)) as (before & mid & after & Hs & Hsplit & Hb & Ha & Hroom & Hmax).
  assert (max / 2 ≤ max)%N as Hhalf by (apply N.Div0.div_le_upper_bound; lia).
  exists before, mid, after. split_and!; try done.
  - intros ->. apply (f_equal blen) in Hs. rewrite !blen_app in Hs. simpl in Hs. lia.
  - unfold truncate_with_byte_estimate. destruct s as [|c s]; [done|].
    rewrite (proj2 (N.eqb_neq _ _)) by lia. rewrite (proj2 (N.leb_gt _ _)) by lia.
    unfold split_budget. by rewrite Hsplit.
Qed.

(** Truncation never panics, and text that fits is returned unchanged. *)
Lemma truncate_estimate_total s max use_tokens :
  ∃ out, truncate_with_byte_estimate s max use_tokens = Some out ∧ ((0 < max)%N → (blen s ≤ max)%N → out = s).
Proof.
  destruct (decide (s = [])) as [->|Hne]; [by eexists|].
  destruct (decide (max = 0)%N) as [->|Hz].
  { unfold truncate_with_byte_estimate. destruct s; [done|]. eexists. split; [done|]. lia. }
  destruct (decide (blen s ≤ max)%N) as [Hle|Hgt].
  - exists s. split; [|done]. unfold truncate_with_byte_estimate. destruct s as [|c s]; [done|].
    rewrite (proj2 (N.eqb_neq _ _)) by lia. by rewrite (proj2 (N.leb_le _ _)) by lia.
  - destruct (truncate_cut s max use_tokens) as (before & mid & after & _ & _ & Heq & _); [lia..|].
    eexists. split; [exact Heq|]. lia.
Qed.

Lemma truncate_tokens_total s n :
  ∃ out r, truncate_middle_with_token_budget s n = Some (out, r) ∧
    (r = None ↔ out = s) ∧ (∀ k, r = Some k → k = approx_token_count s) ∧
    ((0 < approx_bytes_for_tokens n)%N → (blen s ≤ approx_bytes_for_tokens n)%N → out = s).
Proof.
  unfold truncate_middle_with_token_budget. destruct s as [|c s]; [exists [], None; naive_solver|].
  set (full := c :: s). destruct (_ && _) eqn:E; [exists full, None; naive_solver|].
  destruct (truncate_estimate_total full (approx_bytes_for_tokens n) true) as (out & -> & Hfit).
  destruct (str_eqb out full) eqn:Eq.
  - apply str_eqb_eq in Eq as ->. exists full, None. naive_solver.
  - apply str_eqb_neq in Eq. exists out, (Some (approx_token_count full)). naive_solver.
Qed.

Lemma truncate_text_total text policy :
  ∃ out, truncate_text text policy = Some out ∧
    ((0 < byte_budget policy)%N → (blen text ≤ byte_budget policy)%N → out = text).
Proof.
  destruct policy as [n|n]; simpl.
  - apply truncate_estimate_total.
  - destruct (truncate_tokens_total text n) as (out & r & -> & _ & _ & Hfit). by exists out.
Qed.

(** ** Items *)

Lemma text_cost_pos policy text : text ≠ [] → (0 < text_cost policy text)%N.
Proof.
  intros Hne. assert (0 < blen text)%N as Hb by (rewrite N.lt_nge, N.le_0_r, blen_zero; done).
  destruct policy; simpl; [done|]. unfold approx_token_count, sat_add, APPROX_BYTES_PER_TOKEN, USIZE_MAX.
  apply N.div_str_pos. lia.
Qed.

Section Items.
Context {detail : Type} (estimate : str → N).
Implicit Types (items : list (ContentItem detail)) (i : ContentItem detail).

(** Images and encrypted content are not charged. *)
Definition is_media i : bool :=
  match i with InputImage _ _ | EncryptedContent _ => true | _ => false end.
Definition is_audio i : bool := match i with InputAudio _ => true | _ => false end.
Definition not_empty_text i : bool :=
  match i with InputText [] => false | _ => true end.
Definition item_cost policy i : N :=
  match i with
  | InputText text => text_cost policy text
  | InputAudio url => audio_cost estimate policy url
  | _ => 0
  end.
Definition total_cost policy items : N := foldr (λ i n, (item_cost policy i + n)%N) 0%N items.
Definition audio_total policy items : N :=
  total_cost policy (filter (λ i, is_audio i = true) items).

Lemma total_cost_app policy a b : total_cost policy (a ++ b) = (total_cost policy a + total_cost policy b)%N.
Proof. unfold total_cost. induction a as [|i a IH]; simpl; [done|]. rewrite IH. lia. Qed.

Lemma item_step_total policy st i : ∃ st', item_step estimate policy st i = Some st'.
Proof.
  destruct st as [out budget texts audios]. unfold item_step. destruct i as [text| | |]; try by eexists.
  - repeat (case_match; try by eexists).
    destruct (truncate_text_total text (with_budget policy budget)) as (snip & -> & _). by eexists.
  - case_match; by eexists.
Qed.

(** What one item does to the media, to the audio budget and to the notes. *)
Lemma item_step_spec policy st i st' :
  item_step estimate policy st i = Some st' →
  filter (λ i, is_media i = true) (items_out st') =
    filter (λ i, is_media i = true) (items_out st) ++ filter (λ i, is_media i = true) [i] ∧
  (audio_total policy (items_out st') + remaining_budget st' ≤
   audio_total policy (items_out st) + remaining_budget st)%N ∧
  ((item_cost policy i ≤ remaining_budget st)%N →
   st' = mkItems (items_out st ++ filter (λ i, not_empty_text i = true) [i])
           (remaining_budget st - item_cost policy i) (omitted_text_items st) (omitted_audio_items st)).
Proof.
  destruct st as [out budget texts audios]. unfold item_step, audio_total. intros H.
  destruct i as [text|url d|url|enc]; simpl in H.
  - case_bool_decide as Ht.
    { simplify_eq/=. rewrite !app_nil_r. split_and!; [done|lia|].
      intros _. assert (text_cost policy [] = 0%N) as -> by (by destruct policy). by rewrite N.sub_0_r. }
    pose proof (text_cost_pos policy text Ht) as Hp.
    destruct (budget =? 0)%N eqn:Ez; [|destruct (text_cost policy text <=? budget)%N eqn:Ec].
    + simplify_eq/=. rewrite !app_nil_r. split_and!; [done|lia|]. apply N.eqb_eq in Ez. lia.
    + simplify_eq/=. rewrite !filter_app, total_cost_app. simpl. split_and!; [done|lia|].
      by destruct text.
    + destruct (truncate_text _ _) as [snip|]; [|done]. simpl in H. apply N.leb_gt in Ec.
      case_bool_decide; simplify_eq/=; rewrite ?filter_app, ?total_cost_app; simpl; rewrite ?app_nil_r;
        (split_and!; [done|lia|lia]).
  - simplify_eq/=. rewrite !filter_app, total_cost_app. simpl. split_and!; [done|lia|]. by rewrite N.sub_0_r.
  - destruct (_ <=? _)%N eqn:Ec; simplify_eq/=; rewrite ?filter_app, ?total_cost_app; simpl; rewrite ?app_nil_r.
    + apply N.leb_le in Ec. split_and!; [done|lia|done].
    + apply N.leb_gt in Ec. split_and!; [done|lia|lia].
  - simplify_eq/=. rewrite !filter_app, total_cost_app. simpl. split_and!; [done|lia|]. by rewrite N.sub_0_r.
Qed.

Lemma items_loop_spec policy st items :
  ∃ st', items_loop estimate policy st items = Some st' ∧
    filter (λ i, is_media i = true) (items_out st') =
      filter (λ i, is_media i = true) (items_out st) ++ filter (λ i, is_media i = true) items ∧
    (audio_total policy (items_out st') + remaining_budget st' ≤
     audio_total policy (items_out st) + remaining_budget st)%N ∧
    ((total_cost policy items ≤ remaining_budget st)%N →
     items_out st' = items_out st ++ filter (λ i, not_empty_text i = true) items ∧
     omitted_text_items st' = omitted_text_items st ∧ omitted_audio_items st' = omitted_audio_items st).
Proof.
  revert st. induction items as [|i items IH]; intros st; simpl.
  { exists st. rewrite !app_nil_r. done. }
  destruct (item_step_total policy st i) as [st1 E]. rewrite E.
  apply item_step_spec in E as (Hm & Ha & Hfit).
  destruct (IH st1) as (st' & Hl & Hm' & Ha' & Hfit'). exists st'. split_and!; [done| |lia|].
  - rewrite Hm', Hm, <- app_assoc. by rewrite <- filter_app.
  - intros Hc. specialize (Hfit ltac:(lia)). subst st1. simpl in *.
    destruct Hfit' as (H1 & H2 & H3); [lia|]. rewrite H1, <- app_assoc, <- filter_app. done.
Qed.
End Items.

(** ** Properties *)

(** C39: a text over its budget is cut in the middle, at char boundaries.  The
    result is the beginning and the end of the text around a marker; each fits
    its half of the budget, neither could keep one char more, what lies
    between is not empty, and the marker reports its length in chars or the
    excess over the budget in tokens. *)
Theorem truncate_middle_cut s max use_tokens :
  (0 < max)%N → (max < blen s)%N →
  ∃ before mid after, s = before ++ mid ++ after ∧ mid ≠ [] ∧
    truncate_with_byte_estimate s max use_tokens =
      Some (before ++ format_truncation_marker use_tokens
              (removed_units use_tokens (blen s - max) (N.min (N.of_nat (length mid)) USIZE_MAX)) ++ after) ∧
    (blen before ≤ max / 2)%N ∧ (blen after ≤ max - max / 2)%N ∧
    no_room (max / 2) (blen before) (mid ++ after) ∧
    (∀ m c, mid = m ++ [c] → (max - max / 2 < len_utf8 c + blen after)%N).
Proof. apply truncate_cut. Qed.

Lemma truncate_middle_cut_witness :
  ∃ before mid after, lit "abcdefg" = before ++ mid ++ after ∧ mid ≠ [] ∧
    truncate_with_byte_estimate (lit "abcdefg") 4 false =
      Some (before ++ format_truncation_marker false
              (removed_units false (blen (lit "abcdefg") - 4) (N.min (N.of_nat (length mid)) USIZE_MAX)) ++ after) ∧
    (blen before ≤ 4 / 2)%N ∧ (blen after ≤ 4 - 4 / 2)%N ∧
    no_room (4 / 2) (blen before) (mid ++ after) ∧
    (∀ m c, mid = m ++ [c] → (4 - 4 / 2 < len_utf8 c + blen after)%N).
Proof. apply (truncate_middle_cut (lit "abcdefg") 4 false); vm_compute; reflexivity. Defined.

(** Truncation to a token budget is total, reports the original token
    count exactly when it changed the text, and changes nothing when the text
    fits a positive budget. *)
Theorem truncate_tokens_reported s n :
  ∃ out r, truncate_middle_with_token_budget s n = Some (out, r) ∧
    (r = None ↔ out = s) ∧ (∀ k, r = Some k → k = approx_token_count s) ∧
    ((0 < approx_bytes_for_tokens n)%N → (blen s ≤ approx_bytes_for_tokens n)%N → out = s).
Proof. apply truncate_tokens_total. Qed.

(** truncating the items of a tool's output never panics, keeps every
    image and every encrypted item in order, and keeps audio items only up to
    the budget; when all the items fit the budget together, only empty texts
    are dropped and no note is added. *)
Theorem truncate_items_keeps_media {detail} (estimate : str → N) (items : list (ContentItem detail)) policy :
  ∃ out, truncate_function_output_items_with_policy estimate items policy = Some out ∧
    filter (λ i, is_media i = true) out = filter (λ i, is_media i = true) items ∧
    (audio_total estimate policy out ≤ initial_budget policy)%N ∧
    ((total_cost estimate policy items ≤ initial_budget policy)%N →
     out = filter (λ i, not_empty_text i = true) items).
Proof.
  unfold truncate_function_output_items_with_policy.
  destruct (items_loop_spec estimate policy (mkItems [] (initial_budget policy) 0 0) items)
    as (st & -> & Hm & Ha & Hfit). simpl in *. eexists. split; [done|].
  assert (∀ n what, filter (λ i, is_media i = true) (omitted_note (detail := detail) n what) = [] ∧
    filter (λ i, is_audio i = true) (omitted_note (detail := detail) n what) = []) as Hnote.
  { intros n what. unfold omitted_note. by case_match. }
  split_and!.
  - rewrite !filter_app, Hm. destruct (Hnote (omitted_text_items st) (lit " text items ...]")) as [-> _].
    destruct (Hnote (omitted_audio_items st) (lit " audio items ...]")) as [-> _]. by rewrite !app_nil_r.
  - unfold audio_total in *. rewrite !filter_app.
    destruct (Hnote (omitted_text_items st) (lit " text items ...]")) as [_ ->].
    destruct (Hnote (omitted_audio_items st) (lit " audio items ...]")) as [_ ->]. rewrite !app_nil_r.
    simpl in Ha. lia.
  - intros Hc. destruct (Hfit Hc) as (-> & -> & ->). simpl. by rewrite !app_nil_r.
Qed.

(** The budget does not bound the result.  The marker comes on top of it,
    so the text [truncate_middle_chars] returns for a budget of four bytes can
    be longer than the text it was given. *)
Theorem truncate_exceeds_budget :
  ∃ out, truncate_middle_chars (lit "abcde") 4 = Some out ∧ (blen (lit "abcde") < blen out)%N.
Proof. eexists. split; [vm_compute; reflexivity|]. vm_compute. reflexivity. Qed.
