(* ===== verification/Template.v ===== *)
(** * Templates ([utils/template/src/lib.rs])

    [{{ name }}] stands for a value, [{{{{] and [}}}}] for literal braces.
    Errors carry byte offsets into the source. *)
From stdpp Require Import numbers strings.
From Stdlib Require Import Sorted.
From S2P Require Import Prelude RustStr.

Inductive TemplateParseError : Type :=
  | EmptyPlaceholder (start : N)
  | NestedPlaceholder (start : N)
  | UnmatchedClosingDelimiter (start : N)
  | UnterminatedPlaceholder (start : N).

Inductive TemplateRenderError : Type :=
  | DuplicateValue (name : str)
  | ExtraValue (name : str)
  | MissingValue (name : str).

Inductive TemplateError : Type :=
  | ParseErr (e : TemplateParseError)
  | RenderErr (e : TemplateRenderError).

Definition OPEN2 : str := lit "{{".
Definition OPEN4 : str := lit "{{{{".
Definition CLOSE2 : str := lit "}}".
Definition CLOSE4 : str := lit "}}}}".

(** [Display] of the errors. *)
Definition parse_error_display (e : TemplateParseError) : str :=
  match e with
  | EmptyPlaceholder start => lit "template placeholder at byte " ++ fmt_N start ++ lit " is empty"
  | NestedPlaceholder start =>
      lit "template placeholder starting at byte " ++ fmt_N start ++ lit " contains a nested `{`"
  | UnmatchedClosingDelimiter start => lit "template contains an unmatched `}` at byte " ++ fmt_N start
  | UnterminatedPlaceholder start =>
      lit "template placeholder starting at byte " ++ fmt_N start ++ lit " is missing `}`"
  end.
Definition render_error_display (e : TemplateRenderError) : str :=
  match e with
  | DuplicateValue name => lit "template value `" ++ name ++ lit "` was provided more than once"
  | ExtraValue name => lit "template value `" ++ name ++ lit "` is not used by this template"
  | MissingValue name => lit "template placeholder `" ++ name ++ lit "` is missing a value"
  end.
Definition template_error_display (e : TemplateError) : str :=
  match e with ParseErr e => parse_error_display e | RenderErr e => render_error_display e end.

Inductive Segment : Type :=
  | Literal (text : str)
  | Placeholder (name : str).

(** [BTreeSet<String>] and [BTreeMap<String, String>]: sorted by key. *)
Fixpoint set_insert (name : str) (set : list str) : list str :=
  match set with
  | [] => [name]
  | x :: set' => match str_cmp name x with
                 | Lt => name :: set
                 | Eq => set
                 | Gt => x :: set_insert name set'
                 end
  end.
(** The map after the insertion and the value that was there. *)
Fixpoint map_insert (name value : str) (map : list (str * str)) : list (str * str) * option str :=
  match map with
  | [] => ([(name, value)], None)
  | (k, v) :: map' => match str_cmp name k with
                      | Lt => ((name, value) :: map, None)
                      | Eq => ((k, value) :: map', Some v)
                      | Gt => let '(m, old) := map_insert name value map' in ((k, v) :: m, old)
                      end
  end.
Fixpoint map_get (name : str) (map : list (str * str)) : option str :=
  match map with
  | [] => None
  | (k, v) :: map' => if str_eqb k name then Some v else map_get name map'
  end.

Record Template : Type := mkTemplate { placeholders : list str; segments : list Segment }.

(** [push_literal]. *)
Definition push_literal (segs : list Segment) (literal : str) : list Segment :=
  if bool_decide (literal = []) then segs
  else match last segs with
       | Some (Literal _) =>
           alter_last (λ s, match s with Literal existing => Literal (existing ++ literal) | s => s end) segs
       | _ => segs ++ [Literal literal]
       end.

(** The loop of [parse_placeholder]: [name] is the text from
    [placeholder_start] to the cursor, [rest] the source from the cursor on.
    Returns the rest after the closing delimiter. *)
Fixpoint placeholder_loop (start : N) (name rest : str) : result TemplateParseError (str * str * str) :=
  if starts_with OPEN2 rest then Err (NestedPlaceholder start)
  else match strip_prefix CLOSE2 rest with
       | Some rest' =>
           let placeholder := trim name in
           if bool_decide (placeholder = []) then Err (EmptyPlaceholder start)
           else Ok (placeholder, name, rest')
       | None => match rest with
                 | [] => Err (UnterminatedPlaceholder start)
                 | ch :: rest' => placeholder_loop start (name ++ [ch]) rest'
                 end
       end.

(** The loop of [Template::parse]; [literal] is the text from
    [literal_start] to the cursor.  Each iteration moves the cursor, so the
    length of the source is enough fuel. *)
Fixpoint parse_loop (fuel : nat) (set : list str) (segs : list Segment) (literal : str)
    (cursor : N) (rest : str) : result TemplateParseError Template :=
  match fuel, rest with
  | S fuel', _ :: _ =>
      match strip_prefix OPEN4 rest with
      | Some rest' =>
          parse_loop fuel' set (push_literal (push_literal segs literal) OPEN2) [] (cursor + 4) rest'
      | None =>
          match strip_prefix CLOSE4 rest with
          | Some rest' =>
              parse_loop fuel' set (push_literal (push_literal segs literal) CLOSE2) [] (cursor + 4) rest'
          | None =>
              match strip_prefix OPEN2 rest with
              | Some rest' =>
                  let segs := push_literal segs literal in
                  let? (placeholder, name, rest') := placeholder_loop cursor [] rest' in
                  parse_loop fuel' (set_insert placeholder set) (segs ++ [Placeholder placeholder]) []
                    (cursor + 2 + blen name + 2) rest'
              | None =>
                  if starts_with CLOSE2 rest then Err (UnmatchedClosingDelimiter cursor)
                  else match rest with
                       | [] => Ok (mkTemplate set (push_literal segs literal))
                       | ch :: rest' => parse_loop fuel' set segs (literal ++ [ch]) (cursor + len_utf8 ch) rest'
                       end
              end
          end
      end
  | _, _ => Ok (mkTemplate set (push_literal segs literal))
  end.

(** [Template::parse]. *)
Definition template_parse (source : str) : result TemplateParseError Template :=
  parse_loop (length source) [] [] [] 0 source.

(** [build_variable_map]. *)
Fixpoint build_variable_map (map : list (str * str)) (variables : list (str * str))
  : result TemplateRenderError (list (str * str)) :=
  match variables with
  | [] => Ok map
  | (name, value) :: variables' =>
      match map_insert name value map with
      | (_, Some _) => Err (DuplicateValue name)
      | (map', None) => build_variable_map map' variables'
      end
  end.

(** The first placeholder without a value, the first value without a
    placeholder. *)
Fixpoint check_missing (set : list str) (map : list (str * str)) : result TemplateRenderError unit :=
  match set with
  | [] => Ok tt
  | name :: set' => match map_get name map with
                    | None => Err (MissingValue name)
                    | Some _ => check_missing set' map
                    end
  end.
Fixpoint check_extra (map : list (str * str)) (set : list str) : result TemplateRenderError unit :=
  match map with
  | [] => Ok tt
  | (name, _) :: map' => if existsb (str_eqb name) set then check_extra map' set else Err (ExtraValue name)
  end.

(** The loop over the segments. *)
Fixpoint render_segments (map : list (str * str)) (segs : list Segment) (rendered : str)
  : result TemplateRenderError str :=
  match segs with
  | [] => Ok rendered
  | Literal literal :: segs' => render_segments map segs' (rendered ++ literal)
  | Placeholder name :: segs' =>
      match map_get name map with
      | None => Err (MissingValue name)
      | Some value => render_segments map segs' (rendered ++ value)
      end
  end.

(** [Template::render]. *)
Definition template_render (t : Template) (variables : list (str * str)) : result TemplateRenderError str :=
  let? map := build_variable_map [] variables in
  let? _ := check_missing (placeholders t) map in
  let? _ := check_extra map (placeholders t) in
  render_segments map (segments t) [].

(** [render]. *)
Definition render (template : str) (variables : list (str * str)) : result TemplateError str :=
  let? t := map_err ParseErr (template_parse template) in
  map_err RenderErr (template_render t variables).

Example render_example :
  render (lit "Hi {{ name }}, {{{{x}}}}!") [(lit "name", lit "Bo")] = Ok (lit "Hi Bo, {{x}}!").
Proof. vm_compute. reflexivity. Qed.
Example render_error_example :
  render (lit "a}}") [] = Err (ParseErr (UnmatchedClosingDelimiter 1)).
Proof. vm_compute. reflexivity. Qed.

(** * Properties of templates

    A template written from pieces is parsed back into them and rendered by
    substituting each value, and rendering is strict: it succeeds exactly when
    the values given are those of the placeholders, each once. *)

(** ** Sorted maps *)

Definition str_lt (a b : str) : Prop := str_cmp a b = Lt.

Lemma str_cmp_antisym a b : str_cmp b a = CompOpp (str_cmp a b).
Proof.
  revert b. induction a as [|x a IH]; intros [|y b]; try done. unfold str_cmp. simpl.
  rewrite N.compare_antisym. destruct (N.compare x y); [apply IH|done..].
Qed.

#[global] Instance str_lt_trans : Transitive str_lt.
Proof.
  unfold str_lt. intros a. induction a as [|x a IH]; intros [|y b] [|z c]; try done.
  unfold str_cmp. simpl.
  destruct (N.compare_spec x y) as [->|Hxy|Hxy], (N.compare_spec y z) as [->|Hyz|Hyz]; try done;
    intros H1 H2; rewrite ?N.compare_refl; try (rewrite (proj2 (N.compare_lt_iff _ _)) by lia; done).
  by eapply IH.
Qed.

Lemma str_lt_neq a b : str_lt a b → a ≠ b.
Proof. intros Hlt ->. unfold str_lt in Hlt. by rewrite (proj2 (str_cmp_eq b b)) in Hlt. Qed.

Definition keys_sorted (m : list (str * str)) : Prop := StronglySorted str_lt m.*1.

Lemma map_get_not_in name m : name ∉ m.*1 → map_get name m = None.
Proof.
  induction m as [|[k v] m IH]; simpl; [done|]. rewrite not_elem_of_cons. intros [Hk Hm].
  rewrite (proj2 (str_eqb_neq k name)) by congruence. auto.
Qed.
Lemma map_get_in name m : name ∈ m.*1 → ∃ v, map_get name m = Some v.
Proof.
  induction m as [|[k v] m IH]; simpl; [set_solver|]. rewrite elem_of_cons.
  destruct (str_eqb k name) eqn:E; [eauto|]. apply str_eqb_neq in E. intros [->|Hm]; [done|auto].
Qed.

(** [map_insert] keeps the keys sorted, adds the key, reports the value that
    was there and sets the new one. *)
Lemma map_insert_spec name value m :
  keys_sorted m →
  let '(m', old) := map_insert name value m in
  keys_sorted m' ∧ (∀ x, x ∈ m'.*1 ↔ x = name ∨ x ∈ m.*1) ∧
  (is_Some old ↔ name ∈ m.*1) ∧
  ∀ x, map_get x m' = if str_eqb name x then Some value else map_get x m.
Proof.
  unfold keys_sorted. induction m as [|[k v] m IH]; simpl; intros Hs.
  { split_and!; [repeat constructor|set_solver|split; [intros [? ?]; done|set_solver]|done]. }
  apply StronglySorted_inv in Hs as [Hs Hall].
  destruct (str_cmp name k) eqn:E.
  - apply str_cmp_eq in E as ->. simpl. split_and!.
    + by constructor.
    + set_solver.
    + split; [intros _; left|done].
    + intros x. by destruct (str_eqb k x).
  - simpl. assert (name ∉ k :: m.*1) as Hnot.
    { rewrite elem_of_cons. intros [->|Hin]; [by apply (str_lt_neq k k)|].
      rewrite Forall_forall in Hall. apply Hall in Hin. apply (str_lt_neq name name); [|done].
      by trans k. }
    split_and!.
    + constructor; [by constructor|]. constructor; [done|].
      eapply Forall_impl; [exact Hall|]. intros x Hx. by trans k.
    + set_solver.
    + split; [intros [? ?]; done|done].
    + done.
  - specialize (IH Hs). destruct (map_insert name value m) as [m' old]. destruct IH as (Hs' & Hk & Ho & Hg).
    assert (str_lt k name) as Hlt by (unfold str_lt; by rewrite str_cmp_antisym, E). simpl. split_and!.
    + constructor; [done|]. apply Forall_forall. intros x [->|Hx]%Hk; [done|].
      rewrite Forall_forall in Hall. auto.
    + intros x. rewrite elem_of_cons, Hk, elem_of_cons. naive_solver.
    + rewrite Ho, elem_of_cons. apply str_lt_neq in Hlt. naive_solver.
    + intros x. rewrite Hg. destruct (str_eqb k x) eqn:Ek; [|done].
      apply str_eqb_eq in Ek as ->. apply str_lt_neq in Hlt.
      by rewrite (proj2 (str_eqb_neq name x)).
Qed.

(** The map holds the variables, provided no name is given twice. *)
Lemma build_variable_map_spec variables m :
  keys_sorted m →
  match build_variable_map m variables with
  | Ok m' => NoDup variables.*1 ∧ (∀ x, x ∈ variables.*1 → x ∉ m.*1) ∧
      (∀ x, x ∈ m'.*1 ↔ x ∈ variables.*1 ∨ x ∈ m.*1) ∧
      ∀ x, map_get x m' = match map_get x variables with Some v => Some v | None => map_get x m end
  | Err _ => ¬ (NoDup variables.*1 ∧ ∀ x, x ∈ variables.*1 → x ∉ m.*1)
  end.
Proof.
  revert m. induction variables as [|[name value] variables IH]; intros m Hs; simpl.
  { split_and!; [constructor|set_solver..|done]. }
  pose proof (map_insert_spec name value m Hs) as H.
  destruct (map_insert name value m) as [m1 [old|]]; destruct H as (Hs1 & Hk & Ho & Hg).
  - intros [_ Hnot]. apply (Hnot name); [left|]. apply Ho. eauto.
  - assert (name ∉ m.*1) as Hnew by (intros [? ?]%Ho; done).
    specialize (IH m1 Hs1). destruct (build_variable_map m1 variables) as [m'|e].
    + destruct IH as (Hnd & Hdis & Hk' & Hg'). split_and!.
      * constructor; [|done]. intros Hin. apply (Hdis name Hin). apply Hk. by left.
      * intros x [->|Hx]%elem_of_cons; [done|]. intros Hm. apply (Hdis x Hx). apply Hk. by right.
      * intros x. rewrite Hk', elem_of_cons, Hk. naive_solver.
      * intros x. rewrite Hg', Hg. destruct (str_eqb name x) eqn:E; [|done].
        apply str_eqb_eq in E as <-. rewrite map_get_not_in; [done|].
        intros Hin. apply (Hdis name Hin). apply Hk. by left.
    + intros [Hnd Hdis]. apply NoDup_cons in Hnd as [Hn Hnd]. apply IH. split; [done|].
      intros x Hx [->|Hm]%Hk; [done|]. by apply (Hdis x); [right|].
Qed.

Lemma check_missing_Ok set m : check_missing set m = Ok tt ↔ ∀ x, x ∈ set → x ∈ m.*1.
Proof.
  induction set as [|x set IH]; simpl; [set_solver|].
  destruct (map_get x m) as [v|] eqn:E.
  - rewrite IH. split; [|set_solver]. intros H y [->|Hy]%elem_of_cons; [|auto].
    destruct (decide (x ∈ m.*1)) as [|Hn%map_get_not_in]; [done|congruence].
  - split; [done|]. intros H. destruct (map_get_in x m) as [v Hv]; [set_solver|congruence].
Qed.

Lemma check_extra_Ok m set : check_extra m set = Ok tt ↔ ∀ x, x ∈ m.*1 → x ∈ set.
Proof.
  induction m as [|[k v] m IH]; simpl; [set_solver|].
  destruct (existsb (str_eqb k) set) eqn:E.
  - rewrite IH. assert (k ∈ set) as Hk.
    { apply existsb_exists in E as (y & Hy & ->%str_eqb_eq). by apply list_elem_of_In. }
    split; [intros H y [->|Hy]%elem_of_cons; auto|set_solver].
  - split; [done|]. intros H. assert (k ∈ set) as Hk%list_elem_of_In by set_solver.
    assert (existsb (str_eqb k) set = true); [|congruence].
    apply existsb_exists. exists k. split; [done|apply str_eqb_refl].
Qed.

(** ** Rendering *)

Definition seg_text (m : list (str * str)) (s : Segment) : str :=
  match s with Literal t => t | Placeholder n => default [] (map_get n m) end.

Lemma render_segments_Ok m segs r :
  (∀ n, Placeholder n ∈ segs → n ∈ m.*1) →
  render_segments m segs r = Ok (r ++ concat (seg_text m <$> segs)).
Proof.
  revert r. induction segs as [|[t|n] segs IH]; intros r Hin; csimpl; [by rewrite app_nil_r|..].
  - rewrite IH by set_solver. by rewrite <- app_assoc.
  - destruct (map_get_in n m) as [v Hv]; [set_solver|]. rewrite Hv. simpl.
    rewrite IH by set_solver. by rewrite <- app_assoc.
Qed.

(** Rendering succeeds exactly with the values of the placeholders. *)
Lemma template_render_spec t variables :
  (∀ n, n ∈ placeholders t ↔ Placeholder n ∈ segments t) →
  match template_render t variables with
  | Ok out => NoDup variables.*1 ∧ (∀ n, n ∈ variables.*1 ↔ n ∈ placeholders t) ∧
              out = concat (seg_text variables <$> segments t)
  | Err _ => ¬ (NoDup variables.*1 ∧ ∀ n, n ∈ variables.*1 ↔ n ∈ placeholders t)
  end.
Proof.
  intros Hph. unfold template_render.
  pose proof (build_variable_map_spec variables [] ltac:(constructor)) as Hb.
  destruct (build_variable_map [] variables) as [m|e]; [|set_solver].
  destruct Hb as (Hnd & _ & Hk & Hg).
  assert (∀ x, x ∈ m.*1 ↔ x ∈ variables.*1) as Hk' by set_solver.
  pose proof (check_missing_Ok (placeholders t) m) as Hm. destruct (check_missing _ m) as [[]|e].
  2:{ intros [_ H]. assert (Err e = Ok tt) as [=]. apply Hm. intros x Hx. by apply Hk', H. }
  pose proof (check_extra_Ok m (placeholders t)) as He. destruct (check_extra m _) as [[]|e].
  2:{ intros [_ H]. assert (Err e = Ok tt) as [=]. apply He. intros x Hx. by apply H, Hk'. }
  assert (∀ n, n ∈ variables.*1 ↔ n ∈ placeholders t) as Heq.
  { intros n. rewrite <- Hk'. split; [by apply He|by apply Hm]. }
  rewrite render_segments_Ok by (intros n Hn; apply Hk', Heq, Hph; done).
  split_and!; [done..|]. cbn [app]. f_equal. apply list_fmap_ext. intros _ s _. destruct s as [|n]; [done|].
  simpl. rewrite Hg. simpl. by destruct (map_get n variables).
Qed.

(** ** Parsing *)

Lemma elem_of_set_insert x name set : x ∈ set_insert name set ↔ x = name ∨ x ∈ set.
Proof.
  induction set as [|y set IH]; simpl; [set_solver|].
  destruct (str_cmp name y) eqn:E.
  - apply str_cmp_eq in E as ->. set_solver.
  - set_solver.
  - rewrite !elem_of_cons, IH. naive_solver.
Qed.

Lemma push_literal_nil segs : push_literal segs [] = segs.
Proof. done. Qed.

(** Literal text joins the literal before it. *)
Lemma push_literal_app segs a b : push_literal (push_literal segs a) b = push_literal segs (a ++ b).
Proof.
  unfold push_literal. destruct (decide (a = [])) as [->|Ha]; [done|].
  rewrite (bool_decide_false (a = [])) by done.
  rewrite (bool_decide_false (a ++ b = [])) by (by destruct a).
  destruct (list_snoc_cases segs) as [->|(l & s & ->)].
  - simpl. case_bool_decide; [subst; by rewrite app_nil_r|done].
  - rewrite last_snoc, !alter_last_snoc. destruct s as [t|n].
    + rewrite last_snoc, alter_last_snoc. case_bool_decide; [subst; by rewrite app_nil_r|]. by rewrite <- app_assoc.
    + rewrite last_snoc, alter_last_snoc. case_bool_decide; [subst; by rewrite app_nil_r|done].
Qed.

Lemma elem_of_push_literal n segs t : Placeholder n ∈ push_literal segs t ↔ Placeholder n ∈ segs.
Proof.
  unfold push_literal. case_bool_decide; [done|].
  destruct (list_snoc_cases segs) as [->|(l & s & ->)]; [set_solver|].
  rewrite last_snoc. destruct s; rewrite ?alter_last_snoc; set_solver.
Qed.

(** The placeholders of a template are those of its segments. *)
Lemma parse_loop_placeholders n set segs literal cursor rest t :
  parse_loop n set segs literal cursor rest = Ok t →
  (∀ x, x ∈ set ↔ Placeholder x ∈ segs) →
  ∀ x, x ∈ placeholders t ↔ Placeholder x ∈ segments t.
Proof.
  revert set segs literal cursor rest. induction n as [|n IH]; intros set segs literal cursor rest; cbn [parse_loop].
  { intros [= <-] H x. simpl. by rewrite elem_of_push_literal. }
  destruct rest as [|c rest]; [intros [= <-] H x; simpl; by rewrite elem_of_push_literal|].
  destruct (strip_prefix OPEN4 _); [intros E H; apply (IH _ _ _ _ _ E); intros x; by rewrite !elem_of_push_literal|].
  destruct (strip_prefix CLOSE4 _); [intros E H; apply (IH _ _ _ _ _ E); intros x; by rewrite !elem_of_push_literal|].
  destruct (strip_prefix OPEN2 _) as [rest'|].
  - destruct (placeholder_loop _ _ _) as [[[name text] rest'']|]; [|done]. intros E H. apply (IH _ _ _ _ _ E).
    intros x. rewrite elem_of_set_insert, elem_of_app, elem_of_push_literal, H, list_elem_of_singleton. naive_solver.
  - destruct (starts_with CLOSE2 _); [done|]. intros E H. by apply (IH _ _ _ _ _ E).
Qed.

Lemma template_parse_placeholders source t :
  template_parse source = Ok t → ∀ x, x ∈ placeholders t ↔ Placeholder x ∈ segments t.
Proof. intros H. eapply parse_loop_placeholders; [exact H|]. set_solver. Qed.

(** ** Sources *)

(** The pieces a source is written from. *)
Inductive Piece : Type :=
  | PText (t : str)
  | POpen
  | PClose
  | PVar (pad_l name pad_r : str).

Definition no_brace (c : char) : Prop := c ≠ chr "{" ∧ c ≠ chr "}".
Definition blank (s : str) : Prop := Forall (λ c, is_whitespace c = true) s.

Definition piece_ok (p : Piece) : Prop :=
  match p with
  | PText t => Forall no_brace t
  | PVar a name b => blank a ∧ blank b ∧ name ≠ [] ∧ trim name = name ∧ Forall no_brace name
  | _ => True
  end.

Definition piece_source (p : Piece) : str :=
  match p with
  | PText t => t
  | POpen => OPEN4
  | PClose => CLOSE4
  | PVar a name b => OPEN2 ++ (a ++ name ++ b) ++ CLOSE2
  end.
Definition source_of (ps : list Piece) : str := concat (piece_source <$> ps).

Definition push_piece (segs : list Segment) (p : Piece) : list Segment :=
  match p with
  | PText t => push_literal segs t
  | POpen => push_literal segs OPEN2
  | PClose => push_literal segs CLOSE2
  | PVar _ name _ => segs ++ [Placeholder name]
  end.
Definition piece_name (p : Piece) : option str := match p with PVar _ name _ => Some name | _ => None end.

(** The value of a piece. *)
Definition piece_text (variables : list (str * str)) (p : Piece) : str :=
  match p with
  | PText t => t
  | POpen => OPEN2
  | PClose => CLOSE2
  | PVar _ name _ => default [] (map_get name variables)
  end.

Lemma blank_no_brace s : blank s → Forall no_brace s.
Proof.
  intros Hs. eapply Forall_impl; [exact Hs|]. intros c Hc. simpl in Hc.
  split; intros ->; vm_compute in Hc; discriminate.
Qed.

(** A char that is no brace starts no delimiter. *)
Lemma strip_prefix_no_brace w c s :
  no_brace c → w = OPEN2 ∨ w = OPEN4 ∨ w = CLOSE2 ∨ w = CLOSE4 → strip_prefix w (c :: s) = None.
Proof.
  intros [H1 H2] Hw. destruct (strip_prefix w (c :: s)) as [r|] eqn:E; [|done].
  apply strip_prefix_Some in E. exfalso.
  destruct Hw as [->|[->|[->| ->]]]; injection E as -> _; (by apply H1) || (by apply H2).
Qed.

Lemma starts_with_no_brace w c s :
  no_brace c → w = OPEN2 ∨ w = OPEN4 ∨ w = CLOSE2 ∨ w = CLOSE4 → starts_with w (c :: s) = false.
Proof. intros Hc Hw. unfold starts_with. by rewrite strip_prefix_no_brace. Qed.

Lemma trim_start_blank a s : blank a → trim_start (a ++ s) = trim_start s.
Proof. induction 1 as [|c a Hc Ha IH]; [done|]. simpl. by rewrite Hc. Qed.
Lemma trim_end_matches_all p s : Forall (λ c, p c = true) s → trim_end_matches p s = [].
Proof. induction 1 as [|c s Hc Hs IH]; simpl; [done|]. by rewrite IH, Hc. Qed.
Lemma trim_end_blank s b : blank b → trim_end (s ++ b) = trim_end s.
Proof.
  intros Hb. unfold trim_end. induction s as [|c s IH]; simpl; [by apply trim_end_matches_all|]. by rewrite IH.
Qed.

Lemma trim_pad a name b : blank a → blank b → name ≠ [] → trim name = name → trim (a ++ name ++ b) = name.
Proof.
  intros Ha Hb Hne Ht. unfold trim. rewrite trim_start_blank by done.
  assert (trim_start name = name) as Hs.
  { destruct (trim_start_spec name) as (t & Heq & _). unfold trim in Ht.
    destruct (trim_end_matches_spec is_whitespace (trim_start name)) as (t' & Heq' & _).
    fold (trim_end (trim_start name)) in Heq'. rewrite Ht in Heq'.
    apply (f_equal length) in Heq as Hl, Heq' as Hl'. rewrite length_app in Hl, Hl'.
    destruct t; [done|]. simpl in Hl. lia. }
  destruct name as [|c name]; [done|]. simpl in Hs. simpl.
  destruct (is_whitespace c) eqn:Ec.
  { exfalso. destruct (trim_start_spec name) as (t & Heq & _). rewrite Hs in Heq.
    apply (f_equal length) in Heq. rewrite length_app in Heq. simpl in Heq. lia. }
  rewrite (app_comm_cons name b c), trim_end_blank by done. unfold trim in Ht. simpl in Ht. by rewrite Ec in Ht.
Qed.

(** Scanning a placeholder up to its closing delimiter. *)
Lemma placeholder_loop_scan start acc name rest :
  Forall no_brace name →
  placeholder_loop start acc (name ++ CLOSE2 ++ rest) =
  if bool_decide (trim (acc ++ name) = []) then Err (EmptyPlaceholder start)
  else Ok (trim (acc ++ name), acc ++ name, rest).
Proof.
  intros Hn. revert acc. induction Hn as [|c name Hc Hn IH]; intros acc.
  - rewrite app_nil_r. cbn [app]. unfold CLOSE2 at 1. simpl. done.
  - cbn [app placeholder_loop]. rewrite starts_with_no_brace, strip_prefix_no_brace by auto.
    rewrite IH, <- app_assoc. done.
Qed.

Lemma strip_prefix_longer (c d : char) (w s : str) :
  c ≠ d → strip_prefix (w ++ [c]) (w ++ d :: s) = None.
Proof.
  intros Hne. induction w as [|x w IH]; simpl; [by rewrite (proj2 (N.eqb_neq c d))|]. by rewrite N.eqb_refl.
Qed.

Lemma parse_loop_text n set segs literal cursor t rest :
  Forall no_brace t →
  parse_loop (length t + n) set segs literal cursor (t ++ rest) =
  parse_loop n set segs (literal ++ t) (cursor + blen t) rest.
Proof.
  intros Ht. revert literal cursor. induction Ht as [|c t Hc Ht IH]; intros literal cursor.
  - by rewrite app_nil_r, N.add_0_r.
  - cbn [length Nat.add app parse_loop]. rewrite !strip_prefix_no_brace by auto.
    rewrite starts_with_no_brace by auto. rewrite IH, <- app_assoc. simpl. by rewrite N.add_assoc.
Qed.

Lemma parse_loop_end n set segs literal cursor :
  parse_loop n set segs literal cursor [] = Ok (mkTemplate set (push_literal segs literal)).
Proof. by destruct n. Qed.

Lemma parse_loop_open n set segs literal cursor rest :
  parse_loop (S n) set segs literal cursor (OPEN4 ++ rest) =
  parse_loop n set (push_literal segs (literal ++ OPEN2)) [] (cursor + 4) rest.
Proof. rewrite <- push_literal_app. reflexivity. Qed.
Lemma parse_loop_close n set segs literal cursor rest :
  parse_loop (S n) set segs literal cursor (CLOSE4 ++ rest) =
  parse_loop n set (push_literal segs (literal ++ CLOSE2)) [] (cursor + 4) rest.
Proof. rewrite <- push_literal_app. reflexivity. Qed.

Lemma parse_loop_var n set segs literal cursor a name b rest :
  piece_ok (PVar a name b) →
  parse_loop (S n) set segs literal cursor (OPEN2 ++ (a ++ name ++ b) ++ CLOSE2 ++ rest) =
  parse_loop n (set_insert name set) (push_literal segs literal ++ [Placeholder name]) []
    (cursor + 2 + blen (a ++ name ++ b) + 2) rest.
Proof.
  intros (Ha & Hb & Hne & Ht & Hn). set (inner := a ++ name ++ b).
  assert (Forall no_brace inner) as Hi.
  { unfold inner. rewrite !Forall_app. split_and!; [by apply blank_no_brace|done|by apply blank_no_brace]. }
  assert (trim inner = name) as Htrim by by apply trim_pad.
  assert (∃ c r, inner ++ CLOSE2 ++ rest = c :: r ∧ no_brace c) as (c & r & Hcr & Hc).
  { destruct inner as [|c i] eqn:Ei.
    - unfold inner in Ei. apply app_eq_nil in Ei as [_ [-> _]%app_eq_nil]. done.
    - apply Forall_cons in Hi as [Hc _]. by exists c, (i ++ CLOSE2 ++ rest). }
  set (rest' := inner ++ CLOSE2 ++ rest) in *.
  assert (strip_prefix OPEN4 (OPEN2 ++ rest') = None) as H4.
  { rewrite Hcr. change (strip_prefix OPEN2 (c :: r) = None). by apply strip_prefix_no_brace; auto. }
  assert (strip_prefix CLOSE4 (OPEN2 ++ rest') = None) as H4' by reflexivity.
  pose proof (strip_prefix_app OPEN2 rest') as H2.
  destruct (OPEN2 ++ rest') as [|x src] eqn:E; [done|]. cbn [parse_loop]. rewrite H4, H4', H2.
  unfold rest'. rewrite placeholder_loop_scan by done. cbn [app]. rewrite Htrim, bool_decide_false by done. done.
Qed.

Definition insert_name (set : list str) (p : Piece) : list str :=
  match piece_name p with Some name => set_insert name set | None => set end.

(** The template of a source made of pieces. *)
Lemma parse_loop_pieces n set segs literal cursor ps :
  Forall piece_ok ps → length (source_of ps) ≤ n →
  parse_loop n set segs literal cursor (source_of ps) =
  Ok (mkTemplate (foldl insert_name set ps) (foldl push_piece (push_literal segs literal) ps)).
Proof.
  intros Hps. revert n set segs literal cursor. unfold source_of.
  induction Hps as [|p ps Hp Hps IH]; intros n set segs literal cursor Hn; [apply parse_loop_end|].
  rewrite fmap_cons in *. cbn [concat foldl] in *. rewrite length_app in Hn.
  destruct p as [t| | |a name b]; cbn [piece_source push_piece insert_name piece_name] in *.
  - replace n with (length t + (n - length t)) by lia.
    rewrite parse_loop_text by done. rewrite IH by lia. by rewrite push_literal_app.
  - destruct n as [|n]; [simpl in Hn; lia|]. rewrite parse_loop_open, IH by (simpl in Hn; lia).
    by rewrite push_literal_nil, push_literal_app.
  - destruct n as [|n]; [simpl in Hn; lia|]. rewrite parse_loop_close, IH by (simpl in Hn; lia).
    by rewrite push_literal_nil, push_literal_app.
  - destruct n as [|n]; [simpl in Hn; lia|]. rewrite !length_app in Hn. simpl in Hn.
    rewrite <- !(app_assoc OPEN2), <- (app_assoc (a ++ name ++ b)), parse_loop_var by done.
    rewrite IH by lia. by rewrite push_literal_nil.
Qed.

Lemma template_parse_pieces ps :
  Forall piece_ok ps →
  template_parse (source_of ps) = Ok (mkTemplate (foldl insert_name [] ps) (foldl push_piece [] ps)).
Proof. intros Hps. unfold template_parse. by rewrite parse_loop_pieces. Qed.

(** The text of the segments is the text of the pieces. *)
Lemma seg_text_push m segs p :
  concat (seg_text m <$> push_piece segs p) = concat (seg_text m <$> segs) ++ piece_text m p.
Proof.
  assert (∀ t, concat (seg_text m <$> push_literal segs t) = concat (seg_text m <$> segs) ++ t) as Hl.
  { intros t. unfold push_literal. case_bool_decide; [subst; by rewrite app_nil_r|].
    destruct (list_snoc_cases segs) as [->|(l & s & ->)]; [simpl; by rewrite app_nil_r|].
    rewrite last_snoc. destruct s; rewrite ?alter_last_snoc, !fmap_app, !concat_app; simpl;
      rewrite ?app_nil_r, <- ?app_assoc; done. }
  destruct p as [t| | |a name b]; cbn [push_piece piece_text]; try apply Hl.
  rewrite fmap_app, concat_app. simpl. by rewrite app_nil_r.
Qed.

Lemma seg_text_pieces m segs ps :
  concat (seg_text m <$> foldl push_piece segs ps) = concat (seg_text m <$> segs) ++ concat (piece_text m <$> ps).
Proof.
  revert segs. induction ps as [|p ps IH]; intros segs; cbn [foldl]; [by rewrite app_nil_r|].
  rewrite IH, seg_text_push, fmap_cons. cbn [concat]. by rewrite <- app_assoc.
Qed.

Lemma insert_names_elem set ps x : x ∈ foldl insert_name set ps ↔ x ∈ set ∨ x ∈ omap piece_name ps.
Proof.
  revert set. induction ps as [|p ps IH]; intros set; csimpl; [set_solver|].
  rewrite IH. unfold insert_name. destruct (piece_name p); [|done].
  rewrite elem_of_set_insert, elem_of_cons. naive_solver.
Qed.

(** ** Properties *)

(** a template is rendered by substituting its placeholders.  For a source
    made of brace-free text, escaped braces and padded placeholders, and values
    for exactly its placeholder names, each given once, [render] returns the
    pieces in order with every placeholder replaced by its value and every
    escape by the braces it stands for. *)
Theorem render_pieces ps variables :
  Forall piece_ok ps → NoDup variables.*1 →
  (∀ n, n ∈ variables.*1 ↔ n ∈ omap piece_name ps) →
  render (source_of ps) variables = Ok (concat (piece_text variables <$> ps)).
Proof.
  intros Hps Hnd Hk. unfold render. rewrite template_parse_pieces by done. cbn [map_err].
  pose proof (template_render_spec _ variables (template_parse_placeholders _ _ (template_parse_pieces ps Hps))) as H.
  destruct (template_render _ variables) as [out|e].
  - destruct H as (_ & _ & ->). simpl. by rewrite seg_text_pieces.
  - destruct H. split; [done|]. intros n. simpl. rewrite Hk, insert_names_elem. set_solver.
Qed.

Lemma render_pieces_witness :
  render (source_of [PText (lit "Hi "); PVar (lit " ") (lit "name") (lit " "); POpen; PClose; PVar [] (lit "name") []])
    [(lit "name", lit "{{x}}")] =
  Ok (lit "Hi {{x}}{{}}{{x}}").
Proof.
  apply (render_pieces
    [PText (lit "Hi "); PVar (lit " ") (lit "name") (lit " "); POpen; PClose; PVar [] (lit "name") []]
    [(lit "name", lit "{{x}}")]).
  - repeat constructor; try (vm_compute; discriminate); reflexivity.
  - apply NoDup_singleton.
  - intros n. cbn [fmap list_fmap omap list_omap piece_name fst]. set_solver.
Defined.

(** Rendering is strict.  A parsed template renders exactly when no name is
    given twice and the names given are those of its placeholders; it then
    yields its segments with the values in place, and otherwise an error. *)
Theorem render_strict source t variables :
  template_parse source = Ok t →
  match template_render t variables with
  | Ok out => NoDup variables.*1 ∧ (∀ n, n ∈ variables.*1 ↔ Placeholder n ∈ segments t) ∧
              out = concat (seg_text variables <$> segments t)
  | Err _ => ¬ (NoDup variables.*1 ∧ ∀ n, n ∈ variables.*1 ↔ Placeholder n ∈ segments t)
  end.
Proof.
  intros Hp. pose proof (template_parse_placeholders _ _ Hp) as Hph.
  pose proof (template_render_spec t variables Hph) as H.
  destruct (template_render t variables); setoid_rewrite Hph in H; done.
Qed.

Lemma render_strict_witness :
  match template_render (mkTemplate [lit "x"] [Literal (lit "a"); Placeholder (lit "x")]) [(lit "x", lit "1"); (lit "y", lit "2")] with
  | Ok out => NoDup [lit "x"; lit "y"] ∧
      (∀ n, n ∈ [lit "x"; lit "y"] ↔ Placeholder n ∈ [Literal (lit "a"); Placeholder (lit "x")]) ∧
      out = concat (seg_text [(lit "x", lit "1"); (lit "y", lit "2")] <$> [Literal (lit "a"); Placeholder (lit "x")])
  | Err _ => ¬ (NoDup [lit "x"; lit "y"] ∧
      ∀ n, n ∈ [lit "x"; lit "y"] ↔ Placeholder n ∈ [Literal (lit "a"); Placeholder (lit "x")])
  end.
Proof.
  apply (render_strict (lit "a{{x}}") (mkTemplate [lit "x"] [Literal (lit "a"); Placeholder (lit "x")])
    [(lit "x", lit "1"); (lit "y", lit "2")]). vm_compute. reflexivity.
Defined.
