(* ===== verification/HeadTail.v ===== *)
(** * Capped command output ([core/src/unified_exec/head_tail_buffer.rs])

    The output of a long-running command is kept as a stable prefix and the
    newest suffix, with a count of the bytes dropped in between.  Buffers
    filled by different readers are merged with [push_buffer].  The
    specification is a function of the whole output: [summary]. *)
From stdpp Require Import numbers strings.
From S2P Require Import Prelude RustStr Utf8 Truncate.

(** [HeadTailBuffer]. *)
Record HeadTailBuffer : Type := mkHeadTail {
  ht_head : bytes;
  ht_tail : bytes;
  omitted_bytes : N;
}.

(** [HeadTailBuffer::default]. *)
Definition ht_default : HeadTailBuffer := mkHeadTail [] [] 0.

(** [UNIFIED_EXEC_OUTPUT_MAX_BYTES], the default of [MAX_BYTES]. *)
Definition UNIFIED_EXEC_OUTPUT_MAX_BYTES : N := 1024 * 1024.

(** [format_output_omission_marker]. *)
Definition format_output_omission_marker (omitted : N) : str :=
  lit "... " ++ fmt_N omitted ++ lit " bytes omitted ...".

Section Buffer.
Context (MAX_BYTES : nat).
Implicit Types (b : HeadTailBuffer) (chunk out : bytes).

Definition HEAD_BUDGET : nat := MAX_BYTES / 2.
Definition TAIL_BUDGET : nat := MAX_BYTES - HEAD_BUDGET.

(** [retained_bytes] and [total_bytes]. *)
Definition retained_bytes b : N :=
  sat_add (N.of_nat (length (ht_head b))) (N.of_nat (length (ht_tail b))).
Definition total_bytes b : N := sat_add (retained_bytes b) (omitted_bytes b).

(** [fill_head]: the new buffer and the bytes that did not fit. *)
Definition fill_head b chunk : HeadTailBuffer * bytes :=
  let remaining_head := HEAD_BUDGET - length (ht_head b) in
  let '(chunk_head, chunk_tail) :=
    if bool_decide (remaining_head ≤ length chunk)
    then (take remaining_head chunk, drop remaining_head chunk) else (chunk, []) in
  (mkHeadTail (ht_head b ++ chunk_head) (ht_tail b) (omitted_bytes b), chunk_tail).

(** [push_tail]. *)
Definition push_tail b chunk : HeadTailBuffer :=
  let remaining_tail := TAIL_BUDGET - length (ht_tail b) in
  let excess_tail := length chunk - remaining_tail in
  let omitted := sat_add (omitted_bytes b) (N.of_nat excess_tail) in
  let '(tail, chunk) :=
    if bool_decide (excess_tail < length (ht_tail b))
    then (drop excess_tail (ht_tail b), chunk)
    else ([], drop (excess_tail - length (ht_tail b)) chunk) in
  mkHeadTail (ht_head b) (tail ++ chunk) omitted.

(** [push_chunk]. *)
Definition push_chunk b chunk : HeadTailBuffer :=
  let '(b, chunk) := fill_head b chunk in push_tail b chunk.

(** [to_bytes] and [to_bytes_with_omission_marker]. *)
Definition to_bytes b : bytes := ht_head b ++ ht_tail b.
Definition to_bytes_with_omission_marker b : bytes :=
  if (omitted_bytes b =? 0)%N then to_bytes b
  else ht_head b ++ [LF] ++ encode (format_output_omission_marker (omitted_bytes b)) ++ [LF] ++ ht_tail b.

(** [push_buffer].  A [VecDeque] is stored in two slices; [layout] is the
    length of the first one of the source's tail. *)
Definition push_buffer (layout : nat) b (buffer : HeadTailBuffer) : HeadTailBuffer :=
  let '(mkHeadTail head tail omitted) := buffer in
  let b := mkHeadTail (ht_head b) (ht_tail b) (sat_add (omitted_bytes b) omitted) in
  let '(b, overflow) :=
    if bool_decide (ht_head b = []) then (mkHeadTail head (ht_tail b) (omitted_bytes b), [])
    else fill_head b head in
  if bool_decide (length tail = TAIL_BUDGET) then
    mkHeadTail (ht_head b) tail
      (sat_add (sat_add (omitted_bytes b) (N.of_nat (length (ht_tail b)))) (N.of_nat (length overflow)))
  else
    let b := push_tail b overflow in
    if bool_decide (ht_tail b = []) then mkHeadTail (ht_head b) tail (omitted_bytes b)
    else push_tail (push_tail b (take layout tail)) (drop layout tail).

(** ** Specification *)

(** The last [n] elements. *)
Definition last_n {A} (n : nat) (l : list A) : list A := drop (length l - n) l.

(** What a buffer retains of [out]. *)
Definition summary out : HeadTailBuffer :=
  mkHeadTail (take HEAD_BUDGET out) (last_n TAIL_BUDGET (drop HEAD_BUDGET out))
    (N.min (N.of_nat (length out - MAX_BYTES)) USIZE_MAX).

(** ** Facts *)

Lemma budgets : HEAD_BUDGET + TAIL_BUDGET = MAX_BYTES ∧ HEAD_BUDGET ≤ TAIL_BUDGET.
Proof.
  unfold TAIL_BUDGET, HEAD_BUDGET. pose proof (Nat.Div0.div_le_mono).
  pose proof (Nat.Div0.mul_div_le MAX_BYTES 2). lia.
Qed.

Lemma last_n_le {A} n (l : list A) : length l ≤ n → last_n n l = l.
Proof. intros. unfold last_n. by replace (length l - n) with 0 by lia. Qed.

Lemma length_last_n {A} n (l : list A) : length (last_n n l) = length l `min` n.
Proof. unfold last_n. rewrite length_drop. lia. Qed.

(** The last elements of a list whose beginning was cut to its last elements. *)
Lemma last_n_app {A} n (l l' : list A) : last_n n (last_n n l ++ l') = last_n n (l ++ l').
Proof.
  destruct (decide (length l ≤ n)) as [Hl|Hl]; [by rewrite (last_n_le n l)|].
  unfold last_n. rewrite !length_app, length_drop.
  rewrite !drop_app, drop_drop, length_drop. f_equal; f_equal; lia.
Qed.

(** The last elements of a list whose end was cut to its last elements. *)
Lemma last_n_suffix {A} n (l l' : list A) : last_n n (l ++ last_n n l') = last_n n (l ++ l').
Proof.
  destruct (decide (length l' ≤ n)) as [Hl|Hl]; [by rewrite (last_n_le n l')|].
  unfold last_n at 1 3. rewrite !length_app, length_last_n, !drop_app, !(drop_ge l) by lia.
  cbn [app]. unfold last_n. rewrite drop_drop. f_equal. lia.
Qed.

Lemma push_tail_spec b chunk :
  length (ht_tail b) ≤ TAIL_BUDGET →
  push_tail b chunk = mkHeadTail (ht_head b) (last_n TAIL_BUDGET (ht_tail b ++ chunk))
    (sat_add (omitted_bytes b) (N.of_nat (length (ht_tail b ++ chunk) - TAIL_BUDGET))).
Proof.
  intros Hb. unfold push_tail, last_n. rewrite length_app, drop_app.
  case_bool_decide.
  - f_equal; [|f_equal; lia]. f_equal; [f_equal; lia|].
    by replace (length (ht_tail b) + length chunk - TAIL_BUDGET - length (ht_tail b)) with 0 by lia.
  - f_equal; [|f_equal; lia]. rewrite (drop_ge (ht_tail b)) by lia. cbn [app]. f_equal. lia.
Qed.

Lemma fill_head_spec b chunk :
  length (ht_head b) ≤ HEAD_BUDGET →
  fill_head b chunk = (mkHeadTail (take HEAD_BUDGET (ht_head b ++ chunk)) (ht_tail b) (omitted_bytes b),
                       drop HEAD_BUDGET (ht_head b ++ chunk)).
Proof.
  intros Hb. unfold fill_head. rewrite take_app, drop_app, (take_ge (ht_head b)), (drop_ge (ht_head b)) by lia.
  case_bool_decide; [done|]. cbn [app]. by rewrite take_ge, drop_ge by lia.
Qed.

Lemma summary_nil : summary [] = ht_default.
Proof. unfold summary, last_n. by rewrite take_nil, drop_nil. Qed.

Lemma summary_bounds out :
  length (ht_head (summary out)) ≤ HEAD_BUDGET ∧ length (ht_tail (summary out)) ≤ TAIL_BUDGET.
Proof. simpl. rewrite length_take, length_last_n. lia. Qed.

Lemma take_cut {A} n (l l' : list A) : take n (take n l ++ l') = take n (l ++ l').
Proof. rewrite !take_app, take_take, Nat.min_id, length_take. do 2 f_equal. lia. Qed.
Lemma drop_cut {A} n (l l' : list A) : drop n l ++ drop n (take n l ++ l') = drop n (l ++ l').
Proof.
  rewrite !drop_app, length_take. rewrite (drop_ge (take n l)) by (rewrite length_take; lia).
  cbn [app]. do 2 f_equal. lia.
Qed.

Lemma push_chunk_summary out chunk : push_chunk (summary out) chunk = summary (out ++ chunk).
Proof.
  destruct (summary_bounds out) as [Hh Ht]. unfold push_chunk. rewrite fill_head_spec by done.
  rewrite push_tail_spec by done. unfold summary. cbn [ht_head ht_tail omitted_bytes].
  rewrite take_cut, last_n_app, drop_cut. f_equal. unfold sat_add.
  pose proof budgets. rewrite length_app, length_last_n, !length_drop, !length_app, length_take. lia.
Qed.

Lemma sat_add_assoc x y z : sat_add (sat_add x y) z = sat_add x (y + z).
Proof. unfold sat_add. lia. Qed.

Lemma sat_add_min x y z :
  sat_add (sat_add (N.min x USIZE_MAX) (N.min y USIZE_MAX)) z = N.min (x + y + z) USIZE_MAX.
Proof. unfold sat_add. generalize USIZE_MAX. intros. lia. Qed.

(** The second half of [push_buffer]: the overflow of the head and the tail of
    the source are appended to the tail. *)
Lemma push_buffer_tail layout b overflow tail :
  length (ht_tail b) ≤ TAIL_BUDGET → length tail ≤ TAIL_BUDGET →
  (if bool_decide (length tail = TAIL_BUDGET) then
     mkHeadTail (ht_head b) tail
       (sat_add (sat_add (omitted_bytes b) (N.of_nat (length (ht_tail b)))) (N.of_nat (length overflow)))
   else
     let b := push_tail b overflow in
     if bool_decide (ht_tail b = []) then mkHeadTail (ht_head b) tail (omitted_bytes b)
     else push_tail (push_tail b (take layout tail)) (drop layout tail)) =
  mkHeadTail (ht_head b) (last_n TAIL_BUDGET (ht_tail b ++ overflow ++ tail))
    (sat_add (omitted_bytes b) (N.of_nat (length (ht_tail b ++ overflow ++ tail) - TAIL_BUDGET))).
Proof.
  intros Hb Ht. rewrite app_assoc. case_bool_decide as Hfull.
  - rewrite sat_add_assoc, !length_app. unfold last_n.
    f_equal; [|f_equal; lia].
    rewrite length_app, drop_app, drop_ge by lia. cbn [app].
    by replace (_ - _ - _) with 0 by lia.
  - cbv zeta. rewrite (push_tail_spec b) by done.
    set (l := ht_tail b ++ overflow). cbn [ht_head ht_tail omitted_bytes].
    assert (length (last_n TAIL_BUDGET l) ≤ TAIL_BUDGET) by (rewrite length_last_n; lia).
    case_bool_decide as Hnil.
    + assert (length l = 0) as Hl0.
      { apply (f_equal length) in Hnil. rewrite length_last_n in Hnil. cbn [length] in Hnil. lia. }
      apply nil_length_inv in Hl0 as ->. cbn [app length].
      rewrite last_n_le by done. f_equal. f_equal. lia.
    + rewrite (push_tail_spec (mkHeadTail _ _ _)) by done. cbn [ht_head ht_tail omitted_bytes].
      rewrite push_tail_spec; cbn [ht_head ht_tail omitted_bytes]; [|rewrite length_last_n; lia].
      rewrite last_n_app, <- app_assoc, take_drop, last_n_app. f_equal.
      rewrite !sat_add_assoc. f_equal.
      rewrite !length_app, !length_last_n, !length_app, !length_last_n, length_take, length_drop. lia.
Qed.

(** The first half: the head is completed from the source's head. *)
Lemma push_buffer_head out out' T om :
  (if bool_decide (take HEAD_BUDGET out = []) then (mkHeadTail (take HEAD_BUDGET out') T om, [])
   else fill_head (mkHeadTail (take HEAD_BUDGET out) T om) (take HEAD_BUDGET out')) =
  (mkHeadTail (take HEAD_BUDGET (out ++ out')) T om,
   drop HEAD_BUDGET (take HEAD_BUDGET out ++ take HEAD_BUDGET out')).
Proof.
  case_bool_decide as Hnil.
  - rewrite <- (take_cut HEAD_BUDGET out), Hnil. cbn [app].
    by rewrite (drop_ge (take _ _)) by (rewrite length_take; lia).
  - rewrite fill_head_spec by (cbn [ht_head]; rewrite length_take; lia). cbn [ht_head ht_tail omitted_bytes].
    rewrite take_cut. do 2 f_equal. rewrite !take_app, take_take. f_equal. f_equal. lia.
Qed.

(** What lies behind the head of a concatenation. *)
Lemma drop_concat out out' :
  drop HEAD_BUDGET (out ++ out') =
  drop HEAD_BUDGET out ++ drop HEAD_BUDGET (take HEAD_BUDGET out ++ take HEAD_BUDGET out') ++ drop HEAD_BUDGET out'.
Proof.
  destruct (decide (length out' ≤ HEAD_BUDGET)) as [Hl|Hl].
  - rewrite (take_ge out') by done. rewrite (drop_ge out') by done. by rewrite app_nil_r, drop_cut.
  - rewrite <- (drop_cut HEAD_BUDGET out out'). f_equal.
    rewrite <- (take_drop HEAD_BUDGET out') at 1. rewrite app_assoc, drop_app_le; [done|].
    rewrite length_app, !length_take. lia.
Qed.

Lemma push_buffer_summary layout out out' :
  push_buffer layout (summary out) (summary out') = summary (out ++ out').
Proof.
  pose proof budgets as [HM HB]. unfold push_buffer, summary.
  cbn [ht_head ht_tail omitted_bytes]. rewrite push_buffer_head.
  rewrite push_buffer_tail; [|cbn [ht_tail]; rewrite length_last_n; lia..].
  cbn [ht_head ht_tail omitted_bytes]. rewrite (drop_concat out out').
  set (ov := drop HEAD_BUDGET (take _ _ ++ _)).
  assert (length ov = length out `min` HEAD_BUDGET + length out' `min` HEAD_BUDGET - HEAD_BUDGET) as Hov.
  { unfold ov. rewrite length_drop, length_app, !length_take. lia. }
  f_equal.
  - rewrite last_n_app, !app_assoc. apply last_n_suffix.
  - rewrite sat_add_min, !length_app, !length_last_n, !length_drop, Hov. f_equal.
    rewrite <- !Nat2N.inj_add. f_equal. clear Hov. lia.
Qed.
End Buffer.

(** Output read by several readers: each one fills a buffer of its own with the
    chunks it reads, and the buffers are merged in order. *)
Definition buffered (MAX_BYTES : nat) (chunks : list bytes) : HeadTailBuffer :=
  foldl (push_chunk MAX_BYTES) ht_default chunks.
Definition merged (MAX_BYTES layout : nat) (readers : list (list bytes)) : HeadTailBuffer :=
  foldl (push_buffer MAX_BYTES layout) ht_default (buffered MAX_BYTES <$> readers).

Lemma buffered_summary MAX_BYTES chunks : buffered MAX_BYTES chunks = summary MAX_BYTES (concat chunks).
Proof.
  unfold buffered. rewrite <- (summary_nil MAX_BYTES). rewrite <- (app_nil_l (concat chunks)).
  generalize (@nil N). induction chunks as [|c chunks IH]; intros out; cbn [foldl concat].
  - by rewrite app_nil_r.
  - by rewrite push_chunk_summary, IH, app_assoc.
Qed.

Lemma merged_summary MAX_BYTES layout readers :
  merged MAX_BYTES layout readers = summary MAX_BYTES (concat (concat readers)).
Proof.
  unfold merged. rewrite <- (summary_nil MAX_BYTES). rewrite <- (app_nil_l (concat (concat readers))).
  generalize (@nil N). induction readers as [|r readers IH]; intros out; cbn [foldl concat fmap list_fmap].
  - by rewrite app_nil_r.
  - by rewrite buffered_summary, push_buffer_summary, IH, concat_app, app_assoc.
Qed.

(** However the output of a command is cut into chunks and spread over
    readers whose buffers are merged (and however the tail of a merged buffer
    lies in memory), the buffer is the summary of the whole output: its first
    bytes, its last bytes and the number of bytes between them; never more
    than the cap is retained, and nothing is dropped below the cap. *)
Theorem head_tail_is_summary (MAX_BYTES layout : nat) (readers : list (list bytes)) :
  let out := concat (concat readers) in
  let b := merged MAX_BYTES layout readers in
  b = summary MAX_BYTES out ∧
  length (ht_head b) + length (ht_tail b) = length out `min` MAX_BYTES ∧
  (length out ≤ MAX_BYTES → to_bytes_with_omission_marker b = out).
Proof.
  intros out b. unfold b. rewrite merged_summary. fold out. split; [done|].
  pose proof (budgets MAX_BYTES) as [HM HB].
  split.
  - cbn [summary ht_head ht_tail]. rewrite length_take, length_last_n, length_drop. lia.
  - intros Hl. unfold to_bytes_with_omission_marker, to_bytes, summary. cbn [omitted_bytes ht_head ht_tail].
    replace (length out - MAX_BYTES) with 0 by lia. cbn [N.of_nat].
    rewrite N.min_0_l. cbn [N.eqb]. rewrite last_n_le by (rewrite length_drop; lia). apply take_drop.
Qed.

Lemma head_tail_is_summary_witness :
  length (concat (concat [[[97]; [98; 99]]; [[100]]]%N)) ≤ 4 ∧
  to_bytes_with_omission_marker (merged 4 0 [[[97]; [98; 99]]; [[100]]]%N) = [97; 98; 99; 100]%N ∧
  merged 4 0 [[[97]; [98; 99; 100]]; [[101]; [102]]]%N = mkHeadTail [97; 98]%N [101; 102]%N 2.
Proof.
  split; [vm_compute; lia|]. split; [|reflexivity].
  apply (head_tail_is_summary 4 0 [[[97]; [98; 99]]; [[100]]]%N). vm_compute. lia.
Defined.
