(* ===== verification/RolloutScan.v ===== *)
(** * Reading a rollout from its end ([rollout/src/reverse_jsonl_scanner.rs])

    A rollout is a file with one JSON record per line.  The scanner reads it in
    chunks from the end and yields its records, newest first; the loop is shown
    to terminate and to yield the records of the file whatever the size of the
    chunks.  Reading the file and decoding JSON are parameters. *)
From stdpp Require Import numbers strings.
From S2P Require Import Prelude RustStr Utf8.

(** [READ_CHUNK_SIZE]. *)
Definition READ_CHUNK_SIZE : nat := N.to_nat (64 * 1024).

(** [u8::is_ascii_whitespace]. *)
Definition is_ascii_whitespace (b : N) : bool := bool_decide (b ∈ [9; 10; 12; 13; 32]%N).

(** [slice.iter().rposition(p)]: the last index that satisfies [p]. *)
Fixpoint rposition (p : N → bool) (l : bytes) : option nat :=
  match l with
  | [] => None
  | x :: l' =>
      match rposition p l' with
      | Some i => Some (S i)
      | None => if p x then Some 0 else None
      end
  end.

(** [ScanOutcome]. *)
Inductive ScanOutcome (J T : Type) : Type :=
  | Parsed (value : T)
  | Rejected (error : J).
Arguments Parsed {J T}.
Arguments Rejected {J T}.

(** [ReverseJsonlScanner], less its reader.  [chunk] is the buffer, of which the
    first [chunk_position] bytes are still to be looked at. *)
Record ReverseJsonlScanner : Type := mkScanner {
  next_chunk_end : nat;
  chunk_position : nat;
  chunk : bytes;
  record_reversed : bytes;
  max_record_bytes : option nat;
  discarding_oversized_record : bool;
}.

Section Scanner.
(** The size of a chunk; seeking to an offset and reading exactly that many
    bytes; [serde_json::from_slice]. *)
Context {J T : Type} (chunk_size : nat).
Context (read_at : nat → nat → result io_error bytes) (from_slice : bytes → result J T).
Implicit Types s : ReverseJsonlScanner.

(** [new_at] and [new]; [file_len] is the answer of [seek(SeekFrom::End(0))]. *)
Definition new_at (file_len : result io_error nat) (end_byte_offset : nat) : result io_error ReverseJsonlScanner :=
  let? file_len := file_len in
  if bool_decide (file_len < end_byte_offset)
  then Err (mkIo InvalidInput (lit "reverse JSONL scan end is past the file"))
  else Ok (mkScanner end_byte_offset 0 (replicate chunk_size 0%N) [] None false).
Definition new (file_len : result io_error nat) : result io_error ReverseJsonlScanner :=
  let? next_chunk_end := file_len in new_at file_len next_chunk_end.

(** [with_max_record_bytes]. *)
Definition with_max_record_bytes s (max : nat) : ReverseJsonlScanner :=
  mkScanner (next_chunk_end s) (chunk_position s) (chunk s) (record_reversed s) (Some max)
    (discarding_oversized_record s).

(** [finish_record]. *)
Definition outcome_of (record : bytes) : option (ScanOutcome J T) :=
  if forallb is_ascii_whitespace record then None
  else Some (match from_slice record with Ok value => Parsed value | Err error => Rejected error end).
Definition clear_record s (discarding : bool) : ReverseJsonlScanner :=
  mkScanner (next_chunk_end s) (chunk_position s) (chunk s) [] (max_record_bytes s) discarding.
Definition finish_record s : option (ScanOutcome J T) * ReverseJsonlScanner :=
  (outcome_of (reverse (record_reversed s)), clear_record s (discarding_oversized_record s)).

(** The chunk that ends at [next_chunk_end] is read into the buffer.  The
    offset is moved before the read, also when the read fails. *)
Definition load_chunk s : result io_error unit * ReverseJsonlScanner :=
  let read_size := next_chunk_end s `min` chunk_size in
  let start := next_chunk_end s - read_size in
  match read_at start read_size with
  | Err e => (Err e, mkScanner start (chunk_position s) (chunk s) (record_reversed s) (max_record_bytes s)
                       (discarding_oversized_record s))
  | Ok data => (Ok tt, mkScanner start read_size (data ++ drop read_size (chunk s)) (record_reversed s)
                         (max_record_bytes s) (discarding_oversized_record s))
  end.

(** [max_record_bytes.is_some_and(..)]. *)
Definition exceeds (max : option nat) (len : nat) : bool :=
  match max with Some max => bool_decide (max < len) | None => false end.

(** A fragment of the current record, unless the record is being discarded or
    becomes larger than the limit, and the new [chunk_position]. *)
Definition add_fragment s (fragment : bytes) (position : nat) : ReverseJsonlScanner :=
  let '(record, discarding) :=
    if discarding_oversized_record s then (record_reversed s, true)
    else if exceeds (max_record_bytes s) (length (record_reversed s) + length fragment) then ([], true)
    else (record_reversed s ++ reverse fragment, false) in
  mkScanner (next_chunk_end s) position (chunk s) record (max_record_bytes s) discarding.

(** One turn of the loop of [scan_next] once there are bytes to look at; [next]
    is the next turn. *)
Definition set_discarding s (discarding : bool) : ReverseJsonlScanner :=
  mkScanner (next_chunk_end s) (chunk_position s) (chunk s) (record_reversed s) (max_record_bytes s) discarding.
Definition scan_answer : Type := option (result io_error (option (ScanOutcome J T)) * ReverseJsonlScanner).
Definition search_newline (next : ReverseJsonlScanner → scan_answer) s : scan_answer :=
  let data := take (chunk_position s) (chunk s) in
  match rposition (N.eqb LF) data with
  | Some newline_position =>
      let s := add_fragment s (drop (S newline_position) data) newline_position in
      if discarding_oversized_record s then next (set_discarding s false)
      else
        let '(outcome, s) := finish_record s in
        match outcome with
        | Some outcome => Some (Ok (Some outcome), s)
        | None => next s
        end
  | None => next (add_fragment s data 0)
  end.

(** [scan_next].  [None] stands for a loop that has not ended within [fuel]. *)
Fixpoint scan_loop (fuel : nat) s : scan_answer :=
  match fuel with
  | 0 => None
  | S fuel =>
      if bool_decide (chunk_position s = 0) then
        if bool_decide (next_chunk_end s = 0) then
          if discarding_oversized_record s then Some (Ok None, set_discarding s false)
          else let '(outcome, s) := finish_record s in Some (Ok outcome, s)
        else match load_chunk s with
             | (Err e, s) => Some (Err e, s)
             | (Ok _, s) => search_newline (scan_loop fuel) s
             end
      else search_newline (scan_loop fuel) s
  end.
Definition scan_next s := scan_loop (S (next_chunk_end s + chunk_position s)) s.

(** A caller that reads records until there are none or a read fails. *)
Fixpoint scan_all (calls : nat) s : option (result io_error (list (ScanOutcome J T))) :=
  match calls with
  | 0 => None
  | S calls =>
      match scan_next s with
      | None => None
      | Some (Err e, _) => Some (Err e)
      | Some (Ok None, _) => Some (Ok [])
      | Some (Ok (Some outcome), s) =>
          match scan_all calls s with
          | Some (Ok rest) => Some (Ok (outcome :: rest))
          | other => other
          end
      end
  end.
End Scanner.

(** * The records a reverse scan yields

    The state of a scanner stands for the records that are still to come
    ([remaining]); a call of [scan_next] returns the first of them and leaves
    the others. *)

Lemma length_omap_le {A B} (g : A → option B) l : length (omap g l) ≤ length l.
Proof. induction l as [|x l IH]; cbn; [lia|]. destruct (g x); cbn; lia. Qed.

(** ** Lines from the end *)

(** A line end splits off the last record. *)
Lemma split_snoc c a b : c ∉ b → reverse (split c (a ++ c :: b)) = b :: reverse (split c a).
Proof.
  intros Hb. assert (split c (a ++ c :: b) = split c a ++ [b]) as ->; [|by rewrite reverse_snoc].
  induction a as [|d a IH]; cbn [app split].
  - rewrite N.eqb_refl. by rewrite split_no_sep.
  - destruct (d =? c)%N; [by rewrite IH|]. rewrite IH.
    destruct (split c a) eqn:E; [by destruct (split_ne_nil c a)|done].
Qed.

(** Bytes without a line end only extend the last record. *)
Lemma split_extend c a b : c ∉ b → ∃ l, reverse (split c (a ++ b)) = (l ++ b) :: tail (reverse (split c a)).
Proof.
  intros Hb. assert (∃ ws w, split c a = ws ++ [w] ∧ split c (a ++ b) = ws ++ [w ++ b]) as (ws & w & Ha & Hab).
  { induction a as [|d a IH]; cbn [app split].
    - exists [], []. by rewrite split_no_sep.
    - destruct IH as (ws & w & -> & ->). destruct (d =? c)%N; [by exists ([] :: ws), w|].
      destruct ws as [|x ws]; cbn [app]; [by exists [], (d :: w)|by exists ((d :: x) :: ws), w]. }
  exists w. rewrite Ha, Hab, !reverse_snoc. done.
Qed.

Lemma rposition_Some p l i :
  rposition p l = Some i → ∃ a x b, l = a ++ x :: b ∧ length a = i ∧ p x = true ∧ Forall (λ y, p y = false) b.
Proof.
  revert i. induction l as [|y l IH]; intros i; cbn [rposition]; [done|].
  destruct (rposition p l) as [j|] eqn:E.
  - intros [= <-]. destruct (IH j eq_refl) as (a & x & b & -> & <- & Hx & Hb).
    by exists (y :: a), x, b.
  - destruct (p y) eqn:Hy; [|done]. intros [= <-]. exists [], y, l. split_and!; [done..|].
    clear IH. induction l as [|z l IHl]; [constructor|]. cbn [rposition] in E.
    destruct (rposition p l); [done|]. destruct (p z) eqn:Hz; [done|]. constructor; auto.
Qed.

Lemma rposition_None p l : rposition p l = None → Forall (λ y, p y = false) l.
Proof.
  induction l as [|z l IHl]; [constructor|]. cbn [rposition].
  destruct (rposition p l); [done|]. destruct (p z) eqn:Hz; [done|]. constructor; auto.
Qed.

Lemma Forall_not_LF l : Forall (λ y, (LF =? y)%N = false) l ↔ LF ∉ l.
Proof.
  rewrite Forall_forall. split.
  - intros H Hin. apply H in Hin. by rewrite N.eqb_refl in Hin.
  - intros H x Hx. apply N.eqb_neq. by intros <-.
Qed.

(** What a reader of [file] promises: its bytes. *)
Definition reads_file (read_at : nat → nat → result io_error bytes) (file : bytes) : Prop :=
  ∀ pos n, pos + n ≤ length file → read_at pos n = Ok (take n (drop pos file)).

Section Correct.
Context {J T : Type} (from_slice : bytes → result J T) (file : bytes).
Implicit Types s : ReverseJsonlScanner.

(** The bytes of the file that have not been looked at. *)
Definition unread s : bytes := take (next_chunk_end s) file ++ take (chunk_position s) (chunk s).

(** The lines that are to come, newest first. *)
Definition pending s : list bytes :=
  if discarding_oversized_record s then tail (reverse (split LF (unread s)))
  else reverse (split LF (unread s ++ reverse (record_reversed s))).

Definition fits (max : option nat) (record : bytes) : bool :=
  match max with Some max => bool_decide (length record ≤ max) | None => true end.
Definition yields (max : option nat) (record : bytes) : option (ScanOutcome J T) :=
  if fits max record then outcome_of from_slice record else None.
Definition remaining s : list (ScanOutcome J T) := omap (yields (max_record_bytes s)) (pending s).

Record scanner_ok s : Prop := {
  ok_end : next_chunk_end s ≤ length file;
  ok_line : LF ∉ record_reversed s;
  ok_fits : fits (max_record_bytes s) (record_reversed s) = true;
  ok_discard : discarding_oversized_record s = true → record_reversed s = [];
}.

(** One call: the first of the remaining records is returned. *)
Definition scan_step s (r : option (result io_error (option (ScanOutcome J T)) * ReverseJsonlScanner)) : Prop :=
  ∃ s', r = Some (Ok (head (remaining s)), s') ∧ remaining s' = tail (remaining s) ∧ scanner_ok s' ∧
    next_chunk_end s' + chunk_position s' ≤ next_chunk_end s + chunk_position s.

Lemma fits_nil max : fits max [] = true.
Proof. destruct max; [|done]. cbn. apply bool_decide_eq_true. lia. Qed.

(** A fragment without a line end, up to the start of the chunk. *)
Lemma add_fragment_ok s data :
  scanner_ok s → data = take (chunk_position s) (chunk s) → LF ∉ data →
  let s' := add_fragment s data 0 in scanner_ok s' ∧ remaining s' = remaining s.
Proof.
  intros [Hend Hline Hfits Hdisc] Hdata HLF s'. unfold s', add_fragment.
  assert (∀ r om d, unread (mkScanner (next_chunk_end s) 0 (chunk s) r om d) = take (next_chunk_end s) file) as Hun.
  { intros. unfold unread. cbn. by rewrite app_nil_r. }
  destruct (discarding_oversized_record s) eqn:Ed; [|destruct (exceeds _ _) eqn:Em].
  - split; [by split|]. unfold remaining. f_equal. unfold pending.
    rewrite Hun, Ed. cbn [discarding_oversized_record]. unfold unread. rewrite <- Hdata.
    by destruct (split_extend LF (take (next_chunk_end s) file) data HLF) as [l ->].
  - destruct (max_record_bytes s) as [max|] eqn:Hmax; [|done]. cbn [exceeds] in Em. apply bool_decide_eq_true in Em.
    split; [split; cbn; [done|by apply not_elem_of_nil|apply (fits_nil (Some max))|done]|].
    unfold remaining, pending. rewrite Hun, Ed. cbn [discarding_oversized_record max_record_bytes].
    unfold unread. rewrite <- Hdata, <- app_assoc, Hmax.
    destruct (split_extend LF (take (next_chunk_end s) file) (data ++ reverse (record_reversed s))) as [l ->].
    { rewrite elem_of_app, elem_of_reverse. tauto. }
    cbn [omap list_omap]. unfold yields at 2. cbn [fits].
    rewrite bool_decide_eq_false_2; [done|]. rewrite !length_app, length_reverse. lia.
  - split.
    + split; cbn; [done| |  |done].
      * rewrite elem_of_app, elem_of_reverse. tauto.
      * unfold fits. destruct (max_record_bytes s) as [max|]; [|done]. cbn [exceeds] in Em. apply bool_decide_eq_false in Em.
        apply bool_decide_eq_true. rewrite length_app, length_reverse. lia.
    + unfold remaining, pending. rewrite Hun, Ed. cbn [discarding_oversized_record record_reversed max_record_bytes].
      unfold unread. by rewrite <- Hdata, <- app_assoc, reverse_app, reverse_involutive.
Qed.

(** A fragment behind a line end: it completes a record. *)
Lemma end_record_ok s a b :
  scanner_ok s → a ++ LF :: b = take (chunk_position s) (chunk s) → LF ∉ b →
  let s' := add_fragment s b (length a) in
  scanner_ok s' ∧ 
  (if discarding_oversized_record s'
   then remaining (clear_record s' false) = remaining s
   else remaining s = option_list (outcome_of from_slice (reverse (record_reversed s'))) ++
                      remaining (clear_record s' false)).
Proof.
  intros [Hend Hline Hfits Hdisc] Hdata HLF s'.
  assert (∀ r om d, unread (mkScanner (next_chunk_end s) (length a) (chunk s) r om d) =
          take (next_chunk_end s) file ++ a) as Hun.
  { intros. unfold unread. cbn. f_equal. 
    assert (length a < chunk_position s).
    { apply (f_equal length) in Hdata. rewrite length_app, length_take in Hdata. cbn in Hdata. lia. }
    replace (length a) with (length a `min` chunk_position s) by lia. rewrite <- take_take, <- Hdata.
    by rewrite take_app_length. }
  unfold s', add_fragment.
  destruct (discarding_oversized_record s) eqn:Ed; [|destruct (exceeds _ _) eqn:Em].
  - split; [by split|]. cbn [discarding_oversized_record]. unfold remaining. f_equal. unfold pending, clear_record.
    cbn [discarding_oversized_record record_reversed next_chunk_end chunk_position chunk max_record_bytes].
    rewrite Ed, Hun. unfold unread. rewrite <- Hdata, app_assoc, split_snoc by done. by rewrite app_nil_r.
  - split; [split; cbn; [done|set_solver|apply fits_nil|done]|].
    cbn [discarding_oversized_record]. unfold remaining, pending, clear_record.
    cbn [discarding_oversized_record record_reversed next_chunk_end chunk_position chunk max_record_bytes].
    rewrite Ed, Hun, app_nil_r. unfold unread.
    rewrite <- Hdata, <- !app_assoc. cbn [app]. rewrite app_assoc, split_snoc by set_solver.
    cbn [omap list_omap]. unfold yields at 2. destruct (max_record_bytes s) as [max|]; [|done].
    cbn [exceeds fits] in *. apply bool_decide_eq_true in Em.
    rewrite bool_decide_eq_false_2; [done|]. rewrite length_app, length_reverse. lia.
  - split.
    + split; cbn; [done|set_solver| |done].
      unfold fits. destruct (max_record_bytes s) as [max|]; [|done]. cbn [exceeds] in Em.
      apply bool_decide_eq_false in Em. apply bool_decide_eq_true. rewrite length_app, length_reverse. lia.
    + cbn [discarding_oversized_record]. unfold remaining, pending, clear_record.
      cbn [discarding_oversized_record record_reversed next_chunk_end chunk_position chunk max_record_bytes].
      rewrite Ed, Hun, app_nil_r. unfold unread.
      rewrite <- Hdata, <- !app_assoc. cbn [app]. rewrite app_assoc, split_snoc by set_solver.
      cbn [omap list_omap]. rewrite reverse_app, reverse_involutive. unfold yields at 1.
      replace (fits _ _) with true; [by destruct (outcome_of _ _)|].
      destruct (max_record_bytes s) as [max|]; [|done]. cbn [exceeds fits] in *.
      apply bool_decide_eq_false in Em. symmetry. apply bool_decide_eq_true. rewrite length_app, length_reverse. lia.
Qed.

Lemma clear_record_ok s : scanner_ok s → scanner_ok (clear_record s false).
Proof. intros []. split; cbn; [done|set_solver|apply fits_nil|done]. Qed.

(** At the start of the file only the record read so far is left. *)
Lemma scan_at_start s :
  scanner_ok s → chunk_position s = 0 → next_chunk_end s = 0 →
  remaining s = (if discarding_oversized_record s then []
                 else option_list (outcome_of from_slice (reverse (record_reversed s)))) ∧
  remaining (clear_record s false) = [].
Proof.
  intros [Hend Hline Hfits Hdisc] Hpos Hnext. unfold remaining, pending, unread. 
  cbn [clear_record discarding_oversized_record record_reversed next_chunk_end chunk_position max_record_bytes].
  rewrite Hpos, Hnext, !take_0. split.
  2: { cbn. unfold yields. by rewrite fits_nil. }
  destruct (discarding_oversized_record s); [done|]. cbn [app].
  rewrite split_no_sep by (by rewrite elem_of_reverse). rewrite reverse_singleton. cbn. unfold yields.
  replace (fits _ (reverse _)) with true; [by destruct (outcome_of _ _)|].
  unfold fits in *. destruct (max_record_bytes s); [|done]. by rewrite length_reverse.
Qed.

Lemma set_discarding_clear s : scanner_ok s → discarding_oversized_record s = true → set_discarding s false = clear_record s false.
Proof. intros [_ _ _ H] Hd. unfold set_discarding, clear_record. by rewrite H. Qed.

Lemma search_newline_ok next s :
  scanner_ok s → chunk_position s ≠ 0 →
  (∀ s', scanner_ok s' → next_chunk_end s' + chunk_position s' < next_chunk_end s + chunk_position s →
     scan_step s' (next s')) →
  scan_step s (search_newline from_slice next s).
Proof.
  intros Hs Hpos IH. unfold search_newline.
  assert (∀ s', scanner_ok s' → next_chunk_end s' + chunk_position s' < next_chunk_end s + chunk_position s →
    remaining s' = remaining s → scan_step s (next s')) as Hnext.
  { intros s' Hs' Hlt Heq. destruct (IH s' Hs' Hlt) as (s'' & -> & Ht & Hok & Hle).
    exists s''. rewrite <- Heq. split_and!; [done..|lia]. }
  set (data := take _ _). destruct (rposition _ data) as [i|] eqn:Ei.
  - apply rposition_Some in Ei as (a & x & b & Hdata & <- & Hx & Hb). apply N.eqb_eq in Hx as <-.
    apply Forall_not_LF in Hb. 
    replace (drop (S (length a)) data) with b
      by (rewrite Hdata; replace (a ++ LF :: b) with ((a ++ [LF]) ++ b) by (by rewrite <- app_assoc);
          by rewrite drop_app_length' by (rewrite length_app; simpl; lia)).
    destruct (end_record_ok s a b Hs (eq_sym Hdata) Hb) as [Hok Hrem].
    assert (length a < chunk_position s).
    { apply (f_equal length) in Hdata. unfold data in Hdata. rewrite length_app, length_take in Hdata. cbn in Hdata. lia. }
    set (s' := add_fragment s b (length a)) in *.
    assert (next_chunk_end s' = next_chunk_end s ∧ chunk_position s' = length a) as [Hn Hp].
    { unfold s', add_fragment. destruct (discarding_oversized_record s); [done|]. by destruct (exceeds _ _). }
    destruct (discarding_oversized_record s') eqn:Ed.
    + rewrite set_discarding_clear by done. apply Hnext; [by apply clear_record_ok|cbn; lia|done].
    + unfold finish_record. rewrite Ed. destruct (outcome_of _ _) as [o|].
      * exists (clear_record s' false). rewrite Hrem. split_and!; [done..|by apply clear_record_ok|cbn; lia].
      * apply Hnext; [by apply clear_record_ok|cbn; lia|done].
  - apply rposition_None, Forall_not_LF in Ei.
    destruct (add_fragment_ok s data Hs eq_refl Ei) as [Hok Hrem]. apply Hnext; [done| |done].
    unfold add_fragment. destruct (discarding_oversized_record s); [cbn; lia|]. destruct (exceeds _ _); cbn; lia.
Qed.

Context (chunk_size : nat) (read_at : nat → nat → result io_error bytes).
Context (chunk_pos : 0 < chunk_size) (Hread : reads_file read_at file).

Lemma load_chunk_ok s :
  scanner_ok s → chunk_position s = 0 → next_chunk_end s ≠ 0 →
  ∃ s', load_chunk chunk_size read_at s = (Ok tt, s') ∧ scanner_ok s' ∧ remaining s' = remaining s ∧
    chunk_position s' ≠ 0 ∧
    next_chunk_end s' + chunk_position s' = next_chunk_end s + chunk_position s.
Proof using chunk_pos Hread.
  intros [Hend Hline Hfits Hdisc] Hpos Hne. unfold load_chunk.
  set (n := next_chunk_end s `min` chunk_size). assert (0 < n) by lia.
  rewrite Hread by lia. eexists. split; [done|]. split; [|split; [|simpl; lia]].
  - split; cbn; [lia|done..].
  - unfold remaining. f_equal. unfold pending.
    cbn [discarding_oversized_record record_reversed].
    assert (∀ b om, unread (mkScanner (next_chunk_end s - n) n
              (take n (drop (next_chunk_end s - n) file) ++ drop n (chunk s)) b om
              (discarding_oversized_record s)) = unread s) as ->; [|done].
    intros b om. unfold unread. cbn [next_chunk_end chunk_position chunk]. rewrite Hpos, take_0, app_nil_r.
    rewrite take_app_le by (rewrite length_take, length_drop; lia).
    rewrite take_take, Nat.min_id.
    rewrite <- (take_drop (next_chunk_end s - n) (take (next_chunk_end s) file)).
    rewrite take_take, Nat.min_l by lia. f_equal. rewrite take_drop_commute. do 2 f_equal. lia.
Qed.
Lemma scan_loop_ok fuel s :
  scanner_ok s → next_chunk_end s + chunk_position s < fuel →
  scan_step s (scan_loop chunk_size read_at from_slice fuel s).
Proof using chunk_pos Hread.
  revert s. induction fuel as [|fuel IH]; intros s Hs Hfuel; [lia|]. cbn [scan_loop].
  case_bool_decide as Hpos.
  2: { apply search_newline_ok; [done..|]. intros s' ??. apply IH; [done|lia]. }
  case_bool_decide as Hnext.
  - destruct (scan_at_start s Hs Hpos Hnext) as [Hrem Hcl]. exists (clear_record s false).
    rewrite Hrem, Hcl. destruct (discarding_oversized_record s) eqn:Ed.
    + rewrite set_discarding_clear by done. split_and!; [done..|by apply clear_record_ok|cbn; lia].
    + unfold finish_record. rewrite Ed. split_and!; [| |by apply clear_record_ok|cbn; lia]; by destruct (outcome_of _ _).
  - destruct (load_chunk_ok s Hs Hpos Hnext) as (s' & -> & Hs' & Hrem & Hne & Hsz).
    destruct (search_newline_ok (scan_loop chunk_size read_at from_slice fuel) s') as (s'' & -> & Ht & Hok & Hle);
      [done..|intros s'' ??; apply IH; [done|lia]|].
    exists s''. rewrite <- Hrem. split_and!; [done..|lia].
Qed.

Lemma scan_all_ok calls s :
  scanner_ok s → length (remaining s) < calls →
  scan_all chunk_size read_at from_slice calls s = Some (Ok (remaining s)).
Proof using chunk_pos Hread.
  revert s. induction calls as [|calls IH]; intros s Hs Hlt; [lia|]. cbn [scan_all].
  destruct (scan_loop_ok (S (next_chunk_end s + chunk_position s)) s Hs ltac:(lia)) as (s' & E & Ht & Hok & _).
  unfold scan_next. rewrite E. destruct (remaining s) as [|o rest]; [done|]. cbn [head tail] in *.
  rewrite IH, Ht; [done..|]. rewrite Ht. cbn in Hlt. lia.
Qed.
End Correct.

(** ** Termination *)

Lemma rposition_lt p l i : rposition p l = Some i → i < length l.
Proof. intros (a & x & b & -> & <- & _)%rposition_Some. rewrite length_app. cbn. lia. Qed.

Lemma add_fragment_size s f p :
  next_chunk_end (add_fragment s f p) = next_chunk_end s ∧ chunk_position (add_fragment s f p) = p.
Proof.
  unfold add_fragment. destruct (discarding_oversized_record s); [done|]. by destruct (exceeds _ _).
Qed.

Lemma search_newline_terminates {J T} (from_slice : bytes → result J T) next s :
  chunk_position s ≠ 0 →
  (∀ s', next_chunk_end s' + chunk_position s' < next_chunk_end s + chunk_position s → next s' ≠ None) →
  search_newline from_slice next s ≠ None.
Proof.
  intros Hpos IH. unfold search_newline. destruct (rposition _ _) as [i|] eqn:Ei.
  - apply rposition_lt in Ei. rewrite length_take in Ei.
    match goal with |- context [add_fragment s ?f i] => destruct (add_fragment_size s f i) as [Hn Hp] end.
    destruct (discarding_oversized_record _); [apply IH; cbn; lia|].
    unfold finish_record. destruct (outcome_of _ _); [done|]. apply IH. cbn. lia.
  - apply IH. match goal with |- context [add_fragment s ?f 0] => destruct (add_fragment_size s f 0) as [-> ->] end. lia.
Qed.

Lemma scan_loop_terminates {J T} chunk_size read_at (from_slice : bytes → result J T) fuel s :
  0 < chunk_size → next_chunk_end s + chunk_position s < fuel →
  scan_loop chunk_size read_at from_slice fuel s ≠ None.
Proof.
  intros Hc. revert s. induction fuel as [|fuel IH]; intros s Hlt; [lia|]. cbn [scan_loop].
  case_bool_decide as Hpos; [case_bool_decide as Hnext|].
  - destruct (discarding_oversized_record s); [done|]. by unfold finish_record.
  - unfold load_chunk. destruct (read_at _ _); [|done].
    apply search_newline_terminates; [cbn; lia|]. cbn. intros s' Hs'. apply IH. lia.
  - apply search_newline_terminates; [done|]. intros s' Hs'. apply IH. lia.
Qed.

(** [scan_next] returns, in whatever state the scanner is, whatever the
    reader answers (errors and short reads included) and however it cuts the
    file. *)
Theorem scan_next_terminates {J T} (chunk_size : nat) (read_at : nat → nat → result io_error bytes)
    (from_slice : bytes → result J T) (s : ReverseJsonlScanner) (Hsize : 0 < chunk_size) :
  ∃ answer s', scan_next chunk_size read_at from_slice s = Some (answer, s').
Proof.
  destruct (scan_next _ _ _ _) as [[answer s']|] eqn:E; [by eauto|].
  apply scan_loop_terminates in E; [done..|lia].
Qed.

Lemma scan_next_terminates_witness :
  (∃ answer s', scan_next 2 (λ _ _, Err (mkIo OtherKind [])) (λ r, Ok (E := unit) r)
                  (mkScanner 5 0 [] [] None false) = Some (answer, s')) ∧ 0 < 2.
Proof. split; [apply scan_next_terminates|]; lia. Defined.

(** The reader of a file in memory. *)
Definition mem_read (file : bytes) (pos n : nat) : result io_error bytes := Ok (take n (drop pos file)).

(** C29: reading a file from any offset, in chunks of any size, with or without
    a limit, yields exactly its records before that offset from the last to
    the first, without the blank ones and those over the limit. *)
Theorem reverse_scan_yields_records {J T} (chunk_size : nat) (read_at : nat → nat → result io_error bytes)
    (from_slice : bytes → result J T) (file : bytes) (end_byte_offset : nat) (max : option nat)
    (Hsize : 0 < chunk_size) (Hread : reads_file read_at file) (Hend : end_byte_offset ≤ length file) :
  let records := split LF (take end_byte_offset file) in
  ∃ s, new_at chunk_size (Ok (length file)) end_byte_offset = Ok s ∧
    scan_all chunk_size read_at from_slice (S (length records))
      (match max with Some max => with_max_record_bytes s max | None => s end) =
    Some (Ok (omap (yields from_slice max) (reverse records))).
Proof.
  intros records. unfold new_at. rewrite bool_decide_eq_false_2 by lia. eexists. split; [done|].
  match goal with |- scan_all _ _ _ _ ?st = _ => set (s := st) end.
  assert (scanner_ok file s ∧ remaining from_slice file s = omap (yields from_slice max) (reverse records)) as [Hok Hrem].
  { unfold s, remaining, pending, unread, records. destruct max; (split; [split; cbn; [done|set_solver|first [done | apply (fits_nil (Some _))]|done]|]);
      cbn; by rewrite !app_nil_r. }
  rewrite <- Hrem. apply scan_all_ok; [done..|]. rewrite Hrem.
  pose proof (length_omap_le (yields from_slice max) (reverse records)) as Hle.
  rewrite length_reverse in Hle. lia.
Qed.

Lemma reverse_scan_yields_records_witness :
  ∃ s, new_at 2 (Ok 7) 7 = Ok s ∧
    scan_all 2 (mem_read [97; 10; 98; 98; 10; 99; 99]%N) (λ r, Ok (E := unit) r) 4 (with_max_record_bytes s 1) =
    Some (Ok [Parsed [97%N]]).
Proof.
  apply (reverse_scan_yields_records 2 (mem_read [97; 10; 98; 98; 10; 99; 99]%N) (λ r, Ok (E := unit) r)
    [97; 10; 98; 98; 10; 99; 99]%N 7 (Some 1)); [lia|by intros ???|cbn; lia].
Defined.
