(* ===== verification/Rollout.v ===== *)
(** * Recording a session ([rollout/src/ordinal.rs], [rollout/src/recorder.rs])

    The items of a session are appended to a rollout file, one JSON line each;
    in a paginated rollout every line carries an ordinal.  This file models the
    ordinals and the writer task: its queue, the file it appends to, and what
    it does when a write fails (drop the handle, reopen the file, try again).

    Every operation on the file takes its outcome from a list of answers, so
    that any pattern of failures can be played: a failing write may have
    written any number of bytes of its line.  The JSON encoding is a
    parameter, and so are the fields of an item the writer does not look at. *)
From stdpp Require Import numbers strings.
From S2P Require Import Prelude RustStr Utf8 RolloutScan.

(** ** Data *)

(** [ThreadHistoryMode] and [HistoryPosition] of [protocol/src/protocol.rs]. *)
Inductive ThreadHistoryMode : Type := LegacyMode | PaginatedMode.
Record HistoryPosition : Type := mkHistoryPosition {
  thread_id : str;
  end_ordinal_exclusive : N;
  end_byte_offset : N;
}.

#[global] Instance ThreadHistoryMode_eq_dec : EqDecision ThreadHistoryMode.
Proof. solve_decision. Defined.

(** [SessionMeta]: the fields the recorder reads, and the others. *)
Record SessionMeta (Body : Type) : Type := mkSessionMeta {
  history_mode : ThreadHistoryMode;
  subagent_history_start_ordinal : option N;
  other_fields : Body;
}.
Arguments mkSessionMeta {Body}.
Arguments history_mode {Body}.
Arguments subagent_history_start_ordinal {Body}.
Arguments other_fields {Body}.

(** [RolloutItem]: the session metadata with the state of the repository, or
    one of the other items. *)
Inductive RolloutItem (Git Body : Type) : Type :=
  | SessionMetaItem (meta : SessionMeta Body) (git : option Git)
  | OtherItem (body : Body).
Arguments SessionMetaItem {Git Body}.
Arguments OtherItem {Git Body}.

(** [RolloutLine], less its timestamp. *)
Record RolloutLine (Git Body : Type) : Type := mkRolloutLine {
  ordinal : option N;
  item : RolloutItem Git Body;
}.
Arguments mkRolloutLine {Git Body}.
Arguments ordinal {Git Body}.
Arguments item {Git Body}.

(** ** Ordinals *)

Definition U64_MAX : N := 18446744073709551615.

(** [u64::checked_add] and [checked_sub]. *)
Definition u64_checked_add (a b : N) : option N := if (a + b <=? U64_MAX)%N then Some (a + b)%N else None.
Definition u64_checked_sub (a b : N) : option N := if (b <=? a)%N then Some (a - b)%N else None.

(** [RolloutOrdinalState]. *)
Inductive RolloutOrdinalState : Type :=
  | Legacy
  | Paginated (next : option N).

(** [RolloutOrdinalState::for_new_rollout]. *)
Definition for_new_rollout (mode : ThreadHistoryMode) (history_base : option HistoryPosition) : RolloutOrdinalState :=
  match mode with
  | LegacyMode => Legacy
  | PaginatedMode =>
      Paginated (Some (match history_base with Some base => end_ordinal_exclusive base | None => 0%N end))
  end.

(** [RolloutOrdinalState::current]. *)
Definition ordinal_overflow : io_error := mkIo OtherKind (lit "paginated rollout record ordinal overflow").
Definition current (st : RolloutOrdinalState) : result io_error (option N) :=
  match st with
  | Legacy => Ok None
  | Paginated next => let? ordinal := ok_or next ordinal_overflow in Ok (Some ordinal)
  end.

(** [RolloutOrdinalState::advance]. *)
Definition advance (st : RolloutOrdinalState) : RolloutOrdinalState :=
  match st with
  | Paginated (Some ordinal) => Paginated (u64_checked_add ordinal 1)
  | _ => st
  end.

Section Ordinals.
(** Decoding a line; a description of the error a JSON decoder gives. *)
Context {Git Body J : Type} (from_slice : bytes → result J (RolloutLine Git Body)) (show : J → str).
Context (chunk_size : nat) (path : str).

Definition parse_failed (e : J) : io_error :=
  mkIo OtherKind (lit "failed to parse first rollout record at " ++ path ++ lit ": " ++ show e).
Definition no_session_meta : io_error :=
  mkIo OtherKind (lit "rollout at " ++ path ++ lit " does not start with session metadata").
Definition no_valid_records : io_error :=
  mkIo OtherKind (lit "rollout at " ++ path ++ lit " contains no valid records").
Definition missing_ordinal : io_error :=
  mkIo OtherKind (lit "final paginated rollout record at " ++ path ++ lit " is missing an ordinal").
Definition incomplete_prefix (prefix_end ordinal : N) : io_error :=
  mkIo OtherKind (lit "paginated subagent rollout at " ++ path ++ lit " is incomplete: expected inherited prefix through ordinal "
    ++ fmt_N prefix_end ++ lit ", found final durable ordinal " ++ fmt_N ordinal).
Definition invalid_utf8 : io_error := mkIo InvalidData (lit "stream did not contain valid UTF-8").

(** [read_history_metadata]: the first line that is not blank. *)
Fixpoint first_metadata (rows : list bytes) : result io_error (option (ThreadHistoryMode * option N)) :=
  match rows with
  | [] => Ok None
  | row :: rows =>
      let? line := map_err (λ _, invalid_utf8) (from_utf8 (strip_line_ending row)) in
      if str_eqb (trim line) [] then first_metadata rows
      else
        let? record := map_err parse_failed (from_slice (encode line)) in
        match item record with
        | SessionMetaItem meta _ => Ok (Some (history_mode meta, subagent_history_start_ordinal meta))
        | OtherItem _ => Err no_session_meta
        end
  end.
Definition read_history_metadata (file : bytes) : result io_error (option (ThreadHistoryMode * option N)) :=
  first_metadata (split_inclusive LF file).

(** The loop of [ordinal_state_for_rollout]: the newest line that is a record. *)
Fixpoint last_record (calls : nat) (read_at : nat → nat → result io_error bytes) (s : ReverseJsonlScanner) :
    option (result io_error (RolloutLine Git Body)) :=
  match calls with
  | 0 => None
  | S calls =>
      match scan_next chunk_size read_at from_slice s with
      | None => None
      | Some (Err e, _) => Some (Err e)
      | Some (Ok (Some (Parsed record)), _) => Some (Ok record)
      | Some (Ok (Some (Rejected _)), s) => last_record calls read_at s
      | Some (Ok None, _) => Some (Err no_valid_records)
      end
  end.

(** [ordinal_state_for_rollout]: [None] only if the loop needs more [calls]. *)
Definition check_last_record (start : option N) (record : RolloutLine Git Body) : result io_error RolloutOrdinalState :=
  let? last := ok_or (ordinal record) missing_ordinal in
  match start ≫= (λ start, u64_checked_sub start 1) with
  | Some prefix_end =>
      if (last <? prefix_end)%N then Err (incomplete_prefix prefix_end last)
      else Ok (Paginated (u64_checked_add last 1))
  | None => Ok (Paginated (u64_checked_add last 1))
  end.
Definition ordinal_state_for_rollout (calls : nat) (read_at : nat → nat → result io_error bytes) (file : bytes) :
    option (result io_error RolloutOrdinalState) :=
  match read_history_metadata file with
  | Err e => Some (Err e)
  | Ok None | Ok (Some (LegacyMode, _)) => Some (Ok Legacy)
  | Ok (Some (PaginatedMode, start)) =>
      match new chunk_size (Ok (length file)) with
      | Err e => Some (Err e)
      | Ok scanner =>
          match last_record calls read_at scanner with
          | None => None
          | Some (Err e) => Some (Err e)
          | Some (Ok record) => Some (check_last_record start record)
          end
      end
  end.
End Ordinals.

(** ** The file and its failures *)

(** The outcome of an operation: the time and the state of the repository it
    sees, and if it fails the number of bytes written before and the error. *)
Record Answer (Git : Type) : Type := mkAnswer {
  now : str;
  git_info : option Git;
  failure : option (nat * io_error);
}.
Arguments mkAnswer {Git}.
Arguments now {Git}.
Arguments git_info {Git}.
Arguments failure {Git}.

(** The rollout file and the answers of the coming operations; when none is
    left, operations succeed. *)
Record World (Git : Type) : Type := mkWorld {
  file : bytes;
  answers : list (Answer Git);
}.
Arguments mkWorld {Git}.
Arguments file {Git}.
Arguments answers {Git}.

(** [RolloutWriterState]: whether the file is open stands for the handle; the
    paths do not change. *)
Record RolloutWriterState (Git Body : Type) : Type := mkWriter {
  writer : bool;
  deferred_creation : bool;
  pending_items : list (RolloutItem Git Body);
  meta : option (SessionMeta Body);
  ordinal_state : RolloutOrdinalState;
  last_logged_error : option str;
}.
Arguments mkWriter {Git Body}.
Arguments writer {Git Body}.
Arguments deferred_creation {Git Body}.
Arguments pending_items {Git Body}.
Arguments meta {Git Body}.
Arguments ordinal_state {Git Body}.
Arguments last_logged_error {Git Body}.

(** [RolloutCmd], less its reply channels. *)
Inductive RolloutCmd (Git Body : Type) : Type :=
  | AddItems (items : list (RolloutItem Git Body))
  | Persist
  | Flush
  | Shutdown.
Arguments AddItems {Git Body}.
Arguments Persist {Git Body}.
Arguments Flush {Git Body}.
Arguments Shutdown {Git Body}.

Section Writer.
Context {Git Body : Type}.
(** [serde_json::to_string] of a line: its timestamp, ordinal and item. *)
Context (to_string : str → option N → RolloutItem Git Body → result io_error bytes).
Implicit Types (w : World Git) (s : RolloutWriterState Git Body).

Definition next_answer w : Answer Git * World Git :=
  match answers w with
  | [] => (mkAnswer [] None None, w)
  | a :: rest => (a, mkWorld (file w) rest)
  end.

(** An operation that writes nothing. *)
Definition touch w : result io_error unit * World Git :=
  let '(a, w) := next_answer w in
  (match failure a with Some (_, e) => Err e | None => Ok tt end, w).

(** [write_all] and [flush]: all bytes are appended, or some and an error. *)
Definition append (data : bytes) (a : Answer Git) w : result io_error unit * World Git :=
  match failure a with
  | Some (n, e) => (Err e, mkWorld (file w ++ take n data) (answers w))
  | None => (Ok tt, mkWorld (file w ++ data) (answers w))
  end.

(** [ensure_rollout_is_newline_terminated]: the metadata, the last byte, the
    write. *)
Definition ensure_rollout_is_newline_terminated w : result io_error unit * World Git :=
  match touch w with
  | (Err e, w) => (Err e, w)
  | (Ok _, w) =>
      match last (file w) with
      | None => (Ok tt, w)
      | Some final_byte =>
          match touch w with
          | (Err e, w) => (Err e, w)
          | (Ok _, w) =>
              if (final_byte =? LF)%N then (Ok tt, w)
              else let '(a, w) := next_answer w in append [LF] a w
          end
      end
  end.

(** [open_log_file]: decompressing, creating and opening the file is one
    operation here. *)
Definition open_log_file w : result io_error unit * World Git :=
  match touch w with
  | (Err e, w) => (Err e, w)
  | (Ok _, w) => ensure_rollout_is_newline_terminated w
  end.

(** [write_rollout_item] with [write_line]. *)
Definition write_rollout_item (a : Answer Git) (it : RolloutItem Git Body) (o : option N) w :
    result io_error unit * World Git :=
  match to_string (now a) o it with
  | Err e => (Err e, w)
  | Ok json => append (json ++ [LF]) a w
  end.

(** The state of a new session, and of a resumed one ([RolloutRecorder::new]). *)
Definition new_writer (m : SessionMeta Body) (history_base : option HistoryPosition) : RolloutWriterState Git Body :=
  mkWriter false true [] (Some m) (for_new_rollout (history_mode m) history_base) None.
Definition resumed_writer (o : RolloutOrdinalState) : RolloutWriterState Git Body :=
  mkWriter true false [] None o None.

(** [is_deferred], [add_items], [enter_recovery_mode]. *)
Definition is_deferred s : bool := negb (writer s) && deferred_creation s.
Definition add_items s (items : list (RolloutItem Git Body)) : RolloutWriterState Git Body :=
  mkWriter (writer s) (deferred_creation s) (pending_items s ++ items) (meta s) (ordinal_state s) (last_logged_error s).
Definition enter_recovery_mode s (e : io_error) : RolloutWriterState Git Body :=
  mkWriter false (deferred_creation s) (pending_items s) (meta s) (ordinal_state s) (Some (io_text e)).

(** [ensure_writer_open]. *)
Definition ensure_writer_open s w : result io_error unit * RolloutWriterState Git Body * World Git :=
  if writer s then (Ok tt, s, w)
  else match open_log_file w with
       | (Err e, w) => (Err e, s, w)
       | (Ok _, w) => (Ok tt, mkWriter true false (pending_items s) (meta s) (ordinal_state s) (last_logged_error s), w)
       end.

(** [write_session_meta] and [write_session_meta_if_needed]. *)
Definition write_session_meta s (m : SessionMeta Body) w : result io_error unit * RolloutWriterState Git Body * World Git :=
  let '(a, w) := next_answer w in
  let rollout_item := SessionMetaItem m (git_info a) in
  if writer s then
    match current (ordinal_state s) with
    | Err e => (Err e, s, w)
    | Ok o =>
        match write_rollout_item a rollout_item o w with
        | (Err e, w) => (Err e, s, w)
        | (Ok _, w) => (Ok tt, mkWriter (writer s) (deferred_creation s) (pending_items s) (meta s)
                                 (advance (ordinal_state s)) (last_logged_error s), w)
        end
    end
  else (Ok tt, s, w).
Definition write_session_meta_if_needed s w : result io_error unit * RolloutWriterState Git Body * World Git :=
  match meta s with
  | None => (Ok tt, s, w)
  | Some m =>
      match write_session_meta s m w with
      | (Err e, s, w) => (Err e, s, w)
      | (Ok _, s, w) => (Ok tt, mkWriter (writer s) (deferred_creation s) (pending_items s) None (ordinal_state s)
                                  (last_logged_error s), w)
      end
  end.

(** The loop of [write_pending_items_once]: its result, the number of items
    written, the ordinals. *)
Fixpoint write_items (items : list (RolloutItem Git Body)) (o : RolloutOrdinalState) w :
    result io_error unit * nat * RolloutOrdinalState * World Git :=
  match items with
  | [] => (Ok tt, 0, o, w)
  | it :: items =>
      match current o with
      | Err e => (Err e, 0, o, w)
      | Ok n =>
          let '(a, w) := next_answer w in
          match write_rollout_item a it n w with
          | (Err e, w) => (Err e, 0, o, w)
          | (Ok _, w) => let '(r, count, o, w) := write_items items (advance o) w in (r, S count, o, w)
          end
      end
  end.
Definition write_pending_items_once s w : result io_error unit * RolloutWriterState Git Body * World Git :=
  if writer s then
    let '(write_result, written_count, o, w) := write_items (pending_items s) (ordinal_state s) w in
    (write_result, mkWriter (writer s) (deferred_creation s) (drop written_count (pending_items s)) (meta s) o
                     (last_logged_error s), w)
  else (Err (mkIo OtherKind (lit "rollout writer is not open")), s, w).

(** [write_pending_once]. *)
Definition write_pending_once s w : result io_error unit * RolloutWriterState Git Body * World Git :=
  match ensure_writer_open s w with
  | (Err e, s, w) => (Err e, s, w)
  | (Ok _, s, w) =>
      match write_session_meta_if_needed s w with
      | (Err e, s, w) => (Err e, s, w)
      | (Ok _, s, w) =>
          match write_pending_items_once s w with
          | (Err e, s, w) => (Err e, s, w)
          | (Ok _, s, w) =>
              if writer s then let '(r, w) := touch w in (r, s, w) else (Ok tt, s, w)
          end
      end
  end.

(** [write_pending_with_recovery]: one retry on a reopened file. *)
Definition clear_error s : RolloutWriterState Git Body :=
  mkWriter (writer s) (deferred_creation s) (pending_items s) (meta s) (ordinal_state s) None.
Definition write_pending_with_recovery s w : result io_error unit * RolloutWriterState Git Body * World Git :=
  match write_pending_once s w with
  | (Ok _, s, w) => (Ok tt, clear_error s, w)
  | (Err first_err, s, w) =>
      match write_pending_once (enter_recovery_mode s first_err) w with
      | (Ok _, s, w) => (Ok tt, clear_error s, w)
      | (Err second_err, s, w) => (Err second_err, enter_recovery_mode s second_err, w)
      end
  end.

(** [persist], [flush], [shutdown], [flush_if_materialized]. *)
Definition persist s w := write_pending_with_recovery s w.
Definition flush s w : result io_error unit * RolloutWriterState Git Body * World Git :=
  if is_deferred s && bool_decide (length (pending_items s) = 0) then (Ok tt, s, w)
  else write_pending_with_recovery s w.
Definition shutdown s w : result io_error unit * RolloutWriterState Git Body * World Git :=
  if is_deferred s && bool_decide (length (pending_items s) = 0) then (Ok tt, s, w)
  else write_pending_with_recovery s w.
Definition flush_if_materialized s w : RolloutWriterState Git Body * World Git :=
  if is_deferred s then (s, w)
  else match flush s w with
       | (Ok _, s, w) => (s, w)
       | (Err e, s, w) => (enter_recovery_mode s e, w)
       end.

(** [rollout_writer]: the commands in order, with the acknowledgements sent; a
    successful shutdown ends the task. *)
Fixpoint rollout_writer (cmds : list (RolloutCmd Git Body)) s w :
    list (result io_error unit) * RolloutWriterState Git Body * World Git :=
  match cmds with
  | [] => ([], s, w)
  | cmd :: cmds =>
      let reply r := let '(acks, s, w) := rollout_writer cmds (snd (fst r)) (snd r) in (fst (fst r) :: acks, s, w) in
      match cmd with
      | AddItems items => let '(s, w) := flush_if_materialized (add_items s items) w in rollout_writer cmds s w
      | Persist => reply (persist s w)
      | Flush => reply (flush s w)
      | Shutdown =>
          match shutdown s w with
          | (Ok _, s, w) => ([Ok tt], s, w)
          | r => reply r
          end
      end
  end.
End Writer.
