(* ===== verification/RolloutProofs.v ===== *)
(** * What a rollout file contains

    Whatever fails, the file is a log of the items queued: the committed ones
    in order, each with its ordinal, and between them the remains of failed
    attempts to write the next one. *)
From stdpp Require Import numbers strings.
From S2P Require Import Prelude RustStr Utf8 RolloutScan Rollout.

Lemma elem_of_take_inv {A} (x : A) n l : x ∈ take n l → x ∈ l.
Proof. intros Hx. rewrite <- (take_drop n l), elem_of_app. by left. Qed.

(** Lines with their ends. *)
Definition unlines (rows : list bytes) : bytes := concat ((λ r, r ++ [LF]) <$> rows).

Lemma unlines_snoc rows r : unlines (rows ++ [r]) = unlines rows ++ r ++ [LF].
Proof. unfold unlines. rewrite fmap_app, concat_app. cbn. by rewrite app_nil_r. Qed.

Lemma last_unlines rows : last (unlines rows) = None ∧ rows = [] ∨ last (unlines rows) = Some LF.
Proof.
  destruct (list_snoc_cases rows) as [->|(rows' & r & ->)]; [by left|right].
  by rewrite unlines_snoc, app_assoc, last_snoc.
Qed.

(** An item up to the state of the repository, which is collected at each
    attempt to write the metadata. *)
Definition logical {Git Body} (it : RolloutItem Git Body) : RolloutItem Git Body :=
  match it with
  | SessionMetaItem m _ => SessionMetaItem m None
  | OtherItem b => OtherItem b
  end.

(** What is still to be written, metadata first. *)
Definition queue {Git Body} (s : RolloutWriterState Git Body) : list (RolloutItem Git Body) :=
  match meta s with Some m => [SessionMetaItem m None] | None => [] end ++ pending_items s.

Section Log.
Context {Git Body : Type} (to_string : str → option N → RolloutItem Git Body → result io_error bytes).

(** A JSON line has no line end in it. *)
Definition lines_of_json : Prop := ∀ t o it json, to_string t o it = Ok json → LF ∉ json.

(** The state of the ordinals and the file the writer starts from. *)
Context (start : RolloutOrdinalState) (rows0 : list bytes) (tail0 : bytes).
Implicit Types (items : list (RolloutItem Git Body)) (k : nat).

(** The state of the ordinals at the [k]-th item. *)
Definition ordinals_at k : RolloutOrdinalState := Nat.iter k advance start.

(** A line for the [k]-th item. *)
Definition line_for items k (json : bytes) : Prop :=
  ∃ it it' t o, items !! k = Some it ∧ logical it' = logical it ∧ current (ordinals_at k) = Ok o ∧ to_string t o it' = Ok json.

(** The rows of a file in which the first [k] items are committed. *)
Inductive rows_log items : list bytes → nat → Prop :=
  | log_start : rows_log items rows0 0
  | log_terminated : rows_log items (rows0 ++ [tail0]) 0
  | log_committed rows k json :
      rows_log items rows k → line_for items k json → rows_log items (rows ++ [json]) (S k)
  | log_torn rows k json n :
      rows_log items rows k → line_for items k json → rows_log items (rows ++ [take n json]) k.

(** The file: its rows and an unterminated end, empty when the file is [open]. *)
Definition logged items k (open : bool) (f : bytes) : Prop :=
  ∃ rows tail, f = unlines rows ++ tail ∧ rows_log items rows k ∧ (open = true → tail = []) ∧
    (tail = [] ∨ (rows = rows0 ∧ k = 0 ∧ tail = tail0) ∨ ∃ json n, line_for items k json ∧ tail = take n json).

Lemma line_for_mono items new k json : line_for items k json → line_for (items ++ new) k json.
Proof. intros (it & it' & t & o & Hk & H). exists it, it', t, o. by rewrite (lookup_app_l_Some _ _ _ _ Hk). Qed.

Lemma rows_log_mono items new rows k : rows_log items rows k → rows_log (items ++ new) rows k.
Proof. induction 1; [constructor 1|constructor 2|constructor 3|constructor 4]; eauto using line_for_mono. Qed.

Lemma logged_mono items new k open f : logged items k open f → logged (items ++ new) k open f.
Proof.
  intros (rows & tail & -> & Hr & Ho & Ht). exists rows, tail. split_and!; [done|by apply rows_log_mono|done|].
  destruct Ht as [|[|(json & n & Hl & ->)]]; eauto 8 using line_for_mono.
Qed.

Lemma logged_close items k open f : logged items k open f → logged items k false f.
Proof. intros (rows & tail & ? & ? & ? & ?). by exists rows, tail. Qed.

(** What an operation without a write, and a write, do to the file. *)
Lemma touch_file (w : World Git) r w' : touch w = (r, w') → file w' = file w.
Proof. unfold touch, next_answer. destruct (answers w); cbn; by intros [= <- <-]. Qed.

Lemma next_answer_file (w : World Git) a w' : next_answer w = (a, w') → file w' = file w.
Proof. unfold next_answer. destruct (answers w); by intros [= <- <-]. Qed.

Lemma append_file data (a : Answer Git) w r w' :
  append data a w = (r, w') →
  (r = Ok tt ∧ file w' = file w ++ data) ∨ (is_ok r = false ∧ ∃ n, file w' = file w ++ take n data).
Proof. unfold append. destruct (failure a) as [[n e]|]; intros [= <- <-]; eauto. Qed.

Context (Hjson : lines_of_json) (Htail0 : LF ∉ tail0).

Lemma line_for_no_LF items k json : line_for items k json → LF ∉ json.
Proof using Hjson. intros (it & it' & t & o & _ & _ & _ & H). by eapply Hjson. Qed.

(** Reopening the file terminates what a failed write has left. *)
Lemma newline_logged items k (w : World Git) r w' :
  logged items k false (file w) → ensure_rollout_is_newline_terminated w = (r, w') →
  logged items k (is_ok r) (file w').
Proof using Hjson Htail0.
  intros Hlog. unfold ensure_rollout_is_newline_terminated.
  destruct (touch w) as [r1 w1] eqn:E1. apply touch_file in E1. rewrite <- E1 in Hlog.
  destruct r1; [|intros [= <- <-]; by rewrite E1 in *].
  destruct Hlog as (rows & tail & Hf & Hr & _ & Ht).
  assert (LF ∉ tail) as Hno.
  { destruct Ht as [->|[(_ & _ & ->)|(json & n & Hl & ->)]]; [set_solver|done|].
    apply line_for_no_LF in Hl. intros Hin. by apply elem_of_take_inv in Hin. }
  assert (tail ≠ [] → logged items k true (unlines (rows ++ [tail]))) as Hended.
  { intros Hne. exists (rows ++ [tail]), []. rewrite app_nil_r. split_and!; [done| |done|by left].
    destruct Ht as [->|[(-> & -> & ->)|(json & n & Hl & ->)]]; [done|constructor|by constructor]. }
  rewrite Hf. destruct (list_snoc_cases tail) as [->|(tail' & x & ->)].
  - rewrite app_nil_r in *.
    assert (logged items k true (unlines rows)) as Hopen.
    { exists rows, []. rewrite app_nil_r. by eauto. }
    destruct (last_unlines rows) as [[-> ->]| ->]; [intros [= <- <-]; by rewrite Hf|].
    destruct (touch w1) as [r2 w2] eqn:E2. apply touch_file in E2. rewrite Hf in E2.
    destruct r2; intros [= <- <-]; rewrite E2; [done|by eapply logged_close].
  - rewrite app_assoc, last_snoc. destruct (touch w1) as [r2 w2] eqn:E2. apply touch_file in E2. rewrite Hf in E2.
    assert (logged items k false (file w2)) as Hsame.
    { rewrite E2. by exists rows, (tail' ++ [x]). }
    destruct r2; [|by intros [= <- <-]].
    assert ((x =? LF)%N = false) as -> by (apply N.eqb_neq; set_solver).
    destruct (next_answer w2) as [ans w3] eqn:E3. apply next_answer_file in E3.
    intros [[-> ->]|[-> [[|n] ->]]]%append_file; rewrite E3; cbn [take is_ok].
    + rewrite E2, <- app_assoc, <- unlines_snoc. by apply Hended; destruct tail'.
    + by rewrite app_nil_r.
    + rewrite E2, take_nil, <- app_assoc, <- unlines_snoc.
      eapply logged_close, Hended. by destruct tail'.
Qed.

Lemma open_logged items k (w : World Git) r w' :
  logged items k false (file w) → open_log_file w = (r, w') → logged items k (is_ok r) (file w').
Proof using Hjson Htail0.
  intros Hlog. unfold open_log_file. destruct (touch w) as [r1 w1] eqn:E1. apply touch_file in E1.
  rewrite <- E1 in Hlog. destruct r1; [by apply newline_logged|by intros [= <- <-]].
Qed.

(** An attempt to write the next item. *)
Lemma write_logged items k (w : World Git) a it it0 o r w' :
  logged items k true (file w) → items !! k = Some it0 → logical it = logical it0 → current (ordinals_at k) = Ok o →
  write_rollout_item to_string a it o w = (r, w') →
  logged items (if is_ok r then S k else k) (is_ok r) (file w').
Proof.
  intros Hlog Hk Hit Ho. unfold write_rollout_item.
  destruct (to_string (now a) o it) as [json|e] eqn:E; [|intros [= <- <-]; by eapply logged_close].
  assert (line_for items k json) as Hline by (by exists it0, it, (now a), o).
  destruct Hlog as (rows & tail & Hw & Hr & Hnil & _). rewrite (Hnil eq_refl), app_nil_r in Hw. clear Hnil.
  intros [[-> Hf]|[-> [n Hf]]]%append_file; rewrite Hf, Hw; clear Hf; cbn [is_ok].
  - exists (rows ++ [json]), []. rewrite app_nil_r, unlines_snoc. split_and!; [done|by constructor|done|by left].
  - destruct (decide (n ≤ length json)) as [Hn|Hn].
    + exists rows, (take n json). rewrite take_app_le by done. split_and!; [done..|].
      right. right. by exists json, n.
    + exists (rows ++ [json]), []. rewrite app_nil_r, unlines_snoc. rewrite (take_ge (json ++ [LF])).
      2: { rewrite length_app. cbn. lia. }
      split_and!; [done| |done|by left]. rewrite <- (take_ge json n) by lia. by constructor.
Qed.
(** The loop over the queue. *)
Lemma write_items_logged items pend k (w : World Git) r c o w' :
  logged items k true (file w) → logical <$> pend = logical <$> drop k items →
  write_items to_string pend (ordinals_at k) w = (r, c, o, w') →
  logged items (k + c) (is_ok r) (file w') ∧ o = ordinals_at (k + c) ∧ c ≤ length pend ∧
  (is_ok r = true → c = length pend).
Proof.
  revert k w r c o w'. induction pend as [|it pend IH]; intros k w r c o w' Hlog Hp; cbn [write_items].
  { intros [= <- <- <- <-]. rewrite Nat.add_0_r. by split_and!. }
  destruct (drop k items) as [|it0 rest] eqn:Ed; [done|]. cbn in Hp. injection Hp as Hit Hp.
  assert (items !! k = Some it0) as Hk by (rewrite <- (Nat.add_0_r k), <- lookup_drop, Ed; done).
  assert (drop (S k) items = rest) as Hrest by (rewrite <- Nat.add_1_r, <- drop_drop, Ed; done).
  destruct (current (ordinals_at k)) as [n|e] eqn:Eo.
  2: { intros [= <- <- <- <-]. rewrite Nat.add_0_r. split_and!; [by eapply logged_close|done|cbn; lia|done]. }
  destruct (next_answer w) as [a w1] eqn:E1. apply next_answer_file in E1. rewrite <- E1 in Hlog.
  destruct (write_rollout_item _ _ _ _ _) as [r2 w2] eqn:E2.
  pose proof (write_logged _ _ _ _ _ _ _ _ _ Hlog Hk Hit Eo E2) as Hlog2.
  destruct r2; cbn [is_ok] in Hlog2.
  - replace (advance (ordinals_at k)) with (ordinals_at (S k)) by done.
    destruct (write_items _ pend _ w2) as [[[r3 c3] o3] w3] eqn:E3.
    apply (IH (S k)) in E3; [|done|by rewrite Hrest]. intros [= <- <- <- <-].
    rewrite Nat.add_succ_r. destruct E3 as (? & ? & ? & ?). split_and!; [done..|cbn; lia|cbn; auto].
  - intros [= <- <- <- <-]. rewrite Nat.add_0_r. split_and!; [done..|cbn; lia|done].
Qed.

(** The file, the queue and the ordinals of the writer agree. *)
Definition writer_ok items (open : bool) (s : RolloutWriterState Git Body) (w : World Git) : Prop :=
  ∃ k, logged items k open (file w) ∧ k ≤ length items ∧
    logical <$> queue s = logical <$> drop k items ∧ ordinal_state s = ordinals_at k ∧ (meta s = None ∨ k = 0).

Definition outcome_ok items (x : result io_error unit * RolloutWriterState Git Body * World Git) : Prop :=
  writer_ok items (is_ok (fst (fst x))) (snd (fst x)) (snd x).

Lemma writer_ok_close items open s w : writer_ok items open s w → writer_ok items false s w.
Proof. intros (k & ? & ?). exists k. eauto using logged_close. Qed.

Lemma ensure_writer_open_ok items s w :
  writer_ok items (writer s) s w → let x := ensure_writer_open s w in
  outcome_ok items x ∧ (is_ok (fst (fst x)) = true → writer (snd (fst x)) = true).
Proof using Hjson Htail0.
  intros Hok. unfold ensure_writer_open, outcome_ok. destruct (writer s) eqn:Ew; [done|].
  destruct Hok as (k & Hlog & Hk). destruct (open_log_file w) as [r w'] eqn:E.
  eapply open_logged in E; [|done]. destruct r; (split; [by exists k|done]).
Qed.

Lemma write_session_meta_ok items s w :
  writer s = true → writer_ok items true s w →
  let x := write_session_meta_if_needed to_string s w in
  outcome_ok items x ∧ writer (snd (fst x)) = true ∧ (is_ok (fst (fst x)) = true → meta (snd (fst x)) = None).
Proof.
  intros Hw (k & Hlog & Hk & Hq & Ho & Hm). unfold write_session_meta_if_needed, outcome_ok.
  destruct (meta s) as [m|] eqn:Em; [|split_and!; [exists k; split_and!; [done..|by left]|done..]].
  assert (k = 0) as Hk0 by (by destruct Hm).
  unfold write_session_meta. destruct (next_answer w) as [a w1] eqn:E1. apply next_answer_file in E1.
  rewrite Hw, Ho. rewrite <- E1 in Hlog. unfold queue in Hq. rewrite Em in Hq.
  destruct (drop k items) as [|it0 rest] eqn:Ed; [done|]. cbn in Hq. injection Hq as Hit Hp.
  assert (items !! k = Some it0) as Hlk by (rewrite <- (Nat.add_0_r k), <- lookup_drop, Ed; done).
  assert (drop (S k) items = rest) as Hrest by (rewrite <- Nat.add_1_r, <- drop_drop, Ed; done).
  assert (∀ r, writer_ok items false s (mkWorld (file w1) r)) as Hsame.
  { intros r. exists k. split_and!; [by eapply logged_close|done| |done|by right]. unfold queue. rewrite Em, Ed. cbn. by f_equal. }
  destruct (current (ordinals_at k)) as [n|e] eqn:Eo.
  2: { split_and!; [|done..]. destruct w1; apply Hsame. }
  destruct (write_rollout_item _ _ _ _ _) as [r2 w2] eqn:E2.
  eapply write_logged in E2; [|done..].
  destruct r2; cbn [is_ok fst snd] in *.
  - split_and!; [|done..]. exists (S k). split_and!; [done| | |done|by left].
    + by apply lookup_lt_Some in Hlk.
    + unfold queue. cbn. by rewrite Hp, Hrest.
  - split_and!; [|done..]. exists k. split_and!; [done|done| |done|by right]. unfold queue. rewrite Em, Ed. cbn. by f_equal.
Qed.

Lemma write_pending_items_ok items s w :
  writer s = true → meta s = None → writer_ok items true s w →
  let x := write_pending_items_once to_string s w in
  outcome_ok items x ∧ writer (snd (fst x)) = true ∧ (is_ok (fst (fst x)) = true → queue (snd (fst x)) = []).
Proof.
  intros Hw Hm (k & Hlog & Hk & Hq & Ho & _). unfold write_pending_items_once, outcome_ok. rewrite Hw, Ho.
  unfold queue in Hq. rewrite Hm in Hq. cbn [app] in Hq.
  destruct (write_items _ _ _ _) as [[[r c] o] w'] eqn:E.
  pose proof (f_equal length Hq) as Hlen. rewrite !length_fmap, length_drop in Hlen.
  eapply write_items_logged in E as (Hlog' & -> & Hc & Hfull); [|done..].
  cbn [fst snd]. split_and!; [|done|].
  - exists (k + c). split_and!; [done|lia| |done|by left]. unfold queue. cbn. rewrite Hm. cbn [app].
    rewrite <- drop_drop, !fmap_drop, Hq. by rewrite fmap_drop.
  - intros Hr. unfold queue. cbn. rewrite Hm, (Hfull Hr). cbn. apply drop_all.
Qed.

Lemma write_pending_once_ok items s w :
  writer_ok items (writer s) s w →
  let x := write_pending_once to_string s w in
  outcome_ok items x ∧ (is_ok (fst (fst x)) = true → queue (snd (fst x)) = [] ∧ writer (snd (fst x)) = true).
Proof using Hjson Htail0.
  intros Hok. unfold write_pending_once.
  destruct (ensure_writer_open_ok items s w Hok) as [H1 W1].
  destruct (ensure_writer_open s w) as [[r1 s1] w1]. unfold outcome_ok in H1. cbn [fst snd] in *.
  destruct r1; [|done]. cbn [is_ok] in *. specialize (W1 eq_refl).
  destruct (write_session_meta_ok items s1 w1 W1 H1) as (H2 & W2 & M2).
  destruct (write_session_meta_if_needed _ s1 w1) as [[r2 s2] w2]. unfold outcome_ok in H2. cbn [fst snd] in *.
  destruct r2; [|done]. cbn [is_ok] in *. specialize (M2 eq_refl).
  destruct (write_pending_items_ok items s2 w2 W2 M2 H2) as (H3 & W3 & Q3).
  destruct (write_pending_items_once _ s2 w2) as [[r3 s3] w3]. unfold outcome_ok in H3. cbn [fst snd] in *.
  destruct r3; [|done]. cbn [is_ok] in *. specialize (Q3 eq_refl). rewrite W3.
  destruct (touch w3) as [r4 w4] eqn:E4. apply touch_file in E4.
  assert (writer_ok items true s3 w4) as H4 by (destruct H3 as (k & ? & ?); exists k; by rewrite E4).
  destruct r4; cbn; [done|]. split; [by eapply writer_ok_close|done].
Qed.

(** The writer between two commands. *)
Definition idle_ok items (s : RolloutWriterState Git Body) (w : World Git) : Prop := writer_ok items (writer s) s w.

Lemma recovery_ok items open s w e : writer_ok items open s w → idle_ok items (enter_recovery_mode s e) w.
Proof. intros (k & Hlog & ?). exists k. cbn. by eapply logged_close in Hlog. Qed.

Lemma write_pending_with_recovery_ok items s w :
  idle_ok items s w →
  let x := write_pending_with_recovery to_string s w in
  idle_ok items (snd (fst x)) (snd x) ∧ (is_ok (fst (fst x)) = true → queue (snd (fst x)) = []).
Proof using Hjson Htail0.
  intros Hok. unfold write_pending_with_recovery.
  destruct (write_pending_once_ok items s w Hok) as [H1 Q1].
  destruct (write_pending_once _ s w) as [[r1 s1] w1]. unfold outcome_ok in H1. cbn [fst snd] in *.
  destruct r1 as [|e1].
  { destruct Q1 as [Q1 W1]; [done|]. split; [|done]. unfold idle_ok. cbn. by rewrite W1. }
  destruct (write_pending_once_ok items (enter_recovery_mode s1 e1) w1) as [H2 Q2]; [by eapply recovery_ok|].
  destruct (write_pending_once _ _ w1) as [[r2 s2] w2]. unfold outcome_ok in H2. cbn [fst snd] in *.
  destruct r2 as [|e2].
  { destruct Q2 as [Q2 W2]; [done|]. split; [|done]. unfold idle_ok. cbn. by rewrite W2. }
  split; [by eapply recovery_ok|done].
Qed.
(** A barrier that succeeds leaves nothing in the queue, apart from the
    metadata of a rollout that has not been created. *)
Definition settled (s : RolloutWriterState Git Body) : Prop :=
  queue s = [] ∨ (is_deferred s = true ∧ pending_items s = []).

Lemma flush_ok items s w :
  idle_ok items s w →
  let x := flush to_string s w in
  idle_ok items (snd (fst x)) (snd x) ∧ (is_ok (fst (fst x)) = true → settled (snd (fst x))).
Proof using Hjson Htail0.
  intros Hok. unfold flush, settled.
  destruct (is_deferred s && _) eqn:E.
  - apply andb_prop in E as [Hd Hl%bool_decide_eq_true%nil_length_inv]. split; [done|]. by right.
  - destruct (write_pending_with_recovery_ok items s w Hok) as [H1 Q1]. split; [done|]. intros. left. auto.
Qed.

Lemma flush_if_materialized_ok items s w :
  idle_ok items s w → let x := flush_if_materialized to_string s w in idle_ok items (fst x) (snd x).
Proof using Hjson Htail0.
  intros Hok. unfold flush_if_materialized. destruct (is_deferred s); [done|].
  destruct (flush_ok items s w Hok) as [H1 _]. destruct (flush _ s w) as [[r1 s1] w1]. cbn [fst snd] in *.
  destruct r1; [done|]. by eapply recovery_ok.
Qed.

Lemma add_items_ok items new s w : idle_ok items s w → idle_ok (items ++ new) (add_items s new) w.
Proof.
  intros (k & Hlog & Hk & Hq & Ho). exists k. split_and!; [by apply logged_mono|rewrite length_app; lia| |apply Ho..].
  unfold queue, add_items. cbn [meta pending_items]. rewrite drop_app_le by done.
  rewrite app_assoc. change (logical <$> ?a ++ ?b) with (logical <$> (a ++ b)).
  rewrite !fmap_app. f_equal. by rewrite <- fmap_app.
Qed.

(** The items of the commands. *)
Definition items_of (cmds : list (RolloutCmd Git Body)) : list (RolloutItem Git Body) :=
  cmds ≫= λ cmd, match cmd with AddItems new => new | _ => [] end.

(** The commands that are acknowledged. *)
Definition is_barrier (cmd : RolloutCmd Git Body) : bool := match cmd with AddItems _ => false | _ => true end.

(** What is known of a run: the commands [handled] are all, unless a shutdown
    ended it, and if the last one was acknowledged the queue is settled. *)
Record run_ok items cmds handled (acks : list (result io_error unit)) s' w' : Prop := {
  run_prefix : ∃ rest, cmds = handled ++ rest ∧ (rest ≠ [] → last handled = Some Shutdown);
  run_state : idle_ok (items ++ items_of handled) s' w';
  run_settled : ∀ b, last handled = Some b → is_barrier b = true →
    acks ≠ [] ∧ (last acks = Some (Ok tt) → settled s');
}.

Lemma run_nil items s w : idle_ok items s w → run_ok items [] [] [] s w.
Proof. intros. split; [by exists []|by rewrite app_nil_r|done]. Qed.

Lemma run_reply items cmd cmds handled r acks s1 s' w' :
  is_barrier cmd = true → (is_ok r = true → settled s1) →
  (cmds = [] → acks = [] ∧ s' = s1) →
  run_ok items cmds handled acks s' w' → run_ok items (cmd :: cmds) (cmd :: handled) (r :: acks) s' w'.
Proof.
  intros Hb Hr Hend [[rest [-> Hrest]] Hst Hset]. split.
  - exists rest. split; [done|]. intros Hne. destruct handled; [by specialize (Hrest Hne)|auto].
  - by destruct cmd.
  - intros b. destruct handled as [|c handled].
    + intros [= <-] _. split; [done|]. destruct rest as [|c rest]; [|by specialize (Hrest ltac:(done))].
      destruct Hend as [-> ->]; [done|]. cbn. intros [= ->]. auto.
    + rewrite last_cons_cons. intros Hl Hbar. destruct (Hset b Hl Hbar) as [Hne Hs]. split; [done|].
      destruct acks; [done|]. by rewrite last_cons_cons.
Qed.

Lemma run_shutdown items cmds s w :
  idle_ok items s w → settled s → run_ok items (Shutdown :: cmds) [Shutdown] [Ok tt] s w.
Proof. intros. split; [by exists cmds|by rewrite app_nil_r|done]. Qed.

Lemma rollout_writer_ok cmds items s w :
  idle_ok items s w →
  let x := rollout_writer to_string cmds s w in
  ∃ handled, run_ok items cmds handled (fst (fst x)) (snd (fst x)) (snd x).
Proof using Hjson Htail0.
  revert items s w. induction cmds as [|cmd cmds IH]; intros items s w Hok; cbn [rollout_writer].
  { exists []. by apply run_nil. }
  assert (∀ r s1 w1, is_barrier cmd = true → idle_ok items s1 w1 → (is_ok r = true → settled s1) →
    ∃ handled, run_ok items (cmd :: cmds) handled
      (r :: fst (fst (rollout_writer to_string cmds s1 w1)))
      (snd (fst (rollout_writer to_string cmds s1 w1))) (snd (rollout_writer to_string cmds s1 w1))) as Hreply.
  { intros r s1 w1 Hb H1 Hr. destruct (IH items s1 w1 H1) as [handled Hrun]. exists (cmd :: handled).
    eapply run_reply; [done..| |done]. by intros ->. }
  destruct cmd as [new| | |].
  - pose proof (flush_if_materialized_ok _ _ _ (add_items_ok items new s w Hok)) as H1.
    destruct (flush_if_materialized _ _ _) as [s1 w1].
    destruct (IH _ _ _ H1) as [handled [[rest [-> Hrest]] Hst Hset]]. exists (AddItems new :: handled). split.
    + exists rest. split; [done|]. intros Hne. destruct handled; [by specialize (Hrest Hne)|auto].
    + by rewrite <- app_assoc in Hst.
    + intros b. destruct handled; [by intros [= <-]|]. rewrite last_cons_cons. apply Hset.
  - destruct (write_pending_with_recovery_ok items s w Hok) as [H1 Q1].
    specialize (Hreply (fst (fst (persist to_string s w))) _ _ eq_refl H1 (λ H, or_introl (Q1 H))).
    unfold persist in *. cbv zeta. by destruct (rollout_writer _ cmds _ _) as [[acks s'] w'].
  - destruct (flush_ok items s w Hok) as [H1 Q1]. specialize (Hreply _ _ _ eq_refl H1 Q1).
    cbv zeta. by destruct (rollout_writer _ cmds _ _) as [[acks s'] w'].
  - destruct (flush_ok items s w Hok) as [H1 Q1]. change (shutdown to_string s w) with (flush to_string s w).
    specialize (Hreply _ _ _ eq_refl H1 Q1). destruct (flush to_string s w) as [[[[]|e] s1] w1]; cbn [fst snd] in *.
    + exists [Shutdown]. apply run_shutdown; auto.
    + cbv zeta. cbn [fst snd]. by destruct (rollout_writer _ cmds _ _) as [[acks s'] w'].
Qed.
End Log.
