(* ===== verification/RolloutRead.v ===== *)
(** * Reading back a rollout

    What a reader decodes from a file the writer has left: the items queued,
    in order and with consecutive ordinals, some perhaps twice; and the state
    of the ordinals a resumed session continues from. *)
From stdpp Require Import numbers strings.
From S2P Require Import Prelude RustStr Utf8 RolloutScan Rollout RolloutProofs.

(** [l'] is [l] with some elements repeated in place. *)
Inductive stutter {A} : list A → list A → Prop :=
  | stutter_nil : stutter [] []
  | stutter_once x l l' : stutter l l' → stutter (l ++ [x]) (l' ++ [x])
  | stutter_again x l l' : stutter (l ++ [x]) l' → stutter (l ++ [x]) (l' ++ [x]).

Lemma stutter_last {A} (l l' : list A) : stutter l l' → last l = last l'.
Proof. destruct 1; by rewrite ?last_snoc. Qed.

(** A line up to the state of the repository. *)
Definition logical_line {Git Body} (r : RolloutLine Git Body) : RolloutLine Git Body :=
  mkRolloutLine (ordinal r) (logical (item r)).

Section Read.
Context {Git Body J : Type} (to_string : str → option N → RolloutItem Git Body → result io_error bytes).
Context (from_slice : bytes → result J (RolloutLine Git Body)).

(** What the JSON library promises of the lines it writes: they are decoded to
    what was encoded, they are objects (so that a part of one is no JSON), and
    neither blank nor broken over lines. *)
Record JsonLaws : Prop := {
  json_line : lines_of_json to_string;
  json_decode t o it json : to_string t o it = Ok json → from_slice json = Ok (mkRolloutLine o it);
  json_torn t o it json n : to_string t o it = Ok json → n < length json → is_ok (from_slice (take n json)) = false;
  json_visible t o it json : to_string t o it = Ok json → forallb is_ascii_whitespace json = false;
}.

(** The records of a list of rows: blank rows and rows that are no records are
    passed over. *)
Definition record_of (row : bytes) : option (RolloutLine Git Body) :=
  if forallb is_ascii_whitespace row then None else ok (from_slice row).
Definition records (rows : list bytes) : list (RolloutLine Git Body) := omap record_of rows.

Context (start : RolloutOrdinalState) (Hjson : JsonLaws).
Implicit Types (items : list (RolloutItem Git Body)) (k : nat).

(** The record of each item, with its ordinal. *)
Definition ordinal_at k : option N := default None (ok (current (ordinals_at start k))).
Definition entries items : list (RolloutLine Git Body) :=
  imap (λ j it, mkRolloutLine (ordinal_at j) (logical it)) items.

Lemma records_app rows rows' : records (rows ++ rows') = records rows ++ records rows'.
Proof. apply omap_app. Qed.

(** A row for an item is a record of it when it is complete, and else none. *)
Lemma line_record items k json :
  line_for to_string start items k json →
  ∃ e, entries items !! k = Some e ∧ logical_line <$> record_of json = Some e.
Proof using Hjson.
  intros (it & it' & t & o & Hk & Hit & Ho & Hs). exists (mkRolloutLine o (logical it)). split.
  - unfold entries. rewrite list_lookup_imap, Hk. cbn. unfold ordinal_at. by rewrite Ho.
  - unfold record_of. rewrite (json_visible Hjson _ _ _ _ Hs), (json_decode Hjson _ _ _ _ Hs). cbn.
    unfold logical_line. cbn. by rewrite Hit.
Qed.

Lemma torn_record items k json n :
  line_for to_string start items k json → n < length json → record_of (take n json) = None.
Proof using Hjson.
  intros (it & it' & t & o & Hk & Hit & Ho & Hs) Hn. unfold record_of.
  pose proof (json_torn Hjson _ _ _ _ n Hs Hn). destruct (forallb _ _); [done|]. by destruct (from_slice _).
Qed.

(** The records of the file are the committed items, or these and the next. *)
Lemma log_records items rows k :
  rows_log to_string start [] [] items rows k →
  stutter (take k (entries items)) (logical_line <$> records rows) ∨
  stutter (take (S k) (entries items)) (logical_line <$> records rows).
Proof using Hjson.
  induction 1 as [| |rows k json Hlog IH Hline|rows k json n Hlog IH Hline].
  - left. constructor.
  - left. cbn. constructor.
  - destruct (line_record _ _ _ Hline) as (e & He & Hrec). left.
    rewrite records_app, fmap_app. cbn. destruct (record_of json) as [r|]; [|done].
    injection Hrec as <-. cbn. rewrite (take_S_r _ _ _ He) in *.
    destruct IH; [by apply stutter_once|by apply stutter_again].
  - rewrite records_app, fmap_app. cbn. destruct (decide (n < length json)).
    { rewrite (torn_record items k) by done. cbn. by rewrite app_nil_r. }
    rewrite (take_ge json) by lia.
    destruct (line_record _ _ _ Hline) as (e & He & Hrec). destruct (record_of json) as [r|]; [|done].
    injection Hrec as <-. cbn. right. rewrite (take_S_r _ _ _ He) in *.
    destruct IH; [by apply stutter_once|by apply stutter_again].
Qed.

(** The rows of a file. *)
Lemma split_unlines rows tail : Forall (λ r, LF ∉ r) rows → LF ∉ tail → split LF (unlines rows ++ tail) = rows ++ [tail].
Proof.
  intros Hr Ht. induction Hr as [|r rows Hr _ IH]; [cbn; by rewrite split_no_sep|].
  unfold unlines in *. cbn. rewrite <- !app_assoc. cbn [app]. rewrite split_app by done. by rewrite IH.
Qed.

Lemma log_no_LF items rows k : rows_log to_string start [] [] items rows k → Forall (λ r, LF ∉ r) rows.
Proof using Hjson.
  induction 1 as [| |rows k json Hlog IH Hline|rows k json n Hlog IH Hline]; [constructor|repeat constructor; set_solver| |];
    apply Forall_app; (split; [done|]); apply Forall_singleton; eapply line_for_no_LF in Hline; try apply Hjson;
    [done|]. intros Hin. by apply elem_of_take_inv in Hin.
Qed.

Lemma file_records items k open f :
  logged to_string start [] [] items k open f →
  stutter (take k (entries items)) (logical_line <$> records (split LF f)) ∨
  stutter (take (S k) (entries items)) (logical_line <$> records (split LF f)).
Proof using Hjson.
  intros (rows & tail & -> & Hr & _ & Ht).
  assert (rows_log to_string start [] [] items (rows ++ [tail]) k ∨ tail = []) as [Hlog| ->].
  { destruct Ht as [->|[(-> & -> & ->)|(json & n & Hl & ->)]]; [by right|by right|left; by constructor]. }
  - pose proof (log_no_LF _ _ _ Hlog) as [Hrows Ht1]%Forall_app. rewrite Forall_singleton in Ht1.
    rewrite split_unlines by done. by apply log_records.
  - rewrite split_unlines by first [by eapply log_no_LF | set_solver].
    rewrite records_app. cbn. rewrite app_nil_r. by apply log_records.
Qed.
End Read.

(** ** The last record *)

Section Resume.
Context {Git Body J : Type} (from_slice : bytes → result J (RolloutLine Git Body)) (show : J → str) (path : str).
Context (chunk_size : nat) (read_at : nat → nat → result io_error bytes) (f : bytes).
Context (chunk_pos : 0 < chunk_size) (Hread : reads_file read_at f).

(** The newest of the outcomes that is a record. *)
Definition parsed (o : ScanOutcome J (RolloutLine Git Body)) : option (RolloutLine Git Body) :=
  match o with Parsed r => Some r | Rejected _ => None end.

Lemma last_record_spec calls s :
  scanner_ok f s → length (remaining from_slice f s) < calls →
  last_record from_slice chunk_size path calls read_at s =
    Some (ok_or (head (omap parsed (remaining from_slice f s))) (no_valid_records path)).
Proof using chunk_pos Hread.
  revert s. induction calls as [|calls IH]; intros s Hs Hlt; [lia|]. cbn [last_record].
  destruct (scan_loop_ok from_slice f chunk_size read_at chunk_pos Hread (S (next_chunk_end s + chunk_position s)) s Hs ltac:(lia))
    as (s' & E & Ht & Hok & _).
  unfold scan_next. rewrite E. destruct (remaining from_slice f s) as [|[r|e] rest]; [done..|]. cbn [head tail] in *.
  rewrite IH, Ht; [done..|]. rewrite Ht. cbn in Hlt. lia.
Qed.

Lemma parsed_records rows :
  omap parsed (omap (yields from_slice None) rows) = records from_slice rows.
Proof.
  induction rows as [|r rows IH]; [done|]. cbn [omap list_omap records].
  unfold yields at 1, record_of, outcome_of. cbn [fits].
  destruct (forallb _ r); [done|]. cbn. destruct (from_slice r); cbn; by rewrite IH.
Qed.

Lemma records_reverse rows : records from_slice (reverse rows) = reverse (records from_slice rows).
Proof.
  induction rows as [|r rows IH]; [done|]. rewrite reverse_cons, records_app, IH.
  unfold records. cbn [omap list_omap].
  destruct (record_of from_slice r); [by rewrite reverse_cons|by rewrite app_nil_r].
Qed.

(** The state of the ordinals is read off the last record of the file. *)
Lemma ordinal_state_spec calls start_ordinal :
  read_history_metadata from_slice show path f = Ok (Some (PaginatedMode, start_ordinal)) →
  length (split LF f) < calls →
  ordinal_state_for_rollout from_slice show chunk_size path calls read_at f =
    Some (let? r := ok_or (last (records from_slice (split LF f))) (no_valid_records path) in
          check_last_record path start_ordinal r).
Proof using chunk_pos Hread.
  intros Hmeta Hcalls. unfold ordinal_state_for_rollout, new, new_at. rewrite Hmeta, bool_decide_eq_false_2 by lia.
  set (s := mkScanner _ _ _ _ _ _).
  assert (scanner_ok f s) as Hok by (split; cbn; [done|set_solver|done..]).
  assert (remaining from_slice f s = omap (yields from_slice None) (reverse (split LF f))) as Hrem.
  { unfold remaining, pending, unread, s. cbn. by rewrite !app_nil_r, firstn_all. }
  rewrite last_record_spec; [|done|].
  - rewrite Hrem, parsed_records, records_reverse, head_reverse. by destruct (last _).
  - rewrite Hrem. pose proof (length_omap_le (yields from_slice None) (reverse (split LF f))) as Hle.
    rewrite length_reverse in Hle. lia.
Qed.
End Resume.

(** A concrete encoding, for examples: an object whose digits are a number that
    encodes the line. *)
Module DigitJson.
Definition line_code (o : option N) (it : RolloutItem unit N) : positive :=
  countable.encode (o, match it with
             | SessionMetaItem m g => inl (bool_decide (history_mode m = PaginatedMode), subagent_history_start_ordinal m, other_fields m, g)
             | OtherItem b => inr b
             end).
Definition line_decode (p : positive) : option (RolloutLine unit N) :=
  x ← countable.decode (A := option N * (bool * option N * N * option unit + N)) p;
  Some (mkRolloutLine (fst x)
    (match snd x with
     | inl (pg, so, b, g) => SessionMetaItem (mkSessionMeta (if pg : bool then PaginatedMode else LegacyMode) so b) g
     | inr b => OtherItem b
     end)).
Fixpoint digits (p : positive) : bytes :=
  match p with xH => [] | xO p => 48%N :: digits p | xI p => 49%N :: digits p end.
Fixpoint undigits (l : bytes) : positive :=
  match l with [] => xH | d :: l => if (d =? 48)%N then xO (undigits l) else xI (undigits l) end.
Definition to_string (t : str) (o : option N) (it : RolloutItem unit N) : result io_error bytes :=
  Ok (123%N :: digits (line_code o it) ++ [125%N]).
Definition from_slice (l : bytes) : result unit (RolloutLine unit N) :=
  match last l with
  | Some 125%N => match line_decode (undigits (tail (removelast l))) with Some r => Ok r | None => Err tt end
  | _ => Err tt
  end.

Lemma undigits_digits p : undigits (digits p) = p.
Proof. induction p; cbn; by rewrite ?IHp. Qed.

Lemma digits_range p x : x ∈ digits p → x = 48%N ∨ x = 49%N.
Proof. induction p; cbn; rewrite ?elem_of_cons; set_solver. Qed.

Lemma line_decode_code o it : line_decode (line_code o it) = Some (mkRolloutLine o it).
Proof. unfold line_decode, line_code. rewrite decode_encode. cbn. by destruct it as [[[] ? ?] ?|]. Qed.

Lemma laws : JsonLaws to_string from_slice.
Proof.
  split.
  - intros t o it json [= <-]. rewrite elem_of_cons, elem_of_app. unfold LF.
    intros [|[?%digits_range|?%list_elem_of_singleton]]; [done|lia|done].
  - intros t o it json [= <-]. unfold from_slice.
    rewrite app_comm_cons, last_snoc, removelast_last. cbn [tail].
    by rewrite undigits_digits, line_decode_code.
  - intros t o it json n [= <-] Hn. unfold from_slice.
    rewrite app_comm_cons, take_app_le by (cbn [length] in *; rewrite length_app in Hn; cbn in *; lia).
    destruct (last _) as [x|] eqn:E; [|done].
    apply last_Some_elem_of in E. apply elem_of_take_inv in E.
    assert (x = 123 ∨ x = 48 ∨ x = 49)%N as [->|[->| ->]]; [|done..].
    apply elem_of_cons in E as [|?%digits_range]; tauto.
  - by intros t o it json [= <-].
Qed.
End DigitJson.

(** ** The properties *)

Section Properties.
Context {Git Body J : Type} (to_string : str → option N → RolloutItem Git Body → result io_error bytes).
Context (from_slice : bytes → result J (RolloutLine Git Body)).

(** The items of a new session: its metadata, then what the commands queue. *)
Definition session_items (m : SessionMeta Body) (cmds : list (RolloutCmd Git Body)) : list (RolloutItem Git Body) :=
  SessionMetaItem m None :: items_of cmds.

Lemma new_writer_ok start m history_base (w : World Git) :
  start = for_new_rollout (history_mode m) history_base → file w = [] →
  idle_ok to_string start [] [] [SessionMetaItem m None] (new_writer m history_base) w.
Proof.
  intros -> Hw. exists 0. split_and!; [|cbn; lia|done..|by right].
  exists [], []. rewrite Hw. split_and!; [done|constructor|done|by left].
Qed.

(** All items are committed when the queue is settled. *)
Lemma settled_committed start m cmds s w :
  idle_ok to_string start [] [] (session_items m cmds) s w → settled s →
  (∃ open, logged to_string start [] [] (session_items m cmds) (length (session_items m cmds)) open (file w)) ∧
    ordinal_state s = ordinals_at start (length (session_items m cmds)) ∨
  items_of cmds = [].
Proof.
  intros (k & Hlog & Hk & Hq & Ho & Hm) Hs. pose proof (f_equal length Hq) as Hl.
  rewrite !length_fmap, length_drop in Hl.
  assert (queue s = [] ∨ (k = 0 ∧ length (queue s) ≤ 1)) as [Hnil|[-> Hone]].
  { destruct Hs as [|[_ Hp]]; [by left|]. unfold queue. rewrite Hp, app_nil_r.
    destruct Hm as [->|Hk0]; [by left|]. right. split; [done|]. destruct (meta s); cbn; lia. }
  - left. rewrite Hnil in Hl. cbn [length] in Hl.
    replace (length (session_items m cmds)) with k by lia. by eauto.
  - right. apply nil_length_inv. cbn in Hl. unfold session_items in *. cbn in *. lia.
Qed.

Lemma new_run (Hjson : JsonLaws to_string from_slice) m history_base (ans : list (Answer Git)) cmds :
  let start := for_new_rollout (history_mode m) history_base in
  let x := rollout_writer to_string cmds (new_writer m history_base) (mkWorld [] ans) in
  ∃ handled, run_ok to_string start [] [] [SessionMetaItem m None] cmds handled (fst (fst x)) (snd (fst x)) (snd x).
Proof.
  intros start. apply rollout_writer_ok; [apply (json_line _ _ Hjson)|by apply not_elem_of_nil|by apply new_writer_ok].
Qed.

(** After an acknowledged barrier everything is committed. *)
Lemma acknowledged_run (Hjson : JsonLaws to_string from_slice) m history_base (ans : list (Answer Git)) cmds barrier :
  Shutdown ∉ cmds → is_barrier barrier = true → items_of cmds ≠ [] →
  let start := for_new_rollout (history_mode m) history_base in
  let x := rollout_writer to_string (cmds ++ [barrier]) (new_writer m history_base) (mkWorld [] ans) in
  last (fst (fst x)) = Some (Ok tt) →
  (∃ open, logged to_string start [] [] (session_items m cmds) (length (session_items m cmds)) open (file (snd x))) ∧
  ordinal_state (snd (fst x)) = ordinals_at start (length (session_items m cmds)).
Proof.
  intros Hsd Hb Hne start x Hack.
  destruct (new_run Hjson m history_base ans (cmds ++ [barrier])) as (handled & [(rest & Hcmds & Hrest) Hst Hset]).
  fold x start in Hst, Hset, Hack.
  assert (handled = cmds ++ [barrier]) as ->.
  { destruct (list_snoc_cases rest) as [->|(rest' & c & ->)]; [by rewrite app_nil_r in Hcmds|].
    destruct Hsd. rewrite app_assoc in Hcmds. apply app_inj_tail in Hcmds as [-> _].
    apply elem_of_app. left. apply last_Some_elem_of, Hrest. by destruct rest'. }
  assert (items_of (cmds ++ [barrier]) = items_of cmds) as Hitems.
  { unfold items_of. rewrite bind_app. cbn. by destruct barrier; rewrite ?app_nil_r. }
  rewrite Hitems in Hst. change (_ ++ items_of cmds) with (session_items m cmds) in Hst.
  destruct (Hset barrier) as [_ Hs]; [by rewrite last_snoc|done|].
  by destruct (settled_committed _ _ _ _ _ Hst (Hs Hack)) as [|].
Qed.

(** C5: whatever commands a session sends and whichever operations on its file
    fail, in the middle of a line too, the file decodes at any time to the
    first items of the session in order, the rest being still queued; each
    carries its ordinal, the next free one is remembered, and a failed attempt
    can at most repeat a record in its place. *)
Theorem rollout_file_is_log (Hjson : JsonLaws to_string from_slice) (m : SessionMeta Body)
    (history_base : option HistoryPosition) (answers : list (Answer Git)) (cmds : list (RolloutCmd Git Body)) :
  let start := for_new_rollout (history_mode m) history_base in
  let '(acks, s, w) := rollout_writer to_string cmds (new_writer m history_base) (mkWorld [] answers) in
  ∃ handled rest k k', cmds = handled ++ rest ∧ (rest ≠ [] → last handled = Some Shutdown) ∧
    logical <$> queue s = logical <$> drop k (session_items m handled) ∧
    ordinal_state s = ordinals_at start k ∧ (k' = k ∨ k' = S k) ∧
    stutter (take k' (entries start (session_items m handled))) (logical_line <$> records from_slice (split LF (file w))).
Proof.
  intros start. destruct (new_run Hjson m history_base answers cmds) as (handled & Hrun). fold start in Hrun.
  destruct (rollout_writer _ _ _ _) as [[acks s] w]. cbn [fst snd] in Hrun.
  destruct Hrun as [(rest & Hcmds & Hrest) (k & Hlog & Hk & Hq & Ho & _) _].
  destruct (file_records to_string from_slice start Hjson _ _ _ _ Hlog) as [Hst|Hst];
    [exists handled, rest, k, k|exists handled, rest, k, (S k)]; split_and!; eauto.
Qed.

(** C27: once a barrier (persist, flush or shutdown) is acknowledged, every item
    sent before it is in the file, in order, with its ordinal. *)
Theorem acknowledged_items_are_durable (Hjson : JsonLaws to_string from_slice) (m : SessionMeta Body)
    (history_base : option HistoryPosition) (answers : list (Answer Git)) (cmds : list (RolloutCmd Git Body))
    (barrier : RolloutCmd Git Body) (Hshutdown : Shutdown ∉ cmds)
    (Hbarrier : is_barrier barrier = true) (Hitems : items_of cmds ≠ []) :
  let start := for_new_rollout (history_mode m) history_base in
  let '(acks, s, w) := rollout_writer to_string (cmds ++ [barrier]) (new_writer m history_base) (mkWorld [] answers) in
  last acks = Some (Ok tt) →
  stutter (entries start (session_items m cmds)) (logical_line <$> records from_slice (split LF (file w))).
Proof.
  intros start. pose proof (acknowledged_run Hjson m history_base answers cmds barrier Hshutdown Hbarrier Hitems) as Hrun.
  destruct (rollout_writer _ _ _ _) as [[acks s] w]. cbn [fst snd] in Hrun.
  intros Hack. destruct (Hrun Hack) as [[open Hlog] _].
  apply (file_records to_string from_slice _ Hjson) in Hlog.
  rewrite !take_ge in Hlog by (unfold entries; rewrite length_imap; lia). by destruct Hlog.
Qed.

(** ** Resuming *)

Lemma rows_log_current start rows0 tail0 items rows j :
  rows_log to_string start rows0 tail0 items rows (S j) → ∃ o, current (ordinals_at start j) = Ok o.
Proof.
  intros Hlog. remember (S j) as k eqn:Ek. induction Hlog as [| |rows k json _ _ (? & ? & ? & o & _ & _ & Ho & _)|]; [done..| |auto].
  injection Ek as <-. by exists o.
Qed.

Lemma ordinals_at_paginated b j n : ordinals_at (Paginated (Some b)) j = Paginated (Some n) → n = (b + N.of_nat j)%N.
Proof.
  revert n. induction j as [|j IH]; intros n; [intros [= <-]; lia|].
  change (ordinals_at _ (S j)) with (advance (ordinals_at (Paginated (Some b)) j)).
  destruct (ordinals_at (Paginated (Some b)) j) as [|[n'|]]; [done| |done].
  rewrite (IH n') by done. cbn. unfold u64_checked_add. destruct (_ <=? _)%N; [|done]. intros [= <-]. lia.
Qed.

Lemma ordinals_at_mode next j : ∃ next', ordinals_at (Paginated next) j = Paginated next'.
Proof.
  induction j as [|j [next' IH]]; [by exists next|].
  change (ordinals_at _ (S j)) with (advance (ordinals_at (Paginated next) j)). rewrite IH.
  destruct next'; by eexists.
Qed.
(** The first ordinal of a new rollout. *)
Definition first_ordinal (history_base : option HistoryPosition) : N :=
  match history_base with Some base => end_ordinal_exclusive base | None => 0%N end.

(** The last record determines the state of the ordinals. *)
Lemma check_last_record_ok path b j start_ordinal (r : RolloutLine Git Body) o :
  current (ordinals_at (Paginated (Some b)) j) = Ok o → ordinal r = o →
  (∀ n, start_ordinal = Some n → (n ≤ b + N.of_nat (S j))%N) →
  check_last_record path start_ordinal r = Ok (ordinals_at (Paginated (Some b)) (S j)).
Proof.
  intros Ho Hr Hpre.
  change (ordinals_at _ (S j)) with (advance (ordinals_at (Paginated (Some b)) j)).
  destruct (ordinals_at_mode (Some b) j) as [[n|] Ej]; rewrite Ej in *; [|done].
  apply ordinals_at_paginated in Ej as ->. injection Ho as <-. unfold check_last_record. rewrite Hr. cbn.
  destruct start_ordinal as [n|]; cbn; [|done]. specialize (Hpre n eq_refl).
  unfold u64_checked_sub. destruct (_ <=? n)%N; [|done].
  assert ((b + N.of_nat j <? n - 1)%N = false) as -> by (apply N.ltb_ge; lia). done.
Qed.

Lemma last_entries start items it :
  last items = Some it →
  last (entries (Git := Git) (Body := Body) start items) =
    Some (mkRolloutLine (ordinal_at start (length items - 1)) (logical it)).
Proof.
  rewrite !last_lookup. unfold entries. rewrite length_imap, list_lookup_imap, Nat.sub_1_r. by intros ->.
Qed.

(** A session that reopens a paginated rollout whose items were acknowledged
    continues with exactly the ordinal the writer would have used next; the
    metadata must be readable and the inherited prefix complete. *)
Theorem resume_continues_ordinals (Hjson : JsonLaws to_string from_slice) (m : SessionMeta Body)
    (history_base : option HistoryPosition) (answers : list (Answer Git)) (cmds : list (RolloutCmd Git Body))
    (barrier : RolloutCmd Git Body) (show : J → str) (path : str) (chunk_size : nat) (start_ordinal : option N)
    (Hshutdown : Shutdown ∉ cmds) (Hbarrier : is_barrier barrier = true) (Hitems : items_of cmds ≠ [])
    (Hmode : history_mode m = PaginatedMode) (Hsize : 0 < chunk_size)
    (Hprefix : ∀ n, start_ordinal = Some n →
       (n ≤ first_ordinal history_base + N.of_nat (length (session_items m cmds)))%N) :
  let '(acks, s, w) := rollout_writer to_string (cmds ++ [barrier]) (new_writer m history_base) (mkWorld [] answers) in
  last acks = Some (Ok tt) →
  read_history_metadata from_slice show path (file w) = Ok (Some (PaginatedMode, start_ordinal)) →
  ordinal_state_for_rollout from_slice show chunk_size path (S (length (split LF (file w)))) (mem_read (file w)) (file w) =
    Some (Ok (ordinal_state s)).
Proof.
  pose proof (acknowledged_run Hjson m history_base answers cmds barrier Hshutdown Hbarrier Hitems) as Hrun.
  destruct (rollout_writer _ _ _ _) as [[acks s] w]. cbn [fst snd] in Hrun.
  intros Hack Hmeta. destruct (Hrun Hack) as [[open Hlog] ->]. clear Hrun.
  rewrite (ordinal_state_spec from_slice show path chunk_size (mem_read (file w)) (file w) Hsize (λ _ _ _, eq_refl) _
             start_ordinal Hmeta (Nat.lt_succ_diag_r _)). f_equal.
  pose proof Hlog as (rows & tail & _ & Hr & _). cbn [session_items length] in Hr.
  destruct (rows_log_current _ _ _ _ _ _ Hr) as [o Ho]. clear Hr.
  apply (file_records to_string from_slice _ Hjson) in Hlog.
  rewrite !take_ge in Hlog by (unfold entries; rewrite length_imap; lia).
  assert (last (entries (for_new_rollout (history_mode m) history_base) (session_items m cmds)) =
          last (logical_line <$> records from_slice (split LF (file w)))) as Hlast
    by (by destruct Hlog as [?%stutter_last|?%stutter_last]).
  destruct (last (session_items m cmds)) as [it|] eqn:Eit; [|by apply last_None in Eit].
  rewrite (last_entries _ _ it), fmap_last in Hlast by done.
  destruct (last (records _ _)) as [r|]; [|done]. cbn in Hlast |- *. injection Hlast as Hord _.
  unfold for_new_rollout in *. rewrite Hmode in *.
  eapply check_last_record_ok; [done| |done]. rewrite <- Hord. unfold ordinal_at. 
  cbn [length]. rewrite Nat.sub_0_r, Ho. done.
Qed.
End Properties.

(** ** Examples *)

(** A paginated session whose second write fails after two bytes. *)
Definition example_meta : SessionMeta N := mkSessionMeta PaginatedMode None 7%N.
Definition fine : Answer unit := mkAnswer [] None None.
Definition torn_after (n : nat) : Answer unit := mkAnswer [] None (Some (n, mkIo OtherKind (lit "disk full"))).
Definition example_cmds : list (RolloutCmd unit N) := [AddItems [OtherItem 1%N; OtherItem 2%N]].
Definition example_answers : list (Answer unit) := [fine; fine; fine; torn_after 2].

Lemma rollout_file_is_log_witness :
  let '(acks, s, w) := rollout_writer DigitJson.to_string (example_cmds ++ [Persist]) (new_writer example_meta None)
                         (mkWorld [] example_answers) in
  ∃ handled rest k k', example_cmds ++ [Persist] = handled ++ rest ∧ (rest ≠ [] → last handled = Some Shutdown) ∧
    logical <$> queue s = logical <$> drop k (session_items example_meta handled) ∧
    ordinal_state s = ordinals_at (Paginated (Some 0%N)) k ∧ (k' = k ∨ k' = S k) ∧
    stutter (take k' (entries (Paginated (Some 0%N)) (session_items example_meta handled)))
      (logical_line <$> records DigitJson.from_slice (split LF (file w))).
Proof.
  exact (rollout_file_is_log DigitJson.to_string DigitJson.from_slice DigitJson.laws example_meta None example_answers
    (example_cmds ++ [Persist])).
Defined.

Lemma acknowledged_items_are_durable_witness :
  let x := rollout_writer DigitJson.to_string (example_cmds ++ [Persist]) (new_writer example_meta None)
             (mkWorld [] example_answers) in
  fst (fst x) = [Ok tt] ∧
  stutter (entries (Paginated (Some 0%N)) (session_items example_meta example_cmds))
    (logical_line <$> records DigitJson.from_slice (split LF (file (snd x)))).
Proof.
  intros x. split; [by vm_compute|].
  apply (acknowledged_items_are_durable DigitJson.to_string DigitJson.from_slice DigitJson.laws example_meta None
    example_answers example_cmds Persist); [|done..|by vm_compute].
  unfold example_cmds. rewrite list_elem_of_singleton. done.
Defined.

Lemma resume_continues_ordinals_witness :
  let w := snd (rollout_writer DigitJson.to_string (example_cmds ++ [Flush]) (new_writer example_meta None)
             (mkWorld [] example_answers)) in
  ordinal_state_for_rollout DigitJson.from_slice (λ _, []) 5 [] (S (length (split LF (file w)))) (mem_read (file w)) (file w) =
    Some (Ok (Paginated (Some 3%N))).
Proof.
  apply (resume_continues_ordinals DigitJson.to_string DigitJson.from_slice DigitJson.laws example_meta None
    example_answers example_cmds Flush (λ _, []) [] 5 None); [|done..|lia|done|by vm_compute|by vm_compute].
  unfold example_cmds. rewrite list_elem_of_singleton. done.
Defined.

(** When the first write of the metadata fails part way, the retry puts the
    metadata on the second line; the persist is acknowledged and every item is
    in the file, but the rollout can no longer be opened for append. *)
Theorem torn_metadata_cannot_be_resumed :
  let '(acks, s, w) := rollout_writer DigitJson.to_string (example_cmds ++ [Persist]) (new_writer example_meta None)
                         (mkWorld [] [fine; fine; torn_after 2]) in
  acks = [Ok tt] ∧ queue s = [] ∧
  logical_line <$> records DigitJson.from_slice (split LF (file w)) =
    entries (Paginated (Some 0%N)) (session_items example_meta example_cmds) ∧
  ordinal_state_for_rollout DigitJson.from_slice (λ _, []) 5 [] 10 (mem_read (file w)) (file w) =
    Some (Err (parse_failed (λ _, []) [] tt)).
Proof. by vm_compute. Qed.
