(* ===== verification/History.v ===== *)
(** * Normalising the model's history ([core/src/context_manager/normalize.rs])

    Before the history of a session is sent to the model, every tool call gets
    an output, outputs without a call are dropped, and media the model cannot
    read are replaced.  The operations of [ContextManager] that use these
    passes ([history.rs]) are modelled with the fields of the items they read;
    the other fields are one value of a type [Rest]. *)
From stdpp Require Import numbers strings.
From S2P Require Import Prelude RustStr Utf8 Truncate.

(** ** Items ([protocol/src/models.rs]) *)

(** [InternalChatMessageMetadataPassthrough]. *)
Record Passthrough (Rest : Type) : Type := mkPass {
  content_item_kinds : option (list str);
  pass_rest : Rest;
}.
Arguments mkPass {Rest}.
Arguments content_item_kinds {Rest}.
Arguments pass_rest {Rest}.

(** The content of a message. *)
Inductive MessageContent (Rest : Type) : Type :=
  | MsgInputText (text : str)
  | MsgInputImage (image_url : str) (detail : Rest)
  | MsgInputAudio (audio_url : str)
  | MsgOutputText (text : str).
Arguments MsgInputText {Rest}.
Arguments MsgInputImage {Rest}.
Arguments MsgInputAudio {Rest}.
Arguments MsgOutputText {Rest}.

(** [FunctionCallOutputPayload]. *)
Record Payload (Rest : Type) : Type := mkPayload {
  body : OutputBody (detail := Rest);
  success : option bool;
}.
Arguments mkPayload {Rest}.
Arguments body {Rest}.
Arguments success {Rest}.

(** [ResponseItem].  [Unpaired] stands for the variants that no pass looks at
    (additional tools, agent messages, reasoning, web searches, compactions,
    others). *)
Inductive ResponseItem (Rest : Type) : Type :=
  | Message (id : option str) (role : str) (content : list (MessageContent Rest))
      (pass : option (Passthrough Rest)) (rest : Rest)
  | LocalShellCall (id call_id : option str) (rest : Rest)
  | FunctionCall (id : option str) (call_id : str) (rest : Rest)
  | ToolSearchCall (id call_id : option str) (rest : Rest)
  | CustomToolCall (id : option str) (call_id : str) (rest : Rest)
  | FunctionCallOutput (id call_id name namespace : option str) (output : Payload Rest) (pass : option (Passthrough Rest))
  | CustomToolCallOutput (id : option str) (call_id : str) (name : option str) (output : Payload Rest)
      (pass : option (Passthrough Rest))
  | ToolSearchOutput (id call_id : option str) (status execution : str) (tools : list Rest)
      (pass : option (Passthrough Rest))
  | ImageGenerationCall (id : option str) (result : str) (rest : Rest)
  | Unpaired (rest : Rest).
Arguments Message {Rest}.
Arguments LocalShellCall {Rest}.
Arguments FunctionCall {Rest}.
Arguments ToolSearchCall {Rest}.
Arguments CustomToolCall {Rest}.
Arguments FunctionCallOutput {Rest}.
Arguments CustomToolCallOutput {Rest}.
Arguments ToolSearchOutput {Rest}.
Arguments ImageGenerationCall {Rest}.
Arguments Unpaired {Rest}.

(** [ResponseItemEnvelope]. *)
Record Envelope (Rest : Type) : Type := mkEnvelope {
  item : ResponseItem Rest;
  metadata : option Rest;
}.
Arguments mkEnvelope {Rest}.
Arguments item {Rest}.
Arguments metadata {Rest}.

(** [InputModality]. *)
Inductive InputModality : Type := TextModality | ImageModality | AudioModality.
#[global] Instance InputModality_eq_dec : EqDecision InputModality.
Proof. solve_decision. Defined.

(** [Vec::insert] at an index within the vector; [Vec::remove]. *)
Definition insert_at {A} (i : nat) (x : A) (l : list A) : list A := take i l ++ x :: drop i l.
Definition remove_at {A} (i : nat) (l : list A) : list A := take i l ++ drop (S i) l.

(** [iter().position(p)]. *)
Fixpoint position {A} (p : A → bool) (l : list A) : option nat :=
  match l with
  | [] => None
  | x :: l => if p x then Some 0 else S <$> position p l
  end.

Section Normalize.
(** The name-based UUID of a namespace and a name; the default of the metadata
    fields; whether debug assertions are on, in which case [error_or_panic]
    panics. *)
Context {Rest : Type} (new_v5 : bytes → str) (rest_default : Rest) (debug_assertions : bool).
Implicit Types (e : Envelope Rest) (items : list (Envelope Rest)).

(** [synthetic_output_id]. *)
Definition synthetic_output_id (prefix : str) (item_id : option str) : option str :=
  match item_id with
  | None | Some [] => None
  | Some source_id => Some (prefix ++ lit "_" ++ new_v5 (encode (prefix ++ lit ":" ++ source_id)))
  end.

(** ** [ensure_call_outputs_present] *)

(** The ids of the outputs, per kind of tool. *)
Definition function_output_id e : option str :=
  match item e with FunctionCallOutput _ (Some call_id) _ _ _ _ => Some call_id | _ => None end.
Definition tool_search_output_id e : option str :=
  match item e with ToolSearchOutput _ (Some call_id) _ _ _ _ => Some call_id | _ => None end.
Definition custom_tool_output_id e : option str :=
  match item e with CustomToolCallOutput _ call_id _ _ _ => Some call_id | _ => None end.

(** [FunctionCallOutputPayload::from_text("aborted")], [ResponseItemEnvelope::new]. *)
Definition aborted : Payload Rest := mkPayload (BodyText (lit "aborted")) None.
Definition bare (i : ResponseItem Rest) : Envelope Rest := mkEnvelope i None.

(** The output an item lacks, with whether its absence is reported as an error. *)
Definition missing_output (fn search custom : gset str) e : option (bool * Envelope Rest) :=
  match item e with
  | FunctionCall id call_id _ =>
      if bool_decide (call_id ∈ fn) then None
      else Some (false, bare (FunctionCallOutput (synthetic_output_id (lit "fco") id) (Some call_id) None None aborted None))
  | ToolSearchCall id (Some call_id) _ =>
      if bool_decide (call_id ∈ search) then None
      else Some (false, bare (ToolSearchOutput (synthetic_output_id (lit "tso") id) (Some call_id) (lit "completed")
                               (lit "client") [] None))
  | CustomToolCall id call_id _ =>
      if bool_decide (call_id ∈ custom) then None
      else Some (true, bare (CustomToolCallOutput (synthetic_output_id (lit "ctco") id) call_id None aborted None))
  | LocalShellCall id (Some call_id) _ =>
      if bool_decide (call_id ∈ fn) then None
      else Some (true, bare (FunctionCallOutput (synthetic_output_id (lit "fco") id) (Some call_id) None None aborted None))
  | _ => None
  end.

(** [missing_outputs_to_insert]: the index of the call and the output. *)
Fixpoint missing_outputs (fn search custom : gset str) (idx : nat) items : list (nat * (bool * Envelope Rest)) :=
  match items with
  | [] => []
  | e :: items =>
      match missing_output fn search custom e with
      | Some out => [(idx, out)]
      | None => []
      end ++ missing_outputs fn search custom (S idx) items
  end.

(** [None] stands for a panic. *)
Definition ensure_call_outputs_present items : option (list (Envelope Rest)) :=
  let fn : gset str := list_to_set (omap function_output_id items) in
  let search : gset str := list_to_set (omap tool_search_output_id items) in
  let custom : gset str := list_to_set (omap custom_tool_output_id items) in
  let missing := missing_outputs fn search custom 0 items in
  if debug_assertions && existsb (λ m, fst (snd m)) missing then None
  else Some (foldr (λ m items, insert_at (S (fst m)) (snd (snd m)) items) items missing).

(** ** [remove_orphan_outputs] *)

Definition function_call_id e : option str :=
  match item e with
  | FunctionCall _ call_id _ | LocalShellCall _ (Some call_id) _ => Some call_id
  | _ => None
  end.
Definition tool_search_call_id e : option str :=
  match item e with ToolSearchCall _ (Some call_id) _ => Some call_id | _ => None end.
Definition custom_tool_call_id e : option str :=
  match item e with CustomToolCall _ call_id _ => Some call_id | _ => None end.

Definition is_orphan (fn search custom : gset str) e : bool :=
  match item e with
  | FunctionCallOutput _ (Some call_id) _ _ _ _ => negb (bool_decide (call_id ∈ fn))
  | CustomToolCallOutput _ call_id _ _ _ => negb (bool_decide (call_id ∈ custom))
  | ToolSearchOutput _ (Some call_id) _ execution _ _ =>
      negb (str_eqb execution (lit "server")) && negb (bool_decide (call_id ∈ search))
  | _ => false
  end.
Fixpoint orphan_positions (fn search custom : gset str) (pos : nat) items : list nat :=
  match items with
  | [] => []
  | e :: items =>
      (if is_orphan fn search custom e then [pos] else []) ++ orphan_positions fn search custom (S pos) items
  end.

(** [items.retain(..)] with the peekable iterator over the orphans. *)
Fixpoint retain_others (orphans : list nat) (pos : nat) items : list (Envelope Rest) :=
  match items with
  | [] => []
  | e :: items =>
      match orphans with
      | o :: orphans' =>
          if (o =? pos)%nat then retain_others orphans' (S pos) items
          else e :: retain_others orphans (S pos) items
      | [] => e :: retain_others orphans (S pos) items
      end
  end.
Definition remove_orphan_outputs items : option (list (Envelope Rest)) :=
  let fn : gset str := list_to_set (omap function_call_id items) in
  let search : gset str := list_to_set (omap tool_search_call_id items) in
  let custom : gset str := list_to_set (omap custom_tool_call_id items) in
  let orphans := orphan_positions fn search custom 0 items in
  match orphans with
  | [] => Some items
  | _ => if debug_assertions then None else Some (retain_others orphans 0 items)
  end.

(** ** [remove_corresponding_for] *)

Definition remove_first_matching items (predicate : ResponseItem Rest → bool) : list (Envelope Rest) :=
  match position (λ e, predicate (item e)) items with
  | Some pos => remove_at pos items
  | None => items
  end.

Definition is_function_output (call_id : str) (i : ResponseItem Rest) : bool :=
  match i with FunctionCallOutput _ (Some existing) _ _ _ _ => str_eqb existing call_id | _ => false end.
Definition is_function_call (call_id : str) (i : ResponseItem Rest) : bool :=
  match i with FunctionCall _ existing _ => str_eqb existing call_id | _ => false end.
Definition is_local_shell_call (call_id : str) (i : ResponseItem Rest) : bool :=
  match i with LocalShellCall _ (Some existing) _ => str_eqb existing call_id | _ => false end.
Definition is_search_output (call_id : str) (i : ResponseItem Rest) : bool :=
  match i with ToolSearchOutput _ (Some existing) _ _ _ _ => str_eqb existing call_id | _ => false end.
Definition is_search_call (call_id : str) (i : ResponseItem Rest) : bool :=
  match i with ToolSearchCall _ (Some existing) _ => str_eqb existing call_id | _ => false end.
Definition is_custom_output (call_id : str) (i : ResponseItem Rest) : bool :=
  match i with CustomToolCallOutput _ existing _ _ _ => str_eqb existing call_id | _ => false end.
Definition is_custom_call (call_id : str) (i : ResponseItem Rest) : bool :=
  match i with CustomToolCall _ existing _ => str_eqb existing call_id | _ => false end.

Definition remove_corresponding_for items (i : ResponseItem Rest) : list (Envelope Rest) :=
  match i with
  | FunctionCall _ call_id _ => remove_first_matching items (is_function_output call_id)
  | FunctionCallOutput _ (Some call_id) _ _ _ _ =>
      match position (λ e, is_function_call call_id (item e)) items with
      | Some pos => remove_at pos items
      | None => remove_first_matching items (is_local_shell_call call_id)
      end
  | ToolSearchCall _ (Some call_id) _ => remove_first_matching items (is_search_output call_id)
  | ToolSearchOutput _ (Some call_id) _ _ _ _ => remove_first_matching items (is_search_call call_id)
  | CustomToolCall _ call_id _ => remove_first_matching items (is_custom_output call_id)
  | CustomToolCallOutput _ call_id _ _ _ => remove_first_matching items (is_custom_call call_id)
  | LocalShellCall _ (Some call_id) _ => remove_first_matching items (is_function_output call_id)
  | _ => items
  end.

(** ** Media the model cannot read *)

(** [UnsupportedMedia]: text and kind. *)
Definition UNSUPPORTED_IMAGE : str * str :=
  (lit "image content omitted because you do not support image input", lit "images.unsupported").
Definition UNSUPPORTED_AUDIO : str * str :=
  (lit "audio content omitted because you do not support audio input", lit "audio.unsupported").

(** [to_annotated_content]: kinds that are missing are unknown. *)
Fixpoint zip_kinds (content : list (MessageContent Rest)) (kinds : list str) : list (MessageContent Rest * str) :=
  match content, kinds with
  | [], _ => []
  | c :: content, k :: kinds => (c, k) :: zip_kinds content kinds
  | c :: content, [] => (c, lit "unknown") :: zip_kinds content []
  end.
Definition to_annotated_content (content : list (MessageContent Rest)) (pass : option (Passthrough Rest)) :
    list (MessageContent Rest * str) :=
  zip_kinds content (default [] (pass ≫= content_item_kinds)).

(** [set_annotated_content]: the content and the metadata of the message. *)
Definition set_kinds (pass : option (Passthrough Rest)) (kinds : list str) : option (Passthrough Rest) :=
  Some (mkPass (Some kinds) (match pass with Some p => pass_rest p | None => rest_default end)).

(** Replaces the parts of a message and of an output that [media] selects. *)
Definition strip_message (media : MessageContent Rest → bool) (placeholder : str * str)
    (content : list (MessageContent Rest)) (pass : option (Passthrough Rest)) :
    list (MessageContent Rest) * option (Passthrough Rest) :=
  let annotated := (λ '(c, k), if media c then (MsgInputText (fst placeholder), snd placeholder) else (c, k))
                     <$> to_annotated_content content pass in
  (fst <$> annotated, set_kinds pass (snd <$> annotated)).
Definition strip_payload (media : ContentItem Rest → bool) (placeholder : str * str) (p : Payload Rest) : Payload Rest :=
  match body p with
  | BodyItems content => mkPayload (BodyItems ((λ c, if media c then InputText (fst placeholder) else c) <$> content)) (success p)
  | BodyText _ => p
  end.
Definition is_msg_image (c : MessageContent Rest) : bool := match c with MsgInputImage _ _ => true | _ => false end.
Definition is_msg_audio (c : MessageContent Rest) : bool := match c with MsgInputAudio _ => true | _ => false end.
Definition is_image (c : ContentItem Rest) : bool := match c with InputImage _ _ => true | _ => false end.
Definition is_audio (c : ContentItem Rest) : bool := match c with InputAudio _ => true | _ => false end.

(** [strip_images_when_unsupported] and [strip_audio_when_unsupported]. *)
Definition strip_image (i : ResponseItem Rest) : ResponseItem Rest :=
  match i with
  | Message id role content pass rest =>
      let '(content, pass) := strip_message is_msg_image UNSUPPORTED_IMAGE content pass in Message id role content pass rest
  | FunctionCallOutput id call_id name namespace output pass =>
      FunctionCallOutput id call_id name namespace (strip_payload is_image UNSUPPORTED_IMAGE output) pass
  | CustomToolCallOutput id call_id name output pass =>
      CustomToolCallOutput id call_id name (strip_payload is_image UNSUPPORTED_IMAGE output) pass
  | ImageGenerationCall id _ rest => ImageGenerationCall id [] rest
  | i => i
  end.
Definition strip_audio (i : ResponseItem Rest) : ResponseItem Rest :=
  match i with
  | Message id role content pass rest =>
      let '(content, pass) := strip_message is_msg_audio UNSUPPORTED_AUDIO content pass in Message id role content pass rest
  | FunctionCallOutput id call_id name namespace output pass =>
      FunctionCallOutput id call_id name namespace (strip_payload is_audio UNSUPPORTED_AUDIO output) pass
  | CustomToolCallOutput id call_id name output pass =>
      CustomToolCallOutput id call_id name (strip_payload is_audio UNSUPPORTED_AUDIO output) pass
  | i => i
  end.
Definition on_item (f : ResponseItem Rest → ResponseItem Rest) e : Envelope Rest := mkEnvelope (f (item e)) (metadata e).
Definition strip_images_when_unsupported (modalities : list InputModality) items : list (Envelope Rest) :=
  if bool_decide (ImageModality ∈ modalities) then items else on_item strip_image <$> items.
Definition strip_audio_when_unsupported (modalities : list InputModality) items : list (Envelope Rest) :=
  if bool_decide (AudioModality ∈ modalities) then items else on_item strip_audio <$> items.

(** [normalize_history] and [remove_first_item], on the items of a
    [ContextManager]. *)
Definition normalize_history (modalities : list InputModality) items : option (list (Envelope Rest)) :=
  items ← ensure_call_outputs_present items;
  items ← remove_orphan_outputs items;
  Some (strip_audio_when_unsupported modalities (strip_images_when_unsupported modalities items)).
Definition remove_first_item items : list (Envelope Rest) :=
  match items with
  | [] => []
  | removed :: items => remove_corresponding_for items (item removed)
  end.
End Normalize.
