(* ===== verification/HistoryProofs.v ===== *)
(** * Calls and outputs of a normalised history *)
From stdpp Require Import numbers strings.
From S2P Require Import Prelude RustStr Utf8 Truncate History.

(** The tool a call or an output belongs to. *)
Inductive ToolKind : Type := FunctionTool | SearchTool | CustomTool.
#[global] Instance ToolKind_eq_dec : EqDecision ToolKind.
Proof. solve_decision. Defined.

Section Pairing.
Context {Rest : Type}.
Implicit Types (e : Envelope Rest) (items : list (Envelope Rest)).

(** What a call asks for and what an output answers. *)
Definition call_key e : option (ToolKind * str) :=
  match item e with
  | FunctionCall _ c _ | LocalShellCall _ (Some c) _ => Some (FunctionTool, c)
  | ToolSearchCall _ (Some c) _ => Some (SearchTool, c)
  | CustomToolCall _ c _ => Some (CustomTool, c)
  | _ => None
  end.
Definition output_key e : option (ToolKind * str) :=
  match item e with
  | FunctionCallOutput _ (Some c) _ _ _ _ => Some (FunctionTool, c)
  | ToolSearchOutput _ (Some c) _ _ _ _ => Some (SearchTool, c)
  | CustomToolCallOutput _ c _ _ _ => Some (CustomTool, c)
  | _ => None
  end.
(** Searches the server ran have no call of their own. *)
Definition server_side e : bool :=
  match item e with ToolSearchOutput _ _ _ execution _ _ => str_eqb execution (lit "server") | _ => false end.

Definition calls items : list (ToolKind * str) := omap call_key items.
Definition outputs items : list (ToolKind * str) := omap output_key items.

(** Every call with an id has an output; every output with an id has a call, but
    for searches the server ran. *)
Definition answered items : Prop := ∀ k, k ∈ calls items → k ∈ outputs items.
Definition asked items : Prop := ∀ e k, e ∈ items → output_key e = Some k → server_side e = false → k ∈ calls items.

Lemma key_set (f : Envelope Rest → option str) (g : Envelope Rest → option (ToolKind * str)) kind items c :
  (∀ e, f e = Some c ↔ g e = Some (kind, c)) →
  bool_decide (c ∈ (list_to_set (omap f items) : gset str)) = bool_decide ((kind, c) ∈ omap g items).
Proof.
  intros Hfg. apply bool_decide_ext. rewrite elem_of_list_to_set, !list_elem_of_omap.
  split; intros (e & He & Hk); exists e; (split; [done|by apply Hfg]).
Qed.

Ltac key_cases e := destruct e as [[] ?]; cbn;
  repeat match goal with |- context [match ?o with Some _ => _ | None => _ end] => is_var o; destruct o; cbn end;
  naive_solver.

Lemma function_output_key items c : bool_decide (c ∈ (list_to_set (omap function_output_id items) : gset str)) = bool_decide ((FunctionTool, c) ∈ outputs items).
Proof. apply key_set. intros e. unfold function_output_id, output_key. key_cases e. Qed.
Lemma search_output_key items c : bool_decide (c ∈ (list_to_set (omap tool_search_output_id items) : gset str)) = bool_decide ((SearchTool, c) ∈ outputs items).
Proof. apply key_set. intros e. unfold tool_search_output_id, output_key. key_cases e. Qed.
Lemma custom_output_key items c : bool_decide (c ∈ (list_to_set (omap custom_tool_output_id items) : gset str)) = bool_decide ((CustomTool, c) ∈ outputs items).
Proof. apply key_set. intros e. unfold custom_tool_output_id, output_key. key_cases e. Qed.
Lemma function_call_key items c : bool_decide (c ∈ (list_to_set (omap function_call_id items) : gset str)) = bool_decide ((FunctionTool, c) ∈ calls items).
Proof. apply key_set. intros e. unfold function_call_id, call_key. key_cases e. Qed.
Lemma search_call_key items c : bool_decide (c ∈ (list_to_set (omap tool_search_call_id items) : gset str)) = bool_decide ((SearchTool, c) ∈ calls items).
Proof. apply key_set. intros e. unfold tool_search_call_id, call_key. key_cases e. Qed.
Lemma custom_call_key items c : bool_decide (c ∈ (list_to_set (omap custom_tool_call_id items) : gset str)) = bool_decide ((CustomTool, c) ∈ calls items).
Proof. apply key_set. intros e. unfold custom_tool_call_id, call_key. key_cases e. Qed.

(** ** Orphans *)

Definition orphan_in items e : bool :=
  is_orphan (list_to_set (omap function_call_id items)) (list_to_set (omap tool_search_call_id items))
    (list_to_set (omap custom_tool_call_id items)) e.

Lemma orphan_in_spec items e :
  orphan_in items e = true ↔ ∃ k, output_key e = Some k ∧ k ∉ calls items ∧ server_side e = false.
Proof.
  unfold orphan_in, is_orphan, output_key, server_side.
  destruct e as [[] ?]; cbn; repeat match goal with |- context [match ?o with Some _ => _ | None => _ end] => is_var o; destruct o; cbn end;
    try (split; [done|naive_solver]); rewrite ?function_call_key, ?search_call_key, ?custom_call_key, ?andb_true_iff, !negb_true_iff,
      ?bool_decide_eq_false; naive_solver.
Qed.

Lemma orphan_positions_ge fn search custom pos items o :
  o ∈ orphan_positions (Rest := Rest) fn search custom pos items → pos ≤ o.
Proof.
  revert pos. induction items as [|e items IH]; intros pos; cbn; [by intros ?%elem_of_nil|].
  rewrite elem_of_app. intros [Ho|Ho%IH]; [|lia]. destruct (is_orphan _ _ _ e); [|by apply elem_of_nil in Ho].
  apply list_elem_of_singleton in Ho. lia.
Qed.

Lemma retain_others_filter fn search custom pos items :
  retain_others (orphan_positions fn search custom pos items) pos items =
  filter (λ e, is_orphan fn search custom e = false) items.
Proof.
  revert pos. induction items as [|e items IH]; intros pos; cbn [orphan_positions retain_others]; [done|].
  rewrite filter_cons. destruct (is_orphan fn search custom e) eqn:E; cbn [app].
  - rewrite Nat.eqb_refl, IH. by rewrite decide_False by congruence.
  - rewrite decide_True by done.
    destruct (orphan_positions fn search custom (S pos) items) as [|o os] eqn:Eo.
    + by rewrite <- (IH (S pos)), Eo.
    + assert (S pos ≤ o) by (apply (orphan_positions_ge fn search custom _ items); rewrite Eo; left).
      assert ((o =? pos)%nat = false) as -> by (apply Nat.eqb_neq; lia). by rewrite <- (IH (S pos)), Eo.
Qed.

Lemma retain_others_nil pos items : retain_others [] pos items = items.
Proof. revert pos. induction items as [|e items IH]; intros pos; cbn; by rewrite ?IH. Qed.

Lemma remove_orphans_spec debug items r :
  remove_orphan_outputs debug items = Some r → r = filter (λ e, orphan_in items e = false) items.
Proof.
  unfold remove_orphan_outputs, orphan_in. rewrite <- (retain_others_filter _ _ _ 0).
  destruct (orphan_positions _ _ _ 0 items) as [|o os]; [by rewrite retain_others_nil; intros [= <-]|].
  destruct debug; [done|]. by intros [= <-].
Qed.

Context (new_v5 : bytes → str).

(** ** Missing outputs *)

(** The output made up for a call of [items]. *)
Definition synthetic_for items e : option (bool * Envelope Rest) :=
  missing_output new_v5 (list_to_set (omap function_output_id items)) (list_to_set (omap tool_search_output_id items))
    (list_to_set (omap custom_tool_output_id items)) e.

Lemma synthetic_for_spec items e :
  match synthetic_for items e with
  | Some (_, o) => ∃ k, call_key e = Some k ∧ k ∉ outputs items ∧ output_key o = Some k ∧ call_key o = None ∧ server_side o = false
  | None => ∀ k, call_key e = Some k → k ∈ outputs items
  end.
Proof.
  unfold synthetic_for, missing_output, call_key.
  destruct e as [[] ?]; cbn; repeat match goal with |- context [match ?o with Some _ => _ | None => _ end] => is_var o; destruct o; cbn end;
    try (by intros); rewrite ?function_output_key, ?search_output_key, ?custom_output_key;
    case_bool_decide; try (by intros ? [= <-]); eexists; split_and!; done.
Qed.

(** Inserting from the last index on is the same as adding each output behind
    its call. *)
Definition with_outputs items : list (Envelope Rest) := items ≫= λ e, e :: option_list (snd <$> synthetic_for items e).

Lemma insert_missing fn search custom pre items :
  foldr (λ m items, insert_at (S (fst m)) (snd (snd m)) items) (pre ++ items)
    (missing_outputs new_v5 fn search custom (length pre) items) =
  pre ++ (items ≫= λ e, e :: option_list (snd <$> missing_output new_v5 fn search custom e)).
Proof.
  revert pre. induction items as [|e items IH]; intros pre; [done|]. cbn [missing_outputs]. rewrite foldr_app.
  specialize (IH (pre ++ [e])). rewrite length_app, Nat.add_1_r, <- !app_assoc in IH. cbn [app] in IH. rewrite IH.
  cbn [mbind list_bind]. destruct (missing_output _ _ _ _ e) as [[b o]|]; cbn [foldr fst snd fmap option_fmap option_map option_list]; [|done].
  unfold insert_at. rewrite take_app, drop_app. rewrite take_ge, drop_ge by lia.
  replace (S (length pre) - length pre) with 1 by lia. cbn [take drop]. by rewrite <- app_assoc.
Qed.

Lemma ensure_spec debug items r :
  ensure_call_outputs_present new_v5 debug items = Some r → r = with_outputs items.
Proof.
  unfold ensure_call_outputs_present. destruct (debug && _); [done|]. intros [= <-]. apply (insert_missing _ _ _ []).
Qed.

(** ** Both passes *)

Lemma elem_of_calls items k : k ∈ calls items ↔ ∃ e, e ∈ items ∧ call_key e = Some k.
Proof. apply list_elem_of_omap. Qed.
Lemma elem_of_outputs items k : k ∈ outputs items ↔ ∃ e, e ∈ items ∧ output_key e = Some k.
Proof. apply list_elem_of_omap. Qed.

Lemma call_not_output e : is_Some (call_key e) → output_key e = None.
Proof.
  unfold call_key, output_key. destruct e as [[] ?]; cbn;
    repeat match goal with |- context [match ?o with Some _ => _ | None => _ end] => is_var o; destruct o; cbn end;
    by intros [? ?].
Qed.

Lemma elem_of_with_outputs items x :
  x ∈ with_outputs items ↔ x ∈ items ∨ ∃ e b, e ∈ items ∧ synthetic_for items e = Some (b, x).
Proof.
  unfold with_outputs. rewrite list_elem_of_bind. split.
  - intros (e & [->|Hx]%elem_of_cons & He); [by left|right]. exists e.
    destruct (synthetic_for items e) as [[b o]|]; [|by apply elem_of_nil in Hx].
    apply list_elem_of_singleton in Hx as ->. by exists b.
  - intros [Hx|(e & b & He & E)]; [exists x; split; [left|done]|].
    exists e. split; [|done]. rewrite E. right. left.
Qed.

Lemma calls_with_outputs items k : k ∈ calls (with_outputs items) ↔ k ∈ calls items.
Proof.
  rewrite !elem_of_calls. split; intros (e & He & Hk).
  - apply elem_of_with_outputs in He as [He|(e' & b & He & E)]; [by eauto|].
    pose proof (synthetic_for_spec items e') as Hs. rewrite E in Hs. naive_solver.
  - exists e. split; [|done]. apply elem_of_with_outputs. by left.
Qed.

Lemma with_outputs_answered items k : k ∈ calls items → k ∈ outputs (with_outputs items).
Proof.
  intros (e & He & Hk)%elem_of_calls. pose proof (synthetic_for_spec items e) as Hs.
  apply elem_of_outputs. destruct (synthetic_for items e) as [[b o]|] eqn:E.
  - destruct Hs as (k' & Hk' & _ & Ho & _). exists o. rewrite elem_of_with_outputs.
    split; [by eauto|congruence].
  - apply Hs, elem_of_outputs in Hk as (o & Ho & Hk). exists o. rewrite elem_of_with_outputs. auto.
Qed.

Lemma orphan_in_ext items items' e : (∀ k, k ∈ calls items ↔ k ∈ calls items') → orphan_in items e = orphan_in items' e.
Proof. intros H. apply eq_true_iff_eq. rewrite !orphan_in_spec. setoid_rewrite H. done. Qed.

Lemma filter_all {A} (P : A → Prop) `{∀ x, Decision (P x)} l : Forall P l → filter P l = l.
Proof. induction 1 as [|x l Hx _ IH]; [done|]. by rewrite filter_cons_True, IH. Qed.

Lemma filter_bind_cons {A} (P : A → Prop) `{∀ x, Decision (P x)} (s : A → list A) l :
  (∀ x, x ∈ l → Forall P (s x)) → (∀ x, ¬ P x → s x = []) →
  filter P (l ≫= λ x, x :: s x) = filter P l ≫= λ x, x :: s x.
Proof.
  intros Hs Hn. induction l as [|x l IH]; [done|]. cbn [mbind list_bind app].
  rewrite !filter_cons, filter_app, IH by (intros; apply Hs; by right).
  rewrite (filter_all P (s x)) by (apply Hs; left).
  destruct (decide (P x)) as [HP|HP]; cbn [mbind list_bind app]; [done|by rewrite (Hn x)].
Qed.

(** The items a normalised history consists of, in order. *)
Definition normalized_items items : list (Envelope Rest) :=
  filter (λ e, orphan_in items e = false) items ≫= λ e, e :: option_list (snd <$> synthetic_for items e).

Lemma both_passes debug items a r :
  ensure_call_outputs_present new_v5 debug items = Some a → remove_orphan_outputs debug a = Some r →
  r = normalized_items items ∧ answered r ∧ asked r.
Proof.
  intros ->%ensure_spec ->%remove_orphans_spec.
  assert (∀ e, orphan_in (with_outputs items) e = orphan_in items e) as Horph.
  { intros e. apply orphan_in_ext, calls_with_outputs. }
  assert (∀ k, k ∈ calls (filter (λ e, orphan_in (with_outputs items) e = false) (with_outputs items)) ↔ k ∈ calls items) as Hcalls.
  { intros k. rewrite <- (calls_with_outputs items), !elem_of_calls.
    split; [intros (e & [_ He]%list_elem_of_filter & Hk); by exists e|].
    intros (e & He & Hk). exists e. split; [|done]. apply list_elem_of_filter. split; [|done]. apply not_true_iff_false.
    intros (k' & Hk' & _)%orphan_in_spec. rewrite (call_not_output e) in Hk' by eauto. done. }
  split_and!.
  - etrans; [apply (filter_bind_cons (λ e, orphan_in (with_outputs items) e = false)
                     (λ e, option_list (snd <$> synthetic_for items e)) items)|].
    3: { unfold normalized_items. f_equal. apply list_filter_iff. intros e. by rewrite Horph. }
    + intros e He. pose proof (synthetic_for_spec items e) as Hs.
      destruct (synthetic_for items e) as [[b o]|]; [|constructor]. constructor; [|constructor].
      destruct Hs as (k & Hk & _ & Ho & _). rewrite Horph. apply not_true_iff_false. intros (k' & Hk' & Hin & _)%orphan_in_spec.
      cbn in Hk'. rewrite Ho in Hk'. injection Hk' as <-. apply Hin, elem_of_calls. by eauto.
    + intros e He. apply not_false_iff_true in He. apply orphan_in_spec in He as (k & Hk & _).
      pose proof (synthetic_for_spec items e) as Hs. destruct (synthetic_for items e) as [[b o]|]; [|done].
      destruct Hs as (k' & Hk' & _). by rewrite (call_not_output e) in Hk by eauto.
  - intros k Hk%Hcalls. apply with_outputs_answered in Hk as Ho. apply elem_of_outputs in Ho as (e & He & Hke).
    apply elem_of_outputs. exists e. split; [|done]. apply list_elem_of_filter. split; [|done].
    rewrite Horph. apply not_true_iff_false. intros (k' & Hk' & Hin & _)%orphan_in_spec. congruence.
  - intros e k [Hne He]%list_elem_of_filter Hk Hsv. apply Hcalls.
    rewrite Horph in Hne. apply not_true_iff_false in Hne. rewrite orphan_in_spec in Hne.
    apply dec_stable. naive_solver.
Qed.

Lemma missing_outputs_nil fn search custom pos items :
  (∀ e, e ∈ items → missing_output new_v5 fn search custom e = None) →
  missing_outputs new_v5 fn search custom pos items = [].
Proof.
  revert pos. induction items as [|e items IH]; intros pos Hnone; [done|]. cbn.
  rewrite Hnone by left. apply IH. intros. apply Hnone. by right.
Qed.

Lemma orphan_positions_nil fn search custom pos items :
  (∀ e, e ∈ items → is_orphan fn search custom e = false) → orphan_positions fn search custom pos items = [].
Proof.
  revert pos. induction items as [|e items IH]; intros pos Hnone; [done|]. cbn.
  rewrite Hnone by left. apply IH. intros. apply Hnone. by right.
Qed.

(** Nothing is left to do for a normalised history. *)
Lemma passes_id debug items :
  answered items → asked items →
  ensure_call_outputs_present new_v5 debug items = Some items ∧ remove_orphan_outputs debug items = Some items.
Proof.
  intros Hans Hask. split.
  - unfold ensure_call_outputs_present. rewrite missing_outputs_nil; [by destruct debug|].
    intros e He. pose proof (synthetic_for_spec items e) as Hs. unfold synthetic_for in Hs.
    destruct (missing_output _ _ _ _ e) as [[b o]|]; [|done].
    destruct Hs as (k & Hk & Hno & _). destruct Hno. apply Hans, elem_of_calls. eauto.
  - unfold remove_orphan_outputs. rewrite orphan_positions_nil; [done|].
    intros e He. apply not_true_iff_false. intros (k & Hk & Hno & Hs)%orphan_in_spec. by destruct Hno; eapply Hask.
Qed.
End Pairing.

(** ** Media *)

Section Media.
Context {Rest : Type} (rest_default : Rest).
Implicit Types (i : ResponseItem Rest) (e : Envelope Rest).

Lemma zip_kinds_fst (content : list (MessageContent Rest)) kinds : fst <$> zip_kinds content kinds = content.
Proof. revert kinds. induction content as [|c content IH]; intros [|k kinds]; cbn; f_equal; try apply IH; done. Qed.

Lemma zip_kinds_parts (l : list (MessageContent Rest * str)) : zip_kinds (fst <$> l) (snd <$> l) = l.
Proof. induction l as [|[c k] l IH]; cbn; [done|]. f_equal. apply IH. Qed.

(** What is done to a part with its kind. *)
Definition replace_part (media : MessageContent Rest → bool) (placeholder : str * str) (ck : MessageContent Rest * str) :
    MessageContent Rest * str :=
  if media (fst ck) then (MsgInputText (fst placeholder), snd placeholder) else ck.

Lemma strip_message_eq media ph content pass :
  strip_message rest_default media ph content pass =
  let l := replace_part media ph <$> to_annotated_content content pass in (fst <$> l, set_kinds rest_default pass (snd <$> l)).
Proof.
  unfold strip_message. cbv zeta.
  assert ((λ '(c, k), if media c then (MsgInputText (fst ph), snd ph) else (c, k)) <$> to_annotated_content content pass =
          replace_part media ph <$> to_annotated_content content pass) as ->; [|done].
  apply list_fmap_ext. by intros ? [c k] _.
Qed.

(** Two replacements one after the other. *)
Lemma strip_message_twice media ph media' ph' content pass :
  let '(c, p) := strip_message rest_default media ph content pass in
  strip_message rest_default media' ph' c p =
  let l := (replace_part media' ph' ∘ replace_part media ph) <$> to_annotated_content content pass in
  (fst <$> l, set_kinds rest_default pass (snd <$> l)).
Proof.
  rewrite (strip_message_eq media). cbv beta iota zeta. rewrite strip_message_eq. cbv zeta.
  assert (∀ l, to_annotated_content (fst <$> l) (set_kinds rest_default pass (snd <$> l)) = l) as ->.
  { intros l. apply zip_kinds_parts. }
  rewrite (list_fmap_compose (replace_part media ph) (replace_part media' ph')). done.
Qed.

Lemma image_part_idem ck : replace_part is_msg_image UNSUPPORTED_IMAGE (replace_part is_msg_image UNSUPPORTED_IMAGE ck) = replace_part is_msg_image UNSUPPORTED_IMAGE ck.
Proof. by destruct ck as [[] ?]. Qed.
Lemma audio_part_idem ck : replace_part is_msg_audio UNSUPPORTED_AUDIO (replace_part is_msg_audio UNSUPPORTED_AUDIO ck) = replace_part is_msg_audio UNSUPPORTED_AUDIO ck.
Proof. by destruct ck as [[] ?]. Qed.
Lemma parts_commute ck :
  replace_part is_msg_image UNSUPPORTED_IMAGE (replace_part is_msg_audio UNSUPPORTED_AUDIO ck) =
  replace_part is_msg_audio UNSUPPORTED_AUDIO (replace_part is_msg_image UNSUPPORTED_IMAGE ck).
Proof. by destruct ck as [[] ?]. Qed.

Lemma strip_message_ext media ph media' ph' media'' ph'' content pass :
  (∀ ck, replace_part media' ph' (replace_part media ph ck) = replace_part media'' ph'' ck) →
  let '(c, p) := strip_message rest_default media ph content pass in
  strip_message rest_default media' ph' c p = strip_message rest_default media'' ph'' content pass.
Proof.
  intros H. pose proof (strip_message_twice media ph media' ph' content pass) as Ht.
  destruct (strip_message _ media ph content pass) as [c p]. rewrite Ht, strip_message_eq. cbv zeta.
  assert ((replace_part media' ph' ∘ replace_part media ph) <$> to_annotated_content content pass =
          replace_part media'' ph'' <$> to_annotated_content content pass) as -> by (by apply list_fmap_ext; intros ? ck _; apply H).
  done.
Qed.

Lemma strip_message_commute media ph media' ph' content pass :
  (∀ ck, replace_part media' ph' (replace_part media ph ck) = replace_part media ph (replace_part media' ph' ck)) →
  (let '(c, p) := strip_message rest_default media ph content pass in strip_message rest_default media' ph' c p) =
  (let '(c, p) := strip_message rest_default media' ph' content pass in strip_message rest_default media ph c p).
Proof.
  intros H. pose proof (strip_message_twice media ph media' ph' content pass) as Ht.
  pose proof (strip_message_twice media' ph' media ph content pass) as Ht'.
  destruct (strip_message _ media ph content pass) as [c p], (strip_message _ media' ph' content pass) as [c' p'].
  rewrite Ht, Ht'. cbv zeta.
  assert ((replace_part media' ph' ∘ replace_part media ph) <$> to_annotated_content content pass =
          (replace_part media ph ∘ replace_part media' ph') <$> to_annotated_content content pass) as ->
    by (by apply list_fmap_ext; intros ? ck _; apply H).
  done.
Qed.

Lemma strip_payload_image_idem (p : Payload Rest) :
  strip_payload is_image UNSUPPORTED_IMAGE (strip_payload is_image UNSUPPORTED_IMAGE p) = strip_payload is_image UNSUPPORTED_IMAGE p.
Proof. destruct p as [[|items] ?]; [done|]. unfold strip_payload. cbn. rewrite <- list_fmap_compose. do 2 f_equal. apply list_fmap_ext. by intros ? [] _. Qed.
Lemma strip_payload_audio_idem (p : Payload Rest) :
  strip_payload is_audio UNSUPPORTED_AUDIO (strip_payload is_audio UNSUPPORTED_AUDIO p) = strip_payload is_audio UNSUPPORTED_AUDIO p.
Proof. destruct p as [[|items] ?]; [done|]. unfold strip_payload. cbn. rewrite <- list_fmap_compose. do 2 f_equal. apply list_fmap_ext. by intros ? [] _. Qed.
Lemma strip_payload_commute (p : Payload Rest) :
  strip_payload is_image UNSUPPORTED_IMAGE (strip_payload is_audio UNSUPPORTED_AUDIO p) =
  strip_payload is_audio UNSUPPORTED_AUDIO (strip_payload is_image UNSUPPORTED_IMAGE p).
Proof. destruct p as [[|items] ?]; [done|]. unfold strip_payload. cbn. rewrite <- !list_fmap_compose. do 2 f_equal. apply list_fmap_ext. by intros ? [] _. Qed.

Lemma strip_image_idem i : strip_image rest_default (strip_image rest_default i) = strip_image rest_default i.
Proof.
  destruct i; cbn [strip_image strip_audio]; rewrite ?strip_payload_image_idem; try done.
  pose proof (strip_message_ext is_msg_image UNSUPPORTED_IMAGE is_msg_image UNSUPPORTED_IMAGE is_msg_image UNSUPPORTED_IMAGE content pass image_part_idem) as H.
  destruct (strip_message _ _ _ content pass) as [c p]. cbn [strip_image strip_audio]. by rewrite H.
Qed.
Lemma strip_audio_idem i : strip_audio rest_default (strip_audio rest_default i) = strip_audio rest_default i.
Proof.
  destruct i; cbn [strip_image strip_audio]; rewrite ?strip_payload_audio_idem; try done.
  pose proof (strip_message_ext is_msg_audio UNSUPPORTED_AUDIO is_msg_audio UNSUPPORTED_AUDIO is_msg_audio UNSUPPORTED_AUDIO content pass audio_part_idem) as H.
  destruct (strip_message _ _ _ content pass) as [c p]. cbn [strip_image strip_audio]. by rewrite H.
Qed.
Lemma strip_commute i : strip_image rest_default (strip_audio rest_default i) = strip_audio rest_default (strip_image rest_default i).
Proof.
  destruct i; cbn [strip_image strip_audio]; rewrite ?strip_payload_commute; try done.
  pose proof (strip_message_commute is_msg_audio UNSUPPORTED_AUDIO is_msg_image UNSUPPORTED_IMAGE content pass parts_commute) as H.
  destruct (strip_message _ is_msg_audio _ content pass) as [c p], (strip_message _ is_msg_image _ content pass) as [c' p'].
  cbn [strip_image strip_audio]. by rewrite H.
Qed.
End Media.

(** ** Normalisation *)

Section Properties.
Context {Rest : Type} (new_v5 : bytes → str) (rest_default : Rest).
Implicit Types (e : Envelope Rest) (items : list (Envelope Rest)).

(** The media passes, on one item. *)
Definition strip_for (modalities : list InputModality) e : Envelope Rest :=
  let e := if bool_decide (ImageModality ∈ modalities) then e else on_item (strip_image rest_default) e in
  if bool_decide (AudioModality ∈ modalities) then e else on_item (strip_audio rest_default) e.

(** An item without images, without audio, and one without the media that are
    not in [modalities]. *)
Definition image_free (i : ResponseItem Rest) : bool :=
  match i with
  | Message _ _ content _ _ => forallb (negb ∘ is_msg_image) content
  | FunctionCallOutput _ _ _ _ (mkPayload (BodyItems content) _) _
  | CustomToolCallOutput _ _ _ (mkPayload (BodyItems content) _) _ => forallb (negb ∘ is_image) content
  | ImageGenerationCall _ result _ => str_eqb result []
  | _ => true
  end.
Definition audio_free (i : ResponseItem Rest) : bool :=
  match i with
  | Message _ _ content _ _ => forallb (negb ∘ is_msg_audio) content
  | FunctionCallOutput _ _ _ _ (mkPayload (BodyItems content) _) _
  | CustomToolCallOutput _ _ _ (mkPayload (BodyItems content) _) _ => forallb (negb ∘ is_audio) content
  | _ => true
  end.
Definition readable (modalities : list InputModality) e : Prop :=
  (ImageModality ∈ modalities ∨ image_free (item e) = true) ∧ (AudioModality ∈ modalities ∨ audio_free (item e) = true).

Lemma strip_passes modalities items :
  strip_audio_when_unsupported rest_default modalities (strip_images_when_unsupported rest_default modalities items) =
  strip_for modalities <$> items.
Proof.
  unfold strip_audio_when_unsupported, strip_images_when_unsupported, strip_for.
  case_bool_decide; case_bool_decide; rewrite <- ?list_fmap_compose; try done. by rewrite list_fmap_id.
Qed.

Lemma on_item_eq (f g : ResponseItem Rest → ResponseItem Rest) e e' :
  f (item e) = g (item e') → metadata e = metadata e' → on_item f e = on_item g e'.
Proof. unfold on_item. by intros -> ->. Qed.

Lemma strip_for_idem modalities e : strip_for modalities (strip_for modalities e) = strip_for modalities e.
Proof.
  unfold strip_for. case_bool_decide; case_bool_decide; [done| | |]; apply on_item_eq; cbn; try done.
  - apply strip_image_idem.
  - apply strip_audio_idem.
  - by rewrite strip_commute, strip_image_idem, strip_audio_idem.
Qed.

Lemma strip_for_keys modalities e :
  call_key (strip_for modalities e) = call_key e ∧ output_key (strip_for modalities e) = output_key e ∧
  server_side (strip_for modalities e) = server_side e.
Proof.
  assert (∀ e, call_key (on_item (strip_image rest_default) e) = call_key e ∧
    output_key (on_item (strip_image rest_default) e) = output_key e ∧
    server_side (on_item (strip_image rest_default) e) = server_side e) as Hi.
  { by intros [[] ?]. }
  assert (∀ e, call_key (on_item (strip_audio rest_default) e) = call_key e ∧
    output_key (on_item (strip_audio rest_default) e) = output_key e ∧
    server_side (on_item (strip_audio rest_default) e) = server_side e) as Ha.
  { by intros [[] ?]. }
  unfold strip_for. case_bool_decide; case_bool_decide; [done|apply Hi|apply Ha|].
  destruct (Ha (on_item (strip_image rest_default) e)) as (-> & -> & ->). apply Hi.
Qed.

Lemma paired_fmap (f : Envelope Rest → Envelope Rest) items :
  (∀ e, call_key (f e) = call_key e ∧ output_key (f e) = output_key e ∧ server_side (f e) = server_side e) →
  answered items → asked items → answered (f <$> items) ∧ asked (f <$> items).
Proof.
  intros Hf Hans Hask.
  assert (calls (f <$> items) = calls items) as Hc.
  { unfold calls. apply list_omap_ext, Forall2_fmap_l, Forall_Forall2_diag, Forall_true. intros e. apply Hf. }
  assert (outputs (f <$> items) = outputs items) as Ho.
  { unfold outputs. apply list_omap_ext, Forall2_fmap_l, Forall_Forall2_diag, Forall_true. intros e. apply Hf. }
  split; [intros k; rewrite Hc, Ho; apply Hans|].
  intros e k He Hk Hs. rewrite Hc. apply list_elem_of_fmap in He as (e' & -> & He).
  destruct (Hf e') as (_ & Hk' & Hs'). eapply Hask; [done|congruence..].
Qed.

Lemma forallb_fmap {A B} (p : B → bool) (f : A → B) l : (∀ x, p (f x) = true) → forallb p (f <$> l) = true.
Proof. intros H. induction l as [|x l IH]; cbn; [done|]. by rewrite H. Qed.

Lemma strip_image_free i : image_free (strip_image rest_default i) = true.
Proof.
  destruct i; cbn [strip_image]; try done.
  - rewrite strip_message_eq. cbv beta iota zeta. cbn [image_free]. rewrite <- list_fmap_compose.
    apply forallb_fmap. by intros [[] ?].
  - destruct output as [[] ?]; [done|]. cbn. apply forallb_fmap. by intros [].
  - destruct output as [[] ?]; [done|]. cbn. apply forallb_fmap. by intros [].
Qed.

Lemma strip_audio_free i : audio_free (strip_audio rest_default i) = true.
Proof.
  destruct i; cbn [strip_audio]; try done.
  - rewrite strip_message_eq. cbv beta iota zeta. cbn [audio_free]. rewrite <- list_fmap_compose.
    apply forallb_fmap. by intros [[] ?].
  - destruct output as [[] ?]; [done|]. cbn. apply forallb_fmap. by intros [].
  - destruct output as [[] ?]; [done|]. cbn. apply forallb_fmap. by intros [].
Qed.

Lemma strip_for_readable modalities e : readable modalities (strip_for modalities e).
Proof.
  unfold readable, strip_for. case_bool_decide; case_bool_decide; split; auto; right; cbn [on_item item].
  - apply strip_image_free.
  - apply strip_audio_free.
  - rewrite <- strip_commute. apply strip_image_free.
  - apply strip_audio_free.
Qed.

(** C20: a history that is sent to the model is well formed, whatever was
    recorded.  Every call with a call id has an output of its kind with that id;
    every output with a call id has such a call, unless it is the result of a
    search the server ran.  Outputs without a call id and the results of the
    server's searches stay.  Media the model cannot read are gone.  The items
    recorded are all there in their order except outputs without a call, a
    made-up output following directly on its call; and normalising again, in a
    debug build too, changes nothing and raises no error. *)
Theorem history_is_normalized (modalities : list InputModality) (items : list (Envelope Rest)) :
  ∃ r, normalize_history new_v5 rest_default false modalities items = Some r ∧
    answered r ∧ asked r ∧
    (∀ e, e ∈ items → output_key e = None ∨ server_side e = true → strip_for modalities e ∈ r) ∧
    Forall (readable modalities) r ∧
    r = strip_for modalities <$> normalized_items new_v5 items ∧
    ∀ debug, normalize_history new_v5 rest_default debug modalities r = Some r.
Proof.
  unfold normalize_history.
  destruct (ensure_call_outputs_present new_v5 false items) as [a|] eqn:Ea; [|done].
  cbn [mbind option_bind].
  destruct (remove_orphan_outputs false a) as [b|] eqn:Eb.
  2: { unfold remove_orphan_outputs in Eb. by destruct (orphan_positions _ _ _ _ _). }
  destruct (both_passes new_v5 false items a b Ea Eb) as (-> & Hans & Hask).
  eexists. split; [done|]. rewrite strip_passes.
  destruct (paired_fmap (strip_for modalities) _ (strip_for_keys modalities) Hans Hask) as [Hans' Hask'].
  split_and!; [done..| | |done|].
  - intros e He Hstay. apply list_elem_of_fmap_2, list_elem_of_bind. exists e. split; [left|].
    apply list_elem_of_filter. split; [|done]. apply not_true_iff_false.
    intros (k & Hk & _ & Hs)%orphan_in_spec. destruct Hstay; congruence.
  - apply Forall_fmap, Forall_true. intros e. apply strip_for_readable.
  - intros debug. destruct (passes_id new_v5 debug _ Hans' Hask') as [-> E]. cbn. rewrite E. cbn.
    rewrite strip_passes, <- list_fmap_compose. f_equal. apply list_fmap_ext. intros ? e _. apply strip_for_idem.
Qed.
End Properties.

(** ** Dropping the oldest item *)

Section RemoveFirst.
Context {Rest : Type}.
Implicit Types (e : Envelope Rest) (items : list (Envelope Rest)).

(** [l'] is [l] without one item whose key is [k], if there is one. *)
Definition removes_one (f : Envelope Rest → option (ToolKind * str)) (k : ToolKind * str) (l l' : list (Envelope Rest)) : Prop :=
  (k ∉ omap f l ∧ l' = l) ∨ ∃ a x b, l = a ++ x :: b ∧ f x = Some k ∧ l' = a ++ b.

Lemma position_spec {A} (p : A → bool) l :
  match position p l with
  | Some i => ∃ a x b, l = a ++ x :: b ∧ length a = i ∧ p x = true
  | None => ∀ x, x ∈ l → p x = false
  end.
Proof.
  induction l as [|y l IH]; cbn; [by intros ? ?%elem_of_nil|]. destruct (p y) eqn:E; [by exists [], y, l|].
  destruct (position p l) as [i|]; cbn.
  - destruct IH as (a & x & b & -> & <- & Hx). by exists (y :: a), x, b.
  - intros x [->|Hx]%elem_of_cons; auto.
Qed.

Lemma remove_at_app {A} (a b : list A) x : remove_at (length a) (a ++ x :: b) = a ++ b.
Proof.
  unfold remove_at. rewrite take_app_length.
  replace (a ++ x :: b) with ((a ++ [x]) ++ b) by (by rewrite <- app_assoc).
  by rewrite drop_app_length' by (rewrite length_app; cbn; lia).
Qed.

Lemma remove_first_matching_spec (p : ResponseItem Rest → bool) f k items :
  (∀ e, p (item e) = true ↔ f e = Some k) → removes_one f k items (remove_first_matching items p).
Proof.
  intros Hp. unfold remove_first_matching. pose proof (position_spec (λ e, p (item e)) items) as H.
  destruct (position _ items) as [i|].
  - destruct H as (a & x & b & -> & <- & Hx). right. exists a, x, b. rewrite remove_at_app. by rewrite <- Hp.
  - left. split; [|done]. intros (e & He & Hk)%list_elem_of_omap. apply Hp in Hk. by rewrite H in Hk.
Qed.

Lemma remove_corresponding_spec items e :
  match call_key e, output_key e with
  | Some k, _ => removes_one output_key k items (remove_corresponding_for items (item e))
  | None, Some k => removes_one call_key k items (remove_corresponding_for items (item e))
  | None, None => remove_corresponding_for items (item e) = items
  end.
Proof.
  destruct e as [[] ?]; cbn [call_key output_key item];
    repeat match goal with |- context [match ?o with Some _ => _ | None => _ end] => is_var o; destruct o end;
    cbn [remove_corresponding_for]; try done.
  all: try (apply remove_first_matching_spec; intros [[] ?]; cbn;
    repeat match goal with |- context [match ?o with Some _ => _ | None => _ end] => is_var o; destruct o; cbn end;
    rewrite ?str_eqb_eq; split; congruence).
  match goal with |- removes_one _ (_, ?c) _ _ => rename c into call end.
  pose proof (position_spec (λ e, is_function_call call (item e)) items) as H.
  destruct (position _ items) as [i|].
  - destruct H as (a & x & b & -> & <- & Hx). right. exists a, x, b. rewrite remove_at_app. split_and!; [done| |done].
    destruct x as [[] ?]; try done. cbn in *. apply str_eqb_eq in Hx as ->. done.
  - unfold remove_first_matching. pose proof (position_spec (λ e, is_local_shell_call call (item e)) items) as H'.
    destruct (position _ items) as [i|].
    + destruct H' as (a & x & b & -> & <- & Hx). right. exists a, x, b. rewrite remove_at_app. split_and!; [done| |done].
      destruct x as [[| ? [] ?| | | | | | | |] ?]; try done. cbn in *. apply str_eqb_eq in Hx as ->. done.
    + left. split; [|done]. intros (x & Hx & Hk)%list_elem_of_omap. specialize (H x Hx). specialize (H' x Hx). cbn in H, H'.
      destruct x as [[| ? [] ?| | ? [] ?| | | | | |] ?]; cbn in *; try done; injection Hk as ->;
        by rewrite str_eqb_refl in *.
Qed.

(** Each call has its own id, and each output. *)
Definition distinct items : Prop := NoDup (calls items) ∧ NoDup (outputs items).

Lemma omap_mid {B} (f : Envelope Rest → option B) a x b :
  omap f (a ++ x :: b) = omap f a ++ option_list (f x) ++ omap f b.
Proof. rewrite omap_app. cbn. by destruct (f x). Qed.

Lemma NoDup_mid {B} (f : Envelope Rest → option B) a x b :
  NoDup (omap f (a ++ x :: b)) → NoDup (omap f (a ++ b)) ∧ ∀ k, f x = Some k → k ∉ omap f (a ++ b).
Proof.
  rewrite omap_mid, omap_app. destruct (f x) as [k|]; cbn [option_list app]; [|done].
  intros (Ha & Hd & Hkb)%NoDup_app. apply NoDup_cons in Hkb as [Hk Hb]. split.
  - apply NoDup_app. split_and!; [done| |done]. intros y Hy ?. apply (Hd y Hy). by right.
  - intros ? [= <-]. rewrite elem_of_app. intros [Hin|Hin]; [|done]. apply (Hd k Hin). left.
Qed.

(** Removing an item that is neither call nor output of [k'] keeps [k']. *)
Lemma omap_keep {B} (f : Envelope Rest → option B) a x b k :
  k ∈ omap f (a ++ x :: b) → f x ≠ Some k → k ∈ omap f (a ++ b).
Proof.
  rewrite omap_mid, omap_app, !elem_of_app. intros [|[Hk|]] Hx; auto.
  destruct (f x) as [y|]; [|by apply elem_of_nil in Hk]. apply list_elem_of_singleton in Hk as ->. done.
Qed.

Lemma elem_of_mid {A} (a b : list A) x y : y ∈ a ++ b → y ∈ a ++ x :: b.
Proof. rewrite !elem_of_app, elem_of_cons. tauto. Qed.

Lemma calls_mid a x b k : k ∈ calls (Rest := Rest) (a ++ b) → k ∈ calls (a ++ x :: b).
Proof. intros (y & Hy & Hk)%elem_of_calls. apply elem_of_calls. exists y. eauto using elem_of_mid. Qed.

(** A history without one call and without one output, of the same key. *)
Lemma remove_output_paired a x b k :
  distinct (a ++ x :: b) → output_key x = Some k → k ∉ calls (a ++ x :: b) →
  (∀ k', k' ∈ calls (a ++ x :: b) → k' ∈ outputs (a ++ x :: b)) →
  (∀ y k', y ∈ a ++ x :: b → output_key y = Some k' → server_side y = false → k' ≠ k → k' ∈ calls (a ++ x :: b)) →
  distinct (a ++ b) ∧ answered (a ++ b) ∧ asked (a ++ b).
Proof.
  intros [Hdc Hdo] Hx Hk Hans Hask. apply NoDup_mid in Hdc as [Hdc _]. apply NoDup_mid in Hdo as [Hdo Hko].
  split; [done|]. split.
  - intros k' Hk'%(calls_mid _ x). apply (omap_keep output_key a x b); [by apply Hans|]. rewrite Hx. congruence.
  - intros y k' Hy Hk' Hs. apply (omap_keep call_key a x b).
    + apply (Hask y k'); [by apply elem_of_mid|done|done|]. intros ->. apply (Hko k Hx), elem_of_outputs. by eauto.
    + intros Hc. rewrite (call_not_output x) in Hx by eauto. done.
Qed.

Lemma remove_call_paired a x b k :
  distinct (a ++ x :: b) → call_key x = Some k → k ∉ outputs (a ++ x :: b) →
  (∀ k', k' ∈ calls (a ++ x :: b) → k' ≠ k → k' ∈ outputs (a ++ x :: b)) →
  asked (a ++ x :: b) → distinct (a ++ b) ∧ answered (a ++ b) ∧ asked (a ++ b).
Proof.
  intros [Hdc Hdo] Hx Hk Hans Hask. apply NoDup_mid in Hdc as [Hdc Hkc]. apply NoDup_mid in Hdo as [Hdo _].
  split; [done|]. split.
  - intros k' Hk'. apply (omap_keep output_key a x b).
    + apply Hans; [by apply calls_mid|]. intros ->. by apply (Hkc k Hx).
    + rewrite (call_not_output x) by eauto. done.
  - intros y k' Hy Hk' Hs. apply (omap_keep call_key a x b).
    + apply (Hask y k'); [by apply elem_of_mid|done..].
    + rewrite Hx. intros [= ->]. apply Hk, elem_of_outputs. exists y. eauto using elem_of_mid.
Qed.

(** Dropping the oldest item together with its counterpart keeps a
    well-formed history well formed, so that no normalisation is needed; each
    call and each output must have an id of its own. *)
Theorem remove_first_item_keeps_pairs (items : list (Envelope Rest))
    (Hdistinct : distinct items) (Hans : answered items) (Hask : asked items) :
  let r := remove_first_item items in distinct r ∧ answered r ∧ asked r.
Proof.
  destruct items as [|e items]; [done|]. cbn [remove_first_item].
  pose proof (remove_corresponding_spec items e) as Hrm. destruct Hdistinct as [Hdc Hdo].
  apply (NoDup_mid call_key []) in Hdc as [Hdc Hce]. apply (NoDup_mid output_key []) in Hdo as [Hdo Hoe]. cbn [app] in *.
  assert (∀ k, k ∈ calls items → Some k ≠ output_key e → k ∈ outputs items) as Hans'.
  { intros k Hk Hne. apply (omap_keep output_key [] e); [|congruence]. by apply Hans, (calls_mid []). }
  assert (∀ x k, x ∈ items → output_key x = Some k → server_side x = false → Some k ≠ call_key e → k ∈ calls items) as Hask'.
  { intros x k Hx Hk Hs Hne. apply (omap_keep call_key [] e); [|congruence]. eapply Hask; [by right|done..]. }
  destruct (call_key e) as [k|] eqn:Ec; [|destruct (output_key e) as [k|] eqn:Eo].
  - assert (output_key e = None) as Eo by (apply call_not_output; eauto). rewrite Eo in Hans'.
    destruct Hrm as [[Hno ->]|(a & x & b & -> & Hx & ->)].
    + destruct Hno. apply (omap_keep output_key [] e); [|by rewrite Eo].
      apply Hans, elem_of_calls. exists e. split; [left|done].
    + apply (remove_output_paired a x b k); [done..|by apply Hce| |]; [intros; by apply Hans'|].
      intros y k' Hy Hk' Hs Hne. apply (Hask' y k'); [done..|congruence].
  - destruct Hrm as [[Hno ->]|(a & x & b & -> & Hx & ->)].
    + split; [done|]. split; [|by intros y k' ???; apply (Hask' y k')].
      intros k' Hk'. apply Hans'; [done|]. intros [= ->]. done.
    + apply (remove_call_paired a x b k); [done..|by apply Hoe| |]; [intros; apply Hans'; congruence|].
      intros y k' ???. by apply (Hask' y k').
  - rewrite Hrm. split; [done|]. split; [intros k Hk; by apply Hans'|]. intros y k' ???. by apply (Hask' y k').
Qed.
End RemoveFirst.

Lemma remove_first_item_keeps_pairs_witness :
  let items := [bare (FunctionCall None [1%N] tt); bare (Unpaired tt);
                bare (FunctionCallOutput None (Some [1%N]) None None aborted None);
                bare (LocalShellCall None (Some [2%N]) tt);
                bare (FunctionCallOutput None (Some [2%N]) None None aborted None)] in
  distinct items ∧ answered (remove_first_item items) ∧ asked (remove_first_item items).
Proof.
  intros items.
  assert (distinct items) as Hd by (split; apply (bool_decide_unpack _); by vm_compute).
  assert (answered items) as Hans.
  { intros k Hk. cbn in Hk. set_solver. }
  assert (asked items) as Hask.
  { intros e k He Hk _. cbn. repeat (apply elem_of_cons in He as [->|He]; [cbn in Hk; try done; set_solver|]).
    by apply elem_of_nil in He. }
  split; [done|]. apply (remove_first_item_keeps_pairs items Hd Hans Hask).
Defined.
