(* ===== verification/Readiness.v ===== *)
(** * The readiness flag ([utils/readiness/src/lib.rs])

    A flag that several tasks may hold back: each subscribes and gets a token,
    the first to hand its token in makes the flag ready, and others wait for
    that.  The operations run concurrently, so they are modelled as a step
    relation on a shared state and the program counters of the tasks: a step
    is one access to the shared state, and a locked section, which does not
    await, is one step (the only field read outside the lock, [ready], is
    written at most once in a section). *)
From stdpp Require Import numbers gmap.
From S2P Require Import Prelude.

(** [i32] arithmetic wraps around. *)
Definition wrap_i32 (z : Z) : Z := (z + 2147483648) `mod` 4294967296 - 2147483648.

Definition Token : Type := Z.

(** ** The watch channel

    [tokio::sync::watch] is not part of the repository: a channel is any type
    with these operations.  Its documentation is stated on what can be observed
    of it: the value, its version and the number of receivers. *)
Record Watch : Type := mkWatch { watch_value : bool; watch_version : nat; receivers : nat }.

Class WatchChannel (W : Type) : Type := {
  w_new : W;                (* [watch::channel(false)], its receiver dropped *)
  w_send : W → bool → W;
  w_subscribe : W → W;
  w_drop : W → W;           (* a receiver is dropped *)
  w_view : W → Watch;
}.

(** [Sender::send] fails when every receiver has been dropped, and then the
    value is not made available to future receivers; a receiver made by
    [subscribe] has seen the current version. *)
Class WatchLaws (W : Type) `{!WatchChannel W} : Prop := {
  view_new : w_view w_new = mkWatch false 0 0;
  view_send w v : w_view (w_send w v) =
    if (receivers (w_view w) =? 0)%nat then w_view w
    else mkWatch v (S (watch_version (w_view w))) (receivers (w_view w));
  view_subscribe w : w_view (w_subscribe w) =
    mkWatch (watch_value (w_view w)) (watch_version (w_view w)) (S (receivers (w_view w)));
  view_drop w : w_view (w_drop w) =
    mkWatch (watch_value (w_view w)) (watch_version (w_view w)) (pred (receivers (w_view w)));
}.

(** A channel that is just what can be observed of it. *)
#[global] Instance observed_channel : WatchChannel Watch := {|
  w_new := mkWatch false 0 0;
  w_send w v := if (receivers w =? 0)%nat then w else mkWatch v (S (watch_version w)) (receivers w);
  w_subscribe w := mkWatch (watch_value w) (watch_version w) (S (receivers w));
  w_drop w := mkWatch (watch_value w) (watch_version w) (pred (receivers w));
  w_view w := w;
|}.
#[global] Instance observed_channel_laws : WatchLaws Watch.
Proof. by split. Qed.

(** [ReadinessFlag]. *)
Record ReadinessFlag (W : Type) : Type := mkFlag {
  ready : bool;
  next_id : Z;
  tokens : gset Token;
  tx : W;
}.
Arguments mkFlag {W}.
Arguments ready {W}.
Arguments next_id {W}.
Arguments tokens {W}.
Arguments tx {W}.

(** [ReadinessFlag::new]: the receiver of the channel is dropped. *)
Definition new_flag `{!WatchChannel W} : ReadinessFlag W := mkFlag false 1 ∅ w_new.

(** [ReadinessError] and what the operations return. *)
Inductive ReadinessError : Type := TokenLockFailed | FlagAlreadyReady.
Inductive Answer : Type :=
  | AIsReady (b : bool)
  | ASubscribed (t : Token)
  | AMarked (b : bool)
  | AError (e : ReadinessError)
  | AWaited.

(** The operations. *)
Inductive Op : Type := OpIsReady | OpSubscribe | OpMarkReady (t : Token) | OpWaitReady.

(** Where a task is; [wait] tells an [is_ready] called by [wait_ready]. *)
Inductive Pc : Type :=
  | Idle (last : option Answer)
  | IsReadyLoad (wait : bool)
  | IsReadyLock (wait : bool)
  | IsReadySend (wait : bool)
  | IsReadyReload (wait : bool)
  | SubscribeLoad
  | SubscribeLock
  | MarkLoad (t : Token)
  | MarkLock (t : Token)
  | MarkSend
  | WaitSubscribe
  | WaitBorrow (seen : nat)
  | WaitChanged (seen : nat).

(** An event is a call by an idle task or a step of a task. *)
Inductive Event : Type := Call (task : nat) (op : Op) | Step (task : nat) (unlucky : bool).

(** The loop of [subscribe]: the token and the next id. *)
Fixpoint fresh_token (fuel : nat) (id : Z) (set : gset Token) : option (Token * Z) :=
  match fuel with
  | 0 => None
  | S fuel =>
      let next := wrap_i32 (id + 1) in
      if negb (id =? 0)%Z && negb (bool_decide (id ∈ set)) then Some (id, next) else fresh_token fuel next set
  end.

(** [is_ready] has answered. *)
Definition is_ready_done (wait b : bool) : Pc :=
  if wait then (if b then Idle (Some AWaited) else WaitSubscribe) else Idle (Some (AIsReady b)).

(** The system: the flag and the tasks. *)
Record System (W : Type) : Type := mkSystem { flag : ReadinessFlag W; tasks : gmap nat Pc }.
Arguments mkSystem {W}.
Arguments flag {W}.
Arguments tasks {W}.

Section Steps.
Context `{!WatchChannel W}.
Implicit Types s : System W.

(** One step of a task.  [unlucky] is the choice of the scheduler at a lock:
    [lock] times out, [try_lock] finds it taken.  [None]: the task waits. *)
Definition step (f : ReadinessFlag W) (pc : Pc) (unlucky : bool) : option (ReadinessFlag W * Pc) :=
  match pc with
  | Idle _ => None
  | IsReadyLoad wait => Some (f, if ready f then is_ready_done wait true else IsReadyLock wait)
  | IsReadyLock wait =>
      if unlucky then Some (f, IsReadyReload wait)
      else if bool_decide (tokens f = ∅) then
        Some (mkFlag true (next_id f) (tokens f) (tx f),
              if ready f then is_ready_done wait true else IsReadySend wait)
      else Some (f, IsReadyReload wait)
  | IsReadySend wait =>
      Some (mkFlag (ready f) (next_id f) (tokens f) (w_send (tx f) true), is_ready_done wait true)
  | IsReadyReload wait => Some (f, is_ready_done wait (ready f))
  | SubscribeLoad => Some (f, if ready f then Idle (Some (AError FlagAlreadyReady)) else SubscribeLock)
  | SubscribeLock =>
      if unlucky then Some (f, Idle (Some (AError TokenLockFailed)))
      else if ready f then Some (f, Idle (Some (AError FlagAlreadyReady)))
      else match fresh_token (S (S (size (tokens f)))) (next_id f) (tokens f) with
           | Some (t, next) => Some (mkFlag (ready f) next ({[t]} ∪ tokens f) (tx f), Idle (Some (ASubscribed t)))
           | None => None
           end
  | MarkLoad t =>
      Some (f, if ready f then Idle (Some (AMarked false))
               else if (t =? 0)%Z then Idle (Some (AMarked false)) else MarkLock t)
  | MarkLock t =>
      if unlucky then Some (f, Idle (Some (AError TokenLockFailed)))
      else if bool_decide (t ∈ tokens f) then Some (mkFlag true (next_id f) ∅ (tx f), MarkSend)
      else Some (f, Idle (Some (AMarked false)))
  | MarkSend =>
      Some (mkFlag (ready f) (next_id f) (tokens f) (w_send (tx f) true), Idle (Some (AMarked true)))
  | WaitSubscribe =>
      Some (mkFlag (ready f) (next_id f) (tokens f) (w_subscribe (tx f)), WaitBorrow (watch_version (w_view (tx f))))
  | WaitBorrow seen =>
      if watch_value (w_view (tx f))
      then Some (mkFlag (ready f) (next_id f) (tokens f) (w_drop (tx f)), Idle (Some AWaited))
      else Some (f, WaitChanged seen)
  | WaitChanged seen =>
      if (watch_version (w_view (tx f)) =? seen)%nat then None
      else if watch_value (w_view (tx f))
      then Some (mkFlag (ready f) (next_id f) (tokens f) (w_drop (tx f)), Idle (Some AWaited))
      else Some (f, WaitChanged (watch_version (w_view (tx f))))
  end.

Definition call (op : Op) : Pc :=
  match op with
  | OpIsReady => IsReadyLoad false
  | OpSubscribe => SubscribeLoad
  | OpMarkReady t => MarkLoad t
  | OpWaitReady => IsReadyLoad true
  end.

Definition task_pc s (task : nat) : Pc := default (Idle None) (tasks s !! task).
Definition fire s (ev : Event) : option (System W) :=
  match ev with
  | Call task op =>
      match task_pc s task with
      | Idle _ => Some (mkSystem (flag s) (<[task := call op]> (tasks s)))
      | _ => None
      end
  | Step task unlucky =>
      match step (flag s) (task_pc s task) unlucky with
      | Some (f, pc) => Some (mkSystem f (<[task := pc]> (tasks s)))
      | None => None
      end
  end.

(** A schedule: events that cannot happen are skipped. *)
Fixpoint run s (events : list Event) : System W :=
  match events with
  | [] => s
  | ev :: events => run (default s (fire s ev)) events
  end.

Definition initial : System W := mkSystem new_flag ∅.

Inductive transition : System W → System W → Prop :=
  | transition_fire s ev s' : fire s ev = Some s' → transition s s'.
Definition reachable s : Prop := rtc transition initial s.
End Steps.

(** * Properties of the readiness flag *)

(** ** Fresh tokens *)

Lemma wrap_i32_id z : (-2147483648 ≤ z < 2147483648)%Z → wrap_i32 z = z.
Proof. intros. unfold wrap_i32. rewrite Z.mod_small; lia. Qed.

Lemma wrap_i32_add z k : wrap_i32 (wrap_i32 z + k) = wrap_i32 (z + k).
Proof.
  unfold wrap_i32. f_equal.
  replace ((z + 2147483648) `mod` 4294967296 - 2147483648 + k + 2147483648)%Z
    with ((z + 2147483648) `mod` 4294967296 + k)%Z by lia.
  rewrite Zplus_mod_idemp_l. f_equal. lia.
Qed.

Lemma wrap_i32_inj z i j : (0 ≤ i < 4294967296)%Z → (0 ≤ j < 4294967296)%Z → wrap_i32 (z + i) = wrap_i32 (z + j) → i = j.
Proof.
  unfold wrap_i32. intros Hi Hj H.
  assert ((z + i + 2147483648) `mod` 4294967296 = (z + j + 2147483648) `mod` 4294967296)%Z as Hm by lia.
  apply (f_equal (λ x, ((x - (z + 2147483648)) `mod` 4294967296)%Z)) in Hm.
  rewrite !Zminus_mod_idemp_l in Hm.
  replace (z + i + 2147483648 - (z + 2147483648))%Z with i in Hm by lia.
  replace (z + j + 2147483648 - (z + 2147483648))%Z with j in Hm by lia.
  by rewrite !Z.mod_small in Hm.
Qed.

(** When the loop does not stop, all candidates are taken. *)
Lemma fresh_token_None fuel id set k :
  fresh_token fuel (wrap_i32 id) set = None → k < fuel → wrap_i32 (id + Z.of_nat k) ∈ ({[0%Z]} ∪ set : gset Z).
Proof.
  revert id k. induction fuel as [|fuel IH]; intros id k; cbn [fresh_token]; [lia|].
  destruct (negb _ && negb _) eqn:E; [done|]. rewrite wrap_i32_add. intros Hn Hk. destruct k as [|k].
  - rewrite Z.add_0_r. apply andb_false_iff in E as [E|E]; apply negb_false_iff in E.
    + apply Z.eqb_eq in E. rewrite E. set_solver.
    + apply bool_decide_eq_true in E. set_solver.
  - replace (id + Z.of_nat (S k))%Z with (id + 1 + Z.of_nat k)%Z by lia. apply IH; [done|lia].
Qed.

Lemma fresh_token_Some fuel id set t next :
  fresh_token fuel id set = Some (t, next) → t ≠ 0%Z ∧ t ∉ set ∧ next = wrap_i32 (t + 1).
Proof.
  revert id. induction fuel as [|fuel IH]; intros id; cbn [fresh_token]; [done|].
  destruct (negb _ && negb _) eqn:E; [|by apply IH]. intros [= <- <-].
  apply andb_prop in E as [E1%negb_true_iff%Z.eqb_neq E2%negb_true_iff%bool_decide_eq_false]. done.
Qed.

(** The search for a token in [subscribe] ends, after at most two turns more
    than there are tokens, even when the counter has wrapped around, as long
    as the tokens do not use up the 32-bit integers; the token is not zero and
    not in use. *)
Theorem subscribe_finds_token (id : Z) (set : gset Token)
    (Hid : (-2147483648 ≤ id < 2147483648)%Z) (Hsize : (Z.of_nat (size set) + 2 ≤ 4294967296)%Z) :
  ∃ t next, fresh_token (S (S (size set))) id set = Some (t, next) ∧ t ≠ 0%Z ∧ t ∉ set.
Proof.
  destruct (fresh_token (S (S (size set))) id set) as [[t next]|] eqn:E.
  { exists t, next. apply fresh_token_Some in E as E'. split_and!; [done|apply E'..]. }
  exfalso. rewrite <- (wrap_i32_id id Hid) in E.
  set (f k := wrap_i32 (id + Z.of_nat k)). set (l := f <$> seq 0 (S (S (size set)))).
  assert (NoDup l) as Hnd.
  { apply NoDup_fmap_2_strong; [|apply NoDup_seq]. intros i j Hi Hj Hij. apply elem_of_seq in Hi, Hj.
    apply wrap_i32_inj in Hij; lia. }
  assert ((list_to_set l : gset Z) ⊆ {[0%Z]} ∪ set) as Hsub.
  { intros x Hx. apply elem_of_list_to_set, list_elem_of_fmap in Hx as (k & -> & Hk). apply elem_of_seq in Hk.
    eapply fresh_token_None; [done|lia]. }
  apply subseteq_size in Hsub. rewrite size_list_to_set in Hsub by done.
  assert (size ({[0%Z]} ∪ set : gset Z) ≤ 1 + size set) as Hun.
  { rewrite size_union_alt, size_singleton. apply Nat.add_le_mono_l, subseteq_size. set_solver. }
  unfold l in Hsub. rewrite length_fmap, length_seq in Hsub. lia.
Qed.

Definition wrapped_tokens : gset Token := {[2147483647%Z; (-2147483648)%Z]}.
Lemma subscribe_finds_token_witness :
  ∃ t next, fresh_token (S (S (size wrapped_tokens))) 2147483647 wrapped_tokens = Some (t, next) ∧ t ≠ 0%Z ∧ t ∉ wrapped_tokens.
Proof.
  apply (subscribe_finds_token 2147483647 wrapped_tokens); [lia|].
  replace (size wrapped_tokens) with 2 by (by vm_compute). lia.
Defined.

(** ** Invariants of the reachable states *)

(** A task that is about to broadcast; a task that holds a receiver. *)
Definition sending (pc : Pc) : bool := match pc with IsReadySend _ | MarkSend => true | _ => false end.
Definition waiting (pc : Pc) : bool := match pc with WaitBorrow _ | WaitChanged _ => true | _ => false end.

(** The answers that promise that the flag is ready. *)
Definition promises_ready (pc : Pc) : bool :=
  match pc with
  | Idle (Some (AIsReady b)) | Idle (Some (AMarked b)) => b
  | Idle (Some AWaited) => true
  | Idle (Some (AError FlagAlreadyReady)) => true
  | pc => sending pc
  end.

(** A task holds the flag back while another waits; the first marks it ready
    between the waiter's look at the flag and its subscription. *)
Definition race : list Event :=
  [Call 0 OpSubscribe; Step 0 false; Step 0 false;
   Call 1 OpWaitReady; Step 1 false; Step 1 false; Step 1 false;
   Call 0 (OpMarkReady 1%Z); Step 0 false; Step 0 false; Step 0 false;
   Step 1 false; Step 1 false].

Section Channel.
Context `{!WatchChannel W}.
Implicit Types (s : System W) (f : ReadinessFlag W).

Record flag_ok s : Prop := {
  ready_no_tokens : ready (flag s) = true → tokens (flag s) = ∅;
  no_zero_token : 0%Z ∉ tokens (flag s);
  value_ready : watch_value (w_view (tx (flag s))) = true → ready (flag s) = true;
  promise_kept : ∀ task, promises_ready (task_pc s task) = true → ready (flag s) = true;
}.

Lemma task_pc_insert f m task pc task' :
  task_pc (mkSystem f (<[task := pc]> m)) task' = if decide (task = task') then pc else default (Idle None) (m !! task').
Proof.
  unfold task_pc. cbn. destruct (decide (task = task')) as [->|Hne]; [by rewrite lookup_insert_eq|].
  by rewrite lookup_insert_ne.
Qed.

Context `{!WatchLaws W}.
#[local] Set Default Proof Using "Type*".

Ltac step_cases H := cbn [step ready tokens tx next_id] in H;
  repeat match type of H with
  | context [if ?b then _ else _] => destruct b eqn:?
  | context [match ?o with Some _ => _ | None => _ end] => destruct o as [[? ?]|] eqn:?
  end; simplify_eq; cbn [ready tokens tx]; rewrite ?view_subscribe, ?view_drop; cbn [watch_value watch_version].

(** What one step of a task does to the flag. *)
Lemma step_flag f pc unlucky f' pc' :
  step f pc unlucky = Some (f', pc') →
  (ready f = true → tokens f = ∅) → 0%Z ∉ tokens f → (watch_value (w_view (tx f)) = true → ready f = true) →
  (promises_ready pc = true → ready f = true) →
  (ready f = true → ready f' = true) ∧ (ready f' = true → tokens f' = ∅) ∧ 0%Z ∉ tokens f' ∧
  (watch_value (w_view (tx f')) = true → ready f' = true) ∧ (promises_ready pc' = true → ready f' = true).
Proof.
  intros Hstep Ht H0 Hv Hp. destruct f as [r id ts w]. cbn [ready tokens tx] in *.
  destruct pc; step_cases Hstep; try (by split_and!; auto).
  - apply bool_decide_eq_true in Heqb0. by split_and!.
  - split_and!; [done..|]. by destruct wait, r.
  - destruct (fresh_token_Some _ _ _ _ _ Heqo) as (? & ? & _). split_and!; [done..| |by intros ?%Hv|done]. set_solver.
  - split_and!; auto; intros; cbn in *; congruence.
  - split_and!; auto; intros; cbn in *; congruence.
Qed.

(** Only these steps make the flag ready, or end a [mark_ready] with success. *)
Lemma step_ready f pc unlucky f' pc' :
  step f pc unlucky = Some (f', pc') → ready f = false → ready f' = true →
  tokens f = ∅ ∨ ∃ t, pc = MarkLock t ∧ t ∈ tokens f ∧ pc' = MarkSend.
Proof.
  intros Hs Hr. destruct pc; step_cases Hs; try congruence; intros _; [left|right; exists t];
    repeat match goal with H : bool_decide _ = true |- _ => apply bool_decide_eq_true in H end; done.
Qed.

Lemma step_mark f pc unlucky f' :
  step f pc unlucky = Some (f', MarkSend) → ∃ t, pc = MarkLock t ∧ t ∈ tokens f.
Proof.
  intros Hs. destruct pc; step_cases Hs; unfold is_ready_done in *; repeat case_match; simplify_eq.
  exists t. split; [done|]. by eapply bool_decide_eq_true.
Qed.

Lemma fire_ok s ev s' : flag_ok s → fire s ev = Some s' → flag_ok s' ∧ (ready (flag s) = true → ready (flag s') = true).
Proof.
  intros [Ht H0 Hv Hp] Hf. destruct ev as [task op|task unlucky]; cbn in Hf.
  - destruct (task_pc s task) eqn:E; simplify_eq. split; [|done]. split; [done..|].
    intros task'. rewrite task_pc_insert. case_decide; [by destruct op|apply Hp].
  - destruct (step _ _ _) as [[f pc]|] eqn:E; simplify_eq.
    destruct (step_flag _ _ _ _ _ E Ht H0 Hv (Hp task)) as (Hm & ? & ? & ? & ?). split; [|done]. split; [done..|].
    intros task'. rewrite task_pc_insert. case_decide; [done|]. intros Hpr. apply Hm, (Hp task' Hpr).
Qed.

Lemma initial_ok : flag_ok initial.
Proof. split; [done|set_solver|cbn; by rewrite view_new|]. by intros task. Qed.

Lemma transitions_ok s s' : flag_ok s → rtc transition s s' → flag_ok s' ∧ (ready (flag s) = true → ready (flag s') = true).
Proof.
  intros Hok Hrtc. induction Hrtc as [|s1 s2 s3 [s1' ev s2' Hf] _ IH]; [done|].
  destruct (fire_ok _ _ _ Hok Hf) as [Hok2 Hm]. destruct (IH Hok2) as [? Hm2]. auto.
Qed.

(** In every interleaving of the operations the flag, once ready, stays
    ready and has no tokens left; zero is never a token; an answer that
    promises readiness (also the end of a wait, and a failed subscription) is
    given only when the flag is ready; and the flag becomes ready only in a
    step of a task that hands in a token in use, which is the only success of
    a [mark_ready], or that finds no token in use. *)
Theorem readiness_is_safe (s : System W) (Hreach : reachable s) :
  flag_ok s ∧
  ∀ ev s', fire s ev = Some s' →
    (ready (flag s) = true → ready (flag s') = true) ∧
    (ready (flag s) = false → ready (flag s') = true →
       tokens (flag s) = ∅ ∨ ∃ task t, task_pc s task = MarkLock t ∧ t ∈ tokens (flag s) ∧ task_pc s' task = MarkSend) ∧
    (∀ task, task_pc s task ≠ MarkSend → task_pc s' task = MarkSend → ready (flag s) = false).
Proof.
  destruct (transitions_ok _ _ initial_ok Hreach) as [Hok _]. split; [done|]. intros ev s' Hf.
  split; [by eapply fire_ok|]. destruct Hok as [Ht H0 Hv Hp].
  destruct ev as [task op|task unlucky]; cbn in Hf.
  - destruct (task_pc s task) eqn:E; simplify_eq. split; [cbn; congruence|].
    intros task'. rewrite task_pc_insert. case_decide; [by destruct op|done].
  - destruct (step _ _ _) as [[f pc]|] eqn:E; simplify_eq. cbn [flag].
    split; [|intros task'; rewrite task_pc_insert; case_decide; [subst task'|done]].
    + intros Hr Hr'. destruct (step_ready _ _ _ _ _ E Hr Hr') as [|(t & Hpc & Hin & ->)]; [by left|right].
      exists task, t. by rewrite task_pc_insert, decide_True.
    + intros _ ->. apply step_mark in E as (t & _ & Hin). destruct (ready (flag s)); [|done].
      rewrite Ht in Hin by done. set_solver.
Qed.

Lemma run_rtc s events : rtc transition s (run s events).
Proof.
  revert s. induction events as [|ev events IH]; intros s; [apply rtc_refl|]. cbn.
  destruct (fire s ev) as [s'|] eqn:E; [|apply IH]. eapply rtc_l; [by econstructor|apply IH].
Qed.

(** ** A lost wake-up *)

(** The flag is ready, nobody is going to broadcast it, and [task] waits. *)
Definition stuck (task seen : nat) s : Prop :=
  ready (flag s) = true ∧ tokens (flag s) = ∅ ∧ watch_version (w_view (tx (flag s))) = seen ∧
  task_pc s task = WaitChanged seen ∧ ∀ task', sending (task_pc s task') = false.

Lemma stuck_step f pc unlucky f' pc' :
  step f pc unlucky = Some (f', pc') → ready f = true → tokens f = ∅ → sending pc = false →
  ready f' = true ∧ tokens f' = ∅ ∧ watch_version (w_view (tx f')) = watch_version (w_view (tx f)) ∧ sending pc' = false.
Proof.
  intros Hs Hr Ht Hn. destruct pc; step_cases Hs; unfold is_ready_done in *; repeat case_match; simplify_eq; try done.
  all: repeat match goal with H : bool_decide _ = true |- _ => apply bool_decide_eq_true in H end; set_solver.
Qed.

Lemma stuck_fire task seen s ev s' : stuck task seen s → fire s ev = Some s' → stuck task seen s'.
Proof.
  intros (Hr & Ht & Hv & Hpc & Hn) Hf. destruct ev as [task' op|task' unlucky]; cbn in Hf.
  - destruct (task_pc s task') eqn:E; simplify_eq. split_and!; [done..| |].
    + rewrite task_pc_insert. case_decide; [congruence|done].
    + intros task''. rewrite task_pc_insert. case_decide; [by destruct op|apply Hn].
  - destruct (step _ _ _) as [[f pc]|] eqn:E; simplify_eq.
    destruct (stuck_step _ _ _ _ _ E Hr Ht (Hn task')) as (? & ? & Hv' & Hn').
    split_and!; [done..| |].
    + rewrite task_pc_insert. case_decide as Heq; [|done]. subst task'. rewrite Hpc in E. cbn in E.
      by rewrite Nat.eqb_refl in E.
    + intros task''. rewrite task_pc_insert. case_decide; [done|apply Hn].
Qed.

Lemma run_app s l l' : run s (l ++ l') = run (run s l) l'.
Proof. revert s. induction l as [|ev l IH]; intros s; [done|]. apply IH. Qed.

(** The end of the race: before and after the waiter subscribes. *)
Definition before_subscription : System W :=
  mkSystem (mkFlag true 2 ∅ (w_send w_new true)) (<[0 := Idle (Some (AMarked true))]> (<[1 := WaitSubscribe]> ∅)).
Definition after_race : System W :=
  mkSystem (mkFlag true 2 ∅ (w_subscribe (w_send w_new true)))
    (<[0 := Idle (Some (AMarked true))]> (<[1 := WaitChanged 0]> ∅)).

Lemma run_race : run initial race = after_race.
Proof.
  replace race with (take 11 race ++ [Step 1 false; Step 1 false]) by done. rewrite run_app.
  assert (run initial (take 11 race) = before_subscription) as -> by (by vm_compute).
  set (v := watch_version (w_view (w_send w_new true))).
  set (f := mkFlag true 2 ∅ (w_subscribe (w_send w_new true))).
  set (mid := mkSystem f (<[1 := WaitBorrow v]> (tasks before_subscription))).
  assert (fire before_subscription (Step 1 false) = Some mid) as E1 by done.
  assert (fire mid (Step 1 false) = Some (mkSystem f (<[1 := WaitChanged v]> (tasks mid)))) as E2.
  { unfold fire, mid. rewrite task_pc_insert, decide_True by done. cbn [step flag].
    unfold f. cbn [tx]. rewrite view_subscribe, view_send, view_new. done. }
  cbn [run]. rewrite E1. cbn [default from_option id]. rewrite E2. cbn [default from_option id].
  unfold v. rewrite view_send, view_new. cbn [receivers Nat.eqb watch_version]. by vm_compute.
Qed.

(** A wake-up can be lost.  The broadcast of [mark_ready] is dropped while
    nobody has subscribed to the channel; a task in [wait_ready] that has seen
    the flag not ready and subscribes only then waits for ever, although the
    flag is ready and whatever the other tasks do. *)
Theorem wait_ready_can_wait_forever :
  let s : System W := run initial race in
  reachable s ∧ ready (flag s) = true ∧ task_pc s 0 = Idle (Some (AMarked true)) ∧
  ∀ s', rtc transition s s' → ready (flag s') = true ∧ task_pc s' 1 = WaitChanged 0.
Proof.
  intros s. split; [apply run_rtc|]. unfold s. rewrite run_race. split; [done|]. split; [done|].
  assert (stuck 1 0 after_race) as Hs.
  { split_and!; [done|done| |done|].
    - cbn. rewrite view_subscribe, view_send, view_new. done.
    - intros task. unfold after_race. rewrite !task_pc_insert. case_decide; [done|].
      destruct (decide (1 = task)) as [<-|]; [by rewrite lookup_insert_eq|by rewrite lookup_insert_ne]. }
  intros s' Hrtc. clear s. revert Hs. induction Hrtc as [s1|s1 s2 s3 [s1' ev s2' Hf] _ IH]; intros Hs;
    [by destruct Hs as (? & _ & _ & ? & _)|].
  apply IH. by eapply stuck_fire.
Qed.
(** ** Tasks that wait in time are woken *)

(** The tasks that hold a receiver. *)
Definition waiters s : gmap nat Pc := filter (λ kv, waiting kv.2 = true) (tasks s).

Record channel_ok s : Prop := {
  receivers_waiting : receivers (w_view (tx (flag s))) = size (waiters s);
  value_sent : watch_value (w_view (tx (flag s))) = bool_decide (0 < watch_version (w_view (tx (flag s))));
  seen_old : ∀ task seen, task_pc s task = WaitBorrow seen → seen ≤ watch_version (w_view (tx (flag s)));
  seen_none : ∀ task seen, task_pc s task = WaitChanged seen → seen = 0;
}.

Lemma size_waiters_insert (m : gmap nat Pc) task pc :
  size (filter (λ kv : nat * Pc, waiting kv.2 = true) (<[task := pc]> m)) +
    Nat.b2n (waiting (default (Idle None) (m !! task))) =
  size (filter (λ kv : nat * Pc, waiting kv.2 = true) m) + Nat.b2n (waiting pc).
Proof.
  set (P := λ kv : nat * Pc, waiting kv.2 = true).
  assert (∀ x, default (Idle None) (m !! task) = x → waiting x = true → filter P m !! task = Some x) as Hin.
  { intros x Hx Hw. apply map_lookup_filter_Some. split; [|done]. destruct (m !! task); cbn in Hx; subst; done. }
  assert (waiting (default (Idle None) (m !! task)) = false → filter P m !! task = None) as Hout.
  { intros Hw. apply map_lookup_filter_None. destruct (m !! task) as [x|]; [right|by left]. intros y [= <-]. unfold P. cbn in *. congruence. }
  destruct (waiting pc) eqn:Epc; cbn [Nat.b2n].
  - rewrite (map_filter_insert_True P) by done.
    destruct (waiting (default _ _)) eqn:Eold; cbn [Nat.b2n].
    + rewrite map_size_insert_Some by (by eexists; eapply Hin). lia.
    + rewrite map_size_insert_None by auto. lia.
  - rewrite (map_filter_insert_False P) by (unfold P; cbn; congruence). rewrite map_filter_delete.
    destruct (waiting (default _ _)) eqn:Eold; cbn [Nat.b2n].
    + rewrite map_size_delete_Some by (by eexists; eapply Hin).
      assert (0 < size (filter P m)); [|lia]. apply Nat.neq_0_lt_0. intros Hz%map_size_empty_inv.
      specialize (Hin _ eq_refl Eold). by rewrite Hz, lookup_empty in Hin.
    + rewrite delete_id by auto. lia.
Qed.

(** One step of a task and the channel. *)
Lemma step_channel f pc unlucky f' pc' :
  step f pc unlucky = Some (f', pc') →
  watch_value (w_view (tx f)) = bool_decide (0 < watch_version (w_view (tx f))) →
  (waiting pc = true → 0 < receivers (w_view (tx f))) →
  (∀ seen, pc = WaitBorrow seen → seen ≤ watch_version (w_view (tx f))) → (∀ seen, pc = WaitChanged seen → seen = 0) →
  receivers (w_view (tx f')) + Nat.b2n (waiting pc) = receivers (w_view (tx f)) + Nat.b2n (waiting pc') ∧
  watch_value (w_view (tx f')) = bool_decide (0 < watch_version (w_view (tx f'))) ∧
  watch_version (w_view (tx f)) ≤ watch_version (w_view (tx f')) ∧
  (∀ seen, pc' = WaitBorrow seen → seen ≤ watch_version (w_view (tx f'))) ∧ (∀ seen, pc' = WaitChanged seen → seen = 0).
Proof.
  intros Hs Hv Hr Hb Hc. destruct pc; step_cases Hs; unfold is_ready_done; rewrite ?view_send;
    repeat case_match; cbn [waiting Nat.b2n watch_value watch_version receivers] in *;
    split_and!; intros; simplify_eq; try done; try lia; try congruence; auto;
    symmetry in Hv; apply bool_decide_eq_false in Hv; [specialize (Hb _ eq_refl)|]; lia.
Qed.

Lemma waiting_receivers s task : channel_ok s → waiting (task_pc s task) = true → 0 < receivers (w_view (tx (flag s))).
Proof.
  intros [Hr _ _ _] Hw. rewrite Hr. apply Nat.neq_0_lt_0. intros Hz%map_size_empty_inv.
  assert (waiters s !! task = Some (task_pc s task)) as Hin; [|by rewrite Hz, lookup_empty in Hin].
  apply map_lookup_filter_Some. split; [|done]. unfold task_pc in *. by destruct (tasks s !! task).
Qed.

Lemma fire_channel s ev s' : channel_ok s → fire s ev = Some s' →
  channel_ok s' ∧ watch_version (w_view (tx (flag s))) ≤ watch_version (w_view (tx (flag s'))).
Proof.
  intros Hok Hf. pose proof (waiting_receivers s) as Hwr. destruct Hok as [Hr Hv Ho Hn] eqn:Eok. clear Eok.
  destruct ev as [task op|task unlucky]; cbn in Hf.
  - destruct (task_pc s task) eqn:E; simplify_eq. split; [|done]. unfold task_pc in E.
    pose proof (size_waiters_insert (tasks s) task (call op)) as Hsz. rewrite E in Hsz. cbn [waiting Nat.b2n] in Hsz.
    split; cbn [flag]; [|done|intros task'..].
    + rewrite Hr. unfold waiters. cbn [tasks]. destruct op; cbn [call waiting Nat.b2n] in *; lia.
    + intros seen. rewrite task_pc_insert. destruct (decide (task = task')); [by destruct op|apply Ho].
    + intros seen. rewrite task_pc_insert. destruct (decide (task = task')); [by destruct op|apply Hn].
  - destruct (step _ _ _) as [[f pc]|] eqn:E; simplify_eq.
    destruct (step_channel _ _ _ _ _ E Hv (Hwr task Hok) (Ho task) (Hn task)) as (Hr' & Hv' & Hle & Hb & Hc).
    split; [|done]. pose proof (size_waiters_insert (tasks s) task pc) as Hsz.
    split; cbn [flag]; [|done|intros task'..].
    + unfold waiters in *. cbn [tasks] in *. fold (task_pc s task) in Hsz. lia.
    + intros seen. rewrite task_pc_insert. destruct (decide (task = task')); [apply Hb|]. intros Hpc%Ho. lia.
    + intros seen. rewrite task_pc_insert. destruct (decide (task = task')); [apply Hc|apply Hn].
Qed.

Lemma initial_channel : channel_ok initial.
Proof. split; cbn; rewrite ?view_new; done. Qed.

(** The value is sent, or [task] waits and someone is going to send it once the
    flag is ready. *)
Definition will_wake (task : nat) s : Prop :=
  channel_ok s ∧
  (0 < watch_version (w_view (tx (flag s))) ∨
   waiting (task_pc s task) = true ∧ (ready (flag s) = true → ∃ task', sending (task_pc s task') = true)).

Lemma step_sends f pc unlucky f' pc' :
  step f pc unlucky = Some (f', pc') →
  (sending pc = true → 0 < receivers (w_view (tx f)) → 0 < watch_version (w_view (tx f'))) ∧
  (ready f = false → ready f' = true → sending pc' = true) ∧
  (waiting pc = true → waiting pc' = true ∨ watch_value (w_view (tx f)) = true).
Proof.
  intros Hs. destruct pc; step_cases Hs; unfold is_ready_done; rewrite ?view_send;
    repeat case_match; cbn [waiting sending watch_version] in *; split_and!; intros; try done; try congruence; auto; try lia.
  all: match goal with H : (_ =? 0)%nat = true |- _ => apply Nat.eqb_eq in H end; lia.
Qed.

Lemma will_wake_fire task s ev s' : will_wake task s → fire s ev = Some s' → will_wake task s'.
Proof.
  intros [Hch Hw] Hf. destruct (fire_channel _ _ _ Hch Hf) as [Hch' Hle]. split; [done|].
  destruct Hw as [Hsent|[Hw Hsend]]; [left; lia|].
  pose proof (waiting_receivers s task Hch Hw) as Hrec.
  destruct ev as [task' op|task' unlucky]; cbn in Hf.
  - destruct (task_pc s task') eqn:E; simplify_eq. right. cbn [flag]. split.
    + rewrite task_pc_insert. destruct (decide (task' = task)) as [->|]; [by rewrite E in Hw|done].
    + intros (t & Ht)%Hsend. exists t. rewrite task_pc_insert.
      destruct (decide (task' = t)) as [->|]; [by rewrite E in Ht|done].
  - destruct (step _ _ _) as [[f pc]|] eqn:E; simplify_eq. cbn [flag] in *.
    destruct (step_sends _ _ _ _ _ E) as (Hs1 & Hs2 & Hs3).
    destruct (decide (0 < watch_version (w_view (tx f)))) as [|Hnv]; [by left|right].
    assert (watch_value (w_view (tx (flag s))) = false) as Hv0.
    { rewrite (value_sent _ Hch). apply bool_decide_eq_false. lia. }
    split.
    + rewrite task_pc_insert. destruct (decide (task' = task)) as [->|]; [|done].
      destruct (Hs3 Hw); [done|congruence].
    + intros Hr. destruct (ready (flag s)) eqn:Er.
      * destruct (Hsend eq_refl) as [t Ht]. exists t. rewrite task_pc_insert.
        destruct (decide (task' = t)) as [->|]; [|done]. by destruct Hnv; apply Hs1.
      * exists task'. rewrite task_pc_insert, decide_True by done. auto.
Qed.

(** C36: A task that waits on the channel before the flag becomes ready is not
    forgotten: once the flag is ready and the broadcast is over, in whatever
    order the other tasks ran, its next step ends the wait. *)
Theorem waiting_task_is_woken (s s' : System W) (task : nat) (Hreach : reachable s)
    (Hwaits : waiting (task_pc s task) = true) (Hready : ready (flag s) = false) (Hrun : rtc transition s s')
    (Hready' : ready (flag s') = true) (Hsent : ∀ other, sending (task_pc s' other) = false)
    (Hstill : waiting (task_pc s' task) = true) :
  ∃ s'', fire s' (Step task false) = Some s'' ∧ task_pc s'' task = Idle (Some AWaited).
Proof.
  assert (channel_ok s) as Hch.
  { clear -Hreach WatchLaws0. unfold reachable in Hreach. remember initial as s0 eqn:E0.
    assert (channel_ok s0) as H0 by (subst; apply initial_channel). clear E0.
    induction Hreach as [|s1 s2 s3 [s1' ev s2' Hf] _ IH]; [done|]. apply IH. by eapply fire_channel. }
  assert (will_wake task s') as [Hch' Hw].
  { assert (will_wake task s) as H0 by (split; [done|right; split; [done|congruence]]).
    clear -Hrun H0 WatchLaws0. induction Hrun as [|s1 s2 s3 [s1' ev s2' Hf] _ IH]; [done|].
    apply IH. by eapply will_wake_fire. }
  destruct Hw as [Hver|[_ Hs]]; [|by destruct (Hs Hready') as [t Ht]; rewrite Hsent in Ht].
  assert (watch_value (w_view (tx (flag s'))) = true) as Hval by (rewrite (value_sent _ Hch'); by apply bool_decide_eq_true).
  unfold fire. destruct (task_pc s' task) as [| | | | | | | | | | |seen|seen] eqn:E; try done; cbn [step].
  - rewrite Hval. eexists. split; [done|]. by rewrite task_pc_insert, decide_True.
  - rewrite (seen_none _ Hch' _ _ E).
    assert ((watch_version (w_view (tx (flag s'))) =? 0)%nat = false) as -> by (apply Nat.eqb_neq; lia).
    rewrite Hval. eexists. split; [done|]. by rewrite task_pc_insert, decide_True.
Qed.
End Channel.

Lemma readiness_is_safe_witness :
  flag_ok (run (W := Watch) initial race) ∧ ready (flag (run (W := Watch) initial race)) = true ∧ task_pc (run (W := Watch) initial race) 0 = Idle (Some (AMarked true)).
Proof.
  split; [|by vm_compute].
  apply (readiness_is_safe (run (W := Watch) initial race)). apply run_rtc.
Defined.

Lemma wait_ready_can_wait_forever_witness :
  task_pc (run (run (W := Watch) initial race) [Step 1 false; Call 0 OpIsReady; Step 0 false; Step 1 false]) 1 = WaitChanged 0.
Proof. apply (wait_ready_can_wait_forever (W := Watch)), run_rtc. Defined.

(** The waiter subscribes in time. *)
Definition in_time : list Event :=
  [Call 0 OpSubscribe; Step 0 false; Step 0 false;
   Call 1 OpWaitReady; Step 1 false; Step 1 false; Step 1 false; Step 1 false; Step 1 false].
Definition marked : list Event := [Call 0 (OpMarkReady 1%Z); Step 0 false; Step 0 false; Step 0 false].

Lemma waiting_task_is_woken_witness :
  let s := run (W := Watch) initial in_time in
  ∃ s'', fire (run s marked) (Step 1 false) = Some s'' ∧ task_pc s'' 1 = Idle (Some AWaited).
Proof.
  intros s.
  apply (waiting_task_is_woken s (run s marked) 1); [apply run_rtc|by vm_compute|by vm_compute|apply run_rtc|by vm_compute| |by vm_compute].
  assert (map_Forall (λ _ pc, sending pc = false) (tasks (run s marked))) as Hall by (apply (bool_decide_unpack _); by vm_compute).
  intros task. unfold task_pc. destruct (tasks (run s marked) !! task) eqn:E; [by eapply Hall|done].
Defined.
