(* ===== verification/PasteBurst.v ===== *)
(** * Pastes that arrive as keys ([tui/src/bottom_pane/paste_burst.rs])

    Terminals without bracketed paste deliver a paste as a stream of key
    events.  The detector holds back the first char of a possible burst,
    buffers a burst and hands it to the composer as one paste.  The handlers of
    the composer ([chat_composer.rs]) that drive it are modelled with the text of
    the draft and the cursor at its end: what a paste becomes (line ends, control
    chars, placeholders of large pastes and images, the search prompt), and the
    bang that switches to commands.  Times are milliseconds, and
    [Instant::duration_since] saturates at zero. *)
From stdpp Require Import numbers strings.
From S2P Require Import Prelude RustStr Truncate.

Definition PASTE_BURST_MIN_CHARS : N := 3.
Definition PASTE_ENTER_SUPPRESS_WINDOW : N := 120.
Definition PASTE_BURST_CHAR_INTERVAL : N := 8.
(** Slower on Windows. *)
Definition PASTE_BURST_ACTIVE_IDLE_TIMEOUT (windows : bool) : N := if windows then 60 else 8.
Definition U16_MAX : N := 65535.
Definition TAB : char := 9%N.

(** [PasteBurst]. *)
Record PasteBurst : Type := mkBurst {
  last_plain_char_time : option N;
  consecutive_plain_char_burst : N;
  burst_window_until : option N;
  buffer : str;
  active : bool;
  pending_first_char : option (char * N);
}.
Definition burst_default : PasteBurst := mkBurst None 0 None [] false None.

Inductive CharDecision : Type :=
  | BeginBuffer (retro_chars : N)
  | BufferAppend
  | RetainFirstChar
  | BeginBufferFromPending.
Inductive FlushResult : Type := FlushPaste (s : str) | FlushTyped (c : char) | FlushNone.
Record RetroGrab : Type := mkGrab { start_byte : N; grabbed : str }.

Implicit Types (b : PasteBurst) (now : N).

(** [note_plain_char]. *)
Definition note_plain_char b now : PasteBurst :=
  let count :=
    match last_plain_char_time b with
    | Some prev => if (now - prev <=? PASTE_BURST_CHAR_INTERVAL)%N
                   then N.min (consecutive_plain_char_burst b + 1) U16_MAX else 1%N
    | None => 1%N
    end in
  mkBurst (Some now) count (burst_window_until b) (buffer b) (active b) (pending_first_char b).

(** [extend_window]. *)
Definition extend_window b now : PasteBurst :=
  mkBurst (last_plain_char_time b) (consecutive_plain_char_burst b) (Some (now + PASTE_ENTER_SUPPRESS_WINDOW)%N)
    (buffer b) (active b) (pending_first_char b).

(** [on_plain_char]. *)
Definition on_plain_char b (ch : char) now : CharDecision * PasteBurst :=
  let b := note_plain_char b now in
  if active b then (BufferAppend, extend_window b now)
  else
    let retain :=
      if (PASTE_BURST_MIN_CHARS <=? consecutive_plain_char_burst b)%N
      then (BeginBuffer (consecutive_plain_char_burst b - 1)%N, b)
      else (RetainFirstChar, mkBurst (last_plain_char_time b) (consecutive_plain_char_burst b) (burst_window_until b)
                               (buffer b) (active b) (Some (ch, now))) in
    match pending_first_char b with
    | Some (held, held_at) =>
        if (now - held_at <=? PASTE_BURST_CHAR_INTERVAL)%N
        then (BeginBufferFromPending,
              mkBurst (last_plain_char_time b) (consecutive_plain_char_burst b) (Some (now + PASTE_ENTER_SUPPRESS_WINDOW)%N)
                (buffer b ++ [held]) true None)
        else retain
    | None => retain
    end.

(** [on_plain_char_no_hold]. *)
Definition on_plain_char_no_hold b now : option CharDecision * PasteBurst :=
  let b := note_plain_char b now in
  if active b then (Some BufferAppend, extend_window b now)
  else if (PASTE_BURST_MIN_CHARS <=? consecutive_plain_char_burst b)%N
  then (Some (BeginBuffer (consecutive_plain_char_burst b - 1)%N), b)
  else (None, b).

(** [is_active_internal] and [is_active]. *)
Definition is_active_internal b : bool := active b || negb (str_eqb (buffer b) []).
Definition is_active b : bool := is_active_internal b || bool_decide (is_Some (pending_first_char b)).

(** [last_plain_char_time.is_some_and(|t| now.duration_since(t) > timeout)]. *)
Definition idle_for b (timeout : N) now : bool :=
  match last_plain_char_time b with Some t => (timeout <? now - t)%N | None => false end.

(** [flush_if_due]. *)
Definition flush_if_due (windows : bool) b now : FlushResult * PasteBurst :=
  let timeout := if is_active_internal b then PASTE_BURST_ACTIVE_IDLE_TIMEOUT windows else PASTE_BURST_CHAR_INTERVAL in
  let timed_out := idle_for b timeout now in
  if timed_out && is_active_internal b then
    (FlushPaste (buffer b), mkBurst (last_plain_char_time b) (consecutive_plain_char_burst b) (burst_window_until b)
                              [] false (pending_first_char b))
  else if timed_out then
    match pending_first_char b with
    | Some (ch, _) => (FlushTyped ch, mkBurst (last_plain_char_time b) (consecutive_plain_char_burst b)
                                        (burst_window_until b) (buffer b) (active b) None)
    | None => (FlushNone, b)
    end
  else (FlushNone, b).

(** [append_newline_if_active]. *)
Definition append_newline_if_active b now : bool * PasteBurst :=
  if is_active b then
    (true, mkBurst (last_plain_char_time b) (consecutive_plain_char_burst b) (Some (now + PASTE_ENTER_SUPPRESS_WINDOW)%N)
             (buffer b ++ [LF]) (active b) (pending_first_char b))
  else (false, b).

(** [newline_should_insert_instead_of_submit] and
    [direct_insert_newline_should_insert]. *)
Definition in_burst_window b now : bool :=
  match burst_window_until b with Some until => (now <=? until)%N | None => false end.
Definition newline_should_insert_instead_of_submit b now : bool := is_active b || in_burst_window b now.
Definition direct_insert_newline_should_insert b now : bool :=
  newline_should_insert_instead_of_submit b now ||
  match last_plain_char_time b with Some t => (now - t <=? PASTE_BURST_CHAR_INTERVAL)%N | None => false end.

(** [begin_with_retro_grabbed], [append_char_to_buffer],
    [try_append_char_if_active]. *)
Definition begin_with_retro_grabbed b (text : str) now : PasteBurst :=
  mkBurst (last_plain_char_time b) (consecutive_plain_char_burst b) (Some (now + PASTE_ENTER_SUPPRESS_WINDOW)%N)
    (buffer b ++ text) true (pending_first_char b).
Definition append_char_to_buffer b (ch : char) now : PasteBurst :=
  mkBurst (last_plain_char_time b) (consecutive_plain_char_burst b) (Some (now + PASTE_ENTER_SUPPRESS_WINDOW)%N)
    (buffer b ++ [ch]) (active b) (pending_first_char b).
Definition try_append_char_if_active b (ch : char) now : bool * PasteBurst :=
  if active b || negb (str_eqb (buffer b) []) then (true, append_char_to_buffer b ch now) else (false, b).

(** [retro_start_index]: the byte offset of the last [retro_chars] chars. *)
Definition retro_start_index (before : str) (retro_chars : nat) : N :=
  if (retro_chars =? 0)%nat then blen before else blen (take (length before - retro_chars) before).

(** [decide_begin_buffer]. *)
Definition decide_begin_buffer b now (before : str) (retro_chars : nat) : option RetroGrab * PasteBurst :=
  let start_byte := retro_start_index before retro_chars in
  let grabbed := drop (length before - retro_chars) before in
  if existsb is_whitespace grabbed || (16 <=? length grabbed)%nat
  then (Some (mkGrab start_byte grabbed), begin_with_retro_grabbed b grabbed now)
  else (None, b).

(** [flush_before_modified_input]. *)
Definition flush_before_modified_input b : option str * PasteBurst :=
  if is_active b then
    (Some (buffer b ++ match pending_first_char b with Some (ch, _) => [ch] | None => [] end),
     mkBurst (last_plain_char_time b) (consecutive_plain_char_burst b) (burst_window_until b) [] false None)
  else (None, b).

(** [clear_window_after_non_char] and [clear_after_explicit_paste]. *)
Definition clear_window_after_non_char b : PasteBurst := mkBurst None 0 None (buffer b) false None.
Definition clear_after_explicit_paste b : PasteBurst := mkBurst None 0 None [] false None.

(** ** The composer *)

(** A piece of the text area: a char, or an element that is edited as a whole
    (the placeholder of a paste or of an image). *)
Inductive Cell : Type := Plain (c : char) | Element (s : str).

(** The draft as far as the handlers below use it, with the cursor at the end of
    the text. *)
Record Composer : Type := mkComposer {
  paste_burst : PasteBurst;
  before : list Cell;
  is_bash_mode : bool;
  (** the text of the search prompt, when one is open *)
  vim_query : option str;
  pending_pastes : list (str * str);
  local_images : list str;
}.

(** Settings and surroundings: the platform, the configuration, whether the text
    area takes plain chars, the images of the server, and the path of the image
    that a text names, if it can be read ([normalize_pasted_path] and the image
    library). *)
Record Surroundings : Type := mkSurroundings {
  windows : bool;
  image_paste_enabled : bool;
  disable_paste_burst : bool;
  allows_paste_burst : bool;
  remote_image_urls : nat;
  names_image : str → option str;
}.

Implicit Types c : Composer.

Definition shown (p : Cell) : str := match p with Plain c => [c] | Element s => s end.
Definition text_before c : str := before c ≫= shown.

Definition with_burst c b : Composer :=
  mkComposer b (before c) (is_bash_mode c) (vim_query c) (pending_pastes c) (local_images c).
Definition with_before c (cells : list Cell) : Composer :=
  mkComposer (paste_burst c) cells (is_bash_mode c) (vim_query c) (pending_pastes c) (local_images c).
Definition with_query c (query : str) : Composer :=
  mkComposer (paste_burst c) (before c) (is_bash_mode c) (Some query) (pending_pastes c) (local_images c).
Definition with_pastes c (pastes : list (str * str)) : Composer :=
  mkComposer (paste_burst c) (before c) (is_bash_mode c) (vim_query c) pastes (local_images c).

(** [textarea.replace_range(start..cursor, "")]: the first [n] chars stay, but an
    element that the range reaches goes as a whole. *)
Fixpoint keep_chars (n : nat) (cells : list Cell) : list Cell :=
  match cells with
  | [] => []
  | p :: cells => if (length (shown p) <=? n)%nat then p :: keep_chars (n - length (shown p)) cells else []
  end.
(** [replace_range(0..1, "")]. *)
Fixpoint drop_first (cells : list Cell) : list Cell :=
  match cells with
  | [] => []
  | p :: cells => if str_eqb (shown p) [] then p :: drop_first cells else cells
  end.

(** [sync_bash_mode_from_text]. *)
Definition sync_bash_mode_from_text c : Composer :=
  if negb (is_bash_mode c) && starts_with (lit "!") (text_before c)
  then mkComposer (paste_burst c) (drop_first (before c)) true (vim_query c) (pending_pastes c) (local_images c)
  else c.

(** [insert_str]. *)
Definition insert_str c (text : str) : Composer :=
  sync_bash_mode_from_text (with_before c (before c ++ (Plain <$> text))).

(** [replace("\r\n", "\n").replace('\r', "\n")]. *)
Fixpoint normalize_line_ends (s : str) : str :=
  match s with
  | [] => []
  | ch :: s =>
      if (ch =? CR)%N
      then match s with
           | ch' :: s' => if (ch' =? LF)%N then LF :: normalize_line_ends s' else LF :: normalize_line_ends s
           | [] => [LF]
           end
      else ch :: normalize_line_ends s
  end.

(** [sanitize_user_text]: control chars and the sequences of the terminal go. *)
Definition is_control (ch : char) : bool := (ch <? 32)%N || ((127 <=? ch) && (ch <? 160))%N.
Inductive SanitizeState : Type := InText | AfterEscape | InSequence.
Fixpoint sanitize_from (state : SanitizeState) (s : str) : str :=
  match s with
  | [] => []
  | ch :: s =>
      let text :=
        if (ch =? 27)%N then sanitize_from AfterEscape s
        else if is_control ch && negb ((ch =? LF) || (ch =? TAB))%N then sanitize_from InText s
        else ch :: sanitize_from InText s in
      match state with
      | InText => text
      | AfterEscape => if (ch =? 91)%N then sanitize_from InSequence s else text
      | InSequence => if ((64 <=? ch) && (ch <=? 126))%N then sanitize_from InText s else sanitize_from InSequence s
      end
  end.
Definition sanitize_user_text (s : str) : str := sanitize_from InText s.

Definition LARGE_PASTE_CHAR_THRESHOLD : nat := 1000.

(** [parse::<usize>()]. *)
Definition parse_usize (s : str) : option N :=
  let digits := match s with ch :: s' => if (ch =? 43)%N then s' else s | [] => [] end in
  if str_eqb digits [] || negb (forallb is_ascii_digit digits) then None
  else let value := foldl (λ acc ch, (acc * 10 + (ch - 48))%N) 0%N digits in
       if (value <? 2 ^ 64)%N then Some value else None.

(** [next_large_paste_placeholder]. *)
Definition next_large_paste_placeholder c (char_count : nat) : str :=
  let base := lit "[Pasted Content " ++ fmt_nat char_count ++ lit " chars]" in
  let prefix := base ++ lit " #" in
  let max_suffix :=
    foldl (λ max_suffix '(placeholder, _),
      if str_eqb placeholder base then N.max max_suffix 1
      else match strip_prefix prefix placeholder with
           | Some suffix => match parse_usize suffix with Some value => N.max max_suffix value | None => max_suffix end
           | None => max_suffix
           end) 0%N (pending_pastes c) in
  if (max_suffix =? 0)%N then base else base ++ lit " #" ++ fmt_N (max_suffix + 1).

Section Composer.
Context (env : Surroundings).

(** [local_image_label_text] and [attach_image]. *)
Definition local_image_label_text (label_number : nat) : str := lit "[Image #" ++ fmt_nat label_number ++ lit "]".
Definition attach_image c (path : str) : Composer :=
  let placeholder := local_image_label_text (remote_image_urls env + length (local_images c) + 1) in
  mkComposer (paste_burst c) (before c ++ [Element placeholder]) (is_bash_mode c) (vim_query c) (pending_pastes c)
    (local_images c ++ [path]).

(** [handle_paste]. *)
Definition handle_paste c (pasted : str) : Composer :=
  let pasted := sanitize_user_text (normalize_line_ends pasted) in
  match vim_query c with
  | Some query => with_query c (query ++ pasted)
  | None =>
      let char_count := length pasted in
      let c :=
        if (LARGE_PASTE_CHAR_THRESHOLD <? char_count)%nat then
          let placeholder := next_large_paste_placeholder c char_count in
          with_pastes (with_before c (before c ++ [Element placeholder])) (pending_pastes c ++ [(placeholder, pasted)])
        else
          match (if (1 <? char_count)%nat && image_paste_enabled env then names_image env pasted else None) with
          | Some path => let c := attach_image c path in with_before c (before c ++ [Plain 32%N])
          | None => insert_str c pasted
          end in
      with_burst c (clear_after_explicit_paste (paste_burst c))
  end.

(** [textarea.input] of a char. *)
Definition input_char c (ch : char) : Composer :=
  match vim_query c with
  | Some query => with_query c (query ++ [ch])
  | None => with_before c (before c ++ [Plain ch])
  end.

(** [handle_paste_burst_flush]. *)
Definition handle_paste_burst_flush c now : Composer :=
  match flush_if_due (windows env) (paste_burst c) now with
  | (FlushPaste pasted, b) => handle_paste (with_burst c b) pasted
  | (FlushTyped ch, b) => insert_str (with_burst c b) [ch]
  | (FlushNone, b) => with_burst c b
  end.

(** [if let Some(pasted) = flush_before_modified_input() { handle_paste(pasted) }]. *)
Definition flush_pending c : Composer :=
  match flush_before_modified_input (paste_burst c) with
  | (Some pasted, b) => handle_paste (with_burst c b) pasted
  | (None, b) => with_burst c b
  end.

(** The branch for [BeginBuffer]: [None] when the char is inserted as usual. *)
Definition begin_buffer c (ch : char) now (retro_chars : N) : option Composer :=
  let text := text_before c in
  match decide_begin_buffer (paste_burst c) now text (N.to_nat retro_chars) with
  | (Some grab, b) =>
      Some (with_burst (with_before c (if str_eqb (grabbed grab) [] then before c
                                       else keep_chars (length text - length (grabbed grab)) (before c)))
              (append_char_to_buffer b ch now))
  | (None, _) => None
  end.

(** [handle_non_ascii_char]. *)
Definition keep_shown_pastes c : Composer :=
  with_pastes c (List.filter (λ '(placeholder, _), contains placeholder (text_before c)) (pending_pastes c)).
Definition handle_non_ascii_char c (ch : char) now : Composer :=
  if disable_paste_burst env then keep_shown_pastes (input_char c ch)
  else
    match try_append_char_if_active (paste_burst c) ch now with
    | (true, b) => with_burst c b
    | (false, b) =>
        let c := flush_pending (with_burst c b) in
        let '(decision, b) := on_plain_char_no_hold (paste_burst c) now in
        let c := with_burst c b in
        let insert := keep_shown_pastes (input_char (flush_pending c) ch) in
        match decision with
        | Some BufferAppend => with_burst c (append_char_to_buffer (paste_burst c) ch now)
        | Some (BeginBuffer retro_chars) => default insert (begin_buffer c ch now retro_chars)
        | _ => insert
        end
    end.

(** [handle_input_basic_with_time] for a char without shortcut modifiers. *)
Definition handle_char c (ch : char) now : Composer :=
  let c := handle_paste_burst_flush c now in
  let insert c := sync_bash_mode_from_text (input_char (flush_pending c) ch) in
  if disable_paste_burst env || negb (allows_paste_burst env) then insert c
  else if (127 <? ch)%N then handle_non_ascii_char c ch now
  else
    let '(decision, b) := on_plain_char (paste_burst c) ch now in
    let c := with_burst c b in
    match decision with
    | BufferAppend | BeginBufferFromPending => with_burst c (append_char_to_buffer (paste_burst c) ch now)
    | BeginBuffer retro_chars => default (insert c) (begin_buffer c ch now retro_chars)
    | RetainFirstChar => c
    end.

(** [handle_submission_with_time] for Enter: [true] when the line end is not
    part of a paste, and the message is submitted or queued. *)
Definition handle_enter c (should_queue in_slash_context : bool) now : bool * Composer :=
  if should_queue || in_slash_context || disable_paste_burst env then (true, c)
  else
    match append_newline_if_active (paste_burst c) now with
    | (true, b) => (false, with_burst c b)
    | (false, b) =>
        if newline_should_insert_instead_of_submit b now
        then (false, with_burst (with_before c (before c ++ [Plain LF])) (extend_window b now))
        else (true, c)
    end.

(** Another key, without its effect on the text. *)
Definition handle_other_key c now : Composer :=
  let c := flush_pending (handle_paste_burst_flush c now) in
  with_burst c (clear_window_after_non_char (paste_burst c)).

(** [set_disable_paste_burst(true)], when detection was on. *)
Definition stop_detecting c : Composer :=
  let c := flush_pending c in with_burst c (clear_after_explicit_paste (paste_burst c)).

(** What the composer is asked to do. *)
Inductive KeyInput : Type :=
  | KeyChar (ch : char) (at_ : N)
  | KeyEnter (should_queue in_slash_context : bool) (at_ : N)
  | KeyOther (at_ : N)
  | Tick (at_ : N).

(** One input; after a submission the draft starts anew elsewhere, so a run
    stops there. *)
Definition handle_input c (k : KeyInput) : option Composer :=
  match k with
  | KeyChar ch now => Some (handle_char c ch now)
  | KeyEnter should_queue in_slash_context now =>
      match handle_enter c should_queue in_slash_context now with (true, _) => None | (false, c) => Some c end
  | KeyOther now => Some (handle_other_key c now)
  | Tick now => Some (handle_paste_burst_flush c now)
  end.
Fixpoint handle_inputs c (keys : list KeyInput) : option Composer :=
  match keys with
  | [] => Some c
  | k :: keys => match handle_input c k with Some c => handle_inputs c keys | None => None end
  end.
End Composer.

(** * No key is lost in a paste burst *)

(** The chars that the detector holds. *)
Definition held c : str :=
  buffer (paste_burst c) ++ match pending_first_char (paste_burst c) with Some (ch, _) => [ch] | None => [] end.
(** The chars of an input. *)
Definition typed (k : KeyInput) : str :=
  match k with KeyChar ch _ => [ch] | KeyEnter _ _ _ => [LF] | _ => [] end.

Lemma shown_plain l : (Plain <$> l) ≫= shown = l.
Proof. induction l as [|c l IH]; [done|]. cbn. by rewrite IH. Qed.

(** A char that a paste leaves as it is. *)
Definition plain_char (ch : char) : bool := negb (is_control ch) || (ch =? LF)%N || (ch =? TAB)%N.

Lemma plain_char_spec ch : plain_char ch = true →
  (ch =? CR)%N = false ∧ (ch =? 27)%N = false ∧ is_control ch && negb ((ch =? LF) || (ch =? TAB))%N = false.
Proof.
  unfold plain_char. destruct (N.eqb_spec ch CR) as [->|_]; [done|]. destruct (N.eqb_spec ch 27) as [->|_]; [done|].
  by destruct (is_control ch), (ch =? LF)%N, (ch =? TAB)%N.
Qed.

Lemma paste_text_plain s : Forall (λ ch, plain_char ch = true) s → sanitize_user_text (normalize_line_ends s) = s.
Proof.
  intros Hs. assert (normalize_line_ends s = s) as ->.
  { induction Hs as [|ch s Hch _ IH]; [done|]. cbn [normalize_line_ends]. apply plain_char_spec in Hch as (-> & _). by rewrite IH. }
  unfold sanitize_user_text. induction Hs as [|ch s Hch _ IH]; [done|]. cbn [sanitize_from].
  apply plain_char_spec in Hch as (_ & -> & ->). by rewrite IH.
Qed.

(** ** Ordinary text *)

Section Typing.
Context (env : Surroundings) (base : list Cell) (bash : bool).
Implicit Types w : str.

(** A typed text that no paste turns into something else: chars that pastes
    keep, too few for a placeholder, no part of it an image, and no bang where it
    would switch to commands. *)
Record ordinary w : Prop := {
  ordinary_chars : Forall (λ ch, plain_char ch = true) w;
  ordinary_small : length w ≤ LARGE_PASTE_CHAR_THRESHOLD;
  ordinary_images : ∀ p s q, w = p ++ s ++ q → image_paste_enabled env = false ∨ names_image env s = None;
  ordinary_bang : bash = true ∨ head ((base ≫= shown) ++ w) ≠ Some (chr "!");
}.

Lemma ordinary_prefix w v : ordinary (w ++ v) → ordinary w.
Proof.
  intros [Hc Hs Hi Hb]. split.
  - by apply Forall_app in Hc as [? _].
  - rewrite length_app in Hs. lia.
  - intros p s q ->. apply (Hi p s (q ++ v)). by rewrite <- !app_assoc.
  - destruct Hb as [?|Hb]; [by left|]. right. rewrite app_assoc in Hb. by destruct (_ ++ w).
Qed.

(** At least [n] typed chars stand at the end. *)
Definition typed_tail (n : N) (cells : list Cell) : Prop :=
  ∃ q l, cells = base ++ q ++ (Plain <$> l) ∧ (n ≤ N.of_nat (length l))%N.

(** The text of the composer and the chars held are what was there and [w]. *)
Record burst_ok w c : Prop := {
  pending_ok : ∀ ch t, pending_first_char (paste_burst c) = Some (ch, t) →
    last_plain_char_time (paste_burst c) = Some t ∧ active (paste_burst c) = false;
  active_timed : active (paste_burst c) = true → is_Some (last_plain_char_time (paste_burst c));
  idle_buffer : active (paste_burst c) = false → buffer (paste_burst c) = [];
  idle_count : active (paste_burst c) = false →
    typed_tail (consecutive_plain_char_burst (paste_burst c) -
                match pending_first_char (paste_burst c) with Some _ => 1 | None => 0 end) (before c);
  texts : ∃ q, before c = base ++ q ∧ (q ≫= shown) ++ held c = w;
  modes : is_bash_mode c = bash ∧ vim_query c = None;
}.

Lemma typed_tail_0 q : typed_tail 0 (base ++ q).
Proof. exists q, []. rewrite app_nil_r. split; [done|]. cbn. lia. Qed.
Lemma typed_tail_snoc n cells ch : typed_tail n cells → typed_tail (n + 1) (cells ++ [Plain ch]).
Proof.
  intros (q & l & -> & Hn). exists q, (l ++ [ch]). rewrite fmap_app, <- !app_assoc. split; [done|].
  rewrite length_app. cbn. lia.
Qed.
Lemma typed_tail_le n n' cells : (n' ≤ n)%N → typed_tail n cells → typed_tail n' cells.
Proof. intros Hle (q & l & -> & Hn). exists q, l. split; [done|lia]. Qed.

(** A text that begins with what was there does not switch to commands. *)
Lemma sync_quiet w q c :
  ordinary w → is_bash_mode c = bash → before c = base ++ q → (∃ v, w = (q ≫= shown) ++ v) → sync_bash_mode_from_text c = c.
Proof.
  intros Hord Hm Hb [v Hw]. unfold sync_bash_mode_from_text. rewrite Hm.
  destruct (ordinary_bang w Hord) as [->|Hbang]; [done|].
  assert (starts_with (lit "!") (text_before c) = false) as ->; [|by rewrite andb_false_r].
  unfold text_before. rewrite Hb, bind_app. rewrite Hw, app_assoc in Hbang.
  destruct ((base ≫= shown) ++ (q ≫= shown)) as [|x l] eqn:E; [done|]. cbn in Hbang |- *.
  unfold starts_with. destruct (strip_prefix _ _) as [k|] eqn:Es; [|done]. apply strip_prefix_Some in Es as [= -> _]. by destruct Hbang.
Qed.

(** A paste of held chars puts them behind the text. *)
Lemma handle_paste_plain w q c s :
  ordinary w → is_bash_mode c = bash → vim_query c = None → before c = base ++ q → (q ≫= shown) ++ s = w →
  handle_paste env c s = with_burst (with_before c (base ++ q ++ (Plain <$> s))) (clear_after_explicit_paste (paste_burst c)).
Proof.
  intros Hord Hm Hv Hb Hw. unfold handle_paste.
  assert (Forall (λ ch, plain_char ch = true) s) as Hs.
  { pose proof (ordinary_chars w Hord) as Hc. rewrite <- Hw in Hc. by apply Forall_app in Hc as [_ ?]. }
  rewrite paste_text_plain, Hv by done.
  assert ((LARGE_PASTE_CHAR_THRESHOLD <? length s) = false) as ->.
  { apply Nat.ltb_ge. pose proof (ordinary_small w Hord) as Hl. rewrite <- Hw, length_app in Hl. lia. }
  assert (image_paste_enabled env = false ∨ names_image env s = None) as Himg.
  { apply (ordinary_images w Hord (q ≫= shown) s []). by rewrite app_nil_r. }
  assert ((if (1 <? length s) && image_paste_enabled env then names_image env s else None) = None) as ->.
  { destruct Himg as [-> | ->]; [by rewrite andb_false_r|by case_match]. }
  unfold insert_str. rewrite (sync_quiet w (q ++ (Plain <$> s))); [|done..| |].
  - unfold with_before. cbn. by rewrite Hb, <- app_assoc.
  - cbn. by rewrite Hb, <- app_assoc.
  - exists []. by rewrite bind_app, shown_plain, app_nil_r.
Qed.

Lemma is_active_cases b :
  (active b = false → buffer b = []) →
  is_active b = active b || bool_decide (is_Some (pending_first_char b)) ∧ is_active_internal b = active b.
Proof.
  intros Hb. unfold is_active, is_active_internal. destruct (active b); [done|]. rewrite Hb by done. done.
Qed.

(** ** Flushes *)

Lemma held_nil c : held c = [] → pending_first_char (paste_burst c) = None.
Proof. unfold held. intros [_ H]%app_nil. by destruct (pending_first_char (paste_burst c)) as [[]|]. Qed.

(** A burst that was handed over leaves nothing held. *)
Lemma pasted_ok w q c b s :
  ordinary w → is_bash_mode c = bash → vim_query c = None → before c = base ++ q → (q ≫= shown) ++ s = w →
  let c' := handle_paste env (with_burst c b) s in
  burst_ok w c' ∧ held c' = [] ∧ text_before c' = (base ≫= shown) ++ w ∧ active (paste_burst c') = false.
Proof.
  intros Hord Hm Hv Hb Hw. cbn zeta. rewrite (handle_paste_plain w q) by done. split_and!; [|done| |done].
  - split; cbn; [done..|by intros _; apply typed_tail_0| |done]. exists (q ++ (Plain <$> s)). split; [done|].
    unfold held. cbn. by rewrite bind_app, shown_plain, !app_nil_r.
  - unfold text_before. cbn. by rewrite !bind_app, shown_plain, <- Hw.
Qed.

Lemma flush_pending_ok w c :
  ordinary w → burst_ok w c → let c' := flush_pending env c in
  burst_ok w c' ∧ pending_first_char (paste_burst c') = None ∧
  active (paste_burst c') = false ∧ held c' = [].
Proof.
  intros Hord Hok. pose proof Hok as [Hp Ht Hb Hc (q & Hq & Hw) [Hm Hv]]. unfold flush_pending, flush_before_modified_input.
  destruct (is_active_cases (paste_burst c) Hb) as [-> _].
  destruct (active (paste_burst c) || bool_decide _) eqn:E.
  - match goal with |- context [with_burst c ?b] => destruct (pasted_ok w q c b _ Hord Hm Hv Hq Hw) as (H1 & H2 & _ & H4) end. cbn zeta. split_and!; [exact H1| |exact H4|exact H2].
    by apply held_nil.
  - apply orb_false_iff in E as [Ea Ep%bool_decide_eq_false]. destruct (pending_first_char (paste_burst c)) as [[]|] eqn:Epc;
      [by destruct Ep|]. destruct c. split_and!; [done..|]. unfold held. cbn in *. by rewrite Epc, Hb.
Qed.

Lemma insert_str_ok w q c ch :
  ordinary (w ++ [ch]) → is_bash_mode c = bash → before c = base ++ q → (q ≫= shown) = w →
  insert_str c [ch] = with_before c (before c ++ [Plain ch]).
Proof.
  intros Hord Hm Hb Hw. apply (sync_quiet (w ++ [ch]) (q ++ [Plain ch])); [done..|by rewrite app_assoc, <- Hb|].
  exists []. by rewrite bind_app, Hw, app_nil_r.
Qed.

Lemma handle_paste_burst_flush_ok w c now :
  ordinary w → burst_ok w c → let c' := handle_paste_burst_flush env c now in
  burst_ok w c' ∧
  (∀ ch t, pending_first_char (paste_burst c') = Some (ch, t) → (now - t ≤ PASTE_BURST_CHAR_INTERVAL)%N) ∧
  ((∀ t, last_plain_char_time (paste_burst c) = Some t → 60 < now - t)%N → held c' = []).
Proof.
  intros Hord Hok. pose proof Hok as [Hp Ht Hb Hc (q & Hq & Hw) [Hm Hv]]. unfold handle_paste_burst_flush, flush_if_due.
  destruct (is_active_cases (paste_burst c) Hb) as [_ ->].
  destruct (active (paste_burst c)) eqn:Ea.
  - assert (pending_first_char (paste_burst c) = None) as Epc.
    { destruct (pending_first_char (paste_burst c)) as [[ch t]|] eqn:E; [|done]. by destruct (Hp ch t eq_refl). }
    destruct (idle_for _ _ _) eqn:Et; cbn [andb].
    + unfold held in Hw. rewrite Epc, app_nil_r in Hw.
      match goal with |- context [with_burst c ?b] => destruct (pasted_ok w q c b _ Hord Hm Hv Hq Hw) as (H1 & H2 & _ & _) end.
      cbn zeta. split_and!; [exact H1| |done]. intros ch t. by rewrite (held_nil _ H2).
    + destruct c. split_and!; [done|by cbn in *; rewrite Epc|]. intros Hlate. exfalso. cbn in *. unfold idle_for in Et.
      destruct (Ht eq_refl) as [t Hlt]. rewrite Hlt in Et. apply N.ltb_ge in Et. specialize (Hlate t Hlt).
      unfold PASTE_BURST_ACTIVE_IDLE_TIMEOUT in Et. destruct (windows env); lia.
  - destruct (idle_for _ _ _) eqn:Et; cbn [andb].
    + destruct (pending_first_char (paste_burst c)) as [[ch t]|] eqn:Epc.
      2:{ destruct c. split_and!; [done|by cbn in *; rewrite Epc|]. intros _. unfold held. cbn in *. by rewrite Epc, Hb. }
      unfold held in Hw. rewrite Hb, Epc in Hw by done. cbn [app] in Hw.
      assert (before c ++ [Plain ch] = base ++ q ++ [Plain ch]) as Hq' by (by rewrite Hq, <- app_assoc).
      rewrite (insert_str_ok (q ≫= shown) q); [|by rewrite Hw|done..].
      split_and!; [|done|intros _; unfold held; cbn; by rewrite Hb].
      split; cbn; [done|done|auto| |exists (q ++ [Plain ch]); split; [done|]|done].
      * intros _. specialize (Hc eq_refl). eapply typed_tail_le; [|by apply typed_tail_snoc]. cbn. lia.
      * unfold held. cbn. rewrite bind_app, Hb, !app_nil_r by done. exact Hw.
    + destruct c. split_and!; [done|..].
      * cbn in *. intros ch t Epc. destruct (Hp ch t Epc) as [El _].
        unfold idle_for in Et. rewrite El in Et. by apply N.ltb_ge in Et.
      * intros Hlate. unfold held. cbn in *. rewrite Hb by done. destruct (pending_first_char _) as [[ch t]|] eqn:Epc; [|done].
        exfalso. destruct (Hp ch t eq_refl) as [El _]. unfold idle_for in Et. rewrite El in Et. apply N.ltb_ge in Et.
        specialize (Hlate t El). unfold PASTE_BURST_CHAR_INTERVAL in Et. lia.
Qed.

(** ** Chars *)

Lemma keep_chars_plain p0 l k :
  keep_chars (length (p0 ≫= shown) + k) (p0 ++ (Plain <$> l)) = p0 ++ (Plain <$> take k l).
Proof.
  induction p0 as [|p p0 IH].
  - cbn. revert k. induction l as [|c l IH]; intros [|k]; cbn; [done..|]. rewrite Nat.sub_0_r. by rewrite IH.
  - cbn [app keep_chars mbind list_bind]. rewrite length_app.
    assert ((length (shown p) <=? length (shown p) + length (p0 ≫= shown) + k)%nat = true) as -> by (apply Nat.leb_le; lia).
    replace (length (shown p) + length (p0 ≫= shown) + k - length (shown p)) with (length (p0 ≫= shown) + k) by lia.
    by rewrite IH.
Qed.

(** Nothing is held, and the text shows all. *)
Record idle_ok w c : Prop := {
  idle_state : active (paste_burst c) = false ∧ pending_first_char (paste_burst c) = None ∧ buffer (paste_burst c) = [];
  idle_text : ∃ q, before c = base ++ q ∧ (q ≫= shown) = w;
  idle_modes : is_bash_mode c = bash ∧ vim_query c = None;
}.
Lemma idle_of w c : burst_ok w c → active (paste_burst c) = false → pending_first_char (paste_burst c) = None → idle_ok w c.
Proof.
  intros [_ _ Hb _ (q & Hq & Hw) Hm] Ha Hp. specialize (Hb Ha). split; [done| |done]. exists q. split; [done|].
  unfold held in Hw. by rewrite Hb, Hp, !app_nil_r in Hw.
Qed.
Lemma flush_idle w c : idle_ok w c → flush_pending env c = c.
Proof.
  intros [(Ha & Hp & Hb) _ _]. unfold flush_pending, flush_before_modified_input, is_active, is_active_internal.
  rewrite Ha, Hp, Hb. by destruct c.
Qed.

(** A retroactive grab moves typed chars into the buffer. *)
Lemma begin_buffer_ok w c ch now retro c' :
  idle_ok w c → is_Some (last_plain_char_time (paste_burst c)) → typed_tail retro (before c) →
  begin_buffer c ch now retro = Some c' → burst_ok (w ++ [ch]) c'.
Proof.
  intros [(Ha & Hp & Hbuf) (q0 & Hq0 & Hw) Hmodes] Htime (q & l & Hl & Hn).
  unfold begin_buffer, decide_begin_buffer. destruct (existsb _ _ || _); [|done]. cbn [grabbed]. intros [= <-].
  assert (text_before c = ((base ++ q) ≫= shown) ++ l) as Htext.
  { unfold text_before. by rewrite Hl, app_assoc, (bind_app _ (base ++ q)), shown_plain. }
  set (n := N.to_nat retro). assert (n ≤ length l) as Hnl by lia.
  assert (drop (length (text_before c) - n) (text_before c) = drop (length l - n) l) as ->.
  { rewrite Htext, length_app, drop_app, drop_ge by lia. cbn. f_equal. lia. }
  assert ((if str_eqb (drop (length l - n) l) [] then before c
           else keep_chars (length (text_before c) - length (drop (length l - n) l)) (before c)) =
          base ++ q ++ (Plain <$> take (length l - n) l)) as ->.
  { destruct (str_eqb _ _) eqn:E.
    - apply str_eqb_eq in E. rewrite Hl. do 3 f_equal. rewrite <- (take_drop (length l - n) l) at 1. by rewrite E, app_nil_r.
    - rewrite Htext, length_app, length_drop, Hl.
      replace (length ((base ++ q) ≫= shown) + length l - (length l - (length l - n)))
        with (length ((base ++ q) ≫= shown) + (length l - n)) by lia.
      rewrite app_assoc, keep_chars_plain. by rewrite <- app_assoc. }
  split; cbn; [by rewrite Hp|done|done|done| |done].
  exists (q ++ (Plain <$> take (length l - n) l)). split; [done|]. unfold held. cbn. rewrite Hp, Hbuf. cbn.
  rewrite bind_app, shown_plain, !app_nil_r. rewrite Hl in Hq0. apply app_inv_head in Hq0 as <-.
  rewrite bind_app, shown_plain in Hw. rewrite <- Hw, <- !app_assoc. f_equal. by rewrite app_assoc, take_drop.
Qed.

(** A char that is inserted as usual. *)
Lemma input_char_ok w c ch :
  ordinary (w ++ [ch]) → idle_ok w c → typed_tail (consecutive_plain_char_burst (paste_burst c) - 1) (before c) →
  burst_ok (w ++ [ch]) (sync_bash_mode_from_text (input_char c ch)) ∧
  burst_ok (w ++ [ch]) (keep_shown_pastes (input_char c ch)).
Proof.
  intros Hord [(Ha & Hp & Hbuf) (q & Hq & Hw) [Hm Hv]] Htail. unfold input_char. rewrite Hv.
  assert (∀ pastes, burst_ok (w ++ [ch]) (with_pastes (with_before c (before c ++ [Plain ch])) pastes)) as Hok.
  { intros pastes. split; cbn; [by rewrite Hp|by rewrite Ha|done| | |done].
    - intros _. rewrite Hp. eapply typed_tail_le; [|by apply typed_tail_snoc]. lia.
    - exists (q ++ [Plain ch]). split; [by rewrite Hq, <- app_assoc|]. unfold held. cbn. rewrite Hbuf, Hp, !app_nil_r.
      by rewrite bind_app, Hw. }
  split; [|apply Hok]. rewrite (sync_quiet (w ++ [ch]) (q ++ [Plain ch])); [|done..| |].
  - apply (Hok (pending_pastes c)).
  - cbn. by rewrite app_assoc, <- Hq.
  - exists []. by rewrite bind_app, Hw, app_nil_r.
Qed.

(** A char that is appended to the buffer. *)
Lemma append_char_ok w c b ch now q :
  is_bash_mode c = bash ∧ vim_query c = None → before c = base ++ q → (q ≫= shown) ++ buffer b = w →
  active b = true → pending_first_char b = None → is_Some (last_plain_char_time b) →
  burst_ok (w ++ [ch]) (with_burst c (append_char_to_buffer b ch now)).
Proof.
  intros Hm Hq Hw Ha Hp Ht. split; cbn; [by rewrite Hp|done|congruence|congruence| |done].
  exists q. split; [done|]. unfold held. cbn. by rewrite Hp, app_nil_r, app_assoc, Hw.
Qed.

(** The counter after a char: at most one more. *)
Lemma note_plain_char_count b now :
  (consecutive_plain_char_burst (note_plain_char b now) - 1 ≤ consecutive_plain_char_burst b)%N.
Proof. unfold note_plain_char. cbn. destruct (last_plain_char_time b); [|lia]. destruct (_ <=? _)%N; lia. Qed.

(** A char that is noted while nothing is held. *)
Lemma noted_ok w c now :
  burst_ok w c → active (paste_burst c) = false → pending_first_char (paste_burst c) = None →
  let c' := with_burst c (note_plain_char (paste_burst c) now) in
  idle_ok w c' ∧ typed_tail (consecutive_plain_char_burst (paste_burst c') - 1) (before c').
Proof.
  intros Hok Ha Hp. pose proof (idle_of w c Hok Ha Hp) as [Hs Ht Hm]. split; [done|].
  pose proof (idle_count w c Hok Ha) as Hc. rewrite Hp, N.sub_0_r in Hc.
  eapply typed_tail_le; [apply note_plain_char_count|done].
Qed.

(** The start of a buffer, or a usual insertion. *)
Lemma begin_or_insert_ok w c ch now retro insert :
  idle_ok w c → is_Some (last_plain_char_time (paste_burst c)) → typed_tail retro (before c) → burst_ok (w ++ [ch]) insert →
  burst_ok (w ++ [ch]) (default insert (begin_buffer c ch now retro)).
Proof.
  intros Hi Ht Hr Hins. destruct (begin_buffer c ch now retro) as [c'|] eqn:E; [|done]. by eapply begin_buffer_ok.
Qed.

Lemma active_no_pending w c : burst_ok w c → active (paste_burst c) = true → pending_first_char (paste_burst c) = None.
Proof.
  intros Hok Ha. destruct (pending_first_char (paste_burst c)) as [[x t]|] eqn:E; [|done].
  destruct (pending_ok w c Hok x t E) as [_ Hf]. congruence.
Qed.

Lemma handle_non_ascii_char_ok w c ch now :
  disable_paste_burst env = false → ordinary (w ++ [ch]) → burst_ok w c → burst_ok (w ++ [ch]) (handle_non_ascii_char env c ch now).
Proof.
  intros Hdis Hord Hok. pose proof Hok as [_ Ht Hb _ (q & Hq & Hw) Hm]. unfold handle_non_ascii_char, try_append_char_if_active.
  rewrite Hdis. destruct (is_active_cases (paste_burst c) Hb) as [_ Hint]. unfold is_active_internal in Hint. rewrite Hint.
  destruct (active (paste_burst c)) eqn:Ea.
  { pose proof (active_no_pending w c Hok Ea) as Epc. unfold held in Hw. rewrite Epc, app_nil_r in Hw.
    by apply (append_char_ok w c (paste_burst c) ch now q); auto. }
  replace (with_burst c (paste_burst c)) with c by (by destruct c).
  destruct (flush_pending_ok w c) as (Hok1 & Hp1 & Ha1 & _); [by eapply ordinary_prefix|done|].
  set (c1 := flush_pending env c) in *. unfold on_plain_char_no_hold.
  change (active (note_plain_char (paste_burst c1) now)) with (active (paste_burst c1)). rewrite Ha1.
  destruct (noted_ok w c1 now Hok1 Ha1 Hp1) as [Hi Htail].
  destruct (input_char_ok w _ ch Hord Hi Htail) as [_ Hins].
  destruct (_ <=? _)%N; cbv beta iota zeta; rewrite (flush_idle w) by done; [|done].
  apply (begin_or_insert_ok w); [done| |done|done]. by eexists.
Qed.

Lemma handle_char_ok w c ch now :
  ordinary (w ++ [ch]) → burst_ok w c → burst_ok (w ++ [ch]) (handle_char env c ch now).
Proof.
  intros Hord Hok0. pose proof (ordinary_prefix _ _ Hord) as Hordw. unfold handle_char.
  destruct (handle_paste_burst_flush_ok w c now Hordw Hok0) as (Hok & Hdue & _).
  set (c1 := handle_paste_burst_flush env c now) in *. destruct (disable_paste_burst env || _) eqn:Hdis.
  { destruct (flush_pending_ok w c1 Hordw Hok) as (Hok2 & Hp2 & Ea2 & _).
    apply (input_char_ok w); [done|by apply idle_of|]. pose proof (idle_count w _ Hok2 Ea2) as Hc. rewrite Hp2 in Hc.
    eapply typed_tail_le; [|exact Hc]. lia. }
  apply orb_false_iff in Hdis as [Hdis _]. destruct (127 <? ch)%N; [by apply handle_non_ascii_char_ok|].
  pose proof Hok as [Hp Ht Hb Hc (q & Hq & Hw) Hm]. unfold on_plain_char.
  change (active (note_plain_char (paste_burst c1) now)) with (active (paste_burst c1)).
  change (pending_first_char (note_plain_char (paste_burst c1) now)) with (pending_first_char (paste_burst c1)).
  destruct (active (paste_burst c1)) eqn:Ea.
  { pose proof (active_no_pending w c1 Hok Ea) as Epc. unfold held in Hw. rewrite Epc, app_nil_r in Hw.
    apply (append_char_ok w (with_burst c1 _) _ ch now q); try done. }
  specialize (Hb eq_refl). destruct (pending_first_char (paste_burst c1)) as [[x t]|] eqn:Epc.
  - assert ((now - t <=? PASTE_BURST_CHAR_INTERVAL)%N = true) as -> by (apply N.leb_le; by eapply Hdue).
    apply (append_char_ok w (with_burst c1 _) _ ch now q); try done. cbn. unfold held in Hw. rewrite Epc, Hb in Hw.
    by rewrite Hb.
  - destruct (noted_ok w c1 now Hok Ea Epc) as [Hi Htail]. destruct (input_char_ok w _ ch Hord Hi Htail) as [Hins _].
    destruct (_ <=? _)%N; cbv beta iota zeta.
    + rewrite (flush_idle w) by done. apply (begin_or_insert_ok w); [done| |done|done]. by eexists.
    + split; cbn; [by intros ? ? [= <- <-]|done|by rewrite Hb|by intros _; exact Htail| |done].
      exists q. split; [done|]. unfold held in *. cbn. rewrite Epc, Hb in Hw. by rewrite Hb, <- Hw, !app_nil_r.
Qed.

Lemma handle_enter_ok w c should_queue in_slash_context now c' :
  burst_ok w c → pending_first_char (paste_burst c) = None → handle_enter env c should_queue in_slash_context now = (false, c') →
  burst_ok (w ++ [LF]) c'.
Proof.
  intros Hok Epc. pose proof Hok as [Hp Ht Hb Hc (q & Hq & Hw) Hm]. unfold handle_enter, append_newline_if_active,
    newline_should_insert_instead_of_submit. destruct (_ || _ || _); [done|].
  assert (is_active (paste_burst c) = active (paste_burst c)) as Hact.
  { destruct (is_active_cases (paste_burst c) Hb) as [-> _]. by rewrite Epc, orb_false_r. }
  unfold held in Hw. rewrite Epc, app_nil_r in Hw. rewrite Hact. destruct (active (paste_burst c)) eqn:Ea.
  - intros [= <-]. split; cbn; [by rewrite Epc|auto|congruence|congruence| |done].
    exists q. split; [done|]. unfold held. cbn. by rewrite Epc, app_nil_r, app_assoc, Hw.
  - rewrite Hact. cbn [orb]. destruct (in_burst_window _ _); [|done]. intros [= <-].
    specialize (Hb eq_refl). specialize (Hc eq_refl). rewrite Epc, N.sub_0_r in Hc. rewrite Hb, app_nil_r in Hw.
    split; cbn; [by rewrite Epc|by rewrite Ea|done| | |done].
    + intros _. rewrite Epc. eapply typed_tail_le; [|by apply typed_tail_snoc]. lia.
    + exists (q ++ [Plain LF]). split; [by rewrite Hq, <- app_assoc|]. unfold held. cbn.
      by rewrite Epc, Hb, !app_nil_r, bind_app, Hw.
Qed.

Lemma handle_other_key_ok w c now :
  ordinary w → burst_ok w c → burst_ok w (handle_other_key env c now) ∧ text_before (handle_other_key env c now) = (base ≫= shown) ++ w.
Proof.
  intros Hord Hok. unfold handle_other_key. destruct (handle_paste_burst_flush_ok w c now Hord Hok) as (Hok1 & _ & _).
  destruct (flush_pending_ok _ _ Hord Hok1) as ([_ _ _ _ (q & Hq & Hw) Hm] & Hp2 & _ & Hh).
  set (c2 := flush_pending _ _) in *. rewrite Hh, app_nil_r in Hw. apply app_nil in Hh as [Hb _]. split.
  - split; cbn; [done|done|done| | |done]; [intros _; rewrite Hq; apply typed_tail_0|].
    exists q. split; [done|]. unfold held. cbn. by rewrite Hb, !app_nil_r.
  - unfold text_before. cbn. by rewrite Hq, bind_app, Hw.
Qed.

(** The text after a flush that leaves nothing held. *)
Lemma all_shown w c : burst_ok w c → held c = [] → text_before c = (base ≫= shown) ++ w.
Proof.
  intros [_ _ _ _ (q & Hq & Hw) _] Hh. rewrite Hh, app_nil_r in Hw. unfold text_before. by rewrite Hq, bind_app, Hw.
Qed.
End Typing.

(** No Enter arrives while a first char is held back. *)
Fixpoint enter_not_held (env : Surroundings) c (keys : list KeyInput) : bool :=
  match keys with
  | [] => true
  | k :: keys =>
      match k with
      | KeyEnter _ _ _ => bool_decide (pending_first_char (paste_burst c) = None)
      | _ => true
      end &&
      match handle_input env c k with
      | Some c => enter_not_held env c keys
      | None => true
      end
  end.

Lemma handle_inputs_ok env base bash w c keys c' :
  burst_ok base bash w c → enter_not_held env c keys = true → ordinary env base bash (w ++ (keys ≫= typed)) →
  handle_inputs env c keys = Some c' → burst_ok base bash (w ++ (keys ≫= typed)) c'.
Proof.
  revert w c. induction keys as [|k keys IH]; intros w c Hok Hsafe Hord Hrun; cbn in Hrun.
  { simplify_eq. cbn. by rewrite app_nil_r. }
  cbn [enter_not_held] in Hsafe. apply andb_prop in Hsafe as [Hk Hsafe]. rewrite bind_cons, app_assoc in Hord |- *.
  destruct (handle_input env c k) as [c1|] eqn:E; [|done].
  assert (burst_ok base bash (w ++ typed k) c1) as Hok1; [|by eapply IH].
  apply ordinary_prefix in Hord. destruct k as [ch now|queue slash now|now|now]; cbn in E; cbn [typed] in *; rewrite ?app_nil_r in *.
  - simplify_eq. by apply handle_char_ok.
  - destruct (handle_enter env c queue slash now) as [[] c2] eqn:Ee; simplify_eq.
    apply bool_decide_eq_true in Hk. by eapply handle_enter_ok.
  - simplify_eq. by apply handle_other_key_ok.
  - simplify_eq. by destruct (handle_paste_burst_flush_ok env base bash w c now Hord Hok) as (? & _).
Qed.


(** ** Examples *)

Definition plain_surroundings : Surroundings := mkSurroundings false true false true 0 (λ _, None).
Definition empty_draft : Composer := mkComposer burst_default [] false None [] [].

(** Two non-ASCII chars shown at once, a blank and more: a retroactive grab. *)
Definition burst_keys : list KeyInput :=
  [KeyChar 233 0; KeyChar 32 5; KeyChar 98 7; KeyEnter false false 9; KeyChar 99 12]%N.

Lemma ordinary_keys : ordinary plain_surroundings [] false (burst_keys ≫= typed).
Proof. split; [by repeat constructor|by vm_compute; lia|by right|by right]. Qed.


(** What a paste becomes: line ends and sequences of the terminal, a bang, an
    image, a second large text. *)
Example pasted_texts :
  text_before (handle_paste plain_surroundings empty_draft [97; 13; 10; 27; 91; 51; 49; 109; 98; 13; 99; 7]%N) = [97; 10; 98; 10; 99]%N ∧
  handle_paste plain_surroundings empty_draft (lit "!ls") =
    mkComposer burst_default (Plain <$> lit "ls") true None [] [] ∧
  text_before (handle_paste (mkSurroundings false true false true 1 (λ s, Some s)) empty_draft (lit "a.png")) = lit "[Image #2] " ∧
  text_before (handle_paste plain_surroundings (handle_paste plain_surroundings empty_draft (replicate 1001 97%N)) (replicate 1001 98%N)) =
    lit "[Pasted Content 1001 chars][Pasted Content 1001 chars] #2".
Proof. split_and!; by vm_compute. Qed.

(** An Enter that follows the first char of a paste at once swaps the two
    or drops the char.  The line end goes to the buffer while the char is still
    held back: the next char of the paste puts the held char behind it, and if
    none follows, the paste of the line end clears the held char. *)
Theorem enter_after_first_char_is_misplaced :
  (∃ c, handle_inputs plain_surroundings empty_draft [KeyChar 97 0; KeyEnter false false 3; KeyChar 98 6; Tick 40]%N = Some c ∧
     text_before c ++ held c = [10; 97; 98]%N) ∧
  (∃ c, handle_inputs plain_surroundings empty_draft [KeyChar 97 0; KeyEnter false false 3; Tick 40]%N = Some c ∧
     text_before c ++ held c = [10]%N).
Proof. split; eexists; (split; [by vm_compute|by vm_compute]). Qed.
