(* ===== verification/DangerousCommand.v ===== *)
(** * Dangerous commands ([shell-command/src/command_safety/is_dangerous_command.rs])

    A command is dangerous when it removes files by force, itself or inside
    [sudo], [env], [trap] and shell scripts; nesting that is too deep counts as
    dangerous.  The commands of a shell script come from a tree-sitter parse
    ([bash.rs]) and the rules for Windows commands are a classifier of their
    own ([windows_dangerous_commands.rs]): both are parameters. *)
From stdpp Require Import numbers strings.
From S2P Require Import Prelude RustStr.

(** [DangerousCommandPlatform] and [DangerousCommandMatch]. *)
Inductive DangerousCommandPlatform : Type := Posix | Windows.
Inductive DangerousCommandMatch : Type := ForcedRm | OtherMatch.

Definition MAX_DANGEROUS_COMMAND_WRAPPER_DEPTH : nat := 8.

(** The last segment of [raw.rsplit(..)], which has at least one. *)
Fixpoint last_segment (sep : char → bool) (raw : str) : str :=
  match raw with
  | [] => []
  | c :: rest => if existsb sep rest then last_segment sep rest else if sep c then rest else raw
  end.

Definition is_ascii_alphabetic (c : char) : bool :=
  ((65 <=? c) && (c <=? 90) || (97 <=? c) && (c <=? 122))%N.

(** [executable_name_lookup_key]. *)
Fixpoint strip_first_suffix (suffixes : list str) (name : str) : option str :=
  match suffixes with
  | [] => None
  | suffix :: suffixes =>
      match strip_suffix suffix name with
      | Some stripped => Some stripped
      | None => strip_first_suffix suffixes name
      end
  end.
Definition executable_name_lookup_key (raw : str) (platform : DangerousCommandPlatform) : option str :=
  match platform with
  | Posix => match last_segment (N.eqb (chr "/")) raw with [] => None | name => Some name end
  | Windows =>
      match last_segment (λ c, (c =? chr "/")%N || (c =? chr "\")%N) raw with
      | [] => None
      | name =>
          let name := match name with
                      | drive :: c :: rest => if (c =? chr ":")%N && is_ascii_alphabetic drive then rest else name
                      | _ => name
                      end in
          let name := to_ascii_lowercase name in
          match strip_first_suffix [lit ".exe"; lit ".cmd"; lit ".bat"; lit ".com"] name with
          | Some stripped => Some stripped
          | None => match name with [] => None | _ => Some name end
          end
      end
  end.

(** [rm_args_include_force_option]. *)
Fixpoint take_while {A} (p : A → bool) (l : list A) : list A :=
  match l with
  | [] => []
  | x :: l => if p x then x :: take_while p l else []
  end.
Definition rm_args_include_force_option (args : list str) : bool :=
  existsb (λ arg, str_eqb arg (lit "--force") ||
    match strip_prefix (lit "-") arg with
    | Some flags => negb (starts_with (lit "-") flags) && contains_char (chr "f") flags
    | None => false
    end) (take_while (λ arg, negb (str_eqb arg (lit "--"))) args).

(** The loop of [dangerous_command_match_for_env]: the words behind the options
    and assignments. *)
Definition is_assignment (argument : str) : bool :=
  match split_once (chr "=") argument with
  | Some (name, _) => negb (str_eqb name []) && negb (starts_with (lit "-") name)
  | None => false
  end.
Fixpoint skip_env_arguments (words : list str) : list str :=
  match words with
  | [] => []
  | argument :: rest =>
      if str_eqb argument (lit "--") then rest
      else if str_eqb argument (lit "-i") || str_eqb argument (lit "--ignore-environment") || is_assignment argument
      then skip_env_arguments rest
      else words
  end.

(** The shell command of a [trap], from the words behind it. *)
Definition trap_action (words : list str) : option (list str) :=
  let words := match words with
               | w :: rest => if str_eqb w (lit "--") then rest else words
               | [] => []
               end in
  match words with
  | action :: _ => if starts_with (lit "-") action then None else Some [lit "sh"; lit "-c"; action]
  | [] => None
  end.

Section Match.
(** [parse_shell_lc_literal_commands] and [is_dangerous_command_windows]. *)
Context (literal_commands : list str → option (list (list str))) (windows_dangerous : list str → bool).
Context (platform : DangerousCommandPlatform).
Implicit Types command : list str.

Definition command_name command : option str :=
  match command with [] => None | c :: _ => executable_name_lookup_key c platform end.

(** [dangerous_command_match_for_exec] with its cases for [env] and [trap];
    [nested] checks a wrapped command one level deeper. *)
Definition dangerous_command_match_for_exec (nested : list str → option DangerousCommandMatch) command :
    option DangerousCommandMatch :=
  match command_name command with
  | Some name =>
      if str_eqb name (lit "rm") && rm_args_include_force_option (tail command) then Some ForcedRm
      else if str_eqb name (lit "sudo") then nested (tail command)
      else if str_eqb name (lit "env") then nested (skip_env_arguments (tail command))
      else if str_eqb name (lit "trap") then trap_action (tail command) ≫= nested
      else None
  | None => None
  end.

(** [dangerous_command_match_with_depth]; [levels] is one more than the depth
    that is left. *)
Fixpoint dangerous_command_match_with_depth (levels : nat) command : option DangerousCommandMatch :=
  match levels with
  | 0 => Some OtherMatch
  | S levels =>
      match dangerous_command_match_for_exec (dangerous_command_match_with_depth levels) command with
      | Some dangerous_match => Some dangerous_match
      | None =>
          match literal_commands command ≫= find_map (dangerous_command_match_with_depth levels) with
          | Some dangerous_match => Some dangerous_match
          | None =>
              match platform with
              | Windows => if windows_dangerous command then Some OtherMatch else None
              | Posix => None
              end
          end
      end
  end.

(** [dangerous_command_match_for_platform]. *)
Definition dangerous_command_match_for_platform command : option DangerousCommandMatch :=
  dangerous_command_match_with_depth (S MAX_DANGEROUS_COMMAND_WRAPPER_DEPTH) command.

(** ** Specification *)

(** A forced removal, and what one wrapper hides. *)
Definition is_forced_rm command : Prop :=
  command_name command = Some (lit "rm") ∧ rm_args_include_force_option (tail command) = true.
Inductive unwraps : list str → list str → Prop :=
  | unwraps_sudo command : command_name command = Some (lit "sudo") → unwraps command (tail command)
  | unwraps_env command : command_name command = Some (lit "env") → unwraps command (skip_env_arguments (tail command))
  | unwraps_trap command action :
      command_name command = Some (lit "trap") → trap_action (tail command) = Some action → unwraps command action
  | unwraps_script command commands inner :
      literal_commands command = Some commands → inner ∈ commands → unwraps command inner.

(** ** Facts *)

Lemma find_map_is_Some {A B} (f : A → option B) l x : x ∈ l → is_Some (f x) → is_Some (find_map f l).
Proof.
  induction l as [|y l IH]; [by intros ?%elem_of_nil|]. intros [->|Hx]%elem_of_cons [b Hb]; cbn; [by rewrite Hb|].
  destruct (f y); [done|]. eauto.
Qed.

Lemma forced_rm_found levels command :
  is_forced_rm command → is_Some (dangerous_command_match_with_depth levels command).
Proof.
  intros [Hn Hf]. destruct levels; cbn; [done|]. unfold dangerous_command_match_for_exec. by rewrite Hn, Hf, str_eqb_refl.
Qed.

Lemma unwraps_found levels command inner :
  unwraps command inner → is_Some (dangerous_command_match_with_depth levels inner) →
  is_Some (dangerous_command_match_with_depth (S levels) command).
Proof.
  intros Hu [m Hm]. cbn [dangerous_command_match_with_depth]. unfold dangerous_command_match_for_exec.
  destruct Hu as [command Hn|command Hn|command action Hn Ha|command commands inner Hl Hin].
  - rewrite Hn. cbn. by rewrite Hm.
  - rewrite Hn. cbn. by rewrite Hm.
  - rewrite Hn, Ha. cbn. by rewrite Hm.
  - rewrite Hl. cbn [mbind option_bind].
    destruct (find_map_is_Some (dangerous_command_match_with_depth levels) commands inner Hin) as [m' Hm']; [by eexists|].
    rewrite Hm'. by destruct (match command_name command with Some _ => _ | None => _ end).
Qed.

(** Where a match comes from, within [levels] wrappers. *)
Definition match_cause (levels : nat) command (m : DangerousCommandMatch) : Prop :=
  (m = ForcedRm ∧ ∃ d inner, d < levels ∧ nsteps unwraps d command inner ∧ is_forced_rm inner) ∨
  (m = OtherMatch ∧ ∃ inner, nsteps unwraps levels command inner) ∨
  (m = OtherMatch ∧ platform = Windows ∧ ∃ d inner, d < levels ∧ nsteps unwraps d command inner ∧ windows_dangerous inner = true).

Lemma match_cause_step levels command inner m :
  unwraps command inner → match_cause levels inner m → match_cause (S levels) command m.
Proof.
  intros Hu [(-> & d & i & Hd & Hn & Hf)|[(-> & i & Hn)|(-> & Hp & d & i & Hd & Hn & Hf)]].
  - left. split; [done|]. exists (S d), i. split_and!; [lia|by econstructor|done].
  - right. left. split; [done|]. exists i. by econstructor.
  - right. right. split_and!; [done..|]. exists (S d), i. split_and!; [lia|by econstructor|done].
Qed.

Lemma exec_cause levels command m :
  (∀ inner, dangerous_command_match_with_depth levels inner = Some m → match_cause levels inner m) →
  dangerous_command_match_for_exec (dangerous_command_match_with_depth levels) command = Some m →
  match_cause (S levels) command m.
Proof.
  intros IH. unfold dangerous_command_match_for_exec. destruct (command_name command) as [name|] eqn:En; [|done].
  destruct (str_eqb name (lit "rm") && _) eqn:Erm.
  { apply andb_prop in Erm as [->%str_eqb_eq Hf]. intros [= <-]. left. split; [done|]. exists 0, command.
    split_and!; [lia|constructor|done]. }
  destruct (str_eqb name (lit "sudo")) eqn:Es.
  { apply str_eqb_eq in Es as ->. intros H%IH. by eapply match_cause_step; [apply unwraps_sudo|]. }
  destruct (str_eqb name (lit "env")) eqn:Ee.
  { apply str_eqb_eq in Ee as ->. intros H%IH. by eapply match_cause_step; [apply unwraps_env|]. }
  destruct (str_eqb name (lit "trap")) eqn:Et; [|done].
  apply str_eqb_eq in Et as ->. destruct (trap_action (tail command)) as [action|] eqn:Ea; [|done].
  intros H%IH. by eapply match_cause_step; [eapply unwraps_trap|].
Qed.

Lemma match_has_cause levels command m :
  dangerous_command_match_with_depth levels command = Some m → match_cause levels command m.
Proof.
  revert command m. induction levels as [|levels IH]; intros command m; cbn [dangerous_command_match_with_depth].
  { intros [= <-]. right. left. split; [done|]. eexists. constructor. }
  destruct (dangerous_command_match_for_exec _ command) as [m'|] eqn:Ee.
  { intros [= <-]. eapply exec_cause; [|done]. intros. by apply IH. }
  destruct (literal_commands command) as [commands|] eqn:El; cbn [mbind option_bind].
  1: destruct (find_map _ commands) as [m'|] eqn:Ef.
  1: { intros [= <-]. apply find_map_Some in Ef as (inner & Hin & Hm%IH).
       by eapply match_cause_step; [eapply unwraps_script|]. }
  all: destruct platform eqn:Ep; [done|]; destruct (windows_dangerous command) eqn:Ew; [|done];
    intros [= <-]; right; right; split_and!; [done|congruence|]; exists 0, command; split_and!; [lia|constructor|done].
Qed.

Lemma nested_found d levels command inner :
  nsteps unwraps d command inner → d < levels ∧ is_forced_rm inner ∨ levels ≤ d →
  is_Some (dangerous_command_match_with_depth levels command).
Proof.
  intros Hn. revert levels. induction Hn as [command|d command mid inner Hu Hn IH]; intros levels H.
  - destruct H as [[_ Hf]|Hl]; [by apply forced_rm_found|]. by replace levels with 0 by lia.
  - destruct levels as [|levels]; [done|]. eapply unwraps_found; [done|]. apply IH. destruct H as [[]|]; [left|right]; [split|]; try lia; done.
Qed.
End Match.

(** Wrappers cannot hide a forced removal: a command that leads to one
    through any number of [sudo], [env], [trap] and shell scripts is reported
    as dangerous.  Conversely a report of a forced removal is never wrong, and
    any other report means more than eight nested wrappers or, on Windows, a
    command of its own list. *)
Theorem forced_rm_is_never_hidden (literal_commands : list str → option (list (list str)))
    (windows_dangerous : list str → bool) (platform : DangerousCommandPlatform) (command : list str) :
  (∀ d inner, nsteps (unwraps literal_commands platform) d command inner → is_forced_rm platform inner →
     is_Some (dangerous_command_match_for_platform literal_commands windows_dangerous platform command)) ∧
  (∀ m, dangerous_command_match_for_platform literal_commands windows_dangerous platform command = Some m →
     match_cause literal_commands windows_dangerous platform 9 command m).
Proof.
  split; [|apply match_has_cause]. intros d inner Hn Hf. unfold dangerous_command_match_for_platform.
  eapply nested_found; [done|]. destruct (decide (d < 9)); [by left|right]. unfold MAX_DANGEROUS_COMMAND_WRAPPER_DEPTH. lia.
Qed.

Lemma forced_rm_is_never_hidden_witness :
  let command := [lit "sudo"; lit "env"; lit "A=b"; lit "/bin/rm"; lit "-rf"; lit "/"] in
  nsteps (unwraps (λ _, None) Posix) 2 command [lit "/bin/rm"; lit "-rf"; lit "/"] ∧
  is_Some (dangerous_command_match_for_platform (λ _, None) (λ _, false) Posix command).
Proof.
  intros command.
  assert (nsteps (unwraps (λ _, None) Posix) 2 command [lit "/bin/rm"; lit "-rf"; lit "/"]) as Hn.
  { eapply nsteps_l; [by apply unwraps_sudo|]. eapply nsteps_l; [by apply unwraps_env|]. constructor. }
  split; [done|]. by apply (proj1 (forced_rm_is_never_hidden (λ _, None) (λ _, false) Posix command) 2 _ Hn).
Defined.
