(* ===== verification/PathUri.v ===== *)
(** * Path URIs ([utils/path-uri/src/lib.rs])

    Paths of a machine other than the one that runs the agent are kept as
    [file:] URIs and compared, joined and walked without asking a file system.
    This file models the lexical operations: which path convention a URI
    follows, equality and hashing, containment, parents, joining of native path
    text, and the opaque fallback for paths that no URI can spell.

    The crates below are classes: [UrlCrate] is a [file:] URL of the [url]
    crate, seen through its accessors and its path setters, and [Codecs] holds
    percent-decoding and base64.  A [PathUri] is a URL that passed
    [try_from]. *)
From stdpp Require Import numbers strings.
From S2P Require Import Prelude RustStr Utf8.

(** ** The crates below *)

Class UrlCrate (U : Type) : Type := {
  #[global] url_eq_dec :: EqDecision U;
  scheme : U → str;
  host_str : U → option str;
  path_segments : U → list str;
  as_str : U → str;
  has_credentials : U → bool;
  has_port : U → bool;
  has_query : U → bool;
  has_fragment : U → bool;
  file_root : U;
  url_parse : str → option U;
  set_host : U → option str → option U;
  set_path : U → str → U;
  (** the methods of [path_segments_mut] *)
  pop_if_empty : U → U;
  pop : U → U;
  push : U → str → U;
  clear : U → U;
}.

Class Codecs : Type := {
  decode_binary : bytes → bytes;
  base64_encode : bytes → str;
  base64_decode : str → option bytes;
}.

(** ** Chars *)

Definition SLASH : char := chr "/".
Definition BACKSLASH : char := chr "\".
Definition COLON : char := chr ":".
Definition is_ascii_uppercase (c : char) : bool := ((65 <=? c) && (c <=? 90))%N.
Definition is_ascii_letter (c : char) : bool := (is_ascii_uppercase c || ((97 <=? c) && (c <=? 122)))%N.
Definition char_to_ascii_uppercase (c : char) : char := if ((97 <=? c) && (c <=? 122))%N then (c - 32)%N else c.
Definition is_windows_separator_char (c : char) : bool := (c =? BACKSLASH)%N || (c =? SLASH)%N.

(** [eq_ignore_ascii_case], on chars and on bytes. *)
Definition fold_case (s : list N) : list N := char_to_ascii_lowercase <$> s.
Definition eq_ignore_ascii_case (a b : list N) : bool := bool_decide (fold_case a = fold_case b).

(** [str::split] on a set of chars, [str::replace] of a char. *)
Fixpoint split_on (p : char → bool) (s : str) : list str :=
  match s with
  | [] => [[]]
  | c :: s =>
      match split_on p s with
      | [] => [[]]
      | part :: parts => if p c then [] :: part :: parts else (c :: part) :: parts
      end
  end.
Definition replace_char (a b : char) (s : str) : str := (λ c, if (c =? a)%N then b else c) <$> s.

(** [str::encode_utf16] and its little-endian bytes. *)
Definition encode_utf16 (s : str) : list N :=
  s ≫= λ c, if (c <? 65536)%N then [c] else [55296 + (c - 65536) / 1024; 56320 + (c - 65536) mod 1024]%N.
Definition utf16_le_bytes (s : str) : bytes := encode_utf16 s ≫= λ u, [u mod 256; u / 256]%N.

(** [String::from_utf8_lossy]: each maximal invalid part becomes U+FFFD. *)
Fixpoint lossy_loop (fuel : nat) (bs : bytes) : str :=
  match fuel with
  | 0 => []
  | S fuel =>
      match from_utf8 bs with
      | Ok s => s
      | Err e =>
          default [] (ok (from_utf8 (take (valid_up_to e) bs))) ++ 65533%N ::
          match error_len e with Some n => lossy_loop fuel (drop (valid_up_to e + n) bs) | None => [] end
      end
  end.
Definition from_utf8_lossy (bs : bytes) : str := lossy_loop (S (length bs)) bs.

(** [String::from_utf16_lossy] on little-endian bytes. *)
Definition is_high_surrogate (u : N) : bool := ((55296 <=? u) && (u <=? 56319))%N.
Definition is_low_surrogate (u : N) : bool := ((56320 <=? u) && (u <=? 57343))%N.
Fixpoint from_utf16_lossy (units : list N) : str :=
  match units with
  | [] => []
  | u :: units' =>
      if is_high_surrogate u then
        match units' with
        | v :: units'' =>
            if is_low_surrogate v then (65536 + (u - 55296) * 1024 + (v - 56320))%N :: from_utf16_lossy units''
            else 65533%N :: from_utf16_lossy units'
        | [] => [65533%N]
        end
      else (if is_low_surrogate u then 65533%N else u) :: from_utf16_lossy units'
  end.
Fixpoint u16_units (bs : bytes) : list N :=
  match bs with lo :: hi :: bs => (lo + 256 * hi)%N :: u16_units bs | _ => [] end.

(** ** Conventions and errors *)

Inductive PathConvention : Type := Posix | Windows.
#[global] Instance PathConvention_eq_dec : EqDecision PathConvention.
Proof. solve_decision. Defined.

Inductive PathUriParseError : Type :=
  | InvalidUri
  | UnsupportedScheme (scheme : str)
  | InvalidFileUriPath (path : str)
  | CredentialsNotAllowed
  | PortNotAllowed
  | QueryNotAllowed
  | FragmentNotAllowed
  | JoinPathMustBeDescendant (path : str).

Definition FILE_SCHEME : str := lit "file".
Definition BAD_PATH_URI_PREFIX : str := lit "file:///%00/bad/path/".

(** [PathConvention::path_segments]. *)
Definition convention_segments (convention : PathConvention) (path : str) : list str :=
  split_on (match convention with Posix => N.eqb SLASH | Windows => is_windows_separator_char end) path.

Definition is_windows_drive_uri_segment (segment : str) : bool :=
  match segment with
  | [drive; c] => is_ascii_letter drive && (c =? COLON)%N
  | [drive; p; three; a] =>
      is_ascii_letter drive && (p =? 37)%N && (three =? 51)%N && ((a =? 65)%N || (a =? 97)%N)
  | _ => false
  end.

Definition infer_opaque_path_convention (path_bytes : bytes) : option PathConvention :=
  match path_bytes with
  | [] => None
  | b :: _ =>
      if (b =? SLASH)%N then Some Posix
      else if negb (Nat.even (length path_bytes)) then None
      else match path_bytes with
           | lo1 :: hi1 :: lo2 :: hi2 :: _ =>
               let first := (lo1 + 256 * hi1)%N in
               let second := (lo2 + 256 * hi2)%N in
               let has_drive := (first <? 256)%N && is_ascii_letter first && (second =? COLON)%N in
               let has_unc_prefix := (first =? BACKSLASH)%N && (second =? BACKSLASH)%N in
               if has_drive || has_unc_prefix then Some Windows else None
           | _ => None
           end
  end.

Definition is_empty (s : str) : bool := match s with [] => true | _ => false end.
Definition non_empty (s : str) : bool := negb (is_empty s).

(** [normalize_windows_device_path] of [utils/absolute-path]. *)
Definition is_windows_drive_absolute_path (path : str) : bool :=
  match path with
  | drive :: c :: sep :: _ => is_ascii_letter drive && (c =? COLON)%N && is_windows_separator_char sep
  | _ => false
  end.
Definition normalize_windows_device_path (path : str) : option str :=
  match strip_prefix (lit "\\?\UNC\") path with
  | Some unc => Some (lit "\\" ++ unc)
  | None =>
      match strip_prefix (lit "\\.\UNC\") path with
      | Some unc => Some (lit "\\" ++ unc)
      | None =>
          match strip_prefix (lit "\\?\") path with
          | Some p => if is_windows_drive_absolute_path p then Some p
                      else None
          | None =>
              match strip_prefix (lit "\\.\") path with
              | Some p => if is_windows_drive_absolute_path p then Some p else None
              | None => None
              end
          end
      end
  end.

Section PathUri.
Context {U : Type} `{!UrlCrate U} `{!Codecs}.
Implicit Types u base : U.

(** [Url::path] of a [file:] URL. *)
Definition path u : str := SLASH :: join [SLASH] (path_segments u).
Definition decoded (segment : str) : bytes := decode_binary (encode segment).

(** ** Validation *)

(** [decode_bad_path_uri]: the bytes of an opaque fallback URI. *)
Definition decode_bad_path_uri u : option bytes :=
  match strip_prefix BAD_PATH_URI_PREFIX (as_str u) with
  | None => None
  | Some encoded_path =>
      if is_empty encoded_path || contains_char SLASH encoded_path then None
      else match base64_decode encoded_path with
           | Some path_bytes => if str_eqb (base64_encode path_bytes) encoded_path then Some path_bytes else None
           | None => None
           end
  end.
Definition is_opaque u : bool := match decode_bad_path_uri u with Some _ => true | None => false end.

Definition validate_common_known_uri u : result PathUriParseError unit :=
  if has_credentials u then Err CredentialsNotAllowed
  else if has_port u then Err PortNotAllowed
  else if has_query u then Err QueryNotAllowed
  else if has_fragment u then Err FragmentNotAllowed
  else Ok tt.
Definition validate_file_url u : result PathUriParseError unit :=
  let? _ := validate_common_known_uri u in
  if contains_char 0%N (decoded (path u)) && negb (is_opaque u) then Err (InvalidFileUriPath (as_str u)) else Ok tt.

(** [host_str() == Some("localhost")] is the local machine. *)
Definition without_localhost_authority u : U :=
  if bool_decide (host_str u = Some (lit "localhost")) then default u (set_host u None) else u.

(** The drive letter of a local path is put in upper case. *)
Fixpoint split_slashes (s : str) : str * str :=
  match s with
  | c :: s' => if (c =? SLASH)%N then let '(slashes, rest) := split_slashes s' in (c :: slashes, rest) else ([], s)
  | [] => ([], [])
  end.
Definition with_normalized_windows_drive_letter u : U :=
  match host_str u with
  | Some _ => u
  | None =>
      let '(slashes, rest) := split_slashes (path u) in
      match rest with
      | [] => u
      | letter :: after =>
          let drive := default [] (head (split SLASH rest)) in
          if negb (is_windows_drive_uri_segment drive) || is_ascii_uppercase letter then u
          else set_path u (slashes ++ char_to_ascii_uppercase letter :: after)
      end
  end.

(** [TryFrom<Url>] and [PathUri::parse]. *)
Definition try_from u : result PathUriParseError U :=
  if negb (str_eqb (scheme u) FILE_SCHEME) then Err (UnsupportedScheme (scheme u))
  else let? _ := validate_file_url u in
       Ok (with_normalized_windows_drive_letter (without_localhost_authority u)).
Definition parse (uri : str) : result PathUriParseError U :=
  match url_parse uri with Some u => try_from u | None => Err InvalidUri end.

(** ** Conventions and identity *)

Definition first_non_empty (segments : list str) : option str := list.head (List.filter non_empty segments).
Definition infer_path_convention u : option PathConvention :=
  match decode_bad_path_uri u with
  | Some path_bytes => infer_opaque_path_convention path_bytes
  | None =>
      match host_str u with
      | Some _ => Some Windows
      | None =>
          match first_non_empty (path_segments u) with
          | Some segment => if is_windows_drive_uri_segment segment then Some Windows else Some Posix
          | None => Some Posix
          end
      end
  end.

(** A decoded segment that holds a separator of the convention. *)
Definition has_separator (convention : PathConvention) (segment : str) : bool :=
  existsb (λ b, (b =? SLASH)%N || bool_decide (convention = Windows) && (b =? BACKSLASH)%N) (decoded segment).

Definition windows_identity_path_bytes u : option bytes :=
  if negb (bool_decide (infer_path_convention u = Some Windows)) || is_opaque u ||
     existsb (has_separator Windows) (path_segments u)
  then None else Some (decoded (path u)).

(** [PartialEq] and the data [Hash] feeds to the hasher. *)
Definition path_uri_eqb u v : bool :=
  if bool_decide (u = v) then true
  else match windows_identity_path_bytes u, windows_identity_path_bytes v with
       | Some p, Some q => bool_decide (host_str u = host_str v) && eq_ignore_ascii_case p q
       | _, _ => false
       end.
Definition path_uri_hash u : U + option str * nat * bytes :=
  match windows_identity_path_bytes u with
  | None => inl u
  | Some p => inr (host_str u, length p, fold_case p)
  end.

(** ** Containment *)

Definition decode_uri_path (segment : str) : str :=
  match from_utf8 (decoded segment) with Ok s => s | Err _ => segment end.

Definition containment_path_segments u (convention : PathConvention) : option (list str) :=
  let segments := List.filter non_empty (path_segments u) in
  if existsb (has_separator convention) segments then None else Some segments.

Definition same_segment (convention : PathConvention) (p b : str) : bool :=
  match convention with
  | Posix => bool_decide (decoded p = decoded b)
  | Windows => eq_ignore_ascii_case p b || eq_ignore_ascii_case (decode_uri_path p) (decode_uri_path b)
  end.
Definition native_path_segments_start_with (path_segments base_segments : list str) (convention : PathConvention) : bool :=
  (length base_segments <=? length path_segments)%nat &&
  forallb (λ '(p, b), same_segment convention p b) (zip path_segments base_segments).

Definition starts_with u base : bool :=
  if path_uri_eqb u base then true
  else if is_opaque u || is_opaque base then false
  else if negb (bool_decide (host_str u = host_str base)) then false
  else
    let convention := infer_path_convention u in
    if negb (bool_decide (convention = infer_path_convention base)) then false
    else
      let convention := default Posix convention in
      match containment_path_segments u convention, containment_path_segments base convention with
      | Some ps, Some bs => native_path_segments_start_with ps bs convention
      | _, _ => false
      end.

Definition lexical_depth u : option nat :=
  if is_opaque u then None
  else match infer_path_convention u with
       | None => None
       | Some convention => length <$> containment_path_segments u convention
       end.

Definition overlaps u v : option bool :=
  if path_uri_eqb u v then Some true
  else match lexical_depth u, lexical_depth v with
       | Some _, Some _ => Some (starts_with u v || starts_with v u)
       | _, _ => None
       end.

Definition relative_path_from u base : option str :=
  if path_uri_eqb u base then Some []
  else if is_opaque u || is_opaque base || negb (bool_decide (host_str u = host_str base)) ||
          negb (bool_decide (infer_path_convention u = infer_path_convention base)) then None
  else match infer_path_convention u with
       | None => None
       | Some convention =>
           match containment_path_segments u convention, containment_path_segments base convention with
           | Some ps, Some bs =>
               if native_path_segments_start_with ps bs convention
               then Some (join [match convention with Posix => SLASH | Windows => BACKSLASH end]
                            (decode_uri_path <$> drop (length bs) ps))
               else None
           | _, _ => None
           end
       end.

(** ** Parents *)

Definition basename u : option str :=
  if is_opaque u then None
  else decode_uri_path <$> last (List.filter non_empty (path_segments u)).

Definition depth_of u : nat := length (List.filter non_empty (path_segments u)).
Definition anchor_depth (convention : PathConvention) : nat := match convention with Posix => 0 | Windows => 1 end.

Definition parent u : option U :=
  if is_opaque u then None
  else match infer_path_convention u with
       | None => None
       | Some convention =>
           if (depth_of u <=? anchor_depth convention)%nat then None else Some (pop (pop_if_empty u))
       end.

(** [ancestors]: [iter::successors], one unit of fuel for each. *)
Fixpoint successors (fuel : nat) u : list U :=
  match fuel with
  | 0 => []
  | S fuel => u :: match parent u with Some p => successors fuel p | None => [] end
  end.
Definition ancestors u : list U := successors (S (length (path_segments u) + depth_of u)) u.

(** ** Native paths *)

(** The loop of [path_uri_from_segments]: the segments kept, their number and
    whether the text ended in a separator. *)
Fixpoint normalize_segments (anchor : nat) (segments : list str) (kept : list str) (depth : nat) (trailing : bool) :
    list str * nat * bool :=
  match segments with
  | [] => (kept, depth, trailing)
  | segment :: segments =>
      if is_empty segment then normalize_segments anchor segments kept depth true
      else if str_eqb segment (lit ".") then normalize_segments anchor segments kept depth false
      else if str_eqb segment (lit "..") then
        if (anchor <? depth)%nat
        then normalize_segments anchor segments (take (pred (length kept)) kept) (depth - 1) false
        else normalize_segments anchor segments kept depth false
      else normalize_segments anchor segments (kept ++ [segment]) (S depth) false
  end.
Definition path_uri_from_segments (convention : PathConvention) (host : option str) (segments : list str) : option U :=
  match match host with Some h => set_host file_root (Some h) | None => Some file_root end with
  | None => None
  | Some u =>
      let '(kept, depth, trailing) := normalize_segments (anchor_depth convention) segments [] 0 false in
      let kept :=
        if trailing || bool_decide (convention = Windows) && bool_decide (host = None) &&
                       (depth =? anchor_depth convention)%nat
        then kept ++ [[]] else kept in
      ok (try_from (foldl push (clear u) kept))
  end.

(** [from_opaque_path_bytes]; a failure of [parse] there is unreachable in the
    code, and gives the root here. *)
Definition from_opaque_path_bytes (path_bytes : bytes) : U :=
  match parse (BAD_PATH_URI_PREFIX ++ base64_encode path_bytes) with Ok u => u | Err _ => file_root end.
Definition windows_opaque_path_uri (path : str) : U := from_opaque_path_bytes (utf16_le_bytes path).

Definition parse_posix_path (path : str) : option U :=
  match path with
  | c :: rest =>
      if (c =? SLASH)%N then
        if contains_char 0%N rest then Some (from_opaque_path_bytes (encode path))
        else path_uri_from_segments Posix None (split SLASH rest)
      else None
  | [] => None
  end.

Definition uses_namespace (path : str) : bool :=
  match path with
  | a :: b :: n :: c :: _ =>
      is_windows_separator_char a && is_windows_separator_char b && is_windows_separator_char c &&
      ((n =? chr ".")%N || (n =? chr "?")%N)
  | _ => false
  end.
Definition starts_with_two_separators (path : str) : bool :=
  match path with a :: b :: _ => is_windows_separator_char a && is_windows_separator_char b | _ => false end.
Definition parse_unnormalized_windows_path (path : str) : option U :=
  if uses_namespace path || contains_char 0%N path then Some (windows_opaque_path_uri path)
  else if is_windows_drive_absolute_path path then
    path_uri_from_segments Windows None (take 2 path :: split_on is_windows_separator_char (drop 3 path))
  else if starts_with_two_separators path then
    match split_on is_windows_separator_char (drop 2 path) with
    | host :: share :: components =>
        if is_empty host || is_empty share then None
        else match path_uri_from_segments Windows (Some host) (share :: components) with
             | Some u => Some u
             | None => Some (windows_opaque_path_uri path)
             end
    | _ => None
    end
  else None.

(** The server and the share of a UNC path must be names. *)
Definition is_bad_unc_component (c : option str) : bool :=
  match c with
  | None => true
  | Some s => is_empty s || str_eqb s (lit ".") || str_eqb s (lit "..")
  end.
Definition parse_windows_path (path : str) : option U :=
  match normalize_windows_device_path path with
  | None => parse_unnormalized_windows_path path
  | Some normalized_path =>
      let is_unc := RustStr.starts_with (lit "\\") normalized_path in
      let components := split_on is_windows_separator_char (drop 2 normalized_path) in
      if is_unc && (is_bad_unc_component (components !! 0) || is_bad_unc_component (components !! 1))
      then Some (windows_opaque_path_uri path)
      else match parse_unnormalized_windows_path normalized_path with
           | Some u =>
               if bool_decide (infer_path_convention u = Some Windows) && negb (is_opaque u) &&
                  (negb is_unc ||
                   match host_str u with Some host => negb (is_empty host) | None => false end)
               then Some u else Some (windows_opaque_path_uri path)
           | None => Some (windows_opaque_path_uri path)
           end
  end.

Definition from_absolute_native_path (path : str) (convention : PathConvention) : option U :=
  match match convention with Posix => parse_posix_path path | Windows => parse_windows_path path end with
  | None => None
  | Some u =>
      if negb (bool_decide (host_str u = Some [])) && bool_decide (infer_path_convention u = Some convention)
      then Some u
      else Some (match convention with
                 | Posix => from_opaque_path_bytes (encode path)
                 | Windows => windows_opaque_path_uri path
                 end)
  end.

(** ** Joining *)

(** [segments.pop()] down to the drive or the share. *)
Fixpoint pop_to_anchor (n : nat) u : U := match n with 0 => u | S n => pop_to_anchor n (pop u) end.

(** The loop over the components of the text. *)
Fixpoint push_components (anchor : nat) (components : list str) u (depth : nat) : U :=
  match components with
  | [] => u
  | component :: components =>
      if is_empty component || str_eqb component (lit ".") then push_components anchor components u depth
      else if str_eqb component (lit "..") then
        if (anchor <? depth)%nat then push_components anchor components (pop u) (depth - 1)
        else push_components anchor components u depth
      else push_components anchor components (push u component) (S depth)
  end.

(** Drive-relative text ([C:file]): the text behind the drive when it is the
    drive of the base. *)
Definition strip_drive u (convention : PathConvention) (path : str) : result PathUriParseError str :=
  match convention, path with
  | Windows, drive :: c :: rest =>
      if is_ascii_letter drive && (c =? COLON)%N then
        match first_non_empty (path_segments u) with
        | Some segment =>
            if is_windows_drive_uri_segment segment &&
               bool_decide (char_to_ascii_lowercase <$> head segment = Some (char_to_ascii_lowercase drive))
            then Ok rest else Err (InvalidFileUriPath path)
        | None => Err (InvalidFileUriPath path)
        end
      else Ok path
  | _, _ => Ok path
  end.
Definition is_root_relative (convention : PathConvention) (path : str) : bool :=
  bool_decide (convention = Windows) &&
  match path with
  | a :: rest =>
      is_windows_separator_char a && match rest with b :: _ => negb (is_windows_separator_char b) | [] => true end
  | [] => false
  end.

Definition join_path u (path : str) : result PathUriParseError U :=
  if contains_char 0%N path then Err (InvalidFileUriPath path)
  else if is_empty path then Ok u
  else match infer_path_convention u with
       | None => Err (InvalidFileUriPath (as_str u))
       | Some convention =>
           match from_absolute_native_path path convention with
           | Some absolute => Ok absolute
           | None =>
               let? path := strip_drive u convention path in
               if is_opaque u then Err (InvalidFileUriPath (as_str u))
               else
                 let anchor := anchor_depth convention in
                 let depth := depth_of u in
                 let url := pop_if_empty u in
                 let '(url, depth) := if is_root_relative convention path
                                      then (pop_to_anchor (depth - anchor) url, Nat.min depth anchor)
                                      else (url, depth) in
                 let text := match convention with Posix => path | Windows => replace_char BACKSLASH SLASH path end in
                 try_from (push_components anchor (split SLASH text) url depth)
           end
       end.

Definition join_descendant u (path : str) : result PathUriParseError U :=
  let? descendant := join_path u path in
  if RustStr.starts_with [SLASH] path ||
     bool_decide (infer_path_convention u = Some Windows) &&
       (RustStr.starts_with [BACKSLASH] path || existsb (contains_char COLON) (convention_segments Windows path)) ||
     negb (starts_with descendant u)
  then Err (JoinPathMustBeDescendant path) else Ok descendant.

(** ** Rendering ([api_path_string.rs]) *)

Definition decode_native_segment (segment : str) : str := from_utf8_lossy (decoded segment).

Definition render_posix_path u : option str :=
  match host_str u with
  | Some _ => None
  | None => Some (path_segments u ≫= λ segment, SLASH :: decode_native_segment segment)
  end.
Definition render_windows_path u : option str :=
  match path_segments u with
  | [] => None
  | first :: segments =>
      let first := decode_native_segment first in
      match match host_str u with
            | Some host => if is_empty first then None else Some (lit "\\" ++ host ++ [BACKSLASH] ++ first)
            | None => match first with
                      | [drive; c] => if is_ascii_letter drive && (c =? COLON)%N then Some first else None
                      | _ => None
                      end
            end with
      | None => None
      | Some start =>
          let rendered := start ++ (segments ≫= λ segment, BACKSLASH :: decode_native_segment segment) in
          Some (match rendered with
                | [_; c] => if (c =? COLON)%N then rendered ++ [BACKSLASH] else rendered
                | _ => rendered
                end)
      end
  end.
Definition render_windows_opaque_fallback (path_bytes : bytes) : option str :=
  if negb (Nat.even (length path_bytes)) then None
  else
    let path_wide := u16_units path_bytes in
    let has_drive_root :=
      match path_wide with
      | drive :: c :: sep :: _ => is_ascii_letter drive && (c =? COLON)%N && is_windows_separator_char sep
      | _ => false
      end in
    let has_namespace_or_unc_root :=
      match path_wide with a :: b :: _ => is_windows_separator_char a && is_windows_separator_char b | _ => false end in
    if has_drive_root || has_namespace_or_unc_root then Some (from_utf16_lossy path_wide) else None.
Definition render_opaque_fallback (path_bytes : bytes) (convention : PathConvention) : option str :=
  match convention with
  | Posix =>
      match path_bytes with b :: _ => if (b =? SLASH)%N then Some (from_utf8_lossy path_bytes) else None | [] => None end
  | Windows => render_windows_opaque_fallback path_bytes
  end.

(** [LegacyAppPathString::from_path_uri]: [None] stands for its errors. *)
Definition from_path_uri u (convention : PathConvention) : option str :=
  match decode_bad_path_uri u with
  | Some path_bytes => render_opaque_fallback path_bytes convention
  | None => match convention with Posix => render_posix_path u | Windows => render_windows_path u end
  end.
Definition inferred_native_path_string u : str :=
  default (as_str u) (infer_path_convention u ≫= from_path_uri u).
End PathUri.
