(* ===== verification/PathUriProofs.v ===== *)
(** * Containment of path URIs

    On URIs whose segments are unambiguous, containment is the prefix order on
    decoded segments, with ASCII case folded on Windows ([containment_is_prefix]);
    the permission rules are proved on top of it.  Equality agrees with hashing,
    and the walk to the root ends. *)
From stdpp Require Import numbers strings.
From S2P Require Import Prelude RustStr Utf8 PathUri.

(** What the crates below promise. *)
Class UrlLaws (U : Type) `{!UrlCrate U} : Prop := {
  path_segments_ne u : path_segments u ≠ [];
  path_segments_no_slash u : Forall (λ s, SLASH ∉ s) (path_segments u);
  (** the serialisation puts an empty authority before the path *)
  bad_prefix_segment u rest : strip_prefix BAD_PATH_URI_PREFIX (as_str u) = Some rest →
    head (path_segments u) = Some (lit "%00");
  pop_segments u segs s : path_segments u = segs ++ [s] →
    path_segments (pop u) = match segs with [] => [[]] | _ => segs end;
  pop_if_empty_segments u segs s : path_segments u = segs ++ [s] →
    path_segments (pop_if_empty u) = match segs, s with _ :: _, [] => segs | _, _ => segs ++ [s] end;
  pop_host u : host_str (pop u) = host_str u;
  pop_if_empty_host u : host_str (pop_if_empty u) = host_str u;
}.
Class CodecLaws `{!Codecs} : Prop := {
  decode_slash a b : decode_binary (a ++ SLASH :: b) = decode_binary a ++ SLASH :: decode_binary b;
  decode_nil a : decode_binary a = [] ↔ a = [];
  decode_fold a b : fold_case a = fold_case b → fold_case (decode_binary a) = fold_case (decode_binary b);
  decode_nul : decode_binary (lit "%00") = [0%N];
}.

(** ** Equality *)

Section Equality.
Context {U : Type} `{!UrlCrate U} `{!Codecs}.
Implicit Types u v : U.

Lemma eq_ignore_ascii_case_true a b : eq_ignore_ascii_case a b = true ↔ fold_case a = fold_case b.
Proof. unfold eq_ignore_ascii_case. by rewrite bool_decide_eq_true. Qed.

Lemma fold_case_length s : length (fold_case s) = length s.
Proof. apply length_fmap. Qed.

(** Two path URIs are equal exactly when they feed the same data to the
    hasher; in particular equality, which ignores ASCII case on Windows, is
    reflexive, symmetric and transitive, and equal keys share a bucket. *)
Theorem path_uri_eq_hash u v : path_uri_eqb u v = true ↔ path_uri_hash u = path_uri_hash v.
Proof.
  unfold path_uri_eqb, path_uri_hash. case_bool_decide as Huv; [by subst|].
  destruct (windows_identity_path_bytes u) as [p|], (windows_identity_path_bytes v) as [q|].
  - rewrite andb_true_iff, bool_decide_eq_true, eq_ignore_ascii_case_true. split; [|by intros [=]].
    intros [-> Hf]. by rewrite <- (fold_case_length p), <- (fold_case_length q), Hf.
  - by split.
  - by split.
  - split; [done|by intros [= ->]].
Qed.
End Equality.

(** ** Containment *)

Section Containment.
#[local] Set Default Proof Using "Type*".
Context {U : Type} `{!UrlCrate U} {url_laws : UrlLaws U} `{!Codecs} {codec_laws : CodecLaws}.
Implicit Types u v base : U.

(** The segments that matter, as they are compared. *)
Definition segment_key (convention : PathConvention) (segment : str) : bytes :=
  match convention with Posix => decoded segment | Windows => fold_case (decoded segment) end.
Definition uri_key u : list bytes :=
  segment_key (default Posix (infer_path_convention u)) <$> List.filter non_empty (path_segments u).

(** On Windows, a URI that spells text. *)
Definition is_text u : Prop :=
  infer_path_convention u = Some Windows → Forall (λ s, is_ok (from_utf8 (decoded s)) = true) (path_segments u).
Definition lexical u : Prop := is_Some (lexical_depth u) ∧ is_text u.

Lemma filter_Forall {A} (P : A → Prop) (f : A → bool) l : Forall P l → Forall P (List.filter f l).
Proof. induction 1 as [|x l Hx Hl IH]; simpl; [done|]. destruct (f x); [by constructor|done]. Qed.

Lemma decoded_nil s : decoded s = [] ↔ s = [].
Proof.
  unfold decoded. rewrite decode_nil. split; [|by intros ->].
  destruct s as [|c s]; [done|]. intros Hs. apply (f_equal length) in Hs. rewrite encode_cons, length_app in Hs.
  pose proof (encode_char_pos c). simpl in Hs. lia.
Qed.

Lemma join_cons2 sep a b l : join sep (a :: b :: l) = a ++ sep ++ join sep (b :: l).
Proof. done. Qed.

Lemma decoded_join segs : segs ≠ [] → decoded (join [SLASH] segs) = join [SLASH] (decoded <$> segs).
Proof.
  intros Hne. induction segs as [|s segs IH]; [done|]. destruct segs as [|s' segs]; [done|].
  rewrite !fmap_cons, !join_cons2. rewrite <- (fmap_cons decoded s'), <- IH by done.
  unfold decoded. rewrite !encode_app. apply (decode_slash (encode s)).
Qed.

Lemma decoded_path u : decoded (path u) = SLASH :: join [SLASH] (decoded <$> path_segments u).
Proof.
  rewrite <- decoded_join by apply path_segments_ne. unfold path, decoded.
  change (encode (SLASH :: ?s)) with ([] ++ SLASH :: encode s). rewrite decode_slash.
  by rewrite (proj2 (decode_nil []) eq_refl).
Qed.

Lemma fold_case_join segs : fold_case (join [SLASH] segs) = join [SLASH] (fold_case <$> segs).
Proof.
  induction segs as [|s segs IH]; [done|]. destruct segs as [|s' segs]; [done|].
  rewrite !fmap_cons, !join_cons2. rewrite <- (fmap_cons fold_case s'), <- IH.
  unfold fold_case. by rewrite !fmap_app.
Qed.

Lemma fold_case_slash s : SLASH ∈ fold_case s → SLASH ∈ s.
Proof.
  unfold fold_case. intros (c & Hc & Hin)%list_elem_of_fmap. unfold char_to_ascii_lowercase in Hc.
  destruct (_ && _) eqn:E; [|by subst].
  apply andb_true_iff in E as [E1%N.leb_le E2%N.leb_le]. change SLASH with 47%N in Hc. lia.
Qed.

Lemma has_separator_slash convention s : has_separator convention s = false → SLASH ∉ decoded s.
Proof.
  unfold has_separator. intros Hs Hin. apply not_true_iff_false in Hs. apply Hs. apply existsb_exists.
  exists SLASH. split; [by apply list_elem_of_In|done].
Qed.

Lemma segment_key_nil convention s : segment_key convention s = [] ↔ s = [].
Proof.
  rewrite <- (decoded_nil s). destruct convention; simpl; [reflexivity|]. unfold fold_case. split; [apply fmap_nil_inv|by intros ->].
Qed.

(** The keys of the segments that are not empty are the keys that are not. *)
Lemma keys_filter convention segs :
  segment_key convention <$> List.filter non_empty segs = List.filter non_empty (segment_key convention <$> segs).
Proof.
  induction segs as [|s segs IH]; [done|]. cbn [List.filter fmap list_fmap].
  replace (non_empty (segment_key convention s)) with (non_empty s).
  - destruct (non_empty s); cbn [fmap list_fmap]; [by f_equal|done].
  - pose proof (segment_key_nil convention s) as Hn.
    destruct s as [|c s], (segment_key convention _) as [|b k] eqn:E; cbn; try done.
    + by pose proof (proj2 Hn eq_refl).
    + by pose proof (proj1 Hn eq_refl).
Qed.

(** Equal URIs have equal keys. *)
Lemma windows_identity_key u p :
  windows_identity_path_bytes u = Some p →
  infer_path_convention u = Some Windows ∧ is_opaque u = false ∧
  split SLASH (drop 1 (fold_case p)) = segment_key Windows <$> path_segments u.
Proof.
  unfold windows_identity_path_bytes. intros Hw. destruct (_ || _) eqn:Ho in Hw; [done|]. injection Hw as <-.
  apply orb_false_iff in Ho as [Ho Hsep]. apply orb_false_iff in Ho as [Hc Hop].
  apply negb_false_iff, bool_decide_eq_true in Hc. split_and!; [done..|].
  rewrite decoded_path. unfold fold_case at 1. rewrite fmap_cons. cbn [drop].
  change (char_to_ascii_lowercase <$> ?x) with (fold_case x). rewrite fold_case_join, <- list_fmap_compose.
  apply split_join.
  - intros Hn. apply fmap_nil_inv in Hn. by apply path_segments_ne in Hn.
  - apply existsb_false_Forall in Hsep. rewrite Forall_fmap. eapply Forall_impl; [exact Hsep|].
    intros s Hs Hin. by apply (has_separator_slash _ _ Hs), fold_case_slash.
Qed.

Lemma path_uri_eq_key u v :
  path_uri_eqb u v = true → u = v ∨
  host_str u = host_str v ∧ infer_path_convention u = infer_path_convention v ∧ uri_key u = uri_key v.
Proof.
  unfold path_uri_eqb. case_bool_decide as Huv; [by left|]. intros Heq. right.
  destruct (windows_identity_path_bytes u) as [p|] eqn:Hp, (windows_identity_path_bytes v) as [q|] eqn:Hq; try done.
  apply andb_true_iff in Heq as [Hh%bool_decide_eq_true Hf%eq_ignore_ascii_case_true].
  apply windows_identity_key in Hp as (Hcu & _ & Hku), Hq as (Hcv & _ & Hkv). split_and!; [done|congruence|].
  unfold uri_key. rewrite Hcu, Hcv. change (default Posix (Some Windows)) with Windows. rewrite !keys_filter. by rewrite <- Hku, <- Hkv, Hf.
Qed.

(** Case folding commutes with the encoding. *)
Lemma lowercase_high b : (90 < b)%N → char_to_ascii_lowercase b = b.
Proof. intros Hb. unfold char_to_ascii_lowercase. destruct (b <=? 90)%N eqn:E; [split_N_bools; lia|]. by rewrite andb_false_r. Qed.

Lemma lowercase_high_add k x : (90 < k)%N → char_to_ascii_lowercase (k + x) = (k + x)%N.
Proof. intros Hk. apply lowercase_high. lia. Qed.

Lemma fold_case_encode_char c : fold_case (encode_char c) = encode_char (char_to_ascii_lowercase c).
Proof.
  destruct (c <? 128)%N eqn:Hc.
  - unfold encode_char at 1. rewrite Hc. split_N_bools. unfold encode_char. cbn [fold_case fmap list_fmap].
    replace (char_to_ascii_lowercase c <? 128)%N with true; [done|]. symmetry. apply N.ltb_lt.
    unfold char_to_ascii_lowercase. case_match; split_N_bools; lia.
  - split_N_bools. rewrite (lowercase_high c) by lia. unfold encode_char.
    repeat case_match; split_N_bools; try lia; cbn [fold_case fmap list_fmap]; by rewrite !lowercase_high_add by done.
Qed.

Lemma fold_case_encode s : fold_case (encode s) = encode (fold_case s).
Proof.
  induction s as [|c s IH]; [done|]. rewrite encode_cons. unfold fold_case. rewrite fmap_app, fmap_cons, encode_cons.
  f_equal; [apply fold_case_encode_char|apply IH].
Qed.

Lemma fold_case_scalar s : scalar_text s → scalar_text (fold_case s).
Proof.
  unfold scalar_text, fold_case. rewrite Forall_fmap. intros Hs. eapply Forall_impl; [exact Hs|]. intros c Hc. cbn.
  unfold char_to_ascii_lowercase. case_match; [|done]. split_N_bools. unfold is_scalar.
  by replace (c + 32 <? 55296)%N with true by (symmetry; apply N.ltb_lt; lia).
Qed.

Lemma encode_inj s t : scalar_text s → scalar_text t → encode s = encode t → s = t.
Proof. intros Hs Ht He. apply from_utf8_encode in Hs, Ht. rewrite He, Ht in Hs. congruence. Qed.

(** Comparing segments is comparing their keys. *)
Lemma same_segment_key convention p b :
  (convention = Windows → is_ok (from_utf8 (decoded p)) = true ∧ is_ok (from_utf8 (decoded b)) = true) →
  same_segment convention p b = true ↔ segment_key convention p = segment_key convention b.
Proof.
  destruct convention; cbn; [intros _; by rewrite bool_decide_eq_true|]. intros [Hp Hb]; [done|].
  rewrite orb_true_iff, !eq_ignore_ascii_case_true. unfold decode_uri_path.
  destruct (from_utf8 (decoded p)) as [s|] eqn:Es; [|done]. destruct (from_utf8 (decoded b)) as [t|] eqn:Et; [|done].
  apply from_utf8_Ok in Es as [Es Hs], Et as [Et Ht]. split.
  - intros [Hraw|Hdec].
    + apply decode_fold. by rewrite !fold_case_encode, Hraw.
    + by rewrite Es, Et, !fold_case_encode, Hdec.
  - rewrite Es, Et, !fold_case_encode. intros He. right. apply encode_inj in He; auto using fold_case_scalar.
Qed.

Lemma prefix_cons_iff {A} (x y : A) k l : (x :: k) `prefix_of` (y :: l) ↔ y = x ∧ k `prefix_of` l.
Proof.
  split; [|intros [-> ?]; by apply prefix_cons].
  intros Hp. split; [symmetry; by eapply prefix_cons_inv_1|by eapply prefix_cons_inv_2].
Qed.

Lemma segments_prefix convention ps bs :
  (convention = Windows → Forall (λ s, is_ok (from_utf8 (decoded s)) = true) (ps ++ bs)) →
  native_path_segments_start_with ps bs convention = true ↔
  (segment_key convention <$> bs) `prefix_of` (segment_key convention <$> ps).
Proof.
  unfold native_path_segments_start_with. revert ps. induction bs as [|b bs IH]; intros ps Htext.
  { rewrite zip_with_nil_r. cbn. split; [intros _; apply prefix_nil|done]. }
  destruct ps as [|p ps]; cbn [length zip_with forallb fmap list_fmap].
  { cbn. split; [done|]. by intros ?%prefix_nil_not. }
  rewrite prefix_cons_iff, <- IH, <- same_segment_key.
  - cbn [Nat.leb]. rewrite !andb_true_iff. tauto.
  - intros Hw. specialize (Htext Hw). rewrite Forall_app, !Forall_cons in Htext. tauto.
  - intros Hw. specialize (Htext Hw). rewrite Forall_app, !Forall_cons in Htext. rewrite Forall_app. tauto.
Qed.

(** What a lexical depth tells. *)
Lemma lexical_depth_Some u n :
  lexical_depth u = Some n →
  is_opaque u = false ∧ ∃ convention segs, infer_path_convention u = Some convention ∧
    containment_path_segments u convention = Some segs ∧ segs = List.filter non_empty (path_segments u) ∧ n = length segs.
Proof.
  unfold lexical_depth. destruct (is_opaque u); [done|]. destruct (infer_path_convention u) as [convention|]; [|done].
  intros (segs & Hsegs & ->)%fmap_Some. split; [done|]. exists convention, segs. split_and!; [done..| |done].
  unfold containment_path_segments in Hsegs. by destruct (existsb _ _); simplify_eq.
Qed.

Lemma uri_key_depth u n : lexical_depth u = Some n → length (uri_key u) = n.
Proof. intros (_ & c & segs & _ & _ & -> & ->)%lexical_depth_Some. unfold uri_key. apply length_fmap. Qed.

Lemma containment_is_prefix_lemma u base : lexical u → lexical base →
  starts_with u base = true ↔
  host_str u = host_str base ∧ infer_path_convention u = infer_path_convention base ∧
  uri_key base `prefix_of` uri_key u.
Proof.
  intros [[n Hu] Htu] [[m Hb] Htb]. apply lexical_depth_Some in Hu as (Hou & cu & su & Hcu & Hsu & -> & _).
  apply lexical_depth_Some in Hb as (Hob & cb & sb & Hcb & Hsb & -> & _).
  unfold starts_with. rewrite Hou, Hob. destruct (path_uri_eqb u base) eqn:Heq.
  { split; [intros _|done]. apply path_uri_eq_key in Heq as [->|(? & ? & ->)]; done. }
  cbn [orb]. case_bool_decide as Hh; cbn [negb]; [|by split; [|intros (? & _)]].
  case_bool_decide as Hc; cbn [negb]; [|by split; [|intros (_ & ? & _)]].
  rewrite Hcu, Hcb in Hc. injection Hc as <-. rewrite Hcu. cbn [from_option id].
  rewrite Hsu, Hsb. unfold uri_key. rewrite Hcu, Hcb. cbn [from_option id].
  rewrite segments_prefix; [by split; [intros ?|intros (_ & _ & ?)]|].
  intros ->. rewrite Forall_app. split; apply filter_Forall; auto.
Qed.

(** C28: containment of path URIs is the prefix order on their decoded segments:
    a URI is below another exactly when they have the same authority and path
    convention and the segments of the other come first, ASCII case being
    ignored on Windows.  The URIs must be unambiguous (no encoded separators,
    not opaque) and, on Windows, spell text. *)
Theorem containment_is_prefix u base (Hu : lexical u) (Hbase : lexical base) :
  starts_with u base = true ↔
  host_str u = host_str base ∧ infer_path_convention u = infer_path_convention base ∧
  uri_key base `prefix_of` uri_key u.
Proof. by apply containment_is_prefix_lemma. Qed.

Lemma starts_with_refl u : starts_with u u = true.
Proof. unfold starts_with, path_uri_eqb. by rewrite bool_decide_true. Qed.

Lemma starts_with_trans u v w : lexical u → lexical v → lexical w →
  starts_with u v = true → starts_with v w = true → starts_with u w = true.
Proof.
  intros Hu Hv Hw. rewrite !containment_is_prefix_lemma by done. intros (Hh & Hc & Hp) (Hh' & Hc' & Hp').
  split_and!; [congruence..|]. by etrans.
Qed.

(** The URIs above a given one form a chain. *)
Lemma starts_with_chain u v w : lexical u → lexical v → lexical w →
  starts_with u v = true → starts_with u w = true → length (uri_key v) ≤ length (uri_key w) → starts_with w v = true.
Proof.
  intros Hu Hv Hw. rewrite !containment_is_prefix_lemma by done. intros (Hh & Hc & Hp) (Hh' & Hc' & Hp') Hle.
  split_and!; [congruence..|]. destruct (prefix_weak_total _ _ _ Hp Hp') as [Hp''|Hp'']; [done|].
  rewrite (prefix_length_eq _ _ Hp''); [done|lia].
Qed.

(** Equal URIs contain the same ones. *)
Lemma path_uri_eq_contains u v w : lexical u → lexical v → lexical w →
  path_uri_eqb v w = true → starts_with u v = starts_with u w ∧ lexical_depth v = lexical_depth w.
Proof.
  intros Hu Hv Hw Heq. apply path_uri_eq_key in Heq as [->|(Hh & Hc & Hk)]; [done|]. split.
  - apply eq_bool_prop_intro. rewrite !Is_true_true, !containment_is_prefix_lemma by done. by rewrite Hh, Hc, Hk.
  - destruct Hv as [[n Hv] _], Hw as [[m Hw] _]. rewrite Hv, Hw. apply uri_key_depth in Hv, Hw. congruence.
Qed.
End Containment.

(** ** Parents *)

Section Parents.
#[local] Set Default Proof Using "Type*".
Context {U : Type} `{!UrlCrate U} {url_laws : UrlLaws U} `{!Codecs} {codec_laws : CodecLaws}.
Implicit Types u p root : U.

(** A URI that passed validation and is not opaque holds no NUL. *)
Definition no_nul u : Prop := Forall (λ s, 0%N ∉ decoded s) (path_segments u).

Lemma elem_of_join (x : N) (sep s : str) l : s ∈ l → x ∈ s → x ∈ join sep l.
Proof.
  intros Hs Hx. induction l as [|t l IH]; [by apply elem_of_nil in Hs|].
  destruct l as [|t' l]; [apply list_elem_of_singleton in Hs; by subst|].
  rewrite join_cons by done. apply elem_of_cons in Hs as [->|Hs]; [by apply elem_of_app; left|].
  apply elem_of_app. right. apply elem_of_app. right. by apply IH.
Qed.

Lemma valid_no_nul u : validate_file_url u = Ok tt → is_opaque u = false → no_nul u.
Proof.
  unfold validate_file_url, no_nul. intros Hv Ho. destruct (validate_common_known_uri u); [|done].
  rewrite Ho in Hv. cbn [negb] in Hv. rewrite andb_true_r in Hv. destruct (contains_char _ _) eqn:Hc in Hv; [done|].
  apply Forall_forall. intros s Hs Hin. apply not_true_iff_false in Hc. apply Hc. unfold contains_char.
  apply existsb_exists. exists 0%N. split; [|done]. apply list_elem_of_In. rewrite decoded_path. apply elem_of_cons. right.
  eapply elem_of_join; [apply list_elem_of_fmap_2, Hs|done].
Qed.

Lemma opaque_nul u : is_opaque u = true → no_nul u → False.
Proof.
  unfold is_opaque, decode_bad_path_uri. intros Ho Hn. destruct (strip_prefix _ _) eqn:Hp in Ho; [|done].
  apply bad_prefix_segment in Hp. unfold no_nul in Hn. destruct (path_segments u) as [|s segs]; [done|].
  injection Hp as ->. inversion Hn as [|? ? Hs _]; subst. apply Hs. unfold decoded.
  change (encode (lit "%00")) with (lit "%00"). rewrite decode_nul. by constructor.
Qed.

(** The segments of the parent. *)
Lemma parent_segments u :
  ∃ segs, path_segments (pop (pop_if_empty u)) = match segs with [] => [[]] | _ => segs end ∧
    segs `prefix_of` path_segments u ∧ length segs < length (path_segments u) ∧
    depth_of u ≤ S (length (List.filter non_empty segs)).
Proof.
  destruct (list_snoc_cases (path_segments u)) as [Hn|(segs & s & Hs)]; [by apply path_segments_ne in Hn|].
  pose proof (pop_if_empty_segments u segs s Hs) as Hp. unfold depth_of. rewrite Hs.
  destruct segs as [|s0 segs].
  - exists []. split; [by apply (pop_segments _ [] s)|]. split_and!; [apply prefix_nil|simpl; lia|].
    cbn. destruct (non_empty s); simpl; lia.
  - destruct s as [|c s].
    + destruct (list_snoc_cases (s0 :: segs)) as [Hn|(segs' & s' & Hs')]; [done|]. rewrite Hs' in *.
      exists segs'. split; [by apply (pop_segments _ _ s')|]. split_and!.
      * rewrite <- app_assoc. apply prefix_app_r. done.
      * rewrite !length_app. simpl. lia.
      * rewrite !List.filter_app. cbn. rewrite app_nil_r, length_app. destruct (non_empty s'); simpl; lia.
    + exists (s0 :: segs). split; [by apply (pop_segments _ (s0 :: segs) (c :: s))|]. split_and!.
      * by apply prefix_app_r.
      * rewrite length_app. simpl. lia.
      * rewrite List.filter_app. cbn. rewrite length_app. simpl. lia.
Qed.

(** What a parent keeps: all that containment looks at. *)
Record above u p : Prop := mkAbove {
  above_host : host_str p = host_str u;
  above_convention : infer_path_convention p = infer_path_convention u;
  above_lexical : lexical p;
  above_no_nul : no_nul p;
  above_segments : List.filter non_empty (path_segments p) `prefix_of` List.filter non_empty (path_segments u);
}.

Lemma filter_prefix {A} (f : A → bool) k l : k `prefix_of` l → List.filter f k `prefix_of` List.filter f l.
Proof. intros [l' ->]. rewrite List.filter_app. by exists (List.filter f l'). Qed.

Lemma Forall_parent_segments (P : str → Prop) segs u :
  P [] → segs `prefix_of` path_segments u → Forall P (path_segments u) →
  Forall P (match segs with [] => [[]] | _ => segs end).
Proof.
  intros Hnil [l' Hl'] Hall. destruct segs as [|s segs]; [by repeat constructor|].
  rewrite Hl' in Hall. by apply Forall_app in Hall as [? _].
Qed.

Lemma filter_parent_segments segs :
  List.filter non_empty (match segs with [] => [[]] | _ => segs end) = List.filter non_empty segs.
Proof. by destruct segs. Qed.

Lemma not_opaque_no_nul u : no_nul u → is_opaque u = false.
Proof. intros Hn. destruct (is_opaque u) eqn:E; [|done]. by destruct (opaque_nul u). Qed.

Lemma first_non_empty_prefix {A} (k l : list A) s : k `prefix_of` l → head k = Some s → head l = Some s.
Proof. intros [l' ->]. by destruct k. Qed.

Lemma parent_above u p : lexical u → no_nul u → parent u = Some p →
  above u p ∧ length (path_segments p) + depth_of p < length (path_segments u) + depth_of u.
Proof.
  intros Hlex Hnul Hp. pose proof Hlex as [[n Hdepth] Htext].
  apply lexical_depth_Some in Hdepth as (Hopq & convention & kept & Hconv & Hcont & Hkept & _).
  unfold parent in Hp. rewrite Hopq, Hconv in Hp. destruct (_ <=? _)%nat eqn:Hanchor in Hp; [done|]. injection Hp as <-.
  apply Nat.leb_gt in Hanchor. destruct (parent_segments u) as (segs & Hsegs & Hpre & Hlen & Hdep).
  assert (List.filter non_empty segs `prefix_of` List.filter non_empty (path_segments u)) as Hfpre by by apply filter_prefix.
  assert (no_nul (pop (pop_if_empty u))) as Hnul'.
  { unfold no_nul. rewrite Hsegs. apply Forall_parent_segments with u; [|done..].
    rewrite (proj2 (decoded_nil [])) by done. apply not_elem_of_nil. }
  assert (host_str (pop (pop_if_empty u)) = host_str u) as Hhost by by rewrite pop_host, pop_if_empty_host.
  pose proof (not_opaque_no_nul _ Hnul') as Hopq'.
  assert (infer_path_convention (pop (pop_if_empty u)) = Some convention) as Hconv'.
  { revert Hconv. unfold infer_path_convention. unfold is_opaque in Hopq, Hopq'.
    destruct (decode_bad_path_uri u), (decode_bad_path_uri (pop _)); try done. rewrite Hhost.
    destruct (host_str u); [done|]. unfold first_non_empty. rewrite Hsegs, filter_parent_segments.
    destruct (List.filter non_empty segs) as [|s fsegs] eqn:Ef; cbn [head].
    - unfold depth_of in *. simpl in Hdep. destruct convention; simpl in Hanchor; [|lia]. done.
    - by rewrite (first_non_empty_prefix _ _ s Hfpre eq_refl). }
  split; [split|].
  - done.
  - congruence.
  - split.
    + unfold lexical_depth. rewrite Hopq', Hconv'. unfold containment_path_segments in *.
      destruct (existsb (has_separator convention) (List.filter non_empty (path_segments u))) eqn:Ex; [done|].
      rewrite Hsegs, filter_parent_segments. destruct Hfpre as [l' Hl']. rewrite Hl', existsb_app in Ex.
      apply orb_false_iff in Ex as [-> _]. by eexists.
    + unfold is_text in *. rewrite Hconv', Hsegs. rewrite <- Hconv. intros Hw.
      apply Forall_parent_segments with u; [|done|by apply Htext]. by rewrite (proj2 (decoded_nil [])) by done.
  - done.
  - by rewrite Hsegs, filter_parent_segments.
  - rewrite Hsegs. unfold depth_of in *. rewrite Hsegs, filter_parent_segments.
    apply prefix_length in Hfpre. destruct segs as [|s0 segs]; [|lia].
    cbn [length List.filter]. cbn [length List.filter] in Hdep. destruct (List.filter non_empty (path_segments u)); simpl in *; lia.
Qed.

Lemma above_refl u : lexical u → no_nul u → above u u.
Proof. by split. Qed.

Lemma above_trans u p q : above u p → above p q → above u q.
Proof. intros [] []. split; [congruence..|done|done|]. by etrans. Qed.

Lemma above_contains u p : lexical u → above u p → starts_with u p = true.
Proof.
  intros Hu [Hh Hc Hl _ [l' Hs]]. apply containment_is_prefix_lemma; [done..|]. split_and!; [done..|].
  unfold uri_key. rewrite Hc, Hs, fmap_app. by exists (segment_key (default Posix (infer_path_convention u)) <$> l').
Qed.

(** The walk ends, before the fuel does, at a URI without a parent. *)
Lemma successors_above fuel u : lexical u → no_nul u → length (path_segments u) + depth_of u < fuel →
  Forall (above u) (successors fuel u) ∧ ∃ root, last (successors fuel u) = Some root ∧ parent root = None.
Proof.
  revert u. induction fuel as [|fuel IH]; intros u Hlex Hnul Hfuel; [lia|]. cbn [successors].
  destruct (parent u) as [p|] eqn:Hp; [|split; [by constructor; [apply above_refl|]|by exists u]].
  destruct (parent_above u p) as [Habove Hless]; [done..|].
  destruct (IH p) as [Hall (root & Hlast & Hroot)]; [apply Habove..|lia|]. split.
  - constructor; [by apply above_refl|]. eapply Forall_impl; [exact Hall|]. intros q. by apply above_trans.
  - exists root. split; [|done]. destruct (successors fuel p) eqn:Es; [done|]. by rewrite last_cons, Hlast.
Qed.

Lemma parent_None u : lexical u → parent u = None →
  ∃ convention, infer_path_convention u = Some convention ∧ depth_of u ≤ anchor_depth convention.
Proof.
  intros [[n Hdepth] _]. apply lexical_depth_Some in Hdepth as (Hopq & convention & _ & Hconv & _).
  unfold parent. rewrite Hopq, Hconv. destruct (_ <=? _)%nat eqn:E; [|done]. intros _. exists convention.
  split; [done|]. by apply Nat.leb_le.
Qed.

(** The root of the file system of an unambiguous URI. *)
Lemma ancestors_root u : lexical u → no_nul u →
  ∃ root, last (ancestors u) = Some root ∧ above u root ∧
    depth_of root ≤ anchor_depth (default Posix (infer_path_convention u)).
Proof.
  intros Hlex Hnul. destruct (successors_above (S (length (path_segments u) + depth_of u)) u) as [Hall (root & Hlast & Hroot)];
    [done..|lia|]. exists root.
  assert (above u root) as Habove.
  { rewrite Forall_forall in Hall. apply Hall. by apply last_Some_elem_of. }
  split_and!; [done..|]. destruct (parent_None root) as (convention & Hc & Hd); [apply Habove|done|].
  by rewrite (above_convention _ _ Habove) in Hc; rewrite Hc.
Qed.

(** C37: the walk from a path to its parents ends at the root of its file system:
    every URI on the way contains the path and has its authority and path
    convention, and the last one is the POSIX root, a drive or a share, which
    has no parent. *)
Theorem ancestors_end_at_root u (Hlex : lexical u) (Hvalid : validate_file_url u = Ok tt) :
  Forall (λ a, starts_with u a = true ∧ host_str a = host_str u ∧ infer_path_convention a = infer_path_convention u)
    (ancestors u) ∧
  ∃ root, last (ancestors u) = Some root ∧ parent root = None ∧
    depth_of root ≤ anchor_depth (default Posix (infer_path_convention u)).
Proof.
  assert (no_nul u) as Hnul.
  { apply valid_no_nul; [done|]. destruct Hlex as [[n Hd] _]. by apply lexical_depth_Some in Hd as [? _]. }
  destruct (successors_above (S (length (path_segments u) + depth_of u)) u) as [Hall (root & Hlast & Hroot)]; [done..|lia|].
  split.
  - eapply Forall_impl; [exact Hall|]. intros a Ha. split_and!; [by apply above_contains|apply Ha..].
  - exists root. split_and!; [done..|]. destruct (ancestors_root u) as (root' & Hlast' & _ & Hd); [done..|].
    unfold ancestors in Hlast'. rewrite Hlast in Hlast'. congruence.
Qed.
End Parents.

(** ** A small URL library

    An instance of the classes, in which the theorems are tried: a URL is its
    host and the text of its path behind the first slash. *)
Module MiniUrl.
Record mini_url : Type := mkMini { m_host : option str; m_text : str }.
#[global] Instance mini_url_eq_dec : EqDecision mini_url.
Proof. solve_decision. Defined.

Definition segments (u : mini_url) : list str := split SLASH (m_text u).
Definition host (u : mini_url) : option str := List.filter (λ c, negb (c =? SLASH)%N) <$> m_host u.
Definition with_segments (u : mini_url) (segs : list str) : mini_url := mkMini (m_host u) (join [SLASH] segs).
Definition pop_one (segs : list str) : list str := match segs with [] | [_] => [[]] | _ => removelast segs end.
Definition pop_empty (segs : list str) : list str :=
  match segs with
  | [] | [_] => segs
  | _ => match last segs with Some [] => removelast segs | _ => segs end
  end.
Definition hex (n : N) : char := if (n <? 10)%N then (48 + n)%N else (55 + n)%N.
Definition unreserved (b : N) : bool :=
  is_ascii_letter b || is_ascii_digit b || existsb (N.eqb b) (lit "-._~:").
Definition percent_encode (s : str) : str :=
  encode s ≫= λ b, if unreserved b then [b] else [37; hex (b / 16); hex (b mod 16)]%N.

Definition unhex (c : N) : option N :=
  if is_ascii_digit c then Some (c - 48)%N
  else let c := char_to_ascii_lowercase c in if ((97 <=? c) && (c <=? 102))%N then Some (c - 87)%N else None.
Fixpoint percent_decode (l : bytes) : bytes :=
  match l with
  | [] => []
  | p :: l' =>
      match l' with
      | a :: b :: rest =>
          if (p =? 37)%N then
            match unhex a, unhex b with
            | Some x, Some y => (16 * x + y)%N :: percent_decode rest
            | _, _ => p :: percent_decode l'
            end
          else p :: percent_decode l'
      | _ => p :: percent_decode l'
      end
  end.

#[global] Instance mini_crate : UrlCrate mini_url := {
  scheme _ := FILE_SCHEME;
  host_str := host;
  path_segments := segments;
  as_str u := lit "file://" ++ default [] (host u) ++ SLASH :: m_text u;
  has_credentials _ := false;
  has_port _ := false;
  has_query _ := false;
  has_fragment _ := false;
  file_root := mkMini None [];
  url_parse s :=
    match strip_prefix (lit "file://") s with
    | Some rest =>
        match split_once SLASH rest with
        | Some (h, text) => Some (mkMini (if is_empty h then None else Some h) text)
        | None => None
        end
    | None => None
    end;
  set_host u h := Some (mkMini h (m_text u));
  set_path u p := mkMini (m_host u) (drop 1 p);
  pop_if_empty u := with_segments u (pop_empty (segments u));
  pop u := with_segments u (pop_one (segments u));
  push u s := with_segments u (if is_empty (m_text u) then [percent_encode s] else segments u ++ [percent_encode s]);
  clear u := mkMini (m_host u) [];
}.

(** Hexadecimal digits stand in for base64. *)
#[global] Instance mini_codecs : Codecs := {
  decode_binary := percent_decode;
  base64_encode b := b ≫= λ x, [hex (x / 16); hex (x mod 16)];
  base64_decode s :=
    (fix go (s : str) : option bytes :=
       match s with
       | [] => Some []
       | a :: b :: s => match unhex a, unhex b, go s with Some x, Some y, Some l => Some ((16 * x + y)%N :: l) | _, _, _ => None end
       | _ => None
       end) s;
}.

Definition of_text (s : string) : mini_url := match parse (lit s) with Ok u => u | Err _ => file_root end.

Example mini_conventions :
  infer_path_convention (of_text "file:///home/a%20b") = Some Posix ∧
  infer_path_convention (of_text "file:///c:/x") = Some Windows ∧
  infer_path_convention (of_text "file://server/share/x") = Some Windows ∧
  as_str (of_text "file:///c:/x") = lit "file:///C:/x".
Proof. by vm_compute. Qed.

Example mini_joins :
  join_path (of_text "file:///home/u/") (lit "../v/./w") = Ok (of_text "file:///home/v/w") ∧
  join_path (of_text "file:///home/u") (lit "/tmp/x") = Ok (of_text "file:///tmp/x") ∧
  join_path (of_text "file:///C:/a/b") (lit "\x\..\..\..\y") = Ok (of_text "file:///C:/y") ∧
  join_path (of_text "file:///C:/a/b") (lit "c:d") = Ok (of_text "file:///C:/a/b/d") ∧
  join_path (of_text "file://srv/share/a") (lit "\\other\disk\z") = Ok (of_text "file://other/disk/z") ∧
  ok (join_descendant (of_text "file:///home/u") (lit "../v")) = None.
Proof. by vm_compute. Qed.

Lemma split_Forall c s : Forall (λ t, c ∉ t) (split c s).
Proof.
  induction s as [|x s IH]; cbn [split]; [by repeat constructor; apply not_elem_of_nil|].
  destruct (N.eqb_spec x c) as [->|Hx].
  - constructor; [apply not_elem_of_nil|done].
  - destruct (split c s) as [|t l]; inversion IH; subst; constructor; try done; set_solver.
Qed.

Lemma with_segments_segments u segs : segs ≠ [] → Forall (λ s, SLASH ∉ s) segs →
  segments (with_segments u segs) = segs.
Proof. intros. by apply split_join. Qed.

#[global] Instance mini_url_laws : UrlLaws mini_url.
Proof.
  split.
  - intros u. apply split_ne_nil.
  - intros u. apply split_Forall.
  - intros u rest Hp. apply strip_prefix_Some in Hp. cbn [as_str mini_crate] in Hp.
    assert (default [] (host u) = []) as Hh.
    { unfold host in *. destruct (m_host u) as [h|]; [|done]. cbn in *.
      destruct (List.filter _ h) as [|c h'] eqn:Ef; [done|]. exfalso.
      assert (In c (List.filter (λ c, negb (c =? SLASH)%N) h)) as Hin by (rewrite Ef; by left).
      apply List.filter_In in Hin as [_ Hc]. injection Hp as Hp _. by rewrite Hp in Hc. }
    rewrite Hh in Hp. injection Hp as Hp. cbn [path_segments mini_crate]. unfold segments. rewrite Hp. done.
  - intros u segs s Hs. cbn [path_segments pop mini_crate] in *.
    assert (pop_one (segments u) = match segs with [] => [[]] | _ => segs end) as ->.
    { rewrite Hs. destruct segs as [|s0 segs]; [done|].
      transitivity (removelast ((s0 :: segs) ++ [s])); [by destruct segs|apply removelast_last]. }
    apply with_segments_segments; [by destruct segs|]. pose proof (split_Forall SLASH (m_text u)) as Hf.
    unfold segments in Hs. rewrite Hs in Hf. apply Forall_app in Hf as [Hf _].
    destruct segs; [by repeat constructor; apply not_elem_of_nil|done].
  - intros u segs s Hs. cbn [path_segments pop_if_empty mini_crate] in *.
    pose proof (split_Forall SLASH (m_text u)) as Hf. unfold segments in Hs. rewrite Hs in Hf.
    assert (pop_empty (segments u) = match segs, s with _ :: _, [] => segs | _, _ => segs ++ [s] end) as ->.
    { unfold segments. rewrite Hs. destruct segs as [|s0 segs]; [by destruct s|]. cbn [app].
      assert (pop_empty (s0 :: segs ++ [s]) = match last (s0 :: segs ++ [s]) with
               Some [] => removelast (s0 :: segs ++ [s]) | _ => s0 :: segs ++ [s] end) as -> by by destruct segs.
      change (s0 :: segs ++ [s]) with ((s0 :: segs) ++ [s]). rewrite last_snoc, removelast_last. by destruct s. }
    apply with_segments_segments; [by destruct segs, s|]. apply Forall_app in Hf as Hf'. destruct segs, s; tauto.
  - done.
  - done.
Qed.

(** One step of the decoder: an escape, or a byte of its own. *)
Definition escape (p : N) (l : bytes) : option (N * bytes) :=
  match l with
  | a :: b :: rest =>
      if (p =? 37)%N then match unhex a, unhex b with Some x, Some y => Some (16 * x + y, rest)%N | _, _ => None end
      else None
  | _ => None
  end.
Lemma percent_decode_step p l :
  percent_decode (p :: l) = match escape p l with Some (v, rest) => v :: percent_decode rest | None => p :: percent_decode l end.
Proof. cbn [percent_decode]. unfold escape. by repeat case_match; simplify_eq. Qed.

Lemma escape_rest p l v rest : escape p l = Some (v, rest) → ∃ a b, l = a :: b :: rest.
Proof. unfold escape. intros He. repeat case_match; simplify_eq; eauto. Qed.

Lemma escape_slash p l b : escape p (l ++ SLASH :: b) =
  match escape p l with Some (v, rest) => Some (v, rest ++ SLASH :: b) | None => None end.
Proof.
  unfold escape. destruct l as [|x [|y l]]; cbn [app].
  - destruct b as [|y b]; [done|]. by destruct (p =? 37)%N.
  - destruct (p =? 37)%N; [|done]. by destruct (unhex x).
  - by repeat case_match.
Qed.

Lemma unhex_fold c : unhex c = unhex (char_to_ascii_lowercase c).
Proof.
  unfold char_to_ascii_lowercase. destruct (_ && _) eqn:E; [|done]. unfold unhex, is_ascii_digit.
  split_N_bools. rewrite (lowercase_high (c + 32)) by lia. unfold char_to_ascii_lowercase.
  rewrite (proj2 (N.leb_le 65 c)), (proj2 (N.leb_le c 90)) by lia. cbn [andb].
  rewrite (proj2 (N.leb_gt c 57)), (proj2 (N.leb_gt (c + 32) 57)) by lia. by rewrite !andb_false_r.
Qed.

Lemma fold_percent p q : char_to_ascii_lowercase p = char_to_ascii_lowercase q → (p =? 37)%N = (q =? 37)%N.
Proof.
  unfold char_to_ascii_lowercase. intros Hpq. apply eq_bool_prop_intro. rewrite !Is_true_true, !N.eqb_eq.
  repeat case_match; split_N_bools; lia.
Qed.

Lemma escape_fold p q k l : char_to_ascii_lowercase p = char_to_ascii_lowercase q → fold_case k = fold_case l →
  match escape p k, escape q l with
  | Some (v, rest), Some (w, rest') => v = w ∧ fold_case rest = fold_case rest'
  | None, None => True
  | _, _ => False
  end.
Proof.
  intros Hpq Hkl. unfold escape. rewrite (fold_percent p q) by done.
  destruct k as [|a [|b k]], l as [|c [|d l]]; try done. unfold fold_case in Hkl. rewrite !fmap_cons in Hkl.
  injection Hkl as Hac Hbd Hkl. destruct (q =? 37)%N; [|done].
  rewrite (unhex_fold a), (unhex_fold b), (unhex_fold c), (unhex_fold d), Hac, Hbd.
  destruct (unhex (char_to_ascii_lowercase c)), (unhex (char_to_ascii_lowercase d)); try done.
Qed.

#[global] Instance mini_codec_laws : CodecLaws.
Proof.
  split.
  - cbn [decode_binary mini_codecs]. intros a. remember (length a) as n eqn:Hn. revert a Hn.
    induction (lt_wf n) as [n _ IH]. intros a -> b. destruct a as [|p a]; cbn [app].
    { by rewrite percent_decode_step; destruct b as [|? []]. }
    rewrite !percent_decode_step, escape_slash. destruct (escape p a) as [[v rest]|] eqn:He; cbn [app]; f_equal.
    + apply escape_rest in He as (x & y & ->). apply (IH (length rest)); [simpl; lia|done].
    + apply (IH (length a)); [simpl; lia|done].
  - cbn [decode_binary mini_codecs]. intros [|p a]; [done|]. rewrite percent_decode_step.
    by destruct (escape p a) as [[]|].
  - cbn [decode_binary mini_codecs]. intros a. remember (length a) as n eqn:Hn. revert a Hn.
    induction (lt_wf n) as [n _ IH]. intros a -> b Hab. destruct a as [|p a], b as [|q b]; try done.
    unfold fold_case in Hab. rewrite !fmap_cons in Hab. injection Hab as Hpq Hab.
    pose proof (escape_fold p q a b Hpq Hab) as Hesc. rewrite !percent_decode_step.
    destruct (escape p a) as [[v rest]|] eqn:He, (escape q b) as [[w rest']|]; try done.
    + destruct Hesc as [-> Hrest]. unfold fold_case in *. rewrite !fmap_cons. f_equal.
      apply escape_rest in He as (x & y & ->). apply (IH (length rest)); [simpl; lia|done..].
    + unfold fold_case in *. rewrite !fmap_cons, Hpq. f_equal. apply (IH (length a)); [simpl; lia|done..].
  - by vm_compute.
Qed.

Lemma lexical_text u : bool_decide (is_Some (lexical_depth u)) = true →
  forallb (λ s, is_ok (from_utf8 (decoded s))) (path_segments u) = true → lexical u.
Proof.
  intros Hd%bool_decide_eq_true Hf. split; [done|]. intros _. apply Forall_forall. intros s Hs.
  rewrite forallb_forall in Hf. apply Hf. by apply list_elem_of_In.
Qed.
Ltac solve_lexical := apply lexical_text; vm_compute; reflexivity.

Lemma containment_is_prefix_witness :
  starts_with (of_text "file:///C:/Work/%61b") (of_text "file:///c:/work") = true ∧
  starts_with (of_text "file:///Work/ab") (of_text "file:///work") ≠ true.
Proof.
  split.
  - apply containment_is_prefix; [solve_lexical..|]. split_and!; [by vm_compute..|].
    exists [lit "ab"]. by vm_compute.
  - rewrite containment_is_prefix by solve_lexical. intros (_ & _ & [l Hl]). by vm_compute in Hl.
Defined.

Lemma ancestors_end_at_root_witness :
  starts_with (of_text "file:///home/u/x") (of_text "file:///home") = true ∧
  ∃ root, last (ancestors (of_text "file:///home/u/x")) = Some root ∧ parent root = None ∧ depth_of root ≤ 0.
Proof.
  destruct (ancestors_end_at_root (of_text "file:///home/u/x")) as [Hall (root & Hlast & Hp & Hd)];
    [solve_lexical|by vm_compute|].
  split; [|exists root; split; [exact Hlast|]; split; [exact Hp|]; etrans; [exact Hd|by vm_compute]].
  rewrite Forall_forall in Hall. apply (Hall (of_text "file:///home")). vm_compute. by repeat constructor.
Defined.

(** Equal URIs can differ in what contains them.  On Windows equality
    compares the decoded bytes, but containment compares the spelling of a
    segment that is not UTF-8: a URI lies below a directory while a URI equal
    to it does not, so a rule for the directory is missed. *)
Theorem equal_uris_differ_in_containment :
  let u := of_text "file:///C:/a%FF/x" in
  let v := of_text "file:///C:/%61%FF/x" in
  let directory := of_text "file:///C:/%61%FF" in
  path_uri_eqb u v = true ∧ starts_with v directory = true ∧ starts_with u directory = false.
Proof. by vm_compute. Qed.
End MiniUrl.
