(* ===== verification/Permissions.v ===== *)
(** * File system permissions ([protocol/src/permissions.rs])

    A sandbox policy is a list of entries that grant or deny access to paths,
    some of them symbolic (the root, the project roots, the temporary
    directories).  This file models how a policy decides on a path: resolving
    the entries in the context of an executor, the choice of the entry that
    counts, protected metadata directories, denied reads with their globs; and
    how policies are built, merged, materialised and translated from and to the
    older form of policies.

    Paths of the executor are URIs ([PathUri]).  The paths, the environment and
    the files of the machine that runs the code are a class, [Host], and so is
    the glob compiler. *)
From stdpp Require Import numbers strings.
From S2P Require Import Prelude RustStr Utf8 PathUri.

Class Host (U : Type) : Type := {
  (** [AbsolutePathBuf] *)
  Abs : Type;
  #[global] Abs_eq_dec :: EqDecision Abs;
  (** [cfg!(unix)] *)
  unix : bool;
  from_absolute_path : str → option Abs;
  is_absolute : str → bool;
  abs_join : Abs → str → Abs;
  resolve_path_against_base : str → Abs → Abs;
  abs_parent : Abs → option Abs;
  (** equality with a path text *)
  abs_is : Abs → str → bool;
  (** the last of [ancestors] *)
  abs_root : Abs → Abs;
  as_path : Abs → str;
  to_string_lossy : Abs → str;
  uri_from_abs_path : Abs → U;
  uri_to_abs_path : U → result io_error Abs;
  (** the home directory, and [TMPDIR] when it is set and absolute *)
  home_dir : option U;
  tmpdir : option Abs;
  abs_is_file : Abs → bool;
  abs_is_dir : Abs → bool;
  abs_exists : Abs → bool;
  abs_read_to_string : Abs → option str;
  (** [GlobBuilder] with the options of the convention *)
  glob_build : str → PathConvention → result str (bytes → bool);
}.

(** ** Data *)

Inductive NetworkSandboxPolicy : Type := NetRestricted | NetEnabled.
Definition is_enabled (n : NetworkSandboxPolicy) : bool := match n with NetEnabled => true | NetRestricted => false end.

Inductive FileSystemAccessMode : Type := Read | Write | Deny.
#[global] Instance FileSystemAccessMode_eq_dec : EqDecision FileSystemAccessMode.
Proof. solve_decision. Defined.
(** The derived order: [Read < Write < Deny]. *)
Definition access_rank (a : FileSystemAccessMode) : nat := match a with Read => 0 | Write => 1 | Deny => 2 end.
Definition can_read (a : FileSystemAccessMode) : bool := match a with Deny => false | _ => true end.
Definition can_write (a : FileSystemAccessMode) : bool := match a with Write => true | _ => false end.

Inductive FileSystemSpecialPath : Type :=
  | Root
  | Minimal
  | ProjectRoots (subpath : option str)
  | Tmpdir
  | SlashTmp
  | UnknownPath (path : str) (subpath : option str).
#[global] Instance FileSystemSpecialPath_eq_dec : EqDecision FileSystemSpecialPath.
Proof. solve_decision. Defined.

Inductive FileSystemPath (U : Type) : Type :=
  | PathEntry (path : U)
  | GlobPattern (pattern : str)
  | Special (value : FileSystemSpecialPath).
Arguments PathEntry {U}.
Arguments GlobPattern {U}.
Arguments Special {U}.

Inductive MissingPathBehavior : Type := Skip.
#[global] Instance MissingPathBehavior_eq_dec : EqDecision MissingPathBehavior.
Proof. solve_decision. Defined.

Record FileSystemSandboxEntry (U : Type) : Type := mkEntry {
  entry_path : FileSystemPath U;
  access : FileSystemAccessMode;
  missing_path_behavior : option MissingPathBehavior;
}.
Arguments mkEntry {U}.
Arguments entry_path {U}.
Arguments access {U}.
Arguments missing_path_behavior {U}.

Inductive FileSystemSandboxKind : Type := Restricted | Unrestricted | ExternalSandboxKind.
#[global] Instance FileSystemSandboxKind_eq_dec : EqDecision FileSystemSandboxKind.
Proof. solve_decision. Defined.

Record FileSystemSandboxPolicy (U : Type) : Type := mkPolicy {
  kind : FileSystemSandboxKind;
  glob_scan_max_depth : option nat;
  entries : list (FileSystemSandboxEntry U);
}.
Arguments mkPolicy {U}.
Arguments kind {U}.
Arguments glob_scan_max_depth {U}.
Arguments entries {U}.

(** [FileSystemSandboxPolicyContext]. *)
Record PolicyContext (U : Type) : Type := mkContext {
  cwd : U;
  workspace_roots : list U;
  user_home_dir : option U;
  temporary_directories : option (list U);
}.
Arguments mkContext {U}.
Arguments cwd {U}.
Arguments workspace_roots {U}.
Arguments user_home_dir {U}.
Arguments temporary_directories {U}.

(** [SandboxPolicy] and [NetworkAccess] of [protocol.rs]. *)
Inductive NetworkAccess : Type := AccessRestricted | AccessEnabled.
Inductive SandboxPolicy (A : Type) : Type :=
  | DangerFullAccess
  | ReadOnly (network_access : bool)
  | ExternalSandbox (network_access : NetworkAccess)
  | WorkspaceWrite (writable_roots : list A) (network_access exclude_tmpdir_env_var exclude_slash_tmp : bool).
Arguments DangerFullAccess {A}.
Arguments ReadOnly {A}.
Arguments ExternalSandbox {A}.
Arguments WorkspaceWrite {A}.

Definition PROTECTED_METADATA_PATH_NAMES : list str := [lit ".git"; lit ".agents"; lit ".rexux"].
Definition PROJECT_ROOTS_GLOB_PATTERN_PREFIX : str := lit "rexux-project-roots://".

Section Permissions.
Context {U : Type} `{!UrlCrate U} `{!Codecs} `{!Host U}.
Abbreviation entry := (FileSystemSandboxEntry U).
Abbreviation policy := (FileSystemSandboxPolicy U).
Abbreviation context := (PolicyContext U).
Implicit Types (e : entry) (p : policy) (ctx : context).

(** ** Entries and policies *)

Definition new_entry (path : FileSystemPath U) (a : FileSystemAccessMode) : entry := mkEntry path a None.
Definition skip_missing_path (path : FileSystemPath U) (a : FileSystemAccessMode) : entry := mkEntry path a (Some Skip).
Definition skips_missing_path e : bool := bool_decide (missing_path_behavior e = Some Skip).

(** The derived [PartialEq]. *)
Definition path_eqb (a b : FileSystemPath U) : bool :=
  match a, b with
  | PathEntry u, PathEntry v => path_uri_eqb u v
  | GlobPattern s, GlobPattern t => str_eqb s t
  | Special s, Special t => bool_decide (s = t)
  | _, _ => false
  end.
Definition entry_eqb e e' : bool :=
  path_eqb (entry_path e) (entry_path e') && bool_decide (access e = access e') &&
  bool_decide (missing_path_behavior e = missing_path_behavior e').

Definition restricted (es : list entry) : policy := mkPolicy Restricted None es.
Definition read_only : policy := restricted [new_entry (Special Root) Read].
Definition unrestricted : policy := mkPolicy Unrestricted None [].
Definition external_sandbox : policy := mkPolicy ExternalSandboxKind None [].
Definition with_entries p (es : list entry) : policy := mkPolicy (kind p) (glob_scan_max_depth p) es.
Definition remove_skip_missing_path_entries p : policy :=
  with_entries p (List.filter (λ e, negb (skips_missing_path e)) (entries p)).

Definition is_restricted p : bool := bool_decide (kind p = Restricted).
Definition is_deny e : bool := bool_decide (access e = Deny).

(** ** Properties of the whole policy *)

Definition has_root_access p (predicate : FileSystemAccessMode → bool) : bool :=
  is_restricted p &&
  existsb (λ e, match entry_path e with Special Root => predicate (access e) | _ => false end) (entries p).

Definition has_denied_read_restrictions p : bool :=
  is_restricted p &&
  existsb (λ e, is_deny e && negb (match entry_path e with Special SlashTmp => negb unix | _ => false end)) (entries p).

(** Same target, without resolving symbolic paths. *)
Definition special_paths_share_target (l r : FileSystemSpecialPath) : bool :=
  match l, r with
  | Root, Root | Minimal, Minimal | Tmpdir, Tmpdir | SlashTmp, SlashTmp => true
  | ProjectRoots s, ProjectRoots t => bool_decide (s = t)
  | UnknownPath a s, UnknownPath b t => bool_decide (a = b) && bool_decide (s = t)
  | _, _ => false
  end.
Definition special_path_matches_absolute_path (value : FileSystemSpecialPath) (path : Abs) : bool :=
  match value with
  | Root => bool_decide (abs_parent path = None)
  | SlashTmp => abs_is path (lit "/tmp")
  | _ => false
  end.
Definition file_system_paths_share_target (l r : FileSystemPath U) : bool :=
  match l, r with
  | PathEntry u, PathEntry v => path_uri_eqb u v
  | Special s, Special t => special_paths_share_target s t
  | PathEntry u, Special s | Special s, PathEntry u =>
      match uri_to_abs_path u with Ok path => special_path_matches_absolute_path s path | Err _ => false end
  | GlobPattern s, GlobPattern t => str_eqb s t
  | GlobPattern _, _ | _, GlobPattern _ => false
  end.

Definition has_same_target_write_override p e : bool :=
  existsb (λ candidate, can_write (access candidate) && (access_rank (access e) <? access_rank (access candidate))%nat &&
                        file_system_paths_share_target (entry_path candidate) (entry_path e)) (entries p).
Definition has_write_narrowing_entries p : bool :=
  is_restricted p &&
  existsb (λ e,
    if can_write (access e) then false
    else match entry_path e with
         | PathEntry _ => negb (has_same_target_write_override p e)
         | GlobPattern _ => true
         | Special Root => is_deny e
         | Special SlashTmp => if unix then negb (has_same_target_write_override p e) else false
         | Special Minimal | Special (UnknownPath _ _) => false
         | Special _ => negb (has_same_target_write_override p e)
         end) (entries p).

Definition has_full_disk_read_access p : bool :=
  match kind p with
  | Unrestricted | ExternalSandboxKind => true
  | Restricted => has_root_access p can_read && negb (has_denied_read_restrictions p)
  end.
Definition has_full_disk_write_access p : bool :=
  match kind p with
  | Unrestricted | ExternalSandboxKind => true
  | Restricted => has_root_access p can_write && negb (has_write_narrowing_entries p)
  end.
Definition include_platform_defaults p : bool :=
  negb (has_full_disk_read_access p) && is_restricted p &&
  existsb (λ e, match entry_path e with Special Minimal => can_read (access e) | _ => false end) (entries p).

(** ** Resolving entries in a context *)

Definition file_system_root ctx : option U :=
  match lexical_depth (cwd ctx) with Some _ => last (ancestors (cwd ctx)) | None => None end.

Definition entry_roots ctx (path : FileSystemPath U) : list U :=
  match path with
  | PathEntry u => [u]
  | GlobPattern _ => []
  | Special Root => option_list (file_system_root ctx)
  | Special (ProjectRoots None) => workspace_roots ctx
  | Special (ProjectRoots (Some subpath)) => omap (λ root, ok (join_path root subpath)) (workspace_roots ctx)
  | Special Tmpdir => default [] (temporary_directories ctx)
  | Special SlashTmp =>
      if bool_decide (infer_path_convention (cwd ctx) = Some Posix)
      then option_list (ok (join_path (cwd ctx) (lit "/tmp"))) else []
  | Special Minimal | Special (UnknownPath _ _) => []
  end.
Definition resolved_entries p ctx : list (U * FileSystemAccessMode) :=
  entries p ≫= λ e,
    (λ u, (u, access e)) <$>
    List.filter (λ u, bool_decide (infer_path_convention u = infer_path_convention (cwd ctx))) (entry_roots ctx (entry_path e)).

(** The roots with their depth; [None] when one of them is ambiguous. *)
Fixpoint with_depths (roots : list (U * FileSystemAccessMode)) : option (list (U * FileSystemAccessMode * nat)) :=
  match roots with
  | [] => Some []
  | (root, a) :: roots =>
      match lexical_depth root with
      | Some depth => cons (root, a, depth) <$> with_depths roots
      | None => if is_opaque root then with_depths roots else None
      end
  end.

(** [max_by_key] on [(depth, access)]: the last of the greatest. *)
Definition key_leb (x y : nat * FileSystemAccessMode) : bool :=
  (fst x <? fst y)%nat || (fst x =? fst y)%nat && (access_rank (snd x) <=? access_rank (snd y))%nat.
Definition max_by_key (l : list (nat * FileSystemAccessMode)) : option (nat * FileSystemAccessMode) :=
  foldl (λ best x, match best with None => Some x | Some b => if key_leb b x then Some x else Some b end) None l.

(** The path and the current directory are unambiguous and of one convention. *)
Definition context_covers ctx (path : U) : bool :=
  match infer_path_convention (cwd ctx) with
  | None => false
  | Some convention =>
      bool_decide (infer_path_convention path = Some convention) && bool_decide (is_Some (lexical_depth path)) &&
      bool_decide (is_Some (lexical_depth (cwd ctx)))
  end.

Definition resolve_access p ctx (path : U) : FileSystemAccessMode :=
  match kind p with
  | Unrestricted | ExternalSandboxKind => Write
  | Restricted =>
      if negb (context_covers ctx path) then Deny
      else match with_depths (resolved_entries p ctx) with
           | None => Deny
           | Some es =>
               match max_by_key ((λ '(_, a, depth), (depth, a)) <$> List.filter (λ '(root, _, _), starts_with path root) es) with
               | Some (_, a) => a
               | None => Deny
               end
           end
  end.

(** ** Writes *)

Definition metadata_write_denial p ctx (path : U) : option str :=
  if negb (is_restricted p) then None
  else
    let es := resolved_entries p ctx in
    match find_map (λ '(root, a),
            if can_write a then
              find_map (λ metadata_name,
                match join_descendant root metadata_name with
                | Ok protected => if starts_with path protected then Some (protected, metadata_name) else None
                | Err _ => None
                end) PROTECTED_METADATA_PATH_NAMES
            else None) es with
    | None => None
    | Some (protected, metadata_name) =>
        if existsb (λ '(root, a), can_write a && starts_with path root && starts_with root protected) es
        then None else Some metadata_name
    end.

Definition can_write_path p ctx (path : U) : bool :=
  if negb (can_write (resolve_access p ctx path)) then false
  else has_full_disk_write_access p || bool_decide (metadata_write_denial p ctx path = None).

(** ** Denied reads *)

Inductive InvalidDenyReadGlobBehavior : Type := FailClosed | ReturnError.

Record PreparedReadDenyMatcher : Type := mkPrepared {
  denied_roots : list U;
  deny_read_matchers : list (bytes → bool);
  invalid_pattern : bool;
}.

(** The pattern of a deny entry, resolved against the home or the current
    directory. *)
Fixpoint trim_start_matches (f : char → bool) (s : str) : str :=
  match s with c :: s' => if f c then trim_start_matches f s' else s | [] => [] end.
Definition deny_read_glob ctx (pattern : str) : result str str :=
  let is_windows := bool_decide (infer_path_convention (cwd ctx) = Some Windows) in
  let home_relative :=
    match strip_prefix (lit "~/") pattern with
    | Some suffix => Some suffix
    | None => if is_windows then strip_prefix (lit "~\") pattern else None
    end in
  let resolve root text :=
    match join_path root text with
    | Ok path => Ok (inferred_native_path_string path)
    | Err _ => Err (lit "unable to resolve deny-read glob pattern `" ++ text ++ lit "`")
    end in
  match home_relative with
  | None => resolve (cwd ctx) pattern
  | Some suffix =>
      match user_home_dir ctx with
      | None => Err (lit "unable to resolve deny-read glob pattern `" ++ pattern ++ lit "` without executor home")
      | Some home => resolve home (trim_start_matches (λ c, (c =? SLASH)%N || is_windows && (c =? BACKSLASH)%N) suffix)
      end
  end.
Definition deny_globs p : list str :=
  omap (λ e, if is_deny e then match entry_path e with GlobPattern pattern => Some pattern | _ => None end else None) (entries p).
Definition deny_read_globs p ctx : result str (list str) := map_result (deny_read_glob ctx) (deny_globs p).

Definition build_glob_matcher (pattern : str) (convention : PathConvention) : result str (bytes → bool) :=
  glob_build (match convention with Windows => replace_char BACKSLASH SLASH pattern | Posix => pattern end) convention.

(** The loop over the patterns: the matchers and whether one is invalid. *)
Fixpoint build_matchers (convention : PathConvention) (behavior : InvalidDenyReadGlobBehavior) (patterns : list str)
    (matchers : list (bytes → bool)) (invalid : bool) : result str (list (bytes → bool) * bool) :=
  match patterns with
  | [] => Ok (matchers, invalid)
  | pattern :: patterns =>
      match build_glob_matcher pattern convention, behavior with
      | Ok matcher, _ => build_matchers convention behavior patterns (matchers ++ [matcher]) invalid
      | Err _, FailClosed => build_matchers convention behavior patterns matchers true
      | Err err, ReturnError => Err (lit "invalid deny-read glob pattern `" ++ pattern ++ lit "`: " ++ err)
      end
  end.

Definition prepare_deny_read_matcher p ctx (behavior : InvalidDenyReadGlobBehavior) : result str PreparedReadDenyMatcher :=
  let root := file_system_root ctx in
  let is_root u := match root with Some r => starts_with u r && starts_with r u | None => false end in
  let denied := fst <$> List.filter (λ '(u, a), bool_decide (a = Deny) && negb (is_root u)) (resolved_entries p ctx) in
  match infer_path_convention (cwd ctx) with
  | None => Ok (mkPrepared denied [] true)
  | Some convention =>
      match deny_read_globs p ctx, behavior with
      | Err _, FailClosed => Ok (mkPrepared denied [] true)
      | Err err, ReturnError => Err err
      | Ok patterns, _ =>
          let? r := build_matchers convention behavior patterns [] false in
          Ok (mkPrepared denied (fst r) (snd r))
      end
  end.

Definition matches_prepared_read_deny (path : U) ctx (prepared : PreparedReadDenyMatcher) : bool :=
  match infer_path_convention (cwd ctx) with
  | None => true
  | Some convention =>
      if negb (context_covers ctx path) then true
      else if invalid_pattern prepared then true
      else existsb (starts_with path) (denied_roots prepared) ||
           existsb (λ matcher : bytes → bool,
             matcher match convention with
                     | Posix => decoded (PathUri.path path)
                     | Windows => encode (replace_char BACKSLASH SLASH (inferred_native_path_string path))
                     end) (deny_read_matchers prepared)
  end.

(** [ReadDenyMatcher::from_context] followed by [is_read_denied_uri]; without a
    matcher nothing is denied. *)
Definition from_context p ctx : option PreparedReadDenyMatcher :=
  if existsb is_deny (entries p) then ok (prepare_deny_read_matcher p ctx FailClosed) else None.
Definition is_read_denied_uri p ctx (path : U) : bool :=
  match from_context p ctx with Some prepared => matches_prepared_read_deny path ctx prepared | None => false end.

(** ** Keeping denials *)

(** Appends the deny entries of another policy that are not there yet. *)
Definition push_missing (es : list entry) (new : entry) : list entry :=
  if existsb (λ e, entry_eqb e new) es then es else es ++ [new].
Definition push_denies (es others : list entry) : list entry := foldl push_missing es (List.filter is_deny others).

Definition preserve_deny_read_restrictions_from p (existing : policy) : policy :=
  let p := if bool_decide (kind p = Unrestricted) && existsb is_deny (entries existing)
           then restricted [new_entry (Special Root) Write] else p in
  if negb (is_restricted p) then p
  else mkPolicy (kind p)
         (match glob_scan_max_depth p with None => glob_scan_max_depth existing | d => d end)
         (push_denies (entries p) (entries existing)).

(** ** The policies of the older form *)

Definition append_default_read_only_entry_if_no_explicit_rule (es : list entry) (path : FileSystemPath U) : list entry :=
  if existsb (λ e, file_system_paths_share_target (entry_path e) path) es then es
  else es ++ [skip_missing_path path Read].

Fixpoint dedup_paths (seen : list Abs) (paths : list Abs) : list Abs :=
  match paths with
  | [] => []
  | path :: paths => if bool_decide (path ∈ seen) then dedup_paths seen paths else path :: dedup_paths (path :: seen) paths
  end.

Definition resolve_gitdir_from_file (dot_git : Abs) : option Abs :=
  match abs_read_to_string dot_git with
  | None => None
  | Some contents =>
      match split_once COLON (trim contents) with
      | Some (prefix, gitdir_raw) =>
          if str_eqb (trim prefix) (lit "gitdir") then
            let gitdir_raw := trim gitdir_raw in
            if is_empty gitdir_raw then None
            else match abs_parent dot_git with
                 | None => None
                 | Some base =>
                     let gitdir_path := resolve_path_against_base gitdir_raw base in
                     if abs_exists gitdir_path then Some gitdir_path else None
                 end
          else None
      | None => None
      end
  end.

(** [default_read_only_subpaths_for_writable_root]; a pointer file is the file
    [.git] of the root. *)
Definition default_read_only_subpaths (writable_root : Abs) (protect_missing_dot_codex : bool) : list Abs :=
  let top_level_git := abs_join writable_root (lit ".git") in
  let is_file := abs_is_file top_level_git in
  let git :=
    if abs_is_dir top_level_git || is_file
    then (if is_file then option_list (resolve_gitdir_from_file top_level_git) else []) ++ [top_level_git]
    else [] in
  let agents := abs_join writable_root (lit ".agents") in
  let codex := abs_join writable_root (lit ".rexux") in
  dedup_paths [] (git ++ (if abs_is_dir agents then [agents] else []) ++
                  (if protect_missing_dot_codex || abs_is_dir codex then [codex] else [])).

Definition append_default_subpaths (es : list entry) (root : Abs) (protect_missing_dot_codex : bool) : list entry :=
  foldl (λ es path, append_default_read_only_entry_if_no_explicit_rule es (PathEntry (uri_from_abs_path path))) es
    (default_read_only_subpaths root protect_missing_dot_codex).

(** The grants of a workspace-write policy. *)
Definition workspace_grants (roots : list Abs) (exclude_tmpdir_env_var exclude_slash_tmp : bool) : list entry :=
  [new_entry (Special Root) Read; new_entry (Special (ProjectRoots None)) Write] ++
  (if exclude_slash_tmp then [] else [new_entry (Special SlashTmp) Write]) ++
  (if exclude_tmpdir_env_var then [] else [new_entry (Special Tmpdir) Write]) ++
  ((λ root, new_entry (PathEntry (uri_from_abs_path root)) Write) <$> roots).
Definition workspace_write (roots : list Abs) (exclude_tmpdir_env_var exclude_slash_tmp : bool) : policy :=
  let es := workspace_grants roots exclude_tmpdir_env_var exclude_slash_tmp in
  let es := foldl (λ es name, append_default_read_only_entry_if_no_explicit_rule es (Special (ProjectRoots (Some name))))
              es PROTECTED_METADATA_PATH_NAMES in
  restricted (foldl (λ es root, append_default_subpaths es root false) es roots).

Definition from_sandbox_policy (value : SandboxPolicy Abs) : policy :=
  match value with
  | DangerFullAccess => unrestricted
  | ExternalSandbox _ => external_sandbox
  | ReadOnly _ => restricted [new_entry (Special Root) Read]
  | WorkspaceWrite roots _ exclude_tmpdir_env_var exclude_slash_tmp =>
      workspace_write roots exclude_tmpdir_env_var exclude_slash_tmp
  end.
Definition has_full_network_access (value : SandboxPolicy Abs) : bool :=
  match value with
  | DangerFullAccess => true
  | ExternalSandbox a => match a with AccessEnabled => true | AccessRestricted => false end
  | ReadOnly network_access => network_access
  | WorkspaceWrite _ network_access _ _ => network_access
  end.
Definition network_policy_of (value : SandboxPolicy Abs) : NetworkSandboxPolicy :=
  if has_full_network_access value then NetEnabled else NetRestricted.

Definition from_legacy_sandbox_policy_for_cwd (value : SandboxPolicy Abs) (cwd : str) : policy :=
  let p := from_sandbox_policy value in
  match value with
  | WorkspaceWrite roots _ _ _ =>
      let es := match from_absolute_path cwd with
                | Some root => append_default_subpaths (entries p) root true
                | None => entries p
                end in
      with_entries p (foldl (λ es root, append_default_subpaths es root false) es roots)
  | _ => p
  end.

Definition from_legacy_sandbox_policy_preserving_deny_entries (value : SandboxPolicy Abs) (cwd : str) (existing : policy) :
    policy :=
  let rebuilt := from_legacy_sandbox_policy_for_cwd value cwd in
  if negb (is_restricted rebuilt) then rebuilt
  else mkPolicy (kind rebuilt) (glob_scan_max_depth existing) (push_denies (entries rebuilt) (entries existing)).

(** ** Paths of this machine *)

Definition resolve_candidate_path (path cwd : str) : option Abs :=
  if is_absolute path then from_absolute_path path
  else match from_absolute_path cwd with Some base => Some (abs_join base path) | None => None end.
Definition local_temporary_directories : list U := option_list (uri_from_abs_path <$> tmpdir).
Definition local_context (cwd : Abs) : context :=
  let u := uri_from_abs_path cwd in mkContext u [u] home_dir (Some local_temporary_directories).
Definition with_local_policy_context {T} (path cwd : str) (evaluate : U → context → T) : option T :=
  match from_absolute_path cwd with
  | None => None
  | Some base =>
      match resolve_candidate_path path cwd with
      | None => None
      | Some candidate => Some (evaluate (uri_from_abs_path candidate) (local_context base))
      end
  end.

Definition resolve_access_with_cwd p (path cwd : str) : FileSystemAccessMode :=
  default Deny (with_local_policy_context path cwd (λ path ctx, resolve_access p ctx path)).
Definition can_read_path_with_cwd p (path cwd : str) : bool := can_read (resolve_access_with_cwd p path cwd).
Definition can_write_path_with_cwd p (path cwd : str) : bool :=
  default false (with_local_policy_context path cwd (λ path ctx, can_write_path p ctx path)).
Definition forbidden_agent_metadata_write (path cwd : str) p : option str :=
  if negb (is_restricted p) then None
  else mjoin (with_local_policy_context path cwd (λ path ctx,
         match metadata_write_denial p ctx path with
         | Some name => if can_write_path p ctx path then None else Some name
         | None => None
         end)).

Definition resolve_file_system_special_path (value : FileSystemSpecialPath) (cwd : option Abs) : option Abs :=
  match value with
  | Root | Minimal | UnknownPath _ _ => None
  | ProjectRoots subpath =>
      match cwd, subpath with
      | None, _ => None
      | Some cwd, Some subpath => Some (resolve_path_against_base subpath cwd)
      | Some cwd, None => Some cwd
      end
  | Tmpdir => tmpdir
  | SlashTmp =>
      if unix then
        match from_absolute_path (lit "/tmp") with
        | Some slash_tmp => if abs_is_dir slash_tmp then Some slash_tmp else None
        | None => None
        end
      else None
  end.
Definition resolve_file_system_path (path : FileSystemPath U) (cwd : option Abs) : option Abs :=
  match path with
  | PathEntry u => ok (uri_to_abs_path u)
  | GlobPattern _ => None
  | Special value => resolve_file_system_special_path value cwd
  end.
Definition resolve_entry_path (path : FileSystemPath U) (cwd : option Abs) : option Abs :=
  match path with
  | Special Root => abs_root <$> cwd
  | _ => resolve_file_system_path path cwd
  end.
Definition has_explicit_non_write_entry_for_path_with_cwd p (path cwd : str) : bool :=
  match resolve_candidate_path path cwd with
  | None => false
  | Some path =>
      existsb (λ e, negb (skips_missing_path e) && negb (can_write (access e)) &&
                    bool_decide (resolve_entry_path (entry_path e) (from_absolute_path cwd) = Some path)) (entries p)
  end.

(** ** Project roots *)

Definition parse_project_roots_glob_pattern (pattern : str) : option str :=
  strip_prefix PROJECT_ROOTS_GLOB_PATTERN_PREFIX pattern.
Definition resolve_project_roots_glob_pattern (subpath : str) (root : Abs) : str :=
  to_string_lossy (resolve_path_against_base subpath root).
Definition with_path e (path : FileSystemPath U) : entry := mkEntry path (access e) (missing_path_behavior e).

Definition materialize_project_roots_with_cwd p (cwd : str) : policy :=
  let cwd := from_absolute_path cwd in
  with_entries p ((λ e,
    match entry_path e with
    | Special (ProjectRoots _) =>
        match resolve_file_system_path (entry_path e) cwd with
        | Some path => with_path e (PathEntry (uri_from_abs_path path))
        | None => e
        end
    | GlobPattern pattern =>
        match cwd, parse_project_roots_glob_pattern pattern with
        | Some cwd, Some subpath => with_path e (GlobPattern (resolve_project_roots_glob_pattern subpath cwd))
        | _, _ => e
        end
    | _ => e
    end) <$> entries p).

Definition materialize_project_roots_with_workspace_roots p (roots : list Abs) : policy :=
  with_entries p (entries p ≫= λ e,
    match entry_path e with
    | Special (ProjectRoots subpath) =>
        (λ root, with_path e (PathEntry (uri_from_abs_path
           (match subpath with Some subpath => resolve_path_against_base subpath root | None => root end)))) <$> roots
    | GlobPattern pattern =>
        match parse_project_roots_glob_pattern pattern with
        | Some subpath => (λ root, with_path e (GlobPattern (resolve_project_roots_glob_pattern subpath root))) <$> roots
        | None => [e]
        end
    | _ => [e]
    end).

(** A path below a workspace root, of another machine: no absolute text, no
    dots, no drive. *)
Definition resolve_scoped_workspace_path (root : U) (subpath : str) : option U :=
  match infer_path_convention root with
  | None => None
  | Some convention =>
      let windows := bool_decide (convention = Windows) in
      if RustStr.starts_with [SLASH] subpath || windows && RustStr.starts_with [BACKSLASH] subpath ||
         existsb (λ s, str_eqb s (lit ".") || str_eqb s (lit "..")) (convention_segments convention subpath) ||
         windows && existsb (contains_char COLON) (convention_segments convention subpath)
      then None
      else match join_path root subpath with
           | Ok path => if starts_with path root then Some path else None
           | Err _ => None
           end
  end.

(** The entries one symbolic entry becomes for one root. *)
Definition materialize_entry e (subpath : option str) (is_glob : bool) (root : U) : option entry :=
  match match subpath with Some subpath => resolve_scoped_workspace_path root subpath | None => Some root end with
  | Some path =>
      Some (if is_glob then with_path e (GlobPattern (inferred_native_path_string path)) else with_path e (PathEntry path))
  | None =>
      if can_write (access e) then None else Some (mkEntry (PathEntry root) Deny (missing_path_behavior e))
  end.
Definition materialize_project_roots_with_path_uris p (roots : list U) : policy :=
  match map_result uri_to_abs_path roots with
  | Ok native => materialize_project_roots_with_workspace_roots p native
  | Err _ =>
      with_entries p (entries p ≫= λ e,
        match entry_path e with
        | Special (ProjectRoots subpath) => omap (materialize_entry e subpath false) roots
        | GlobPattern pattern =>
            match strip_prefix PROJECT_ROOTS_GLOB_PATTERN_PREFIX pattern with
            | Some subpath => omap (materialize_entry e (Some subpath) true) roots
            | None => [e]
            end
        | _ => [e]
        end)
  end.

Definition with_materialized_project_roots_for_workspace_roots p (roots : list Abs) : policy :=
  with_entries p (foldl push_missing (entries p) (entries (materialize_project_roots_with_workspace_roots p roots))).

(** ** More roots *)

Definition with_additional_readable_roots p (cwd : str) (additional : list Abs) : policy :=
  if has_full_disk_read_access p then p
  else foldl (λ p path,
         if can_read_path_with_cwd p (as_path path) cwd then p
         else with_entries p (entries p ++ [new_entry (PathEntry (uri_from_abs_path path)) Read])) p additional.
Definition with_additional_writable_roots p (cwd : str) (additional : list Abs) : policy :=
  foldl (λ p path,
    if can_write_path_with_cwd p (as_path path) cwd then p
    else with_entries p (entries p ++ [new_entry (PathEntry (uri_from_abs_path path)) Write])) p additional.
Definition with_additional_legacy_workspace_writable_roots p (additional : list Abs) : policy :=
  if negb (is_restricted p) then p
  else foldl (λ p path,
         let u := uri_from_abs_path path in
         let es := if existsb (λ e, can_write (access e) &&
                                 match entry_path e with PathEntry existing => path_uri_eqb existing u | _ => false end) (entries p)
                   then entries p else entries p ++ [new_entry (PathEntry u) Write] in
         with_entries p (append_default_subpaths es path false)) p additional.

(** ** Translation to the older form *)

Definition unsupported_write : io_error :=
  mkIo InvalidInput (lit "permissions profile requests filesystem writes outside the workspace root, which is not supported until the runtime enforces FileSystemSandboxPolicy directly").

(** What the loop over the entries finds. *)
Record Found : Type := mkFound {
  workspace_root_writable : bool;
  found_roots : list Abs;
  tmpdir_writable : bool;
  slash_tmp_writable : bool;
  unbridgeable_root_write : bool;
}.
Definition nothing_found : Found := mkFound false [] false false false.
Definition find_step (cwd : option Abs) (f : Found) e : result io_error Found :=
  let root path := mkFound (workspace_root_writable f) (found_roots f ++ [path]) (tmpdir_writable f) (slash_tmp_writable f)
                     (unbridgeable_root_write f) in
  let workspace := mkFound true (found_roots f) (tmpdir_writable f) (slash_tmp_writable f) (unbridgeable_root_write f) in
  match entry_path e with
  | GlobPattern _ | Special Minimal | Special (UnknownPath _ _) => Ok f
  | PathEntry u =>
      if can_write (access e) then
        let? path := uri_to_abs_path u in
        Ok (if bool_decide (cwd = Some path) then workspace else root path)
      else Ok f
  | Special Root =>
      Ok (match access e with
          | Write => mkFound (workspace_root_writable f) (found_roots f) (tmpdir_writable f) (slash_tmp_writable f) true
          | _ => f
          end)
  | Special (ProjectRoots subpath) =>
      Ok (if bool_decide (subpath = None) && can_write (access e) then workspace
          else match resolve_file_system_special_path (ProjectRoots subpath) cwd with
               | Some path => if can_write (access e) then root path else f
               | None => f
               end)
  | Special Tmpdir =>
      Ok (if can_write (access e)
          then mkFound (workspace_root_writable f) (found_roots f) true (slash_tmp_writable f) (unbridgeable_root_write f) else f)
  | Special SlashTmp =>
      Ok (if can_write (access e)
          then mkFound (workspace_root_writable f) (found_roots f) (tmpdir_writable f) true (unbridgeable_root_write f) else f)
  end.
Fixpoint find_writes (cwd : option Abs) (f : Found) (es : list entry) : result io_error Found :=
  match es with
  | [] => Ok f
  | e :: es => let? f := find_step cwd f e in find_writes cwd f es
  end.

Definition to_legacy_sandbox_policy p (network_policy : NetworkSandboxPolicy) (cwd : str) :
    result io_error (SandboxPolicy Abs) :=
  let full := if is_enabled network_policy then DangerFullAccess else ExternalSandbox AccessRestricted in
  match kind p with
  | ExternalSandboxKind => Ok (ExternalSandbox (if is_enabled network_policy then AccessEnabled else AccessRestricted))
  | Unrestricted => Ok full
  | Restricted =>
      let? f := find_writes (from_absolute_path cwd) nothing_found (entries p) in
      if has_full_disk_write_access p then Ok full
      else if workspace_root_writable f then
        Ok (WorkspaceWrite (dedup_paths [] (found_roots f)) (is_enabled network_policy) (negb (tmpdir_writable f))
              (negb (slash_tmp_writable f)))
      else if unbridgeable_root_write f || negb (match found_roots f with [] => true | _ => false end) || tmpdir_writable f ||
              unix && slash_tmp_writable f
      then Err unsupported_write
      else Ok (ReadOnly (is_enabled network_policy))
  end.
End Permissions.
