(* ===== verification/PermissionsProofs.v ===== *)
(** * What a sandbox policy promises

    The entry that decides is the most specific one and a denial wins among
    equals; a policy that claims full write access gives it; a denied read stays
    denied when the rest of the policy is replaced; protected metadata stays
    protected; translating an older policy and back loses nothing. *)
From stdpp Require Import numbers strings.
From S2P Require Import Prelude RustStr Utf8 PathUri PathUriProofs Permissions.

Section Access.
#[local] Set Default Proof Using "Type*".
Context {U : Type} `{!UrlCrate U} {url_laws : UrlLaws U} `{!Codecs} {codec_laws : CodecLaws} `{!Host U}.
Implicit Types (p : FileSystemSandboxPolicy U) (ctx : PolicyContext U) (u v path root : U).

(** ** The greatest key *)

Lemma key_leb_spec x y : key_leb x y = true ↔
  fst x < fst y ∨ fst x = fst y ∧ access_rank (snd x) ≤ access_rank (snd y).
Proof.
  unfold key_leb. rewrite orb_true_iff, andb_true_iff, Nat.ltb_lt, Nat.eqb_eq, Nat.leb_le. tauto.
Qed.

Lemma key_leb_total x y : key_leb x y = false → key_leb y x = true.
Proof. intros Hxy. apply not_true_iff_false in Hxy. rewrite key_leb_spec in *. lia. Qed.

Lemma key_leb_trans x y z : key_leb x y = true → key_leb y z = true → key_leb x z = true.
Proof. rewrite !key_leb_spec. lia. Qed.

Lemma max_by_key_from b l :
  ∃ m, foldl (λ best x, match best with None => Some x | Some b => if key_leb b x then Some x else Some b end) (Some b) l = Some m ∧
    (m = b ∨ m ∈ l) ∧ key_leb b m = true ∧ ∀ x, x ∈ l → key_leb x m = true.
Proof.
  revert b. induction l as [|x l IH]; intros b; cbn [foldl].
  { exists b. split_and!; [done|by left|rewrite key_leb_spec; lia|by intros ? ?%elem_of_nil]. }
  destruct (key_leb b x) eqn:Hb.
  - destruct (IH x) as (m & -> & Hm & Hx & Hl). exists m. split_and!; [done| |by eapply key_leb_trans|].
    + right. destruct Hm as [->|Hm]; [by left|by right].
    + intros y [->|Hy]%elem_of_cons; auto.
  - destruct (IH b) as (m & -> & Hm & Hx & Hl). exists m. split_and!; [done| |done|].
    + destruct Hm as [->|Hm]; [by left|by right; right].
    + intros y [->|Hy]%elem_of_cons; [|auto]. apply key_leb_total in Hb. by eapply key_leb_trans.
Qed.

Lemma max_by_key_spec l :
  match max_by_key l with
  | Some m => m ∈ l ∧ ∀ x, x ∈ l → key_leb x m = true
  | None => l = []
  end.
Proof.
  destruct l as [|x l]; [done|]. unfold max_by_key. cbn [foldl].
  destruct (max_by_key_from x l) as (m & -> & Hm & Hx & Hl). split.
  - destruct Hm as [->|Hm]; [by left|by right].
  - intros y [->|Hy]%elem_of_cons; auto.
Qed.

(** ** Roots with their depth *)

Lemma with_depths_elem roots es : with_depths roots = Some es →
  ∀ u a d, (u, a, d) ∈ es ↔ (u, a) ∈ roots ∧ lexical_depth u = Some d.
Proof.
  revert es. induction roots as [|[r b] roots IH]; intros es Hes u a d; cbn [with_depths] in Hes.
  { injection Hes as <-. by split; [intros ?%elem_of_nil|intros [?%elem_of_nil _]]. }
  destruct (lexical_depth r) as [n|] eqn:Hr.
  - apply fmap_Some in Hes as (es' & Hes' & ->). rewrite !elem_of_cons, (IH es') by done. split.
    + intros [[= -> -> ->]|[Hin Hd]]; auto.
    + intros [[[= -> ->]|Hin] Hd]; [left; congruence|by right].
  - destruct (is_opaque r); [|done]. rewrite (IH es) by done. rewrite elem_of_cons. split; [tauto|].
    intros [[[= -> ->]|Hin] Hd]; [congruence|done].
Qed.

(** A root that contains an unambiguous path is unambiguous. *)
Lemma starts_with_lexical path root n :
  lexical_depth path = Some n → starts_with path root = true → is_Some (lexical_depth root).
Proof.
  intros Hp. apply lexical_depth_Some in Hp as (Ho & c & segs & Hc & Hs & _ & _). unfold starts_with.
  destruct (path_uri_eqb path root) eqn:Heq.
  - intros _. unfold path_uri_eqb in Heq. case_bool_decide as Hpr.
    + subst root. unfold lexical_depth. rewrite Ho, Hc, Hs. by eexists.
    + destruct (windows_identity_path_bytes path); [|done].
      destruct (windows_identity_path_bytes root) eqn:Hw; [|done]. unfold windows_identity_path_bytes in Hw.
      destruct (_ || _) eqn:Hor in Hw; [done|]. apply orb_false_iff in Hor as [Hor Hsep].
      apply orb_false_iff in Hor as [Hcr Hor]. apply negb_false_iff, bool_decide_eq_true in Hcr.
      unfold lexical_depth, containment_path_segments. rewrite Hor, Hcr.
      destruct (existsb _ (List.filter _ _)) eqn:Hex; [|by eexists].
      apply existsb_exists in Hex as (s & Hin & Hs'). apply List.filter_In in Hin as [Hin _].
      apply not_true_iff_false in Hsep. destruct Hsep. apply existsb_exists. eauto.
  - destruct (is_opaque root) eqn:Hr; [by rewrite orb_true_r|]. rewrite orb_false_r, Ho.
    destruct (negb _); [done|]. destruct (negb _) eqn:Hcc; [done|].
    apply negb_false_iff, bool_decide_eq_true in Hcc. rewrite Hc in Hcc |- *. cbn [from_option id]. rewrite Hs.
    destruct (containment_path_segments root c) as [bs|] eqn:Hb; [|done]. intros _.
    unfold lexical_depth. rewrite Hr, <- Hcc, Hb. by eexists.
Qed.

(** ** The entry that decides *)

Lemma context_covers_path ctx path : context_covers ctx path = true →
  is_Some (lexical_depth path) ∧ is_Some (lexical_depth (cwd ctx)) ∧
  infer_path_convention path = infer_path_convention (cwd ctx).
Proof.
  unfold context_covers. destruct (infer_path_convention (cwd ctx)); [|done].
  rewrite !andb_true_iff, !bool_decide_eq_true. tauto.
Qed.

(** The result in terms of the resolved entries. *)
Lemma resolve_access_cases p ctx path es :
  kind p = Restricted → context_covers ctx path = true → with_depths (resolved_entries p ctx) = Some es →
  (∃ root d, (root, resolve_access p ctx path) ∈ resolved_entries p ctx ∧ starts_with path root = true ∧
     lexical_depth root = Some d ∧
     ∀ root' a' d', (root', a') ∈ resolved_entries p ctx → starts_with path root' = true → lexical_depth root' = Some d' →
       key_leb (d', a') (d, resolve_access p ctx path) = true) ∨
  (resolve_access p ctx path = Deny ∧ ∀ root a, (root, a) ∈ resolved_entries p ctx → starts_with path root = false).
Proof.
  intros Hkind Hcov Hes. unfold resolve_access. rewrite Hkind, Hcov, Hes. cbn [negb].
  apply context_covers_path in Hcov as [[n Hn] _].
  pose proof (max_by_key_spec ((λ '(_, a, depth), (depth, a)) <$> List.filter (λ '(root, _, _), starts_with path root) es)) as Hmax.
  destruct (max_by_key _) as [[d a]|].
  - left. destruct Hmax as [Hin Hall]. apply list_elem_of_fmap in Hin as ([[root a0] d0] & [= -> ->] & Hin).
    apply list_elem_of_In, List.filter_In in Hin as [Hin Hsw]. apply list_elem_of_In, (with_depths_elem _ _ Hes) in Hin as [Hin Hd].
    exists root, d0. split_and!; [done..|]. intros root' a' d' Hin' Hsw' Hd'. apply Hall. apply list_elem_of_fmap.
    exists (root', a', d'). split; [done|]. apply list_elem_of_In, List.filter_In. split; [|done].
    apply list_elem_of_In, (with_depths_elem _ _ Hes). done.
  - right. split; [done|]. intros root a Hin. destruct (starts_with path root) eqn:Hsw; [|done]. exfalso.
    destruct (starts_with_lexical _ _ _ Hn Hsw) as [d Hd]. apply fmap_nil_inv in Hmax.
    assert ((root, a, d) ∈ es) as Hin' by by apply (with_depths_elem _ _ Hes).
    apply (not_elem_of_nil (root, a, d)). rewrite <- Hmax. apply list_elem_of_In, List.filter_In.
    split; [by apply list_elem_of_In|done].
Qed.

(** All that spells text: the path and the roots of the entries. *)
Definition all_text p ctx path : Prop :=
  is_text path ∧ Forall (λ '(root, _), is_text root) (resolved_entries p ctx).

(** C4: the access to a path is decided by the most specific entry.  Either some
    entry contains the path and its access is the result: every other entry
    that contains the path also contains that entry's root, and among entries
    for the same place a denial wins over a write and a write over a read; or
    no entry contains the path, and the access is denied. *)
Theorem most_specific_entry_decides p ctx path (Hkind : kind p = Restricted) (Hcov : context_covers ctx path = true)
    (Hroots : is_Some (with_depths (resolved_entries p ctx))) (Htext : all_text p ctx path) :
  let a := resolve_access p ctx path in
  (∃ root, (root, a) ∈ resolved_entries p ctx ∧ starts_with path root = true ∧
     ∀ root' a', (root', a') ∈ resolved_entries p ctx → starts_with path root' = true →
       starts_with root root' = true ∧ (starts_with root' root = true → access_rank a' ≤ access_rank a)) ∨
  (a = Deny ∧ ∀ root' a', (root', a') ∈ resolved_entries p ctx → starts_with path root' = false).
Proof.
  destruct Hroots as [es Hes], Htext as [Hpath Hall]. cbv zeta. rewrite Forall_forall in Hall.
  destruct (resolve_access_cases p ctx path es) as [(root & d & Hin & Hsw & Hd & Hmax)|Hnone]; [done..| |by right].
  left. exists root. split_and!; [done..|]. intros root' a' Hin' Hsw'.
  pose proof (context_covers_path _ _ Hcov) as [[n Hn] _].
  destruct (starts_with_lexical _ _ _ Hn Hsw') as [d' Hd'].
  assert (lexical path) as Hlp by (split; [by eexists|done]).
  assert (lexical root) as Hlr by (split; [by eexists|apply (Hall (root, _) Hin)]).
  assert (lexical root') as Hlr' by (split; [by eexists|apply (Hall (root', _) Hin')]).
  specialize (Hmax root' a' d' Hin' Hsw' Hd'). apply key_leb_spec in Hmax. cbn [fst snd] in Hmax.
  apply uri_key_depth in Hd, Hd'. split.
  - apply (starts_with_chain path); [done..|]. destruct Hmax as [?|[? _]]; lia.
  - rewrite (containment_is_prefix_lemma root' root) by done. intros (_ & _ & Hle%prefix_length). lia.
Qed.
End Access.

(** ** Denied reads *)

Section DeniedReads.
#[local] Set Default Proof Using "Type*".
Context {U : Type} `{!UrlCrate U} {url_laws : UrlLaws U} `{!Codecs} {codec_laws : CodecLaws} `{!Host U}.
Implicit Types (p existing : FileSystemSandboxPolicy U) (ctx : PolicyContext U) (u path root : U).

(** A pattern with its matcher; [None] when it cannot be resolved or compiled. *)
Definition glob_matcher ctx (convention : PathConvention) (pattern : str) : option (bytes → bool) :=
  match deny_read_glob ctx pattern with Ok g => ok (build_glob_matcher g convention) | Err _ => None end.
Definition glob_candidate (convention : PathConvention) path : bytes :=
  match convention with
  | Posix => decoded (PathUri.path path)
  | Windows => encode (replace_char BACKSLASH SLASH (inferred_native_path_string path))
  end.
Definition is_system_root ctx u : bool :=
  match file_system_root ctx with Some r => starts_with u r && starts_with r u | None => false end.

Lemma build_matchers_FailClosed convention patterns ms inv :
  build_matchers convention FailClosed patterns ms inv =
  Ok (ms ++ omap (λ g, ok (build_glob_matcher g convention)) patterns,
      inv || existsb (λ g, negb (is_ok (build_glob_matcher g convention))) patterns).
Proof.
  revert ms inv. induction patterns as [|g patterns IH]; intros ms inv; cbn [build_matchers omap list_omap existsb].
  { by rewrite app_nil_r, orb_false_r. }
  destruct (build_glob_matcher g convention); rewrite IH; cbn [ok is_ok negb].
  - by rewrite <- app_assoc.
  - by rewrite orb_true_r.
Qed.

(** The verdict of the matcher, spelled out. *)
Definition read_denied p ctx path : Prop :=
  context_covers ctx path = false ∨
  ∃ convention, infer_path_convention (cwd ctx) = Some convention ∧
    ((∃ pattern, pattern ∈ deny_globs p ∧ glob_matcher ctx convention pattern = None) ∨
     (∃ root, (root, Deny) ∈ resolved_entries p ctx ∧ is_system_root ctx root = false ∧ starts_with path root = true) ∨
     (∃ pattern matcher, pattern ∈ deny_globs p ∧ glob_matcher ctx convention pattern = Some matcher ∧
        matcher (glob_candidate convention path) = true)).

Lemma map_result_Err {E A B} (f : A → result E B) l e : map_result f l = Err e → ∃ x, x ∈ l ∧ ok (f x) = None.
Proof.
  revert e. induction l as [|x l IH]; intros e; cbn; [done|]. destruct (f x) eqn:Hx; [|by exists x; rewrite Hx; split; [left|]].
  destruct (map_result f l); [done|]. intros _. destruct (IH _ eq_refl) as (y & ? & ?). exists y. split; [by right|done].
Qed.

Lemma map_result_ok {E A B} (f : A → result E B) l ys : map_result f l = Ok ys →
  (∀ x, x ∈ l → ∃ y, f x = Ok y ∧ y ∈ ys) ∧ (∀ y, y ∈ ys → ∃ x, x ∈ l ∧ f x = Ok y).
Proof.
  intros Hl%map_result_Ok. split.
  - intros x [i Hi]%list_elem_of_lookup. destruct (Forall2_lookup_l _ _ _ _ _ Hl Hi) as (y & Hy & Hf).
    exists y. split; [done|by eapply list_elem_of_lookup_2].
  - intros y [i Hi]%list_elem_of_lookup. destruct (Forall2_lookup_r _ _ _ _ _ Hl Hi) as (x & Hx & Hf).
    exists x. split; [by eapply list_elem_of_lookup_2|done].
Qed.

Lemma denied_root_elem p ctx path :
  existsb (starts_with path) (fst <$> List.filter (λ '(u, a), bool_decide (a = Deny) && negb (is_system_root ctx u))
                                        (resolved_entries p ctx)) = true ↔
  ∃ root, (root, Deny) ∈ resolved_entries p ctx ∧ is_system_root ctx root = false ∧ starts_with path root = true.
Proof.
  rewrite existsb_exists. split.
  - intros (root & Hin & Hsw). apply list_elem_of_In, list_elem_of_fmap in Hin as ([u a] & -> & Hin).
    apply list_elem_of_In, List.filter_In in Hin as [Hin Hc]. apply andb_true_iff in Hc as [->%bool_decide_eq_true Hr%negb_true_iff].
    exists u. split_and!; [by apply list_elem_of_In|done..].
  - intros (root & Hin & Hr & Hsw). exists root. split; [|done]. apply list_elem_of_In, list_elem_of_fmap.
    exists (root, Deny). split; [done|]. apply list_elem_of_In, List.filter_In. split; [by apply list_elem_of_In|].
    by rewrite Hr.
Qed.

Lemma is_read_denied_uri_spec p ctx path :
  is_read_denied_uri p ctx path = true ↔ existsb is_deny (entries p) = true ∧ read_denied p ctx path.
Proof.
  unfold is_read_denied_uri, from_context. destruct (existsb is_deny (entries p)); [|by split; [|intros [? _]]].
  transitivity (read_denied p ctx path); [|tauto]. unfold read_denied, prepare_deny_read_matcher, matches_prepared_read_deny.
  change (λ '(u, a), bool_decide (a = Deny) && negb (match file_system_root ctx with
            Some r => starts_with u r && starts_with r u | None => false end))
    with (λ '(u, a), bool_decide (a = Deny) && negb (is_system_root ctx u)).
  destruct (infer_path_convention (cwd ctx)) as [convention|] eqn:Hconv.
  2:{ cbn. split; [|done]. intros _. left. unfold context_covers. by rewrite Hconv. }
  destruct (context_covers ctx path) eqn:Hcov.
  2:{ split; [by left|]. intros _. destruct (deny_read_globs p ctx); [|done].
      rewrite build_matchers_FailClosed. done. }
  unfold deny_read_globs. destruct (map_result _ _) as [patterns|err] eqn:Hglobs.
  2:{ cbn. split; [|done]. intros _. right. exists convention. split; [done|]. left.
      apply map_result_Err in Hglobs as (pattern & Hin & Hnone). exists pattern. split; [done|].
      unfold glob_matcher. by destruct (deny_read_glob ctx pattern). }
  apply map_result_ok in Hglobs as [Hto Hfrom]. rewrite build_matchers_FailClosed. cbn [ok fst snd invalid_pattern denied_roots deny_read_matchers orb app].
  destruct (existsb (λ g, negb (is_ok (build_glob_matcher g convention))) patterns) eqn:Hinv.
  { split; [|done]. intros _. right. exists convention. split; [done|]. left.
    apply existsb_exists in Hinv as (g & Hg%list_elem_of_In & Hbad). apply Hfrom in Hg as (pattern & Hin & Hg).
    exists pattern. split; [done|]. unfold glob_matcher. rewrite Hg. by destruct (build_glob_matcher g convention). }
  cbn [negb]. fold (glob_candidate convention path). rewrite orb_true_iff, denied_root_elem. split.
  - intros [Hroot|Hmatch]; right; exists convention; (split; [done|]); right; [by left|right].
    apply existsb_exists in Hmatch as (matcher & Hin%list_elem_of_In & Hm).
    apply list_elem_of_omap in Hin as (g & Hg & Hbuild). apply Hfrom in Hg as (pattern & Hin & Hg).
    exists pattern, matcher. split_and!; [done| |done]. unfold glob_matcher. by rewrite Hg.
  - intros [?|(c & [= <-] & [(pattern & Hin & Hnone)|[Hroot|(pattern & matcher & Hin & Hg & Hm)]])]; [done| |by left|right].
    + exfalso. destruct (Hto pattern Hin) as (g & Hg & Hgin). unfold glob_matcher in Hnone. rewrite Hg in Hnone.
      apply not_true_iff_false in Hinv. apply Hinv, existsb_exists. exists g. split; [by apply list_elem_of_In|].
      by destruct (build_glob_matcher g convention).
    + destruct (Hto pattern Hin) as (g & Hg' & Hgin). unfold glob_matcher in Hg. rewrite Hg' in Hg.
      apply existsb_exists. exists matcher. split; [|done]. apply list_elem_of_In, list_elem_of_omap. by exists g.
Qed.

(** ** Denials survive *)

(** No two entries differ only in the case of a Windows path. *)
Definition spelled_alike (es : list (FileSystemSandboxEntry U)) : Prop :=
  ∀ e e', e ∈ es → e' ∈ es → entry_eqb e e' = true → e = e'.

Lemma push_missing_all es news :
  spelled_alike (es ++ news) → ∀ e, e ∈ foldl push_missing es news ↔ e ∈ es ∨ e ∈ news.
Proof.
  revert es. induction news as [|n news IH]; intros es Hs e; cbn [foldl].
  { split; [by left|]. by intros [?|?%elem_of_nil]. }
  assert (∀ x, x ∈ push_missing es n ↔ x ∈ es ∨ x = n) as Hpush.
  { intros x. unfold push_missing. destruct (existsb _ _) eqn:Hex; [|by rewrite elem_of_app, list_elem_of_singleton].
    split; [by left|]. intros [?| ->]; [done|]. apply existsb_exists in Hex as (e' & Hin%list_elem_of_In & Heq).
    by rewrite <- (Hs e' n); [|by apply elem_of_app; left|by apply elem_of_app; right; left|]. }
  rewrite IH, Hpush, elem_of_cons; [tauto|]. intros x y Hx Hy. apply Hs; rewrite elem_of_app, elem_of_cons;
    rewrite elem_of_app in *; [rewrite Hpush in Hx|rewrite Hpush in Hy]; tauto.
Qed.

Lemma is_deny_true (e : FileSystemSandboxEntry U) : is_deny e = true ↔ access e = Deny.
Proof. apply bool_decide_eq_true. Qed.

Lemma elem_of_deny_globs p pattern :
  pattern ∈ deny_globs p ↔ ∃ e, e ∈ entries p ∧ access e = Deny ∧ entry_path e = GlobPattern pattern.
Proof.
  unfold deny_globs. rewrite list_elem_of_omap. split.
  - intros (e & Hin & He). exists e. destruct (is_deny e) eqn:Hd; [|done]. apply is_deny_true in Hd.
    destruct (entry_path e); simplify_eq. done.
  - intros (e & Hin & Ha & He). exists e. split; [done|]. rewrite He, (proj2 (is_deny_true e)) by done. done.
Qed.

Lemma elem_of_resolved p ctx root a :
  (root, a) ∈ resolved_entries p ctx ↔
  ∃ e, e ∈ entries p ∧ access e = a ∧ root ∈ entry_roots ctx (entry_path e) ∧
    infer_path_convention root = infer_path_convention (cwd ctx).
Proof.
  unfold resolved_entries. rewrite list_elem_of_bind. split.
  - intros (e & Hin & He). exists e. apply list_elem_of_fmap in Hin as (u & [= -> ->] & Hin).
    apply list_elem_of_In, List.filter_In in Hin as [Hin Hc%bool_decide_eq_true]. split_and!; [done..|by apply list_elem_of_In|done].
  - intros (e & Hin & <- & Hr & Hc). exists e. split; [|done]. apply list_elem_of_fmap. exists root. split; [done|].
    apply list_elem_of_In, List.filter_In. split; [by apply list_elem_of_In|by apply bool_decide_eq_true].
Qed.

(** More deny entries deny more. *)
Lemma read_denied_mono p existing ctx path :
  (∀ e, e ∈ entries existing → access e = Deny → e ∈ entries p) → read_denied existing ctx path → read_denied p ctx path.
Proof.
  intros Hsub. unfold read_denied. intros [?|(c & Hc & Hcase)]; [by left|]. right. exists c. split; [done|].
  assert (∀ g, g ∈ deny_globs existing → g ∈ deny_globs p) as Hg.
  { intros g. rewrite !elem_of_deny_globs. intros (e & ? & ? & ?). exists e. auto. }
  destruct Hcase as [(g & ? & ?)|[(root & Hin & Hr & Hsw)|(g & m & ? & ? & ?)]].
  - left. exists g. auto.
  - right. left. exists root. split_and!; [|done..]. rewrite elem_of_resolved in Hin |- *.
    destruct Hin as (e & He & Ha & Hroot & Hcc). exists e. auto.
  - right. right. exists g, m. auto.
Qed.

(** Entries that are equal differ at most in the spelling of a literal path. *)
Lemma entry_eqb_symbolic (e e' : FileSystemSandboxEntry U) :
  match entry_path e, entry_path e' with PathEntry _, PathEntry _ => False | _, _ => True end →
  entry_eqb e e' = true → e = e'.
Proof.
  destruct e as [path a m], e' as [path' a' m']. unfold entry_eqb. cbn [entry_path access missing_path_behavior].
  intros Hp. rewrite !andb_true_iff, !bool_decide_eq_true. intros [[Hpath ->] ->]. f_equal.
  destruct path, path'; cbn in *; try done.
  - apply str_eqb_eq in Hpath. by subst.
  - apply bool_decide_eq_true in Hpath. by subst.
Qed.

(** The deny entries of the old policy are all in the new one. *)
Lemma preserve_keeps_denies p existing e :
  spelled_alike (entries p ++ entries existing) → kind p ≠ ExternalSandboxKind →
  e ∈ entries existing → access e = Deny → e ∈ entries (preserve_deny_read_restrictions_from p existing).
Proof.
  intros Hs Hk Hin Hd. unfold preserve_deny_read_restrictions_from.
  assert (existsb is_deny (entries existing) = true) as Hex.
  { apply existsb_exists. exists e. split; [by apply list_elem_of_In|by apply is_deny_true]. }
  assert (e ∈ List.filter is_deny (entries existing)) as Hin'.
  { apply list_elem_of_In, List.filter_In. split; [by apply list_elem_of_In|by apply is_deny_true]. }
  assert (∀ es, spelled_alike (es ++ entries existing) → e ∈ push_denies es (entries existing)) as Hpush.
  { intros es Hes. unfold push_denies. apply push_missing_all; [|by right]. intros x y Hx Hy.
    rewrite elem_of_app in Hx, Hy. rewrite !list_elem_of_In, !List.filter_In in Hx, Hy. rewrite <- !list_elem_of_In in Hx, Hy.
    apply Hes; rewrite elem_of_app; tauto. }
  rewrite Hex, andb_true_r. case_bool_decide as Hu.
  - cbn. apply Hpush. intros x y Hx Hy Heq. apply elem_of_app in Hx, Hy.
    destruct Hx as [->%list_elem_of_singleton|Hx], Hy as [->%list_elem_of_singleton|Hy]; [done| | |].
    + by apply entry_eqb_symbolic.
    + apply entry_eqb_symbolic; [|done]. by destruct (entry_path x).
    + apply Hs; [by apply elem_of_app; right..|done].
  - destruct (kind p) eqn:Hkp; [|done..]. unfold is_restricted. rewrite Hkp, bool_decide_true by done. cbn. by apply Hpush.
Qed.

(** C21: a read denied by a policy stays denied when another policy is put in its
    place with the denials preserved, whatever the new policy grants and
    whatever the path: denied directories, globs and the refusals of paths and
    patterns that cannot be judged all carry over, and a policy without
    restrictions becomes one with them.  Only a policy enforced by an external
    sandbox is left alone. *)
Theorem denied_reads_survive p existing ctx path (Hspelled : spelled_alike (entries p ++ entries existing))
    (Hkind : kind p ≠ ExternalSandboxKind) (Hdenied : is_read_denied_uri existing ctx path = true) :
  is_read_denied_uri (preserve_deny_read_restrictions_from p existing) ctx path = true.
Proof.
  apply is_read_denied_uri_spec in Hdenied as [Hex Hdenied]. apply is_read_denied_uri_spec. split.
  - apply existsb_exists in Hex as (e & Hin%list_elem_of_In & Hd). apply existsb_exists. exists e. split; [|done].
    apply list_elem_of_In, preserve_keeps_denies; [done..|]. by apply is_deny_true.
  - eapply read_denied_mono; [|exact Hdenied]. intros e He Hd. by apply preserve_keeps_denies.
Qed.
End DeniedReads.

(** ** Full write access *)

(** A file name that no convention treats specially. *)
Definition name_char (c : char) : bool := is_ascii_letter c || is_ascii_digit c || existsb (N.eqb c) (lit "-._~").
Definition plain_name (s : str) : Prop := s ≠ [] ∧ s ≠ lit "." ∧ s ≠ lit ".." ∧ Forall (λ c, name_char c = true) s.

(** What the setters of a URL do with such a name. *)
Class UrlNameLaws (U : Type) `{!UrlCrate U} : Prop := {
  file_root_plain : scheme file_root = FILE_SCHEME ∧ validate_common_known_uri file_root = Ok tt ∧ host_str file_root = None;
  clear_plain u : scheme (clear u) = scheme u ∧ validate_common_known_uri (clear u) = validate_common_known_uri u ∧
    host_str (clear u) = host_str u ∧ path_segments (clear u) = [[]];
  push_plain u s : plain_name s →
    scheme (push u s) = scheme u ∧ validate_common_known_uri (push u s) = validate_common_known_uri u ∧
    host_str (push u s) = host_str u ∧
    path_segments (push u s) = (if bool_decide (path_segments u = [[]]) then [] else path_segments u) ++ [s];
}.
Class DecodePlain `{!Codecs} : Prop := decode_plain s : 37%N ∉ s → decode_binary s = s.

(** What the paths of a POSIX machine promise. *)
Class HostLaws (U : Type) `{!UrlCrate U, !Codecs, !Host U} : Prop := {
  uri_abs_round a : uri_to_abs_path (uri_from_abs_path a) = Ok a;
  root_uri u a : uri_to_abs_path u = Ok a → abs_parent a = None → infer_path_convention u = Some Posix → depth_of u = 0;
  tmp_uri u a : unix = true → uri_to_abs_path u = Ok a → abs_is a (lit "/tmp") = true →
    infer_path_convention u = Some Posix ∧ lexical_depth u = Some 1 ∧ uri_key u = [lit "tmp"];
}.

Section FullWrite.
#[local] Set Default Proof Using "Type*".
Context {U : Type} `{!UrlCrate U} {url_laws : UrlLaws U} {name_laws : UrlNameLaws U} `{!Codecs} {codec_laws : CodecLaws}
  {plain_laws : DecodePlain} `{!Host U} {host_laws : HostLaws U}.
Implicit Types (p : FileSystemSandboxPolicy U) (ctx : PolicyContext U) (u path root : U).

Lemma plain_name_encode s : plain_name s → encode s = s ∧ 37%N ∉ s ∧ SLASH ∉ s ∧ 0%N ∉ s.
Proof.
  intros (_ & _ & _ & Hall). induction Hall as [|c s Hc Hall IH]; [by repeat split; try apply not_elem_of_nil|].
  destruct IH as (He & Hp & Hs & H0). assert ((c < 128)%N ∧ c ≠ 37%N ∧ c ≠ SLASH ∧ c ≠ 0%N) as (Hlt & H37 & Hsl & Hz).
  { clear -Hc. unfold name_char, is_ascii_letter, is_ascii_uppercase, is_ascii_digit in Hc.
    change SLASH with 47%N. rewrite !orb_true_iff, !andb_true_iff, !N.leb_le, existsb_exists in Hc.
    destruct Hc as [Hc|(x & Hx & <-%N.eqb_eq)]; [lia|]. vm_compute in Hx.
    repeat destruct Hx as [<-|Hx]; try done. }
  rewrite encode_cons, He. unfold encode_char. rewrite (proj2 (N.ltb_lt c 128)) by done.
  split; [done|]. rewrite !elem_of_cons. naive_solver.
Qed.

(** A URL with one plain name is a POSIX path. *)
Lemma single_name_uri u s :
  scheme u = FILE_SCHEME → validate_common_known_uri u = Ok tt → host_str u = None → path_segments u = [s] → plain_name s →
  try_from u = Ok u ∧ infer_path_convention u = Some Posix ∧ lexical_depth u = Some 1 ∧ uri_key u = [s].
Proof.
  intros Hsch Hval Hhost Hsegs Hplain. pose proof (plain_name_encode s Hplain) as (Henc & H37 & Hsl & H0).
  assert (decoded s = s) as Hdec by (unfold decoded; rewrite Henc; by apply decode_plain).
  assert (no_nul u) as Hnul by (unfold no_nul; rewrite Hsegs; by repeat constructor; rewrite Hdec).
  assert (is_windows_drive_uri_segment s = false) as Hdrive.
  { destruct Hplain as (_ & _ & _ & Hall). destruct s as [|d [|c [|x [|y [|]]]]]; try done.
    - inversion Hall as [|? ? _ Hall']; subst. inversion Hall' as [|? ? Hc _]; subst. cbn.
      destruct (N.eqb_spec c COLON) as [->|]; [|apply andb_false_r]. by vm_compute in Hc.
    - cbn. destruct (N.eqb_spec c 37) as [->|]; [|by rewrite andb_false_r]. set_solver. }
  assert (non_empty s = true) as Hne by by destruct s, Hplain.
  pose proof (not_opaque_no_nul u Hnul) as Hopq.
  assert (infer_path_convention u = Some Posix) as Hconv.
  { unfold infer_path_convention. unfold is_opaque in Hopq. destruct (decode_bad_path_uri u); [done|].
    rewrite Hhost, Hsegs. unfold first_non_empty. cbn [List.filter]. rewrite Hne. cbn [head]. by rewrite Hdrive. }
  split_and!; [|done| |].
  - unfold try_from. rewrite Hsch, str_eqb_refl. cbn [negb]. unfold validate_file_url. rewrite Hval, decoded_path, Hsegs.
    cbn [fmap list_fmap join]. rewrite Hdec.
    assert (contains_char 0 (SLASH :: s) = false) as ->.
    { apply not_true_iff_false. unfold contains_char. rewrite existsb_exists. intros (x & Hx & <-%N.eqb_eq).
      apply list_elem_of_In in Hx. apply elem_of_cons in Hx as [?|?]; done. }
    cbn [andb]. f_equal. unfold without_localhost_authority. rewrite Hhost, bool_decide_false by done.
    unfold with_normalized_windows_drive_letter. rewrite Hhost. unfold path. rewrite Hsegs. cbn [join split_slashes].
    rewrite N.eqb_refl. destruct s as [|c s]; [done|]. cbn [split_slashes].
    destruct (N.eqb_spec c SLASH) as [->|_]; [set_solver|]. rewrite split_no_sep by done. cbn [head from_option id].
    by rewrite Hdrive.
  - unfold lexical_depth. rewrite Hopq, Hconv. unfold containment_path_segments. rewrite Hsegs. cbn [List.filter].
    rewrite Hne. cbn [existsb]. replace (has_separator Posix s) with false; [done|]. symmetry.
    apply not_true_iff_false. unfold has_separator. rewrite Hdec, existsb_exists. intros (x & Hx & Hor).
    rewrite bool_decide_false, orb_false_r in Hor by done. apply N.eqb_eq in Hor as ->. by apply list_elem_of_In in Hx.
  - unfold uri_key. rewrite Hconv, Hsegs. cbn [from_option id List.filter]. rewrite Hne. cbn. by rewrite Hdec.
Qed.

Lemma slash_tmp_join u : infer_path_convention u = Some Posix →
  ∃ t, join_path u (lit "/tmp") = Ok t ∧ infer_path_convention t = Some Posix ∧ lexical_depth t = Some 1 ∧
    uri_key t = [lit "tmp"] ∧ host_str t = None.
Proof.
  intros Hposix. exists (push (clear file_root) (lit "tmp")).
  assert (plain_name (lit "tmp")) as Hplain by (split_and!; [done..|by repeat constructor]).
  destruct file_root_plain as (Hrs & Hrv & Hrh). destruct (clear_plain file_root) as (Hcs & Hcv & Hch & Hcp).
  destruct (push_plain (clear file_root) (lit "tmp") Hplain) as (Hps & Hpv & Hph & Hpp).
  rewrite Hcp, bool_decide_true in Hpp by done.
  destruct (single_name_uri (push (clear file_root) (lit "tmp")) (lit "tmp")) as (Htry & Hconv & Hdepth & Hkey);
    [congruence|congruence|congruence|exact Hpp|exact Hplain|].
  split_and!; [|done..|congruence]. unfold join_path.
  change (contains_char 0 (lit "/tmp")) with false. change (is_empty (lit "/tmp")) with false. cbv iota. rewrite Hposix.
  unfold from_absolute_native_path. change (parse_posix_path (lit "/tmp")) with (path_uri_from_segments Posix None [lit "tmp"]).
  unfold path_uri_from_segments. change (normalize_segments _ _ _ _ _) with ([lit "tmp"], 1, false). cbn [foldl orb andb].
  rewrite (bool_decide_false (Posix = Windows)) by done. cbn [andb foldl]. rewrite Htry. cbn [ok].
  by rewrite Hph, Hch, Hrh, Hconv, (bool_decide_false (None = Some _)), bool_decide_true by done.
Qed.

(** The authority of a POSIX path is empty. *)
Lemma posix_host u : is_Some (lexical_depth u) → infer_path_convention u = Some Posix → host_str u = None.
Proof.
  intros [n Hd]. apply lexical_depth_Some in Hd as [Hopq _]. unfold infer_path_convention, is_opaque in *.
  destruct (decode_bad_path_uri u); [done|]. by destruct (host_str u).
Qed.
Lemma posix_lexical u : is_Some (lexical_depth u) → infer_path_convention u = Some Posix → lexical u.
Proof. intros Hd Hc. split; [done|]. unfold is_text. by rewrite Hc. Qed.

(** On POSIX, a path below one URI is below every URI with the same key. *)
Lemma posix_same_key path u v :
  is_Some (lexical_depth path) → is_Some (lexical_depth u) → is_Some (lexical_depth v) →
  infer_path_convention path = Some Posix → infer_path_convention u = Some Posix → infer_path_convention v = Some Posix →
  uri_key u = uri_key v → starts_with path u = true → starts_with path v = true.
Proof.
  intros Hp Hu Hv Hcp Hcu Hcv Hk. rewrite !containment_is_prefix_lemma by by apply posix_lexical.
  rewrite Hcv, Hcp, Hk, !posix_host by done. naive_solver.
Qed.

Lemma posix_eq u v : infer_path_convention u = Some Posix → path_uri_eqb v u = true → v = u.
Proof.
  intros Hc. unfold path_uri_eqb. case_bool_decide; [done|].
  assert (windows_identity_path_bytes u = None) as ->; [|by destruct (windows_identity_path_bytes v)].
  unfold windows_identity_path_bytes. by rewrite Hc, bool_decide_false by done.
Qed.

Lemma override_spec p e : has_same_target_write_override p e = true →
  access e = Read ∧ ∃ c, c ∈ entries p ∧ access c = Write ∧ file_system_paths_share_target (entry_path c) (entry_path e) = true.
Proof.
  unfold has_same_target_write_override. intros (c & Hin%list_elem_of_In & Hc)%existsb_exists.
  rewrite !andb_true_iff, Nat.ltb_lt in Hc. destruct Hc as [[Hw Hr] Hs]. destruct (access c) eqn:Hac; [done| |done].
  split; [|by exists c]. destruct (access e); simpl in Hr; [done|lia|lia].
Qed.

Lemma full_write_root p : kind p = Restricted → has_full_disk_write_access p = true →
  has_write_narrowing_entries p = false ∧ ∃ e, e ∈ entries p ∧ entry_path e = Special Root ∧ access e = Write.
Proof.
  unfold has_full_disk_write_access. intros ->. rewrite andb_true_iff, negb_true_iff. intros [Hr Hn]. split; [done|].
  unfold has_root_access in Hr. apply andb_true_iff in Hr as [_ Hr]. apply existsb_exists in Hr as (e & Hin%list_elem_of_In & He).
  exists e. destruct (entry_path e) as [| |[]]; try done. by destruct (access e).
Qed.

(** The root of a POSIX file system contains every path of it. *)
Lemma posix_root ctx path : infer_path_convention (cwd ctx) = Some Posix → validate_file_url (cwd ctx) = Ok tt →
  context_covers ctx path = true →
  ∃ r, file_system_root ctx = Some r ∧ infer_path_convention r = Some Posix ∧ lexical_depth r = Some 0 ∧ starts_with path r = true.
Proof.
  intros Hposix Hvalid (Hp & [n Hn] & Hcp)%context_covers_path. rewrite Hposix in Hcp.
  assert (lexical (cwd ctx)) as Hlex by (apply posix_lexical; [by eexists|done]).
  pose proof (lexical_depth_Some _ _ Hn) as [Hopq _].
  destruct (ancestors_root (cwd ctx)) as (r & Hlast & Habove & Hdepth); [done|by apply valid_no_nul|].
  rewrite Hposix in Hdepth. pose proof (above_convention _ _ Habove) as Hcr. rewrite Hposix in Hcr.
  pose proof (above_lexical _ _ Habove) as [[m Hm] _]. pose proof (uri_key_depth _ _ Hm) as Hk.
  assert (m = 0) as ->.
  { unfold depth_of in Hdepth. simpl in Hdepth. unfold uri_key in Hk. rewrite length_fmap in Hk. lia. }
  exists r. split_and!; [by unfold file_system_root; rewrite Hn|done|done|].
  apply containment_is_prefix_lemma; [by apply posix_lexical..|]. rewrite (posix_host path), (posix_host r) by (done || by eexists).
  split_and!; [done|congruence|]. destruct (uri_key r); [apply prefix_nil|done].
Qed.

Section Narrowing.
(** A POSIX executor, a path on it, and a policy with a write to the root. *)
Context (p : FileSystemSandboxPolicy U) (ctx : PolicyContext U) (path r : U).
Context (Hunix : unix = true) (Hposix : infer_path_convention (cwd ctx) = Some Posix).
Context (Hpath : infer_path_convention path = Some Posix) (Hlex : is_Some (lexical_depth path)).
Context (Hr : file_system_root ctx = Some r) (Hcr : infer_path_convention r = Some Posix).
Context (Hdr : lexical_depth r = Some 0) (Hswr : starts_with path r = true).
Context (Hroot : ∃ e, e ∈ entries p ∧ entry_path e = Special Root ∧ access e = Write).

(** A write to the place of a root that contains the path. *)
Definition write_at (d : nat) : Prop :=
  ∃ root, (root, Write) ∈ resolved_entries p ctx ∧ starts_with path root = true ∧ lexical_depth root = Some d.

Lemma write_resolved c root : c ∈ entries p → access c = Write → root ∈ entry_roots ctx (entry_path c) →
  infer_path_convention root = Some Posix → (root, Write) ∈ resolved_entries p ctx.
Proof. intros. apply elem_of_resolved. exists c. split_and!; [done..|congruence]. Qed.

Lemma root_write : write_at 0.
Proof.
  destruct Hroot as (c & Hc & Hpc & Hac). exists r. split_and!; [|done..]. apply (write_resolved c); [done..| |done].
  rewrite Hpc. cbn. rewrite Hr. by left.
Qed.

(** The write to [/tmp] that a symbolic entry stands for. *)
Lemma slash_tmp_write c u : c ∈ entries p → access c = Write → entry_path c = Special SlashTmp →
  is_Some (lexical_depth u) → infer_path_convention u = Some Posix → uri_key u = [lit "tmp"] → starts_with path u = true →
  write_at 1.
Proof.
  intros Hc Hac Hpc Hdu Hcu Hku Hsw. destruct (slash_tmp_join (cwd ctx)) as (t & Hj & Hct & Hdt & Hkt & _); [done|].
  exists t. split_and!; [|apply (posix_same_key path u); [done|done|by eexists|done|done|done|congruence|done]|done].
  apply (write_resolved c); [done..| |done]. rewrite Hpc. cbn. rewrite Hposix, bool_decide_true, Hj by done. by left.
Qed.

(** A literal path whose place is granted by another entry. *)
Lemma literal_override c u d : c ∈ entries p → access c = Write →
  file_system_paths_share_target (entry_path c) (PathEntry u) = true →
  infer_path_convention u = Some Posix → lexical_depth u = Some d → starts_with path u = true → write_at d.
Proof.
  intros Hc Hac Hshare Hcu Hd Hsw. destruct (entry_path c) as [v| |value] eqn:Hpc; cbn in Hshare; [|done|].
  - apply posix_eq in Hshare as ->; [|done]. exists u. split_and!; [|done..]. apply (write_resolved c); [done..| |done].
    rewrite Hpc. by left.
  - destruct (uri_to_abs_path u) as [a|] eqn:Habs; [|done]. destruct value; cbn in Hshare; try done.
    + apply bool_decide_eq_true in Hshare. replace d with 0; [apply root_write|].
      apply lexical_depth_Some in Hd as (_ & ? & segs & _ & _ & -> & ->). symmetry. by apply (root_uri u a).
    + destruct (tmp_uri u a) as (_ & Hdu & Hku); [done..|]. replace d with 1 by congruence.
      apply (slash_tmp_write c u); [done|done|done|by eexists|done|done|done].
Qed.

(** A symbolic place granted by another entry. *)
Lemma symbolic_override c value root d : c ∈ entries p → access c = Write → value ≠ Root →
  file_system_paths_share_target (entry_path c) (Special value) = true → root ∈ entry_roots ctx (Special value) →
  infer_path_convention root = Some Posix → lexical_depth root = Some d → starts_with path root = true → write_at d.
Proof.
  intros Hc Hac Hv Hshare Hin Hcroot Hd Hsw. destruct (entry_path c) as [v| |value'] eqn:Hpc; cbn in Hshare; [|done|].
  - destruct (uri_to_abs_path v) as [a|] eqn:Habs; [|done]. destruct value; cbn in Hshare; try done.
    destruct (tmp_uri v a) as (Hcv & Hdv & Hkv); [done..|].
    destruct (slash_tmp_join (cwd ctx)) as (t & Hj & Hct & Hdt & Hkt & _); [done|]. cbn in Hin.
    rewrite Hposix, bool_decide_true, Hj in Hin by done. apply list_elem_of_singleton in Hin as ->. exists v.
    split_and!; [|apply (posix_same_key path t); [done|by eexists|by eexists|done|done|done|congruence|done]|congruence].
    apply (write_resolved c); [done..| |done]. rewrite Hpc. by left.
  - exists root. split_and!; [|done..]. apply (write_resolved c); [done..| |done]. rewrite Hpc.
    replace value' with value; [done|]. destruct value, value'; cbn in Hshare; try done; try (by apply bool_decide_eq_true in Hshare as ->).
    apply andb_true_iff in Hshare as [->%bool_decide_eq_true ->%bool_decide_eq_true]. done.
Qed.

(** An entry that grants less than a write is a read covered by a write to the
    same place. *)
Lemma not_narrowing e root d :
  has_write_narrowing_entries p = false → kind p = Restricted → e ∈ entries p → access e ≠ Write →
  root ∈ entry_roots ctx (entry_path e) → infer_path_convention root = Some Posix → lexical_depth root = Some d →
  starts_with path root = true → access e = Read ∧ write_at d.
Proof.
  intros Hn Hkind Hin Hacc Hroots Hcroot Hd Hsw.
  unfold has_write_narrowing_entries, is_restricted in Hn. rewrite Hkind, bool_decide_true in Hn by done. cbn [andb] in Hn.
  apply existsb_false_Forall in Hn. rewrite Forall_forall in Hn. specialize (Hn e Hin). cbn in Hn.
  rewrite Hunix in Hn. replace (can_write (access e)) with false in Hn by by destruct (access e).
  assert (has_same_target_write_override p e = true → access e = Read ∧ write_at d) as Hover.
  { intros [Hread (c & Hc & Hwc & Hshare)]%override_spec. split; [done|]. destruct (entry_path e) as [u| |value] eqn:Hpe.
    - apply list_elem_of_singleton in Hroots as ->. by apply (literal_override c u).
    - by apply elem_of_nil in Hroots.
    - destruct (decide (value = Root)) as [->|Hv]; [|by apply (symbolic_override c value root)].
      cbn in Hroots. rewrite Hr in Hroots. apply list_elem_of_singleton in Hroots as ->.
      replace d with 0 by congruence. apply root_write. }
  destruct (entry_path e) as [u|pattern|[]] eqn:Hpe; try done; try (by apply elem_of_nil in Hroots);
    try (by apply Hover, negb_false_iff).
  unfold is_deny in Hn. apply bool_decide_eq_false in Hn. split; [by destruct (access e)|].
  cbn in Hroots. rewrite Hr in Hroots. apply list_elem_of_singleton in Hroots as ->.
  replace d with 0 by congruence. apply root_write.
Qed.
End Narrowing.

(** A policy that claims full write access to the disk gives it: on a POSIX
    machine and executor every path that can be judged at all may be written,
    protected metadata included.  A read entry does not narrow the claim when
    a write entry names the same place, whether literally or symbolically. *)
Theorem full_disk_write_is_total p ctx path (Hunix : unix = true) (Hkind : kind p = Restricted)
    (Hposix : infer_path_convention (cwd ctx) = Some Posix) (Hvalid : validate_file_url (cwd ctx) = Ok tt)
    (Hcov : context_covers ctx path = true) (Hroots : is_Some (with_depths (resolved_entries p ctx)))
    (Hfull : has_full_disk_write_access p = true) :
  resolve_access p ctx path = Write ∧ can_write_path p ctx path = true.
Proof.
  assert (resolve_access p ctx path = Write) as Hw; [|split; [done|unfold can_write_path; by rewrite Hw, Hfull]].
  destruct (posix_root ctx path) as (r & Hr & Hcr & Hdr & Hswr); [done..|].
  destruct (full_write_root p) as [Hn Hroot]; [done..|]. destruct Hroots as [es Hes].
  pose proof (context_covers_path _ _ Hcov) as (Hlex & _ & Hcp). rewrite Hposix in Hcp.
  destruct (resolve_access_cases p ctx path es) as [(root & d & Hin & Hsw & Hd & Hmax)|[_ Hnone]]; [done..| |].
  - destruct (decide (resolve_access p ctx path = Write)) as [?|Hne]; [done|]. exfalso.
    apply elem_of_resolved in Hin as (e & Hin & Ha & Hroots & Hc).
    destruct (not_narrowing p ctx path r Hunix Hposix Hcp Hlex Hr Hcr Hdr Hswr Hroot e root d) as [Hread (root' & Hin' & Hsw' & Hd')];
      [done|done|done|congruence|done|congruence|done|done|].
    specialize (Hmax root' Write d Hin' Hsw' Hd'). apply key_leb_spec in Hmax. rewrite <- Ha, Hread in Hmax. simpl in Hmax. lia.
  - destruct (root_write p ctx path r Hunix Hposix Hcp Hlex Hr Hcr Hdr Hswr Hroot) as (root & Hin & Hsw & _).
    rewrite (Hnone _ _ Hin) in Hsw. done.
Qed.
End FullWrite.

(** ** Protected metadata *)

Section Metadata.
#[local] Set Default Proof Using "Type*".
Context {U : Type} `{!UrlCrate U} `{!Codecs} `{!Host U}.
Implicit Types (p : FileSystemSandboxPolicy U) (ctx : PolicyContext U) (path root : U).

(** The metadata directory [name] of a writable root, when it holds the path. *)
Definition holds_in_metadata p ctx path (protected : U) (name : str) : Prop :=
  ∃ root, (root, Write) ∈ resolved_entries p ctx ∧ name ∈ PROTECTED_METADATA_PATH_NAMES ∧
    join_descendant root name = Ok protected ∧ starts_with path protected = true.

(** The metadata directories of a writable root ([.git], [.agents],
    [.rexux]) cannot be written through the grant of the root: unless the
    policy gives the whole disk or an entry grants a place inside such a
    directory, a path in one of them is refused, with the name of the
    directory, however the entries are ordered. *)
Theorem metadata_is_protected p ctx path protected name (Hkind : kind p = Restricted)
    (Hfull : has_full_disk_write_access p = false) (Hprotected : holds_in_metadata p ctx path protected name)
    (Hgrants : ∀ root protected' name', (root, Write) ∈ resolved_entries p ctx → starts_with path root = true →
       holds_in_metadata p ctx path protected' name' → starts_with root protected' = false) :
  can_write_path p ctx path = false ∧
  ∃ name' protected', metadata_write_denial p ctx path = Some name' ∧ holds_in_metadata p ctx path protected' name'.
Proof.
  assert (∃ name' protected', metadata_write_denial p ctx path = Some name' ∧ holds_in_metadata p ctx path protected' name') as Hden.
  { unfold metadata_write_denial, is_restricted. rewrite Hkind, bool_decide_true by done. cbn [negb].
    destruct (find_map _ _) as [[protected' name']|] eqn:Hfind.
    - apply find_map_Some in Hfind as ([root a] & Hin & Hroot). destruct (can_write a) eqn:Ha; [|done].
      destruct a; [done| |done]. apply find_map_Some in Hroot as (n & Hn & Hj).
      destruct (join_descendant root n) as [d|] eqn:Hjoin; [|done]. destruct (starts_with path d) eqn:Hsw; [|done].
      injection Hj as <- <-. assert (holds_in_metadata p ctx path d n) as Hh by by exists root.
      exists n, d. split; [|done]. destruct (existsb _ _) eqn:Hex; [|done].
      apply existsb_exists in Hex as ([root' a'] & Hin'%list_elem_of_In & Hc). rewrite !andb_true_iff in Hc.
      destruct Hc as [[Ha' Hsw'] Hsub]. destruct a'; [done| |done]. by rewrite (Hgrants root' d n) in Hsub.
    - exfalso. destruct Hprotected as (root & Hin & Hname & Hjoin & Hsw).
      pose proof (find_map_None _ _ Hfind _ Hin) as Hr. cbv beta iota delta [can_write] in Hr. pose proof (find_map_None _ _ Hr _ Hname) as Hn.
      cbv beta in Hn. by rewrite Hjoin, Hsw in Hn. }
  split; [|done]. destruct Hden as (name' & _ & Hden & _). unfold can_write_path. rewrite Hfull, Hden.
  by destruct (negb _).
Qed.
End Metadata.

(** ** A small host

    An instance of the host on [MiniUrl]: absolute paths are URIs, no file
    exists, and a glob matches its own text.  On a machine that is not the
    executor ([native] is false) the URIs are not paths. *)
Module MiniHost.
Import MiniUrl.

Definition host_with (native : bool) : Host mini_url := {|
  Abs := mini_url;
  unix := true;
  from_absolute_path s := parse_posix_path s;
  is_absolute s := RustStr.starts_with [SLASH] s;
  abs_join a s := default a (ok (join_path a s));
  resolve_path_against_base s a := default a (ok (join_path a s));
  abs_parent a := if (depth_of a =? 0)%nat then None else Some (pop (pop_if_empty a));
  abs_is a s := bool_decide (a = mkMini None (drop 1 s));
  abs_root a := default a (last (ancestors a));
  as_path := inferred_native_path_string;
  to_string_lossy := inferred_native_path_string;
  uri_from_abs_path a := a;
  uri_to_abs_path u := if native then Ok u else Err (mkIo InvalidInput (as_str u));
  home_dir := Some (of_text "file:///home/u");
  tmpdir := None;
  abs_is_file _ := false;
  abs_is_dir _ := false;
  abs_exists _ := false;
  abs_read_to_string _ := None;
  glob_build s _ := Ok (λ b, bool_decide (b = encode s));
|}.
#[global] Instance mini_host : Host mini_url := host_with true.

Lemma percent_encode_plain s : plain_name s → percent_encode s = s.
Proof.
  intros Hp. pose proof (plain_name_encode s Hp) as (He & _). unfold percent_encode. rewrite He.
  destruct Hp as (_ & _ & _ & Hall). clear He. induction Hall as [|c s Hc Hall IH]; [done|]. rewrite bind_cons, IH.
  assert (unreserved c = true) as ->; [|done]. unfold name_char in Hc. unfold unreserved.
  apply orb_true_iff in Hc as [->|Hc]; [done|]. apply orb_true_iff. right. apply existsb_exists in Hc as (x & Hx & Hcx).
  apply existsb_exists. exists x. split; [|done]. clear -Hx. vm_compute in Hx |- *. tauto.
Qed.

Lemma segments_nil u : segments u = [[]] ↔ m_text u = [].
Proof.
  unfold segments. split; [|by intros ->]. intros Hs. rewrite <- (join_split SLASH (m_text u)), Hs. done.
Qed.

#[global] Instance mini_name_laws : UrlNameLaws mini_url.
Proof.
  split; [done|done|]. intros u s Hp. split_and!; [done..|]. cbn [path_segments push mini_crate].
  rewrite percent_encode_plain by done. pose proof (plain_name_encode s Hp) as (_ & _ & Hsl & _).
  pose proof (split_Forall SLASH (m_text u)) as Hf.
  destruct (m_text u) as [|c t] eqn:Ht; cbn [is_empty].
  - rewrite bool_decide_true by by apply segments_nil. apply with_segments_segments; [done|by repeat constructor].
  - rewrite bool_decide_false by (rewrite segments_nil; congruence). apply with_segments_segments; [by destruct (segments u)|].
    apply Forall_app. split; [|by repeat constructor]. unfold segments. by rewrite Ht.
Qed.

#[global] Instance mini_decode_plain : DecodePlain.
Proof.
  intros s Hs. cbn [decode_binary mini_codecs]. induction s as [|c s IH]; [done|].
  rewrite percent_decode_step. apply not_elem_of_cons in Hs as [Hc Hs].
  assert (escape c s = None) as ->; [|by rewrite IH].
  unfold escape. destruct s as [|a [|b s]]; [done..|]. by rewrite (proj2 (N.eqb_neq c 37)) by done.
Qed.

#[global] Instance mini_host_laws : HostLaws mini_url.
Proof.
  split; [done| |].
  - intros u a [= <-] Hp _. cbn [abs_parent mini_host host_with] in Hp.
    destruct (depth_of u =? 0)%nat eqn:E in Hp; [by apply Nat.eqb_eq|done].
  - intros u a _ [= <-] Hu. apply bool_decide_eq_true in Hu as ->. by vm_compute.
Qed.

(** A workspace with a protected directory and a denied one. *)
Definition example_context : PolicyContext mini_url :=
  mkContext (of_text "file:///work/app") [of_text "file:///work/app"] home_dir None.
Definition literal (s : string) (a : FileSystemAccessMode) : FileSystemSandboxEntry mini_url :=
  new_entry (PathEntry (of_text s)) a.
Definition example_policy : FileSystemSandboxPolicy mini_url :=
  restricted [new_entry (Special Root) Read; new_entry (Special (ProjectRoots None)) Write;
              literal "file:///work/app/secret" Deny; literal "file:///work/app/secret/open" Read;
              new_entry (GlobPattern (lit "~/*.key")) Deny].
Definition full_policy : FileSystemSandboxPolicy mini_url :=
  restricted [new_entry (Special Root) Write; literal "file:///tmp" Read; new_entry (Special SlashTmp) Write].

Example example_accesses :
  (λ s, resolve_access example_policy example_context (of_text s)) <$>
    ["file:///etc/x"; "file:///work/app/x"; "file:///work/app/secret/x"; "file:///work/app/secret/open/x"; "file:///c:/x"]%string =
  [Read; Write; Deny; Read; Deny].
Proof. by vm_compute. Qed.

Lemma text_posix u : bool_decide (infer_path_convention u = Some Posix) = true → is_text u.
Proof. intros Hc%bool_decide_eq_true. unfold is_text. by rewrite Hc. Qed.

Lemma most_specific_entry_decides_witness :
  ∃ root, (root, Deny) ∈ resolved_entries example_policy example_context ∧
    starts_with (of_text "file:///work/app/secret/x") root = true.
Proof.
  destruct (most_specific_entry_decides example_policy example_context (of_text "file:///work/app/secret/x"))
    as [(root & Hin & Hsw & _)|[_ Hnone]].
  - by vm_compute.
  - by vm_compute.
  - apply (bool_decide_eq_true_1 (is_Some _)). by vm_compute.
  - split; [apply text_posix; by vm_compute|]. apply Forall_forall. intros [root a] Hin. apply text_posix.
    assert (forallb (λ r, bool_decide (infer_path_convention (fst r) = Some Posix)) (resolved_entries example_policy example_context) = true)
      as Hall by by vm_compute.
    rewrite forallb_forall in Hall. apply (Hall (root, a)). by apply list_elem_of_In.
  - exists root. split; [|exact Hsw].
    replace Deny with (resolve_access example_policy example_context (of_text "file:///work/app/secret/x")) by by vm_compute.
    exact Hin.
  - exfalso. assert (existsb (λ r, starts_with (of_text "file:///work/app/secret/x") (fst r))
              (resolved_entries example_policy example_context) = true) as Hex by by vm_compute.
    apply existsb_exists in Hex as ([root a] & Hin%list_elem_of_In & Hsw). cbn [fst] in Hsw. by rewrite (Hnone _ _ Hin) in Hsw.
Defined.

Lemma denied_reads_survive_witness :
  is_read_denied_uri example_policy example_context (of_text "file:///work/app/secret/x") = true ∧
  is_read_denied_uri (preserve_deny_read_restrictions_from unrestricted example_policy) example_context
    (of_text "file:///work/app/secret/x") = true.
Proof.
  split; [by vm_compute|]. apply denied_reads_survive; [|done|by vm_compute].
  intros e e' He He' Heq. cbn [entries unrestricted app] in He, He'.
  assert (forallb (λ e, match entry_path e with PathEntry u => bool_decide (infer_path_convention u = Some Posix) | _ => true end)
            (entries example_policy) = true) as Hall by by vm_compute.
  rewrite forallb_forall in Hall. apply list_elem_of_In, Hall in He'.
  destruct e as [path a m], e' as [path' a' m']. destruct path as [u| |], path' as [v| |];
    try by apply entry_eqb_symbolic. cbn [entry_path] in He'. apply bool_decide_eq_true in He'.
  unfold entry_eqb in Heq. rewrite !andb_true_iff, !bool_decide_eq_true in Heq. cbn [entry_path access missing_path_behavior path_eqb] in Heq.
  destruct Heq as [[Hp ->] ->]. apply (posix_eq v u) in Hp; [|done]. by rewrite Hp.
Defined.

Lemma full_disk_write_is_total_witness :
  has_full_disk_write_access full_policy = true ∧
  resolve_access full_policy example_context (of_text "file:///tmp/x") = Write ∧
  can_write_path full_policy example_context (of_text "file:///tmp/x") = true.
Proof.
  split; [by vm_compute|]. apply full_disk_write_is_total; try by vm_compute.
  apply (bool_decide_eq_true_1 (is_Some _)). by vm_compute.
Defined.

Lemma metadata_is_protected_witness :
  can_write_path example_policy example_context (of_text "file:///work/app/.git/config") = false ∧
  ∃ name' protected', metadata_write_denial example_policy example_context (of_text "file:///work/app/.git/config") = Some name' ∧
    holds_in_metadata example_policy example_context (of_text "file:///work/app/.git/config") protected' name'.
Proof.
  apply metadata_is_protected with (of_text "file:///work/app/.git") (lit ".git").
  - done.
  - by vm_compute.
  - exists (of_text "file:///work/app"). split_and!; [|by left|by vm_compute..].
    apply elem_of_resolved. exists (new_entry (Special (ProjectRoots None)) Write).
    split_and!; [by right; left|done|by left|by vm_compute].
  - intros root protected' name' Hin Hsw (root' & Hin' & Hname & Hjoin & Hsw').
    assert (∀ r, (r, Write) ∈ resolved_entries example_policy example_context → r = of_text "file:///work/app") as Hone.
    { intros r Hr. assert (forallb (λ x, negb (can_write (snd x)) || bool_decide (fst x = of_text "file:///work/app"))
        (resolved_entries example_policy example_context) = true) as Hall by by vm_compute.
      rewrite forallb_forall in Hall. apply list_elem_of_In, Hall in Hr. cbn in Hr. by apply bool_decide_eq_true in Hr. }
    rewrite (Hone _ Hin), (Hone _ Hin') in *. clear -Hname Hjoin.
    apply list_elem_of_In in Hname. repeat destruct Hname as [<-|Hname]; [..|done]; vm_compute in Hjoin; injection Hjoin as <-; by vm_compute.
Defined.
End MiniHost.
