(* ===== verification/PermissionsLegacy.v ===== *)
(** * Older policies and project roots

    Sandbox policies of the older form are translated to entries and back
    ([legacy_policy_round_trip]); symbolic project roots can be replaced by the
    roots of an executor without changing a decision
    ([materializing_keeps_access]). *)
From stdpp Require Import numbers strings.
From S2P Require Import Prelude RustStr Utf8 PathUri PathUriProofs Permissions PermissionsProofs.

Section RoundTrip.
#[local] Set Default Proof Using "Type*".
Context {U : Type} `{!UrlCrate U} `{!Codecs} `{!Host U} {host_laws : HostLaws U}.
Implicit Types (e : FileSystemSandboxEntry U) (es : list (FileSystemSandboxEntry U)) (f : Found (U := U)).

Lemma find_step_read cwd f e : access e = Read → find_step cwd f e = Ok f.
Proof.
  intros Ha. unfold find_step. rewrite Ha. cbn [can_write]. destruct (entry_path e) as [| |[]]; try done.
  rewrite andb_false_r. by destruct (resolve_file_system_special_path _ _).
Qed.

Lemma find_writes_reads cwd f es : Forall (λ e, access e = Read) es → find_writes cwd f es = Ok f.
Proof. induction 1 as [|e es He Hes IH]; [done|]. cbn [find_writes]. by rewrite find_step_read. Qed.

Lemma find_writes_app cwd f es es' :
  find_writes cwd f (es ++ es') = (let? g := find_writes cwd f es in find_writes cwd g es').
Proof.
  revert f. induction es as [|e es IH]; intros f; [done|]. cbn [app find_writes]. destruct (find_step cwd f e); [apply IH|done].
Qed.

(** Default entries are reads at the end. *)
Definition adds_reads es es' : Prop := ∃ more, es' = es ++ more ∧ Forall (λ e, access e = Read) more.
Lemma adds_reads_refl es : adds_reads es es.
Proof. exists []. by rewrite app_nil_r. Qed.
Lemma adds_reads_trans es es' es'' : adds_reads es es' → adds_reads es' es'' → adds_reads es es''.
Proof. intros (m & -> & Hm) (n & -> & Hn). exists (m ++ n). rewrite app_assoc. split; [done|by apply Forall_app]. Qed.
Lemma adds_reads_foldl {A} (step : list (FileSystemSandboxEntry U) → A → list (FileSystemSandboxEntry U)) l es :
  (∀ es x, adds_reads es (step es x)) → adds_reads es (foldl step es l).
Proof.
  intros Hs. revert es. induction l as [|x l IH]; intros es; [apply adds_reads_refl|]. cbn [foldl].
  eapply adds_reads_trans; [apply Hs|apply IH].
Qed.
Lemma append_default_reads es path : adds_reads es (append_default_read_only_entry_if_no_explicit_rule es path).
Proof.
  unfold append_default_read_only_entry_if_no_explicit_rule. destruct (existsb _ _); [apply adds_reads_refl|].
  exists [skip_missing_path path Read]. split; [done|by repeat constructor].
Qed.
Lemma append_default_subpaths_reads es root b : adds_reads es (append_default_subpaths es root b).
Proof. apply adds_reads_foldl. intros. apply append_default_reads. Qed.

Lemma from_legacy_entries roots network_access t s cwd :
  let p := from_legacy_sandbox_policy_for_cwd (WorkspaceWrite roots network_access t s) cwd in
  kind p = Restricted ∧ adds_reads (workspace_grants roots t s) (entries p).
Proof.
  split; [done|]. cbn [from_legacy_sandbox_policy_for_cwd from_sandbox_policy workspace_write with_entries entries restricted].
  eapply adds_reads_trans; [|apply adds_reads_foldl; intros; apply append_default_subpaths_reads].
  assert (∀ es, adds_reads es (match from_absolute_path cwd with Some root => append_default_subpaths es root true | None => es end))
    as Hcwd by (intros es; destruct (from_absolute_path cwd); [apply append_default_subpaths_reads|apply adds_reads_refl]).
  eapply adds_reads_trans; [|apply Hcwd].
  eapply adds_reads_trans; [|apply adds_reads_foldl; intros; apply append_default_subpaths_reads].
  apply adds_reads_foldl. intros. apply append_default_reads.
Qed.

(** The literal roots other than the current directory. *)
Definition other_roots (cwd : option Abs) (roots : list Abs) : list Abs :=
  List.filter (λ root, negb (bool_decide (cwd = Some root))) roots.

Lemma find_writes_roots cwd roots found t s : ∃ w,
  find_writes cwd (mkFound true found t s false) ((λ root, new_entry (PathEntry (uri_from_abs_path root)) Write) <$> roots) = Ok w ∧
  w = mkFound true (found ++ other_roots cwd roots) t s false.
Proof.
  eexists. split; [|done]. revert found. induction roots as [|root roots IH]; intros found; cbn [fmap list_fmap find_writes].
  { by rewrite app_nil_r. }
  unfold find_step. cbn [entry_path new_entry access can_write]. rewrite uri_abs_round. cbn [other_roots List.filter].
  case_bool_decide; cbn [negb workspace_root_writable found_roots tmpdir_writable slash_tmp_writable unbridgeable_root_write].
  - apply IH.
  - rewrite IH, <- app_assoc. done.
Qed.

Lemma find_writes_grants cwd roots t s :
  find_writes cwd nothing_found (workspace_grants roots t s) = Ok (mkFound true (other_roots cwd roots) (negb t) (negb s) false).
Proof.
  unfold workspace_grants. destruct t, s; cbn [app find_writes];
    destruct (find_writes_roots cwd roots [] true true) as (w1 & H1 & ->), (find_writes_roots cwd roots [] true false) as (w2 & H2 & ->),
      (find_writes_roots cwd roots [] false true) as (w3 & H3 & ->), (find_writes_roots cwd roots [] false false) as (w4 & H4 & ->);
    done.
Qed.

(** What a policy of the older form means: the current directory is a root
    anyway, and roots are not repeated. *)
Definition normal_policy (cwd : str) (value : SandboxPolicy Abs) : SandboxPolicy Abs :=
  match value with
  | WorkspaceWrite roots network_access t s =>
      WorkspaceWrite (dedup_paths [] (other_roots (from_absolute_path cwd) roots)) network_access t s
  | value => value
  end.

(** A sandbox policy of the older form, translated to entries and back for
    the same current directory, is the policy it was: kind, network access and
    temporary directories are kept, and so are the writable roots, less
    repetitions and the current directory, which is writable anyway.  The
    read-only entries added for protected directories do not get in the way. *)
Theorem legacy_policy_round_trip (value : SandboxPolicy Abs) (cwd : str) :
  to_legacy_sandbox_policy (from_legacy_sandbox_policy_for_cwd value cwd) (network_policy_of value) cwd =
  Ok (normal_policy cwd value).
Proof.
  destruct value as [|b|n|roots network_access t s]; [done|by destruct b; cbn; rewrite andb_false_r|by destruct n|].
  destruct (from_legacy_entries roots network_access t s cwd) as [Hkind (more & Hes & Hreads)].
  unfold to_legacy_sandbox_policy. rewrite Hkind, Hes, find_writes_app, find_writes_grants, find_writes_reads by done.
  replace (has_full_disk_write_access _) with false.
  - cbn. destruct network_access, t, s; done.
  - symmetry. unfold has_full_disk_write_access. rewrite Hkind. apply andb_false_iff. left. unfold has_root_access.
    rewrite Hes. apply andb_false_iff. right. apply not_true_iff_false. rewrite existsb_exists.
    intros (e & Hin%list_elem_of_In & He). apply elem_of_app in Hin as [Hin|Hin].
    + unfold workspace_grants in Hin. rewrite !elem_of_app in Hin. destruct Hin as [Hin|[Hin|[Hin|Hin]]].
      * rewrite !elem_of_cons, elem_of_nil in Hin. destruct Hin as [->|[->|[]]]; done.
      * destruct s; [by apply elem_of_nil in Hin|]. apply list_elem_of_singleton in Hin as ->. done.
      * destruct t; [by apply elem_of_nil in Hin|]. apply list_elem_of_singleton in Hin as ->. done.
      * apply list_elem_of_fmap in Hin as (root & -> & _). done.
    + rewrite Forall_forall in Hreads. specialize (Hreads e Hin). destruct (entry_path e) as [| |[]]; try done.
      by rewrite Hreads in He.
Qed.
End RoundTrip.

(** ** Project roots *)

Section Materialize.
#[local] Set Default Proof Using "Type*".
Context {U : Type} `{!UrlCrate U} `{!Codecs} `{!Host U}.
Implicit Types (e : FileSystemSandboxEntry U) (p : FileSystemSandboxPolicy U) (ctx : PolicyContext U) (root path : U).

(** The text an entry has below the project roots. *)
Definition symbolic_subpath e : option str :=
  match entry_path e with
  | Special (ProjectRoots subpath) => subpath
  | GlobPattern pattern => parse_project_roots_glob_pattern pattern
  | _ => None
  end.
Definition resolved_entry ctx e : list (U * FileSystemAccessMode) :=
  (λ u, (u, access e)) <$>
  List.filter (λ u, bool_decide (infer_path_convention u = infer_path_convention (cwd ctx))) (entry_roots ctx (entry_path e)).

Lemma resolved_entries_bind p ctx : resolved_entries p ctx = entries p ≫= resolved_entry ctx.
Proof. done. Qed.

Lemma resolve_scoped_join root subpath path :
  resolve_scoped_workspace_path root subpath = Some path → join_path root subpath = Ok path ∧ starts_with path root = true.
Proof.
  unfold resolve_scoped_workspace_path. intros Hr. run Hr. by subst.
Qed.

(** Literal entries for a list of roots resolve to those roots. *)
Lemma resolved_literals ctx e (f : U → option U) roots :
  omap (λ root, (λ u, with_path e (PathEntry u)) <$> f root) roots ≫= resolved_entry ctx =
  (λ u, (u, access e)) <$>
  List.filter (λ u, bool_decide (infer_path_convention u = infer_path_convention (cwd ctx))) (omap f roots).
Proof.
  induction roots as [|root roots IH]; [done|]. cbn [omap list_omap]. destruct (f root) as [u|]; cbn [fmap option_fmap option_map]; [|done].
  rewrite bind_cons, IH. cbn [List.filter]. unfold resolved_entry. cbn. by case_bool_decide.
Qed.

Lemma omap_ext_elem {A B} (f g : A → option B) (l : list A) : (∀ x, x ∈ l → f x = g x) → omap f l = omap g l.
Proof.
  intros Hfg. induction l as [|x l IH]; [done|]. cbn [omap list_omap]. rewrite (Hfg x) by left.
  destruct (g x); [f_equal|]; apply IH; intros y Hy; apply Hfg; by right.
Qed.

Lemma omap_glob_resolved ctx e subpath roots :
  (∀ root, root ∈ roots → is_Some (resolve_scoped_workspace_path root subpath)) →
  omap (materialize_entry e (Some subpath) true) roots ≫= resolved_entry ctx = [].
Proof.
  intros Hs. induction roots as [|root roots IH]; [done|]. cbn [omap list_omap]. unfold materialize_entry at 1.
  destruct (Hs root) as [path ->]; [by left|]. rewrite bind_cons, IH by (intros; apply Hs; by right). done.
Qed.

Lemma materialize_entry_resolved ctx e subpath :
  entry_path e = Special (ProjectRoots subpath) →
  (∀ s root, subpath = Some s → root ∈ workspace_roots ctx → is_Some (resolve_scoped_workspace_path root s)) →
  omap (materialize_entry e subpath false) (workspace_roots ctx) ≫= resolved_entry ctx = resolved_entry ctx e.
Proof.
  intros He Hs. unfold resolved_entry at 2. rewrite He. cbn [entry_roots].
  transitivity (omap (λ root, (λ u, with_path e (PathEntry u)) <$> match subpath with Some s => ok (join_path root s) | None => Some root end)
                  (workspace_roots ctx) ≫= resolved_entry ctx).
  - f_equal. apply omap_ext_elem. intros root Hroot. unfold materialize_entry. destruct subpath as [s|]; [|done].
    destruct (Hs s root) as [path Hpath]; [done..|]. rewrite Hpath. by apply resolve_scoped_join in Hpath as [-> _].
  - rewrite resolved_literals. destruct subpath; [done|]. do 2 f_equal.
    induction (workspace_roots ctx) as [|root roots IH]; [done|]. cbn. by rewrite IH.
Qed.

(** Replacing the symbolic project roots of a policy by the workspace roots
    of an executor changes no decision: with those roots as the context every
    path has the same access before and after, and the same metadata is
    protected.  The roots are those of another machine, and the texts below
    them stay inside. *)
Theorem materializing_keeps_access p ctx path
    (Hforeign : ok (map_result uri_to_abs_path (workspace_roots ctx)) = None)
    (Hscoped : ∀ e subpath root, e ∈ entries p → symbolic_subpath e = Some subpath → root ∈ workspace_roots ctx →
       is_Some (resolve_scoped_workspace_path root subpath)) :
  let p' := materialize_project_roots_with_path_uris p (workspace_roots ctx) in
  resolve_access p' ctx path = resolve_access p ctx path ∧ metadata_write_denial p' ctx path = metadata_write_denial p ctx path.
Proof.
  cbv zeta. unfold materialize_project_roots_with_path_uris. destruct (map_result _ _) as [|err]; [done|].
  set (p' := with_entries p _). assert (resolved_entries p' ctx = resolved_entries p ctx) as Heq.
  { rewrite !resolved_entries_bind. subst p'. cbn [with_entries entries].
    induction (entries p) as [|e es IH]; [done|]. rewrite !bind_cons, bind_app, IH by (intros; eapply Hscoped; [by right|done..]).
    f_equal. assert (∀ subpath root, symbolic_subpath e = Some subpath → root ∈ workspace_roots ctx →
       is_Some (resolve_scoped_workspace_path root subpath)) as He by (intros; eapply Hscoped; [by left|done..]).
    unfold symbolic_subpath in He. destruct (entry_path e) as [u|pattern|value] eqn:Hpe.
    - cbn. by rewrite app_nil_r.
    - unfold parse_project_roots_glob_pattern in He. destruct (strip_prefix _ pattern) as [subpath|]; [|cbn; by rewrite app_nil_r].
      rewrite omap_glob_resolved by (intros; by apply He). unfold resolved_entry. by rewrite Hpe.
    - destruct value; try (cbn; by rewrite app_nil_r). apply materialize_entry_resolved; [done|]. intros s root -> Hroot. by apply He. }
  unfold resolve_access, metadata_write_denial, is_restricted. by rewrite Heq.
Qed.
End Materialize.

(** ** Examples *)

Import MiniUrl MiniHost.

Lemma legacy_policy_round_trip_witness :
  to_legacy_sandbox_policy
    (from_legacy_sandbox_policy_for_cwd (WorkspaceWrite [of_text "file:///data"; of_text "file:///work"; of_text "file:///data"] true true false)
       (lit "/work"))
    NetEnabled (lit "/work") =
  Ok (WorkspaceWrite [of_text "file:///data"] true true false).
Proof.
  etransitivity; [exact (legacy_policy_round_trip (U := mini_url)
    (WorkspaceWrite [of_text "file:///data"; of_text "file:///work"; of_text "file:///data"] true true false) (lit "/work"))|].
  by vm_compute.
Defined.

(** The paths of a Windows executor, seen from another machine. *)
Definition foreign : Host mini_url := host_with false.
Definition windows_context : PolicyContext mini_url :=
  mkContext (of_text "file:///C:/work") [of_text "file:///C:/work"; of_text "file:///D:/lib"] None None.
Definition windows_policy : FileSystemSandboxPolicy mini_url :=
  restricted [new_entry (Special (ProjectRoots None)) Write; new_entry (Special (ProjectRoots (Some (lit "docs\old")))) Read].

Lemma materializing_keeps_access_witness :
  resolve_access (materialize_project_roots_with_path_uris (Host0 := foreign) windows_policy (workspace_roots windows_context))
    windows_context (of_text "file:///d:/lib/Docs/OLD/x") = Read.
Proof.
  etransitivity; [eapply (materializing_keeps_access (Host0 := foreign) windows_policy windows_context
    (of_text "file:///d:/lib/Docs/OLD/x"))|by vm_compute].
  - by vm_compute.
  - intros e subpath root He Hs Hroot. cbn [entries windows_policy restricted] in He.
    rewrite !elem_of_cons, elem_of_nil in He. destruct He as [->|[->|[]]]; [done|]. injection Hs as <-.
    cbn [workspace_roots windows_context] in Hroot. rewrite !elem_of_cons, elem_of_nil in Hroot.
    destruct Hroot as [->|[->|[]]]; apply (bool_decide_eq_true_1 (is_Some _)); by vm_compute.
Defined.
