(* ===== verification/NetAddr.v ===== *)
(** * IP addresses of the network proxy ([network-proxy/src/policy.rs])

    The text form of an address ([str::parse::<IpAddr>] of the standard
    library) and the test for addresses that are not on the public internet.
    An IPv4 address is its [u32], an IPv6 address its eight 16-bit segments. *)
From stdpp Require Import strings.
From Stdlib Require Import Btauto.
From S2P Require Import Prelude RustStr.

Inductive IpAddr : Type := V4 (bits : N) | V6 (segments : list N).
#[global] Instance IpAddr_eq_dec : EqDecision IpAddr.
Proof. solve_decision. Defined.

(** [Ipv4Addr::from([a, b, c, d])] and [octets]. *)
Definition octets (a b c d : N) : N := (((a * 256 + b) * 256 + c) * 256 + d)%N.
Definition octet (i : N) (ip : N) : N := N.land (N.shiftr ip (24 - 8 * i)) 255.
Definition U32_MAX : N := 4294967295.

(** ** Text

    The parser of [core::net]: each reader returns what it read and the rest,
    or [None] without consuming anything. *)
Definition to_digit (radix : N) (c : char) : option N :=
  let d := if is_ascii_digit c then Some (c - 48)%N
           else if ((97 <=? c) && (c <=? 122))%N then Some (c - 87)%N
           else if ((65 <=? c) && (c <=? 90))%N then Some (c - 55)%N
           else None in
  match d with Some v => if (v <? radix)%N then Some v else None | None => None end.

Fixpoint read_digits (radix : N) (max_digits count : nat) (result : N) (s : str) : option (N * nat * str) :=
  match s with
  | c :: s' =>
      match to_digit radix c with
      | Some d =>
          if (max_digits <? S count)%nat then None
          else read_digits radix max_digits (S count) (result * radix + d)%N s'
      | None => Some (result, count, s)
      end
  | [] => Some (result, count, [])
  end.
Definition read_number (radix : N) (max_digits : nat) (allow_zero_prefix : bool) (max : N) (s : str) :
    option (N * str) :=
  let has_leading_zero := bool_decide (head s = Some (chr "0")) in
  match read_digits radix max_digits 0 0 s with
  | Some (result, digit_count, rest) =>
      if (digit_count =? 0)%nat then None
      else if negb allow_zero_prefix && has_leading_zero && (1 <? digit_count)%nat then None
      else if (result <=? max)%N then Some (result, rest) else None
  | None => None
  end.
Definition read_given_char (c : char) (s : str) : option str :=
  match s with d :: s' => if (d =? c)%N then Some s' else None | [] => None end.
Definition read_separator {A} (sep : char) (index : nat) (inner : str → option (A * str)) (s : str) : option (A * str) :=
  match index with
  | 0 => inner s
  | S _ => match read_given_char sep s with Some s' => inner s' | None => None end
  end.

Definition read_octet (index : nat) (s : str) : option (N * str) :=
  read_separator (chr ".") index (read_number 10 3 false 255) s.
Definition read_ipv4_addr (s : str) : option (N * str) :=
  match read_octet 0 s with
  | Some (a, s) =>
      match read_octet 1 s with
      | Some (b, s) =>
          match read_octet 2 s with
          | Some (c, s) =>
              match read_octet 3 s with
              | Some (d, s) => Some (octets a b c d, s)
              | None => None
              end
          | None => None
          end
      | None => None
      end
  | None => None
  end.

(** The groups of an IPv6 address, [left] of them at most; the last two may be
    written as an IPv4 address. *)
Fixpoint read_groups (left i : nat) (s : str) : list N * bool * str :=
  match left with
  | 0 => ([], false, s)
  | S left' =>
      match (if (2 <=? left)%nat then read_separator (chr ":") i read_ipv4_addr s else None) with
      | Some (v4, s') => ([N.shiftr v4 16; N.land v4 65535], true, s')
      | None =>
          match read_separator (chr ":") i (read_number 16 4 true 65535) s with
          | Some (g, s') => let '(gs, v4, s'') := read_groups left' (S i) s' in (g :: gs, v4, s'')
          | None => ([], false, s)
          end
      end
  end.
Definition read_ipv6_addr (s : str) : option (list N * str) :=
  let '(head, head_ipv4, s) := read_groups 8 0 s in
  if (length head =? 8)%nat then Some (head, s)
  else if (head_ipv4 : bool) then None
  else match read_given_char (chr ":") s with
       | None => None
       | Some s =>
           match read_given_char (chr ":") s with
           | None => None
           | Some s =>
               let '(tail, _, s) := read_groups (8 - (length head + 1)) 0 s in
               Some (head ++ replicate (8 - length head - length tail) 0%N ++ tail, s)
           end
       end.

(** [str::parse::<IpAddr>]. *)
Definition read_ip_addr (s : str) : option (IpAddr * str) :=
  match read_ipv4_addr s with
  | Some (v4, s) => Some (V4 v4, s)
  | None => match read_ipv6_addr s with Some (v6, s) => Some (V6 v6, s) | None => None end
  end.
Definition parse_ip (s : str) : option IpAddr :=
  match read_ip_addr s with Some (ip, []) => Some ip | _ => None end.

Example parse_ip_examples :
  parse_ip (lit "127.0.0.1") = Some (V4 2130706433) ∧ parse_ip (lit "127.0.0.01") = None ∧
  parse_ip (lit "256.0.0.1") = None ∧ parse_ip (lit "1.2.3.4 ") = None ∧
  parse_ip (lit "::1") = Some (V6 [0; 0; 0; 0; 0; 0; 0; 1]%N) ∧
  parse_ip (lit "::ffff:10.0.0.1") = Some (V6 [0; 0; 0; 0; 0; 65535; 2560; 1]%N) ∧
  parse_ip (lit "1:2:3:4:5:6:7::") = Some (V6 [1; 2; 3; 4; 5; 6; 7; 0]%N) ∧
  parse_ip (lit "1:2:3:4:5:6:1.2.3.4") = Some (V6 [1; 2; 3; 4; 5; 6; 258; 772]%N) ∧
  parse_ip (lit "1:2:3:4:5:6:7:8:9") = None ∧ parse_ip (lit "::1::") = None ∧ parse_ip (lit "[::1]") = None.
Proof. by vm_compute. Qed.

(** ** Classification *)

(** The methods of [Ipv4Addr] and [Ipv6Addr]. *)
Definition v4_is_loopback (ip : N) : bool := (octet 0 ip =? 127)%N.
Definition v4_is_private (ip : N) : bool :=
  (octet 0 ip =? 10)%N || ((octet 0 ip =? 172)%N && (16 <=? octet 1 ip)%N && (octet 1 ip <=? 31)%N) ||
  ((octet 0 ip =? 192)%N && (octet 1 ip =? 168)%N).
Definition v4_is_link_local (ip : N) : bool := (octet 0 ip =? 169)%N && (octet 1 ip =? 254)%N.
Definition v4_is_unspecified (ip : N) : bool := (ip =? 0)%N.
Definition v4_is_multicast (ip : N) : bool := (224 <=? octet 0 ip)%N && (octet 0 ip <=? 239)%N.
Definition v4_is_broadcast (ip : N) : bool := (ip =? U32_MAX)%N.

Definition segment (i : nat) (ip : list N) : N := default 0%N (ip !! i).
Definition seg0 (ip : list N) : N := segment 0 ip.
Definition v6_is_loopback (ip : list N) : bool := bool_decide (ip = [0; 0; 0; 0; 0; 0; 0; 1]%N).
Definition v6_is_unspecified (ip : list N) : bool := bool_decide (ip = [0; 0; 0; 0; 0; 0; 0; 0]%N).
Definition v6_is_multicast (ip : list N) : bool := (N.land (seg0 ip) 65280 =? 65280)%N.
Definition v6_is_unique_local (ip : list N) : bool := (N.land (seg0 ip) 65024 =? 64512)%N.
Definition v6_is_unicast_link_local (ip : list N) : bool := (N.land (seg0 ip) 65472 =? 65152)%N.
Definition v6_to_ipv4 (ip : list N) : option N :=
  match ip with
  | [0; 0; 0; 0; 0; m; ab; cd]%N =>
      if (m =? 0)%N || (m =? 65535)%N then Some (ab * 65536 + cd)%N else None
  | _ => None
  end.
Definition is_loopback (ip : IpAddr) : bool :=
  match ip with V4 a => v4_is_loopback a | V6 a => v6_is_loopback a end.

(** [policy.rs]. *)
Definition ipv4_in_cidr (ip base prefix : N) : bool :=
  let mask := (if prefix =? 0 then 0 else N.land (N.shiftl U32_MAX (32 - prefix)) U32_MAX)%N in
  (N.land ip mask =? N.land base mask)%N.
Definition is_non_public_ipv4 (ip : N) : bool :=
  v4_is_loopback ip || v4_is_private ip || v4_is_link_local ip || v4_is_unspecified ip ||
  v4_is_multicast ip || v4_is_broadcast ip ||
  ipv4_in_cidr ip (octets 0 0 0 0) 8 || ipv4_in_cidr ip (octets 100 64 0 0) 10 ||
  ipv4_in_cidr ip (octets 192 0 0 0) 24 || ipv4_in_cidr ip (octets 192 0 2 0) 24 ||
  ipv4_in_cidr ip (octets 198 18 0 0) 15 || ipv4_in_cidr ip (octets 198 51 100 0) 24 ||
  ipv4_in_cidr ip (octets 203 0 113 0) 24 || ipv4_in_cidr ip (octets 240 0 0 0) 4.
Definition is_non_public_ipv6 (ip : list N) : bool :=
  match v6_to_ipv4 ip with
  | Some v4 => is_non_public_ipv4 v4 || v6_is_loopback ip
  | None => v6_is_loopback ip || v6_is_unspecified ip || v6_is_multicast ip || v6_is_unique_local ip ||
            v6_is_unicast_link_local ip
  end.
Definition is_non_public_ip (ip : IpAddr) : bool :=
  match ip with V4 a => is_non_public_ipv4 a | V6 a => is_non_public_ipv6 a end.

(** ** The reference: ranges of addresses *)

Definition in_range (ip : N) (range : N * N) : bool := ((fst range <=? ip) && (ip <=? snd range))%N.
Definition non_public_v4 : list (N * N) :=
  [(octets 0 0 0 0, octets 0 255 255 255); (octets 10 0 0 0, octets 10 255 255 255);
   (octets 100 64 0 0, octets 100 127 255 255); (octets 127 0 0 0, octets 127 255 255 255);
   (octets 169 254 0 0, octets 169 254 255 255); (octets 172 16 0 0, octets 172 31 255 255);
   (octets 192 0 0 0, octets 192 0 0 255); (octets 192 0 2 0, octets 192 0 2 255);
   (octets 192 168 0 0, octets 192 168 255 255); (octets 198 18 0 0, octets 198 19 255 255);
   (octets 198 51 100 0, octets 198 51 100 255); (octets 203 0 113 0, octets 203 0 113 255);
   (octets 224 0 0 0, octets 255 255 255 255)]%N.
Definition non_public_v6_seg0 : list (N * N) := [(64512, 65023); (65152, 65215); (65280, 65535)]%N.
(** [::/96] and [::ffff:0:0/96] carry IPv4 addresses; the rest goes by its first
    segment. *)
Definition non_public_ref (ip : IpAddr) : bool :=
  match ip with
  | V4 a => existsb (in_range a) non_public_v4
  | V6 a =>
      if forallb (N.eqb 0) (take 5 a) && ((segment 5 a =? 0)%N || (segment 5 a =? 65535)%N)
      then existsb (in_range (segment 6 a * 65536 + segment 7 a)%N) non_public_v4
      else existsb (in_range (seg0 a)) non_public_v6_seg0
  end.
(** The values of the Rust types. *)
Definition ip_wf (ip : IpAddr) : Prop :=
  match ip with
  | V4 a => (a < 2 ^ 32)%N
  | V6 a => length a = 8 ∧ Forall (λ s, (s < 2 ^ 16)%N) a
  end.

Lemma in_range_spec ip lo hi : in_range ip (lo, hi) = true ↔ (lo ≤ ip ∧ ip ≤ hi)%N.
Proof. unfold in_range. cbn [fst snd]. by rewrite andb_true_iff, !N.leb_le. Qed.

(** A mask of high bits clears the bits below. *)
Lemma land_high k m x : (x < 2 ^ (k + m))%N → N.land x (N.shiftl (N.ones m) k) = (x / 2 ^ k * 2 ^ k)%N.
Proof.
  intros Hx. rewrite <- N.shiftr_div_pow2, <- N.shiftl_mul_pow2. apply N.bits_inj. intros i.
  rewrite N.land_spec. destruct (N.lt_ge_cases i k) as [Hi|Hi].
  - rewrite !N.shiftl_spec_low by done. apply andb_false_r.
  - rewrite !N.shiftl_spec_high' by done. rewrite N.shiftr_spec', N.sub_add by done.
    destruct (N.lt_ge_cases (i - k) m); [by rewrite N.ones_spec_low, andb_true_r|].
    rewrite N.ones_spec_high, andb_false_r by done. symmetry. rewrite <- (N.mod_small x (2 ^ i)).
    + by apply N.mod_pow2_bits_high.
    + apply (N.lt_le_trans _ _ _ Hx), N.pow_le_mono_r; lia.
Qed.

Lemma div_eq_range x c k : (k ≠ 0 → x / k = c ↔ c * k ≤ x ∧ x < c * k + k)%N.
Proof.
  intros Hk. pose proof (N.div_mod x k Hk). pose proof (N.mod_lt x k Hk). rewrite (N.mul_comm c).
  split; [intros <-|intros; symmetry; apply (N.div_unique x k c (x - k * c)); lia].
  generalize dependent (x `mod` k)%N. generalize (x `div` k)%N. nia.
Qed.

Lemma in_cidr_range ip c p :
  (0 < p <= 32 → ip < 2 ^ 32 → c < 2 ^ p →
   ipv4_in_cidr ip (c * 2 ^ (32 - p)) p = in_range ip (c * 2 ^ (32 - p), c * 2 ^ (32 - p) + (2 ^ (32 - p) - 1)))%N.
Proof.
  intros Hp Hip Hc. unfold ipv4_in_cidr, in_range. rewrite (proj2 (N.eqb_neq p 0)) by lia.
  assert (∃ k, 32 - p = k ∧ k < 32 ∧ p = 32 - k)%N as (k & -> & ? & ->) by (eexists; split_and!; [done|lia..]).
  assert (2 ^ k ≠ 0)%N by (by apply N.pow_nonzero).
  assert (N.land (N.shiftl U32_MAX k) U32_MAX = N.shiftl (N.ones (32 - k)) k) as ->.
  { apply N.bits_inj. intros i. change U32_MAX with (N.ones 32). rewrite N.land_spec.
    destruct (N.lt_ge_cases i k); [by rewrite !N.shiftl_spec_low|]. rewrite !N.shiftl_spec_high' by done.
    destruct (N.lt_ge_cases i 32); [by rewrite !N.ones_spec_low by lia|]. by rewrite (N.ones_spec_high 32 i), (N.ones_spec_high (32 - k) (i - k)), andb_false_r by lia. }
  assert (2 ^ (32 - k) * 2 ^ k = 2 ^ 32)%N by (rewrite <- N.pow_add_r; f_equal; lia).
  assert (k + (32 - k) = 32)%N as Hk by lia. rewrite !land_high by (rewrite Hk; nia).
  rewrite N.div_mul by done. apply eq_iff_eq_true. rewrite andb_true_iff, !N.leb_le, N.eqb_eq, N.mul_cancel_r by done.
  rewrite div_eq_range by done. cbn [fst snd]. lia.
Qed.

Lemma octet_0 ip : (ip < 2 ^ 32 → octet 0 ip = ip / 2 ^ 24)%N.
Proof.
  intros. unfold octet. rewrite (N.land_ones _ 8), N.shiftr_div_pow2. apply N.mod_small, N.Div0.div_lt_upper_bound. cbn. lia.
Qed.
Lemma octet_1 ip : octet 1 ip = ((ip / 2 ^ 16) `mod` 256)%N.
Proof. unfold octet. by rewrite (N.land_ones _ 8), N.shiftr_div_pow2. Qed.
Lemma octet_0_eqb ip c : (ip < 2 ^ 32 → (octet 0 ip =? c) = in_range ip (c * 2 ^ 24, c * 2 ^ 24 + (2 ^ 24 - 1)))%N.
Proof.
  intros. rewrite octet_0 by done. unfold in_range. apply eq_iff_eq_true.
  rewrite andb_true_iff, !N.leb_le, N.eqb_eq, div_eq_range by done. cbn [fst snd]. lia.
Qed.
(** Both octets of a test at once. *)
Lemma octet_01_range ip a lo hi :
  (ip < 2 ^ 32 → lo <= hi < 256 →
   (octet 0 ip =? a) && (lo <=? octet 1 ip) && (octet 1 ip <=? hi) =
   in_range ip (a * 2 ^ 24 + lo * 2 ^ 16, a * 2 ^ 24 + hi * 2 ^ 16 + (2 ^ 16 - 1)))%N.
Proof.
  intros Hip Hh. rewrite octet_0_eqb, octet_1 by done. unfold in_range. cbn [fst snd]. apply eq_iff_eq_true.
  rewrite !andb_true_iff, !N.leb_le. change (2 ^ 16)%N with 65536%N. change (2 ^ 24)%N with 16777216%N.
  pose proof (N.div_mod ip 65536 ltac:(done)) as Hq. pose proof (N.mod_lt ip 65536 ltac:(done)).
  pose proof (N.div_mod (ip / 65536) 256 ltac:(done)). pose proof (N.mod_lt (ip / 65536) 256 ltac:(done)).
  generalize dependent (ip `mod` 65536)%N. generalize dependent ((ip `div` 65536) `mod` 256)%N.
  generalize dependent ((ip `div` 65536) `div` 256)%N. generalize dependent (ip `div` 65536)%N. lia.
Qed.
Lemma octet_01_eqb ip a b :
  (ip < 2 ^ 32 → b < 256 → (octet 0 ip =? a) && (octet 1 ip =? b) =
   in_range ip (a * 2 ^ 24 + b * 2 ^ 16, a * 2 ^ 24 + b * 2 ^ 16 + (2 ^ 16 - 1)))%N.
Proof.
  intros. rewrite <- octet_01_range by lia. rewrite <- andb_assoc. f_equal. apply eq_iff_eq_true.
  rewrite andb_true_iff, !N.leb_le, N.eqb_eq. lia.
Qed.
Lemma octet_0_range ip lo hi :
  (ip < 2 ^ 32 → (lo <=? octet 0 ip) && (octet 0 ip <=? hi) = in_range ip (lo * 2 ^ 24, hi * 2 ^ 24 + (2 ^ 24 - 1)))%N.
Proof.
  intros Hip. rewrite octet_0 by done. unfold in_range. cbn [fst snd]. apply eq_iff_eq_true.
  rewrite !andb_true_iff, !N.leb_le. change (2 ^ 24)%N with 16777216%N.
  pose proof (N.div_mod ip 16777216 ltac:(done)) as Hq. pose proof (N.mod_lt ip 16777216 ltac:(done)).
  generalize dependent (ip `mod` 16777216)%N. generalize dependent (ip `div` 16777216)%N. lia.
Qed.

(** The mask tests as ranges. *)
Lemma v4_tests_ranges ip : (ip < 2 ^ 32)%N →
  (v4_is_loopback ip = in_range ip (2130706432, 2147483647) ∧
  v4_is_private ip = in_range ip (167772160, 184549375) || in_range ip (2886729728, 2887778303) || in_range ip (3232235520, 3232301055) ∧
  v4_is_link_local ip = in_range ip (2851995648, 2852061183) ∧
  v4_is_multicast ip = in_range ip (3758096384, 4026531839))%N.
Proof.
  intros Hip. unfold v4_is_loopback, v4_is_private, v4_is_link_local, v4_is_multicast.
  by rewrite octet_01_range, !octet_01_eqb, !octet_0_eqb, octet_0_range by (done || lia).
Qed.
Lemma v4_blocks_ranges ip : (ip < 2 ^ 32)%N →
  (ipv4_in_cidr ip (octets 0 0 0 0) 8 = in_range ip (0, 16777215) ∧
  ipv4_in_cidr ip (octets 100 64 0 0) 10 = in_range ip (1681915904, 1686110207) ∧
  ipv4_in_cidr ip (octets 192 0 0 0) 24 = in_range ip (3221225472, 3221225727) ∧
  ipv4_in_cidr ip (octets 192 0 2 0) 24 = in_range ip (3221225984, 3221226239) ∧
  ipv4_in_cidr ip (octets 198 18 0 0) 15 = in_range ip (3323068416, 3323199487) ∧
  ipv4_in_cidr ip (octets 198 51 100 0) 24 = in_range ip (3325256704, 3325256959) ∧
  ipv4_in_cidr ip (octets 203 0 113 0) 24 = in_range ip (3405803776, 3405804031) ∧
  ipv4_in_cidr ip (octets 240 0 0 0) 4 = in_range ip (4026531840, 4294967295))%N.
Proof.
  intros Hip. split_and!.
  - by apply (in_cidr_range ip 0 8).
  - by apply (in_cidr_range ip 401 10).
  - by apply (in_cidr_range ip 12582912 24).
  - by apply (in_cidr_range ip 12582914 24).
  - by apply (in_cidr_range ip 25353 15).
  - by apply (in_cidr_range ip 12989284 24).
  - by apply (in_cidr_range ip 13303921 24).
  - by apply (in_cidr_range ip 15 4).
Qed.

Lemma non_public_v4_ranges ip : (ip < 2 ^ 32)%N → is_non_public_ipv4 ip = existsb (in_range ip) non_public_v4.
Proof.
  intros Hip. unfold is_non_public_ipv4.
  destruct (v4_tests_ranges ip Hip) as (-> & -> & -> & ->).
  destruct (v4_blocks_ranges ip Hip) as (-> & -> & -> & -> & -> & -> & -> & ->).
  assert (in_range ip (3758096384, 4294967295) = in_range ip (3758096384, 4026531839) || in_range ip (4026531840, 4294967295))%N as Hm
    by (apply eq_iff_eq_true; rewrite orb_true_iff, !in_range_spec; lia).
  assert (v4_is_unspecified ip = true → in_range ip (0, 16777215) = true)%N as Hu
    by (unfold v4_is_unspecified; rewrite in_range_spec, N.eqb_eq; lia).
  assert (v4_is_broadcast ip = true → in_range ip (4026531840, 4294967295) = true)%N as Hb
    by (unfold v4_is_broadcast, U32_MAX; rewrite in_range_spec, N.eqb_eq; lia).
  let v := eval vm_compute in non_public_v4 in change non_public_v4 with v. cbn [existsb]. rewrite Hm.
  destruct (v4_is_unspecified ip), (v4_is_broadcast ip); rewrite ?Hu, ?Hb by done; btauto.
Qed.

Lemma mask_seg0 c m k x : (x < 2 ^ 16 → k + m = 16 → c < 2 ^ m →
  (N.land x (N.shiftl (N.ones m) k) =? c * 2 ^ k) = in_range x (c * 2 ^ k, c * 2 ^ k + (2 ^ k - 1)))%N.
Proof.
  intros Hx Hk Hc. assert (2 ^ k ≠ 0)%N by (by apply N.pow_nonzero). rewrite land_high by (by rewrite Hk).
  apply eq_iff_eq_true. rewrite in_range_spec, N.eqb_eq, N.mul_cancel_r, div_eq_range by done. lia.
Qed.

(** The addresses that carry an IPv4 address. *)
Definition carries_v4 (a : list N) : bool :=
  forallb (N.eqb 0) (take 5 a) && ((segment 5 a =? 0)%N || (segment 5 a =? 65535)%N).
Lemma v6_to_ipv4_spec a : length a = 8 →
  v6_to_ipv4 a = if carries_v4 a then Some (segment 6 a * 65536 + segment 7 a)%N else None.
Proof. intros Hlen. do 5 (destruct a as [|[|?] a]; [done| |done]). do 4 (destruct a as [|? a]; try done). Qed.
Lemma v6_masks a : (seg0 a < 2 ^ 16)%N →
  v6_is_multicast a || v6_is_unique_local a || v6_is_unicast_link_local a = existsb (in_range (seg0 a)) non_public_v6_seg0.
Proof.
  intros Ha. unfold v6_is_multicast, v6_is_unique_local, v6_is_unicast_link_local.
  assert ((N.land (seg0 a) 65280 =? 65280) = in_range (seg0 a) (65280, 65535))%N as -> by (by apply (mask_seg0 255 8 8)).
  assert ((N.land (seg0 a) 65024 =? 64512) = in_range (seg0 a) (64512, 65023))%N as -> by (by apply (mask_seg0 126 7 9)).
  assert ((N.land (seg0 a) 65472 =? 65152) = in_range (seg0 a) (65152, 65215))%N as -> by (by apply (mask_seg0 1018 10 6)).
  unfold non_public_v6_seg0. cbn [existsb]. btauto.
Qed.

(** The tests of an address, by octets, masks and the methods of the
    standard library, are membership in the ranges reserved for loopback,
    private, shared, link-local, documentation, benchmarking, multicast and
    reserved use; an IPv6 address that carries an IPv4 address goes by that
    address. *)
Theorem non_public_is_reserved ip : ip_wf ip → is_non_public_ip ip = non_public_ref ip.
Proof.
  destruct ip as [a|a]; cbn [ip_wf is_non_public_ip non_public_ref]; [by apply non_public_v4_ranges|].
  intros [Hlen Hseg]. fold (carries_v4 a). unfold is_non_public_ipv6. rewrite v6_to_ipv4_spec by done.
  assert (∀ i, segment i a < 2 ^ 16)%N as Hs.
  { intros i. unfold segment. destruct (a !! i) eqn:E; [exact (Forall_lookup_1 _ _ _ _ Hseg E)|done]. }
  destruct (carries_v4 a) eqn:Hc.
  - rewrite non_public_v4_ranges by (pose proof (Hs 6); pose proof (Hs 7); lia).
    unfold v6_is_loopback. case_bool_decide as Hl; [by subst a|apply orb_false_r].
  - rewrite <- v6_masks by apply Hs. unfold v6_is_loopback, v6_is_unspecified.
    rewrite !bool_decide_false by (intros ->; done). done.
Qed.

(** ** Parsed addresses are addresses *)

Lemma read_number_bound radix digits zeros max s n rest : read_number radix digits zeros max s = Some (n, rest) → (n ≤ max)%N.
Proof. unfold read_number. intros H. repeat (break_match_hyp H; try discriminate H). simplify_eq. by apply N.leb_le. Qed.
Lemma read_octet_bound i s n rest : read_octet i s = Some (n, rest) → (n ≤ 255)%N.
Proof. unfold read_octet, read_separator. intros H. run H; by eapply read_number_bound. Qed.
Lemma read_ipv4_wf s n rest : read_ipv4_addr s = Some (n, rest) → (n < 2 ^ 32)%N.
Proof.
  unfold read_ipv4_addr. intros H. run H.
  repeat match goal with E : read_octet _ _ = Some _ |- _ => apply read_octet_bound in E end. unfold octets. lia.
Qed.
Lemma read_groups_wf left i s gs v4 rest :
  read_groups left i s = (gs, v4, rest) → length gs ≤ left ∧ Forall (λ g, (g < 2 ^ 16)%N) gs.
Proof.
  revert i s gs v4 rest. induction left as [|left IH]; intros i s gs v4 rest; cbn [read_groups].
  { intros [= <- <- <-]. by split. }
  destruct (if (2 <=? S left)%nat then _ else None) as [[a s']|] eqn:Ea.
  - destruct (2 <=? S left)%nat eqn:El; [|done]. intros [= <- <- <-]. apply Nat.leb_le in El. split; [done|].
    assert (a < 2 ^ 32)%N as Ha by (unfold read_separator in Ea; run Ea; by eapply read_ipv4_wf).
    repeat constructor.
    + rewrite N.shiftr_div_pow2. apply N.Div0.div_lt_upper_bound. exact Ha.
    + rewrite (N.land_ones _ 16). by apply N.mod_lt.
  - destruct (read_separator _ _ (read_number _ _ _ _) s) as [[g s']|] eqn:Eg; [|intros [= <- <- <-]; split; [simpl; lia|done]].
    destruct (read_groups left (S i) s') as [[gs' v4'] s''] eqn:Er. intros [= <- <- <-].
    apply IH in Er as [??]. split; [simpl; lia|]. constructor; [|done].
    assert (g ≤ 65535)%N by (unfold read_separator in Eg; run Eg; by eapply read_number_bound). lia.
Qed.
Lemma parse_ip_wf s ip : parse_ip s = Some ip → ip_wf ip.
Proof.
  unfold parse_ip, read_ip_addr, read_ipv6_addr. intros H.
  repeat (break_match_hyp H; try discriminate H); simplify_eq; cbn [ip_wf]; [by eapply read_ipv4_wf| |].
  all: repeat match goal with E : read_groups _ _ _ = _ |- _ => apply read_groups_wf in E as [??] end.
  - split; [|done]. reflect_bools. done.
  - rewrite !length_app, length_replicate, !Forall_app. split; [lia|]. split_and!; [done| |done].
    by apply Forall_replicate.
Qed.

Lemma non_public_is_reserved_witness : is_non_public_ip (V6 [0; 0; 0; 0; 0; 65535; 2560; 1]%N) = true.
Proof. rewrite non_public_is_reserved; [by vm_compute|]. apply (parse_ip_wf (lit "::ffff:10.0.0.1")). by vm_compute. Defined.
