(* ===== verification/NetDomain.v ===== *)
(** * Hosts and domain patterns ([network-proxy/src/policy.rs])

    The hosts of requests and the patterns of the allow and deny lists are
    brought to one form before they are compared.  Patterns are compiled to
    globs for requests, and decoded to [DomainPattern]s when a configuration is
    checked against the managed one.  The [globset] crate and the host parser of
    the [url] crate are classes. *)
From stdpp Require Import strings.
From S2P Require Import Prelude RustStr NetAddr.

(** An [anyhow::Error]: its contexts, outermost first, and the root message. *)
Definition anyhow : Type := list str.
Definition with_context {A} (c : str) (r : result anyhow A) : result anyhow A := map_err (cons c) r.

(** [str::trim_end_matches(c)], [split_once] with a string. *)
Definition trim_end_char (c : char) (s : str) : str := trim_end_matches (N.eqb c) s.
Definition split_once_str (p s : str) : option (str * str) :=
  match find p s with Some i => Some (take i s, drop (i + length p) s) | None => None end.

(** ** Hosts *)

Definition normalize_ip_literal (host : str) : option str :=
  if bool_decide (is_Some (parse_ip host)) then Some host
  else find_map (λ delimiter,
    match split_once_str delimiter host with
    | Some (ip, scope) => if bool_decide (is_Some (parse_ip ip)) then Some (ip ++ lit "%" ++ scope) else None
    | None => None
    end) [lit "%25"; lit "%"].
Definition normalize_dns_host_or_ip_literal (host : str) : str :=
  let host := trim_end_char (chr ".") (to_ascii_lowercase host) in
  default host (normalize_ip_literal host).
Definition count_char (c : char) (s : str) : nat := length (filter (λ d, d = c) s).
Definition normalize_host (host : str) : str :=
  let host := trim host in
  match (if starts_with (lit "[") host then find (lit "]") host else None) with
  | Some e => normalize_dns_host_or_ip_literal (take (e - 1) (drop 1 host))
  | None =>
      if (count_char (chr ":") host =? 1)%nat
      then normalize_dns_host_or_ip_literal (default [] (head (split (chr ":") host)))
      else normalize_dns_host_or_ip_literal host
  end.

(** [Host]: a normalised host that is not empty. *)
Definition Host_parse (input : str) : option str :=
  let normalized := normalize_host input in if str_eqb normalized [] then None else Some normalized.

Definition unscoped_ip_literal (host : str) : option str :=
  match split_once (chr "%") host with
  | Some (ip, _) => if bool_decide (is_Some (parse_ip ip)) then Some ip else None
  | None => None
  end.
Definition is_loopback_host (host : str) : bool :=
  let host := default host (unscoped_ip_literal host) in
  if str_eqb host (lit "localhost") then true
  else match parse_ip host with Some ip => is_loopback ip | None => false end.

Example normalize_host_examples :
  normalize_host (lit "  ExAmPlE.CoM  ") = lit "example.com" ∧ normalize_host (lit "example.com:1234") = lit "example.com" ∧
  normalize_host (lit "2001:db8::1") = lit "2001:db8::1" ∧ normalize_host (lit "EXAMPLE.COM.:443") = lit "example.com" ∧
  normalize_host (lit "[::1]:443") = lit "::1" ∧ normalize_host (lit "fe80::1%25LO0") = lit "fe80::1%lo0".
Proof. by vm_compute. Qed.

(** ** Patterns *)

Definition normalize_pattern (pattern : str) : str :=
  let pattern := trim pattern in
  if str_eqb pattern (lit "*") then lit "*"
  else match strip_prefix (lit "**.") pattern with
       | Some domain => lit "**." ++ normalize_host domain
       | None => match strip_prefix (lit "*.") pattern with
                 | Some domain => lit "*." ++ normalize_host domain
                 | None => normalize_host pattern
                 end
       end.

Inductive DomainPattern : Type := ApexAndSubdomains (d : str) | SubdomainsOnly (d : str) | Exact (d : str).
#[global] Instance DomainPattern_eq_dec : EqDecision DomainPattern.
Proof. solve_decision. Defined.

Definition parse_domain (domain : str) (build : str → DomainPattern) : DomainPattern :=
  let domain := trim domain in if str_eqb domain [] then Exact [] else build domain.
Definition DomainPattern_parse (input : str) : DomainPattern :=
  let input := trim input in
  if str_eqb input [] then Exact []
  else match strip_prefix (lit "**.") input with
       | Some domain => parse_domain domain ApexAndSubdomains
       | None => match strip_prefix (lit "*.") input with
                 | Some domain => parse_domain domain SubdomainsOnly
                 | None => Exact input
                 end
       end.
Definition expand_domain_pattern (pattern : str) : list str :=
  match DomainPattern_parse pattern with
  | Exact domain => [domain]
  | SubdomainsOnly domain => [lit "?*." ++ domain]
  | ApexAndSubdomains domain => [domain; lit "?*." ++ domain]
  end.
Definition is_global_wildcard_domain_pattern (pattern : str) : bool :=
  existsb (λ candidate, str_eqb candidate (lit "*")) (expand_domain_pattern (normalize_pattern pattern)).

(** [globset]: [GlobBuilder::new(p).case_insensitive(true).build()], the set of
    some globs, and matching with a set and with one glob. *)
Class GlobCrate (Glob GlobSet : Type) : Type := {
  glob_build : str → result str Glob;
  globset_build : list Glob → result str GlobSet;
  is_match : GlobSet → str → bool;
  glob_is_match : Glob → str → bool;
}.

Section Globs.
Context `{GC : GlobCrate Glob GlobSet}.

Inductive GlobalWildcard : Type := AllowGlobal | RejectGlobal.
#[global] Instance GlobalWildcard_eq_dec : EqDecision GlobalWildcard.
Proof. solve_decision. Defined.

Definition unsupported_wildcard : anyhow :=
  [lit "unsupported global wildcard domain pattern " ++ [34%N] ++ lit "*" ++ [34%N] ++
   lit "; use exact hosts or scoped wildcards like *.example.com or **.example.com"].

(** The candidates of a pattern that were not seen before. *)
Fixpoint add_candidates (candidates : list str) (seen : list str) (globs : list Glob) :
    result anyhow (list str * list Glob) :=
  match candidates with
  | [] => Ok (seen, globs)
  | candidate :: rest =>
      if bool_decide (candidate ∈ seen) then add_candidates rest seen globs
      else match glob_build candidate with
           | Err e => Err [lit "invalid glob pattern: " ++ candidate; e]
           | Ok glob => add_candidates rest (candidate :: seen) (globs ++ [glob])
           end
  end.
Fixpoint add_patterns (global_wildcard : GlobalWildcard) (patterns : list str) (seen : list str) (globs : list Glob) :
    result anyhow (list Glob) :=
  match patterns with
  | [] => Ok globs
  | pattern :: rest =>
      if bool_decide (global_wildcard = RejectGlobal) && is_global_wildcard_domain_pattern pattern
      then Err unsupported_wildcard
      else let? (seen, globs) := add_candidates (expand_domain_pattern (normalize_pattern pattern)) seen globs in
           add_patterns global_wildcard rest seen globs
  end.
Definition compile_globset_with_policy (patterns : list str) (global_wildcard : GlobalWildcard) : result anyhow GlobSet :=
  let? globs := add_patterns global_wildcard patterns [] [] in map_err (λ e, [e]) (globset_build globs).
Definition compile_allowlist_globset (patterns : list str) := compile_globset_with_policy patterns AllowGlobal.
Definition compile_denylist_globset (patterns : list str) := compile_globset_with_policy patterns RejectGlobal.
End Globs.

(** ** Patterns of a managed configuration *)

Definition normalize_domain (domain : str) : str := to_ascii_lowercase (trim_end_char (chr ".") domain).
Definition domain_eq (left right : str) : bool := str_eqb (normalize_domain left) (normalize_domain right).
Definition is_subdomain_or_equal (child parent : str) : bool :=
  let child := normalize_domain child in
  let parent := normalize_domain parent in
  if str_eqb child parent then true else ends_with (lit "." ++ parent) child.
Definition is_strict_subdomain (child parent : str) : bool :=
  let child := normalize_domain child in
  let parent := normalize_domain parent in
  negb (str_eqb child parent) && ends_with (lit "." ++ parent) child.

Definition allows (self candidate : DomainPattern) : bool :=
  match self with
  | Exact domain =>
      match candidate with Exact candidate => domain_eq candidate domain | _ => false end
  | SubdomainsOnly domain =>
      match candidate with
      | Exact candidate => is_strict_subdomain candidate domain
      | SubdomainsOnly candidate => is_subdomain_or_equal candidate domain
      | ApexAndSubdomains candidate => is_strict_subdomain candidate domain
      end
  | ApexAndSubdomains domain =>
      match candidate with
      | Exact candidate | SubdomainsOnly candidate | ApexAndSubdomains candidate => is_subdomain_or_equal candidate domain
      end
  end.

(** [url::Host::parse(s)], printed. *)
Class UrlHost : Type := url_host_parse : str → option str.

Section Constraints.
Context {UH : UrlHost}.

Definition parse_domain_for_constraints (domain : str) : str :=
  let domain := trim_end_char (chr ".") (trim domain) in
  if str_eqb domain [] then []
  else
    let host := if starts_with (lit "[") domain && ends_with (lit "]") domain
                then take (length domain - 2) (drop 1 domain) else domain in
    if contains_char (chr "*") host || contains_char (chr "?") host || contains_char (chr "%") host then domain
    else default [] (url_host_parse host).
Definition parse_for_constraints (input : str) : DomainPattern :=
  let input := trim input in
  if str_eqb input [] then Exact []
  else match strip_prefix (lit "**.") input with
       | Some domain => ApexAndSubdomains (parse_domain_for_constraints domain)
       | None => match strip_prefix (lit "*.") input with
                 | Some domain => SubdomainsOnly (parse_domain_for_constraints domain)
                 | None => Exact (parse_domain_for_constraints input)
                 end
       end.
End Constraints.
