(* ===== verification/NetDomainProofs.v ===== *)
(** * What domain patterns match

    The compiled set of a list of patterns matches the hosts its patterns
    describe ([compiled_set_matches]), and the check of a configuration against
    a managed list of patterns is sound on ordinary patterns
    ([managed_patterns_cover]). *)
From stdpp Require Import strings.
From S2P Require Import Prelude RustStr NetAddr NetDomain.

(** ** Wildcards *)

(** The documented meaning of a glob without classes, alternatives and escapes:
    [?] is any char and [*] any text. *)
Fixpoint wildcard (p s : str) : bool :=
  match p with
  | [] => bool_decide (s = [])
  | c :: p' =>
      if (c =? chr "*")%N then
        (fix star (s : str) : bool := wildcard p' s || match s with [] => false | _ :: s' => star s' end) s
      else match s with
           | [] => false
           | d :: s' => ((c =? chr "?")%N || (c =? d)%N) && wildcard p' s'
           end
  end.

Lemma wildcard_star p s : wildcard (chr "*" :: p) s = true ↔ ∃ s1 s2, s = s1 ++ s2 ∧ wildcard p s2 = true.
Proof.
  induction s as [|d s IH].
  - change (wildcard p [] || false = true ↔ ∃ s1 s2, [] = s1 ++ s2 ∧ wildcard p s2 = true). rewrite orb_false_r.
    split; [intros; by exists [], []|]. by intros (s1 & s2 & [-> ->]%eq_sym%app_eq_nil & ?).
  - change (wildcard (chr "*" :: p) (d :: s)) with (wildcard p (d :: s) || wildcard (chr "*" :: p) s).
    rewrite orb_true_iff, IH. split.
    + intros [?|(s1 & s2 & -> & ?)]; [by exists [], (d :: s)|by exists (d :: s1), s2].
    + intros ([|e s1] & s2 & Hs & ?); [left; by rewrite Hs|right]. simplify_eq/=. eauto.
Qed.
Lemma wildcard_cons c p s : c ≠ chr "*" →
  wildcard (c :: p) s = true ↔ ∃ d s', s = d :: s' ∧ (c = chr "?" ∨ c = d) ∧ wildcard p s' = true.
Proof.
  intros Hc. cbn [wildcard]. rewrite (proj2 (N.eqb_neq _ _)) by done. destruct s as [|d s]; [naive_solver|].
  rewrite andb_true_iff, orb_true_iff, !N.eqb_eq. naive_solver.
Qed.

(** A concatenation of patterns matches the concatenations of what they match. *)
Lemma wildcard_app p q s :
  wildcard (p ++ q) s = true ↔ ∃ s1 s2, s = s1 ++ s2 ∧ wildcard p s1 = true ∧ wildcard q s2 = true.
Proof.
  revert s. induction p as [|c p IH]; intros s; cbn [app].
  { cbn [wildcard]. split; [intros; by exists [], s|]. intros (s1 & s2 & -> & ->%bool_decide_eq_true & ?). done. }
  destruct (decide (c = chr "*")) as [->|Hc].
  - rewrite wildcard_star. setoid_rewrite IH. setoid_rewrite wildcard_star. split.
    + intros (s1 & ? & -> & s2 & s3 & -> & ? & ?). exists (s1 ++ s2), s3. rewrite <- app_assoc. eauto 10.
    + intros (? & s3 & -> & (s1 & s2 & -> & ?) & ?). exists s1, (s2 ++ s3). rewrite <- app_assoc. eauto 10.
  - rewrite wildcard_cons by done. setoid_rewrite IH. setoid_rewrite wildcard_cons; [|done]. split.
    + intros (d & ? & -> & ? & s1 & s2 & -> & ? & ?). exists (d :: s1), s2. eauto 10.
    + intros (? & s2 & -> & (d & s1 & -> & ? & ?) & ?). exists d, (s1 ++ s2). eauto 10.
Qed.
(** Text without wildcards matches itself. *)
Definition is_wild (c : char) : bool := (c =? chr "*")%N || (c =? chr "?")%N.
Lemma wildcard_literal p s : Forall (λ c, is_wild c = false) p → wildcard p s = true ↔ s = p.
Proof.
  intros Hp. revert s. induction Hp as [|c p Hc Hp IH]; intros s; [cbn; apply bool_decide_eq_true|].
  apply orb_false_iff in Hc as [Hs%N.eqb_neq Hq%N.eqb_neq]. rewrite wildcard_cons by done. setoid_rewrite IH. naive_solver.
Qed.

(** The glob of the subdomains of a domain. *)
Lemma wildcard_sub d s :
  wildcard (lit "?*." ++ d) s = true ↔ ∃ s1 s2, s1 ≠ [] ∧ s = s1 ++ chr "." :: s2 ∧ wildcard d s2 = true.
Proof.
  change (lit "?*." ++ d) with (chr "?" :: chr "*" :: chr "." :: d).
  rewrite wildcard_cons by done. setoid_rewrite wildcard_star. setoid_rewrite wildcard_cons; [|done]. split.
  - intros (e & ? & -> & _ & s1 & ? & -> & ? & s2 & -> & [?|<-] & ?); [done|]. by exists (e :: s1), s2.
  - intros (s1 & s2 & Hne & -> & ?). destruct s1 as [|e s1]; [done|]. exists e, (s1 ++ chr "." :: s2).
    split_and!; [done|by left|]. exists s1, (chr "." :: s2). eauto 10.
Qed.

(** ** The crates *)

Definition is_lower (c : char) : bool := ((97 <=? c) && (c <=? 122))%N.
Definition is_upper (c : char) : bool := ((65 <=? c) && (c <=? 90))%N.
(** The chars of a host as [Host::parse] leaves it, of a domain name as it is
    written, and of a glob. *)
Definition host_char (c : char) : bool :=
  is_lower c || is_ascii_digit c || bool_decide (c ∈ [chr "-"; chr "_"; chr "."; chr ":"; chr "%"]).
Definition name_char (c : char) : bool :=
  is_lower c || is_upper c || is_ascii_digit c || bool_decide (c ∈ [chr "-"; chr "_"; chr "."]).
Definition glob_char (c : char) : bool :=
  is_lower c || is_ascii_digit c || bool_decide (c ∈ [chr "-"; chr "_"; chr "."]) || is_wild c.
Definition host_text (h : str) : bool := forallb host_char h.
(** [**] has a meaning of its own and is left out. *)
Definition simple_glob (p : str) : bool := forallb glob_char p && negb (contains (lit "**") p).

(** A domain name: labels that are not empty, the last of them starting with a
    letter, none of them an encoded international label. *)
Definition label_ok (l : str) : bool :=
  negb (str_eqb l []) && negb (starts_with (lit "xn--") (to_ascii_lowercase l)) &&
  forallb (λ c, name_char c && negb (c =? chr ".")%N) l.
Definition domain_name (d : str) : bool :=
  forallb label_ok (split (chr ".") d) &&
  match last (split (chr ".") d) with Some (c :: _) => is_lower c || is_upper c | _ => false end.

(** A set matches what one of its globs matches; a simple glob compiles and
    means what the documentation says. *)
Class GlobLaws `(GC : GlobCrate Glob GlobSet) : Prop := {
  set_matches : ∀ gs set h, globset_build gs = Ok set → is_match set h = existsb (λ g, glob_is_match g h) gs;
  simple_compiles : ∀ p, simple_glob p = true → ∃ g, glob_build p = Ok g;
  simple_matches : ∀ p g h, simple_glob p = true → glob_build p = Ok g → host_text h = true →
    glob_is_match g h = wildcard p h;
}.
(** [url::Host::parse] lowercases a domain name. *)
Class UrlHostLaws (UH : UrlHost) : Prop :=
  parse_domain_name : ∀ d, domain_name d = true → url_host_parse d = Some (to_ascii_lowercase d).

(** ** Compiled sets *)

Definition pattern_matches (pattern h : str) : bool :=
  existsb (λ c, wildcard c h) (expand_domain_pattern (normalize_pattern pattern)).
Definition simple_pattern (pattern : str) : bool := forallb simple_glob (expand_domain_pattern (normalize_pattern pattern)).

Section Sets.
Context `{GL : GlobLaws Glob GlobSet}.

(** The globs added so far match what the candidates seen so far match. *)
Definition globs_for (h : str) (seen : list str) (globs : list Glob) : Prop :=
  existsb (λ g, glob_is_match g h) globs = existsb (λ c, wildcard c h) seen.
Lemma add_candidates_ok h cs seen globs seen' globs' :
  host_text h = true → forallb simple_glob cs = true → globs_for h seen globs →
  add_candidates cs seen globs = Ok (seen', globs') →
  globs_for h seen' globs' ∧ existsb (λ c, wildcard c h) seen' = existsb (λ c, wildcard c h) (cs ++ seen).
Proof using Type*.
  intros Hh. revert seen globs. induction cs as [|c cs IH]; intros seen globs; cbn [forallb add_candidates app].
  { intros _ ? [= -> ->]. done. }
  intros [Hc Hcs]%andb_true_iff Hg Hadd. cbn [existsb]. case_bool_decide as Hin.
  - apply IH in Hadd as [? ->]; [|done..]. split; [done|].
    destruct (wildcard c h) eqn:E; [|done]. rewrite existsb_app, (existsb_elem _ c seen) by done. apply orb_true_r.
  - destruct (simple_compiles c Hc) as [g Hb]. rewrite Hb in Hadd. apply IH in Hadd as [? ->]; [|done|].
    + split; [done|]. rewrite !existsb_app. cbn [existsb]. by destruct (wildcard c h), (existsb _ cs).
    + unfold globs_for in *. rewrite existsb_app, Hg. cbn [existsb].
      rewrite (simple_matches c g h), orb_false_r by done. apply orb_comm.
Qed.
Lemma add_patterns_ok h gw ps seen globs globs' :
  host_text h = true → forallb simple_pattern ps = true → globs_for h seen globs →
  add_patterns gw ps seen globs = Ok globs' →
  existsb (λ g, glob_is_match g h) globs' = existsb (λ p, pattern_matches p h) ps || existsb (λ c, wildcard c h) seen.
Proof using Type*.
  intros Hh. revert seen globs. induction ps as [|p ps IH]; intros seen globs; cbn [forallb add_patterns].
  { intros _ Hg [= <-]. done. }
  intros [Hp Hps]%andb_true_iff Hg Hadd. destruct (_ && _); [done|].
  destruct (add_candidates _ _ _) as [[seen1 globs1]|] eqn:E; [|done].
  eapply add_candidates_ok in E as [Hg1 Hs1]; [|done..].
  apply IH in Hadd; [|done..]. rewrite Hadd, Hs1. cbn [existsb]. unfold pattern_matches at 2.
  rewrite existsb_app. by rewrite orb_assoc, (orb_comm (existsb _ ps)).
Qed.

(** The compiled set of simple patterns matches what one of them matches. *)
Lemma compiled_set_matches h gw ps set :
  host_text h = true → forallb simple_pattern ps = true → compile_globset_with_policy ps gw = Ok set →
  is_match set h = existsb (λ p, pattern_matches p h) ps.
Proof using Type*.
  unfold compile_globset_with_policy. intros Hh Hps Hc. destruct (add_patterns _ _ _ _) as [globs|] eqn:E; [|done].
  destruct (globset_build globs) eqn:Eb; simplify_eq/=. rewrite (set_matches globs set) by done.
  eapply add_patterns_ok in E; [|done..]. by rewrite E, orb_false_r.
Qed.
(** A simple pattern is matched whatever else is in the list. *)
Definition globs_cover (h : str) (seen : list str) (globs : list Glob) : Prop :=
  ∀ c, c ∈ seen → simple_glob c = true → wildcard c h = true → existsb (λ g, glob_is_match g h) globs = true.
Lemma add_candidates_cover h cs seen globs seen' globs' :
  host_text h = true → globs_cover h seen globs → add_candidates cs seen globs = Ok (seen', globs') →
  globs_cover h seen' globs' ∧ cs ++ seen ⊆ seen'.
Proof using Type*.
  intros Hh. revert seen globs. induction cs as [|c cs IH]; intros seen globs Hg; cbn [add_candidates].
  { by intros [= -> ->]. }
  case_bool_decide as Hin; [intros Hadd; apply IH in Hadd as [? Hs]; [|done]; set_solver|].
  destruct (glob_build c) as [g|] eqn:Eb; [|done]. intros Hadd. apply IH in Hadd as [? Hs]; [set_solver|].
  intros c' Hc' Hsim Hw. rewrite existsb_app. apply orb_true_iff. apply elem_of_cons in Hc' as [->|Hc'].
  - right. cbn. by rewrite (simple_matches c g h), Hw.
  - left. by eapply Hg.
Qed.
Lemma add_patterns_cover h gw ps seen globs globs' :
  host_text h = true → globs_cover h seen globs → add_patterns gw ps seen globs = Ok globs' →
  ∃ seen', globs_cover h seen' globs' ∧ seen ⊆ seen' ∧ ∀ p, p ∈ ps → expand_domain_pattern (normalize_pattern p) ⊆ seen'.
Proof using Type*.
  intros Hh. revert seen globs. induction ps as [|p ps IH]; intros seen globs Hg; cbn [add_patterns].
  { intros [= <-]. exists seen. split_and!; [done|done|by intros ? ?%elem_of_nil]. }
  destruct (_ && _); [done|]. destruct (add_candidates _ _ _) as [[seen1 globs1]|] eqn:E; [|done].
  eapply (add_candidates_cover h) in E as [Hg1 Hs1]; [|done..]. intros (seen' & ? & ? & Hall)%IH; [|done].
  exists seen'. split_and!; [done|set_solver|]. intros q [->|Hq]%elem_of_cons; [set_solver|auto].
Qed.
Lemma compiled_set_includes h gw ps p set :
  host_text h = true → p ∈ ps → simple_pattern p = true → pattern_matches p h = true →
  compile_globset_with_policy ps gw = Ok set → is_match set h = true.
Proof using Type*.
  unfold compile_globset_with_policy. intros Hh Hin Hp (c & Hc & Hw)%existsb_true_elem H.
  destruct (add_patterns _ _ _ _) as [globs|] eqn:E; [|done].
  destruct (globset_build globs) eqn:Eb; simplify_eq/=. rewrite (set_matches globs set) by done.
  apply (add_patterns_cover h) in E as (seen & Hg & _ & Hs); [|done|by intros ? ?%elem_of_nil].
  apply (Hg c); [by apply (Hs p)| |done]. unfold simple_pattern in Hp. rewrite forallb_Forall, Forall_forall in Hp. by apply Hp.
Qed.
End Sets.

(** ** Ordinary patterns *)

(** The three forms of a pattern, and the text in front of the domain. *)
Inductive Form : Type := FExact | FSubdomains | FApex.
Definition prefix_text (f : Form) : str := match f with FExact => [] | FSubdomains => lit "*." | FApex => lit "**." end.
Definition build (f : Form) : str → DomainPattern :=
  match f with FExact => Exact | FSubdomains => SubdomainsOnly | FApex => ApexAndSubdomains end.
(** A domain name, or text with wildcards of the same chars. *)
Definition body_char (c : char) : bool := name_char c || is_wild c.
Definition body_ok (f : Form) (d : str) : bool :=
  forallb body_char d && negb (contains (lit "**") d) && negb (str_eqb d []) && negb (bool_decide (last d = Some (chr "."))) &&
  negb (match f with FExact => starts_with (lit "*.") d | _ => false end) && (domain_name d || existsb is_wild d).

Lemma to_lower_other x c : is_lower x = false → char_to_ascii_lowercase c = x ↔ c = x ∧ is_upper c = false.
Proof.
  unfold is_lower, is_upper, char_to_ascii_lowercase. intros Hx. destruct ((65 <=? c) && (c <=? 90))%N eqn:E.
  - split; [|naive_solver]. intros <-. exfalso.
    apply andb_true_iff in E as [?%N.leb_le ?%N.leb_le]. apply andb_false_iff in Hx as [?%N.leb_gt|?%N.leb_gt]; lia.
  - naive_solver.
Qed.
Lemma starts_with_lower p s : Forall (λ x, is_lower x = false ∧ is_upper x = false) p →
  starts_with p (to_ascii_lowercase s) = starts_with p s.
Proof.
  intros Hp. unfold starts_with. enough (strip_prefix p (to_ascii_lowercase s) = to_ascii_lowercase <$> strip_prefix p s) as ->
    by (by destruct (strip_prefix p s)).
  revert s. induction Hp as [|x p [Hx Hu] Hp IH]; intros [|c s]; try done. cbn.
  assert ((x =? char_to_ascii_lowercase c) = (x =? c))%N as ->.
  { apply eq_iff_eq_true. rewrite !N.eqb_eq, !(eq_comm x), to_lower_other by done. naive_solver. }
  destruct (x =? c)%N; [apply IH|done].
Qed.
Lemma contains_lower p s : Forall (λ x, is_lower x = false ∧ is_upper x = false) p →
  contains p (to_ascii_lowercase s) = contains p s.
Proof.
  intros Hp. unfold contains. enough (find p (to_ascii_lowercase s) = find p s) as -> by done.
  induction s as [|c s IH]; [done|]. unfold to_ascii_lowercase in *. rewrite fmap_cons. cbn [find].
  change (char_to_ascii_lowercase c :: _) with (to_ascii_lowercase (c :: s)). rewrite starts_with_lower by done.
  destruct (starts_with p (c :: s)); [done|]. by rewrite IH.
Qed.
Lemma find_not_elem c p s : c ∉ s → find (c :: p) s = None.
Proof.
  induction s as [|d s IH]; [done|]. rewrite not_elem_of_cons. intros [Hd Hs]. cbn.
  unfold starts_with. cbn. rewrite (proj2 (N.eqb_neq c d)) by done. by rewrite IH.
Qed.
Lemma trim_no_ws s : Forall (λ c, is_whitespace c = false) s → trim s = s.
Proof.
  intros Hs. destruct s as [|c s] using rev_ind; [done|]. clear IHs.
  assert (∃ d t, s ++ [c] = d :: t) as (d & t & Hd) by (destruct s; simpl; eauto).
  apply (trim_id _ d c); [by rewrite Hd| |apply last_snoc|].
  - rewrite Hd in Hs. by inversion_clear Hs.
  - rewrite Forall_app, Forall_singleton in Hs. naive_solver.
Qed.
(** Facts on chars are checked on the ASCII chars. *)
Lemma ascii_forall (P : char → bool) : forallb P (N.of_nat <$> seq 0 128) = true → ∀ c, (c < 128)%N → P c = true.
Proof.
  intros Hall c Hc. rewrite forallb_forall in Hall. apply Hall. rewrite <- list_elem_of_In.
  apply list_elem_of_fmap. exists (N.to_nat c). rewrite N2Nat.id. split; [done|]. apply elem_of_seq. lia.
Qed.
Lemma body_char_ascii c : body_char c = true → (c < 128)%N.
Proof.
  unfold body_char, name_char, is_wild, is_lower, is_upper, is_ascii_digit.
  rewrite !orb_true_iff, !andb_true_iff, !N.leb_le, !N.eqb_eq, bool_decide_eq_true. unfold chr. cbn. set_unfold. lia.
Qed.
Lemma body_char_props c : body_char c = true →
  is_whitespace c = false ∧ c ≠ chr ":" ∧ c ≠ chr "[" ∧ c ≠ chr "%" ∧ glob_char (char_to_ascii_lowercase c) = true.
Proof.
  intros Hc. pose proof (ascii_forall (λ c, implb (body_char c)
    (negb (is_whitespace c) && negb (c =? chr ":") && negb (c =? chr "[") && negb (c =? chr "%") &&
     glob_char (char_to_ascii_lowercase c)))%N eq_refl c (body_char_ascii c Hc)) as H. cbv beta in H. rewrite Hc in H. cbn [implb] in H.
  rewrite !andb_true_iff, !negb_true_iff, !N.eqb_neq in H. tauto.
Qed.
Lemma body_char_lower c : body_char c = true → body_char (char_to_ascii_lowercase c) = true.
Proof.
  intros Hc. pose proof (ascii_forall (λ c, implb (body_char c) (body_char (char_to_ascii_lowercase c))) eq_refl c (body_char_ascii c Hc)) as H.
  cbv beta in H. by rewrite Hc in H.
Qed.

Record body (f : Form) (d : str) : Prop := {
  body_chars : Forall (λ c, body_char c = true) d;
  body_no_double : contains (lit "**") d = false;
  body_ne : d ≠ [];
  body_last : last d ≠ Some (chr ".");
  body_exact : f = FExact → starts_with (lit "*.") d = false;
  body_kind : domain_name d = true ∨ existsb is_wild d = true;
}.
Lemma body_ok_spec f d : body_ok f d = true → body f d.
Proof.
  unfold body_ok. rewrite !andb_true_iff, !negb_true_iff, str_eqb_neq, bool_decide_eq_false, orb_true_iff, forallb_Forall.
  intros (((((H1 & H2) & H3) & H4) & H5) & H6). split; try done. by intros ->.
Qed.
Lemma not_in_body c d : Forall (λ c, body_char c = true) d → body_char c = false → c ∉ d.
Proof. intros Hd Hc Hin. eapply Forall_forall in Hd; [|done]. congruence. Qed.
Lemma body_text_trim d : Forall (λ c, body_char c = true) d → trim d = d.
Proof. intros Hd. apply trim_no_ws. eapply Forall_impl; [exact Hd|]. intros c Hc. apply (body_char_props c Hc). Qed.
Lemma starts_with_char_false c d : c ∉ d → starts_with [c] d = false.
Proof. destruct d as [|e d]; [done|]. intros [Hc _]%not_elem_of_cons. unfold starts_with. cbn. by rewrite (proj2 (N.eqb_neq _ _)). Qed.

Lemma lower_last d c : is_lower c = false → is_upper c = false → last d ≠ Some c → last (to_ascii_lowercase d) ≠ Some c.
Proof.
  intros Hl Hu Hd. unfold to_ascii_lowercase. rewrite fmap_last. destruct (last d) as [e|] eqn:E; [|done].
  cbn. intros [= He]. apply to_lower_other in He as [-> _]; done.
Qed.
Lemma trim_end_char_id c d : last d ≠ Some c → trim_end_char c d = d.
Proof.
  intros Hd. unfold trim_end_char. destruct (last d) as [e|] eqn:E; [|by apply last_None in E as ->].
  apply (trim_end_matches_id _ d e E). apply N.eqb_neq. congruence.
Qed.
Lemma lower_idem d : to_ascii_lowercase (to_ascii_lowercase d) = to_ascii_lowercase d.
Proof.
  unfold to_ascii_lowercase. rewrite <- list_fmap_compose. apply list_fmap_ext. intros _ c _. unfold compose, char_to_ascii_lowercase.
  destruct ((65 <=? c) && (c <=? 90))%N eqn:E; [|by rewrite E].
  apply andb_true_iff in E as [?%N.leb_le ?%N.leb_le]. by rewrite (proj2 (andb_false_iff _ _)) by (right; apply N.leb_gt; lia).
Qed.

Lemma normalize_host_text d :
  Forall (λ c, body_char c = true) d → normalize_host d = trim_end_char (chr ".") (to_ascii_lowercase d).
Proof.
  intros Hd. unfold normalize_host. rewrite body_text_trim by done.
  change (lit "[") with [chr "["]. rewrite starts_with_char_false by (by apply not_in_body).
  assert (count_char (chr ":") d = 0) as ->.
  { unfold count_char. induction Hd as [|c d Hc Hd IH]; [done|]. rewrite filter_cons_False; [done|].
    intros ->. by apply body_char_props in Hc as (_ & ? & _). }
  cbn [Nat.eqb]. unfold normalize_dns_host_or_ip_literal.
  unfold normalize_ip_literal. case_bool_decide; [done|]. unfold split_once_str. cbn [find_map].
  assert (chr "%" ∉ trim_end_char (chr ".") (to_ascii_lowercase d)) as Hp.
  { intros Hin. assert (chr "%" ∈ to_ascii_lowercase d) as Hin'.
    { destruct (trim_end_matches_spec (N.eqb (chr ".")) (to_ascii_lowercase d)) as (t & Ht & _). rewrite Ht. set_solver. }
    unfold to_ascii_lowercase in Hin'. apply list_elem_of_fmap in Hin' as (c & Hc & Hcd). symmetry in Hc.
    apply to_lower_other in Hc as [-> _]; [|done]. by apply (not_in_body (chr "%")) in Hcd. }
  change (lit "%25") with (chr "%" :: lit "25"). change (lit "%") with [chr "%"]. by rewrite !find_not_elem.
Qed.
Lemma normalize_host_body d :
  Forall (λ c, body_char c = true) d → last d ≠ Some (chr ".") → normalize_host d = to_ascii_lowercase d.
Proof. intros Hd Hl. rewrite normalize_host_text by done. apply trim_end_char_id. by apply lower_last. Qed.

Lemma strip_prefix_starts p s : starts_with p s = false → strip_prefix p s = None.
Proof. unfold starts_with. by destruct (strip_prefix p s). Qed.
Lemma not_contains_starts p s : contains p s = false → starts_with p s = false.
Proof. unfold contains. destruct s; cbn; destruct (starts_with _ _); done. Qed.
Lemma starts_with_longer p q s : starts_with p s = false → starts_with (p ++ q) s = false.
Proof.
  intros Hp. destruct (starts_with (p ++ q) s) eqn:E; [|done]. apply starts_with_spec in E as [r ->].
  by rewrite <- app_assoc, starts_with_app in Hp.
Qed.

(** The text of an entry of form [f] is taken apart as intended. *)
Lemma strip_forms f d :
  contains (lit "**") d = false → (f = FExact → starts_with (lit "*.") d = false) →
  strip_prefix (lit "**.") (prefix_text f ++ d) = match f with FApex => Some d | _ => None end ∧
  strip_prefix (lit "*.") (prefix_text f ++ d) = match f with FSubdomains => Some d | _ => None end.
Proof.
  intros Hd Hex. destruct f; cbn [prefix_text].
  - split; apply strip_prefix_starts; [|by apply Hex]. apply (starts_with_longer (lit "**") (lit ".")).
    by apply not_contains_starts.
  - by rewrite strip_prefix_app.
  - by rewrite strip_prefix_app.
Qed.
Lemma prefix_trim f d : Forall (λ c, body_char c = true) d → trim (prefix_text f ++ d) = prefix_text f ++ d.
Proof. intros Hd. apply body_text_trim, Forall_app. split; [|done]. by destruct f; repeat constructor. Qed.
Lemma normalize_entry f d : body f d → normalize_pattern (prefix_text f ++ d) = prefix_text f ++ to_ascii_lowercase d.
Proof.
  intros [Hc Hdd Hne Hl Hex _]. unfold normalize_pattern. rewrite prefix_trim by done.
  destruct (str_eqb (prefix_text f ++ d) (lit "*")) eqn:Es.
  - apply str_eqb_eq in Es. destruct f; [|by destruct d..]. cbn in Es. by subst d.
  - destruct (strip_forms f d Hdd Hex) as [-> ->]. destruct f; cbn [prefix_text app]; by rewrite normalize_host_body.
Qed.
Definition candidates (f : Form) (d : str) : list str :=
  match f with FExact => [d] | FSubdomains => [lit "?*." ++ d] | FApex => [d; lit "?*." ++ d] end.
Lemma lower_chars d : Forall (λ c, body_char c = true) d → Forall (λ c, body_char c = true) (to_ascii_lowercase d).
Proof. intros Hd. apply Forall_fmap. eapply Forall_impl; [exact Hd|]. by intros c Hc%body_char_lower. Qed.
Lemma expand_entry f d : body f d → expand_domain_pattern (prefix_text f ++ to_ascii_lowercase d) = candidates f (to_ascii_lowercase d).
Proof.
  intros [Hc Hdd Hne Hl Hex _]. apply lower_chars in Hc.
  rewrite <- (contains_lower _ d) in Hdd by (by repeat constructor). rewrite <- (starts_with_lower _ d) in Hex by (by repeat constructor).
  assert (to_ascii_lowercase d ≠ []) as Hne' by (by destruct d). generalize dependent (to_ascii_lowercase d). intros l Hc Hdd Hex Hn.
  unfold expand_domain_pattern, DomainPattern_parse. rewrite prefix_trim by done.
  rewrite (proj2 (str_eqb_neq (prefix_text f ++ l) [])) by (destruct f; [done|by destruct l..]).
  destruct (strip_forms f l Hdd Hex) as [-> ->]. destruct f; cbn [prefix_text candidates]; [done|..];
    unfold parse_domain; rewrite body_text_trim by done; by rewrite (proj2 (str_eqb_neq l [])).
Qed.
Lemma entry_simple f d : body f d → simple_pattern (prefix_text f ++ d) = true.
Proof.
  intros Hb. unfold simple_pattern. rewrite normalize_entry, expand_entry by done. destruct Hb as [Hc Hdd _ _ _ _].
  assert (simple_glob (to_ascii_lowercase d) = true ∧ simple_glob (lit "?*." ++ to_ascii_lowercase d) = true) as [H1 H2].
  { unfold simple_glob. assert (forallb glob_char (to_ascii_lowercase d) = true) as Hg.
    { apply forallb_Forall, Forall_fmap. eapply Forall_impl; [exact Hc|]. intros c Hb. apply (body_char_props c Hb). }
    rewrite forallb_app, Hg. rewrite <- (contains_lower _ d) in Hdd by (by repeat constructor). rewrite Hdd. split; [done|].
    rewrite andb_true_r. apply negb_true_iff. unfold contains in *.
    change (lit "?*." ++ to_ascii_lowercase d) with (chr "?" :: chr "*" :: chr "." :: to_ascii_lowercase d).
    cbn [find]. by destruct (find (lit "**") _). }
  destruct f; cbn [candidates forallb]; by rewrite ?H1, ?H2.
Qed.
Lemma entry_matches f d h : body f d → pattern_matches (prefix_text f ++ d) h = existsb (λ c, wildcard c h) (candidates f (to_ascii_lowercase d)).
Proof. intros. unfold pattern_matches. by rewrite normalize_entry, expand_entry. Qed.

(** ** Managed patterns *)

(** An ordinary entry of a list: a domain name or a wildcard of the same chars,
    possibly behind [*.] or [**.]; no port, brackets, scope or blanks. *)
Definition ordinary (e : str) : bool :=
  match strip_prefix (lit "**.") e with
  | Some d => body_ok FApex d
  | None => match strip_prefix (lit "*.") e with Some d => body_ok FSubdomains d | None => body_ok FExact e end
  end.
Lemma ordinary_spec e : ordinary e = true → ∃ f d, e = prefix_text f ++ d ∧ body f d.
Proof.
  unfold ordinary. destruct (strip_prefix (lit "**.") e) as [d|] eqn:E1.
  { apply strip_prefix_Some in E1 as ->. intros ?%body_ok_spec. by exists FApex, d. }
  destruct (strip_prefix (lit "*.") e) as [d|] eqn:E2; intros Hb%body_ok_spec; [|by exists FExact, e].
  apply strip_prefix_Some in E2 as ->. by exists FSubdomains, d.
Qed.
(** A host that a request can name. *)
Definition plain_host (h : str) : bool := host_text h && negb (bool_decide (head h = Some (chr "."))).

Lemma wildcard_below c m p h :
  c = p ++ chr "." :: m → head h ≠ Some (chr ".") → wildcard c h = true → wildcard (lit "?*." ++ m) h = true.
Proof.
  intros -> Hh (hp & hm & -> & _ & Hm)%wildcard_app. apply wildcard_cons in Hm as (e & hm' & -> & [?|<-] & Hm); [done| |done].
  apply wildcard_sub. exists hp, hm'. split_and!; [by intros ->|done|done].
Qed.
Lemma wildcard_sub_below c m h :
  c = m ∨ (∃ p, c = p ++ chr "." :: m) → wildcard (lit "?*." ++ c) h = true → wildcard (lit "?*." ++ m) h = true.
Proof.
  intros [->|[p ->]]; [done|]. intros (s1 & s2 & Hne & -> & (hp & hm & -> & _ & Hm)%wildcard_app)%wildcard_sub.
  apply wildcard_cons in Hm as (e & hm' & -> & [?|<-] & Hm); [done| |done].
  apply wildcard_sub. exists (s1 ++ chr "." :: hp), hm'. rewrite <- app_assoc. split_and!; [by destruct s1|done|done].
Qed.
Lemma subdomain_or_equal_spec c m : is_subdomain_or_equal c m = true →
  normalize_domain c = normalize_domain m ∨ ∃ p, normalize_domain c = p ++ chr "." :: normalize_domain m.
Proof.
  unfold is_subdomain_or_equal. destruct (str_eqb _ _) eqn:E; [left; by apply str_eqb_eq|].
  intros [p Hp]%ends_with_spec. right. by exists p.
Qed.
Lemma strict_subdomain_spec c m : is_strict_subdomain c m = true → ∃ p, normalize_domain c = p ++ chr "." :: normalize_domain m.
Proof. unfold is_strict_subdomain. intros [_ [p Hp]%ends_with_spec]%andb_true_iff. by exists p. Qed.

(** An allowed pattern matches no more than the pattern that allows it. *)
Lemma allows_covers fm fc m c h :
  allows (build fm m) (build fc c) = true → head h ≠ Some (chr ".") →
  existsb (λ g, wildcard g h) (candidates fc (normalize_domain c)) = true →
  existsb (λ g, wildcard g h) (candidates fm (normalize_domain m)) = true.
Proof.
  intros Ha Hh Hc.
  assert (fm = FExact ∧ fc = FExact ∧ normalize_domain c = normalize_domain m ∨
          fm = FSubdomains ∧ (∃ p, normalize_domain c = p ++ chr "." :: normalize_domain m) ∨
          fm = FSubdomains ∧ fc = FSubdomains ∧ normalize_domain c = normalize_domain m ∨
          fm = FApex ∧ (normalize_domain c = normalize_domain m ∨ ∃ p, normalize_domain c = p ++ chr "." :: normalize_domain m))
    as [(-> & -> & Heq)|[(-> & p & Hp)|[(-> & -> & Heq)|[-> Hs]]]].
  { destruct fm, fc; cbn in Ha; try done.
    1: left; by apply str_eqb_eq in Ha.
    all: try (right; left; split; [done|]; by apply strict_subdomain_spec).
    all: apply subdomain_or_equal_spec in Ha as [?|?]; naive_solver. }
  all: cbn [candidates existsb] in *.
  - by rewrite <- Heq.
  - rewrite orb_false_r. destruct fc; cbn [candidates existsb] in Hc; rewrite ?orb_false_r, ?orb_true_iff in Hc.
    + by eapply wildcard_below.
    + eapply wildcard_sub_below; eauto.
    + destruct Hc; [by eapply wildcard_below|eapply wildcard_sub_below; eauto].
  - by rewrite <- Heq.
  - rewrite orb_false_r, orb_true_iff. destruct fc; cbn [candidates existsb] in Hc; rewrite ?orb_false_r, ?orb_true_iff in Hc.
    + destruct Hs as [<-|[p Hp]]; [by left|right; by eapply wildcard_below].
    + right. by eapply wildcard_sub_below.
    + destruct Hc; [|right; by eapply wildcard_sub_below].
      destruct Hs as [<-|[p Hp]]; [by left|right; by eapply wildcard_below].
Qed.

Section Managed.
Context {UH : UrlHost} {UL : UrlHostLaws UH}.

Lemma constraints_entry f d : body f d →
  ∃ x, parse_for_constraints (prefix_text f ++ d) = build f x ∧ normalize_domain x = to_ascii_lowercase d.
Proof using Type*.
  intros [Hc Hdd Hne Hl Hex Hk]. unfold parse_for_constraints. rewrite prefix_trim by done.
  rewrite (proj2 (str_eqb_neq (prefix_text f ++ d) [])) by (destruct f; [done|by destruct d..]).
  destruct (strip_forms f d Hdd Hex) as [-> ->].
  enough (normalize_domain (parse_domain_for_constraints d) = to_ascii_lowercase d) by (destruct f; eexists; split; done).
  unfold parse_domain_for_constraints. rewrite body_text_trim, trim_end_char_id by done.
  rewrite (proj2 (str_eqb_neq d [])) by done. change (lit "[") with [chr "["].
  rewrite starts_with_char_false by (by apply not_in_body). cbn [andb].
  destruct (contains_char (chr "*") d || contains_char (chr "?") d || contains_char (chr "%") d) eqn:Hw.
  { unfold normalize_domain. by rewrite trim_end_char_id. }
  destruct Hk as [Hk|(c & Hin & Hc')%existsb_true_elem].
  - rewrite parse_domain_name by done. cbn [from_option id]. unfold normalize_domain.
    by rewrite trim_end_char_id, lower_idem by (by apply lower_last).
  - unfold contains_char in Hw. apply orb_false_iff in Hw as [[H1 H2]%orb_false_iff _].
    unfold is_wild in Hc'. apply orb_true_iff in Hc' as [Hc'|Hc']; rewrite N.eqb_sym in Hc'.
    + by rewrite (existsb_elem _ c) in H1.
    + by rewrite (existsb_elem _ c) in H2.
Qed.

(** Every pattern allowed by a managed one matches no more hosts than it. *)
Lemma entry_allows_covers m c h :
  ordinary m = true → ordinary c = true → head h ≠ Some (chr ".") →
  allows (parse_for_constraints m) (parse_for_constraints c) = true → pattern_matches c h = true → pattern_matches m h = true.
Proof using Type*.
  intros (fm & dm & -> & Hm)%ordinary_spec (fc & dc & -> & Hc)%ordinary_spec Hh Ha. rewrite !entry_matches by done.
  destruct (constraints_entry fm dm Hm) as (xm & Hpm & <-). destruct (constraints_entry fc dc Hc) as (xc & Hpc & <-).
  rewrite Hpm, Hpc in Ha. by apply allows_covers.
Qed.

Context `{GL : GlobLaws Glob GlobSet}.
(** The hosts of an accepted list are hosts of the managed list. *)
Lemma managed_patterns_cover managed candidates set_m set_c gw h :
  forallb ordinary managed = true → forallb ordinary candidates = true →
  forallb (λ c, existsb (λ m, allows (parse_for_constraints m) (parse_for_constraints c)) managed) candidates = true →
  compile_globset_with_policy managed gw = Ok set_m → compile_globset_with_policy candidates gw = Ok set_c →
  plain_host h = true → is_match set_c h = true → is_match set_m h = true.
Proof using Type*.
  intros Hm Hc Ha Hsm Hsc [Hh Hd%negb_true_iff%bool_decide_eq_false]%andb_true_iff.
  assert (∀ l, forallb ordinary l = true → forallb simple_pattern l = true) as Hs.
  { intros l. rewrite !forallb_Forall. intros Hl. eapply Forall_impl; [exact Hl|]. intros e (f & d & -> & Hb)%ordinary_spec. by apply entry_simple. }
  rewrite (compiled_set_matches h gw candidates set_c), (compiled_set_matches h gw managed set_m) by auto.
  rewrite forallb_Forall, Forall_forall in Hm, Hc, Ha. intros (c & Hin & Hcm)%existsb_true_elem.
  destruct (existsb_true_elem _ _ (Ha c Hin)) as (m & Hmin & Hall).
  apply (existsb_elem _ m); [done|]. eapply (entry_allows_covers m c); eauto.
Qed.
End Managed.

(** ** Entries that stand for one host *)

Lemma trim_idem s : trim (trim s) = trim s.
Proof.
  destruct (trim s) as [|c r] eqn:E; [done|]. unfold trim, trim_end in E.
  destruct (trim_start_spec s) as (t1 & _ & _ & Hh). destruct (trim_end_matches_spec is_whitespace (trim_start s)) as (t2 & Ht & _ & Hl).
  rewrite E in Ht, Hl. destruct (last (c :: r)) as [d|] eqn:El; [|by apply last_None in El].
  apply (trim_id _ c d); [done|apply Hh; by rewrite Ht|done|by apply Hl].
Qed.
Lemma parse_ip_star s : parse_ip (chr "*" :: s) = None.
Proof. reflexivity. Qed.
Lemma normalize_ip_literal_star u : normalize_ip_literal (chr "*" :: u) = None.
Proof.
  unfold normalize_ip_literal. rewrite parse_ip_star, bool_decide_false by (by intros [? ?]).
  assert (∀ p, (match split_once_str p (chr "*" :: u) with
    | Some (ip, scope) => if bool_decide (is_Some (parse_ip ip)) then Some (ip ++ lit "%" ++ scope) else None
    | None => None end) = None) as Hs.
  { intros p. unfold split_once_str. destruct (find p _) as [[|i]|]; [done| |done]. cbn [take].
    by rewrite parse_ip_star, bool_decide_false by (by intros [? ?]). }
  cbn [find_map]. by rewrite !Hs.
Qed.
(** A wildcard at the front survives. *)
Lemma normalize_host_star e : head (trim e) = Some (chr "*") → head (normalize_host e) = Some (chr "*").
Proof.
  unfold normalize_host. destruct (trim e) as [|c t] eqn:E; [done|]. intros [= ->]. cbn [starts_with strip_prefix].
  assert (∀ w, head (normalize_dns_host_or_ip_literal (chr "*" :: w)) = Some (chr "*")) as Hn.
  { intros w. unfold normalize_dns_host_or_ip_literal.
    assert (∃ u, trim_end_char (chr ".") (to_ascii_lowercase (chr "*" :: w)) = chr "*" :: u) as [u ->].
    { unfold trim_end_char, to_ascii_lowercase. rewrite fmap_cons. cbn. destruct (trim_end_matches _ _); by eexists. }
    by rewrite normalize_ip_literal_star. }
  change (starts_with (lit "[") (chr "*" :: t)) with false. cbn iota.
  destruct (_ =? 1)%nat; [|apply Hn]. cbn [split]. change (chr "*" =? chr ":")%N with false. cbn iota.
  destruct (split (chr ":") t); apply Hn.
Qed.
Lemma normalize_pattern_host e h :
  normalize_host e = h → head h ≠ Some (chr "*") → normalize_pattern e = h.
Proof.
  intros He Hh. assert (head (trim e) ≠ Some (chr "*")) as Ht by (intros ?%normalize_host_star; congruence).
  unfold normalize_pattern. destruct (str_eqb (trim e) (lit "*")) eqn:E1; [apply str_eqb_eq in E1; by rewrite E1 in Ht|].
  destruct (strip_prefix (lit "**.") (trim e)) eqn:E2; [apply strip_prefix_Some in E2; by rewrite E2 in Ht|].
  destruct (strip_prefix (lit "*.") (trim e)) eqn:E3; [apply strip_prefix_Some in E3; by rewrite E3 in Ht|].
  rewrite <- He. unfold normalize_host. by rewrite trim_idem.
Qed.
Lemma host_text_props h : host_text h = true → Forall (λ c, is_wild c = false) h ∧ to_ascii_lowercase h = h.
Proof.
  unfold host_text. rewrite forallb_Forall. intros Hh.
  assert (∀ c, host_char c = true → is_wild c = false ∧ char_to_ascii_lowercase c = c) as Hc.
  { intros c Hc. assert (c < 128)%N as Hlt.
    { unfold host_char, is_lower, is_ascii_digit in Hc. rewrite !orb_true_iff, !andb_true_iff, !N.leb_le, bool_decide_eq_true in Hc.
      unfold chr in Hc. cbn in Hc. set_unfold. lia. }
    pose proof (ascii_forall (λ c, implb (host_char c) (negb (is_wild c) && (char_to_ascii_lowercase c =? c)%N)) eq_refl c Hlt) as H.
    cbv beta in H. rewrite Hc in H. cbn [implb] in H. by apply andb_true_iff in H as [?%negb_true_iff ?%N.eqb_eq]. }
  split; [eapply Forall_impl; [exact Hh|]; intros c ?; by apply Hc|].
  unfold to_ascii_lowercase. induction Hh as [|c h Hch _ IH]; [done|]. rewrite fmap_cons, IH. f_equal. by apply Hc.
Qed.
(** An ordinary host is matched by every entry that is normalised to it. *)
Lemma host_entry_matches e h :
  ordinary h = true → host_text h = true → normalize_host e = h → simple_pattern e = true ∧ pattern_matches e h = true.
Proof.
  intros Ho Hh He. destruct (host_text_props h Hh) as [Hw Hl].
  assert (body FExact h) as Hb.
  { destruct (ordinary_spec h Ho) as (f & d & -> & Hb). destruct f; [done|..]; cbn in Hw; by inversion_clear Hw. }
  assert (normalize_pattern e = prefix_text FExact ++ to_ascii_lowercase h) as Hn.
  { cbn. rewrite Hl. apply normalize_pattern_host; [done|]. destruct h as [|c h]; [done|]. intros [= ->]. by inversion_clear Hw. }
  pose proof (entry_simple FExact h Hb) as Hs. pose proof (entry_matches FExact h h Hb) as Hm.
  unfold simple_pattern, pattern_matches in *. rewrite normalize_entry in Hs, Hm by done. rewrite Hn. split; [done|].
  rewrite Hm. cbn [candidates existsb]. rewrite Hl, orb_false_r. by apply wildcard_literal.
Qed.

(** ** Crates that obey the laws *)

Module MiniCrates.
#[export] Instance mini_glob : GlobCrate str (list str) := {
  glob_build p := if simple_glob p then Ok p else Err (lit "not a simple glob");
  globset_build gs := Ok gs;
  is_match set h := existsb (λ g, wildcard g h) set;
  glob_is_match g h := wildcard g h;
}.
#[export] Instance mini_glob_laws : GlobLaws mini_glob.
Proof.
  split.
  - by intros gs set h [= <-].
  - intros p Hp. exists p. cbn. by rewrite Hp.
  - intros p g h Hp. cbn. rewrite Hp. by intros [= <-].
Qed.
#[export] Instance mini_url_host : UrlHost := λ d, if domain_name d then Some (to_ascii_lowercase d) else None.
#[export] Instance mini_url_host_laws : UrlHostLaws mini_url_host.
Proof. intros d Hd. unfold url_host_parse, mini_url_host. by rewrite Hd. Qed.
End MiniCrates.
