(* ===== verification/NetConfig.v ===== *)
(** * Configuration of the network proxy ([network-proxy/src/config.rs])

    The domain permissions with their precedence, the unix sockets, the
    addresses the proxy listens on, and the configuration of the hooks that
    inspect requests ([mitm_hook.rs]). *)
From stdpp Require Import strings.
From S2P Require Import Prelude RustStr NetAddr NetDomain.

(** ** Data *)

(** [None < Allow < Deny]. *)
Inductive NetworkDomainPermission : Type := NoPermission | Allow | Deny.
#[global] Instance NetworkDomainPermission_eq_dec : EqDecision NetworkDomainPermission.
Proof. solve_decision. Defined.
Definition permission_rank (p : NetworkDomainPermission) : nat :=
  match p with NoPermission => 0 | Allow => 1 | Deny => 2 end.

Record NetworkDomainPermissionEntry : Type := mkPerm { pattern : str; permission : NetworkDomainPermission }.
#[global] Instance NetworkDomainPermissionEntry_eq_dec : EqDecision NetworkDomainPermissionEntry.
Proof. solve_decision. Defined.
Definition NetworkDomainPermissions : Type := list NetworkDomainPermissionEntry.
#[export] Typeclasses Transparent NetworkDomainPermissions.

Inductive NetworkUnixSocketPermission : Type := SockAllow | SockDeny.
#[global] Instance NetworkUnixSocketPermission_eq_dec : EqDecision NetworkUnixSocketPermission.
Proof. solve_decision. Defined.
(** A [BTreeMap]: an association list ordered by its keys. *)
Definition NetworkUnixSocketPermissions : Type := list (str * NetworkUnixSocketPermission).
#[export] Typeclasses Transparent NetworkUnixSocketPermissions.

Inductive NetworkMode : Type := Limited | Full.
#[global] Instance NetworkMode_eq_dec : EqDecision NetworkMode.
Proof. solve_decision. Defined.

(** The configuration of a hook; the body is the JSON text of a reserved field. *)
Record MitmHookMatchConfig : Type := mkMatchConfig {
  cfg_methods : list str;
  cfg_path_prefixes : list str;
  cfg_query : list (str * list str);
  cfg_headers : list (str * list str);
  cfg_body : option str;
}.
Record InjectedHeaderConfig : Type := mkInject {
  inject_name : str;
  secret_env_var : option str;
  secret_file : option str;
  inject_prefix : option str;
}.
Record MitmHookActionsConfig : Type := mkActionsConfig {
  cfg_strip_request_headers : list str;
  cfg_inject_request_headers : list InjectedHeaderConfig;
}.
Record MitmHookConfig : Type := mkHookConfig {
  hook_host : str;
  hook_matcher : MitmHookMatchConfig;
  hook_actions : MitmHookActionsConfig;
}.
#[global] Instance MitmHookMatchConfig_eq_dec : EqDecision MitmHookMatchConfig.
Proof. solve_decision. Defined.
#[global] Instance InjectedHeaderConfig_eq_dec : EqDecision InjectedHeaderConfig.
Proof. solve_decision. Defined.
#[global] Instance MitmHookActionsConfig_eq_dec : EqDecision MitmHookActionsConfig.
Proof. solve_decision. Defined.
#[global] Instance MitmHookConfig_eq_dec : EqDecision MitmHookConfig.
Proof. solve_decision. Defined.

Record NetworkProxyConfig : Type := mkConfig {
  enabled : bool;
  proxy_url : str;
  enable_socks5 : bool;
  socks_url : str;
  enable_socks5_udp : bool;
  allow_upstream_proxy : bool;
  dangerously_allow_non_loopback_proxy : bool;
  dangerously_allow_all_unix_sockets : bool;
  mode : NetworkMode;
  domains : option NetworkDomainPermissions;
  unix_sockets : option NetworkUnixSocketPermissions;
  allow_local_binding : bool;
  mitm : bool;
  credential_broker : bool;
  credential_broker_openai_host : option str;
  dangerously_allow_plaintext_credential_injection : bool;
  mitm_hooks : list MitmHookConfig;
}.
#[global] Instance NetworkProxyConfig_eq_dec : EqDecision NetworkProxyConfig.
Proof. solve_decision. Defined.

Definition default_proxy_url : str := lit "http://127.0.0.1:3128".
Definition default_socks_url : str := lit "http://127.0.0.1:8081".
Definition default_config : NetworkProxyConfig := {|
  enabled := false; proxy_url := default_proxy_url; enable_socks5 := true; socks_url := default_socks_url;
  enable_socks5_udp := true; allow_upstream_proxy := true; dangerously_allow_non_loopback_proxy := false;
  dangerously_allow_all_unix_sockets := false; mode := Full; domains := None; unix_sockets := None;
  allow_local_binding := false; mitm := false; credential_broker := false; credential_broker_openai_host := None;
  dangerously_allow_plaintext_credential_injection := false; mitm_hooks := [];
|}.

(** Updates of single fields. *)
Definition set_enabled (b : bool) (c : NetworkProxyConfig) : NetworkProxyConfig :=
  mkConfig b (proxy_url c) (enable_socks5 c) (socks_url c) (enable_socks5_udp c) (allow_upstream_proxy c)
    (dangerously_allow_non_loopback_proxy c) (dangerously_allow_all_unix_sockets c) (mode c) (domains c) (unix_sockets c)
    (allow_local_binding c) (mitm c) (credential_broker c) (credential_broker_openai_host c)
    (dangerously_allow_plaintext_credential_injection c) (mitm_hooks c).
Definition set_mode (m : NetworkMode) (c : NetworkProxyConfig) : NetworkProxyConfig :=
  mkConfig (enabled c) (proxy_url c) (enable_socks5 c) (socks_url c) (enable_socks5_udp c) (allow_upstream_proxy c)
    (dangerously_allow_non_loopback_proxy c) (dangerously_allow_all_unix_sockets c) m (domains c) (unix_sockets c)
    (allow_local_binding c) (mitm c) (credential_broker c) (credential_broker_openai_host c)
    (dangerously_allow_plaintext_credential_injection c) (mitm_hooks c).
Definition set_domains (d : option NetworkDomainPermissions) (c : NetworkProxyConfig) : NetworkProxyConfig :=
  mkConfig (enabled c) (proxy_url c) (enable_socks5 c) (socks_url c) (enable_socks5_udp c) (allow_upstream_proxy c)
    (dangerously_allow_non_loopback_proxy c) (dangerously_allow_all_unix_sockets c) (mode c) d (unix_sockets c)
    (allow_local_binding c) (mitm c) (credential_broker c) (credential_broker_openai_host c)
    (dangerously_allow_plaintext_credential_injection c) (mitm_hooks c).
Definition set_unix_sockets (u : option NetworkUnixSocketPermissions) (c : NetworkProxyConfig) : NetworkProxyConfig :=
  mkConfig (enabled c) (proxy_url c) (enable_socks5 c) (socks_url c) (enable_socks5_udp c) (allow_upstream_proxy c)
    (dangerously_allow_non_loopback_proxy c) (dangerously_allow_all_unix_sockets c) (mode c) (domains c) u
    (allow_local_binding c) (mitm c) (credential_broker c) (credential_broker_openai_host c)
    (dangerously_allow_plaintext_credential_injection c) (mitm_hooks c).
Definition set_mitm (m broker : bool) (c : NetworkProxyConfig) : NetworkProxyConfig :=
  mkConfig (enabled c) (proxy_url c) (enable_socks5 c) (socks_url c) (enable_socks5_udp c) (allow_upstream_proxy c)
    (dangerously_allow_non_loopback_proxy c) (dangerously_allow_all_unix_sockets c) (mode c) (domains c) (unix_sockets c)
    (allow_local_binding c) m broker (credential_broker_openai_host c)
    (dangerously_allow_plaintext_credential_injection c) (mitm_hooks c).
Definition set_credential_broker_enabled (b : bool) (c : NetworkProxyConfig) : NetworkProxyConfig :=
  set_mitm (mitm c || b) b c.

(** [NetworkMode::allows_method]. *)
Definition allows_method (m : NetworkMode) (method : str) : bool :=
  match m with
  | Full => true
  | Limited => str_eqb method (lit "GET") || str_eqb method (lit "HEAD") || str_eqb method (lit "OPTIONS")
  end.

(** ** Domain permissions *)

(** The loop of [effective_entries]: the patterns in order and the strongest
    permission of each. *)
Fixpoint collect_entries (es : NetworkDomainPermissions) (order : list str) (eff : gmap str NetworkDomainPermission) :
    list str * gmap str NetworkDomainPermission :=
  match es with
  | [] => (order, eff)
  | e :: rest =>
      let order := match eff !! pattern e with None => order ++ [pattern e] | Some _ => order end in
      let current := default (permission e) (eff !! pattern e) in
      let current := if (permission_rank current <? permission_rank (permission e))%nat then permission e else current in
      collect_entries rest order (<[pattern e := current]> eff)
  end.
Fixpoint take_entries (order : list str) (eff : gmap str NetworkDomainPermission) : NetworkDomainPermissions :=
  match order with
  | [] => []
  | p :: rest =>
      match eff !! p with
      | Some perm => mkPerm p perm :: take_entries rest (delete p eff)
      | None => take_entries rest eff
      end
  end.
Definition effective_entries (es : NetworkDomainPermissions) : NetworkDomainPermissions :=
  let '(order, eff) := collect_entries es [] ∅ in take_entries order eff.

Definition domain_entries (c : NetworkProxyConfig) (p : NetworkDomainPermission) : option (list str) :=
  match domains c with
  | None => None
  | Some ds =>
      let entries := pattern <$> filter (λ e, permission e = p) (effective_entries ds) in
      match entries with [] => None | _ => Some entries end
  end.
Definition allowed_domains (c : NetworkProxyConfig) : option (list str) := domain_entries c Allow.
Definition denied_domains (c : NetworkProxyConfig) : option (list str) := domain_entries c Deny.

(** [(!v.is_empty()).then_some(v)]. *)
Definition unless_empty {A} (l : list A) : option (list A) := match l with [] => None | _ => Some l end.

Definition upsert_domain_permission (host : str) (p : NetworkDomainPermission) (normalize : str → str)
    (c : NetworkProxyConfig) : NetworkProxyConfig :=
  let ds := default [] (domains c) in
  let normalized_host := normalize host in
  let ds := filter (λ e, normalize (pattern e) ≠ normalized_host) ds ++ [mkPerm host p] in
  set_domains (unless_empty ds) c.

Fixpoint add_missing (entries : list str) (p : NetworkDomainPermission) (ds : NetworkDomainPermissions) : NetworkDomainPermissions :=
  match entries with
  | [] => ds
  | e :: rest =>
      add_missing rest p
        (if existsb (λ x, str_eqb (pattern x) e && bool_decide (permission x = p)) ds then ds else ds ++ [mkPerm e p])
  end.
Definition set_domain_entries (entries : list str) (p : NetworkDomainPermission) (c : NetworkProxyConfig) : NetworkProxyConfig :=
  let ds := filter (λ e, permission e ≠ p) (default [] (domains c)) in
  set_domains (unless_empty (add_missing entries p ds)) c.
Definition set_allowed_domains (entries : list str) (c : NetworkProxyConfig) := set_domain_entries entries Allow c.
Definition set_denied_domains (entries : list str) (c : NetworkProxyConfig) := set_domain_entries entries Deny c.

(** ** Unix sockets *)

Definition allow_unix_sockets (c : NetworkProxyConfig) : list str :=
  match unix_sockets c with
  | None => []
  | Some us => fst <$> filter (λ kv, kv.2 = SockAllow) us
  end.
(** [BTreeMap::insert]. *)
Fixpoint btree_insert {V} (k : str) (v : V) (m : list (str * V)) : list (str * V) :=
  match m with
  | [] => [(k, v)]
  | (k', v') :: m' =>
      match str_cmp k k' with
      | Lt => (k, v) :: m
      | Eq => (k, v) :: m'
      | Gt => (k', v') :: btree_insert k v m'
      end
  end.
Definition set_unix_socket_entries (entries : list str) (p : NetworkUnixSocketPermission) (c : NetworkProxyConfig) : NetworkProxyConfig :=
  let us := filter (λ kv, kv.2 ≠ p) (default [] (unix_sockets c)) in
  set_unix_sockets (unless_empty (foldl (λ m e, btree_insert e p m) us entries)) c.
Definition set_allow_unix_sockets (entries : list str) (c : NetworkProxyConfig) := set_unix_socket_entries entries SockAllow c.

(** Paths of the machine, the [Debug] text of strings and the order in which a
    [HashSet] is iterated. *)
Class NetHost : Type := {
  NetAbs : Type;
  #[global] NetAbs_eq_dec :: EqDecision NetAbs;
  path_is_absolute : str → bool;
  (** [AbsolutePathBuf::from_absolute_path] *)
  net_absolute : str → result anyhow NetAbs;
  debug_str : str → str;
  debug_strs : list str → str;
  hash_order : gset str → list str;
}.

Section Sockets.
Context {NH : NetHost}.

Inductive ValidatedUnixSocketPath : Type := Native (p : NetAbs) | UnixStyleAbsolute (p : str).
Definition UnixStyleAbsolutePath_parse (value : str) : option str :=
  if starts_with (lit "/") value then Some value else None.
Definition ValidatedUnixSocketPath_parse (socket_path : str) : result anyhow ValidatedUnixSocketPath :=
  if path_is_absolute socket_path then
    let? p := with_context (lit "failed to normalize unix socket path " ++ debug_str socket_path) (net_absolute socket_path) in
    Ok (Native p)
  else match UnixStyleAbsolutePath_parse socket_path with
       | Some p => Ok (UnixStyleAbsolute p)
       | None => Err [lit "expected an absolute path, got " ++ debug_str socket_path]
       end.
Fixpoint validate_sockets (index : nat) (paths : list str) : result anyhow unit :=
  match paths with
  | [] => Ok tt
  | p :: rest =>
      let? _ := with_context (lit "invalid network.allow_unix_sockets[" ++ fmt_nat index ++ lit "]")
                  (ValidatedUnixSocketPath_parse p) in
      validate_sockets (S index) rest
  end.
Definition validate_unix_socket_allowlist_paths (c : NetworkProxyConfig) : result anyhow unit :=
  validate_sockets 0 (allow_unix_sockets c).
End Sockets.

(** ** Addresses of the listeners *)

Record SocketAddr : Type := mkAddr { ip : IpAddr; port : N }.
Definition localhost (port : N) : SocketAddr := mkAddr (V4 (octets 127 0 0 1)) port.
Definition clamp_non_loopback (addr : SocketAddr) (allow_non_loopback : bool) : SocketAddr :=
  if is_loopback (ip addr) then addr
  else if allow_non_loopback then addr
  else localhost (port addr).
Definition clamp_bind_addrs (http_addr socks_addr : SocketAddr) (c : NetworkProxyConfig) : SocketAddr * SocketAddr :=
  let http_addr := clamp_non_loopback http_addr (dangerously_allow_non_loopback_proxy c) in
  let socks_addr := clamp_non_loopback socks_addr (dangerously_allow_non_loopback_proxy c) in
  if bool_decide (allow_unix_sockets c = []) && negb (dangerously_allow_all_unix_sockets c) then (http_addr, socks_addr)
  else (localhost (port http_addr), localhost (port socks_addr)).

(** [str::parse::<u16>]. *)
Fixpoint digits_value (acc : N) (s : str) : option N :=
  match s with
  | [] => Some acc
  | c :: s' => if is_ascii_digit c then digits_value (acc * 10 + (c - 48))%N s' else None
  end.
Definition parse_u16 (s : str) : option N :=
  let s := default s (strip_prefix (lit "+") s) in
  if str_eqb s [] then None
  else match digits_value 0 s with
       | Some n => if (n <=? 65535)%N then Some n else None
       | None => None
       end.

(** [Url::parse(s)], with the host and port of the URL. *)
Class UrlParse : Type := url_parse : str → option (option str * option N).

Section Addresses.
Context {NH : NetHost} {UP : UrlParse}.

Definition missing_host (input : str) : anyhow := [lit "missing host in network proxy address: " ++ input].
Definition parse_host_port_fallback (input : str) (default_port : N) : result anyhow (str * N) :=
  let without_scheme := match split_once_str (lit "://") input with Some (_, rest) => rest | None => input end in
  let host_port := default without_scheme (head (split (chr "/") without_scheme)) in
  let host_port := match rsplit_once (chr "@") host_port with Some (_, rest) => rest | None => host_port end in
  match (if starts_with (lit "[") host_port then find (lit "]") host_port else None) with
  | Some e =>
      let host := take (e - 1) (drop 1 host_port) in
      let p := match strip_prefix (lit ":") (drop (e + 1) host_port) with
               | Some p => default default_port (parse_u16 p)
               | None => default_port
               end in
      if str_eqb host [] then Err (missing_host input) else Ok (host, p)
  | None =>
      match (if (count_char (chr ":") host_port =? 1)%nat then rsplit_once (chr ":") host_port else None) with
      | Some (host, p) =>
          if str_eqb host [] then Err (missing_host input) else Ok (host, default default_port (parse_u16 p))
      | None =>
          if str_eqb host_port [] then Err (missing_host input) else Ok (host_port, default_port)
      end
  end.
(** [str::trim_matches] with the brackets. *)
Definition is_bracket (c : char) : bool := (c =? chr "[")%N || (c =? chr "]")%N.
Fixpoint trim_start_brackets (s : str) : str :=
  match s with c :: s' => if is_bracket c then trim_start_brackets s' else s | [] => [] end.
Definition parse_host_port (url : str) (default_port : N) : result anyhow (str * N) :=
  let trimmed := trim url in
  if str_eqb trimmed [] then Err (missing_host url)
  else if match parse_ip trimmed with Some (V6 _) => negb (starts_with (lit "[") trimmed) | _ => false end
  then Ok (trimmed, default_port)
  else
    let candidate := if contains (lit "://") trimmed then trimmed else lit "http://" ++ trimmed in
    match url_parse candidate with
    | Some (Some host, p) =>
        let host := trim_end_matches is_bracket (trim_start_brackets host) in
        if str_eqb host [] then Err (missing_host url) else Ok (host, default default_port p)
    | _ => parse_host_port_fallback trimmed default_port
    end.
Definition format_host_and_port (host : str) (p : N) : str :=
  if contains_char (chr ":") host then lit "[" ++ host ++ lit "]:" ++ fmt_N p else host ++ lit ":" ++ fmt_N p.
Definition host_and_port_from_network_addr (value : str) (default_port : N) : str :=
  let trimmed := trim value in
  if str_eqb trimmed [] then lit "<missing>"
  else match parse_host_port trimmed default_port with
       | Ok (host, p) => format_host_and_port host p
       | Err _ => format_host_and_port trimmed default_port
       end.

Definition resolve_addr (url : str) (default_port : N) : result anyhow SocketAddr :=
  let? (host, p) := parse_host_port url default_port in
  let host := if str_eqb (to_ascii_lowercase host) (lit "localhost") then lit "127.0.0.1" else host in
  match parse_ip host with
  | Some a => Ok (mkAddr a p)
  | None => Ok (localhost p)
  end.
Definition resolve_runtime (c : NetworkProxyConfig) : result anyhow (SocketAddr * SocketAddr) :=
  let? _ := validate_unix_socket_allowlist_paths c in
  let? http_addr := with_context (lit "invalid network.proxy_url: " ++ proxy_url c) (resolve_addr (proxy_url c) 3128) in
  let? socks_addr := with_context (lit "invalid network.socks_url: " ++ socks_url c) (resolve_addr (socks_url c) 8081) in
  Ok (clamp_bind_addrs http_addr socks_addr c).
Definition fixed_port (setting : str) : anyhow :=
  [setting ++ lit " must use a fixed non-zero port for managed proxy provisioning"].
Definition managed_proxy_ports (c : NetworkProxyConfig) : result anyhow (list N) :=
  let? (http_addr, socks_addr) := resolve_runtime c in
  if (port http_addr =? 0)%N then Err (fixed_port (lit "network.proxy_url"))
  else if enable_socks5 c then
    if (port socks_addr =? 0)%N then Err (fixed_port (lit "network.socks_url"))
    else Ok (if (port http_addr =? port socks_addr)%N then [port http_addr]
             else if (port http_addr <? port socks_addr)%N then [port http_addr; port socks_addr]
             else [port socks_addr; port http_addr])
  else Ok [port http_addr].
End Addresses.

(** * Domain permissions and listeners

    Each pattern of a configuration has one effective permission, the strongest
    it is given ([effective_entries_strongest]), and the proxy listens on
    loopback unless it is told otherwise and serves no sockets. *)

(** ** The strongest permission *)

Definition perm_max (a b : NetworkDomainPermission) : NetworkDomainPermission :=
  if (permission_rank a <? permission_rank b)%nat then b else a.
Definition merge_perm (a b : option NetworkDomainPermission) : option NetworkDomainPermission :=
  match a, b with Some a, Some b => Some (perm_max a b) | Some a, None => Some a | None, b => b end.
(** The reference: the strongest permission given to a pattern. *)
Fixpoint strongest (es : list NetworkDomainPermissionEntry) (p : str) : option NetworkDomainPermission :=
  match es with
  | [] => None
  | e :: rest => merge_perm (if str_eqb (pattern e) p then Some (permission e) else None) (strongest rest p)
  end.

Lemma perm_max_assoc a b c : perm_max (perm_max a b) c = perm_max a (perm_max b c).
Proof. by destruct a, b, c. Qed.
Lemma merge_perm_assoc a b c : merge_perm (merge_perm a b) c = merge_perm a (merge_perm b c).
Proof. destruct a, b, c; cbn; try done. by rewrite perm_max_assoc. Qed.

Lemma collect_entries_spec es order eff order' eff' :
  collect_entries es order eff = (order', eff') →
  NoDup order → (∀ p, p ∈ order ↔ is_Some (eff !! p)) →
  NoDup order' ∧ (∀ p, p ∈ order' ↔ is_Some (eff' !! p)) ∧ ∀ p, eff' !! p = merge_perm (eff !! p) (strongest es p).
Proof.
  revert order eff. induction es as [|e es IH]; intros order eff; cbn [collect_entries strongest].
  { intros [= <- <-] ? ?. split_and!; [done|done|]. intros p. by destruct (eff !! p). }
  intros Hc Hnd Hord. apply IH in Hc as (Hnd' & Hord' & Heff').
  - split_and!; [done|done|]. intros p. rewrite Heff', <- merge_perm_assoc. f_equal.
    destruct (str_eqb (pattern e) p) eqn:Ep; [apply str_eqb_eq in Ep as <-|apply str_eqb_neq in Ep].
    + rewrite lookup_insert_eq. destruct (eff !! pattern e) as [q|]; [destruct q|]; by destruct (permission e).
    + rewrite lookup_insert_ne by done. by destruct (eff !! p).
  - destruct (eff !! pattern e) eqn:Ee; [done|]. apply NoDup_app. split_and!; [done| |apply NoDup_singleton].
    intros p [q Hq]%Hord ->%list_elem_of_singleton. congruence.
  - intros p. destruct (decide (p = pattern e)) as [->|Hp].
    + rewrite lookup_insert_eq. split; [done|intros _]. destruct (eff !! pattern e) eqn:Ee.
      * apply Hord. by rewrite Ee.
      * apply elem_of_app. right. by apply list_elem_of_singleton.
    + rewrite lookup_insert_ne by done. rewrite <- Hord. destruct (eff !! pattern e); [done|].
      rewrite elem_of_app, list_elem_of_singleton. naive_solver.
Qed.
Lemma take_entries_spec order eff :
  NoDup order → (∀ p, p ∈ order → is_Some (eff !! p)) →
  take_entries order eff = (λ p, mkPerm p (default NoPermission (eff !! p))) <$> order.
Proof.
  revert eff. induction order as [|p order IH]; intros eff; [done|]. intros [Hp Hnd]%NoDup_cons Hall. cbn.
  destruct (Hall p) as [perm Hperm]; [by left|]. rewrite Hperm. cbn. f_equal. rewrite IH; [|done|].
  - apply list_fmap_ext. intros _ q Hq%list_elem_of_lookup_2. rewrite lookup_delete_ne; [done|]. intros ->. done.
  - intros q Hq. rewrite lookup_delete_ne; [apply Hall; by right|]. intros ->. done.
Qed.

Lemma effective_entries_spec es :
  NoDup (pattern <$> effective_entries es) ∧
  ∀ p perm, mkPerm p perm ∈ effective_entries es ↔ strongest es p = Some perm.
Proof.
  unfold effective_entries. destruct (collect_entries es [] ∅) as [order eff] eqn:E.
  apply collect_entries_spec in E as (Hnd & Hord & Heff); [|constructor|].
  2:{ intros p. rewrite lookup_empty. split; [by intros ?%elem_of_nil|by intros [? ?]]. }
  rewrite take_entries_spec by (done || (intros; by apply Hord)). split.
  - rewrite <- list_fmap_compose. by rewrite list_fmap_id.
  - intros p perm. rewrite list_elem_of_fmap. specialize (Heff p). rewrite lookup_empty in Heff. cbn in Heff. rewrite <- Heff. split.
    + intros (q & [= -> ->] & Hq%Hord). destruct Hq as [x ->]. done.
    + intros Hp. exists p. rewrite Hp. split; [done|]. apply Hord. by rewrite Hp.
Qed.

(** ** Lists of a configuration *)

Abbreviation entries_of c := (default [] (domains c)).
Lemma domain_entries_spec c perm p : p ∈ default [] (domain_entries c perm) ↔ strongest (entries_of c) p = Some perm.
Proof.
  unfold domain_entries. destruct (domains c) as [ds|]; cbn; [|split; [by intros ?%elem_of_nil|done]].
  rewrite <- (proj2 (effective_entries_spec ds)).
  transitivity (p ∈ pattern <$> filter (λ e, permission e = perm) (effective_entries ds)).
  { by destruct (pattern <$> _). }
  rewrite list_elem_of_fmap. split.
  - intros ([q r] & -> & [<- ?]%list_elem_of_filter). done.
  - intros Hp. exists (mkPerm p perm). split; [done|]. by apply list_elem_of_filter.
Qed.
Lemma strongest_app es1 es2 p : strongest (es1 ++ es2) p = merge_perm (strongest es1 p) (strongest es2 p).
Proof. induction es1 as [|e es1 IH]; cbn; [done|]. by rewrite IH, merge_perm_assoc. Qed.
Lemma strongest_None es p : strongest es p = None ↔ Forall (λ e, pattern e ≠ p) es.
Proof.
  induction es as [|e es IH]; cbn; [by split|]. rewrite Forall_cons, <- IH.
  destruct (str_eqb (pattern e) p) eqn:E; [apply str_eqb_eq in E|apply str_eqb_neq in E]; destruct (strongest es p); naive_solver.
Qed.
Lemma strongest_Deny es p : mkPerm p Deny ∈ es → strongest es p = Some Deny.
Proof.
  induction es as [|e es IH]; [by intros ?%elem_of_nil|]. intros [<-|Hin]%elem_of_cons; cbn.
  - rewrite str_eqb_refl. by destruct (strongest es p) as [[]|].
  - rewrite IH by done. by destruct (str_eqb (pattern e) p), (permission e).
Qed.
Lemma strongest_Deny_iff es p : strongest es p = Some Deny ↔ mkPerm p Deny ∈ es.
Proof.
  split; [|apply strongest_Deny]. induction es as [|[q r] es IH]; [done|]. cbn. rewrite elem_of_cons.
  destruct (str_eqb q p) eqn:E; [apply str_eqb_eq in E as ->|]; destruct (strongest es p) as [[]|], r; naive_solver.
Qed.
Lemma strongest_filter (P : str → Prop) (dec : ∀ e, Decision (P (pattern e))) `{∀ p, Decision (P p)} (es : list NetworkDomainPermissionEntry) p :
  strongest (filter (λ e, P (pattern e)) es) p = if decide (P p) then strongest es p else None.
Proof.
  induction es as [|e es IH]; [by destruct (decide (P p))|]. rewrite filter_cons. destruct (decide (P (pattern e))) as [He|He]; cbn; rewrite IH.
  - destruct (decide (P p)) as [|Hp]; [done|]. rewrite (proj2 (str_eqb_neq (pattern e) p)) by congruence. done.
  - destruct (decide (P p)) as [Hp|]; [|done]. by rewrite (proj2 (str_eqb_neq (pattern e) p)) by congruence.
Qed.

(** Every pattern is on one list at most, and on the deny list when one of its
    entries says so. *)
Theorem deny_entry_wins c p :
  (∃ es, domains c = Some es ∧ mkPerm p Deny ∈ es) →
  p ∈ default [] (denied_domains c) ∧ p ∉ default [] (allowed_domains c).
Proof.
  intros (es & Hd & Hin%strongest_Deny). unfold denied_domains, allowed_domains.
  rewrite !domain_entries_spec, Hd. cbn. rewrite Hin. done.
Qed.

(** What an update of one host leaves on the lists. *)
Lemma strongest_upsert host perm c p :
  strongest (entries_of (upsert_domain_permission host perm normalize_host c)) p =
  if decide (p = host) then Some perm
  else if decide (normalize_host p = normalize_host host) then None
  else strongest (entries_of c) p.
Proof.
  unfold upsert_domain_permission.
  assert (∀ ds : NetworkDomainPermissions, entries_of (set_domains (unless_empty ds) c) = ds) as -> by (by intros []).
  rewrite strongest_app. rewrite (strongest_filter (λ q, normalize_host q ≠ normalize_host host) _ (H := λ q, not_dec _)). cbn.
  destruct (decide (p = host)) as [->|Hp].
  - rewrite str_eqb_refl, decide_False by tauto. done.
  - rewrite (proj2 (str_eqb_neq host p)) by congruence.
    destruct (decide (normalize_host p = normalize_host host)); [by rewrite decide_False by tauto|].
    rewrite decide_True by done. cbn. by destruct (strongest _ p).
Qed.

Lemma add_missing_Deny l ds p : mkPerm p Deny ∈ add_missing l Allow ds ↔ mkPerm p Deny ∈ ds.
Proof.
  revert ds. induction l as [|e l IH]; intros ds; cbn; [done|]. rewrite IH. destruct (existsb _ ds); [done|].
  rewrite elem_of_app, list_elem_of_singleton. naive_solver.
Qed.
(** Listing allowed domains does not touch the deny list. *)
Lemma set_allowed_keeps_denied l c p :
  p ∈ default [] (denied_domains (set_allowed_domains l c)) ↔ p ∈ default [] (denied_domains c).
Proof.
  unfold denied_domains, set_allowed_domains, set_domain_entries. rewrite !domain_entries_spec, !strongest_Deny_iff.
  assert (∀ ds : NetworkDomainPermissions, entries_of (set_domains (unless_empty ds) c) = ds) as -> by (by intros []).
  rewrite add_missing_Deny, list_elem_of_filter. naive_solver.
Qed.

(** ** Listeners *)

Section Listeners.
Context {NH : NetHost} {UP : UrlParse}.

(** The proxy listens beyond loopback only when the configuration asks for it
    and gives no access to unix sockets. *)
Theorem listeners_stay_local c http_addr socks_addr :
  resolve_runtime c = Ok (http_addr, socks_addr) →
  dangerously_allow_non_loopback_proxy c = false ∨ allow_unix_sockets c ≠ [] ∨ dangerously_allow_all_unix_sockets c = true →
  is_loopback (ip http_addr) = true ∧ is_loopback (ip socks_addr) = true.
Proof.
  assert (∀ a b, (dangerously_allow_non_loopback_proxy c = false ∨ b = true) →
    is_loopback (ip (if (b : bool) then localhost (port a) else clamp_non_loopback a (dangerously_allow_non_loopback_proxy c))) = true) as Hcl.
  { intros a [] H; [done|]. destruct H as [->|?]; [|done]. unfold clamp_non_loopback. by destruct (is_loopback (ip a)) eqn:E. }
  unfold resolve_runtime. intros H Hc. run H. unfold clamp_bind_addrs in *.
  destruct (bool_decide (allow_unix_sockets c = []) && negb (dangerously_allow_all_unix_sockets c)) eqn:Eu; simplify_eq.
  - apply andb_true_iff in Eu as [?%bool_decide_eq_true ?%negb_true_iff]. destruct Hc as [Hc|[|]]; [|done|congruence].
    split; apply (Hcl _ false); by left.
  - done.
Qed.
End Listeners.

Lemma deny_entry_wins_witness :
  lit "a.com" ∉ default [] (allowed_domains (set_domains (Some [mkPerm (lit "a.com") Deny; mkPerm (lit "a.com") Allow]) default_config)).
Proof.
  refine (proj2 (deny_entry_wins _ (lit "a.com") _)). eexists. split; [reflexivity|]. by left.
Defined.

(** Without a URL parser the fallback reads the address. *)
Module MiniListeners.
#[export] Instance listener_host : NetHost := {
  NetAbs := str;
  path_is_absolute p := starts_with (lit "/") p;
  net_absolute p := Ok p;
  debug_str s := s;
  debug_strs l := join (lit ", ") l;
  hash_order X := elements X;
}.
#[export] Instance no_url : UrlParse := λ _, None.
Definition exposed : NetworkProxyConfig :=
  mkConfig true (lit "http://0.0.0.0:3128") true (lit "socks5h://[::]:8081") true true true true Full None None false false false None false [].
Lemma listeners_stay_local_witness :
  ∃ http_addr socks_addr, resolve_runtime exposed = Ok (http_addr, socks_addr) ∧ is_loopback (ip http_addr) = true.
Proof.
  destruct (resolve_runtime exposed) as [[http_addr socks_addr]|] eqn:E; [|by vm_compute in E].
  exists http_addr, socks_addr. split; [done|].
  apply (listeners_stay_local exposed http_addr socks_addr E). right; right. reflexivity.
Defined.
End MiniListeners.
