(* ===== verification/NetHook.v ===== *)
(** * Hooks on intercepted requests ([network-proxy/src/mitm_hook.rs])

    A hook names a host and the requests it authorises by method, path, query
    and headers; a request to a hooked host that matches none of its hooks is
    refused by the caller.  Also [authorization_path.rs]: paths that servers may
    read differently are never authorised.  Header names and values, glob
    matchers, query decoding and the secrets come from outside. *)
From stdpp Require Import strings.
From S2P Require Import Prelude RustStr NetAddr NetDomain NetConfig.

(** ** Paths ([authorization_path.rs]) *)

Definition decode_hex_digit (byte : char) : option N :=
  if ((48 <=? byte) && (byte <=? 57))%N then Some (byte - 48)%N
  else if ((97 <=? byte) && (byte <=? 102))%N then Some (byte - 97 + 10)%N
  else if ((65 <=? byte) && (byte <=? 70))%N then Some (byte - 65 + 10)%N
  else None.
Fixpoint segment_loop (bytes : str) (decoded_dots : nat) (has_non_dot : bool) : bool :=
  match bytes with
  | [] => has_non_dot || negb ((decoded_dots =? 1)%nat || (decoded_dots =? 2)%nat)
  | b :: rest =>
      if (b =? chr ".")%N then segment_loop rest (S decoded_dots) has_non_dot
      else if (b =? chr "\")%N then false
      else if (b =? chr "%")%N then
        match rest with
        | h :: l :: rest =>
            match decode_hex_digit h, decode_hex_digit l with
            | Some high, Some low =>
                let decoded := N.lor (N.shiftl high 4) low in
                if (decoded =? chr "%")%N || (decoded =? chr "/")%N || (decoded =? chr "\")%N then false
                else if (decoded =? chr ".")%N then segment_loop rest (S decoded_dots) has_non_dot
                else segment_loop rest decoded_dots true
            | _, _ => false
            end
        | _ => false
        end
      else segment_loop rest decoded_dots true
  end.
Definition is_safe_segment_for_authorization (segment : str) : bool := segment_loop segment 0 false.
Definition is_safe_for_authorization (path : str) : bool :=
  forallb is_safe_segment_for_authorization (split (chr "/") path).

(** ** Compiled hooks *)

(** [HeaderName::from_bytes], [HeaderValue::from_str] and [to_str] of [http];
    [GlobBuilder] with [literal_separator]; [form_urlencoded::parse]; the
    environment and the files that hold secrets. *)
Class HookCrates : Type := {
  HeaderName : Type;
  HeaderValue : Type;
  GlobMatcher : Type;
  #[global] HeaderName_eq_dec :: EqDecision HeaderName;
  header_name : str → result str HeaderName;
  header_value : str → result str HeaderValue;
  header_to_str : HeaderValue → option str;
  hook_glob : bool → str → result str GlobMatcher;
  matcher_is_match : GlobMatcher → str → bool;
  form_urlencoded_parse : str → list (str * str);
  env_var : str → option str;
}.

Section Hooks.
Context {NH : NetHost} {HC : HookCrates}.
(** The text of a secret file, trimmed. *)
Context (read_secret_file : NetAbs → result anyhow str).

Record CompiledGlobMatcher : Type := mkGlobMatcher { glob_pattern : str; matcher : GlobMatcher }.
Inductive PathMatcher : Type := Prefix (p : str) | PathGlob (g : CompiledGlobMatcher).
Inductive ValueMatcher : Type := ExactValue (v : str) | ValueGlob (g : CompiledGlobMatcher).
Record QueryConstraint : Type := mkQuery { query_name : str; query_values : list ValueMatcher }.
Record HeaderConstraint : Type := mkHeader { constraint_name : HeaderName; header_values : list ValueMatcher }.
Inductive SecretSource : Type := EnvVar (name : str) | SecretFile (p : NetAbs).
Record ResolvedInjectedHeader : Type := mkResolved { resolved_name : HeaderName; resolved_value : HeaderValue; source : SecretSource }.
Record MitmHookMatcher : Type := mkMatcher {
  methods : list str;
  path_prefixes : list PathMatcher;
  query : list QueryConstraint;
  headers : list HeaderConstraint;
}.
Record MitmHookActions : Type := mkActions {
  strip_request_headers : list HeaderName;
  inject_request_headers : list ResolvedInjectedHeader;
}.
Record MitmHook : Type := mkHook { host : str; hook_match : MitmHookMatcher; actions : MitmHookActions }.
(** [MitmHooksByHost]: a [BTreeMap]. *)
Definition MitmHooksByHost : Type := gmap str (list MitmHook).

(** ** Parsing of the entries *)

Inductive MatcherPattern : Type := Literal (p : str) | GlobText (p : str).
Definition parse_matcher_pattern (pattern : str) : result anyhow MatcherPattern :=
  match strip_prefix (lit "literal:") pattern with
  | Some literal => Ok (Literal literal)
  | None =>
      match strip_prefix (lit "pattern:") pattern with
      | None => Ok (Literal pattern)
      | Some glob => if str_eqb glob [] then Err [lit "glob pattern must not be empty"] else Ok (GlobText glob)
      end
  end.
Definition compile_glob_matcher (pattern : str) (literal_separator : bool) : result anyhow CompiledGlobMatcher :=
  match hook_glob literal_separator pattern with
  | Ok g => Ok (mkGlobMatcher pattern g)
  | Err e => Err [lit "invalid glob pattern " ++ debug_str pattern ++ lit ": " ++ e]
  end.
Definition compile_path_matcher (prefix : str) : result anyhow PathMatcher :=
  let? p := parse_matcher_pattern prefix in
  match p with
  | Literal prefix => if str_eqb prefix [] then Err [lit "path_prefixes must not contain empty entries"] else Ok (Prefix prefix)
  | GlobText glob => let? g := compile_glob_matcher glob true in Ok (PathGlob g)
  end.
Definition compile_path_matchers (prefixes : list str) : result anyhow (list PathMatcher) := map_result compile_path_matcher prefixes.
Definition compile_value_matcher (value : str) : result anyhow ValueMatcher :=
  let? p := parse_matcher_pattern value in
  match p with
  | Literal value => Ok (ExactValue value)
  | GlobText glob => let? g := compile_glob_matcher glob false in Ok (ValueGlob g)
  end.
Definition compile_value_matchers (values : list str) : result anyhow (list ValueMatcher) := map_result compile_value_matcher values.

Definition normalize_hook_host (host : str) : result anyhow str :=
  let normalized := normalize_host host in
  if str_eqb normalized [] then Err [lit "host must not be empty"]
  else if contains_char (chr "*") normalized
  then Err [lit "MITM hook hosts must be exact hosts and cannot contain wildcards"]
  else Ok normalized.
Definition char_to_ascii_uppercase (c : char) : char := if ((97 <=? c) && (c <=? 122))%N then (c - 32)%N else c.
Definition to_ascii_uppercase (s : str) : str := char_to_ascii_uppercase <$> s.
Definition normalize_methods (methods : list str) : result anyhow (list str) :=
  map_result (λ method,
    let normalized := to_ascii_uppercase (trim method) in
    if str_eqb normalized [] then Err [lit "methods must not contain empty entries"] else Ok normalized) methods.
Definition normalize_query_name (name : str) : result anyhow str :=
  if str_eqb name [] then Err [lit "query keys must not be empty"] else Ok name.
Definition parse_header_name (name : str) : result anyhow HeaderName :=
  map_err (λ e, [lit "invalid header name " ++ debug_str name ++ lit ": " ++ e]) (header_name name).
Definition parse_secret_file (path : str) : result anyhow NetAbs :=
  if str_eqb (trim path) [] then Err [lit "secret_file must not be empty"]
  else
    let not_absolute := lit "secret_file must be an absolute path: " ++ debug_str path in
    if negb (path_is_absolute path) then Err [not_absolute] else with_context not_absolute (net_absolute path).

(** ** Validation *)

Fixpoint each {A} (check : A → result anyhow unit) (l : list A) : result anyhow unit :=
  match l with [] => Ok tt | x :: rest => let? _ := check x in each check rest end.
Definition validate_query_constraints (query : list (str * list str)) : result anyhow unit :=
  each (λ '(name, values),
    let? normalized := normalize_query_name name in
    if str_eqb normalized [] then Err [lit "query keys must not be empty"]
    else match values with
         | [] => Err [lit "query key " ++ debug_str name ++ lit " must list at least one allowed value"]
         | _ => let? _ := with_context (lit "invalid matcher for query key " ++ debug_str name) (compile_value_matchers values) in Ok tt
         end) query.
Definition validate_header_constraints (headers : list (str * list str)) : result anyhow unit :=
  each (λ '(name, values),
    let? _ := parse_header_name name in
    let? _ := with_context (lit "invalid matcher for header " ++ debug_str name) (compile_value_matchers values) in Ok tt) headers.
Definition validate_strip_request_headers (names : list str) : result anyhow unit :=
  each (λ name, let? _ := parse_header_name name in Ok tt) names.
Definition exactly_one : anyhow := [lit "expected exactly one of secret_env_var or secret_file"].
Definition validate_injected_headers (headers : list InjectedHeaderConfig) : result anyhow unit :=
  each (λ h,
    let? _ := parse_header_name (inject_name h) in
    match secret_env_var h, secret_file h with
    | Some env, None => if str_eqb (trim env) [] then Err [lit "secret_env_var must not be empty"] else Ok tt
    | None, Some file => let? _ := parse_secret_file file in Ok tt
    | _, _ => Err exactly_one
    end) headers.

Definition hook_field (index : nat) (field : str) : str := lit "network.mitm_hooks[" ++ fmt_nat index ++ lit "]" ++ field.
Definition validate_hook (index : nat) (hook : MitmHookConfig) : result anyhow unit :=
  let invalid {A} (field : str) (r : result anyhow A) := with_context (lit "invalid " ++ hook_field index field) r in
  let m := hook_matcher hook in
  let? host := invalid (lit ".host") (normalize_hook_host (hook_host hook)) in
  let? methods := invalid (lit ".match.methods") (normalize_methods (cfg_methods m)) in
  match methods with
  | [] => Err [hook_field index (lit ".match.methods must not be empty")]
  | _ =>
      let? paths := invalid (lit ".match.path_prefixes") (compile_path_matchers (cfg_path_prefixes m)) in
      match paths, cfg_body m with
      | [], _ => Err [hook_field index (lit ".match.path_prefixes must not be empty")]
      | _, Some _ => Err [hook_field index (lit ".match.body is reserved for a future release and is not yet supported")]
      | _, None =>
          let? _ := invalid (lit ".match.query") (validate_query_constraints (cfg_query m)) in
          let? _ := invalid (lit ".match.headers") (validate_header_constraints (cfg_headers m)) in
          let? _ := invalid (lit ".actions.strip_request_headers")
                      (validate_strip_request_headers (cfg_strip_request_headers (hook_actions hook))) in
          let? _ := invalid (lit ".actions.inject_request_headers")
                      (validate_injected_headers (cfg_inject_request_headers (hook_actions hook))) in
          if str_eqb host [] then Err [hook_field index (lit ".host must not be empty")] else Ok tt
      end
  end.
Fixpoint validate_hooks (index : nat) (hooks : list MitmHookConfig) : result anyhow unit :=
  match hooks with
  | [] => Ok tt
  | hook :: rest => let? _ := validate_hook index hook in validate_hooks (S index) rest
  end.
Definition validate_mitm_hook_config (c : NetworkProxyConfig) : result anyhow unit :=
  if bool_decide (mitm_hooks c = []) then Ok tt
  else if negb (mitm c) then Err [lit "network.mitm_hooks requires network.mitm = true"]
  else validate_hooks 0 (mitm_hooks c).

(** ** Compilation *)

Definition compile_injected_header (h : InjectedHeaderConfig) : result anyhow ResolvedInjectedHeader :=
  let? name := parse_header_name (inject_name h) in
  let? (secret, source) :=
    match secret_env_var h, secret_file h with
    | Some env, None =>
        match env_var env with
        | Some value => Ok (value, EnvVar env)
        | None => Err [lit "missing required environment variable " ++ env]
        end
    | None, Some file =>
        let? path := parse_secret_file file in
        let? value := read_secret_file path in
        Ok (value, SecretFile path)
    | _, _ => Err exactly_one
    end in
  let? value := map_err (λ e, [lit "invalid value for injected header " ++ inject_name h; e])
                  (header_value (default [] (inject_prefix h) ++ secret)) in
  Ok (mkResolved name value source).
Definition compile_hook (hook : MitmHookConfig) : result anyhow MitmHook :=
  let m := hook_matcher hook in
  let? host := normalize_hook_host (hook_host hook) in
  let? methods := normalize_methods (cfg_methods m) in
  let? paths := compile_path_matchers (cfg_path_prefixes m) in
  let? query := map_result (λ '(name, values),
      let? name := normalize_query_name name in
      let? values := compile_value_matchers values in Ok (mkQuery name values)) (cfg_query m) in
  let? headers := map_result (λ '(name, values),
      let? name := parse_header_name name in
      let? values := compile_value_matchers values in Ok (mkHeader name values)) (cfg_headers m) in
  let? strip := map_result parse_header_name (cfg_strip_request_headers (hook_actions hook)) in
  let? inject := map_result (λ h, with_context (lit "failed to compile injected header " ++ inject_name h)
      (compile_injected_header h)) (cfg_inject_request_headers (hook_actions hook)) in
  Ok (mkHook host (mkMatcher methods paths query headers) (mkActions strip inject)).
Fixpoint compile_hooks (hooks : list MitmHookConfig) (by_host : gmap str (list MitmHook)) : result anyhow (gmap str (list MitmHook)) :=
  match hooks with
  | [] => Ok by_host
  | hook :: rest =>
      let? h := compile_hook hook in
      compile_hooks rest (<[host h := default [] (by_host !! host h) ++ [h]]> by_host)
  end.
Definition compile_mitm_hooks (c : NetworkProxyConfig) : result anyhow (gmap str (list MitmHook)) :=
  let? _ := validate_mitm_hook_config c in compile_hooks (mitm_hooks c) ∅.

(** ** Requests *)

Record Request : Type := mkRequest {
  req_method : str;
  req_path : str;
  req_query : option str;
  req_headers : list (HeaderName * HeaderValue);
}.
Definition matches_path (m : PathMatcher) (candidate : str) : bool :=
  match m with Prefix p => starts_with p candidate | PathGlob g => matcher_is_match (matcher g) candidate end.
Definition matches_value (m : ValueMatcher) (candidate : str) : bool :=
  match m with ExactValue v => str_eqb v candidate | ValueGlob g => matcher_is_match (matcher g) candidate end.
Definition path_matches (prefixes : list PathMatcher) (path : str) : bool := existsb (λ m, matches_path m path) prefixes.
Definition collect_query (pairs : list (str * str)) : gmap str (list str) :=
  foldl (λ m '(name, value), <[name := default [] (m !! name) ++ [value]]> m) ∅ pairs.
Definition query_matches (constraints : list QueryConstraint) (req : Request) : bool :=
  match constraints with
  | [] => true
  | _ =>
      let actual_values := collect_query (form_urlencoded_parse (default [] (req_query req))) in
      forallb (λ c, match actual_values !! query_name c with
                    | Some actual => existsb (λ candidate, existsb (λ m, matches_value m candidate) (query_values c)) actual
                    | None => false
                    end) constraints
  end.
Definition headers_match (constraints : list HeaderConstraint) (req : Request) : bool :=
  forallb (λ c,
    let actual := snd <$> filter (λ '(name, _), name = constraint_name c) (req_headers req) in
    match actual, header_values c with
    | [], _ => false
    | _, [] => true
    | _, values =>
        existsb (λ v, match header_to_str v with
                      | Some candidate => existsb (λ m, matches_value m candidate) values
                      | None => false
                      end) actual
    end) constraints.
Definition hook_matches (hook : MitmHook) (req : Request) : bool :=
  let m := hook_match hook in
  if negb (existsb (str_eqb (to_ascii_uppercase (req_method req))) (methods m)) then false
  else if negb (is_safe_for_authorization (req_path req)) || negb (path_matches (path_prefixes m) (req_path req)) then false
  else if negb (query_matches (query m) req) then false
  else headers_match (headers m) req.

Inductive HookEvaluation : Type := NoHooksForHost | Matched (a : MitmHookActions) | HookedHostNoMatch.
Fixpoint first_match (hooks : list MitmHook) (req : Request) : HookEvaluation :=
  match hooks with
  | [] => HookedHostNoMatch
  | hook :: rest => if hook_matches hook req then Matched (actions hook) else first_match rest req
  end.
Definition evaluate_mitm_hooks (by_host : gmap str (list MitmHook)) (host : str) (req : Request) : HookEvaluation :=
  match by_host !! normalize_host host with
  | None => NoHooksForHost
  | Some hooks => first_match hooks req
  end.
End Hooks.
