(* ===== verification/NetState.v ===== *)
(** * Managed constraints and proxy states ([network-proxy/src/state.rs])

    A configuration is checked against the constraints of a managed one, and
    compiled to the state the proxy runs on. *)
From stdpp Require Import strings.
From S2P Require Import Prelude RustStr NetAddr NetDomain NetConfig NetHook.

Record NetworkProxyConstraints : Type := mkConstraints {
  c_enabled : option bool;
  c_mode : option NetworkMode;
  c_allow_upstream_proxy : option bool;
  c_non_loopback_proxy : option bool;
  c_all_unix_sockets : option bool;
  c_allowed_domains : option (list str);
  allowlist_expansion_enabled : option bool;
  c_denied_domains : option (list str);
  denylist_expansion_enabled : option bool;
  c_allow_unix_sockets : option (list str);
  c_allow_local_binding : option bool;
}.
#[global] Instance NetworkProxyConstraints_eq_dec : EqDecision NetworkProxyConstraints.
Proof. solve_decision. Defined.
Definition default_constraints : NetworkProxyConstraints :=
  mkConstraints None None None None None None None None None None None.

(** [NetworkProxyConstraintError::InvalidValue] and its display. *)
Record NetworkProxyConstraintError : Type := InvalidValue { field_name : str; candidate : str; allowed : str }.
Definition into_anyhow (e : NetworkProxyConstraintError) : anyhow :=
  [lit "invalid value for " ++ field_name e ++ lit ": " ++ candidate e ++ lit " (allowed " ++ allowed e ++ lit ")"].
Definition checked : Type := result NetworkProxyConstraintError unit.

Definition network_mode_rank (m : NetworkMode) : nat := match m with Limited => 0 | Full => 1 end.
Definition debug_mode (m : NetworkMode) : str := match m with Limited => lit "Limited" | Full => lit "Full" end.

Definition validate_non_global_wildcard_domain_patterns (field : str) (patterns : list str) : checked :=
  match find_map (λ p, if is_global_wildcard_domain_pattern p then Some p else None) patterns with
  | Some p => Err (InvalidValue field (trim p) (lit "exact hosts or scoped wildcards like *.example.com or **.example.com"))
  | None => Ok tt
  end.
Definition lower_set (l : list str) : gset str := list_to_set (to_ascii_lowercase <$> l).
Definition disabled : str := lit "false (disabled by managed config)".

Section Constraints.
Context {NH : NetHost} {HC : HookCrates} {UH : UrlHost}.

Definition invalid_mitm_hook_configuration (e : anyhow) : NetworkProxyConstraintError :=
  InvalidValue (lit "network.mitm_hooks") (default [] (head e)) (lit "valid MITM hook configuration").

(** A setting that may be on only when the managed configuration says so. *)
Definition check_flag (field : str) (candidate managed : bool) : checked :=
  if candidate && negb managed then Err (InvalidValue field (lit "true") disabled) else Ok tt.
Definition check_mode (candidate : NetworkMode) (max_mode : option NetworkMode) : checked :=
  match max_mode with
  | None => Ok tt
  | Some max_mode =>
      if (network_mode_rank max_mode <? network_mode_rank candidate)%nat
      then Err (InvalidValue (lit "network.mode") (debug_mode candidate) (debug_mode max_mode ++ lit " or more restrictive"))
      else Ok tt
  end.

Definition check_allowed_domains (cs : NetworkProxyConstraints) (config_allowed config_denied : list str) : checked :=
  match c_allowed_domains cs with
  | None => Ok tt
  | Some managed =>
      let? _ := validate_non_global_wildcard_domain_patterns (lit "network.allowed_domains") managed in
      let required_set := lower_set managed in
      let candidate_set := lower_set config_allowed in
      let denied_domain_overrides := lower_set config_denied in
      match allowlist_expansion_enabled cs with
      | Some true =>
          let missing := filter (λ e, e ∉ candidate_set ∧ e ∉ denied_domain_overrides) (hash_order required_set) in
          match missing with
          | [] => Ok tt
          | _ => Err (InvalidValue (lit "network.allowed_domains") (lit "missing managed allowed_domains entries") (debug_strs missing))
          end
      | Some false =>
          if bool_decide (candidate_set = required_set ∖ denied_domain_overrides) then Ok tt
          else Err (InvalidValue (lit "network.allowed_domains") (debug_strs config_allowed) (lit "must match managed allowed_domains"))
      | None =>
          let managed_patterns := parse_for_constraints <$> managed in
          let invalid := filter (λ e, existsb (λ m, allows m (parse_for_constraints e)) managed_patterns = false) config_allowed in
          match invalid with
          | [] => Ok tt
          | _ => Err (InvalidValue (lit "network.allowed_domains") (debug_strs invalid) (lit "subset of managed allowed_domains"))
          end
      end
  end.
Definition check_denied_domains (cs : NetworkProxyConstraints) (config_denied : list str) : checked :=
  match c_denied_domains cs with
  | None => Ok tt
  | Some managed =>
      let? _ := validate_non_global_wildcard_domain_patterns (lit "network.denied_domains") managed in
      let required_set := lower_set managed in
      let candidate_set := lower_set config_denied in
      match denylist_expansion_enabled cs with
      | Some false =>
          if bool_decide (candidate_set = required_set) then Ok tt
          else Err (InvalidValue (lit "network.denied_domains") (debug_strs config_denied) (lit "must match managed denied_domains"))
      | _ =>
          let missing := filter (λ e, e ∉ candidate_set) (hash_order required_set) in
          match missing with
          | [] => Ok tt
          | _ => Err (InvalidValue (lit "network.denied_domains") (lit "missing managed denied_domains entries") (debug_strs missing))
          end
      end
  end.
Definition check_unix_sockets (cs : NetworkProxyConstraints) (config_sockets : list str) : checked :=
  match c_allow_unix_sockets cs with
  | None => Ok tt
  | Some managed =>
      let allowed_set := lower_set managed in
      let invalid := filter (λ e, to_ascii_lowercase e ∉ allowed_set) config_sockets in
      match invalid with
      | [] => Ok tt
      | _ => Err (InvalidValue (lit "network.allow_unix_sockets") (debug_strs invalid) (lit "subset of managed allow_unix_sockets"))
      end
  end.

Definition validate_policy_against_constraints (c : NetworkProxyConfig) (cs : NetworkProxyConstraints) : checked :=
  let config_allowed_domains := default [] (allowed_domains c) in
  let config_denied_domains := default [] (denied_domains c) in
  let? _ := map_err invalid_mitm_hook_configuration (validate_mitm_hook_config c) in
  let? _ := validate_non_global_wildcard_domain_patterns (lit "network.denied_domains") config_denied_domains in
  let? _ := check_flag (lit "network.enabled") (enabled c) (default true (c_enabled cs)) in
  let? _ := check_mode (mode c) (c_mode cs) in
  let? _ := check_flag (lit "network.allow_upstream_proxy") (allow_upstream_proxy c) (default true (c_allow_upstream_proxy cs)) in
  let? _ := check_flag (lit "network.dangerously_allow_non_loopback_proxy")
              (dangerously_allow_non_loopback_proxy c) (default true (c_non_loopback_proxy cs)) in
  let? _ := check_flag (lit "network.dangerously_allow_all_unix_sockets") (dangerously_allow_all_unix_sockets c)
              (default (bool_decide (c_allow_unix_sockets cs = None)) (c_all_unix_sockets cs)) in
  let? _ := check_flag (lit "network.allow_local_binding") (allow_local_binding c) (default true (c_allow_local_binding cs)) in
  let? _ := check_allowed_domains cs config_allowed_domains config_denied_domains in
  let? _ := check_denied_domains cs config_denied_domains in
  check_unix_sockets cs (allow_unix_sockets c).
End Constraints.

(** ** States *)

(** A blocked request, with the fields the state does not look at in [rest]. *)
Record BlockedRequest (Rest : Type) : Type := mkBlocked { blocked_host : str; blocked_reason : str; execution_id : option str; blocked_rest : Rest }.
Arguments mkBlocked {_} _ _ _ _.
Arguments blocked_host {_} _.
Arguments blocked_reason {_} _.
Arguments execution_id {_} _.
Arguments blocked_rest {_} _.

Section States.
Context {NH : NetHost} {HC : HookCrates} {UH : UrlHost} `{GC : GlobCrate Glob GlobSet}.
Context {MitmState Rest : Type}.
(** [MitmState::new], which creates a certificate authority. *)
Context (mitm_new : bool → result anyhow MitmState).
Context (read_secret_file : NetAbs → result anyhow str).

Record ConfigState : Type := mkState {
  config : NetworkProxyConfig;
  brokerage_created_default_allowlist : bool;
  allow_set : GlobSet;
  deny_set : GlobSet;
  mitm_state : option MitmState;
  hooks : MitmHooksByHost;
  constraints : NetworkProxyConstraints;
  blocked : list (BlockedRequest Rest);
  blocked_total : N;
}.

(** The configuration a state is built with: the credential broker switches the
    proxy on, and everything is allowed when nothing is listed. *)
Definition broker_config (c : NetworkProxyConfig) (cs : NetworkProxyConstraints) : NetworkProxyConfig * bool :=
  let c := if bool_decide (c_enabled cs = Some false) then set_mitm (mitm c) false c else c in
  let created_proxy := credential_broker c && negb (enabled c) in
  let created_allowlist := created_proxy && bool_decide (allowed_domains c = None) && bool_decide (c_allowed_domains cs = None) in
  let c := if created_proxy then set_enabled true c else c in
  let c := if created_allowlist then set_allowed_domains [lit "*"] c else c in
  (c, created_allowlist).
Definition build_config_state (c : NetworkProxyConfig) (cs : NetworkProxyConstraints) : result anyhow ConfigState :=
  let '(c, created_allowlist) := broker_config c cs in
  let? _ := validate_unix_socket_allowlist_paths c in
  if credential_broker c && negb (mitm c) then Err [lit "network.credential_broker requires network.mitm = true"]
  else
    let allowed := default [] (allowed_domains c) in
    let denied := default [] (denied_domains c) in
    let? _ := map_err into_anyhow (validate_non_global_wildcard_domain_patterns (lit "network.denied_domains") denied) in
    let? deny_set := compile_denylist_globset denied in
    let? allow_set := compile_allowlist_globset allowed in
    let? hooks := compile_mitm_hooks read_secret_file c in
    let? mitm_state := if mitm c then let? m := mitm_new (allow_upstream_proxy c) in Ok (Some m) else Ok None in
    Ok (mkState c created_allowlist allow_set deny_set mitm_state hooks cs [] 0).
End States.
