(* ===== verification/NetRuntime.v ===== *)
(** * Decisions of the network proxy ([network-proxy/src/runtime.rs])

    Whether a host may be reached, the policy around it ([network_policy.rs]),
    the check of the address that is connected to ([connect_policy.rs]), and the
    operations that change the state.  The state is shared by all requests
    behind a lock: an operation is a sequence of locked sections, and each
    section is one step of [step].  A lookup of a name, the reloader of the
    configuration and the decider are parameters. *)
From stdpp Require Import strings.
From S2P Require Import Prelude RustStr NetAddr NetDomain NetConfig NetHook NetState.

Inductive HostBlockReason : Type := Denied | NotAllowed | NotAllowedLocal.
Inductive HostBlockDecision : Type := Allowed | Blocked (r : HostBlockReason).
#[global] Instance HostBlockReason_eq_dec : EqDecision HostBlockReason.
Proof. solve_decision. Defined.
#[global] Instance HostBlockDecision_eq_dec : EqDecision HostBlockDecision.
Proof. solve_decision. Defined.
Definition reason_str (r : HostBlockReason) : str :=
  match r with Denied => lit "denied" | NotAllowed => lit "not_allowed" | NotAllowedLocal => lit "not_allowed_local" end.

(** The answer of a lookup under the timeout. *)
Inductive Lookup : Type := TimedOut | LookupFailed | Addresses (addrs : list IpAddr).
Definition host_resolves_to_non_public_ip (host : str) (port : N) (lookup : str → N → Lookup) : bool :=
  match parse_ip host with
  | Some a => is_non_public_ip a
  | None =>
      match lookup host port with
      | TimedOut | LookupFailed => true
      | Addresses addrs => existsb is_non_public_ip addrs
      end
  end.

Definition is_explicit_local_allowlisted (allowed_domains : list str) (host : str) : bool :=
  let unscoped_host := unscoped_ip_literal host in
  existsb (λ pattern,
    let pattern := trim pattern in
    if str_eqb pattern (lit "*") || starts_with (lit "*.") pattern || starts_with (lit "**.") pattern then false
    else if contains_char (chr "*") pattern || contains_char (chr "?") pattern then false
    else
      let normalized_pattern := normalize_host pattern in
      str_eqb normalized_pattern host ||
      match unscoped_host with Some a => str_eqb normalized_pattern a | None => false end) allowed_domains.

Inductive NetworkProtocol : Type := Http | HttpsConnect | Socks5Tcp | Socks5Udp.
Inductive NetworkPolicyDecision : Type := PolicyDeny | PolicyAsk.
Inductive NetworkDecisionSource : Type := BaselinePolicy | ModeGuard | ProxyState | Decider.
Record NetworkPolicyRequest : Type := mkPolicyRequest {
  protocol : NetworkProtocol;
  request_host : str;
  request_port : N;
  environment_id : option str;
  client_addr : option str;
  request_method : option str;
  command : option str;
  exec_policy_hint : option str;
  request_execution_id : option str;
}.
Inductive NetworkDecision : Type :=
  | AllowRequest
  | DenyRequest (reason : str) (source : NetworkDecisionSource) (decision : NetworkPolicyDecision).
Definition with_reason (reason : str) (source : NetworkDecisionSource) (d : NetworkPolicyDecision) : NetworkDecision :=
  DenyRequest (if str_eqb reason [] then lit "policy_denied" else reason) source d.
Definition deny_with_source (reason : str) (source : NetworkDecisionSource) := with_reason reason source PolicyDeny.
Definition ask_with_source (reason : str) (source : NetworkDecisionSource) := with_reason reason source PolicyAsk.
Definition map_decider_decision (d : NetworkDecision) : NetworkDecision :=
  match d with
  | AllowRequest => AllowRequest
  | DenyRequest reason _ decision => DenyRequest reason Decider decision
  end.

(** The audit event of a decision, without its time. *)
Record NetworkPolicyAuditEvent : Type := mkAudit {
  audit_decision : str;
  audit_source : NetworkDecisionSource;
  audit_reason : str;
  audit_protocol : NetworkProtocol;
  audit_host : str;
  audit_port : N;
  audit_method : option str;
  audit_client : option str;
  policy_override : bool;
}.
Definition policy_decision_str (d : NetworkPolicyDecision) : str :=
  match d with PolicyDeny => lit "deny" | PolicyAsk => lit "ask" end.

(** The target of a connection ([rama]'s [Host]). *)
Inductive TargetHost : Type := Address (a : IpAddr) | Name (n : str).
Definition is_localhost_name (name : str) : bool :=
  str_eqb (to_ascii_lowercase (trim_end_char (chr ".") name)) (lit "localhost").
Definition is_non_public_target (h : TargetHost) : bool :=
  match h with Address a => is_non_public_ip a | Name n => is_localhost_name n end.
Definition target_matches_non_public_addr (h : TargetHost) (addr : IpAddr) : bool :=
  match h with
  | Address a => bool_decide (a = addr)
  | Name n => is_localhost_name n && is_loopback addr
  end.

Definition MAX_BLOCKED_EVENTS : nat := 200.
Definition U64_MAX : N := 18446744073709551615.
Definition u64_saturating_add (a b : N) : N := N.min (a + b) U64_MAX.
Inductive DomainListKind : Type := AllowList | DenyList.
Definition list_permission (k : DomainListKind) : NetworkDomainPermission :=
  match k with AllowList => Allow | DenyList => Deny end.
Definition list_name (k : DomainListKind) : str := match k with AllowList => lit "allowlist" | DenyList => lit "denylist" end.
Definition constraint_field (k : DomainListKind) : str :=
  match k with AllowList => lit "network.allowed_domains" | DenyList => lit "network.denied_domains" end.
Definition list_entries (k : DomainListKind) (c : NetworkProxyConfig) : list str :=
  default [] (match k with AllowList => allowed_domains c | DenyList => denied_domains c end).
Definition opposite_entries (k : DomainListKind) (c : NetworkProxyConfig) : list str :=
  default [] (match k with AllowList => denied_domains c | DenyList => allowed_domains c end).

Section Runtime.
Context {NH : NetHost} {HC : HookCrates} {UH : UrlHost} `{GC : GlobCrate Glob GlobSet}.
Context {MitmState Rest : Type}.
Context (mitm_new : bool → result anyhow MitmState).
Context (read_secret_file : NetAbs → result anyhow str).
Abbreviation ConfigState := (ConfigState (GlobSet := GlobSet) (MitmState := MitmState) (Rest := Rest)).
Implicit Types (s : ConfigState).

(** ** Requests *)

Definition globset_matches_host_or_unscoped (set : GlobSet) (host : str) : bool :=
  is_match set host || match unscoped_ip_literal host with Some a => is_match set a | None => false end.
(** The address of a host that is written as one. *)
Definition local_literal (host : str) : bool :=
  let host_no_scope := default host (unscoped_ip_literal host) in
  if is_loopback_host host then true
  else match parse_ip host_no_scope with Some a => is_non_public_ip a | None => false end.
(** [host_blocked], on the state it reads. *)
Definition host_blocked s (host : str) (port : N) (lookup : str → N → Lookup) : HostBlockDecision :=
  match Host_parse host with
  | None => Blocked NotAllowed
  | Some host =>
      let allowed := allowed_domains (config s) in
      if globset_matches_host_or_unscoped (deny_set s) host then Blocked Denied
      else
        let is_allowlisted := globset_matches_host_or_unscoped (allow_set s) host in
        let local :=
          if negb (allow_local_binding (config s)) then
            if local_literal host then negb (is_explicit_local_allowlisted (default [] allowed) host)
            else host_resolves_to_non_public_ip host port lookup
          else false in
        if (local : bool) then Blocked NotAllowedLocal
        else if bool_decide (allowed = None) || negb is_allowlisted then Blocked NotAllowed
        else Allowed
  end.

(** [evaluate_host_policy], with the event it emits. *)
Definition evaluate_host_policy s (state_environment state_execution : option str)
    (decider : option (NetworkPolicyRequest → NetworkDecision)) (lookup : str → N → Lookup) (request : NetworkPolicyRequest) :
    NetworkDecision * NetworkPolicyAuditEvent :=
  let '(decision, override) :=
    match host_blocked s (request_host request) (request_port request) lookup with
    | Allowed => (AllowRequest, false)
    | Blocked NotAllowed =>
        match decider with
        | Some decide =>
            let request := mkPolicyRequest (protocol request) (request_host request) (request_port request)
              (match environment_id request with None => state_environment | e => e end)
              (client_addr request) (request_method request) (command request) (exec_policy_hint request) state_execution in
            let d := map_decider_decision (decide request) in
            (d, match d with AllowRequest => true | _ => false end)
        | None => (deny_with_source (reason_str NotAllowed) BaselinePolicy, false)
        end
    | Blocked reason => (deny_with_source (reason_str reason) BaselinePolicy, false)
    end in
  let '(policy_decision, source, reason) :=
    match decision with
    | AllowRequest =>
        (lit "allow", if (override : bool) then Decider else BaselinePolicy,
         if (override : bool) then reason_str NotAllowed else lit "allow")
    | DenyRequest reason source d => (policy_decision_str d, source, reason)
    end in
  (decision, mkAudit policy_decision source reason (protocol request) (request_host request) (request_port request)
               (request_method request) (client_addr request) override).

(** [TargetCheckedStreamConnector::connect]: whether the address may be
    connected to.  The switch and the lists are read one after the other, from
    the state [s] and, after what other tasks did, from [s']. *)
Definition allows_non_public_target s s' (target_to_string : TargetHost → str) (target : TargetHost) (port : N) (addr : IpAddr)
    (lookup : str → N → Lookup) : bool :=
  if allow_local_binding (config s) then true
  else if negb (target_matches_non_public_addr target addr) then false
  else bool_decide (host_blocked s' (target_to_string target) port lookup = Allowed).
Definition connect_permitted s s' (target_to_string : TargetHost → str) (target : TargetHost) (port : N) (addr : IpAddr)
    (lookup : str → N → Lookup) : bool :=
  negb (is_non_public_ip addr) || allows_non_public_target s s' target_to_string target port addr lookup.
(** [TargetCheckedTcpConnector::serve]: an input that carries the address of an
    upstream proxy is connected to that proxy, without a check. *)
Definition serve_permitted (upstream_proxy : option str) s s' (target_to_string : TargetHost → str) (target : TargetHost) (port : N)
    (addr : IpAddr) (lookup : str → N → Lookup) : bool :=
  match upstream_proxy with
  | Some _ => true
  | None => connect_permitted s s' target_to_string target port addr lookup
  end.

Definition method_allowed s (method : str) : bool := allows_method (mode (config s)) method.

(** ** Changes of the state *)

Definition with_blocked s (b : list (BlockedRequest Rest)) (total : N) : ConfigState :=
  mkState (config s) (brokerage_created_default_allowlist s) (allow_set s) (deny_set s) (mitm_state s) (hooks s)
    (constraints s) b total.
Definition with_mode s (m : NetworkMode) : ConfigState :=
  mkState (set_mode m (config s)) (brokerage_created_default_allowlist s) (allow_set s) (deny_set s) (mitm_state s) (hooks s)
    (constraints s) (blocked s) (blocked_total s).
(** The write of [record_blocked]. *)
Definition push_blocked s (entry : BlockedRequest Rest) : ConfigState :=
  let b := blocked s ++ [entry] in
  with_blocked s (drop (length b - MAX_BLOCKED_EVENTS) b) (u64_saturating_add (blocked_total s) 1).

(** The candidate of [update_domain_list] for the configuration that was read:
    the answer when there is nothing to write, or the state to write. *)
Definition updated_state (kind : DomainListKind) (normalized_host : str) (c : NetworkProxyConfig) (cs : NetworkProxyConstraints) :
    result (result anyhow unit) ConfigState :=
  let contains entries := existsb (λ entry, str_eqb (normalize_host entry) normalized_host) entries in
  if contains (list_entries kind c) && negb (contains (opposite_entries kind c)) then Err (Ok tt)
  else
    let candidate := upsert_domain_permission normalized_host (list_permission kind) normalize_host c in
    match validate_policy_against_constraints candidate cs with
    | Err e => Err (Err ((constraint_field kind ++ lit " constrained by managed config") :: into_anyhow e))
    | Ok _ =>
        match build_config_state mitm_new read_secret_file candidate cs with
        | Err e => Err (Err ((lit "failed to compile updated network " ++ list_name kind) :: e))
        | Ok new_state => Ok new_state
        end
    end.

(** ** Where states come from

    [NetworkProxySpec] of [core/src/config/network_proxy_spec.rs] checks a
    configuration against its constraints and builds the state of it; that state
    starts a proxy, is what its reloader gives, and replaces the one of a running
    proxy.  A proxy launched for a remote executor has no constraints. *)
Record NetworkProxySpec : Type := mkSpec { spec_config : NetworkProxyConfig; spec_constraints : NetworkProxyConstraints }.
Definition checked_spec (c : NetworkProxyConfig) (cs : NetworkProxyConstraints) : result anyhow NetworkProxySpec :=
  match validate_policy_against_constraints c cs with
  | Err e => Err [lit "network proxy constraints are invalid: " ++ concat (into_anyhow e)]
  | Ok _ => Ok (mkSpec c cs)
  end.
Definition build_config_state_for_spec (spec : NetworkProxySpec) : result anyhow ConfigState :=
  match build_config_state mitm_new read_secret_file (spec_config spec) (spec_constraints spec) with
  | Err e => Err [lit "failed to build network proxy state: " ++ hd [] e]
  | Ok s => Ok s
  end.
Definition remote_launch_state (c : NetworkProxyConfig) : result anyhow ConfigState :=
  if negb (enabled c) then Err [lit "executor-local network proxy launch requires an enabled proxy"]
  else build_config_state mitm_new read_secret_file c default_constraints.

(** ** Tasks *)

Inductive Answer : Type := Done (r : result anyhow unit) | Drained (r : result anyhow (list (BlockedRequest Rest))).
(** Where a task is: every operation but [force_reload] starts with
    [reload_if_needed], whose read and write are sections of their own. *)
Inductive Pc : Type :=
  | Idle (answer : option Answer)
  | Reload (next : Pc)
  | ReloadRead (new_state : ConfigState) (next : Pc)
  | ReloadWrite (new_state : ConfigState) (b : list (BlockedRequest Rest)) (total : N) (next : Pc)
  | UpdateRead (kind : DomainListKind) (host : str)
  | UpdateWrite (kind : DomainListKind) (host : str) (previous : NetworkProxyConfig) (cs : NetworkProxyConstraints) (new_state : ConfigState)
  | ModeRead (m : NetworkMode)
  | ModeWrite (m : NetworkMode) (cs : NetworkProxyConstraints)
  | RecordPush (entry : BlockedRequest Rest)
  | DrainTake
  | ReplaceWrite (new_state : ConfigState)
  | ForceReload
  | ForceWrite (new_state : ConfigState).
Inductive Op : Type :=
  | AddDomain (kind : DomainListKind) (host : str)
  | SetNetworkMode (m : NetworkMode)
  | RecordBlocked (entry : BlockedRequest Rest) (execution : option str)
  | DrainBlocked
  | ReplaceConfigState (new_state : ConfigState)
  | ForceReloadOp.

Definition call (op : Op) : Pc :=
  match op with
  | AddDomain kind host =>
      match Host_parse host with
      | None => Idle (Some (Done (Err [lit "invalid network host"; lit "host is empty"])))
      | Some host => Reload (UpdateRead kind host)
      end
  | SetNetworkMode m => Reload (ModeRead m)
  | RecordBlocked entry execution =>
      Reload (RecordPush (mkBlocked (blocked_host entry) (blocked_reason entry) execution (blocked_rest entry)))
  | DrainBlocked => Reload DrainTake
  | ReplaceConfigState new_state => Reload (ReplaceWrite new_state)
  | ForceReloadOp => ForceReload
  end.
(** What a task answers when its reload fails. *)
Fixpoint failed (next : Pc) (e : anyhow) : Answer :=
  match next with DrainTake => Drained (Err e) | Reload n => failed n e | _ => Done (Err e) end.

(** One section of a task; [reloaded] is the answer of [maybe_reload] or, for
    [force_reload], of [reload_now]. *)
Definition step s (pc : Pc) (reloaded : result anyhow (option ConfigState)) : option (ConfigState * Pc) :=
  match pc with
  | Idle _ => None
  | Reload next =>
      Some (s, match reloaded with
               | Err e => Idle (Some (failed next e))
               | Ok None => next
               | Ok (Some new_state) => ReloadRead new_state next
               end)
  | ReloadRead new_state next => Some (s, ReloadWrite new_state (blocked s) (blocked_total s) next)
  | ReloadWrite new_state b total next => Some (with_blocked new_state b total, next)
  | UpdateRead kind host =>
      Some (s, match updated_state kind host (config s) (constraints s) with
               | Err answer => Idle (Some (Done answer))
               | Ok new_state =>
                   UpdateWrite kind host (config s) (constraints s) (with_blocked new_state (blocked s) (blocked_total s))
               end)
  | UpdateWrite kind host previous cs new_state =>
      if bool_decide (constraints s ≠ cs) || bool_decide (config s ≠ previous)
      then Some (s, Reload (UpdateRead kind host))
      else Some (new_state, Idle (Some (Done (Ok tt))))
  | ModeRead m =>
      Some (s, match validate_policy_against_constraints (set_mode m (config s)) (constraints s) with
               | Err e => Idle (Some (Done (Err (lit "network.mode constrained by managed config" :: into_anyhow e))))
               | Ok _ => ModeWrite m (constraints s)
               end)
  | ModeWrite m cs =>
      if bool_decide (constraints s ≠ cs) then Some (s, Reload (ModeRead m))
      else Some (with_mode s m, Idle (Some (Done (Ok tt))))
  | RecordPush entry => Some (push_blocked s entry, Idle (Some (Done (Ok tt))))
  | DrainTake => Some (with_blocked s [] (blocked_total s), Idle (Some (Drained (Ok (blocked s)))))
  | ReplaceWrite new_state => Some (with_blocked new_state (blocked s) (blocked_total s), Idle (Some (Done (Ok tt))))
  | ForceReload =>
      match reloaded with
      | Ok (Some new_state) => Some (s, ForceWrite new_state)
      | Ok None => None
      | Err e => Some (s, Idle (Some (Done (Err e))))
      end
  | ForceWrite new_state => Some (with_blocked new_state (blocked s) (blocked_total new_state), Idle (Some (Done (Ok tt))))
  end.

(** The state and the tasks; a task calls an operation or takes a step. *)
Record System : Type := mkSystem { state : ConfigState; tasks : gmap nat Pc }.
Inductive Event : Type := Call (task : nat) (op : Op) | Step (task : nat) (reloaded : result anyhow (option ConfigState)).
Definition task_pc (sys : System) (task : nat) : Pc := default (Idle None) (tasks sys !! task).
Definition fire (sys : System) (ev : Event) : option System :=
  match ev with
  | Call task op =>
      match task_pc sys task with
      | Idle _ => Some (mkSystem (state sys) (<[task := call op]> (tasks sys)))
      | _ => None
      end
  | Step task reloaded =>
      match step (state sys) (task_pc sys task) reloaded with
      | Some (s, pc) => Some (mkSystem s (<[task := pc]> (tasks sys)))
      | None => None
      end
  end.
Fixpoint run_events (sys : System) (events : list Event) : System :=
  match events with
  | [] => sys
  | ev :: rest => run_events (default sys (fire sys ev)) rest
  end.
End Runtime.
