(* ===== verification/NetStateProofs.v ===== *)
(** * What a managed configuration guarantees

    A configuration that passes the check never allows a host the managed one
    does not allow, and denies every host it denies ([accepted_hosts_are_managed],
    [managed_denials_hold]) — for ordinary patterns; a pattern that is read in two
    ways gets around the check ([managed_allowlist_bypass]). *)
From stdpp Require Import strings.
From S2P Require Import Prelude RustStr NetAddr NetDomain NetDomainProofs NetConfig NetHook NetState.

(** A hash set is iterated over its elements. *)
Class NetHostLaws (NH : NetHost) : Prop := hash_order_elem : ∀ (X : gset str) x, x ∈ hash_order X ↔ x ∈ X.

Lemma filter_nil_iff {A} (P : A → Prop) `{∀ x, Decision (P x)} l : filter P l = [] ↔ ∀ x, x ∈ l → ¬ P x.
Proof.
  split; [intros Hf x Hx HP; by apply (filter_nil_not_elem_of P l x Hf HP)|].
  intros Hall. destruct (filter P l) as [|x l'] eqn:E; [done|].
  assert (x ∈ filter P l) as [? ?]%list_elem_of_filter by (rewrite E; by left). by destruct (Hall x).
Qed.
Lemma lower_set_elem x l : x ∈ lower_set l ↔ ∃ e, e ∈ l ∧ to_ascii_lowercase e = x.
Proof. unfold lower_set. rewrite elem_of_list_to_set, list_elem_of_fmap. naive_solver. Qed.

(** ** The check, as a proposition *)

Definition no_global (l : list str) : Prop := ∀ p, p ∈ l → is_global_wildcard_domain_pattern p = false.
Lemma wildcard_check_Ok field l : validate_non_global_wildcard_domain_patterns field l = Ok tt ↔ no_global l.
Proof.
  unfold validate_non_global_wildcard_domain_patterns, no_global.
  destruct (find_map _ l) as [p|] eqn:E.
  - split; [done|]. intros Hall. apply find_map_Some in E as (q & Hq & Hp). by rewrite Hall in Hp.
  - split; [intros _ p Hp|done]. eapply find_map_None in E; [|exact Hp]. by destruct (is_global_wildcard_domain_pattern p).
Qed.

Section Validation.
Context {NH : NetHost} {NL : NetHostLaws NH} {HC : HookCrates} {UH : UrlHost}.
Implicit Types (c : NetworkProxyConfig) (cs : NetworkProxyConstraints).

Definition flag_ok (candidate managed : bool) : Prop := candidate = true → managed = true.
Definition mode_ok (m : NetworkMode) (max : option NetworkMode) : Prop :=
  match max with None => True | Some max => network_mode_rank m ≤ network_mode_rank max end.
Definition allowed_ok cs (allowed denied : list str) : Prop :=
  match c_allowed_domains cs with
  | None => True
  | Some managed =>
      no_global managed ∧
      match allowlist_expansion_enabled cs with
      | Some true => lower_set managed ⊆ lower_set allowed ∪ lower_set denied
      | Some false => lower_set allowed = lower_set managed ∖ lower_set denied
      | None => ∀ e, e ∈ allowed → existsb (λ m, allows (parse_for_constraints m) (parse_for_constraints e)) managed = true
      end
  end.
Definition denied_ok cs (denied : list str) : Prop :=
  match c_denied_domains cs with
  | None => True
  | Some managed =>
      no_global managed ∧
      match denylist_expansion_enabled cs with
      | Some false => lower_set denied = lower_set managed
      | _ => lower_set managed ⊆ lower_set denied
      end
  end.
Definition sockets_ok cs (sockets : list str) : Prop :=
  match c_allow_unix_sockets cs with
  | None => True
  | Some managed => ∀ e, e ∈ sockets → to_ascii_lowercase e ∈ lower_set managed
  end.
Record respects c cs : Prop := {
  respects_hooks : validate_mitm_hook_config c = Ok tt;
  respects_no_global : no_global (default [] (denied_domains c));
  respects_enabled : flag_ok (enabled c) (default true (c_enabled cs));
  respects_mode : mode_ok (mode c) (c_mode cs);
  respects_upstream : flag_ok (allow_upstream_proxy c) (default true (c_allow_upstream_proxy cs));
  respects_loopback : flag_ok (dangerously_allow_non_loopback_proxy c) (default true (c_non_loopback_proxy cs));
  respects_all_sockets : flag_ok (dangerously_allow_all_unix_sockets c)
    (default (bool_decide (c_allow_unix_sockets cs = None)) (c_all_unix_sockets cs));
  respects_local : flag_ok (allow_local_binding c) (default true (c_allow_local_binding cs));
  respects_allowed : allowed_ok cs (default [] (allowed_domains c)) (default [] (denied_domains c));
  respects_denied : denied_ok cs (default [] (denied_domains c));
  respects_sockets : sockets_ok cs (allow_unix_sockets c);
}.

Lemma check_flag_Ok field a b : check_flag field a b = Ok tt ↔ flag_ok a b.
Proof. unfold check_flag, flag_ok. destruct a, b; cbn; naive_solver. Qed.
Lemma check_mode_Ok m max : check_mode m max = Ok tt ↔ mode_ok m max.
Proof.
  unfold check_mode, mode_ok. destruct max as [max|]; [|done].
  destruct (network_mode_rank max <? network_mode_rank m)%nat eqn:E; reflect_bools; split; (done || lia).
Qed.
Lemma check_allowed_Ok cs allowed denied : check_allowed_domains cs allowed denied = Ok tt ↔ allowed_ok cs allowed denied.
Proof using NL.
  unfold check_allowed_domains, allowed_ok. destruct (c_allowed_domains cs) as [managed|]; [|done].
  rewrite <- (wildcard_check_Ok (lit "network.allowed_domains")).
  destruct (validate_non_global_wildcard_domain_patterns _ managed) as [[]|]; [|naive_solver].
  destruct (allowlist_expansion_enabled cs) as [[]|].
  - transitivity (filter (λ e, e ∉ lower_set allowed ∧ e ∉ lower_set denied) (hash_order (lower_set managed)) = []).
    { destruct (filter _ _); naive_solver. }
    rewrite filter_nil_iff. setoid_rewrite hash_order_elem. split; [|set_solver].
    intros Hall. split; [done|]. intros x Hx. specialize (Hall x Hx). apply elem_of_union.
    destruct (decide (x ∈ lower_set allowed)), (decide (x ∈ lower_set denied)); tauto.
  - case_bool_decide; naive_solver.
  - match goal with |- context [filter ?P allowed] => transitivity (filter P allowed = []) end; [destruct (filter _ _); naive_solver|].
    rewrite filter_nil_iff. setoid_rewrite not_false_iff_true.
    assert (∀ e, existsb (λ m, allows m (parse_for_constraints e)) (parse_for_constraints <$> managed) =
                 existsb (λ m, allows (parse_for_constraints m) (parse_for_constraints e)) managed) as He.
    { intros e. induction managed as [|m managed IH]; cbn; [done|]. by rewrite IH. }
    setoid_rewrite He. naive_solver.
Qed.
Lemma check_denied_Ok cs denied : check_denied_domains cs denied = Ok tt ↔ denied_ok cs denied.
Proof using NL.
  unfold check_denied_domains, denied_ok. destruct (c_denied_domains cs) as [managed|]; [|done].
  rewrite <- (wildcard_check_Ok (lit "network.denied_domains")).
  destruct (validate_non_global_wildcard_domain_patterns _ managed) as [[]|]; [|naive_solver].
  assert (∀ r, (match filter (λ e, e ∉ lower_set denied) (hash_order (lower_set managed)) with [] => Ok tt | _ :: _ => Err r end : checked) = Ok tt ↔
          lower_set managed ⊆ lower_set denied) as Hm.
  { intros r. transitivity (filter (λ e, e ∉ lower_set denied) (hash_order (lower_set managed)) = []); [destruct (filter _ _); naive_solver|].
    rewrite filter_nil_iff. setoid_rewrite hash_order_elem. split; [|set_solver].
    intros Hall x Hx. specialize (Hall x Hx). destruct (decide (x ∈ lower_set denied)); tauto. }
  destruct (denylist_expansion_enabled cs) as [[]|].
  - match goal with |- context [Err ?r] => rewrite (Hm r) end. naive_solver.
  - case_bool_decide; naive_solver.
  - match goal with |- context [Err ?r] => rewrite (Hm r) end. naive_solver.
Qed.
Lemma check_sockets_Ok cs sockets : check_unix_sockets cs sockets = Ok tt ↔ sockets_ok cs sockets.
Proof.
  unfold check_unix_sockets, sockets_ok. destruct (c_allow_unix_sockets cs) as [managed|]; [|done].
  transitivity (filter (λ e, to_ascii_lowercase e ∉ lower_set managed) sockets = []); [destruct (filter _ _); naive_solver|].
  rewrite filter_nil_iff. split; [|naive_solver]. intros Hall e He. specialize (Hall e He).
  destruct (decide (to_ascii_lowercase e ∈ lower_set managed)); [done|]. by destruct Hall.
Qed.
Lemma checked_then (r : checked) (k : checked) : (let? _ := r in k) = Ok tt ↔ r = Ok tt ∧ k = Ok tt.
Proof. destruct r as [[]|]; naive_solver. Qed.

(** The check succeeds on exactly the configurations that respect the
    constraints. *)
Lemma validate_Ok c cs : validate_policy_against_constraints c cs = Ok tt ↔ respects c cs.
Proof using NL.
  unfold validate_policy_against_constraints.
  rewrite !checked_then, wildcard_check_Ok, !check_flag_Ok, check_mode_Ok, check_allowed_Ok, check_denied_Ok, check_sockets_Ok.
  assert (map_err invalid_mitm_hook_configuration (validate_mitm_hook_config c) = Ok tt ↔ validate_mitm_hook_config c = Ok tt) as ->
    by (destruct (validate_mitm_hook_config c) as [[]|]; naive_solver).
  split; [intros (?&?&?&?&?&?&?&?&?&?&?); by split|by intros []].
Qed.
End Validation.

(** ** Case *)

(** Ordinary entries that differ in case match the same hosts. *)
Lemma lower_prefix f d : to_ascii_lowercase (prefix_text f ++ d) = prefix_text f ++ to_ascii_lowercase d.
Proof. unfold to_ascii_lowercase. rewrite fmap_app. by destruct f. Qed.
Lemma body_lower_strip f d : body f d →
  contains (lit "**") (to_ascii_lowercase d) = false ∧ (f = FExact → starts_with (lit "*.") (to_ascii_lowercase d) = false).
Proof.
  intros [_ Hdd _ _ Hex _]. rewrite contains_lower, starts_with_lower by (by repeat constructor). done.
Qed.
Lemma ordinary_case_insensitive e e' h :
  ordinary e = true → ordinary e' = true → to_ascii_lowercase e = to_ascii_lowercase e' → pattern_matches e h = pattern_matches e' h.
Proof.
  intros (f & d & -> & Hb)%ordinary_spec (f' & d' & -> & Hb')%ordinary_spec. rewrite !lower_prefix, !entry_matches by done.
  destruct (body_lower_strip f d Hb) as [H1 H2], (body_lower_strip f' d' Hb') as [H1' H2'].
  destruct (strip_forms f _ H1 H2) as [Ha Hs], (strip_forms f' _ H1' H2') as [Ha' Hs'].
  intros Heq. rewrite Heq, Ha' in Ha. rewrite Heq, Hs' in Hs.
  destruct f, f'; simplify_eq; cbn in Heq; congruence.
Qed.

(** ** Hosts of an accepted configuration *)

Section Accepted.
Context `{GL : GlobLaws Glob GlobSet}.
Implicit Types (c : NetworkProxyConfig) (cs : NetworkProxyConstraints).

Lemma compiled_matches_simple l gw set h :
  forallb ordinary l = true → compile_globset_with_policy l gw = Ok set → host_text h = true →
  is_match set h = existsb (λ p, pattern_matches p h) l.
Proof using Type*.
  intros Hl Hc Hh. apply (compiled_set_matches h gw); [done| |done].
  rewrite forallb_Forall in Hl |- *. eapply Forall_impl; [exact Hl|]. intros e (f & d & -> & Hb)%ordinary_spec. by apply entry_simple.
Qed.
Lemma ordinary_elem l e : forallb ordinary l = true → e ∈ l → ordinary e = true.
Proof. rewrite forallb_Forall, Forall_forall. auto. Qed.

(** A host the managed deny list matches is matched by the accepted one. *)
Lemma managed_denials_hold cs managed denied set_m set_c h :
  denied_ok cs denied → c_denied_domains cs = Some managed →
  forallb ordinary managed = true → forallb ordinary denied = true →
  compile_denylist_globset managed = Ok set_m → compile_denylist_globset denied = Ok set_c →
  plain_host h = true → is_match set_m h = true → is_match set_c h = true.
Proof using Type*.
  unfold denied_ok. intros Hok Hcs Hm Hd Hsm Hsc Hh. rewrite Hcs in Hok. destruct Hok as [_ Hok].
  assert (lower_set managed ⊆ lower_set denied) as Hsub by (by destruct (denylist_expansion_enabled cs) as [[]|]; set_solver). clear Hok.
  apply andb_true_iff in Hh as [Hh _]. rewrite (compiled_matches_simple denied RejectGlobal set_c h) by done.
  rewrite (compiled_matches_simple managed RejectGlobal set_m h) by done.
  intros (m & Hin & Hp)%existsb_true_elem.
  assert (to_ascii_lowercase m ∈ lower_set denied) as (e & He & Hl)%lower_set_elem by (apply Hsub, lower_set_elem; eauto).
  apply (existsb_elem _ e); [done|]. rewrite <- Hp. apply ordinary_case_insensitive; eauto using ordinary_elem.
Qed.

Context {UH : UrlHost} {UL : UrlHostLaws UH}.
(** A host the accepted allow list matches is matched by the managed one, unless
    the managed configuration lets the list grow. *)
Lemma accepted_hosts_are_managed cs managed allowed denied set_m set_c h :
  allowed_ok cs allowed denied → c_allowed_domains cs = Some managed → allowlist_expansion_enabled cs ≠ Some true →
  forallb ordinary managed = true → forallb ordinary allowed = true →
  compile_allowlist_globset managed = Ok set_m → compile_allowlist_globset allowed = Ok set_c →
  plain_host h = true → is_match set_c h = true → is_match set_m h = true.
Proof using Type*.
  unfold allowed_ok. intros Hok Hcs Hexp Hm Ha Hsm Hsc Hh. rewrite Hcs in Hok. destruct Hok as [_ Hok].
  destruct (allowlist_expansion_enabled cs) as [[]|]; [done| |].
  - apply andb_true_iff in Hh as [Hh _]. rewrite (compiled_matches_simple allowed AllowGlobal set_c h) by done.
    rewrite (compiled_matches_simple managed AllowGlobal set_m h) by done.
    intros (e & He & Hp)%existsb_true_elem.
    assert (to_ascii_lowercase e ∈ lower_set managed) as (m & Hin & Hl)%lower_set_elem.
    { assert (to_ascii_lowercase e ∈ lower_set allowed) by (apply lower_set_elem; eauto). set_solver. }
    apply (existsb_elem _ m); [done|]. rewrite <- Hp. apply ordinary_case_insensitive; eauto using ordinary_elem.
  - eapply (managed_patterns_cover managed allowed); try done. apply forallb_Forall, Forall_forall. apply Hok.
Qed.
End Accepted.

(** ** States that are built *)

Lemma no_global_same l l' : (∀ p, p ∈ l ↔ p ∈ l') → no_global l → no_global l'.
Proof. unfold no_global. naive_solver. Qed.
Lemma lower_set_same l l' : (∀ p, p ∈ l ↔ p ∈ l') → lower_set l = lower_set l'.
Proof. intros Hl. apply set_eq. intros x. rewrite !lower_set_elem. naive_solver. Qed.
Lemma denied_ok_same cs l l' : (∀ p, p ∈ l ↔ p ∈ l') → denied_ok cs l → denied_ok cs l'.
Proof.
  intros Hl. unfold denied_ok. destruct (c_denied_domains cs); [|done]. by rewrite (lower_set_same l l').
Qed.

Section Built.
Context {NH : NetHost} {NL : NetHostLaws NH} {HC : HookCrates} {UH : UrlHost} `{GC : GlobCrate Glob GlobSet}.
Context {MitmState Rest : Type}.
Context (mitm_new : bool → result anyhow MitmState).
Context (read_secret_file : NetAbs → result anyhow str).
Abbreviation ConfigState := (ConfigState (GlobSet := GlobSet) (MitmState := MitmState) (Rest := Rest)).

(** The configuration of a state respects its constraints, and its sets are
    compiled from the lists of the configuration. *)
Record built (s : ConfigState) : Prop := {
  built_respects : respects (config s) (constraints s);
  built_allow : compile_allowlist_globset (default [] (allowed_domains (config s))) = Ok (allow_set s);
  built_deny : compile_denylist_globset (default [] (denied_domains (config s))) = Ok (deny_set s);
}.

Lemma respects_broker_off c cs : respects c cs → respects (set_mitm (mitm c) false c) cs.
Proof. intros []. by split. Qed.
Lemma respects_enabled_on c cs : c_enabled cs ≠ Some false → respects c cs → respects (set_enabled true c) cs.
Proof. intros Hc []. split; try done. cbn. intros _. by destruct (c_enabled cs) as [[]|]. Qed.
Lemma respects_allow_all c cs : c_allowed_domains cs = None → respects c cs → respects (set_allowed_domains [lit "*"] c) cs.
Proof.
  intros Hc []. assert (∀ p, p ∈ default [] (denied_domains c) ↔ p ∈ default [] (denied_domains (set_allowed_domains [lit "*"] c))) as Hd
    by (intros p; by rewrite set_allowed_keeps_denied).
  split; try done.
  - by apply (no_global_same _ _ Hd).
  - unfold allowed_ok. by rewrite Hc.
  - by apply (denied_ok_same _ _ _ Hd).
Qed.
(** The switches of the credential broker stay within the constraints. *)
Lemma broker_respects c cs : respects c cs → respects (broker_config c cs).1 cs.
Proof.
  unfold broker_config. intros Hr.
  set (c1 := if bool_decide (c_enabled cs = Some false) then _ else c).
  assert (respects c1 cs ∧ (c_enabled cs = Some false → credential_broker c1 = false)) as [Hr1 Hb1].
  { unfold c1. case_bool_decide; [split; [by apply respects_broker_off|done]|done]. }
  clearbody c1. cbn zeta. destruct (credential_broker c1 && negb (enabled c1)) eqn:Ec; cbn [andb fst]; [|done].
  apply andb_true_iff in Ec as [Ec _].
  assert (respects (set_enabled true c1) cs) by (apply respects_enabled_on; [intros H%Hb1; congruence|done]).
  destruct (bool_decide _ && bool_decide _) eqn:Ea; [|done]. apply andb_true_iff in Ea as [_ Ea%bool_decide_eq_true].
  by apply respects_allow_all.
Qed.

(** A state built from a configuration that passes the check. *)
Lemma build_built c cs (s : ConfigState) :
  validate_policy_against_constraints c cs = Ok tt → build_config_state mitm_new read_secret_file c cs = Ok s →
  built s ∧ constraints s = cs ∧ config s = (broker_config c cs).1.
Proof using NL.
  intros Hv%validate_Ok%broker_respects. unfold build_config_state. destruct (broker_config c cs) as [c' created]. cbn [fst] in *.
  intros Hb. repeat (break_match_hyp Hb; try discriminate Hb). all: simplify_eq; by split_and!; [split|..].
Qed.
End Built.

(** ** A pattern that is read in two ways *)

Section Bypass.
Context {NH : NetHost} {NL : NetHostLaws NH} {HC : HookCrates} {UH : UrlHost} {UL : UrlHostLaws UH} `{GL : GlobLaws Glob GlobSet}.

Definition only_managed : NetworkProxyConstraints :=
  mkConstraints None None None None None (Some [lit "*.example.com"]) None None None None None.
Definition two_faced : NetworkProxyConfig :=
  set_domains (Some [mkPerm (lit "evil.com:*.example.com") Allow]) default_config.

(** C40: the check can be bypassed.  An entry with a wildcard is compared by its
    text, port and all, but compiled without its port: the entry
    [evil.com:*.example.com] passes as a subdomain of a managed pattern and
    allows [evil.com], which the managed list does not. *)
Theorem managed_allowlist_bypass :
  validate_policy_against_constraints two_faced only_managed = Ok tt ∧
  (∀ set, compile_allowlist_globset (default [] (allowed_domains two_faced)) = Ok set → is_match set (lit "evil.com") = true) ∧
  (∀ set, compile_allowlist_globset [lit "*.example.com"] = Ok set → is_match set (lit "evil.com") = false).
Proof using NL UL GL.
  split_and!.
  - apply validate_Ok. split; try done.
    + assert (denied_domains two_faced = None) as -> by (by vm_compute). by intros p ?%elem_of_nil.
    + unfold allowed_ok, only_managed. cbn [c_allowed_domains allowlist_expansion_enabled].
      split; [intros p ->%list_elem_of_singleton; by vm_compute|].
      assert (allowed_domains two_faced = Some [lit "evil.com:*.example.com"]) as -> by (by vm_compute). intros e ->%list_elem_of_singleton.
      cbn [existsb]. rewrite orb_false_r.
      assert (parse_for_constraints (lit "*.example.com") = SubdomainsOnly (lit "example.com")) as ->.
      { change (parse_for_constraints (lit "*.example.com")) with (SubdomainsOnly (default [] (url_host_parse (lit "example.com")))).
        by rewrite (parse_domain_name (lit "example.com")) by (by vm_compute). }
      by vm_compute.
  - intros set Hs. eapply (compiled_set_includes _ AllowGlobal _ (lit "evil.com:*.example.com")); [| | | |exact Hs]; try by vm_compute.
    by left.
  - intros set Hs. rewrite (compiled_set_matches (lit "evil.com") AllowGlobal [lit "*.example.com"] set); [by vm_compute..|done].
Qed.
End Bypass.
