(* ===== verification/NetRuntimeProofs.v ===== *)
(** * What the network proxy guarantees

    Which hosts are let through, that an address that is not public is reached
    only when it is listed, and that the state stays within the managed
    configuration whatever tasks do at the same time. *)
From stdpp Require Import strings.
From S2P Require Import Prelude RustStr NetAddr NetDomain NetDomainProofs NetConfig NetHook NetState NetStateProofs NetRuntime.

(** ** Hosts *)

(** An IP address has no percent sign. *)
Lemma read_digits_rest radix digits n v s r k rest : read_digits radix digits n v s = Some (r, k, rest) →
  ∃ t, s = t ++ rest ∧ chr "%" ∉ t.
Proof.
  revert n v. induction s as [|c s IH]; intros n v; cbn [read_digits].
  { intros [= <- <- <-]. exists []. split; [done|set_solver]. }
  destruct (to_digit radix c) eqn:Ec; [|intros [= <- <- <-]; exists []; split; [done|set_solver]].
  destruct (_ <? _)%nat; [done|]. intros (t & -> & Ht)%IH. exists (c :: t). split; [done|].
  apply not_elem_of_cons. split; [|done]. intros <-. by vm_compute in Ec.
Qed.
Definition pure_prefix (s rest : str) : Prop := ∃ t, s = t ++ rest ∧ chr "%" ∉ t.
Lemma pure_trans s r r' : pure_prefix s r → pure_prefix r r' → pure_prefix s r'.
Proof. intros (t & -> & ?) (t' & -> & ?). exists (t ++ t'). rewrite <- app_assoc. split; [done|set_solver]. Qed.
Lemma pure_refl s : pure_prefix s s.
Proof. exists []. split; [done|set_solver]. Qed.
Lemma read_number_pure radix digits z max s n rest : read_number radix digits z max s = Some (n, rest) → pure_prefix s rest.
Proof. unfold read_number. intros H. repeat (break_match_hyp H; try discriminate H). simplify_eq. by eapply read_digits_rest. Qed.
Lemma read_char_pure c s rest : c ≠ chr "%" → read_given_char c s = Some rest → pure_prefix s rest.
Proof.
  intros Hc. destruct s as [|d s]; cbn; [done|]. destruct (N.eqb_spec d c) as [->|]; [|done]. intros [= ->].
  exists [c]. split; [done|]. set_solver.
Qed.
Lemma read_separator_pure {A} sep i (inner : str → option (A * str)) s a rest :
  sep ≠ chr "%" → (∀ s a rest, inner s = Some (a, rest) → pure_prefix s rest) →
  read_separator sep i inner s = Some (a, rest) → pure_prefix s rest.
Proof.
  intros Hs Hin. unfold read_separator. destruct i; [apply Hin|]. destruct (read_given_char sep s) as [s'|] eqn:E; [|done].
  intros ?%Hin. eapply pure_trans; [by eapply read_char_pure|done].
Qed.
Lemma read_octet_pure i s n rest : read_octet i s = Some (n, rest) → pure_prefix s rest.
Proof. apply read_separator_pure; [done|]. apply read_number_pure. Qed.
Lemma read_ipv4_pure s n rest : read_ipv4_addr s = Some (n, rest) → pure_prefix s rest.
Proof.
  unfold read_ipv4_addr. intros H. run H.
  repeat match goal with E : read_octet _ _ = Some _ |- _ => apply read_octet_pure in E end. eauto using pure_trans.
Qed.
Lemma read_groups_pure left i s gs v4 rest : read_groups left i s = (gs, v4, rest) → pure_prefix s rest.
Proof.
  revert i s gs v4 rest. induction left as [|left IH]; intros i s gs v4 rest; cbn [read_groups].
  { intros [= <- <- <-]. apply pure_refl. }
  destruct (if (2 <=? S left)%nat then _ else None) as [[a s']|] eqn:Ea.
  - intros [= <- <- <-]. destruct (2 <=? S left)%nat; [|done]. eapply read_separator_pure in Ea; [done|done|apply read_ipv4_pure].
  - destruct (read_separator _ _ (read_number _ _ _ _) s) as [[g s']|] eqn:Eg; [|intros [= <- <- <-]; apply pure_refl].
    destruct (read_groups left (S i) s') as [[gs' v4'] s''] eqn:Er. intros [= <- <- <-].
    apply read_separator_pure in Eg; [|done|apply read_number_pure]. eauto using pure_trans.
Qed.
Lemma parse_ip_no_percent s a : parse_ip s = Some a → chr "%" ∉ s.
Proof.
  unfold parse_ip, read_ip_addr, read_ipv6_addr. intros H.
  assert (pure_prefix s []) as (t & -> & ?); [|by rewrite app_nil_r].
  repeat (break_match_hyp H; try discriminate H); simplify_eq.
  - by eapply read_ipv4_pure.
  - by eapply read_groups_pure.
  - repeat match goal with
    | E : read_groups _ _ _ = _ |- _ => apply read_groups_pure in E
    | E : read_given_char _ _ = _ |- _ => apply read_char_pure in E; [|done]
    end. eauto using pure_trans.
Qed.
Lemma split_once_None c s : c ∉ s → split_once c s = None.
Proof.
  induction s as [|d s IH]; [done|]. rewrite not_elem_of_cons. intros [Hd Hs]. cbn.
  rewrite (proj2 (N.eqb_neq d c)) by congruence. by rewrite IH.
Qed.
Lemma unscoped_no_percent h : chr "%" ∉ h → unscoped_ip_literal h = None.
Proof. intros Hh. unfold unscoped_ip_literal. by rewrite split_once_None. Qed.

(** A host written as an address that is not public, or as [localhost]. *)
Lemma local_literal_ip h a : parse_ip h = Some a → is_non_public_ip a = true → local_literal h = true.
Proof.
  intros Hp Hn. unfold local_literal. destruct (is_loopback_host h); [done|].
  rewrite unscoped_no_percent by (by eapply parse_ip_no_percent). cbn. by rewrite Hp.
Qed.
Lemma local_literal_localhost : local_literal (lit "localhost") = true.
Proof. by vm_compute. Qed.

Lemma trim_end_matches_fmap p q (f : char → char) s :
  (∀ c, p (f c) = q c) → trim_end_matches p (f <$> s) = f <$> trim_end_matches q s.
Proof.
  intros Hpq. induction s as [|c s IH]; [done|]. cbn. rewrite IH, Hpq.
  by destruct (trim_end_matches q s), (q c).
Qed.
Lemma trim_end_lower n : trim_end_char (chr ".") (to_ascii_lowercase n) = to_ascii_lowercase (trim_end_char (chr ".") n).
Proof.
  apply trim_end_matches_fmap. intros c. apply eq_iff_eq_true. rewrite !N.eqb_eq, !(eq_comm (chr ".")), to_lower_other by done.
  split; [naive_solver|by intros ->].
Qed.

Section Decisions.
Context {NH : NetHost} {HC : HookCrates} {UH : UrlHost} `{GC : GlobCrate Glob GlobSet}.
Context {MitmState Rest : Type}.
Abbreviation ConfigState := (ConfigState (GlobSet := GlobSet) (MitmState := MitmState) (Rest := Rest)).
Implicit Types (s : ConfigState) (lookup : str → N → Lookup).

(** When a host is let through. *)
Definition let_through s (h : str) (port : N) lookup : Prop :=
  globset_matches_host_or_unscoped (deny_set s) h = false ∧
  is_Some (allowed_domains (config s)) ∧ globset_matches_host_or_unscoped (allow_set s) h = true ∧
  (allow_local_binding (config s) = true ∨
   (if local_literal h then is_explicit_local_allowlisted (default [] (allowed_domains (config s))) h = true
    else host_resolves_to_non_public_ip h port lookup = false)).
Lemma host_blocked_Allowed s host port lookup :
  host_blocked s host port lookup = Allowed ↔ ∃ h, Host_parse host = Some h ∧ let_through s h port lookup.
Proof.
  unfold host_blocked, let_through. destruct (Host_parse host) as [h|]; [|split; [done|by intros (? & ? & _)]].
  destruct (globset_matches_host_or_unscoped (deny_set s) h) eqn:Hd; [split; [done|intros (? & [= <-] & ? & _); congruence]|]. cbn zeta.
  set (local := if negb (allow_local_binding (config s)) then _ else false).
  assert (local = false ↔ allow_local_binding (config s) = true ∨
    (if local_literal h then is_explicit_local_allowlisted (default [] (allowed_domains (config s))) h = true
     else host_resolves_to_non_public_ip h port lookup = false)) as Hl.
  { unfold local. destruct (allow_local_binding (config s)), (local_literal h); cbn; rewrite ?negb_false_iff; naive_solver. }
  clearbody local. split.
  - intros Ha. exists h. split; [done|]. rewrite <- Hl.
    destruct local, (allowed_domains (config s)), (globset_matches_host_or_unscoped (allow_set s) h); done.
  - intros (? & [= <-] & _ & [l Hs] & -> & ->%Hl). by rewrite Hs.
Qed.

(** The text of a target: an address is written so that it reads back, a name
    stands for itself. *)
Definition target_text (target_to_string : TargetHost → str) (t : TargetHost) : Prop :=
  match t with
  | Address a => ∃ h, Host_parse (target_to_string t) = Some h ∧ parse_ip h = Some a
  | Name n => target_to_string t = n ∧ forallb body_char n = true
  end.

(** C3: unless local networking is switched on, or the request goes to an
    upstream proxy, the proxy connects to an address that is not public only when the request names that address itself, or
    [localhost] for a loopback address, and the name is written out on the allow
    list and matched by no entry of the deny list: neither a wildcard nor a name
    that resolves to such an address is enough.  The state may change between
    the two reads of the check. *)
Theorem private_addresses_must_be_listed s0 s target_to_string target port addr lookup :
  allow_local_binding (config s0) = false → allow_local_binding (config s) = false → target_text target_to_string target →
  serve_permitted None s0 s target_to_string target port addr lookup = true → is_non_public_ip addr = true →
  (target = Address addr ∨ ∃ n, target = Name n ∧ is_localhost_name n = true ∧ is_loopback addr = true) ∧
  ∃ h, Host_parse (target_to_string target) = Some h ∧
       is_explicit_local_allowlisted (default [] (allowed_domains (config s))) h = true ∧
       globset_matches_host_or_unscoped (deny_set s) h = false.
Proof.
  unfold serve_permitted, connect_permitted, allows_non_public_target. intros Hlocal0 Hlocal Hok Hc Hn.
  rewrite Hn, Hlocal0 in Hc. cbn in Hc.
  destruct (target_matches_non_public_addr target addr) eqn:Ht; [|done]. cbn in Hc. apply bool_decide_eq_true in Hc.
  apply host_blocked_Allowed in Hc as (h & Hh & Hd & _ & _ & [?|Hex]); [congruence|].
  assert (local_literal h = true) as Hl.
  { destruct target as [a|n]; cbn in Ht.
    - apply bool_decide_eq_true in Ht as ->. destruct Hok as (h' & Hh' & ?). simplify_eq. by eapply local_literal_ip.
    - apply andb_true_iff in Ht as [Ht%str_eqb_eq _]. destruct Hok as [Htext Hn']. rewrite Htext in Hh. unfold Host_parse in Hh.
      rewrite normalize_host_text in Hh by (by apply forallb_Forall).
      assert (trim_end_char (chr ".") (to_ascii_lowercase n) = lit "localhost") as Hloc by (by rewrite trim_end_lower).
      rewrite Hloc in Hh. by simplify_eq/=. }
  rewrite Hl in Hex. split; [|by exists h].
  destruct target as [a|n]; cbn in Ht; [left; by apply bool_decide_eq_true in Ht as ->|right].
  apply andb_true_iff in Ht as [? ?]. eauto.
Qed.
End Decisions.

Section Managed.
Context {NH : NetHost} {HC : HookCrates} {UH : UrlHost} {UL : UrlHostLaws UH} `{GL : GlobLaws Glob GlobSet}.
Context {MitmState Rest : Type}.
Abbreviation ConfigState := (ConfigState (GlobSet := GlobSet) (MitmState := MitmState) (Rest := Rest)).
Implicit Types (s : ConfigState).

(** C6: a managed configuration cannot be widened.  A host the proxy lets through
    is matched by the managed allow list, if there is one and the managed
    configuration does not let it grow, and by no entry of the managed deny list,
    if there is one; each with ordinary patterns, without ports, brackets and
    scopes, in the managed list and in the list in force. *)
Theorem managed_lists_are_enforced s host h port lookup :
  built s → Host_parse host = Some h → plain_host h = true → chr "%" ∉ h → host_blocked s host port lookup = Allowed →
  (∀ managed set, c_allowed_domains (constraints s) = Some managed → allowlist_expansion_enabled (constraints s) ≠ Some true →
     forallb ordinary (managed ++ default [] (allowed_domains (config s))) = true →
     compile_allowlist_globset managed = Ok set → is_match set h = true) ∧
  (∀ managed set, c_denied_domains (constraints s) = Some managed →
     forallb ordinary (managed ++ default [] (denied_domains (config s))) = true →
     compile_denylist_globset managed = Ok set → is_match set h = false).
Proof using UL GL.
  intros [Hr Ha Hd] Hp Hh Hpc (h' & Hp' & Hdeny & _ & Hallow & _)%host_blocked_Allowed.
  simplify_eq. unfold globset_matches_host_or_unscoped in Hdeny, Hallow.
  rewrite unscoped_no_percent, orb_false_r in Hdeny, Hallow by done.
  split; intros managed set Hm; [intros Hexp|]; rewrite forallb_app, andb_true_iff; intros [? ?] Hc.
  - eapply (accepted_hosts_are_managed (constraints s) managed (default [] (allowed_domains (config s)))); try done. apply Hr.
  - destruct (is_match set h) eqn:E; [|done]. rewrite <- Hdeny. symmetry.
    eapply (managed_denials_hold (constraints s) managed (default [] (denied_domains (config s)))); try done. apply Hr.
Qed.
End Managed.

Section Tasks.
Context {NH : NetHost} {NL : NetHostLaws NH} {HC : HookCrates} {UH : UrlHost} `{GC : GlobCrate Glob GlobSet}.
Context {MitmState Rest : Type}.
Context (mitm_new : bool → result anyhow MitmState).
Context (read_secret_file : NetAbs → result anyhow str).
Abbreviation ConfigState := (ConfigState (GlobSet := GlobSet) (MitmState := MitmState) (Rest := Rest)).
Abbreviation step := (step mitm_new read_secret_file).
Abbreviation fire := (fire mitm_new read_secret_file).
Abbreviation run_events := (run_events mitm_new read_secret_file).
Abbreviation updated_state := (updated_state mitm_new read_secret_file).
Implicit Types (s : ConfigState).

(** ** The invariant *)

Definition state_ok s : Prop := built s ∧ length (blocked s) ≤ MAX_BLOCKED_EVENTS.
(** What a task carries from one section to the next. *)
Fixpoint pc_ok (pc : Pc (GlobSet := GlobSet) (MitmState := MitmState) (Rest := Rest)) : Prop :=
  match pc with
  | Reload next => pc_ok next
  | ReloadRead new_state next => built new_state ∧ pc_ok next
  | ReloadWrite new_state b _ next => built new_state ∧ length b ≤ MAX_BLOCKED_EVENTS ∧ pc_ok next
  | UpdateWrite kind host previous cs new_state =>
      state_ok new_state ∧ constraints new_state = cs ∧
      ∃ fresh b total, updated_state kind host previous cs = Ok fresh ∧ new_state = with_blocked fresh b total
  | ModeWrite m cs => mode_ok m (c_mode cs)
  | ReplaceWrite new_state | ForceWrite new_state => built new_state
  | _ => True
  end.
(** The states the program makes from configurations: of a specification, or of
    a remote launch. *)
Inductive loaded s : Prop :=
  | from_spec c cs spec :
      checked_spec c cs = Ok spec → build_config_state_for_spec mitm_new read_secret_file spec = Ok s → loaded s
  | from_remote_launch c : remote_launch_state mitm_new read_secret_file c = Ok s → loaded s.
Definition event_loaded (ev : Event (GlobSet := GlobSet) (MitmState := MitmState) (Rest := Rest)) : Prop :=
  match ev with
  | Call _ (ReplaceConfigState new_state) | Step _ (Ok (Some new_state)) => loaded new_state
  | _ => True
  end.
Definition event_ok (ev : Event (GlobSet := GlobSet) (MitmState := MitmState) (Rest := Rest)) : Prop :=
  match ev with
  | Call _ (ReplaceConfigState new_state) | Step _ (Ok (Some new_state)) => built new_state
  | _ => True
  end.
Definition system_ok (sys : System (GlobSet := GlobSet) (MitmState := MitmState) (Rest := Rest)) : Prop :=
  state_ok (state sys) ∧ map_Forall (λ _ pc, pc_ok pc) (tasks sys).

Lemma with_blocked_built s b total : built s → built (with_blocked s b total).
Proof. by intros [? ? ?]. Qed.
Lemma with_mode_built s m : mode_ok m (c_mode (constraints s)) → built s → built (with_mode s m).
Proof. intros Hm [[] Ha Hd]. by split; [split|..]. Qed.
Lemma push_blocked_ok s e : state_ok s → state_ok (push_blocked s e).
Proof.
  intros [Hb Hl]. split; [by apply with_blocked_built|]. cbn. rewrite length_drop. lia.
Qed.
Lemma updated_state_built kind host c cs s : updated_state kind host c cs = Ok s → built s ∧ constraints s = cs ∧
  config s = (broker_config (upsert_domain_permission host (list_permission kind) normalize_host c) cs).1.
Proof using NL.
  unfold NetRuntime.updated_state. intros H. repeat (break_match_hyp H; try discriminate H). simplify_eq.
  destruct a. eapply build_built; eassumption.
Qed.
(** A state without constraints is built by [build_config_state] alone, which
    makes the checks that are left itself. *)
Lemma unconstrained_built c s :
  build_config_state mitm_new read_secret_file c default_constraints = Ok s → built s ∧ blocked s = [].
Proof.
  unfold build_config_state. destruct (broker_config c default_constraints) as [c' created].
  intros Hb. destruct (validate_unix_socket_allowlist_paths c'); [cbn in Hb|done]. destruct (_ && _); [done|].
  destruct (validate_non_global_wildcard_domain_patterns _ _) as [[]|] eqn:Hg; [cbn in Hb|done]. apply wildcard_check_Ok in Hg.
  destruct (compile_denylist_globset _) eqn:Hdeny; [cbn in Hb|done].
  destruct (compile_allowlist_globset _) eqn:Hallow; [cbn in Hb|done].
  destruct (compile_mitm_hooks read_secret_file c') eqn:Hk; [cbn in Hb|done].
  unfold compile_mitm_hooks in Hk. destruct (validate_mitm_hook_config c') as [[]|] eqn:Hv; [|done].
  assert (respects c' default_constraints) as Hr by (by split).
  repeat (break_match_hyp Hb; try discriminate Hb); simplify_eq; (split; [by split|done]).
Qed.
Lemma loaded_ok s : loaded s → state_ok s.
Proof using NL.
  assert (∀ c cs, validate_policy_against_constraints c cs = Ok tt → build_config_state mitm_new read_secret_file c cs = Ok s →
    blocked s = []) as Hblocked.
  { intros c cs _. unfold build_config_state. destruct (broker_config c cs). intros Hb.
    repeat (break_match_hyp Hb; try discriminate Hb); by simplify_eq. }
  intros [c cs spec Hc Hb|c Hb].
  - unfold checked_spec in Hc. destruct (validate_policy_against_constraints c cs) as [[]|] eqn:Hv; simplify_eq.
    unfold build_config_state_for_spec in Hb. cbn [spec_config spec_constraints] in Hb.
    destruct (build_config_state (Rest := Rest) mitm_new read_secret_file c cs) eqn:E; simplify_eq. split; [eapply build_built; eassumption|].
    by rewrite (Hblocked c cs Hv E); cbn; lia.
  - unfold remote_launch_state in Hb. destruct (negb (enabled c)); [done|]. apply unconstrained_built in Hb as [? Hnone].
    split; [done|]. rewrite Hnone. cbn. lia.
Qed.
Lemma event_loaded_ok ev : event_loaded ev → event_ok ev.
Proof using NL.
  destruct ev as [task []|task [[]|]]; cbn; try done; by intros [? _]%loaded_ok.
Qed.
Lemma call_ok op : event_ok (Call 0 op) → pc_ok (call op).
Proof. destruct op; cbn; try done. by destruct (Host_parse host). Qed.

Lemma step_ok s pc reloaded s' pc' :
  event_ok (Step 0 reloaded) → state_ok s → pc_ok pc → step s pc reloaded = Some (s', pc') → state_ok s' ∧ pc_ok pc'.
Proof using NL.
  intros Hev Hs Hpc. destruct Hs as [Hb Hl]. destruct pc; cbn [NetRuntime.step pc_ok] in *; intros Hst.
  - done.
  - simplify_eq. split; [done|]. by destruct reloaded as [[]|].
  - simplify_eq. destruct Hpc. by split_and!; [split|..].
  - simplify_eq. destruct Hpc as (? & ? & ?). split; [|done]. split; [by apply with_blocked_built|done].
  - simplify_eq. split; [done|]. destruct (updated_state kind host (config s') (constraints s')) as [new|] eqn:E; [|done].
    pose proof (updated_state_built _ _ _ _ _ E) as (? & ? & _). cbn. split_and!; [by split; [apply with_blocked_built|]|done|]. eauto.
  - destruct (_ || _); simplify_eq; [done|]. destruct Hpc as (? & _). done.
  - simplify_eq. split; [done|]. destruct (validate_policy_against_constraints _ _) as [[]|] eqn:E; [|done].
    apply validate_Ok in E as []. done.
  - case_bool_decide as Hcs; simplify_eq; [done|]. split; [|done]. split; [by apply with_mode_built|done].
  - simplify_eq. split; [|done]. by apply push_blocked_ok.
  - simplify_eq. split; [|done]. split; [by apply with_blocked_built|cbn; lia].
  - simplify_eq. split; [|done]. split; [by apply with_blocked_built|done].
  - destruct reloaded as [[]|]; simplify_eq; done.
  - simplify_eq. split; [|done]. split; [by apply with_blocked_built|done].
Qed.
Lemma task_pc_ok sys task : system_ok sys → pc_ok (task_pc sys task).
Proof. intros [_ Ht]. unfold task_pc. destruct (tasks sys !! task) eqn:E; [by eapply Ht|done]. Qed.
Lemma proxy_fire_ok sys ev sys' : event_ok ev → system_ok sys → fire sys ev = Some sys' → system_ok sys'.
Proof using NL.
  intros Hev Hsys. pose proof Hsys as [Hs Ht]. destruct ev as [task op|task reloaded]; cbn.
  - destruct (task_pc sys task); try done. intros [= <-]. split; [done|]. apply map_Forall_insert_2; [|done]. by apply call_ok.
  - destruct (step (state sys) (task_pc sys task) reloaded) as [[s pc]|] eqn:E; [|done]. intros [= <-].
    eapply step_ok in E as [? ?]; [|done|done|by apply task_pc_ok]. split; [done|]. by apply map_Forall_insert_2.
Qed.
Lemma run_events_ok sys events : Forall event_ok events → system_ok sys → system_ok (run_events sys events).
Proof using NL.
  intros Hev. revert sys. induction Hev as [|ev events Hev _ IH]; intros sys Hsys; cbn; [done|].
  apply IH. destruct (fire sys ev) eqn:E; [by eapply proxy_fire_ok|done].
Qed.

(** C22: whatever operations tasks run at the same time, and however their
    sections interleave with reloads and replacements, the configuration in
    force respects the constraints in force, the compiled sets are those of its
    lists, and at most [MAX_BLOCKED_EVENTS] blocked requests are kept.  The
    first state and those of reloads and replacements are the ones
    [NetworkProxySpec] or a remote launch make. *)
Theorem proxy_state_stays_managed s events :
  loaded s → Forall event_loaded events →
  let s' := state (run_events (mkSystem s ∅) events) in
  validate_policy_against_constraints (config s') (constraints s') = Ok tt ∧
  compile_allowlist_globset (default [] (allowed_domains (config s'))) = Ok (allow_set s') ∧
  compile_denylist_globset (default [] (denied_domains (config s'))) = Ok (deny_set s') ∧
  length (blocked s') ≤ MAX_BLOCKED_EVENTS.
Proof using NL.
  intros Hs Hev s'. assert (state_ok s') as [[Hr Ha Hd] Hl]; [|by split_and!; [apply validate_Ok|..]].
  apply (run_events_ok (mkSystem s ∅)); [|by split; [apply loaded_ok|apply map_Forall_empty]].
  eapply Forall_impl; [exact Hev|]. apply event_loaded_ok.
Qed.

(** No update of a list is lost.  The configuration an update writes is the
    one in force at that moment with the entries of the host replaced: a change
    made by another task between its read and its write makes it start again. *)
Theorem domain_updates_are_atomic sys task kind host previous cs new_state reloaded sys' :
  system_ok sys → task_pc sys task = UpdateWrite kind host previous cs new_state → fire sys (Step task reloaded) = Some sys' →
  (state sys' = state sys ∧ task_pc sys' task = Reload (UpdateRead kind host)) ∨
  (config (state sys') =
     (broker_config (upsert_domain_permission host (list_permission kind) normalize_host (config (state sys))) (constraints (state sys))).1 ∧
   constraints (state sys') = constraints (state sys)).
Proof using NL.
  intros Hsys Hpc. pose proof (task_pc_ok sys task Hsys) as Hok. rewrite Hpc in Hok. destruct Hok as (_ & Hcs & fresh & b & total & Hu & ->).
  cbn -[broker_config]. rewrite Hpc. cbn -[broker_config].
  destruct (_ || _) eqn:E; intros [= <-]; [left; unfold task_pc; cbn; by rewrite lookup_insert_eq|right].
  apply orb_false_iff in E as [E1%bool_decide_eq_false%dec_stable E2%bool_decide_eq_false%dec_stable].
  apply updated_state_built in Hu as (_ & Hc & Hcfg). cbn [state]. rewrite E1, E2. by split.
Qed.
End Tasks.

Section Denials.
Context {NH : NetHost} {NL : NetHostLaws NH} {HC : HookCrates} {UH : UrlHost} `{GL : GlobLaws Glob GlobSet}.
Context {MitmState Rest : Type}.
Context (mitm_new : bool → result anyhow MitmState).
Context (read_secret_file : NetAbs → result anyhow str).
Abbreviation ConfigState := (ConfigState (GlobSet := GlobSet) (MitmState := MitmState) (Rest := Rest)).
Implicit Types (s : ConfigState).

Lemma denied_entry_blocks s e host h port lookup :
  built s → e ∈ default [] (denied_domains (config s)) → normalize_host e = h → ordinary h = true → host_text h = true →
  Host_parse host = Some h → host_blocked s host port lookup = Blocked Denied.
Proof using GL.
  intros [_ _ Hd] He Hn Ho Hh Hp. destruct (host_entry_matches e h Ho Hh Hn) as [Hs Hm].
  assert (is_match (deny_set s) h = true) as Hin by (eapply (compiled_set_includes h RejectGlobal); eassumption).
  unfold host_blocked. rewrite Hp. unfold globset_matches_host_or_unscoped. by rewrite Hin.
Qed.
Lemma normalize_host_ordinary h : ordinary h = true → host_text h = true → normalize_host h = h.
Proof.
  intros Ho Hh. destruct (host_text_props h Hh) as [Hw Hl]. destruct (ordinary_spec h Ho) as (f & d & -> & Hb).
  destruct f; [|by cbn in Hw; inversion_clear Hw..]. cbn in *. rewrite normalize_host_body; [done|apply Hb..].
Qed.
Lemma denied_after_broker c cs p : p ∈ default [] (denied_domains (broker_config c cs).1) ↔ p ∈ default [] (denied_domains c).
Proof.
  unfold broker_config. cbn zeta. set (c1 := if bool_decide _ then _ else c). assert (denied_domains c1 = denied_domains c) as <-
    by (unfold c1; by case_bool_decide). clearbody c1.
  destruct (credential_broker c1 && negb (enabled c1)); cbn [andb fst]; [|done].
  destruct (_ && _); cbn [fst]; [|done]. by rewrite set_allowed_keeps_denied.
Qed.

(** A denial takes effect.  Once [add_denied_domain] has answered, a request
    for the host is denied, whatever the allow list says and whatever other
    tasks do in the meantime. *)
Theorem added_denial_takes_effect sys task h reloaded sys' host port lookup :
  system_ok mitm_new read_secret_file sys → ordinary h = true → host_text h = true →
  (task_pc sys task = UpdateRead DenyList h ∨ ∃ p cs n, task_pc sys task = UpdateWrite DenyList h p cs n) →
  fire mitm_new read_secret_file sys (Step task reloaded) = Some sys' → task_pc sys' task = Idle (Some (Done (Ok tt))) →
  Host_parse host = Some h → host_blocked (state (Rest := Rest) sys') host port lookup = Blocked Denied.
Proof using NL GL.
  intros Hsys Ho Hh Hpc Hf Ha Hp.
  assert (fire mitm_new read_secret_file sys (Step task (Ok None)) = Some sys') as Hf'.
  { rewrite <- Hf. cbn. by destruct Hpc as [->|(? & ? & ? & ->)]. }
  eapply proxy_fire_ok in Hf' as [[Hb _] _]; [|done|done].
  enough (∃ e, e ∈ default [] (denied_domains (config (state sys'))) ∧ normalize_host e = h) as (e & He & Hn)
    by (by eapply denied_entry_blocks).
  destruct Hpc as [Hpc|(previous & cs & new_state & Hpc)].
  - cbn in Hf. rewrite Hpc in Hf. cbn in Hf. simplify_eq. unfold task_pc in Ha. cbn in Ha. rewrite lookup_insert_eq in Ha. cbn in *.
    unfold updated_state in Ha. repeat (break_match_hyp Ha; try discriminate Ha).
    simplify_eq. apply andb_true_iff in E as [(e & ? & ?%str_eqb_eq)%existsb_true_elem _]. eauto.
  - eapply domain_updates_are_atomic in Hf as [[_ ?]|[Hc _]]; [congruence| |done|done].
    exists h. rewrite Hc, denied_after_broker. split; [|by apply normalize_host_ordinary].
    unfold denied_domains. rewrite domain_entries_spec. cbn [list_permission]. rewrite strongest_upsert. by rewrite decide_True.
Qed.
End Denials.

(** ** A proxy to run *)

Module MiniNet.
Import MiniCrates.
#[export] Instance mini_host : NetHost := {
  NetAbs := str;
  path_is_absolute p := starts_with (lit "/") p;
  net_absolute p := Ok p;
  debug_str s := s;
  debug_strs l := join (lit ", ") l;
  hash_order X := elements X;
}.
#[export] Instance mini_host_laws : NetHostLaws mini_host.
Proof. intros X x. apply elem_of_elements. Qed.
#[export] Instance mini_hooks : HookCrates := {
  HeaderName := str;
  HeaderValue := str;
  GlobMatcher := str;
  header_name n := Ok n;
  header_value v := Ok v;
  header_to_str v := Some v;
  hook_glob _ p := Ok p;
  matcher_is_match p s := wildcard p s;
  form_urlencoded_parse q := omap (split_once (chr "=")) (split (chr "&") q);
  env_var _ := None;
}.
Definition no_mitm (b : bool) : result anyhow unit := Ok tt.
Definition no_secrets (p : NetAbs (NetHost := mini_host)) : result anyhow str := Err [lit "no file"].
Abbreviation State := (ConfigState (GlobSet := list str) (MitmState := unit) (Rest := unit)).

Definition managed : NetworkProxyConstraints :=
  mkConstraints None None None None None (Some [lit "**.Example.com"]) None (Some [lit "bad.example.com"]) None None None.
Definition listed (entries : list (string * NetworkDomainPermission)) : NetworkProxyConfig :=
  set_domains (Some ((λ '(p, perm), mkPerm (lit p) perm) <$> entries)) default_config.
Definition user_config : NetworkProxyConfig :=
  listed [("*.example.com", Allow); ("Bad.example.com", Deny)]%string.
Definition local_config : NetworkProxyConfig := listed [("127.0.0.1", Allow)]%string.
Definition build (c : NetworkProxyConfig) (cs : NetworkProxyConstraints) : State :=
  match build_config_state no_mitm no_secrets c cs with Ok s => s | Err _ => mkState c false [] [] None ∅ cs [] 0 end.
Lemma build_ok c cs :
  is_ok (validate_policy_against_constraints c cs) = true →
  is_ok (build_config_state (Rest := unit) no_mitm no_secrets c cs) = true → built (build c cs).
Proof.
  unfold build. intros Hv Hb. destruct (validate_policy_against_constraints c cs) as [[]|] eqn:Ev; [|done].
  destruct (build_config_state (Rest := unit) no_mitm no_secrets c cs) eqn:Eb; [|done]. by eapply build_built in Eb as [? _].
Qed.
Definition public_dns (host : str) (port : N) : Lookup := Addresses [V4 (octets 93 184 216 34)].

Lemma managed_lists_are_enforced_witness :
  host_blocked (build user_config managed) (lit "WWW.example.com:443") 443 public_dns = Allowed ∧
  is_match [lit "example.com"; lit "?*.example.com"] (lit "www.example.com") = true ∧
  is_match [lit "bad.example.com"] (lit "www.example.com") = false.
Proof.
  assert (host_blocked (build user_config managed) (lit "WWW.example.com:443") 443 public_dns = Allowed) as Ha by (by vm_compute).
  split; [exact Ha|].
  destruct (managed_lists_are_enforced (build user_config managed) (lit "WWW.example.com:443") (lit "www.example.com") 443 public_dns)
    as [Hallow Hdeny]; [apply build_ok; by vm_compute|by vm_compute..| |exact Ha|].
  { by apply (bool_decide_unpack _); vm_compute. }
  split; [apply (Hallow [lit "**.Example.com"])|apply (Hdeny [lit "bad.example.com"])]; by vm_compute.
Defined.

Lemma private_addresses_must_be_listed_witness :
  is_explicit_local_allowlisted (default [] (allowed_domains (config (build local_config default_constraints)))) (lit "127.0.0.1") = true.
Proof.
  destruct (private_addresses_must_be_listed (build user_config managed) (build local_config default_constraints) (λ _, lit "127.0.0.1")
    (Address (V4 (octets 127 0 0 1))) 80 (V4 (octets 127 0 0 1)) public_dns) as (_ & h & Hh & Hl & _).
  - by vm_compute.
  - by vm_compute.
  - exists (lit "127.0.0.1"). split; by vm_compute.
  - by vm_compute.
  - by vm_compute.
  - assert (h = lit "127.0.0.1") as -> by (vm_compute in Hh; vm_compute; congruence). exact Hl.
Defined.

(** Two tasks at work: one denies a host while the other records a blocked
    request, and the configuration is reloaded in between. *)
Definition entry (n : string) : BlockedRequest unit := mkBlocked (lit n) (lit "denied") None tt.
Definition race : list (Event (GlobSet := list str) (MitmState := unit) (Rest := unit)) :=
  [Call 0 (AddDomain DenyList (lit "Evil.example.com")); Step 0 (Ok None); Step 0 (Ok None);
   Call 1 (RecordBlocked (entry "a") None); Step 1 (Ok None); Step 1 (Ok None); Step 0 (Ok None)].
Definition start : System (GlobSet := list str) (MitmState := unit) (Rest := unit) := mkSystem (build user_config managed) ∅.
Lemma user_built : built (build user_config managed).
Proof. apply build_ok; by vm_compute. Qed.

(** The state is replaced in between by that of a remote launch. *)
Definition launched : NetworkProxyConfig := set_enabled true local_config.
Definition replacement : list (Event (GlobSet := list str) (MitmState := unit) (Rest := unit)) :=
  race ++ [Call 1 (ReplaceConfigState (build launched default_constraints)); Step 1 (Ok None); Step 1 (Ok None)].

Lemma proxy_state_stays_managed_witness :
  let s' := state (run_events no_mitm no_secrets start replacement) in
  config s' = launched ∧ validate_policy_against_constraints (config s') (constraints s') = Ok tt ∧ length (blocked s') ≤ 200.
Proof.
  intros s'. split; [by vm_compute|].
  destruct (proxy_state_stays_managed no_mitm no_secrets (build user_config managed) replacement) as (Hv & _ & _ & Hl).
  - apply (from_spec _ _ _ user_config managed (mkSpec user_config managed)); by vm_compute.
  - repeat constructor. apply (from_remote_launch _ _ _ launched). by vm_compute.
  - by split.
Defined.

Lemma before_write : system_ok no_mitm no_secrets (run_events no_mitm no_secrets start (take 3 race)).
Proof.
  apply run_events_ok; [by repeat constructor|]. split; [split; [apply user_built|vm_compute; lia]|apply map_Forall_empty].
Qed.

Lemma domain_updates_are_atomic_witness :
  config (state (run_events no_mitm no_secrets start race)) =
  (broker_config (upsert_domain_permission (lit "evil.example.com") Deny normalize_host user_config) managed).1.
Proof.
  set (sys := run_events no_mitm no_secrets start (take 3 race)).
  set (sys' := run_events no_mitm no_secrets start (take 3 race ++ [Step 0 (Ok None)])).
  assert (∃ p cs n, task_pc sys 0 = UpdateWrite DenyList (lit "evil.example.com") p cs n) as (p & cs & n & Hpc)
    by (do 3 eexists; by vm_compute).
  destruct (domain_updates_are_atomic no_mitm no_secrets sys 0 DenyList (lit "evil.example.com") p cs n (Ok None) sys') as [[_ H]|[H _]].
  - apply before_write.
  - exact Hpc.
  - by vm_compute.
  - by vm_compute in H.
  - transitivity (config (state sys')); [by vm_compute|]. rewrite H. by vm_compute.
Defined.

Lemma added_denial_takes_effect_witness :
  host_blocked (state (run_events no_mitm no_secrets start (take 3 race ++ [Step 0 (Ok None)]))) (lit "EVIL.example.com:80") 80 public_dns =
  Blocked Denied.
Proof.
  apply (added_denial_takes_effect no_mitm no_secrets (run_events no_mitm no_secrets start (take 3 race)) 0 (lit "evil.example.com") (Ok None)).
  - apply before_write.
  - by vm_compute.
  - by vm_compute.
  - right. do 3 eexists. by vm_compute.
  - by vm_compute.
  - by vm_compute.
  - by vm_compute.
Defined.

(** A blocked request that is recorded, and acknowledged, between the read and
    the write of an update is lost; a forced reload forgets the total. *)
Lemma blocked_request_can_be_lost :
  task_pc (run_events no_mitm no_secrets start race) 1 = Idle (Some (Done (Ok tt))) ∧
  blocked (state (run_events no_mitm no_secrets start race)) = [].
Proof. by vm_compute. Qed.
Lemma force_reload_forgets_total :
  let sys := run_events no_mitm no_secrets start
    [Call 1 (RecordBlocked (entry "a") None); Step 1 (Ok None); Step 1 (Ok None);
     Call 0 ForceReloadOp; Step 0 (Ok (Some (build user_config managed))); Step 0 (Ok None)] in
  length (blocked (state sys)) = 1 ∧ blocked_total (state sys) = 0%N.
Proof. by vm_compute. Qed.

Lemma managed_allowlist_bypass_witness :
  validate_policy_against_constraints two_faced only_managed = Ok tt ∧
  is_match (GlobSet := list str) [lit "evil.com"] (lit "evil.com") = true.
Proof.
  destruct managed_allowlist_bypass as (Hv & Hm & _). split; [exact Hv|]. apply Hm. by vm_compute.
Defined.
End MiniNet.
