(* ===== verification/NetHookProofs.v ===== *)
(** * Which requests hooks authorise

    A path is safe for authorisation when no server can read it as another one
    ([safe_path_reference]); a request is authorised only by a hook of its host
    that is in the configuration and matches it ([authorised_by_configured_hook]). *)
From stdpp Require Import strings.
From S2P Require Import Prelude RustStr NetAddr NetDomain NetDomainProofs NetConfig NetHook NetRuntimeProofs.

(** ** Paths *)

(** Percent-decoding; [None] for a broken escape. *)
Fixpoint percent_decode (s : str) : option str :=
  match s with
  | [] => Some []
  | b :: rest =>
      if (b =? chr "%")%N then
        match rest with
        | h :: l :: rest =>
            match decode_hex_digit h, decode_hex_digit l, percent_decode rest with
            | Some high, Some low, Some d => Some ((high * 16 + low)%N :: d)
            | _, _, _ => None
            end
        | _ => None
        end
      else (cons b) <$> percent_decode rest
  end.
Definition ambiguous (c : char) : Prop := c = chr "%" ∨ c = chr "/" ∨ c = chr "\".
(** A segment that every reader takes for the same name. *)
Definition plain_segment (segment : str) : Prop :=
  ∃ d, percent_decode segment = Some d ∧ Forall (λ c, ¬ ambiguous c) d ∧ d ≠ lit "." ∧ d ≠ lit "..".

Lemma hex_digit_bound b v : decode_hex_digit b = Some v → (v < 16)%N.
Proof.
  unfold decode_hex_digit. intros H. repeat (break_match_hyp H; try discriminate H); simplify_eq;
    repeat match goal with E : (_ && _)%bool = true |- _ => apply andb_true_iff in E as [?%N.leb_le ?%N.leb_le] end; lia.
Qed.
Lemma hex_pair high low : (high < 16 → low < 16 → N.lor (N.shiftl high 4) low = high * 16 + low)%N.
Proof.
  intros Hh Hl. rewrite N.shiftl_mul_pow2. change (2 ^ 4)%N with 16%N.
  assert (N.land (high * 16) low = 0%N) as H0.
  { apply N.bits_inj. intros i. rewrite N.land_spec, N.bits_0. destruct (N.lt_ge_cases i 4) as [Hi|Hi].
    - change 16%N with (2 ^ 4)%N. by rewrite N.mul_pow2_bits_low.
    - rewrite andb_false_iff. right. rewrite <- (N.mod_small low (2 ^ 4)) by done. by apply N.mod_pow2_bits_high. }
  rewrite <- N.lxor_lor by done. symmetry. by apply N.add_nocarry_lxor.
Qed.

(** What is left to check after some dots and perhaps another char. *)
Definition rest_ok (dots : nat) (non_dot : bool) (d : str) : Prop :=
  Forall (λ c, ¬ ambiguous c) d ∧
  (non_dot = true ∨ (∃ c, c ∈ d ∧ c ≠ chr ".") ∨ (dots + length d ≠ 1 ∧ dots + length d ≠ 2)).
Lemma rest_ok_dot dots nd d : rest_ok dots nd (chr "." :: d) ↔ rest_ok (S dots) nd d.
Proof.
  unfold rest_ok. rewrite Forall_cons. replace (dots + length (chr "." :: d)) with (S dots + length d) by (cbn; lia).
  assert ((∃ c, c ∈ chr "." :: d ∧ c ≠ chr ".") ↔ ∃ c, c ∈ d ∧ c ≠ chr ".") as -> by set_solver.
  assert (¬ ambiguous (chr ".")) by (by intros [|[|]]). tauto.
Qed.
Lemma rest_ok_other dots nd c d : c ≠ chr "." → rest_ok dots nd (c :: d) ↔ ¬ ambiguous c ∧ rest_ok dots true d.
Proof. intros Hc. unfold rest_ok. rewrite Forall_cons. split; [naive_solver|]. intros (? & ? & _). split; [done|]. right; left. exists c. set_solver. Qed.

Lemma segment_loop_spec s dots nd : chr "/" ∉ s →
  segment_loop s dots nd = true ↔ ∃ d, percent_decode s = Some d ∧ rest_ok dots nd d.
Proof.
  revert dots nd. induction (well_founded_ltof _ (length (A := char)) s) as [s _ IH]. unfold ltof in IH. intros dots nd Hs.
  destruct s as [|b rest]; cbn [segment_loop percent_decode].
  { unfold rest_ok. rewrite orb_true_iff, negb_true_iff, orb_false_iff, !Nat.eqb_neq. split.
    - intros H. exists []. rewrite Nat.add_0_r. split; [done|]. split; [constructor|]. tauto.
    - intros (? & [= <-] & _ & [?|[(? & []%elem_of_nil & _)|H]]); [by left|]. right. cbn in H. by rewrite Nat.add_0_r in H. }
  destruct (N.eqb_spec b (chr ".")) as [->|Hdot].
  { change (chr "." =? chr "%")%N with false. cbn iota. rewrite IH by (cbn; lia || set_solver). setoid_rewrite <- rest_ok_dot.
    destruct (percent_decode rest); cbn; naive_solver. }
  destruct (N.eqb_spec b (chr "\")) as [->|Hback].
  { change (chr "\" =? chr "%")%N with false. cbn iota. split; [done|].
    intros (d & Hd & Hr). destruct (percent_decode rest); simplify_eq/=. apply rest_ok_other in Hr as [Ha _]; [|done]. destruct Ha. by right; right. }
  destruct (N.eqb_spec b (chr "%")) as [->|Hpct].
  - destruct rest as [|h [|l rest]]; [naive_solver..|].
    destruct (decode_hex_digit h) as [high|] eqn:Eh; [|naive_solver]. destruct (decode_hex_digit l) as [low|] eqn:El; [|naive_solver].
    rewrite hex_pair by eauto using hex_digit_bound. set (c := (high * 16 + low)%N).
    transitivity (∃ d, percent_decode rest = Some d ∧ rest_ok dots nd (c :: d)); [|destruct (percent_decode rest); naive_solver].
    destruct ((c =? chr "%")%N || (c =? chr "/")%N || (c =? chr "\")%N) eqn:Ea.
    + split; [done|]. intros (d & _ & [Hall _]). apply Forall_cons in Hall as [Ha _]. destruct Ha. unfold ambiguous.
      rewrite !orb_true_iff, !N.eqb_eq in Ea. tauto.
    + assert (¬ ambiguous c) by (unfold ambiguous; rewrite !orb_false_iff, !N.eqb_neq in Ea; tauto).
      destruct (N.eqb_spec c (chr ".")) as [->|Hc]; rewrite IH by (cbn; lia || set_solver).
      * by setoid_rewrite rest_ok_dot.
      * setoid_rewrite rest_ok_other; [|done]. naive_solver.
  - rewrite IH by (cbn; lia || set_solver).
    assert (¬ ambiguous b) by (intros [?|[?|?]]; [done|set_solver|done]).
    transitivity (∃ d, percent_decode rest = Some d ∧ rest_ok dots nd (b :: d)); [|destruct (percent_decode rest); cbn; naive_solver].
    setoid_rewrite rest_ok_other; [|done]. naive_solver.
Qed.

Lemma split_no_sep_elem c s w : w ∈ split c s → c ∉ w.
Proof.
  revert w. induction s as [|d s IH]; intros w; cbn; [by intros ->%list_elem_of_singleton; apply not_elem_of_nil|].
  destruct (N.eqb_spec d c) as [->|Hd].
  - intros [->|?]%elem_of_cons; [apply not_elem_of_nil|auto].
  - destruct (split c s) as [|v ws] eqn:E; [by destruct (split_ne_nil c s)|].
    intros [->|?]%elem_of_cons; [|apply IH; by right]. apply not_elem_of_cons. split; [done|]. apply IH. by left.
Qed.
Lemma plain_segment_spec s : chr "/" ∉ s → is_safe_segment_for_authorization s = true ↔ plain_segment s.
Proof.
  intros Hs. unfold is_safe_segment_for_authorization, plain_segment. rewrite segment_loop_spec by done. unfold rest_ok. cbn [Nat.add].
  assert (∀ d : str, (false = true ∨ (∃ c, c ∈ d ∧ c ≠ chr ".") ∨ length d ≠ 1 ∧ length d ≠ 2) ↔ d ≠ lit "." ∧ d ≠ lit "..") as Hd.
  { intros d. split.
    - intros [?|[(c & Hc & Hn)|[H1 H2]]]; [done| |by split; intros ->]. split; intros ->; set_solver.
    - intros [H1 H2]. right. destruct d as [|a [|b [|? d]]]; [right; done| | |right; cbn; lia].
      + left. exists a. split; [by left|]. intros ->. done.
      + destruct (decide (a = chr ".")) as [->|Ha]; [|left; exists a; split; [by left|done]].
        left. exists b. split; [by right; left|]. intros ->. done. }
  setoid_rewrite Hd. done.
Qed.

Lemma plain_path path : is_safe_for_authorization path = true ↔ Forall plain_segment (split (chr "/") path).
Proof.
  unfold is_safe_for_authorization. rewrite forallb_Forall, !Forall_forall.
  split; intros H w Hw; specialize (H w Hw); apply (plain_segment_spec w); eauto using split_no_sep_elem.
Qed.
(** C32: a path passes the check of hooks exactly when every segment has well-formed
    escapes, is not a dot segment in any spelling, and hides no separator or
    second layer of escapes: no server that decodes or normalises the path can
    take it for another resource. *)
Theorem safe_path_reference path :
  is_safe_for_authorization path = true ↔ Forall plain_segment (split (chr "/") path).
Proof. apply plain_path. Qed.

(** ** Authorised requests *)

Section Requests.
Context {NH : NetHost} {HC : HookCrates}.
Context (read_secret_file : NetAbs → result anyhow str).

Lemma compile_hooks_spec cfgs by_host by_host' :
  compile_hooks read_secret_file cfgs by_host = Ok by_host' →
  ∀ h hooks, by_host' !! h = Some hooks → ∀ hook, hook ∈ hooks →
  (∃ old, by_host !! h = Some old ∧ hook ∈ old) ∨
  (∃ cfg, cfg ∈ cfgs ∧ compile_hook read_secret_file cfg = Ok hook ∧ host hook = h).
Proof.
  revert by_host. induction cfgs as [|cfg cfgs IH]; intros by_host; cbn.
  { intros [= <-] h hooks ? hook ?. left. eauto. }
  destruct (compile_hook read_secret_file cfg) as [new|] eqn:En; [|done].
  intros Hc h hooks Hh hook Hin. destruct (IH _ Hc h hooks Hh hook Hin) as [(old & Ho & Hi)|(cfg' & ? & ? & ?)].
  - destruct (decide (host new = h)) as [<-|Hne].
    + rewrite lookup_insert_eq in Ho. simplify_eq. apply elem_of_app in Hi as [Hi| ->%list_elem_of_singleton].
      * left. destruct (by_host !! host new) as [l|]; [by exists l|by apply elem_of_nil in Hi].
      * right. exists cfg. by split; [left|].
    + rewrite lookup_insert_ne in Ho by done. left. eauto.
  - right. exists cfg'. by split; [right|].
Qed.
Lemma compile_hook_host cfg hook : compile_hook read_secret_file cfg = Ok hook → normalize_hook_host (hook_host cfg) = Ok (host hook).
Proof.
  unfold compile_hook. cbn zeta. intros (n & -> & Hc)%let_Ok.
  repeat match type of Hc with context [Err _] => apply let_Ok in Hc as (? & _ & Hc) end. by simplify_eq.
Qed.
Lemma first_match_spec hooks req a :
  first_match hooks req = Matched a → ∃ hook, hook ∈ hooks ∧ hook_matches hook req = true ∧ actions hook = a.
Proof.
  induction hooks as [|hook hooks IH]; cbn; [done|]. destruct (hook_matches hook req) eqn:E.
  - intros [= <-]. exists hook. by split; [left|].
  - intros (hook' & ? & ?)%IH. exists hook'. by split; [right|].
Qed.

(** A request is authorised only by a hook of the configuration for the same
    host; its method is listed, its path is matched and can be read in one way
    only, and its query and headers satisfy the constraints. *)
Theorem authorised_by_configured_hook c by_host request_host req a :
  compile_mitm_hooks read_secret_file c = Ok by_host → evaluate_mitm_hooks by_host request_host req = Matched a →
  ∃ cfg hook, cfg ∈ mitm_hooks c ∧ compile_hook read_secret_file cfg = Ok hook ∧ actions hook = a ∧
    normalize_hook_host (hook_host cfg) = Ok (normalize_host request_host) ∧
    to_ascii_uppercase (req_method req) ∈ methods (hook_match hook) ∧
    path_matches (path_prefixes (hook_match hook)) (req_path req) = true ∧
    Forall plain_segment (split (chr "/") (req_path req)) ∧
    query_matches (query (hook_match hook)) req = true ∧ headers_match (headers (hook_match hook)) req = true.
Proof.
  unfold compile_mitm_hooks, evaluate_mitm_hooks. intros Hc He.
  destruct (validate_mitm_hook_config c); [|done]. destruct (by_host !! normalize_host request_host) as [hooks|] eqn:Eh; [|done].
  apply first_match_spec in He as (hook & Hin & Hm & Ha).
  destruct (compile_hooks_spec _ _ _ Hc _ _ Eh _ Hin) as [(old & Ho & _)|(cfg & Hcfg & Hcomp & Hhost)]; [by rewrite lookup_empty in Ho|].
  exists cfg, hook. unfold hook_matches in Hm.
  destruct (existsb (str_eqb (to_ascii_uppercase (req_method req))) _) eqn:Em; [|done].
  destruct (is_safe_for_authorization (req_path req)) eqn:Es; [|done]. destruct (path_matches _ (req_path req)) eqn:Ep; [|done].
  destruct (query_matches _ req) eqn:Eq; [|done]. cbn in Hm. split_and!; try done.
  - by rewrite (compile_hook_host _ _ Hcomp), Hhost.
  - apply existsb_true_elem in Em as (m & ? & ->%str_eqb_eq). done.
  - by apply plain_path.
Qed.
End Requests.

(** A hook for reading issues. *)
Module HookWitness.
Import MiniNet.
Definition issues_hook : MitmHookConfig :=
  mkHookConfig (lit "API.example.com.") (mkMatchConfig [lit "get"] [lit "/repos/"] [] [] None) (mkActionsConfig [lit "authorization"] []).
Definition hooked : NetworkProxyConfig :=
  mkConfig true [] true [] true true false false Full None None false true false None false [issues_hook].
Definition get_issues : Request := mkRequest (lit "GET") (lit "/repos/a%20b/issues") None [].

Lemma authorised_by_configured_hook_witness :
  Forall plain_segment (split (chr "/") (req_path get_issues)).
Proof.
  set (a := mkActions (NH := mini_host) (HC := mini_hooks) [lit "authorization"] []).
  assert (match compile_mitm_hooks no_secrets hooked with
          | Ok by_host => evaluate_mitm_hooks by_host (lit "api.example.com:443") get_issues = Matched a
          | Err _ => False
          end) as He by (by vm_compute).
  destruct (compile_mitm_hooks no_secrets hooked) as [by_host|] eqn:Ec; [|done].
  destruct (authorised_by_configured_hook no_secrets hooked by_host (lit "api.example.com:443") get_issues a Ec He)
    as (cfg & hook & _ & _ & _ & _ & _ & _ & Hs & _). exact Hs.
Defined.
End HookWitness.
