(* ===== verification/Profile.v ===== *)
(** * Permission profiles ([protocol/src/models.rs], [sandboxing/src/policy_transforms.rs])

    A permission profile says who builds the sandbox of a command and what the
    sandbox allows.  A command can ask for more: an additional profile, which is
    normalised, bound to the paths of the executor, intersected with what the
    user granted, merged with earlier grants and laid over the profile.

    [NonZeroUsize] is [positive]; a panic is [None]. *)
From stdpp Require Import numbers strings.
From S2P Require Import Prelude RustStr Utf8 PathUri Permissions.

(** [NonZeroUsize::new]. *)
Definition NonZeroUsize_new (n : nat) : option positive := match n with 0 => None | S _ => Some (Pos.of_nat n) end.

Inductive SandboxPermissions : Type := UseDefault | RequireEscalated | WithAdditionalPermissions.
#[global] Instance SandboxPermissions_eq_dec : EqDecision SandboxPermissions.
Proof. solve_decision. Defined.
Definition requires_escalated_permissions (s : SandboxPermissions) : bool :=
  match s with RequireEscalated => true | _ => false end.
Definition requests_sandbox_override (s : SandboxPermissions) : bool := match s with UseDefault => false | _ => true end.
Definition uses_additional_permissions (s : SandboxPermissions) : bool :=
  match s with WithAdditionalPermissions => true | _ => false end.

Inductive SandboxEnforcement : Type := EnforceManaged | EnforceDisabled | EnforceExternal.
#[global] Instance SandboxEnforcement_eq_dec : EqDecision SandboxEnforcement.
Proof. solve_decision. Defined.

Record FileSystemPermissions (U : Type) : Type := mkFsPermissions {
  perm_entries : list (FileSystemSandboxEntry U);
  perm_depth : option positive;
}.
Arguments mkFsPermissions {U}.
Arguments perm_entries {U}.
Arguments perm_depth {U}.
(** [NetworkPermissions] is its only field. *)
Definition NetworkPermissions : Type := option bool.
Record AdditionalPermissionProfile (U : Type) : Type := mkAdditional {
  network : option NetworkPermissions;
  file_system : option (FileSystemPermissions U);
}.
Arguments mkAdditional {U}.
Arguments network {U}.
Arguments file_system {U}.

Inductive ManagedFileSystemPermissions (U : Type) : Type :=
  | ManagedRestricted (entries : list (FileSystemSandboxEntry U)) (glob_scan_max_depth : option positive)
  | ManagedUnrestricted.
Arguments ManagedRestricted {U}.
Arguments ManagedUnrestricted {U}.
Inductive PermissionProfile (U : Type) : Type :=
  | Managed (file_system : ManagedFileSystemPermissions U) (network : NetworkSandboxPolicy)
  | Disabled
  | External (network : NetworkSandboxPolicy).
Arguments Managed {U}.
Arguments Disabled {U}.
Arguments External {U}.

Section Profile.
Context {U : Type} `{!UrlCrate U} `{!Codecs} `{!Host U}.
Implicit Types (p : FileSystemSandboxPolicy U) (e : FileSystemSandboxEntry U) (ctx : PolicyContext U).
Implicit Types (es : list (FileSystemSandboxEntry U)) (profile : PermissionProfile U).

(** ** Profiles *)

Definition managed_from_sandbox_policy p : option (ManagedFileSystemPermissions U) :=
  match kind p with
  | Restricted =>
      Some (ManagedRestricted (entries p) (match glob_scan_max_depth p with Some n => NonZeroUsize_new n | None => None end))
  | Unrestricted => Some ManagedUnrestricted
  | ExternalSandboxKind => None
  end.
Definition to_sandbox_policy (m : ManagedFileSystemPermissions U) : FileSystemSandboxPolicy U :=
  match m with
  | ManagedRestricted es depth => mkPolicy Restricted (Pos.to_nat <$> depth) es
  | ManagedUnrestricted => unrestricted
  end.

Definition enforcement_from_legacy_sandbox_policy (s : SandboxPolicy Abs) : SandboxEnforcement :=
  match s with
  | DangerFullAccess => EnforceDisabled
  | ExternalSandbox _ => EnforceExternal
  | ReadOnly _ | WorkspaceWrite _ _ _ _ => EnforceManaged
  end.

Definition profile_default : PermissionProfile U := Managed (ManagedRestricted [] None) NetRestricted.
Definition managed_profile p (n : NetworkSandboxPolicy) : option (PermissionProfile U) :=
  (λ m, Managed m n) <$> managed_from_sandbox_policy p.
Definition profile_read_only : option (PermissionProfile U) := managed_profile read_only NetRestricted.
Definition workspace_write_with (writable_roots : list Abs) (n : NetworkSandboxPolicy)
    (exclude_tmpdir_env_var exclude_slash_tmp : bool) : option (PermissionProfile U) :=
  managed_profile (workspace_write writable_roots exclude_tmpdir_env_var exclude_slash_tmp) n.
Definition profile_workspace_write : option (PermissionProfile U) := workspace_write_with [] NetRestricted false false.

Definition from_runtime_permissions_with_enforcement (enforcement : SandboxEnforcement) p (n : NetworkSandboxPolicy) :
    option (PermissionProfile U) :=
  match kind p with
  | ExternalSandboxKind => Some (External n)
  | Unrestricted => if bool_decide (enforcement = EnforceDisabled) then Some Disabled else managed_profile p n
  | Restricted => managed_profile p n
  end.
Definition from_runtime_permissions p (n : NetworkSandboxPolicy) : option (PermissionProfile U) :=
  let enforcement :=
    match kind p with Restricted | Unrestricted => EnforceManaged | ExternalSandboxKind => EnforceExternal end in
  from_runtime_permissions_with_enforcement enforcement p n.
Definition profile_from_legacy_sandbox_policy (s : SandboxPolicy Abs) : option (PermissionProfile U) :=
  from_runtime_permissions_with_enforcement (enforcement_from_legacy_sandbox_policy s) (from_sandbox_policy s)
    (network_policy_of s).
Definition profile_from_legacy_sandbox_policy_for_cwd (s : SandboxPolicy Abs) (cwd : str) : option (PermissionProfile U) :=
  from_runtime_permissions_with_enforcement (enforcement_from_legacy_sandbox_policy s)
    (from_legacy_sandbox_policy_for_cwd s cwd) (network_policy_of s).

Definition enforcement profile : SandboxEnforcement :=
  match profile with Managed _ _ => EnforceManaged | Disabled => EnforceDisabled | External _ => EnforceExternal end.
Definition file_system_sandbox_policy profile : FileSystemSandboxPolicy U :=
  match profile with
  | Managed m _ => to_sandbox_policy m
  | Disabled => unrestricted
  | External _ => external_sandbox
  end.
Definition network_sandbox_policy profile : NetworkSandboxPolicy :=
  match profile with Managed _ n | External n => n | Disabled => NetEnabled end.
Definition to_runtime_permissions profile : FileSystemSandboxPolicy U * NetworkSandboxPolicy :=
  (file_system_sandbox_policy profile, network_sandbox_policy profile).
Definition profile_to_legacy_sandbox_policy profile (cwd : str) : result io_error (SandboxPolicy Abs) :=
  match profile with
  | Managed m n => to_legacy_sandbox_policy (to_sandbox_policy m) n cwd
  | Disabled => Ok DangerFullAccess
  | External n => Ok (ExternalSandbox (if is_enabled n then AccessEnabled else AccessRestricted))
  end.

(** [intersect_with_read_only]: the outer [None] is a panic, the inner one the
    answer for a sandbox built by others. *)
Definition read_only_entry e : FileSystemSandboxEntry U :=
  mkEntry (entry_path e) (match access e with Read | Write => Read | Deny => Deny end) (missing_path_behavior e).
Definition intersect_with_read_only profile : option (option (PermissionProfile U)) :=
  let p := file_system_sandbox_policy profile in
  match kind p with
  | Restricted => Some <$> from_runtime_permissions (with_entries p (read_only_entry <$> entries p)) NetRestricted
  | Unrestricted => Some <$> from_runtime_permissions read_only NetRestricted
  | ExternalSandboxKind => Some None
  end.

Definition materialize_project_roots_with profile (materialize : FileSystemSandboxPolicy U → FileSystemSandboxPolicy U) :
    option (PermissionProfile U) :=
  match profile with
  | Managed m n => managed_profile (materialize (to_sandbox_policy m)) n
  | Disabled => Some Disabled
  | External n => Some (External n)
  end.
Definition profile_materialize_workspace_roots profile (roots : list Abs) :=
  materialize_project_roots_with profile (λ p, materialize_project_roots_with_workspace_roots p roots).
Definition profile_materialize_path_uris profile (roots : list U) :=
  materialize_project_roots_with profile (λ p, materialize_project_roots_with_path_uris p roots).

(** ** Additional permissions *)

Definition fs_permissions_is_empty (f : FileSystemPermissions U) : bool := bool_decide (length (perm_entries f) = 0).
Definition additional_is_empty (a : AdditionalPermissionProfile U) : bool :=
  match network a, file_system a with None, None => true | _, _ => false end.
Definition fs_default : FileSystemPermissions U := mkFsPermissions [] None.
Definition additional_default : AdditionalPermissionProfile U := mkAdditional None None.
Definition filter_some {A} (f : A → bool) (o : option A) : option A :=
  match o with Some a => if f a then Some a else None | None => None end.

Definition from_paths (read write : option (list U)) : FileSystemPermissions U :=
  mkFsPermissions (((λ u, new_entry (PathEntry u) Read) <$> default [] read) ++
                   ((λ u, new_entry (PathEntry u) Write) <$> default [] write)) None.
Definition from_read_write_path_uris (read write : option (list U)) : FileSystemPermissions U := from_paths read write.
Definition from_read_write_roots (read write : option (list Abs)) : FileSystemPermissions U :=
  from_paths (option_map (List.map uri_from_abs_path) read) (option_map (List.map uri_from_abs_path) write).
Definition none_if_empty {A} (l : list A) : option (list A) := match l with [] => None | _ => Some l end.
Fixpoint legacy_roots es (read write : list Abs) : option (list Abs * list Abs) :=
  match es with
  | [] => Some (read, write)
  | e :: es =>
      match entry_path e with
      | PathEntry u =>
          match uri_to_abs_path u with
          | Err _ => None
          | Ok path =>
              match access e with
              | Read => legacy_roots es (read ++ [path]) write
              | Write => legacy_roots es read (write ++ [path])
              | Deny => None
              end
          end
      | _ => None
      end
  end.
Definition legacy_read_write_roots (f : FileSystemPermissions U) : option (option (list Abs) * option (list Abs)) :=
  match perm_depth f with
  | Some _ => None
  | None => (λ '(read, write), (none_if_empty read, none_if_empty write)) <$> legacy_roots (perm_entries f) [] []
  end.

Fixpoint normalize_entries es (acc : list (FileSystemSandboxEntry U)) : result str (list (FileSystemSandboxEntry U)) :=
  match es with
  | [] => Ok acc
  | e :: es =>
      match entry_path e with
      | GlobPattern _ =>
          if negb (is_deny e) then Err (lit "glob file system permissions only support deny-read entries")
          else normalize_entries es (push_missing acc e)
      | _ => normalize_entries es (push_missing acc e)
      end
  end.
Definition normalize_additional_permissions (a : AdditionalPermissionProfile U) : result str (AdditionalPermissionProfile U) :=
  let n := filter_some (λ n, negb (bool_decide (n = None))) (network a) in
  let? fs :=
    match file_system a with
    | Some f =>
        let? kept := normalize_entries (perm_entries f) [] in
        Ok (filter_some (λ f, negb (fs_permissions_is_empty f)) (Some (mkFsPermissions kept (perm_depth f))))
    | None => Ok None
    end in
  Ok (mkAdditional n fs).
Definition path_mismatch ctx (u : U) : bool :=
  bool_decide (infer_path_convention u = None) ||
  negb (bool_decide (infer_path_convention u = infer_path_convention (cwd ctx))) || negb (is_ok (join_path u (lit "."))).
Definition normalize_additional_permissions_with_context (a : AdditionalPermissionProfile U) ctx :
    result str (AdditionalPermissionProfile U) :=
  let? normalized := normalize_additional_permissions a in
  match find_map (λ e, match entry_path e with PathEntry u => if path_mismatch ctx u then Some u else None | _ => None end)
          (match file_system normalized with Some f => perm_entries f | None => [] end) with
  | Some u =>
      Err (lit "permission path `" ++ as_str u ++ lit "` does not match executor cwd `" ++ as_str (cwd ctx) ++ lit "`")
  | None => Ok normalized
  end.

(** *** Symbolic paths *)

Definition resolve_permission_path (path : FileSystemPath U) ctx : option U :=
  match path with
  | PathEntry u => Some u
  | GlobPattern _ => None
  | Special Root => file_system_root ctx
  | Special (ProjectRoots subpath) =>
      match head (workspace_roots ctx) with
      | Some root => match subpath with Some subpath => ok (join_path root subpath) | None => Some root end
      | None => None
      end
  | Special Tmpdir => match temporary_directories ctx with Some dirs => head dirs | None => None end
  | Special SlashTmp =>
      if bool_decide (infer_path_convention (cwd ctx) = Some Posix) then ok (join_path (cwd ctx) (lit "/tmp")) else None
  | Special Minimal | Special (UnknownPath _ _) => None
  end.
Definition materialized_path_entry e (path : U) : FileSystemSandboxEntry U :=
  mkEntry (PathEntry path) (access e) (missing_path_behavior e).
Definition materialize_cwd_dependent_entry e ctx : option (FileSystemSandboxEntry U) :=
  match entry_path e with
  | GlobPattern pattern =>
      let is_windows := bool_decide (infer_path_convention (cwd ctx) = Some Windows) in
      let home_relative :=
        match strip_prefix (lit "~/") pattern with
        | Some suffix => Some suffix
        | None =>
            if str_eqb pattern (lit "~") then Some []
            else if is_windows then strip_prefix (lit "~\") pattern else None
        end in
      let resolve root text :=
        match join_path root text with
        | Ok path => Some (mkEntry (GlobPattern (inferred_native_path_string path)) (access e) (missing_path_behavior e))
        | Err _ => None
        end in
      match home_relative with
      | Some suffix =>
          match user_home_dir ctx with
          | Some home => resolve home (trim_start_matches (λ c, (c =? SLASH)%N || is_windows && (c =? BACKSLASH)%N) suffix)
          | None => None
          end
      | None => resolve (cwd ctx) pattern
      end
  | _ => Some e
  end.
(** The context with one workspace root. *)
Definition with_root ctx (root : U) : PolicyContext U :=
  mkContext (cwd ctx) [root] (user_home_dir ctx) (temporary_directories ctx).
Fixpoint materialize_for_roots e ctx (roots : list U) : option (list (FileSystemSandboxEntry U)) :=
  match roots with
  | [] => Some []
  | root :: roots =>
      match resolve_permission_path (entry_path e) (with_root ctx root) with
      | Some path => cons (materialized_path_entry e path) <$> materialize_for_roots e ctx roots
      | None => if is_deny e then None else materialize_for_roots e ctx roots
      end
  end.
Definition materialize_one e ctx : option (list (FileSystemSandboxEntry U)) :=
  match entry_path e with
  | Special (ProjectRoots _) =>
      match materialize_for_roots e ctx (workspace_roots ctx) with
      | None => None
      | Some resolved => if is_deny e && bool_decide (length resolved = 0) then None else Some resolved
      end
  | Special Tmpdir =>
      match temporary_directories ctx with
      | None => if is_deny e then None else Some [e]
      | Some dirs => Some (materialized_path_entry e <$> dirs)
      end
  | Special Root => match resolve_permission_path (entry_path e) ctx with Some _ => Some [e] | None => None end
  | _ =>
      match materialize_cwd_dependent_entry e ctx with
      | None => if is_deny e then None else Some []
      | Some e => Some [e]
      end
  end.
Fixpoint materialize_context_dependent_entries es ctx : option (list (FileSystemSandboxEntry U)) :=
  match es with
  | [] => Some []
  | e :: es =>
      match materialize_one e ctx with
      | None => None
      | Some l => app l <$> materialize_context_dependent_entries es ctx
      end
  end.
Definition materialize_additional_permissions_with_context (a : AdditionalPermissionProfile U) ctx :
    result str (AdditionalPermissionProfile U) :=
  let? fs :=
    match file_system a with
    | None => Ok None
    | Some f =>
        match materialize_context_dependent_entries (perm_entries f) ctx with
        | Some es => Ok (Some (mkFsPermissions es (perm_depth f)))
        | None => Err (lit "unable to resolve permission path in `" ++ as_str (cwd ctx) ++ lit "`")
        end
    end in
  normalize_additional_permissions_with_context (mkAdditional (network a) fs) ctx.

(** *** Depth of glob scans *)

Inductive GlobScanDepth : Type := Bounded (depth : nat) | Unbounded.
Definition effective_glob_scan_depth es (depth : option nat) : option GlobScanDepth :=
  if existsb (λ e, is_deny e && match entry_path e with GlobPattern _ => true | _ => false end) es
  then Some (match depth with Some d => Bounded d | None => Unbounded end) else None.
Definition merge_glob_scan_max_depth left_entries (left_depth : option nat) right_entries (right_depth : option nat) :
    option nat :=
  match effective_glob_scan_depth left_entries left_depth, effective_glob_scan_depth right_entries right_depth with
  | Some Unbounded, _ | _, Some Unbounded => None
  | Some (Bounded l), Some (Bounded r) => Some (Nat.max l r)
  | Some (Bounded d), None | None, Some (Bounded d) => Some d
  | None, None => None
  end.
Definition merge_depths left_entries (left_depth : option positive) right_entries (right_depth : option positive) :
    option positive :=
  match merge_glob_scan_max_depth left_entries (Pos.to_nat <$> left_depth) right_entries (Pos.to_nat <$> right_depth) with
  | Some n => NonZeroUsize_new n
  | None => None
  end.

(** *** Merging grants *)

Definition merge_permission_entries base permissions : list (FileSystemSandboxEntry U) :=
  foldl push_missing [] (base ++ permissions).
Definition merge_permission_profiles (base permissions : option (AdditionalPermissionProfile U)) :
    option (AdditionalPermissionProfile U) :=
  match permissions with
  | None => base
  | Some permissions =>
      filter_some (λ a, negb (additional_is_empty a))
        (match base with
         | Some base =>
             let n := match network base, network permissions with
                      | Some (Some true), _ | _, Some (Some true) => Some (Some true)
                      | _, _ => None
                      end in
             let fs := match file_system base, file_system permissions with
                       | Some b, Some q =>
                           filter_some (λ f, negb (fs_permissions_is_empty f))
                             (Some (mkFsPermissions (merge_permission_entries (perm_entries b) (perm_entries q))
                                      (merge_depths (perm_entries b) (perm_depth b) (perm_entries q) (perm_depth q))))
                       | Some b, None => Some b
                       | None, Some q => Some q
                       | None, None => None
                       end in
             Some (mkAdditional n fs)
         | None => Some permissions
         end)
  end.

(** *** Intersecting a request with a grant *)

Definition access_covers (requested granted : FileSystemAccessMode) : bool :=
  match granted with Read => can_read requested | Write => can_write requested | Deny => false end.
Definition is_root_entry e : bool := match entry_path e with Special Root => true | _ => false end.
Definition paths_overlap (l r : U) : bool := default true (overlaps l r).

(** [ReadDenyMatcher::is_read_denied_uri] on the optional matcher. *)
Definition granted_file_system_entry_within_request (requested : FileSystemPermissions U) requested_policy
    granted_entry ctx : bool :=
  let convention := infer_path_convention (cwd ctx) in
  if negb (can_read (access granted_entry)) ||
     match entry_path granted_entry with
     | Special SlashTmp => negb (bool_decide (convention = Some Posix))
     | _ => false
     end
  then false
  else if bool_decide (convention = Some Windows) && is_root_entry granted_entry &&
          negb (existsb (λ e, is_root_entry e && access_covers (access e) (access granted_entry)) (perm_entries requested))
  then false
  else match resolve_permission_path (entry_path granted_entry) ctx with
       | Some path =>
           if negb (bool_decide (infer_path_convention path = convention)) || is_read_denied_uri requested_policy ctx path
           then false
           else access_covers (resolve_access requested_policy ctx path) (access granted_entry)
       | None =>
           existsb (λ e, access_covers (access e) (access granted_entry) &&
                         path_eqb (entry_path e) (entry_path granted_entry)) (perm_entries requested)
       end.

(** The part of a pattern before its first wildcard, as a directory. *)
Definition is_wildcard (c : char) : bool := existsb (N.eqb c) (lit "*?[]").
Fixpoint find_char (f : char → bool) (s : str) : option nat :=
  match s with [] => None | c :: s => if f c then Some 0 else S <$> find_char f s end.
Definition glob_static_prefix_path (pattern : str) ctx : option U :=
  let is_windows := bool_decide (infer_path_convention (cwd ctx) = Some Windows) in
  let resolve prefix (wildcard_in_segment : bool) :=
    match join_path (cwd ctx) prefix with
    | Ok u => if wildcard_in_segment then parent u else Some u
    | Err _ => None
    end in
  match find_char is_wildcard pattern with
  | Some 0 => None
  | Some index =>
      let prefix := take index pattern in
      resolve prefix (negb (ends_with [SLASH] prefix || is_windows && ends_with [BACKSLASH] prefix))
  | None => resolve pattern false
  end.
Definition deny_entry_constrains_accepted_grant deny_entry accepted_entries ctx : bool :=
  existsb (λ e,
    can_read (access e) &&
    (if is_root_entry e then true
     else match resolve_permission_path (entry_path e) ctx with
          | None => true
          | Some grant_path =>
              match (match entry_path deny_entry with
                     | GlobPattern pattern => glob_static_prefix_path pattern ctx
                     | path => resolve_permission_path path ctx
                     end) with
              | None => true
              | Some deny_path => paths_overlap deny_path grant_path
              end
          end)) accepted_entries.
(** The retained entries and the output with them. *)
Definition constraining_denies source_entries accepted_entries ctx : list (FileSystemSandboxEntry U) :=
  List.filter (λ e, is_deny e && deny_entry_constrains_accepted_grant e accepted_entries ctx) source_entries.
Definition retain_constraining_deny_entries source_entries accepted_entries ctx output_entries :
    list (FileSystemSandboxEntry U) * list (FileSystemSandboxEntry U) :=
  let retained := constraining_denies source_entries accepted_entries ctx in
  (retained, foldl push_missing output_entries retained).

Definition intersect_file_systems (requested granted : FileSystemPermissions U) ctx : option (FileSystemPermissions U) :=
  match materialize_context_dependent_entries (perm_entries requested) ctx,
        materialize_context_dependent_entries (perm_entries granted) ctx with
  | Some requested_entries, Some granted_entries =>
      let requested_policy := restricted requested_entries in
      let accepted_entries :=
        foldl push_missing []
          (List.filter (λ e, granted_file_system_entry_within_request requested requested_policy e ctx) granted_entries) in
      let '(requested_denies, output) :=
        retain_constraining_deny_entries requested_entries accepted_entries ctx accepted_entries in
      let '(granted_denies, output) := retain_constraining_deny_entries granted_entries accepted_entries ctx output in
      Some (mkFsPermissions output (merge_depths requested_denies (perm_depth requested) granted_denies (perm_depth granted)))
  | _, _ => None
  end.
Definition intersect_permission_profiles_with_context (requested granted : AdditionalPermissionProfile U) ctx :
    AdditionalPermissionProfile U :=
  let fs :=
    filter_some (λ f, negb (fs_permissions_is_empty f))
      (match file_system requested with
       | Some requested => intersect_file_systems requested (default fs_default (file_system granted)) ctx
       | None => None
       end) in
  let n := match network requested, network granted with
           | Some (Some true), Some (Some true) => Some (Some true)
           | _, _ => None
           end in
  mkAdditional n fs.

(** ** The profile of a command *)

Definition merge_file_system_policy_with_additional_permissions p (a : FileSystemPermissions U) : FileSystemSandboxPolicy U :=
  match kind p with
  | Restricted =>
      mkPolicy Restricted
        (merge_glob_scan_max_depth (entries p) (glob_scan_max_depth p) (perm_entries a) (Pos.to_nat <$> perm_depth a))
        (foldl push_missing (entries p) (perm_entries a))
  | Unrestricted | ExternalSandboxKind => p
  end.
Definition effective_file_system_sandbox_policy p (a : option (AdditionalPermissionProfile U)) : FileSystemSandboxPolicy U :=
  match a with
  | None => p
  | Some a =>
      match file_system a with
      | None => p
      | Some f => if fs_permissions_is_empty f then p else merge_file_system_policy_with_additional_permissions p f
      end
  end.
Definition merge_network_access (base : bool) (a : AdditionalPermissionProfile U) : bool :=
  base || default false (mjoin (network a)).
Definition effective_network_sandbox_policy (n : NetworkSandboxPolicy) (a : option (AdditionalPermissionProfile U)) :
    NetworkSandboxPolicy :=
  match a with
  | Some a => if merge_network_access (is_enabled n) a then NetEnabled else NetRestricted
  | None => n
  end.
Definition effective_permission_profile profile (a : option (AdditionalPermissionProfile U)) : option (PermissionProfile U) :=
  let '(p, n) := to_runtime_permissions profile in
  from_runtime_permissions_with_enforcement (enforcement profile)
    (effective_file_system_sandbox_policy p a) (effective_network_sandbox_policy n a).

Definition should_require_platform_sandbox p (n : NetworkSandboxPolicy) (has_managed_network_requirements : bool) : bool :=
  if has_managed_network_requirements then true
  else if negb (is_enabled n) then negb (bool_decide (kind p = ExternalSandboxKind))
  else match kind p with
       | Restricted => negb (has_full_disk_write_access p)
       | Unrestricted | ExternalSandboxKind => false
       end.
End Profile.
