(* ===== verification/ProfileProofs.v ===== *)
(** * What permission profiles promise

    The permissions a command receives stay within what it asked for and what
    was granted; additional permissions lift no denied read; a profile is the
    policies it stands for. *)
From stdpp Require Import numbers strings.
From S2P Require Import Prelude RustStr Utf8 PathUri PathUriProofs Permissions PermissionsProofs Profile.

Section Intersection.
#[local] Set Default Proof Using "Type*".
Context {U : Type} `{!UrlCrate U} {url_laws : UrlLaws U} `{!Codecs} {codec_laws : CodecLaws} `{!Host U}.
Implicit Types (p q : FileSystemSandboxPolicy U) (e : FileSystemSandboxEntry U) (ctx : PolicyContext U).
Implicit Types (es : list (FileSystemSandboxEntry U)) (u path root : U) (a : FileSystemAccessMode).

(** ** Policies compared at a path *)

Lemma can_read_rank a : can_read a = true ↔ access_rank a < access_rank Deny.
Proof. destruct a; cbn; split; (done || lia). Qed.

(** A covered access comes from an entry that no denial above it overrides. *)
Lemma readable_entry p ctx path :
  kind p = Restricted → can_read (resolve_access p ctx path) = true →
  context_covers ctx path = true ∧ is_Some (with_depths (resolved_entries p ctx)) ∧
  ∃ root d, (root, resolve_access p ctx path) ∈ resolved_entries p ctx ∧ starts_with path root = true ∧
    lexical_depth root = Some d ∧
    ∀ root' a' d', (root', a') ∈ resolved_entries p ctx → starts_with path root' = true → lexical_depth root' = Some d' →
      key_leb (d', a') (d, resolve_access p ctx path) = true.
Proof.
  intros Hk Hr. destruct (context_covers ctx path) eqn:Hcov;
    [|unfold resolve_access in Hr; rewrite Hk, Hcov in Hr; done].
  destruct (with_depths (resolved_entries p ctx)) as [l|] eqn:Hd;
    [|unfold resolve_access in Hr; rewrite Hk, Hcov, Hd in Hr; done].
  split; [done|]. split; [by eexists|].
  destruct (resolve_access_cases p ctx path l Hk Hcov Hd) as [?|[Hdeny _]]; [done|]. by rewrite Hdeny in Hr.
Qed.

(** The roots of a policy are spelled in text, so that they are ordered below a
    path. *)
Definition text_roots p ctx : Prop := Forall (λ '(root, _), is_text root) (resolved_entries p ctx).

Lemma root_lexical p ctx path root a :
  text_roots p ctx → context_covers ctx path = true → (root, a) ∈ resolved_entries p ctx → starts_with path root = true → lexical root.
Proof.
  intros Ht Hcov Hin Hsw. unfold text_roots in Ht. rewrite Forall_forall in Ht.
  split; [|apply (Ht (root, a) Hin)]. apply context_covers_path in Hcov as [[n Hn] _]. by eapply starts_with_lexical.
Qed.

(** If [q] may be read at a path through the root [root], then so may [p],
    provided that [q] has the denials of [p] below the root, and that at the root
    some entry of [p] lies below all its denials further up. *)
Lemma readable_transfer p q ctx path root d a :
  kind p = Restricted → is_Some (with_depths (resolved_entries p ctx)) → context_covers ctx path = true → is_text path →
  text_roots p ctx → text_roots q ctx →
  (root, a) ∈ resolved_entries q ctx → starts_with path root = true → lexical_depth root = Some d → can_read a = true →
  (∀ root' a' d', (root', a') ∈ resolved_entries q ctx → starts_with path root' = true → lexical_depth root' = Some d' →
     key_leb (d', a') (d, a) = true) →
  (∀ m, (m, Deny) ∈ resolved_entries p ctx → starts_with m root = true → (m, Deny) ∈ resolved_entries q ctx) →
  (∃ r0 a0 d0, (r0, a0) ∈ resolved_entries p ctx ∧ starts_with root r0 = true ∧ lexical_depth r0 = Some d0 ∧
     ∀ m dm, (m, Deny) ∈ resolved_entries p ctx → starts_with root m = true → lexical_depth m = Some dm → dm < d → dm < d0) →
  can_read (resolve_access p ctx path) = true.
Proof.
  intros Hk [l Hl] Hcov Htp Hp Hq Hin Hsw Hd Ha Hmax Hden (r0 & a0 & d0 & Hin0 & Hsw0 & Hd0 & Habove).
  pose proof (context_covers_path _ _ Hcov) as [Hlex _].
  assert (lexical path) as Lp by done. pose proof (root_lexical q ctx path root a Hq Hcov Hin Hsw) as Lr.
  assert (lexical r0) as L0.
  { split; [by eexists|]. unfold text_roots in Hp. rewrite Forall_forall in Hp. apply (Hp (r0, a0) Hin0). }
  assert (starts_with path r0 = true) as Hp0 by by apply (starts_with_trans path root r0).
  destruct (resolve_access_cases p ctx path l Hk Hcov Hl) as [(m & dm & Hm & Hswm & Hdm & Hmaxm)|[_ Hnone]];
    [|by rewrite (Hnone r0 a0 Hin0) in Hp0].
  destruct (resolve_access p ctx path) eqn:Eacc; try done. exfalso.
  assert (lexical m) as Lm by by eapply (root_lexical p ctx path).
  pose proof (uri_key_depth _ _ Hd) as Kd. pose proof (uri_key_depth _ _ Hdm) as Km.
  destruct (decide (d ≤ dm)) as [Hle|Hlt].
  - assert (starts_with m root = true) as Hmr by (apply (starts_with_chain path); [done..|lia]).
    specialize (Hmax m Deny dm (Hden m Hm Hmr) Hswm Hdm). apply key_leb_spec in Hmax. cbn in Hmax.
    apply can_read_rank in Ha. cbn in Ha. lia.
  - assert (starts_with root m = true) as Hrm by (apply (starts_with_chain path); [done..|lia]).
    specialize (Habove m dm Hm Hrm Hdm ltac:(lia)).
    specialize (Hmaxm r0 a0 d0 Hin0 Hp0 Hd0). apply key_leb_spec in Hmaxm. cbn in Hmaxm. lia.
Qed.

(** ** Materialised entries *)

Definition resolved_of ctx es : list (U * FileSystemAccessMode) := resolved_entries (restricted es) ctx.
Lemma resolved_app ctx es es' : resolved_of ctx (es ++ es') = resolved_of ctx es ++ resolved_of ctx es'.
Proof. unfold resolved_of, resolved_entries. cbn. by rewrite bind_app. Qed.
Lemma resolved_cons ctx e es : resolved_of ctx (e :: es) = resolved_of ctx [e] ++ resolved_of ctx es.
Proof. apply (resolved_app ctx [e] es). Qed.
Lemma resolved_no_roots ctx e : entry_roots ctx (entry_path e) = [] → resolved_of ctx [e] = [].
Proof. intros H'. unfold resolved_of, resolved_entries. cbn. by rewrite H'. Qed.

Lemma resolved_paths ctx e (l : list U) :
  entry_roots ctx (entry_path e) = l → resolved_of ctx (materialized_path_entry e <$> l) = resolved_of ctx [e].
Proof.
  intros <-. unfold resolved_of, resolved_entries. cbn [entries restricted mbind list_bind]. rewrite app_nil_r.
  induction (entry_roots ctx (entry_path e)) as [|u l IH]; [done|]. cbn -[bool_decide]. rewrite IH. by case_bool_decide.
Qed.

Lemma materialize_for_roots_paths e subpath ctx (roots : list U) l :
  entry_path e = Special (ProjectRoots subpath) → materialize_for_roots e ctx roots = Some l →
  l = materialized_path_entry e <$> (match subpath with
                                      | None => roots
                                      | Some s => omap (λ root, ok (join_path root s)) roots
                                      end).
Proof.
  intros He. revert l. induction roots as [|root roots IH]; intros l; cbn [materialize_for_roots].
  { intros [= <-]. by destruct subpath. }
  rewrite He. cbn [resolve_permission_path with_root workspace_roots head].
  destruct subpath as [s|].
  - cbn [omap list_omap]. destruct (ok (join_path root s)) eqn:Ej.
    + intros (l' & Hl' & ->)%fmap_Some. by rewrite (IH l' Hl').
    + destruct (is_deny e); [done|]. apply IH.
  - intros (l' & Hl' & ->)%fmap_Some. by rewrite (IH l' Hl').
Qed.

Lemma materialize_cwd_resolved e e' ctx :
  materialize_cwd_dependent_entry e ctx = Some e' → entry_roots ctx (entry_path e) = entry_roots ctx (entry_path e') ∧ access e = access e'.
Proof.
  unfold materialize_cwd_dependent_entry. destruct (entry_path e) eqn:He; try by intros [= <-]; rewrite He.
  repeat (case_match; try done); intros; simplify_eq; done.
Qed.

Lemma resolved_same ctx e e' : entry_roots ctx (entry_path e) = entry_roots ctx (entry_path e') → access e = access e' →
  resolved_of ctx [e] = resolved_of ctx [e'].
Proof. intros Hr Ha. unfold resolved_of, resolved_entries. cbn. by rewrite Hr, Ha. Qed.

Lemma materialize_one_resolved e ctx l : materialize_one e ctx = Some l → resolved_of ctx l = resolved_of ctx [e].
Proof.
  unfold materialize_one. destruct (entry_path e) as [u|g|v] eqn:He; [| |destruct v as [| |subpath| | |]]; intros Hm.
  1,2,4,7,8: destruct (materialize_cwd_dependent_entry e ctx) as [e'|] eqn:Hc.
  all: try (injection Hm as <-; symmetry; apply materialize_cwd_resolved in Hc as [? ?]; by apply resolved_same).
  all: try (destruct (is_deny e); [done|]; injection Hm as <-; symmetry; apply resolved_no_roots; by rewrite He).
  all: try (unfold materialize_cwd_dependent_entry in Hc; rewrite He in Hc; done).
  - destruct (resolve_permission_path _ _); by simplify_eq.
  - destruct (materialize_for_roots e ctx (workspace_roots ctx)) as [l'|] eqn:Hl; [|done].
    destruct (_ && _); [done|]. injection Hm as <-. rewrite (materialize_for_roots_paths e subpath ctx _ _ He Hl).
    apply resolved_paths. rewrite He. by destruct subpath.
  - destruct (temporary_directories ctx) as [dirs|] eqn:Ht.
    + injection Hm as <-. apply resolved_paths. rewrite He. cbn. by rewrite Ht.
    + destruct (is_deny e); by simplify_eq.
Qed.

(** Binding the entries to the executor changes none of their roots. *)
Lemma materialize_resolved es ctx es' :
  materialize_context_dependent_entries es ctx = Some es' → resolved_of ctx es' = resolved_of ctx es.
Proof.
  revert es'. induction es as [|e es IH]; intros es'; cbn [materialize_context_dependent_entries]; [by intros [= <-]|].
  destruct (materialize_one e ctx) as [l|] eqn:Hl; [|done]. intros (l' & Hl' & ->)%fmap_Some.
  rewrite resolved_app, (IH l' Hl'), (materialize_one_resolved _ _ _ Hl), <- resolved_app. done.
Qed.

(** The root of a materialised entry is the one its path resolves to. *)
Lemma materialized_root es ctx es' e root :
  materialize_context_dependent_entries es ctx = Some es' → e ∈ es' → root ∈ entry_roots ctx (entry_path e) →
  resolve_permission_path (entry_path e) ctx = Some root.
Proof.
  revert es'. induction es as [|x es IH]; intros es'; cbn [materialize_context_dependent_entries];
    [by intros [= <-] ?%elem_of_nil|].
  destruct (materialize_one x ctx) as [l|] eqn:Hl; [|done]. intros (l' & Hl' & ->)%fmap_Some.
  rewrite elem_of_app. intros [Hin|Hin]; [|by eapply IH]. clear IH Hl'. revert Hl Hin.
  assert (∀ y : FileSystemPath U, (∀ s, y ≠ Special (ProjectRoots s)) → (y = Special Tmpdir → temporary_directories ctx = None) →
            root ∈ entry_roots ctx y → resolve_permission_path y ctx = Some root) as Hsingle.
  { intros y Hy1 Hy2. destruct y as [u|g|v]; cbn; [set_solver|set_solver|]. destruct v as [| |subpath| | |]; cbn; try set_solver.
    - destruct (file_system_root ctx); cbn; set_solver.
    - rewrite Hy2 by done. set_solver.
    - case_bool_decide; [|set_solver]. destruct (ok _); cbn; set_solver. }
  assert (∀ u, e = materialized_path_entry x u → root ∈ entry_roots ctx (entry_path e) → resolve_permission_path (entry_path e) ctx = Some root)
    as Hpath by (intros u ->; cbn; set_solver).
  unfold materialize_one. intros Hl Hin Hroot.
  destruct (entry_path x) as [u|g|v] eqn:He; [| |destruct v as [| |subpath| | |]].
  1,2,4,7,8: destruct (materialize_cwd_dependent_entry x ctx) as [e'|] eqn:Hc;
    [|destruct (is_deny x); simplify_eq; by apply elem_of_nil in Hin].
  1-5: injection Hl as <-; apply list_elem_of_singleton in Hin as ->; apply Hsingle; [| |done];
    unfold materialize_cwd_dependent_entry in Hc; rewrite He in Hc; repeat (case_match; try done); simplify_eq; cbn;
    try done; congruence.
  - destruct (resolve_permission_path (Special Root) ctx); simplify_eq. apply list_elem_of_singleton in Hin as ->.
    apply Hsingle; [..|done]; by rewrite He.
  - destruct (materialize_for_roots x ctx (workspace_roots ctx)) as [l0|] eqn:Hl0; [|done].
    destruct (_ && _); [done|]. injection Hl as <-. rewrite (materialize_for_roots_paths x subpath ctx _ _ He Hl0) in Hin.
    apply list_elem_of_fmap in Hin as (u & -> & _). by apply (Hpath u).
  - destruct (temporary_directories ctx) as [dirs|] eqn:Ht.
    + injection Hl as <-. apply list_elem_of_fmap in Hin as (u & -> & _). by apply (Hpath u).
    + destruct (is_deny x); [done|]. injection Hl as <-. apply list_elem_of_singleton in Hin as ->.
      apply Hsingle; [..|done]; by rewrite He.
Qed.

(** ** The intersection *)

(** The permissions as a policy, and their entries bound to the executor. *)
Definition asked (f : FileSystemPermissions U) : FileSystemSandboxPolicy U := restricted (perm_entries f).
Definition bound_entries (f : FileSystemPermissions U) ctx : list (FileSystemSandboxEntry U) :=
  default [] (materialize_context_dependent_entries (perm_entries f) ctx).
Definition accepted_entries (requested granted : FileSystemPermissions U) ctx : list (FileSystemSandboxEntry U) :=
  foldl push_missing []
    (List.filter (λ e, granted_file_system_entry_within_request requested (restricted (bound_entries requested ctx)) e ctx)
       (bound_entries granted ctx)).

Lemma push_missing_sub es news e : e ∈ foldl push_missing es news → e ∈ es ∨ e ∈ news.
Proof.
  revert es. induction news as [|n news IH]; intros es; cbn [foldl]; [by left|].
  intros [Hin|Hin]%IH; [|by right; right]. unfold push_missing in Hin. destruct (existsb _ _); [by left|].
  apply elem_of_app in Hin as [?| ->%list_elem_of_singleton]; [by left|by right; left].
Qed.

Lemma spelled_alike_sub es es' : spelled_alike es' → (∀ e, e ∈ es → e ∈ es') → spelled_alike es.
Proof. intros Hs Hsub e e' He He'. apply Hs; auto. Qed.

Lemma elem_filter (f : FileSystemSandboxEntry U → bool) es e : e ∈ List.filter f es ↔ e ∈ es ∧ f e = true.
Proof. by rewrite !list_elem_of_In, List.filter_In. Qed.

Lemma intersect_elems requested granted ctx fs :
  intersect_file_systems requested granted ctx = Some fs → spelled_alike (bound_entries requested ctx ++ bound_entries granted ctx) →
  materialize_context_dependent_entries (perm_entries requested) ctx = Some (bound_entries requested ctx) ∧
  materialize_context_dependent_entries (perm_entries granted) ctx = Some (bound_entries granted ctx) ∧
  ∀ e, e ∈ perm_entries fs ↔ e ∈ accepted_entries requested granted ctx ∨
    (e ∈ bound_entries requested ctx ∨ e ∈ bound_entries granted ctx) ∧ is_deny e = true ∧
    deny_entry_constrains_accepted_grant e (accepted_entries requested granted ctx) ctx = true.
Proof.
  unfold intersect_file_systems, accepted_entries, bound_entries.
  destruct (materialize_context_dependent_entries (perm_entries requested) ctx) as [req|]; [|done].
  destruct (materialize_context_dependent_entries (perm_entries granted) ctx) as [gr|]; [|done]. cbn [from_option id default].
  set (acc := foldl push_missing [] _). cbn. intros [= <-] Hs. split_and!; [done..|]. intros e. cbn [perm_entries].
  unfold constraining_denies.
  assert (∀ x, x ∈ acc → x ∈ gr) as Hacc.
  { intros x [?%elem_of_nil|Hx]%push_missing_sub; [done|]. by apply elem_filter in Hx as [? _]. }
  rewrite !push_missing_all, !elem_filter, !andb_true_iff; [tauto| |].
  all: eapply spelled_alike_sub; [exact Hs|]; intros x; rewrite !elem_of_app.
  - rewrite elem_filter. naive_solver.
  - rewrite !elem_filter. intros [Hx|?]; [|naive_solver]. apply push_missing_sub in Hx as [?|Hx]; [naive_solver|].
    apply elem_filter in Hx. naive_solver.
Qed.

(** An accepted grant is a readable entry of the grant that the request covers. *)
Lemma accepted_within requested granted ctx e : e ∈ accepted_entries requested granted ctx →
  e ∈ bound_entries granted ctx ∧ can_read (access e) = true ∧
  ∀ root, resolve_permission_path (entry_path e) ctx = Some root →
    access_covers (resolve_access (restricted (bound_entries requested ctx)) ctx root) (access e) = true.
Proof.
  intros [?%elem_of_nil|Hin]%push_missing_sub; [done|]. apply elem_filter in Hin as [Hin Hw]. split; [done|].
  unfold granted_file_system_entry_within_request in Hw.
  destruct (_ || _) eqn:E1; [done|]. apply orb_false_iff in E1 as [E1%negb_false_iff _]. split; [done|].
  destruct (_ && _); [done|]. intros root Hr. rewrite Hr in Hw. destruct (_ || _) eqn:E2 in Hw; done.
Qed.

Lemma overlap_contains (u v : U) : starts_with u v = true → paths_overlap u v = true.
Proof. unfold paths_overlap, overlaps. intros ->. by repeat case_match. Qed.

Lemma overlap_inside (u v : U) : starts_with v u = true → paths_overlap u v = true.
Proof. unfold paths_overlap, overlaps. intros ->. repeat case_match; rewrite ?orb_true_r; done. Qed.

(** Two directories above one path overlap. *)
Lemma overlap_common path (u v : U) :
  lexical path → lexical u → lexical v → starts_with path u = true → starts_with path v = true → paths_overlap u v = true.
Proof.
  intros Lp Lu Lv Hu Hv. destruct (decide (length (uri_key u) ≤ length (uri_key v))) as [Hle|Hgt].
  - by apply overlap_inside, (starts_with_chain path).
  - apply overlap_contains, (starts_with_chain path); [done..|lia].
Qed.

(** The directory a deny entry is taken to be about. *)
Definition deny_place ctx e : option U :=
  match entry_path e with
  | GlobPattern pattern => glob_static_prefix_path pattern ctx
  | place => resolve_permission_path place ctx
  end.

(** A denial whose place overlaps an accepted grant constrains it. *)
Lemma constrains requested granted ctx e g root :
  g ∈ accepted_entries requested granted ctx → resolve_permission_path (entry_path g) ctx = Some root →
  (∀ m, deny_place ctx e = Some m → paths_overlap m root = true) →
  deny_entry_constrains_accepted_grant e (accepted_entries requested granted ctx) ctx = true.
Proof.
  intros Hg Hroot Hm. apply existsb_exists. exists g. split; [by apply list_elem_of_In|].
  pose proof (accepted_within _ _ _ _ Hg) as (_ & -> & _). cbn [andb]. destruct (is_root_entry g); [done|]. rewrite Hroot.
  unfold deny_place in Hm. destruct (match entry_path e with PathEntry _ => _ | _ => _ end); auto.
Qed.

Lemma deny_place_root ctx e m : m ∈ entry_roots ctx (entry_path e) → resolve_permission_path (entry_path e) ctx = Some m →
  deny_place ctx e = Some m.
Proof. unfold deny_place. destruct (entry_path e); [done|by intros ?%elem_of_nil|done]. Qed.

(** No entry makes a part of a writable directory readable only. *)
Definition no_read_only_part p ctx : Prop :=
  ∀ r w, (r, Read) ∈ resolved_entries p ctx → (w, Write) ∈ resolved_entries p ctx → starts_with r w = true → starts_with w r = true.

Lemma bound_resolved ctx (f : FileSystemPermissions U) :
  materialize_context_dependent_entries (perm_entries f) ctx = Some (bound_entries f ctx) →
  resolved_entries (restricted (bound_entries f ctx)) ctx = resolved_entries (asked f) ctx.
Proof. apply materialize_resolved. Qed.

Lemma covers_readable a b : access_covers a b = true → can_read a = true.
Proof. by destruct a, b. Qed.

(** The permissions bound to the executor, as the policy they stand for. *)
Definition bound (f : FileSystemPermissions U) ctx : FileSystemSandboxPolicy U := restricted (bound_entries f ctx).
(** A glob as the read matcher of the context compiles it. *)
Definition context_glob ctx (pattern : str) : option (bytes → bool) :=
  convention ← infer_path_convention (cwd ctx); glob_matcher ctx convention pattern.
(** A denying glob that matches the path has it below the directory before its
    first wildcard.  A glob with braces or escapes need not. *)
Definition matches_below (f : FileSystemPermissions U) ctx path : Prop :=
  ∀ pattern matcher dir, pattern ∈ deny_globs (bound f ctx) → context_glob ctx pattern = Some matcher →
    matcher (glob_candidate (default Posix (infer_path_convention (cwd ctx))) path) = true →
    glob_static_prefix_path pattern ctx = Some dir → is_text dir ∧ starts_with path dir = true.

(** The root of an accepted grant is no denied read of the request. *)
Lemma accepted_not_denied requested granted ctx g root :
  g ∈ accepted_entries requested granted ctx → resolve_permission_path (entry_path g) ctx = Some root →
  is_read_denied_uri (bound requested ctx) ctx root = false ∧ infer_path_convention root = infer_path_convention (cwd ctx).
Proof.
  intros [?%elem_of_nil|Hin]%push_missing_sub Hr; [done|]. apply elem_filter in Hin as [_ Hw].
  unfold granted_file_system_entry_within_request in Hw. destruct (_ || _) in Hw; [done|]. destruct (_ && _) in Hw; [done|].
  rewrite Hr in Hw. destruct (_ || _) eqn:E in Hw; [done|].
  by apply orb_false_iff in E as [?%negb_false_iff%bool_decide_eq_true ?].
Qed.

Section Result.
Context (requested granted fs : FileSystemPermissions U) (ctx : PolicyContext U) (path : U).
Context (Hfs : intersect_file_systems requested granted ctx = Some fs).
Context (Hspelled : spelled_alike (bound_entries requested ctx ++ bound_entries granted ctx)).
Context (Htext : is_text path) (Hreq : text_roots (asked requested) ctx) (Hgr : text_roots (asked granted) ctx).

(** A denial of the request or of the grant that overlaps an accepted grant is
    kept. *)
Lemma deny_entry_kept f g root e :
  f = requested ∨ f = granted → g ∈ accepted_entries requested granted ctx →
  resolve_permission_path (entry_path g) ctx = Some root → e ∈ bound_entries f ctx → access e = Deny →
  (∀ m, deny_place ctx e = Some m → paths_overlap m root = true) → e ∈ perm_entries fs.
Proof.
  intros Hf Hg Hroot He Ha Hm. destruct (intersect_elems _ _ _ _ Hfs Hspelled) as (_ & _ & Hel). apply Hel. right. split_and!.
  - destruct Hf; subst f; auto.
  - by apply is_deny_true.
  - by eapply constrains.
Qed.

Lemma denial_kept f g root m :
  f = requested ∨ f = granted → g ∈ accepted_entries requested granted ctx →
  resolve_permission_path (entry_path g) ctx = Some root → paths_overlap m root = true →
  (m, Deny) ∈ resolved_entries (asked f) ctx → (m, Deny) ∈ resolved_entries (asked fs) ctx.
Proof.
  intros Hf Hg Hroot Hsw Hm. destruct (intersect_elems _ _ _ _ Hfs Hspelled) as (Mr & Mg & _).
  assert (materialize_context_dependent_entries (perm_entries f) ctx = Some (bound_entries f ctx)) as Mf by (by destruct Hf; subst f).
  rewrite <- (bound_resolved ctx f Mf), elem_of_resolved in Hm. destruct Hm as (e & He & Ha & Hm & Hc). cbn in He.
  apply elem_of_resolved. exists e. split_and!; [|done..]. eapply deny_entry_kept; [done..|].
  rewrite (deny_place_root ctx e m Hm); [by intros ? [= <-]|]. eapply (materialized_root (perm_entries f)); [exact Mf|done..].
Qed.

(** The entry through which the result may be read. *)
Lemma result_entry :
  can_read (resolve_access (asked fs) ctx path) = true →
  context_covers ctx path = true ∧ ∃ g root d, g ∈ accepted_entries requested granted ctx ∧
    access g = resolve_access (asked fs) ctx path ∧ resolve_permission_path (entry_path g) ctx = Some root ∧
    (root, access g) ∈ resolved_entries (asked granted) ctx ∧ (root, access g) ∈ resolved_entries (asked fs) ctx ∧
    starts_with path root = true ∧ lexical_depth root = Some d ∧
    ∀ root' a' d', (root', a') ∈ resolved_entries (asked fs) ctx → starts_with path root' = true → lexical_depth root' = Some d' →
      key_leb (d', a') (d, access g) = true.
Proof.
  intros Hr. destruct (readable_entry (asked fs) ctx path eq_refl Hr) as (Hcov & _ & root & d & Hin & Hsw & Hd & Hmax).
  split; [done|]. destruct (intersect_elems _ _ _ _ Hfs Hspelled) as (Mr & Mg & Hel).
  pose proof Hin as Hin'. apply elem_of_resolved in Hin' as (g & Hg & Ha & Hroot & Hc). apply Hel in Hg as [Hg|(_ & Hd' & _)].
  2:{ apply is_deny_true in Hd'. by rewrite <- Ha, Hd' in Hr. }
  destruct (accepted_within _ _ _ _ Hg) as (Hb & _). exists g, root, d. rewrite Ha. split_and!; try done.
  - by eapply (materialized_root (perm_entries granted)).
  - rewrite <- (bound_resolved ctx granted Mg). apply elem_of_resolved. exists g. split_and!; done.
Qed.

(** The request at the root of an accepted grant. *)
Lemma request_at_root g root :
  g ∈ accepted_entries requested granted ctx → resolve_permission_path (entry_path g) ctx = Some root →
  access_covers (resolve_access (asked requested) ctx root) (access g) = true.
Proof.
  intros Hg Hroot. destruct (accepted_within _ _ _ _ Hg) as (_ & _ & Hw). specialize (Hw root Hroot).
  destruct (intersect_elems _ _ _ _ Hfs Hspelled) as (Mr & _ & _).
  unfold resolve_access in Hw |- *. cbn [kind restricted] in *. by rewrite (bound_resolved ctx requested Mr) in Hw.
Qed.

Lemma text_result : text_roots (asked fs) ctx.
Proof.
  destruct (intersect_elems _ _ _ _ Hfs Hspelled) as (Mr & Mg & Hel). unfold text_roots in *. rewrite Forall_forall in *.
  intros [root a] (e & He & Ha & Hr & Hc)%elem_of_resolved. apply Hel in He.
  assert (e ∈ bound_entries requested ctx ∨ e ∈ bound_entries granted ctx) as [Hb|Hb].
  { destruct He as [He|[? _]]; [right; by eapply accepted_within|done]. }
  - apply (Hreq (root, a)). rewrite <- (bound_resolved ctx requested Mr). apply elem_of_resolved. by exists e.
  - apply (Hgr (root, a)). rewrite <- (bound_resolved ctx granted Mg). apply elem_of_resolved. by exists e.
Qed.

Lemma result_reads_requested :
  can_read (resolve_access (asked fs) ctx path) = true → can_read (resolve_access (asked requested) ctx path) = true.
Proof.
  intros Hr. destruct (result_entry Hr) as (Hcov & g & root & d & Hg & Ha & Hroot & _ & Hin & Hsw & Hd & Hmax).
  pose proof (request_at_root g root Hg Hroot) as Hw. apply covers_readable in Hw as Hcr.
  destruct (readable_entry (asked requested) ctx root eq_refl Hcr) as (_ & Hds & r0 & d0 & Hin0 & Hsw0 & Hd0 & Hmax0).
  eapply (readable_transfer (asked requested) (asked fs) ctx path root d (access g)); try done; [apply text_result|by rewrite Ha| |].
  - intros m Hm Hsm. eapply (denial_kept requested); eauto using overlap_contains.
  - exists r0, (resolve_access (asked requested) ctx root), d0. split_and!; [done..|]. intros m dm Hm Hsm Hdm _.
    specialize (Hmax0 m Deny dm Hm Hsm Hdm). apply key_leb_spec in Hmax0. apply can_read_rank in Hcr. cbn in *. lia.
Qed.

Lemma result_reads_granted : is_Some (with_depths (resolved_entries (asked granted) ctx)) →
  can_read (resolve_access (asked fs) ctx path) = true → can_read (resolve_access (asked granted) ctx path) = true.
Proof.
  intros Hds Hr. destruct (result_entry Hr) as (Hcov & g & root & d & Hg & Ha & Hroot & Hgin & Hin & Hsw & Hd & Hmax).
  eapply (readable_transfer (asked granted) (asked fs) ctx path root d (access g)); try done; [apply text_result|by rewrite Ha| |].
  - intros m Hm Hsm. eapply (denial_kept granted); eauto using overlap_contains.
  - exists root, (access g), d. split_and!; [done|apply starts_with_refl|done|done].
Qed.

Lemma result_writes_requested : no_read_only_part (asked requested) ctx →
  can_write (resolve_access (asked fs) ctx path) = true → can_write (resolve_access (asked requested) ctx path) = true.
Proof.
  intros Hparts Hw. assert (can_read (resolve_access (asked fs) ctx path) = true) as Hr by by destruct (resolve_access _ _ _).
  pose proof (result_reads_requested Hr) as Hrr.
  destruct (result_entry Hr) as (Hcov & g & root & d & Hg & Ha & Hroot & _ & Hin & Hsw & Hd & _).
  pose proof (request_at_root g root Hg Hroot) as Hwr. rewrite Ha in Hwr.
  destruct (resolve_access (asked fs) ctx path) eqn:Ef; try done. clear Ef. cbn [access_covers] in Hwr.
  destruct (resolve_access (asked requested) ctx root) eqn:Er; try done.
  destruct (readable_entry (asked requested) ctx root eq_refl) as (_ & _ & w & dw & Hinw & Hsww & Hdw & _); [by rewrite Er|].
  rewrite Er in Hinw.
  destruct (readable_entry (asked requested) ctx path eq_refl Hrr) as (_ & _ & m & dm & Hm & Hswm & Hdm & Hmax).
  destruct (resolve_access (asked requested) ctx path); try done. exfalso.
  pose proof (context_covers_path _ _ Hcov) as [Hlex _]. assert (lexical path) as Lp by done.
  pose proof (root_lexical _ _ _ _ _ text_result Hcov Hin Hsw) as Lr.
  assert (lexical w) as Lw.
  { split; [by eexists|]. unfold text_roots in Hreq. rewrite Forall_forall in Hreq. apply (Hreq (w, Write) Hinw). }
  assert (starts_with path w = true) as Hpw by by apply (starts_with_trans path root w).
  assert (lexical m) as Lm by by eapply (root_lexical (asked requested) ctx path).
  pose proof (Hmax w Write dw Hinw Hpw Hdw) as Hk. apply key_leb_spec in Hk. cbn in Hk.
  pose proof (uri_key_depth _ _ Hdw) as Kw. pose proof (uri_key_depth _ _ Hdm) as Km.
  assert (starts_with m w = true) as Hmw by (apply (starts_with_chain path); [done..|lia]).
  specialize (Hparts m w Hm Hinw Hmw). apply (containment_is_prefix_lemma w m) in Hparts as (_ & _ & Hle%prefix_length); [lia|done..].
Qed.
(** The denied reads of bound permissions reach the result: directories wherever
    they are, globs as [matches_below] says. *)
Lemma result_keeps_denied f :
  f = requested ∨ f = granted → matches_below f ctx path → can_read (resolve_access (asked fs) ctx path) = true →
  (f = requested ∨ ∀ pattern, pattern ∈ deny_globs (bound f ctx) → is_Some (context_glob ctx pattern)) →
  is_read_denied_uri (bound f ctx) ctx path = true → is_read_denied_uri (asked fs) ctx path = true.
Proof.
  intros Hf Hbelow Hr Hcomp Hd. destruct (result_entry Hr) as (Hcov & g & root & d & Hg & Ha & Hroot & _ & Hin & Hsw & Hdep & _).
  pose proof (root_lexical _ _ _ _ _ text_result Hcov Hin Hsw) as Lr.
  pose proof (context_covers_path _ _ Hcov) as [Hlex _]. assert (lexical path) as Lp by done.
  apply is_read_denied_uri_spec in Hd as [_ [Hno|(c & Hc & Hcase)]]; [by rewrite Hcov in Hno|].
  rewrite is_read_denied_uri_spec.
  assert (∀ e, e ∈ perm_entries fs → access e = Deny → existsb is_deny (entries (asked fs)) = true) as Hsome.
  { intros e He Hde. apply existsb_exists. exists e. split; [by apply list_elem_of_In|by apply is_deny_true]. }
  destruct Hcase as [(pattern & Hpat & Hnone)|[(m & Hm & Hsys & Hswm)|(pattern & matcher & Hpat & Hm & Hmatch)]].
  - exfalso. destruct Hcomp as [->|Hcomp].
    + destruct (accepted_not_denied _ _ _ _ _ Hg Hroot) as [Hnd _]. apply not_true_iff_false in Hnd. apply Hnd, is_read_denied_uri_spec.
      split; [|right; exists c; split; [done|left; by exists pattern]]. apply elem_of_deny_globs in Hpat as (e & He & Hde & _).
      apply existsb_exists. exists e. split; [by apply list_elem_of_In|by apply is_deny_true].
    + destruct (Hcomp pattern Hpat) as [matcher Hmatcher]. unfold context_glob in Hmatcher. rewrite Hc in Hmatcher.
      cbn in Hmatcher. congruence.
  - assert ((m, Deny) ∈ resolved_entries (asked fs) ctx) as Hk.
    { destruct (intersect_elems _ _ _ _ Hfs Hspelled) as (Mr & Mg & _).
      unfold bound in Hm. rewrite bound_resolved in Hm by (by destruct Hf; subst f).
      eapply (denial_kept f); [done..| |done]. apply (overlap_common path); try done.
      eapply (root_lexical (asked f) ctx path); [by destruct Hf; subst f|done..]. }
    split; [|right; exists c; split; [done|right; left; by exists m]].
    apply elem_of_resolved in Hk as (e & He & Hde & _). by apply (Hsome e).
  - pose proof Hpat as Hpat'. apply elem_of_deny_globs in Hpat' as (e & He & Hde & Hpath).
    assert (e ∈ perm_entries fs) as Hk.
    { eapply (deny_entry_kept f); [done..|]. intros m. unfold deny_place. rewrite Hpath. intros Hplace.
      destruct (Hbelow pattern matcher m Hpat) as [Htm Hswm]; [unfold context_glob; by rewrite Hc|by rewrite Hc|done|].
      apply (overlap_common path); try done. split; [|done]. destruct Hlex as [n Hn]. by eapply starts_with_lexical. }
    split; [by apply (Hsome e)|]. right. exists c. split; [done|]. right. right. exists pattern, matcher. split; [|done].
    apply elem_of_deny_globs. by exists e.
Qed.
End Result.

(** C24: what a command receives when it asks for more is within what it asked for
    and within what was granted.  By the directories of the entries: a path that
    the intersection lets it read may be read under the request and under the
    grant; a path that it lets it write may be written under the request, if the
    request makes no part of a writable directory readable only.  By the denied
    reads, globs included: a read that the request or the grant, bound to the
    executor, denies is denied in the intersection, if the globs that match the
    path have it below the directory before their first wildcard, and, for the
    grant, all its globs compile. *)
Theorem intersection_stays_within requested granted ctx fs path
    (Hfs : intersect_file_systems requested granted ctx = Some fs)
    (Hspelled : spelled_alike (bound_entries requested ctx ++ bound_entries granted ctx))
    (Htext : is_text path) (Hreq : text_roots (asked requested) ctx) (Hgr : text_roots (asked granted) ctx)
    (Hdepths : is_Some (with_depths (resolved_entries (asked granted) ctx))) :
  (can_read (resolve_access (asked fs) ctx path) = true →
     can_read (resolve_access (asked requested) ctx path) = true ∧ can_read (resolve_access (asked granted) ctx path) = true) ∧
  (no_read_only_part (asked requested) ctx → can_write (resolve_access (asked fs) ctx path) = true →
     can_write (resolve_access (asked requested) ctx path) = true) ∧
  (can_read (resolve_access (asked fs) ctx path) = true → is_read_denied_uri (asked fs) ctx path = false →
     (matches_below requested ctx path → is_read_denied_uri (bound requested ctx) ctx path = false) ∧
     (matches_below granted ctx path → (∀ pattern, pattern ∈ deny_globs (bound granted ctx) → is_Some (context_glob ctx pattern)) →
        is_read_denied_uri (bound granted ctx) ctx path = false)).
Proof.
  split_and!; [intros Hr; split| |intros Hr Hnd; split].
  - by apply (result_reads_requested requested granted fs ctx path).
  - by apply (result_reads_granted requested granted fs ctx path).
  - by apply (result_writes_requested requested granted fs ctx path).
  - intros Hb. apply not_true_iff_false. intros Hd. apply not_true_iff_false in Hnd. apply Hnd.
    apply (result_keeps_denied requested granted fs ctx path Hfs Hspelled Htext Hreq Hgr requested); auto.
  - intros Hb Hcomp. apply not_true_iff_false. intros Hd. apply not_true_iff_false in Hnd. apply Hnd.
    apply (result_keeps_denied requested granted fs ctx path Hfs Hspelled Htext Hreq Hgr granted); auto.
Qed.
End Intersection.

(** ** Profiles and policies *)

Section Effective.
#[local] Set Default Proof Using "Type*".
Context {U : Type} `{!UrlCrate U} {url_laws : UrlLaws U} `{!Codecs} {codec_laws : CodecLaws} `{!Host U}.
Implicit Types (p : FileSystemSandboxPolicy U) (ctx : PolicyContext U) (profile : PermissionProfile U) (u path : U).

Lemma NonZero_round (n : positive) : NonZeroUsize_new (Pos.to_nat n) = Some n.
Proof.
  pose proof (Pos2Nat.is_pos n). destruct (Pos.to_nat n) eqn:E; [lia|]. cbn [NonZeroUsize_new]. rewrite <- E. f_equal. apply Pos2Nat.id.
Qed.

(** A profile is the policies it stands for and who enforces them. *)
Theorem profile_round_trip profile :
  from_runtime_permissions_with_enforcement (enforcement profile) (file_system_sandbox_policy profile)
    (network_sandbox_policy profile) = Some profile.
Proof.
  destruct profile as [[es [n|]|] net| |net]; try done. unfold from_runtime_permissions_with_enforcement, managed_profile. cbn.
  by rewrite NonZero_round.
Qed.

(** Building a profile never reaches the unreachable branch, and keeps kind and
    entries of the policy. *)
Lemma from_runtime_total enf p (n : NetworkSandboxPolicy) :
  ∃ profile, from_runtime_permissions_with_enforcement enf p n = Some profile ∧
    kind (file_system_sandbox_policy profile) = kind p ∧
    (kind p = Restricted → entries (file_system_sandbox_policy profile) = entries p).
Proof.
  unfold from_runtime_permissions_with_enforcement, managed_profile, managed_from_sandbox_policy.
  destruct (kind p) eqn:Hk; cbn; [by eexists|case_bool_decide; by eexists|by eexists].
Qed.

(** Additional permissions add entries and lift no denied read; they give the
    network exactly when they ask for it or the profile has it; and a profile
    without restrictions stays as it is.  The result always exists. *)
Theorem additional_permissions_only_add profile (extra : option (AdditionalPermissionProfile U)) :
  ∃ profile', effective_permission_profile profile extra = Some profile' ∧ enforcement profile' = enforcement profile ∧
    (∀ ctx path, is_read_denied_uri (file_system_sandbox_policy profile) ctx path = true →
       is_read_denied_uri (file_system_sandbox_policy profile') ctx path = true) ∧
    (enforcement profile ≠ EnforceDisabled →
       is_enabled (network_sandbox_policy profile') =
       is_enabled (network_sandbox_policy profile) ||
       match extra with Some a => bool_decide (network a = Some (Some true)) | None => false end).
Proof.
  unfold effective_permission_profile, to_runtime_permissions.
  set (p := file_system_sandbox_policy profile). set (p' := effective_file_system_sandbox_policy p extra).
  set (n' := effective_network_sandbox_policy (network_sandbox_policy profile) extra).
  assert (kind p' = kind p ∧ (∀ e, e ∈ entries p → e ∈ entries p')) as [Hkind Hsub].
  { subst p'. unfold effective_file_system_sandbox_policy. destruct extra as [a|]; [|done]. destruct (file_system a) as [f|]; [|done].
    destruct (fs_permissions_is_empty f); [done|]. unfold merge_file_system_policy_with_additional_permissions.
    destruct (kind p) eqn:Hk; [|by rewrite ?Hk..]. cbn. split; [done|]. generalize (entries p).
    induction (perm_entries f) as [|x l IH]; intros es e He; [done|]. cbn [foldl]. apply IH. unfold push_missing.
    destruct (existsb _ _); [done|]. apply elem_of_app. by left. }
  assert (is_enabled n' = is_enabled (network_sandbox_policy profile) ||
            match extra with Some a => bool_decide (network a = Some (Some true)) | None => false end) as Hnet.
  { subst n'. unfold effective_network_sandbox_policy, merge_network_access. destruct extra as [a|]; [|by rewrite orb_false_r].
    assert (default false (mjoin (network a)) = bool_decide (network a = Some (Some true))) as ->.
    { destruct (network a) as [[[]|]|]; done. }
    by destruct (is_enabled (network_sandbox_policy profile)), (bool_decide _). }
  destruct (from_runtime_total (enforcement profile) p' n') as (profile' & Hp & Hk' & He'). exists profile'. split; [done|].
  unfold from_runtime_permissions_with_enforcement, managed_profile, managed_from_sandbox_policy in Hp.
  rewrite Hkind in Hp. destruct profile as [[es depth|] net| |net]; cbn in Hp; try case_bool_decide; simplify_eq; cbn -[p p'] in *.
  - split_and!; [done| |done]. intros ctx path. rewrite !is_read_denied_uri_spec. cbn [to_sandbox_policy].
    specialize (He' Hkind). intros [Hex Hd]. split.
    + apply existsb_exists in Hex as (e & He%list_elem_of_In & Hde). apply existsb_exists. exists e. split; [|done].
      apply list_elem_of_In. cbn. by apply Hsub.
    + eapply read_denied_mono; [|exact Hd]. intros e He _. cbn. by apply Hsub.
  - split_and!; [done|by intros ctx path Hd|done].
  - split_and!; [done|by intros ctx path Hd|done].
  - split_and!; [done|by intros ctx path Hd|done].
Qed.
End Effective.

(** ** Examples *)

Module MiniProfile.
Import PathUriProofs.MiniUrl PermissionsProofs.MiniHost.

Definition write_project : FileSystemPermissions mini_url := mkFsPermissions [literal "file:///home/me" Write] None.
Definition read_only_part : FileSystemPermissions mini_url :=
  mkFsPermissions [literal "file:///home/me" Write; literal "file:///home/me/keys" Read] None.
Definition granted_result : FileSystemPermissions mini_url :=
  default fs_default (intersect_file_systems read_only_part write_project example_context).

(** The intersection can exceed the request: the request makes a part of a
    writable directory readable only, the grant is the whole directory, and the
    part may be written. *)
Theorem intersection_can_exceed_request :
  intersect_file_systems read_only_part write_project example_context = Some granted_result ∧
  resolve_access (asked read_only_part) example_context (of_text "file:///home/me/keys/id") = Read ∧
  resolve_access (asked granted_result) example_context (of_text "file:///home/me/keys/id") = Write.
Proof. split_and!; by vm_compute. Qed.

Definition posix_entry (e : FileSystemSandboxEntry mini_url) : bool :=
  match entry_path e with PathEntry u => bool_decide (infer_path_convention u = Some Posix) | _ => true end.
Lemma posix_spelled es : forallb posix_entry es = true → spelled_alike es.
Proof.
  rewrite forallb_forall. intros Hall e e' _ He'%list_elem_of_In%Hall Heq.
  destruct e as [path a m], e' as [path' a' m']. destruct path as [u| |], path' as [v| |]; try by apply entry_eqb_symbolic.
  unfold posix_entry in He'. cbn [entry_path] in He'. apply bool_decide_eq_true in He'.
  unfold entry_eqb in Heq. rewrite !andb_true_iff, !bool_decide_eq_true in Heq. cbn [entry_path access missing_path_behavior path_eqb] in Heq.
  destruct Heq as [[Hp ->] ->]. apply (posix_eq v u) in Hp; [|done]. by rewrite Hp.
Qed.
Lemma posix_text_roots p : forallb (λ '(root, _), bool_decide (infer_path_convention root = Some Posix)) (resolved_entries p example_context) = true →
  text_roots p example_context.
Proof.
  rewrite forallb_forall. intros Hall. apply Forall_forall. intros [root a] Hin%list_elem_of_In%Hall. by apply text_posix.
Qed.

Definition request : FileSystemPermissions mini_url :=
  mkFsPermissions [literal "file:///home/me" Write; literal "file:///home/me/keys" Deny; new_entry (Special (ProjectRoots None)) Read;
                   new_entry (GlobPattern (lit "/home/me/src/*.key")) Deny] None.
Definition grant : FileSystemPermissions mini_url :=
  mkFsPermissions [literal "file:///home/me/src" Write; literal "file:///home/me/keys" Read; new_entry (Special (ProjectRoots None)) Write] None.
Definition result : FileSystemPermissions mini_url := default fs_default (intersect_file_systems request grant example_context).

Definition glob_clear (f : FileSystemPermissions mini_url) (path : mini_url) : bool :=
  forallb (λ pattern, match context_glob example_context pattern with
                      | Some matcher => negb (matcher (glob_candidate Posix path))
                      | None => false
                      end) (deny_globs (bound f example_context)).
Lemma clear_below f path : glob_clear f path = true → matches_below f example_context path.
Proof.
  unfold glob_clear. rewrite forallb_forall. intros Hall pattern matcher dir Hin%list_elem_of_In%Hall Hm Hmatch.
  rewrite Hm in Hin. apply negb_true_iff in Hin. change (default Posix _) with Posix in Hmatch. congruence.
Qed.
Lemma clear_compiles f path pattern : glob_clear f path = true → pattern ∈ deny_globs (bound f example_context) →
  is_Some (context_glob example_context pattern).
Proof.
  unfold glob_clear. rewrite forallb_forall. intros Hall Hin%list_elem_of_In%Hall. by destruct (context_glob _ _).
Qed.

Definition source_file : mini_url := of_text "file:///home/me/src/x.v".
Lemma intersection_stays_within_witness :
  can_write (resolve_access (asked request) example_context source_file) = true ∧
  can_read (resolve_access (asked grant) example_context source_file) = true ∧
  is_read_denied_uri (bound request example_context) example_context source_file = false ∧
  is_read_denied_uri (bound grant example_context) example_context source_file = false.
Proof.
  destruct (intersection_stays_within request grant example_context result source_file) as (Hr & Hw & Hd).
  - by vm_compute.
  - apply posix_spelled. by vm_compute.
  - apply text_posix. by vm_compute.
  - apply posix_text_roots. by vm_compute.
  - apply posix_text_roots. by vm_compute.
  - apply (bool_decide_eq_true_1 (is_Some _)). by vm_compute.
  - destruct Hd as [Hd1 Hd2]; [by vm_compute..|].
    split_and!; [apply Hw; [|by vm_compute]|apply Hr; by vm_compute|apply Hd1, clear_below; by vm_compute|].
    2:{ apply Hd2; [apply clear_below; by vm_compute|]. intros pattern. apply (clear_compiles _ source_file). by vm_compute. }
    intros r w Hr' Hw' Hsw.
    assert (forallb (λ '(r, a), forallb (λ '(w, b), negb (bool_decide (a = Read) && bool_decide (b = Write) && starts_with r w))
              (resolved_entries (asked request) example_context)) (resolved_entries (asked request) example_context) = true) as Hall by by vm_compute.
    rewrite forallb_forall in Hall. apply list_elem_of_In, Hall in Hr'. rewrite forallb_forall in Hr'.
    apply list_elem_of_In, Hr' in Hw'. by rewrite Hsw in Hw'.
Defined.

(** The glob of the request below the grant is in the result. *)
Example request_glob_kept : existsb (λ e, path_eqb (entry_path e) (GlobPattern (lit "/home/me/src/*.key"))) (perm_entries result) = true.
Proof. by vm_compute. Qed.

Definition denying_profile : PermissionProfile mini_url :=
  Managed (ManagedRestricted [literal "file:///home/me/keys" Deny] None) NetRestricted.
Definition with_network : AdditionalPermissionProfile mini_url := mkAdditional (Some (Some true)) (Some write_project).
Lemma additional_permissions_only_add_witness :
  ∃ profile', effective_permission_profile denying_profile (Some with_network) = Some profile' ∧
    is_enabled (network_sandbox_policy profile') = true ∧
    is_read_denied_uri (file_system_sandbox_policy profile') example_context (of_text "file:///home/me/keys/id") = true.
Proof.
  destruct (additional_permissions_only_add denying_profile (Some with_network)) as (profile' & Heff & _ & Hread & Hnet).
  exists profile'. split_and!; [exact Heff|by rewrite Hnet|]. apply Hread. by vm_compute.
Defined.
End MiniProfile.

(** ** Globs with braces

    The glob compiler expands braces; the directory before the first wildcard
    does not count them as one, and so names a directory that no match is in. *)
Module BraceGlobs.
Import PathUriProofs.MiniUrl PermissionsProofs.MiniHost.

Definition alternatives (s : str) : list str :=
  match find_char (N.eqb 123) s with
  | None => [s]
  | Some i =>
      let rest := drop (S i) s in
      match find_char (N.eqb 125) rest with
      | None => [s]
      | Some j => (λ alternative, take i s ++ alternative ++ drop (S j) rest) <$> split 44%N (take j rest)
      end
  end.
#[local] Instance brace_host : Host mini_url := {|
  Abs := mini_url;
  unix := true;
  from_absolute_path := @from_absolute_path _ mini_host;
  is_absolute := @is_absolute _ mini_host;
  abs_join := @abs_join _ mini_host;
  resolve_path_against_base := @resolve_path_against_base _ mini_host;
  abs_parent := @abs_parent _ mini_host;
  abs_is := @abs_is _ mini_host;
  abs_root := @abs_root _ mini_host;
  as_path := @as_path _ mini_host;
  to_string_lossy := @to_string_lossy _ mini_host;
  uri_from_abs_path := @uri_from_abs_path _ mini_host;
  uri_to_abs_path := @uri_to_abs_path _ mini_host;
  home_dir := @home_dir _ mini_host;
  tmpdir := None;
  abs_is_file := @abs_is_file _ mini_host;
  abs_is_dir := @abs_is_dir _ mini_host;
  abs_exists := @abs_exists _ mini_host;
  abs_read_to_string := @abs_read_to_string _ mini_host;
  glob_build s _ := Ok (λ b, existsb (λ t, bool_decide (b = encode t)) (alternatives s));
|}.

Definition brace_request : FileSystemPermissions mini_url :=
  mkFsPermissions [literal "file:///home" Read; new_entry (GlobPattern (lit "/home/{me,you}/secret")) Deny] None.
Definition home_grant : FileSystemPermissions mini_url := mkFsPermissions [literal "file:///home/me" Read] None.
Definition brace_result : FileSystemPermissions mini_url :=
  default fs_default (intersect_file_systems brace_request home_grant example_context).
Definition secret : mini_url := of_text "file:///home/me/secret".

(** The request denies the read of a file by a glob with braces; the
    intersection drops the glob and the file may be read. *)
Lemma brace_denial_is_dropped :
  intersect_file_systems brace_request home_grant example_context = Some brace_result ∧
  is_read_denied_uri (bound brace_request example_context) example_context secret = true ∧
  is_read_denied_uri (asked brace_result) example_context secret = false ∧
  resolve_access (asked brace_result) example_context secret = Read.
Proof. split_and!; by vm_compute. Qed.
End BraceGlobs.
