(* ===== verification/ExecApproval.v ===== *)
(** * Approval of commands ([core/src/exec_policy.rs])

    Before a command runs, it is split into the plain commands of its script,
    each of them is judged by the rules of the execution policy, and by a
    heuristic where no rule matches.  The result says whether the command runs
    at once, in or outside the sandbox, needs approval, or is refused; it may
    propose a rule that would make the question unnecessary, and accepting that
    rule changes the policy file and the policy in memory.

    The shell parsers are tree-sitter grammars and, with the paths of the
    machine and the [shlex] crate, the class [Shells]. *)
From stdpp Require Import numbers strings gmap.
From S2P Require Import Prelude Utf8 PathUri Permissions Profile RustStr ExecRule ExecPolicy ExecAmend DangerousCommand.

Class Shells : Type := {
  (** [Path::file_stem], equality of paths, [Path::parent] *)
  file_stem : str → option str;
  same_path : str → str → bool;
  path_parent : str → option str;
  parse_shell_script_into_commands : str → option (list (list str));
  (** [parse_shell_lc_literal_commands] *)
  literal_commands : list str → option (list (list str));
  try_parse_powershell_commands : str → option (list (list str));
  (** [windows_dangerous_commands.rs] *)
  is_dangerous_command_windows : list str → bool;
  is_dangerous_powershell_words : list str → bool;
  shlex_try_join : list str → option str;
  (** [cfg!(windows)] *)
  cfg_windows : bool;
  (** whether a path lies in a directory of system shells, on Windows *)
  in_system_root : str → bool;
}.

(** ** Settings *)

Record GranularApprovalConfig : Type := mkGranular {
  sandbox_approval : bool;
  rules_approval : bool;
  skill_approval : bool;
  request_permissions : bool;
  mcp_elicitations : bool;
}.
Inductive AskForApproval : Type := UnlessTrusted | OnRequest | Granular (c : GranularApprovalConfig) | Never.
Inductive WindowsSandboxLevel : Type := LevelDisabled | RestrictedToken | Elevated.
#[global] Instance WindowsSandboxLevel_eq_dec : EqDecision WindowsSandboxLevel.
Proof. solve_decision. Defined.
Inductive AllowPrefixRules : Type := Honor | IgnoreForCyberModel.
Inductive ExecPolicyCommandOrigin : Type := Generic | PowerShellOrigin.
Inductive UnifiedExecShellMode : Type := Direct | ZshFork.

(** [ExecPolicyAmendment] is its command. *)
Inductive ExecApprovalRequirement : Type :=
  | SkipApproval (bypass_sandbox : bool) (proposed_execpolicy_amendment : option (list str))
  | NeedsApproval (reason : option str) (proposed_execpolicy_amendment : option (list str))
  | ForbiddenCall (reason : str).
Definition proposed_execpolicy_amendment (r : ExecApprovalRequirement) : option (list str) :=
  match r with SkipApproval _ a | NeedsApproval _ a => a | ForbiddenCall _ => None end.

Definition PROMPT_CONFLICT_REASON : str := lit "approval required by policy, but AskForApproval is set to Never".
Definition REJECT_SANDBOX_APPROVAL_REASON : str :=
  lit "approval required by policy, but AskForApproval::Granular.sandbox_approval is false".
Definition REJECT_RULES_APPROVAL_REASON : str :=
  lit "approval required by policy rule, but AskForApproval::Granular.rules is false".

Definition words (l : list string) : list str := lit <$> l.
Definition BANNED_PREFIX_SUGGESTIONS : list (list str) := words <$>
  [["/bin/bash"]; ["/bin/bash"; "-c"]; ["/bin/bash"; "-lc"]; ["/bin/sh"]; ["/bin/sh"; "-c"]; ["/bin/sh"; "-lc"];
   ["/bin/zsh"]; ["/bin/zsh"; "-c"]; ["/bin/zsh"; "-lc"]; ["Rscript"]; ["bash"]; ["bash"; "-c"]; ["bash"; "-lc"];
   ["bun"]; ["bun"; "-e"]; ["bun"; "run"]; ["cmd"]; ["cmd"; "/c"]; ["cmd"; "/k"]; ["cmd.exe"]; ["cmd.exe"; "/c"];
   ["cmd.exe"; "/k"]; ["dash"]; ["dash"; "-c"]; ["deno"]; ["deno"; "eval"]; ["env"]; ["fish"]; ["fish"; "-c"]; ["git"];
   ["julia"]; ["julia"; "-e"]; ["ksh"]; ["ksh"; "-c"]; ["lua"]; ["lua"; "-e"]; ["node"]; ["node"; "-e"]; ["nodejs"];
   ["nodejs"; "-e"]; ["npm"; "run"]; ["osascript"]; ["perl"]; ["perl"; "-e"]; ["php"]; ["php"; "-r"]; ["pnpm"; "run"];
   ["powershell"]; ["powershell"; "-Command"]; ["powershell"; "-EncodedCommand"]; ["powershell"; "-File"];
   ["powershell"; "-c"]; ["powershell.exe"]; ["powershell.exe"; "-Command"]; ["powershell.exe"; "-EncodedCommand"];
   ["powershell.exe"; "-File"]; ["powershell.exe"; "-c"]; ["pwsh"]; ["pwsh"; "-Command"]; ["pwsh"; "-EncodedCommand"];
   ["pwsh"; "-File"]; ["pwsh"; "-c"]; ["pwsh"; "-e"]; ["pwsh"; "-ec"]; ["pwsh"; "-f"]; ["py"]; ["py"; "-3"]; ["pypy"];
   ["pypy3"]; ["python"]; ["python"; "-"]; ["python"; "-c"]; ["python3"]; ["python3"; "-"]; ["python3"; "-c"]; ["pythonw"];
   ["pyw"]; ["rm"]; ["ruby"]; ["ruby"; "-e"]; ["sh"]; ["sh"; "-c"]; ["sh"; "-lc"]; ["sudo"]; ["yarn"; "run"]; ["zsh"];
   ["zsh"; "-c"]; ["zsh"; "-lc"]]%string.

Definition prompt_is_rejected_by_policy (approval_policy : AskForApproval) (prompt_is_rule : bool) : option str :=
  match approval_policy with
  | Never => Some PROMPT_CONFLICT_REASON
  | OnRequest | UnlessTrusted => None
  | Granular c =>
      if prompt_is_rule then (if negb (rules_approval c) then Some REJECT_RULES_APPROVAL_REASON else None)
      else if negb (sandbox_approval c) then Some REJECT_SANDBOX_APPROVAL_REASON else None
  end.

(** ** Shells and scripts ([shell_detect.rs], [bash.rs], [powershell.rs]) *)

Inductive ShellType : Type := Zsh | Bash | PowerShell | Sh | Cmd.

Section Scripts.
Context `{!Shells}.

(** The stem of a path is shorter than the path, unless they are the same. *)
Fixpoint detect_shell_loop (fuel : nat) (shell_path : str) : option ShellType :=
  match fuel with
  | 0 => None
  | S fuel =>
      if str_eqb shell_path (lit "zsh") then Some Zsh
      else if str_eqb shell_path (lit "sh") then Some Sh
      else if str_eqb shell_path (lit "cmd") then Some Cmd
      else if str_eqb shell_path (lit "bash") then Some Bash
      else if str_eqb shell_path (lit "pwsh") then Some PowerShell
      else if str_eqb shell_path (lit "powershell") then Some PowerShell
      else match file_stem shell_path with
           | Some shell_name => if same_path shell_name shell_path then None else detect_shell_loop fuel shell_name
           | None => None
           end
  end.
Definition detect_shell_type (shell_path : str) : option ShellType := detect_shell_loop (S (length shell_path)) shell_path.

Definition extract_bash_command (command : list str) : option (str * str) :=
  match command with
  | [shell; flag; script] =>
      if negb (str_eqb flag (lit "-lc") || str_eqb flag (lit "-c")) then None
      else match detect_shell_type shell with
           | Some Zsh | Some Bash | Some Sh => Some (shell, script)
           | _ => None
           end
  | _ => None
  end.
Definition parse_shell_lc_plain_commands (command : list str) : option (list (list str)) :=
  match extract_bash_command command with
  | Some (_, script) => parse_shell_script_into_commands script
  | None => None
  end.

Definition POWERSHELL_FLAGS : list str := words ["-nologo"; "-noprofile"; "-command"; "-c"]%string.
(** The loop over the flags: [arguments] is the rest of the command. *)
Fixpoint find_script (arguments : list str) : option str :=
  match arguments with
  | flag :: ((script :: _) as rest) =>
      let flag := to_ascii_lowercase flag in
      if negb (existsb (str_eqb flag) POWERSHELL_FLAGS) then None
      else if str_eqb flag (lit "-command") || str_eqb flag (lit "-c") then Some script
      else find_script rest
  | _ => None
  end.
Definition extract_powershell_command (command : list str) : option (str * str) :=
  if (length command <? 3)%nat then None
  else match command with
       | [] => None
       | shell :: arguments =>
           match detect_shell_type shell with
           | Some PowerShell => pair shell <$> find_script arguments
           | _ => None
           end
       end.
Definition parse_powershell_command_into_plain_commands (command : list str) : option (list (list str)) :=
  match extract_powershell_command command with
  | Some (_, script) => try_parse_powershell_commands script
  | None => None
  end.

(** [ExecPolicyCommands]. *)
Definition ExecPolicyCommands : Type := list (list str) * ExecPolicyCommandOrigin.
Definition non_empty_commands (o : option (list (list str))) : option (list (list str)) :=
  match o with Some (c :: l) => Some (c :: l) | _ => None end.
Definition commands_for_exec_policy_for_platform (command : list str) (platform : DangerousCommandPlatform) : ExecPolicyCommands :=
  match non_empty_commands (parse_shell_lc_plain_commands command) with
  | Some commands => (commands, Generic)
  | None =>
      match platform, non_empty_commands (parse_powershell_command_into_plain_commands command) with
      | Windows, Some commands => (commands, PowerShellOrigin)
      | _, _ => ([command], Generic)
      end
  end.

(** ** Dangerous commands *)

Definition dangerous_powershell_words_match (command : list str) (platform : DangerousCommandPlatform) : option DangerousCommandMatch :=
  match platform with
  | Windows => if is_dangerous_powershell_words command then Some OtherMatch else None
  | Posix => None
  end.
Definition dangerous_command_match_for_origin (command : list str) (origin : ExecPolicyCommandOrigin)
    (platform : DangerousCommandPlatform) : option DangerousCommandMatch :=
  match origin with
  | Generic => dangerous_command_match_for_platform literal_commands is_dangerous_command_windows platform command
  | PowerShellOrigin => dangerous_powershell_words_match command platform
  end.
Definition dangerous_command_rejection_reason (m : DangerousCommandMatch) : str :=
  match m with
  | ForcedRm => lit "rm -f style commands are not permitted. Use a safer approach"
  | OtherMatch => lit "blocked by policy"
  end.
Definition derive_rejected_prompt_reason (fallback_reason : str) (m : option DangerousCommandMatch) : str :=
  match m with
  | Some ForcedRm => dangerous_command_rejection_reason ForcedRm
  | Some OtherMatch | None => fallback_reason
  end.
Definition render_shlex_command (args : list str) : str := default (join (lit " ") args) (shlex_try_join args).
End Scripts.

(** ** Matches *)

(** [max_by_key] on a length: the last of the longest. *)
Definition longest {A} (l : list (nat * A)) : option (nat * A) :=
  foldl (λ best x, match best with Some b => if (fst x <? fst b)%nat then Some b else Some x | None => Some x end) None l.

Section Matches.
Context {path : Type}.
Implicit Types (m : RuleMatch path) (ms : list (RuleMatch path)).

Definition is_policy_match m : bool := match m with PrefixRuleMatch _ _ _ _ => true | HeuristicsRuleMatch _ _ => false end.
Definition policy_match_is (d : Decision) m : bool := is_policy_match m && bool_decide (match_decision m = d).
Definition heuristic_match (d : Decision) m : option (list str) :=
  match m with HeuristicsRuleMatch command d' => if bool_decide (d' = d) then Some command else None | _ => None end.

Definition try_derive_execpolicy_amendment_for_prompt_rules ms : option (list str) :=
  if existsb (policy_match_is Prompt) ms then None else find_map (heuristic_match Prompt) ms.
Definition try_derive_execpolicy_amendment_for_allow_rules ms : option (list str) :=
  if existsb is_policy_match ms then None else find_map (heuristic_match Allow) ms.

(** The prefix and the justification of the matches of rules with a decision. *)
Definition rule_matches_with (d : Decision) ms : list (nat * (list str * option str)) :=
  omap (λ m, match m with
             | PrefixRuleMatch matched_prefix d' _ j =>
                 if bool_decide (d' = d) then Some (length matched_prefix, (matched_prefix, j)) else None
             | HeuristicsRuleMatch _ _ => None
             end) ms.

Context `{!Shells}.
Definition dangerous_command_match_for_heuristics ms (d : Decision) (origin : ExecPolicyCommandOrigin)
    (platform : DangerousCommandPlatform) : option DangerousCommandMatch :=
  find_map (λ m, match heuristic_match d m with
                 | Some command => dangerous_command_match_for_origin command origin platform
                 | None => None
                 end) ms.
Definition derive_prompt_reason (command_args : list str) ms : option str :=
  let command := lit "`" ++ render_shlex_command command_args ++ lit "`" in
  match longest (rule_matches_with Prompt ms) with
  | Some (_, (_, Some justification)) => Some (command ++ lit " requires approval: " ++ justification)
  | Some (_, (_, None)) => Some (command ++ lit " requires approval by policy")
  | None => None
  end.
Definition derive_forbidden_reason (command_args : list str) ms (dangerous : option DangerousCommandMatch) : str :=
  let command := lit "`" ++ render_shlex_command command_args ++ lit "` rejected: " in
  match longest (rule_matches_with Forbidden ms) with
  | Some (_, (_, Some justification)) => command ++ justification
  | Some (_, (matched_prefix, None)) =>
      command ++ lit "policy forbids commands starting with `" ++ render_shlex_command matched_prefix ++ lit "`"
  | None =>
      match dangerous with
      | Some d => command ++ dangerous_command_rejection_reason d
      | None => command ++ lit "blocked by policy"
      end
  end.
End Matches.

Section Approval.
Context {U : Type} `{!UrlCrate U, !Codecs, !Host U} {path : Type} `{!HostPaths path} `{!Shells}.
Implicit Types (pol : Policy path) (profile : PermissionProfile U).

(** ** The heuristic for commands without a rule *)

Record UnmatchedCommandContext : Type := mkUnmatched {
  um_approval_policy : AskForApproval;
  um_permission_profile : PermissionProfile U;
  um_windows_sandbox_level : WindowsSandboxLevel;
  um_sandbox_permissions : SandboxPermissions;
  um_command_origin : ExecPolicyCommandOrigin;
}.
Definition profile_has_managed_filesystem_restrictions profile : bool :=
  let p := file_system_sandbox_policy profile in
  match profile with Managed _ _ => true | _ => false end && is_restricted p && negb (has_full_disk_write_access p).
Definition render_decision_for_unmatched_command_for_platform (command : list str) (c : UnmatchedCommandContext)
    (platform : DangerousCommandPlatform) : Decision :=
  let dangerous := dangerous_command_match_for_origin command (um_command_origin c) platform in
  let unprotected := cfg_windows && bool_decide (um_windows_sandbox_level c = LevelDisabled) &&
                     profile_has_managed_filesystem_restrictions (um_permission_profile c) in
  let by_sandbox :=
    match kind (file_system_sandbox_policy (um_permission_profile c)) with
    | Unrestricted | ExternalSandboxKind => Allow
    | Restricted => if requests_sandbox_override (um_sandbox_permissions c) then Prompt else Allow
    end in
  if bool_decide (is_Some dangerous) || unprotected then
    match um_approval_policy c with Never => Forbidden | _ => Prompt end
  else
    match um_approval_policy c with
    | Never => Allow
    | UnlessTrusted => Prompt
    | OnRequest | Granular _ => by_sandbox
    end.

(** ** The policy in force ([model_policy.rs]) *)

Definition is_allow_prefix (r : PrefixRule) : bool := bool_decide (rule_decision r = Allow).
Definition without_allow_prefixes (m : rule_map) : rule_map :=
  omap (λ rules, match List.filter (λ r, negb (is_allow_prefix r)) rules with [] => None | l => Some l end) m.
Definition current_for_prefix_rules pol (allow_prefix_rules : AllowPrefixRules) : Policy path :=
  match allow_prefix_rules with
  | Honor => pol
  | IgnoreForCyberModel =>
      ExecPolicy.mkPolicy (without_allow_prefixes (rules_by_program pol)) (network_rules pol) (host_executables_by_name pol)
  end.
Definition current_for_environment pol (environment_policy : option (Policy path)) (allow_prefix_rules : AllowPrefixRules) : Policy path :=
  let pol := current_for_prefix_rules pol allow_prefix_rules in
  match environment_policy with Some overlay => merge_overlay pol overlay | None => pol end.

(** ** Proposed amendments *)

Definition is_banned_suggestion (prefix_rule : list str) : bool :=
  existsb (λ banned, bool_decide (prefix_rule = banned)) BANNED_PREFIX_SUGGESTIONS.
Definition prefix_rule_would_approve_all_commands pol (prefix_rule : list str) (commands : list (list str))
    (fallback : list str → Decision) : bool :=
  match add_prefix_rule pol prefix_rule Allow with
  | Err _ => false
  | Ok with_rule =>
      forallb (λ command, match check_with_options with_rule command fallback true with
                          | Some e => bool_decide (decision e = Allow)
                          | None => false
                          end) commands
  end.
Definition derive_requested_execpolicy_amendment_from_prefix_rule (prefix_rule : option (list str))
    (matched_rules : list (RuleMatch path)) pol (commands : list (list str)) (fallback : list str → Decision) : option (list str) :=
  match prefix_rule with
  | None | Some [] => None
  | Some prefix_rule =>
      if is_banned_suggestion prefix_rule then None
      else if existsb is_policy_match matched_rules then None
      else if prefix_rule_would_approve_all_commands pol prefix_rule commands fallback then Some prefix_rule else None
  end.

(** ** The requirement *)

Record ExecApprovalRequest : Type := mkApprovalRequest {
  command : list str;
  approval_policy : AskForApproval;
  permission_profile : PermissionProfile U;
  environment_policy : option (Policy path);
  windows_sandbox_level : WindowsSandboxLevel;
  sandbox_permissions : SandboxPermissions;
  prefix_rule : option (list str);
  allow_prefix_rules : AllowPrefixRules;
}.
Definition with_command (req : ExecApprovalRequest) (c : list str) : ExecApprovalRequest :=
  mkApprovalRequest c (approval_policy req) (permission_profile req) (environment_policy req) (windows_sandbox_level req)
    (sandbox_permissions req) (prefix_rule req) (allow_prefix_rules req).

(** The fallback of a request. *)
Definition exec_policy_fallback (req : ExecApprovalRequest) (origin : ExecPolicyCommandOrigin)
    (platform : DangerousCommandPlatform) (cmd : list str) : Decision :=
  render_decision_for_unmatched_command_for_platform cmd
    (mkUnmatched (approval_policy req) (permission_profile req) (windows_sandbox_level req) (sandbox_permissions req) origin) platform.

(** [None] is the panic of an evaluation without commands. *)
Definition create_exec_approval_requirement_for_parsed_commands pol (req : ExecApprovalRequest) (parsed : ExecPolicyCommands)
    (platform : DangerousCommandPlatform) : option ExecApprovalRequirement :=
  let '(commands, origin) := parsed in
  let exec_policy := current_for_environment pol (environment_policy req) (allow_prefix_rules req) in
  let auto_amendment_allowed := match allow_prefix_rules req with Honor => true | IgnoreForCyberModel => false end in
  let fallback := exec_policy_fallback req origin platform in
  match check_multiple_with_options exec_policy commands fallback true with
  | None => None
  | Some evaluation =>
      let ms := matched_rules evaluation in
      let requested_amendment :=
        if auto_amendment_allowed
        then derive_requested_execpolicy_amendment_from_prefix_rule (prefix_rule req) ms exec_policy commands fallback else None in
      Some (match decision evaluation with
            | Forbidden =>
                ForbiddenCall (derive_forbidden_reason (command req) ms
                                 (dangerous_command_match_for_heuristics ms Forbidden origin platform))
            | Prompt =>
                let prompt_is_rule := existsb (policy_match_is Prompt) ms in
                match prompt_is_rejected_by_policy (approval_policy req) prompt_is_rule with
                | Some reason =>
                    if prompt_is_rule then ForbiddenCall reason
                    else ForbiddenCall (derive_rejected_prompt_reason reason
                                          (dangerous_command_match_for_heuristics ms Prompt origin platform))
                | None =>
                    NeedsApproval (derive_prompt_reason (command req) ms)
                      (match requested_amendment with
                       | Some a => Some a
                       | None => if auto_amendment_allowed then try_derive_execpolicy_amendment_for_prompt_rules ms else None
                       end)
                end
            | Allow =>
                SkipApproval
                  (forallb (λ cmd, existsb (policy_match_is Allow) (matches_for_command_with_options exec_policy cmd None true)) commands)
                  (if auto_amendment_allowed then try_derive_execpolicy_amendment_for_allow_rules ms else None)
            end)
  end.
Definition create_exec_approval_requirement_for_command_platform pol (req : ExecApprovalRequest)
    (platform : DangerousCommandPlatform) : option ExecApprovalRequirement :=
  create_exec_approval_requirement_for_parsed_commands pol req
    (commands_for_exec_policy_for_platform (command req) platform) platform.

(** *** Shells the user configured ([executable_identity.rs]) *)

Definition shell_approval_command (command : list str) (configured_shell_path : str) (shell_mode : UnifiedExecShellMode) : list str :=
  match command with
  | [] => command
  | executable :: _ =>
      let is_system_shell :=
        if cfg_windows then in_system_root executable
        else match path_parent executable with
             | Some parent => same_path parent (lit "/bin") || same_path parent (lit "/usr/bin")
             | None => false
             end in
      let is_configured_shell :=
        if cfg_windows then str_eqb (to_ascii_lowercase executable) (to_ascii_lowercase configured_shell_path)
        else same_path executable configured_shell_path in
      if is_configured_shell || is_system_shell || match shell_mode with ZshFork => true | Direct => false end
      then command else [executable]
  end.
Definition create_exec_approval_requirement_for_shell pol (req : ExecApprovalRequest) (configured_shell_path : str)
    (shell_mode : UnifiedExecShellMode) (platform : DangerousCommandPlatform) : option ExecApprovalRequirement :=
  let executable := shell_approval_command (command req) configured_shell_path shell_mode in
  if (length executable =? length (command req))%nat
  then create_exec_approval_requirement_for_command_platform pol req platform
  else
    let '(commands, origin) :=
      match platform, extract_powershell_command (command req) with
      | Windows, Some (_, script) => (default [command req] (try_parse_powershell_commands script), PowerShellOrigin)
      | _, _ => commands_for_exec_policy_for_platform (command req) platform
      end in
    create_exec_approval_requirement_for_parsed_commands pol (with_command req executable) (executable :: commands, origin) platform.

(** ** Updates

    An update holds the semaphore of the manager from start to end, so that
    updates follow one another; readers see the policy before or after. *)

Inductive ExecPolicyUpdateError : Type :=
  | AppendRule (path : str) (source : AmendError)
  | JoinBlockingTask (source : str)
  | AddRule (source : Error).
Record ManagerState : Type := mkManager { current : Policy path; policy_file : option bytes }.

Context (json_string : str → result str str) (debug_strings : list str → str).
(** [default_policy_path]. *)
Context (default_policy_path : str).

(** Whether the rules of the policy already allow the amendment. *)
Definition already_allowed pol (amendment : list str) : bool :=
  match check_multiple_with_options pol [amendment] (λ _, Forbidden) true with
  | Some e => bool_decide (decision e = Allow) && existsb (policy_match_is Allow) (matched_rules e)
  | None => false
  end.
Definition append_amendment_and_update (m : ManagerState) (io : AppendIo) (join_error : option str) (amendment : list str) :
    ManagerState * result ExecPolicyUpdateError unit :=
  let '(file, appended) := blocking_append_allow_prefix_rule json_string io default_policy_path (policy_file m) amendment in
  let m := mkManager (current m) file in
  match join_error, appended with
  | Some source, _ => (m, Err (JoinBlockingTask source))
  | None, Err source => (m, Err (AppendRule default_policy_path source))
  | None, Ok _ =>
      if already_allowed (current m) amendment then (m, Ok tt)
      else match add_prefix_rule (current m) amendment Allow with
           | Err source => (m, Err (AddRule source))
           | Ok updated_policy => (mkManager updated_policy file, Ok tt)
           end
  end.
Definition append_network_rule_and_update (m : ManagerState) (io : AppendIo) (join_error : option str)
    (host : str) (protocol : NetworkRuleProtocol) (d : Decision) (j : option str) : ManagerState * result ExecPolicyUpdateError unit :=
  let '(file, appended) := blocking_append_network_rule json_string debug_strings io default_policy_path (policy_file m) host protocol d j in
  let m := mkManager (current m) file in
  match join_error, appended with
  | Some source, _ => (m, Err (JoinBlockingTask source))
  | None, Err source => (m, Err (AppendRule default_policy_path source))
  | None, Ok _ =>
      match add_network_rule (current m) host protocol d j with
      | Err source => (m, Err (AddRule source))
      | Ok updated_policy => (mkManager updated_policy file, Ok tt)
      end
  end.
End Approval.
