(* ===== verification/ExecApprovalProofs.v ===== *)
(** * What the approval of commands promises

    The requirement of a command is that of its strictest part; a dangerous
    command is never run unasked unless a rule allows it; outside the sandbox run
    only commands that rules allow; a model that does not honour allow rules is
    never judged more leniently; a rule the user accepts makes the question
    unnecessary. *)
From stdpp Require Import numbers strings gmap.
From S2P Require Import Prelude Utf8 PathUri PathUriProofs Permissions PermissionsProofs Profile RustStr ExecRule ExecPolicy ExecPolicyProofs ExecAmend DangerousCommand ExecApproval.

Section Judged.
Context {path : Type} `{HP : !HostPaths path}.
Implicit Types (pol : Policy path) (cmd : list str) (f : list str → Decision).

(** The decision on one command. *)
Definition judged pol f cmd : Decision :=
  match check_with_options pol cmd f true with Some e => decision e | None => Forbidden end.

Lemma judged_strictest pol f cmd : strictest (matches_for_command_with_options pol cmd (Some f) true) (judged pol f cmd).
Proof.
  unfold judged, check_with_options.
  destruct (from_matches_Some _ (matches_with_fallback pol cmd f true)) as (d & -> & Hs). done.
Qed.

Lemma judged_unmatched pol f cmd : matched_rules_of pol cmd true = [] → judged pol f cmd = f cmd.
Proof.
  intros H'. pose proof (judged_strictest pol f cmd) as [(m & Hm & <-) _]. unfold matches_for_command_with_options in Hm.
  rewrite H' in Hm. by apply list_elem_of_singleton in Hm as ->.
Qed.
Lemma judged_matched pol f cmd : matched_rules_of pol cmd true ≠ [] → strictest (matched_rules_of pol cmd true) (judged pol f cmd).
Proof.
  pose proof (judged_strictest pol f cmd) as H'. unfold matches_for_command_with_options in H'.
  by destruct (matched_rules_of pol cmd true).
Qed.

Lemma check_multiple_judged pol f commands : commands ≠ [] →
  ∃ e, check_multiple_with_options pol commands f true = Some e ∧
    matched_rules e = (commands ≫= λ cmd, matches_for_command_with_options pol cmd (Some f) true) ∧
    strictest (matched_rules e) (decision e) ∧
    (∀ cmd, cmd ∈ commands → decision_le (judged pol f cmd) (decision e)) ∧
    ∃ cmd, cmd ∈ commands ∧ judged pol f cmd = decision e.
Proof.
  intros Hne. pose proof (check_multiple_strictest pol commands f true) as Hc.
  destruct (check_multiple_with_options pol commands f true) as [e|] eqn:He; [|done]. exists e. split; [done|].
  unfold check_multiple_with_options in He.
  set (ms := commands ≫= _) in *. assert (ms ≠ []) as Hms by (intros Hn; by rewrite Hn in He).
  destruct (from_matches_Some ms Hms) as (d & Hd & Hs). rewrite Hd in He. injection He as <-. cbn in *. split_and!; [done..| |].
  - intros cmd Hin. destruct Hc as [Hc _]. destruct (Hc cmd Hin) as (e1 & He1 & Hle). unfold judged. by rewrite He1.
  - destruct Hc as [_ (cmd & e1 & Hin & He1 & Heq)]. exists cmd. split; [done|]. unfold judged. by rewrite He1.
Qed.

Lemma decision_cases (d d' : Decision) : decision_le d d' → d' = Allow → d = Allow.
Proof. intros H' ->. destruct d; unfold decision_le in H'; cbn in *; (done || lia). Qed.

(** The matches of rules come from rules. *)
Lemma matched_rules_policy pol cmd m : m ∈ matched_rules_of pol cmd true → is_policy_match m = true.
Proof.
  assert (∀ (rules : list PrefixRule) c, m ∈ omap (λ r, rule_matches r c) rules → is_policy_match m = true) as Hrules.
  { intros rules c (r & _ & Hr)%list_elem_of_omap. unfold rule_matches in Hr. apply fmap_Some in Hr as (? & _ & ->). done. }
  assert (m ∈ match_host_executable_rules pol cmd → is_policy_match m = true) as Hhost.
  { unfold match_host_executable_rules. destruct cmd as [|c args]; [by intros ?%elem_of_nil|].
    destruct (absolute_path c); [|by intros ?%elem_of_nil]. destruct (executable_path_lookup_key _); [|by intros ?%elem_of_nil].
    destruct (rules_by_program pol !! _); [|by intros ?%elem_of_nil]. cbv zeta.
    destruct (match host_executables_by_name pol !! _ with Some _ => _ | None => _ end); [by intros ?%elem_of_nil|].
    intros (m0 & -> & Hm0)%list_elem_of_fmap. apply list_elem_of_omap in Hm0 as (r & _ & Hr).
    unfold rule_matches in Hr. apply fmap_Some in Hr as (? & _ & ->). done. }
  unfold matched_rules_of. destruct (match_exact_rules pol cmd) as [[|m0 ms]|] eqn:E; [auto| |auto].
  intros Hm. destruct cmd as [|c cmd]; [done|]. injection E as E. apply (Hrules (rules_for (rules_by_program pol) c) (c :: cmd)).
  by rewrite E.
Qed.

Lemma policy_match_is_true (d : Decision) (m : RuleMatch path) :
  policy_match_is d m = true ↔ is_policy_match m = true ∧ match_decision m = d.
Proof. unfold policy_match_is. by rewrite andb_true_iff, bool_decide_eq_true. Qed.

(** A command some rule allows. *)
Definition rule_allows pol cmd : Prop := ∃ m, m ∈ matched_rules_of pol cmd true ∧ match_decision m = Allow.
Lemma existsb_rule_allows pol cmd :
  existsb (policy_match_is Allow) (matches_for_command_with_options pol cmd None true) = true ↔ rule_allows pol cmd.
Proof.
  replace (matches_for_command_with_options pol cmd None true) with (matched_rules_of pol cmd true)
    by (unfold matches_for_command_with_options; by destruct (matched_rules_of pol cmd true)).
  rewrite existsb_exists. split.
  - intros (m & Hm%list_elem_of_In & [_ Hd]%policy_match_is_true). by exists m.
  - intros (m & Hm & Hd). exists m. split; [by apply list_elem_of_In|]. apply policy_match_is_true. split; [|done].
    by eapply matched_rules_policy.
Qed.
End Judged.

(** ** Rules added and removed *)

Section Routes.
Context {path : Type} `{HP : !HostPaths path}.
Implicit Types (pol P Q : Policy path) (cmd : list str) (f : list str → Decision).

(** The name by which a program path is looked up. *)
Definition host_route pol cmd : option (path * str * list str) :=
  match cmd with
  | [] => None
  | first :: args =>
      match absolute_path first with
      | None => None
      | Some program =>
          match executable_path_lookup_key program with
          | None => None
          | Some basename =>
              if match host_executables_by_name pol !! basename with
                 | Some paths => negb (existsb (λ p, bool_decide (p = program)) paths)
                 | None => false
                 end
              then None else Some (program, basename, args)
          end
      end
  end.
Definition host_matches pol cmd : list (RuleMatch path) :=
  match host_route pol cmd with
  | Some (program, basename, args) =>
      (λ m, with_resolved_program m program) <$> omap (λ r, rule_matches r (basename :: args)) (rules_for (rules_by_program pol) basename)
  | None => []
  end.
Lemma matched_rules_routes pol cmd :
  matched_rules_of pol cmd true = match exact_matches pol cmd with [] => host_matches pol cmd | ms => ms end.
Proof.
  assert (match_host_executable_rules pol cmd = host_matches pol cmd) as Hh.
  { unfold match_host_executable_rules, host_matches, host_route, rules_for. destruct cmd as [|c args]; [done|].
    destruct (absolute_path c); [|done]. destruct (executable_path_lookup_key _); [|done].
    cbv zeta. destruct (match host_executables_by_name pol !! _ with Some _ => _ | None => _ end); by destruct (rules_by_program pol !! _). }
  unfold matched_rules_of, match_exact_rules, exact_matches. rewrite Hh. by destruct cmd as [|c args]; [|destruct (omap _ _)].
Qed.

(** [Q] has the rules of [P] except for some that allow. *)
Definition fewer_allowances P Q : Prop :=
  host_executables_by_name Q = host_executables_by_name P ∧
  ∀ k r, (r ∈ rules_for (rules_by_program Q) k → r ∈ rules_for (rules_by_program P) k) ∧
         (r ∈ rules_for (rules_by_program P) k → rule_decision r ≠ Allow → r ∈ rules_for (rules_by_program Q) k).

Lemma rule_matches_decision (r : PrefixRule) cmd (m : RuleMatch path) : rule_matches r cmd = Some m → match_decision m = rule_decision r.
Proof. unfold rule_matches. by intros (? & _ & ->)%fmap_Some. Qed.
Lemma resolved_decision (m : RuleMatch path) program : match_decision (with_resolved_program m program) = match_decision m.
Proof. by destruct m. Qed.

Lemma fewer_exact P Q cmd m : fewer_allowances P Q →
  (m ∈ exact_matches Q cmd → m ∈ exact_matches P cmd) ∧
  (m ∈ exact_matches P cmd → match_decision m ≠ Allow → m ∈ exact_matches Q cmd).
Proof.
  intros [_ Hr]. destruct cmd as [|c args]; [done|]. unfold exact_matches. rewrite !list_elem_of_omap. split.
  - intros (r & Hin & Hm). exists r. split; [by apply Hr|done].
  - intros (r & Hin & Hm) Hd. rewrite (rule_matches_decision _ _ _ Hm) in Hd. exists r. split; [by apply Hr|done].
Qed.
Lemma fewer_host P Q cmd m : fewer_allowances P Q →
  (m ∈ host_matches Q cmd → m ∈ host_matches P cmd) ∧
  (m ∈ host_matches P cmd → match_decision m ≠ Allow → m ∈ host_matches Q cmd).
Proof.
  intros [Hh Hr]. unfold host_matches. assert (host_route Q cmd = host_route P cmd) as -> by (unfold host_route; by rewrite Hh).
  destruct (host_route P cmd) as [[[program basename] args]|]; [|done].
  rewrite !list_elem_of_fmap. setoid_rewrite list_elem_of_omap. split.
  - intros (m0 & -> & r & Hin & Hm). exists m0. split; [done|]. exists r. split; [by apply Hr|done].
  - intros (m0 & -> & r & Hin & Hm) Hd. rewrite resolved_decision, (rule_matches_decision _ _ _ Hm) in Hd.
    exists m0. split; [done|]. exists r. split; [by apply Hr|done].
Qed.

Lemma fewer_judged P Q f cmd : fewer_allowances P Q → decision_le (judged P f cmd) (judged Q f cmd).
Proof.
  intros Hpq. destruct (decide (judged P f cmd = Allow)) as [->|Hna]; [unfold decision_le; cbn; lia|].
  pose proof (matched_rules_routes P cmd) as HP'. pose proof (matched_rules_routes Q cmd) as HQ.
  destruct (decide (matched_rules_of P cmd true = [])) as [Hnil|Hne].
  - rewrite !judged_unmatched; [done| |done]. rewrite HQ. rewrite HP' in Hnil.
    destruct (exact_matches P cmd) eqn:EP; [|done]. destruct (exact_matches Q cmd) as [|m ms] eqn:EQ.
    + apply elem_of_nil_inv. intros m Hm%(fewer_host P Q cmd m Hpq). rewrite Hnil in Hm. by apply elem_of_nil in Hm.
    + assert (m ∈ exact_matches P cmd) as Hm by (apply (fewer_exact P Q cmd m Hpq); rewrite EQ; by left).
      rewrite EP in Hm. by apply elem_of_nil in Hm.
  - destruct (judged_matched P f cmd Hne) as [(m & Hm & Hd) _]. rewrite <- Hd in Hna |- *.
    assert (m ∈ matched_rules_of Q cmd true) as HmQ.
    { rewrite HQ. rewrite HP' in Hm. destruct (exact_matches P cmd) as [|m1 ms1] eqn:EP.
      - destruct (exact_matches Q cmd) as [|m2 ms2] eqn:EQ; [by apply (fewer_host P Q cmd m Hpq)|].
        assert (m2 ∈ exact_matches P cmd) as Hm2 by (apply (fewer_exact P Q cmd m2 Hpq); rewrite EQ; by left).
        rewrite EP in Hm2. by apply elem_of_nil in Hm2.
      - assert (m ∈ exact_matches Q cmd) as Hin by (apply (fewer_exact P Q cmd m Hpq); [by rewrite EP|done]).
        destruct (exact_matches Q cmd); [by apply elem_of_nil in Hin|done]. }
    assert (matched_rules_of Q cmd true ≠ []) as HneQ by (intros Hn; rewrite Hn in HmQ; by apply elem_of_nil in HmQ).
    destruct (judged_matched Q f cmd HneQ) as [_ Hmax]. by apply Hmax.
Qed.

Lemma rules_for_without_allow (m : rule_map) k :
  rules_for (without_allow_prefixes m) k = List.filter (λ r, negb (is_allow_prefix r)) (rules_for m k).
Proof.
  unfold rules_for, without_allow_prefixes. rewrite lookup_omap. destruct (m !! k) as [rules|]; [|done]. cbn.
  by destruct (List.filter _ rules).
Qed.
Lemma fewer_ignore pol environment :
  fewer_allowances (current_for_environment pol environment Honor) (current_for_environment pol environment IgnoreForCyberModel).
Proof.
  assert (∀ k r, r ∈ rules_for (rules_by_program (current_for_prefix_rules pol IgnoreForCyberModel)) k ↔
            r ∈ rules_for (rules_by_program pol) k ∧ rule_decision r ≠ Allow) as Hstrip.
  { intros k r. cbn. rewrite rules_for_without_allow, list_elem_of_In, List.filter_In, <- list_elem_of_In.
    unfold is_allow_prefix. by rewrite negb_true_iff, bool_decide_eq_false. }
  unfold current_for_environment. destruct environment as [overlay|].
  - split; [done|]. intros k r. rewrite !rules_for_merge, !elem_of_app, Hstrip. cbn [current_for_prefix_rules]. tauto.
  - split; [done|]. intros k r. rewrite Hstrip. cbn [current_for_prefix_rules]. tauto.
Qed.

(** *** A rule that was accepted *)

Lemma matches_prefix_app p cmd args matched : matches_prefix p cmd = Some matched → matches_prefix p (cmd ++ args) = Some matched.
Proof.
  rewrite !matches_prefix_spec. intros (tokens & rest & -> & -> & Hall). exists tokens, (rest ++ args).
  split_and!; [by rewrite app_comm_cons, <- app_assoc|done..].
Qed.
Lemma rule_matches_app (r : PrefixRule) cmd args (m : RuleMatch path) : rule_matches r cmd = Some m → rule_matches r (cmd ++ args) = Some m.
Proof. unfold rule_matches. intros (x & Hx & ->)%fmap_Some. by rewrite (matches_prefix_app _ _ _ _ Hx). Qed.

(** A command that goes on where another stops is matched by its rules. *)
Lemma matched_extends pol cmd args : matched_rules_of pol cmd true ≠ [] → matched_rules_of pol (cmd ++ args) true ≠ [].
Proof.
  rewrite !matched_rules_routes. destruct cmd as [|c rest]; [done|]. rewrite <- app_comm_cons. intros Hne Hnil. apply Hne.
  destruct (exact_matches pol (c :: rest ++ args)) as [|m ms] eqn:E; [|done].
  assert (exact_matches pol (c :: rest) = []) as ->.
  { apply elem_of_nil_inv. intros m. unfold exact_matches in *. intros (r & Hr & Hm)%list_elem_of_omap.
    apply (rule_matches_app r (c :: rest) args) in Hm. apply (not_elem_of_nil m). rewrite <- E. apply list_elem_of_omap. by exists r. }
  apply elem_of_nil_inv. intros m. unfold host_matches, host_route in *. destruct (absolute_path c); [|by apply not_elem_of_nil].
  destruct (executable_path_lookup_key _); [|by apply not_elem_of_nil].
  destruct (match host_executables_by_name pol !! _ with Some _ => _ | None => _ end); [by apply not_elem_of_nil|].
  intros (m0 & -> & Hm)%list_elem_of_fmap. apply list_elem_of_omap in Hm as (r & Hr & Hm).
  apply (rule_matches_app r (_ :: rest) args) in Hm. apply fmap_nil_inv in Hnil. apply (not_elem_of_nil m0). rewrite <- Hnil.
  apply list_elem_of_omap. by exists r.
Qed.

(** Adding a rule that allows takes no allowance away, and allows the commands
    that start with it unless another rule is stricter. *)
Lemma add_allow_judged pol a pol' f cmd :
  add_prefix_rule pol a Allow = Ok pol' → judged pol f cmd = Allow → judged pol' f cmd = Allow.
Proof.
  intros Ha Hj. assert (fewer_allowances pol' pol) as Hless.
  { destruct a as [|c a]; [done|]. injection Ha as <-. split; [done|]. intros k r. cbn. rewrite rules_for_insert, elem_of_app.
    split; [by left|]. intros [?|Hr] Hd; [done|]. case_decide; [|by apply elem_of_nil in Hr].
    apply list_elem_of_singleton in Hr as ->. done. }
  eapply decision_cases; [by apply (fewer_judged pol' pol)|done].
Qed.
Lemma add_allow_covers pol a pol' f args :
  add_prefix_rule pol a Allow = Ok pol' → (∀ m, m ∈ exact_matches pol (a ++ args) → match_decision m = Allow) →
  judged pol' f (a ++ args) = Allow.
Proof.
  intros Ha Hall. destruct a as [|c a]; [done|]. injection Ha as <-. cbn [app] in *.
  set (r := mkRule (mkPattern c (Single <$> a)) Allow None).
  assert (rule_matches (path := path) r (c :: a ++ args) = Some (PrefixRuleMatch (c :: a) Allow None None)) as Hm.
  { unfold rule_matches. assert (matches_prefix (pattern r) (c :: a ++ args) = Some (c :: a)) as ->; [|done].
    apply matches_prefix_spec. exists a, args. split_and!; [done..|]. cbn.
    clear. induction a as [|x a IH]; cbn; constructor; [apply str_eqb_refl|done]. }
  set (pol' := ExecPolicy.mkPolicy _ _ _).
  assert (exact_matches pol' (c :: a ++ args) = exact_matches pol (c :: a ++ args) ++ [PrefixRuleMatch (c :: a) Allow None None]) as Hex.
  { unfold exact_matches, pol'. cbn [rules_by_program]. rewrite rules_for_insert, decide_True by done. rewrite omap_app.
    cbn [omap list_omap]. fold r. by rewrite Hm. }
  assert (matched_rules_of pol' (c :: a ++ args) true = exact_matches pol' (c :: a ++ args)) as Hmr.
  { rewrite matched_rules_routes, Hex. by destruct (exact_matches pol (c :: a ++ args)). }
  destruct (judged_matched pol' f (c :: a ++ args)) as [(m & Hin & <-) _]; [rewrite Hmr, Hex; by destruct (exact_matches pol _)|].
  rewrite Hmr, Hex, elem_of_app, list_elem_of_singleton in Hin. destruct Hin as [?| ->]; auto.
Qed.
End Routes.

Section Requirement.
Context {U : Type} `{!UrlCrate U, !Codecs, !Host U} {path : Type} `{HP : !HostPaths path} `{!Shells}.
Implicit Types (pol : Policy path) (cmd : list str) (req : ExecApprovalRequest (U := U) (path := path)).

Abbreviation policy_of pol req := (current_for_environment pol (environment_policy req) (allow_prefix_rules req)).

(** What the user can be asked. *)
Definition may_ask (a : AskForApproval) (prompt_is_rule : bool) : bool :=
  match a with
  | Never => false
  | OnRequest | UnlessTrusted => true
  | Granular c => if prompt_is_rule then rules_approval c else sandbox_approval c
  end.
Lemma rejected_may_ask a b : match prompt_is_rejected_by_policy a b with Some _ => false | None => true end = may_ask a b.
Proof. destruct a as [| |c|], b; cbn; try done; by destruct (_ c). Qed.

(** Whether a rule asks for a prompt on one of the commands. *)
Definition rule_prompts pol f (commands : list (list str)) : bool :=
  existsb (policy_match_is Prompt) (commands ≫= λ cmd, matches_for_command_with_options pol cmd (Some f) true).

(** C9: the requirement of a command is that of its strictest part.  It always
    exists, and it is: a refusal when some part is forbidden, or must be asked
    about while the settings rule the question out; a question when no part is
    forbidden and some part must be asked about; and otherwise none, and then
    the command leaves the sandbox exactly when a rule allows each part. *)
Theorem requirement_of_strictest_part pol req commands origin platform (Hne : commands ≠ []) :
  let P := policy_of pol req in
  let f := exec_policy_fallback req origin platform in
  let ask := may_ask (approval_policy req) (rule_prompts P f commands) in
  ∃ r, create_exec_approval_requirement_for_parsed_commands pol req (commands, origin) platform = Some r ∧
    match r with
    | ForbiddenCall _ =>
        (∃ cmd, cmd ∈ commands ∧ judged P f cmd = Forbidden) ∨ (∃ cmd, cmd ∈ commands ∧ judged P f cmd = Prompt) ∧ ask = false
    | NeedsApproval _ _ =>
        (∀ cmd, cmd ∈ commands → judged P f cmd ≠ Forbidden) ∧ (∃ cmd, cmd ∈ commands ∧ judged P f cmd = Prompt) ∧ ask = true
    | SkipApproval bypass_sandbox _ =>
        (∀ cmd, cmd ∈ commands → judged P f cmd = Allow) ∧
        (bypass_sandbox = true ↔ ∀ cmd, cmd ∈ commands → rule_allows P cmd)
    end.
Proof.
  intros P f ask. unfold create_exec_approval_requirement_for_parsed_commands. fold P. fold f.
  destruct (check_multiple_judged P f commands Hne) as (e & -> & Hms & _ & Hle & cmd & Hin & Heq). eexists. split; [done|].
  destruct (decision e) eqn:Hd.
  - split; [intros c Hc; eapply decision_cases; [by apply Hle|done]|]. rewrite forallb_forall. split.
    + intros Hall c Hc. by apply existsb_rule_allows, Hall, list_elem_of_In.
    + intros Hall c Hc%list_elem_of_In. by apply existsb_rule_allows, Hall.
  - assert (existsb (policy_match_is Prompt) (matched_rules e) = rule_prompts P f commands) as Hpr by (by rewrite Hms).
    rewrite Hpr. subst ask. rewrite <- rejected_may_ask. destruct (prompt_is_rejected_by_policy _ _).
    + destruct (rule_prompts P f commands); right; by eauto.
    + split_and!; [|by eauto|done]. intros c Hc Hf. specialize (Hle c Hc). rewrite Hf in Hle. unfold decision_le in Hle. cbn in Hle. lia.
  - left. eauto.
Qed.
(** ** Dangerous commands *)

Lemma hidden_rm_found platform levels cmd inner :
  rtc (unwraps literal_commands platform) cmd inner → is_forced_rm platform inner →
  is_Some (dangerous_command_match_with_depth literal_commands is_dangerous_command_windows platform levels cmd).
Proof.
  intros Hu Hf. revert levels. induction Hu as [cmd|cmd mid inner Hstep _ IH]; intros levels; [by apply forced_rm_found|].
  destruct levels as [|levels]; [by eexists|]. eapply unwraps_found; [done|]. by apply IH.
Qed.

Lemma dangerous_judged pol req cmd origin platform :
  matched_rules_of (policy_of pol req) cmd true = [] → is_Some (dangerous_command_match_for_origin cmd origin platform) →
  judged (policy_of pol req) (exec_policy_fallback req origin platform) cmd =
  match approval_policy req with Never => Forbidden | _ => Prompt end.
Proof.
  intros Hm Hd. rewrite judged_unmatched by done. unfold exec_policy_fallback, render_decision_for_unmatched_command_for_platform.
  cbn [um_command_origin um_approval_policy]. by rewrite bool_decide_true.
Qed.

(** A removal by force is never run unasked.  However deep it is wrapped in
    [sudo], [env], [trap] and shell scripts, a command that hides one and that
    no rule matches is refused where nothing may be asked, and otherwise
    refused or asked about. *)
Theorem hidden_rm_is_never_unasked pol req commands platform cmd inner r
    (Hr : create_exec_approval_requirement_for_parsed_commands pol req (commands, Generic) platform = Some r)
    (Hcmd : cmd ∈ commands) (Hunmatched : matched_rules_of (policy_of pol req) cmd true = [])
    (Hwrapped : rtc (unwraps literal_commands platform) cmd inner) (Hrm : is_forced_rm platform inner) :
  match r with
  | SkipApproval _ _ => False
  | NeedsApproval _ _ => approval_policy req ≠ Never
  | ForbiddenCall _ => True
  end.
Proof.
  assert (is_Some (dangerous_command_match_for_origin cmd Generic platform)) as Hd by by eapply hidden_rm_found.
  pose proof (dangerous_judged pol req cmd Generic platform Hunmatched Hd) as Hj. revert Hr.
  unfold create_exec_approval_requirement_for_parsed_commands.
  destruct (check_multiple_judged (policy_of pol req) (exec_policy_fallback req Generic platform) commands)
    as (e & -> & _ & _ & Hle & _); [by intros ->; apply elem_of_nil in Hcmd|].
  specialize (Hle cmd Hcmd). rewrite Hj in Hle. unfold decision_le in Hle. intros [= <-].
  destruct (decision e); cbn in Hle.
  - destruct (approval_policy req); cbn in Hle; lia.
  - destruct (approval_policy req) as [| |g|] eqn:Ha; [..|cbn in Hle; lia].
    all: destruct (prompt_is_rejected_by_policy _ _); [by destruct (existsb _ _)|done].
  - done.
Qed.

(** ** Shells *)

Lemma commands_for_nonempty command platform : (commands_for_exec_policy_for_platform command platform).1 ≠ [].
Proof.
  unfold commands_for_exec_policy_for_platform, non_empty_commands.
  destruct (parse_shell_lc_plain_commands command) as [[|]|]; [|done|];
    (destruct platform; [done|]; by destruct (parse_powershell_command_into_plain_commands command) as [[|]|]).
Qed.

Lemma shell_approval_command_cases command shell mode :
  shell_approval_command command shell mode = command ∨
  ∃ exe rest, command = exe :: rest ∧ shell_approval_command command shell mode = [exe].
Proof.
  destruct command as [|exe rest]; [by left|]. unfold shell_approval_command.
  repeat case_match; (by left) || (right; by eauto).
Qed.

(** The approval of a command always exists, and a command whose program is
    not a shell the user knows runs unasked only if the program itself may run
    unasked, and outside the sandbox only if a rule allows the program: what its
    arguments seem to say grants it nothing. *)
Theorem unfamiliar_shell_must_be_allowed pol req shell mode platform :
  let exe := shell_approval_command (command req) shell mode in
  ∃ r origin, create_exec_approval_requirement_for_shell pol req shell mode platform = Some r ∧
    (exe ≠ command req →
     match r with
     | SkipApproval bypass_sandbox _ =>
         judged (policy_of pol req) (exec_policy_fallback req origin platform) exe = Allow ∧
         (bypass_sandbox = true → rule_allows (policy_of pol req) exe)
     | _ => True
     end).
Proof.
  intros exe. unfold create_exec_approval_requirement_for_shell. fold exe.
  assert (∀ req' commands origin, commands ≠ [] → is_Some (create_exec_approval_requirement_for_parsed_commands pol req' (commands, origin) platform))
    as Htotal.
  { intros req' commands origin Hne. unfold create_exec_approval_requirement_for_parsed_commands.
    destruct (check_multiple_judged (policy_of pol req') (exec_policy_fallback req' origin platform) commands Hne) as (e & -> & _).
    by eexists. }
  destruct (Nat.eqb_spec (length exe) (length (command req))) as [Hlen|Hlen].
  { unfold create_exec_approval_requirement_for_command_platform.
    pose proof (commands_for_nonempty (command req) platform) as Hne.
    destruct (commands_for_exec_policy_for_platform (command req) platform) as [commands origin].
    destruct (Htotal req commands origin Hne) as [r Hr]. exists r, origin. split; [done|]. intros Hexe. exfalso.
    destruct (shell_approval_command_cases (command req) shell mode) as [?|(e & rest & Hc & He)]; [done|]. subst exe.
    rewrite Hc in *. rewrite He in *. destruct rest; [done|cbn in Hlen; lia]. }
  destruct (match platform, extract_powershell_command (command req) with Windows, Some _ => _ | _, _ => _ end) as [commands origin].
  destruct (Htotal (with_command req exe) (exe :: commands) origin ltac:(done)) as [r Hr]. exists r, origin. split; [done|].
  intros _. revert Hr. unfold create_exec_approval_requirement_for_parsed_commands.
  change (policy_of pol (with_command req exe)) with (policy_of pol req).
  change (exec_policy_fallback (with_command req exe)) with (exec_policy_fallback req).
  destruct (check_multiple_judged (policy_of pol req) (exec_policy_fallback req origin platform) (exe :: commands) ltac:(done))
    as (e & -> & _ & _ & Hle & _). specialize (Hle exe ltac:(by left)). intros [= <-].
  destruct (decision e) eqn:Hd; [|by repeat case_match..]. split; [by eapply decision_cases|].
  intros Hall. apply existsb_rule_allows. by apply andb_true_iff in Hall as [Hall _].
Qed.
(** ** Models that do not honour allow rules *)

(** For a model that does not honour allow rules no command is judged more
    leniently than for one that does, no rule is proposed for it, and no rule of
    the user's takes its commands out of the sandbox. *)
Theorem ignoring_allow_rules_never_relaxes pol environment f cmd req commands origin platform r
    (Hignore : allow_prefix_rules req = IgnoreForCyberModel) (Hne : commands ≠ [])
    (Hr : create_exec_approval_requirement_for_parsed_commands pol req (commands, origin) platform = Some r) :
  decision_le (judged (current_for_environment pol environment Honor) f cmd)
              (judged (current_for_environment pol environment IgnoreForCyberModel) f cmd) ∧
  proposed_execpolicy_amendment r = None ∧
  (environment_policy req = None → ∀ a, r ≠ SkipApproval true a).
Proof.
  split; [apply fewer_judged, fewer_ignore|]. revert Hr. unfold create_exec_approval_requirement_for_parsed_commands.
  rewrite Hignore. destruct (check_multiple_with_options _ _ _ _) as [e|]; [|done]. intros [= <-]. split.
  - destruct (decision e); [done| |done]. by repeat case_match.
  - intros Henv a. destruct (decision e); [|by repeat case_match..]. rewrite Henv. cbn [current_for_environment].
    destruct commands as [|c commands]; [done|]. intros [= Hall _]. apply andb_true_iff in Hall as [Hall _].
    apply existsb_rule_allows in Hall as (m & Hm & Hd). rewrite matched_rules_routes in Hm.
    set (Q := current_for_prefix_rules pol IgnoreForCyberModel) in *.
    assert (∀ k r, r ∈ rules_for (rules_by_program Q) k → rule_decision r ≠ Allow) as Hno.
    { intros k r. cbn. rewrite rules_for_without_allow, list_elem_of_In, List.filter_In. unfold is_allow_prefix.
      rewrite negb_true_iff, bool_decide_eq_false. tauto. }
    assert (m ∈ exact_matches Q c ∨ m ∈ host_matches Q c) as [Hin|Hin] 
      by (change (m ∈ match exact_matches Q c with [] => host_matches Q c | ms => ms end) in Hm; revert Hm; destruct (exact_matches Q c); auto).
    + destruct c as [|c args]; [by apply elem_of_nil in Hin|]. apply list_elem_of_omap in Hin as (r & Hr & Hm').
      apply rule_matches_decision in Hm'. apply (Hno _ _ Hr). congruence.
    + unfold host_matches in Hin. destruct (host_route Q c) as [[[program basename] args]|]; [|by apply elem_of_nil in Hin].
      apply list_elem_of_fmap in Hin as (m0 & -> & Hin). apply list_elem_of_omap in Hin as (r & Hr & Hm').
      apply rule_matches_decision in Hm'. rewrite resolved_decision in Hd. apply (Hno _ _ Hr). congruence.
Qed.

(** ** Accepted rules *)

(** A question with a proposed rule is about commands that no rule matches. *)
Lemma proposed_unmatched pol req commands origin platform reason a :
  create_exec_approval_requirement_for_parsed_commands pol req (commands, origin) platform = Some (NeedsApproval reason (Some a)) →
  (∃ cmd, cmd ∈ commands ∧ judged (policy_of pol req) (exec_policy_fallback req origin platform) cmd = Prompt) ∧
  ∀ cmd m, cmd ∈ commands → m ∈ matched_rules_of (policy_of pol req) cmd true → match_decision m = Allow.
Proof.
  unfold create_exec_approval_requirement_for_parsed_commands. set (P := policy_of pol req). set (f := exec_policy_fallback req origin platform).
  destruct (decide (commands = [])) as [->|Hne]; [done|].
  destruct (check_multiple_judged P f commands Hne) as (e & -> & Hms & [_ Hmax] & _ & cmd & Hin & Hd). intros [= Hr].
  destruct (decision e) eqn:Ed; try done. split; [by eauto|].
  assert (existsb (policy_match_is Prompt) (matched_rules e) = false) as Hno.
  { destruct (existsb (policy_match_is Prompt) (matched_rules e)) eqn:Ex; [|done]. exfalso.
    destruct (prompt_is_rejected_by_policy _ _); [done|]. injection Hr as _ Hr.
    assert (existsb is_policy_match (matched_rules e) = true) as Hany.
    { apply existsb_exists in Ex as (m & Hm & [Hp _]%policy_match_is_true). apply existsb_exists. eauto. }
    unfold derive_requested_execpolicy_amendment_from_prefix_rule, try_derive_execpolicy_amendment_for_prompt_rules in Hr.
    rewrite Hany, Ex in Hr. by repeat case_match. }
  intros c m Hc Hm. assert (m ∈ matched_rules e) as Hme.
  { rewrite Hms. apply list_elem_of_bind. exists c. split; [|done]. unfold matches_for_command_with_options.
    destruct (matched_rules_of P c true); [by apply elem_of_nil in Hm|done]. }
  pose proof (matched_rules_policy _ _ _ Hm) as Hp. specialize (Hmax m Hme). destruct (match_decision m) eqn:Edm; [done| |].
  - apply not_true_iff_false in Hno. destruct Hno. apply existsb_exists. exists m. split; [by apply list_elem_of_In|].
    by apply policy_match_is_true.
  - unfold decision_le in Hmax. cbn in Hmax. lia.
Qed.

(** Accepting a proposed rule answers the question.  If every part of the
    command starts with the words of the rule or needed no question, then after
    the update, in which the rule is written to the file and added to the policy,
    the same request needs no approval. *)
Theorem accepted_rule_answers_question json_string default_policy_path (m m' : ManagerState (path := path)) io req commands origin platform reason a
    (Henv : environment_policy req = None) (Hhonor : allow_prefix_rules req = Honor)
    (Hask : create_exec_approval_requirement_for_parsed_commands (current m) req (commands, origin) platform =
              Some (NeedsApproval reason (Some a)))
    (Hparts : ∀ cmd, cmd ∈ commands → a `prefix_of` cmd ∨ judged (current m) (exec_policy_fallback req origin platform) cmd = Allow)
    (Hupdate : append_amendment_and_update json_string default_policy_path m io None a = (m', Ok tt)) :
  ∃ bypass_sandbox next,
    create_exec_approval_requirement_for_parsed_commands (current m') req (commands, origin) platform =
    Some (SkipApproval bypass_sandbox next).
Proof.
  assert (∀ pol, policy_of pol req = pol) as Hpol by (intros pol; by rewrite Henv, Hhonor).
  destruct (proposed_unmatched _ _ _ _ _ _ _ Hask) as [(cmd & Hcmd & Hprompt) Hallow]. rewrite Hpol in Hprompt. setoid_rewrite Hpol in Hallow.
  set (f := exec_policy_fallback req origin platform) in *.
  destruct (Hparts cmd Hcmd) as [[args ->]|Hj]; [|congruence].
  assert (matched_rules_of (current m) (a ++ args) true = []) as Hnone.
  { destruct (decide (matched_rules_of (current m) (a ++ args) true = [])) as [?|Hne]; [done|]. exfalso.
    destruct (judged_matched (current m) f (a ++ args) Hne) as [(x & Hx & Hd) _]. rewrite (Hallow _ x Hcmd Hx), Hprompt in Hd. done. }
  unfold append_amendment_and_update in Hupdate.
  destruct (blocking_append_allow_prefix_rule json_string io default_policy_path (policy_file m) a) as [file [u|]]; [|done].
  cbn [current] in Hupdate. assert (already_allowed (current m) a = false) as Hnew.
  { unfold already_allowed. destruct (check_multiple_judged (current m) (λ _, Forbidden) [a] ltac:(done)) as (e & -> & Hms & _).
    destruct (decide (matched_rules_of (current m) a true = [])) as [Hn|Hne].
    - rewrite Hms. cbn. unfold matches_for_command_with_options. rewrite Hn. cbn. by rewrite andb_false_r.
    - exfalso. by apply (matched_extends (current m) a args Hne). }
  rewrite Hnew in Hupdate. destruct (add_prefix_rule (current m) a Allow) as [pol'|] eqn:Hadd; [|done]. injection Hupdate as <-. cbn [current].
  assert (∀ c, c ∈ commands → judged pol' f c = Allow) as Hall.
  { intros c Hc. destruct (Hparts c Hc) as [[rest ->]|Hj]; [|by eapply add_allow_judged].
    eapply add_allow_covers; [done|]. intros x Hx. apply (Hallow (a ++ rest)); [done|]. rewrite matched_rules_routes.
    by destruct (exact_matches (current m) (a ++ rest)); [apply elem_of_nil in Hx|]. }
  unfold create_exec_approval_requirement_for_parsed_commands. rewrite Hpol. fold f.
  destruct (check_multiple_judged pol' f commands) as (e & -> & _ & _ & _ & c & Hc & Hd); [by intros ->; apply elem_of_nil in Hcmd|].
  rewrite <- Hd, (Hall c Hc). by eauto.
Qed.
End Requirement.

(** ** Examples *)

Module MiniApproval.
Import PathUriProofs.MiniUrl PermissionsProofs.MiniHost.
#[local] Existing Instance UnixPaths.

(** Scripts are their words; nothing is dangerous on Windows. *)
#[local] Instance mini_shells : Shells := {|
  file_stem p := snd <$> rsplit_once (chr "/") p;
  same_path := str_eqb;
  path_parent p := fst <$> rsplit_once (chr "/") p;
  parse_shell_script_into_commands s := Some [split (chr " ") s];
  literal_commands _ := None;
  try_parse_powershell_commands _ := None;
  is_dangerous_command_windows _ := false;
  is_dangerous_powershell_words _ := false;
  shlex_try_join _ := None;
  cfg_windows := false;
  in_system_root _ := false;
|}.
Abbreviation request := (ExecApprovalRequest (U := mini_url) (path := str)).
Definition ask_for (c : list str) (a : AskForApproval) (prefix : option (list str)) (allow : AllowPrefixRules) : request :=
  mkApprovalRequest c a profile_default None LevelDisabled RequireEscalated prefix allow.
Definition build : list str := words ["cargo"; "build"]%string.
Definition cargo : list str := words ["cargo"]%string.
Definition wrapped_rm : list str := words ["sudo"; "rm"; "-rf"; "/"]%string.

Lemma requirement_of_strictest_part_witness :
  ∃ reason next, create_exec_approval_requirement_for_parsed_commands empty_policy (ask_for build OnRequest None Honor) ([build], Generic) DangerousCommand.Posix =
    Some (NeedsApproval reason next) ∧
  ∃ cmd, cmd ∈ [build] ∧
    judged empty_policy (exec_policy_fallback (ask_for build OnRequest None Honor) Generic DangerousCommand.Posix) cmd = Prompt.
Proof.
  destruct (requirement_of_strictest_part empty_policy (ask_for build OnRequest None Honor) [build] Generic DangerousCommand.Posix)
    as (r & Hr & Hcase); [done|].
  assert (r = NeedsApproval None (Some build)) as -> by (apply (inj Some); rewrite <- Hr; by vm_compute).
  exists None, (Some build). split; [exact Hr|]. destruct Hcase as (_ & Hp & _). exact Hp.
Defined.

Lemma hidden_rm_is_never_unasked_witness :
  ∃ reason next, create_exec_approval_requirement_for_parsed_commands empty_policy (ask_for wrapped_rm OnRequest None Honor)
    ([wrapped_rm], Generic) DangerousCommand.Posix = Some (NeedsApproval reason next) ∧
  approval_policy (ask_for wrapped_rm OnRequest None Honor) ≠ Never.
Proof.
  assert (create_exec_approval_requirement_for_parsed_commands empty_policy (ask_for wrapped_rm OnRequest None Honor)
    ([wrapped_rm], Generic) DangerousCommand.Posix = Some (NeedsApproval None (Some wrapped_rm))) as Hr by by vm_compute.
  exists None, (Some wrapped_rm). split; [exact Hr|].
  apply (hidden_rm_is_never_unasked empty_policy (ask_for wrapped_rm OnRequest None Honor) [wrapped_rm] DangerousCommand.Posix wrapped_rm
           (words ["rm"; "-rf"; "/"]%string) _ Hr).
  - by left.
  - by vm_compute.
  - apply rtc_once. by apply (unwraps_sudo literal_commands DangerousCommand.Posix wrapped_rm).
  - split; by vm_compute.
Defined.

Definition allowing : Policy str :=
  match add_prefix_rule empty_policy cargo Allow with Ok p => p | Err _ => empty_policy end.
Lemma ignoring_allow_rules_never_relaxes_witness :
  judged (current_for_environment allowing None Honor) (λ _, Prompt) build = Allow ∧
  decision_le (judged (current_for_environment allowing None Honor) (λ _, Prompt) build)
              (judged (current_for_environment allowing None IgnoreForCyberModel) (λ _, Prompt) build).
Proof.
  split; [by vm_compute|].
  destruct (create_exec_approval_requirement_for_parsed_commands allowing (ask_for build OnRequest None IgnoreForCyberModel)
              ([build], Generic) DangerousCommand.Posix) as [r|] eqn:Hr; [|by vm_compute in Hr].
  apply (ignoring_allow_rules_never_relaxes allowing None (λ _, Prompt) build
           (ask_for build OnRequest None IgnoreForCyberModel) [build] Generic DangerousCommand.Posix r); [done|done|exact Hr].
Defined.

Definition before : ManagerState (path := str) := mkManager empty_policy None.
Definition quote (s : str) : result str str := Ok ([34%N] ++ s ++ [34%N]).
Definition after : ManagerState (path := str) :=
  (append_amendment_and_update quote (lit "/h/rules/default.rules") before (good_io (lit "/h/rules")) None cargo).1.
Lemma accepted_rule_answers_question_witness :
  (∃ reason, create_exec_approval_requirement_for_parsed_commands (current before) (ask_for build OnRequest (Some cargo) Honor)
     ([build], Generic) DangerousCommand.Posix = Some (NeedsApproval reason (Some cargo))) ∧
  ∃ bypass next, create_exec_approval_requirement_for_parsed_commands (current after) (ask_for build OnRequest (Some cargo) Honor)
     ([build], Generic) DangerousCommand.Posix = Some (SkipApproval bypass next).
Proof.
  assert (create_exec_approval_requirement_for_parsed_commands (current before) (ask_for build OnRequest (Some cargo) Honor)
     ([build], Generic) DangerousCommand.Posix = Some (NeedsApproval None (Some cargo))) as Hask by by vm_compute.
  split; [by exists None|].
  apply (accepted_rule_answers_question quote (lit "/h/rules/default.rules") before after (good_io (lit "/h/rules"))
           (ask_for build OnRequest (Some cargo) Honor) [build] Generic DangerousCommand.Posix None cargo); [done|done|exact Hask| |by vm_compute].
  intros cmd ->%list_elem_of_singleton. left. by exists (words ["build"]%string).
Defined.
End MiniApproval.
