(* ===== verification/Orchestrator.v ===== *)
(** * Running tools ([core/src/tools/orchestrator.rs], [core/src/tools/sandboxing.rs])

    Every tool that touches the machine runs through the orchestrator: approval,
    choice of a sandbox, a first attempt, and a second one with fewer
    restrictions when the sandbox refused the first.  The file also has the
    choice of the sandbox ([sandboxing/src/manager.rs]), the cache of approvals
    and the decisions of the network proxy that can be approved
    ([core/src/network_policy_decision.rs]).

    The session, the user and the tool answer through a [World]; what the
    orchestrator does is a trace of events.  Telemetry is left out. *)
From stdpp Require Import numbers strings gmap.
From S2P Require Import NetRuntime.
From S2P Require Import Prelude Utf8 PathUri Permissions Profile RustStr ExecRule ExecPolicy ExecAmend DangerousCommand ExecApproval.

(** ** Sandboxes ([manager.rs]) *)

Inductive SandboxType : Type := NoSandbox | MacosSeatbelt | LinuxSeccomp | WindowsRestrictedToken.
Inductive SandboxablePreference : Type := Auto | Require | Forbid.
(** [cfg!(target_os)]. *)
Inductive TargetOs : Type := MacOs | Linux | WindowsOs | OtherOs.
Definition get_platform_sandbox (os : TargetOs) (windows_sandbox_enabled : bool) : option SandboxType :=
  match os with
  | MacOs => Some MacosSeatbelt
  | Linux => Some LinuxSeccomp
  | WindowsOs => if windows_sandbox_enabled then Some WindowsRestrictedToken else None
  | OtherOs => None
  end.

(** ** Decisions of the network proxy *)

Inductive NetworkApprovalProtocol : Type := ApproveHttp | ApproveHttps | ApproveSocks5Tcp | ApproveSocks5Udp.
Record NetworkPolicyDecisionPayload : Type := mkPayload {
  payload_decision : NetworkPolicyDecision;
  payload_source : NetworkDecisionSource;
  payload_protocol : option NetworkApprovalProtocol;
  payload_host : option str;
}.
Record NetworkApprovalContext : Type := mkNetworkContext { context_host : str; context_protocol : NetworkApprovalProtocol }.
Definition is_ask_from_decider (p : NetworkPolicyDecisionPayload) : bool :=
  match payload_decision p, payload_source p with PolicyAsk, Decider => true | _, _ => false end.
Definition network_approval_context_from_payload (p : NetworkPolicyDecisionPayload) : option NetworkApprovalContext :=
  if negb (is_ask_from_decider p) then None
  else match payload_protocol p, payload_host p with
       | Some protocol, Some host =>
           let host := trim host in if str_eqb host [] then None else Some (mkNetworkContext host protocol)
       | _, _ => None
       end.

(** What a prompt turned into a rule of the execution policy. *)
Inductive NetworkPolicyRuleAction : Type := RuleAllow | RuleDeny.
Definition execpolicy_network_rule_amendment (action : NetworkPolicyRuleAction) (context : NetworkApprovalContext) (host : str) :
    NetworkRuleProtocol * Decision * str :=
  let '(protocol, label) :=
    match context_protocol context with
    | ApproveHttp => (Http, lit "http")
    | ApproveHttps => (Https, lit "https_connect")
    | ApproveSocks5Tcp => (Socks5Tcp, lit "socks5_tcp")
    | ApproveSocks5Udp => (Socks5Udp, lit "socks5_udp")
    end in
  let '(d, verb) := match action with RuleAllow => (Allow, lit "Allow") | RuleDeny => (Forbidden, lit "Deny") end in
  (protocol, d, verb ++ lit " " ++ label ++ lit " access to " ++ host).

(** ** Errors *)

(** [RexuxErr]: the sandbox errors, and the others by their text. *)
Inductive RexuxErr : Type :=
  | Denied (output : str) (network_policy_decision : option NetworkPolicyDecisionPayload)
  | TimedOut
  | Signal (n : Z)
  | OtherErr (text : str).
Inductive ToolError : Type := Rejected (reason : str) | Rexux (e : RexuxErr).
Definition sandbox_outcome_from_tool_error (e : ToolError) : option str :=
  match e with
  | Rexux (Denied _ _) => Some (lit "denied")
  | Rexux TimedOut => Some (lit "timed_out")
  | Rexux (Signal _) => Some (lit "signal")
  | Rexux (OtherErr _) | Rejected _ => None
  end.
Definition build_denial_reason_from_output (_ : str) : str := lit "command failed; retry without sandbox?".

(** ** Cached approvals *)

Inductive ReviewDecision : Type :=
  | Approved
  | ApprovedExecpolicyAmendment (amendment : list str)
  | ApprovedForSession
  | ApprovedMcpPolicyAmendment
  | NetworkPolicyAmendment (action : NetworkPolicyRuleAction) (host : str)
  | DeniedReview (rejection : str)
  | ReviewTimedOut
  | AbortReview.
Definition is_approved_for_session (d : ReviewDecision) : bool := match d with ApprovedForSession => true | _ => false end.

Section Cache.
Context {K : Type} (to_json : K → option str).
(** [ApprovalStore], by the serialised keys. *)
Definition ApprovalStore : Type := gmap str ReviewDecision.
Definition store_get (s : ApprovalStore) (key : K) : option ReviewDecision :=
  match to_json key with Some j => s !! j | None => None end.
Definition store_put (s : ApprovalStore) (key : K) (value : ReviewDecision) : ApprovalStore :=
  match to_json key with Some j => <[j := value]> s | None => s end.
(** [with_cached_approval]; [at_store] is the store when the answer is written,
    which other requests may have changed. *)
Definition with_cached_approval (s : ApprovalStore) (keys : list K) (fetched : ReviewDecision) (at_store : ApprovalStore) :
    ReviewDecision * ApprovalStore * bool :=
  match keys with
  | [] => (fetched, at_store, true)
  | _ =>
      if forallb (λ key, match store_get s key with Some d => is_approved_for_session d | None => false end) keys
      then (ApprovedForSession, s, false)
      else (fetched,
            if is_approved_for_session fetched then foldl (λ st key, store_put st key ApprovedForSession) at_store keys else at_store,
            true)
  end.
End Cache.

(** ** Requirements and overrides *)

Inductive SandboxOverride : Type := NoOverride | BypassSandboxFirstAttempt.

Section Sandboxing.
Context {U : Type} `{!UrlCrate U, !Codecs, !Host U}.
Implicit Types (p : FileSystemSandboxPolicy U) (profile : PermissionProfile U).

Definition default_exec_approval_requirement (policy : AskForApproval) p : ExecApprovalRequirement :=
  let needs_approval :=
    match policy with Never => false | OnRequest | Granular _ => is_restricted p | UnlessTrusted => true end in
  if needs_approval && match policy with Granular c => negb (sandbox_approval c) | _ => false end
  then ForbiddenCall (lit "approval policy disallowed sandbox approval prompt")
  else if needs_approval then NeedsApproval None None else SkipApproval false None.
Definition unsandboxed_execution_allowed p : bool := negb (has_denied_read_restrictions p).
Definition sandbox_override_for_first_attempt (s : SandboxPermissions) (r : ExecApprovalRequirement) p : SandboxOverride :=
  if negb (unsandboxed_execution_allowed p) then NoOverride
  else match r with
       | SkipApproval true _ => BypassSandboxFirstAttempt
       | _ => if requires_escalated_permissions s then BypassSandboxFirstAttempt else NoOverride
       end.
Definition sandbox_permissions_preserving_denied_reads (s : SandboxPermissions) p : SandboxPermissions :=
  if requires_escalated_permissions s && negb (unsandboxed_execution_allowed p) then UseDefault else s.
Definition managed_network_for_sandbox_permissions {P} (network : option P) (s : SandboxPermissions) : option P :=
  if requires_escalated_permissions s then None else network.

(** The two tools that run through the orchestrator, with their instances of
    [Approvable] and [Sandboxable].  [should_bypass_approval] is inherited by
    both; a patch overrides [wants_no_sandbox_approval]. *)
Inductive ToolRuntime : Type := ApplyPatchRuntime | UnifiedExecRuntime.
Definition should_bypass_approval (policy : AskForApproval) (already_approved : bool) : bool :=
  if already_approved then true else match policy with Never => true | _ => false end.
Definition default_wants_no_sandbox_approval (policy : AskForApproval) : bool :=
  match policy with UnlessTrusted => true | Never | OnRequest => false | Granular c => sandbox_approval c end.
Definition apply_patch_wants_no_sandbox_approval (policy : AskForApproval) : bool :=
  match policy with Never => false | Granular c => sandbox_approval c | OnRequest | UnlessTrusted => true end.
Definition wants_no_sandbox_approval (tool : ToolRuntime) (policy : AskForApproval) : bool :=
  match tool with
  | ApplyPatchRuntime => apply_patch_wants_no_sandbox_approval policy
  | UnifiedExecRuntime => default_wants_no_sandbox_approval policy
  end.
Definition sandbox_preference (tool : ToolRuntime) : SandboxablePreference :=
  match tool with ApplyPatchRuntime | UnifiedExecRuntime => Auto end.
Definition escalate_on_failure (tool : ToolRuntime) : bool :=
  match tool with ApplyPatchRuntime | UnifiedExecRuntime => true end.

Definition should_sandbox profile (pref : SandboxablePreference) (has_managed_network_requirements : bool) : bool :=
  match pref with
  | Forbid => false
  | Require => true
  | Auto =>
      let '(p, n) := to_runtime_permissions profile in
      should_require_platform_sandbox p n has_managed_network_requirements
  end.
Definition select_initial (os : TargetOs) profile (pref : SandboxablePreference) (level : WindowsSandboxLevel)
    (has_managed_network_requirements : bool) : SandboxType :=
  if should_sandbox profile pref has_managed_network_requirements
  then default NoSandbox (get_platform_sandbox os (negb (bool_decide (level = LevelDisabled)))) else NoSandbox.

Record SandboxAttempt : Type := mkAttempt {
  sandbox : SandboxType;
  sandbox_requested : bool;
  permissions : PermissionProfile U;
  exec_server_permissions : PermissionProfile U;
  enforce_managed_network : bool;
  linux_sandbox_exe : option str;
}.
Definition is_escalated (a : SandboxAttempt) : bool :=
  negb (sandbox_requested a) && should_sandbox (permissions a) Auto (enforce_managed_network a).

(** ** The orchestrator *)

(** The call: the tool with its request, the environment and the turn. *)
Record ToolCall : Type := mkCall {
  call_approval_policy : AskForApproval;
  strict_auto_review : bool;
  owner_network_policy : bool;
  call_sandbox_permissions : SandboxPermissions;
  executor_managed_process_sandbox : bool;
  call_profile : PermissionProfile U;
  profile_with_workspace_roots : PermissionProfile U;
  exec_approval_requirement : option ExecApprovalRequirement;
  approval_action : result str unit;
  runtime : ToolRuntime;
  (** [turn_ctx.config.permissions.network] is enabled; [turn_ctx.network] *)
  proxy_spec_enabled : bool;
  turn_network : bool;
  (** [network_approval_spec], by its additional permissions *)
  network_approval_spec : option (option (AdditionalPermissionProfile U));
  call_windows_sandbox_level : WindowsSandboxLevel;
  call_linux_sandbox_exe : option str;
}.

Context {Out : Type}.
(** What others answer; the flag says whether it is about the second attempt.
    [begin_network_approval] may start an approval, and that may be deferred. *)
Record World : Type := mkWorld {
  request_approval : bool → result ToolError unit;
  begin_network_approval : bool → bool → option (option (AdditionalPermissionProfile U)) → result ToolError bool;
  into_deferred : bool → bool;
  run_tool : bool → SandboxAttempt → result ToolError Out;
  finish_deferred_network_approval : bool → bool → result ToolError unit;
}.

Inductive Event : Type :=
  | Asked (approval_reason retry_reason : option str) (network : option NetworkApprovalContext) (answer : result ToolError unit)
  | NetworkBegan (started : bool)
  | Ran (attempt : SandboxAttempt) (outcome : result ToolError Out)
  | NetworkFinished.

(** A computation that extends the trace and may fail. *)
Definition M (A : Type) : Type := list Event → list Event * result ToolError A.
Definition ret {A} (a : A) : M A := λ tr, (tr, Ok a).
Definition fail {A} (e : ToolError) : M A := λ tr, (tr, Err e).
Definition bind {A B} (m : M A) (k : A → M B) : M B :=
  λ tr, match m tr with (tr, Ok a) => k a tr | (tr, Err e) => (tr, Err e) end.
Definition emit {A} (ev : Event) (r : result ToolError A) : M A := λ tr, (tr ++ [ev], r).

Section Run.
Context (os : TargetOs) (call : ToolCall) (w : World).

(** [tool.approval_action] and [session.request_approval]. *)
Definition ask (retry : bool) (approval_reason retry_reason : option str) (network : option NetworkApprovalContext) : M unit :=
  match approval_action call with
  | Err err => fail (Rejected (lit "could not prepare approval action: " ++ err))
  | Ok _ => emit (Asked approval_reason retry_reason network (request_approval w retry)) (request_approval w retry)
  end.

(** The result of an attempt is a value: the caller looks at its error. *)
Definition run_attempt (retry : bool) (attempt : SandboxAttempt) (spec : option (option (AdditionalPermissionProfile U))) :
    M (result ToolError Out * bool) := λ tr,
  match begin_network_approval w retry (enforce_managed_network attempt) spec with
  | Err err => (tr, Ok (Err err, false))
  | Ok started =>
      let run_result := run_tool w retry attempt in
      let tr := tr ++ [NetworkBegan started; Ran attempt run_result] in
      if negb started then (tr, Ok (run_result, false))
      else match run_result with
           | Ok _ => (tr, Ok (run_result, into_deferred w retry))
           | Err _ =>
               let tr := tr ++ [NetworkFinished] in
               match finish_deferred_network_approval w retry (into_deferred w retry) with
               | Err err => (tr, Ok (Err err, false))
               | Ok _ => (tr, Ok (run_result, false))
               end
           end
  end.

(** The parts of [run] that do not depend on answers. *)
Definition run_permissions : PermissionProfile U :=
  if executor_managed_process_sandbox call then call_profile call else profile_with_workspace_roots call.
Definition run_policy : FileSystemSandboxPolicy U := file_system_sandbox_policy run_permissions.
Definition requirement : ExecApprovalRequirement :=
  default (default_exec_approval_requirement (call_approval_policy call) run_policy) (exec_approval_requirement call).
Definition unsandboxed_allowed : bool := negb (owner_network_policy call) && unsandboxed_execution_allowed run_policy.
Definition managed_network_active : bool :=
  if owner_network_policy call then
    proxy_spec_enabled call ||
    match network_approval_spec call with
    | Some additional => is_enabled (effective_network_sandbox_policy (network_sandbox_policy (call_profile call)) additional)
    | None => false
    end
  else turn_network call.
Definition attempt_with (requested : bool) (exe : option str) : SandboxAttempt :=
  mkAttempt
    (if requested && negb (executor_managed_process_sandbox call)
     then select_initial os run_permissions (sandbox_preference (runtime call)) (call_windows_sandbox_level call) managed_network_active
     else NoSandbox)
    requested run_permissions (call_profile call) managed_network_active exe.
Definition initial_attempt : SandboxAttempt :=
  let sandbox_override :=
    if unsandboxed_allowed
    then sandbox_override_for_first_attempt (call_sandbox_permissions call) requirement run_policy else NoOverride in
  let requested :=
    match sandbox_override with
    | BypassSandboxFirstAttempt => false
    | NoOverride => should_sandbox run_permissions (sandbox_preference (runtime call)) managed_network_active
    end in
  attempt_with requested (call_linux_sandbox_exe call).
Definition retry_attempt : SandboxAttempt :=
  attempt_with (negb unsandboxed_allowed && should_sandbox run_permissions (sandbox_preference (runtime call)) managed_network_active)
    (if unsandboxed_allowed then None else call_linux_sandbox_exe call).

(** Step 1: approval; the answer is [already_approved]. *)
Definition approve : M bool :=
  match requirement with
  | SkipApproval _ _ => if strict_auto_review call then bind (ask false None None None) (λ _, ret true) else ret false
  | ForbiddenCall reason => fail (Rejected reason)
  | NeedsApproval reason _ => bind (ask false reason None None) (λ _, ret true)
  end.

(** Step 3: after the sandbox refused the first attempt. *)
Definition retry_after_denial (already_approved : bool) (output : str) (decision : option NetworkPolicyDecisionPayload) : M (Out * bool) :=
  let denied := Rexux (Denied output decision) in
  let context :=
    if managed_network_active
    then match decision with Some payload => network_approval_context_from_payload payload | None => None end else None in
  let allow_on_request_network_prompt :=
    match call_approval_policy call with OnRequest => true | _ => false end && bool_decide (is_Some context) &&
    match default_exec_approval_requirement (call_approval_policy call) run_policy with NeedsApproval _ _ => true | _ => false end in
  if bool_decide (is_Some decision) && negb (bool_decide (is_Some context)) then fail denied
  else if negb (escalate_on_failure (runtime call)) then fail denied
  else if negb (wants_no_sandbox_approval (runtime call) (call_approval_policy call)) && negb allow_on_request_network_prompt then fail denied
  else if negb unsandboxed_allowed && negb (bool_decide (is_Some context)) then fail denied
  else
    let retry_reason :=
      match context with
      | Some c => lit "Network access to " ++ [34%N] ++ context_host c ++ [34%N] ++ lit " is blocked by policy."
      | None => build_denial_reason_from_output output
      end in
    let bypass_retry_approval :=
      negb (strict_auto_review call) && should_bypass_approval (call_approval_policy call) already_approved &&
      negb (bool_decide (is_Some context)) in
    let approval_reason := match requirement with NeedsApproval reason _ => reason | _ => None end in
    bind (if negb bypass_retry_approval then ask true approval_reason (Some retry_reason) context else ret tt) (λ _,
    bind (run_attempt true retry_attempt (network_approval_spec call)) (λ '(retry_result, deferred),
    match retry_result with
    | Ok output => ret (output, deferred)
    | Err err => fail err
    end)).

Definition run : M (Out * bool) :=
  if owner_network_policy call && requires_escalated_permissions (call_sandbox_permissions call)
  then fail (Rejected (lit "attachment-owned network policy cannot be bypassed by sandbox escalation"))
  else
    bind approve (λ already_approved,
    bind (run_attempt false initial_attempt (network_approval_spec call)) (λ '(first_result, deferred),
    match first_result with
    | Ok out => ret (out, deferred)
    | Err (Rexux (Denied output decision)) => retry_after_denial already_approved output decision
    | Err err => fail err
    end)).
End Run.
End Sandboxing.
