(* ===== verification/OrchestratorProofs.v ===== *)
(** * Properties of the orchestrator

    A small Hoare logic on the traces, and with it: what justifies an attempt,
    that denied reads keep the sandbox, and that there are at most two attempts. *)
From stdpp Require Import numbers strings gmap.
From S2P Require Import Prelude Utf8 PathUri PathUriProofs Permissions PermissionsProofs Profile RustStr ExecRule ExecPolicy ExecAmend DangerousCommand ExecApproval Orchestrator.

(** ** Triples *)

Section Triples.
Context {U Out : Type}.
Abbreviation trace := (list (Event (U := U) (Out := Out))).

(** From a trace with [P], the trace has [Q] after an answer and [E] after an
    error. *)
Definition triple {A} (P : trace → Prop) (m : M A) (Q : A → trace → Prop) (E : trace → Prop) : Prop :=
  ∀ tr, P tr → match m tr with (tr', Ok a) => Q a tr' | (tr', Err _) => E tr' end.

Lemma triple_ret {A} P (a : A) (Q : A → trace → Prop) E : (∀ tr, P tr → Q a tr) → triple P (ret a) Q E.
Proof. by intros H tr Htr; apply H. Qed.
Lemma triple_fail {A} P e (Q : A → trace → Prop) E : (∀ tr, P tr → E tr) → triple P (fail e) Q E.
Proof. by intros H tr Htr; apply H. Qed.
Lemma triple_bind {A B} P (m : M A) (k : A → M B) R Q E :
  triple P m R E → (∀ a, triple (R a) (k a) Q E) → triple P (bind m k) Q E.
Proof.
  intros Hm Hk tr Htr. specialize (Hm tr Htr). unfold bind. destruct (m tr) as [tr' [a|e]]; [|done]. by apply Hk.
Qed.
Lemma triple_weaken {A} (P P' : trace → Prop) (m : M A) (Q Q' : A → trace → Prop) (E E' : trace → Prop) :
  triple P' m Q' E' → (∀ tr, P tr → P' tr) → (∀ a tr, Q' a tr → Q a tr) → (∀ tr, E' tr → E tr) → triple P m Q E.
Proof. intros Hm HP HQ HE tr Htr%HP. specialize (Hm tr Htr). destruct (m tr) as [tr' [a|e]]; auto. Qed.
End Triples.

Section Orchestrator.
Context {U : Type} `{!UrlCrate U, !Codecs, !Host U} {Out : Type}.
Abbreviation event := (Event (U := U) (Out := Out)).
Implicit Types (tr pre : list event) (p : FileSystemSandboxPolicy U) (a : SandboxAttempt (U := U)).

(** ** Traces *)

(** Somebody approved; somebody approved the second attempt. *)
Definition approved tr : Prop := ∃ reason retry network, Asked reason retry network (Ok tt) ∈ tr.
Definition retry_approved tr : Prop := ∃ reason retry network, Asked reason (Some retry) network (Ok tt) ∈ tr.
(** Every attempt satisfies [J] together with the trace before it. *)
Definition all_runs (J : list event → SandboxAttempt → Prop) tr : Prop :=
  ∀ pre a outcome post, tr = pre ++ Ran a outcome :: post → J pre a.
Definition is_run (ev : event) : bool := match ev with Ran _ _ => true | _ => false end.
Definition is_ask (ev : event) : bool := match ev with Asked _ _ _ _ => true | _ => false end.
Definition runs tr : nat := length (List.filter is_run tr).
Definition asks tr : nat := length (List.filter is_ask tr).

Lemma approved_app tr tr' : approved tr → approved (tr ++ tr').
Proof. intros (r & x & n & Hin). exists r, x, n. apply elem_of_app. by left. Qed.
Lemma retry_approved_approved tr : retry_approved tr → approved tr.
Proof. intros (r & x & n & Hin). by exists r, (Some x), n. Qed.
Lemma runs_app tr tr' : runs (tr ++ tr') = runs tr + runs tr'.
Proof. unfold runs. by rewrite List.filter_app, length_app. Qed.
Lemma asks_app tr tr' : asks (tr ++ tr') = asks tr + asks tr'.
Proof. unfold asks. by rewrite List.filter_app, length_app. Qed.

Lemma all_runs_nil J : all_runs J [].
Proof. intros pre a o post Heq. by destruct pre. Qed.
Lemma all_runs_snoc J tr ev :
  all_runs J tr → (∀ a outcome, ev = Ran a outcome → J tr a) → all_runs J (tr ++ [ev]).
Proof.
  intros Htr Hev pre a o post Heq. destruct post as [|x post' _] using rev_ind.
  - apply app_inj_tail in Heq as [-> ->]. by eapply Hev.
  - rewrite app_comm_cons, app_assoc in Heq. apply app_inj_tail in Heq as [-> _]. by eapply Htr.
Qed.
Lemma all_runs_quiet J tr ev : is_run ev = false → all_runs J tr → all_runs J (tr ++ [ev]).
Proof. intros Hev Htr. apply all_runs_snoc; [done|]. by intros a o ->. Qed.

Section Run.
Context (os : TargetOs) (call : ToolCall (U := U)) (w : World (U := U) (Out := Out)).

Lemma triple_ask P retry reason retry_reason network Q E :
  (∀ tr, P tr → E tr) →
  (∀ tr answer, P tr → answer = request_approval w retry →
     let tr' := tr ++ [Asked reason retry_reason network answer] in
     match answer with Ok _ => Q tr' | Err _ => E tr' end) →
  triple P (ask call w retry reason retry_reason network) (λ _, Q) E.
Proof.
  intros HE HQ tr Htr. unfold ask. destruct (approval_action call); [|by apply HE]. cbn.
  specialize (HQ tr _ Htr eq_refl). cbn in HQ. by destruct (request_approval w retry).
Qed.

(** ** What justifies an attempt *)

(** The requirement does not forbid the call; when it or the strict review asks
    for approval, there was one; and an attempt outside the sandbox the profile
    asks for is allowed by the policies and comes from a rule, from a request for
    escalation or from an approval, under strict review one for the second
    attempt. *)
Definition asks_first : Prop :=
  strict_auto_review call = true ∨ ∃ reason amendment, requirement call = NeedsApproval reason amendment.
Record justified pre a : Prop := {
  from_call : ∃ requested exe, a = attempt_with os call requested exe;
  not_forbidden : ∀ reason, requirement call ≠ ForbiddenCall reason;
  was_asked : asks_first → approved pre;
  may_escape : is_escalated a = true →
    owner_network_policy call = false ∧ has_denied_read_restrictions (run_policy call) = false ∧
    ((∃ amendment, requirement call = SkipApproval true amendment) ∨
     requires_escalated_permissions (call_sandbox_permissions call) = true ∨
     (approved pre ∧ (strict_auto_review call = true → retry_approved pre)));
}.

Lemma escalated_attempt requested exe :
  is_escalated (attempt_with os call requested exe) = true →
  requested = false ∧ should_sandbox (run_permissions call) (sandbox_preference (runtime call)) (managed_network_active call) = true.
Proof.
  unfold is_escalated. cbn [sandbox_requested permissions enforce_managed_network attempt_with].
  intros [->%negb_true_iff Hs]%andb_true_iff. split; [done|]. by destruct (runtime call).
Qed.
Lemma unsandboxed_allowed_spec :
  unsandboxed_allowed call = true → owner_network_policy call = false ∧ has_denied_read_restrictions (run_policy call) = false.
Proof. unfold unsandboxed_allowed, unsandboxed_execution_allowed. by rewrite andb_true_iff, !negb_true_iff. Qed.

(** The trace after step 1. *)
Definition after_approval (already : bool) tr : Prop :=
  (∀ reason, requirement call ≠ ForbiddenCall reason) ∧ (asks_first → already = true) ∧ (already = true → approved tr).
Lemma after_approval_app already tr tr' : after_approval already tr → after_approval already (tr ++ tr').
Proof. intros (? & ? & Hap). split_and!; [done..|]. intros Ha. by apply approved_app, Hap. Qed.

Lemma initial_justified already tr : after_approval already tr → justified tr (initial_attempt os call).
Proof.
  intros (Hf & Hask & Hap). split; [by do 2 eexists|done|by eauto|]. unfold initial_attempt. intros He.
  apply escalated_attempt in He as [Hreq Hs].
  destruct (unsandboxed_allowed call) eqn:Hu; [|by rewrite Hs in Hreq].
  destruct (unsandboxed_allowed_spec Hu) as [Howner Hread]. split_and!; [done..|].
  unfold sandbox_override_for_first_attempt, unsandboxed_execution_allowed in Hreq. rewrite Hread in Hreq. cbn [negb] in Hreq.
  destruct (requirement call) as [[] am| |] eqn:Hr;
    [left; by eexists|destruct (requires_escalated_permissions _); [by auto|by rewrite Hs in Hreq]..].
Qed.
Lemma retry_justified already tr :
  after_approval already tr → (retry_approved tr ∨ strict_auto_review call = false ∧ already = true) →
  justified tr (retry_attempt os call).
Proof.
  intros (Hf & Hask & Hap) Hre. split; [by do 2 eexists|done|by eauto|]. unfold retry_attempt. intros He.
  apply escalated_attempt in He as [Hreq Hs]. rewrite Hs, andb_true_r in Hreq. apply negb_false_iff in Hreq.
  destruct (unsandboxed_allowed_spec Hreq) as [Howner Hread]. split_and!; [done..|]. right; right.
  destruct Hre as [Hre|[Hstrict ->]]; [by split; [apply retry_approved_approved|]|]. split; [by apply Hap|congruence].
Qed.

(** A trace in which attempts are justified, with at most [n] attempts and [k]
    questions. *)
Definition good (n k : nat) tr : Prop := all_runs justified tr ∧ runs tr ≤ n ∧ asks tr ≤ k.
Lemma good_weaken n k n' k' tr : good n k tr → n ≤ n' → k ≤ k' → good n' k' tr.
Proof. intros (? & ? & ?) ? ?. split_and!; [done|lia..]. Qed.
Lemma good_ask n k tr reason retry network answer :
  good n k tr → good n (S k) (tr ++ [Asked reason retry network answer]).
Proof.
  intros (? & ? & ?). split_and!; [by apply all_runs_quiet|rewrite runs_app; cbn; lia|rewrite asks_app; cbn; lia].
Qed.

(** [run_attempt] runs the tool at most once, and an answer is the tool's. *)
Lemma triple_run_attempt n k retry a spec (P E : list event → Prop) :
  (∀ tr, P tr → justified tr a) → (∀ tr tr', P tr → P (tr ++ tr')) →
  triple (λ tr, good n k tr ∧ P tr) (run_attempt w retry a spec)
    (λ '(r, _) tr, good (S n) k tr ∧ P tr ∧ match r with Ok out => last tr = Some (Ran a (Ok out)) | Err _ => True end)
    E.
Proof.
  intros HJ HP tr [(Hall & Hn & Hk) Htr]. unfold run_attempt.
  destruct (begin_network_approval w retry (enforce_managed_network a) spec) as [started|e]; [|split_and!; [split_and!; [done|lia..]|done..]].
  set (ran := Ran a (run_tool w retry a)). set (began := NetworkBegan started : event).
  assert (tr ++ [began; ran] = (tr ++ [began]) ++ [ran]) as -> by by rewrite <- app_assoc.
  assert (good (S n) k ((tr ++ [began]) ++ [ran])) as Hgood.
  { split_and!; [|rewrite !runs_app; cbn; lia|rewrite !asks_app; cbn; lia].
    apply all_runs_snoc; [by apply all_runs_quiet|]. intros ? ? [= <- _]. by apply HJ, HP. }
  assert (P ((tr ++ [began]) ++ [ran])) as HP' by by apply HP, HP.
  assert (good (S n) k (((tr ++ [began]) ++ [ran]) ++ [NetworkFinished])) as Hfinished.
  { destruct Hgood as (? & ? & ?). split_and!; [by apply all_runs_quiet|rewrite runs_app; cbn; lia|rewrite asks_app; cbn; lia]. }
  destruct started; cbn [negb]; subst ran; destruct (run_tool w retry a) as [out|e];
    try (destruct (finish_deferred_network_approval w retry (into_deferred w retry)));
    split_and!; first [done|by apply HP|by apply last_snoc].
Qed.

(** ** The steps *)

Lemma approve_triple :
  triple (good 0 0) (approve call w) (λ already tr, good 0 1 tr ∧ after_approval already tr) (good 2 2).
Proof.
  assert (∀ tr, good 0 0 tr → good 2 2 tr) as Hsame by (intros tr Hg; eapply good_weaken; [done|lia..]).
  assert (∀ reason, (∀ r, requirement call ≠ ForbiddenCall r) →
    triple (good 0 0) (bind (ask call w false reason None None) (λ _, ret true))
      (λ already tr, good 0 1 tr ∧ after_approval already tr) (good 2 2)) as Hask.
  { intros reason Hf. eapply (triple_bind _ _ _ (λ _ tr, good 0 1 tr ∧ approved tr)).
    - apply (triple_ask _ _ _ _ _ (λ tr, good 0 1 tr ∧ approved tr)); [done|].
      intros tr answer Hg _. cbn. apply (good_ask _ _ _ reason None None answer) in Hg. destruct answer as [[]|e].
      + split; [done|]. exists reason, None, None. apply elem_of_app. right. by left.
      + eapply good_weaken; [done|lia..].
    - intros _. apply triple_ret. intros tr [Hg Hap]. by split_and!. }
  unfold approve. destruct (requirement call) as [b am|reason am|reason] eqn:Hr.
  - destruct (strict_auto_review call) eqn:Hstrict; [by apply Hask|]. apply triple_ret. intros tr Hg.
    split; [eapply good_weaken; [done|lia..]|]. split_and!; [by rewrite Hr| |done].
    intros [?|(? & ? & ?)]; congruence.
  - by apply Hask.
  - by apply triple_fail.
Qed.

(** The answer is that of the last attempt. *)
Definition answered (r : Out * bool) tr : Prop := good 2 2 tr ∧ ∃ a, last tr = Some (Ran a (Ok r.1)).
Definition may_retry (already : bool) tr : Prop :=
  after_approval already tr ∧ (retry_approved tr ∨ strict_auto_review call = false ∧ already = true).

Lemma finish_triple already :
  triple (λ tr, good 1 2 tr ∧ may_retry already tr)
    (bind (run_attempt w true (retry_attempt os call) (network_approval_spec call)) (λ '(r, deferred),
       match r with Ok out => ret (out, deferred) | Err e => fail e end)) answered (good 2 2).
Proof.
  eapply triple_bind.
  - apply (triple_run_attempt 1 2 true _ _ (may_retry already)).
    + intros tr [Hap Hre]. by eapply retry_justified.
    + intros tr tr' [Hap Hre]. split; [by apply after_approval_app|]. destruct Hre as [(r & x & n & Hin)|?]; [|by right].
      left. exists r, x, n. apply elem_of_app. by left.
  - intros [[out|e] deferred]; [apply triple_ret|apply triple_fail]; intros tr (Hg & _ & Hlast); [|done]. split; [done|by eexists].
Qed.

Lemma retry_triple already output decision :
  triple (λ tr, good 1 1 tr ∧ after_approval already tr) (retry_after_denial os call w already output decision)
    answered (good 2 2).
Proof.
  assert (∀ n k tr, n ≤ 2 → k ≤ 2 → good n k tr → good 2 2 tr) as Hweak by (intros; by eapply good_weaken).
  unfold retry_after_denial.
  set (context := if managed_network_active call then _ else _).
  assert (∀ e, triple (λ tr, good 1 1 tr ∧ after_approval already tr) (fail e) answered (good 2 2)) as Hfail.
  { intros e. apply triple_fail. intros tr [Hg _]. by eapply Hweak, Hg; lia. }
  cbv zeta. destruct (_ && _); [done|]. destruct (negb (escalate_on_failure _)); [done|].
  destruct (negb (wants_no_sandbox_approval _ _) && _) eqn:Hwants; [done|]. destruct (negb (unsandboxed_allowed call) && _); [done|].
  eapply triple_bind; [|intros u; apply (finish_triple already)]. destruct (negb (negb _ && _ && _)) eqn:Hbypass.
  - apply (triple_ask _ _ _ _ _ (λ tr, good 1 2 tr ∧ may_retry already tr)); [intros tr [Hg _]; by eapply Hweak, Hg; lia|].
    intros tr answer [Hg Hap] _. cbn. destruct answer as [[]|e]; [|by eapply Hweak, good_ask, Hg; lia].
    split; [by apply good_ask|split; [by apply after_approval_app|]]. left. do 3 eexists. apply elem_of_app. right. by left.
  - apply triple_ret. intros tr [Hg Hap]. split; [by eapply good_weaken; [done|lia..]|split; [done|]]. right.
    apply negb_false_iff in Hbypass. rewrite !andb_true_iff in Hbypass. destruct Hbypass as [[Hs%negb_true_iff Hb] _]. split; [done|].
    destruct already; [done|]. by destruct (runtime call), (call_approval_policy call).
Qed.

Lemma run_triple : triple (good 0 0) (run os call w) answered (good 2 2).
Proof.
  unfold run. case_match; [apply triple_fail; intros tr Hg; eapply good_weaken; [done|lia..]|].
  eapply triple_bind; [apply approve_triple|]. intros already. eapply triple_bind.
  - apply (triple_run_attempt 0 1 false _ _ (after_approval already)).
    + intros tr. apply initial_justified.
    + intros tr tr'. apply after_approval_app.
  - assert (∀ tr, good 1 1 tr → good 2 2 tr) as Hweak by (intros tr Hg; eapply good_weaken; [done|lia..]).
    intros [[out|e] deferred]; [apply triple_ret|].
    + intros tr (Hg & _ & Hlast). split; [by apply Hweak|by eexists].
    + destruct e as [|[output decision| | |]]; try (apply triple_fail; intros tr (Hg & _); by apply Hweak).
      eapply triple_weaken; [apply (retry_triple already)|by intros tr (Hg & Hap & _)|done|done].
Qed.

Lemma run_good : good 2 2 (run os call w []).1.
Proof.
  assert (good 0 0 []) as Hnil by (split_and!; [apply all_runs_nil|done..]).
  pose proof (run_triple [] Hnil) as Hrun. destruct (run os call w []) as [tr [r|e]]; [apply Hrun|done].
Qed.

(** ** Correctness of [run] *)

(** C2: Nothing runs unjustified: before every attempt of [run] the
    requirement was not a refusal; when the requirement or the strict review
    asks for it, somebody had approved; and an attempt outside the sandbox that
    the profile asks for happens only when no owner's network policy and no
    denied read stands in the way, and a rule, a request for escalation or an
    approval opened it, under strict review an approval of that very retry. *)
Theorem every_attempt_is_justified pre a outcome post
    (Hrun : (run os call w []).1 = pre ++ Ran a outcome :: post) :
  (∀ reason, requirement call ≠ ForbiddenCall reason) ∧
  (strict_auto_review call = true ∨ (∃ reason amendment, requirement call = NeedsApproval reason amendment) → approved pre) ∧
  (is_escalated a = true →
    owner_network_policy call = false ∧ has_denied_read_restrictions (run_policy call) = false ∧
    ((∃ amendment, requirement call = SkipApproval true amendment) ∨
     requires_escalated_permissions (call_sandbox_permissions call) = true ∨
     (approved pre ∧ (strict_auto_review call = true → retry_approved pre)))).
Proof. destruct run_good as [Hall _]. by destruct (Hall _ _ _ _ Hrun). Qed.

(** A denial that names something on this host. *)
Definition real_denial (e : FileSystemSandboxEntry U) : bool :=
  is_deny e &&
  match entry_path e with Special Minimal | Special (UnknownPath _ _) => false | Special SlashTmp => unix | _ => true end.

Lemma deny_not_overridden p e : is_deny e = true → has_same_target_write_override p e = false.
Proof.
  intros Hd%bool_decide_eq_true. apply not_true_is_false. intros (c & _ & Hc)%existsb_exists. rewrite Hd in Hc.
  by destruct (access c).
Qed.
Lemma real_denial_narrows p e : kind p = Restricted → e ∈ entries p → real_denial e = true →
  has_denied_read_restrictions p = true ∧ has_full_disk_write_access p = false.
Proof.
  intros Hk He%list_elem_of_In [Hd Hpath]%andb_true_iff. unfold has_denied_read_restrictions, has_full_disk_write_access, has_write_narrowing_entries, is_restricted.
  rewrite Hk, !bool_decide_eq_true_2 by done. cbn [andb]. split.
  - apply existsb_exists. exists e. split; [done|]. rewrite Hd. by destruct (entry_path e) as [| |[]]; rewrite ?Hpath.
  - apply andb_false_iff. right. apply negb_false_iff, existsb_exists. exists e. split; [done|].
    rewrite (deny_not_overridden p e Hd). apply bool_decide_eq_true in Hd as Hacc. rewrite Hacc. cbn.
    by destruct (entry_path e) as [| |[]]; rewrite ?Hpath.
Qed.

(** C7: A policy that denies reading something keeps every attempt, the retry
    included, in the sandbox: a sandbox is requested, and unless the executor has
    its own it is the platform's, whatever rules, requests and approvals say. *)
Theorem denied_reads_keep_sandbox pre a outcome post e
    (Hrun : (run os call w []).1 = pre ++ Ran a outcome :: post)
    (Hkind : kind (run_policy call) = Restricted)
    (He : e ∈ entries (run_policy call)) (Hdenial : real_denial e = true) :
  sandbox_requested a = true ∧
  (executor_managed_process_sandbox call = false →
     sandbox a = default NoSandbox (get_platform_sandbox os (negb (bool_decide (call_windows_sandbox_level call = LevelDisabled))))).
Proof.
  destruct run_good as [Hall _]. destruct (Hall _ _ _ _ Hrun) as [(requested & exe & ->) _ _ Hesc].
  destruct (real_denial_narrows _ _ Hkind He Hdenial) as [Hread Hwrite].
  assert (should_sandbox (run_permissions call) Auto (managed_network_active call) = true) as Hauto.
  { unfold should_sandbox, to_runtime_permissions. fold (run_policy call). unfold should_require_platform_sandbox.
    destruct (managed_network_active call); [done|]. destruct (is_enabled _); cbn; rewrite Hkind; [by rewrite Hwrite|done]. }
  unfold is_escalated in Hesc. cbn [sandbox_requested permissions enforce_managed_network attempt_with] in Hesc |- *.
  rewrite Hauto, andb_true_r in Hesc. destruct requested; [|by destruct (Hesc eq_refl) as (_ & ? & _); congruence].
  split; [done|]. intros Hexec. unfold attempt_with. cbn [sandbox]. rewrite Hexec. cbn. unfold select_initial.
  by replace (should_sandbox _ _ _) with true by by destruct (runtime call).
Qed.

(** [run] asks at most twice and runs the tool at most twice, and its answer
    is what the last attempt returned. *)
Theorem run_at_most_two_attempts :
  let '(tr, r) := run os call w [] in
  runs tr ≤ 2 ∧ asks tr ≤ 2 ∧
  match r with Ok (out, _) => ∃ a, last tr = Some (Ran a (Ok out)) | Err _ => True end.
Proof.
  pose proof run_good as (_ & Hr & Ha). pose proof (run_triple []) as Hrun. destruct (run os call w []) as [tr [[out d]|e]]; [|done].
  split_and!; [done..|]. destruct Hrun as [_ Hlast]; [|done]. split_and!; [apply all_runs_nil|done..].
Qed.
End Run.
End Orchestrator.

(** ** Cached approvals *)

Section Cache.
Context {K : Type} (to_json : K → option str).
Implicit Types (st : ApprovalStore) (keys : list K).

Lemma store_put_all keys st j :
  foldl (λ st key, store_put to_json st key ApprovedForSession) st keys !! j = Some ApprovedForSession ↔
  (∃ key, key ∈ keys ∧ to_json key = Some j) ∨ st !! j = Some ApprovedForSession.
Proof.
  revert st. induction keys as [|key keys IH]; intros st; cbn [foldl].
  { split; [by right|]. intros [(key & Hin%elem_of_nil & _)|?]; done. }
  rewrite IH. setoid_rewrite elem_of_cons. unfold store_put. destruct (to_json key) as [i|] eqn:Hkey.
  - unfold ApprovalStore in *. destruct (decide (i = j)) as [->|Hne]; [rewrite lookup_insert_eq|rewrite lookup_insert_ne by done]; naive_solver.
  - naive_solver.
Qed.

Definition covered st (key : K) : Prop := ∃ j, to_json key = Some j ∧ st !! j = Some ApprovedForSession.
Lemma store_get_covered st key :
  match store_get to_json st key with Some d => is_approved_for_session d | None => false end = true ↔ covered st key.
Proof.
  unfold store_get, covered. destruct (to_json key) as [j|]; [|by split; [|intros (? & ? & _)]].
  destruct (st !! j) as [[]|] eqn:Hj; cbn; split; try done; try (by intros (i & [= <-] & ?); congruence). by intros _; exists j.
Qed.

(** An approval for the session answers exactly the later requests it
    covers: after one was given for [keys], a request is answered without asking
    when each of its keys is one of [keys] or was approved for the session
    before, and only then; no other answer is remembered. *)
Theorem session_approval_is_remembered st at_store keys keys' fetched fetched' later
    (Hasked : (with_cached_approval to_json st keys fetched at_store).2 = true) (Hsome : keys' ≠ []) :
  let st' := (with_cached_approval to_json st keys fetched at_store).1.2 in
  (with_cached_approval to_json st' keys' fetched' later).2 = false ↔
  ∀ key', key' ∈ keys' →
    (fetched = ApprovedForSession ∧ ∃ key j, key ∈ keys ∧ to_json key = Some j ∧ to_json key' = Some j) ∨ covered at_store key'.
Proof.
  assert (∀ st', (with_cached_approval to_json st' keys' fetched' later).2 = false ↔ ∀ key', key' ∈ keys' → covered st' key') as Hcov.
  { intros st'. unfold with_cached_approval. destruct keys' as [|k0 ks0]; [done|]. destruct (forallb _ _) eqn:Hall; cbn [snd].
    - rewrite forallb_forall in Hall. split; [|done]. intros _ key' Hin%list_elem_of_In. by apply store_get_covered, Hall.
    - split; [done|]. intros Hc. apply not_true_iff_false in Hall. destruct Hall. apply forallb_forall.
      intros x Hin%list_elem_of_In. by apply store_get_covered, Hc. }
  cbv zeta. rewrite Hcov. clear Hcov Hsome. unfold with_cached_approval in *. destruct keys as [|k ks].
  { cbn [fst snd]. split; [by auto|]. intros Hc key' Hin. destruct (Hc key' Hin) as [(_ & ? & ? & Hn%elem_of_nil & _)|]; done. }
  destruct (forallb _ (k :: ks)); [done|]. cbn [fst snd].
  destruct (is_approved_for_session fetched) eqn:Hf.
  - assert (fetched = ApprovedForSession) as -> by by destruct fetched. unfold covered. setoid_rewrite store_put_all. naive_solver.
  - split; [by auto|]. intros Hc key' Hin. destruct (Hc key' Hin) as [[-> _]|]; done.
Qed.
End Cache.

(** ** Examples *)

Module MiniOrchestrator.
Import PathUriProofs.MiniUrl PermissionsProofs.MiniHost.

(** A profile that denies one directory, a patch that the sandbox refuses, and
    everybody approves. *)
Definition denying : PermissionProfile mini_url :=
  Managed (ManagedRestricted [literal "file:///" Read; literal "file:///home/me" Write; literal "file:///home/me/keys" Deny] None) NetRestricted.
Definition plain : PermissionProfile mini_url :=
  Managed (ManagedRestricted [literal "file:///" Read; literal "file:///home/me" Write] None) NetRestricted.
Definition call_with (profile : PermissionProfile mini_url) (strict : bool) : ToolCall :=
  mkCall OnRequest strict false UseDefault false profile profile (Some (NeedsApproval None None)) (Ok tt) ApplyPatchRuntime
    false false None LevelDisabled None.
Definition refused : ToolError := Rexux (Denied (lit "no") None).
Definition willing : World (U := mini_url) (Out := str) :=
  mkWorld (λ _, Ok tt) (λ _ _ _, Ok false) (λ _, false)
    (λ _ a, if sandbox_requested a then Err refused else Ok (lit "done")) (λ _ _, Ok tt).
Abbreviation trace_of c := ((run Linux c willing []).1).

Lemma every_attempt_is_justified_witness :
  is_escalated (retry_attempt Linux (call_with plain true)) = true ∧
  retry_approved (Out := str) (take 4 (trace_of (call_with plain true)) ++ [NetworkBegan false]).
Proof.
  split; [by vm_compute|].
  destruct (every_attempt_is_justified Linux (call_with plain true) willing
              (take 4 (trace_of (call_with plain true)) ++ [NetworkBegan false]) (retry_attempt Linux (call_with plain true)) (Ok (lit "done")) [])
    as (_ & _ & Hesc); [by vm_compute|].
  destruct Hesc as (_ & _ & [(? & ?)|[?|[_ Hretry]]]); [by vm_compute|done|done|]. by apply Hretry.
Defined.
Lemma denied_reads_keep_sandbox_witness : sandbox_requested (initial_attempt Linux (call_with denying false)) = true.
Proof.
  refine (proj1 (denied_reads_keep_sandbox Linux (call_with denying false) willing
           [Asked None None None (Ok tt); NetworkBegan false] _ (Err refused) []
           (literal "file:///home/me/keys" Deny) _ _ _ _)); [by vm_compute|done| |by vm_compute].
  right. right. by left.
Defined.
Lemma session_approval_is_remembered_witness :
  (with_cached_approval Some (with_cached_approval Some ∅ [lit "a"; lit "b"] ApprovedForSession ∅).1.2 [lit "b"] AbortReview ∅).2 = false.
Proof.
  apply (session_approval_is_remembered Some ∅ ∅ [lit "a"; lit "b"] [lit "b"] ApprovedForSession AbortReview ∅); [by vm_compute|done|].
  intros key ->%list_elem_of_singleton. left. split; [done|]. exists (lit "b"), (lit "b"). split_and!; [|done|done]. right. by left.
Defined.

(** On request, a patch the sandbox refused is tried again outside of it when it
    was approved; a command is not. *)
Lemma patch_is_retried_on_request :
  runs (trace_of (call_with plain false)) = 2 ∧ asks (trace_of (call_with plain false)) = 1 ∧
  runs (trace_of (mkCall OnRequest false false UseDefault false plain plain (Some (NeedsApproval None None)) (Ok tt)
                    UnifiedExecRuntime false false None LevelDisabled None)) = 1.
Proof. by vm_compute. Qed.
End MiniOrchestrator.
