(* ===== verification/ConfigToml.v ===== *)
(** * Merging configuration ([config/src/merge.rs])

    TOML values, the merge of a higher layer into a lower one, older names of
    keys ([key_aliases.rs]), the dotted overrides of the command line
    ([overrides.rs]) and the origin of each field ([fingerprint.rs]).  A table
    keeps the order of insertion, as the [preserve_order] feature of the toml
    crate does, and is a list of keys and values; [wf_toml] says that keys are
    not repeated, which the type of tables guarantees in Rust. *)
From stdpp Require Import strings gmap.
From S2P Require Import Prelude RustStr NetAddr NetDomain.

Unset Elimination Schemes.
Inductive TomlValue : Type :=
  | TString (s : str)
  | TInteger (z : Z)
  | TFloat (bits : Z)
  | TBoolean (b : bool)
  | TDatetime (text : str)
  | TArray (items : list TomlValue)
  | TTable (table : list (str * TomlValue)).
Set Elimination Schemes.
Abbreviation table := (list (str * TomlValue)).

Section Induction.
Context (P : TomlValue → Prop).
Context (Hstring : ∀ s, P (TString s)) (Hinteger : ∀ z, P (TInteger z)) (Hfloat : ∀ z, P (TFloat z))
  (Hboolean : ∀ b, P (TBoolean b)) (Hdatetime : ∀ s, P (TDatetime s))
  (Harray : ∀ items, Forall P items → P (TArray items))
  (Htable : ∀ t, Forall (λ kv, P (snd kv)) t → P (TTable t)).
Fixpoint TomlValue_ind (v : TomlValue) : P v :=
  match v with
  | TString s => Hstring s
  | TInteger z => Hinteger z
  | TFloat z => Hfloat z
  | TBoolean b => Hboolean b
  | TDatetime s => Hdatetime s
  | TArray items =>
      Harray items ((fix go (l : list TomlValue) : Forall P l :=
        match l with [] => Forall_nil_2 _ | x :: l' => Forall_cons_2 _ x l' (TomlValue_ind x) (go l') end) items)
  | TTable t =>
      Htable t ((fix go (l : table) : Forall (λ kv, P (snd kv)) l :=
        match l with [] => Forall_nil_2 _ | x :: l' => Forall_cons_2 _ x l' (TomlValue_ind (snd x)) (go l') end) t)
  end.
End Induction.

(** Nesting of tables and arrays. *)
Fixpoint toml_depth (v : TomlValue) : nat :=
  match v with
  | TArray items => S (foldr (λ x n, toml_depth x `max` n) 0 items)
  | TTable t => S (foldr (λ kv n, toml_depth (snd kv) `max` n) 0 t)
  | _ => 0
  end.
Fixpoint wf_toml (v : TomlValue) : Prop :=
  match v with
  | TArray items => foldr (λ x P, wf_toml x ∧ P) True items
  | TTable t => NoDup (fst <$> t) ∧ foldr (λ kv P, wf_toml (snd kv) ∧ P) True t
  | _ => True
  end.

(** ** Tables *)

Fixpoint map_get (k : str) (t : table) : option TomlValue :=
  match t with [] => None | (k', v) :: t' => if str_eqb k k' then Some v else map_get k t' end.
(** A new key goes to the end, an old one keeps its place. *)
Fixpoint map_insert (k : str) (v : TomlValue) (t : table) : table :=
  match t with
  | [] => [(k, v)]
  | (k', v') :: t' => if str_eqb k k' then (k', v) :: t' else (k', v') :: map_insert k v t'
  end.
Definition map_retain (f : str → bool) (t : table) : table := List.filter (λ kv, f (fst kv)) t.
Definition map_remove (k : str) (t : table) : table := map_retain (λ k', negb (str_eqb k k')) t.
Definition map_contains (k : str) (t : table) : bool := bool_decide (is_Some (map_get k t)).
Definition is_table (v : TomlValue) : bool := match v with TTable _ => true | _ => false end.

(** ** Older names of keys *)

Record ConfigKeyAlias : Type := mkAlias { table_path : list str; legacy_key : str; canonical_key : str }.
Definition CONFIG_KEY_ALIASES : list ConfigKeyAlias :=
  [mkAlias [lit "memories"] (lit "no_memories_if_mcp_or_web_search") (lit "disable_on_external_context");
   mkAlias [lit "agents"] (lit "max_threads") (lit "max_concurrent_threads_per_session")].
Definition normalize_alias (path : list str) (t : table) (alias : ConfigKeyAlias) : table :=
  if bool_decide (path = table_path alias) then
    match map_get (legacy_key alias) t with
    | Some value =>
        let t := map_remove (legacy_key alias) t in
        if map_contains (canonical_key alias) t then t else map_insert (canonical_key alias) value t
    | None => t
    end
  else t.
Definition normalize_key_aliases (path : list str) (t : table) : table := foldl (normalize_alias path) t CONFIG_KEY_ALIASES.
Fixpoint normalized_with_key_aliases (v : TomlValue) (path : list str) {struct v} : TomlValue :=
  match v with
  | TTable t =>
      let children := (fix go (t : table) : table :=
        match t with [] => [] | (k, c) :: t' => (k, normalized_with_key_aliases c (path ++ [k])) :: go t' end) t in
      TTable (normalize_key_aliases path (foldl (λ m '(k, c), map_insert k c m) [] children))
  | TArray items => TArray ((λ item, normalized_with_key_aliases item path) <$> items)
  | _ => v
  end.

(** ** Representations of the filters of the shell environment *)

Inductive FilterRepresentation : Type := Filters | Legacy.
Definition from_policy (policy : TomlValue) : option FilterRepresentation :=
  match policy with
  | TTable t =>
      if map_contains (lit "filters") t then Some Filters
      else if map_contains (lit "exclude") t || map_contains (lit "include_only") t then Some Legacy
      else None
  | _ => None
  end.
Definition from_path (path : list str) : option FilterRepresentation :=
  match path with
  | policy :: field :: _ =>
      if str_eqb policy (lit "shell_environment_policy") then
        if str_eqb field (lit "filters") then Some Filters
        else if str_eqb field (lit "exclude") || str_eqb field (lit "include_only") then Some Legacy else None
      else None
  | _ => None
  end.
Definition is_policy_path (path : list str) : bool := bool_decide (path = [lit "shell_environment_policy"]).
Definition from_edit (path : list str) (value : TomlValue) : option FilterRepresentation :=
  if is_policy_path path then from_policy value else from_path path.
Definition displaced_fields (r : FilterRepresentation) : list str :=
  match r with Filters => [lit "exclude"; lit "include_only"] | Legacy => [lit "filters"] end.
Definition replace_shell_environment_policy_filter_representation (base overlay : TomlValue) (path : list str) : TomlValue :=
  if negb (is_policy_path path) then base
  else match from_policy overlay, base with
       | Some r, TTable t => TTable (foldl (λ t field, map_remove field t) t (displaced_fields r))
       | _, _ => base
       end.

(** ** The merge *)

Definition is_structured_feature (features feature : str) : bool :=
  str_eqb features (lit "features") &&
  existsb (str_eqb feature) [lit "multi_agent_v2"; lit "network_proxy"; lit "sleep_tool"].
Definition is_structured_feature_path (path : list str) : bool :=
  match path with
  | [features; feature] => is_structured_feature features feature
  | [profiles; _; features; feature] => str_eqb profiles (lit "profiles") && is_structured_feature features feature
  | _ => false
  end.
Definition is_shell_environment_filters_path (path : list str) : bool :=
  bool_decide (path = [lit "shell_environment_policy"; lit "filters"]).
Definition is_permission_network_domains_path (path : list str) : bool :=
  match path with
  | [permissions; _; network; domains] =>
      str_eqb permissions (lit "permissions") && str_eqb network (lit "network") && str_eqb domains (lit "domains")
  | _ => false
  end.
Definition rename_keys (f : str → str) (t : table) : table := foldl (λ m '(k, v), map_insert (f k) v m) [] t.
Definition normalize_network_domain_keys (t : table) : table := rename_keys normalize_host t.

(** The lower case of a string by the tables of Unicode. *)
Class Unicode : Type := to_lowercase : str → str.
Definition eq_ignore_ascii_case (s t : str) : bool := str_eqb (to_ascii_lowercase s) (to_ascii_lowercase t).
(** The keys that bind the providers of credentials. *)
Definition credential_broker_provider_context_env_keys : list str := [lit "GH_HOST"; lit "OPENAI_BASE_URL"].

Section Merge.
Context {UC : Unicode} (cfg_windows : bool).

Definition normalize_case_insensitive_keys (t : table) : table := rename_keys to_lowercase t.
(** Windows has one variable for all spellings of its name. *)
Definition drop_other_spellings (base_table overlay_table : table) : table :=
  foldl (λ t key, map_retain (λ candidate, str_eqb candidate key || negb (eq_ignore_ascii_case candidate key)) t) base_table
    (List.filter (λ key, existsb (eq_ignore_ascii_case key) credential_broker_provider_context_env_keys) (fst <$> overlay_table)).
Definition prepare_tables (path : list str) (base_table overlay_table : table) : table * table :=
  let base_table := normalize_key_aliases path base_table in
  let overlay_table := normalize_key_aliases path overlay_table in
  let '(base_table, overlay_table) :=
    if is_permission_network_domains_path path
    then (normalize_network_domain_keys base_table, normalize_network_domain_keys overlay_table)
    else (base_table, overlay_table) in
  let '(base_table, overlay_table) :=
    if is_shell_environment_filters_path path
    then (normalize_case_insensitive_keys base_table, normalize_case_insensitive_keys overlay_table)
    else (base_table, overlay_table) in
  (if cfg_windows && bool_decide (path = [lit "shell_environment_policy"; lit "set"])
   then drop_other_spellings base_table overlay_table else base_table, overlay_table).

(** The fuel is the nesting of the overlay. *)
Fixpoint merge_toml_values_at_path (fuel : nat) (base overlay : TomlValue) (path : list str) : TomlValue :=
  let base := replace_shell_environment_policy_filter_representation base overlay path in
  match is_structured_feature_path path, base, overlay with
  | true, TTable t, TBoolean enabled => TTable (map_insert (lit "enabled") (TBoolean enabled) t)
  | structured, _, _ =>
      let base :=
        match base, overlay with
        | TBoolean enabled, TTable _ => if structured then TTable [(lit "enabled", TBoolean enabled)] else base
        | _, _ => base
        end in
      match base, overlay, fuel with
      | TTable base_table, TTable overlay_table, S fuel =>
          let '(base_table, overlay_table) := prepare_tables path base_table overlay_table in
          TTable (foldl (λ t '(key, value),
            match map_get key t with
            | Some existing => map_insert key (merge_toml_values_at_path fuel existing value (path ++ [key])) t
            | None => map_insert key (normalized_with_key_aliases value (path ++ [key])) t
            end) base_table overlay_table)
      | _, _, _ => normalized_with_key_aliases overlay path
      end
  end.
Definition merge_toml_values (base overlay : TomlValue) : TomlValue :=
  merge_toml_values_at_path (toml_depth overlay) base overlay [].

(** The filter of a pattern, ignoring case. *)
Definition shell_environment_filter_entry (root : TomlValue) (path : list str) : option (str * TomlValue) :=
  match path, root with
  | [policy; filters; pattern], TTable t =>
      if negb (str_eqb policy (lit "shell_environment_policy")) || negb (str_eqb filters (lit "filters")) then None
      else match map_get policy t with
           | Some (TTable p) =>
               match map_get filters p with
               | Some (TTable fs) => List.find (λ kv, str_eqb (to_lowercase (fst kv)) (to_lowercase pattern)) fs
               | _ => None
               end
           | _ => None
           end
  | _, _ => None
  end.

(** ** Overrides of the command line *)

Definition default_empty_table : TomlValue := TTable [].
Definition enabled_table (enabled : bool) : TomlValue := TTable [(lit "enabled", TBoolean enabled)].
Definition set_last (traversed : list str) (current : TomlValue) (segment : str) (value : TomlValue) : TomlValue :=
  match current with
  | TTable t =>
      match (if is_structured_feature_path traversed then map_get segment t else None), value with
      | Some (TTable feature), TBoolean enabled =>
          TTable (map_insert segment (TTable (map_insert (lit "enabled") (TBoolean enabled) feature)) t)
      | Some (TBoolean enabled), TTable _ => TTable (map_insert segment (merge_toml_values (enabled_table enabled) value) t)
      | Some (TTable feature), TTable _ => TTable (map_insert segment (merge_toml_values (TTable feature) value) t)
      | _, _ => TTable (map_insert segment value t)
      end
  | _ => TTable [(segment, value)]
  end.
Fixpoint apply_segments (traversed : list str) (current : TomlValue) (segment : str) (rest : list str) (value : TomlValue) : TomlValue :=
  let traversed := traversed ++ [segment] in
  match rest with
  | [] => set_last traversed current segment value
  | next :: rest =>
      match current with
      | TTable t =>
          let child := default default_empty_table (map_get segment t) in
          let child := match child with
                       | TBoolean enabled => if is_structured_feature_path traversed then enabled_table enabled else child
                       | _ => child
                       end in
          TTable (map_insert segment (apply_segments traversed child next rest value) t)
      | _ => TTable [(segment, apply_segments traversed default_empty_table next rest value)]
      end
  end.
Definition apply_toml_override (root : TomlValue) (path : str) (value : TomlValue) : TomlValue :=
  match split (chr ".") path with
  | [] => root
  | segment :: rest => apply_segments [] root segment rest value
  end.
Definition build_cli_overrides_layer (cli_overrides : list (str * TomlValue)) : TomlValue :=
  foldl (λ root '(path, value), apply_toml_override root path value) default_empty_table cli_overrides.
End Merge.

(** ** Origins *)

Section Origins.
Context {Meta : Type}.
Definition record_scalar (v : TomlValue) (meta : Meta) (path : list str) (origins : gmap str Meta) : gmap str Meta :=
  match path with
  | [] => origins
  | _ =>
      match v with
      | TBoolean _ =>
          if is_structured_feature_path path then
            let origins := if bool_decide (last path = Some (lit "network_proxy")) then <[join (lit ".") path := meta]> origins else origins in
            <[join (lit ".") (path ++ [lit "enabled"]) := meta]> origins
          else <[join (lit ".") path := meta]> origins
      | _ => <[join (lit ".") path := meta]> origins
      end
  end.
Fixpoint record_origins (v : TomlValue) (meta : Meta) (path : list str) (origins : gmap str Meta) {struct v} : gmap str Meta :=
  match v with
  | TTable t =>
      (fix go (t : table) (origins : gmap str Meta) :=
         match t with
         | [] => origins
         | (key, val) :: t' => go t' (record_origins val meta (path ++ [key]) origins)
         end) t origins
  | TArray items =>
      (fix go (idx : nat) (items : list TomlValue) (origins : gmap str Meta) :=
         match items with
         | [] => origins
         | item :: items' => go (S idx) items' (record_origins item meta (path ++ [fmt_nat idx]) origins)
         end) 0 items origins
  | _ => record_scalar v meta path origins
  end.
End Origins.

(** * Properties of the merge of configuration

    A value is observed by what it says about each path.  Up to the older names
    of keys and the two forms of a feature, a merged value says what the overlay
    says where it says something, and what the base says elsewhere. *)

(** ** Tables *)

Lemma str_eqb_false s t : str_eqb s t = false ↔ s ≠ t.
Proof. apply bool_decide_eq_false. Qed.

Lemma map_get_insert k k' v t : map_get k (map_insert k' v t) = if str_eqb k k' then Some v else map_get k t.
Proof.
  induction t as [|[k'' w] t IH]; cbn; [by destruct (str_eqb k k')|].
  destruct (str_eqb k' k'') eqn:E; cbn.
  - apply str_eqb_eq in E as ->. by destruct (str_eqb k k'').
  - rewrite IH. destruct (str_eqb k k'') eqn:E'; [|done]. apply str_eqb_eq in E' as ->.
    destruct (str_eqb k'' k') eqn:E''; [|done]. apply str_eqb_eq in E'' as ->. by rewrite str_eqb_refl in E.
Qed.
Lemma map_get_retain f k t : map_get k (map_retain f t) = if f k then map_get k t else None.
Proof.
  unfold map_retain. induction t as [|[k' v] t IH]; cbn; [by destruct (f k)|]. destruct (f k') eqn:Hf; cbn; rewrite IH;
    destruct (str_eqb k k') eqn:E; try done; apply str_eqb_eq in E as ->; by rewrite Hf.
Qed.
Lemma map_get_remove k k' t : map_get k (map_remove k' t) = if str_eqb k' k then None else map_get k t.
Proof. unfold map_remove. rewrite map_get_retain. by destruct (str_eqb k' k). Qed.
Lemma map_get_elem k t : is_Some (map_get k t) ↔ k ∈ fst <$> t.
Proof.
  induction t as [|[k' v] t IH]; cbn; [split; [by intros []|by intros ?%elem_of_nil]|].
  rewrite elem_of_cons. destruct (str_eqb k k') eqn:E; [apply str_eqb_eq in E; naive_solver|].
  apply str_eqb_false in E. rewrite IH. naive_solver.
Qed.
Lemma map_get_In k v t : map_get k t = Some v → (k, v) ∈ t.
Proof.
  induction t as [|[k' w] t IH]; cbn; [done|]. destruct (str_eqb k k') eqn:E; [|by right; apply IH].
  intros [= ->]. apply str_eqb_eq in E as ->. by left.
Qed.
Lemma map_get_NoDup k v t : NoDup (fst <$> t) → (k, v) ∈ t → map_get k t = Some v.
Proof.
  induction t as [|[k' w] t IH]; cbn; [by intros _ ?%elem_of_nil|]. rewrite NoDup_cons, elem_of_cons. intros [Hn Hd] [[= -> ->]|Hin].
  - by rewrite str_eqb_refl.
  - destruct (str_eqb k k') eqn:E; [|by apply IH]. apply str_eqb_eq in E as ->. destruct Hn. apply list_elem_of_fmap. by exists (k', v).
Qed.

Lemma map_insert_new k v t : map_get k t = None → map_insert k v t = t ++ [(k, v)].
Proof. induction t as [|[k' w] t IH]; cbn; [done|]. destruct (str_eqb k k'); [done|]. intros ?. by rewrite IH. Qed.
Lemma map_insert_keys k v t : fst <$> map_insert k v t = if map_contains k t then fst <$> t else (fst <$> t) ++ [k].
Proof.
  unfold map_contains. induction t as [|[k' w] t IH]; cbn; [done|]. destruct (str_eqb k k') eqn:E; cbn.
  - done.
  - rewrite IH. by case_bool_decide.
Qed.
Lemma map_insert_NoDup k v t : NoDup (fst <$> t) → NoDup (fst <$> map_insert k v t).
Proof.
  intros Ht. rewrite map_insert_keys. unfold map_contains. case_bool_decide as Hk; [done|].
  rewrite map_get_elem in Hk. apply NoDup_app. split_and!; [done| |apply NoDup_singleton]. by intros x Hx ->%list_elem_of_singleton.
Qed.
Lemma map_retain_sub f t : map_retain f t `sublist_of` t.
Proof.
  unfold map_retain. induction t as [|kv t IH]; cbn; [done|]. destruct (f (fst kv)); [by apply sublist_skip|by apply sublist_cons].
Qed.
Lemma map_retain_NoDup f t : NoDup (fst <$> t) → NoDup (fst <$> map_retain f t).
Proof. intros Ht. eapply sublist_NoDup; [done|]. apply fmap_sublist, map_retain_sub. Qed.

(** Inserting the entries of a table one by one. *)
Lemma insert_all_get t m k : NoDup (fst <$> t) →
  map_get k (foldl (λ m '(k, c), map_insert k c m) m t) = match map_get k t with Some v => Some v | None => map_get k m end.
Proof.
  revert m. induction t as [|[k' v] t IH]; intros m; cbn; [done|]. rewrite NoDup_cons. intros [Hk Ht]. rewrite IH, map_get_insert by done.
  destruct (str_eqb k k') eqn:E; [|done]. apply str_eqb_eq in E as ->.
  destruct (map_get k' t) as [w|] eqn:Hget; [|done]. destruct Hk. apply map_get_elem. by rewrite Hget.
Qed.
Lemma insert_all t m : NoDup (fst <$> m ++ t) → foldl (λ m '(k, c), map_insert k c m) m t = m ++ t.
Proof.
  revert m. induction t as [|[k v] t IH]; intros m Hd; cbn; [by rewrite app_nil_r|].
  rewrite map_insert_new, IH; rewrite <- ?app_assoc; [done|done|].
  apply eq_None_not_Some. intros Hk%map_get_elem. rewrite fmap_app in Hd. apply NoDup_app in Hd as (_ & Hd & _).
  apply (Hd k Hk). by left.
Qed.

(** ** Older names *)

(** The alias that applies to the table at a path. *)
Definition alias_of (path : list str) : option ConfigKeyAlias :=
  list_find (λ a, path = table_path a) CONFIG_KEY_ALIASES ≫= λ x, Some (snd x).
Lemma normalize_key_aliases_spec path t :
  normalize_key_aliases path t = match alias_of path with Some a => normalize_alias path t a | None => t end.
Proof.
  unfold normalize_key_aliases, alias_of. cbn [foldl CONFIG_KEY_ALIASES]. unfold normalize_alias at 1 2. cbn.
  destruct (decide (path = [lit "memories"])) as [->|Hm].
  - rewrite (bool_decide_eq_true_2 ([lit "memories"] = [lit "memories"])) by done.
    rewrite (bool_decide_eq_false_2 ([lit "memories"] = [lit "agents"])) by done. done.
  - rewrite (bool_decide_eq_false_2 (path = [lit "memories"])) by done.
    destruct (decide (path = [lit "agents"])) as [->|Ha]; [done|]. by rewrite bool_decide_eq_false_2.
Qed.
Lemma alias_of_Some path a : alias_of path = Some a →
  path = table_path a ∧ legacy_key a ≠ canonical_key a ∧ (path = [lit "memories"] ∨ path = [lit "agents"]).
Proof.
  unfold alias_of. cbn. destruct (decide (path = [lit "memories"])) as [->|Hm]; [by intros [= <-]; eauto|].
  destruct (decide (path = [lit "agents"])) as [->|Ha]; [by intros [= <-]; eauto|done].
Qed.

(** Looking up a key behind the alias. *)
Lemma map_get_alias path t k :
  map_get k (normalize_key_aliases path t) =
  match alias_of path with
  | Some a =>
      if str_eqb k (legacy_key a) then None
      else if str_eqb k (canonical_key a)
           then match map_get k t with Some v => Some v | None => map_get (legacy_key a) t end
           else map_get k t
  | None => map_get k t
  end.
Proof.
  rewrite normalize_key_aliases_spec. destruct (alias_of path) as [a|] eqn:Ha; [|done].
  apply alias_of_Some in Ha as (-> & Hne & _). unfold normalize_alias. rewrite bool_decide_eq_true_2 by done.
  destruct (str_eqb k (legacy_key a)) eqn:Ek.
  - apply str_eqb_eq in Ek as ->. destruct (map_get (legacy_key a) t) eqn:Hl; [|done].
    apply str_eqb_false in Hne. destruct (map_contains _ _); rewrite ?map_get_insert, ?Hne, map_get_remove; by rewrite str_eqb_refl.
  - assert (str_eqb (legacy_key a) k = false) as Ek' by (apply str_eqb_false; apply str_eqb_false in Ek; congruence).
    destruct (map_get (legacy_key a) t) as [v|] eqn:Hl; [|by destruct (str_eqb k (canonical_key a)), (map_get k t)].
    unfold map_contains. destruct (str_eqb k (canonical_key a)) eqn:Ec.
    + apply str_eqb_eq in Ec as ->. rewrite map_get_remove, Ek'.
      destruct (map_get (canonical_key a) t) eqn:Hc; cbn; rewrite ?map_get_insert, ?map_get_remove, ?Ek', ?str_eqb_refl; done.
    + case_bool_decide; rewrite ?map_get_insert, ?Ec, map_get_remove; by rewrite Ek'.
Qed.
Lemma alias_NoDup path t : NoDup (fst <$> t) → NoDup (fst <$> normalize_key_aliases path t).
Proof.
  intros Ht. rewrite normalize_key_aliases_spec. destruct (alias_of path) as [a|]; [|done]. unfold normalize_alias.
  case_bool_decide; [|done]. destruct (map_get _ t); [|done].
  assert (NoDup (fst <$> map_remove (legacy_key a) t)) by by apply map_retain_NoDup.
  destruct (map_contains _ _); [done|]. by apply map_insert_NoDup.
Qed.
(** The values of the table do not change, only their keys. *)
Lemma alias_Forall path t (P : TomlValue → Prop) :
  Forall (λ kv, P (snd kv)) t → Forall (λ kv, P (snd kv)) (normalize_key_aliases path t).
Proof.
  intros Ht. rewrite normalize_key_aliases_spec. destruct (alias_of path) as [a|]; [|done]. unfold normalize_alias.
  case_bool_decide; [|done]. destruct (map_get (legacy_key a) t) as [v|] eqn:Hv; [|done].
  apply map_get_In in Hv. rewrite Forall_forall in Ht. pose proof (Ht _ Hv) as HPv. cbn in HPv.
  assert (Forall (λ kv, P (snd kv)) (map_remove (legacy_key a) t)) as Hr.
  { apply Forall_forall. intros kv [Hin _]%list_elem_of_In%filter_In. by apply Ht, list_elem_of_In. }
  destruct (map_contains _ _); [done|]. clear -Hr HPv. induction (map_remove (legacy_key a) t) as [|[k w] l IH]; cbn; [by constructor|].
  apply Forall_cons in Hr as [? ?]. destruct (str_eqb _ k); constructor; auto.
Qed.

(** Without the older name nothing is left to do. *)
Lemma alias_id path t : (∀ a, alias_of path = Some a → map_get (legacy_key a) t = None) → normalize_key_aliases path t = t.
Proof.
  intros Hn. rewrite normalize_key_aliases_spec. destruct (alias_of path) as [a|]; [|done]. unfold normalize_alias.
  rewrite (Hn a eq_refl). by case_bool_decide.
Qed.
Lemma alias_idem path t : normalize_key_aliases path (normalize_key_aliases path t) = normalize_key_aliases path t.
Proof. apply alias_id. intros a Ha. rewrite map_get_alias, Ha. by rewrite str_eqb_refl. Qed.

(** Changing the values of a table by their paths. *)
Definition children (f : list str → TomlValue → TomlValue) (path : list str) (t : table) : table :=
  (λ '(k, c), (k, f (path ++ [k]) c)) <$> t.
Lemma children_keys f path t : fst <$> children f path t = fst <$> t.
Proof. unfold children. rewrite <- list_fmap_compose. apply list_fmap_ext. by intros i [k c] _. Qed.
Lemma map_get_children f path t k : map_get k (children f path t) = f (path ++ [k]) <$> map_get k t.
Proof.
  induction t as [|[k' c] t IH]; cbn; [done|]. destruct (str_eqb k k') eqn:E; [|done]. apply str_eqb_eq in E as ->. done.
Qed.
Lemma children_insert f path t k k' v : f (path ++ [k']) v = f (path ++ [k]) v →
  children f path (map_insert k v t) = map_insert k (f (path ++ [k']) v) (children f path t).
Proof.
  intros Hf. unfold children. induction t as [|[k'' c] t IH]; cbn; [by rewrite Hf|]. destruct (str_eqb k k'') eqn:E; cbn; [|by rewrite IH].
  apply str_eqb_eq in E as ->. by rewrite Hf.
Qed.
Lemma children_remove f path t k : children f path (map_remove k t) = map_remove k (children f path t).
Proof. unfold map_remove, map_retain, children. induction t as [|[k' c] t IH]; cbn; [done|]. destruct (str_eqb k k'); cbn; by rewrite IH. Qed.
Lemma alias_children f path t :
  (∀ a v, alias_of path = Some a → f (path ++ [legacy_key a]) v = f (path ++ [canonical_key a]) v) →
  normalize_key_aliases path (children f path t) = children f path (normalize_key_aliases path t).
Proof.
  intros Hf. rewrite !normalize_key_aliases_spec. destruct (alias_of path) as [a|] eqn:Ha; [|done].
  destruct (alias_of_Some _ _ Ha) as (Hpath & _ & _). unfold normalize_alias. rewrite <- Hpath, bool_decide_eq_true_2 by done.
  rewrite map_get_children. destruct (map_get (legacy_key a) t) as [v|]; cbn -[children]; [|done].
  rewrite <- children_remove. unfold map_contains. rewrite map_get_children.
  destruct (map_get (canonical_key a) (map_remove (legacy_key a) t)); cbn -[children]; [done|]. by rewrite (children_insert _ _ _ _ (legacy_key a)) by auto.
Qed.

(** ** Well-formed values *)

Lemma wf_table t : wf_toml (TTable t) ↔ NoDup (fst <$> t) ∧ Forall (λ kv, wf_toml (snd kv)) t.
Proof. cbn. f_equiv. induction t as [|[k v] t IH]; cbn; [done|]. rewrite Forall_cons. by f_equiv. Qed.
Lemma wf_array items : wf_toml (TArray items) ↔ Forall wf_toml items.
Proof. cbn. induction items as [|v items IH]; cbn; [done|]. rewrite Forall_cons. by f_equiv. Qed.
Lemma wf_get t k v : wf_toml (TTable t) → map_get k t = Some v → wf_toml v.
Proof. rewrite wf_table, Forall_forall. by intros [_ Ht] Hin%map_get_In%Ht. Qed.
Lemma wf_alias path t : wf_toml (TTable t) → wf_toml (TTable (normalize_key_aliases path t)).
Proof. rewrite !wf_table. intros [? ?]. split; [by apply alias_NoDup|by apply alias_Forall]. Qed.
Lemma wf_insert k v t : wf_toml (TTable t) → wf_toml v → wf_toml (TTable (map_insert k v t)).
Proof.
  rewrite !wf_table. intros [Hd Ht] Hv. split; [by apply map_insert_NoDup|]. clear Hd.
  induction Ht as [|[k' w] t ? ? IH]; cbn; [by constructor|]. destruct (str_eqb k k'); by constructor.
Qed.
Lemma wf_retain f t : wf_toml (TTable t) → wf_toml (TTable (map_retain f t)).
Proof.
  rewrite !wf_table. intros [Hd Ht]. split; [by apply map_retain_NoDup|]. rewrite Forall_forall in *.
  intros kv [Hin _]%list_elem_of_In%filter_In. by apply Ht, list_elem_of_In.
Qed.

Definition aliased (path : list str) (v : TomlValue) : TomlValue := normalized_with_key_aliases v path.
Lemma normalized_table path t : wf_toml (TTable t) →
  normalized_with_key_aliases (TTable t) path = TTable (normalize_key_aliases path (children aliased path t)).
Proof.
  rewrite wf_table. intros [Hd _]. cbn [normalized_with_key_aliases]. f_equal. f_equal.
  assert (∀ t, (fix go (t : table) : table :=
    match t with [] => [] | (k, c) :: t' => (k, normalized_with_key_aliases c (path ++ [k])) :: go t' end) t = children aliased path t) as ->.
  { clear. intros t. unfold children. induction t as [|[k c] t IH]; cbn; [done|]. by rewrite IH. }
  rewrite insert_all; [done|]. cbn. by rewrite children_keys.
Qed.
Lemma wf_normalized v path : wf_toml v → wf_toml (normalized_with_key_aliases v path).
Proof.
  revert path. induction v as [| | | | |items IH|t IH] using TomlValue_ind; intros path Hwf; try done.
  - cbn. apply wf_array in Hwf. apply (wf_array ((λ item, normalized_with_key_aliases item path) <$> items)).
    rewrite Forall_fmap, Forall_forall in *. intros item Hin. cbn. by apply IH, Hwf.
  - rewrite normalized_table by done. apply wf_alias. apply wf_table in Hwf as [Hd Hwf]. apply wf_table. rewrite children_keys. split; [done|].
    unfold children. rewrite Forall_fmap, Forall_forall in *. intros [k c] Hin. cbn. by apply (IH (k, c)), (Hwf (k, c)).
Qed.

(** ** Canonical values *)

(** The value with the older names replaced and a feature as a table. *)
Fixpoint canonical (path : list str) (v : TomlValue) {struct v} : TomlValue :=
  match v with
  | TTable t =>
      TTable (normalize_key_aliases path
        ((fix go (t : table) : table := match t with [] => [] | (k, c) :: t' => (k, canonical (path ++ [k]) c) :: go t' end) t))
  | TArray items => TArray ((λ item, normalized_with_key_aliases item path) <$> items)
  | TBoolean b => if is_structured_feature_path path then enabled_table b else v
  | _ => v
  end.
Lemma canonical_table path t : canonical path (TTable t) = TTable (normalize_key_aliases path (children canonical path t)).
Proof.
  cbn [canonical]. do 2 f_equal. unfold children. induction t as [|[k c] t IH]; cbn; [done|]. by rewrite IH.
Qed.

(** A path below which nothing is special. *)
Definition inert (path : list str) : Prop := ∀ rest, alias_of (path ++ rest) = None ∧ is_structured_feature_path (path ++ rest) = false.
Lemma inert_app path rest : inert path → inert (path ++ rest).
Proof. intros Hp r. rewrite <- app_assoc. apply Hp. Qed.
Lemma inert_below_alias path a k : alias_of path = Some a → inert (path ++ [k]).
Proof.
  intros (_ & _ & Hp)%alias_of_Some rest. split.
  - unfold alias_of. cbn. destruct Hp as [-> | ->]; by rewrite !decide_False.
  - destruct Hp as [-> | ->]; cbn; by destruct rest as [|? [|? [|]]].
Qed.
Lemma aliased_inert v path path' : inert path → inert path' → aliased path v = aliased path' v.
Proof.
  revert path path'. unfold aliased. induction v as [| | | | |items IH|t IH] using TomlValue_ind; intros path path' Hp Hp'; try done.
  - cbn. f_equal. apply list_fmap_ext. intros i x Hx%list_elem_of_lookup_2. rewrite Forall_forall in IH. by apply IH.
  - cbn [normalized_with_key_aliases]. rewrite !normalize_key_aliases_spec.
    destruct (Hp []) as [Ha _], (Hp' []) as [Ha' _]. rewrite app_nil_r in Ha, Ha'. rewrite Ha, Ha'. do 2 f_equal.
    induction IH as [|[k c] t Hc _ IHt]; [done|]. cbn in Hc. rewrite IHt. do 2 f_equal. apply Hc; by apply inert_app.
Qed.
Lemma canonical_inert v path path' : inert path → inert path' → canonical path v = canonical path' v.
Proof.
  revert path path'. induction v as [| | |b| |items IH|t IH] using TomlValue_ind; intros path path' Hp Hp'; try done.
  - cbn. destruct (Hp []) as [_ Hs], (Hp' []) as [_ Hs']. rewrite app_nil_r in Hs, Hs'. by rewrite Hs, Hs'.
  - cbn. f_equal. apply list_fmap_ext. intros i x _. by apply aliased_inert.
  - rewrite !canonical_table, !normalize_key_aliases_spec. destruct (Hp []) as [Ha _], (Hp' []) as [Ha' _]. rewrite app_nil_r in Ha, Ha'.
    rewrite Ha, Ha'. f_equal. unfold children. apply list_fmap_ext. intros i [k c] Hx%list_elem_of_lookup_2. cbn.
    rewrite Forall_forall in IH. f_equal. apply (IH _ Hx); by apply inert_app.
Qed.

(** The child of a canonical table is the canonical child. *)
Lemma canonical_children path t : canonical path (TTable t) = TTable (children canonical path (normalize_key_aliases path t)).
Proof.
  rewrite canonical_table, alias_children; [done|]. intros a v Ha. apply canonical_inert; by eapply inert_below_alias.
Qed.
Lemma aliased_normalized v path : wf_toml v → aliased path (aliased path v) = aliased path v.
Proof.
  revert path. induction v as [| | | | |items IH|t IH] using TomlValue_ind; intros path Hwf; try done; unfold aliased in *.
  - cbn. f_equal. rewrite <- list_fmap_compose. apply list_fmap_ext. intros i x Hx%list_elem_of_lookup_2. apply wf_array in Hwf.
    rewrite Forall_forall in IH, Hwf. by apply IH, Hwf.
  - pose proof (wf_normalized _ path Hwf) as Hwf'. rewrite normalized_table in Hwf' |- * by done. rewrite normalized_table by done.
    apply wf_table in Hwf as [_ Hwf]. f_equal.
    rewrite <- alias_children, alias_idem; [|intros a v Ha; apply aliased_inert; by eapply inert_below_alias].
    f_equal. unfold children. rewrite <- list_fmap_compose. apply list_fmap_ext. intros i [k c] Hx%list_elem_of_lookup_2. cbn.
    rewrite Forall_forall in IH, Hwf. f_equal. by apply (IH _ Hx), (Hwf _ Hx).
Qed.
Lemma canonical_normalized v path : wf_toml v → canonical path (normalized_with_key_aliases v path) = canonical path v.
Proof.
  revert path. induction v as [| | | | |items IH|t IH] using TomlValue_ind; intros path Hwf; try done.
  - cbn. f_equal. rewrite <- list_fmap_compose. apply list_fmap_ext. intros i x Hx%list_elem_of_lookup_2. apply wf_array in Hwf.
    rewrite Forall_forall in Hwf. by apply aliased_normalized, Hwf.
  - rewrite normalized_table, !canonical_table by done. apply wf_table in Hwf as [_ Hwf]. f_equal.
    rewrite <- (alias_children canonical), alias_idem; [|intros a v Ha; apply canonical_inert; by eapply inert_below_alias].
    f_equal. unfold children. rewrite <- list_fmap_compose. apply list_fmap_ext. intros i [k c] Hx%list_elem_of_lookup_2. cbn.
    rewrite Forall_forall in IH, Hwf. f_equal. by apply (IH _ Hx), (Hwf _ Hx).
Qed.

(** ** What a value says about a path *)

(** The value that is no table at a path. *)
Definition leaf (v : TomlValue) : option TomlValue := if is_table v then None else Some v.
Fixpoint leaf_at (v : TomlValue) (p : list str) : option TomlValue :=
  match p with
  | [] => leaf v
  | k :: p' => match v with TTable t => match map_get k t with Some c => leaf_at c p' | None => None end | _ => None end
  end.
(** [None] when the value says nothing about the path: a table on the way has no
    such key.  A table at the path, or another value before its end, says that
    there is no leaf. *)
Fixpoint says (v : TomlValue) (p : list str) : option (option TomlValue) :=
  match p with
  | [] => Some (leaf v)
  | k :: p' => match v with TTable t => match map_get k t with Some c => says c p' | None => None end | _ => Some None end
  end.
Lemma leaf_says v p : leaf_at v p = default None (says v p).
Proof. revert v. induction p as [|k p IH]; intros v; cbn; [done|]. destruct v; try done. destruct (map_get k table); [apply IH|done]. Qed.

(** A policy of the shell environment in one form of its filters takes away the
    fields of the other form from the layers below. *)
Definition displaced (path : list str) (o : TomlValue) (k : str) : bool :=
  is_policy_path path && match from_policy o with Some r => existsb (str_eqb k) (displaced_fields r) | None => false end.
Fixpoint displaces (path : list str) (o : TomlValue) (p : list str) : bool :=
  match p with
  | [] => false
  | k :: p' =>
      displaced path o k ||
      match o with
      | TTable t => match map_get k (normalize_key_aliases path t) with Some c => displaces (path ++ [k]) c p' | None => false end
      | _ => false
      end
  end.
(** A layer speaks about a path when its value says something, or takes it away. *)
Definition speaks (path : list str) (o : TomlValue) (p : list str) : option (option TomlValue) :=
  match says (canonical path o) p with
  | Some r => Some r
  | None => if displaces path o p then Some None else None
  end.
Lemma speaks_says path o p x : speaks path o p = Some (Some x) → says (canonical path o) p = Some (Some x).
Proof. unfold speaks. destruct (says (canonical path o) p); [done|]. by destruct (displaces path o p). Qed.
Lemma speaks_None path o p : speaks path o p = None → says (canonical path o) p = None.
Proof. unfold speaks. by destruct (says (canonical path o) p). Qed.

(** The tables whose keys are merged by their meaning: host names, patterns of
    environment variables and, on Windows, their names. *)
Definition ordinary (cfg_windows : bool) (path : list str) : bool :=
  negb (is_shell_environment_filters_path path) && negb (is_permission_network_domains_path path) &&
  negb (cfg_windows && bool_decide (path = [lit "shell_environment_policy"; lit "set"])).
(** No such table is on the way. *)
Fixpoint plain (cfg_windows : bool) (path p : list str) : bool :=
  match p with [] => true | k :: p' => ordinary cfg_windows path && plain cfg_windows (path ++ [k]) p' end.

Lemma feature_no_alias path : is_structured_feature_path path = true → alias_of path = None.
Proof.
  intros Hp. destruct (alias_of path) as [a|] eqn:Ha; [|done]. apply alias_of_Some in Ha as (_ & _ & [-> | ->]); done.
Qed.
Lemma feature_child path k : is_structured_feature_path path = true → is_structured_feature_path (path ++ [k]) = false.
Proof. by destruct path as [|? [|? [|? [|? [|? ?]]]]]. Qed.

Section Merge.
Context {UC : Unicode} (cfg_windows : bool).
Abbreviation merge_at := (merge_toml_values_at_path cfg_windows).

Lemma ordinary_prepare path t t' : ordinary cfg_windows path = true →
  prepare_tables cfg_windows path t t' = (normalize_key_aliases path t, normalize_key_aliases path t').
Proof.
  unfold ordinary, prepare_tables. rewrite !andb_true_iff, !negb_true_iff. by intros ((-> & ->) & ->).
Qed.

(** The loop over the overlay. *)
Lemma merge_loop_get f path k bt ot : NoDup (fst <$> ot) →
  map_get k (foldl (λ t '(key, value),
    match map_get key t with
    | Some existing => map_insert key (f existing value (path ++ [key])) t
    | None => map_insert key (normalized_with_key_aliases value (path ++ [key])) t
    end) bt ot) =
  match map_get k ot with
  | Some v => Some (match map_get k bt with Some e => f e v (path ++ [k]) | None => normalized_with_key_aliases v (path ++ [k]) end)
  | None => map_get k bt
  end.
Proof.
  revert bt. induction ot as [|[k' v] ot IH]; intros bt; cbn; [done|]. rewrite NoDup_cons. intros [Hk Hd]. rewrite IH by done. clear IH.
  destruct (str_eqb k k') eqn:E.
  - apply str_eqb_eq in E as ->. destruct (map_get k' ot) eqn:Hget; [destruct Hk; apply map_get_elem; by rewrite Hget|].
    destruct (map_get k' bt); rewrite map_get_insert; by rewrite str_eqb_refl.
  - destruct (map_get k' bt); rewrite map_get_insert, E; done.
Qed.

Lemma depth_get t k v : map_get k t = Some v → toml_depth v < toml_depth (TTable t).
Proof.
  intros Hin%map_get_In. cbn. apply Nat.lt_succ_r. induction t as [|kv t IH]; [by apply elem_of_nil in Hin|]. cbn.
  apply elem_of_cons in Hin as [<-|Hin]; cbn; [lia|]. specialize (IH Hin). lia.
Qed.
(** What a value says about a longer path. *)
Lemma says_table path t k p :
  says (canonical path (TTable t)) (k :: p) =
  match map_get k (normalize_key_aliases path t) with Some c => says (canonical (path ++ [k]) c) p | None => None end.
Proof. rewrite canonical_children. cbn [says leaf_at]. rewrite map_get_children. by destruct (map_get k _). Qed.
Lemma leaf_table path t k p :
  leaf_at (canonical path (TTable t)) (k :: p) =
  match map_get k (normalize_key_aliases path t) with Some c => leaf_at (canonical (path ++ [k]) c) p | None => None end.
Proof. rewrite canonical_children. cbn [says leaf_at]. rewrite map_get_children. by destruct (map_get k _). Qed.

Lemma policy_no_alias path : is_policy_path path = true → alias_of path = None.
Proof.
  intros ->%bool_decide_eq_true. destruct (alias_of _) as [a|] eqn:Ha; [|done]. by apply alias_of_Some in Ha as (_ & _ & [?|?]).
Qed.
Lemma map_get_removes fields t k :
  map_get k (foldl (λ t field, map_remove field t) t fields) = if existsb (str_eqb k) fields then None else map_get k t.
Proof.
  revert t. induction fields as [|f fields IH]; intros t; cbn; [done|]. rewrite IH, map_get_remove.
  assert (str_eqb f k = str_eqb k f) as -> by (apply eq_iff_eq_true; rewrite !str_eqb_eq; naive_solver).
  by destruct (str_eqb k f), (existsb (str_eqb k) fields).
Qed.
(** The base without the fields of the other form. *)
Lemma replaced_leaf path b o k p :
  leaf_at (canonical path (replace_shell_environment_policy_filter_representation b o path)) (k :: p) =
  if displaced path o k then None else leaf_at (canonical path b) (k :: p).
Proof.
  unfold replace_shell_environment_policy_filter_representation, displaced.
  destruct (is_policy_path path) eqn:Hp; cbn [negb andb]; [|done]. destruct (from_policy o) as [r|]; [|done].
  assert (is_structured_feature_path path = false) as Hs by by apply bool_decide_eq_true in Hp as ->.
  destruct b as [| | |e| |items|t]; try (by destruct (existsb _ _)); [cbn; rewrite Hs; by destruct (existsb _ _)|].
  rewrite !leaf_table, !normalize_key_aliases_spec, (policy_no_alias path), map_get_removes by done. by destruct (existsb _ _).
Qed.
(** What the overlay says, or takes away below [k]. *)
Definition speaks_below (path : list str) (o : TomlValue) (k : str) (p : list str) : option (option TomlValue) :=
  match says (canonical path o) (k :: p) with
  | Some r => Some r
  | None =>
      match o with
      | TTable t =>
          match map_get k (normalize_key_aliases path t) with
          | Some c => if displaces (path ++ [k]) c p then Some None else None
          | None => None
          end
      | _ => None
      end
  end.
Lemma speaks_below_table path t k p :
  speaks_below path (TTable t) k p =
  match map_get k (normalize_key_aliases path t) with Some c => speaks (path ++ [k]) c p | None => None end.
Proof. unfold speaks_below, speaks. rewrite says_table. by destruct (map_get k _). Qed.
Lemma speaks_cons path o k p :
  speaks path o (k :: p) = match speaks_below path o k p with Some r => Some r | None => if displaced path o k then Some None else None end.
Proof.
  unfold speaks, speaks_below. cbn [displaces]. destruct (says (canonical path o) (k :: p)); [done|].
  destruct o; try (by rewrite orb_false_r). destruct (map_get k _) as [c|]; [|by rewrite orb_false_r].
  by destruct (displaced path _ k), (displaces (path ++ [k]) c p).
Qed.

(** Two tables. *)
Lemma merge_tables_leaf n path bt ot k p :
  (∀ e v, map_get k (normalize_key_aliases path bt) = Some e → map_get k (normalize_key_aliases path ot) = Some v →
     leaf_at (canonical (path ++ [k]) (merge_at n e v (path ++ [k]))) p =
     match speaks (path ++ [k]) v p with Some r => r | None => leaf_at (canonical (path ++ [k]) e) p end) →
  wf_toml (TTable ot) →
  leaf_at (canonical path (TTable (foldl (λ t '(key, value),
    match map_get key t with
    | Some existing => map_insert key (merge_at n existing value (path ++ [key])) t
    | None => map_insert key (normalized_with_key_aliases value (path ++ [key])) t
    end) (normalize_key_aliases path bt) (normalize_key_aliases path ot)))) (k :: p) =
  match speaks_below path (TTable ot) k p with Some r => r | None => leaf_at (canonical path (TTable bt)) (k :: p) end.
Proof.
  intros IH Hwf. pose proof (wf_alias path _ Hwf) as Hwf'. pose proof (proj1 (wf_table _) Hwf') as [Hd _].
  rewrite speaks_below_table, !leaf_table.
  assert (∀ bt, (∀ a, alias_of path = Some a → map_get (legacy_key a) bt = None) →
    ∀ a, alias_of path = Some a → map_get (legacy_key a) (foldl (λ t '(key, value),
    match map_get key t with
    | Some existing => map_insert key (merge_at n existing value (path ++ [key])) t
    | None => map_insert key (normalized_with_key_aliases value (path ++ [key])) t
    end) bt (normalize_key_aliases path ot)) = None) as Hnone.
  { intros bt' Hbt a Ha. rewrite merge_loop_get, (map_get_alias _ ot), Ha, str_eqb_refl by done. by apply Hbt. }
  rewrite (alias_id _ (foldl _ _ _)); [|apply Hnone; intros a Ha; rewrite map_get_alias, Ha; by rewrite str_eqb_refl].
  rewrite merge_loop_get by done. destruct (map_get k (normalize_key_aliases path ot)) as [v|] eqn:Hv; [|done].
  assert (wf_toml v) as Hwv by by eapply wf_get.
  destruct (map_get k (normalize_key_aliases path bt)) as [e|]; [by apply IH|].
  rewrite canonical_normalized, leaf_says by done. unfold speaks. destruct (says _ p); [done|]. by destruct (displaces _ _ p).
Qed.

(** The head of a merged value. *)
Lemma merge_head n b o path : toml_depth o ≤ n → wf_toml o → leaf (canonical path (merge_at n b o path)) = leaf (canonical path o).
Proof.
  intros Hn Hwf.
  assert (leaf (canonical path (normalized_with_key_aliases o path)) = leaf (canonical path o)) as Hnorm by by rewrite canonical_normalized.
  destruct n as [|n]; cbn [merge_toml_values_at_path]; set (b' := replace_shell_environment_policy_filter_representation b o path); clearbody b';
    destruct (is_structured_feature_path path) eqn:Hs, b', o; try exact Hnorm; cbn [toml_depth] in Hn; try lia;
    try (destruct (prepare_tables _ _ _ _)); rewrite ?canonical_table; cbn; rewrite ?Hs; done.
Qed.

(** A feature switched on or off. *)
Lemma canonical_enabled path e : is_structured_feature_path path = true → canonical path (TTable [(lit "enabled", TBoolean e)]) = canonical path (TBoolean e).
Proof.
  intros Hs. rewrite canonical_children, normalize_key_aliases_spec, (feature_no_alias path) by done. cbn. rewrite Hs.
  by rewrite (feature_child path (lit "enabled") Hs).
Qed.
Lemma merge_bool_leaf path t e k p : is_structured_feature_path path = true →
  leaf_at (canonical path (TTable (map_insert (lit "enabled") (TBoolean e) t))) (k :: p) =
  match says (canonical path (TBoolean e)) (k :: p) with Some r => r | None => leaf_at (canonical path (TTable t)) (k :: p) end.
Proof.
  intros Hs. rewrite !leaf_table, !normalize_key_aliases_spec, (feature_no_alias path), map_get_insert by done.
  cbn [canonical]. rewrite Hs. cbn. destruct (str_eqb k _) eqn:Ek; [|done]. apply str_eqb_eq in Ek as ->.
  destruct p; cbn; rewrite ?(feature_child path _ Hs); done.
Qed.

Lemma wf_entries t P : wf_toml (TTable t) → (∀ k v, wf_toml v → P (k, v)) → Forall P t.
Proof. rewrite wf_table. intros [_ Ht] HP. eapply Forall_impl; [exact Ht|]. intros [k v]. apply HP. Qed.
Lemma wf_foldl {A} (f : table → A → table) (l : list A) t :
  wf_toml (TTable t) → Forall (λ x, ∀ t, wf_toml (TTable t) → wf_toml (TTable (f t x))) l → wf_toml (TTable (foldl f t l)).
Proof. intros Ht Hl. revert t Ht. induction Hl as [|x l Hx _ IH]; intros t Ht; cbn; [done|]. by apply IH, Hx. Qed.
Lemma wf_replaced b o path : wf_toml b → wf_toml (replace_shell_environment_policy_filter_representation b o path).
Proof.
  intros Hb. unfold replace_shell_environment_policy_filter_representation. destruct (negb _); [done|].
  destruct (from_policy o) as [r|]; [|done]. destruct b; try done. apply wf_foldl; [done|]. apply Forall_forall.
  intros key _ m Hm. by apply wf_retain.
Qed.

(** The overlay has the last word, and only where it speaks. *)
Lemma merge_leaf n : ∀ b o path p, toml_depth o ≤ n → wf_toml b → wf_toml o → plain cfg_windows path p = true →
  leaf_at (canonical path (merge_at n b o path)) p =
  match speaks path o p with Some r => r | None => leaf_at (canonical path b) p end.
Proof.
  induction n as [n IH] using lt_wf_ind. intros b0 o path [|k p] Hn Hb Ho Hplain; [by apply merge_head|].
  cbn [plain] in Hplain. apply andb_true_iff in Hplain as [Hord Hplain].
  set (b := replace_shell_environment_policy_filter_representation b0 o path).
  transitivity (match speaks_below path o k p with Some r => r | None => leaf_at (canonical path b) (k :: p) end);
    [|unfold b; rewrite replaced_leaf, speaks_cons; by destruct (speaks_below path o k p), (displaced path o k)].
  assert (wf_toml b) as Hwb by by apply wf_replaced. clear Hb. rename Hwb into Hb.
  assert (Hkeep : ∀ bt, wf_toml (TTable bt) → ∀ ot, o = TTable ot → ∀ n', n = S n' →
    leaf_at (canonical path (TTable (foldl (λ t '(key, value),
      match map_get key t with
      | Some existing => map_insert key (merge_at n' existing value (path ++ [key])) t
      | None => map_insert key (normalized_with_key_aliases value (path ++ [key])) t
      end) (normalize_key_aliases path bt) (normalize_key_aliases path ot)))) (k :: p) =
    match speaks_below path (TTable ot) k p with Some r => r | None => leaf_at (canonical path (TTable bt)) (k :: p) end).
  { intros bt Hbt ot -> n' ->. apply merge_tables_leaf; [|done]. intros e v He Hv. apply IH; [lia| | | |done].
    - rewrite map_get_alias in Hv. assert (∃ k', map_get k' ot = Some v) as [k' Hk'].
      { destruct (alias_of path); [|by eauto]. repeat case_match; simplify_eq; eauto. }
      apply depth_get in Hk'. lia.
    - eapply wf_get; [|done]. by apply wf_alias.
    - eapply wf_get; [|done]. by apply wf_alias. }
  assert (Hreplaced : (is_table o = false → is_structured_feature_path path = false ∨ ∀ e, o ≠ TBoolean e) →
    (is_table o = true → is_table b = false ∧ (is_structured_feature_path path = false ∨ ∀ e, b ≠ TBoolean e)) →
    leaf_at (canonical path (normalized_with_key_aliases o path)) (k :: p) =
    match speaks_below path o k p with Some r => r | None => leaf_at (canonical path b) (k :: p) end).
  { intros Hleaf Htab. rewrite canonical_normalized, leaf_says by done. unfold speaks_below.
    destruct (says (canonical path o) (k :: p)) eqn:Hsays; [done|]. cbn [default].
    destruct (is_table o) eqn:Hto.
    - destruct (Htab eq_refl) as [Htb Hb']. assert (leaf_at (canonical path b) (k :: p) = None) as ->.
      { destruct b as [| | |e| | |]; try done. cbn. destruct Hb' as [-> |Hb']; [done|]. by destruct (Hb' e). }
      destruct o; try done. destruct (map_get k _) as [c|]; [|done]. by destruct (displaces (path ++ [k]) c p).
    - exfalso. destruct o as [| | |e| | |]; try done. cbn in Hsays. destruct (Hleaf eq_refl) as [Hs|Hs]; [by rewrite Hs in Hsays|]. by destruct (Hs e). }
  assert (Hfeature : ∀ e, is_structured_feature_path path = true → o = TBoolean e → is_table b = false →
    leaf_at (canonical path (normalized_with_key_aliases o path)) (k :: p) =
    match speaks_below path o k p with Some r => r | None => leaf_at (canonical path b) (k :: p) end).
  { intros e Hs -> Hb'. cbn [normalized_with_key_aliases]. rewrite leaf_says. unfold speaks_below. cbn [canonical]. rewrite Hs.
    destruct (says (enabled_table e) (k :: p)) eqn:Hsays; [done|]. cbn in Hsays.
    destruct b; try done. cbn. rewrite Hs. cbn. by destruct (str_eqb k _); [destruct p|]. }
  assert (Hswitch : ∀ t e, is_structured_feature_path path = true →
    leaf_at (canonical path (TTable (map_insert (lit "enabled") (TBoolean e) t))) (k :: p) =
    match speaks_below path (TBoolean e) k p with Some r => r | None => leaf_at (canonical path (TTable t)) (k :: p) end).
  { intros t e Hs. rewrite merge_bool_leaf by done. unfold speaks_below. by destruct (says _ (k :: p)). }
  destruct n as [|n]; cbn [merge_toml_values_at_path]; fold b; clearbody b.
  - destruct o; [..|cbn in Hn; lia]; destruct (is_structured_feature_path path) eqn:Hs, b; try (apply Hreplaced; cbn; by eauto);
      try (by eapply Hfeature). by apply Hswitch.
  - destruct (is_structured_feature_path path) eqn:Hs, b, o; rewrite ?(ordinary_prepare path _ _ Hord);
      first [apply Hreplaced; cbn; by eauto | by eapply Hfeature | by eapply Hkeep | by apply Hswitch | idtac].
    rewrite (Hkeep [(lit "enabled", TBoolean b)]) by first [done|cbn; split; [apply NoDup_singleton|done]]. by rewrite canonical_enabled.
Qed.

(** ** Merging keeps tables well formed *)

Lemma wf_rename f t : wf_toml (TTable t) → wf_toml (TTable (rename_keys f t)).
Proof.
  intros Ht. apply wf_foldl; [cbn; split; [constructor|done]|]. apply wf_entries; [done|]. intros k v Hv m Hm. by apply wf_insert.
Qed.
Lemma wf_prepare path bt ot : wf_toml (TTable bt) → wf_toml (TTable ot) →
  wf_toml (TTable (prepare_tables cfg_windows path bt ot).1) ∧ wf_toml (TTable (prepare_tables cfg_windows path bt ot).2).
Proof.
  intros Hb%(wf_alias path) Ho%(wf_alias path). unfold prepare_tables.
  destruct (is_permission_network_domains_path path), (is_shell_environment_filters_path path), (cfg_windows && _);
    split; cbn [fst snd]; repeat apply wf_rename; try done;
    (apply wf_foldl; [by repeat apply wf_rename|]); apply Forall_forall; intros key _ m Hm; by apply wf_retain.
Qed.
Lemma wf_merge n : ∀ b o path, wf_toml b → wf_toml o → wf_toml (merge_at n b o path).
Proof.
  induction n as [n IH] using lt_wf_ind. intros b o path Hb Ho. pose proof (wf_normalized o path Ho) as Hnorm.
  assert (∀ bt ot n', wf_toml (TTable bt) → wf_toml (TTable ot) → n = S n' →
    wf_toml (let '(bt, ot) := prepare_tables cfg_windows path bt ot in
      TTable (foldl (λ t '(key, value),
      match map_get key t with
      | Some existing => map_insert key (merge_at n' existing value (path ++ [key])) t
      | None => map_insert key (normalized_with_key_aliases value (path ++ [key])) t
      end) bt ot))) as Htables.
  { intros bt ot n' Hbt Hot ->. pose proof (wf_prepare path bt ot Hbt Hot) as [Hb' Ho']. destruct (prepare_tables _ _ _ _) as [bt' ot'].
    apply wf_foldl; [done|]. apply wf_entries; [done|]. intros k v Hv m Hm. destruct (map_get k m) as [e|] eqn:He; apply wf_insert; try done.
    - apply IH; [lia| |done]. by eapply wf_get.
    - by apply wf_normalized. }
  assert (wf_toml (replace_shell_environment_policy_filter_representation b o path)) as Hb' by by apply wf_replaced.
  destruct n as [|n]; cbn [merge_toml_values_at_path]; destruct (is_structured_feature_path path);
    destruct (replace_shell_environment_policy_filter_representation b o path) eqn:Hr, o; try exact Hnorm; try (by apply Htables); try by apply wf_insert.
  apply Htables; [|done|done]. cbn. split; [apply NoDup_singleton|done].
Qed.
End Merge.
