(* ===== verification/ConfigLayers.v ===== *)
(** * Configuration layers ([config/src/state.rs])

    The layers of the configuration with their sources ([config_layer_source.rs]),
    the stack of them and what it amounts to; the check of the filters of the
    shell environment in a layer ([shell_environment_policy.rs]); and values
    that requirements constrain ([constraint.rs]).  Requirements are data the
    stack only carries, and a version is the hash of a layer. *)
From stdpp Require Import strings gmap.
From S2P Require Import Prelude RustStr ConfigToml.

(** Absolute paths. *)
Class ConfigPaths : Type := {
  cpath : Type;
  #[global] cpath_eq_dec :: EqDecision cpath;
  cparent : cpath → option cpath;
  cancestors : cpath → list cpath;
  cdisplay : cpath → str;
}.
(** What serde and the hash of [version_for_toml] give. *)
Class TomlCrates : Type := {
  decode_strings : TomlValue → option (list str);
  (** a [BTreeMap] of patterns; [true] includes *)
  decode_filters : TomlValue → option (list (str * bool));
  version_for_toml : TomlValue → str;
}.

(** ** Filters of the shell environment *)

Inductive FilterConfigError : Type :=
  | Malformed
  | MixedFilters
  | DuplicateFilter (pattern : str).

Section Filters.
Context {TC : TomlCrates} {UC : Unicode}.

Record ShellEnvironmentPolicyFilters : Type := mkFilters {
  exclude_patterns : option (list str);
  include_only_patterns : option (list str);
  filters : option (list (str * bool));
}.
(** A field that is absent is [None], one that does not decode an error. *)
Definition decode_field {A} (decode : TomlValue → option A) (key : str) (t : table) : result FilterConfigError (option A) :=
  match map_get key t with
  | None => Ok None
  | Some v => match decode v with Some a => Ok (Some a) | None => Err Malformed end
  end.
Fixpoint first_duplicate (seen : gset str) (patterns : list str) : option str :=
  match patterns with
  | [] => None
  | p :: patterns' => if bool_decide (to_lowercase p ∈ seen) then Some p else first_duplicate ({[to_lowercase p]} ∪ seen) patterns'
  end.
Definition decode_shell_environment_filters (t : table) : result FilterConfigError ShellEnvironmentPolicyFilters :=
  let? exclude := decode_field decode_strings (lit "exclude") t in
  let? include_only := decode_field decode_strings (lit "include_only") t in
  let? filters := decode_field decode_filters (lit "filters") t in
  if bool_decide (is_Some filters) && (bool_decide (is_Some exclude) || bool_decide (is_Some include_only)) then Err MixedFilters
  else match first_duplicate ∅ (fst <$> default [] filters) with
       | Some p => Err (DuplicateFilter p)
       | None => Ok (mkFilters exclude include_only filters)
       end.
Definition validate_shell_environment_policy_filter_config (value : TomlValue) : result FilterConfigError unit :=
  match value with
  | TTable t =>
      match map_get (lit "shell_environment_policy") t with
      | Some (TTable policy) => let? _ := decode_shell_environment_filters policy in Ok tt
      | _ => Ok tt
      end
  | _ => Err Malformed
  end.
End Filters.

(** ** Layers *)

Section Layers.
Context {CP : ConfigPaths} {TC : TomlCrates} {UC : Unicode} (cfg_windows : bool).

Inductive ConfigLayerSource : Type :=
  | PackagedDefaults (file : cpath)
  | Mdm (domain key : str)
  | System (file : cpath)
  | EnterpriseManaged (id name : str)
  | User (file : cpath) (profile : option str)
  | Project (dot_rexux_folder : cpath)
  | SessionFlags
  | LegacyManagedConfigTomlFromFile (file : cpath)
  | LegacyManagedConfigTomlFromMdm.
Definition precedence (s : ConfigLayerSource) : Z :=
  match s with
  | PackagedDefaults _ => -10
  | Mdm _ _ => 0
  | System _ => 10
  | EnterpriseManaged _ _ => 15
  | User _ profile => match profile with Some _ => 21 | None => 20 end
  | Project _ => 25
  | SessionFlags => 30
  | LegacyManagedConfigTomlFromFile _ => 40
  | LegacyManagedConfigTomlFromMdm => 50
  end.
Definition format_config_layer_source (s : ConfigLayerSource) (config_toml_file : str) : str :=
  match s with
  | PackagedDefaults file => lit "packaged defaults (" ++ cdisplay file ++ lit ")"
  | Mdm domain key => lit "MDM (" ++ domain ++ lit ":" ++ key ++ lit ")"
  | System file => lit "system (" ++ cdisplay file ++ lit ")"
  | EnterpriseManaged id name => lit "enterprise-managed (" ++ name ++ lit ", " ++ id ++ lit ")"
  | User file _ => lit "user (" ++ cdisplay file ++ lit ")"
  | Project folder => lit "project (" ++ cdisplay folder ++ lit "/" ++ config_toml_file ++ lit ")"
  | SessionFlags => lit "session-flags"
  | LegacyManagedConfigTomlFromFile file => lit "legacy managed_config.toml (" ++ cdisplay file ++ lit ")"
  | LegacyManagedConfigTomlFromMdm => lit "legacy managed_config.toml (MDM)"
  end.

Record ConfigLayerMetadata : Type := mkMetadata { meta_name : ConfigLayerSource; meta_version : str }.
Record ConfigLayerEntry : Type := mkLayer {
  name : ConfigLayerSource;
  config : TomlValue;
  version : str;
  disabled_reason : option str;
  raw_toml : option (str * cpath);
  hooks_config_folder_override : option cpath;
}.
Definition new_layer (n : ConfigLayerSource) (c : TomlValue) : ConfigLayerEntry := mkLayer n c (version_for_toml c) None None None.
Definition new_with_raw_toml (n : ConfigLayerSource) (c : TomlValue) (raw : str) (base_dir : cpath) : ConfigLayerEntry :=
  mkLayer n c (version_for_toml c) None (Some (raw, base_dir)) None.
Definition new_disabled (n : ConfigLayerSource) (c : TomlValue) (reason : str) : ConfigLayerEntry :=
  mkLayer n c (version_for_toml c) (Some reason) None None.
Definition is_disabled (l : ConfigLayerEntry) : bool := bool_decide (is_Some (disabled_reason l)).
Definition metadata (l : ConfigLayerEntry) : ConfigLayerMetadata := mkMetadata (name l) (version l).
Definition config_folder (l : ConfigLayerEntry) : option cpath :=
  match name l with
  | System file | User file _ => cparent file
  | Project folder => Some folder
  | _ => None
  end.
Definition hooks_config_folder (l : ConfigLayerEntry) : option cpath :=
  match hooks_config_folder_override l with Some f => Some f | None => config_folder l end.
Definition is_user (l : ConfigLayerEntry) : bool := match name l with User _ _ => true | _ => false end.
Definition is_user_file (file : cpath) (l : ConfigLayerEntry) : bool :=
  match name l with User f _ => bool_decide (f = file) | _ => false end.

(** ** Stacks *)

Inductive StackError : Type :=
  | InvalidShellEnvironment (layer : str) (e : FilterConfigError)
  | WrongPrecedenceOrder
  | ProjectWithoutParent
  | WrongProjectOrder.

Fixpoint validate_enabled_config_layers (layers : list ConfigLayerEntry) : result StackError unit :=
  match layers with
  | [] => Ok tt
  | l :: layers' =>
      if is_disabled l then validate_enabled_config_layers layers'
      else match validate_shell_environment_policy_filter_config (config l) with
           | Err e => Err (InvalidShellEnvironment (format_config_layer_source (name l) (lit "config.toml")) e)
           | Ok _ => validate_enabled_config_layers layers'
           end
  end.
Fixpoint is_sorted (layers : list ConfigLayerEntry) : bool :=
  match layers with
  | l :: (l' :: _) as layers' => (precedence (name l) <=? precedence (name l'))%Z && is_sorted layers'
  | _ => true
  end.
Fixpoint verify_project_order (previous : option cpath) (layers : list ConfigLayerEntry) : result StackError unit :=
  match layers with
  | [] => Ok tt
  | l :: layers' =>
      match name l with
      | Project current =>
          match previous with
          | Some prev =>
              match cparent prev with
              | None => Err ProjectWithoutParent
              | Some parent =>
                  if bool_decide (prev = current) || negb (bool_decide (parent ∈ cancestors current)) then Err WrongProjectOrder
                  else verify_project_order (Some current) layers'
              end
          | None => verify_project_order (Some current) layers'
          end
      | _ => verify_project_order previous layers'
      end
  end.
Definition verify_layer_ordering (layers : list ConfigLayerEntry) : result StackError unit :=
  if negb (is_sorted layers) then Err WrongPrecedenceOrder else verify_project_order None layers.

Context {Req ReqToml : Type}.
Record ConfigLayerStack : Type := mkStack {
  layers : list ConfigLayerEntry;
  requirements : Req;
  requirements_toml : ReqToml;
  ignore_user_and_project_exec_policy_rules : bool;
  startup_warnings : option (list str);
}.
Definition new_stack (ls : list ConfigLayerEntry) (r : Req) (rt : ReqToml) : result StackError ConfigLayerStack :=
  let? _ := validate_enabled_config_layers ls in
  let? _ := verify_layer_ordering ls in
  Ok (mkStack ls r rt false None).
Definition with_layers (s : ConfigLayerStack) (ls : list ConfigLayerEntry) : ConfigLayerStack :=
  mkStack ls (requirements s) (requirements_toml s) (ignore_user_and_project_exec_policy_rules s) (startup_warnings s).
Definition with_user_and_project_exec_policy_rules_ignored (s : ConfigLayerStack) (ignore : bool) : ConfigLayerStack :=
  mkStack (layers s) (requirements s) (requirements_toml s) ignore (startup_warnings s).
Definition with_startup_warnings (s : ConfigLayerStack) (warnings : list str) : ConfigLayerStack :=
  mkStack (layers s) (requirements s) (requirements_toml s) (ignore_user_and_project_exec_policy_rules s) (Some warnings).

Definition all_layers_low_to_high (s : ConfigLayerStack) : list ConfigLayerEntry := layers s.
Definition layers_low_to_high (s : ConfigLayerStack) : list ConfigLayerEntry :=
  List.filter (λ l, negb (is_disabled l)) (all_layers_low_to_high s).
Definition layers_high_to_low (s : ConfigLayerStack) : list ConfigLayerEntry := rev (layers_low_to_high s).

Definition get_active_user_layer (s : ConfigLayerStack) : option ConfigLayerEntry := List.find is_user (rev (layers s)).
Definition get_user_config_file (s : ConfigLayerStack) : option cpath :=
  match get_active_user_layer s with Some l => match name l with User file _ => Some file | _ => None end | None => None end.
Definition merge_layers (ls : list ConfigLayerEntry) : TomlValue :=
  foldl (λ merged l, merge_toml_values cfg_windows merged (config l)) (TTable []) ls.
Definition effective_user_config (s : ConfigLayerStack) : option TomlValue :=
  match List.filter is_user (layers_low_to_high s) with [] => None | ls => Some (merge_layers ls) end.
Definition effective_config (s : ConfigLayerStack) : TomlValue := merge_layers (layers_low_to_high s).
Definition origins (s : ConfigLayerStack) : gmap str ConfigLayerMetadata :=
  foldl (λ o l, record_origins (normalized_with_key_aliases (config l) []) (metadata l) [] o) ∅ (layers_low_to_high s).

(** [position] and [insert]: before the first layer of a higher precedence. *)
Fixpoint insert_layer (l : ConfigLayerEntry) (ls : list ConfigLayerEntry) : list ConfigLayerEntry :=
  match ls with
  | [] => [l]
  | l' :: ls' => if (precedence (name l) <? precedence (name l'))%Z then l :: ls else l' :: insert_layer l ls'
  end.
Fixpoint remove_first (f : ConfigLayerEntry → bool) (ls : list ConfigLayerEntry) : list ConfigLayerEntry :=
  match ls with [] => [] | l :: ls' => if f l then ls' else l :: remove_first f ls' end.
(** [ProfileV2Name::from_str]. *)
Definition is_ascii_alphanumeric (c : char) : bool :=
  is_ascii_digit c || ((65 <=? c) && (c <=? 90))%N || ((97 <=? c) && (c <=? 122))%N.
Definition parse_profile_name (value : str) : option str :=
  if str_eqb value [] || negb (forallb (λ c, is_ascii_alphanumeric c || (c =? chr "_")%N || (c =? chr "-")%N) value) then None
  else Some value.
Definition with_user_config_profile (s : ConfigLayerStack) (config_toml : cpath) (profile : option str) (user_config : TomlValue) :
    result StackError ConfigLayerStack :=
  let user_layer := new_layer (User config_toml profile) user_config in
  let? _ := validate_enabled_config_layers [user_layer] in
  Ok (with_layers s (insert_layer user_layer (remove_first (is_user_file config_toml) (layers s)))).
Definition find_profile (s : ConfigLayerStack) (config_toml : cpath) : option str :=
  match list_find (λ l, is_user_file config_toml l = true ∧
      is_Some (match name l with User _ (Some profile) => parse_profile_name profile | _ => None end)) (layers s) with
  | Some (_, l) => match name l with User _ (Some profile) => parse_profile_name profile | _ => None end
  | None => None
  end.
Definition with_user_config (s : ConfigLayerStack) (config_toml : cpath) (user_config : TomlValue) : result StackError ConfigLayerStack :=
  with_user_config_profile s config_toml (find_profile s config_toml) user_config.
Definition with_user_layer_from (s other : ConfigLayerStack) : ConfigLayerStack :=
  with_layers s (foldl (λ ls l, insert_layer l ls) (List.filter (λ l, negb (is_user l)) (layers s)) (List.filter is_user (layers other))).
End Layers.

(** ** Constrained values *)

(** The errors are those of the validators; the text of a value is by [Debug]. *)
Record Constrained (T E : Type) : Type := mkConstrained {
  constrained_value : T;
  validator : T → result E unit;
  normalizer : option (T → T);
}.
Arguments mkConstrained {T E}.
Arguments constrained_value {T E}.
Arguments validator {T E}.
Arguments normalizer {T E}.
Section Constrained.
Context {T E : Type} `{!EqDecision T}.
Implicit Types (c : Constrained T E) (v : T → result E unit).
Definition new_constrained (initial_value : T) v : result E (Constrained T E) :=
  let? _ := v initial_value in Ok (mkConstrained initial_value v None).
Definition normalized (initial_value : T) (n : T → T) : result E (Constrained T E) :=
  Ok (mkConstrained (n initial_value) (λ _, Ok tt) (Some n)).
Definition allow_any (initial_value : T) : Constrained T E := mkConstrained initial_value (λ _, Ok tt) None.
Definition allow_only (invalid : T → E) (only_value : T) : Constrained T E :=
  mkConstrained only_value (λ candidate, if bool_decide (candidate = only_value) then Ok tt else Err (invalid candidate)) None.
Definition can_set c (candidate : T) : result E unit := validator c candidate.
(** A failed operation leaves the value as it was. *)
Definition add_validator c v : Constrained T E * result E unit :=
  let combined := λ candidate, let? _ := validator c candidate in v candidate in
  match combined (constrained_value c) with
  | Err e => (c, Err e)
  | Ok _ => (mkConstrained (constrained_value c) combined (normalizer c), Ok tt)
  end.
Definition set c (value : T) : Constrained T E * result E unit :=
  let value := match normalizer c with Some n => n value | None => value end in
  match validator c value with
  | Err e => (c, Err e)
  | Ok _ => (mkConstrained value (validator c) (normalizer c), Ok tt)
  end.
End Constrained.
