(* ===== verification/ConfigLayersProofs.v ===== *)
(** * Properties of configuration layers

    The effective configuration is decided path by path by the highest layer
    that says something, edits of the user's layers keep the order of the stack,
    origins name the deciding layer, and a constrained value satisfies every
    constraint it was given. *)
From stdpp Require Import strings gmap sorting pretty.
From S2P Require Import Prelude RustStr ConfigToml ConfigLayers.

(** ** Origins *)

Definition dotless (s : str) : Prop := chr "." ∉ s.
Lemma dotless_check s : forallb (λ c, negb (c =? chr ".")%N) s = true → dotless s.
Proof. rewrite forallb_forall. intros Hs Hin%list_elem_of_In%Hs. by rewrite N.eqb_refl in Hin. Qed.
Lemma join_dot_inj p p' : p ≠ [] → p' ≠ [] → Forall dotless p → Forall dotless p' → join (lit ".") p = join (lit ".") p' → p = p'.
Proof.
  intros Hp Hp' Hd Hd' Heq. pose proof (split_join (chr ".") p Hp Hd) as Hs. pose proof (split_join (chr ".") p' Hp' Hd') as Hs'.
  change [chr "."] with (lit ".") in Hs, Hs'. congruence.
Qed.
Lemma lit_String a t : lit (String a t) = chr a :: lit t.
Proof. done. Qed.
Lemma dotless_pretty x t : dotless (lit t) → dotless (lit (pretty_N_go x t)).
Proof.
  revert t. induction (N.lt_wf_0 x) as [x _ IH]. intros t Ht. destruct (decide (0 < x)%N) as [Hx|Hx].
  - rewrite pretty_N_go_step by done. apply IH; [apply N.div_lt; lia|]. unfold dotless. rewrite lit_String, not_elem_of_cons. split; [|done].
    unfold pretty_N_char. by repeat case_match.
  - assert (x = 0%N) as -> by lia. by rewrite pretty_N_go_0.
Qed.
Lemma dotless_fmt_nat n : dotless (fmt_nat n).
Proof.
  unfold fmt_nat, fmt_N, pretty, pretty_N. case_decide; [by apply dotless_check|]. apply dotless_pretty. by apply not_elem_of_nil.
Qed.

(** No key has a dot. *)
Fixpoint dotless_keys (v : TomlValue) : Prop :=
  match v with
  | TArray items => foldr (λ x P, dotless_keys x ∧ P) True items
  | TTable t => foldr (λ kv P, (dotless (fst kv) ∧ dotless_keys (snd kv)) ∧ P) True t
  | _ => True
  end.
Definition scalar (v : TomlValue) : bool := match v with TArray _ | TTable _ => false | _ => true end.

(** The paths [record_origins] writes. *)
Definition recorded_scalar (v : TomlValue) (path : list str) : list (list str) :=
  match path, v with
  | [], _ => []
  | _, TBoolean _ =>
      if is_structured_feature_path path
      then (if bool_decide (last path = Some (lit "network_proxy")) then [path] else []) ++ [path ++ [lit "enabled"]]
      else [path]
  | _, _ => [path]
  end.
Fixpoint recorded (v : TomlValue) (path : list str) {struct v} : list (list str) :=
  match v with
  | TTable t => (fix go (t : table) := match t with [] => [] | (k, c) :: t' => recorded c (path ++ [k]) ++ go t' end) t
  | TArray items =>
      (fix go (idx : nat) (items : list TomlValue) :=
         match items with [] => [] | c :: items' => recorded c (path ++ [fmt_nat idx]) ++ go (S idx) items' end) 0 items
  | _ => recorded_scalar v path
  end.
Lemma record_is_foldl {Meta} (meta : Meta) v path o :
  record_origins v meta path o = foldl (λ o p, <[join (lit ".") p := meta]> o) o (recorded v path).
Proof.
  revert path o. induction v as [| | |b| |items IH|t IH] using TomlValue_ind; intros path o; try (by destruct path).
  - destruct path as [|k path]; [done|]. cbn [record_origins recorded record_scalar recorded_scalar].
    destruct (is_structured_feature_path (k :: path)); [|done]. by case_bool_decide.
  - cbn [record_origins recorded]. generalize 0. revert o. induction IH as [|c items Hc _ IH]; intros o n; [done|]. by rewrite foldl_app, <- Hc, IH.
  - cbn [record_origins recorded]. revert o. induction IH as [|[k c] t Hc _ IH]; intros o; [done|]. cbn in Hc. by rewrite foldl_app, <- Hc, IH.
Qed.
Lemma record_lookup {Meta} (meta : Meta) v path o j :
  record_origins v meta path o !! j = if bool_decide (j ∈ join (lit ".") <$> recorded v path) then Some meta else o !! j.
Proof.
  rewrite record_is_foldl. generalize (recorded v path). intros ps. induction ps as [|p ps IH] using rev_ind; [done|].
  rewrite foldl_app, fmap_app. cbn. destruct (decide (join (lit ".") p = j)) as [<-|Hne].
  - rewrite lookup_insert_eq, bool_decide_eq_true_2; [done|]. apply elem_of_app. right. by left.
  - rewrite lookup_insert_ne, IH by done. rewrite (bool_decide_ext (j ∈ _ ++ _) (j ∈ join (lit ".") <$> ps)); [done|].
    rewrite elem_of_app, list_elem_of_singleton. naive_solver.
Qed.

(** What is recorded is said, and a scalar that is said is recorded. *)
Lemma recorded_dotless v path q : dotless_keys v → Forall dotless path → q ∈ recorded v path → Forall dotless q ∧ q ≠ [].
Proof.
  revert path. induction v as [| | |b| |items IH|t IH] using TomlValue_ind; intros path Hv Hp;
    try (destruct path; cbn; [by intros ?%elem_of_nil|by intros ->%list_elem_of_singleton]).
  - destruct path as [|k path]; [by intros ?%elem_of_nil|]. cbn [recorded recorded_scalar].
    assert (Forall dotless ((k :: path) ++ [lit "enabled"])) by (apply Forall_app; split; [done|]; apply Forall_singleton; by apply dotless_check).
    destruct (is_structured_feature_path (k :: path)); [|by intros ->%list_elem_of_singleton].
    case_bool_decide; set_solver.
  - cbn [recorded]. cbn in Hv. generalize 0. induction IH as [|c items Hc _ IH]; intros n; [by intros ?%elem_of_nil|]. cbn in Hv.
    rewrite elem_of_app. intros [Hq|Hq]; [|by eapply IH; [apply Hv|]]. eapply Hc; [apply Hv| |done]. apply Forall_app. split; [done|].
    apply Forall_singleton, dotless_fmt_nat.
  - cbn [recorded]. cbn in Hv. induction IH as [|[k c] t Hc _ IH]; [by intros ?%elem_of_nil|]. cbn in Hv, Hc.
    rewrite elem_of_app. intros [Hq|Hq]; [|by apply IH; [apply Hv|]]. eapply Hc; [apply Hv| |done]. apply Forall_app. split; [done|].
    apply Forall_singleton, Hv.
Qed.
Lemma recorded_table t path q : q ∈ recorded (TTable t) path ↔ ∃ k c, (k, c) ∈ t ∧ q ∈ recorded c (path ++ [k]).
Proof.
  cbn [recorded]. induction t as [|[k c] t IH]; [split; [by intros ?%elem_of_nil|by intros (? & ? & ?%elem_of_nil & _)]|].
  rewrite elem_of_app, IH. setoid_rewrite elem_of_cons. naive_solver.
Qed.
Lemma recorded_prefix v path q : q ∈ recorded v path → ∃ r, q = path ++ r.
Proof.
  revert path. induction v as [| | |b| |items IH|t IH] using TomlValue_ind; intros path;
    try (destruct path; cbn; [by intros ?%elem_of_nil|intros ->%list_elem_of_singleton; exists []; by rewrite app_nil_r]).
  - destruct path as [|k path]; [by intros ?%elem_of_nil|]. cbn [recorded recorded_scalar].
    assert (∃ r, k :: path = (k :: path) ++ r) as Hself by (exists []; by rewrite app_nil_r).
    assert (∃ r, (k :: path) ++ [lit "enabled"] = (k :: path) ++ r) by by eexists.
    destruct (is_structured_feature_path (k :: path)); [case_bool_decide|];
      rewrite ?elem_of_app, ?list_elem_of_singleton, ?elem_of_nil; intuition (subst; done).
  - cbn [recorded]. generalize 0. induction IH as [|c items Hc _ IH]; intros n; [by intros ?%elem_of_nil|].
    rewrite elem_of_app. intros [(r & ->)%Hc|Hq]; [|by eapply IH]. eexists. by rewrite <- app_assoc.
  - intros (k & c & Hin & Hq)%recorded_table. rewrite Forall_forall in IH. apply (IH _ Hin) in Hq as [r ->]. eexists. by rewrite <- app_assoc.
Qed.

(** A value in which the older names are gone. *)
Definition settled (path : list str) (v : TomlValue) : Prop := aliased path v = v.
Lemma settled_table path t : wf_toml (TTable t) → settled path (TTable t) →
  normalize_key_aliases path t = t ∧ ∀ k c, (k, c) ∈ t → settled (path ++ [k]) c.
Proof.
  intros Hwf Hs. unfold settled, aliased in Hs. rewrite normalized_table in Hs by done. injection Hs as Hs.
  rewrite alias_children in Hs; [|intros a v Ha; apply aliased_inert; by eapply inert_below_alias].
  assert (normalize_key_aliases path t = t) as Hid.
  { apply alias_id. intros a Ha. apply eq_None_not_Some. rewrite map_get_elem, <- Hs, children_keys, <- map_get_elem, map_get_alias, Ha, str_eqb_refl.
    by intros []. }
  split; [done|]. rewrite Hid in Hs. intros k c Hin. pose proof (proj1 (wf_table _) Hwf) as [Hd _].
  apply (map_get_NoDup _ _ _ Hd) in Hin as Hget. 
  assert (map_get k (children aliased path t) = Some c) as Hc by by rewrite Hs. rewrite map_get_children, Hget in Hc. by injection Hc.
Qed.
Lemma recorded_says v path r : wf_toml v → settled path v → path ++ r ∈ recorded v path → is_Some (says (canonical path v) r).
Proof.
  revert path r. induction v as [| | |b| |items IH|t IH] using TomlValue_ind; intros path r Hwf Hs; try by destruct r.
  - destruct r as [|k r]; [done|]. destruct path as [|k' path]; [by intros ?%elem_of_nil|]. cbn [recorded recorded_scalar canonical].
    destruct (is_structured_feature_path (k' :: path)); [|done]. intros Hin.
    assert ((k' :: path) ++ k :: r = (k' :: path) ++ [lit "enabled"]) as Heq.
    { assert ((k' :: path) ++ k :: r ≠ k' :: path) by (intros Heq%(f_equal length); rewrite length_app in Heq; cbn in Heq; lia).
      case_bool_decide; set_solver. }
    apply app_inv_head in Heq as [= -> ->]. done.
  - intros (k & c & Hin & Hq)%recorded_table. destruct (settled_table _ _ Hwf Hs) as [Hid Hc].
    destruct (recorded_prefix _ _ _ Hq) as [r' Hr]. rewrite <- app_assoc in Hr. apply app_inv_head in Hr as ->. cbn [app].
    pose proof (proj1 (wf_table _) Hwf) as [Hd Hall]. rewrite Forall_forall in IH, Hall.
    rewrite says_table, Hid, (map_get_NoDup _ _ _ Hd Hin). apply (IH _ Hin); [by apply (Hall _ Hin)|by apply Hc|]. by rewrite <- app_assoc.
Qed.
Lemma scalar_recorded v path r x : wf_toml v → settled path v → says (canonical path v) r = Some (Some x) → scalar x = true →
  path ++ r ≠ [] → path ++ r ∈ recorded v path.
Proof.
  revert path r. induction v as [| | |b| |items IH|t IH] using TomlValue_ind; intros path r Hwf Hs Hsays Hx Hne;
    try (destruct r; [|done]; rewrite app_nil_r in *; destruct path; [done|by left]).
  - cbn [canonical] in Hsays. destruct (is_structured_feature_path path) eqn:Hf.
    + destruct r as [|k r]; [done|]. cbn in Hsays. destruct (str_eqb k _) eqn:Ek; [|done]. apply str_eqb_eq in Ek as ->.
      destruct r as [|? r]; [|done]. destruct path as [|k' path]; [done|]. cbn [recorded recorded_scalar]. rewrite Hf. apply elem_of_app. right. by left.
    + destruct r as [|k r]; [|done]. rewrite app_nil_r in *. destruct path as [|k' path]; [done|]. cbn [recorded recorded_scalar]. rewrite Hf. by left.
  - destruct r as [|k r]; [|done]. cbn in Hsays. by injection Hsays as <-.
  - destruct r as [|k r]; [done|]. destruct (settled_table _ _ Hwf Hs) as [Hid Hc]. rewrite says_table, Hid in Hsays.
    destruct (map_get k t) as [c|] eqn:Hget; [|done]. apply map_get_In in Hget as Hin. apply recorded_table. exists k, c. split; [done|].
    rewrite Forall_forall in IH. replace (path ++ k :: r) with ((path ++ [k]) ++ r) in * by by rewrite <- app_assoc.
    apply (IH _ Hin); [by eapply wf_get|by apply Hc|done|done|done].
Qed.

Lemma dotless_table t : dotless_keys (TTable t) ↔ Forall (λ kv, dotless (fst kv) ∧ dotless_keys (snd kv)) t.
Proof. cbn. induction t as [|kv t IH]; cbn; [done|]. by rewrite Forall_cons, IH. Qed.
Lemma dotless_alias path t : dotless_keys (TTable t) → dotless_keys (TTable (normalize_key_aliases path t)).
Proof.
  rewrite normalize_key_aliases_spec. destruct (alias_of path) as [a|] eqn:Ha; [|done].
  assert (dotless (canonical_key a)) as Hk.
  { unfold alias_of in Ha. cbn in Ha. repeat case_decide; simplify_eq/=; by apply dotless_check. }
  rewrite !dotless_table. unfold normalize_alias. case_bool_decide; [|done]. intros Ht.
  destruct (map_get (legacy_key a) t) as [v|] eqn:Hv; [|done]. apply map_get_In in Hv. rewrite Forall_forall in Ht.
  assert (Forall (λ kv, dotless (fst kv) ∧ dotless_keys (snd kv)) (map_remove (legacy_key a) t)) as Hr.
  { apply Forall_forall. intros kv [Hin _]%list_elem_of_In%filter_In. by apply Ht, list_elem_of_In. }
  destruct (map_contains _ _); [done|]. pose proof (Ht _ Hv) as [_ Hdv]. cbn in Hdv. clear -Hr Hk Hdv.
  induction (map_remove (legacy_key a) t) as [|[k w] l IH]; cbn; [by repeat constructor|].
  apply Forall_cons in Hr as [[? ?] ?]. destruct (str_eqb _ k); constructor; auto.
Qed.
Lemma dotless_normalized v path : wf_toml v → dotless_keys v → dotless_keys (normalized_with_key_aliases v path).
Proof.
  revert path. induction v as [| | | | |items IH|t IH] using TomlValue_ind; intros path Hwf Hd; try done.
  - apply wf_array in Hwf. cbn in *. induction IH as [|c items Hc _ IH]; cbn in *; [done|]. apply Forall_cons in Hwf as [? ?].
    destruct Hd as [Hd Hd']. split; [by apply Hc|by apply IH].
  - rewrite normalized_table by done. apply dotless_alias, dotless_table. apply dotless_table in Hd. apply wf_table in Hwf as [_ Hwf].
    unfold children. rewrite Forall_fmap, !Forall_forall in *. intros [k c] Hin. destruct (Hd _ Hin) as [Hk Hc]. cbn. split; [exact Hk|].
    apply (IH _ Hin); [by apply (Hwf _ Hin)|exact Hc].
Qed.

Section Layers.
Context {CP : ConfigPaths} {TC : TomlCrates} {UC : Unicode} (cfg_windows : bool) {Req ReqToml : Type}.
Implicit Types (l : ConfigLayerEntry) (ls : list ConfigLayerEntry) (s : ConfigLayerStack (Req := Req) (ReqToml := ReqToml)).

(** ** The effective configuration *)

Lemma merge_layers_snoc ls l : merge_layers cfg_windows (ls ++ [l]) = merge_toml_values cfg_windows (merge_layers cfg_windows ls) (config l).
Proof. unfold merge_layers. by rewrite foldl_app. Qed.
Lemma merge_layers_wf ls : Forall (λ l, wf_toml (config l)) ls → wf_toml (merge_layers cfg_windows ls).
Proof.
  induction ls as [|l ls IH] using rev_ind; [by repeat constructor|]. rewrite Forall_app, Forall_singleton. intros [Hls Hl].
  rewrite merge_layers_snoc. apply wf_merge; [by apply IH|done].
Qed.
Lemma merge_layers_leaf ls p : Forall (λ l, wf_toml (config l)) ls → plain cfg_windows [] p = true →
  leaf_at (canonical [] (merge_layers cfg_windows ls)) p = default None (head (omap (λ l, speaks [] (config l) p) (rev ls))).
Proof.
  intros Hwf Hp. induction ls as [|l ls IH] using rev_ind.
  { cbn. by destruct p. }
  apply Forall_app in Hwf as [Hls Hl]. apply Forall_cons in Hl as [Hl _]. rewrite merge_layers_snoc, rev_app_distr. cbn [rev app omap list_omap].
  unfold merge_toml_values. rewrite merge_leaf; [|lia|by apply merge_layers_wf|exact Hl|done].
  rewrite IH by done. by destruct (speaks [] (config l) p).
Qed.

(** C8: The effective configuration is what the highest layer that speaks about
    a field says about it, path by path: a table on the way without the key is
    silence, any other value speaks, and a policy of the shell environment with
    one form of filters takes the fields of the other form away from the layers
    below it.  This is up to the older names of keys and the two forms of a
    feature.  The path does not lead into the tables whose keys are merged by
    their meaning: the host names of [permissions.*.network.domains], the patterns
    of [shell_environment_policy.filters] and, on Windows, the variables of
    [shell_environment_policy.set]. *)
Theorem highest_layer_decides s p (Hwf : Forall (λ l, wf_toml (config l)) (layers s)) (Hplain : plain cfg_windows [] p = true) :
  leaf_at (canonical [] (effective_config cfg_windows s)) p =
  default None (head (omap (λ l, speaks [] (config l) p) (layers_high_to_low s))).
Proof.
  apply merge_layers_leaf; [|done]. apply Forall_forall. intros l [Hin _]%list_elem_of_In%filter_In.
  rewrite Forall_forall in Hwf. by apply Hwf, list_elem_of_In.
Qed.

Lemma origins_snoc ls l (o : gmap str ConfigLayerMetadata) :
  foldl (λ o l, record_origins (normalized_with_key_aliases (config l) []) (metadata l) [] o) o (ls ++ [l]) =
  record_origins (normalized_with_key_aliases (config l) []) (metadata l) []
    (foldl (λ o l, record_origins (normalized_with_key_aliases (config l) []) (metadata l) [] o) o ls).
Proof. by rewrite foldl_app. Qed.

(** The origin of a field names the layer that decides on it: for a field
    with a plain value in the effective configuration, the layer recorded for
    its path gives that value, and no layer above it says anything about the
    path.  Keys have no dots, since a path is recorded as its keys joined. *)
Theorem origins_name_deciding_layer s p x (Hwf : Forall (λ l, wf_toml (config l) ∧ dotless_keys (config l)) (layers s))
    (Hplain : plain cfg_windows [] p = true) (Hdots : Forall dotless p) (Hne : p ≠ [])
    (Hleaf : leaf_at (canonical [] (effective_config cfg_windows s)) p = Some x) (Hscalar : scalar x = true) :
  ∃ below l above, layers_low_to_high s = below ++ l :: above ∧
    origins s !! join (lit ".") p = Some (metadata l) ∧ says (canonical [] (config l)) p = Some (Some x) ∧
    Forall (λ l', says (canonical [] (config l')) p = None) above.
Proof.
  assert (Forall (λ l, wf_toml (config l) ∧ dotless_keys (config l)) (layers_low_to_high s)) as Hls.
  { apply Forall_forall. intros l [Hin _]%list_elem_of_In%filter_In. rewrite Forall_forall in Hwf. by apply Hwf, list_elem_of_In. }
  unfold origins, effective_config in *. clear Hwf. induction (layers_low_to_high s) as [|l ls IH] using rev_ind; [by destruct p|].
  pose proof Hls as [Hls' [[Hw Hd] _]%Forall_cons]%Forall_app.
  rewrite merge_layers_leaf in Hleaf; [|eapply Forall_impl; [exact Hls|by intros ? []]|done].
  rewrite rev_app_distr in Hleaf. cbn in Hleaf. rewrite origins_snoc, record_lookup.
  set (n := normalized_with_key_aliases (config l) []).
  assert (wf_toml n) as Hwn by by apply wf_normalized. assert (settled [] n) as Hsn by by apply aliased_normalized.
  assert (canonical [] n = canonical [] (config l)) as Hcn by by apply canonical_normalized.
  assert (join (lit ".") p ∈ join (lit ".") <$> recorded n [] ↔ p ∈ recorded n []) as Hrec.
  { rewrite list_elem_of_fmap. split; [|by intros Hin; exists p]. intros (q & Heq & Hq).
    destruct (recorded_dotless n [] q) as [Hdq Hnq]; [by apply dotless_normalized|done|done|]. by rewrite (join_dot_inj p q). }
  destruct (speaks [] (config l) p) as [r|] eqn:Hsays; cbn in Hleaf; [|apply speaks_None in Hsays].
  - subst r. apply speaks_says in Hsays. exists ls, l, []. split_and!; [done| |done|done]. rewrite bool_decide_eq_true_2; [done|]. apply Hrec.
    apply (scalar_recorded n [] p x); [done|done|by rewrite Hcn|done|done].
  - rewrite bool_decide_eq_false_2; [|rewrite Hrec; intros Hin; apply (recorded_says n [] p Hwn Hsn) in Hin; rewrite Hcn, Hsays in Hin; by destruct Hin].
    destruct IH as (below & l' & above & -> & Ho & Hs & Hab);
      [rewrite merge_layers_leaf; [done|eapply Forall_impl; [exact Hls'|by intros ? []]|done]|done|].
    exists below, l', (above ++ [l]). split_and!; [by rewrite <- app_assoc|done|done|]. apply Forall_app. split; [done|]. by constructor.
Qed.

(** ** The order of the stack *)

Definition not_above l l' : Prop := (precedence (name l) ≤ precedence (name l'))%Z.
#[local] Instance not_above_trans : Transitive not_above.
Proof. intros l1 l2 l3. unfold not_above. lia. Qed.
Lemma is_sorted_spec ls : is_sorted ls = true ↔ StronglySorted not_above ls.
Proof.
  induction ls as [|l ls IH]; [by split; [constructor|]|]. destruct ls as [|l' ls]; [split; [by repeat constructor|done]|].
  change (is_sorted (l :: l' :: ls)) with ((precedence (name l) <=? precedence (name l'))%Z && is_sorted (l' :: ls)).
  rewrite andb_true_iff, IH, Z.leb_le, (StronglySorted_cons _ (l' :: ls)). split.
  - intros [Hle Hs]. split; [|done]. apply StronglySorted_cons in Hs as [Hall _]. constructor; [done|].
    eapply Forall_impl; [exact Hall|]. intros x. by apply (transitivity (R := not_above)).
  - by intros [[? _]%Forall_cons ?].
Qed.
Lemma sorted_sublist ls ls' : ls' `sublist_of` ls → StronglySorted not_above ls → StronglySorted not_above ls'.
Proof.
  induction 1 as [|l ls' ls Hsub IH|l ls' ls Hsub IH]; [done|..]; intros [Hall Hs]%StronglySorted_cons; [|by apply IH].
  apply StronglySorted_cons. split; [|by apply IH]. rewrite Forall_forall in *. intros x Hx. apply Hall. by eapply elem_of_sublist.
Qed.
Lemma insert_layer_elem l ls x : x ∈ insert_layer l ls ↔ x = l ∨ x ∈ ls.
Proof. induction ls as [|l' ls IH]; cbn; [set_solver|]. destruct (_ <? _)%Z; set_solver. Qed.
Lemma insert_layer_sorted l ls : StronglySorted not_above ls → StronglySorted not_above (insert_layer l ls).
Proof.
  induction ls as [|l' ls IH]; cbn; [by repeat constructor|]. intros Hs. pose proof Hs as [Hall Hs']%StronglySorted_cons.
  destruct (_ <? _)%Z eqn:Hlt.
  - apply Z.ltb_lt in Hlt. apply StronglySorted_cons. split; [|done]. constructor; [unfold not_above; lia|].
    eapply Forall_impl; [exact Hall|]. intros x. unfold not_above. lia.
  - apply Z.ltb_ge in Hlt. apply StronglySorted_cons. split; [|by apply IH]. rewrite Forall_forall in *.
    intros x [->|Hx]%insert_layer_elem; [done|by apply Hall].
Qed.
Lemma remove_first_sublist f ls : remove_first f ls `sublist_of` ls.
Proof. induction ls as [|l ls IH]; cbn; [done|]. destruct (f l); [by apply sublist_cons|by apply sublist_skip]. Qed.
Lemma filter_sublist f ls : List.filter f ls `sublist_of` ls.
Proof. induction ls as [|l ls IH]; cbn; [done|]. destruct (f l); [by apply sublist_skip|by apply sublist_cons]. Qed.

Definition is_project l : bool := match name l with Project _ => true | _ => false end.
Lemma verify_projects previous ls : verify_project_order previous ls = verify_project_order previous (List.filter is_project ls).
Proof.
  revert previous. induction ls as [|l ls IH]; intros previous; cbn; [done|]. unfold is_project at 1.
  destruct (name l) eqn:Hn; try apply IH. cbn. rewrite Hn. destruct previous as [prev|]; [|apply IH].
  destruct (cparent prev); [|done]. destruct (_ || _); [done|apply IH].
Qed.
Lemma insert_user_projects l ls : is_project l = false → List.filter is_project (insert_layer l ls) = List.filter is_project ls.
Proof.
  intros Hl. induction ls as [|l' ls IH]; cbn; [by rewrite Hl|]. destruct (_ <? _)%Z; cbn; rewrite ?Hl; [done|]. by rewrite IH.
Qed.
Lemma remove_user_projects file ls : List.filter is_project (remove_first (is_user_file file) ls) = List.filter is_project ls.
Proof.
  induction ls as [|l ls IH]; cbn; [done|]. destruct (is_user_file file l) eqn:Hf; cbn; [|by rewrite IH].
  unfold is_user_file, is_project in *. by destruct (name l).
Qed.
Lemma verify_order_spec ls : verify_layer_ordering ls = Ok tt ↔
  StronglySorted not_above ls ∧ verify_project_order None (List.filter is_project ls) = Ok tt.
Proof.
  unfold verify_layer_ordering. rewrite <- is_sorted_spec, <- verify_projects. destruct (is_sorted ls); cbn; naive_solver.
Qed.
Lemma insert_filter_in f l ls : f l = true → length (List.filter f ls) = 0 → List.filter f (insert_layer l ls) = [l].
Proof.
  intros Hl. induction ls as [|l' ls IH]; cbn; [by rewrite Hl|]. destruct (f l') eqn:Hf; [done|]. intros Hn.
  destruct (_ <? _)%Z; cbn; rewrite ?Hl, Hf; [|by apply IH]. by destruct (List.filter f ls).
Qed.
Lemma insert_filter_out f l ls : f l = false → List.filter f (insert_layer l ls) = List.filter f ls.
Proof. intros Hl. induction ls as [|l' ls IH]; cbn; [by rewrite Hl|]. destruct (_ <? _)%Z; cbn; rewrite ?Hl; [done|]. by rewrite IH. Qed.
Lemma remove_first_filter f ls : length (List.filter f ls) ≤ 1 → length (List.filter f (remove_first f ls)) = 0.
Proof. induction ls as [|l ls IH]; cbn; [done|]. destruct (f l) eqn:Hf; cbn; [lia|]. by rewrite Hf. Qed.
Lemma remove_first_others f ls : List.filter (λ l, negb (f l)) (remove_first f ls) = List.filter (λ l, negb (f l)) ls.
Proof. induction ls as [|l ls IH]; cbn; [done|]. destruct (f l) eqn:Hf; cbn; [done|]. by rewrite Hf, IH. Qed.

(** An edit of a file of the user keeps the stack in order, replaces the one
    layer of that file and no other; and so does taking over the user's layers
    of another stack. *)
Theorem user_edits_keep_order s other file c s' (Hs : verify_layer_ordering (layers s) = Ok tt)
    (Hone : length (List.filter (is_user_file file) (layers s)) ≤ 1) (Hedit : with_user_config s file c = Ok s') :
  verify_layer_ordering (layers s') = Ok tt ∧
  List.filter (is_user_file file) (layers s') = [new_layer (User file (find_profile s file)) c] ∧
  List.filter (λ l, negb (is_user_file file l)) (layers s') = List.filter (λ l, negb (is_user_file file l)) (layers s) ∧
  verify_layer_ordering (layers (with_user_layer_from s other)) = Ok tt.
Proof.
  unfold with_user_config, with_user_config_profile in Hedit. destruct (validate_enabled_config_layers _); [|done]. cbn in Hedit.
  injection Hedit as <-. cbn [layers with_layers]. set (l := new_layer _ _).
  assert (is_user_file file l = true) as Hl by by apply bool_decide_eq_true_2.
  apply verify_order_spec in Hs as [Hsorted Hproj]. split_and!.
  - apply verify_order_spec. split.
    + apply insert_layer_sorted. eapply sorted_sublist; [apply remove_first_sublist|done].
    + by rewrite insert_user_projects, remove_user_projects.
  - apply insert_filter_in; [done|]. by apply remove_first_filter.
  - rewrite insert_filter_out; [apply remove_first_others|by rewrite Hl].
  - apply verify_order_spec. unfold with_user_layer_from. cbn [layers with_layers].
    assert (∀ ls users, Forall (λ l, is_user l = true) users → StronglySorted not_above ls →
      StronglySorted not_above (foldl (λ ls l, insert_layer l ls) ls users) ∧
      List.filter is_project (foldl (λ ls l, insert_layer l ls) ls users) = List.filter is_project ls) as Hfold.
    { intros ls users Hu. revert ls. induction Hu as [|u users Hu _ IH]; intros ls Hls; [done|]. cbn [foldl].
      destruct (IH (insert_layer u ls)) as [? ->]; [by apply insert_layer_sorted|]. split; [done|].
      apply insert_user_projects. unfold is_user, is_project in *. by destruct (name u). }
    destruct (Hfold (List.filter (λ l, negb (is_user l)) (layers s)) (List.filter is_user (layers other))) as [Hsort ->].
    + apply Forall_forall. by intros u [_ ?]%list_elem_of_In%filter_In.
    + eapply sorted_sublist; [apply filter_sublist|done].
    + split; [done|]. rewrite <- Hproj. f_equal. clear. induction (layers s) as [|x ls IH]; cbn; [done|].
      unfold is_user, is_project in *. destruct (name x) eqn:Hn; cbn; rewrite ?Hn, IH; done.
Qed.
End Layers.

(** ** Constrained values *)

Section Constrained.
Context {T E : Type} `{!EqDecision T}.
Implicit Types (c : Constrained T E).
Inductive constrained_op : Type := SetTo (value : T) | AddValidator (v : T → result E unit).
Definition apply_op c (op : constrained_op) : Constrained T E * result E unit :=
  match op with SetTo value => set c value | AddValidator v => add_validator c v end.
Definition apply_ops c (ops : list constrained_op) : Constrained T E := foldl (λ c op, (apply_op c op).1) c ops.
(** The validators that were accepted along the way. *)
Fixpoint accepted c (ops : list constrained_op) : list (T → result E unit) :=
  match ops with
  | [] => []
  | op :: ops' =>
      match op, (apply_op c op).2 with
      | AddValidator v, Ok _ => v :: accepted (apply_op c op).1 ops'
      | _, _ => accepted (apply_op c op).1 ops'
      end
  end.

(** What the validator accepts, every validator it was built from accepts. *)
Lemma validator_apply_ops c ops x : validator (apply_ops c ops) x = Ok tt →
  validator c x = Ok tt ∧ Forall (λ v, v x = Ok tt) (accepted c ops).
Proof.
  revert c. induction ops as [|op ops IH]; intros c; [by split|]. unfold apply_ops. cbn [foldl accepted]. fold (apply_ops (apply_op c op).1 ops).
  intros [Hv Hacc]%IH. destruct op as [value|v]; cbn [apply_op] in *.
  - unfold set in *. destruct (validator c _); [|done]. by split; [|destruct a].
  - unfold add_validator in *. destruct (let? _ := validator c _ in _); cbn in *; [|done].
    destruct (validator c x) as [[]|]; cbn in Hv; [|done]. split; [done|]. by constructor.
Qed.

(** A constrained value satisfies its constraint and every validator added
    to it since, whatever is set and added in between and whatever fails. *)
Theorem constrained_value_satisfies_all c ops (Hc : validator c (constrained_value c) = Ok tt) :
  let c' := apply_ops c ops in
  validator c' (constrained_value c') = Ok tt ∧ validator c (constrained_value c') = Ok tt ∧
  Forall (λ v, v (constrained_value c') = Ok tt) (accepted c ops).
Proof.
  cbv zeta. assert (validator (apply_ops c ops) (constrained_value (apply_ops c ops)) = Ok tt) as Hv.
  { revert c Hc. induction ops as [|op ops IH]; intros c Hc; [done|]. unfold apply_ops. cbn [foldl]. apply IH.
    destruct op as [value|v]; cbn [apply_op]; unfold set, add_validator.
    - destruct (validator c (match normalizer c with Some n => n value | None => value end)) as [[]|] eqn:Hv; [exact Hv|done].
    - destruct (let? _ := validator c _ in _) as [[]|] eqn:Hv; [exact Hv|done]. }
  split; [done|]. by apply validator_apply_ops.
Qed.
End Constrained.


(** ** Examples *)

Module MiniConfig.
(** Paths are texts without parents, and versions are all alike. *)
#[local] Instance mini_paths : ConfigPaths := {| cpath := str; cparent _ := None; cancestors p := [p]; cdisplay p := p |}.
Definition text_of (v : TomlValue) : option str := match v with TString s => Some s | _ => None end.
Definition action_of (kv : str * TomlValue) : option (str * bool) :=
  match kv with
  | (k, TString s) => if str_eqb s (lit "include") then Some (k, true) else if str_eqb s (lit "exclude") then Some (k, false) else None
  | _ => None
  end.
#[local] Instance mini_toml : TomlCrates := {|
  decode_strings v := match v with TArray items => mapM text_of items | _ => None end;
  decode_filters v := match v with TTable t => mapM action_of t | _ => None end;
  version_for_toml _ := lit "v";
|}.
#[local] Instance mini_unicode : Unicode := to_ascii_lowercase.

Definition system : ConfigLayerEntry := new_layer (System (lit "/etc/config.toml")) (TTable
  [(lit "model", TString (lit "a")); (lit "tags", TArray [TString (lit "x"); TString (lit "y")]);
   (lit "memories", TTable [(lit "no_memories_if_mcp_or_web_search", TBoolean true)])]).
Definition user : ConfigLayerEntry := new_layer (User (lit "/me/config.toml") None) (TTable
  [(lit "model", TString (lit "b")); (lit "tags", TArray [TString (lit "z")]); (lit "features", TTable [(lit "network_proxy", TBoolean true)])]).
Definition stack : ConfigLayerStack (Req := unit) (ReqToml := unit) := mkStack [system; user] tt tt false None.
Definition external : list str := [lit "memories"; lit "disable_on_external_context"].

Lemma stack_wf : Forall (λ l, wf_toml (config l) ∧ dotless_keys (config l)) (layers stack).
Proof.
  repeat constructor; cbn; try by apply dotless_check.
  all: match goal with |- _ ∉ _ => rewrite ?not_elem_of_cons; by repeat split; try apply not_elem_of_nil end.
Qed.
(** A policy that lists excluded patterns, and above it one with filters. *)
Definition listed : ConfigLayerEntry := new_layer (System (lit "/etc/config.toml")) (TTable
  [(lit "shell_environment_policy", TTable [(lit "inherit", TString (lit "core")); (lit "exclude", TArray [TString (lit "A*")])])]).
Definition keyed : ConfigLayerEntry := new_layer (User (lit "/me/config.toml") None) (TTable
  [(lit "shell_environment_policy", TTable [(lit "filters", TTable [(lit "B*", TString (lit "exclude"))])])]).
Definition filtered : ConfigLayerStack (Req := unit) (ReqToml := unit) := mkStack [listed; keyed] tt tt false None.
Definition excluded : list str := [lit "shell_environment_policy"; lit "exclude"].

Lemma highest_layer_decides_witness :
  leaf_at (canonical [] (effective_config false stack)) external = Some (TBoolean true) ∧
  leaf_at (canonical [] (effective_config false stack)) [lit "model"] = Some (TString (lit "b")) ∧
  leaf_at (canonical [] (effective_config false filtered)) [lit "shell_environment_policy"; lit "inherit"] = Some (TString (lit "core")) ∧
  leaf_at (canonical [] (effective_config false filtered)) excluded = None ∧ speaks [] (config keyed) excluded = Some None.
Proof.
  assert (Forall (λ l, wf_toml (config l)) (layers stack)) as Hwf by (eapply Forall_impl; [exact stack_wf|by intros ? []]).
  assert (Forall (λ l, wf_toml (config l)) (layers filtered)) as Hwf'.
  { repeat constructor; cbn; match goal with |- _ ∉ _ => rewrite ?not_elem_of_cons; by repeat split; try apply not_elem_of_nil end. }
  split_and!.
  - rewrite (highest_layer_decides false stack external Hwf); by vm_compute.
  - rewrite (highest_layer_decides false stack [lit "model"] Hwf); by vm_compute.
  - rewrite (highest_layer_decides false filtered [lit "shell_environment_policy"; lit "inherit"] Hwf'); by vm_compute.
  - rewrite (highest_layer_decides false filtered excluded Hwf'); by vm_compute.
  - by vm_compute.
Defined.
Lemma origins_name_deciding_layer_witness : origins stack !! lit "model" = Some (metadata user).
Proof.
  destruct (origins_name_deciding_layer false stack [lit "model"] (TString (lit "b")) stack_wf) as (below & l & above & Hl & Ho & Hs & _);
    [by vm_compute|by repeat constructor; apply dotless_check|done|by vm_compute|done|].
  destruct below as [|? [|? below]]; [|by injection Hl as _ <- _|by destruct below]. injection Hl as <- _. by vm_compute in Hs.
Defined.
Lemma user_edits_keep_order_witness :
  match with_user_config stack (lit "/me/config.toml") (TTable []) with
  | Ok s' => verify_layer_ordering (layers s') = Ok tt
  | Err _ => False
  end.
Proof.
  destruct (with_user_config stack (lit "/me/config.toml") (TTable [])) as [s'|e] eqn:Hs; [|by vm_compute in Hs].
  exact (proj1 (user_edits_keep_order stack stack (lit "/me/config.toml") (TTable []) s' ltac:(by vm_compute) ltac:(vm_compute; lia) Hs)).
Defined.

Definition at_most (n : Z) (x : Z) : result unit unit := if (x <=? n)%Z then Ok tt else Err tt.
Lemma constrained_value_satisfies_all_witness :
  Forall (λ v, v 5%Z = Ok tt) (accepted (mkConstrained 3%Z (at_most 10) None) [SetTo 5%Z; AddValidator (at_most 7); SetTo 8%Z]).
Proof.
  exact (proj2 (proj2 (constrained_value_satisfies_all (mkConstrained 3%Z (at_most 10) None) [SetTo 5%Z; AddValidator (at_most 7); SetTo 8%Z] eq_refl))).
Defined.

(** A list that a higher layer replaces leaves its longer tail in the origins,
    attributed to the lower layer, although the effective list has one item. *)
Theorem origins_keep_replaced_items :
  leaf_at (effective_config false stack) [lit "tags"] = Some (TArray [TString (lit "z")]) ∧
  origins stack !! lit "tags.1" = Some (metadata system).
Proof. split; by vm_compute. Qed.
End MiniConfig.
