(* ===== verification/ShellEnv.v ===== *)
(** * The environment of commands ([protocol/src/shell_environment.rs])

    Which variables a command inherits: the policy and its steps, the variables
    that never pass, the policy from its configuration
    ([config/src/shell_environment_policy.rs]) and the variables the core adds
    ([core/src/exec_env.rs]).  Matching of patterns is the [wildmatch] crate. *)
From stdpp Require Import strings gmap.
From S2P Require Import Prelude RustStr ConfigToml.

(** [EnvironmentVariablePattern::new_case_insensitive] and [matches]. *)
Class WildMatch : Type := wild_matches : str → str → bool.

Definition REXUX_SESSION_ID_ENV_VAR : str := lit "REXUX_SESSION_ID".
Definition REXUX_THREAD_ID_ENV_VAR : str := lit "REXUX_THREAD_ID".
Definition REXUX_PERMISSION_PROFILE_ENV_VAR : str := lit "REXUX_PERMISSION_PROFILE".
Definition PRESERVE_LINE_ENDINGS_ENV_VAR : str := lit "REXUX_APPLY_PATCH_PRESERVE_LINE_ENDINGS".
Definition NON_INHERITABLE_ENV_VARS : list str :=
  [lit "REXUX_EXEC_SERVER_NOISE_AUTH_TOKEN"; lit "NODE_REPL_AUTH_TOKEN"; lit "OPENAI_FEDERATION_RULE_ID";
   lit "OPENAI_IDENTITY_TOKEN_FILE"; lit "OPENAI_WORKLOAD_IDENTITY_CONTEXT"].
Definition is_non_inheritable_env_var (name : str) : bool :=
  existsb (λ restricted, eq_ignore_ascii_case restricted name) NON_INHERITABLE_ENV_VARS.
Definition UNIX_CORE_ENV_VARS : list str :=
  [lit "PATH"; lit "SHELL"; lit "TMPDIR"; lit "TEMP"; lit "TMP"; lit "HOME"; lit "LANG"; lit "LC_ALL"; lit "LC_CTYPE"; lit "LOGNAME"; lit "USER"].
Definition WINDOWS_CORE_ENV_VARS : list str :=
  [lit "PATH"; lit "PATHEXT"; lit "SHELL"; lit "COMSPEC"; lit "SYSTEMROOT"; lit "WINDIR"; lit "SYSTEMDRIVE"; lit "USERNAME";
   lit "USERDOMAIN"; lit "USERPROFILE"; lit "HOMEDRIVE"; lit "HOMEPATH"; lit "PROGRAMFILES"; lit "PROGRAMFILES(X86)"; lit "PROGRAMW6432";
   lit "PROGRAMDATA"; lit "LOCALAPPDATA"; lit "APPDATA"; lit "TEMP"; lit "TMP"; lit "TMPDIR"; lit "POWERSHELL"; lit "PWSH"].

(** ** The policy *)

Inductive ShellEnvironmentPolicyInherit : Type := Core | All | InheritNone.
Record ShellEnvironmentPolicy : Type := mkShellPolicy {
  inherit : ShellEnvironmentPolicyInherit;
  ignore_default_excludes : bool;
  exclude : list str;
  (** in the order of iteration *)
  set_vars : list (str * str);
  include_only : list str;
  use_profile : bool;
}.
Definition default_shell_policy : ShellEnvironmentPolicy := mkShellPolicy All true [] [] [] false.

(** [ShellEnvironmentPolicyToml]; [true] includes. *)
Record ShellEnvironmentPolicyToml : Type := mkShellPolicyToml {
  toml_inherit : option ShellEnvironmentPolicyInherit;
  toml_ignore_default_excludes : option bool;
  toml_exclude : option (list str);
  toml_set : option (list (str * str));
  toml_include_only : option (list str);
  toml_filters : option (list (str * bool));
  toml_experimental_use_profile : option bool;
}.
Definition shell_policy_from_toml (t : ShellEnvironmentPolicyToml) : ShellEnvironmentPolicy :=
  let '(exclude, include_only) :=
    match toml_filters t with
    | Some filters =>
        foldl (λ '(exclude, include_only) '(pattern, included),
          if (included : bool) then (exclude, include_only ++ [pattern]) else (exclude ++ [pattern], include_only)) ([], []) filters
    | None => (default [] (toml_exclude t), default [] (toml_include_only t))
    end in
  mkShellPolicy (default All (toml_inherit t)) (default true (toml_ignore_default_excludes t)) exclude (default [] (toml_set t)) include_only
    (default false (toml_experimental_use_profile t)).

(** ** Building the environment *)

Abbreviation env := (gmap str str).
Section Environment.
Context {WM : WildMatch} (windows : bool).

Definition retain (f : str → bool) (e : env) : env := filter (λ kv, f kv.1 = true) e.
Definition matches_any (name : str) (patterns : list str) : bool := existsb (λ pattern, wild_matches pattern name) patterns.
Definition collect (vars : list (str * str)) : env := foldl (λ e '(k, v), <[k := v]> e) ∅ vars.
Definition core_env_vars : list str := if windows then WINDOWS_CORE_ENV_VARS else UNIX_CORE_ENV_VARS.
Definition is_core (name : str) : bool := existsb (λ allowed, eq_ignore_ascii_case allowed name) core_env_vars.
Definition default_excludes : list str := [lit "*KEY*"; lit "*SECRET*"; lit "*TOKEN*"].
Definition inherited_vars (vars : list (str * str)) (policy : ShellEnvironmentPolicy) : env :=
  match inherit policy with
  | All => collect vars
  | InheritNone => ∅
  | Core => collect (List.filter (λ kv, is_core (fst kv)) vars)
  end.
Definition set_var (e : env) (kv : str * str) : env :=
  let '(key, val) := kv in
  let e := if windows then retain (λ existing, negb (eq_ignore_ascii_case existing key)) e else e in
  <[key := val]> e.
Definition populate_env (vars : list (str * str)) (policy : ShellEnvironmentPolicy) (thread_id : option str) : env :=
  let e := inherited_vars vars policy in
  let e := if negb (ignore_default_excludes policy) then retain (λ k, negb (matches_any k default_excludes)) e else e in
  let e := match exclude policy with [] => e | _ => retain (λ k, negb (matches_any k (exclude policy))) e end in
  let e := foldl set_var e (set_vars policy) in
  let e := match include_only policy with [] => e | _ => retain (λ k, matches_any k (include_only policy)) e end in
  let e := match thread_id with Some t => <[REXUX_THREAD_ID_ENV_VAR := t]> e | None => e end in
  retain (λ name, negb (is_non_inheritable_env_var name)) e.
Definition create_env_from_vars (vars : list (str * str)) (policy : ShellEnvironmentPolicy) (thread_id : option str) : env :=
  let e := populate_env vars policy thread_id in
  if windows && negb (existsb (λ kv, eq_ignore_ascii_case (fst kv) (lit "PATHEXT")) (map_to_list e))
  then <[lit "PATHEXT" := lit ".COM;.EXE;.BAT;.CMD"]> e else e.

(** What the core adds afterwards. *)
Definition inject_session_id_env (e : env) (session_id : str) : env := <[REXUX_SESSION_ID_ENV_VAR := session_id]> e.
Definition inject_permission_profile_env (e : env) (active_profile_id : option str) : env :=
  let e := if windows then retain (λ key, negb (eq_ignore_ascii_case key REXUX_PERMISSION_PROFILE_ENV_VAR)) e
           else delete REXUX_PERMISSION_PROFILE_ENV_VAR e in
  match active_profile_id with Some id => <[REXUX_PERMISSION_PROFILE_ENV_VAR := id]> e | None => e end.
Definition inject_apply_patch_env (e : env) (preserve_line_endings : bool) : env :=
  let e := retain (λ key, negb (eq_ignore_ascii_case key PRESERVE_LINE_ENDINGS_ENV_VAR)) e in
  if preserve_line_endings then <[PRESERVE_LINE_ENDINGS_ENV_VAR := lit "1"]> e else e.

(** ** What a command sees *)

Lemma retain_lookup (f : str → bool) (e : env) (k : str) : retain f e !! k = if f k then e !! k else None.
Proof.
  unfold retain. destruct (f k) eqn:Hf.
  - destruct (e !! k) eqn:He; [by apply map_lookup_filter_Some|]. apply map_lookup_filter_None. by left.
  - apply map_lookup_filter_None. right. intros v _. cbn. by rewrite Hf.
Qed.
(** Variables of the process that get through steps 1 to 3. *)
Definition kept (policy : ShellEnvironmentPolicy) (name : str) : bool :=
  match inherit policy with All => true | InheritNone => false | Core => is_core name end &&
  (ignore_default_excludes policy || negb (matches_any name default_excludes)) && negb (matches_any name (exclude policy)).
(** The last value given for a name. *)
Definition last_value (vars : list (str * str)) (name : str) : option str := (collect vars) !! name.
Definition set_names (policy : ShellEnvironmentPolicy) : list str := fst <$> set_vars policy.

Lemma collect_snoc vars k v : collect (vars ++ [(k, v)]) = <[k := v]> (collect vars).
Proof. unfold collect. by rewrite foldl_app. Qed.
Lemma collect_filter (f : str → bool) vars name : collect (List.filter (λ kv, f (fst kv)) vars) !! name = if f name then last_value vars name else None.
Proof.
  unfold last_value. induction vars as [|[k v] vars IH] using rev_ind; [by destruct (f name)|].
  rewrite List.filter_app. cbn [List.filter fst]. destruct (f k) eqn:Hk.
  - rewrite !collect_snoc. destruct (decide (k = name)) as [->|Hne]; [by rewrite !lookup_insert_eq, Hk|]. by rewrite !lookup_insert_ne.
  - rewrite app_nil_r, collect_snoc, IH. destruct (decide (k = name)) as [->|Hne]; [by rewrite Hk|]. by rewrite lookup_insert_ne.
Qed.
Lemma inherited_lookup vars policy name : inherited_vars vars policy !! name =
  if match inherit policy with All => true | InheritNone => false | Core => is_core name end then last_value vars name else None.
Proof. unfold inherited_vars. destruct (inherit policy); [|done|done]. by rewrite collect_filter. Qed.
(** Step 4.  On Windows another spelling of a name replaces it. *)
Lemma set_vars_lookup (vars : list (str * str)) (e : env) (name : str) : NoDup (fst <$> vars) →
  (windows = true → ∀ k k', k ∈ fst <$> vars → k' ∈ fst <$> vars → eq_ignore_ascii_case k k' = true → k = k') →
  foldl set_var e vars !! name =
  match last_value vars name with
  | Some v => Some v
  | None => if windows && existsb (eq_ignore_ascii_case name) (fst <$> vars) then None else e !! name
  end.
Proof.
  induction vars as [|[k v] vars IH] using rev_ind; intros Hd Hw; [by rewrite andb_false_r|].
  rewrite foldl_app, fmap_app. cbn [foldl set_var fmap list_fmap fst]. unfold last_value. rewrite collect_snoc.
  rewrite fmap_app in Hd, Hw. apply NoDup_app in Hd as (Hd & Hk & _).
  destruct (decide (k = name)) as [->|Hne]; [by rewrite !lookup_insert_eq|]. rewrite !lookup_insert_ne by done.
  assert (foldl set_var e vars !! name = match last_value vars name with
    | Some v => Some v
    | None => if windows && existsb (eq_ignore_ascii_case name) (fst <$> vars) then None else e !! name
    end) as IH'.
  { apply IH; [done|]. intros Hwin x y Hx Hy. apply Hw; [done|apply elem_of_app; by left..]. }
  unfold last_value in IH'. rewrite existsb_app. cbn. rewrite orb_false_r.
  destruct windows; cbn; [|exact IH']. rewrite retain_lookup, IH'.
  destruct (eq_ignore_ascii_case name k) eqn:Hi; cbn; [|by rewrite orb_false_r].
  rewrite orb_true_r. destruct (collect vars !! name) as [x|] eqn:Hx; [|done]. exfalso. apply Hne. symmetry. apply Hw; [done| | |done].
  - apply elem_of_app. left. clear -Hx. induction vars as [|[k' v'] vars IH] using rev_ind; [done|]. rewrite collect_snoc in Hx.
    rewrite fmap_app, elem_of_app. destruct (decide (k' = name)) as [->|Hne]; [right; by left|]. left. apply IH. by rewrite lookup_insert_ne in Hx.
  - apply elem_of_app. right. by left.
Qed.

(** C31: The environment of a command is decided variable by variable.  Names of
    the launch context never pass, and the id of the thread, when there is one,
    is always its own.  For any other variable, if the list of inclusions is not
    empty and no pattern of it matches the name, the variable is absent, set or
    not.  Otherwise a variable the policy sets has that value, and any other one
    is inherited exactly when the policy inherits it and no pattern excludes it,
    unless Windows takes it for another spelling of a variable that is set. *)
Theorem environment_by_policy (vars : list (str * str)) (policy : ShellEnvironmentPolicy) (thread_id : option str) (name : str)
    (Hset : NoDup (set_names policy))
    (Hspelling : windows = true → ∀ k k', k ∈ set_names policy → k' ∈ set_names policy → eq_ignore_ascii_case k k' = true → k = k') :
  populate_env vars policy thread_id !! name =
  if is_non_inheritable_env_var name then None
  else match (if str_eqb name REXUX_THREAD_ID_ENV_VAR then thread_id else None) with
       | Some t => Some t
       | None =>
           if bool_decide (include_only policy = []) || matches_any name (include_only policy) then
             match last_value (set_vars policy) name with
             | Some v => Some v
             | None =>
                 if windows && existsb (eq_ignore_ascii_case name) (set_names policy) then None
                 else if kept policy name then last_value vars name else None
             end
           else None
       end.
Proof.
  unfold populate_env. rewrite retain_lookup. destruct (is_non_inheritable_env_var name); [done|]. cbn [negb].
  set (e3 := match exclude policy with [] => _ | _ => _ end).
  assert (e3 !! name = if kept policy name then last_value vars name else None) as He3.
  { subst e3. unfold kept. pose proof (inherited_lookup vars policy name) as Hin.
    set (b := match inherit policy with All => true | InheritNone => false | Core => is_core name end) in *. clearbody b.
    destruct (exclude policy) as [|x xs] eqn:Hx; destruct (ignore_default_excludes policy); cbn [negb orb];
      rewrite ?retain_lookup, Hin; destruct b, (matches_any name default_excludes); cbn [andb negb orb]; try done; by destruct (matches_any name (x :: xs)). }
  assert (∀ e : env, match thread_id with Some t => <[REXUX_THREAD_ID_ENV_VAR := t]> e | None => e end !! name =
    match (if str_eqb name REXUX_THREAD_ID_ENV_VAR then thread_id else None) with Some t => Some t | None => e !! name end) as Hthread.
  { intros e. destruct thread_id as [t|]; [|by destruct (str_eqb _ _)]. unfold str_eqb. case_bool_decide as Hn.
    - by rewrite Hn, lookup_insert_eq.
    - by rewrite lookup_insert_ne. }
  rewrite Hthread. destruct (if str_eqb name _ then thread_id else None); [done|].
  pose proof (set_vars_lookup (set_vars policy) e3 name Hset Hspelling) as Hvars. rewrite He3 in Hvars.
  destruct (include_only policy) as [|x xs] eqn:Hx; cbn [bool_decide]; [exact Hvars|]. rewrite retain_lookup, Hvars. done.
Qed.

(** What a command is given never has a variable of the launch context, in
    any spelling, whatever the configuration sets and the core adds. *)
Theorem launch_context_never_passes (vars : list (str * str)) (policy : ShellEnvironmentPolicy) (thread_id : option str)
    (session_id : str) (profile : option str) (preserve : bool) (name : str) (Hname : is_non_inheritable_env_var name = true) :
  inject_apply_patch_env (inject_permission_profile_env (inject_session_id_env (create_env_from_vars vars policy thread_id) session_id) profile)
    preserve !! name = None.
Proof.
  assert (∀ x : str, is_non_inheritable_env_var x = false → x ≠ name) as Hne by (intros x Hx ->; congruence).
  assert (create_env_from_vars vars policy thread_id !! name = None) as He.
  { assert (populate_env vars policy thread_id !! name = None) as Hp.
    { unfold populate_env. rewrite retain_lookup. by rewrite Hname. }
    unfold create_env_from_vars. destruct (_ && _); [|done]. by rewrite lookup_insert_ne by by apply Hne. }
  assert (inject_permission_profile_env (inject_session_id_env (create_env_from_vars vars policy thread_id) session_id) profile !! name = None) as Hp.
  { unfold inject_permission_profile_env, inject_session_id_env.
    destruct profile; [rewrite lookup_insert_ne by by apply Hne|]; (destruct windows; [rewrite retain_lookup; destruct (negb _); [|done]|
      rewrite lookup_delete_ne by by apply Hne]); by rewrite lookup_insert_ne by by apply Hne. }
  unfold inject_apply_patch_env. destruct preserve; [rewrite lookup_insert_ne by by apply Hne|]; rewrite retain_lookup, Hp; by destruct (negb _).
Qed.
End Environment.

(** ** Examples *)

Module MiniEnv.
(** Patterns with stars at both ends. *)
#[local] Instance mini_wild : WildMatch := λ pattern name,
  match strip_prefix (lit "*") pattern with
  | Some p => match strip_suffix (lit "*") p with Some p => contains (to_ascii_lowercase p) (to_ascii_lowercase name) | None => false end
  | None => eq_ignore_ascii_case pattern name
  end.
Definition process : list (str * str) :=
  [(lit "PATH", lit "/bin"); (lit "Api_Key", lit "k"); (lit "NODE_REPL_AUTH_TOKEN", lit "t"); (lit "EDITOR", lit "vi")].
Definition policy : ShellEnvironmentPolicy := mkShellPolicy All false [lit "EDITOR"] [(lit "CI", lit "1")] [] false.
(** The inclusions remove the variable the policy sets. *)
Definition included : ShellEnvironmentPolicy := mkShellPolicy All false [] [(lit "CI", lit "1")] [lit "PATH"] false.
Lemma environment_by_policy_witness :
  populate_env false process policy (Some (lit "7")) !! lit "PATH" = Some (lit "/bin") ∧
  populate_env false process policy (Some (lit "7")) !! lit "Api_Key" = None ∧
  populate_env false process included (Some (lit "7")) !! lit "CI" = None.
Proof.
  split_and!; [rewrite (environment_by_policy false process policy (Some (lit "7")))..
              |rewrite (environment_by_policy false process included (Some (lit "7")))]; try by vm_compute.
  all: by apply NoDup_singleton.
Defined.
Lemma launch_context_never_passes_witness :
  inject_apply_patch_env (inject_permission_profile_env false (inject_session_id_env
    (create_env_from_vars false process policy None) (lit "s")) None) true !! lit "Node_Repl_Auth_Token" = None.
Proof. apply launch_context_never_passes. by vm_compute. Defined.
End MiniEnv.
