(* ===== verification/TextArea.v ===== *)
(** * The composer's editable buffer

    The text area of the terminal user interface
    ([tui/src/bottom_pane/textarea.rs]) owns the text being composed, the
    cursor, the atomic elements (placeholders that are edited as one unit) and
    a kill buffer with a single entry.  Positions are byte offsets.  Every
    operation of plain editing is modelled: replacing the buffer, inserting,
    replacing and deleting ranges, killing and yanking, the horizontal, line
    and word motions, and the operations on elements.  [None] is a panic of
    the source: a slice or an edit at an offset that is not a char boundary, or
    a failed [assert!].

    The wrapping cache, which only vertical motion and rendering read, and the
    state of Vim's modal editing are left out, and with them the calls that
    reset or record them.  The Unicode segmentation library is the class
    [Segmentation]. *)
From stdpp Require Import numbers strings list.
From S2P Require Import Prelude RustStr ByteStr.

(** The operations of the [unicode_segmentation] crate the text area calls:
    [GraphemeCursor::prev_boundary] and [next_boundary] on a cursor over the
    whole text ([None] is an error, [Some None] the text's edge), and
    [split_word_bound_indices]. *)
Class Segmentation := {
  prev_boundary : str → N → option (option N);
  next_boundary : str → N → option (option N);
  split_word_bound_indices : str → list (N * str);
}.

(** What the crate documents of them: from a char boundary inside the text the
    cursor finds the neighbouring boundary, which is one of the text's char
    boundaries, and each word comes with the offset it has in the text. *)
Class SegmentationLaws `{Segmentation} := {
  prev_boundary_law s n :
    boundary s n → (0 < n)%N → ∃ b, prev_boundary s n = Some (Some b) ∧ (b < n)%N ∧ boundary s b;
  next_boundary_law s n :
    boundary s n → (n < blen s)%N →
    ∃ b, next_boundary s n = Some (Some b) ∧ (n < b)%N ∧ boundary s b;
  word_bounds_law s i w :
    (i, w) ∈ split_word_bound_indices s → get_range i (i + blen w) s = Some w;
}.

(** ** Data *)

(** [TextElement]; [te_start] and [te_end] are the bounds of its [range]. *)
Record text_element := TextElement { te_id : N; te_start : N; te_end : N }.

(** [TextElementSnapshot]. *)
Record text_element_snapshot :=
  TextElementSnapshot { ts_id : N; ts_start : N; ts_end : N; ts_text : str }.

Inductive kill_buffer_kind := Characterwise | Linewise.

Record text_area := TextArea {
  ta_text : str;
  ta_cursor_pos : N;
  ta_preferred_col : option N;
  ta_elements : list text_element;
  ta_next_element_id : N;
  ta_kill_buffer : str;
  ta_kill_buffer_kind : kill_buffer_kind;
}.

#[global] Instance text_element_eq_dec : EqDecision text_element.
Proof. solve_decision. Defined.
#[global] Instance kill_buffer_kind_eq_dec : EqDecision kill_buffer_kind.
Proof. solve_decision. Defined.

(** [TextArea::new]. *)
Definition ta_new : text_area := TextArea [] 0 None [] 1 [] Characterwise.

(** Field updates. *)
Definition with_text (t : str) (ta : text_area) : text_area :=
  TextArea t (ta_cursor_pos ta) (ta_preferred_col ta) (ta_elements ta) (ta_next_element_id ta)
    (ta_kill_buffer ta) (ta_kill_buffer_kind ta).
Definition with_cursor (c : N) (ta : text_area) : text_area :=
  TextArea (ta_text ta) c (ta_preferred_col ta) (ta_elements ta) (ta_next_element_id ta)
    (ta_kill_buffer ta) (ta_kill_buffer_kind ta).
Definition with_col (c : option N) (ta : text_area) : text_area :=
  TextArea (ta_text ta) (ta_cursor_pos ta) c (ta_elements ta) (ta_next_element_id ta)
    (ta_kill_buffer ta) (ta_kill_buffer_kind ta).
Definition with_elements (es : list text_element) (ta : text_area) : text_area :=
  TextArea (ta_text ta) (ta_cursor_pos ta) (ta_preferred_col ta) es (ta_next_element_id ta)
    (ta_kill_buffer ta) (ta_kill_buffer_kind ta).
Definition with_next_id (i : N) (ta : text_area) : text_area :=
  TextArea (ta_text ta) (ta_cursor_pos ta) (ta_preferred_col ta) (ta_elements ta) i
    (ta_kill_buffer ta) (ta_kill_buffer_kind ta).

Definition ta_len (ta : text_area) : N := blen (ta_text ta).
Definition u64_max : N := (2 ^ 64 - 1)%N.

(** [(x as isize + diff) as usize] and [x.saturating_add_signed(diff)].  The
    offsets stay within the length of a [String], which fits [isize], and
    where the sum is cast it is not negative ([shift_after_edit]). *)
Definition offset (x : N) (diff : Z) : N := Z.to_N (Z.of_N x + diff).

(** ** Elements and positions *)

(** [sort_by_key(|e| e.range.start)], a stable sort. *)
Fixpoint insert_by_start (e : text_element) (l : list text_element) : list text_element :=
  match l with
  | [] => [e]
  | h :: l' => if (te_start e <=? te_start h)%N then e :: l else h :: insert_by_start e l'
  end.
Definition sort_by_start (l : list text_element) : list text_element :=
  foldr insert_by_start [] l.

(** [next_element_id]. *)
Definition next_element_id (ta : text_area) : N * text_area :=
  (ta_next_element_id ta, with_next_id (N.min u64_max (ta_next_element_id ta + 1)) ta).

(** Strictly inside the element. *)
Definition inside (pos : N) (e : text_element) : bool :=
  ((te_start e <? pos) && (pos <? te_end e))%N.

(** [find_element_containing], with the element in place of its index. *)
Definition find_element_containing (ta : text_area) (pos : N) : option text_element :=
  List.find (inside pos) (ta_elements ta).

(** The two searches of [clamp_pos_to_char_boundary]. *)
Fixpoint boundary_down (fuel : nat) (s : str) (prev : N) : N :=
  match fuel with
  | O => prev
  | S f => if (0 <? prev)%N && negb (is_char_boundary s prev) then boundary_down f s (prev - 1)
           else prev
  end.
Fixpoint boundary_up (fuel : nat) (s : str) (next : N) : N :=
  match fuel with
  | O => next
  | S f => if (next <? blen s)%N && negb (is_char_boundary s next) then boundary_up f s (next + 1)
           else next
  end.

Definition clamp_pos_to_char_boundary (s : str) (pos : N) : N :=
  let pos := N.min pos (blen s) in
  if is_char_boundary s pos then pos
  else
    let prev := boundary_down (N.to_nat pos) s pos in
    let next := boundary_up (N.to_nat (blen s - pos)) s pos in
    if (pos - prev <=? next - pos)%N then prev else next.

Definition clamp_pos_to_nearest_boundary (ta : text_area) (pos : N) : N :=
  let pos := clamp_pos_to_char_boundary (ta_text ta) pos in
  match find_element_containing ta pos with
  | Some e =>
      let dist_start := (pos - te_start e)%N in
      let dist_end := (te_end e - pos)%N in
      if (dist_start <=? dist_end)%N then clamp_pos_to_char_boundary (ta_text ta) (te_start e)
      else clamp_pos_to_char_boundary (ta_text ta) (te_end e)
  | None => pos
  end.

Definition clamp_pos_for_insertion (ta : text_area) (pos : N) : N :=
  let pos := clamp_pos_to_char_boundary (ta_text ta) pos in
  match find_element_containing ta pos with
  | Some e =>
      let dist_start := (pos - te_start e)%N in
      let dist_end := (te_end e - pos)%N in
      if (dist_start <=? dist_end)%N then clamp_pos_to_char_boundary (ta_text ta) (te_start e)
      else clamp_pos_to_char_boundary (ta_text ta) (te_end e)
  | None => pos
  end.

(** One pass of [expand_range_to_element_boundaries] over the elements. *)
Definition expand_step (r : N * N) (e : text_element) : N * N :=
  if ((te_start e <? r.2) && (r.1 <? te_end e))%N
  then (N.min r.1 (te_start e), N.max r.2 (te_end e))
  else r.
Definition expand_pass (es : list text_element) (r : N * N) : N * N := foldl expand_step r es.

(** Its loop, until a pass changes nothing. *)
Fixpoint expand_loop (fuel : nat) (es : list text_element) (r : N * N) : N * N :=
  match fuel with
  | O => r
  | S f => let r' := expand_pass es r in
           if bool_decide (r' = r) then r else expand_loop f es r'
  end.
Definition expand_range_to_element_boundaries (ta : text_area) (r : N * N) : N * N :=
  expand_loop (S (length (ta_elements ta))) (ta_elements ta) r.

(** [shift_elements]: the elements the edit deletes, then the shift of the
    others. *)
Definition covered (a b : N) (e : text_element) : bool :=
  ((a <=? te_start e) && (te_end e <=? b))%N.

Definition shift_element (at_ end_ inserted : N) (e : text_element) : text_element :=
  let diff := (Z.of_N inserted - Z.of_N (end_ - at_))%Z in
  if (te_end e <=? at_)%N then e
  else if (end_ <=? te_start e)%N
  then TextElement (te_id e) (offset (te_start e) diff) (offset (te_end e) diff)
  else TextElement (te_id e) (N.min at_ (te_start e))
         (at_ + N.max inserted (te_end e - end_)).

Definition shift_elements (at_ removed inserted : N) (es : list text_element)
  : list text_element :=
  let end_ := (at_ + removed)%N in
  shift_element at_ end_ inserted <$>
    List.filter (λ e, negb (covered at_ end_ e)) es.

Definition update_elements_after_replace (start end_ inserted_len : N)
    (es : list text_element) : list text_element :=
  shift_elements start (end_ - start) inserted_len es.

(** ** Replacing the buffer *)

(** The loop of [set_text_inner] over the given ranges. *)
Fixpoint push_elements (text : str) (ranges : list (N * N)) (ta : text_area) : text_area :=
  match ranges with
  | [] => ta
  | (a, b) :: rest =>
      let start := clamp_pos_to_char_boundary text (N.min a (blen text)) in
      let end_ := clamp_pos_to_char_boundary text (N.min b (blen text)) in
      if (end_ <=? start)%N then push_elements text rest ta
      else let '(id, ta) := next_element_id ta in
           push_elements text rest
             (with_elements (ta_elements ta ++ [TextElement id start end_]) ta)
  end.

Definition set_text_inner (text : str) (elements : option (list (N * N))) (ta : text_area)
  : text_area :=
  let ta := with_text text ta in
  let ta := with_cursor (N.min (ta_cursor_pos ta) (ta_len ta)) ta in
  let ta := with_elements [] ta in
  let ta := match elements with
            | Some ranges =>
                let ta := push_elements text ranges ta in
                with_elements (sort_by_start (ta_elements ta)) ta
            | None => ta
            end in
  with_col None (with_cursor (clamp_pos_to_nearest_boundary ta (ta_cursor_pos ta)) ta).

Definition set_text_clearing_elements (text : str) (ta : text_area) : text_area :=
  set_text_inner text None ta.
Definition set_text_with_elements (text : str) (elements : list (N * N)) (ta : text_area)
  : text_area := set_text_inner text (Some elements) ta.

(** ** Editing *)

Definition insert_str_at (pos : N) (text : str) (ta : text_area) : option text_area :=
  let pos := clamp_pos_for_insertion ta pos in
  new_text ← str_insert pos text (ta_text ta);
  let ta := with_text new_text ta in
  let ta := if (pos <=? ta_cursor_pos ta)%N
            then with_cursor (ta_cursor_pos ta + blen text) ta else ta in
  Some (with_col None (with_elements (shift_elements pos 0 (blen text) (ta_elements ta)) ta)).

Definition insert_str (text : str) (ta : text_area) : option text_area :=
  insert_str_at (ta_cursor_pos ta) text ta.

Definition replace_range_raw (r : N * N) (text : str) (ta : text_area) : option text_area :=
  if (r.2 <? r.1)%N then None
  else
    let start := N.min r.1 (ta_len ta) in
    let end_ := N.min r.2 (ta_len ta) in
    let removed_len := (end_ - start)%N in
    let inserted_len := blen text in
    if ((removed_len =? 0) && (inserted_len =? 0))%N then Some ta
    else
      let diff := (Z.of_N inserted_len - Z.of_N removed_len)%Z in
      new_text ← str_replace_range r.1 r.2 text (ta_text ta);
      let ta := with_col None (with_text new_text ta) in
      let ta := with_elements
                  (update_elements_after_replace start end_ inserted_len (ta_elements ta)) ta in
      let c := ta_cursor_pos ta in
      let c' := if (c <? start)%N then c
                else if (c <=? end_)%N then (start + inserted_len)%N
                else offset c diff in
      let ta := with_cursor (N.min c' (ta_len ta)) ta in
      Some (with_cursor (clamp_pos_to_nearest_boundary ta (ta_cursor_pos ta)) ta).

Definition replace_range (r : N * N) (text : str) (ta : text_area) : option text_area :=
  replace_range_raw (expand_range_to_element_boundaries ta r) text ta.

Definition set_cursor (pos : N) (ta : text_area) : text_area :=
  let ta := with_cursor (N.min pos (ta_len ta)) ta in
  with_col None (with_cursor (clamp_pos_to_nearest_boundary ta (ta_cursor_pos ta)) ta).

(** ** Kill buffer *)

Definition store_kill_buffer (text : str) (kind : kill_buffer_kind) (ta : text_area)
  : text_area :=
  TextArea (ta_text ta) (ta_cursor_pos ta) (ta_preferred_col ta) (ta_elements ta)
    (ta_next_element_id ta) text kind.

Definition kill_range_with_kind (r : N * N) (kind : kill_buffer_kind) (ta : text_area)
  : option text_area :=
  let r := expand_range_to_element_boundaries ta r in
  if (r.2 <=? r.1)%N then Some ta
  else
    removed ← get_range r.1 r.2 (ta_text ta);
    match removed with
    | [] => Some ta
    | _ => replace_range_raw r [] (store_kill_buffer removed kind ta)
    end.
Definition kill_range (r : N * N) (ta : text_area) : option text_area :=
  kill_range_with_kind r Characterwise ta.
Definition kill_line_range (r : N * N) (ta : text_area) : option text_area :=
  kill_range_with_kind r Linewise ta.

Definition yank_range_with_kind (r : N * N) (kind : kill_buffer_kind) (ta : text_area)
  : option text_area :=
  let r := expand_range_to_element_boundaries ta r in
  if (r.2 <=? r.1)%N then Some ta
  else
    removed ← get_range r.1 r.2 (ta_text ta);
    match removed with
    | [] => Some ta
    | _ => Some (store_kill_buffer removed kind ta)
    end.
Definition yank_range (r : N * N) (ta : text_area) : option text_area :=
  yank_range_with_kind r Characterwise ta.
Definition yank_line_range (r : N * N) (ta : text_area) : option text_area :=
  yank_range_with_kind r Linewise ta.

Definition yank (ta : text_area) : option text_area :=
  match ta_kill_buffer ta with
  | [] => Some ta
  | text => insert_str text ta
  end.

(** ** Lines *)

Definition is_LF (c : char) : bool := (c =? LF)%N.

Definition beginning_of_line (ta : text_area) (pos : N) : option N :=
  pre ← slice_to pos (ta_text ta);
  Some (match rfind_char is_LF pre with Some (i, _) => (i + 1)%N | None => 0%N end).
Definition beginning_of_current_line (ta : text_area) : option N :=
  beginning_of_line ta (ta_cursor_pos ta).

Definition end_of_line (ta : text_area) (pos : N) : option N :=
  post ← slice_from pos (ta_text ta);
  Some (match find_char is_LF post with Some i => (i + pos)%N | None => ta_len ta end).
Definition end_of_current_line (ta : text_area) : option N :=
  end_of_line ta (ta_cursor_pos ta).

Definition first_non_blank_of_current_line (ta : text_area) : option N :=
  bol ← beginning_of_current_line ta;
  eol ← end_of_current_line ta;
  line ← get_range bol eol (ta_text ta);
  Some (match find_char (λ c, negb (is_whitespace c)) line with
        | Some i => (bol + i)%N
        | None => eol
        end).

Definition current_line_range_with_newline (ta : text_area) : option (N * N) :=
  bol ← beginning_of_current_line ta;
  eol ← end_of_current_line ta;
  Some (bol, if (eol <? ta_len ta)%N then (eol + 1)%N else eol).

Definition kill_to_end_of_line (ta : text_area) : option text_area :=
  eol ← end_of_current_line ta;
  let c := ta_cursor_pos ta in
  if (c =? eol)%N then
    if (eol <? ta_len ta)%N then kill_range (c, (eol + 1)%N) ta else Some ta
  else kill_range (c, eol) ta.

Definition vim_kill_to_end_of_line (ta : text_area) : option text_area :=
  eol ← end_of_current_line ta;
  if (ta_cursor_pos ta <? eol)%N then kill_range (ta_cursor_pos ta, eol) ta else Some ta.

Definition kill_to_beginning_of_line (ta : text_area) : option text_area :=
  bol ← beginning_of_current_line ta;
  let c := ta_cursor_pos ta in
  if (c =? bol)%N then
    if (0 <? bol)%N then kill_range ((bol - 1)%N, bol) ta else Some ta
  else kill_range (bol, c) ta.

Definition yank_current_line (ta : text_area) : option text_area :=
  r ← current_line_range_with_newline ta; yank_line_range r ta.
Definition kill_current_line (ta : text_area) : option text_area :=
  r ← current_line_range_with_newline ta; kill_line_range r ta.

Definition paste_line_after_current_line (ta : text_area) : option text_area :=
  eol ← end_of_current_line ta;
  let more := (eol <? ta_len ta)%N in
  let insert_at := if more then (eol + 1)%N else eol in
  let cursor := if more then insert_at else (insert_at + 1)%N in
  let text := if more then
                if ends_with [LF] (ta_kill_buffer ta) then ta_kill_buffer ta
                else ta_kill_buffer ta ++ [LF]
              else LF :: trim_end_matches is_LF (ta_kill_buffer ta) in
  ta ← insert_str_at insert_at text ta;
  Some (set_cursor (N.min cursor (ta_len ta)) ta).

Definition move_cursor_to_beginning_of_line (move_up_at_bol : bool) (ta : text_area)
  : option text_area :=
  bol ← beginning_of_current_line ta;
  ta ← (if move_up_at_bol && (ta_cursor_pos ta =? bol)%N
        then pos ← beginning_of_line ta (ta_cursor_pos ta - 1); Some (set_cursor pos ta)
        else Some (set_cursor bol ta));
  Some (with_col None ta).

Definition move_cursor_to_end_of_line (move_down_at_eol : bool) (ta : text_area)
  : option text_area :=
  eol ← end_of_current_line ta;
  if move_down_at_eol && (ta_cursor_pos ta =? eol)%N then
    let next_pos := N.min (ta_cursor_pos ta + 1) (ta_len ta) in
    pos ← end_of_line ta next_pos; Some (set_cursor pos ta)
  else Some (set_cursor eol ta).

(** ** Elements *)

Definition element_payloads (ta : text_area) : list str :=
  omap (λ e, get_range (te_start e) (te_end e) (ta_text ta)) (ta_elements ta).

(** [text_elements]: each element's byte range with its placeholder. *)
Definition text_elements (ta : text_area) : list (N * N * option str) :=
  (λ e, (te_start e, te_end e, get_range (te_start e) (te_end e) (ta_text ta)))
    <$> ta_elements ta.

Definition text_element_snapshots (ta : text_area) : list text_element_snapshot :=
  omap (λ e, TextElementSnapshot (te_id e) (te_start e) (te_end e)
               <$> get_range (te_start e) (te_end e) (ta_text ta)) (ta_elements ta).

Fixpoint take_while {A} (p : A → bool) (l : list A) : list A :=
  match l with
  | [] => []
  | x :: l' => if p x then x :: take_while p l' else []
  end.

(** [partition_point] on a partitioned slice is the length of the prefix on
    which the predicate holds. *)
Definition text_element_ranges_overlapping (ta : text_area) (r : N * N) : list (N * N) :=
  let first := length (take_while (λ e, te_end e <=? r.1)%N (ta_elements ta)) in
  (λ e, (te_start e, te_end e)) <$>
    take_while (λ e, te_start e <? r.2)%N (drop first (ta_elements ta)).

Definition element_id_for_exact_range (ta : text_area) (r : N * N) : option N :=
  te_id <$> List.find (λ e, bool_decide ((te_start e, te_end e) = r)) (ta_elements ta).

Definition add_element (start end_ : N) (ta : text_area) : N * text_area :=
  let '(id, ta) := next_element_id ta in
  (id, with_elements (sort_by_start (ta_elements ta ++ [TextElement id start end_])) ta).

Definition insert_element (text : str) (ta : text_area) : option (N * text_area) :=
  let start := clamp_pos_for_insertion ta (ta_cursor_pos ta) in
  ta ← insert_str_at start text ta;
  let end_ := (start + blen text)%N in
  let '(id, ta) := add_element start end_ ta in
  Some (id, set_cursor end_ ta).

Definition add_element_range (r : N * N) (ta : text_area) : option N * text_area :=
  let start := clamp_pos_to_char_boundary (ta_text ta) (N.min r.1 (ta_len ta)) in
  let end_ := clamp_pos_to_char_boundary (ta_text ta) (N.min r.2 (ta_len ta)) in
  if (end_ <=? start)%N then (None, ta)
  else if existsb (λ e, (te_start e =? start) && (te_end e =? end_))%N (ta_elements ta)
  then (None, ta)
  else if existsb (λ e, (start <? te_end e) && (te_start e <? end_))%N (ta_elements ta)
  then (None, ta)
  else let '(id, ta) := add_element start end_ ta in (Some id, ta).

Definition remove_element_range (r : N * N) (ta : text_area) : bool * text_area :=
  let start := clamp_pos_to_char_boundary (ta_text ta) (N.min r.1 (ta_len ta)) in
  let end_ := clamp_pos_to_char_boundary (ta_text ta) (N.min r.2 (ta_len ta)) in
  if (end_ <=? start)%N then (false, ta)
  else
    let es := List.filter (λ e, negb (te_start e =? start) || negb (te_end e =? end_))%N
                (ta_elements ta) in
    (negb (length (ta_elements ta) =? length es), with_elements es ta).

(** The shift of the other elements in [replace_element_payload]. *)
Definition shift_other (start end_ inserted_len : N) (e : text_element) : text_element :=
  let diff := (Z.of_N inserted_len - Z.of_N (end_ - start))%Z in
  if (diff =? 0)%Z then e
  else if (te_end e <=? start)%N then e
  else if (end_ <=? te_start e)%N
  then TextElement (te_id e) (offset (te_start e) diff) (offset (te_end e) diff)
  else TextElement (te_id e) (N.min start (te_start e))
         (N.max (start + inserted_len) (offset (te_end e) diff)).

Definition replace_element_payload (old new : str) (ta : text_area)
  : option (bool * text_area) :=
  match list_find (λ e, get_range (te_start e) (te_end e) (ta_text ta) = Some old)
          (ta_elements ta) with
  | None => Some (false, ta)
  | Some (idx, elem) =>
      let start := te_start elem in
      let end_ := te_end elem in
      if ((end_ <? start) || (ta_len ta <? end_))%N then Some (false, ta)
      else
        let inserted_len := blen new in
        let diff := (Z.of_N inserted_len - Z.of_N (end_ - start))%Z in
        new_text ← str_replace_range start end_ new (ta_text ta);
        let ta := with_col None (with_text new_text ta) in
        let es := imap (λ j e, if (j =? idx)
                               then TextElement (te_id e) start (start + inserted_len)
                               else shift_other start end_ inserted_len e) (ta_elements ta) in
        let ta := with_elements es ta in
        let c := ta_cursor_pos ta in
        let c' := if (c <? start)%N then c
                  else if (c <=? end_)%N then (start + inserted_len)%N
                  else offset c diff in
        let ta := with_cursor (clamp_pos_to_nearest_boundary ta c') ta in
        Some (true, with_elements (sort_by_start (ta_elements ta)) ta)
  end.

(** ** Words *)

(** The double quote is written by its code. *)
Definition WORD_SEPARATORS : str :=
  lit "`~!@#$%^&*()-=+[{]}\|;:'" ++ [34%N] ++ lit ",.<>/?".
Definition is_word_separator (ch : char) : bool := contains_char ch WORD_SEPARATORS.

(** The inner loop of [split_word_pieces] over one segment; [cur] is the text
    from [piece_start] to [idx]. *)
Fixpoint segment_pieces (idx : N) (chars : str) (piece_start : N) (cur : str)
    (in_separator : bool) : list (N * str) :=
  match chars with
  | [] => [(piece_start, cur)]
  | ch :: chars' =>
      let is_separator := is_word_separator ch in
      if Bool.eqb is_separator in_separator
      then segment_pieces (idx + len_utf8 ch) chars' piece_start (cur ++ [ch]) in_separator
      else (piece_start, cur)
             :: segment_pieces (idx + len_utf8 ch) chars' idx [ch] is_separator
  end.

Section segmented.
Context `{Segmentation}.

Definition split_word_pieces (run : str) : list (N * str) :=
  '(segment_start, segment) ← split_word_bound_indices run;
  match segment with
  | [] => []
  | ch :: chars =>
      (λ '(i, w), (segment_start + i, w)%N)
        <$> segment_pieces (len_utf8 ch) chars 0 [ch] (is_word_separator ch)
  end.

Definition prev_atomic_boundary (ta : text_area) (pos : N) : N :=
  if (pos =? 0)%N then 0%N
  else match List.find (λ e, (te_start e <? pos) && (pos <=? te_end e))%N (ta_elements ta) with
       | Some e => te_start e
       | None =>
           match prev_boundary (ta_text ta) pos with
           | Some (Some b) => match find_element_containing ta b with
                              | Some e => te_start e
                              | None => b
                              end
           | Some None => 0%N
           | None => (pos - 1)%N
           end
       end.

Definition next_atomic_boundary (ta : text_area) (pos : N) : N :=
  if (ta_len ta <=? pos)%N then ta_len ta
  else match List.find (λ e, (te_start e <=? pos) && (pos <? te_end e))%N (ta_elements ta) with
       | Some e => te_end e
       | None =>
           match next_boundary (ta_text ta) pos with
           | Some (Some b) => match find_element_containing ta b with
                              | Some e => te_end e
                              | None => b
                              end
           | Some None => ta_len ta
           | None => (pos + 1)%N
           end
       end.

Definition adjust_pos_out_of_elements (ta : text_area) (pos : N) (prefer_start : bool) : N :=
  match find_element_containing ta pos with
  | Some e => if prefer_start then te_start e else te_end e
  | None => pos
  end.

(** The [peek] loops of the word motions: the last of the leading pieces that
    consist of separators, through [f]. *)
Fixpoint skip_separators (f : N * str → N) (acc : N) (pieces : list (N * str)) : N :=
  match pieces with
  | [] => acc
  | w :: rest => if forallb is_word_separator w.2 then skip_separators f (f w) rest else acc
  end.

Definition beginning_of_previous_word (ta : text_area) : option N :=
  prefix ← slice_to (ta_cursor_pos ta) (ta_text ta);
  match rfind_char (λ c, negb (is_whitespace c)) prefix with
  | None => Some 0%N
  | Some (first_non_ws_idx, ch) =>
      before ← slice_to first_non_ws_idx prefix;
      let run_start := match rfind_char is_whitespace before with
                       | Some (idx, c) => (idx + len_utf8 c)%N
                       | None => 0%N
                       end in
      let run_end := (first_non_ws_idx + len_utf8 ch)%N in
      run ← get_range run_start run_end prefix;
      match rev (split_word_pieces run) with
      | [] => Some run_start
      | (piece_start, piece) :: rest =>
          let start := (run_start + piece_start)%N in
          let start := if forallb is_word_separator piece
                       then skip_separators (λ w, (run_start + w.1)%N) start rest else start in
          Some (adjust_pos_out_of_elements ta start true)
      end
  end.

Definition end_of_next_word_from (ta : text_area) (cursor_pos : N) : option N :=
  suffix ← slice_from cursor_pos (ta_text ta);
  match find_char (λ c, negb (is_whitespace c)) suffix with
  | None => Some (ta_len ta)
  | Some first_non_ws =>
      run ← slice_from first_non_ws suffix;
      run ← slice_to (default (blen run) (find_char is_whitespace run)) run;
      match split_word_pieces run with
      | [] => Some (cursor_pos + first_non_ws)%N
      | (start, piece) :: rest =>
          let word_start := (cursor_pos + first_non_ws + start)%N in
          let end_ := (word_start + blen piece)%N in
          let end_ := if forallb is_word_separator piece
                      then skip_separators
                             (λ w, (cursor_pos + first_non_ws + w.1 + blen w.2)%N) end_ rest
                      else end_ in
          Some (adjust_pos_out_of_elements ta end_ false)
      end
  end.
Definition end_of_next_word (ta : text_area) : option N :=
  end_of_next_word_from ta (ta_cursor_pos ta).

Definition beginning_of_next_word (ta : text_area) : option N :=
  rest ← slice_from (ta_cursor_pos ta) (ta_text ta);
  match find_char (λ c, negb (is_whitespace c)) rest with
  | None => Some (ta_len ta)
  | Some first_non_ws =>
      let word_start := (ta_cursor_pos ta + first_non_ws)%N in
      if negb (word_start =? ta_cursor_pos ta)%N
      then Some (adjust_pos_out_of_elements ta word_start true)
      else
        end_ ← end_of_next_word ta;
        if (ta_len ta <=? end_)%N then Some (ta_len ta)
        else
          rest ← slice_from end_ (ta_text ta);
          match find_char (λ c, negb (is_whitespace c)) rest with
          | None => Some (ta_len ta)
          | Some next_non_ws => Some (adjust_pos_out_of_elements ta (end_ + next_non_ws) true)
          end
  end.

Definition vim_word_end_exclusive (ta : text_area) : option N :=
  end_ ← end_of_next_word ta;
  let target := if (ta_cursor_pos ta <? end_)%N then prev_atomic_boundary ta end_ else end_ in
  if ((target =? ta_cursor_pos ta) && (end_ <? ta_len ta))%N
  then end_of_next_word_from ta end_ else Some end_.

Definition vim_word_end_cursor (ta : text_area) : option N :=
  end_ ← vim_word_end_exclusive ta;
  Some (if (ta_cursor_pos ta <? end_)%N then prev_atomic_boundary ta end_ else end_).

Definition vim_line_end_cursor (ta : text_area) : option N :=
  bol ← beginning_of_current_line ta;
  eol ← end_of_current_line ta;
  Some (if (bol <? eol)%N then N.max (prev_atomic_boundary ta eol) bol else eol).

Definition vim_normal_end_cursor (ta : text_area) : N :=
  match ta_text ta with [] => 0%N | _ => prev_atomic_boundary ta (ta_len ta) end.

(** ** Deleting, pasting and moving *)

(** The Thai nonspacing marks [delete_backward] deletes one by one. *)
Definition is_thai_mark (c : char) : bool :=
  ((c =? 0xe31) || ((0xe34 <=? c) && (c <=? 0xe3a)) || ((0xe47 <=? c) && (c <=? 0xe4e)))%N.

(** [s.char_indices().next_back()]. *)
Definition char_indices_next_back (s : str) : option (N * char) := rfind_char (λ _, true) s.

Definition delete_backward_target (ta : text_area) (target : N) : option N :=
  pre ← slice_to target (ta_text ta);
  Some (match char_indices_next_back pre with
        | Some (b, ch) =>
            if is_thai_mark ch
               && negb (existsb (λ e, (te_start e <? target) && (target <=? te_end e))%N
                          (ta_elements ta))
            then b else prev_atomic_boundary ta target
        | None => prev_atomic_boundary ta target
        end).

Fixpoint delete_backward_loop (n : nat) (ta : text_area) (target : N) : option N :=
  match n with
  | O => Some target
  | S n' =>
      target ← delete_backward_target ta target;
      if (target =? 0)%N then Some target else delete_backward_loop n' ta target
  end.

Definition delete_backward (n : nat) (ta : text_area) : option text_area :=
  if (n =? 0) || (ta_cursor_pos ta =? 0)%N then Some ta
  else target ← delete_backward_loop n ta (ta_cursor_pos ta);
       replace_range (target, ta_cursor_pos ta) [] ta.

Fixpoint delete_forward_loop (n : nat) (ta : text_area) (target : N) : N :=
  match n with
  | O => target
  | S n' => let target := next_atomic_boundary ta target in
            if (ta_len ta <=? target)%N then target else delete_forward_loop n' ta target
  end.

Definition delete_forward (n : nat) (ta : text_area) : option text_area :=
  if (n =? 0) || (ta_len ta <=? ta_cursor_pos ta)%N then Some ta
  else replace_range (ta_cursor_pos ta, delete_forward_loop n ta (ta_cursor_pos ta)) [] ta.

Definition delete_forward_kill (n : nat) (ta : text_area) : option text_area :=
  if (n =? 0) || (ta_len ta <=? ta_cursor_pos ta)%N then Some ta
  else kill_range (ta_cursor_pos ta, delete_forward_loop n ta (ta_cursor_pos ta)) ta.

Definition delete_backward_word (ta : text_area) : option text_area :=
  start ← beginning_of_previous_word ta; kill_range (start, ta_cursor_pos ta) ta.

Definition delete_forward_word (ta : text_area) : option text_area :=
  end_ ← end_of_next_word ta;
  if (ta_cursor_pos ta <? end_)%N then kill_range (ta_cursor_pos ta, end_) ta else Some ta.

Definition paste_after_cursor (ta : text_area) : option text_area :=
  match ta_kill_buffer ta with
  | [] => Some ta
  | text =>
      if bool_decide (ta_kill_buffer_kind ta = Linewise) then paste_line_after_current_line ta
      else insert_str text (set_cursor (next_atomic_boundary ta (ta_cursor_pos ta)) ta)
  end.

Definition move_cursor_left (ta : text_area) : text_area :=
  with_col None (with_cursor (prev_atomic_boundary ta (ta_cursor_pos ta)) ta).
Definition move_cursor_right (ta : text_area) : text_area :=
  with_col None (with_cursor (next_atomic_boundary ta (ta_cursor_pos ta)) ta).

(** ** Editor actions *)

(** [VimInsertPosition]. *)
Inductive insert_position :=
  | AtCursor | AfterCursor | LineStart | LineEnd | OpenAbove | OpenBelow.

(** The actions of [VimAction] that the plain editor keymap and the insert
    commands perform.  Vertical motion and the operators with a target are
    left out. *)
Inductive editor_action :=
  | AInsert (position : insert_position)
  | AReplace (ch : char)
  | APasteAfter
  | ADeleteBackward
  | ADeleteForward
  | ADeleteBackwardWord
  | ADeleteForwardWord
  | AKillLineStart
  | AKillLine
  | AKillLineEnd
  | AMoveLeft
  | AMoveRight
  | AMoveWordLeft
  | AMoveWordRight
  | AMoveLineStart (move_up_at_bol : bool)
  | AMoveLineEnd (move_down_at_eol : bool).

(** The arm [VimAction::Insert] of [apply_vim_editor_action]. *)
Definition apply_insert_position (position : insert_position) (ta : text_area)
  : option text_area :=
  match position with
  | AtCursor => Some ta
  | AfterCursor => Some (set_cursor (next_atomic_boundary ta (ta_cursor_pos ta)) ta)
  | LineStart => pos ← first_non_blank_of_current_line ta; Some (set_cursor pos ta)
  | LineEnd => pos ← end_of_current_line ta; Some (set_cursor pos ta)
  | OpenAbove =>
      bol ← beginning_of_current_line ta;
      ta ← insert_str_at bol [LF] ta;
      Some (set_cursor bol ta)
  | OpenBelow =>
      let prior_len := ta_len ta in
      eol ← end_of_current_line ta;
      let insert_at := if (eol <? prior_len)%N then (eol + 1)%N else eol in
      ta ← insert_str_at insert_at [LF] ta;
      Some (set_cursor (if (eol <? prior_len)%N then insert_at else (insert_at + 1)%N) ta)
  end.

(** The other arms; a [VimAction::Replace] at the end of the line does nothing. *)
Definition apply_editor_action (action : editor_action) (ta : text_area) : option text_area :=
  match action with
  | AInsert position => apply_insert_position position ta
  | AReplace ch =>
      eol ← end_of_current_line ta;
      if (eol <=? ta_cursor_pos ta)%N then Some ta
      else
        let start := ta_cursor_pos ta in
        let end_ := next_atomic_boundary ta start in
        ta ← replace_range (start, end_) [ch] ta;
        Some (set_cursor (start + (if is_LF ch then 1 else 0)) ta)%N
  | APasteAfter => paste_after_cursor ta
  | ADeleteBackward => delete_backward 1 ta
  | ADeleteForward => delete_forward 1 ta
  | ADeleteBackwardWord => delete_backward_word ta
  | ADeleteForwardWord => delete_forward_word ta
  | AKillLineStart => kill_to_beginning_of_line ta
  | AKillLine => kill_current_line ta
  | AKillLineEnd => kill_to_end_of_line ta
  | AMoveLeft => Some (move_cursor_left ta)
  | AMoveRight => Some (move_cursor_right ta)
  | AMoveWordLeft => pos ← beginning_of_previous_word ta; Some (set_cursor pos ta)
  | AMoveWordRight => pos ← end_of_next_word ta; Some (set_cursor pos ta)
  | AMoveLineStart move_up_at_bol => move_cursor_to_beginning_of_line move_up_at_bol ta
  | AMoveLineEnd move_down_at_eol => move_cursor_to_end_of_line move_down_at_eol ta
  end.
End segmented.
