(* ===== verification/TextAreaProofs.v ===== *)
(** * Correctness of the composer's editable buffer

    The invariant of the text area: elements are non-empty, lie between char
    boundaries, are ordered and do not overlap; the cursor is at a char
    boundary and never strictly inside an element.  Clamping finds the nearest
    boundary, expanding a range is the least closure under the elements it
    touches, an edit keeps every element it does not cover, and a kill followed
    by a yank restores the text. *)
From stdpp Require Import numbers strings list.
From Stdlib Require Import Sorting.Sorted.
From S2P Require Import Prelude RustStr ByteStr TextArea.

(** ** Clamping to a char boundary *)

Lemma boundary_down_spec fuel s n :
  N.to_nat n ≤ fuel →
  boundary s (boundary_down fuel s n) ∧ (boundary_down fuel s n ≤ n)%N ∧
  ∀ b, boundary s b → (b ≤ n)%N → (b ≤ boundary_down fuel s n)%N.
Proof.
  revert n. induction fuel as [|f IH]; intros n Hf; simpl.
  - assert (n = 0%N) as -> by lia. split_and!; [apply boundary_0|lia|auto].
  - destruct (N.ltb_spec 0 n); simpl.
    + destruct (is_char_boundary s n) eqn:E; simpl; [split_and!; [done|lia|auto]|].
      destruct (IH (n - 1)%N) as (H1 & H2 & H3); [lia|]. split_and!; [done|lia|].
      intros b Hb Hle. apply H3; [done|].
      destruct (decide (b = n)) as [->|]; [by unfold boundary in Hb; congruence|lia].
    + assert (n = 0%N) as -> by lia. split_and!; [apply boundary_0|lia|auto].
Qed.

Lemma boundary_up_spec fuel s n :
  (n ≤ blen s)%N → N.to_nat (blen s - n) ≤ fuel →
  boundary s (boundary_up fuel s n) ∧ (n ≤ boundary_up fuel s n)%N ∧
  ∀ b, boundary s b → (n ≤ b)%N → (boundary_up fuel s n ≤ b)%N.
Proof.
  revert n. induction fuel as [|f IH]; intros n Hn Hf; simpl.
  - assert (n = blen s) as -> by lia. split_and!; [apply boundary_len|lia|auto].
  - destruct (N.ltb_spec n (blen s)); simpl.
    + destruct (is_char_boundary s n) eqn:E; simpl; [split_and!; [done|lia|auto]|].
      destruct (IH (n + 1)%N) as (H1 & H2 & H3); [lia..|]. split_and!; [done|lia|].
      intros b Hb Hle. apply H3; [done|].
      destruct (decide (b = n)) as [->|]; [by unfold boundary in Hb; congruence|lia].
    + assert (n = blen s) as -> by lia. split_and!; [apply boundary_len|lia|auto].
Qed.

Lemma clamp_id s n : boundary s n → clamp_pos_to_char_boundary s n = n.
Proof.
  intros Hn. unfold clamp_pos_to_char_boundary. pose proof (boundary_le _ _ Hn).
  rewrite (N.min_l n (blen s)) by done. by unfold boundary in Hn; rewrite Hn.
Qed.

Lemma clamp_boundary s n : boundary s (clamp_pos_to_char_boundary s n).
Proof.
  unfold clamp_pos_to_char_boundary.
  destruct (is_char_boundary s (N.min n (blen s))) eqn:E; [done|].
  destruct (_ <=? _)%N; [by apply boundary_down_spec|by apply boundary_up_spec; lia].
Qed.

Definition dist (a b : N) : N := N.max a b - N.min a b.

(** Clamping a position to a char boundary returns a boundary, and none of the text's
    boundaries is nearer to the position (or to the end of the text, for a position past it). *)
Lemma clamp_is_nearest s n :
  boundary s (clamp_pos_to_char_boundary s n) ∧
  ∀ b, boundary s b →
    (dist (clamp_pos_to_char_boundary s n) (N.min n (blen s)) ≤ dist b (N.min n (blen s)))%N.
Proof.
  split; [apply clamp_boundary|]. intros b Hb. unfold clamp_pos_to_char_boundary, dist.
  set (p := N.min n (blen s)). assert (p ≤ blen s)%N by lia.
  destruct (is_char_boundary s p); [lia|].
  destruct (boundary_down_spec (N.to_nat p) s p) as (_ & ? & Hd); [done|].
  destruct (boundary_up_spec (N.to_nat (blen s - p)) s p) as (_ & ? & Hu); [done|done|].
  specialize (Hd b Hb). specialize (Hu b Hb).
  destruct (N.leb_spec (p - boundary_down (N.to_nat p) s p)
              (boundary_up (N.to_nat (blen s - p)) s p - p));
    destruct (N.le_gt_cases b p); lia.
Qed.

(** ** The invariant *)

Definition elem_ok (s : str) (e : text_element) : Prop :=
  (te_start e < te_end e)%N ∧ boundary s (te_start e) ∧ boundary s (te_end e).
Definition elem_before (e1 e2 : text_element) : Prop := (te_end e1 ≤ te_start e2)%N.

Definition wf_elements (s : str) (es : list text_element) : Prop :=
  Forall (elem_ok s) es ∧ StronglySorted elem_before es.

(** No element has the position strictly inside it. *)
Definition free (es : list text_element) (pos : N) : Prop :=
  Forall (λ e, inside pos e = false) es.

Definition wf (ta : text_area) : Prop :=
  wf_elements (ta_text ta) (ta_elements ta) ∧
  boundary (ta_text ta) (ta_cursor_pos ta) ∧ free (ta_elements ta) (ta_cursor_pos ta).

Lemma inside_spec pos e : inside pos e = true ↔ (te_start e < pos < te_end e)%N.
Proof. unfold inside. rewrite andb_true_iff, !N.ltb_lt. done. Qed.

Lemma free_iff es pos :
  free es pos ↔ ∀ e, e ∈ es → (pos ≤ te_start e ∨ te_end e ≤ pos)%N.
Proof.
  unfold free. rewrite Forall_forall. split; intros H e He; specialize (H e He).
  - destruct (N.le_gt_cases pos (te_start e)); [by left|]. right.
    destruct (N.le_gt_cases (te_end e) pos); [done|].
    assert (inside pos e = true) by (apply inside_spec; lia). congruence.
  - apply not_true_iff_false. rewrite inside_spec. lia.
Qed.

Lemma wf_elements_disjoint s es e1 e2 :
  wf_elements s es → e1 ∈ es → e2 ∈ es → e1 = e2 ∨ elem_before e1 e2 ∨ elem_before e2 e1.
Proof.
  intros [_ HS]. induction HS as [|e es HS IH Hall]; [by rewrite elem_of_nil|].
  rewrite !elem_of_cons. rewrite Forall_forall in Hall. intros [->|H1] [->|H2]; auto.
Qed.

Lemma wf_elements_ok s es e : wf_elements s es → e ∈ es → elem_ok s e.
Proof. intros [H _]. rewrite Forall_forall in H. auto. Qed.

(** The edges of an element are outside every element. *)
Lemma free_edges s es e :
  wf_elements s es → e ∈ es → free es (te_start e) ∧ free es (te_end e).
Proof.
  intros Hwf He. pose proof (wf_elements_ok _ _ _ Hwf He) as [? _].
  rewrite !free_iff. split; intros e2 He2; pose proof (wf_elements_ok _ _ _ Hwf He2) as [? _];
    destruct (wf_elements_disjoint _ _ _ _ Hwf He He2) as [->|[HH|HH]]; unfold elem_before in *; lia.
Qed.

Lemma List_find_Some {A} (p : A → bool) l x : List.find p l = Some x → x ∈ l ∧ p x = true.
Proof. intros [H ?]%List.find_some. by rewrite list_elem_of_In. Qed.

Lemma List_find_None {A} (p : A → bool) l : List.find p l = None → Forall (λ x, p x = false) l.
Proof.
  intros H. apply Forall_forall. intros x Hx. apply (List.find_none _ _ H). by apply list_elem_of_In.
Qed.

(** ** Clamping out of the elements *)

Lemma clamp_insertion_nearest ta pos :
  clamp_pos_for_insertion ta pos = clamp_pos_to_nearest_boundary ta pos.
Proof. reflexivity. Qed.

Lemma nearest_ok ta pos :
  wf_elements (ta_text ta) (ta_elements ta) →
  boundary (ta_text ta) (clamp_pos_to_nearest_boundary ta pos) ∧
  free (ta_elements ta) (clamp_pos_to_nearest_boundary ta pos).
Proof.
  intros Hwf. unfold clamp_pos_to_nearest_boundary, find_element_containing.
  destruct (List.find _ _) as [e|] eqn:E.
  - apply List_find_Some in E as [He _]. pose proof (wf_elements_ok _ _ _ Hwf He) as (_ & ? & ?).
    pose proof (free_edges _ _ _ Hwf He) as [? ?]. destruct (_ <=? _)%N; by rewrite clamp_id.
  - apply List_find_None in E. split; [apply clamp_boundary|done].
Qed.

Lemma nearest_id ta pos :
  boundary (ta_text ta) pos → free (ta_elements ta) pos →
  clamp_pos_to_nearest_boundary ta pos = pos.
Proof.
  intros Hb Hf. unfold clamp_pos_to_nearest_boundary, find_element_containing.
  rewrite clamp_id by done. destruct (List.find _ _) as [e|] eqn:E; [|done].
  apply List_find_Some in E as [He ?]. unfold free in Hf. rewrite Forall_forall in Hf.
  specialize (Hf _ He). congruence.
Qed.

(** ** Expanding a range *)

(** The range contains every element it touches. *)
Definition closed (es : list text_element) (r : N * N) : Prop :=
  ∀ e, e ∈ es → (te_start e < r.2)%N → (r.1 < te_end e)%N → (r.1 ≤ te_start e ∧ te_end e ≤ r.2)%N.
Definition within (r r' : N * N) : Prop := (r'.1 ≤ r.1 ∧ r.2 ≤ r'.2)%N.

#[global] Instance within_preorder : PreOrder within.
Proof. split; [intros r|intros r1 r2 r3]; unfold within; lia. Qed.

Lemma expand_step_within r e : within r (expand_step r e).
Proof. unfold expand_step, within. destruct (_ && _); simpl; lia. Qed.

Lemma expand_pass_within es r : within r (expand_pass es r).
Proof.
  revert r. induction es as [|e es IH]; intros r; simpl; [done|].
  etrans; [apply expand_step_within|apply IH].
Qed.

Lemma expand_pass_least es r r' : within r r' → closed es r' → within (expand_pass es r) r'.
Proof.
  revert r. induction es as [|e es IH]; intros r Hr Hc; simpl; [done|].
  apply IH.
  - unfold expand_step. destruct (N.ltb_spec (te_start e) r.2); simpl; [|done].
    destruct (N.ltb_spec r.1 (te_end e)); simpl; [|done].
    unfold within in *. destruct (Hc e); [apply elem_of_cons; auto|lia|lia|]. simpl. lia.
  - intros x Hx. apply Hc. apply elem_of_cons. auto.
Qed.

Lemma within_antisymm r r' : within r r' → within r' r → r = r'.
Proof. destruct r, r'. unfold within. simpl. intros. f_equal; lia. Qed.

(** A pass that changes nothing has found a closed range. *)
Lemma expand_pass_fixed es r : expand_pass es r = r → closed es r.
Proof.
  intros H e He H1 H2.
  apply list_elem_of_split in He as (l1 & l2 & ->).
  unfold expand_pass in H. rewrite foldl_app in H. simpl in H.
  pose proof (expand_pass_within l1 r) as W1.
  pose proof (expand_step_within (foldl expand_step r l1) e) as W2.
  pose proof (expand_pass_within l2 (expand_step (foldl expand_step r l1) e)) as W3.
  unfold expand_pass in *. rewrite H in W3.
  assert (foldl expand_step r l1 = r) as E1.
  { apply within_antisymm; [|done]. by etrans. }
  rewrite E1 in *. assert (expand_step r e = r) as E2 by (by apply within_antisymm).
  unfold expand_step in E2. apply N.ltb_lt in H1, H2. rewrite H1, H2 in E2. simpl in E2.
  destruct r as [a b]. simplify_eq/=. lia.
Qed.

(** The elements not yet inside the range: each pass that changes it absorbs one more. *)
Definition outside (r : N * N) (e : text_element) : bool :=
  negb ((r.1 <=? te_start e) && (te_end e <=? r.2))%N.
Definition n_outside (es : list text_element) (r : N * N) : nat :=
  length (List.filter (outside r) es).

Lemma n_outside_mono es r r' : within r r' → n_outside es r' ≤ n_outside es r.
Proof.
  unfold n_outside, within. intros Hw. induction es as [|e es IH]; simpl; [lia|].
  assert (outside r' e = true → outside r e = true).
  { unfold outside. rewrite !negb_true_iff, !andb_false_iff, !N.leb_gt. lia. }
  destruct (outside r' e), (outside r e); simpl; naive_solver lia.
Qed.

Lemma n_outside_step es r e :
  e ∈ es → expand_step r e ≠ r → n_outside es (expand_step r e) < n_outside es r.
Proof.
  intros He Hne. pose proof (expand_step_within r e) as Hw.
  apply list_elem_of_split in He as (l1 & l2 & ->).
  unfold n_outside. rewrite !List.filter_app, !length_app. simpl.
  pose proof (n_outside_mono l1 _ _ Hw) as M1. pose proof (n_outside_mono l2 _ _ Hw) as M2.
  unfold n_outside in *.
  assert (outside (expand_step r e) e = false ∧ outside r e = true) as [-> ->]; [|simpl; lia].
  unfold expand_step, outside in *. destruct r as [a b]; simpl in *.
  destruct ((te_start e <? b)%N && (a <? te_end e)%N); [|done]. simpl.
  rewrite negb_false_iff, negb_true_iff, andb_true_iff, andb_false_iff, !N.leb_le, !N.leb_gt.
  split; [lia|]. destruct (N.le_gt_cases a (te_start e)), (N.le_gt_cases (te_end e) b); auto.
  exfalso. apply Hne. f_equal; lia.
Qed.

Lemma expand_pass_progress es l r :
  (∀ e, e ∈ l → e ∈ es) → expand_pass l r ≠ r → n_outside es (expand_pass l r) < n_outside es r.
Proof.
  revert r. induction l as [|e l IH]; intros r Hin Hne; simpl in *; [done|].
  destruct (decide (expand_step r e = r)) as [E|E].
  - rewrite E in *. apply IH; [|done]. intros x Hx. apply Hin, elem_of_cons. auto.
  - assert (n_outside es (expand_step r e) < n_outside es r) as Hlt.
    { apply n_outside_step; [apply Hin, elem_of_cons; auto|done]. }
    pose proof (n_outside_mono es _ _ (expand_pass_within l (expand_step r e))).
    unfold expand_pass in *. lia.
Qed.

Lemma expand_loop_spec fuel es r :
  n_outside es r < fuel →
  within r (expand_loop fuel es r) ∧ closed es (expand_loop fuel es r) ∧
  ∀ r', within r r' → closed es r' → within (expand_loop fuel es r) r'.
Proof.
  revert r. induction fuel as [|f IH]; intros r Hf; [lia|]. simpl.
  case_bool_decide as E; [split_and!; [done|by apply expand_pass_fixed|auto]|].
  pose proof (expand_pass_progress es es r ltac:(auto) E).
  destruct (IH (expand_pass es r)) as (H1 & H2 & H3); [lia|]. split_and!; [|done|].
  - etrans; [apply expand_pass_within|done].
  - intros r' Hr Hc. apply H3; [|done]. by apply expand_pass_least.
Qed.

Lemma expand_range_spec ta r :
  let r' := expand_range_to_element_boundaries ta r in
  within r r' ∧ closed (ta_elements ta) r' ∧
  ∀ r'', within r r'' → closed (ta_elements ta) r'' → within r' r''.
Proof.
  apply expand_loop_spec. unfold n_outside.
  pose proof (List.filter_length_le (outside r) (ta_elements ta)). lia.
Qed.

(** Expanding a range to element boundaries ends with the least range that contains it and
    contains every element it touches, for any elements, overlapping ones too; a range that touches
    no element partially is returned unchanged. *)
Lemma expansion_is_least_closure ta r :
  let r' := expand_range_to_element_boundaries ta r in
  within r r' ∧ closed (ta_elements ta) r' ∧
  (∀ r'', within r r'' → closed (ta_elements ta) r'' → within r' r'') ∧
  (closed (ta_elements ta) r → r' = r).
Proof.
  destruct (expand_range_spec ta r) as (H1 & H2 & H3). split_and!; [done..|].
  intros Hc. apply within_antisymm; [by apply H3|done].
Qed.

(** ** Elements across an edit *)

Lemma StronglySorted_List_filter {A} (R : A → A → Prop) p l :
  StronglySorted R l → StronglySorted R (List.filter p l).
Proof.
  induction 1 as [|x l HS IH Hx]; simpl; [constructor|]. destruct (p x); [|done].
  constructor; [done|]. rewrite Forall_forall in *. intros y Hy. apply Hx.
  apply list_elem_of_In in Hy. apply list_elem_of_In. by apply List.filter_In in Hy as [? _].
Qed.

Lemma StronglySorted_fmap_in {A B} (R : A → A → Prop) (R' : B → B → Prop) (f : A → B) l :
  (∀ x y, x ∈ l → y ∈ l → R x y → R' (f x) (f y)) →
  StronglySorted R l → StronglySorted R' (f <$> l).
Proof.
  intros Hf HS. induction HS as [|x l HS IH Hx]; simpl; constructor.
  - apply IH. intros; apply Hf; [apply elem_of_cons; auto..|done].
  - rewrite Forall_forall in Hx. apply Forall_forall. intros y (z & -> & Hz)%list_elem_of_fmap.
    apply Hf; [apply elem_of_cons; auto..|]. auto.
Qed.

(** An element outside a closed range lies before or after it. *)
Lemma kept_cases s es a b e :
  wf_elements s es → closed es (a, b) →
  e ∈ List.filter (λ e, negb (covered a b e)) es →
  elem_ok s e ∧ (te_end e ≤ a ∨ b ≤ te_start e)%N.
Proof.
  intros Hwf Hc [He Hk]%elem_of_List_filter. pose proof (wf_elements_ok _ _ _ Hwf He) as Hok.
  split; [done|]. unfold covered in Hk. specialize (Hc e He). simpl in Hc.
  rewrite negb_true_iff, andb_false_iff, !N.leb_gt in Hk.
  destruct (N.le_gt_cases (te_end e) a), (N.le_gt_cases b (te_start e)); auto. lia.
Qed.

Lemma shift_element_before a b ins e : (te_end e ≤ a)%N → shift_element a b ins e = e.
Proof. intros H. unfold shift_element. by rewrite (proj2 (N.leb_le _ _) H). Qed.

Lemma shift_element_after a b ins e :
  (a ≤ b ≤ te_start e)%N → (te_start e < te_end e)%N →
  shift_element a b ins e =
    TextElement (te_id e) (te_start e - (b - a) + ins) (te_end e - (b - a) + ins).
Proof.
  intros H1 H2. unfold shift_element, offset. destruct (N.leb_spec (te_end e) a); [lia|].
  destruct (N.leb_spec b (te_start e)); [|lia]. f_equal; lia.
Qed.

Section edit_elements.
Context (p m q t : str) (es : list text_element).
Local Abbreviation a := (blen p).
Local Abbreviation b := (blen p + blen m)%N.
Hypothesis Hwf : wf_elements (p ++ m ++ q) es.
Hypothesis Hclosed : closed es (a, b).

(** The image of an element that the edit keeps: untouched before the edit,
    shifted after it. *)
Lemma kept_shift e :
  e ∈ List.filter (λ e, negb (covered a b e)) es →
  elem_ok (p ++ m ++ q) e ∧
  ((te_end e ≤ a)%N ∧ shift_element a b (blen t) e = e ∨
   (b ≤ te_start e)%N ∧ shift_element a b (blen t) e =
     TextElement (te_id e) (te_start e - blen m + blen t) (te_end e - blen m + blen t)).
Proof using Hwf Hclosed.
  intros He. destruct (kept_cases _ _ _ _ _ Hwf Hclosed He) as [Hok [H|H]]; split; try done.
  - left. split; [done|]. by apply shift_element_before.
  - right. split; [done|]. destruct Hok as [? _]. rewrite shift_element_after by lia.
    f_equal; lia.
Qed.

Lemma shift_elements_wf :
  wf_elements (p ++ t ++ q) (shift_elements a (blen m) (blen t) es).
Proof using Hwf Hclosed.
  unfold shift_elements. split.
  - apply Forall_forall. intros x (e & -> & He)%list_elem_of_fmap.
    destruct (kept_shift e He) as [(? & Hs & He') [[? ->]|[? ->]]]; unfold elem_ok; simpl.
    + split_and!; [done|eapply edit_boundary_before; [lia|done]..].
    + split_and!; [lia|by apply edit_boundary_after|by apply edit_boundary_after; [lia|]].
  - destruct Hwf as [_ HS].
    eapply StronglySorted_fmap_in; [|by apply StronglySorted_List_filter].
    intros x y Hx Hy. unfold elem_before. fold a b in Hx, Hy.
    destruct (kept_shift x Hx) as [(? & _) [[? ->]|[? ->]]], (kept_shift y Hy) as [(? & _) [[? ->]|[? ->]]];
      simpl; lia.
Qed.

(** The ids and payloads of the elements after the edit are those of the
    elements it does not cover. *)
Lemma shift_elements_payloads :
  (λ e, (te_id e, get_range (te_start e) (te_end e) (p ++ t ++ q)))
    <$> shift_elements a (blen m) (blen t) es =
  (λ e, (te_id e, get_range (te_start e) (te_end e) (p ++ m ++ q)))
    <$> List.filter (λ e, negb (covered a b e)) es.
Proof using Hwf Hclosed.
  unfold shift_elements. rewrite <-list_fmap_compose. apply list_fmap_ext.
  intros i e He%list_elem_of_lookup_2. simpl.
  destruct (kept_shift e He) as [(? & Hs & He') [[? ->]|[? ->]]]; simpl; f_equal.
  - by apply edit_get_before.
  - destruct (proj2 (get_range_is_Some (p ++ m ++ q) (te_start e) (te_end e))) as [x Hx];
      [split_and!; [done..|lia]|].
    rewrite Hx. by apply edit_get_after.
Qed.
End edit_elements.

(** ** Editing operations *)

Lemma closed_point es pos : free es pos → closed es (pos, pos).
Proof. rewrite free_iff. intros H e He. specialize (H e He). simpl. lia. Qed.

Lemma insert_str_at_spec pos t ta :
  wf ta → ∃ p q,
    ta_text ta = p ++ q ∧ blen p = clamp_pos_for_insertion ta pos ∧ free (ta_elements ta) (blen p) ∧
    insert_str_at pos t ta = Some (TextArea (p ++ t ++ q)
      (if (blen p <=? ta_cursor_pos ta)%N then ta_cursor_pos ta + blen t else ta_cursor_pos ta)%N
      None (shift_elements (blen p) 0 (blen t) (ta_elements ta)) (ta_next_element_id ta)
      (ta_kill_buffer ta) (ta_kill_buffer_kind ta)).
Proof.
  intros (Hwf & _ & _). rewrite clamp_insertion_nearest.
  destruct (nearest_ok ta pos Hwf) as [(p & q & E & Hp)%boundary_iff Hf].
  exists p, q. rewrite Hp. split_and!; [done..|].
  unfold insert_str_at. rewrite clamp_insertion_nearest, <-Hp, E, str_insert_split. simpl.
  by destruct (_ <=? _)%N.
Qed.

(** The cursor stays out of the elements when text is inserted at a position
    outside them. *)
Lemma free_after_insert s es n k c :
  wf_elements s es → free es n → free es c →
  free (shift_elements n 0 k es) (if (n <=? c)%N then c + k else c)%N.
Proof.
  rewrite !free_iff. intros Hwf Hn Hc e (x & -> & Hx)%list_elem_of_fmap.
  assert (closed es (n, n)) as Hcl by (apply closed_point; by rewrite free_iff).
  rewrite N.add_0_r in *.
  destruct (kept_cases s es n n x Hwf Hcl Hx) as [[? _] [H|H]].
  - rewrite shift_element_before by done. apply elem_of_List_filter in Hx as [Hx _].
    specialize (Hc x Hx). destruct (N.leb_spec n c); lia.
  - rewrite shift_element_after by lia. simpl. apply elem_of_List_filter in Hx as [Hx _].
    specialize (Hc x Hx). destruct (N.leb_spec n c); lia.
Qed.

Lemma insert_str_at_ok pos t ta :
  wf ta → ∃ ta', insert_str_at pos t ta = Some ta' ∧ wf ta'.
Proof.
  intros H. destruct (insert_str_at_spec pos t ta H) as (p & q & E & _ & Hf & ->).
  eexists; split; [done|]. destruct H as (Hwf & Hb & Hc). rewrite E in Hwf, Hb.
  split_and!; simpl.
  - apply (shift_elements_wf p [] q t); [done|]. simpl. rewrite N.add_0_r. by apply closed_point.
  - destruct (N.leb_spec (blen p) (ta_cursor_pos ta)).
    + replace (ta_cursor_pos ta) with (ta_cursor_pos ta - blen (@nil char))%N by (simpl; lia).
      apply (edit_boundary_after p [] q t); [simpl; lia|done].
    + apply (edit_boundary_before p [] q t); [lia|done].
  - by eapply free_after_insert.
Qed.

Lemma set_cursor_ok pos ta :
  wf_elements (ta_text ta) (ta_elements ta) → wf (set_cursor pos ta).
Proof.
  intros Hwf. unfold set_cursor. split; [done|].
  apply (nearest_ok (with_cursor (N.min pos (ta_len ta)) ta)). done.
Qed.

Lemma set_cursor_id pos ta :
  boundary (ta_text ta) pos → free (ta_elements ta) pos → ta_cursor_pos (set_cursor pos ta) = pos.
Proof.
  intros Hb Hf. unfold set_cursor. simpl. pose proof (boundary_le _ _ Hb).
  unfold ta_len. rewrite N.min_l by done. by apply nearest_id.
Qed.

(** [replace_range_raw] on a closed range between boundaries. *)
Lemma replace_range_raw_spec p m q t ta :
  wf ta → ta_text ta = p ++ m ++ q → closed (ta_elements ta) (blen p, blen p + blen m)%N →
  ∃ ta', replace_range_raw (blen p, blen p + blen m)%N t ta = Some ta' ∧ wf ta' ∧
    ta_text ta' = p ++ t ++ q ∧
    ta_kill_buffer ta' = ta_kill_buffer ta ∧ ta_kill_buffer_kind ta' = ta_kill_buffer_kind ta ∧
    ta_next_element_id ta' = ta_next_element_id ta ∧
    (t ≠ [] ∨ m ≠ [] → ta_elements ta' = shift_elements (blen p) (blen m) (blen t) (ta_elements ta)) ∧
    ((blen p ≤ ta_cursor_pos ta ≤ blen p + blen m)%N → (t ≠ [] ∨ m ≠ []) →
       ta_cursor_pos ta' = clamp_pos_to_nearest_boundary ta' (blen p + blen t)).
Proof.
  intros Hwf E Hc. unfold replace_range_raw, ta_len. simpl.
  destruct (N.ltb_spec (blen p + blen m) (blen p)); [lia|].
  rewrite E, !blen_app, !N.min_l by lia.
  replace (blen p + blen m - blen p)%N with (blen m) by lia.
  destruct ((blen m =? 0)%N && (blen t =? 0)%N) eqn:Z.
  - apply andb_true_iff in Z as [->%N.eqb_eq%blen_zero ->%N.eqb_eq%blen_zero].
    exists ta. split_and!; [done..| |]; naive_solver.
  - rewrite str_replace_range_split. simpl. eexists; split; [done|].
    destruct Hwf as (Hwf & Hb & Hf). rewrite E in Hwf.
    replace (update_elements_after_replace (blen p) (blen p + blen m) (blen t) (ta_elements ta))
      with (shift_elements (blen p) (blen m) (blen t) (ta_elements ta))
      by (unfold update_elements_after_replace; f_equal; lia).
    pose proof (shift_elements_wf p m q t (ta_elements ta) Hwf Hc) as Hwf'.
    split_and!; simpl; try done.
    + split; [done|]. clear -Hwf'.
      match goal with |- context [clamp_pos_to_nearest_boundary ?x ?y] => by apply (nearest_ok x y) end.
    + intros [? ?] _. destruct (N.ltb_spec (ta_cursor_pos ta) (blen p)); [lia|].
      destruct (N.leb_spec (ta_cursor_pos ta) (blen p + blen m)); [|lia].
      rewrite !blen_app, N.min_l by lia. done.
Qed.

(** The operation returns, in a state that satisfies the invariant. *)
Definition runs (o : option text_area) : Prop := ∃ ta', o = Some ta' ∧ wf ta'.

Definition range_ok (s : str) (r : N * N) : Prop :=
  boundary s r.1 ∧ boundary s r.2 ∧ (r.1 ≤ r.2)%N.

Lemma expand_step_ok s r e : elem_ok s e → range_ok s r → range_ok s (expand_step r e).
Proof.
  intros (? & ? & ?) (? & ? & ?). unfold expand_step, range_ok. destruct (_ && _); [|done]. simpl.
  split_and!; [by destruct (N.min_spec r.1 (te_start e)) as [[_ ->]|[_ ->]]
              |by destruct (N.max_spec r.2 (te_end e)) as [[_ ->]|[_ ->]]|lia].
Qed.

Lemma expand_pass_ok s es r : Forall (elem_ok s) es → range_ok s r → range_ok s (expand_pass es r).
Proof.
  intros Hes. revert r. induction Hes as [|e es He Hes IH]; intros r Hr; simpl; [done|].
  apply IH. by apply expand_step_ok.
Qed.

Lemma expand_ok ta r :
  wf_elements (ta_text ta) (ta_elements ta) → range_ok (ta_text ta) r →
  range_ok (ta_text ta) (expand_range_to_element_boundaries ta r).
Proof.
  intros [Hes _]. unfold expand_range_to_element_boundaries.
  generalize (S (length (ta_elements ta))). intros n. revert r.
  induction n as [|n IH]; intros r Hr; simpl; [done|].
  case_bool_decide; [done|]. apply IH. by apply expand_pass_ok.
Qed.

(** The text around the expanded range. *)
Lemma expand_split ta r :
  wf_elements (ta_text ta) (ta_elements ta) → range_ok (ta_text ta) r →
  ∃ p m q, ta_text ta = p ++ m ++ q ∧
    expand_range_to_element_boundaries ta r = (blen p, blen p + blen m)%N ∧
    closed (ta_elements ta) (blen p, blen p + blen m)%N ∧
    (blen p ≤ r.1 ∧ r.2 ≤ blen p + blen m)%N.
Proof.
  intros Hwf Hr. destruct (expand_ok _ _ Hwf Hr) as (Ha & Hb & Hle).
  destruct (expand_range_spec ta r) as ([? ?] & Hc & _).
  destruct (expand_range_to_element_boundaries ta r) as [a b]. simpl in *.
  destruct (boundary_split _ _ _ Ha Hb Hle) as (p & m & q & E & <- & <-). by exists p, m, q.
Qed.

Lemma replace_range_ok r t ta :
  wf ta → range_ok (ta_text ta) r → runs (replace_range r t ta).
Proof.
  intros Hwf Hr. destruct (expand_split ta r) as (p & m & q & E & H & Hc & _); [apply Hwf|done|].
  unfold replace_range. rewrite H.
  destruct (replace_range_raw_spec p m q t ta Hwf E Hc) as (ta' & ? & ? & _). by exists ta'.
Qed.

Lemma wf_store s k ta : wf ta → wf (store_kill_buffer s k ta).
Proof. done. Qed.

(** A kill of a non-empty range: the text goes to the kill buffer and the
    cursor, if it was in the range, to its start. *)
Lemma kill_range_spec r k ta :
  wf ta → range_ok (ta_text ta) r → (r.1 < r.2)%N →
  ∃ p m q ta', ta_text ta = p ++ m ++ q ∧ m ≠ [] ∧
    expand_range_to_element_boundaries ta r = (blen p, blen p + blen m)%N ∧
    closed (ta_elements ta) (blen p, blen p + blen m)%N ∧
    kill_range_with_kind r k ta = Some ta' ∧ wf ta' ∧ ta_text ta' = p ++ q ∧
    ta_kill_buffer ta' = m ∧ ta_kill_buffer_kind ta' = k ∧
    ta_elements ta' = shift_elements (blen p) (blen m) 0 (ta_elements ta) ∧
    ((r.1 ≤ ta_cursor_pos ta ≤ r.2)%N →
       ta_cursor_pos ta' = clamp_pos_to_nearest_boundary ta' (blen p)).
Proof.
  intros Hwf Hr Hlt. destruct (expand_split ta r) as (p & m & q & E & H & Hc & ? & ?);
    [apply Hwf|done|].
  assert (m ≠ []) as Hm by (intros ->; simpl in *; lia).
  destruct (replace_range_raw_spec p m q [] (store_kill_buffer m k ta) (wf_store m k ta Hwf) E Hc)
    as (ta' & Hrun & Hwf' & Ht & Hk & Hkk & _ & He & Hcur).
  exists p, m, q, ta'. split_and!; try done.
  - unfold kill_range_with_kind. rewrite H. simpl.
    destruct (N.leb_spec (blen p + blen m) (blen p)).
    { exfalso. assert (blen m ≠ 0)%N by (by rewrite blen_zero). lia. }
    assert (get_range (blen p) (blen p + blen m) (ta_text ta) = Some m) as ->.
    { apply get_range_Some. eauto. }
    simpl. by destruct m.
  - by apply He; right.
  - intros [? ?]. rewrite Hcur; [by rewrite N.add_0_r|simpl; lia|by right].
Qed.

Lemma kill_range_with_kind_ok r k ta :
  wf ta → range_ok (ta_text ta) r → runs (kill_range_with_kind r k ta).
Proof.
  intros Hwf Hr. destruct (N.le_gt_cases r.2 r.1).
  - destruct (expand_split ta r) as (p & m & q & E & H1 & Hc & ? & ?); [apply Hwf|done|].
    unfold kill_range_with_kind. rewrite H1. simpl.
    destruct (N.leb_spec (blen p + blen m) (blen p)); [by exists ta|].
    assert (get_range (blen p) (blen p + blen m) (ta_text ta) = Some m) as ->.
    { apply get_range_Some. eauto. }
    destruct (replace_range_raw_spec p m q [] (store_kill_buffer m k ta) (wf_store m k ta Hwf) E Hc)
      as (ta' & Hrun & Hwf' & _).
    simpl. destruct m; [by exists ta|by exists ta'].
  - destruct (kill_range_spec r k ta Hwf Hr) as (p & m & q & ta' & _ & _ & _ & _ & ? & ? & _); [done|].
    by exists ta'.
Qed.

Lemma yank_range_with_kind_ok r k ta :
  wf ta → range_ok (ta_text ta) r → runs (yank_range_with_kind r k ta).
Proof.
  intros Hwf Hr. destruct (expand_split ta r) as (p & m & q & E & H1 & Hc & ? & ?); [apply Hwf|done|].
  unfold yank_range_with_kind. rewrite H1. simpl. destruct (_ <=? _)%N; [by exists ta|].
  assert (get_range (blen p) (blen p + blen m) (ta_text ta) = Some m) as ->.
  { apply get_range_Some. eauto. }
  simpl. destruct m; [by exists ta|]. eexists; split; [done|]. by apply wf_store.
Qed.

Lemma yank_ok ta : wf ta → runs (yank ta).
Proof.
  intros Hwf. unfold yank. destruct (ta_kill_buffer ta); [by exists ta|].
  by apply insert_str_at_ok.
Qed.

(** ** What an edit keeps *)

Definition in_range (r : N * N) (s : text_element_snapshot) : bool :=
  ((r.1 <=? ts_start s) && (ts_end s <=? r.2))%N.
Definition id_text (s : text_element_snapshot) : N * str := (ts_id s, ts_text s).

(** An element's id and, when it lies between boundaries, its payload. *)
Definition view (s : str) (e : text_element) : N * option str :=
  (te_id e, get_range (te_start e) (te_end e) s).

Lemma snapshots_views ta :
  id_text <$> text_element_snapshots ta =
  omap (λ v, pair v.1 <$> v.2) (view (ta_text ta) <$> ta_elements ta).
Proof.
  unfold text_element_snapshots. induction (ta_elements ta) as [|e es IH]; simpl; [done|].
  destruct (get_range _ _ _); [exact (f_equal (cons _) IH)|exact IH].
Qed.

Lemma snapshots_filter ta r :
  id_text <$> List.filter (λ s, negb (in_range r s)) (text_element_snapshots ta) =
  omap (λ v, pair v.1 <$> v.2)
    (view (ta_text ta) <$> List.filter (λ e, negb (covered r.1 r.2 e)) (ta_elements ta)).
Proof.
  unfold text_element_snapshots. induction (ta_elements ta) as [|e es IH]; simpl; [done|].
  destruct (get_range (te_start e) (te_end e) (ta_text ta)) eqn:E; simpl.
  - unfold in_range at 1; simpl. fold (covered r.1 r.2 e).
    destruct (covered r.1 r.2 e); simpl; [exact IH|]. rewrite E. exact (f_equal (cons _) IH).
  - destruct (covered _ _ e); simpl; [exact IH|]. rewrite E. exact IH.
Qed.

Lemma filter_none_covered s es a :
  wf_elements s es → List.filter (λ e, negb (covered a a e)) es = es.
Proof.
  intros [H _]. induction H as [|e es [? _] _ IH]; simpl; [done|].
  unfold covered at 1. destruct (N.leb_spec a (te_start e)), (N.leb_spec (te_end e) a); simpl;
    try lia; by rewrite IH.
Qed.

(** Replacing a range between char boundaries never panics and keeps the invariant.  The text
    changes only in the range expanded to whole elements, and the elements outside that range are
    kept in order, each with its id and its payload; the covered ones are gone. *)
Theorem edits_keep_other_elements r t ta :
  wf ta → range_ok (ta_text ta) r →
  let r' := expand_range_to_element_boundaries ta r in
  ∃ ta' p m q, replace_range r t ta = Some ta' ∧ wf ta' ∧
    ta_text ta = p ++ m ++ q ∧ (blen p, blen p + blen m)%N = r' ∧ ta_text ta' = p ++ t ++ q ∧
    id_text <$> text_element_snapshots ta' =
      id_text <$> List.filter (λ s, negb (in_range r' s)) (text_element_snapshots ta).
Proof.
  intros Hwf Hr r'. destruct (expand_split ta r) as (p & m & q & E & H & Hc & _); [apply Hwf|done|].
  destruct (replace_range_raw_spec p m q t ta Hwf E Hc) as (ta' & Hrun & Hwf' & Ht & _ & _ & _ & He & _).
  exists ta', p, m, q. unfold replace_range, r'. rewrite H. split_and!; try done.
  rewrite snapshots_filter, snapshots_views, Ht. simpl. f_equal.
  pose proof (proj1 Hwf) as Hel. rewrite E in *.
  destruct (decide (t = [] ∧ m = [])) as [[-> ->]|Hne].
  - simpl in *. rewrite N.add_0_r, filter_none_covered with (s := p ++ q) by done.
    unfold replace_range_raw, ta_len in Hrun. simpl in Hrun. rewrite N.add_0_r, E in Hrun.
    destruct (N.ltb_spec (blen p) (blen p)); [lia|].
    rewrite N.sub_diag in Hrun. simpl in Hrun. by simplify_eq.
  - rewrite He by (destruct t, m; naive_solver). by apply shift_elements_payloads.
Qed.

(** ** Kill and yank *)

(** Putting back a removed range undoes the shift of the elements it kept. *)
Lemma shift_elements_back p m q es :
  wf_elements (p ++ m ++ q) es → closed es (blen p, blen p + blen m)%N →
  shift_elements (blen p) 0 (blen m) (shift_elements (blen p) (blen m) 0 es) =
  List.filter (λ e, negb (covered (blen p) (blen p + blen m) e)) es.
Proof.
  intros Hwf Hc. pose proof (shift_elements_wf p m q [] es Hwf Hc) as Hwf'.
  unfold shift_elements at 1. rewrite N.add_0_r.
  rewrite (filter_none_covered (p ++ q)) by done.
  unfold shift_elements. rewrite <-list_fmap_compose.
  etrans; [|apply list_fmap_id]. apply list_fmap_ext.
  intros i e He%list_elem_of_lookup_2.
  destruct (kept_shift p m q [] es Hwf Hc e He) as [(? & _) [[? Hs]|[? Hs]]]; simpl in *; rewrite Hs.
  - by apply shift_element_before.
  - rewrite shift_element_after by (simpl; lia). destruct e; simpl in *. f_equal; lia.
Qed.

Lemma free_after_kill p m q es :
  wf_elements (p ++ m ++ q) es → closed es (blen p, blen p + blen m)%N →
  free (shift_elements (blen p) (blen m) 0 es) (blen p).
Proof.
  intros Hwf Hc. apply free_iff. intros x (e & -> & He)%list_elem_of_fmap.
  destruct (kept_shift p m q [] es Hwf Hc e He) as [(? & _) [[? Hs]|[? Hs]]]; simpl in *;
    rewrite Hs; simpl; lia.
Qed.

(** The kill buffer survives clearing the buffer. *)
Lemma yank_after_clear ta :
  ta_kill_buffer ta ≠ [] →
  ∃ ta', yank (set_text_clearing_elements [] ta) = Some ta' ∧ ta_text ta' = ta_kill_buffer ta.
Proof.
  intros Hk. set (ta0 := set_text_clearing_elements [] ta).
  assert (wf ta0) as Hwf.
  { split; [by split; constructor|]. simpl. rewrite N.min_0_r. split; [done|constructor]. }
  destruct (insert_str_at_spec (ta_cursor_pos ta0) (ta_kill_buffer ta) ta0 Hwf)
    as (p & q & E & _ & _ & Hi).
  assert (p = [] ∧ q = []) as [-> ->] by (by apply app_nil).
  simpl in Hi. rewrite app_nil_r in Hi. unfold yank, insert_str.
  change (ta_kill_buffer ta0) with (ta_kill_buffer ta).
  destruct (ta_kill_buffer ta) as [|c m]; [done|]. eexists. split; [exact Hi|done].
Qed.

(** A kill around the cursor followed by a yank restores the text, leaves the cursor at the end
    of the restored span and keeps every element outside the killed span where it was.  The kill
    buffer also survives clearing the draft: a yank then brings back exactly the killed span. *)
Theorem kill_then_yank_restores r ta :
  wf ta → range_ok (ta_text ta) r → (r.1 < r.2)%N → (r.1 ≤ ta_cursor_pos ta ≤ r.2)%N →
  let r' := expand_range_to_element_boundaries ta r in
  ∃ killed ta1 ta2 ta3,
    get_range r'.1 r'.2 (ta_text ta) = Some killed ∧
    kill_range r ta = Some ta1 ∧ yank ta1 = Some ta2 ∧
    ta_text ta2 = ta_text ta ∧ ta_cursor_pos ta2 = r'.2 ∧
    ta_elements ta2 = List.filter (λ e, negb (covered r'.1 r'.2 e)) (ta_elements ta) ∧
    yank (set_text_clearing_elements [] ta1) = Some ta3 ∧ ta_text ta3 = killed.
Proof.
  intros Hwf Hr Hlt Hcur r'.
  destruct (kill_range_spec r Characterwise ta Hwf Hr Hlt)
    as (p & m & q & ta1 & E & Hm & HE & Hc & Hk & Hwf1 & Ht1 & Hb1 & _ & He1 & Hc1).
  pose proof (proj1 Hwf) as Hel. rewrite E in Hel.
  assert (clamp_pos_to_nearest_boundary ta1 (blen p) = blen p) as Hn.
  { apply nearest_id; [rewrite Ht1; apply boundary_blen_app|].
    rewrite He1. by eapply free_after_kill. }
  specialize (Hc1 Hcur). rewrite Hn in Hc1.
  destruct (insert_str_at_spec (ta_cursor_pos ta1) m ta1 Hwf1) as (p2 & q2 & E2 & Hp2 & _ & Hi).
  rewrite clamp_insertion_nearest, Hc1, Hn in Hp2. rewrite Ht1 in E2.
  destruct (app_blen_eq p2 q2 p q) as [-> ->]; [done..|].
  unfold r'. rewrite HE. simpl.
  destruct (yank_after_clear ta1) as (ta3 & Hy3 & Ht3); [by rewrite Hb1|].
  match type of Hi with _ = Some ?ta2 => exists m, ta1, ta2, ta3 end. split_and!.
  - apply get_range_Some. eauto.
  - done.
  - unfold yank. rewrite Hb1 in Hi |- *. destruct m as [|c m]; [done|]. exact Hi.
  - by rewrite E.
  - simpl. rewrite Hc1. by destruct (N.leb_spec (blen p) (blen p)); [|lia].
  - simpl. rewrite He1. by eapply shift_elements_back.
  - done.
  - by rewrite Ht3.
Qed.

(** ** Lines *)

Lemma LF_len : len_utf8 LF = 1%N.
Proof. reflexivity. Qed.

Lemma is_LF_spec c : is_LF c = true → c = LF.
Proof. apply N.eqb_eq. Qed.

(** The beginning of the line: a boundary at or before the position, at the
    start of the text or after a newline. *)
Lemma beginning_of_line_spec ta n :
  boundary (ta_text ta) n →
  ∃ b, beginning_of_line ta n = Some b ∧ boundary (ta_text ta) b ∧ (b ≤ n)%N ∧
    ((0 < b)%N → boundary (ta_text ta) (b - 1)).
Proof.
  intros (a & z & E & <-)%boundary_iff. unfold beginning_of_line.
  assert (slice_to (blen a) (ta_text ta) = Some a) as -> by (apply slice_to_Some; eauto).
  simpl. eexists; split; [done|]. destruct (rfind_char is_LF a) as [[i c]|] eqn:F.
  - apply rfind_char_Some in F as (u & v & -> & <- & ->%is_LF_spec & _). rewrite E.
    rewrite <-app_assoc. simpl. split_and!.
    + apply boundary_iff. exists (u ++ [LF]), (v ++ z). by rewrite <-app_assoc, blen_app.
    + rewrite blen_app. simpl. rewrite LF_len. lia.
    + intros _. replace (blen u + 1 - 1)%N with (blen u) by lia. apply boundary_blen_app.
  - split_and!; [apply boundary_0|lia|lia].
Qed.

Lemma end_of_line_spec ta n :
  boundary (ta_text ta) n →
  ∃ e, end_of_line ta n = Some e ∧ boundary (ta_text ta) e ∧ (n ≤ e)%N ∧
    ((e < ta_len ta)%N → boundary (ta_text ta) (e + 1)).
Proof.
  intros Hn. pose proof (boundary_le _ _ Hn). apply boundary_iff in Hn as (a & z & E & <-).
  unfold end_of_line.
  assert (slice_from (blen a) (ta_text ta) = Some z) as -> by (apply slice_from_Some; eauto).
  simpl. eexists; split; [done|]. destruct (find_char is_LF z) as [i|] eqn:F.
  - apply find_char_Some in F as (u & c & v & -> & <- & ->%is_LF_spec & _). rewrite E. split_and!.
    + rewrite app_assoc, N.add_comm, <-blen_app. apply boundary_blen_app.
    + lia.
    + intros _. apply boundary_iff. exists (a ++ u ++ [LF]), v. rewrite <-!app_assoc, !blen_app.
      split; [done|]. simpl. rewrite LF_len. lia.
  - split_and!; [apply boundary_len|done|unfold ta_len; lia].
Qed.

(** ** Concrete runs *)

(** The draft ["ab[x]cé"] with the element ["[x]"] and the cursor after ["a"]. *)
Definition sample_text : str := lit "ab[x]c" ++ [233%N].
Definition sample : text_area :=
  set_cursor 1 (set_text_with_elements sample_text [(2, 5)]%N ta_new).

Lemma sample_wf : wf sample.
Proof.
  split_and!; [split|vm_compute; reflexivity|]; repeat constructor; vm_compute; reflexivity.
Defined.

Lemma sample_range : range_ok (ta_text sample) (1, 3)%N.
Proof. split_and!; [vm_compute; reflexivity..|simpl; lia]. Defined.

Lemma edits_keep_other_elements_witness :
  wf sample ∧ range_ok (ta_text sample) (6, 8)%N ∧
  ∃ ta' p m q, replace_range (6, 8)%N (lit "!") sample = Some ta' ∧ wf ta' ∧
    ta_text sample = p ++ m ++ q ∧ (blen p, blen p + blen m)%N = (6, 8)%N ∧
    ta_text ta' = p ++ lit "!" ++ q ∧
    id_text <$> text_element_snapshots ta' = [(1%N, lit "[x]")].
Proof.
  assert (range_ok (ta_text sample) (6, 8)%N) as Hr.
  { split_and!; [vm_compute; reflexivity..|simpl; lia]. }
  split; [apply sample_wf|]. split; [exact Hr|].
  destruct (edits_keep_other_elements (6, 8)%N (lit "!") sample sample_wf Hr)
    as (ta' & p & m & q & H1 & H2 & H3 & H4 & H5 & H6).
  exists ta', p, m, q. split_and!; [assumption..|]. rewrite H6. vm_compute. reflexivity.
Defined.

Lemma kill_then_yank_restores_witness :
  wf sample ∧ range_ok (ta_text sample) (1, 3)%N ∧
  ∃ ta1 ta2 ta3, kill_range (1, 3)%N sample = Some ta1 ∧ yank ta1 = Some ta2 ∧
    ta_text ta2 = sample_text ∧ ta_cursor_pos ta2 = 5%N ∧ ta_elements ta2 = [] ∧
    yank (set_text_clearing_elements [] ta1) = Some ta3 ∧ ta_text ta3 = lit "b[x]".
Proof.
  split; [apply sample_wf|]. split; [apply sample_range|].
  destruct (kill_then_yank_restores (1, 3)%N sample sample_wf sample_range)
    as (killed & ta1 & ta2 & ta3 & H1 & H2 & H3 & H4 & H5 & H6 & H7 & H8);
    [simpl; lia|vm_compute; split; discriminate|].
  exists ta1, ta2, ta3. split_and!; try assumption.
  rewrite H8. vm_compute in H1. injection H1 as <-. vm_compute. reflexivity.
Defined.
