(* ===== verification/TextAreaOps.v ===== *)
(** * Every operation of the editable buffer

    Each operation of the text area keeps the invariant and never panics: the
    line and word motions compute char boundaries, deletions and kills edit
    ranges between boundaries, and the operations on elements keep them
    ordered and disjoint.  The closing theorem runs any sequence of operations
    from an empty buffer. *)
From stdpp Require Import numbers strings list.
From Stdlib Require Import Sorting.Sorted.
From S2P Require Import Prelude RustStr ByteStr TextArea TextAreaProofs.

Lemma runs_Some ta : wf ta → runs (Some ta).
Proof. intros. by exists ta. Qed.

Lemma runs_set_cursor pos ta : wf ta → runs (Some (set_cursor pos ta)).
Proof. intros H. apply runs_Some, set_cursor_ok, H. Qed.
#[local] Hint Resolve runs_Some runs_set_cursor kill_range_with_kind_ok yank_range_with_kind_ok
  replace_range_ok insert_str_at_ok : core.

(** Setting the cursor after an operation that runs. *)
Lemma runs_then_cursor (o : option text_area) (f : text_area → N) :
  runs o → runs (ta ← o; Some (set_cursor (f ta) ta)).
Proof. intros (ta & -> & H). simpl. by apply runs_set_cursor. Qed.

(** ** Lines *)

Section lines.
Context (ta : text_area) (Hwf : wf ta).

Lemma bol_spec :
  ∃ b, beginning_of_current_line ta = Some b ∧ boundary (ta_text ta) b ∧
    (b ≤ ta_cursor_pos ta)%N ∧ ((0 < b)%N → boundary (ta_text ta) (b - 1)).
Proof using Hwf. apply beginning_of_line_spec, Hwf. Qed.

Lemma eol_spec :
  ∃ e, end_of_current_line ta = Some e ∧ boundary (ta_text ta) e ∧
    (ta_cursor_pos ta ≤ e)%N ∧ ((e < ta_len ta)%N → boundary (ta_text ta) (e + 1)).
Proof using Hwf. apply end_of_line_spec, Hwf. Qed.

Lemma current_line_range_ok :
  ∃ r, current_line_range_with_newline ta = Some r ∧ range_ok (ta_text ta) r.
Proof using Hwf.
  destruct bol_spec as (b & Hb & ? & ? & _), eol_spec as (e & He & ? & ? & Hn).
  unfold current_line_range_with_newline. rewrite Hb, He. simpl. eexists; split; [done|].
  unfold range_ok; simpl. destruct (N.ltb_spec e (ta_len ta)); split_and!; auto; lia.
Qed.

Lemma kill_to_end_of_line_ok : runs (kill_to_end_of_line ta).
Proof using Hwf.
  destruct eol_spec as (e & He & ? & ? & Hn). unfold kill_to_end_of_line. rewrite He. simpl.
  destruct (N.eqb_spec (ta_cursor_pos ta) e); [destruct (N.ltb_spec e (ta_len ta)); [|auto]|];
    apply kill_range_with_kind_ok; try done; split_and!; simpl; auto; try apply Hwf; lia.
Qed.

Lemma vim_kill_to_end_of_line_ok : runs (vim_kill_to_end_of_line ta).
Proof using Hwf.
  destruct eol_spec as (e & He & ? & ? & Hn). unfold vim_kill_to_end_of_line. rewrite He. simpl.
  destruct (_ <? _)%N; [|auto]. apply kill_range_with_kind_ok; [done|].
  split_and!; [apply Hwf|done|done].
Qed.

Lemma kill_to_beginning_of_line_ok : runs (kill_to_beginning_of_line ta).
Proof using Hwf.
  destruct bol_spec as (b & Hb & ? & ? & Hn). unfold kill_to_beginning_of_line. rewrite Hb. simpl.
  destruct (N.eqb_spec (ta_cursor_pos ta) b); [destruct (N.ltb_spec 0 b); [|auto]|];
    apply kill_range_with_kind_ok; try done; split_and!; simpl; auto; try apply Hwf; lia.
Qed.

Lemma kill_current_line_ok : runs (kill_current_line ta).
Proof using Hwf.
  destruct current_line_range_ok as (r & Hr & ?). unfold kill_current_line. rewrite Hr.
  by apply kill_range_with_kind_ok.
Qed.

Lemma yank_current_line_ok : runs (yank_current_line ta).
Proof using Hwf.
  destruct current_line_range_ok as (r & Hr & ?). unfold yank_current_line. rewrite Hr.
  by apply yank_range_with_kind_ok.
Qed.

Lemma paste_line_ok : runs (paste_line_after_current_line ta).
Proof using Hwf.
  destruct eol_spec as (e & He & _). unfold paste_line_after_current_line. rewrite He. simpl.
  apply (runs_then_cursor _ (λ ta, N.min _ (ta_len ta))). by apply insert_str_at_ok.
Qed.

Lemma move_bol_ok b : runs (move_cursor_to_beginning_of_line b ta).
Proof using Hwf.
  destruct bol_spec as (n & Hn & ? & ? & Hp). unfold move_cursor_to_beginning_of_line. rewrite Hn.
  simpl. assert (∀ pos, runs (ta' ← Some (set_cursor pos ta); Some (with_col None ta'))) as Hset.
  { intros pos. simpl. apply runs_Some. apply (set_cursor_ok pos ta), Hwf. }
  destruct (b && _) eqn:E; [|apply Hset].
  apply andb_true_iff in E as [_ E%N.eqb_eq].
  destruct (beginning_of_line_spec ta (ta_cursor_pos ta - 1)) as (m & -> & _).
  { destruct (N.eq_dec n 0%N) as [->|]; [|rewrite E; apply Hp; lia].
    replace (ta_cursor_pos ta - 1)%N with 0%N by lia. apply boundary_0. }
  simpl. apply Hset.
Qed.

Lemma move_eol_ok b : runs (move_cursor_to_end_of_line b ta).
Proof using Hwf.
  destruct eol_spec as (n & Hn & Hb & ? & Hp). unfold move_cursor_to_end_of_line. rewrite Hn.
  simpl. destruct (b && _) eqn:E; [|auto]. apply andb_true_iff in E as [_ E%N.eqb_eq].
  destruct (end_of_line_spec ta (N.min (ta_cursor_pos ta + 1) (ta_len ta))) as (m & -> & _); [|simpl; auto].
  destruct (N.lt_ge_cases n (ta_len ta)).
  - rewrite N.min_l by lia. rewrite E. auto.
  - rewrite N.min_r by lia. apply boundary_len.
Qed.

Lemma first_non_blank_ok : is_Some (first_non_blank_of_current_line ta).
Proof using Hwf.
  destruct bol_spec as (b & Hb & ? & ? & _), eol_spec as (e & He & ? & ? & _).
  unfold first_non_blank_of_current_line. rewrite Hb, He. simpl.
  destruct (proj2 (get_range_is_Some (ta_text ta) b e)) as [l ->]; [split_and!; [done..|lia]|].
  simpl. eauto.
Qed.
End lines.

(** ** Graphemes and words *)

(** The pieces of a segment lie in it where their offsets say. *)
Lemma segment_pieces_sub chars pre idx start cur sep :
  blen pre = start → (idx = start + blen cur)%N →
  Forall (λ w, get_range w.1 (w.1 + blen w.2) (pre ++ cur ++ chars) = Some w.2)
    (segment_pieces idx chars start cur sep).
Proof.
  revert pre idx start cur sep.
  induction chars as [|ch chars IH]; intros pre idx start cur sep Hs Hi; simpl.
  - repeat constructor. simpl. apply get_range_Some. exists pre, []. split_and!; [done|done|lia].
  - destruct (Bool.eqb _ _).
    + replace (pre ++ cur ++ ch :: chars) with (pre ++ (cur ++ [ch]) ++ chars)
        by (by rewrite <-!app_assoc).
      apply IH; [done|]. rewrite blen_app. simpl. lia.
    + constructor; [simpl; apply get_range_Some; exists pre, (ch :: chars); split_and!; [done|done|lia]|].
      replace (pre ++ cur ++ ch :: chars) with ((pre ++ cur) ++ [ch] ++ chars)
        by (by rewrite <-!app_assoc).
      apply IH; [rewrite blen_app; lia|simpl; lia].
Qed.

(** A slice of a slice. *)
Lemma get_range_trans a b i j s m w :
  get_range a b s = Some m → get_range i j m = Some w → get_range (a + i) (a + j) s = Some w.
Proof.
  intros (p & q & -> & <- & _)%get_range_Some (p2 & q2 & -> & <- & <-)%get_range_Some.
  apply get_range_Some. exists (p ++ p2), (q2 ++ q). rewrite <-!app_assoc, blen_app.
  split_and!; [done|done|lia].
Qed.

Section segmented.
Context `{Hseg : Segmentation, Hlaws : !SegmentationLaws}.

Lemma split_word_pieces_sub run w :
  w ∈ split_word_pieces run → get_range w.1 (w.1 + blen w.2) run = Some w.2.
Proof using Hlaws.
  unfold split_word_pieces. rewrite list_elem_of_bind.
  intros ([i seg] & Hw & Hsg%word_bounds_law). destruct seg as [|ch chars]; [by apply elem_of_nil in Hw|].
  apply list_elem_of_fmap in Hw as ([j x] & -> & Hj).
  pose proof (segment_pieces_sub chars [] (len_utf8 ch) 0 [ch] (is_word_separator ch) eq_refl
                ltac:(simpl; lia)) as Hall.
  rewrite Forall_forall in Hall. specialize (Hall _ Hj). simpl in Hall |- *.
  replace (i + j + blen x)%N with (i + (j + blen x))%N by lia.
  by eapply get_range_trans.
Qed.

(** A word's offsets are boundaries inside the run. *)
Lemma word_piece_bounds run w :
  w ∈ split_word_pieces run →
  boundary run w.1 ∧ boundary run (w.1 + blen w.2) ∧ (w.1 + blen w.2 ≤ blen run)%N.
Proof using Hlaws.
  intros Hw%split_word_pieces_sub. assert (is_Some (get_range w.1 (w.1 + blen w.2) run)) as Hs by eauto.
  apply get_range_is_Some in Hs as (? & Hb & _). split_and!; [done..|]. by apply boundary_le.
Qed.

Lemma skip_separators_ind (P : N → Prop) f acc ws :
  P acc → (∀ w, w ∈ ws → P (f w)) → P (skip_separators f acc ws).
Proof.
  revert acc. induction ws as [|w ws IH]; intros acc Ha Hf; simpl; [done|].
  destruct (forallb _ _); [|done]. apply IH; [apply Hf, elem_of_cons; auto|].
  intros x Hx. apply Hf, elem_of_cons; auto.
Qed.

Lemma adjust_ok ta pos b :
  wf_elements (ta_text ta) (ta_elements ta) → boundary (ta_text ta) pos →
  boundary (ta_text ta) (adjust_pos_out_of_elements ta pos b) ∧
  (b = true → (adjust_pos_out_of_elements ta pos b ≤ pos)%N).
Proof.
  intros Hwf Hb. unfold adjust_pos_out_of_elements, find_element_containing.
  destruct (List.find _ _) as [e|] eqn:E; [|split; [done|lia]].
  apply List_find_Some in E as [He ?%inside_spec].
  destruct (wf_elements_ok _ _ _ Hwf He) as (? & ? & ?).
  destruct b; split; try done; lia.
Qed.

Lemma prev_atomic_ok ta pos :
  wf_elements (ta_text ta) (ta_elements ta) → boundary (ta_text ta) pos →
  boundary (ta_text ta) (prev_atomic_boundary ta pos) ∧
  free (ta_elements ta) (prev_atomic_boundary ta pos) ∧
  (prev_atomic_boundary ta pos ≤ pos)%N ∧ ((0 < pos)%N → (prev_atomic_boundary ta pos < pos)%N).
Proof using Hlaws.
  intros Hwf Hb. unfold prev_atomic_boundary.
  destruct (N.eqb_spec pos 0) as [->|].
  { split_and!; [apply boundary_0| |lia|lia]. apply free_iff. intros; lia. }
  destruct (List.find _ _) as [e|] eqn:E.
  - apply List_find_Some in E as [He E]. apply andb_true_iff in E as [E1%N.ltb_lt E2%N.leb_le].
    destruct (wf_elements_ok _ _ _ Hwf He) as (? & ? & ?).
    destruct (free_edges _ _ _ Hwf He). split_and!; [done|done|lia|lia].
  - destruct (prev_boundary_law (ta_text ta) pos) as (b & -> & Hlt & Hb'); [done|lia|].
    clear E. unfold find_element_containing. destruct (List.find _ _) as [e|] eqn:F.
    + apply List_find_Some in F as [He ?%inside_spec].
      destruct (wf_elements_ok _ _ _ Hwf He) as (? & ? & ?).
      destruct (free_edges _ _ _ Hwf He). split_and!; [done|done|lia|lia].
    + apply List_find_None in F. split_and!; [done|done|lia|lia].
Qed.

Lemma next_atomic_ok ta pos :
  wf_elements (ta_text ta) (ta_elements ta) → boundary (ta_text ta) pos →
  boundary (ta_text ta) (next_atomic_boundary ta pos) ∧
  free (ta_elements ta) (next_atomic_boundary ta pos) ∧
  (pos ≤ next_atomic_boundary ta pos)%N ∧
  ((pos < ta_len ta)%N → (pos < next_atomic_boundary ta pos)%N).
Proof using Hlaws.
  intros Hwf Hb. pose proof (boundary_le _ _ Hb). unfold next_atomic_boundary.
  destruct (N.leb_spec (ta_len ta) pos).
  { unfold ta_len in *. split_and!; [apply boundary_len| |lia|lia]. apply free_iff. intros e He.
    destruct (wf_elements_ok _ _ _ Hwf He) as (_ & _ & ?%boundary_le). lia. }
  destruct (List.find _ _) as [e|] eqn:E.
  - apply List_find_Some in E as [He E]. apply andb_true_iff in E as [E1%N.leb_le E2%N.ltb_lt].
    destruct (wf_elements_ok _ _ _ Hwf He) as (? & ? & ?).
    destruct (free_edges _ _ _ Hwf He). split_and!; [done|done|lia|lia].
  - destruct (next_boundary_law (ta_text ta) pos) as (b & -> & Hlt & Hb'); [done|done|].
    clear E. unfold find_element_containing. destruct (List.find _ _) as [e|] eqn:F.
    + apply List_find_Some in F as [He ?%inside_spec].
      destruct (wf_elements_ok _ _ _ Hwf He) as (? & ? & ?).
      destruct (free_edges _ _ _ Hwf He). split_and!; [done|done|lia|lia].
    + apply List_find_None in F. split_and!; [done|done|lia|lia].
Qed.

(** A boundary of a slice is a boundary of the text. *)
Lemma slice_boundary a b s m n : get_range a b s = Some m → boundary m n → boundary s (a + n).
Proof.
  intros (p & q & -> & <- & _)%get_range_Some Hn. apply boundary_app_r.
  apply boundary_app_l; [by apply boundary_le|done].
Qed.

Lemma beginning_of_previous_word_ok ta :
  wf ta → ∃ n, beginning_of_previous_word ta = Some n ∧ boundary (ta_text ta) n ∧
    (n ≤ ta_cursor_pos ta)%N.
Proof using Hlaws.
  intros (Hel & (pre & post & E & Hc)%boundary_iff & _). unfold beginning_of_previous_word.
  assert (slice_to (ta_cursor_pos ta) (ta_text ta) = Some pre) as -> by (apply slice_to_Some; eauto).
  simpl. destruct (rfind_char _ pre) as [[i ch]|] eqn:F; [|eexists; split_and!; [done|apply boundary_0|lia]].
  apply rfind_char_Some in F as (u & v & -> & <- & _ & _).
  assert (slice_to (blen u) (u ++ ch :: v) = Some u) as -> by (apply slice_to_Some; eauto). simpl.
  assert (∃ x y, u = x ++ y ∧
    match rfind_char is_whitespace u with Some (idx, c) => idx + len_utf8 c | None => 0 end%N = blen x)
    as (x & y & -> & ->).
  { destruct (rfind_char is_whitespace u) as [[j c]|] eqn:G; [|by exists [], u].
    apply rfind_char_Some in G as (x & y & -> & <- & _). exists (x ++ [c]), y.
    rewrite <-app_assoc, blen_app. simpl. split; [done|lia]. }
  assert (get_range (blen x) (blen (x ++ y) + len_utf8 ch) ((x ++ y) ++ ch :: v) = Some (y ++ [ch])) as Hrun.
  { apply get_range_Some. exists x, v. rewrite <-!app_assoc, !blen_app. simpl. split_and!; [done|done|lia]. }
  rewrite Hrun. simpl.
  set (P n := boundary (ta_text ta) n ∧ (n ≤ ta_cursor_pos ta)%N).
  assert (∀ w, w ∈ split_word_pieces (y ++ [ch]) → P (blen x + w.1)%N) as HP.
  { intros w Hw%word_piece_bounds. destruct Hw as (Hb & _ & Hle). unfold P. rewrite E, <-Hc.
    pose proof (slice_boundary _ _ _ _ _ Hrun Hb) as Hb'.
    pose proof (boundary_le _ _ Hb'). split; [|done]. apply boundary_app_l; done. }
  assert (∀ w, w ∈ rev (split_word_pieces (y ++ [ch])) → P (blen x + w.1)%N) as HR.
  { intros w Hw. apply HP. by rewrite list_elem_of_In, in_rev, <-list_elem_of_In. }
  destruct (rev (split_word_pieces (y ++ [ch]))) as [|[s piece] rest].
  - eexists; split_and!; [done| |rewrite <-Hc, !blen_app; lia].
    rewrite E, <-!app_assoc. apply boundary_blen_app.
  - assert (P (if forallb is_word_separator piece
      then skip_separators (λ w, (blen x + w.1)%N) (blen x + s) rest else blen x + s))%N as [HP1 HP2].
    { destruct (forallb _ _); [apply skip_separators_ind|]; try apply (HR (s, piece)), elem_of_cons; auto.
      intros w Hw. apply HR, elem_of_cons. auto. }
    eexists; split_and!; [done|by apply adjust_ok|].
    etrans; [by apply (adjust_ok ta _ true)|done].
Qed.

Lemma end_of_next_word_from_ok ta c :
  wf_elements (ta_text ta) (ta_elements ta) → boundary (ta_text ta) c →
  ∃ n, end_of_next_word_from ta c = Some n ∧ boundary (ta_text ta) n.
Proof using Hlaws.
  intros Hel (pre & post & E & <-)%boundary_iff. unfold end_of_next_word_from.
  assert (slice_from (blen pre) (ta_text ta) = Some post) as -> by (apply slice_from_Some; eauto).
  simpl. destruct (find_char _ post) as [i|] eqn:F; [|eexists; split; [done|apply boundary_len]].
  apply find_char_Some in F as (u & ch & v & -> & <- & _).
  assert (slice_from (blen u) (u ++ ch :: v) = Some (ch :: v)) as -> by (apply slice_from_Some; eauto).
  cbn [mbind option_bind].
  assert (∃ run rest, ch :: v = run ++ rest ∧
    slice_to (default (blen (ch :: v)) (find_char is_whitespace (ch :: v))) (ch :: v) = Some run)
    as (run & rest & Er & ->).
  { destruct (find_char is_whitespace (ch :: v)) as [j|] eqn:G.
    - apply find_char_Some in G as (x & d & y & -> & <- & _). exists x, (d :: y). split; [done|].
      apply slice_to_Some. eauto.
    - exists (ch :: v), []. rewrite app_nil_r. split; [done|]. apply slice_to_Some. exists [].
      by rewrite app_nil_r. }
  cbn [mbind option_bind]. rewrite Er in E.
  assert (∀ n, boundary run n → boundary (ta_text ta) (blen pre + blen u + n)) as Hrun.
  { intros n Hn. rewrite E, app_assoc, <-blen_app. apply boundary_app_r, boundary_app_l; [|done].
    by apply boundary_le. }
  assert (∀ w, w ∈ split_word_pieces run →
    boundary (ta_text ta) (blen pre + blen u + w.1 + blen w.2)) as HP.
  { intros w (_ & Hb & _)%word_piece_bounds. rewrite <-N.add_assoc. by apply Hrun. }
  destruct (split_word_pieces run) as [|[s piece] ws].
  - eexists; split; [done|]. rewrite <-(N.add_0_r (blen u)), N.add_assoc. apply Hrun, boundary_0.
  - eexists; split; [done|]. apply adjust_ok; [done|]. destruct (forallb _ _).
    + apply skip_separators_ind; [apply (HP (s, piece)), elem_of_cons; auto|].
      intros w Hw. apply HP, elem_of_cons. auto.
    + apply (HP (s, piece)), elem_of_cons. auto.
Qed.

Lemma delete_backward_target_ok ta n :
  wf_elements (ta_text ta) (ta_elements ta) → boundary (ta_text ta) n →
  ∃ t, delete_backward_target ta n = Some t ∧ boundary (ta_text ta) t ∧ (t ≤ n)%N.
Proof using Hlaws.
  intros Hel Hb. pose proof (prev_atomic_ok ta n Hel Hb) as (Hp & _ & Hle & _).
  apply boundary_iff in Hb as (pre & post & E & <-). unfold delete_backward_target.
  assert (slice_to (blen pre) (ta_text ta) = Some pre) as -> by (apply slice_to_Some; eauto). simpl.
  destruct (char_indices_next_back pre) as [[b ch]|] eqn:F; [|by eauto].
  destruct (is_thai_mark ch && _); [|by eauto].
  apply rfind_char_Some in F as (u & v & -> & <- & _). eexists; split_and!; [done| |].
  - rewrite E, <-app_assoc. apply boundary_blen_app.
  - rewrite blen_app. lia.
Qed.

Lemma delete_backward_loop_ok k ta n :
  wf_elements (ta_text ta) (ta_elements ta) → boundary (ta_text ta) n →
  ∃ t, delete_backward_loop k ta n = Some t ∧ boundary (ta_text ta) t ∧ (t ≤ n)%N.
Proof using Hlaws.
  intros Hel. revert n. induction k as [|k IH]; intros n Hb; simpl; [by eauto|].
  destruct (delete_backward_target_ok ta n Hel Hb) as (t & -> & Ht & Hle). simpl.
  destruct (t =? 0)%N; [by eauto|].
  destruct (IH t Ht) as (t' & ? & ? & ?). exists t'. split_and!; [done|done|lia].
Qed.

Lemma delete_forward_loop_ok k ta n :
  wf_elements (ta_text ta) (ta_elements ta) → boundary (ta_text ta) n →
  boundary (ta_text ta) (delete_forward_loop k ta n) ∧ (n ≤ delete_forward_loop k ta n)%N.
Proof using Hlaws.
  intros Hel. revert n. induction k as [|k IH]; intros n Hb; simpl; [done|].
  destruct (next_atomic_ok ta n Hel Hb) as (Hn & _ & Hle & _).
  destruct (_ <=? _)%N; [done|]. destruct (IH _ Hn). split; [done|lia].
Qed.

Lemma delete_backward_ok k ta : wf ta → runs (delete_backward k ta).
Proof using Hlaws.
  intros Hwf. pose proof Hwf as (Hel & Hb & _). unfold delete_backward. destruct (_ || _); [auto|].
  destruct (delete_backward_loop_ok k ta _ Hel Hb) as (t & -> & ? & ?). simpl.
  by apply replace_range_ok.
Qed.

Lemma delete_forward_ok k ta : wf ta → runs (delete_forward k ta).
Proof using Hlaws.
  intros Hwf. pose proof Hwf as (Hel & Hb & _). unfold delete_forward. destruct (_ || _); [auto|].
  destruct (delete_forward_loop_ok k ta _ Hel Hb). by apply replace_range_ok.
Qed.

Lemma delete_forward_kill_ok k ta : wf ta → runs (delete_forward_kill k ta).
Proof using Hlaws.
  intros Hwf. pose proof Hwf as (Hel & Hb & _). unfold delete_forward_kill.
  destruct (_ || _); [auto|].
  destruct (delete_forward_loop_ok k ta _ Hel Hb). by apply kill_range_with_kind_ok.
Qed.

Lemma delete_backward_word_ok ta : wf ta → runs (delete_backward_word ta).
Proof using Hlaws.
  intros Hwf. unfold delete_backward_word.
  destruct (beginning_of_previous_word_ok ta Hwf) as (n & -> & ? & ?). simpl.
  apply kill_range_with_kind_ok; [done|]. split_and!; [done|apply Hwf|done].
Qed.

Lemma delete_forward_word_ok ta : wf ta → runs (delete_forward_word ta).
Proof using Hlaws.
  intros Hwf. pose proof Hwf as (Hel & Hb & _). unfold delete_forward_word, end_of_next_word.
  destruct (end_of_next_word_from_ok ta _ Hel Hb) as (n & -> & ?). simpl.
  destruct (N.ltb_spec (ta_cursor_pos ta) n); [|auto].
  apply kill_range_with_kind_ok; [done|]. split_and!; [done|done|simpl; lia].
Qed.

Lemma paste_after_cursor_ok ta : wf ta → runs (paste_after_cursor ta).
Proof.
  intros Hwf. unfold paste_after_cursor. destruct (ta_kill_buffer ta); [auto|].
  case_bool_decide; [by apply paste_line_ok|]. apply insert_str_at_ok, set_cursor_ok, Hwf.
Qed.

Lemma move_cursor_ok ta : wf ta → wf (move_cursor_left ta) ∧ wf (move_cursor_right ta).
Proof using Hlaws.
  intros (Hel & Hb & _). destruct (prev_atomic_ok ta _ Hel Hb) as (? & ? & _).
  destruct (next_atomic_ok ta _ Hel Hb) as (? & ? & _). done.
Qed.

Lemma apply_insert_position_ok p ta : wf ta → runs (apply_insert_position p ta).
Proof.
  intros Hwf. destruct p; simpl; auto.
  - destruct (first_non_blank_ok ta Hwf) as [n ->]. simpl. auto.
  - destruct (eol_spec ta Hwf) as (n & -> & _). simpl. auto.
  - destruct (bol_spec ta Hwf) as (n & -> & _). simpl. by apply runs_then_cursor, insert_str_at_ok.
  - destruct (eol_spec ta Hwf) as (n & -> & _). simpl. by apply runs_then_cursor, insert_str_at_ok.
Qed.

Lemma apply_editor_action_ok a ta : wf ta → runs (apply_editor_action a ta).
Proof using Hlaws.
  intros Hwf. pose proof Hwf as (Hel & Hb & _). destruct a; simpl.
  - by apply apply_insert_position_ok.
  - destruct (eol_spec ta Hwf) as (n & -> & _). simpl. destruct (_ <=? _)%N; [auto|].
    apply (runs_then_cursor _ (λ _, _)), replace_range_ok; [done|].
    destruct (next_atomic_ok ta _ Hel Hb) as (? & _ & ? & _). done.
  - by apply paste_after_cursor_ok.
  - by apply delete_backward_ok.
  - by apply delete_forward_ok.
  - by apply delete_backward_word_ok.
  - by apply delete_forward_word_ok.
  - by apply kill_to_beginning_of_line_ok.
  - by apply kill_current_line_ok.
  - by apply kill_to_end_of_line_ok.
  - apply runs_Some. by apply move_cursor_ok.
  - apply runs_Some. by apply move_cursor_ok.
  - destruct (beginning_of_previous_word_ok ta Hwf) as (n & -> & _). simpl. auto.
  - destruct (end_of_next_word_from_ok ta _ Hel Hb) as (n & Hn & _). unfold end_of_next_word.
    rewrite Hn. simpl. auto.
  - by apply move_bol_ok.
  - by apply move_eol_ok.
Qed.

(** The other targets of motions are char boundaries too. *)
Lemma prev_atomic_or_id_ok ta n c :
  wf_elements (ta_text ta) (ta_elements ta) → boundary (ta_text ta) n →
  boundary (ta_text ta) (if (c <? n)%N then prev_atomic_boundary ta n else n).
Proof using Hlaws. intros. destruct (_ <? _)%N; [by apply prev_atomic_ok|done]. Qed.

Lemma vim_word_end_exclusive_ok ta :
  wf ta → ∃ n, vim_word_end_exclusive ta = Some n ∧ boundary (ta_text ta) n.
Proof using Hlaws.
  intros (Hel & Hb & _). unfold vim_word_end_exclusive, end_of_next_word.
  destruct (end_of_next_word_from_ok ta _ Hel Hb) as (n & -> & Hn). simpl.
  destruct (_ && _); [by apply end_of_next_word_from_ok|by eauto].
Qed.

Lemma vim_word_end_cursor_ok ta :
  wf ta → ∃ n, vim_word_end_cursor ta = Some n ∧ boundary (ta_text ta) n.
Proof using Hlaws.
  intros Hwf. unfold vim_word_end_cursor.
  destruct (vim_word_end_exclusive_ok ta Hwf) as (n & -> & Hn). simpl.
  eexists; split; [done|]. apply prev_atomic_or_id_ok; [apply Hwf|done].
Qed.

Lemma vim_line_end_cursor_ok ta :
  wf ta → ∃ n, vim_line_end_cursor ta = Some n ∧ boundary (ta_text ta) n.
Proof using Hlaws.
  intros Hwf. unfold vim_line_end_cursor.
  destruct (bol_spec ta Hwf) as (b & -> & ? & _), (eol_spec ta Hwf) as (e & -> & He & _). simpl.
  eexists; split; [done|]. destruct (_ <? _)%N; [|done].
  destruct (N.max_spec (prev_atomic_boundary ta e) b) as [[_ ->]|[_ ->]]; [done|].
  by apply prev_atomic_ok; [apply Hwf|].
Qed.

Lemma slice_find_boundary s c rest p i :
  slice_from c s = Some rest → find_char p rest = Some i → boundary s (c + i).
Proof.
  intros (a & -> & <-)%slice_from_Some (u & d & v & -> & <- & _)%find_char_Some.
  apply boundary_app_r, boundary_blen_app.
Qed.

Lemma beginning_of_next_word_ok ta :
  wf ta → ∃ n, beginning_of_next_word ta = Some n ∧ boundary (ta_text ta) n.
Proof using Hlaws.
  intros (Hel & Hb & _). unfold beginning_of_next_word, end_of_next_word.
  assert (∀ c, boundary (ta_text ta) c → is_Some (slice_from c (ta_text ta))) as Hslice.
  { intros c (a & z & E & <-)%boundary_iff. exists z. apply slice_from_Some. eauto. }
  assert (boundary (ta_text ta) (ta_len ta)) as Hlen by apply boundary_len.
  destruct (Hslice _ Hb) as [rest Hr]. rewrite Hr. simpl.
  destruct (find_char _ rest) as [i|] eqn:F; [|by eauto].
  pose proof (slice_find_boundary _ _ _ _ _ Hr F) as Hi.
  destruct (negb _); [eexists; split; [done|by apply adjust_ok]|].
  destruct (end_of_next_word_from_ok ta _ Hel Hb) as (n & -> & Hn). simpl.
  destruct (_ <=? _)%N; [by eauto|]. destruct (Hslice _ Hn) as [rest' Hr']. rewrite Hr'. simpl.
  destruct (find_char _ rest') as [k|] eqn:G; [|by eauto].
  pose proof (slice_find_boundary _ _ _ _ _ Hr' G). eexists; split; [done|by apply adjust_ok].
Qed.
End segmented.

(** ** Operations on elements *)

Definition range_of (e : text_element) : N * N := (te_start e, te_end e).
Definition disjoint_ranges (r1 r2 : N * N) : Prop := (r1.2 ≤ r2.1 ∨ r2.2 ≤ r1.1)%N.
Definition all_disjoint (rs : list (N * N)) : Prop := ForallOrdPairs disjoint_ranges rs.

Lemma ForallOrdPairs_snoc {A} (R : A → A → Prop) l x :
  ForallOrdPairs R l → Forall (λ y, R y x) l → ForallOrdPairs R (l ++ [x]).
Proof.
  induction 1 as [|y l Hy HS IH]; simpl; [by repeat constructor|].
  intros [? ?]%Forall_cons. constructor; [|auto]. apply List.Forall_app. auto.
Qed.

Lemma wf_all_disjoint s es : wf_elements s es → all_disjoint (range_of <$> es).
Proof.
  intros [_ HS]. induction HS as [|e es HS IH Hall]; simpl; constructor; [|done].
  apply List.Forall_map. eapply List.Forall_impl; [|exact Hall]. intros x Hx. by left.
Qed.

Lemma insert_by_start_elem e x l : x ∈ insert_by_start e l → x = e ∨ x ∈ l.
Proof.
  induction l as [|h l IH]; simpl; [by rewrite list_elem_of_singleton; auto|].
  destruct (_ <=? _)%N; rewrite !elem_of_cons; [tauto|]. intros [->|H]; [auto|]. destruct (IH H); auto.
Qed.

Lemma insert_by_start_wf s e l :
  wf_elements s l → elem_ok s e → Forall (λ r, disjoint_ranges (range_of e) r) (range_of <$> l) →
  wf_elements s (insert_by_start e l).
Proof.
  intros [Hok HS] He Hd. split.
  { rewrite Forall_forall in *. intros x [->|?]%insert_by_start_elem; auto. }
  induction HS as [|h l HS IH Hh]; simpl; [by repeat constructor|].
  apply Forall_cons in Hok as [Hhok Hok]. cbn in Hd. apply Forall_cons in Hd as [Hdh Hd].
  destruct He as [He He'], Hhok as [Hh' _].
  unfold disjoint_ranges, elem_before in *. simpl in Hdh.
  destruct (N.leb_spec (te_start e) (te_start h)).
  - constructor; [by constructor|]. constructor; [lia|].
    rewrite Forall_forall in Hh |- *. intros x Hx. specialize (Hh x Hx). lia.
  - constructor; [by apply IH|]. apply Forall_forall. intros x [->|Hx]%insert_by_start_elem; [lia|].
    rewrite Forall_forall in Hh. auto.
Qed.

Lemma sort_elem x l : x ∈ sort_by_start l → x ∈ l.
Proof.
  induction l as [|e l IH]; simpl; [done|]. intros [->|H]%insert_by_start_elem; apply elem_of_cons; auto.
Qed.

(** Sorting disjoint elements puts them in order. *)
Lemma sort_by_start_wf s l :
  Forall (elem_ok s) l → all_disjoint (range_of <$> l) → wf_elements s (sort_by_start l).
Proof.
  intros Hok. induction Hok as [|e l He Hok IH]; cbn; intros Hd; [by split; constructor|].
  inversion Hd as [|? ? Hde Hdl]; subst. apply insert_by_start_wf; [by apply IH|done|].
  rewrite Forall_fmap, Forall_forall in *. intros x Hx. apply Hde. by apply sort_elem.
Qed.

Lemma sort_by_start_id s l : wf_elements s l → sort_by_start l = l.
Proof.
  intros [Hok HS]. induction HS as [|e l HS IH Hall]; simpl; [done|].
  apply Forall_cons in Hok as [[He _] Hok]. rewrite IH by done.
  destruct l as [|h l]; [done|]. simpl. apply Forall_cons in Hall as [Hh _].
  unfold elem_before in Hh. destruct (N.leb_spec (te_start e) (te_start h)); [done|lia].
Qed.

Lemma add_element_wf s e es :
  wf_elements s es → elem_ok s e → Forall (λ x, disjoint_ranges (range_of x) (range_of e)) es →
  wf_elements s (sort_by_start (es ++ [e])).
Proof.
  intros Hwf He Hd. apply sort_by_start_wf.
  - apply List.Forall_app. split; [apply Hwf|by apply Forall_singleton].
  - rewrite fmap_app. apply ForallOrdPairs_snoc; [by eapply wf_all_disjoint|]. by apply Forall_fmap.
Qed.

Lemma sort_elem_2 x l : x ∈ l → x ∈ sort_by_start l.
Proof.
  assert (∀ e l, e ∈ insert_by_start e l ∧ ∀ y, y ∈ l → y ∈ insert_by_start e l) as Hi.
  { intros e l'. induction l' as [|h l' [IH1 IH2]]; simpl; [split; [by left|by intros ? ?%elem_of_nil]|].
    destruct (_ <=? _)%N; (split; [|intros y]); rewrite !elem_of_cons; naive_solver. }
  induction l as [|e l IH]; simpl; [done|]. rewrite elem_of_cons. destruct (Hi e (sort_by_start l)).
  intros [->|?]; auto.
Qed.

(** Inserting an element: the payload is the text, the cursor goes to its end. *)
Lemma insert_element_spec t ta :
  wf ta → t ≠ [] → ∃ ta' start, insert_element t ta = Some (ta_next_element_id ta, ta') ∧ wf ta' ∧
    TextElement (ta_next_element_id ta) start (start + blen t) ∈ ta_elements ta' ∧
    get_range start (start + blen t) (ta_text ta') = Some t ∧
    ta_cursor_pos ta' = (start + blen t)%N.
Proof.
  intros Hwf Ht. pose proof Hwf as (Hel & Hb & Hf). unfold insert_element.
  rewrite clamp_insertion_nearest, nearest_id by done.
  destruct (insert_str_at_spec (ta_cursor_pos ta) t ta Hwf) as (p & q & E & Hp & Hfree & ->).
  rewrite clamp_insertion_nearest, nearest_id in Hp by done. rewrite <-Hp. simpl.
  assert (0 < blen t)%N as Hpos by (assert (blen t ≠ 0)%N by (by rewrite blen_zero); lia).
  rewrite E in Hel.
  assert (closed (ta_elements ta) (blen p, blen p + blen (@nil char))%N) as Hcl.
  { simpl. rewrite N.add_0_r. by apply closed_point. }
  pose proof (shift_elements_wf p [] q t _ Hel Hcl) as Hel'. simpl in Hel'.
  set (e := TextElement (ta_next_element_id ta) (blen p) (blen p + blen t)).
  assert (wf_elements (p ++ t ++ q)
    (sort_by_start (shift_elements (blen p) 0 (blen t) (ta_elements ta) ++ [e]))) as Hwf'.
  { apply add_element_wf; [done| |].
    - unfold elem_ok; simpl. split_and!; [lia|apply boundary_blen_app|apply edit_boundary_end].
    - apply Forall_forall. intros x (y & -> & Hy)%list_elem_of_fmap.
      destruct (kept_shift p [] q t _ Hel Hcl y Hy) as [(? & _) [[? Hs]|[? Hs]]]; simpl in Hs;
        rewrite Hs; unfold disjoint_ranges; simpl in *; lia. }
  assert (e ∈ sort_by_start (shift_elements (blen p) 0 (blen t) (ta_elements ta) ++ [e])) as He.
  { apply sort_elem_2, elem_of_app. right. by left. }
  eexists _, (blen p). split_and!; [done|by apply set_cursor_ok|exact He| |].
  - apply get_range_Some. exists p, q. by rewrite Hp.
  - apply set_cursor_id; [apply edit_boundary_end|]. by apply (free_edges _ _ e Hwf' He).
Qed.

Definition clamped_range (s : str) (r : N * N) : N * N :=
  (clamp_pos_to_char_boundary s (N.min r.1 (blen s)),
   clamp_pos_to_char_boundary s (N.min r.2 (blen s))).

Lemma add_element_range_ok r ta :
  wf ta →
  ¬ ((clamped_range (ta_text ta) r).1 < ta_cursor_pos ta < (clamped_range (ta_text ta) r).2)%N →
  wf (add_element_range r ta).2.
Proof.
  intros Hwf Hcur. pose proof Hwf as (Hel & Hb & Hf). unfold clamped_range in Hcur; simpl in Hcur.
  unfold add_element_range, ta_len.
  set (start := clamp_pos_to_char_boundary _ _) in *.
  set (end_ := clamp_pos_to_char_boundary (ta_text ta) (N.min r.2 _)) in *.
  destruct (N.leb_spec end_ start); [done|]. destruct (existsb _ _); [done|].
  destruct (existsb (λ e, (start <? te_end e) && (te_start e <? end_))%N _) eqn:E; [done|]. simpl.
  apply existsb_false_Forall in E. rewrite Forall_forall in E. split_and!; simpl.
  - apply add_element_wf; [done|split_and!; [done|apply clamp_boundary..]|].
    apply Forall_forall. intros x Hx. specialize (E x Hx). apply andb_false_iff in E.
    rewrite !N.ltb_ge in E. unfold disjoint_ranges; simpl. lia.
  - done.
  - apply free_iff. intros x [Hx|Hx]%sort_elem%elem_of_app.
    + rewrite free_iff in Hf. auto.
    + apply list_elem_of_singleton in Hx as ->. simpl. lia.
Qed.

Lemma remove_element_range_ok r ta : wf ta → wf (remove_element_range r ta).2.
Proof.
  intros ([Hok HS] & Hb & Hf). unfold remove_element_range. destruct (_ <=? _)%N; [done|]. simpl.
  split_and!; [split; [|by apply StronglySorted_List_filter]|done|]; unfold free in *; simpl;
    rewrite Forall_forall in *; intros x [Hx _]%elem_of_List_filter; auto.
Qed.

(** An element occurs once. *)
Lemma wf_lookup_inj s es i j e :
  wf_elements s es → es !! i = Some e → es !! j = Some e → i = j.
Proof.
  intros [Hok HS]. revert i j. induction HS as [|h l HS IH Hh]; intros i j; [done|].
  apply Forall_cons in Hok as [[Hh' _] Hok]. rewrite Forall_forall in Hh. unfold elem_before in Hh.
  destruct i as [|i], j as [|j]; simpl; intros Hi Hj; simplify_eq; [done|..].
  - apply list_elem_of_lookup_2, Hh in Hj. lia.
  - apply list_elem_of_lookup_2, Hh in Hi. lia.
  - f_equal. eauto.
Qed.

Lemma shift_other_before a b ins e : (te_end e ≤ a)%N → shift_other a b ins e = e.
Proof.
  intros Hle. unfold shift_other. destruct (_ =? _)%Z; [done|].
  by destruct (N.leb_spec (te_end e) a); [|lia].
Qed.

Lemma shift_other_after a b ins e :
  (a ≤ b ≤ te_start e)%N → (te_start e < te_end e)%N →
  shift_other a b ins e =
    TextElement (te_id e) (te_start e - (b - a) + ins) (te_end e - (b - a) + ins).
Proof.
  intros H1 H2. unfold shift_other, offset.
  destruct (Z.eqb_spec (Z.of_N ins - Z.of_N (b - a)) 0); [destruct e; simpl in *; f_equal; lia|].
  destruct (N.leb_spec (te_end e) a); [lia|]. destruct (N.leb_spec b (te_start e)); [|lia].
  f_equal; lia.
Qed.

Section payload.
Context (p old q new : str) (es : list text_element) (e : text_element).
Hypothesis Hwf : wf_elements (p ++ old ++ q) es.
Hypothesis He : e ∈ es.
Hypothesis Hs : te_start e = blen p.
Hypothesis Hend : te_end e = (blen p + blen old)%N.
Hypothesis Hnew : new ≠ [].

Definition renamed (x : text_element) : text_element :=
  if bool_decide (x = e) then TextElement (te_id x) (blen p) (blen p + blen new)
  else shift_other (blen p) (blen p + blen old) (blen new) x.

Lemma renamed_cases x :
  x ∈ es →
  elem_ok (p ++ old ++ q) x ∧
  (x = e ∧ renamed x = TextElement (te_id x) (blen p) (blen p + blen new) ∨
   (te_end x ≤ blen p)%N ∧ renamed x = x ∨
   (blen p + blen old ≤ te_start x)%N ∧ renamed x =
     TextElement (te_id x) (te_start x - blen old + blen new) (te_end x - blen old + blen new)).
Proof using Hwf He Hs Hend.
  intros Hx. pose proof (wf_elements_ok _ _ _ Hwf Hx) as Hok. split; [done|].
  destruct Hok as [? _]. unfold renamed. case_bool_decide as Hxe; [by left|right].
  destruct (wf_elements_disjoint _ _ _ _ Hwf Hx He) as [->|[Hb|Hb]]; [done|left|right];
    unfold elem_before in Hb; rewrite ?Hs, ?Hend in Hb; (split; [done|]).
  - by apply shift_other_before.
  - rewrite shift_other_after by lia. f_equal; lia.
Qed.

Lemma renamed_wf : wf_elements (p ++ new ++ q) (renamed <$> es).
Proof using Hwf He Hs Hend Hnew.
  assert (0 < blen new)%N by (assert (blen new ≠ 0)%N by (by rewrite blen_zero); lia). split.
  - apply Forall_forall. intros y (x & -> & Hx)%list_elem_of_fmap.
    destruct (renamed_cases x Hx) as [(? & ? & ?) [[_ ->]|[[? ->]|[? ->]]]]; unfold elem_ok; simpl.
    + split_and!; [lia|apply boundary_blen_app|apply edit_boundary_end].
    + split_and!; [done|eapply edit_boundary_before; [lia|done]..].
    + split_and!; [lia|by apply edit_boundary_after|by apply edit_boundary_after; [lia|]].
  - destruct Hwf as [_ HS]. eapply StronglySorted_fmap_in; [|exact HS].
    intros x y Hx Hy. unfold elem_before.
    destruct (renamed_cases x Hx) as [(? & _) [[-> ->]|[[? ->]|[? ->]]]],
      (renamed_cases y Hy) as [(? & _) [[-> ->]|[[? ->]|[? ->]]]]; simpl; lia.
Qed.
End payload.

(** Renaming an element: it keeps its id and gets the new payload. *)
Lemma replace_element_payload_spec old new ta :
  wf ta → new ≠ [] →
  ∃ b ta', replace_element_payload old new ta = Some (b, ta') ∧ wf ta' ∧
    (b = false → ta' = ta ∧ old ∉ element_payloads ta).
Proof.
  intros Hwf Hnew. pose proof Hwf as (Hel & Hb & Hf). unfold replace_element_payload.
  destruct (list_find _ _) as [[idx e]|] eqn:F.
  2:{ exists false, ta. split_and!; [done..|]. intros _. split; [done|].
      intros (e & He & Hg)%list_elem_of_omap. apply list_find_None in F.
      rewrite Forall_forall in F. by apply (F e He). }
  apply list_find_Some in F as (Hidx & Hg & _).
  pose proof (list_elem_of_lookup_2 _ _ _ Hidx) as He.
  apply get_range_Some in Hg as (p & q & E & Hs & Hend).
  destruct (N.ltb_spec (te_end e) (te_start e)); [exfalso; lia|].
  destruct (N.ltb_spec (ta_len ta) (te_end e)) as [Hlt|_].
  { exfalso. unfold ta_len in Hlt. rewrite E, !blen_app in Hlt. lia. }
  simpl. rewrite <-Hs, <-Hend, E, str_replace_range_split. simpl.
  assert (imap (λ j x, if j =? idx then TextElement (te_id x) (blen p) (blen p + blen new)
                       else shift_other (blen p) (blen p + blen old) (blen new) x) (ta_elements ta)
          = renamed p old new e <$> ta_elements ta) as ->.
  { apply list_eq. intros j. rewrite list_lookup_imap, list_lookup_fmap.
    destruct (ta_elements ta !! j) as [x|] eqn:Hj; simpl; [|done]. f_equal. unfold renamed.
    destruct (Nat.eqb_spec j idx) as [->|Hne].
    - rewrite bool_decide_true; [done|congruence].
    - rewrite bool_decide_false; [done|]. intros ->. apply Hne. by eapply wf_lookup_inj. }
  rewrite E in Hel. pose proof (renamed_wf p old q new _ e Hel He (eq_sym Hs) (eq_sym Hend) Hnew) as Hel'.
  do 2 eexists. split_and!; [done| |done]. unfold wf; simpl. rewrite (sort_by_start_id _ _ Hel').
  split; [done|]. clear -Hel'.
  match goal with |- context [clamp_pos_to_nearest_boundary ?x ?y] => by apply (nearest_ok x y) end.
Qed.

(** ** Replacing the whole buffer *)

(** The ranges [set_text_with_elements] keeps. *)
Definition kept_ranges (s : str) (rs : list (N * N)) : list (N * N) :=
  List.filter (λ r, r.1 <? r.2)%N (clamped_range s <$> rs).

Lemma push_elements_spec s rs ta :
  Forall (elem_ok s) (ta_elements ta) →
  Forall (elem_ok s) (ta_elements (push_elements s rs ta)) ∧
  range_of <$> ta_elements (push_elements s rs ta) =
    (range_of <$> ta_elements ta) ++ kept_ranges s rs ∧
  ta_text (push_elements s rs ta) = ta_text ta.
Proof.
  revert ta. induction rs as [|[a b] rs IH]; intros ta Hok; cbn.
  - unfold kept_ranges; simpl. by rewrite app_nil_r.
  - set (start := clamp_pos_to_char_boundary s (N.min a (blen s))).
    set (end_ := clamp_pos_to_char_boundary s (N.min b (blen s))).
    unfold kept_ranges; cbn. fold start end_.
    destruct (N.leb_spec end_ start) as [Hle|Hlt].
    + apply N.ltb_ge in Hle. rewrite Hle. by apply IH.
    + apply N.ltb_lt in Hlt as Hlt'. rewrite Hlt'.
      destruct (IH (with_elements (ta_elements ta ++ [TextElement (ta_next_element_id ta) start end_])
                      (with_next_id (N.min u64_max (ta_next_element_id ta + 1)) ta))) as (H1 & H2 & H3).
      { simpl. apply List.Forall_app. split; [done|]. apply Forall_singleton.
        split_and!; [done|apply clamp_boundary..]. }
      split_and!; [done| |done]. rewrite H2. simpl. rewrite fmap_app, <-app_assoc. done.
Qed.

Lemma set_text_inner_ok s els ta :
  (∀ rs, els = Some rs → all_disjoint (kept_ranges s rs)) → wf (set_text_inner s els ta).
Proof.
  intros Hd. unfold set_text_inner.
  set (ta1 := with_elements [] _).
  assert (∀ ta', ta_text ta' = s → wf_elements s (ta_elements ta') →
    wf (with_col None (with_cursor (clamp_pos_to_nearest_boundary ta' (ta_cursor_pos ta')) ta'))) as Hfin.
  { intros ta' Ht Hel. rewrite <-Ht in Hel. split; [done|].
    exact (nearest_ok ta' (ta_cursor_pos ta') Hel). }
  destruct els as [rs|]; [|apply Hfin; [done|by split; constructor]].
  destruct (push_elements_spec s rs ta1) as (H1 & H2 & H3); [constructor|].
  apply Hfin; [done|]. simpl. apply sort_by_start_wf; [done|]. rewrite H2. simpl. by apply Hd.
Qed.

(** ** Queries *)

(** On ordered elements the search by bisection finds every overlapping range. *)
Lemma overlapping_is_filter ta r :
  wf_elements (ta_text ta) (ta_elements ta) →
  text_element_ranges_overlapping ta r =
  range_of <$> List.filter (λ e, (r.1 <? te_end e) && (te_start e <? r.2))%N (ta_elements ta).
Proof.
  intros [Hok HS]. unfold text_element_ranges_overlapping. f_equal.
  induction HS as [|e es HS IH Hall]; simpl; [done|].
  apply Forall_cons in Hok as [[He _] Hok].
  destruct (N.leb_spec (te_end e) r.1) as [Hle|Hgt]; simpl.
  { destruct (N.ltb_spec r.1 (te_end e)); [lia|]. by apply IH. }
  destruct (N.ltb_spec r.1 (te_end e)); [|lia]. simpl.
  assert (drop (length (take_while (λ e, te_end e <=? r.1)%N es)) es = es) as Hdrop.
  { destruct es as [|h es]; [done|]. simpl. apply Forall_cons in Hall as [Hh _].
    apply Forall_cons in Hok as [[? _] _]. unfold elem_before in Hh.
    destruct (N.leb_spec (te_end h) r.1); [lia|done]. }
  rewrite Hdrop in IH. destruct (N.ltb_spec (te_start e) r.2) as [|Hge].
  - f_equal. by apply IH.
  - symmetry. clear -Hall Hge He. induction es as [|h es IH]; simpl; [done|].
    apply Forall_cons in Hall as [Hh Hall]. unfold elem_before in Hh.
    destruct (N.ltb_spec (te_start h) r.2); [lia|]. rewrite andb_false_r. by apply IH.
Qed.

(** ** All operations *)

Inductive ta_op :=
  | OpSetText (text : str)
  | OpSetTextWithElements (text : str) (elements : list (N * N))
  | OpInsertStr (text : str)
  | OpInsertStrAt (pos : N) (text : str)
  | OpReplaceRange (r : N * N) (text : str)
  | OpSetCursor (pos : N)
  | OpDeleteBackward (n : nat)
  | OpDeleteForward (n : nat)
  | OpDeleteForwardKill (n : nat)
  | OpYank
  | OpYankCurrentLine
  | OpVimKillLineEnd
  | OpAction (action : editor_action)
  | OpInsertElement (text : str)
  | OpAddElementRange (r : N * N)
  | OpRemoveElementRange (r : N * N)
  | OpReplacePayload (old new : str).

Section run.
Context `{Hseg : Segmentation}.

Definition apply_op (op : ta_op) (ta : text_area) : option text_area :=
  match op with
  | OpSetText text => Some (set_text_clearing_elements text ta)
  | OpSetTextWithElements text els => Some (set_text_with_elements text els ta)
  | OpInsertStr text => insert_str text ta
  | OpInsertStrAt pos text => insert_str_at pos text ta
  | OpReplaceRange r text => replace_range r text ta
  | OpSetCursor pos => Some (set_cursor pos ta)
  | OpDeleteBackward n => delete_backward n ta
  | OpDeleteForward n => delete_forward n ta
  | OpDeleteForwardKill n => delete_forward_kill n ta
  | OpYank => yank ta
  | OpYankCurrentLine => yank_current_line ta
  | OpVimKillLineEnd => vim_kill_to_end_of_line ta
  | OpAction action => apply_editor_action action ta
  | OpInsertElement text => snd <$> insert_element text ta
  | OpAddElementRange r => Some (add_element_range r ta).2
  | OpRemoveElementRange r => Some (remove_element_range r ta).2
  | OpReplacePayload old new => snd <$> replace_element_payload old new ta
  end.

(** What the callers see to: an explicit range lies between boundaries, the
    text of an element is not empty, restored elements do not overlap, and a
    range made an element does not enclose the cursor. *)
Definition admissible (op : ta_op) (ta : text_area) : Prop :=
  match op with
  | OpSetTextWithElements text els => all_disjoint (kept_ranges text els)
  | OpReplaceRange r _ => range_ok (ta_text ta) r
  | OpInsertElement text => text ≠ []
  | OpAddElementRange r =>
      ¬ ((clamped_range (ta_text ta) r).1 < ta_cursor_pos ta
           < (clamped_range (ta_text ta) r).2)%N
  | OpReplacePayload _ new => new ≠ []
  | _ => True
  end.

(** The buffers a sequence of admissible operations can reach. *)
Inductive reachable : text_area → Prop :=
  | reach_new : reachable ta_new
  | reach_step op ta ta' :
      reachable ta → admissible op ta → apply_op op ta = Some ta' → reachable ta'.

Context `{Hlaws : !SegmentationLaws}.

Lemma apply_op_ok op ta : wf ta → admissible op ta → runs (apply_op op ta).
Proof using Hlaws.
  intros Hwf Had. destruct op; simpl in *; auto.
  - apply runs_Some, set_text_inner_ok. done.
  - apply runs_Some, set_text_inner_ok. by intros ? [= <-].
  - by apply insert_str_at_ok.
  - by apply insert_str_at_ok.
  - by apply delete_backward_ok.
  - by apply delete_forward_ok.
  - by apply delete_forward_kill_ok.
  - by apply yank_ok.
  - by apply yank_current_line_ok.
  - by apply vim_kill_to_end_of_line_ok.
  - by apply apply_editor_action_ok.
  - destruct (insert_element_spec text ta Hwf Had) as (ta' & ? & -> & ? & _). by exists ta'.
  - apply runs_Some. by apply add_element_range_ok.
  - apply runs_Some. by apply remove_element_range_ok.
  - destruct (replace_element_payload_spec old new ta Hwf Had) as (b & ta' & -> & ? & _).
    by exists ta'.
Qed.

Lemma wf_new : wf ta_new.
Proof. split; [by split; constructor|]. split; [done|constructor]. Qed.

(** C13: every buffer that admissible operations reach is well formed: its elements are non-empty,
    ordered, disjoint and between char boundaries, and the cursor is at a char boundary outside
    them; and there every admissible operation returns without a panic. *)
Theorem textarea_stays_well_formed ta :
  reachable ta →
  wf ta ∧ ∀ op, admissible op ta → is_Some (apply_op op ta).
Proof using Hlaws.
  assert (reachable ta → wf ta) as Hreach.
  { induction 1 as [|op ta ta' _ Hwf Had Hrun]; [apply wf_new|].
    destruct (apply_op_ok op ta Hwf Had) as (ta'' & ? & ?). by simplify_eq. }
  intros Hr. split; [by apply Hreach|]. intros op Had.
  destruct (apply_op_ok op ta (Hreach Hr) Had) as (ta' & -> & _). eauto.
Qed.
End run.

(** ** A concrete run *)

(** Segmentation into single chars and one word per run. *)
#[local] Instance char_segmentation : Segmentation := {
  prev_boundary s n :=
    pre ← slice_to n s; Some (fst <$> rfind_char (λ _, true) pre);
  next_boundary s n :=
    post ← slice_from n s; Some ((λ c, (n + len_utf8 c)%N) <$> head post);
  split_word_bound_indices s := [(0%N, s)];
}.

Lemma rfind_char_true s : s ≠ [] → is_Some (rfind_char (λ _, true) s).
Proof. destruct s as [|c s]; [done|]. simpl. destruct (rfind_char _ s) as [[]|]; eauto. Qed.

#[local] Instance char_segmentation_laws : SegmentationLaws.
Proof.
  split.
  - intros s n (a & b & -> & <-)%boundary_iff Hpos. simpl.
    assert (slice_to (blen a) (a ++ b) = Some a) as -> by (apply slice_to_Some; eauto).
    assert (a ≠ []) as Ha by (intros ->; simpl in Hpos; lia).
    destruct (rfind_char_true a Ha) as [[i c] Hi]. simpl. rewrite Hi. simpl. exists i.
    apply rfind_char_Some in Hi as (u & v & -> & <- & _). split; [done|]. rewrite <-app_assoc, blen_app.
    split; [simpl; pose proof (len_utf8_pos c); lia|apply boundary_blen_app].
  - intros s n (a & b & -> & <-)%boundary_iff Hlt. simpl. rewrite blen_app in Hlt.
    assert (slice_from (blen a) (a ++ b) = Some b) as -> by (apply slice_from_Some; eauto).
    destruct b as [|c b]; [simpl in Hlt; lia|]. simpl. eexists; split; [done|].
    pose proof (len_utf8_pos c). split; [lia|]. apply boundary_iff. exists (a ++ [c]), b.
    rewrite <-app_assoc, blen_app. split; [done|simpl; lia].
  - intros s i w [= -> ->]%list_elem_of_singleton. apply get_range_Some. exists [], [].
    by rewrite app_nil_r.
Qed.

(** Typing, inserting an element and deleting back over it. *)
Lemma textarea_stays_well_formed_witness :
  ∃ ta1 ta2, reachable ta1 ∧ wf ta1 ∧ ta_text ta1 = lit "hi[img]" ∧
    apply_op (OpAction ADeleteBackward) ta1 = Some ta2 ∧ ta_text ta2 = lit "hi".
Proof.
  destruct (apply_op (OpInsertElement (lit "[img]"))
    (default ta_new (apply_op (OpInsertStr (lit "hi")) ta_new))) as [ta1|] eqn:E1;
    [|vm_compute in E1; discriminate].
  assert (reachable ta1) as Hr.
  { eapply (reach_step (OpInsertElement (lit "[img]"))); [|discriminate|exact E1].
    eapply (reach_step (OpInsertStr (lit "hi"))); [apply reach_new|exact I|vm_compute; reflexivity]. }
  destruct (textarea_stays_well_formed ta1 Hr) as [Hwf Hrun].
  destruct (Hrun (OpAction ADeleteBackward) I) as [ta2 E2].
  exists ta1, ta2. vm_compute in E1. injection E1 as <-. vm_compute in E2. injection E2 as <-.
  split_and!; [assumption|assumption|vm_compute; reflexivity..].
Defined.
