(* ===== verification/Agents.v ===== *)
(** * Agents: paths, registry, execution limit and residency

    The agents of one session share a registry ([core/src/agent/registry.rs])
    that names them by paths ([protocol/src/agent_path.rs]), gives them
    nicknames and limits how many there are.  Its operations are the lock
    sections and atomic accesses of the source; the system at the end
    interleaves them: a reservation is taken by a compare-and-swap loop, is
    committed or dropped later, and the count of a released agent is given back
    after the lock.  The residency of unloaded agents
    ([core/src/agent/control/residency.rs]) and the execution limit
    ([core/src/agent/control/execution.rs]) are modelled the same way.

    The random choice of a nickname is an argument of the operation. *)
From stdpp Require Import numbers strings list gmap.
From S2P Require Import Prelude RustStr.

(** ** Agent paths *)

Definition ROOT : str := lit "/root".
Definition MORPHEUS : str := lit "/morpheus".
Definition ROOT_SEGMENT : str := lit "root".
Definition SLASH : char := chr "/".

(** [AgentPath::is_root] on the path's text. *)
Definition is_root (path : str) : bool := str_eqb path ROOT.

Definition is_name_char (ch : char) : bool :=
  ((97 <=? ch) && (ch <=? 122))%N || is_ascii_digit ch || (ch =? 95)%N.

Definition validate_agent_name (agent_name : str) : result str unit :=
  if str_eqb agent_name [] then Err (lit "agent_name must not be empty")
  else if str_eqb agent_name ROOT_SEGMENT then Err (lit "agent_name `root` is reserved")
  else if str_eqb agent_name (lit ".") || str_eqb agent_name (lit "..")
  then Err (lit "agent_name `" ++ agent_name ++ lit "` is reserved")
  else if contains_char SLASH agent_name then Err (lit "agent_name must not contain `/`")
  else if negb (forallb is_name_char agent_name)
  then Err (lit "agent_name must use only lowercase letters, digits, and underscores")
  else Ok ().

(** The loops over the segments stop at the first error. *)
Fixpoint validate_names (segments : list str) : result str unit :=
  match segments with
  | [] => Ok ()
  | segment :: rest => let? _ := validate_agent_name segment in validate_names rest
  end.

Definition validate_absolute_path (path : str) : result str unit :=
  if str_eqb path MORPHEUS then Ok ()
  else match strip_prefix [SLASH] path with
       | None => Err (lit "absolute agent paths must start with `/root` or be `/morpheus`")
       | Some stripped =>
           match split SLASH stripped with
           | [] => Err (lit "absolute agent path must not be empty")
           | root :: segments =>
               if negb (str_eqb root ROOT_SEGMENT)
               then Err (lit "absolute agent paths must start with `/root` or be `/morpheus`")
               else if ends_with [SLASH] stripped
               then Err (lit "absolute agent path must not end with `/`")
               else validate_names segments
           end
       end.

Definition validate_relative_reference (reference : str) : result str unit :=
  if ends_with [SLASH] reference then Err (lit "relative agent path must not end with `/`")
  else validate_names (split SLASH reference).

(** [AgentPath::from_string]: the path is its text. *)
Definition from_string (path : str) : result str str :=
  let? _ := validate_absolute_path path in Ok path.

(** [AgentPath::name]: the text after the last [/]. *)
Definition agent_name (path : str) : str :=
  if is_root path then ROOT_SEGMENT
  else match last (split SLASH path) with
       | Some ((_ :: _) as segment) => segment
       | _ => ROOT_SEGMENT
       end.

Definition agent_path_join (path name : str) : result str str :=
  let? _ := validate_agent_name name in from_string (path ++ [SLASH] ++ name).

Definition agent_path_resolve (path reference : str) : result str str :=
  if str_eqb reference [] then Err (lit "agent path must not be empty")
  else if str_eqb reference ROOT then Ok ROOT
  else if starts_with [SLASH] reference then from_string reference
  else let? _ := validate_relative_reference reference in
       from_string (path ++ [SLASH] ++ reference).

(** ** The registry *)

(** Thread ids are opaque; what the registry uses of them is equality and the
    text [format!] prints. *)
Abbreviation thread_id := N.
Class ThreadIds := { fmt_thread_id : thread_id → str }.
Class ThreadIdLaws `{ThreadIds} := { fmt_thread_id_inj : Inj (=) (=) fmt_thread_id }.

Record agent_metadata := AgentMetadata {
  am_agent_id : option thread_id;
  am_agent_path : option str;
  am_agent_nickname : option str;
  am_agent_role : option str;
}.

Definition default_metadata : agent_metadata := AgentMetadata None None None None.

(** [format_agent_nickname]. *)
Definition ordinal_suffix (value : N) : str :=
  if ((11 <=? value mod 100) && (value mod 100 <=? 13))%N then lit "th"
  else if (value mod 10 =? 1)%N then lit "st"
  else if (value mod 10 =? 2)%N then lit "nd"
  else if (value mod 10 =? 3)%N then lit "rd"
  else lit "th".

Definition format_agent_nickname (name : str) (nickname_reset_count : N) : str :=
  if (nickname_reset_count =? 0)%N then name
  else let value := (nickname_reset_count + 1)%N in
       name ++ lit " the " ++ fmt_N value ++ ordinal_suffix value.

(** Depths are [i32]. *)
Definition i32_max : Z := (2 ^ 31 - 1)%Z.
Definition saturating_add_1 (depth : Z) : Z := Z.min i32_max (depth + 1).

(** [SessionSource], as far as the depth of an agent depends on it. *)
Inductive session_source :=
  | ThreadSpawn (depth : Z)
  | OtherSubAgent
  | OtherSource.
Definition session_depth (source : session_source) : Z :=
  match source with ThreadSpawn depth => depth | OtherSubAgent => 0%Z | OtherSource => 0%Z end.
Definition next_thread_spawn_depth (source : session_source) : Z :=
  saturating_add_1 (session_depth source).
Definition exceeds_thread_spawn_depth_limit (depth max_depth : Z) : bool := (max_depth <? depth)%Z.

Section registry.
(** The environments remembered for an evicted agent. *)
Context {Env : Type}.

Record registered_agent := RegisteredAgent {
  ra_path : str;
  ra_evicted_environments : option Env;
}.
Definition new_registered (path : str) : registered_agent := RegisteredAgent path None.

Record active_agents := ActiveAgents {
  aa_agent_tree : gmap str agent_metadata;
  aa_thread_paths : gmap thread_id registered_agent;
  aa_used_agent_nicknames : gset str;
  aa_nickname_reset_count : N;
}.
Definition no_agents : active_agents := ActiveAgents ∅ ∅ ∅ 0.

Definition with_tree (f : gmap str agent_metadata → gmap str agent_metadata) (a : active_agents)
  : active_agents :=
  ActiveAgents (f (aa_agent_tree a)) (aa_thread_paths a) (aa_used_agent_nicknames a)
    (aa_nickname_reset_count a).
Definition with_paths (f : gmap thread_id registered_agent → gmap thread_id registered_agent)
    (a : active_agents) : active_agents :=
  ActiveAgents (aa_agent_tree a) (f (aa_thread_paths a)) (aa_used_agent_nicknames a)
    (aa_nickname_reset_count a).
Definition with_used (f : gset str → gset str) (a : active_agents) : active_agents :=
  ActiveAgents (aa_agent_tree a) (aa_thread_paths a) (f (aa_used_agent_nicknames a))
    (aa_nickname_reset_count a).

Definition is_root_metadata (md : agent_metadata) : bool :=
  match am_agent_path md with Some path => is_root path | None => false end.

(** The lock section of [release_spawned_thread]; the flag says that the count
    is to be given back. *)
Definition release_thread (tid : thread_id) (a : active_agents) : bool * active_agents :=
  match aa_thread_paths a !! tid with
  | None => (false, a)
  | Some agent =>
      let a := with_paths (delete tid) a in
      match aa_agent_tree a !! ra_path agent with
      | None => (false, a)
      | Some md => (negb (is_root_metadata md), with_tree (delete (ra_path agent)) a)
      end
  end.

Definition register_root_thread (tid : thread_id) (a : active_agents) : active_agents :=
  let a := match aa_agent_tree a !! ROOT with
           | Some _ => a
           | None => with_tree (<[ROOT := AgentMetadata (Some tid) (Some ROOT) None None]>) a
           end in
  match am_agent_id <$> aa_agent_tree a !! ROOT with
  | Some (Some root_thread_id) => with_paths (<[root_thread_id := new_registered ROOT]>) a
  | _ => a
  end.

Definition agent_id_for_path (path : str) (a : active_agents) : option thread_id :=
  md ← aa_agent_tree a !! path; am_agent_id md.

Definition agent_metadata_for_thread (tid : thread_id) (a : active_agents)
  : option agent_metadata :=
  agent ← aa_thread_paths a !! tid; aa_agent_tree a !! ra_path agent.

Definition save_evicted_environments (tid : thread_id) (env : Env) (a : active_agents)
  : active_agents :=
  with_paths (alter (λ agent, RegisteredAgent (ra_path agent) (Some env)) tid) a.
Definition evicted_environments (tid : thread_id) (a : active_agents) : option Env :=
  agent ← aa_thread_paths a !! tid; ra_evicted_environments agent.
Definition clear_evicted_environments (tid : thread_id) (a : active_agents) : active_agents :=
  with_paths (alter (λ agent, RegisteredAgent (ra_path agent) None) tid) a.

Definition is_live (md : agent_metadata) : bool :=
  match am_agent_id md with Some _ => negb (is_root_metadata md) | None => false end.
Definition live_agents (a : active_agents) : list agent_metadata :=
  List.filter is_live (map_to_list (aa_agent_tree a)).*2.

(** [reserve_agent_nickname]; [pick] is the random index. *)
Definition choose (pick : nat) (l : list str) : option str := l !! (pick `mod` length l).

Definition reserve_agent_nickname (names : list str) (preferred : option str) (pick : nat)
    (a : active_agents) : option str * active_agents :=
  let reserve nickname a := (Some nickname, with_used (λ used, {[ nickname ]} ∪ used) a) in
  match preferred with
  | Some preferred => reserve preferred a
  | None =>
      match names with
      | [] => (None, a)
      | _ =>
          let available :=
            List.filter (λ name, bool_decide (name ∉ aa_used_agent_nicknames a))
              ((λ name, format_agent_nickname name (aa_nickname_reset_count a)) <$> names) in
          match choose pick available with
          | Some name => reserve name a
          | None =>
              let count := (aa_nickname_reset_count a + 1)%N in
              let a := ActiveAgents (aa_agent_tree a) (aa_thread_paths a) ∅ count in
              match choose pick names with
              | Some name => reserve (format_agent_nickname name count) a
              | None => (None, a)
              end
          end
      end
  end.

Definition reserve_agent_path (path : str) (a : active_agents) : result str active_agents :=
  match aa_agent_tree a !! path with
  | Some _ => Err (lit "agent path `" ++ path ++ lit "` already exists")
  | None => Ok (with_tree (<[path := AgentMetadata None (Some path) None None]>) a)
  end.

Definition release_reserved_agent_path (path : str) (a : active_agents) : active_agents :=
  match aa_agent_tree a !! path with
  | Some md => match am_agent_id md with
               | None => with_tree (delete path) a
               | Some _ => a
               end
  | None => a
  end.

Section thread_ids.
Context `{ThreadIds}.

(** The key of an agent in the tree. *)
Definition agent_key (tid : thread_id) (md : agent_metadata) : str :=
  match am_agent_path md with
  | Some path => path
  | None => lit "thread:" ++ fmt_thread_id tid
  end.

Definition register_spawned_thread (md : agent_metadata) (a : active_agents) : active_agents :=
  match am_agent_id md with
  | None => a
  | Some tid =>
      let key := agent_key tid md in
      let a := match am_agent_nickname md with
               | Some nickname => with_used (λ used, {[ nickname ]} ∪ used) a
               | None => a
               end in
      let previous_agent := aa_thread_paths a !! tid in
      let a := with_paths (<[tid := new_registered key]>) a in
      let a := match previous_agent with
               | Some agent => if str_eqb (ra_path agent) key then a
                               else with_tree (delete (ra_path agent)) a
               | None => a
               end in
      let previous_metadata := aa_agent_tree a !! key in
      let a := with_tree (<[key := md]>) a in
      match previous_metadata ≫= am_agent_id with
      | Some previous_thread_id =>
          if (previous_thread_id =? tid)%N then a else with_paths (delete previous_thread_id) a
      | None => a
      end
  end.

(** ** The registry in use

    [total_count] is an [AtomicUsize].  A process is a client of the registry
    between two of its atomic accesses. *)
Record registry := Registry { rg_active : active_agents; rg_total_count : N }.

Inductive proc :=
  | PIncrement (current : N)                   (* in the loop of try_increment_spawned *)
  | PReserved (nickname path : option str)     (* holds an active SpawnReservation *)
  | PSubtract.                                 (* about to fetch_sub *)

Record system := System { sy_registry : registry; sy_procs : list proc }.
Definition empty_system : system := System (Registry no_agents 0) [].

Definition usize_mod : N := (2 ^ 64)%N.

(** What a client can do next; [i] is the process that acts. *)
Inductive action :=
  | ReserveSlot                                (* reserve_spawn_slot: the first load *)
  | CompareExchange (i : nat) (spurious : bool)
  | ReserveNickname (i : nat) (names : list str) (preferred : option str) (pick : nat)
  | ReservePath (i : nat) (path : str)
  | Commit (i : nat) (md : agent_metadata)
  | DropReservation (i : nat)
  | FetchSub (i : nat)
  | ReleaseThread (tid : thread_id)
  | RegisterRoot (tid : thread_id)
  | SaveEvicted (tid : thread_id) (env : Env)
  | ClearEvicted (tid : thread_id).

Definition set_active (a : active_agents) (s : system) : system :=
  System (Registry a (rg_total_count (sy_registry s))) (sy_procs s).
Definition set_total (n : N) (s : system) : system :=
  System (Registry (rg_active (sy_registry s)) n) (sy_procs s).
Definition set_procs (ps : list proc) (s : system) : system := System (sy_registry s) ps.

(** One atomic access; [None] when the process is not at that point. *)
Definition fire (max_threads : option N) (act : action) (s : system) : option system :=
  let active := rg_active (sy_registry s) in
  let total := rg_total_count (sy_registry s) in
  let procs := sy_procs s in
  match act with
  | ReserveSlot =>
      match max_threads with
      | Some _ => Some (set_procs (procs ++ [PIncrement total]) s)
      | None => Some (set_total ((total + 1) `mod` usize_mod)%N
                        (set_procs (procs ++ [PReserved None None]) s))
      end
  | CompareExchange i spurious =>
      match max_threads, procs !! i with
      | Some max_threads, Some (PIncrement current) =>
          if (max_threads <=? current)%N then Some (set_procs (delete i procs) s)
          else if (total =? current)%N && negb spurious
          then Some (set_total (current + 1)%N
                       (set_procs (<[i := PReserved None None]> procs) s))
          else Some (set_procs (<[i := PIncrement total]> procs) s)
      | _, _ => None
      end
  | ReserveNickname i names preferred pick =>
      match procs !! i with
      | Some (PReserved nickname path) =>
          let '(chosen, active) := reserve_agent_nickname names preferred pick active in
          let nickname := match chosen with Some n => Some n | None => nickname end in
          Some (set_active active (set_procs (<[i := PReserved nickname path]> procs) s))
      | _ => None
      end
  | ReservePath i path =>
      match procs !! i with
      | Some (PReserved nickname held) =>
          match reserve_agent_path path active with
          | Ok active =>
              Some (set_active active (set_procs (<[i := PReserved nickname (Some path)]> procs) s))
          | Err _ => Some s
          end
      | _ => None
      end
  | Commit i md =>
      match procs !! i with
      | Some (PReserved _ _) =>
          Some (set_active (register_spawned_thread md active) (set_procs (delete i procs) s))
      | _ => None
      end
  | DropReservation i =>
      match procs !! i with
      | Some (PReserved _ path) =>
          let active := match path with
                        | Some path => release_reserved_agent_path path active
                        | None => active
                        end in
          Some (set_active active (set_procs (<[i := PSubtract]> procs) s))
      | _ => None
      end
  | FetchSub i =>
      match procs !! i with
      | Some PSubtract =>
          Some (set_total ((total + (usize_mod - 1)) `mod` usize_mod)%N
                  (set_procs (delete i procs) s))
      | _ => None
      end
  | ReleaseThread tid =>
      let '(counted, active) := release_thread tid active in
      Some (set_active active
              (if counted then set_procs (procs ++ [PSubtract]) s else s))
  | RegisterRoot tid => Some (set_active (register_root_thread tid active) s)
  | SaveEvicted tid env => Some (set_active (save_evicted_environments tid env active) s)
  | ClearEvicted tid => Some (set_active (clear_evicted_environments tid active) s)
  end.

Fixpoint fire_all (max_threads : option N) (acts : list action) (s : system) : option system :=
  match acts with
  | [] => Some s
  | act :: rest => s ← fire max_threads act s; fire_all max_threads rest s
  end.
End thread_ids.
End registry.
Arguments registered_agent : clear implicits.
Arguments active_agents : clear implicits.
Arguments registry : clear implicits.
Arguments system : clear implicits.
Arguments action : clear implicits.
Arguments reserve_agent_nickname : simpl never.
