(* ===== verification/AgentsProofs.v ===== *)
(** * Correctness of the agent registry

    The limit on the number of agents holds in every interleaving of the
    registry's atomic accesses; its count is exact, with the slots that commits
    for registered threads lose, and no path is held twice.  Agent paths are exactly the slash
    separated names below [/root]. *)
From stdpp Require Import numbers strings list gmap pretty.
From Stdlib Require Import Ascii.
From S2P Require Import Prelude RustStr Agents.

(** ** Counting live agents *)

Definition b2n (b : bool) : nat := if b then 1 else 0.

Definition n_live (m : gmap str agent_metadata) : nat :=
  length (List.filter is_live (map_to_list m).*2).

Lemma filter_length_perm {A} (p : A → bool) l k :
  l ≡ₚ k → length (List.filter p l) = length (List.filter p k).
Proof.
  induction 1 as [|x l k _ IH|x y l|l k h _ IH1 _ IH2]; simpl; [done|..|congruence].
  - destruct (p x); simpl; congruence.
  - by destruct (p x), (p y).
Qed.

Lemma n_live_insert_new m i x : m !! i = None → n_live (<[i:=x]> m) = b2n (is_live x) + n_live m.
Proof.
  intros Hi. unfold n_live.
  rewrite (filter_length_perm _ _ ((i, x) :: map_to_list m).*2)
    by (apply Permutation_map, map_to_list_insert, Hi).
  simpl. by destruct (is_live x).
Qed.

Lemma n_live_delete m i x : m !! i = Some x → n_live m = b2n (is_live x) + n_live (delete i m).
Proof.
  intros Hi. rewrite <-n_live_insert_new with (i := i) by apply lookup_delete_eq.
  by rewrite insert_delete_id.
Qed.

Lemma n_live_insert m i x y :
  m !! i = Some y → n_live (<[i:=x]> m) + b2n (is_live y) = b2n (is_live x) + n_live m.
Proof.
  intros Hi. rewrite (n_live_delete m i y Hi), <-insert_delete_eq, n_live_insert_new
    by apply lookup_delete_eq. lia.
Qed.

Lemma n_live_delete_le m i : n_live (delete i m) ≤ n_live m.
Proof.
  destruct (m !! i) as [x|] eqn:E; [rewrite (n_live_delete _ _ _ E); lia|by rewrite delete_id].
Qed.

Lemma n_live_insert_le m i x : n_live (<[i:=x]> m) ≤ b2n (is_live x) + n_live m.
Proof.
  destruct (m !! i) as [y|] eqn:E; [pose proof (n_live_insert m i x y E); lia|].
  by rewrite n_live_insert_new.
Qed.

(** ** Threads and paths are linked *)

Section registry.
Context {Env : Type} `{ThreadIds}.
Implicit Types (a : active_agents Env) (s : system Env).

(** A thread id and the entry of the tree it is registered at name each other. *)
Definition linked a : Prop :=
  (∀ t ag, aa_thread_paths a !! t = Some ag →
     ∃ md, aa_agent_tree a !! ra_path ag = Some md ∧ am_agent_id md = Some t) ∧
  (∀ p md t, aa_agent_tree a !! p = Some md → am_agent_id md = Some t →
     (ra_path <$> aa_thread_paths a !! t) = Some p).

Lemma linked_empty : linked (@no_agents Env).
Proof. split; intros *; simpl; by rewrite lookup_empty. Qed.

(** [register_spawned_thread] on the two maps. *)
Lemma register_spawned_maps md t a :
  am_agent_id md = Some t →
  let key := agent_key t md in
  let tree1 := match aa_thread_paths a !! t with
               | Some ag => if str_eqb (ra_path ag) key then aa_agent_tree a
                            else delete (ra_path ag) (aa_agent_tree a)
               | None => aa_agent_tree a
               end in
  let paths1 := <[t := new_registered key]> (aa_thread_paths a) in
  let a' := register_spawned_thread md a in
  aa_agent_tree a' = <[key := md]> tree1 ∧
  aa_thread_paths a' = match tree1 !! key ≫= am_agent_id with
                       | Some t' => if (t' =? t)%N then paths1 else delete t' paths1
                       | None => paths1
                       end.
Proof.
  intros Hid. unfold register_spawned_thread. rewrite Hid. simpl.
  destruct (am_agent_nickname md); simpl; destruct (aa_thread_paths a !! t) as [ag|]; simpl;
    try destruct (str_eqb (ra_path ag) (agent_key t md)); simpl;
    destruct (_ !! agent_key t md) as [[[t'|] ? ? ?]|]; simpl; try destruct (t' =? t)%N; done.
Qed.

Lemma register_spawned_linked md a : linked a → linked (register_spawned_thread md a).
Proof.
  intros [Hf Hb]. destruct (am_agent_id md) as [t|] eqn:Hid;
    [|unfold register_spawned_thread; by rewrite Hid].
  destruct (register_spawned_maps md t a Hid) as [Htree Hpaths].
  set (key := agent_key t md) in *.
  set (tree1 := match aa_thread_paths a !! t with Some _ => _ | None => _ end) in *.
  assert (∀ p md', tree1 !! p = Some md' →
    aa_agent_tree a !! p = Some md' ∧ (p ≠ key → am_agent_id md' ≠ Some t)) as Hsub.
  { intros p md' Hp. unfold tree1 in Hp. destruct (aa_thread_paths a !! t) as [ag|] eqn:Ht.
    - destruct (str_eqb (ra_path ag) key) eqn:Hk.
      + apply str_eqb_eq in Hk. split; [done|]. intros Hne Hid'. specialize (Hb _ _ _ Hp Hid').
        rewrite Ht in Hb. simpl in Hb. congruence.
      + apply lookup_delete_Some in Hp as [Hne Hp]. split; [done|]. intros _ Hid'.
        specialize (Hb _ _ _ Hp Hid'). rewrite Ht in Hb. simpl in Hb. congruence.
    - split; [done|]. intros _ Hid'. specialize (Hb _ _ _ Hp Hid'). by rewrite Ht in Hb. }
  assert (∀ p, p ≠ key → (ra_path <$> aa_thread_paths a !! t) ≠ Some p → tree1 !! p = aa_agent_tree a !! p)
    as Hkeep.
  { intros p Hne Hnp. unfold tree1. destruct (aa_thread_paths a !! t) as [ag|]; [|done].
    destruct (str_eqb (ra_path ag) key); [done|]. apply lookup_delete_ne. simpl in Hnp. congruence. }
  assert ((ra_path <$> aa_thread_paths a !! t) ≠ Some key → tree1 !! key = aa_agent_tree a !! key) as Hkey.
  { intros Hnp. unfold tree1. destruct (aa_thread_paths a !! t) as [ag|]; [|done].
    destruct (str_eqb (ra_path ag) key); [done|]. apply lookup_delete_ne. simpl in Hnp. congruence. }
  split.
  - intros u ag Hu. rewrite Hpaths in Hu.
    destruct (decide (u = t)) as [->|Hut].
    { exists md. split; [|done].
      assert (ag = new_registered key) as ->; [|rewrite Htree; apply lookup_insert_eq].
      destruct (tree1 !! key ≫= am_agent_id) as [t'|]; [destruct (N.eqb_spec t' t)|];
        rewrite ?lookup_delete_ne, lookup_insert_eq in Hu by done; congruence. }
    assert (aa_thread_paths a !! u = Some ag ∧ (tree1 !! key ≫= am_agent_id) ≠ Some u) as [Hu' Hnk].
    { destruct (tree1 !! key ≫= am_agent_id) as [t'|]; [destruct (N.eqb_spec t' t)|].
      - rewrite lookup_insert_ne in Hu by done. split; congruence.
      - apply lookup_delete_Some in Hu as [? Hu]. rewrite lookup_insert_ne in Hu by done. split; congruence.
      - by rewrite lookup_insert_ne in Hu. }
    destruct (Hf _ _ Hu') as (md' & Hmd & Hid'). exists md'. split; [|done]. rewrite Htree.
    assert ((ra_path <$> aa_thread_paths a !! t) ≠ Some (ra_path ag)) as Hnt.
    { intros Heq. destruct (aa_thread_paths a !! t) as [ag'|] eqn:Ht; simpl in Heq; [|done].
      injection Heq as Heq. destruct (Hf _ _ Ht) as (md'' & Hmd'' & ?). congruence. }
    assert (ra_path ag ≠ key) as Hne.
    { intros Heq. rewrite Heq in *. apply Hnk. rewrite Hkey by done. by rewrite Hmd. }
    rewrite lookup_insert_ne by done. by rewrite Hkeep.
  - intros p md' u Hp Hid'. rewrite Htree in Hp. rewrite Hpaths.
    destruct (decide (p = key)) as [->|Hne].
    { rewrite lookup_insert_eq in Hp. injection Hp as <-. assert (u = t) as -> by congruence.
      destruct (tree1 !! key ≫= am_agent_id) as [t'|]; [destruct (N.eqb_spec t' t)|];
        by rewrite ?lookup_delete_ne, lookup_insert_eq by done. }
    rewrite lookup_insert_ne in Hp by done. destruct (Hsub _ _ Hp) as [Hp' Hnt].
    assert (u ≠ t) by (intros ->; by apply Hnt). specialize (Hb _ _ _ Hp' Hid') as Hu.
    destruct (tree1 !! key ≫= am_agent_id) as [t'|] eqn:Ek;
      [destruct (N.eqb_spec t' t)|]; [by rewrite lookup_insert_ne| |by rewrite lookup_insert_ne].
    destruct (decide (t' = u)) as [->|]; [|by rewrite lookup_delete_ne, lookup_insert_ne].
    apply bind_Some in Ek as (mk & Hk & Hkid). destruct (Hsub _ _ Hk) as [Hk' _].
    specialize (Hb _ _ _ Hk' Hkid). rewrite Hu in Hb. congruence.
Qed.

Lemma register_spawned_live md a :
  n_live (aa_agent_tree (register_spawned_thread md a)) ≤ 1 + n_live (aa_agent_tree a).
Proof.
  destruct (am_agent_id md) as [t|] eqn:Hid; [|unfold register_spawned_thread; rewrite Hid; lia].
  destruct (register_spawned_maps md t a Hid) as [-> _].
  etrans; [apply n_live_insert_le|].
  assert (b2n (is_live md) ≤ 1) by (by destruct (is_live md); simpl; lia).
  destruct (aa_thread_paths a !! t) as [ag|]; [destruct (str_eqb _ _)|]; try lia.
  pose proof (n_live_delete_le (aa_agent_tree a) (ra_path ag)). lia.
Qed.

(** The other lock sections. *)
Lemma release_thread_spec t a :
  linked a →
  let '(counted, a') := release_thread t a in
  linked a' ∧ n_live (aa_agent_tree a) = b2n counted + n_live (aa_agent_tree a') ∧
  (∀ p md, aa_agent_tree a !! p = Some md → am_agent_id md = None →
     aa_agent_tree a' !! p = Some md).
Proof.
  intros Hl. pose proof Hl as [Hf Hb]. unfold release_thread.
  destruct (aa_thread_paths a !! t) as [ag|] eqn:Ht; [|by split_and!].
  destruct (Hf _ _ Ht) as (md & Hmd & Hid). simpl. rewrite Hmd.
  assert (∀ p md' u, aa_agent_tree a !! p = Some md' → am_agent_id md' = Some u →
    p ≠ ra_path ag → u ≠ t) as Hother.
  { intros p md' u Hp Hu Hne ->. specialize (Hb _ _ _ Hp Hu). rewrite Ht in Hb. simpl in Hb. congruence. }
  split_and!.
  - split; simpl.
    + intros u ag' [Hne Hu]%lookup_delete_Some. destruct (Hf _ _ Hu) as (md' & Hmd' & Hid').
      exists md'. split; [|done]. rewrite lookup_delete_ne; [done|]. intros Heq. rewrite Heq in *. congruence.
    + intros p md' u [Hne Hp]%lookup_delete_Some Hu. rewrite lookup_delete_ne; [by eapply Hb|].
      intros <-. by eapply Hother.
  - simpl. rewrite (n_live_delete _ _ _ Hmd). unfold is_live. by rewrite Hid.
  - simpl. intros p md' Hp Hn. rewrite lookup_delete_ne; [done|]. intros <-. congruence.
Qed.

Lemma register_root_linked t a :
  linked a → (aa_agent_tree a !! ROOT = None → aa_thread_paths a !! t = None) →
  linked (register_root_thread t a).
Proof.
  intros Hl Ht. pose proof Hl as [Hf Hb]. unfold register_root_thread.
  destruct (aa_agent_tree a !! ROOT) as [md|] eqn:Er; simpl.
  - rewrite Er. simpl. destruct (am_agent_id md) as [r|] eqn:Hr; [|done].
    pose proof (Hb _ _ _ Er Hr) as Hpr. split; simpl.
    + intros u ag. destruct (decide (u = r)) as [->|].
      * rewrite lookup_insert_eq. intros [= <-]. simpl. eauto.
      * rewrite lookup_insert_ne by done. apply Hf.
    + intros p md' u Hp Hu. destruct (decide (u = r)) as [->|].
      * rewrite lookup_insert_eq. simpl. specialize (Hb _ _ _ Hp Hu). congruence.
      * rewrite lookup_insert_ne by done. by eapply Hb.
  - rewrite lookup_insert_eq. simpl. specialize (Ht eq_refl). split; simpl.
    + intros u ag. destruct (decide (u = t)) as [->|].
      * rewrite lookup_insert_eq. intros [= <-]. simpl. eexists. by rewrite lookup_insert_eq.
      * rewrite lookup_insert_ne by done. intros Hu. destruct (Hf _ _ Hu) as (md' & Hmd' & ?).
        exists md'. rewrite lookup_insert_ne; [done|]. intros Heq. rewrite <-Heq in Hmd'. congruence.
    + intros p md' u. destruct (decide (p = ROOT)) as [->|].
      * rewrite lookup_insert_eq. intros [= <-] [= <-]. by rewrite lookup_insert_eq.
      * rewrite lookup_insert_ne by done. intros Hp Hu. specialize (Hb _ _ _ Hp Hu).
        rewrite lookup_insert_ne; [done|]. intros <-. by rewrite Ht in Hb.
Qed.

Lemma register_root_tree t a :
  aa_agent_tree (register_root_thread t a) =
  match aa_agent_tree a !! ROOT with
  | Some _ => aa_agent_tree a
  | None => <[ROOT := AgentMetadata (Some t) (Some ROOT) None None]> (aa_agent_tree a)
  end.
Proof.
  unfold register_root_thread. destruct (aa_agent_tree a !! ROOT) as [md|] eqn:E; simpl.
  - rewrite E. simpl. by destruct (am_agent_id md).
  - by rewrite lookup_insert_eq.
Qed.

Lemma register_root_live t a :
  n_live (aa_agent_tree (register_root_thread t a)) = n_live (aa_agent_tree a).
Proof.
  rewrite register_root_tree. destruct (aa_agent_tree a !! ROOT) eqn:E; [done|].
  by rewrite n_live_insert_new.
Qed.

Lemma with_paths_linked f t a :
  (∀ ag, ra_path (f ag) = ra_path ag) → linked a → linked (with_paths (alter f t) a).
Proof.
  intros Hf [H1 H2]. split; simpl.
  - intros u ag. destruct (decide (t = u)) as [->|].
    + rewrite lookup_alter_eq. intros (ag' & Hag & ->)%fmap_Some. rewrite Hf. by apply H1.
    + rewrite lookup_alter_ne by done. apply H1.
  - intros p md u Hp Hu. specialize (H2 _ _ _ Hp Hu). destruct (decide (t = u)) as [->|].
    + rewrite lookup_alter_eq. destruct (aa_thread_paths a !! u); simpl in *; congruence.
    + by rewrite lookup_alter_ne.
Qed.

Lemma reserve_nickname_maps names preferred pick a :
  aa_agent_tree (reserve_agent_nickname names preferred pick a).2 = aa_agent_tree a ∧
  aa_thread_paths (reserve_agent_nickname names preferred pick a).2 = aa_thread_paths a.
Proof.
  unfold reserve_agent_nickname. destruct preferred; [done|]. destruct names; [done|].
  destruct (choose _ _); [done|]. by destruct (choose _ _).
Qed.

Lemma reserve_path_spec p a a' :
  reserve_agent_path p a = Ok a' → linked a →
  linked a' ∧ n_live (aa_agent_tree a') = n_live (aa_agent_tree a) ∧
  aa_agent_tree a !! p = None ∧
  aa_agent_tree a' = <[p := AgentMetadata None (Some p) None None]> (aa_agent_tree a).
Proof.
  unfold reserve_agent_path. destruct (aa_agent_tree a !! p) eqn:E; [done|].
  intros [= <-] [Hf Hb]. split_and!; simpl; [|by rewrite n_live_insert_new|done|done].
  split; simpl.
  - intros t ag Ht. destruct (Hf _ _ Ht) as (md & Hmd & ?). exists md.
    rewrite lookup_insert_ne; [done|]. intros Heq. rewrite <-Heq in Hmd. congruence.
  - intros q md t. destruct (decide (q = p)) as [->|].
    + rewrite lookup_insert_eq. by intros [= <-].
    + rewrite lookup_insert_ne by done. apply Hb.
Qed.

Lemma release_reserved_spec p a :
  linked a →
  linked (release_reserved_agent_path p a) ∧
  n_live (aa_agent_tree (release_reserved_agent_path p a)) = n_live (aa_agent_tree a) ∧
  (∀ q, q ≠ p → aa_agent_tree (release_reserved_agent_path p a) !! q = aa_agent_tree a !! q).
Proof.
  intros [Hf Hb]. unfold release_reserved_agent_path.
  destruct (aa_agent_tree a !! p) as [md|] eqn:E; [|done].
  destruct (am_agent_id md) as [t|] eqn:Hid; [done|]. split_and!; simpl.
  - split; simpl.
    + intros u ag Hu. destruct (Hf _ _ Hu) as (md' & Hmd & ?). exists md'.
      rewrite lookup_delete_ne; [done|]. intros Heq. rewrite <-Heq in Hmd. congruence.
    + intros q md' u [_ Hq]%lookup_delete_Some. by apply Hb.
  - rewrite (n_live_delete _ _ _ E). unfold is_live. by rewrite Hid.
  - intros q Hq. by rewrite lookup_delete_ne.
Qed.

(** ** Processes *)

Definition unit_of (p : proc) : nat := match p with PIncrement _ => 0 | _ => 1 end.
Definition units (ps : list proc) : nat := sum_list (unit_of <$> ps).
Definition held_path (p : proc) : option str :=
  match p with PReserved _ path => path | _ => None end.
Definition held (ps : list proc) : list str := omap held_path ps.

Lemma units_app ps qs : units (ps ++ qs) = units ps + units qs.
Proof. unfold units. rewrite fmap_app. apply sum_list_with_app. Qed.

Lemma units_cons p ps : units (p :: ps) = unit_of p + units ps.
Proof. done. Qed.

(** ** The limit *)

(** The root thread is not one of the spawned agents. *)
Definition roots_apart (act : action Env) s : Prop :=
  match act with
  | RegisterRoot t =>
      let a := rg_active (sy_registry s) in
      aa_agent_tree a !! ROOT = None → aa_thread_paths a !! t = None
  | _ => True
  end.

(** What every caller keeps to ([prepare_agent_metadata] and the three commits of
    [control/spawn.rs]): the paths they reserve are agent paths, and the metadata
    they commit has the path that the reservation holds.  Whether the thread is
    registered already is not among it. *)
Definition as_callers (act : action Env) s : Prop :=
  match act with
  | ReservePath _ path => validate_absolute_path path = Ok ()
  | Commit i md => ∃ nickname, sy_procs s !! i = Some (PReserved nickname (am_agent_path md))
  | _ => True
  end.

(** The slots that an action takes from use for good: a commit without a thread
    or at the root path is no counted agent, and a commit for a thread that is
    registered already replaces a counted agent, whose count nobody gives back. *)
Definition replaced_agent (t : thread_id) a : bool :=
  match agent_metadata_for_thread t a with Some old => negb (is_root_metadata old) | None => false end.
Definition slots_lost (act : action Env) s : nat :=
  match act with
  | Commit _ md =>
      match am_agent_id md with
      | None => 1
      | Some t => b2n (is_root_metadata md) + b2n (replaced_agent t (rg_active (sy_registry s)))
      end
  | _ => 0
  end.

(** The states that actions satisfying [ok] lead to. *)
Inductive reachable (ok : action Env → system Env → Prop) (max_threads : option N)
  : system Env → Prop :=
  | reach_empty : reachable ok max_threads empty_system
  | reach_fire act s s' :
      reachable ok max_threads s → ok act s → fire max_threads act s = Some s' →
      reachable ok max_threads s'.

(** What the count stands for: slots that processes hold and live agents. *)
Definition tree_of s := aa_agent_tree (rg_active (sy_registry s)).
Definition total_of s := rg_total_count (sy_registry s).
Definition in_use s : nat := units (sy_procs s) + n_live (tree_of s).

Lemma fetch_sub_mod n : (0 < n)%N → (n < usize_mod)%N → ((n + (usize_mod - 1)) `mod` usize_mod = n - 1)%N.
Proof.
  intros Hp Hn. replace (n + (usize_mod - 1))%N with ((n - 1) + 1 * usize_mod)%N by lia.
  rewrite N.Div0.mod_add. apply N.mod_small. lia.
Qed.

Ltac split_proc E :=
  let l1 := fresh "l1" in let l2 := fresh "l2" in let Hins := fresh "Hins" in
  let Hdel := fresh "Hdel" in let Hps := fresh "Hps" in
  destruct (list_lookup_split _ _ _ E) as (l1 & l2 & Hps & Hins & Hdel);
  rewrite ?Hins, ?Hdel; rewrite ?Hps in *; rewrite ?units_app, ?units_cons in *; simpl in *.

(** ** Slots and paths *)

(** Each held path is a placeholder of the tree, and no two reservations hold
    the same one. *)
Definition placeholders (tree : gmap str agent_metadata) (paths : list str) : Prop :=
  NoDup paths ∧ ∀ p, p ∈ paths → ∃ md, tree !! p = Some md ∧ am_agent_id md = None.

Lemma held_app ps qs : held (ps ++ qs) = held ps ++ held qs.
Proof. apply omap_app. Qed.

Lemma held_middle ps p qs : held (ps ++ p :: qs) = held ps ++ option_list (held_path p) ++ held qs.
Proof. rewrite held_app. f_equal. unfold held; simpl. by destruct (held_path p). Qed.

(** Placeholders survive a change of the tree that keeps the entries without id. *)
Lemma placeholders_mono tree tree' ps :
  (∀ p md, p ∈ ps → tree !! p = Some md → am_agent_id md = None →
     ∃ md', tree' !! p = Some md' ∧ am_agent_id md' = None) →
  placeholders tree ps → placeholders tree' ps.
Proof.
  intros Hk [Hn Hp]. split; [done|]. intros p Hin. destruct (Hp p Hin) as (md & ? & ?). by eapply Hk.
Qed.

Lemma placeholders_drop tree l1 l2 x :
  placeholders tree (l1 ++ option_list x ++ l2) →
  placeholders tree (l1 ++ l2) ∧ ∀ p, x = Some p → p ∉ l1 ++ l2 ∧ (∃ md, tree !! p = Some md ∧ am_agent_id md = None).
Proof.
  destruct x as [p|]; simpl; [|done]. intros [Hn Hp].
  assert (l1 ++ p :: l2 ≡ₚ p :: l1 ++ l2) as Hperm by (by rewrite Permutation_middle).
  rewrite Hperm in Hn. apply NoDup_cons in Hn as [Hnin Hn]. split.
  - split; [done|]. intros q Hq. apply Hp. rewrite Hperm. by right.
  - intros ? [= <-]. split; [done|]. apply Hp. rewrite Hperm. by left.
Qed.

Lemma placeholders_add tree l1 l2 p :
  placeholders tree (l1 ++ l2) → tree !! p = None →
  placeholders (<[p := AgentMetadata None (Some p) None None]> tree) (l1 ++ p :: l2).
Proof.
  intros [Hn Hp] Hv. assert (p ∉ l1 ++ l2) as Hnin.
  { intros Hin. destruct (Hp p Hin) as (md & ? & _). congruence. }
  assert (l1 ++ p :: l2 ≡ₚ p :: l1 ++ l2) as Hperm by (by rewrite Permutation_middle). split.
  - rewrite Hperm. by constructor.
  - intros q Hq. rewrite Hperm in Hq. apply elem_of_cons in Hq as [->|Hq].
    + eexists. by rewrite lookup_insert_eq.
    + rewrite lookup_insert_ne; [auto|]. by intros ->.
Qed.

(** An entry is at its agent's path, or at the key of its thread. *)
Definition keyed (tree : gmap str agent_metadata) : Prop :=
  ∀ p md, tree !! p = Some md →
    (am_agent_path md = Some p ∧ head p = Some SLASH) ∨
    (am_agent_path md = None ∧ ∃ t, am_agent_id md = Some t ∧ p = (lit "thread:" ++ fmt_thread_id t)).

Lemma keyed_insert tree p md :
  keyed tree → (am_agent_path md = Some p ∧ head p = Some SLASH) ∨
    (am_agent_path md = None ∧ ∃ t, am_agent_id md = Some t ∧ p = (lit "thread:" ++ fmt_thread_id t)) →
  keyed (<[p := md]> tree).
Proof. intros Hk Hmd q md' [[<- <-]|[_ Hq]]%lookup_insert_Some; [done|by apply Hk]. Qed.
Lemma keyed_delete tree p : keyed tree → keyed (delete p tree).
Proof. intros Hk q md [_ Hq]%lookup_delete_Some. by apply Hk. Qed.

Lemma absolute_path_slash p : validate_absolute_path p = Ok () → head p = Some SLASH.
Proof.
  unfold validate_absolute_path. destruct (str_eqb p MORPHEUS) eqn:E; [by apply str_eqb_eq in E as ->|].
  destruct (strip_prefix [SLASH] p) as [q|] eqn:Es; [|done]. intros _. apply strip_prefix_Some in Es as ->. done.
Qed.

(** The live agents after a commit: the new one, less the one its thread had. *)
Lemma register_spawned_count md t a :
  linked a → am_agent_id md = Some t →
  (∀ md', aa_agent_tree a !! agent_key t md = Some md' → am_agent_id md' = None ∨ am_agent_id md' = Some t) →
  n_live (aa_agent_tree (register_spawned_thread md a)) + b2n (replaced_agent t a) =
    b2n (is_live md) + n_live (aa_agent_tree a).
Proof.
  intros [Hf Hb] Hid Hk. destruct (register_spawned_maps md t a Hid) as [-> _].
  assert (∀ md', aa_agent_tree a !! agent_key t md = Some md' →
    (ra_path <$> aa_thread_paths a !! t) ≠ Some (agent_key t md) → is_live md' = false) as Hdead.
  { intros md' Hmd Hne. unfold is_live. destruct (Hk _ Hmd) as [->|Hid']; [done|]. by specialize (Hb _ _ _ Hmd Hid'). }
  unfold replaced_agent, agent_metadata_for_thread. destruct (aa_thread_paths a !! t) as [ag|] eqn:Ht; simpl.
  2:{ destruct (aa_agent_tree a !! agent_key t md) as [md'|] eqn:E.
      - pose proof (n_live_insert _ _ md _ E) as Hn. rewrite (Hdead md') in Hn by done. simpl in *. lia.
      - rewrite n_live_insert_new by done. simpl. lia. }
  destruct (Hf _ _ Ht) as (old & Hold & Hoid). rewrite Hold.
  assert (negb (is_root_metadata old) = is_live old) as -> by (unfold is_live; by rewrite Hoid).
  destruct (str_eqb (ra_path ag) (agent_key t md)) eqn:Eq.
  { apply str_eqb_eq in Eq. rewrite Eq in Hold. apply (n_live_insert _ _ md _ Hold). }
  apply str_eqb_neq in Eq. rewrite (n_live_delete _ _ _ Hold).
  destruct (aa_agent_tree a !! agent_key t md) as [md'|] eqn:E.
  - assert (delete (ra_path ag) (aa_agent_tree a) !! agent_key t md = Some md') as E' by by rewrite lookup_delete_ne.
    pose proof (n_live_insert _ _ md _ E') as Hn. rewrite (Hdead md') in Hn; [simpl in *; lia|done|simpl; congruence].
  - rewrite n_live_insert_new by (by rewrite lookup_delete_ne). lia.
Qed.

(** The key of a commit is the committer's own placeholder or the key of its
    thread, and so nobody else's placeholder. *)
Lemma commit_key a ps i md t nickname :
  ThreadIdLaws → keyed (aa_agent_tree a) → placeholders (aa_agent_tree a) (held ps) →
  ps !! i = Some (PReserved nickname (am_agent_path md)) →
  agent_key t md ∉ held (delete i ps) ∧
  (∀ md', aa_agent_tree a !! agent_key t md = Some md' → am_agent_id md' = None ∨ am_agent_id md' = Some t) ∧
  (am_agent_id md = Some t →
     (am_agent_path md = Some (agent_key t md) ∧ head (agent_key t md) = Some SLASH) ∨
     (am_agent_path md = None ∧ ∃ u, am_agent_id md = Some u ∧ agent_key t md = (lit "thread:" ++ fmt_thread_id u))).
Proof.
  intros Hinj Hkd Hp E. destruct (list_lookup_split _ _ _ E) as (l1 & l2 & Hps & _ & ->).
  rewrite Hps, held_middle in Hp. rewrite held_app. apply placeholders_drop in Hp as [[_ Hp] Hown]. simpl in Hown.
  unfold agent_key. destruct (am_agent_path md) as [p|] eqn:Epath.
  - destruct (Hown p eq_refl) as (Hnin & mdp & Hmdp & Hnone). split_and!; [done| |].
    + intros md' Hmd'. left. congruence.
    + intros _. left. split; [done|]. destruct (Hkd _ _ Hmdp) as [[_ ?]|(_ & u & ? & _)]; [done|congruence].
  - assert (∀ md', aa_agent_tree a !! (lit "thread:" ++ fmt_thread_id t) = Some md' → am_agent_id md' = Some t) as Hat.
    { intros md' Hmd'. destruct (Hkd _ _ Hmd') as [[_ Hh]|(_ & u & Hu & Heq)]; [done|].
      apply app_inv_head, fmt_thread_id_inj in Heq. by subst. }
    split_and!; [| |].
    + intros Hin. destruct (Hp _ Hin) as (md' & Hmd' & Hno). specialize (Hat _ Hmd'). congruence.
    + intros md' Hmd'. right. auto.
    + intros Hid. right. split; [done|]. by exists t.
Qed.

(** Every access keeps threads and paths linked. *)
Lemma fire_linked max act s s' :
  linked (rg_active (sy_registry s)) → roots_apart act s → fire max act s = Some s' → linked (rg_active (sy_registry s')).
Proof.
  intros Hl Hr. destruct s as [[a total] procs]. simpl in *.
  destruct act as [|i sp|i names pref pick|i path|i md|i|i|t|t|t env|t]; simpl.
  - destruct max; by intros [= <-].
  - destruct max as [m|]; [|done]. destruct (procs !! i) as [[cur|? ?|]|]; [|done..].
    destruct (m <=? cur)%N; [|destruct (_ && _)]; by intros [= <-].
  - destruct (procs !! i) as [[cur|nick path|]|]; [done| |done..].
    destruct (reserve_agent_nickname names pref pick a) as [ch a'] eqn:En.
    destruct (reserve_nickname_maps names pref pick a) as [M1 M2]. rewrite En in M1, M2.
    intros [= <-]. simpl in *. unfold linked. by rewrite M1, M2.
  - destruct (procs !! i) as [[cur|nick hp|]|]; [done| |done..].
    destruct (reserve_agent_path path a) as [a'|] eqn:Ep; intros [= <-]; simpl; [|done]. by eapply reserve_path_spec.
  - destruct (procs !! i) as [[cur|nick path|]|]; [done| |done..]. intros [= <-]. by apply register_spawned_linked.
  - destruct (procs !! i) as [[cur|nick path|]|]; [done| |done..]. intros [= <-]. simpl.
    destruct path as [p|]; [by apply release_reserved_spec|done].
  - destruct (procs !! i) as [[cur|nick path|]|]; [done|done| |done]. by intros [= <-].
  - pose proof (release_thread_spec t a Hl) as Hs. destruct (release_thread t a) as [[] a']; by intros [= <-]; apply Hs.
  - intros [= <-]. by apply register_root_linked.
  - intros [= <-]. by apply with_paths_linked.
  - intros [= <-]. by apply with_paths_linked.
Qed.

(** Every access but a commit moves the count with what is in use, and by one at
    most; a commit leaves the count. *)
Lemma fire_moves max act s s' :
  linked (rg_active (sy_registry s)) → in_use s ≤ N.to_nat (total_of s) → (total_of s < usize_mod)%N →
  (max = None → (total_of s + 1 < usize_mod)%N) → fire max act s = Some s' →
  (total_of s' ≤ total_of s + 1)%N ∧
  match act with
  | Commit i md => total_of s' = total_of s ∧ units (sy_procs s) = 1 + units (sy_procs s') ∧
                   tree_of s' = aa_agent_tree (register_spawned_thread md (rg_active (sy_registry s)))
  | _ => in_use s' + N.to_nat (total_of s) = in_use s + N.to_nat (total_of s')
  end.
Proof.
  intros Hl Hu Ht Hnone. unfold in_use, tree_of, total_of in *. destruct s as [[a total] procs]. simpl in *.
  destruct act as [|i sp|i names pref pick|i path|i md|i|i|t|t|t env|t]; simpl.
  - destruct max; [|specialize (Hnone eq_refl)]; intros [= <-]; simpl; rewrite units_app; unfold units at 2; simpl; rewrite ?N.mod_small by lia; split; lia.
  - destruct max as [m|]; [|done]. destruct (procs !! i) as [[cur|? ?|]|] eqn:E; [|done..].
    destruct (N.leb_spec m cur); [intros [= <-]; simpl; split_proc E; split; lia|].
    destruct (N.eqb_spec total cur) as [->|]; simpl; [destruct sp; simpl|]; intros [= <-]; simpl; split_proc E; split; lia.
  - destruct (procs !! i) as [[cur|nick path|]|] eqn:E; [done| |done..].
    destruct (reserve_agent_nickname names pref pick a) as [ch a'] eqn:En.
    destruct (reserve_nickname_maps names pref pick a) as [M1 M2]. rewrite En in M1, M2.
    intros [= <-]. simpl in *. split_proc E. rewrite M1. split; lia.
  - destruct (procs !! i) as [[cur|nick hp|]|] eqn:E; [done| |done..].
    destruct (reserve_agent_path path a) as [a'|] eqn:Ep; intros [= <-]; simpl; [|split; lia].
    destruct (reserve_path_spec _ _ _ Ep Hl) as (? & Hn & _). split_proc E. split; lia.
  - destruct (procs !! i) as [[cur|nick path|]|] eqn:E; [done| |done..]. intros [= <-]. simpl.
    split_proc E. split_and!; [lia|done|lia|done].
  - destruct (procs !! i) as [[cur|nick path|]|] eqn:E; [done| |done..]. intros [= <-]. simpl.
    destruct path as [p|]; [destruct (release_reserved_spec p a Hl) as (? & Hn & _)|]; split_proc E; split; lia.
  - destruct (procs !! i) as [[cur|nick path|]|] eqn:E; [done|done| |done]. intros [= <-]. simpl.
    split_proc E. rewrite fetch_sub_mod by lia. split; lia.
  - pose proof (release_thread_spec t a Hl) as Hs. destruct (release_thread t a) as [counted a']. destruct Hs as (_ & Hn & _).
    intros [= <-]. destruct counted; simpl in *; rewrite ?units_app; unfold units in *; simpl; split; lia.
  - intros [= <-]. simpl. rewrite register_root_live. split; lia.
  - intros [= <-]. simpl. split; lia.
  - intros [= <-]. simpl. split; lia.
Qed.

(** Under one limit the count stays below it. *)
Lemma fire_limited m act s s' : (total_of s ≤ m)%N → (m < usize_mod)%N → in_use s ≤ N.to_nat (total_of s) →
  fire (Some m) act s = Some s' → (total_of s' ≤ m)%N.
Proof.
  intros Ht Hm Hu. unfold in_use, total_of in *. destruct s as [[a total] procs]. simpl in *.
  destruct act as [|i sp|i names pref pick|i path|i md|i|i|t|t|t env|t]; simpl.
  7:{ destruct (procs !! i) as [[cur|nick path|]|] eqn:E; [done|done| |done]. intros [= <-]. simpl.
      split_proc E. rewrite fetch_sub_mod; lia. }
  all: repeat (case_match; try done); intros [= <-]; simpl; try done.
  match goal with E : _ && _ = true |- _ => apply andb_true_iff in E as [?%N.eqb_eq _] end.
  match goal with E : (m <=? _)%N = false |- _ => apply N.leb_gt in E end. lia.
Qed.

(** Held paths stay placeholders, and entries at their keys. *)
Lemma fire_placeholders max act s s' :
  ThreadIdLaws → linked (rg_active (sy_registry s)) → as_callers act s → keyed (tree_of s) →
  placeholders (tree_of s) (held (sy_procs s)) → fire max act s = Some s' →
  keyed (tree_of s') ∧ placeholders (tree_of s') (held (sy_procs s')).
Proof.
  intros Hinj Hl Hc Hkd Hp. unfold tree_of in *. destruct s as [[a total] procs]. simpl in *.
  destruct act as [|i sp|i names pref pick|i path|i md|i|i|t|t|t env|t]; simpl.
  - destruct max; intros [= <-]; simpl; by rewrite held_app, app_nil_r.
  - destruct max as [m|]; [|done]. destruct (procs !! i) as [[cur|? ?|]|] eqn:E; [|done..].
    destruct (m <=? cur)%N; [|destruct ((total =? cur)%N && negb sp)]; intros [= <-]; simpl; (split; [done|]);
      split_proc E; rewrite held_middle in Hp; by rewrite ?held_middle, ?held_app.
  - destruct (procs !! i) as [[cur|nick path|]|] eqn:E; [done| |done..].
    destruct (reserve_agent_nickname names pref pick a) as [ch a'] eqn:En.
    destruct (reserve_nickname_maps names pref pick a) as [M1 M2]. rewrite En in M1, M2.
    intros [= <-]. simpl in *. split_proc E. rewrite held_middle in *. by rewrite M1.
  - destruct (procs !! i) as [[cur|nick hp|]|] eqn:E; [done| |done..].
    destruct (reserve_agent_path path a) as [a'|] eqn:Ep; intros [= <-]; simpl; [|done].
    destruct (reserve_path_spec _ _ _ Ep Hl) as (_ & _ & Hv & ->). split_proc E.
    rewrite held_middle in *. apply placeholders_drop in Hp as [Hp _]. split; [|by apply placeholders_add].
    apply keyed_insert; [done|]. left. split; [done|]. by apply absolute_path_slash.
  - destruct (procs !! i) as [[cur|nick path|]|] eqn:E; [done| |done..]. intros [= <-]. simpl.
    destruct Hc as [nick' Hpr]. simpl in Hpr. rewrite E in Hpr. injection Hpr as <- ->.
    assert (placeholders (aa_agent_tree a) (held (delete i procs))) as Hp'.
    { split_proc E. rewrite held_middle in Hp. apply placeholders_drop in Hp as [Hp _]. by rewrite held_app. }
    destruct (am_agent_id md) as [t|] eqn:Hid; [|unfold register_spawned_thread; by rewrite Hid].
    destruct (commit_key a procs i md t nick Hinj Hkd Hp E) as (Hnin & _ & Hkey).
    destruct (register_spawned_maps md t a Hid) as [-> _]. split.
    + apply keyed_insert; [|by apply Hkey]. repeat case_match; [done|by apply keyed_delete|done].
    + eapply placeholders_mono; [|exact Hp']. intros p md' Hin Hmd Hno. exists md'.
      rewrite lookup_insert_ne by (by intros <-). split; [|done].
      destruct (aa_thread_paths a !! t) as [ag|] eqn:Ht; [|done]. destruct (str_eqb _ _); [done|].
      rewrite lookup_delete_ne; [done|]. intros <-. destruct Hl as [Hf _]. destruct (Hf _ _ Ht) as (? & ? & ?). congruence.
  - destruct (procs !! i) as [[cur|nick path|]|] eqn:E; [done| |done..]. intros [= <-]. simpl.
    split_proc E. rewrite held_middle in *. apply placeholders_drop in Hp as [Hp Hown].
    destruct path as [p|]; [|by split]. destruct (release_reserved_spec p a Hl) as (_ & _ & Hother).
    destruct (Hown p eq_refl) as [Hnin _].
    split; [unfold release_reserved_agent_path; repeat case_match; try done; by apply keyed_delete|].
    eapply placeholders_mono; [|exact Hp]. intros q md' Hin Hmd Hno. exists md'.
    rewrite Hother; [done|]. by intros ->.
  - destruct (procs !! i) as [[cur|nick path|]|] eqn:E; [done|done| |done]. intros [= <-]. simpl.
    split_proc E. rewrite held_middle in Hp. by rewrite held_app.
  - assert (keyed (aa_agent_tree (release_thread t a).2)) as Hkd'.
    { unfold release_thread. repeat (case_match; simpl); try done; by apply keyed_delete. }
    pose proof (release_thread_spec t a Hl) as Hs.
    destruct (release_thread t a) as [counted a']. destruct Hs as (_ & _ & Hkeep). simpl in Hkd'.
    assert (placeholders (aa_agent_tree a') (held procs)) as Hp'.
    { eapply placeholders_mono; [|exact Hp]. intros p md _ Hmd Hno. exists md. auto. }
    intros [= <-]. destruct counted; simpl; [by rewrite held_app, app_nil_r|done].
  - intros [= <-]. simpl. rewrite register_root_tree.
    destruct (aa_agent_tree a !! ROOT) eqn:Er; [done|]. split; [apply keyed_insert; [done|by left]|].
    eapply placeholders_mono; [|exact Hp]. intros p md _ Hmd Hno. exists md.
    rewrite lookup_insert_ne; [done|]. intros <-. congruence.
  - by intros [= <-].
  - by intros [= <-].
Qed.

(** ** The limit and the slots *)

Lemma fire_in_use m act s s' :
  linked (rg_active (sy_registry s)) → in_use s ≤ N.to_nat (total_of s) → (total_of s ≤ m)%N → (m < usize_mod)%N →
  fire (Some m) act s = Some s' → in_use s' ≤ N.to_nat (total_of s').
Proof.
  intros Hl Hu Ht Hm Hf. destruct (fire_moves (Some m) act s s' Hl Hu ltac:(lia) ltac:(done) Hf) as [_ Hmove].
  destruct act as [| | | |i md| | | | | |]; try lia. destruct Hmove as (Ht' & Hunits & Htree).
  pose proof (register_spawned_live md (rg_active (sy_registry s))). unfold in_use, tree_of in *. rewrite Htree, Ht'. lia.
Qed.

(** C16: when every spawn is limited to [m] agents, then in every interleaving of the atomic accesses
    of the registry the live agents, the reservations that are held and the counts about to be given
    back are together at most [m]. *)
Theorem agent_limit_is_kept m s :
  (m < usize_mod)%N → reachable roots_apart (Some m) s →
  length (live_agents (rg_active (sy_registry s))) + units (sy_procs s) ≤ N.to_nat m.
Proof.
  intros Hm Hr.
  assert (linked (rg_active (sy_registry s)) ∧ in_use s ≤ N.to_nat (total_of s) ∧ (total_of s ≤ m)%N)
    as (_ & Hu & Ht).
  { induction Hr as [|act s s' _ (Hl & Hu & Ht) Hok Hf].
    - unfold in_use, total_of. simpl. split_and!; [apply linked_empty|done|lia].
    - split_and!; [by eapply fire_linked|by eapply fire_in_use|by eapply fire_limited]. }
  unfold in_use, tree_of, n_live in Hu. unfold live_agents. lia.
Qed.

(** [n] accesses that left [lost] slots lost.  Each access is made with a limit of
    its own, or without one. *)
Inductive history : nat → nat → system Env → Prop :=
  | history_start : history 0 0 empty_system
  | history_step max_threads act n lost s s' :
      history n lost s → roots_apart act s → as_callers act s → fire max_threads act s = Some s' →
      history (S n) (lost + slots_lost act s) s'.

Lemma history_invariant n lost s :
  ThreadIdLaws → history n lost s → (N.of_nat n < usize_mod)%N →
  linked (rg_active (sy_registry s)) ∧ (total_of s ≤ N.of_nat n)%N ∧ in_use s + lost = N.to_nat (total_of s) ∧
  keyed (tree_of s) ∧ placeholders (tree_of s) (held (sy_procs s)).
Proof.
  intros Hinj. induction 1 as [|max act n lost s s' _ IH Hok Hc Hf]; intros Hn.
  { split_and!; [apply linked_empty|done|done|done|]. split; [constructor|by intros ? ?%elem_of_nil]. }
  destruct IH as (Hl & Ht & Hu & Hkd & Hp); [lia|].
  destruct (fire_moves max act s s' Hl ltac:(lia) ltac:(lia) ltac:(lia) Hf) as [Hle Hmove].
  split; [by eapply fire_linked|]. split; [lia|]. split; [|by eapply fire_placeholders].
  destruct act as [| | | |i md| | | | | |]; simpl; try lia.
  destruct Hmove as (Ht' & Hunits & Htree). unfold in_use in *. rewrite Htree, Ht'.
  destruct (am_agent_id md) as [t|] eqn:Hid.
  2:{ unfold register_spawned_thread. rewrite Hid. unfold tree_of in Hu. lia. }
  destruct Hc as [nick Hpr]. destruct (commit_key (rg_active (sy_registry s)) _ i md t nick Hinj Hkd Hp Hpr) as (_ & Hk & _).
  pose proof (register_spawned_count md t _ Hl Hid Hk) as Hn'.
  assert (b2n (is_live md) + b2n (is_root_metadata md) = 1) as Hone by (unfold is_live; rewrite Hid; by destruct (is_root_metadata md)).
  unfold tree_of in *. lia.
Qed.

(** C25: the count of the registry is exact in every interleaving of its accesses, whatever limits they
    are made with: it is the live agents, the reservations and the counts about to be given back, and the
    slots lost by commits for threads that were registered already (or that are no counted agents).  Two
    reservations never hold the same path, and a held path names no agent.  So a spawn limited to [m] gets
    a slot while fewer than [m] are in use or lost. *)
Theorem slots_and_paths_are_exact (laws : ThreadIdLaws) n lost s :
  history n lost s → (N.of_nat n < usize_mod)%N →
  let a := rg_active (sy_registry s) in
  N.to_nat (total_of s) = length (live_agents a) + units (sy_procs s) + lost ∧
  NoDup (held (sy_procs s)) ∧
  (∀ p, p ∈ held (sy_procs s) → agent_id_for_path p a = None) ∧
  (∀ m, length (live_agents a) + units (sy_procs s) + lost < N.to_nat m →
     ∃ s', fire_all (Some m) [ReserveSlot; CompareExchange (length (sy_procs s)) false] s = Some s' ∧
       sy_procs s' = sy_procs s ++ [PReserved None None]).
Proof.
  intros Hr Hn. destruct (history_invariant n lost s laws Hr Hn) as (_ & Ht & Hu & _ & Hp).
  unfold in_use, tree_of, n_live in Hu. unfold live_agents. simpl. split_and!; [lia|apply Hp|..].
  - intros p Hin. destruct Hp as [_ Hp]. destruct (Hp p Hin) as (md & Hmd & Hid).
    unfold agent_id_for_path. unfold tree_of in Hmd. by rewrite Hmd.
  - intros m Hlt. unfold total_of in *. rewrite list_lookup_middle by done.
    destruct (N.leb_spec m (rg_total_count (sy_registry s))); [lia|]. rewrite N.eqb_refl. simpl.
    eexists; split; [done|]. simpl. rewrite insert_app_r_alt by lia. by rewrite Nat.sub_diag.
Qed.
End registry.

(** ** Agent paths *)

Definition valid_name (n : str) : Prop := validate_agent_name n = Ok ().
Definition below (path : str) (names : list str) : str :=
  path ++ concat ((λ n, SLASH :: n) <$> names).

(** The names of agents: lower case letters, digits and underscores, and not [root]. *)
Lemma valid_name_iff n :
  valid_name n ↔ n ≠ [] ∧ n ≠ ROOT_SEGMENT ∧ Forall (λ c, is_name_char c = true) n.
Proof.
  unfold valid_name, validate_agent_name. rewrite <-forallb_Forall.
  destruct (str_eqb n []) eqn:E1; [apply str_eqb_eq in E1; naive_solver|].
  destruct (str_eqb n ROOT_SEGMENT) eqn:E2; [apply str_eqb_eq in E2; naive_solver|].
  apply str_eqb_neq in E1, E2.
  destruct (str_eqb n (lit ".") || str_eqb n (lit "..")) eqn:E3.
  { split; [done|]. intros (_ & _ & Hf). apply orb_true_iff in E3.
    rewrite !str_eqb_eq in E3. by destruct E3 as [-> | ->]. }
  destruct (contains_char SLASH n) eqn:E4.
  { split; [done|]. intros (_ & _ & Hf). unfold contains_char in E4.
    apply existsb_true_elem in E4 as (c & Hc & Heq%N.eqb_eq). subst c.
    rewrite forallb_Forall, Forall_forall in Hf. by specialize (Hf _ Hc). }
  destruct (forallb is_name_char n); simpl; naive_solver.
Qed.

Lemma valid_name_no_slash n : valid_name n → SLASH ∉ n.
Proof. intros (_ & _ & Hf)%valid_name_iff. rewrite Forall_forall in Hf. by intros Hc%Hf. Qed.

Lemma validate_names_ok ns : validate_names ns = Ok () ↔ Forall valid_name ns.
Proof.
  induction ns as [|n ns IH]; simpl; [by split; [constructor|]|].
  rewrite Forall_cons, <-IH. unfold valid_name.
  destruct (validate_agent_name n) as [[]|]; naive_solver.
Qed.

Lemma join_slash root ns : join [SLASH] (root :: ns) = below root ns.
Proof.
  revert root. induction ns as [|n ns IH]; intros root; [by unfold below; simpl; rewrite app_nil_r|].
  rewrite join_cons by done. by rewrite IH.
Qed.

Lemma split_below root ns :
  SLASH ∉ root → Forall valid_name ns → split SLASH (below root ns) = root :: ns.
Proof.
  intros Hr Hn. rewrite <-join_slash. apply split_join; [done|]. constructor; [done|].
  eapply Forall_impl; [exact Hn|]. apply valid_name_no_slash.
Qed.

Lemma below_no_trailing root ns :
  SLASH ∉ root → root ≠ [] → Forall valid_name ns → ends_with [SLASH] (below root ns) = false.
Proof.
  intros Hr Hne Hn. apply not_true_iff_false. rewrite ends_with_spec. intros (r & E).
  destruct (list_snoc_cases ns) as [->|(ns' & n & ->)].
  - unfold below in E. simpl in E. rewrite app_nil_r in E. apply Hr. rewrite E. apply elem_of_app. right. by left.
  - apply Forall_snoc_iff in Hn as [_ Hn]. pose proof (valid_name_no_slash _ Hn) as Hs.
    apply valid_name_iff in Hn as (Hnn & _). destruct (list_snoc_cases n) as [->|(n' & c & ->)]; [done|].
    unfold below in E. rewrite fmap_app, concat_app in E. simpl in E. rewrite app_nil_r in E.
    rewrite app_comm_cons, !app_assoc in E. apply app_inj_tail in E as [_ ->].
    apply Hs, elem_of_app. right. by left.
Qed.

Lemma root_no_slash : SLASH ∉ ROOT_SEGMENT.
Proof. apply (bool_decide_unpack _). by vm_compute. Qed.

(** The agent paths are [/morpheus] and the slash separated valid names below [/root], each in one
    way; a child of such a path ends with its name, and a relative reference resolves to the path
    its names lead to one by one. *)
Theorem agent_paths_are_rooted_names path :
  (from_string path = Ok path ↔
     path = MORPHEUS ∨ ∃ names, Forall valid_name names ∧ path = below ROOT names) ∧
  (∀ names name, Forall valid_name names → valid_name name →
     agent_path_join (below ROOT names) name = Ok (below ROOT (names ++ [name])) ∧
     agent_name (below ROOT (names ++ [name])) = name) ∧
  (∀ names more, Forall valid_name names → Forall valid_name more → more ≠ [] →
     agent_path_resolve (below ROOT names) (join [SLASH] more) = Ok (below ROOT (names ++ more))).
Proof.
  assert (∀ ns, Forall valid_name ns → validate_absolute_path (below ROOT ns) = Ok ()) as Hok.
  { intros ns Hns. unfold validate_absolute_path. destruct (str_eqb _ MORPHEUS); [done|].
    change (below ROOT ns) with ([SLASH] ++ below ROOT_SEGMENT ns).
    rewrite strip_prefix_app, split_below by (done || apply root_no_slash). rewrite str_eqb_refl. cbn [negb].
    rewrite below_no_trailing by (done || apply root_no_slash). by apply validate_names_ok. }
  assert (∀ ns more, below (below ROOT ns) more = below ROOT (ns ++ more)) as Happ.
  { intros ns more. unfold below. by rewrite fmap_app, concat_app, app_assoc. }
  split_and!.
  - unfold from_string. split.
    + intros H. apply let_Ok in H as ([] & H & _). unfold validate_absolute_path in H.
      destruct (str_eqb path MORPHEUS) eqn:Em; [left; by apply str_eqb_eq|right].
      destruct (strip_prefix [SLASH] path) as [stripped|] eqn:Ep; [|done].
      apply strip_prefix_Some in Ep as ->.
      destruct (split SLASH stripped) as [|root segments] eqn:Es; [done|].
      destruct (str_eqb root ROOT_SEGMENT) eqn:Er; [|done]. apply str_eqb_eq in Er as ->. simpl in H.
      destruct (ends_with _ _); [done|]. apply validate_names_ok in H. exists segments. split; [done|].
      rewrite <-(join_split SLASH stripped), Es, join_slash. done.
    + intros [->|(ns & Hns & ->)]; [done|]. by rewrite Hok.
  - intros ns n Hns Hn. unfold agent_path_join. unfold valid_name in Hn. rewrite Hn. cbv beta iota.
    assert (below ROOT ns ++ [SLASH] ++ n = below ROOT (ns ++ [n])) as E.
    { unfold below. rewrite fmap_app, concat_app. cbn. by rewrite app_nil_r, <-app_assoc. }
    assert (Forall valid_name (ns ++ [n])) as Hall by (apply Forall_snoc_iff; done). split.
    + rewrite E. unfold from_string. by rewrite Hok.
    + unfold agent_name. destruct (is_root _) eqn:Eroot.
      { exfalso. apply str_eqb_eq in Eroot. rewrite <-E in Eroot. apply (f_equal length) in Eroot.
        unfold below in Eroot. rewrite !length_app in Eroot. simpl in Eroot. lia. }
      change (below ROOT (ns ++ [n])) with ([] ++ SLASH :: below ROOT_SEGMENT (ns ++ [n])).
      rewrite split_app, split_below by (done || apply root_no_slash || apply not_elem_of_nil).
      rewrite !last_cons, last_snoc.
      apply valid_name_iff in Hn as [? _]. by destruct n.
  - intros ns more Hns Hmore Hne. destruct more as [|m ms]; [done|].
    pose proof Hmore as [Hm Hms]%Forall_cons. rewrite join_slash.
    pose proof (valid_name_no_slash _ Hm) as Hslash. pose proof Hm as (Hmne & _)%valid_name_iff.
    unfold agent_path_resolve. destruct m as [|c m]; [done|].
    assert (c ≠ SLASH) as Hc by (intros ->; apply Hslash; by left).
    assert (str_eqb (below (c :: m) ms) [] = false) as -> by (by apply str_eqb_neq).
    assert (str_eqb (below (c :: m) ms) ROOT = false) as ->.
    { apply str_eqb_neq. intros E. injection E as E _. done. }
    assert (starts_with [SLASH] (below (c :: m) ms) = false) as ->.
    { apply not_true_iff_false. rewrite starts_with_spec. intros (r & E). injection E as E _. done. }
    unfold validate_relative_reference. rewrite below_no_trailing, split_below by done.
    rewrite (proj2 (validate_names_ok _)) by done. cbv beta iota.
    assert (below ROOT ns ++ [SLASH] ++ below (c :: m) ms = below ROOT (ns ++ (c :: m) :: ms)) as ->.
    { unfold below. by rewrite fmap_app, concat_app, <-app_assoc. }
    unfold from_string. rewrite Hok; [done|]. apply Forall_app. done.
Qed.

(** ** Nicknames *)

Lemma lit_inj s t : lit s = lit t → s = t.
Proof.
  unfold lit. intros E. apply (list_fmap_eq_inj N_of_ascii) in E.
  - rewrite <-(String.string_of_list_ascii_of_string s), <-(String.string_of_list_ascii_of_string t).
    by rewrite E.
  - intros x y Exy. by rewrite <-(ascii_N_embedding x), <-(ascii_N_embedding y), Exy.
Qed.

Definition digits (s : str) : Prop := Forall (λ c, is_ascii_digit c = true) s.

Lemma digits_pretty x t : digits (lit t) → digits (lit (pretty_N_go x t)).
Proof.
  revert t. induction (N.lt_wf_0 x) as [x _ IH]. intros t Ht. destruct (decide (0 < x)%N) as [Hx|Hx].
  - rewrite pretty_N_go_step by done. apply IH; [apply N.div_lt; lia|]. constructor; [|done].
    unfold pretty_N_char. by repeat case_match.
  - assert (x = 0%N) as -> by lia. by rewrite pretty_N_go_0.
Qed.

Lemma digits_fmt_N n : digits (fmt_N n).
Proof.
  unfold fmt_N, pretty, pretty_N. case_decide; [by repeat constructor|].
  apply digits_pretty. constructor.
Qed.

(** Digits followed by a letter split in one way. *)
Lemma digits_app_inj a b c d x y :
  digits a → digits b → is_ascii_digit x = false → is_ascii_digit y = false →
  a ++ x :: c = b ++ y :: d → a = b.
Proof.
  intros Ha. revert b. induction Ha as [|u a Hu Ha IH]; intros b Hb Hx Hy E;
    destruct Hb as [|v b Hv Hb]; simpl in E; simplify_eq; try congruence.
  f_equal. by apply IH.
Qed.

Lemma ordinal_suffix_letter v : ∃ x c, ordinal_suffix v = x :: c ∧ is_ascii_digit x = false.
Proof.
  unfold ordinal_suffix.
  destruct (_ && _); [|destruct (_ =? 1)%N; [|destruct (_ =? 2)%N; [|destruct (_ =? 3)%N]]];
    (do 2 eexists; split; [reflexivity|reflexivity]).
Qed.

Lemma format_nickname_inj n1 n2 c1 c2 :
  SPACE ∉ n1 → SPACE ∉ n2 →
  format_agent_nickname n1 c1 = format_agent_nickname n2 c2 → n1 = n2 ∧ c1 = c2.
Proof.
  intros H1 H2. unfold format_agent_nickname.
  change (lit " the ") with (SPACE :: lit "the ").
  destruct (N.eqb_spec c1 0), (N.eqb_spec c2 0); intros E.
  - by subst.
  - exfalso. apply H1. rewrite E. apply elem_of_app. right. by left.
  - exfalso. apply H2. rewrite <-E. apply elem_of_app. right. by left.
  - rewrite <-!app_comm_cons in E. pose proof (f_equal (split SPACE) E) as Es.
    rewrite !split_app in Es by done. injection Es as -> _. split; [done|].
    apply app_inv_head in E. injection E as E.
    destruct (ordinal_suffix_letter (c1 + 1)) as (x & s1 & Ex & Hx),
      (ordinal_suffix_letter (c2 + 1)) as (y & s2 & Ey & Hy). rewrite Ex, Ey in E.
    apply digits_app_inj in E; [|apply digits_fmt_N..|done|done].
    apply lit_inj in E. apply pretty_N_inj in E. lia.
Qed.

Section nicknames.
Context {Env : Type} `{ThreadIds}.
Implicit Types (a : active_agents Env) (s : system Env).

(** The nickname an action takes from the pool. *)
Definition drawn (act : action Env) s : option str :=
  match act with
  | ReserveNickname i names None pick =>
      match sy_procs s !! i with
      | Some (PReserved _ _) =>
          (reserve_agent_nickname names None pick (rg_active (sy_registry s))).1
      | _ => None
      end
  | _ => None
  end.

(** The names of the pool have no spaces, like those the program ships. *)
Definition plain_pool (act : action Env) : Prop :=
  match act with
  | ReserveNickname _ names None _ => Forall (λ n, SPACE ∉ n) names
  | _ => True
  end.

(** The states with the nicknames drawn on the way, latest first. *)
Inductive drawing (max_threads : option N) : list str → system Env → Prop :=
  | draw_empty : drawing max_threads [] empty_system
  | draw_fire act nicks s s' :
      drawing max_threads nicks s → plain_pool act → fire max_threads act s = Some s' →
      drawing max_threads (option_list (drawn act s) ++ nicks) s'.

Definition remembered a (nick : str) : Prop :=
  ∃ name count, SPACE ∉ name ∧ nick = format_agent_nickname name count ∧
    (count ≤ aa_nickname_reset_count a)%N ∧
    (count = aa_nickname_reset_count a → nick ∈ aa_used_agent_nicknames a).

Lemma remembered_mono a a' nick :
  aa_nickname_reset_count a' = aa_nickname_reset_count a →
  aa_used_agent_nicknames a ⊆ aa_used_agent_nicknames a' → remembered a nick → remembered a' nick.
Proof. intros E Hs (n & c & ? & ? & ? & ?). exists n, c. rewrite E. set_solver. Qed.

Lemma choose_elem pick (l : list str) x : choose pick l = Some x → x ∈ l.
Proof. apply list_elem_of_lookup_2. Qed.

Lemma register_spawned_used md a :
  aa_nickname_reset_count (register_spawned_thread md a) = aa_nickname_reset_count a ∧
  aa_used_agent_nicknames a ⊆ aa_used_agent_nicknames (register_spawned_thread md a).
Proof.
  unfold register_spawned_thread. destruct (am_agent_id md) as [t|]; [|done].
  destruct (am_agent_nickname md); simpl; destruct (aa_thread_paths a !! t) as [ag|]; simpl;
    try destruct (str_eqb (ra_path ag) _); simpl;
    destruct (_ !! agent_key t md) as [[[t'|] ? ? ?]|]; simpl; try destruct (t' =? t)%N;
    (split; [done|set_solver]).
Qed.

(** A draw from the pool is new, and is remembered with the earlier ones. *)
Lemma draw_spec names pick a nick a' :
  Forall (λ n, SPACE ∉ n) names → reserve_agent_nickname names None pick a = (Some nick, a') →
  remembered a' nick ∧ (∀ old, remembered a old → remembered a' old ∧ old ≠ nick).
Proof.
  intros Hpool. rewrite Forall_forall in Hpool. unfold reserve_agent_nickname.
  destruct names as [|n0 names]; [done|]. remember (n0 :: names) as ns eqn:Ens. clear Ens.
  destruct (choose pick _) as [x|] eqn:E.
  - intros [= <- <-]. apply choose_elem in E.
    apply list_elem_of_In, List.filter_In in E as [E Hu]. apply list_elem_of_In in E.
    apply list_elem_of_fmap in E as (name & -> & Hname). apply bool_decide_eq_true in Hu. split.
    + exists name, (aa_nickname_reset_count a). simpl. split_and!; [auto|done|lia|set_solver].
    + intros old Hold. split; [eapply remembered_mono; [..|exact Hold]; [done|set_solver]|].
      intros ->. destruct Hold as (n & c & Hn & Heq & Hle & Hin).
      apply format_nickname_inj in Heq as [_ <-]; auto.
  - destruct (choose pick ns) as [name|] eqn:E2; [|done]. intros [= <- <-]. apply choose_elem in E2.
    split.
    + exists name, (aa_nickname_reset_count a + 1)%N. simpl. split_and!; [auto|done|lia|set_solver].
    + intros old (n & c & Hn & -> & Hle & Hin). split.
      * exists n, c. simpl. split_and!; [done|done|lia|lia].
      * intros Heq. apply format_nickname_inj in Heq as [_ ->]; [lia|done|auto].
Qed.

Lemma reserve_other_mono names pref pick a old :
  (∀ nick, (reserve_agent_nickname names pref pick a).1 = Some nick → pref ≠ None) →
  remembered a old → remembered (reserve_agent_nickname names pref pick a).2 old.
Proof.
  unfold reserve_agent_nickname. destruct pref as [p|].
  - intros _. apply remembered_mono; [done|set_solver].
  - destruct names as [|n0 names]; [done|]. intros Hn. destruct (choose pick _) as [x|] eqn:E.
    + by destruct (Hn x).
    + destruct (choose pick (n0 :: names)) as [y|] eqn:E2; [by edestruct Hn|].
      unfold choose in E2. apply lookup_ge_None in E2.
      pose proof (Nat.mod_upper_bound pick (length (n0 :: names))). simpl in *. lia.
Qed.

Lemma fire_remembers max act s s' old :
  drawn act s = None → fire max act s = Some s' →
  remembered (rg_active (sy_registry s)) old → remembered (rg_active (sy_registry s')) old.
Proof.
  intros Hd Hf Hold. destruct s as [[a total] procs].
  destruct act as [|i sp|i names pref pick|i path|i md|i|i|t|t|t env|t]; simpl in *.
  - destruct max; by simplify_eq/=.
  - destruct max as [m|]; [|done]. destruct (procs !! i) as [[cur|? ?|]|]; [|done..].
    destruct (m <=? cur)%N; [|destruct (_ && _)]; by simplify_eq/=.
  - destruct (procs !! i) as [[cur|nick path|]|]; [done| |done..].
    destruct (reserve_agent_nickname names pref pick a) as [ch a'] eqn:En. simplify_eq/=.
    pose proof (reserve_other_mono names pref pick a old) as Hm. rewrite En in Hm. simpl in Hm.
    apply Hm; [|done]. intros nick' -> ->.
    by rewrite En in Hd.
  - destruct (procs !! i) as [[cur|nick hp|]|]; [done| |done..]. unfold reserve_agent_path in Hf.
    destruct (aa_agent_tree a !! path); by simplify_eq/=.
  - destruct (procs !! i) as [[cur|nick path|]|]; [done| |done..]. simplify_eq/=.
    destruct (register_spawned_used md a) as [E Hs]. by eapply remembered_mono.
  - destruct (procs !! i) as [[cur|nick path|]|]; [done| |done..]. simplify_eq/=.
    destruct path as [p|]; [|done]. unfold release_reserved_agent_path.
    destruct (aa_agent_tree a !! p) as [md|]; [|done]. by destruct (am_agent_id md).
  - destruct (procs !! i) as [[cur|nick path|]|]; [done|done| |done]. by simplify_eq/=.
  - unfold release_thread in Hf. destruct (aa_thread_paths a !! t) as [ag|]; [|by simplify_eq/=].
    simpl in Hf. destruct (aa_agent_tree a !! ra_path ag) as [md|]; [|by simplify_eq/=].
    destruct (negb _); by simplify_eq/=.
  - simplify_eq/=. unfold register_root_thread.
    destruct (aa_agent_tree a !! ROOT) as [md|] eqn:E; simpl.
    + rewrite E. simpl. by destruct (am_agent_id md).
    + by rewrite lookup_insert_eq.
  - by simplify_eq/=.
  - by simplify_eq/=.
Qed.

(** Nicknames drawn from a pool of names without spaces are all different, however many times
    the pool is used up and started again and whatever happens to the agents in between. *)
Theorem nicknames_are_distinct max_threads nicks s :
  drawing max_threads nicks s → NoDup nicks.
Proof.
  intros Hd. assert (NoDup nicks ∧ ∀ n, n ∈ nicks → remembered (rg_active (sy_registry s)) n) as [? _]; [|done].
  induction Hd as [|act nicks s s' _ [Hn Hr] Hp Hf]; [split; [constructor|by intros ? ?%elem_of_nil]|].
  destruct (drawn act s) as [nick|] eqn:E; simpl.
  2:{ split; [done|]. intros n Hin. eapply fire_remembers; eauto. }
  destruct act as [| |i names [p|] pick| | | | | | | |]; try done. simpl in *.
  destruct (sy_procs s !! i) as [[|nick0 path|]|]; try done.
  destruct (reserve_agent_nickname names None pick _) as [ch a'] eqn:En. simpl in E. subst ch.
  destruct (draw_spec _ _ _ _ _ Hp En) as [Hnew Hold]. simplify_eq/=. split.
  - constructor; [|done]. intros Hin. destruct (Hold _ (Hr _ Hin)). done.
  - intros n [->|Hin]%elem_of_cons; [done|]. by apply Hold, Hr.
Qed.
End nicknames.

(** ** Concrete runs *)

Module MiniAgents.
#[local] Instance decimal_ids : ThreadIds := { fmt_thread_id := fmt_N }.

Definition worker : agent_metadata :=
  AgentMetadata (Some 7%N) (Some (lit "/root/worker")) (Some (lit "Euclid")) None.

(** A spawn: slot, path, nickname and commit. *)
Definition spawn_worker : list (action unit) :=
  [RegisterRoot 1%N; ReserveSlot; CompareExchange 0 false; ReservePath 0 (lit "/root/worker");
   ReserveNickname 0 [lit "Euclid"] None 0; Commit 0 worker].

(** Runs whose conditions are computed, with the slots they lose. *)
Definition step_ok (act : action unit) (s : system unit) : bool :=
  match act with
  | RegisterRoot t => bool_decide (is_Some (aa_agent_tree (rg_active (sy_registry s)) !! ROOT) ∨
                                   aa_thread_paths (rg_active (sy_registry s)) !! t = None)
  | ReservePath _ path => is_ok (validate_absolute_path path)
  | Commit i md => match sy_procs s !! i with Some (PReserved _ path) => bool_decide (path = am_agent_path md) | _ => false end
  | _ => true
  end.
Lemma step_ok_sound act s : step_ok act s = true → roots_apart act s ∧ as_callers act s.
Proof.
  destruct act as [| | |i path|i md| | | |t| |]; simpl; try done.
  - by destruct (validate_absolute_path path) as [[]|].
  - destruct (sy_procs s !! i) as [[|nick path|]|]; try done. intros ->%bool_decide_eq_true. split; [done|]. by exists nick.
  - intros Hok%bool_decide_eq_true. split; [|done]. intros Hn. destruct Hok as [[md Hmd]|]; [congruence|done].
Qed.

Fixpoint run_steps (steps : list (option N * action unit)) (s : system unit) : option (nat * system unit) :=
  match steps with
  | [] => Some (0, s)
  | (max, act) :: steps =>
      if step_ok act s
      then s' ← fire max act s; r ← run_steps steps s'; Some (slots_lost act s + r.1, r.2)
      else None
  end.
Lemma run_history steps n lost s k s' :
  history n lost s → run_steps steps s = Some (k, s') → history (length steps + n) (lost + k) s'.
Proof.
  revert n lost s k. induction steps as [|[max act] steps IH]; intros n lost s k Hh; simpl.
  { intros [= <- <-]. by rewrite Nat.add_0_r. }
  destruct (step_ok act s) eqn:Hok; [|done]. intros (s1 & Hf & ([k' s''] & Hrun & [= <- ->])%bind_Some)%bind_Some.
  apply step_ok_sound in Hok as [? ?]. rewrite Nat.add_assoc, plus_n_Sm. eapply IH; [|exact Hrun]. by eapply history_step.
Qed.
Lemma limited_run_reachable m acts s k s' :
  reachable roots_apart (Some m) s → run_steps (pair (Some m) <$> acts) s = Some (k, s') → reachable roots_apart (Some m) s'.
Proof.
  revert s k. induction acts as [|act acts IH]; intros s k Hr; simpl; [by intros [= _ <-]|].
  destruct (step_ok act s) eqn:Hok; [|done]. intros (s1 & Hf & ([k' s''] & Hrun & [= _ ->])%bind_Some)%bind_Some.
  apply step_ok_sound in Hok as [? _]. eapply IH; [|exact Hrun]. by eapply reach_fire.
Qed.

Definition spawned : system unit := default empty_system (snd <$> run_steps (pair (Some 1%N) <$> spawn_worker) empty_system).
Lemma spawned_reachable : reachable roots_apart (Some 1%N) spawned.
Proof. apply (limited_run_reachable 1 spawn_worker empty_system 0); [constructor|vm_compute; reflexivity]. Qed.

(** With room for one agent the next reservation is refused. *)
Lemma agent_limit_is_kept_witness :
  reachable roots_apart (Some 1%N) spawned ∧
  length (live_agents (rg_active (sy_registry spawned))) + units (sy_procs spawned) ≤ 1 ∧
  length (live_agents (rg_active (sy_registry spawned))) = 1 ∧
  sy_procs <$> fire_all (Some 1%N) [ReserveSlot; CompareExchange 0 false] spawned = Some [].
Proof.
  pose proof spawned_reachable as Hr.
  split_and!; [exact Hr|apply (agent_limit_is_kept 1 spawned); [vm_compute; reflexivity|exact Hr]
              |vm_compute; reflexivity..].
Defined.

(** An agent stored without a path is resumed under a limit while the restore of
    the session registers it without one: the second commit loses a slot. *)
Definition stored_agent : agent_metadata := AgentMetadata (Some 7%N) None (Some (lit "Euclid")) None.
Definition restore_race : list (option N * action unit) :=
  [(Some 2%N, ReserveSlot); (Some 2%N, CompareExchange 0 false); (None, ReserveSlot);
   (Some 2%N, Commit 0 stored_agent); (None, Commit 0 stored_agent)].
Definition raced : system unit := default empty_system (snd <$> run_steps restore_race empty_system).

#[local] Instance decimal_id_laws : ThreadIdLaws.
Proof. constructor. intros x y Hxy. unfold fmt_thread_id in Hxy; simpl in Hxy. apply lit_inj in Hxy. by apply pretty_N_inj in Hxy. Qed.

Lemma slots_and_paths_are_exact_witness :
  history 5 1 raced ∧
  N.to_nat (total_of raced) = length (live_agents (rg_active (sy_registry raced))) + units (sy_procs raced) + 1.
Proof.
  assert (history 5 1 raced) as Hh by (apply (run_history restore_race 0 0 empty_system 1); [constructor|vm_compute; reflexivity]).
  split; [exact Hh|]. apply (slots_and_paths_are_exact _ 5 1 raced); [exact Hh|vm_compute; reflexivity].
Defined.

(** Two draws from a pool of one name. *)
Definition draws : list (action unit) :=
  [ReserveSlot; ReserveNickname 0 [lit "Euclid"] None 0; ReserveNickname 0 [lit "Euclid"] None 0].

Lemma nicknames_are_distinct_witness :
  ∃ s, drawing (Env := unit) None [lit "Euclid the 2nd"; lit "Euclid"] s ∧
    NoDup [lit "Euclid the 2nd"; lit "Euclid"].
Proof.
  assert (Forall (λ n, SPACE ∉ n) [lit "Euclid"]) as Hpool.
  { repeat constructor. apply (bool_decide_unpack _). vm_compute. exact I. }
  assert (∃ s, drawing (Env := unit) None [lit "Euclid the 2nd"; lit "Euclid"] s) as [s Hs].
  { pose proof (draw_empty (Env := unit) None) as H0.
    eassert (drawing None _ _) as H1.
    { eapply (draw_fire None ReserveSlot); [exact H0|exact I|vm_compute; reflexivity]. }
    eassert (drawing None _ _) as H2.
    { eapply (draw_fire None (ReserveNickname 0 [lit "Euclid"] None 0));
        [exact H1|exact Hpool|vm_compute; reflexivity]. }
    eassert (drawing None _ _) as H3.
    { eapply (draw_fire None (ReserveNickname 0 [lit "Euclid"] None 0));
        [exact H2|exact Hpool|vm_compute; reflexivity]. }
    eexists. vm_compute in H3. exact H3. }
  exists s. split; [exact Hs|]. exact (nicknames_are_distinct None _ s Hs).
Defined.

(** The lost slot is lost for good: after the thread is released no agent is left
    and nobody holds a slot, yet a limit of one refuses the next spawn. *)
Lemma registering_again_leaks_a_slot :
  ∃ s, run_steps (restore_race ++ [(None, ReleaseThread 7%N); (None, FetchSub 0)]) empty_system = Some (1, s) ∧
    live_agents (rg_active (sy_registry s)) = [] ∧ sy_procs s = [] ∧ total_of s = 1%N ∧
    sy_procs <$> fire_all (Some 1%N) [ReserveSlot; CompareExchange 0 false] s = Some [].
Proof. eexists. split; [vm_compute; reflexivity|]. vm_compute. done. Qed.
End MiniAgents.
