(* ===== verification/AgentResidency.v ===== *)
(** * Residency and execution of agents

    Agents of the second version stay loaded up to a capacity; to load one more
    the least recently used agent that is idle is unloaded
    ([core/src/agent/control/residency.rs]).  Each lock section is one step, and
    the steps of concurrent reservations interleave; whether a candidate is
    loaded, idle and shuts down is decided by the environment.  The execution
    limit ([core/src/agent/control/execution.rs]) counts running turns. *)
From stdpp Require Import numbers strings list.
From S2P Require Import Prelude RustStr Agents.

(** ** Residency *)

(** [V2ResidencyState]. *)
Record residency_state := ResidencyState {
  rs_residents : list thread_id;
  rs_pending_slots : N;
}.
Definition no_residents : residency_state := ResidencyState [] 0.

Definition usize_max : N := (2 ^ 64 - 1)%N.

Definition touch_resident (residents : list thread_id) (tid : thread_id) : list thread_id :=
  List.filter (λ r, negb (r =? tid)%N) residents ++ [tid].

Definition try_reserve_pending_slot (capacity : N) (st : residency_state)
  : bool * residency_state :=
  let used := N.min usize_max (N.of_nat (length (rs_residents st)) + rs_pending_slots st) in
  if (capacity <=? used)%N then (false, st)
  else (true, ResidencyState (rs_residents st) (rs_pending_slots st + 1)).

Definition resident_count (st : residency_state) : nat := length (rs_residents st).

(** The loop of [pop_lru_candidate]. *)
Fixpoint pop_loop (n : nat) (protected : option thread_id) (residents : list thread_id)
  : option thread_id * list thread_id :=
  match n with
  | O => (None, residents)
  | S n' =>
      match residents with
      | [] => (None, [])
      | candidate :: rest =>
          if bool_decide (Some candidate = protected)
          then pop_loop n' protected (rest ++ [candidate])
          else (Some candidate, rest)
      end
  end.
Definition pop_lru_candidate (protected : option thread_id) (st : residency_state)
  : option thread_id * residency_state :=
  let '(candidate, residents) :=
    pop_loop (length (rs_residents st)) protected (rs_residents st) in
  (candidate, ResidencyState residents (rs_pending_slots st)).

Definition touch (tid : thread_id) (st : residency_state) : residency_state :=
  ResidencyState (touch_resident (rs_residents st) tid) (rs_pending_slots st).
Definition remove (tid : thread_id) (st : residency_state) : residency_state :=
  ResidencyState (List.filter (λ r, negb (r =? tid)%N) (rs_residents st)) (rs_pending_slots st).
Definition commit_slot (tid : thread_id) (st : residency_state) : residency_state :=
  ResidencyState (touch_resident (rs_residents st) tid) (rs_pending_slots st - 1).
Definition release_pending_slot (st : residency_state) : residency_state :=
  ResidencyState (rs_residents st) (rs_pending_slots st - 1).

(** What [try_unload_one_resident] finds about the candidate it popped. *)
Inductive unload_outcome :=
  | NotLoaded          (* no such thread, or not a resident candidate *)
  | StaysLoaded        (* not idle, or the shutdown failed *)
  | Unloaded.

(** A task inside [reserve_slot], or holding the slot it returned. *)
Inductive reserver :=
  | RTry (capacity : N) (protected : option thread_id)
  | RCount (capacity : N) (protected : option thread_id)
  | RScan (remaining : nat) (capacity : N) (protected : option thread_id)
  | RPopped (tid : thread_id) (remaining : nat) (capacity : N) (protected : option thread_id)
  | RSlot.

Record residency_system := ResidencySystem {
  ry_state : residency_state;
  ry_tasks : list reserver;
}.
Definition empty_residency : residency_system := ResidencySystem no_residents [].

Inductive residency_action :=
  | Reserve (capacity : N) (protected : option thread_id)
  | Advance (i : nat) (outcome : unload_outcome)
  | CommitSlot (i : nat) (tid : thread_id)
  | DropSlot (i : nat)
  | TouchLoaded (tid : thread_id)
  | Forget (tid : thread_id).

(** The next lock section of a task in [reserve_slot]; [None] in place of the
    task when it returns with [AgentLimitReached]. *)
Definition advance (task : reserver) (outcome : unload_outcome) (st : residency_state)
  : option reserver * residency_state :=
  match task with
  | RTry capacity protected =>
      let '(reserved, st) := try_reserve_pending_slot capacity st in
      (Some (if reserved then RSlot else RCount capacity protected), st)
  | RCount capacity protected => (Some (RScan (resident_count st) capacity protected), st)
  | RScan O capacity protected => (None, st)
  | RScan (S remaining) capacity protected =>
      let '(candidate, st) := pop_lru_candidate protected st in
      (match candidate with
       | Some tid => Some (RPopped tid remaining capacity protected)
       | None => None
       end, st)
  | RPopped tid remaining capacity protected =>
      match outcome with
      | NotLoaded => (Some (RScan remaining capacity protected), st)
      | StaysLoaded => (Some (RScan remaining capacity protected), touch tid st)
      | Unloaded => (Some (RTry capacity protected), st)
      end
  | RSlot => (Some RSlot, st)
  end.

Definition residency_fire (act : residency_action) (s : residency_system)
  : option residency_system :=
  let st := ry_state s in
  let tasks := ry_tasks s in
  match act with
  | Reserve capacity protected =>
      Some (ResidencySystem st (tasks ++ [RTry capacity protected]))
  | Advance i outcome =>
      task ← tasks !! i;
      let '(next, st) := advance task outcome st in
      Some (ResidencySystem st (match next with
                                | Some task => <[i := task]> tasks
                                | None => delete i tasks
                                end))
  | CommitSlot i tid =>
      match tasks !! i with
      | Some RSlot => Some (ResidencySystem (commit_slot tid st) (delete i tasks))
      | _ => None
      end
  | DropSlot i =>
      match tasks !! i with
      | Some RSlot => Some (ResidencySystem (release_pending_slot st) (delete i tasks))
      | _ => None
      end
  | TouchLoaded tid => Some (ResidencySystem (touch tid st) tasks)
  | Forget tid => Some (ResidencySystem (remove tid st) tasks)
  end.

Fixpoint residency_run (acts : list residency_action) (s : residency_system)
  : option residency_system :=
  match acts with
  | [] => Some s
  | act :: rest => s ← residency_fire act s; residency_run rest s
  end.

(** ** Execution limit *)

Inductive multi_agent_version := MultiAgentDisabled | V1 | V2.

(** [AgentExecutionLimiter]: [max_threads] is set once. *)
Record execution_limiter := ExecutionLimiter {
  el_active : N;
  el_max_threads : option N;
}.
Definition is_execution_limited (version : multi_agent_version) (source : session_source) : bool :=
  match version, source with
  | V2, (ThreadSpawn _ | OtherSubAgent) => true
  | _, _ => false
  end.
Definition initialize (max_threads : N) (l : execution_limiter) : execution_limiter :=
  match el_max_threads l with
  | Some _ => l
  | None => ExecutionLimiter (el_active l) (Some max_threads)
  end.
Definition limiter_max (l : execution_limiter) : N := default usize_max (el_max_threads l).
Definition has_capacity (l : execution_limiter) : bool := (el_active l <? limiter_max l)%N.
Definition ensure_execution_capacity (version : multi_agent_version) (source : session_source)
    (l : execution_limiter) : result N unit :=
  if negb (is_execution_limited version source) then Ok ()
  else if has_capacity l then Ok () else Err (limiter_max l).
Definition execution_guard (version : multi_agent_version) (source : session_source)
    (l : execution_limiter) : bool * execution_limiter :=
  if is_execution_limited version source
  then (true, ExecutionLimiter ((el_active l + 1) `mod` usize_mod) (el_max_threads l))
  else (false, l).
Definition drop_guard (l : execution_limiter) : execution_limiter :=
  ExecutionLimiter ((el_active l + (usize_mod - 1)) `mod` usize_mod) (el_max_threads l).

(** ** Invariants *)

Definition slot_unit (t : reserver) : nat := match t with RSlot => 1 | _ => 0 end.
Definition slots (ts : list reserver) : nat := sum_list (slot_unit <$> ts).
Definition respects_protection (t : reserver) : Prop :=
  match t with RPopped tid _ _ protected => Some tid ≠ protected | _ => True end.

Definition residency_ok (s : residency_system) : Prop :=
  NoDup (rs_residents (ry_state s)) ∧ rs_pending_slots (ry_state s) = N.of_nat (slots (ry_tasks s)) ∧
  Forall respects_protection (ry_tasks s).

Inductive residency_reachable : residency_system → Prop :=
  | rr_empty : residency_reachable empty_residency
  | rr_fire act s s' :
      residency_reachable s → residency_fire act s = Some s' → residency_reachable s'.

Lemma NoDup_List_filter {A} (p : A → bool) l : NoDup l → NoDup (List.filter p l).
Proof.
  induction 1 as [|x l Hx Hn IH]; simpl; [constructor|]. destruct (p x); [|done].
  constructor; [|done]. rewrite list_elem_of_In, List.filter_In, <-list_elem_of_In. tauto.
Qed.

Lemma touch_resident_NoDup l t : NoDup l → NoDup (touch_resident l t).
Proof.
  intros Hn. unfold touch_resident. apply NoDup_app. split_and!.
  - by apply NoDup_List_filter.
  - intros x Hx ->%list_elem_of_singleton. apply list_elem_of_In, List.filter_In in Hx as [_ Hx].
    by rewrite N.eqb_refl in Hx.
  - apply NoDup_singleton.
Qed.

(** The candidate that is popped leaves the residents, the others only rotate. *)
Lemma pop_loop_spec n protected l c l' :
  pop_loop n protected l = (c, l') →
  match c with
  | Some t => Some t ≠ protected ∧ l ≡ₚ t :: l'
  | None => l ≡ₚ l'
  end.
Proof.
  revert l. induction n as [|n IH]; intros l; simpl; [by intros [= <- <-]|].
  destruct l as [|x l]; [by intros [= <- <-]|].
  case_bool_decide as E; [|by intros [= <- <-]].
  intros Hp%IH. assert (x :: l ≡ₚ l ++ [x]) as Hx by (by rewrite Permutation_app_comm).
  destruct c; [destruct Hp as [? Hp]; split; [done|]|]; by rewrite Hx.
Qed.

(** All residents but the protected one are candidates: a pop finds one
    whenever there is another resident. *)
Lemma pop_lru_candidate_None protected st :
  NoDup (rs_residents st) → (pop_lru_candidate protected st).1 = None →
  ∀ t, t ∈ rs_residents st → Some t = protected.
Proof.
  unfold pop_lru_candidate. intros Hn Hpop. destruct st as [l pending]. simpl in *.
  assert (∀ l1 l2, Forall (λ t, Some t = protected) l2 → (pop_loop (length l1) protected (l1 ++ l2)).1 = None →
    Forall (λ t, Some t = protected) (l1 ++ l2)) as Hgen.
  { intros l1. induction l1 as [|x l1 IH]; intros l2 H2; simpl; [done|].
    case_bool_decide as E; [|done]. rewrite <-app_assoc. intros Hp.
    specialize (IH (l2 ++ [x])). rewrite Forall_app, Forall_singleton in IH.
    specialize (IH (conj H2 E) Hp). rewrite !Forall_app in IH. constructor; [done|].
    apply Forall_app. tauto. }
  specialize (Hgen l [] (List.Forall_nil _)). rewrite app_nil_r in Hgen.
  destruct (pop_loop (length l) protected l) as [c l']. simpl in *. rewrite Forall_forall in Hgen. auto.
Qed.

Lemma slots_app ts us : slots (ts ++ us) = slots ts + slots us.
Proof. unfold slots. rewrite fmap_app. apply sum_list_with_app. Qed.

Lemma slots_cons t ts : slots (t :: ts) = slot_unit t + slots ts.
Proof. done. Qed.

Lemma slots_split (ts : list reserver) i t :
  ts !! i = Some t →
  (∀ t', slots (<[i := t']> ts) + slot_unit t = slots ts + slot_unit t') ∧
  slots (delete i ts) + slot_unit t = slots ts.
Proof.
  intros Hi. destruct (list_lookup_split _ _ _ Hi) as (l1 & l2 & -> & Hins & ->). split.
  - intros t'. rewrite Hins, !slots_app, !slots_cons. lia.
  - rewrite !slots_app, !slots_cons. lia.
Qed.

Lemma advance_ok task outcome st next st' :
  advance task outcome st = (next, st') →
  NoDup (rs_residents st) →
  NoDup (rs_residents st') ∧
  (rs_pending_slots st' + N.of_nat (slot_unit task) =
     rs_pending_slots st + N.of_nat (match next with Some t => slot_unit t | None => 0 end))%N ∧
  (∀ t, next = Some t → respects_protection task → respects_protection t).
Proof.
  destruct task as [cap prot|cap prot|remaining cap prot|tid remaining cap prot|]; simpl.
  - unfold try_reserve_pending_slot. destruct (_ <=? _)%N; intros [= <- <-] Hn; simpl;
      (split_and!; [done|lia|by intros ? [= <-]]).
  - intros [= <- <-] Hn. split_and!; [done|simpl; lia|by intros ? [= <-]].
  - destruct remaining as [|remaining]; [intros [= <- <-] Hn; split_and!; [done|simpl; lia|done]|].
    unfold pop_lru_candidate. destruct (pop_loop _ _ _) as [c l'] eqn:E.
    apply pop_loop_spec in E. intros [= <- <-] Hn. simpl. destruct c as [t|].
    + destruct E as [Hp E]. rewrite E in Hn. apply NoDup_cons in Hn as [_ Hn].
      split_and!; [done|simpl; lia|by intros ? [= <-]].
    + rewrite E in Hn. split_and!; [done|simpl; lia|done].
  - destruct outcome; intros [= <- <-] Hn; simpl; (split_and!; [|lia|by intros ? [= <-]]); try done.
    by apply touch_resident_NoDup.
  - intros [= <- <-] Hn. split_and!; [done|simpl; lia|by intros ? [= <-]].
Qed.

(** Whatever reservations run at the same time, no thread is resident twice, the pending slots
    are exactly the reservations that hold one, and a task never takes the thread it protects as a
    candidate for unloading. *)
Theorem residency_is_consistent s : residency_reachable s → residency_ok s.
Proof.
  induction 1 as [|act [st ts] s' _ (Hn & Hp & Hr) Hf]; [by split_and!; [constructor|done|constructor]|].
  unfold residency_ok in *. simpl in *. destruct act as [cap prot|i o|i t|i|t|t]; simpl in Hf.
  - injection Hf as <-. simpl. split_and!; [done| |by apply Forall_app_2, Forall_singleton].
    rewrite slots_app. change (slots [RTry cap prot]) with 0. lia.
  - apply bind_Some in Hf as (task & Hi & Hf). destruct (advance task o st) as [next st'] eqn:E.
    destruct (advance_ok _ _ _ _ _ E Hn) as (Hn' & Hp' & Hr'). injection Hf as <-. simpl.
    destruct (slots_split _ _ _ Hi) as [Hins Hdel].
    pose proof (Forall_lookup_1 _ _ _ _ Hr Hi) as Hti. destruct next as [t|].
    + specialize (Hins t). split_and!; [done|lia|]. apply Forall_insert; auto.
    + split_and!; [done|lia|by apply Forall_delete].
  - destruct (ts !! i) as [[]|] eqn:Hi; try done. injection Hf as <-. simpl.
    destruct (slots_split _ _ _ Hi) as [_ Hdel]. simpl in Hdel.
    split_and!; [by apply touch_resident_NoDup|lia|by apply Forall_delete].
  - destruct (ts !! i) as [[]|] eqn:Hi; try done. injection Hf as <-. simpl.
    destruct (slots_split _ _ _ Hi) as [_ Hdel]. simpl in Hdel.
    split_and!; [done|lia|by apply Forall_delete].
  - injection Hf as <-. simpl. split_and!; [by apply touch_resident_NoDup|done..].
  - injection Hf as <-. simpl. split_and!; [by apply NoDup_List_filter|done..].
Qed.

(** While one task looks at the candidate it has popped, another gets the place
    in the capacity; when the candidate stays loaded both are resident: two
    agents with a capacity of one. *)
Lemma residency_can_exceed_capacity :
  residency_run
    [Reserve 1 None; Advance 0 NotLoaded; CommitSlot 0 7%N;
     Reserve 1 None; Advance 0 NotLoaded; Advance 0 NotLoaded; Advance 0 NotLoaded;
     Reserve 1 None; Advance 1 NotLoaded;
     Advance 0 StaysLoaded; CommitSlot 1 8%N] empty_residency
  = Some (ResidencySystem (ResidencyState [7; 8]%N 0) [RScan 0 1 None]).
Proof. vm_compute. reflexivity. Qed.

(** The check of the execution limit and the guard are two accesses: two turns
    that both pass the check run beside each other under a limit of one. *)
Lemma execution_limit_can_be_exceeded :
  let l := initialize 1 (ExecutionLimiter 0 None) in
  ensure_execution_capacity V2 OtherSubAgent l = Ok () ∧
  ensure_execution_capacity V2 OtherSubAgent l = Ok () ∧
  el_active (execution_guard V2 OtherSubAgent (execution_guard V2 OtherSubAgent l).2).2 = 2%N.
Proof. vm_compute. done. Qed.

(** Guards are counted: dropping one gives its place back. *)
Lemma guard_then_drop version source l :
  (el_active l < usize_mod)%N →
  let '(held, l') := execution_guard version source l in
  (if held then drop_guard l' else l') = l.
Proof.
  intros Hl. unfold execution_guard, drop_guard. destruct (is_execution_limited _ _); [|done].
  destruct l as [act m]. simpl in *. f_equal.
  destruct (decide (act + 1 = usize_mod)%N) as [E|E].
  - rewrite E, N.Div0.mod_same, N.add_0_l, N.mod_small by (unfold usize_mod; lia). lia.
  - rewrite (N.mod_small (act + 1)) by lia.
    replace (act + 1 + (usize_mod - 1))%N with (act + 1 * usize_mod)%N by (unfold usize_mod; lia).
    rewrite N.Div0.mod_add. by apply N.mod_small.
Qed.

Lemma residency_is_consistent_witness :
  ∃ s, residency_reachable s ∧ residency_ok s ∧ rs_residents (ry_state s) = [7]%N.
Proof.
  assert (residency_reachable (ResidencySystem (ResidencyState [7]%N 0) [])) as Hr.
  { apply (rr_fire (CommitSlot 0 7%N) (ResidencySystem (ResidencyState [] 1) [RSlot]));
      [|vm_compute; reflexivity].
    apply (rr_fire (Advance 0 NotLoaded) (ResidencySystem no_residents [RTry 1 None]));
      [|vm_compute; reflexivity].
    apply (rr_fire (Reserve 1 None) empty_residency); [apply rr_empty|vm_compute; reflexivity]. }
  eexists. split; [exact Hr|]. split; [exact (residency_is_consistent _ Hr)|reflexivity].
Defined.
