(* ===== verification/PatchSafety.v ===== *)
(** * Patch safety ([core/src/safety.rs])

    Before a patch is applied the session decides whether it runs unasked, the
    user is asked or it is refused.  A patch runs unasked only when every path
    it touches may be written under the policy and a sandbox holds it there.
    Paths are normalised the way [Path::components] of a Unix host reads them;
    prefixes of Windows paths are left out. *)
From stdpp Require Import numbers strings gmap.
From S2P Require Import Prelude Utf8 PathUri Permissions Profile RustStr ExecApproval Orchestrator.

(** ** Normalising native paths *)

Definition PATH_SEPARATOR : char := chr "/".

(** The components of a Unix path after its root: empty ones and [.] are not
    components. *)
Definition path_components (path : str) : list str :=
  List.filter (λ c, negb (str_eqb c []) && negb (str_eqb c (lit "."))) (split PATH_SEPARATOR path).

(** [normalize]: [..] pops the last component, if there is one, and others are
    pushed; a pushed absolute root is the empty start. *)
Definition push_component (out : list str) (comp : str) : list str :=
  if str_eqb comp (lit "..") then removelast out else out ++ [comp].
Definition normalize_components (path : str) : list str :=
  foldl push_component [] (path_components path).
Definition render_absolute (components : list str) : str :=
  [PATH_SEPARATOR] ++ join [PATH_SEPARATOR] components.
Definition normalize (path : str) : str := render_absolute (normalize_components path).

(** ** Patches *)

Section PatchSafety.
Context {U : Type} `{!UrlCrate U} `{!Codecs} `{!Host U}.

(** [ApplyPatchFileChange]. *)
Inductive ApplyPatchFileChange : Type :=
  | AddChange (content : str)
  | DeleteChange (content : str)
  | UpdateChange (unified_diff : str) (move_path : option U) (new_content : str).

(** [ApplyPatchAction], by its changes; the order of the map does not matter. *)
Abbreviation ApplyPatchAction := (list (U * ApplyPatchFileChange)).

Inductive SafetyCheck : Type := AutoApprove | AskUser | Reject (reason : str).

Definition PATCH_REJECTED_OUTSIDE_PROJECT_REASON : str :=
  lit "writing outside of the project; rejected by user approval settings".
Definition PATCH_REJECTED_READ_ONLY_REASON : str :=
  lit "writing is blocked by read-only sandbox; rejected by user approval settings".

Definition resolved_entries_with_cwd (p : FileSystemSandboxPolicy U) (cwd : str)
  : list (Abs * FileSystemAccessMode) :=
  let cwd_absolute := from_absolute_path cwd in
  omap (λ e, (λ path, (path, Permissions.access e)) <$> resolve_entry_path (entry_path e) cwd_absolute) (Permissions.entries p).

Definition has_writable_roots_with_cwd (p : FileSystemSandboxPolicy U) (cwd : str) : bool :=
  negb (has_full_disk_write_access p)
  && existsb (λ '(path, access), can_write access && can_write_path_with_cwd p (as_path path) cwd)
       (resolved_entries_with_cwd p cwd).

Definition patch_rejection_reason (profile : PermissionProfile U) (p : FileSystemSandboxPolicy U)
    (cwd : U) : str :=
  let has_no_writable_roots :=
    match uri_to_abs_path cwd with
    | Ok cwd => negb (has_writable_roots_with_cwd p (as_path cwd))
    | Err _ => false
    end in
  match profile with
  | Managed _ _ =>
      if negb (has_full_disk_write_access p) && has_no_writable_roots
      then PATCH_REJECTED_READ_ONLY_REASON else PATCH_REJECTED_OUTSIDE_PROJECT_REASON
  | _ => PATCH_REJECTED_OUTSIDE_PROJECT_REASON
  end.

(** [is_path_writable]. *)
Definition is_path_writable (p : FileSystemSandboxPolicy U) (native_cwd : Abs) (path : U) : bool :=
  match uri_to_abs_path path with
  | Err _ => false
  | Ok path => can_write_path_with_cwd p (normalize (as_path path)) (as_path native_cwd)
  end.

Definition change_is_writable (p : FileSystemSandboxPolicy U) (native_cwd : Abs)
    (change : U * ApplyPatchFileChange) : bool :=
  let '(path, change) := change in
  match change with
  | AddChange _ | DeleteChange _ => is_path_writable p native_cwd path
  | UpdateChange _ move_path _ =>
      if negb (is_path_writable p native_cwd path) then false
      else match move_path with
           | Some dest => is_path_writable p native_cwd dest
           | None => true
           end
  end.

Definition is_write_patch_constrained_to_writable_paths (action : ApplyPatchAction)
    (p : FileSystemSandboxPolicy U) (cwd : U) : bool :=
  if has_full_disk_write_access p then true
  else match uri_to_abs_path cwd with
       | Err _ => false
       | Ok native_cwd => forallb (change_is_writable p native_cwd) action
       end.

Definition rejects_sandbox_approval (policy : AskForApproval) : bool :=
  match policy with
  | Never => true
  | Granular c => negb (sandbox_approval c)
  | _ => false
  end.

Definition is_unsandboxed_profile (profile : PermissionProfile U) : bool :=
  match profile with Managed _ _ => false | _ => true end.

Definition assess_patch_safety (os : TargetOs) (action : ApplyPatchAction)
    (policy : AskForApproval) (profile : PermissionProfile U) (p : FileSystemSandboxPolicy U)
    (cwd : U) (level : WindowsSandboxLevel) : SafetyCheck :=
  match action with
  | [] => Reject (lit "empty patch")
  | _ =>
      match policy with
      | UnlessTrusted => AskUser
      | _ =>
          let rejects := rejects_sandbox_approval policy in
          let refuse_or_ask :=
            if rejects then Reject (patch_rejection_reason profile p cwd) else AskUser in
          if is_write_patch_constrained_to_writable_paths action p cwd then
            if is_unsandboxed_profile profile then AutoApprove
            else match get_platform_sandbox os (negb (bool_decide (level = LevelDisabled))) with
                 | Some _ => AutoApprove
                 | None => refuse_or_ask
                 end
          else refuse_or_ask
      end
  end.

(** ** What a patch touches *)

Definition touched (change : U * ApplyPatchFileChange) : list U :=
  match change.2 with
  | UpdateChange _ (Some dest) _ => [change.1; dest]
  | _ => [change.1]
  end.

Lemma change_is_writable_touched p cwd change :
  change_is_writable p cwd change = true ↔ Forall (λ u, is_path_writable p cwd u = true) (touched change).
Proof.
  destruct change as [u [c|c|d [dest|] n]]; unfold touched; simpl; rewrite ?Forall_singleton; try done.
  - rewrite Forall_cons, Forall_singleton. destruct (is_path_writable p cwd u); simpl; naive_solver.
  - by destruct (is_path_writable p cwd u).
Qed.

(** Every path a patch touches, read as a path of this host and normalised, may be
    written under the policy; a policy of full access asks for nothing. *)
Definition may_write (action : ApplyPatchAction) p cwd : Prop :=
  has_full_disk_write_access p = true ∨
  ∃ native, uri_to_abs_path cwd = Ok native ∧
    ∀ change u, change ∈ action → u ∈ touched change →
      ∃ target, uri_to_abs_path u = Ok target ∧
        can_write_path_with_cwd p (normalize (as_path target)) (as_path native) = true.
(** The patch is held by a sandbox of the platform, or the profile wants none. *)
Definition held (os : TargetOs) (profile : PermissionProfile U) (level : WindowsSandboxLevel) : Prop :=
  match profile with
  | Managed _ _ => os = MacOs ∨ os = Linux ∨ (os = WindowsOs ∧ level ≠ LevelDisabled)
  | _ => True
  end.
Definition forbids_asking (policy : AskForApproval) : Prop :=
  policy = Never ∨ ∃ c, policy = Granular c ∧ sandbox_approval c = false.

Lemma is_path_writable_spec p native u :
  is_path_writable p native u = true ↔
  ∃ target, uri_to_abs_path u = Ok target ∧
    can_write_path_with_cwd p (normalize (as_path target)) (as_path native) = true.
Proof. unfold is_path_writable. destruct (uri_to_abs_path u); naive_solver. Qed.

Lemma constrained_iff action p cwd :
  is_write_patch_constrained_to_writable_paths action p cwd = true ↔ may_write action p cwd.
Proof.
  unfold is_write_patch_constrained_to_writable_paths, may_write.
  destruct (has_full_disk_write_access p); [naive_solver|].
  destruct (uri_to_abs_path cwd) as [native|]; [|naive_solver].
  setoid_rewrite <- is_path_writable_spec. rewrite forallb_Forall, Forall_forall. split.
  - intros Hw. right. exists native. split; [done|]. intros change u Hc Hu.
    specialize (Hw _ Hc). apply change_is_writable_touched in Hw. rewrite Forall_forall in Hw. auto.
  - intros [?|(n & [= <-] & Hw)] change Hc; [done|]. apply change_is_writable_touched, Forall_forall. eauto.
Qed.
Lemma held_iff os profile level :
  is_unsandboxed_profile profile = true ∨ is_Some (get_platform_sandbox os (negb (bool_decide (level = LevelDisabled)))) ↔
  held os profile level.
Proof.
  destruct profile as [fs net| |]; simpl; [|naive_solver..]. unfold get_platform_sandbox, is_Some.
  case_bool_decide; destruct os; simpl; naive_solver.
Qed.
Lemma forbids_asking_iff policy : rejects_sandbox_approval policy = true ↔ forbids_asking policy.
Proof. unfold forbids_asking. destruct policy as [| |c|]; simpl; rewrite ?negb_true_iff; naive_solver. Qed.

(** C17: a patch runs unasked exactly when it is not empty, the settings do not ask for everything,
    every path it touches (the target of a move included) may be written under the policy and, for a
    managed profile, the platform has a sandbox to hold it there.  Otherwise it is refused when it is
    empty, or the settings forbid to ask, with the reason of the profile, and the user is asked in all
    other cases. *)
Theorem patch_safety_decision os action policy profile p cwd level :
  let check := assess_patch_safety os action policy profile p cwd level in
  let safe := may_write action p cwd ∧ held os profile level in
  (check = AutoApprove ↔ action ≠ [] ∧ policy ≠ UnlessTrusted ∧ safe) ∧
  (check = AskUser ↔ action ≠ [] ∧ (policy = UnlessTrusted ∨ ¬ forbids_asking policy ∧ ¬ safe)) ∧
  (∀ reason, check = Reject reason ↔
     action = [] ∧ reason = lit "empty patch" ∨
     action ≠ [] ∧ forbids_asking policy ∧ ¬ safe ∧ reason = patch_rejection_reason profile p cwd).
Proof.
  intros check safe. unfold check, safe. clear check safe. setoid_rewrite <- forbids_asking_iff. setoid_rewrite <- constrained_iff.
  setoid_rewrite <- held_iff.
  unfold assess_patch_safety. generalize (lit "empty patch") as empty. intros empty.
  destruct action as [|ch action]; [naive_solver|].
  destruct (is_write_patch_constrained_to_writable_paths (ch :: action) p cwd),
    (is_unsandboxed_profile profile), (get_platform_sandbox os _), policy as [| |c|];
    simpl; try destruct (sandbox_approval c); simpl; unfold is_Some; naive_solver.
Qed.
End PatchSafety.

(** ** Normal forms *)

Definition normal_component (c : str) : Prop :=
  c ≠ [] ∧ c ≠ lit "." ∧ c ≠ lit ".." ∧ PATH_SEPARATOR ∉ c.

Lemma split_pieces_no_sep c s : Forall (λ w, c ∉ w) (split c s).
Proof.
  induction s as [|d s IH]; simpl; [repeat constructor; apply not_elem_of_nil|].
  destruct (N.eqb_spec d c); [constructor; [apply not_elem_of_nil|done]|].
  destruct (split c s) as [|w ws]; [by repeat constructor; apply not_elem_of_cons; split; [|apply not_elem_of_nil]|].
  apply Forall_cons in IH as [Hw Hws]. constructor; [|done]. by apply not_elem_of_cons.
Qed.

Lemma path_components_spec path :
  Forall (λ c, c ≠ [] ∧ c ≠ lit "." ∧ PATH_SEPARATOR ∉ c) (path_components path).
Proof.
  apply Forall_forall. intros c Hc. apply list_elem_of_In, List.filter_In in Hc as [Hc Hb].
  apply list_elem_of_In in Hc. pose proof (split_pieces_no_sep PATH_SEPARATOR path) as Hs.
  rewrite Forall_forall in Hs. apply andb_true_iff in Hb as [H1 H2].
  rewrite !negb_true_iff, !str_eqb_neq in *. auto.
Qed.

Lemma removelast_Forall {A} (P : A → Prop) l : Forall P l → Forall P (removelast l).
Proof.
  induction 1 as [|x l Hx Hl IH]; simpl; [constructor|]. destruct l; [constructor|by constructor].
Qed.

Lemma normalize_components_normal path : Forall normal_component (normalize_components path).
Proof.
  unfold normalize_components. pose proof (path_components_spec path) as Hs.
  assert (∀ out, Forall normal_component out →
    Forall normal_component (foldl push_component out (path_components path))) as H; [|by apply H].
  induction Hs as [|c cs (? & ? & ?) _ IH]; intros out Hout; simpl; [done|]. apply IH.
  unfold push_component. destruct (str_eqb c (lit "..")) eqn:E; [by apply removelast_Forall|].
  apply Forall_app. split; [done|]. apply Forall_singleton. apply str_eqb_neq in E. done.
Qed.

Lemma components_of_normal cs :
  Forall normal_component cs → path_components (render_absolute cs) = cs.
Proof.
  intros Hcs. unfold path_components, render_absolute.
  change ([PATH_SEPARATOR] ++ join [PATH_SEPARATOR] cs) with ([] ++ PATH_SEPARATOR :: join [PATH_SEPARATOR] cs).
  rewrite split_app by apply not_elem_of_nil. simpl.
  destruct cs as [|c cs]; [done|].
  rewrite split_join; [|done|eapply Forall_impl; [exact Hcs|by intros ? (_ & _ & _ & ?)]].
  induction Hcs as [|x l (H1 & H2 & _) _ IH]; simpl; [done|].
  apply str_eqb_neq in H1, H2. rewrite H1, H2. simpl. by rewrite IH.
Qed.

(** Normalising a path removes every dot component and cannot climb above the root; the normal
    form is its own normal form. *)
Theorem normalize_is_lexical path :
  Forall normal_component (path_components (normalize path)) ∧ normalize (normalize path) = normalize path.
Proof.
  pose proof (normalize_components_normal path) as Hn. unfold normalize.
  rewrite components_of_normal by done. split; [done|]. f_equal.
  unfold normalize_components at 1. rewrite components_of_normal by done.
  assert (∀ cs out, Forall normal_component cs → foldl push_component out cs = out ++ cs) as Hid; [|by rewrite Hid].
  intros cs out Hcs. revert out. induction Hcs as [|c cs (_ & _ & H & _) _ IH]; intros out; simpl; [by rewrite app_nil_r|].
  rewrite IH. unfold push_component. apply str_eqb_neq in H. rewrite H. by rewrite <-app_assoc.
Qed.
