(* ===== verification/FuzzyMatch.v ===== *)
(** * Fuzzy matching ([utils/fuzzy-match/src/lib.rs])

    The popups of the composer filter their entries with a case-insensitive
    subsequence match that also says which chars to highlight.  The haystack is
    lowered char by char, so that each lowered char keeps the index of the char
    it comes from; the needle is lowered as a string.  Unicode's case tables are
    a class. *)
From stdpp Require Import numbers strings list.
From Stdlib Require Import Sorting.Sorted.
From S2P Require Import Prelude RustStr.

(** [char::to_lowercase] and the two properties [str::to_lowercase] reads. *)
Class Casing := {
  lower : char → list char;
  is_cased : char → bool;
  is_case_ignorable : char → bool;
}.

(** ['Σ'] has two lower cases; [str::to_lowercase] writes the final one at the
    end of a word. *)
Definition SIGMA : char := 0x3a3%N.
Definition small_sigma : char := 0x3c3%N.
Definition final_sigma : char := 0x3c2%N.

Section fuzzy.
Context `{Casing}.

(** ** [str::to_lowercase] *)

Fixpoint case_ignorable_then_cased (s : str) : bool :=
  match s with
  | [] => false
  | c :: s' => if is_case_ignorable c then case_ignorable_then_cased s' else is_cased c
  end.

(** [before] is the text to the left, nearest char first. *)
Fixpoint to_lowercase_from (before s : str) : str :=
  match s with
  | [] => []
  | c :: s' =>
      (if (c =? SIGMA)%N
       then [if case_ignorable_then_cased before && negb (case_ignorable_then_cased s')
             then final_sigma else small_sigma]
       else lower c) ++ to_lowercase_from (c :: before) s'
  end.
Definition to_lowercase (s : str) : str := to_lowercase_from [] s.

(** ** The match *)

(** [lowered_chars] and [lowered_to_orig_char_idx], zipped. *)
Fixpoint lowered_from (orig_idx : nat) (haystack : str) : list (char * nat) :=
  match haystack with
  | [] => []
  | ch :: rest => ((λ lc, (lc, orig_idx)) <$> lower ch) ++ lowered_from (S orig_idx) rest
  end.

(** The inner [while] loop: the first position at or after [cur] with the char. *)
Fixpoint find_at (nc : char) (chars : list char) (cur : nat) : option nat :=
  match chars with
  | [] => None
  | c :: rest => if (c =? nc)%N then Some cur else find_at nc rest (S cur)
  end.

Fixpoint match_positions (needle : str) (chars : list char) (cur : nat) : option (list nat) :=
  match needle with
  | [] => Some []
  | nc :: rest =>
      pos ← find_at nc (drop cur chars) cur;
      positions ← match_positions rest chars (S pos);
      Some (pos :: positions)
  end.

(** [n as i32]; a text has fewer than [2^31] chars, so that the differences below
    stay in range. *)
Definition as_i32 (n : nat) : Z := ((Z.of_nat n + 2 ^ 31) mod 2 ^ 32 - 2 ^ 31)%Z.
Definition score_max : Z := (2 ^ 31 - 1)%Z.

(** [position(|&oi| oi == target)]. *)
Fixpoint position_of (target : nat) (l : list nat) : option nat :=
  match l with
  | [] => None
  | x :: l' => if x =? target then Some 0 else S <$> position_of target l'
  end.

(** [sort_unstable] and [dedup]. *)
Fixpoint insert_sorted (x : nat) (l : list nat) : list nat :=
  match l with
  | [] => [x]
  | y :: l' => if x <=? y then x :: l else y :: insert_sorted x l'
  end.
Definition sort (l : list nat) : list nat := foldr insert_sorted [] l.
Fixpoint dedup (l : list nat) : list nat :=
  match l with
  | [] => []
  | x :: l' => match dedup l' with
               | [] => [x]
               | y :: r => if x =? y then y :: r else x :: y :: r
               end
  end.

Definition fuzzy_match (haystack needle : str) : option (list nat * Z) :=
  match needle with
  | [] => Some ([], score_max)
  | _ =>
      let lowered := lowered_from 0 haystack in
      let lowered_needle := to_lowercase needle in
      positions ← match_positions lowered_needle lowered.*1 0;
      let result := (λ pos, nth pos lowered.*2 0) <$> positions in
      let first := match result with
                   | [] => 0
                   | target :: _ => default 0 (position_of target lowered.*2)
                   end in
      let last_pos := default first (last positions) in
      let window := (as_i32 last_pos - as_i32 first + 1 - as_i32 (length lowered_needle))%Z in
      let score := Z.max window 0 in
      let score := if first =? 0 then (score - 100)%Z else score in
      Some (dedup (sort result), score)
  end.

(** ** Greedy search *)

Lemma find_at_spec nc chars cur :
  match find_at nc chars cur with
  | Some pos => ∃ l1 l2, chars = l1 ++ nc :: l2 ∧ pos = cur + length l1 ∧ nc ∉ l1
  | None => nc ∉ chars
  end.
Proof.
  revert cur. induction chars as [|c chars IH]; intros cur; simpl; [apply not_elem_of_nil|].
  destruct (N.eqb_spec c nc) as [->|Hne].
  - exists [], chars. simpl. split_and!; [done|lia|apply not_elem_of_nil].
  - specialize (IH (S cur)). destruct (find_at nc chars (S cur)) as [pos|].
    + destruct IH as (l1 & l2 & -> & -> & Hn). exists (c :: l1), l2. simpl.
      split_and!; [done|lia|by apply not_elem_of_cons].
    + by apply not_elem_of_cons.
Qed.

(** The positions are increasing and spell the needle. *)
Definition spells (needle : str) (chars : list char) (positions : list nat) : Prop :=
  Forall2 (λ nc pos, chars !! pos = Some nc) needle positions.

Lemma match_positions_sound needle chars cur positions :
  match_positions needle chars cur = Some positions →
  spells needle chars positions ∧ StronglySorted lt positions ∧ Forall (λ pos, cur ≤ pos) positions.
Proof.
  revert cur positions. induction needle as [|nc needle IH]; intros cur positions; simpl.
  { intros [= <-]. repeat constructor. }
  pose proof (find_at_spec nc (drop cur chars) cur) as Hf.
  destruct (find_at _ _ _) as [pos|]; [|done]. simpl. destruct Hf as (l1 & l2 & E & -> & _).
  destruct (match_positions needle chars _) as [ps|] eqn:Em; [|done]. intros [= <-].
  destruct (IH _ _ Em) as (Hs & HS & Hf). split_and!.
  - constructor; [|done]. rewrite <-lookup_drop, E. by rewrite list_lookup_middle.
  - constructor; [done|]. eapply Forall_impl; [exact Hf|]. simpl. lia.
  - constructor; [lia|]. eapply Forall_impl; [exact Hf|]. simpl. lia.
Qed.

Lemma sublist_cons_app (nc : char) needle l1 l2 :
  nc ∉ l1 → sublist (nc :: needle) (l1 ++ nc :: l2) → sublist needle l2.
Proof.
  induction l1 as [|c l1 IH]; simpl; intros Hn Hs.
  - inversion Hs as [|? ? ? Hs'|? ? ? Hs']; subst; [done|].
    etrans; [|exact Hs']. by constructor.
  - apply not_elem_of_cons in Hn as [Hne Hn].
    inversion Hs as [|? ? ? Hs'|? ? ? Hs']; subst; [done|]. by apply IH.
Qed.

(** Taking the first possible position never misses a match. *)
Lemma match_positions_complete needle chars cur :
  is_Some (match_positions needle chars cur) ↔ sublist needle (drop cur chars).
Proof.
  revert cur. induction needle as [|nc needle IH]; intros cur; simpl.
  { split; [intros _; apply sublist_nil_l|by eauto]. }
  pose proof (find_at_spec nc (drop cur chars) cur) as Hf.
  destruct (find_at _ _ _) as [pos|]; simpl.
  - destruct Hf as (l1 & l2 & E & -> & Hn).
    assert (drop (S (cur + length l1)) chars = l2) as Hd.
    { replace (S (cur + length l1)) with (cur + S (length l1)) by lia. rewrite <-drop_drop, E.
      by rewrite (cons_middle nc), app_assoc, drop_app_length' by (rewrite length_app; simpl; lia). }
    rewrite E. split.
    + intros (ps & Hps). apply bind_Some in Hps as (ps' & Hm & _).
      apply sublist_inserts_l. constructor. rewrite <-Hd. apply IH. eauto.
    + intros Hs%sublist_cons_app; [|done]. rewrite <-Hd in Hs. apply IH in Hs as [ps ->]. simpl. eauto.
  - split; [by intros []|]. intros Hs. exfalso. apply Hf.
    apply (sublist_subseteq _ _ Hs). by left.
Qed.

(** ** Sorting *)

Lemma insert_sorted_elem x y l : x ∈ insert_sorted y l ↔ x = y ∨ x ∈ l.
Proof.
  induction l as [|z l IH]; simpl; [by rewrite list_elem_of_singleton, elem_of_nil; tauto|].
  destruct (y <=? z); rewrite !elem_of_cons; [tauto|]. rewrite IH. tauto.
Qed.

Lemma sort_elem_iff x l : x ∈ sort l ↔ x ∈ l.
Proof.
  induction l as [|y l IH]; simpl; [done|]. by rewrite insert_sorted_elem, elem_of_cons, IH.
Qed.

Lemma sort_sorted l : StronglySorted le (sort l).
Proof.
  induction l as [|x l IH]; simpl; [constructor|].
  induction IH as [|y r HS IH Hy]; simpl; [by repeat constructor|].
  destruct (Nat.leb_spec x y).
  - constructor; [by constructor|]. constructor; [done|]. eapply Forall_impl; [exact Hy|]. simpl. lia.
  - constructor; [done|]. apply Forall_forall. intros z [->|Hz]%insert_sorted_elem; [lia|].
    rewrite Forall_forall in Hy. auto.
Qed.

Lemma dedup_elem x l : x ∈ dedup l ↔ x ∈ l.
Proof.
  induction l as [|y l IH]; simpl; [done|]. rewrite elem_of_cons, <-IH.
  destruct (dedup l) as [|z r]; [by rewrite list_elem_of_singleton, elem_of_nil; tauto|].
  destruct (Nat.eqb_spec y z) as [->|]; rewrite !elem_of_cons; tauto.
Qed.

Lemma dedup_strict l : StronglySorted le l → StronglySorted lt (dedup l).
Proof.
  induction 1 as [|x l HS IH Hx]; simpl; [constructor|].
  pose proof (dedup_elem) as He. destruct (dedup l) as [|y r] eqn:Ed; [by repeat constructor|].
  destruct (Nat.eqb_spec x y) as [->|Hne]; [done|].
  constructor; [done|]. assert (x < y) as Hxy.
  { assert (y ∈ l) as Hy by (apply dedup_elem; rewrite Ed; by left).
    rewrite Forall_forall in Hx. specialize (Hx _ Hy). lia. }
  apply StronglySorted_inv in IH as [_ Hy]. constructor; [done|].
  eapply Forall_impl; [exact Hy|]. simpl. lia.
Qed.

(** ** Correctness *)

Lemma lowered_idx i h c k : (c, k) ∈ lowered_from i h → ∃ ch, i ≤ k ∧ h !! (k - i) = Some ch ∧ c ∈ lower ch.
Proof.
  revert i. induction h as [|ch h IH]; intros i; simpl; [by rewrite elem_of_nil|].
  rewrite elem_of_app, list_elem_of_fmap. intros [(lc & [= -> ->] & Hlc)|Hin].
  - exists ch. rewrite Nat.sub_diag. done.
  - destruct (IH _ Hin) as (ch' & Hle & Hk & Hc). exists ch'. split_and!; [lia| |done].
    by replace (k - i) with (S (k - S i)) by lia.
Qed.

Definition lowered_chars (h : str) : list char := (lowered_from 0 h).*1.

(** A needle matches exactly when its lower case is a subsequence of the lower case of the
    haystack; the indices returned are increasing indices of chars of the haystack, and each
    highlighted char has a lower case char of the needle. *)
Theorem fuzzy_match_is_subsequence haystack needle :
  needle ≠ [] →
  (is_Some (fuzzy_match haystack needle) ↔ sublist (to_lowercase needle) (lowered_chars haystack)) ∧
  (∀ indices score, fuzzy_match haystack needle = Some (indices, score) →
     StronglySorted lt indices ∧
     (∀ k, k ∈ indices → ∃ ch nc, haystack !! k = Some ch ∧ nc ∈ lower ch ∧ nc ∈ to_lowercase needle) ∧
     (to_lowercase needle ≠ [] → indices ≠ []) ∧ (-100 ≤ score)%Z).
Proof.
  intros Hne. unfold fuzzy_match. destruct needle as [|n0 needle]; [done|].
  remember (n0 :: needle) as nd eqn:End. clear End. split.
  - pose proof (match_positions_complete (to_lowercase nd) (lowered_from 0 haystack).*1 0) as Hc.
    simpl in Hc. unfold lowered_chars. rewrite <-Hc.
    destruct (match_positions _ _ _); simpl; [by split; eauto|]. by split; intros [].
  - intros indices score Hm. apply bind_Some in Hm as (ps & Hps & [= <- <-]).
    destruct (match_positions_sound _ _ _ _ Hps) as (Hs & _ & _). split_and!.
    + apply dedup_strict, sort_sorted.
    + intros k Hk. apply dedup_elem, sort_elem_iff, list_elem_of_fmap in Hk as (pos & -> & Hpos).
      apply list_elem_of_lookup in Hpos as [j Hj].
      destruct (Forall2_lookup_r _ _ _ _ _ Hs Hj) as (nc & Hnc & Hc).
      rewrite list_lookup_fmap in Hc. apply fmap_Some in Hc as ([c i] & Hci & ->).
      assert (nth pos (lowered_from 0 haystack).*2 0 = i) as ->.
      { apply nth_lookup_Some. by rewrite list_lookup_fmap, Hci. }
      destruct (lowered_idx 0 haystack c i) as (ch & _ & Hk & Hl); [by eapply list_elem_of_lookup_2|].
      rewrite Nat.sub_0_r in Hk. exists ch, c. split_and!; [done..|]. by eapply list_elem_of_lookup_2.
    + intros Hnn Hnil. apply Forall2_length in Hs. destruct ps as [|pos ps]; [by destruct (to_lowercase nd)|].
      assert (nth pos (lowered_from 0 haystack).*2 0 ∈ ([] : list nat)) as Hin; [|by apply elem_of_nil in Hin].
      rewrite <-Hnil. apply dedup_elem, sort_elem_iff. by left.
    + destruct (_ =? 0); lia.
Qed.

(** A text without a capital sigma is lowered char by char. *)
Lemma lowered_chars_eq before i h :
  SIGMA ∉ h → (lowered_from i h).*1 = to_lowercase_from before h.
Proof.
  revert before i. induction h as [|c h IH]; intros before i Hn; simpl; [done|].
  apply not_elem_of_cons in Hn as [Hc Hn]. rewrite fmap_app, (IH (c :: before)) by done.
  destruct (N.eqb_spec c SIGMA); [congruence|]. f_equal.
  rewrite <-list_fmap_compose. apply list_fmap_id.
Qed.

Lemma fuzzy_match_self h : h ≠ [] → SIGMA ∉ h → is_Some (fuzzy_match h h).
Proof.
  intros Hne Hs. unfold fuzzy_match. destruct h as [|c h]; [done|]. remember (c :: h) as t eqn:E. clear E.
  destruct (match_positions_complete (to_lowercase t) (lowered_from 0 t).*1 0) as [_ Hm].
  destruct Hm as [ps ->]; [|simpl; eauto].
  simpl. by rewrite (lowered_chars_eq []).
Qed.
End fuzzy.

(** ** Concrete runs *)

Module MiniCasing.
(** ASCII letters and the three sigmas. *)
#[local] Instance casing : Casing := {
  lower c := if (c =? SIGMA)%N then [small_sigma] else [char_to_ascii_lowercase c];
  is_cased c := (((65 <=? c) && (c <=? 90)) || ((97 <=? c) && (c <=? 122)) || (c =? SIGMA)
                 || (c =? small_sigma) || (c =? final_sigma))%N;
  is_case_ignorable c := (c =? 39)%N;
}.

Lemma fuzzy_match_is_subsequence_witness :
  lit "hl" ≠ [] ∧ fuzzy_match (lit "Hello") (lit "hl") = Some ([0; 2], (-99)%Z) ∧
  sublist (to_lowercase (lit "hl")) (lowered_chars (lit "Hello")).
Proof.
  split; [discriminate|]. split; [vm_compute; reflexivity|].
  apply (fuzzy_match_is_subsequence (lit "Hello") (lit "hl")); [discriminate|].
  vm_compute. eexists. reflexivity.
Defined.

(** A word that ends with a capital sigma does not match itself: the needle is
    lowered as a string, with the final form of the letter, the haystack char
    by char. *)
Lemma final_sigma_does_not_match :
  fuzzy_match (lit "A" ++ [SIGMA]) (lit "A" ++ [SIGMA]) = None.
Proof. vm_compute. reflexivity. Qed.
End MiniCasing.
