(* ===== verification/Hooks.v ===== *)
(** * The hook engine ([hooks/src/engine], [hooks/src/events/common.rs])

    Hooks are commands and MCP tools that the configuration attaches to events
    of a session.  This file has the handlers with their matchers, the summaries
    of their runs, the dispatcher, which runs the selected handlers at the same
    time and waits for the synchronous ones, and the spilling of long outputs.
    What a handler answers and in which order handlers finish is decided by the
    environment ([HookRuntime]); the regular expression crate is a class. *)
From stdpp Require Import numbers strings list.
From S2P Require Import Prelude RustStr Truncate.

(** ** Protocol types *)

Inductive HookEventName :=
  | PreToolUse | PermissionRequest | PostToolUse | PreCompact | PostCompact | SessionStart
  | SessionEnd | UserPromptSubmit | SubagentStart | SubagentStop | StopEvent | Interrupt.
#[global] Instance HookEventName_eq_dec : EqDecision HookEventName.
Proof. solve_decision. Defined.

Inductive HookHandlerType := CommandType | McpToolType | PromptType | AgentType.
Inductive HookExecutionMode := Sync | Async.
#[global] Instance HookExecutionMode_eq_dec : EqDecision HookExecutionMode.
Proof. solve_decision. Defined.
Inductive HookScope := ThreadScope | TurnScope.
Inductive HookSource :=
  | System | User | Project | Mdm | SessionFlags | Plugin | CloudRequirements | CloudManagedConfig
  | LegacyManagedConfigFile | LegacyManagedConfigMdm | UnknownSource.
Inductive HookRunStatus := Running | Completed | Failed | Blocked | Stopped.
#[global] Instance HookRunStatus_eq_dec : EqDecision HookRunStatus.
Proof. solve_decision. Defined.
Inductive HookOutputEntryKind := WarningEntry | StopEntry | FeedbackEntry | ContextEntry | ErrorEntry.
Record HookOutputEntry := Entry { entry_kind : HookOutputEntryKind; entry_text : str }.

Record HookRunSummary := mkHookRunSummary {
  run_builtin : bool;
  run_summary_id : str;
  run_event_name : HookEventName;
  run_handler_type : HookHandlerType;
  run_execution_mode : HookExecutionMode;
  run_scope : HookScope;
  run_source_path : str;
  run_source : HookSource;
  run_display_order : Z;
  run_status : HookRunStatus;
  run_status_message : option str;
  run_started_at : Z;
  run_completed_at : option Z;
  run_duration_ms : option Z;
  run_entries : list HookOutputEntry;
}.
Record HookCompletedEvent := mkHookCompletedEvent {
  event_turn_id : option str;
  event_run : HookRunSummary;
}.

(** ** Spilled output ([hooks/src/output_spill.rs]) *)

Definition DEFAULT_HOOK_OUTPUT_TOKEN_LIMIT : N := 2500.
Record AdditionalContextLimit := mkLimit { token_limit : N }.
Definition limit_from_config (value : option N) : AdditionalContextLimit :=
  mkLimit (default DEFAULT_HOOK_OUTPUT_TOKEN_LIMIT value).
Definition default_limit : AdditionalContextLimit := limit_from_config None.
Record AdditionalContext := mkAdditionalContext {
  context_text : str;
  context_limit : AdditionalContextLimit;
}.

(** What the file system answers: the fresh path under the output directory and
    whether the directory and the file can be written. *)
Record SpillAnswer := mkSpillAnswer { spill_path : str; spill_dir_made : bool; spill_written : bool }.

(** [None] is a panic of the truncation; there is none
    ([TruncateProofs.truncate_text_total]). *)
Definition spilled_hook_output_preview (text path : str) (token_limit : N) : option str :=
  let footer := [LF; LF] ++ lit "Full hook output saved to: " ++ path in
  (λ preview, preview ++ footer)
    <$> formatted_truncate_text text (Tokens (token_limit - approx_token_count footer)).

Definition maybe_spill_text_with_limit (a : SpillAnswer) (text : str) (limit : AdditionalContextLimit)
  : option str :=
  let token_limit := token_limit limit in
  if ((token_limit =? 0) || (approx_token_count text <=? token_limit))%N then Some text
  else if negb (spill_dir_made a) then formatted_truncate_text text (Tokens token_limit)
  else if negb (spill_written a) then formatted_truncate_text text (Tokens token_limit)
  else spilled_hook_output_preview text (spill_path a) token_limit.

Definition maybe_spill_text (a : SpillAnswer) (text : str) : option str :=
  maybe_spill_text_with_limit a text default_limit.

(** The answer for the context at each position. *)
Fixpoint maybe_spill_additional_contexts (answers : nat → SpillAnswer)
    (contexts : list AdditionalContext) : option (list str) :=
  match contexts with
  | [] => Some []
  | c :: rest =>
      text ← maybe_spill_text_with_limit (answers 0) (context_text c) (context_limit c);
      spilled ← maybe_spill_additional_contexts (λ i, answers (S i)) rest;
      Some (text :: spilled)
  end.

(** ** Matchers ([hooks/src/events/common.rs]) *)

Class RegexCrate := {
  regex : Type;
  regex_new : str → result str regex;
  regex_is_match : regex → str → bool;
}.

Definition is_ascii_alphanumeric (c : char) : bool :=
  is_ascii_digit c || ((97 <=? c) && (c <=? 122))%N || ((65 <=? c) && (c <=? 90))%N.
Definition is_match_all_matcher (matcher : str) : bool :=
  str_eqb matcher [] || str_eqb matcher (lit "*").
Definition is_exact_matcher (matcher : str) : bool :=
  forallb (λ ch, is_ascii_alphanumeric ch || (ch =? chr "_")%N || (ch =? chr "|")%N) matcher.

Definition has_matcher (event_name : HookEventName) : bool :=
  match event_name with UserPromptSubmit | StopEvent | Interrupt => false | _ => true end.
Definition matcher_pattern_for_event (event_name : HookEventName) (matcher : option str) : option str :=
  if has_matcher event_name then matcher else None.

Section matchers.
Context `{RegexCrate}.

Definition validate_matcher_pattern (matcher : str) : result str unit :=
  if is_match_all_matcher matcher || is_exact_matcher matcher then Ok ()
  else let? _ := regex_new matcher in Ok ().

Definition matches_matcher (matcher input : option str) : bool :=
  match matcher with
  | None => true
  | Some matcher =>
      if is_match_all_matcher matcher then true
      else if is_exact_matcher matcher
      then match input with
           | Some input => existsb (λ candidate, str_eqb candidate input) (split (chr "|") matcher)
           | None => false
           end
      else match input with
           | Some input => match regex_new matcher with
                           | Ok r => regex_is_match r input
                           | Err _ => false
                           end
           | None => false
           end
  end.
End matchers.

Definition matcher_inputs (tool_name : str) (matcher_aliases : list str) : list str :=
  tool_name :: matcher_aliases.

(** [common::trimmed_non_empty] and [common::join_text_chunks]. *)
Definition trimmed_non_empty (text : str) : option str :=
  let trimmed := trim text in if str_eqb trimmed [] then None else Some trimmed.
Definition join_text_chunks (chunks : list str) : option str :=
  match chunks with [] => None | _ => Some (join [LF; LF] chunks) end.
Definition flatten_additional_contexts (additional_contexts : list (list AdditionalContext))
  : list AdditionalContext := concat additional_contexts.

(** ** Handlers ([hooks/src/engine/mod.rs]) *)

Section engine.
(** [serde_json::Value]. *)
Context {Json : Type}.

Inductive HandlerSourcePath :=
  | Local (path : str)
  | ExecutorScoped (plugin_id environment_id : str) (mcp_environment_id : option str)
      (mcp_metadata : option (list (str * Json))) (manifest_path source_relative_path : str).
Definition source_path_display (p : HandlerSourcePath) : str :=
  match p with
  | Local path => path
  | ExecutorScoped _ environment_id _ _ manifest_path source_relative_path =>
      environment_id ++ lit ":" ++ manifest_path ++ lit ":" ++ source_relative_path
  end.

Inductive ConfiguredHandlerKind :=
  | Command (command : str) (env : list (str * str)) (is_async : bool)
  | McpTool (server tool : str) (input : list (str * Json)).

Record ConfiguredHandler := mkHandler {
  builtin : bool;
  event_name : HookEventName;
  matcher : option str;
  timeout_sec : N;
  status_message : option str;
  additional_context_limit : AdditionalContextLimit;
  source_path : HandlerSourcePath;
  source : HookSource;
  display_order : Z;
  kind : ConfiguredHandlerKind;
}.

Definition is_executor_scoped (h : ConfiguredHandler) : bool :=
  match source_path h with ExecutorScoped _ _ _ _ _ _ => true | Local _ => false end.
Definition execution_mode (h : ConfiguredHandler) : HookExecutionMode :=
  if is_executor_scoped h then Async
  else match kind h with
       | Command _ _ true => Async
       | Command _ _ false | McpTool _ _ _ => Sync
       end.
Definition can_apply_control_effects (h : ConfiguredHandler) : bool :=
  bool_decide (execution_mode h = Sync).

Definition event_name_label (event_name : HookEventName) : str :=
  match event_name with
  | PreToolUse => lit "pre-tool-use"
  | PermissionRequest => lit "permission-request"
  | PostToolUse => lit "post-tool-use"
  | PreCompact => lit "pre-compact"
  | PostCompact => lit "post-compact"
  | SessionStart => lit "session-start"
  | SessionEnd => lit "session-end"
  | UserPromptSubmit => lit "user-prompt-submit"
  | SubagentStart => lit "subagent-start"
  | SubagentStop => lit "subagent-stop"
  | StopEvent => lit "stop"
  | Interrupt => lit "interrupt"
  end.

(** [format!("{n}")] for a signed integer. *)
Definition fmt_Z (z : Z) : str :=
  if (z <? 0)%Z then lit "-" ++ fmt_N (Z.to_N (- z)) else fmt_N (Z.to_N z).

Definition run_id (h : ConfiguredHandler) : str :=
  event_name_label (event_name h) ++ lit ":" ++ fmt_Z (display_order h) ++ lit ":"
    ++ source_path_display (source_path h).
Definition handler_type (h : ConfiguredHandler) : HookHandlerType :=
  match kind h with Command _ _ _ => CommandType | McpTool _ _ _ => McpToolType end.

(** [max_permission_request_timeout]. *)
Definition max_permission_request_timeout (handlers : list ConfiguredHandler) : N :=
  foldr N.max 0%N
    (timeout_sec <$> List.filter (λ h, bool_decide (event_name h = PermissionRequest)
                                       && can_apply_control_effects h) handlers).

(** [append_additional_context]. *)
Definition append_additional_context (entries : list HookOutputEntry)
    (contexts : list AdditionalContext) (h : ConfiguredHandler) (additional_context : str)
  : list HookOutputEntry * list AdditionalContext :=
  (entries ++ [Entry ContextEntry additional_context],
   contexts ++ [mkAdditionalContext additional_context (additional_context_limit h)]).

(** ** Summaries ([hooks/src/engine/dispatcher.rs]) *)

Record HandlerRunResult := mkRunResult {
  started_at : Z;
  completed_at : Z;
  duration_ms : Z;
  exit_code : option Z;
  stdout : str;
  stderr : str;
  error : option str;
}.

Definition scope_for_event (event_name : HookEventName) : HookScope :=
  match event_name with
  | SessionStart | SessionEnd | SubagentStart => ThreadScope
  | _ => TurnScope
  end.

(** [None] is the [unreachable!] of executor-scoped handlers. *)
Definition running_summary (now : Z) (h : ConfiguredHandler) : option HookRunSummary :=
  match source_path h with
  | ExecutorScoped _ _ _ _ _ _ => None
  | Local path =>
      Some (mkHookRunSummary (builtin h) (run_id h) (event_name h) (handler_type h)
              (execution_mode h) (scope_for_event (event_name h)) path (source h)
              (display_order h) Running (status_message h) now None None [])
  end.
Definition completed_summary (h : ConfiguredHandler) (r : HandlerRunResult) (status : HookRunStatus)
    (entries : list HookOutputEntry) : option HookRunSummary :=
  match source_path h with
  | ExecutorScoped _ _ _ _ _ _ => None
  | Local path =>
      Some (mkHookRunSummary (builtin h) (run_id h) (event_name h) (handler_type h)
              (execution_mode h) (scope_for_event (event_name h)) path (source h)
              (display_order h) status (status_message h) (started_at r) (Some (completed_at r))
              (Some (duration_ms r)) entries)
  end.

(** [hook_run_for_tool_use] and [hook_completed_for_tool_use]. *)
Definition hook_run_for_tool_use (run : HookRunSummary) (tool_use_id : str) : HookRunSummary :=
  mkHookRunSummary (run_builtin run) (run_summary_id run ++ lit ":" ++ tool_use_id)
    (run_event_name run) (run_handler_type run) (run_execution_mode run) (run_scope run)
    (run_source_path run) (run_source run) (run_display_order run) (run_status run)
    (run_status_message run) (run_started_at run) (run_completed_at run) (run_duration_ms run)
    (run_entries run).
Definition hook_completed_for_tool_use (tool_use_id : str) (event : HookCompletedEvent)
  : HookCompletedEvent :=
  mkHookCompletedEvent (event_turn_id event) (hook_run_for_tool_use (event_run event) tool_use_id).

(** The failed run of a handler whose input cannot be written. *)
Definition failed_run (run : HookRunSummary) (error_message : str) : HookRunSummary :=
  mkHookRunSummary (run_builtin run) (run_summary_id run) (run_event_name run)
    (run_handler_type run) (run_execution_mode run) (run_scope run) (run_source_path run)
    (run_source run) (run_display_order run) Failed (run_status_message run) (run_started_at run)
    (Some (run_started_at run)) (Some 0%Z) [Entry ErrorEntry error_message].
Definition serialization_failure_hook_events (now : Z) (handlers : list ConfiguredHandler)
    (turn_id : option str) (error_message : str) : list HookCompletedEvent :=
  omap (λ h, (λ run, mkHookCompletedEvent turn_id (failed_run run error_message))
               <$> running_summary now h)
    (List.filter (λ h, negb (is_executor_scoped h)) handlers).
Definition serialization_failure_hook_events_for_tool_use (now : Z)
    (handlers : list ConfiguredHandler) (turn_id : option str) (error_message tool_use_id : str)
  : list HookCompletedEvent :=
  hook_completed_for_tool_use tool_use_id
    <$> serialization_failure_hook_events now handlers turn_id error_message.

(** ** Selection *)

Section selection.
Context `{RegexCrate}.

Definition selects (event : HookEventName) (inputs : list str) (h : ConfiguredHandler) : bool :=
  if negb (bool_decide (event_name h = event)) then false
  else if has_matcher event
  then match inputs with
       | [] => matches_matcher (matcher h) None
       | _ => existsb (λ input, matches_matcher (matcher h) (Some input)) inputs
       end
  else true.
Definition select_handlers_for_matcher_inputs (handlers : list ConfiguredHandler)
    (event : HookEventName) (inputs : list str) : list ConfiguredHandler :=
  List.filter (selects event inputs) handlers.
Definition select_handlers (handlers : list ConfiguredHandler) (event : HookEventName)
    (matcher_input : option str) : list ConfiguredHandler :=
  select_handlers_for_matcher_inputs handlers event (option_list matcher_input).
End selection.

(** ** Dispatch *)

(** What the environment decides: the answer of the handler at a position, the
    order in which running handlers finish, and the time. *)
Class HookRuntime := {
  run_handler : nat → ConfiguredHandler → str → HandlerRunResult;
  finish_order : list (nat * ConfiguredHandler) → list (nat * ConfiguredHandler);
  clock : Z;
  spill_answers : nat → SpillAnswer;
}.
(** [FuturesUnordered] yields the result of every future once. *)
Class HookRuntimeLaws `{HookRuntime} : Prop := {
  finish_order_perm l : finish_order l ≡ₚ l;
}.

Record ParsedHandler (T : Type) := mkParsed {
  completed : option HookCompletedEvent;
  data : T;
  completion_order : nat;
}.
Arguments mkParsed {T} _ _ _.
Arguments completed {T} _.
Arguments data {T} _.
Arguments completion_order {T} _.
Definition set_completion_order {T} (order : nat) (p : ParsedHandler T) : ParsedHandler T :=
  mkParsed (completed p) (data p) order.
Definition has_status {T} (status : HookRunStatus) (p : ParsedHandler T) : bool :=
  match completed p with
  | Some event => bool_decide (run_status (event_run event) = status)
  | None => false
  end.

(** [sort_by_key] on the configured order. *)
Fixpoint insert_by_key {A} (x : nat * A) (l : list (nat * A)) : list (nat * A) :=
  match l with
  | [] => [x]
  | y :: l' => if x.1 <=? y.1 then x :: l else y :: insert_by_key x l'
  end.
Definition sort_by_key {A} (l : list (nat * A)) : list (nat * A) := foldr insert_by_key [] l.

(** What a dispatch leaves behind: the results in configured order, and the
    handlers scheduled to run on their own. *)
Record Dispatched (T : Type) := mkDispatched {
  results : list (ParsedHandler T);
  scheduled_async : list ConfiguredHandler;
  scheduled_executor : list ConfiguredHandler;
}.
Arguments mkDispatched {T} _ _ _.
Arguments results {T} _.
Arguments scheduled_async {T} _.
Arguments scheduled_executor {T} _.

Section dispatch.
Context `{HookRuntime}.

Definition is_sync (h : ConfiguredHandler) : bool := can_apply_control_effects h.
Definition is_local_async (h : ConfiguredHandler) : bool :=
  negb (is_executor_scoped h) && bool_decide (execution_mode h = Async).

Definition execute_handlers {T} (handlers : list ConfiguredHandler) (input_json : str)
    (turn_id : option str)
    (parse : ConfiguredHandler → HandlerRunResult → option str → ParsedHandler T) : Dispatched T :=
  let executor_handlers := List.filter is_executor_scoped handlers in
  let async := List.filter is_local_async handlers in
  let pending := List.filter (λ p, is_sync p.2) (imap pair handlers) in
  let completed :=
    imap (λ completion_order '(configured_order, h),
      (configured_order,
       set_completion_order completion_order
         (parse h (run_handler configured_order h input_json) turn_id)))
      (finish_order pending) in
  let should_stop := existsb (λ p, has_status Stopped p.2) completed in
  let should_block := existsb (λ p, has_status Blocked p.2) completed in
  mkDispatched (sort_by_key completed).*2 async
    (if should_stop || negb should_block then executor_handlers else []).
End dispatch.

(** ** Results of asynchronous hooks ([schedule_async_hook]) *)

(** Only contexts, warnings and errors of an asynchronous hook are reported, the
    warnings last. *)
Fixpoint async_entries (answers : nat → SpillAnswer) (h : ConfiguredHandler)
    (entries : list HookOutputEntry) : option (list HookOutputEntry * list HookOutputEntry) :=
  match entries with
  | [] => Some ([], [])
  | e :: rest =>
      match entry_kind e with
      | ContextEntry =>
          text ← maybe_spill_text_with_limit (answers 0) (entry_text e) (additional_context_limit h);
          '(kept, warnings) ← async_entries (λ i, answers (S i)) h rest;
          Some (Entry ContextEntry text :: kept, warnings)
      | WarningEntry => '(kept, warnings) ← async_entries answers h rest; Some (kept, e :: warnings)
      | ErrorEntry => '(kept, warnings) ← async_entries answers h rest; Some (e :: kept, warnings)
      | StopEntry | FeedbackEntry => async_entries answers h rest
      end
  end.
Definition set_entries (entries : list HookOutputEntry) (run : HookRunSummary) : HookRunSummary :=
  mkHookRunSummary (run_builtin run) (run_summary_id run) (run_event_name run)
    (run_handler_type run) (run_execution_mode run) (run_scope run) (run_source_path run)
    (run_source run) (run_display_order run) (run_status run) (run_status_message run)
    (run_started_at run) (run_completed_at run) (run_duration_ms run) entries.
(** The event an asynchronous hook sends; MCP tools send none. *)
Definition finish_async_hook {T} (answers : nat → SpillAnswer) (h : ConfiguredHandler)
    (r : HandlerRunResult) (turn_id : option str)
    (parse : ConfiguredHandler → HandlerRunResult → option str → ParsedHandler T)
  : option HookCompletedEvent :=
  match kind h with
  | McpTool _ _ _ => None
  | Command _ _ _ =>
      event ← completed (parse h r turn_id);
      '(entries, warnings) ← async_entries answers h (run_entries (event_run event));
      Some (mkHookCompletedEvent (event_turn_id event)
              (set_entries (entries ++ warnings) (event_run event)))
  end.
End engine.
Arguments HandlerSourcePath : clear implicits.
Arguments ConfiguredHandlerKind : clear implicits.
Arguments ConfiguredHandler : clear implicits.
Arguments Dispatched : clear implicits.
Arguments HookRuntime : clear implicits.
Arguments mkParsed {T} _ _ _.
Arguments completed {T} _.
Arguments data {T} _.
Arguments completion_order {T} _.
Arguments mkDispatched {Json T} _ _ _.
Arguments results {Json T} _.
Arguments scheduled_async {Json T} _.
Arguments scheduled_executor {Json T} _.
