(* ===== verification/HookOutput.v ===== *)
(** * Hook outputs ([hooks/src/engine/output_parser.rs], [hooks/src/schema.rs])

    A hook answers on its standard output with a JSON object; each event reads
    its own form of it and refuses the fields it does not support.  Reading JSON
    is [serde]'s: the class [HookWires] has the documents and the conversion of a
    value to each wire type. *)
From stdpp Require Import numbers strings list.
From S2P Require Import Prelude RustStr Hooks.

(** ** Wire types *)

Record HookUniversalOutputWire := mkUniversalWire {
  wire_continue : bool;
  wire_stop_reason : option str;
  wire_suppress_output : bool;
  wire_system_message : option str;
}.
Inductive PreToolUsePermissionDecisionWire := AllowWire | DenyWire | AskWire.
Inductive PreToolUseDecisionWire := ApproveWire | BlockWire.
Inductive BlockDecisionWire := BlockDecision.
Inductive PermissionRequestBehaviorWire := AllowBehavior | DenyBehavior.

Section wires.
Context {Json : Type}.

Record PreToolUseHookSpecificOutputWire := mkPreToolUseSpecific {
  pre_hook_event_name : HookEventName;
  permission_decision : option PreToolUsePermissionDecisionWire;
  permission_decision_reason : option str;
  wire_updated_input : option Json;
  pre_additional_context : option str;
}.
Record PreToolUseCommandOutputWire := mkPreToolUseWire {
  pre_universal : HookUniversalOutputWire;
  pre_decision : option PreToolUseDecisionWire;
  pre_reason : option str;
  pre_hook_specific_output : option PreToolUseHookSpecificOutputWire;
}.

Record PermissionRequestDecisionWire := mkPermissionDecisionWire {
  behavior : PermissionRequestBehaviorWire;
  decision_updated_input : option Json;
  updated_permissions : option Json;
  message : option str;
  interrupt : bool;
}.
Record PermissionRequestHookSpecificOutputWire := mkPermissionSpecific {
  permission_hook_event_name : HookEventName;
  permission_wire_decision : option PermissionRequestDecisionWire;
}.
Record PermissionRequestCommandOutputWire := mkPermissionWire {
  permission_universal : HookUniversalOutputWire;
  permission_hook_specific_output : option PermissionRequestHookSpecificOutputWire;
}.

Record PostToolUseHookSpecificOutputWire := mkPostToolUseSpecific {
  post_hook_event_name : HookEventName;
  post_additional_context : option str;
  updated_mcp_tool_output : option Json;
}.
Record PostToolUseCommandOutputWire := mkPostToolUseWire {
  post_universal : HookUniversalOutputWire;
  post_decision : option BlockDecisionWire;
  post_reason : option str;
  post_hook_specific_output : option PostToolUseHookSpecificOutputWire;
}.
End wires.
Arguments PreToolUseHookSpecificOutputWire : clear implicits.
Arguments PreToolUseCommandOutputWire : clear implicits.
Arguments PermissionRequestDecisionWire : clear implicits.
Arguments PermissionRequestHookSpecificOutputWire : clear implicits.
Arguments PermissionRequestCommandOutputWire : clear implicits.
Arguments PostToolUseHookSpecificOutputWire : clear implicits.
Arguments PostToolUseCommandOutputWire : clear implicits.

(** [SessionStartHookSpecificOutputWire], and the same fields for
    [SubagentStart] and [UserPromptSubmit]. *)
Record ContextSpecificOutputWire := mkContextSpecific {
  context_hook_event_name : HookEventName;
  context_additional_context : option str;
}.
(** [SessionStartCommandOutputWire] and [SubagentStartCommandOutputWire]. *)
Record StartCommandOutputWire := mkStartWire {
  start_universal : HookUniversalOutputWire;
  start_hook_specific_output : option ContextSpecificOutputWire;
}.
Record UserPromptSubmitCommandOutputWire := mkPromptWire {
  prompt_universal : HookUniversalOutputWire;
  prompt_decision : option BlockDecisionWire;
  prompt_wire_reason : option str;
  prompt_hook_specific_output : option ContextSpecificOutputWire;
}.
(** [StopCommandOutputWire] and [SubagentStopCommandOutputWire]. *)
Record StopCommandOutputWire := mkStopWire {
  stop_wire_universal : HookUniversalOutputWire;
  stop_decision : option BlockDecisionWire;
  stop_wire_reason : option str;
}.
(** [PreCompactCommandOutputWire] and [PostCompactCommandOutputWire]. *)
Record CompactCommandOutputWire := mkCompactWire { compact_universal : HookUniversalOutputWire }.
Record InterruptCommandOutputWire := mkInterruptWire { interrupt_system_message : option str }.

(** [serde_json::from_str] and [serde_json::from_value]. *)
Class HookWires (Json : Type) := {
  json_from_str : str → option Json;
  json_is_object : Json → bool;
  pre_tool_use_from_value : Json → option (PreToolUseCommandOutputWire Json);
  permission_request_from_value : Json → option (PermissionRequestCommandOutputWire Json);
  post_tool_use_from_value : Json → option (PostToolUseCommandOutputWire Json);
  session_start_from_value : Json → option StartCommandOutputWire;
  subagent_start_from_value : Json → option StartCommandOutputWire;
  user_prompt_submit_from_value : Json → option UserPromptSubmitCommandOutputWire;
  stop_from_value : Json → option StopCommandOutputWire;
  subagent_stop_from_value : Json → option StopCommandOutputWire;
  pre_compact_from_value : Json → option CompactCommandOutputWire;
  post_compact_from_value : Json → option CompactCommandOutputWire;
  interrupt_from_value : Json → option InterruptCommandOutputWire;
}.

(** ** Parsed outputs *)

Record UniversalOutput := mkUniversal {
  continue_processing : bool;
  stop_reason : option str;
  suppress_output : bool;
  system_message : option str;
}.
Definition universal_from (value : HookUniversalOutputWire) : UniversalOutput :=
  mkUniversal (wire_continue value) (wire_stop_reason value) (wire_suppress_output value)
    (wire_system_message value).

Record SessionStartOutput := mkSessionStartOutput {
  session_universal : UniversalOutput;
  session_additional_context : option str;
}.
Record PreToolUseOutput (Json : Type) := mkPreToolUseOutput {
  pre_out_universal : UniversalOutput;
  block_reason : option str;
  additional_context : option str;
  updated_input : option Json;
  pre_invalid_reason : option str;
}.
Arguments mkPreToolUseOutput {Json} _ _ _ _ _.
Arguments pre_out_universal {Json} _.
Arguments block_reason {Json} _.
Arguments additional_context {Json} _.
Arguments updated_input {Json} _.
Arguments pre_invalid_reason {Json} _.
Inductive PermissionRequestDecision := Allow | Deny (message : str).
#[global] Instance PermissionRequestDecision_eq_dec : EqDecision PermissionRequestDecision.
Proof. solve_decision. Defined.
Record PermissionRequestOutput := mkPermissionRequestOutput {
  permission_out_universal : UniversalOutput;
  decision : option PermissionRequestDecision;
  permission_invalid_reason : option str;
}.
Record PostToolUseOutput := mkPostToolUseOutput {
  post_out_universal : UniversalOutput;
  post_should_block : bool;
  post_out_reason : option str;
  post_invalid_block_reason : option str;
  post_out_context : option str;
  post_invalid_reason : option str;
}.
Record UserPromptSubmitOutput := mkUserPromptSubmitOutput {
  prompt_out_universal : UniversalOutput;
  prompt_should_block : bool;
  prompt_reason : option str;
  prompt_invalid_block_reason : option str;
  prompt_context : option str;
}.
Record StopOutput := mkStopOutput {
  stop_universal : UniversalOutput;
  stop_should_block : bool;
  stop_out_reason : option str;
  stop_invalid_block_reason : option str;
}.
Record StatelessHookOutput := mkStatelessOutput {
  stateless_universal : UniversalOutput;
  stateless_invalid_reason : option str;
}.
Record InterruptOutput := mkInterruptOutput { interrupt_message : option str }.

(** ** Refused fields *)

Definition is_Some_b {A} (o : option A) : bool := match o with Some _ => true | None => false end.
Definition trimmed_reason (reason : str) : option str :=
  let trimmed := trim reason in if str_eqb trimmed [] then None else Some trimmed.
Definition looks_like_json (stdout : str) : bool :=
  let trimmed := trim_start stdout in starts_with (lit "{") trimmed || starts_with (lit "[") trimmed.
Definition invalid_block_message (event_name : str) : str :=
  event_name ++ lit " hook returned decision:block without a non-empty reason".
Definition invalid_pre_tool_use_reason_message : str :=
  lit "PreToolUse hook returned permissionDecision:deny without a non-empty permissionDecisionReason".

Definition unsupported_pre_tool_use_universal (universal : UniversalOutput) : option str :=
  if negb (continue_processing universal)
  then Some (lit "PreToolUse hook returned unsupported continue:false")
  else if is_Some_b (stop_reason universal)
  then Some (lit "PreToolUse hook returned unsupported stopReason")
  else if suppress_output universal
  then Some (lit "PreToolUse hook returned unsupported suppressOutput")
  else None.
Definition unsupported_permission_request_universal (universal : UniversalOutput) : option str :=
  if negb (continue_processing universal)
  then Some (lit "PermissionRequest hook returned unsupported continue:false")
  else if is_Some_b (stop_reason universal)
  then Some (lit "PermissionRequest hook returned unsupported stopReason")
  else if suppress_output universal
  then Some (lit "PermissionRequest hook returned unsupported suppressOutput")
  else None.
Definition unsupported_post_tool_use_universal (universal : UniversalOutput) : option str :=
  if suppress_output universal
  then Some (lit "PostToolUse hook returned unsupported suppressOutput") else None.

(** The block is refused when its reason is missing or blank. *)
Definition blank_reason (reason : option str) : bool :=
  match reason with Some reason => str_eqb (trim reason) [] | None => true end.

Definition or_else {A} (o : option A) (d : option A) : option A :=
  match o with Some x => Some x | None => d end.

(** ** Parsers *)

Section parsers.
Context {Json : Type} `{!HookWires Json}.

Definition unsupported_permission_request_hook_specific_output
    (decision : option (PermissionRequestDecisionWire Json)) : option str :=
  decision ← decision;
  if is_Some_b (decision_updated_input decision)
  then Some (lit "PermissionRequest hook returned unsupported updatedInput")
  else if is_Some_b (updated_permissions decision)
  then Some (lit "PermissionRequest hook returned unsupported updatedPermissions")
  else if interrupt decision
  then Some (lit "PermissionRequest hook returned unsupported interrupt:true")
  else None.

Definition permission_request_decision (d : PermissionRequestDecisionWire Json)
  : PermissionRequestDecision :=
  match behavior d with
  | AllowBehavior => Allow
  | DenyBehavior =>
      Deny (default (lit "PermissionRequest hook denied approval") (message d ≫= trimmed_reason))
  end.

Definition unsupported_post_tool_use_hook_specific_output
    (output : PostToolUseHookSpecificOutputWire Json) : option str :=
  if is_Some_b (updated_mcp_tool_output output)
  then Some (lit "PostToolUse hook returned unsupported updatedMCPToolOutput") else None.

Definition is_allow (d : option PreToolUsePermissionDecisionWire) : bool :=
  match d with Some AllowWire => true | _ => false end.
Definition unsupported_pre_tool_use_hook_specific_output
    (output : PreToolUseHookSpecificOutputWire Json) : option str :=
  if is_Some_b (wire_updated_input output) && negb (is_allow (permission_decision output))
  then Some (lit "PreToolUse hook returned updatedInput without permissionDecision:allow")
  else match permission_decision output with
       | Some AllowWire =>
           if is_Some_b (wire_updated_input output) then None
           else Some (lit "PreToolUse hook returned unsupported permissionDecision:allow")
       | Some AskWire => Some (lit "PreToolUse hook returned unsupported permissionDecision:ask")
       | Some DenyWire =>
           match permission_decision_reason output ≫= trimmed_reason with
           | None => Some invalid_pre_tool_use_reason_message
           | Some _ => None
           end
       | None =>
           if is_Some_b (permission_decision_reason output)
           then Some (lit "PreToolUse hook returned permissionDecisionReason without permissionDecision")
           else None
       end.

Definition unsupported_pre_tool_use_legacy_decision (decision : option PreToolUseDecisionWire)
    (reason : option str) : option str :=
  match decision with
  | Some ApproveWire => Some (lit "PreToolUse hook returned unsupported decision:approve")
  | Some BlockWire =>
      match reason ≫= trimmed_reason with
      | None => Some (invalid_block_message (lit "PreToolUse"))
      | Some _ => None
      end
  | None =>
      if is_Some_b reason then Some (lit "PreToolUse hook returned reason without decision") else None
  end.

(** [parse_json]. *)
Definition parse_json {T} (from_value : Json → option T) (stdout : str) : option T :=
  let trimmed := trim stdout in
  if str_eqb trimmed [] then None
  else value ← json_from_str trimmed;
       if negb (json_is_object value) then None else from_value value.

Definition use_hook_specific_decision (output : PreToolUseHookSpecificOutputWire Json) : bool :=
  is_Some_b (permission_decision output) || is_Some_b (permission_decision_reason output)
  || is_Some_b (wire_updated_input output).

Definition pre_tool_use_output (wire : PreToolUseCommandOutputWire Json) : PreToolUseOutput Json :=
  let universal := universal_from (pre_universal wire) in
  let specific := pre_hook_specific_output wire in
  let additional_context := specific ≫= pre_additional_context in
  let specific_decision :=
    match specific with Some output => use_hook_specific_decision output | None => false end in
  let invalid_reason :=
    or_else (unsupported_pre_tool_use_universal universal)
      (if specific_decision then specific ≫= unsupported_pre_tool_use_hook_specific_output
       else unsupported_pre_tool_use_legacy_decision (pre_decision wire) (pre_reason wire)) in
  let block_reason :=
    match invalid_reason with
    | Some _ => None
    | None =>
        if specific_decision
        then specific ≫= λ output,
               match permission_decision output with
               | Some DenyWire => permission_decision_reason output ≫= trimmed_reason
               | _ => None
               end
        else match pre_decision wire with
             | Some BlockWire => pre_reason wire ≫= trimmed_reason
             | Some ApproveWire | None => None
             end
    end in
  let updated_input :=
    match invalid_reason with
    | Some _ => None
    | None => specific ≫= λ output,
                if is_allow (permission_decision output) then wire_updated_input output else None
    end in
  mkPreToolUseOutput universal block_reason additional_context updated_input invalid_reason.
Definition parse_pre_tool_use (stdout : str) : option (PreToolUseOutput Json) :=
  pre_tool_use_output <$> parse_json pre_tool_use_from_value stdout.

Definition permission_request_output (wire : PermissionRequestCommandOutputWire Json)
  : PermissionRequestOutput :=
  let universal := universal_from (permission_universal wire) in
  let specific := permission_hook_specific_output wire in
  let decision := specific ≫= permission_wire_decision in
  let invalid_reason :=
    or_else (unsupported_permission_request_universal universal)
      (specific ≫= λ output,
         unsupported_permission_request_hook_specific_output (permission_wire_decision output)) in
  mkPermissionRequestOutput universal
    (match invalid_reason with
     | None => permission_request_decision <$> decision
     | Some _ => None
     end) invalid_reason.
Definition parse_permission_request (stdout : str) : option PermissionRequestOutput :=
  permission_request_output <$> parse_json permission_request_from_value stdout.

Definition post_tool_use_output (wire : PostToolUseCommandOutputWire Json) : PostToolUseOutput :=
  let universal := universal_from (post_universal wire) in
  let invalid_reason :=
    or_else (unsupported_post_tool_use_universal universal)
      (post_hook_specific_output wire ≫= unsupported_post_tool_use_hook_specific_output) in
  let should_block := is_Some_b (post_decision wire) in
  let invalid_block_reason :=
    if should_block && blank_reason (post_reason wire)
    then Some (invalid_block_message (lit "PostToolUse"))
    else if negb should_block && continue_processing universal && is_Some_b (post_reason wire)
    then Some (lit "PostToolUse hook returned reason without decision")
    else None in
  mkPostToolUseOutput universal
    (should_block && negb (is_Some_b invalid_reason) && negb (is_Some_b invalid_block_reason))
    (post_reason wire) invalid_block_reason
    (post_hook_specific_output wire ≫= post_additional_context) invalid_reason.
Definition parse_post_tool_use (stdout : str) : option PostToolUseOutput :=
  post_tool_use_output <$> parse_json post_tool_use_from_value stdout.

Definition session_start_output (wire : StartCommandOutputWire) : SessionStartOutput :=
  mkSessionStartOutput (universal_from (start_universal wire))
    (start_hook_specific_output wire ≫= context_additional_context).
Definition parse_session_start (stdout : str) : option SessionStartOutput :=
  session_start_output <$> parse_json session_start_from_value stdout.
Definition parse_subagent_start (stdout : str) : option SessionStartOutput :=
  session_start_output <$> parse_json subagent_start_from_value stdout.

Definition parse_pre_compact (stdout : str) : option StatelessHookOutput :=
  (λ wire, mkStatelessOutput (universal_from (compact_universal wire)) None)
    <$> parse_json pre_compact_from_value stdout.
Definition parse_post_compact (stdout : str) : option StatelessHookOutput :=
  (λ wire, mkStatelessOutput (universal_from (compact_universal wire)) None)
    <$> parse_json post_compact_from_value stdout.
Definition parse_interrupt (stdout : str) : option InterruptOutput :=
  (λ wire, mkInterruptOutput (interrupt_system_message wire))
    <$> parse_json interrupt_from_value stdout.

Definition user_prompt_submit_output (wire : UserPromptSubmitCommandOutputWire)
  : UserPromptSubmitOutput :=
  let should_block := is_Some_b (prompt_decision wire) in
  let invalid_block_reason :=
    if should_block && blank_reason (prompt_wire_reason wire)
    then Some (invalid_block_message (lit "UserPromptSubmit")) else None in
  mkUserPromptSubmitOutput (universal_from (prompt_universal wire))
    (should_block && negb (is_Some_b invalid_block_reason)) (prompt_wire_reason wire)
    invalid_block_reason (prompt_hook_specific_output wire ≫= context_additional_context).
Definition parse_user_prompt_submit (stdout : str) : option UserPromptSubmitOutput :=
  user_prompt_submit_output <$> parse_json user_prompt_submit_from_value stdout.

Definition stop_output (wire : StopCommandOutputWire) (event_name : str) : StopOutput :=
  let should_block := is_Some_b (stop_decision wire) in
  let invalid_block_reason :=
    if should_block && blank_reason (stop_wire_reason wire)
    then Some (invalid_block_message event_name) else None in
  mkStopOutput (universal_from (stop_wire_universal wire))
    (should_block && negb (is_Some_b invalid_block_reason)) (stop_wire_reason wire)
    invalid_block_reason.
Definition parse_stop (stdout : str) : option StopOutput :=
  (λ wire, stop_output wire (lit "Stop")) <$> parse_json stop_from_value stdout.
Definition parse_subagent_stop (stdout : str) : option StopOutput :=
  (λ wire, stop_output wire (lit "SubagentStop")) <$> parse_json subagent_stop_from_value stdout.
End parsers.
