(* ===== verification/HookEvents.v ===== *)
(** * Hook events ([hooks/src/events])

    For each event: which handlers run, how the answer of one is read
    ([parse_completed] of the event's file) and how the answers are put
    together.  Serialising the input of a hook is [serde]'s, a class. *)
From stdpp Require Import numbers strings list.
From S2P Require Import Prelude RustStr Truncate Hooks HookOutput.

(** ** Requests and inputs *)

Record SubagentHookContext := mkSubagent { agent_id : str; agent_type : str }.

Section requests.
Context {Json : Type}.

Record PreToolUseRequest := mkPreToolUseRequest {
  pre_session_id : str;
  pre_turn_id : str;
  pre_subagent : option SubagentHookContext;
  pre_cwd : str;
  pre_transcript_path : option str;
  pre_model : str;
  pre_permission_mode : str;
  pre_tool_name : str;
  pre_matcher_aliases : list str;
  pre_tool_use_id : str;
  pre_tool_input : Json;
}.
Record PermissionRequestRequest := mkPermissionRequestRequest {
  per_session_id : str;
  per_turn_id : str;
  per_subagent : option SubagentHookContext;
  per_cwd : str;
  per_transcript_path : option str;
  per_model : str;
  per_permission_mode : str;
  per_tool_name : str;
  per_matcher_aliases : list str;
  per_run_id_suffix : str;
  per_tool_input : Json;
}.
Record PostToolUseRequest := mkPostToolUseRequest {
  post_session_id : str;
  post_turn_id : str;
  post_subagent : option SubagentHookContext;
  post_cwd : str;
  post_transcript_path : option str;
  post_model : str;
  post_permission_mode : str;
  post_tool_name : str;
  post_matcher_aliases : list str;
  post_tool_use_id : str;
  post_tool_input : Json;
  post_tool_response : Json;
}.
End requests.
Arguments PreToolUseRequest : clear implicits.
Arguments PermissionRequestRequest : clear implicits.
Arguments PostToolUseRequest : clear implicits.

Record UserPromptSubmitRequest := mkUserPromptSubmitRequest {
  prompt_session_id : str;
  prompt_turn_id : str;
  prompt_subagent : option SubagentHookContext;
  prompt_cwd : str;
  prompt_transcript_path : option str;
  prompt_model : str;
  prompt_permission_mode : str;
  prompt_text : str;
}.
(** [PreCompactRequest] and [PostCompactRequest]. *)
Record CompactRequest := mkCompactRequest {
  compact_session_id : str;
  compact_turn_id : str;
  compact_subagent : option SubagentHookContext;
  compact_cwd : str;
  compact_transcript_path : option str;
  compact_model : str;
  compact_trigger : str;
}.
Inductive StopHookTarget :=
  | StopTarget
  | MemoryConsolidation
  | SubagentStopTarget (agent_id agent_type : str) (agent_transcript_path : option str).
Record StopRequest := mkStopRequest {
  stop_session_id : str;
  stop_turn_id : str;
  stop_cwd : str;
  stop_transcript_path : option str;
  stop_model : str;
  stop_permission_mode : str;
  stop_hook_active : bool;
  last_assistant_message : option str;
  target : StopHookTarget;
}.
Inductive StartHookTarget :=
  | SessionStartTarget (source : str)
  | SubagentStartTarget (turn_id agent_id agent_type : str).
Record SessionStartRequest := mkSessionStartRequest {
  start_session_id : str;
  start_cwd : str;
  start_transcript_path : option str;
  start_model : str;
  start_permission_mode : str;
  start_target : StartHookTarget;
}.
Record InterruptRequest := mkInterruptRequest {
  int_session_id : str;
  int_turn_id : str;
  int_cwd : str;
  int_transcript_path : option str;
  int_model : str;
  int_permission_mode : str;
}.
Record SessionEndRequest := mkSessionEndRequest {
  end_session_id : str;
  end_turn_id : str;
  end_cwd : str;
  end_transcript_path : option str;
}.

(** [serde_json::to_string] of the command input each request gives. *)
Class HookInputs (Json : Type) := {
  pre_tool_use_json : PreToolUseRequest Json → result str str;
  permission_request_json : PermissionRequestRequest Json → result str str;
  post_tool_use_json : PostToolUseRequest Json → result str str;
  user_prompt_submit_json : UserPromptSubmitRequest → result str str;
  pre_compact_json : CompactRequest → result str str;
  post_compact_json : CompactRequest → result str str;
  stop_json : StopRequest → result str str;
  session_start_json : SessionStartRequest → result str str;
  interrupt_json : InterruptRequest → result str str;
  session_end_json : SessionEndRequest → result str str;
}.

(** ** Reading one answer *)

Definition error_entry (text : str) : HookOutputEntry := Entry ErrorEntry text.
Definition warning_entries (u : UniversalOutput) : list HookOutputEntry :=
  match system_message u with Some text => [Entry WarningEntry text] | None => [] end.
Definition exited_with (code : Z) : str := lit "hook exited with code " ++ fmt_Z code.
Definition without_status : str := lit "hook exited without a status code".
Definition without_exit_code : str := lit "hook process terminated without an exit code".

Record PreToolUseHandlerData (Json : Type) := mkPreData {
  pre_should_block : bool;
  pre_block_reason : option str;
  pre_contexts : list AdditionalContext;
  pre_updated_input : option Json;
}.
Arguments mkPreData {Json} _ _ _ _.
Arguments pre_should_block {Json} _.
Arguments pre_block_reason {Json} _.
Arguments pre_contexts {Json} _.
Arguments pre_updated_input {Json} _.
Definition no_pre_data {Json} : PreToolUseHandlerData Json := mkPreData false None [] None.

Record PostToolUseHandlerData := mkPostData {
  post_data_should_block : bool;
  post_contexts : list AdditionalContext;
  feedback_messages : list str;
}.
(** The data of [UserPromptSubmit], [SessionStart] and the compaction events. *)
Record StopOrContextData := mkStopOrContext {
  data_should_stop : bool;
  data_stop_reason : option str;
  data_contexts : list AdditionalContext;
}.
Record HookPromptFragment := mkFragment { fragment_text : str; hook_run_id : str }.
Record StopHandlerData := mkStopData {
  sd_should_stop : bool;
  sd_stop_reason : option str;
  sd_should_block : bool;
  sd_block_reason : option str;
  sd_fragments : list HookPromptFragment;
}.

Section events.
Context {Json : Type} `{!HookWires Json}.
Implicit Types (h : ConfiguredHandler Json) (r : HandlerRunResult).

Definition parsed_event {T} h r (turn_id : option str) (status : HookRunStatus)
    (entries : list HookOutputEntry) (data : T) : ParsedHandler T :=
  mkParsed (mkHookCompletedEvent turn_id <$> completed_summary h r status entries) data 0.

(** The context of an answer, when there is one to add. *)
Definition with_context h (entries : list HookOutputEntry) (context : option str)
  : list HookOutputEntry * list AdditionalContext :=
  match context with
  | Some text => append_additional_context entries [] h text
  | None => (entries, [])
  end.

(** *** [events/pre_tool_use.rs] *)

Definition parse_completed_pre_tool_use h r (turn_id : option str)
  : ParsedHandler (PreToolUseHandlerData Json) :=
  let fail text := parsed_event h r turn_id Failed [error_entry text] no_pre_data in
  match error r with
  | Some e => fail e
  | None =>
      match exit_code r with
      | Some 0%Z =>
          if str_eqb (trim (stdout r)) [] then parsed_event h r turn_id Completed [] no_pre_data
          else match parse_pre_tool_use (stdout r) with
          | Some parsed =>
              let entries := warning_entries (pre_out_universal parsed) in
              let '(entries, contexts) :=
                if negb (can_apply_control_effects h) || negb (is_Some_b (pre_invalid_reason parsed))
                then with_context h entries (additional_context parsed) else (entries, []) in
              if can_apply_control_effects h then
                match pre_invalid_reason parsed with
                | Some invalid => parsed_event h r turn_id Failed (entries ++ [error_entry invalid])
                                    (mkPreData false None contexts None)
                | None =>
                    match block_reason parsed with
                    | Some reason =>
                        parsed_event h r turn_id Blocked (entries ++ [Entry FeedbackEntry reason])
                          (mkPreData true (Some reason) contexts None)
                    | None => parsed_event h r turn_id Completed entries
                                (mkPreData false None contexts (updated_input parsed))
                    end
                end
              else parsed_event h r turn_id Completed entries (mkPreData false None contexts None)
          | None =>
              if looks_like_json (stdout r)
              then fail (lit "hook returned invalid pre-tool-use JSON output")
              else parsed_event h r turn_id Completed [] no_pre_data
          end
      | Some code =>
          if (code =? 2)%Z && can_apply_control_effects h then
            match trimmed_non_empty (stderr r) with
            | Some reason => parsed_event h r turn_id Blocked [Entry FeedbackEntry reason]
                               (mkPreData true (Some reason) [] None)
            | None => fail (lit "PreToolUse hook exited with code 2 but did not write a blocking reason to stderr")
            end
          else fail (exited_with code)
      | None => fail without_status
      end
  end.

(** *** [events/permission_request.rs] *)

Definition parse_completed_permission_request h r (turn_id : option str)
  : ParsedHandler (option PermissionRequestDecision) :=
  let fail text := parsed_event h r turn_id Failed [error_entry text] None in
  match error r with
  | Some e => fail e
  | None =>
      match exit_code r with
      | Some 0%Z =>
          if str_eqb (trim (stdout r)) [] then parsed_event h r turn_id Completed [] None
          else match parse_permission_request (stdout r) with
          | Some parsed =>
              let entries := warning_entries (permission_out_universal parsed) in
              if can_apply_control_effects h then
                match permission_invalid_reason parsed with
                | Some invalid =>
                    parsed_event h r turn_id Failed (entries ++ [error_entry invalid]) None
                | None =>
                    match decision parsed with
                    | Some Allow => parsed_event h r turn_id Completed entries (Some Allow)
                    | Some (Deny message) =>
                        parsed_event h r turn_id Blocked (entries ++ [Entry FeedbackEntry message])
                          (Some (Deny message))
                    | None => parsed_event h r turn_id Completed entries None
                    end
                end
              else parsed_event h r turn_id Completed entries None
          | None =>
              if looks_like_json (stdout r)
              then fail (lit "hook returned invalid permission-request JSON output")
              else parsed_event h r turn_id Completed [] None
          end
      | Some code =>
          if (code =? 2)%Z && can_apply_control_effects h then
            match trimmed_non_empty (stderr r) with
            | Some message => parsed_event h r turn_id Blocked [Entry FeedbackEntry message]
                                (Some (Deny message))
            | None => fail (lit "PermissionRequest hook exited with code 2 but did not write a denial reason to stderr")
            end
          else fail (exited_with code)
      | None => fail without_status
      end
  end.

(** *** [events/post_tool_use.rs] *)

Definition parse_completed_post_tool_use h r (turn_id : option str)
  : ParsedHandler PostToolUseHandlerData :=
  let fail text := parsed_event h r turn_id Failed [error_entry text] (mkPostData false [] []) in
  match error r with
  | Some e => fail e
  | None =>
      match exit_code r with
      | Some 0%Z =>
          if str_eqb (trim (stdout r)) []
          then parsed_event h r turn_id Completed [] (mkPostData false [] [])
          else match parse_post_tool_use (stdout r) with
          | Some parsed =>
              let universal := post_out_universal parsed in
              let entries := warning_entries universal in
              let '(entries, contexts) :=
                if negb (can_apply_control_effects h)
                   || (negb (is_Some_b (post_invalid_reason parsed))
                       && negb (is_Some_b (post_invalid_block_reason parsed)))
                then with_context h entries (post_out_context parsed) else (entries, []) in
              if negb (can_apply_control_effects h)
              then parsed_event h r turn_id Completed entries (mkPostData false contexts [])
              else if negb (continue_processing universal) then
                let stop_text :=
                  default (lit "PostToolUse hook stopped execution") (stop_reason universal) in
                parsed_event h r turn_id Stopped (entries ++ [Entry StopEntry stop_text])
                  (mkPostData false contexts
                     [default stop_text (post_out_reason parsed ≫= trimmed_non_empty)])
              else match or_else (post_invalid_reason parsed) (post_invalid_block_reason parsed) with
              | Some invalid => parsed_event h r turn_id Failed (entries ++ [error_entry invalid])
                                  (mkPostData false contexts [])
              | None =>
                  if post_should_block parsed then
                    match post_out_reason parsed with
                    | Some reason =>
                        parsed_event h r turn_id Blocked (entries ++ [Entry FeedbackEntry reason])
                          (mkPostData true contexts [reason])
                    | None => parsed_event h r turn_id Blocked entries (mkPostData true contexts [])
                    end
                  else parsed_event h r turn_id Completed entries (mkPostData false contexts [])
              end
          | None =>
              if looks_like_json (stdout r)
              then fail (lit "hook returned invalid post-tool-use JSON output")
              else parsed_event h r turn_id Completed [] (mkPostData false [] [])
          end
      | Some code =>
          if (code =? 2)%Z && can_apply_control_effects h then
            match trimmed_non_empty (stderr r) with
            | Some reason => parsed_event h r turn_id Blocked [Entry FeedbackEntry reason]
                               (mkPostData true [] [reason])
            | None => fail (lit "PostToolUse hook exited with code 2 but did not write feedback to stderr")
            end
          else fail (exited_with code)
      | None => fail without_status
      end
  end.

(** *** [events/user_prompt_submit.rs] *)

(** The entry of a stop reason, when there is one. *)
Definition stop_entries (reason : option str) : list HookOutputEntry :=
  match reason with Some text => [Entry StopEntry text] | None => [] end.

Definition parse_completed_user_prompt_submit h r (turn_id : option str)
  : ParsedHandler StopOrContextData :=
  let fail text := parsed_event h r turn_id Failed [error_entry text] (mkStopOrContext false None []) in
  match error r with
  | Some e => fail e
  | None =>
      match exit_code r with
      | Some 0%Z =>
          let trimmed := trim (stdout r) in
          if str_eqb trimmed []
          then parsed_event h r turn_id Completed [] (mkStopOrContext false None [])
          else match parse_user_prompt_submit (stdout r) with
          | Some parsed =>
              let universal := prompt_out_universal parsed in
              let entries := warning_entries universal in
              let '(entries, contexts) :=
                if negb (can_apply_control_effects h)
                   || negb (is_Some_b (prompt_invalid_block_reason parsed))
                then with_context h entries (prompt_context parsed) else (entries, []) in
              if negb (can_apply_control_effects h)
              then parsed_event h r turn_id Completed entries (mkStopOrContext false None contexts)
              else if negb (continue_processing universal)
              then parsed_event h r turn_id Stopped (entries ++ stop_entries (stop_reason universal))
                     (mkStopOrContext true (stop_reason universal) contexts)
              else match prompt_invalid_block_reason parsed with
              | Some invalid => parsed_event h r turn_id Failed (entries ++ [error_entry invalid])
                                  (mkStopOrContext false None contexts)
              | None =>
                  if prompt_should_block parsed
                  then parsed_event h r turn_id Blocked
                         (entries ++ match prompt_reason parsed with
                                     | Some reason => [Entry FeedbackEntry reason]
                                     | None => []
                                     end)
                         (mkStopOrContext true (prompt_reason parsed) contexts)
                  else parsed_event h r turn_id Completed entries (mkStopOrContext false None contexts)
              end
          | None =>
              if looks_like_json (stdout r)
              then fail (lit "hook returned invalid user prompt submit JSON output")
              else let '(entries, contexts) := append_additional_context [] [] h trimmed in
                   parsed_event h r turn_id Completed entries (mkStopOrContext false None contexts)
          end
      | Some code =>
          if (code =? 2)%Z && can_apply_control_effects h then
            match trimmed_non_empty (stderr r) with
            | Some reason => parsed_event h r turn_id Blocked [Entry FeedbackEntry reason]
                               (mkStopOrContext true (Some reason) [])
            | None => fail (lit "UserPromptSubmit hook exited with code 2 but did not write a blocking reason to stderr")
            end
          else fail (exited_with code)
      | None => fail without_status
      end
  end.

(** *** [events/compact.rs] *)

Definition parse_completed_compact (event_label : str)
    (parse_output : str → option StatelessHookOutput) h r (turn_id : option str)
  : ParsedHandler StopOrContextData :=
  let fail text := parsed_event h r turn_id Failed [error_entry text] (mkStopOrContext false None []) in
  match error r with
  | Some e => fail e
  | None =>
      match exit_code r with
      | Some 0%Z =>
          if str_eqb (trim (stdout r)) []
          then parsed_event h r turn_id Completed [] (mkStopOrContext false None [])
          else match parse_output (stdout r) with
          | Some parsed =>
              let universal := stateless_universal parsed in
              let entries := warning_entries universal in
              if negb (can_apply_control_effects h)
              then parsed_event h r turn_id Completed entries (mkStopOrContext false None [])
              else if negb (continue_processing universal)
              then parsed_event h r turn_id Stopped
                     (entries ++ [Entry StopEntry (default (event_label ++ lit " hook stopped execution")
                                                     (stop_reason universal))])
                     (mkStopOrContext true (stop_reason universal) [])
              else match stateless_invalid_reason parsed with
              | Some invalid => parsed_event h r turn_id Failed (entries ++ [error_entry invalid])
                                  (mkStopOrContext false None [])
              | None => parsed_event h r turn_id Completed entries (mkStopOrContext false None [])
              end
          | None =>
              if looks_like_json (stdout r)
              then fail (lit "hook returned invalid " ++ event_label ++ lit " hook JSON output")
              else parsed_event h r turn_id Completed [] (mkStopOrContext false None [])
          end
      | Some code => fail (default (exited_with code) (trimmed_non_empty (stderr r)))
      | None => fail without_exit_code
      end
  end.
Definition parse_pre_completed h r (turn_id : option str) : ParsedHandler StopOrContextData :=
  parse_completed_compact (lit "PreCompact") parse_pre_compact h r turn_id.
Definition parse_post_completed h r (turn_id : option str) : ParsedHandler StopOrContextData :=
  parse_completed_compact (lit "PostCompact") parse_post_compact h r turn_id.

(** *** [events/session_start.rs]; handlers of other events are not selected *)

Definition parse_completed_start h r (turn_id : option str) : ParsedHandler StopOrContextData :=
  let is_session := bool_decide (event_name h = SessionStart) in
  let fail text := parsed_event h r turn_id Failed [error_entry text] (mkStopOrContext false None []) in
  match error r with
  | Some e => fail e
  | None =>
      match exit_code r with
      | Some 0%Z =>
          let trimmed := trim (stdout r) in
          if str_eqb trimmed []
          then parsed_event h r turn_id Completed [] (mkStopOrContext false None [])
          else match (if is_session then parse_session_start else parse_subagent_start) (stdout r) with
          | Some parsed =>
              let universal := session_universal parsed in
              let '(entries, contexts) :=
                with_context h (warning_entries universal) (session_additional_context parsed) in
              if can_apply_control_effects h && is_session && negb (continue_processing universal)
              then parsed_event h r turn_id Stopped (entries ++ stop_entries (stop_reason universal))
                     (mkStopOrContext true (stop_reason universal) contexts)
              else parsed_event h r turn_id Completed entries (mkStopOrContext false None contexts)
          | None =>
              if looks_like_json (stdout r)
              then fail (if is_session then lit "hook returned invalid session start JSON output"
                         else lit "hook returned invalid subagent start JSON output")
              else let '(entries, contexts) := append_additional_context [] [] h trimmed in
                   parsed_event h r turn_id Completed entries (mkStopOrContext false None contexts)
          end
      | Some code => fail (exited_with code)
      | None => fail without_status
      end
  end.

(** *** [events/stop.rs]; handlers of other events are not selected *)

Definition no_stop_data : StopHandlerData := mkStopData false None false None [].
(** A block with its reason, which continues the turn. *)
Definition stop_block h r (turn_id : option str) (entries : list HookOutputEntry) (reason : str)
  : ParsedHandler StopHandlerData :=
  let summary := completed_summary h r Blocked (entries ++ [Entry FeedbackEntry reason]) in
  mkParsed (mkHookCompletedEvent turn_id <$> summary)
    (mkStopData false None true (Some reason)
       (match summary with Some run => [mkFragment reason (run_summary_id run)] | None => [] end)) 0.

Definition parse_completed_stop h r (turn_id : option str) : ParsedHandler StopHandlerData :=
  let is_stop := bool_decide (event_name h = StopEvent) in
  let fail text := parsed_event h r turn_id Failed [error_entry text] no_stop_data in
  match error r with
  | Some e => fail e
  | None =>
      match exit_code r with
      | Some 0%Z =>
          if str_eqb (trim (stdout r)) [] then parsed_event h r turn_id Completed [] no_stop_data
          else match (if is_stop then parse_stop else parse_subagent_stop) (stdout r) with
          | Some parsed =>
              let universal := stop_universal parsed in
              let entries := warning_entries universal in
              if negb (can_apply_control_effects h)
              then parsed_event h r turn_id Completed entries no_stop_data
              else if negb (continue_processing universal)
              then parsed_event h r turn_id Stopped (entries ++ stop_entries (stop_reason universal))
                     (mkStopData true (stop_reason universal) false None [])
              else match stop_invalid_block_reason parsed with
              | Some invalid =>
                  parsed_event h r turn_id Failed (entries ++ [error_entry invalid]) no_stop_data
              | None =>
                  match (if stop_should_block parsed
                         then stop_out_reason parsed ≫= trimmed_non_empty else None) with
                  | Some reason => stop_block h r turn_id entries reason
                  | None => parsed_event h r turn_id Completed entries no_stop_data
                  end
              end
          | None =>
              if can_apply_control_effects h || looks_like_json (stdout r)
              then fail (if is_stop then lit "hook returned invalid stop hook JSON output"
                         else lit "hook returned invalid subagent stop hook JSON output")
              else parsed_event h r turn_id Completed [] no_stop_data
          end
      | Some code =>
          if (code =? 2)%Z && can_apply_control_effects h then
            match trimmed_non_empty (stderr r) with
            | Some reason => stop_block h r turn_id [] reason
            | None => fail ((if is_stop then lit "Stop" else lit "SubagentStop")
                              ++ lit " hook exited with code 2 but did not write a continuation prompt to stderr")
            end
          else fail (exited_with code)
      | None => fail without_status
      end
  end.

Definition aggregate_results (results : list StopHandlerData) : StopHandlerData :=
  let should_stop := existsb sd_should_stop results in
  let stop_reason := head (omap sd_stop_reason results) in
  let should_block := negb should_stop && existsb sd_should_block results in
  mkStopData should_stop stop_reason should_block
    (if should_block then join_text_chunks (omap sd_block_reason results) else None)
    (if should_block then concat (sd_fragments <$> List.filter sd_should_block results) else []).

(** *** [events/interrupt.rs] and [events/session_end.rs] *)

Definition parse_completed_interrupt h r (turn_id : option str) : ParsedHandler unit :=
  let fail text := parsed_event h r turn_id Failed [error_entry text] () in
  match error r with
  | Some e => fail e
  | None =>
      match exit_code r with
      | Some 0%Z =>
          if str_eqb (trim (stdout r)) [] then parsed_event h r turn_id Completed [] ()
          else match parse_interrupt (stdout r) with
          | Some parsed =>
              parsed_event h r turn_id Completed
                (match interrupt_message parsed with Some m => [Entry WarningEntry m] | None => [] end) ()
          | None =>
              fail (if looks_like_json (stdout r)
                    then lit "hook returned invalid interrupt hook JSON output"
                    else lit "Interrupt hook returned non-JSON stdout")
          end
      | Some code => fail (exited_with code)
      | None => fail without_status
      end
  end.

Definition parse_completed_session_end h r (turn_id : option str) : ParsedHandler unit :=
  match error r, exit_code r with
  | Some e, _ => parsed_event h r turn_id Failed [error_entry e] ()
  | None, Some 0%Z => parsed_event h r turn_id Completed [] ()
  | None, Some code => parsed_event h r turn_id Failed
                         [error_entry (default (exited_with code) (trimmed_non_empty (stderr r)))] ()
  | None, None => parsed_event h r turn_id Failed [error_entry without_exit_code] ()
  end.

(** ** Running an event

    [None] is a panic; the handlers left to run on their own come with the
    outcome. *)

Context `{!HookRuntime Json} `{!RegexCrate} `{!HookInputs Json}.

Record PreToolUseOutcome := mkPreOutcome {
  pre_hook_events : list HookCompletedEvent;
  pre_outcome_block : bool;
  pre_outcome_reason : option str;
  pre_outcome_contexts : list str;
  pre_outcome_input : option Json;
}.
Record PermissionRequestOutcome := mkPermissionOutcome {
  permission_hook_events : list HookCompletedEvent;
  permission_outcome : option PermissionRequestDecision;
}.
Record PostToolUseOutcome := mkPostOutcome {
  post_hook_events : list HookCompletedEvent;
  post_outcome_block : bool;
  post_outcome_contexts : list str;
  feedback_message : option str;
}.
(** [UserPromptSubmitOutcome], [SessionStartOutcome] and, without contexts, the
    outcomes of compaction. *)
Record StopOrContextOutcome := mkStopOrContextOutcome {
  outcome_events : list HookCompletedEvent;
  outcome_should_stop : bool;
  outcome_stop_reason : option str;
  outcome_contexts : list str;
}.
Record StopOutcome := mkStopOutcome {
  stop_hook_events : list HookCompletedEvent;
  stop_outcome_stop : bool;
  stop_outcome_reason : option str;
  stop_outcome_block : bool;
  stop_outcome_block_reason : option str;
  continuation_fragments : list HookPromptFragment;
}.

Abbreviation scheduled := (list (ConfiguredHandler Json)).
Definition events_of {T} (results : list (ParsedHandler T)) : option (list HookCompletedEvent) :=
  mapM completed results.

(** [max_by_key] keeps the last of the largest. *)
Definition latest_updated_input (results : list (ParsedHandler (PreToolUseHandlerData Json)))
  : option Json :=
  snd <$> foldl (λ best '(order, input),
      match best with
      | Some (order', _) => if order' <=? order then Some (order, input) else best
      | None => Some (order, input)
      end) None
    (omap (λ p, (λ input, (completion_order p, input)) <$> pre_updated_input (data p)) results).

Definition run_pre_tool_use (handlers : list (ConfiguredHandler Json)) (request : PreToolUseRequest Json)
  : option (PreToolUseOutcome * (scheduled * scheduled)) :=
  let matched := select_handlers_for_matcher_inputs handlers PreToolUse
                   (matcher_inputs (pre_tool_name request) (pre_matcher_aliases request)) in
  match matched with
  | [] => Some (mkPreOutcome [] false None [] None, ([], []))
  | _ =>
      match pre_tool_use_json request with
      | Err e =>
          Some (mkPreOutcome
                  (serialization_failure_hook_events_for_tool_use clock matched
                     (Some (pre_turn_id request))
                     (lit "failed to serialize pre tool use hook input: " ++ e)
                     (pre_tool_use_id request)) false None [] None, ([], []))
      | Ok input_json =>
          let d := execute_handlers matched input_json (Some (pre_turn_id request))
                     parse_completed_pre_tool_use in
          let results := results d in
          let should_block := existsb (λ p, pre_should_block (data p)) results in
          let block_reason := head (omap (λ p, pre_block_reason (data p)) results) in
          contexts ← maybe_spill_additional_contexts spill_answers
                       (flatten_additional_contexts ((λ p, pre_contexts (data p)) <$> results));
          let updated_input := if should_block then None else latest_updated_input results in
          events ← events_of results;
          Some (mkPreOutcome (hook_completed_for_tool_use (pre_tool_use_id request) <$> events)
                  should_block block_reason contexts updated_input,
                (scheduled_async d, scheduled_executor d))
      end
  end.

Fixpoint resolve_permission_request_decision_from (resolved_allow : option PermissionRequestDecision)
    (decisions : list PermissionRequestDecision) : option PermissionRequestDecision :=
  match decisions with
  | [] => resolved_allow
  | Allow :: rest => resolve_permission_request_decision_from (Some Allow) rest
  | Deny message :: _ => Some (Deny message)
  end.
Definition resolve_permission_request_decision (decisions : list PermissionRequestDecision)
  : option PermissionRequestDecision := resolve_permission_request_decision_from None decisions.

Definition run_permission_request (handlers : list (ConfiguredHandler Json))
    (request : PermissionRequestRequest Json)
  : option (PermissionRequestOutcome * (scheduled * scheduled)) :=
  let matched := select_handlers_for_matcher_inputs handlers PermissionRequest
                   (matcher_inputs (per_tool_name request) (per_matcher_aliases request)) in
  match matched with
  | [] => Some (mkPermissionOutcome [] None, ([], []))
  | _ =>
      match permission_request_json request with
      | Err e =>
          Some (mkPermissionOutcome
                  (serialization_failure_hook_events_for_tool_use clock matched
                     (Some (per_turn_id request))
                     (lit "failed to serialize permission request hook input: " ++ e)
                     (per_run_id_suffix request)) None, ([], []))
      | Ok input_json =>
          let d := execute_handlers matched input_json (Some (per_turn_id request))
                     parse_completed_permission_request in
          let decision := resolve_permission_request_decision (omap data (results d)) in
          events ← events_of (results d);
          Some (mkPermissionOutcome
                  (hook_completed_for_tool_use (per_run_id_suffix request) <$> events) decision,
                (scheduled_async d, scheduled_executor d))
      end
  end.

(** [run_post_tool_use] of the engine, which also spills the feedback. *)
Definition run_post_tool_use (handlers : list (ConfiguredHandler Json))
    (request : PostToolUseRequest Json) : option (PostToolUseOutcome * (scheduled * scheduled)) :=
  let matched := select_handlers_for_matcher_inputs handlers PostToolUse
                   (matcher_inputs (post_tool_name request) (post_matcher_aliases request)) in
  match matched with
  | [] => Some (mkPostOutcome [] false [] None, ([], []))
  | _ =>
      match post_tool_use_json request with
      | Err e =>
          Some (mkPostOutcome
                  (serialization_failure_hook_events_for_tool_use clock matched
                     (Some (post_turn_id request))
                     (lit "failed to serialize post tool use hook input: " ++ e)
                     (post_tool_use_id request)) false [] None, ([], []))
      | Ok input_json =>
          let d := execute_handlers matched input_json (Some (post_turn_id request))
                     parse_completed_post_tool_use in
          let results := results d in
          contexts ← maybe_spill_additional_contexts spill_answers
                       (flatten_additional_contexts ((λ p, post_contexts (data p)) <$> results));
          let should_block := existsb (λ p, post_data_should_block (data p)) results in
          events ← events_of results;
          feedback ← match join_text_chunks (concat ((λ p, feedback_messages (data p)) <$> results)) with
                     | None => Some None
                     | Some text => Some <$> maybe_spill_text (spill_answers (length contexts)) text
                     end;
          Some (mkPostOutcome (hook_completed_for_tool_use (post_tool_use_id request) <$> events)
                  should_block contexts feedback, (scheduled_async d, scheduled_executor d))
      end
  end.

(** What [UserPromptSubmit], [SessionStart] and the compaction events do with
    the results. *)
Definition stop_or_context_outcome (d : Dispatched Json StopOrContextData)
  : option (StopOrContextOutcome * (scheduled * scheduled)) :=
  let results := results d in
  let should_stop := existsb (λ p, data_should_stop (data p)) results in
  let stop_reason := head (omap (λ p, data_stop_reason (data p)) results) in
  contexts ← maybe_spill_additional_contexts spill_answers
               (flatten_additional_contexts ((λ p, data_contexts (data p)) <$> results));
  events ← events_of results;
  Some (mkStopOrContextOutcome events should_stop stop_reason contexts,
        (scheduled_async d, scheduled_executor d)).
(** Their common frame: no handler, an input that cannot be written, a run. *)
Definition run_stop_or_context (matched : list (ConfiguredHandler Json)) (input : result str str)
    (turn_id : option str) (failure : str)
    (parse : ConfiguredHandler Json → HandlerRunResult → option str → ParsedHandler StopOrContextData)
  : option (StopOrContextOutcome * (scheduled * scheduled)) :=
  match matched with
  | [] => Some (mkStopOrContextOutcome [] false None [], ([], []))
  | _ =>
      match input with
      | Err e => Some (mkStopOrContextOutcome
                         (serialization_failure_hook_events clock matched turn_id (failure ++ e))
                         false None [], ([], []))
      | Ok input_json => stop_or_context_outcome (execute_handlers matched input_json turn_id parse)
      end
  end.

Definition run_user_prompt_submit (handlers : list (ConfiguredHandler Json))
    (request : UserPromptSubmitRequest) : option (StopOrContextOutcome * (scheduled * scheduled)) :=
  run_stop_or_context (select_handlers handlers UserPromptSubmit None)
    (user_prompt_submit_json request) (Some (prompt_turn_id request))
    (lit "failed to serialize user prompt submit hook input: ") parse_completed_user_prompt_submit.
Definition run_pre_compact (handlers : list (ConfiguredHandler Json)) (request : CompactRequest)
  : option (StopOrContextOutcome * (scheduled * scheduled)) :=
  run_stop_or_context (select_handlers handlers PreCompact (Some (compact_trigger request)))
    (pre_compact_json request) (Some (compact_turn_id request))
    (lit "failed to serialize pre compact hook input: ") parse_pre_completed.
Definition run_post_compact (handlers : list (ConfiguredHandler Json)) (request : CompactRequest)
  : option (StopOrContextOutcome * (scheduled * scheduled)) :=
  run_stop_or_context (select_handlers handlers PostCompact (Some (compact_trigger request)))
    (post_compact_json request) (Some (compact_turn_id request))
    (lit "failed to serialize post compact hook input: ") parse_post_completed.

Definition start_event_name (t : StartHookTarget) : HookEventName :=
  match t with SessionStartTarget _ => SessionStart | SubagentStartTarget _ _ _ => SubagentStart end.
Definition start_matcher_input (t : StartHookTarget) : str :=
  match t with SessionStartTarget source => source | SubagentStartTarget _ _ agent_type => agent_type end.
Definition run_session_start (handlers : list (ConfiguredHandler Json)) (request : SessionStartRequest)
    (turn_id : option str) : option (StopOrContextOutcome * (scheduled * scheduled)) :=
  let matched := select_handlers handlers (start_event_name (start_target request))
                   (Some (start_matcher_input (start_target request))) in
  let '(turn_id, failure) :=
    match start_target request with
    | SessionStartTarget _ => (turn_id, lit "failed to serialize session start hook input: ")
    | SubagentStartTarget turn_id _ _ =>
        (Some turn_id, lit "failed to serialize subagent start hook input: ")
    end in
  run_stop_or_context matched (session_start_json request) turn_id failure parse_completed_start.

(** *** [StopHookTarget] *)

Definition stop_event_name (t : StopHookTarget) : HookEventName :=
  match t with StopTarget | MemoryConsolidation => StopEvent | SubagentStopTarget _ _ _ => SubagentStop end.
Definition stop_matcher_input (t : StopHookTarget) : option str :=
  match t with
  | StopTarget | MemoryConsolidation => None
  | SubagentStopTarget _ agent_type _ => Some agent_type
  end.
Definition is_memory_consolidation (t : StopHookTarget) : bool :=
  match t with MemoryConsolidation => true | _ => false end.
Definition is_policy_source (s : HookSource) : bool :=
  match s with User | Project | SessionFlags | Plugin => false | _ => true end.
Definition stop_select_handlers (t : StopHookTarget) (handlers : list (ConfiguredHandler Json))
  : list (ConfiguredHandler Json) :=
  List.filter (λ h, negb (is_memory_consolidation t) || is_executor_scoped h || is_policy_source (source h))
    (select_handlers handlers (stop_event_name t) (stop_matcher_input t)).

(** [maybe_spill_prompt_fragments]. *)
Fixpoint maybe_spill_prompt_fragments (answers : nat → SpillAnswer)
    (fragments : list HookPromptFragment) : option (list HookPromptFragment) :=
  match fragments with
  | [] => Some []
  | f :: rest =>
      text ← maybe_spill_text (answers 0) (fragment_text f);
      spilled ← maybe_spill_prompt_fragments (λ i, answers (S i)) rest;
      Some (mkFragment text (hook_run_id f) :: spilled)
  end.

(** [run_stop] of the engine.  The executor hooks of memory work run whatever the
    other hooks say. *)
Definition run_stop (handlers : list (ConfiguredHandler Json)) (request : StopRequest)
  : option (StopOutcome * (scheduled * scheduled)) :=
  let t := target request in
  let matched := stop_select_handlers t handlers in
  match matched with
  | [] => Some (mkStopOutcome [] false None false None [], ([], []))
  | _ =>
      let is_cleanup h := is_memory_consolidation t && is_executor_scoped h in
      let executor_cleanup := List.filter is_cleanup matched in
      let matched := List.filter (λ h, negb (is_cleanup h)) matched in
      match stop_json request with
      | Err e =>
          let failure := match t with
                         | SubagentStopTarget _ _ _ => lit "failed to serialize subagent stop hook input: "
                         | _ => lit "failed to serialize stop hook input: "
                         end in
          Some (mkStopOutcome (serialization_failure_hook_events clock matched
                                 (Some (stop_turn_id request)) (failure ++ e))
                  false None false None [], ([], []))
      | Ok input_json =>
          let d := execute_handlers matched input_json (Some (stop_turn_id request))
                     parse_completed_stop in
          let cleanup :=
            match executor_cleanup with
            | [] => []
            | _ => scheduled_executor (execute_handlers executor_cleanup input_json
                                         (Some (stop_turn_id request)) parse_completed_stop)
            end in
          let aggregate := aggregate_results (data <$> results d) in
          events ← events_of (results d);
          fragments ← maybe_spill_prompt_fragments spill_answers (sd_fragments aggregate);
          Some (mkStopOutcome events (sd_should_stop aggregate) (sd_stop_reason aggregate)
                  (sd_should_block aggregate) (sd_block_reason aggregate) fragments,
                (scheduled_async d, scheduled_executor d ++ cleanup))
      end
  end.

(** *** Events without an answer *)

Definition run_unit_event (matched : list (ConfiguredHandler Json)) (input : result str str)
    (turn_id : option str) (failure : str)
    (parse : ConfiguredHandler Json → HandlerRunResult → option str → ParsedHandler unit)
  : option (list HookCompletedEvent * (scheduled * scheduled)) :=
  match matched with
  | [] => Some ([], ([], []))
  | _ =>
      match input with
      | Err e => Some (serialization_failure_hook_events clock matched turn_id (failure ++ e), ([], []))
      | Ok input_json =>
          let d := execute_handlers matched input_json turn_id parse in
          events ← events_of (results d);
          Some (events, (scheduled_async d, scheduled_executor d))
      end
  end.
Definition run_interrupt (handlers : list (ConfiguredHandler Json)) (request : InterruptRequest)
  : option (list HookCompletedEvent * (scheduled * scheduled)) :=
  run_unit_event (select_handlers handlers Interrupt None) (interrupt_json request)
    (Some (int_turn_id request)) (lit "failed to serialize interrupt hook input: ")
    parse_completed_interrupt.
Definition SESSION_END_REASON : str := lit "other".
Definition run_session_end (handlers : list (ConfiguredHandler Json)) (request : SessionEndRequest)
  : option (list HookCompletedEvent * (scheduled * scheduled)) :=
  run_unit_event (select_handlers handlers SessionEnd (Some SESSION_END_REASON))
    (session_end_json request) (Some (end_turn_id request))
    (lit "failed to serialize session end hook input: ") parse_completed_session_end.

(** *** Previews: [None] is the [unreachable!] of executor-scoped handlers *)

Definition preview_for_tool_use (event : HookEventName) (handlers : list (ConfiguredHandler Json))
    (inputs : list str) (suffix : str) : option (list HookRunSummary) :=
  mapM (λ h, (λ run, hook_run_for_tool_use run suffix) <$> running_summary clock h)
    (select_handlers_for_matcher_inputs handlers event inputs).
Definition preview_stop (handlers : list (ConfiguredHandler Json)) (t : StopHookTarget)
  : option (list HookRunSummary) :=
  mapM (running_summary clock)
    (List.filter (λ h, negb (is_executor_scoped h)) (stop_select_handlers t handlers)).
Definition preview_interrupt (handlers : list (ConfiguredHandler Json)) : option (list HookRunSummary) :=
  mapM (running_summary clock)
    (List.filter (λ h, negb (is_executor_scoped h)) (select_handlers handlers Interrupt None)).
End events.
