(* ===== verification/HookProofs.v ===== *)
(** * What hooks decide

    The dispatcher waits for the synchronous handlers in whatever order they
    finish; the outcome of an event is read from their answers in configured
    order, so it does not depend on that order, except for the rewrite of a
    tool's input, where the last handler to finish wins. *)
From stdpp Require Import numbers strings list sorting.
From S2P Require Import Prelude RustStr Truncate TruncateProofs Hooks HookOutput HookEvents.

(** ** Sorting by configured order *)

Section sorting.
Context {A : Type}.
Implicit Types (l : list (nat * A)).

Definition key_lt (x y : nat * A) : Prop := x.1 < y.1.
#[local] Instance key_lt_antisymm : AntiSymm (=) key_lt.
Proof. intros x y. unfold key_lt. lia. Qed.

Lemma insert_by_key_perm x l : insert_by_key x l ≡ₚ x :: l.
Proof.
  induction l as [|y l IH]; simpl; [done|]. destruct (_ <=? _); [done|]. rewrite IH. constructor.
Qed.
Lemma sort_by_key_cons x l : sort_by_key (x :: l) = insert_by_key x (sort_by_key l).
Proof. done. Qed.
Lemma sort_by_key_perm l : sort_by_key l ≡ₚ l.
Proof. induction l as [|x l IH]; simpl; [done|]. by rewrite insert_by_key_perm, IH. Qed.

Lemma insert_by_key_sorted x l :
  StronglySorted key_lt l → x.1 ∉ l.*1 → StronglySorted key_lt (insert_by_key x l).
Proof.
  induction 1 as [|y l HS IH Hy]; simpl; [by repeat constructor|].
  intros [Hne Hn]%not_elem_of_cons. destruct (Nat.leb_spec x.1 y.1).
  - constructor; [by constructor|]. unfold key_lt at 1. constructor; [lia|].
    eapply Forall_impl; [exact Hy|]. unfold key_lt. intros. lia.
  - constructor; [by apply IH|]. rewrite insert_by_key_perm. constructor; [done|exact Hy].
Qed.
Lemma sort_by_key_sorted l : NoDup l.*1 → StronglySorted key_lt (sort_by_key l).
Proof.
  induction l as [|x l IH]; simpl; [constructor|]. intros [Hn HN]%NoDup_cons.
  apply insert_by_key_sorted; [by apply IH|]. by rewrite (sort_by_key_perm l).
Qed.

(** Sorting undoes any permutation of a list with increasing keys. *)
Lemma sort_by_key_unique l l' :
  l ≡ₚ l' → StronglySorted key_lt l' → sort_by_key l = l'.
Proof.
  intros Hp HS. assert (NoDup l'.*1) as HN.
  { clear Hp. induction HS as [|x l' HS IH Hx]; simpl; constructor; [|done].
    intros (y & E & Hy)%list_elem_of_fmap. rewrite Forall_forall in Hx. specialize (Hx _ Hy).
    unfold key_lt in Hx. lia. }
  apply (StronglySorted_unique key_lt).
  - apply sort_by_key_sorted. by rewrite Hp.
  - done.
  - by rewrite sort_by_key_perm.
Qed.
End sorting.

Lemma imap_pair_sorted {A} (f : nat → nat) (l : list A) :
  (∀ i j, i < j → f i < f j) → StronglySorted key_lt (imap (λ i x, (f i, x)) l).
Proof.
  revert f. induction l as [|x l IH]; intros f Hf; simpl; constructor.
  - apply IH. intros i j ?. apply Hf. lia.
  - apply Forall_forall. intros [i y] Hin. apply elem_of_lookup_imap in Hin as (k & z & [= -> ->] & _).
    unfold key_lt. simpl. apply Hf. lia.
Qed.

Lemma indexed_sorted_filter {A} (R : relation A) (f : A → bool) l :
  StronglySorted R l → StronglySorted R (List.filter f l).
Proof.
  induction 1 as [|x l HS IH Hx]; simpl; [constructor|]. destruct (f x); [|done].
  constructor; [done|]. apply Forall_forall. intros y Hy.
  apply list_elem_of_In, List.filter_In in Hy as [Hy _]. rewrite Forall_forall in Hx.
  apply Hx. by apply list_elem_of_In.
Qed.

(** ** The dispatcher *)

Section dispatch.
Context {Json : Type} `{!HookRuntime Json} {laws : HookRuntimeLaws}.
Implicit Types (h : ConfiguredHandler Json).

(** What an answer says, whenever it arrived. *)
Definition said {T} (p : ParsedHandler T) : option HookCompletedEvent * T := (completed p, data p).

(** The handlers waited for, with their configured positions. *)
Definition waited (matched : list (ConfiguredHandler Json)) : list (nat * ConfiguredHandler Json) :=
  List.filter (λ p, is_sync p.2) (imap pair matched).

Lemma waited_sorted matched : StronglySorted key_lt (waited matched).
Proof.
  apply indexed_sorted_filter. apply (imap_pair_sorted (λ i, i)). lia.
Qed.

Lemma sort_by_key_fmap {A B} (f : A → B) (l : list (nat * A)) :
  prod_map id f <$> sort_by_key l = sort_by_key (prod_map id f <$> l).
Proof.
  induction l as [|x l IH]; [done|].
  rewrite fmap_cons. rewrite !sort_by_key_cons.
  rewrite <-IH. clear IH.
  induction (sort_by_key l) as [|y r IH]; simpl; [done|].
  destruct (x.1 <=? y.1); [done|]. by rewrite fmap_cons, IH.
Qed.

Lemma existsb_fmap {A B} (f : A → B) (g : B → bool) l : existsb g (f <$> l) = existsb (λ x, g (f x)) l.
Proof. induction l as [|x l IH]; csimpl; [done|]. by rewrite IH. Qed.
Lemma omap_of_fmap {A B C} (f : A → B) (g : B → option C) (l : list A) :
  omap g (f <$> l) = omap (λ x, g (f x)) l.
Proof. induction l as [|x l IH]; csimpl; [done|]. by rewrite IH. Qed.

Section execute.
Context {T : Type} (parse : ConfiguredHandler Json → HandlerRunResult → option str → ParsedHandler T).
Context (matched : list (ConfiguredHandler Json)) (input : str) (turn_id : option str).

Definition answer (p : nat * ConfiguredHandler Json) : ParsedHandler T :=
  parse p.2 (run_handler p.1 p.2 input) turn_id.
Abbreviation dispatched := (execute_handlers matched input turn_id parse).

(** The results say what the handlers answered, in configured order. *)
Lemma execute_results : said <$> results dispatched = (λ p, said (answer p)) <$> waited matched.
Proof using Type*.
  unfold execute_handlers. cbn [results]. fold (waited matched).
  rewrite <-list_fmap_compose.
  transitivity (snd <$> (prod_map id said <$>
    sort_by_key (imap (λ k '(i, h), (i, set_completion_order k (parse h (run_handler i h input) turn_id)))
      (finish_order (waited matched))))).
  { rewrite <-list_fmap_compose. apply list_fmap_ext. by intros ? [? ?]. }
  rewrite sort_by_key_fmap.
  rewrite (sort_by_key_unique _ ((λ p, (p.1, said (answer p))) <$> waited matched)).
  - rewrite <-list_fmap_compose. by apply list_fmap_ext.
  - transitivity ((λ p, (p.1, said (answer p))) <$> finish_order (waited matched)).
    + rewrite fmap_imap, <-imap_const. erewrite imap_ext; [reflexivity|]. by intros i [j h] _.
    + by rewrite (finish_order_perm (waited matched)).
  - pose proof (waited_sorted matched) as HS. induction HS as [|x l HS IH Hx]; simpl; constructor; [done|].
    apply Forall_fmap. eapply Forall_impl; [exact Hx|]. done.
Qed.

Lemma execute_omap {B} (f : T → option B) :
  omap (λ p, f (data p)) (results dispatched) = omap (λ p, f (data (answer p))) (waited matched).
Proof using Type*.
  pose proof (f_equal (omap (λ s, f s.2)) execute_results) as E.
  by rewrite !omap_of_fmap in E.
Qed.
Lemma execute_existsb (f : T → bool) :
  existsb (λ p, f (data p)) (results dispatched) = existsb (λ p, f (data (answer p))) (waited matched).
Proof using Type*.
  pose proof (f_equal (existsb (λ s, f s.2)) execute_results) as E.
  by rewrite !existsb_fmap in E.
Qed.
Lemma execute_data : data <$> results dispatched = (λ p, data (answer p)) <$> waited matched.
Proof using Type*.
  pose proof (f_equal (fmap snd) execute_results) as E. by rewrite <-!list_fmap_compose in E.
Qed.

(** Every handler waited for is reported. *)
Lemma execute_events :
  (∀ h r t, is_sync h = true → is_Some (completed (parse h r t))) →
  is_Some (mapM completed (results dispatched)).
Proof using Type*.
  intros Hc. apply mapM_is_Some. apply Forall_forall. intros p Hp.
  assert (said p ∈ said <$> results dispatched) as Hs by (by apply list_elem_of_fmap_2).
  rewrite execute_results in Hs. apply list_elem_of_fmap in Hs as (q & E & Hq).
  injection E as E1 _. change (is_Some (completed p)). rewrite E1. apply Hc.
  apply list_elem_of_In, List.filter_In in Hq as [_ Hq]. done.
Qed.

(** The answers in the order in which they arrived. *)
Lemma execute_orders :
  results dispatched ≡ₚ imap (λ k p, set_completion_order k (answer p)) (finish_order (waited matched)).
Proof using Type*.
  unfold execute_handlers. cbn [results]. fold (waited matched).
  rewrite sort_by_key_perm. rewrite fmap_imap. erewrite imap_ext; [reflexivity|]. by intros i [j h] _.
Qed.
End execute.
End dispatch.

(** ** Spilling never fails *)

Lemma formatted_truncate_total text policy : is_Some (formatted_truncate_text text policy).
Proof.
  unfold formatted_truncate_text. destruct (_ <=? _)%N; [by eexists|].
  destruct (truncate_text_total text policy) as (out & -> & _). by eexists.
Qed.
Lemma maybe_spill_total a text limit : is_Some (maybe_spill_text_with_limit a text limit).
Proof.
  unfold maybe_spill_text_with_limit, spilled_hook_output_preview.
  repeat case_match; try apply formatted_truncate_total; [by eexists|].
  apply fmap_is_Some, formatted_truncate_total.
Qed.
Lemma spill_contexts_total answers contexts :
  is_Some (maybe_spill_additional_contexts answers contexts).
Proof.
  revert answers. induction contexts as [|c rest IH]; intros answers; simpl; [by eexists|].
  destruct (maybe_spill_total (answers 0) (context_text c) (context_limit c)) as [text ->]. simpl.
  destruct (IH (λ i, answers (S i))) as [spilled ->]. by eexists.
Qed.
Lemma spill_fragments_total answers fragments :
  is_Some (maybe_spill_prompt_fragments answers fragments).
Proof.
  revert answers. induction fragments as [|c rest IH]; intros answers; simpl; [by eexists|].
  unfold maybe_spill_text.
  destruct (maybe_spill_total (answers 0) (fragment_text c) default_limit) as [text ->]. simpl.
  destruct (IH (λ i, answers (S i))) as [spilled ->]. by eexists.
Qed.

(** ** The last rewrite wins *)

Section latest.
Context {B : Type}.

Definition keep_latest (best : option (nat * B)) (p : nat * B) : option (nat * B) :=
  match best with
  | Some (order', _) => if order' <=? p.1 then Some p else best
  | None => Some p
  end.

Lemma keep_latest_spec l best :
  match foldl keep_latest best l with
  | Some p => (p ∈ l ∨ best = Some p) ∧ (∀ q, q ∈ l ∨ best = Some q → q.1 ≤ p.1)
  | None => l = [] ∧ best = None
  end.
Proof.
  revert best. induction l as [|x l IH]; intros best; simpl.
  { destruct best as [p|]; [|done]. split; [by right|]. intros q [[]%elem_of_nil|[= ->]]. done. }
  specialize (IH (keep_latest best x)). destruct (foldl keep_latest _ l) as [p|].
  - destruct IH as [Hp Hmax]. unfold keep_latest in Hp, Hmax. destruct best as [[o b]|].
    + destruct (Nat.leb_spec o x.1).
      * split; [destruct Hp as [|[= ->]]; left; [by right|by left]|].
        intros q [[->|Hq]%elem_of_cons|[= <-]]; [by apply Hmax; right|by apply Hmax; left|].
        etrans; [done|]. by apply Hmax; right.
      * split; [destruct Hp as [|[= <-]]; [left; by right|by right]|].
        intros q [[->|Hq]%elem_of_cons|[= <-]]; [|by apply Hmax; left|by apply Hmax; right].
        assert (o ≤ p.1) by (by apply (Hmax (o, b)); right). lia.
    + split; [destruct Hp as [|[= ->]]; left; [by right|by left]|].
      intros q [[->|Hq]%elem_of_cons|?]; [by apply Hmax; right|by apply Hmax; left|done].
  - exfalso. destruct IH as [_ IH]. unfold keep_latest in IH. by destruct best as [[o b]|]; [destruct (_ <=? _)|].
Qed.

Lemma sorted_last_max (l : list (nat * B)) p :
  StronglySorted key_lt l → last l = Some p → ∀ q, q ∈ l → q = p ∨ q.1 < p.1.
Proof.
  induction 1 as [|x l HS IH Hx]; [done|]. rewrite last_cons. intros Hl q [->|Hq]%elem_of_cons.
  - destruct (last l) as [y|] eqn:E; injection Hl as <-; [|by left].
    right. rewrite Forall_forall in Hx. by apply Hx, last_Some_elem_of.
  - destruct (last l) as [y|] eqn:E; injection Hl as <-; [by apply IH|].
    apply last_None in E as ->. by apply elem_of_nil in Hq.
Qed.

Lemma keep_latest_last l l' :
  l ≡ₚ l' → StronglySorted key_lt l' → foldl keep_latest None l = last l'.
Proof.
  intros Hp HS. pose proof (keep_latest_spec l None) as H.
  destruct (foldl keep_latest None l) as [p|].
  - destruct H as [[Hin|?] Hmax]; [|done]. destruct (last l') as [q|] eqn:E.
    + assert (q ∈ l) as Hq by (rewrite Hp; by apply last_Some_elem_of).
      specialize (Hmax q (or_introl Hq)). rewrite Hp in Hin.
      destruct (sorted_last_max l' q HS E p Hin) as [->|]; [done|lia].
    + apply last_None in E as ->. apply Permutation_nil_r in Hp as ->. by apply elem_of_nil in Hin.
  - destruct H as [-> _]. apply Permutation_nil_l in Hp as <-. done.
Qed.
End latest.

(** ** Answers of synchronous hooks *)

Section answers.
Context {Json : Type} `{!HookWires Json}.
Implicit Types (h : ConfiguredHandler Json) (r : HandlerRunResult).

(** Why a hook blocks a tool: its answer says so with a reason, or it exits with
    code 2 and writes one. *)
Definition pre_verdict r : option str :=
  match error r, exit_code r with
  | None, Some 0%Z => parse_pre_tool_use (stdout r) ≫= block_reason
  | None, Some 2%Z => trimmed_non_empty (stderr r)
  | _, _ => None
  end.
(** The input a hook puts in place of the tool's. *)
Definition pre_rewrite r : option Json :=
  match error r, exit_code r with
  | None, Some 0%Z =>
      parsed ← parse_pre_tool_use (stdout r);
      match block_reason parsed with None => updated_input parsed | Some _ => None end
  | _, _ => None
  end.
(** An answer to a request for permission that uses a field permission hooks do
    not support: it asks to stop or to hide its output, to interrupt, or to rewrite
    the input or the permissions. *)
Definition uses_unsupported_field (wire : PermissionRequestCommandOutputWire Json) : bool :=
  let universal := universal_from (permission_universal wire) in
  negb (continue_processing universal) || is_Some_b (stop_reason universal) || suppress_output universal ||
  match permission_hook_specific_output wire ≫= permission_wire_decision with
  | Some d => is_Some_b (decision_updated_input d) || is_Some_b (updated_permissions d) || interrupt d
  | None => false
  end.
(** What a hook says about a request for permission: exit code 2 with a reason
    denies, and so does or allows a JSON answer with a decision, which counts for
    nothing as a whole when it uses an unsupported field. *)
Definition permission_verdict r : option PermissionRequestDecision :=
  match error r, exit_code r with
  | None, Some 0%Z =>
      match parse_json permission_request_from_value (stdout r) with
      | Some wire =>
          if uses_unsupported_field wire then None
          else match permission_hook_specific_output wire ≫= permission_wire_decision with
               | Some d =>
                   Some match behavior d with
                        | AllowBehavior => Allow
                        | DenyBehavior =>
                            Deny (default (lit "PermissionRequest hook denied approval") (message d ≫= trimmed_reason))
                        end
               | None => None
               end
      | None => None
      end
  | None, Some 2%Z => Deny <$> trimmed_non_empty (stderr r)
  | _, _ => None
  end.

Lemma is_sync_local h : is_sync h = true → ∃ path, source_path h = Local path.
Proof.
  unfold is_sync, can_apply_control_effects, execution_mode, is_executor_scoped.
  destruct (source_path h); [by eauto|done].
Qed.

Lemma parsed_event_completed {T} h r t status entries (d : T) :
  is_sync h = true → is_Some (completed (parsed_event h r t status entries d)).
Proof.
  intros [path E]%is_sync_local. unfold parsed_event, completed_summary. rewrite E. by eexists.
Qed.

Lemma parse_json_blank {T} (from_value : Json → option T) s :
  str_eqb (trim s) [] = true → parse_json from_value s = None.
Proof. unfold parse_json. by intros ->. Qed.

(** An answer that is refused says nothing. *)
Lemma invalid_pre_output (wire : PreToolUseCommandOutputWire Json) :
  is_Some_b (pre_invalid_reason (pre_tool_use_output wire)) = true →
  block_reason (pre_tool_use_output wire) = None ∧ updated_input (pre_tool_use_output wire) = None.
Proof. unfold pre_tool_use_output. cbn. by destruct (or_else _ _). Qed.
Lemma invalid_permission_output (wire : PermissionRequestCommandOutputWire Json) :
  is_Some_b (permission_invalid_reason (permission_request_output wire)) = true →
  decision (permission_request_output wire) = None.
Proof. unfold permission_request_output. cbn. by destruct (or_else _ _). Qed.

Lemma permission_decision_spec (wire : PermissionRequestCommandOutputWire Json) :
  decision (permission_request_output wire) =
  if uses_unsupported_field wire then None
  else match permission_hook_specific_output wire ≫= permission_wire_decision with
       | Some d =>
           Some match behavior d with
                | AllowBehavior => Allow
                | DenyBehavior =>
                    Deny (default (lit "PermissionRequest hook denied approval") (message d ≫= trimmed_reason))
                end
       | None => None
       end.
Proof.
  unfold permission_request_output, uses_unsupported_field, unsupported_permission_request_universal.
  cbn [decision]. destruct (negb (continue_processing _)); [done|]. destruct (is_Some_b (stop_reason _)); [done|].
  destruct (suppress_output _); [done|]. cbn. destruct (permission_hook_specific_output wire) as [specific|]; [|done]. cbn.
  destruct (permission_wire_decision specific) as [d|]; [|done]. cbn.
  destruct (is_Some_b (decision_updated_input d)); [done|]. destruct (is_Some_b (updated_permissions d)); [done|].
  by destruct (interrupt d).
Qed.

Lemma fmap_Some_eq {A B} (f : A → B) x : f <$> Some x = Some (f x).
Proof. done. Qed.

(** Codes other than 0 and 2 are handled alike. *)
Lemma exit_code_cases (code : Z) :
  code = 0%Z ∨ code = 2%Z ∨
  (∀ (A : Type) (a b c : A), match code with 0%Z => a | 2%Z => b | _ => c end = c) ∧ (code =? 2)%Z = false ∧
  (∀ (A : Type) (a c : A), match code with 0%Z => a | _ => c end = c).
Proof. destruct code as [|[p|[p|p|]|]|p]; eauto. Qed.

Lemma pre_answer h r t :
  is_sync h = true →
  let d := data (parse_completed_pre_tool_use h r t) in
  pre_should_block d = is_Some_b (pre_verdict r) ∧ pre_block_reason d = pre_verdict r ∧
  pre_updated_input d = pre_rewrite r.
Proof.
  intros Hs. assert (can_apply_control_effects h = true) as Hc by done.
  unfold parse_completed_pre_tool_use, pre_verdict, pre_rewrite. rewrite Hc.
  destruct (error r); [done|]. destruct (exit_code r) as [code|]; [|done].
  destruct (exit_code_cases code) as [->|[->|(H1 & H2 & H3)]].
  - destruct (str_eqb (trim (stdout r)) []) eqn:Eb.
    { unfold parse_pre_tool_use. by rewrite parse_json_blank. }
    unfold parse_pre_tool_use. destruct (parse_json _ _) as [wire|]; [|simpl; by case_match].
    pose proof (invalid_pre_output wire) as Hi. rewrite fmap_Some_eq.
    revert Hi. generalize (pre_tool_use_output wire) as out. intros out Hi. simpl.
    match goal with |- context [let '(_, _) := ?x in _] => destruct x as [entries contexts] end.
    destruct (pre_invalid_reason out) as [invalid|].
    { destruct Hi as [-> ->]; [done|]. done. }
    by destruct (block_reason out).
  - cbn. by destruct (trimmed_non_empty (stderr r)).
  - rewrite !H1, H3, H2. done.
Qed.

Lemma permission_answer h r t :
  is_sync h = true → data (parse_completed_permission_request h r t) = permission_verdict r.
Proof.
  intros Hs. assert (can_apply_control_effects h = true) as Hc by done.
  unfold parse_completed_permission_request, permission_verdict. rewrite Hc.
  destruct (error r); [done|]. destruct (exit_code r) as [code|]; [|done].
  destruct (exit_code_cases code) as [->|[->|(H1 & H2 & H3)]].
  - destruct (str_eqb (trim (stdout r)) []) eqn:Eb.
    { unfold parse_permission_request. by rewrite parse_json_blank. }
    unfold parse_permission_request. destruct (parse_json _ _) as [wire|]; [|simpl; by case_match].
    rewrite <- permission_decision_spec.
    pose proof (invalid_permission_output wire) as Hi. rewrite fmap_Some_eq.
    revert Hi. generalize (permission_request_output wire) as out. intros out Hi. simpl.
    destruct (permission_invalid_reason out) as [invalid|].
    { rewrite Hi by done. done. }
    by destruct (decision out) as [[]|].
  - cbn. by destruct (trimmed_non_empty (stderr r)).
  - rewrite H1, H3, H2. done.
Qed.

Lemma pre_completed h r t : is_sync h = true → is_Some (completed (parse_completed_pre_tool_use h r t)).
Proof.
  intros Hs. unfold parse_completed_pre_tool_use.
  repeat case_match; by apply parsed_event_completed.
Qed.
Lemma permission_completed h r t :
  is_sync h = true → is_Some (completed (parse_completed_permission_request h r t)).
Proof.
  intros Hs. unfold parse_completed_permission_request.
  repeat case_match; by apply parsed_event_completed.
Qed.
End answers.

(** ** Outcomes *)

Section outcomes.
Context {Json : Type} `{!HookWires Json} `{!HookRuntime Json} {laws : HookRuntimeLaws}.
Context `{!RegexCrate} `{!HookInputs Json}.
Implicit Types (handlers : list (ConfiguredHandler Json)).

Lemma waited_sync (matched : list (ConfiguredHandler Json)) p :
  p ∈ waited matched → is_sync p.2 = true.
Proof. unfold waited. by intros [_ ?]%list_elem_of_In%List.filter_In. Qed.

Lemma omap_ext_in {A B} (f g : A → option B) (l : list A) : (∀ x, x ∈ l → f x = g x) → omap f l = omap g l.
Proof.
  induction l as [|x l IH]; intros Hfg; csimpl; [done|].
  rewrite (Hfg x) by (by left). rewrite IH; [done|]. intros y Hy. apply Hfg. by right.
Qed.
Lemma existsb_is_Some {A B} (f : A → option B) (l : list A) :
  existsb (λ x, is_Some_b (f x)) l = is_Some_b (head (omap f l)).
Proof. induction l as [|x l IH]; csimpl; [done|]. by destruct (f x). Qed.
Lemma existsb_ext_in {A} (f g : A → bool) (l : list A) : (∀ x, x ∈ l → f x = g x) → existsb f l = existsb g l.
Proof.
  induction l as [|x l IH]; intros Hfg; simpl; [done|].
  rewrite (Hfg x) by (by left). f_equal. apply IH. intros y Hy. apply Hfg. by right.
Qed.

Lemma latest_updated_input_eq (rs : list (ParsedHandler (PreToolUseHandlerData Json))) :
  latest_updated_input rs =
  snd <$> foldl keep_latest None
    (omap (λ p, (λ input, (completion_order p, input)) <$> pre_updated_input (data p)) rs).
Proof.
  unfold latest_updated_input. f_equal. generalize (@None (nat * Json)).
  induction (omap _ rs) as [|[o i] l IH]; intros best; simpl; [done|]. by rewrite IH.
Qed.

(** The rewrites by the time their handlers finished. *)
Lemma omap_imap_last {A B} (f : A → option B) (g : nat → nat) (l : list A) :
  (∀ i j, i < j → g i < g j) →
  let orders := omap id (imap (λ k x, (λ b, (g k, b)) <$> f x) l) in
  StronglySorted key_lt orders ∧ (snd <$> last orders) = last (omap f l) ∧
  Forall (λ p, g 0 ≤ p.1) orders.
Proof.
  revert g. induction l as [|x l IH]; intros g Hg; csimpl; [by split_and!; constructor|].
  destruct (IH (g ∘ S)) as (HS & Hl & HF); [intros; apply Hg; lia|].
  assert (g 0 < g 1) by (apply Hg; lia).
  change (imap (λ k x, (λ b, ((g ∘ S) k, b)) <$> f x) l)
    with (imap ((λ k x, (λ b, (g k, b)) <$> f x) ∘ S) l) in *.
  generalize dependent (omap id (imap ((λ k x, (λ b, (g k, b)) <$> f x) ∘ S) l)).
  intros orders HS Hl HF. assert (Forall (λ p, g 0 < p.1) orders) as HF'.
  { eapply Forall_impl; [exact HF|]. simpl. lia. }
  destruct (f x) as [b|]; simpl.
  - split_and!; [by constructor| |constructor; [done|]; eapply Forall_impl; [exact HF'|]; simpl; lia].
    rewrite !last_cons, <-Hl. by destruct (last orders).
  - split_and!; [done|exact Hl|]. eapply Forall_impl; [exact HF'|]. simpl. lia.
Qed.

Lemma omap_imap {A B C} (f : nat → A → B) (g : B → option C) (l : list A) :
  omap g (imap f l) = omap id (imap (λ k x, g (f k x)) l).
Proof.
  revert f. induction l as [|x l IH]; intros f; csimpl; [done|]. by rewrite (IH (f ∘ S)).
Qed.

Lemma latest_rewrite (matched : list (ConfiguredHandler Json)) input turn_id :
  latest_updated_input (results (execute_handlers matched input turn_id parse_completed_pre_tool_use)) =
  last (omap (λ p, pre_rewrite (run_handler p.1 p.2 input)) (finish_order (waited matched))).
Proof using laws.
  rewrite latest_updated_input_eq.
  destruct (omap_imap_last (λ p, pre_rewrite (run_handler p.1 p.2 input)) id (finish_order (waited matched)))
    as (HS & <- & _); [done|].
  f_equal. apply keep_latest_last; [|done].
  rewrite (execute_orders parse_completed_pre_tool_use matched input turn_id), omap_imap.
  erewrite imap_ext; [reflexivity|]. intros i p Hi. simpl. do 2 f_equal.
  apply (pre_answer p.2 (run_handler p.1 p.2 input)), (waited_sync matched).
  rewrite <-(finish_order_perm (waited matched)). by eapply list_elem_of_lookup_2.
Qed.

(** The handlers of a tool event waited for, with what each answers. *)
Definition pre_matched handlers (request : PreToolUseRequest Json) : list (ConfiguredHandler Json) :=
  select_handlers_for_matcher_inputs handlers PreToolUse
    (matcher_inputs (pre_tool_name request) (pre_matcher_aliases request)).
Definition permission_matched handlers (request : PermissionRequestRequest Json)
  : list (ConfiguredHandler Json) :=
  select_handlers_for_matcher_inputs handlers PermissionRequest
    (matcher_inputs (per_tool_name request) (per_matcher_aliases request)).

(** C26: A tool call is blocked exactly when a matching synchronous hook answers with a block, by a
    valid JSON answer or by exit code 2 with a reason, and the reason given is that of the first one
    configured; when none blocks, the input of the tool is replaced by the rewrite of the hook that
    finished last.  Asynchronous and executor-scoped hooks have no say, and the run never panics. *)
Theorem tool_blocked_by_first_verdict handlers request json :
  pre_tool_use_json request = Ok json →
  let hooks := waited (pre_matched handlers request) in
  let verdicts := omap (λ p, pre_verdict (run_handler p.1 p.2 json)) hooks in
  let rewrites := omap (λ p, pre_rewrite (run_handler p.1 p.2 json)) (finish_order hooks) in
  ∃ outcome scheduled, run_pre_tool_use handlers request = Some (outcome, scheduled) ∧
    pre_outcome_block outcome = is_Some_b (head verdicts) ∧
    pre_outcome_reason outcome = head verdicts ∧
    pre_outcome_input outcome = if is_Some_b (head verdicts) then None else last rewrites.
Proof using laws.
  intros Hj. cbv zeta. unfold run_pre_tool_use. fold (pre_matched handlers request). rewrite Hj.
  generalize (pre_matched handlers request) as matched. intros [|h0 rest].
  { do 2 eexists. split; [reflexivity|]. unfold waited. simpl.
    assert (finish_order [] = []) as -> by (apply Permutation_nil_r, finish_order_perm). done. }
  remember (h0 :: rest) as matched eqn:E. clear E h0 rest.
  set (hooks := waited matched).
  set (verdicts := omap (λ p, pre_verdict (run_handler p.1 p.2 json)) hooks).
  set (d := execute_handlers _ _ _ _).
  assert (omap (λ p, pre_block_reason (data p)) (results d) = verdicts) as Hr.
  { unfold d. rewrite (execute_omap _ _ _ _ pre_block_reason). apply omap_ext_in.
    intros p Hp. by apply pre_answer, (waited_sync matched). }
  assert (existsb (λ p, pre_should_block (data p)) (results d) = is_Some_b (head verdicts)) as Hb.
  { unfold d, verdicts. rewrite (execute_existsb _ _ _ _ pre_should_block), <-existsb_is_Some.
    apply existsb_ext_in. intros p Hp. by apply pre_answer, (waited_sync matched). }
  assert (latest_updated_input (results d) =
    last (omap (λ p, pre_rewrite (run_handler p.1 p.2 json)) (finish_order hooks))) as Hl
    by apply latest_rewrite.
  rewrite Hr, Hb, Hl.
  destruct (execute_events parse_completed_pre_tool_use matched json (Some (pre_turn_id request))
    pre_completed) as [events Ee]. change (events_of (results d) = Some events) in Ee. rewrite Ee.
  destruct (spill_contexts_total spill_answers (flatten_additional_contexts
    ((λ p, pre_contexts (data p)) <$> results d))) as [contexts ->].
  do 2 eexists. split; [reflexivity|]. done.
Qed.

(** What denials and approvals come to. *)
Lemma resolve_from_spec (allow : option PermissionRequestDecision) decisions :
  (allow = None ∨ allow = Some Allow) →
  resolve_permission_request_decision_from allow decisions =
  match head (omap (λ d, match d with Deny m => Some m | Allow => None end) decisions) with
  | Some m => Some (Deny m)
  | None => if bool_decide (decisions = []) then allow else Some Allow
  end.
Proof.
  revert allow. induction decisions as [|[|m] rest IH]; intros allow Ha; csimpl; [done| |done].
  rewrite IH by (by right). destruct (head _); [done|]. by destruct rest.
Qed.

(** C15: When a matching synchronous hook denies a request for permission, by exit code 2 with a reason
    or by a JSON answer without unsupported fields, the request is denied with the message of the first
    one configured, whatever other hooks say and in which order they finish; when none denies, it is
    allowed exactly when one allows it, and otherwise hooks leave it open.  An answer with an unsupported
    field says nothing, a denial in it included. *)
Theorem supported_denial_denies handlers request json :
  permission_request_json request = Ok json →
  let decisions := omap (λ p, permission_verdict (run_handler p.1 p.2 json))
                     (waited (permission_matched handlers request)) in
  let denials := omap (λ d, match d with Deny m => Some m | Allow => None end) decisions in
  ∃ outcome scheduled, run_permission_request handlers request = Some (outcome, scheduled) ∧
    permission_outcome outcome =
      match head denials with
      | Some m => Some (Deny m)
      | None => if bool_decide (decisions = []) then None else Some Allow
      end.
Proof using laws.
  intros Hj. cbv zeta. unfold run_permission_request. fold (permission_matched handlers request).
  rewrite Hj. generalize (permission_matched handlers request) as matched. intros [|h0 rest].
  { do 2 eexists. split; [reflexivity|]. done. }
  remember (h0 :: rest) as matched eqn:E. clear E h0 rest.
  set (decisions := omap (λ p, permission_verdict (run_handler p.1 p.2 json)) (waited matched)).
  set (d := execute_handlers _ _ _ _).
  assert (omap data (results d) = decisions) as ->.
  { etrans; [apply (execute_omap parse_completed_permission_request matched json _ id)|].
    apply omap_ext_in.
    intros p Hp. by apply permission_answer, (waited_sync matched). }
  destruct (execute_events parse_completed_permission_request matched json
    (Some (per_turn_id request)) permission_completed) as [events Ee].
  change (events_of (results d) = Some events) in Ee. rewrite Ee.
  do 2 eexists. split; [reflexivity|]. simpl. apply resolve_from_spec. by left.
Qed.
End outcomes.

(** ** Stop hooks *)

(** What a stop hook wants: to end the turn, or to continue it with a prompt. *)
Inductive stop_answer := EndsTurn (reason : option str) | ContinuesTurn (reason : str).
Definition ends_turn (a : option stop_answer) : bool :=
  match a with Some (EndsTurn _) => true | _ => false end.
Definition continue_reason (a : option stop_answer) : option str :=
  match a with Some (ContinuesTurn reason) => Some reason | _ => None end.

Section stop.
Context {Json : Type} `{!HookWires Json}.
Implicit Types (h : ConfiguredHandler Json) (r : HandlerRunResult).

Definition stop_verdict (event : HookEventName) r : option stop_answer :=
  match error r, exit_code r with
  | None, Some 0%Z =>
      parsed ← (if bool_decide (event = StopEvent) then parse_stop else parse_subagent_stop) (stdout r);
      if negb (continue_processing (stop_universal parsed))
      then Some (EndsTurn (stop_reason (stop_universal parsed)))
      else if stop_should_block parsed
      then ContinuesTurn <$> (stop_out_reason parsed ≫= trimmed_non_empty) else None
  | None, Some 2%Z => ContinuesTurn <$> trimmed_non_empty (stderr r)
  | _, _ => None
  end.

Definition parse_stop_answer (event : HookEventName) (stdout : str) : option StopOutput :=
  (if bool_decide (event = StopEvent) then parse_stop else parse_subagent_stop) stdout.

(** Blank output is no answer, and a block that is refused does not continue the turn. *)
Lemma parse_stop_answer_blank event s :
  str_eqb (trim s) [] = true → parse_stop_answer event s = None.
Proof.
  intros Hb. unfold parse_stop_answer, parse_stop, parse_subagent_stop.
  by case_bool_decide; rewrite parse_json_blank.
Qed.
Lemma parse_stop_answer_invalid event s out :
  parse_stop_answer event s = Some out →
  is_Some_b (stop_invalid_block_reason out) = true → stop_should_block out = false.
Proof.
  intros H. assert (∃ wire name, out = stop_output wire name) as (wire & name & ->).
  { unfold parse_stop_answer, parse_stop, parse_subagent_stop in H.
    case_bool_decide; apply fmap_Some in H as (wire & _ & ->); eauto. }
  unfold stop_output. cbn. destruct (_ && _); [|done]. intros _. by rewrite andb_false_r.
Qed.

(** The data and the status of the answer say the same. *)
Definition stop_says (p : ParsedHandler StopHandlerData) (a : option stop_answer) : Prop :=
  has_status Stopped p = ends_turn a ∧ has_status Blocked p = is_Some_b (continue_reason a) ∧
  sd_should_stop (data p) = ends_turn a ∧ sd_should_block (data p) = is_Some_b (continue_reason a) ∧
  sd_block_reason (data p) = continue_reason a ∧ is_Some (completed p).

Lemma stop_says_event h r t status entries d a :
  is_sync h = true →
  bool_decide (status = Stopped) = ends_turn a → bool_decide (status = Blocked) = is_Some_b (continue_reason a) →
  sd_should_stop d = ends_turn a → sd_should_block d = is_Some_b (continue_reason a) →
  sd_block_reason d = continue_reason a → stop_says (parsed_event h r t status entries d) a.
Proof.
  intros [path E]%is_sync_local. unfold stop_says, has_status, parsed_event, completed_summary.
  rewrite E. simpl. intros. by split_and!.
Qed.
Lemma stop_says_block h r t entries reason :
  is_sync h = true → stop_says (stop_block h r t entries reason) (Some (ContinuesTurn reason)).
Proof.
  intros [path E]%is_sync_local. unfold stop_says, has_status, stop_block, completed_summary.
  rewrite E. simpl. by split_and!.
Qed.

Lemma stop_answer_spec h r t :
  is_sync h = true → stop_says (parse_completed_stop h r t) (stop_verdict (event_name h) r).
Proof.
  intros Hs. assert (can_apply_control_effects h = true) as Hc by done.
  unfold parse_completed_stop, stop_verdict. rewrite Hc. simpl.
  destruct (error r); [by apply stop_says_event|].
  destruct (exit_code r) as [code|]; [|by apply stop_says_event].
  destruct (exit_code_cases code) as [->|[->|(H1 & H2 & H3)]].
  - change ((if bool_decide (event_name h = StopEvent) then parse_stop else parse_subagent_stop) (stdout r))
      with (parse_stop_answer (event_name h) (stdout r)).
    destruct (str_eqb _ _) eqn:Eb.
    { rewrite parse_stop_answer_blank by done. by apply stop_says_event. }
    destruct (parse_stop_answer _ _) as [out|] eqn:Ep; [|by apply stop_says_event].
    pose proof (parse_stop_answer_invalid _ _ _ Ep) as Hi. cbn [mbind option_bind].
    destruct (negb (continue_processing _)); [by apply stop_says_event|].
    destruct (stop_invalid_block_reason out); [rewrite Hi by done; by apply stop_says_event|].
    destruct (stop_should_block out); [|by apply stop_says_event].
    destruct (stop_out_reason out ≫= trimmed_non_empty); [by apply stop_says_block|by apply stop_says_event].
  - cbn. destruct (trimmed_non_empty (stderr r)); [by apply stop_says_block|by apply stop_says_event].
  - rewrite H1, H3, H2. by apply stop_says_event.
Qed.
End stop.

Section stop_outcome.
Context {Json : Type} `{!HookWires Json} `{!HookRuntime Json} {laws : HookRuntimeLaws}.
Context `{!RegexCrate} `{!HookInputs Json}.
Implicit Types (handlers matched : list (ConfiguredHandler Json)).

Lemma existsb_perm {A} (f : A → bool) (l l' : list A) : l ≡ₚ l' → existsb f l = existsb f l'.
Proof.
  induction 1 as [|x l l' _ IH|x y l|l l' l'' _ IH1 _ IH2]; simpl; [done|by rewrite IH| |congruence].
  by destruct (f x), (f y).
Qed.
Lemma existsb_imap {A B} (f : nat → A → B) (g : B → bool) (g' : A → bool) (l : list A) :
  (∀ k x, g (f k x) = g' x) → existsb g (imap f l) = existsb g' l.
Proof.
  revert f. induction l as [|x l IH]; intros f Hf; csimpl; [done|].
  rewrite Hf. f_equal. apply IH. intros k y. apply Hf.
Qed.

(** Executor-scoped hooks are left to run unless a hook blocks and none stops. *)
Lemma execute_executor {T} (parse : ConfiguredHandler Json → HandlerRunResult → option str → ParsedHandler T)
    matched input turn_id :
  let answers := answer parse input turn_id <$> waited matched in
  scheduled_executor (execute_handlers matched input turn_id parse) =
  if existsb (has_status Stopped) answers || negb (existsb (has_status Blocked) answers)
  then List.filter is_executor_scoped matched else [].
Proof using laws.
  cbv zeta. unfold execute_handlers. cbn [scheduled_executor]. fold (waited matched).
  assert (∀ status, existsb (λ p : nat * ParsedHandler T, has_status status p.2)
      (imap (λ k '(i, h), (i, set_completion_order k (parse h (run_handler i h input) turn_id)))
         (finish_order (waited matched))) =
    existsb (has_status status) (answer parse input turn_id <$> waited matched)) as Hex; [|by rewrite !Hex].
  intros status.
  rewrite (existsb_perm _ (answer parse input turn_id <$> waited matched)
             (answer parse input turn_id <$> finish_order (waited matched)))
    by (by rewrite (finish_order_perm (waited matched))).
  rewrite existsb_fmap. apply existsb_imap. by intros k [i h].
Qed.

Lemma filter_ext_bool {A} (f g : A → bool) (l : list A) :
  (∀ x, f x = g x) → List.filter f l = List.filter g l.
Proof. intros Hfg. induction l as [|x l IH]; simpl; [done|]. by rewrite Hfg, IH. Qed.
Lemma filter_filter_bool {A} (f g : A → bool) (l : list A) :
  List.filter f (List.filter g l) = List.filter (λ x, g x && f x) l.
Proof. induction l as [|x l IH]; simpl; [done|]. destruct (g x); simpl; [|done]. by rewrite IH. Qed.
Lemma filter_false {A} (l : list A) : List.filter (λ _, false) l = [].
Proof. by induction l. Qed.
Lemma filter_true {A} (l : list A) : List.filter (λ _, true) l = l.
Proof. induction l as [|x l IH]; simpl; [done|]. by rewrite IH. Qed.

(** Executor-scoped handlers are not waited for, so a dispatch of them alone
    schedules them all. *)
Lemma execute_cleanup {T} (parse : ConfiguredHandler Json → HandlerRunResult → option str → ParsedHandler T)
    matched input turn_id :
  let cleanup := List.filter is_executor_scoped matched in
  scheduled_executor (execute_handlers cleanup input turn_id parse) = cleanup.
Proof using laws.
  cbv zeta. rewrite execute_executor. assert (waited (List.filter is_executor_scoped matched) = []) as ->.
  { destruct (waited _) as [|p l] eqn:E; [done|]. exfalso.
    assert (p ∈ waited (List.filter is_executor_scoped matched)) as Hp by (rewrite E; by left).
    pose proof (waited_sync _ _ Hp) as Hs. apply is_sync_local in Hs as [path Hpath].
    unfold waited in Hp. apply list_elem_of_In, List.filter_In in Hp as [Hp _].
    apply list_elem_of_In, elem_of_lookup_imap in Hp as (i & h & -> & Hh).
    apply list_elem_of_lookup_2, list_elem_of_In, List.filter_In in Hh as [_ Hh].
    unfold is_executor_scoped in Hh. simpl in Hpath. by rewrite Hpath in Hh. }
  simpl. rewrite filter_filter_bool. apply filter_ext_bool. intros h. apply andb_diag.
Qed.

(** The executor-scoped handlers a stop leaves to run. *)
Lemma stop_executors memory ends prompts matched input turn_id :
  let kept := List.filter (λ h, negb (memory && is_executor_scoped h)) matched in
  (if ends || negb prompts then List.filter is_executor_scoped kept else []) ++
  match List.filter (λ h, memory && is_executor_scoped h) matched with
  | [] => []
  | _ => scheduled_executor (execute_handlers
           (List.filter (λ h, memory && is_executor_scoped h) matched) input turn_id parse_completed_stop)
  end =
  if negb ends && prompts && negb memory then [] else List.filter is_executor_scoped matched.
Proof using laws.
  cbv zeta. destruct memory.
  - rewrite (filter_ext_bool (λ h, true && is_executor_scoped h) is_executor_scoped) by done.
    rewrite filter_filter_bool, (filter_ext_bool _ (λ _, false)), filter_false
      by (intros h; by destruct (is_executor_scoped h)).
    rewrite execute_cleanup, andb_false_r.
    transitivity (List.filter is_executor_scoped matched); [|done]. by repeat case_match.
  - simpl. rewrite filter_false, filter_true, app_nil_r, andb_true_r. by destruct ends, prompts.
Qed.

(** What the answers come to. *)
Lemma stop_says_all ps answers :
  Forall2 stop_says ps answers →
  existsb (has_status Stopped) ps = existsb ends_turn answers ∧
  existsb (has_status Blocked) ps = bool_decide (omap continue_reason answers ≠ []) ∧
  existsb sd_should_stop (data <$> ps) = existsb ends_turn answers ∧
  existsb sd_should_block (data <$> ps) = bool_decide (omap continue_reason answers ≠ []) ∧
  omap sd_block_reason (data <$> ps) = omap continue_reason answers.
Proof.
  induction 1 as [|p a ps answers (H1 & H2 & H3 & H4 & H5 & _) _ (I1 & I2 & I3 & I4 & I5)]; csimpl; [done|].
  rewrite H1, H2, H3, H4, H5, I1, I2, I3, I4, I5. by destruct (continue_reason a).
Qed.

(** A stop hook that ends the turn wins over those that would continue it; the turn continues
    exactly when some synchronous hook gives a prompt and none ends it, with all the prompts joined.
    Executor-scoped cleanup hooks run exactly when the turn does not continue, and always for
    internal memory work, whose turn ends either way. *)
Theorem stop_ends_or_continues handlers request json :
  stop_json request = Ok json →
  let memory := is_memory_consolidation (target request) in
  let matched := stop_select_handlers (target request) handlers in
  let hooks := waited (List.filter (λ h, negb (memory && is_executor_scoped h)) matched) in
  let answers := (λ p, stop_verdict (event_name p.2) (run_handler p.1 p.2 json)) <$> hooks in
  let ends := existsb ends_turn answers in
  let prompts := omap continue_reason answers in
  let continues := negb ends && bool_decide (prompts ≠ []) in
  ∃ outcome async executor, run_stop handlers request = Some (outcome, (async, executor)) ∧
    stop_outcome_stop outcome = ends ∧ stop_outcome_block outcome = continues ∧
    stop_outcome_block_reason outcome = (if continues then join_text_chunks prompts else None) ∧
    executor = if continues && negb memory then [] else List.filter is_executor_scoped matched.
Proof using laws.
  intros Hj. cbv zeta. unfold run_stop. rewrite Hj. cbv zeta.
  generalize (stop_select_handlers (target request) handlers) as matched. intros [|h0 rest].
  { do 3 eexists. split; [reflexivity|]. by case_match. }
  remember (h0 :: rest) as matched eqn:E. clear E h0 rest.
  set (memory := is_memory_consolidation (target request)).
  set (kept := List.filter (λ h, negb (memory && is_executor_scoped h)) matched).
  set (d := execute_handlers kept json _ parse_completed_stop).
  set (answers := _ <$> waited kept).
  assert (Forall2 stop_says (answer parse_completed_stop json (Some (stop_turn_id request)) <$> waited kept)
    answers) as Hsays.
  { apply Forall2_fmap, Forall_Forall2_diag, Forall_forall. intros p Hp.
    by apply stop_answer_spec, (waited_sync kept). }
  destruct (stop_says_all _ _ Hsays) as (S1 & S2 & S3 & S4 & S5).
  pose proof (execute_executor parse_completed_stop kept json (Some (stop_turn_id request))) as Hx.
  cbv zeta in Hx. rewrite S1, S2 in Hx. change (execute_handlers kept json _ _) with d in Hx.
  pose proof (execute_data parse_completed_stop kept json (Some (stop_turn_id request))) as Hd.
  change (execute_handlers kept json _ _) with d in Hd.
  assert (data <$> results d = data <$> (answer parse_completed_stop json
    (Some (stop_turn_id request)) <$> waited kept)) as Hd'.
  { rewrite Hd, <-list_fmap_compose. done. }
  rewrite <-Hd' in S3, S4, S5.
  destruct (execute_events parse_completed_stop kept json (Some (stop_turn_id request)))
    as [events Ee]; [intros h r t Hs; by apply (stop_answer_spec h r t Hs)|].
  change (events_of (results d) = Some events) in Ee. rewrite Ee.
  unfold aggregate_results. rewrite S3, S4, S5, Hx.
  match goal with |- context [maybe_spill_prompt_fragments ?a ?f] =>
    destruct (spill_fragments_total a f) as [fragments ->] end.
  do 3 eexists. split; [reflexivity|]. split_and!; [done..|].
  apply stop_executors.
Qed.
End stop_outcome.

(** ** Concrete runs *)

Module MiniHooks.
(** A document is its text, and a hook prints the text of its command; the last
    hook started finishes first. *)
Definition plain : HookUniversalOutputWire := mkUniversalWire true None false None.
Definition pre_wire (d : PreToolUsePermissionDecisionWire) (reason : option str) (input : option str)
  : PreToolUseCommandOutputWire str :=
  mkPreToolUseWire plain None None (Some (mkPreToolUseSpecific PreToolUse (Some d) reason input None)).
Definition permission_wire (b : PermissionRequestBehaviorWire) (interrupt : bool)
  : PermissionRequestCommandOutputWire str :=
  mkPermissionWire plain
    (Some (mkPermissionSpecific PermissionRequest (Some (mkPermissionDecisionWire b None None None interrupt)))).

#[local] Instance text_wires : HookWires str := {
  json_from_str s := if starts_with (lit "{") s then Some s else None;
  json_is_object _ := true;
  pre_tool_use_from_value s :=
    if str_eqb s (lit "{deny}") then Some (pre_wire DenyWire (Some (lit "not here")) None)
    else if str_eqb s (lit "{ls}") then Some (pre_wire AllowWire None (Some (lit "ls")))
    else if str_eqb s (lit "{pwd}") then Some (pre_wire AllowWire None (Some (lit "pwd"))) else None;
  permission_request_from_value s :=
    if str_eqb s (lit "{allow}") then Some (permission_wire AllowBehavior false)
    else if str_eqb s (lit "{deny}") then Some (permission_wire DenyBehavior false)
    else if str_eqb s (lit "{deny, interrupt}") then Some (permission_wire DenyBehavior true) else None;
  post_tool_use_from_value _ := None;
  session_start_from_value _ := None;
  subagent_start_from_value _ := None;
  user_prompt_submit_from_value _ := None;
  stop_from_value s :=
    if str_eqb s (lit "{block}") then Some (mkStopWire plain (Some BlockDecision) (Some (lit "more")))
    else if str_eqb s (lit "{stop}") then Some (mkStopWire (mkUniversalWire false None false None) None None)
    else None;
  subagent_stop_from_value _ := None;
  pre_compact_from_value _ := None;
  post_compact_from_value _ := None;
  interrupt_from_value _ := None;
}.
#[local] Instance no_regex : RegexCrate := {
  regex := unit;
  regex_new _ := Err (lit "unsupported");
  regex_is_match _ _ := false;
}.
#[local] Instance empty_inputs : HookInputs str := {
  pre_tool_use_json _ := Ok (lit "{}");
  permission_request_json _ := Ok (lit "{}");
  post_tool_use_json _ := Ok (lit "{}");
  user_prompt_submit_json _ := Ok (lit "{}");
  pre_compact_json _ := Ok (lit "{}");
  post_compact_json _ := Ok (lit "{}");
  stop_json _ := Ok (lit "{}");
  session_start_json _ := Ok (lit "{}");
  interrupt_json _ := Ok (lit "{}");
  session_end_json _ := Ok (lit "{}");
}.
Definition command_text (h : ConfiguredHandler str) : str :=
  match kind h with Command command _ _ => command | McpTool _ _ _ => [] end.
#[local] Instance printing : HookRuntime str := {
  run_handler _ h _ := mkRunResult 0 0 0 (Some 0%Z) (command_text h) [] None;
  finish_order l := reverse l;
  clock := 0%Z;
  spill_answers _ := mkSpillAnswer (lit "/tmp/out.txt") true true;
}.
#[local] Instance printing_laws : HookRuntimeLaws.
Proof. constructor. intros l. apply reverse_Permutation. Qed.

Definition prints (event : HookEventName) (text : str) (is_async : bool) : ConfiguredHandler str :=
  mkHandler false event None 600 None default_limit (Local (lit "/hooks.json")) User 0
    (Command text [] is_async).
Definition executor (event : HookEventName) : ConfiguredHandler str :=
  mkHandler true event None 5 None default_limit
    (ExecutorScoped [] (lit "env") None None (lit "/plugin.json") (lit "hooks.json")) Plugin 1
    (McpTool (lit "node_repl") (lit "turn_ended") []).
Definition shell_call : PreToolUseRequest str :=
  mkPreToolUseRequest [] (lit "turn") None (lit "/") None [] [] (lit "shell") [] (lit "call") (lit "rm").
Definition shell_permission : PermissionRequestRequest str :=
  mkPermissionRequestRequest [] (lit "turn") None (lit "/") None [] [] (lit "shell") [] (lit "call") (lit "rm").
Definition turn_end (t : StopHookTarget) : StopRequest :=
  mkStopRequest [] (lit "turn") (lit "/") None [] [] false None t.

(** Two rewrites: the first hook configured finishes last, and its rewrite is
    used. *)
Lemma tool_blocked_by_first_verdict_witness :
  pre_tool_use_json shell_call = Ok (lit "{}") ∧
  ∃ outcome scheduled,
    run_pre_tool_use [prints PreToolUse (lit "{ls}") false; prints PreToolUse (lit "{pwd}") false] shell_call
      = Some (outcome, scheduled) ∧
    pre_outcome_block outcome = false ∧ pre_outcome_input outcome = Some (lit "ls").
Proof.
  split; [reflexivity|].
  destruct (tool_blocked_by_first_verdict
    [prints PreToolUse (lit "{ls}") false; prints PreToolUse (lit "{pwd}") false] shell_call (lit "{}"))
    as (outcome & scheduled & Hr & Hb & _ & Hi); [reflexivity|].
  exists outcome, scheduled. split; [exact Hr|]. split.
  - rewrite Hb. vm_compute. reflexivity.
  - rewrite Hi. vm_compute. reflexivity.
Defined.

Lemma supported_denial_denies_witness :
  permission_request_json shell_permission = Ok (lit "{}") ∧
  ∃ outcome scheduled,
    run_permission_request
      [prints PermissionRequest (lit "{allow}") false; prints PermissionRequest (lit "{deny}") false]
      shell_permission = Some (outcome, scheduled) ∧
    permission_outcome outcome = Some (Deny (lit "PermissionRequest hook denied approval")).
Proof.
  split; [reflexivity|].
  destruct (supported_denial_denies
    [prints PermissionRequest (lit "{allow}") false; prints PermissionRequest (lit "{deny}") false]
    shell_permission (lit "{}")) as (outcome & scheduled & Hr & Hd); [reflexivity|].
  exists outcome, scheduled. split; [exact Hr|]. rewrite Hd. vm_compute. reflexivity.
Defined.

Lemma stop_ends_or_continues_witness :
  stop_json (turn_end StopTarget) = Ok (lit "{}") ∧
  ∃ outcome async executors,
    run_stop [prints StopEvent (lit "{block}") false; executor StopEvent] (turn_end StopTarget)
      = Some (outcome, (async, executors)) ∧
    stop_outcome_block_reason outcome = Some (lit "more") ∧ executors = [].
Proof.
  split; [reflexivity|].
  destruct (stop_ends_or_continues [prints StopEvent (lit "{block}") false; executor StopEvent]
    (turn_end StopTarget) (lit "{}")) as (outcome & async & executors & Hr & _ & _ & Hb & Hx); [reflexivity|].
  exists outcome, async, executors. split; [exact Hr|]. split.
  - rewrite Hb. vm_compute. reflexivity.
  - rewrite Hx. vm_compute. reflexivity.
Defined.

(** A denial that also asks to interrupt is refused as a whole, so a hook that
    allows the request decides it. *)
Lemma interrupting_denial_is_dropped :
  (permission_outcome ∘ fst <$> run_permission_request
    [prints PermissionRequest (lit "{allow}") false;
     prints PermissionRequest (lit "{deny, interrupt}") false] shell_permission)
  = Some (Some Allow).
Proof. vm_compute. reflexivity. Qed.
End MiniHooks.
