(* ===== verification/HookDiscovery.v ===== *)
(** * Discovering hooks ([hooks/src/engine/discovery.rs])

    Hooks come from managed requirements, from the configuration layers and from
    plugins.  A hook runs when its source is managed, when it is a bundled cleanup
    hook, or when the user has trusted exactly this hook, known by a hash of its
    normalised form; a required hook that cannot be loaded is reported.  The files
    are read by the caller; hashing and the [Debug] texts are a class. *)
From stdpp Require Import numbers strings list gmap.
From S2P Require Import Prelude RustStr ConfigLayers Truncate Hooks HookEvents.

(** ** Configuration ([config/src/hook_config.rs]) *)

Record HookStateToml := mkHookState { state_enabled : option bool; state_trusted_hash : option str }.

Section config.
Context {Json : Type}.

Inductive HookHandlerConfig :=
  | CommandConfig (command : str) (command_windows : option str) (timeout : option N)
      (is_async : bool) (status_message : option str) (additional_context_limit : option N)
  | McpToolConfig (server tool : str) (input : list (str * Json)) (timeout : option N)
      (status_message : option str)
  | PromptConfig
  | AgentConfig.
Record MatcherGroup := mkGroup { group_matcher : option str; group_hooks : list HookHandlerConfig }.

Record HookEventsToml := mkHookEvents {
  pre_tool_use : list MatcherGroup;
  permission_request : list MatcherGroup;
  post_tool_use : list MatcherGroup;
  pre_compact : list MatcherGroup;
  post_compact : list MatcherGroup;
  session_start : list MatcherGroup;
  session_end : list MatcherGroup;
  user_prompt_submit : list MatcherGroup;
  subagent_start : list MatcherGroup;
  subagent_stop : list MatcherGroup;
  stop : list MatcherGroup;
  interrupt : list MatcherGroup;
}.
Definition into_matcher_groups (e : HookEventsToml) : list (HookEventName * list MatcherGroup) :=
  [(PreToolUse, pre_tool_use e); (PermissionRequest, permission_request e);
   (PostToolUse, post_tool_use e); (PreCompact, pre_compact e); (PostCompact, post_compact e);
   (SessionStart, session_start e); (SessionEnd, session_end e);
   (UserPromptSubmit, user_prompt_submit e); (SubagentStart, subagent_start e);
   (SubagentStop, subagent_stop e); (StopEvent, stop e); (Interrupt, interrupt e)].
Definition is_empty_events (e : HookEventsToml) : bool :=
  forallb (λ p, match p.2 with [] => true | _ => false end) (into_matcher_groups e).
Definition handler_count (e : HookEventsToml) : nat :=
  sum_list ((λ g, length (group_hooks g)) <$> concat (into_matcher_groups e).*2).
End config.
Arguments HookHandlerConfig : clear implicits.
Arguments MatcherGroup : clear implicits.
Arguments HookEventsToml : clear implicits.

(** ** Labels and keys ([hooks/src/lib.rs]) *)

Definition hook_event_key_label (event : HookEventName) : str :=
  match event with
  | PreToolUse => lit "pre_tool_use"
  | PermissionRequest => lit "permission_request"
  | PostToolUse => lit "post_tool_use"
  | PreCompact => lit "pre_compact"
  | PostCompact => lit "post_compact"
  | SessionStart => lit "session_start"
  | SessionEnd => lit "session_end"
  | UserPromptSubmit => lit "user_prompt_submit"
  | SubagentStart => lit "subagent_start"
  | SubagentStop => lit "subagent_stop"
  | StopEvent => lit "stop"
  | Interrupt => lit "interrupt"
  end.
Definition hook_event_name_label (event : HookEventName) : str :=
  match event with
  | PreToolUse => lit "PreToolUse"
  | PermissionRequest => lit "PermissionRequest"
  | PostToolUse => lit "PostToolUse"
  | PreCompact => lit "PreCompact"
  | PostCompact => lit "PostCompact"
  | SessionStart => lit "SessionStart"
  | SessionEnd => lit "SessionEnd"
  | UserPromptSubmit => lit "UserPromptSubmit"
  | SubagentStart => lit "SubagentStart"
  | SubagentStop => lit "SubagentStop"
  | StopEvent => lit "Stop"
  | Interrupt => lit "Interrupt"
  end.
Definition hook_key (key_source : str) (event : HookEventName) (group_index handler_index : nat) : str :=
  key_source ++ lit ":" ++ hook_event_key_label event ++ lit ":" ++ fmt_nat group_index ++ lit ":"
    ++ fmt_nat handler_index.
Definition plugin_hook_key_source (plugin_id source_relative_path : str) : str :=
  plugin_id ++ lit ":" ++ source_relative_path.

(** ** Bundled cleanup hooks ([plugin/src/bundled_hooks.rs]) *)

Inductive BundledHookTarget :=
  | McpServer (server tool : str)
  | App (server connector_id tool : str).
Record BundledHook := mkBundled {
  bundled_plugin_id : str;
  bundled_events : list HookEventName;
  bundled_target : BundledHookTarget;
}.
Definition ALLOWLISTED_BUNDLED_HOOKS : list BundledHook :=
  let node := McpServer (lit "node_repl") (lit "turn_ended") in
  let events := [StopEvent; Interrupt; SubagentStop] in
  [mkBundled (lit "browser@openai-bundled") events node;
   mkBundled (lit "chrome@openai-bundled") events node;
   mkBundled (lit "chrome-dev@openai-bundled") events node;
   mkBundled (lit "chrome-internal@openai-bundled") events node;
   mkBundled (lit "computer-use@openai-bundled") events node;
   mkBundled (lit "unified-computer-use@openai-bundled") events
     (McpServer (lit "cua_repl") (lit "turn_ended"));
   mkBundled (lit "browser@openai-curated-remote") [StopEvent; SubagentStop]
     (App (lit "rexux_apps") (lit "connector_openai_browser") (lit "browser.turn_ended"))].

Definition is_allowlisted_bundled_cleanup_hook {Json} (plugin_id : str) (event : HookEventName)
    (matcher : option str) (handler : HookHandlerConfig Json) (app_connector_id : option str) : bool :=
  match handler with
  | McpToolConfig server tool input _ _ =>
      match matcher with
      | Some _ => false
      | None =>
          existsb (λ hook,
            str_eqb (bundled_plugin_id hook) plugin_id
            && existsb (λ e, bool_decide (e = event)) (bundled_events hook)
            && match bundled_target hook with
               | McpServer expected_server expected_tool =>
                   str_eqb server expected_server && str_eqb tool expected_tool
               | App expected_server connector_id expected_tool =>
                   str_eqb server expected_server && str_eqb tool expected_tool
                   && match input with [] => true | _ => false end
                   && bool_decide (app_connector_id = Some connector_id)
               end) ALLOWLISTED_BUNDLED_HOOKS
      end
  | _ => false
  end.

(** ** Trust *)

Inductive HookTrustStatus := Managed | Untrusted | Trusted | Modified.
#[global] Instance HookTrustStatus_eq_dec : EqDecision HookTrustStatus.
Proof. solve_decision. Defined.

Definition hook_trust_status (is_managed is_builtin : bool) (current_hash : str)
    (trusted_hash : option str) : HookTrustStatus :=
  if is_builtin then Trusted
  else if is_managed then Managed
  else match trusted_hash with
       | Some trusted_hash => if str_eqb trusted_hash current_hash then Trusted else Modified
       | None => Untrusted
       end.
Definition hook_enabled (is_managed is_builtin : bool) (state : option HookStateToml) : bool :=
  is_builtin || is_managed || negb (bool_decide (state ≫= state_enabled = Some false)).
Definition hook_trusted_hash (is_managed : bool) (state : option HookStateToml) : option str :=
  if is_managed then None else state ≫= state_trusted_hash.

Definition hook_metadata_for_config_layer_source `{ConfigPaths} (s : ConfigLayerSource) : HookSource * bool :=
  match s with
  | PackagedDefaults _ => (UnknownSource, false)
  | ConfigLayers.System _ => (Hooks.System, true)
  | ConfigLayers.User _ _ => (Hooks.User, false)
  | ConfigLayers.Project _ => (Hooks.Project, false)
  | ConfigLayers.Mdm _ _ => (Hooks.Mdm, true)
  | EnterpriseManaged _ _ => (CloudManagedConfig, true)
  | ConfigLayers.SessionFlags => (Hooks.SessionFlags, false)
  | LegacyManagedConfigTomlFromFile _ => (LegacyManagedConfigFile, true)
  | LegacyManagedConfigTomlFromMdm => (LegacyManagedConfigMdm, true)
  end.

Inductive RequirementSource :=
  | ReqUnknown
  | ReqMdmManagedPreferences (domain key : str)
  | ReqComposite (sources : list RequirementSource)
  | ReqEnterpriseManaged (id name : str)
  | ReqSystemRequirementsToml (file : str)
  | ReqLegacyManagedConfigTomlFromFile (file : str)
  | ReqLegacyManagedConfigTomlFromMdm.
Fixpoint hook_source_for_requirement (s : RequirementSource) : HookSource :=
  match s with
  | ReqMdmManagedPreferences _ _ => Hooks.Mdm
  | ReqSystemRequirementsToml _ => Hooks.System
  | ReqLegacyManagedConfigTomlFromFile _ => LegacyManagedConfigFile
  | ReqLegacyManagedConfigTomlFromMdm => LegacyManagedConfigMdm
  | ReqComposite (first :: _) => hook_source_for_requirement first
  | ReqComposite [] => UnknownSource
  | ReqEnterpriseManaged _ _ => CloudRequirements
  | ReqUnknown => UnknownSource
  end.
Definition hook_source_for_requirement_source (s : option RequirementSource) : HookSource :=
  match s with Some s => hook_source_for_requirement s | None => UnknownSource end.

(** ** Normalisation *)

Definition SESSION_END_DEFAULT_TIMEOUT_SEC : N := 1.
Definition SESSION_END_MAX_TIMEOUT_SEC : N := 3.

(** [str::replace]: occurrences from the left; the fuel is the length. *)
Fixpoint str_replace_loop (fuel : nat) (pat to s : str) : str :=
  match fuel, s with
  | S fuel, c :: s' =>
      match strip_prefix pat s with
      | Some rest => to ++ str_replace_loop fuel pat to rest
      | None => c :: str_replace_loop fuel pat to s'
      end
  | _, _ => s
  end.
Definition str_replace (pat to s : str) : str := str_replace_loop (length s) pat to s.

Section discovery.
Context {Json : Type} `{!RegexCrate} `{CP : ConfigPaths}.

(** [version_for_toml] of the identity of a hook, and the [Debug] text of a
    string; [windows] is [cfg!(windows)]; [hash_order] is the order in which a
    [HashMap] with the given entries is iterated. *)
Class DiscoveryEnv := {
  version_for_identity : str → MatcherGroup Json → str;
  debug_str : str → str;
  windows : bool;
  hash_order : list (str * str) → list (str * str);
}.
Context `{!DiscoveryEnv}.

Record HookHandlerSource := mkSource {
  src_path : str;
  key_source : str;
  src_source : HookSource;
  is_managed : bool;
  is_required : bool;
  bypass_hook_trust : bool;
  hook_states : gmap str HookStateToml;
  src_env : list (str * str);
  src_plugin_id : option str;
}.
Inductive HookListEntryHandler :=
  | CommandEntry (command : str) (is_async : bool)
  | McpToolEntry (server tool : str).
Record HookListEntry := mkListEntry {
  le_builtin : bool;
  le_key : str;
  le_event_name : HookEventName;
  le_handler : HookListEntryHandler;
  le_matcher : option str;
  le_timeout_sec : N;
  le_status_message : option str;
  le_additional_context_limit : option N;
  le_source_path : str;
  le_source : HookSource;
  le_plugin_id : option str;
  le_display_order : Z;
  le_enabled : bool;
  le_is_managed : bool;
  le_current_hash : str;
  le_trust_status : HookTrustStatus;
}.
Record NormalizedHandler := mkNormalized {
  nh_config : HookHandlerConfig Json;
  nh_kind : ConfiguredHandlerKind Json;
  nh_timeout_sec : N;
  nh_status_message : option str;
  nh_additional_context_limit : option N;
}.
Record HookDiscoveryPolicy := mkPolicy { allow_managed_hooks_only : bool; policy_bypass : bool }.
Definition allows (policy : HookDiscoveryPolicy) (src : HookHandlerSource) : bool :=
  negb (allow_managed_hooks_only policy) || is_managed src.

Record DiscoveryResult := mkDiscovery {
  d_handlers : list (ConfiguredHandler Json);
  d_hook_entries : list HookListEntry;
  d_warnings : list str;
  d_required_load_errors : list str;
  d_display_order : Z;
}.
Definition warn (text : str) (d : DiscoveryResult) : DiscoveryResult :=
  mkDiscovery (d_handlers d) (d_hook_entries d) (d_warnings d ++ [text]) (d_required_load_errors d)
    (d_display_order d).
Definition record_load_failure (src : HookHandlerSource) (text : str) (d : DiscoveryResult)
  : DiscoveryResult :=
  mkDiscovery (d_handlers d) (d_hook_entries d) (d_warnings d ++ [text])
    (if is_required src then d_required_load_errors d ++ [text] else d_required_load_errors d)
    (d_display_order d).

(** The timeout, and the warning about it. *)
Definition normalize_command_hook (event : HookEventName) (timeout_sec : option N) (path : str)
  : N * list str :=
  match event with
  | SessionEnd | Interrupt =>
      let max := SESSION_END_MAX_TIMEOUT_SEC in
      (N.max 1 (N.min max (default SESSION_END_DEFAULT_TIMEOUT_SEC timeout_sec)),
       match timeout_sec with
       | Some t => if (max <? t)%N
                   then [lit "clamping " ++ hook_event_name_label event ++ lit " hook timeout to "
                           ++ fmt_N max ++ lit "s in " ++ path]
                   else []
       | None => []
       end)
  | _ => (N.max 1 (default 600%N timeout_sec), [])
  end.

Definition emits_context (event : HookEventName) : bool :=
  match event with
  | PreToolUse | PostToolUse | SessionStart | UserPromptSubmit | SubagentStart => true
  | _ => false
  end.
Definition is_session_end (event : HookEventName) : bool := bool_decide (event = SessionEnd).

(** A handler made ready, or why it is skipped; with the warnings. *)
Definition normalize_handler (src : HookHandlerSource) (event : HookEventName)
    (config : HookHandlerConfig Json) : result str NormalizedHandler * list str :=
  match config with
  | CommandConfig command command_windows timeout is_async status_message limit =>
      let command := if windows then default command command_windows else command in
      if str_eqb (trim command) []
      then (Err (lit "skipping empty hook command in " ++ src_path src), [])
      else
        let '(timeout, warnings) := normalize_command_hook event timeout (src_path src) in
        let runs_async := is_async && negb (is_session_end event) in
        let warnings := warnings ++
          if is_async && negb runs_async
          then [lit "running async " ++ hook_event_name_label event ++ lit " hook synchronously in "
                  ++ src_path src]
          else [] in
        let '(limit, warnings) :=
          if emits_context event then (limit, warnings)
          else (None, warnings ++
                  match limit with
                  | Some _ => [lit "ignoring additionalContextLimit for " ++ hook_event_name_label event
                                 ++ lit " hook in " ++ src_path src
                                 ++ lit ": this event cannot emit additionalContext"]
                  | None => []
                  end) in
        let normalized_limit :=
          match limit with
          | Some l => if (l =? DEFAULT_HOOK_OUTPUT_TOKEN_LIMIT)%N then None else Some l
          | None => None
          end in
        let config := CommandConfig command None (Some timeout) is_async status_message normalized_limit in
        let command :=
          foldl (λ command '(key, value), str_replace (lit "${" ++ key ++ lit "}") value command)
            command (src_env src) in
        (Ok (mkNormalized config (Command command (src_env src) runs_async) timeout status_message limit),
         warnings)
  | McpToolConfig server tool input timeout status_message =>
      if is_session_end event
      then (Err (lit "skipping MCP tool hook in " ++ src_path src ++ lit ": "
                   ++ hook_event_name_label event ++ lit " MCP hooks are not supported"), [])
      else if str_eqb (trim server) [] || str_eqb (trim tool) []
      then (Err (lit "skipping MCP tool hook in " ++ src_path src
                   ++ lit ": server and tool must not be empty"), [])
      else
        let '(timeout, warnings) := normalize_command_hook event timeout (src_path src) in
        (Ok (mkNormalized (McpToolConfig server tool input (Some timeout) status_message)
               (McpTool server tool input) timeout status_message None), warnings)
  | PromptConfig =>
      (Err (lit "skipping prompt hook in " ++ src_path src ++ lit ": prompt hooks are not supported yet"), [])
  | AgentConfig =>
      (Err (lit "skipping agent hook in " ++ src_path src ++ lit ": agent hooks are not supported yet"), [])
  end.

(** [hook_hash]: the identity has the matcher the event uses and the normalised
    handler alone. *)
Definition hook_hash (event : HookEventName) (matcher : option str) (config : HookHandlerConfig Json)
  : str :=
  version_for_identity (hook_event_key_label event) (mkGroup matcher [config]).

Definition list_entry_handler (kind : ConfiguredHandlerKind Json) : HookListEntryHandler :=
  match kind with
  | Command command _ is_async => CommandEntry command is_async
  | McpTool server tool _ => McpToolEntry server tool
  end.

(** The entry of a normalised handler, and whether it runs. *)
Definition hook_entry (src : HookHandlerSource) (event : HookEventName) (matcher group_matcher : option str)
    (group_index handler_index : nat) (order : Z) (n : NormalizedHandler) : HookListEntry :=
  let current_hash := hook_hash event matcher (nh_config n) in
  let key := hook_key (key_source src) event group_index handler_index in
  let state := hook_states src !! key in
  let builtin :=
    match src_plugin_id src with
    | Some plugin_id =>
        is_allowlisted_bundled_cleanup_hook plugin_id event group_matcher (nh_config n) None
    | None => false
    end in
  mkListEntry builtin key event (list_entry_handler (nh_kind n)) matcher (nh_timeout_sec n)
    (nh_status_message n) (nh_additional_context_limit n) (src_path src) (src_source src)
    (src_plugin_id src) order (hook_enabled (is_managed src) builtin state) (is_managed src) current_hash
    (hook_trust_status (is_managed src) builtin current_hash
       (hook_trusted_hash (is_managed src) state)).
Definition entry_runs (bypass : bool) (e : HookListEntry) : bool :=
  le_enabled e && (bypass || match le_trust_status e with Managed | Trusted => true | _ => false end).
Definition entry_to_handler (e : HookListEntry) (n : NormalizedHandler) : ConfiguredHandler Json :=
  mkHandler (le_builtin e) (le_event_name e) (le_matcher e) (le_timeout_sec e) (le_status_message e)
    (limit_from_config (le_additional_context_limit e)) (Local (le_source_path e)) (le_source e)
    (le_display_order e) (nh_kind n).

(** [i64]: the count of hooks stays far below the largest. *)
Definition append_handler (src : HookHandlerSource) (event : HookEventName)
    (matcher group_matcher : option str) (group_index handler_index : nat)
    (config : HookHandlerConfig Json) (d : DiscoveryResult) : DiscoveryResult :=
  match normalize_handler src event config with
  | (Err reason, _) => record_load_failure src reason d
  | (Ok n, warnings) =>
      let e := hook_entry src event matcher group_matcher group_index handler_index (d_display_order d) n in
      mkDiscovery
        (d_handlers d ++ if entry_runs (bypass_hook_trust src) e then [entry_to_handler e n] else [])
        (d_hook_entries d ++ [e]) (d_warnings d ++ warnings) (d_required_load_errors d)
        (d_display_order d + 1)
  end.
Fixpoint append_handlers (src : HookHandlerSource) (event : HookEventName)
    (matcher group_matcher : option str) (group_index handler_index : nat)
    (configs : list (HookHandlerConfig Json)) (d : DiscoveryResult) : DiscoveryResult :=
  match configs with
  | [] => d
  | config :: rest =>
      append_handlers src event matcher group_matcher group_index (S handler_index) rest
        (append_handler src event matcher group_matcher group_index handler_index config d)
  end.

Definition append_group (src : HookHandlerSource) (event : HookEventName) (group_index : nat)
    (group : MatcherGroup Json) (d : DiscoveryResult) : DiscoveryResult :=
  let matcher := matcher_pattern_for_event event (group_matcher group) in
  let invalid := matcher ≫= λ m, match validate_matcher_pattern m with
                                 | Err err => Some (m, err)
                                 | Ok _ => None
                                 end in
  match invalid with
  | Some (m, err) =>
      let warning := lit "invalid matcher " ++ debug_str m ++ lit " in " ++ src_path src ++ lit ": " ++ err in
      match group_hooks group with
      | [] => warn warning d
      | _ => record_load_failure src warning d
      end
  | None => append_handlers src event matcher (group_matcher group) group_index 0 (group_hooks group) d
  end.
Fixpoint append_matcher_groups (src : HookHandlerSource) (event : HookEventName) (group_index : nat)
    (groups : list (MatcherGroup Json)) (d : DiscoveryResult) : DiscoveryResult :=
  match groups with
  | [] => d
  | group :: rest =>
      append_matcher_groups src event (S group_index) rest (append_group src event group_index group d)
  end.
Definition append_hook_events (policy : HookDiscoveryPolicy) (src : HookHandlerSource)
    (events : HookEventsToml Json) (d : DiscoveryResult) : DiscoveryResult :=
  if negb (allows policy src) then d
  else foldl (λ d '(event, groups), append_matcher_groups src event 0 groups d) d
         (into_matcher_groups events).

(** ** Sources *)

(** The managed hooks, the hooks that [hooks.json] and [config.toml] of a layer
    hold (what [load_hooks_json] and [load_toml_hooks_from_layer] return) and those
    of a plugin, each with its path. *)
Record LayerHooks := mkLayerHooks {
  lh_layer : ConfigLayerSource;
  lh_json : option (str * HookEventsToml Json);
  lh_toml : option (str * HookEventsToml Json);
}.
Record ManagedHooks := mkManagedHooks {
  mh_path : str;
  mh_source : option RequirementSource;
  mh_hooks : HookEventsToml Json;
}.
Record PluginHookSource := mkPluginHooks {
  plugin_root : str;
  plugin_id : str;
  plugin_data_root : str;
  plugin_source_path : str;
  source_relative_path : str;
  plugin_hooks : HookEventsToml Json;
}.
Definition managed_requirement_source (states : gmap str HookStateToml) (m : ManagedHooks)
  : HookHandlerSource :=
  mkSource (mh_path m) (mh_path m) (hook_source_for_requirement_source (mh_source m)) true true false
    states [] None.
Definition layer_source (policy : HookDiscoveryPolicy) (states : gmap str HookStateToml)
    (layer : ConfigLayerSource) (path : str) : HookHandlerSource :=
  let '(source, managed) := hook_metadata_for_config_layer_source layer in
  mkSource path path source managed false (policy_bypass policy) states [] None.
Definition plugin_source (policy : HookDiscoveryPolicy) (states : gmap str HookStateToml)
    (p : PluginHookSource) : HookHandlerSource :=
  mkSource (plugin_source_path p) (plugin_hook_key_source (plugin_id p) (source_relative_path p))
    Hooks.Plugin false false (policy_bypass policy) states
    (hash_order
      [(lit "PLUGIN_ROOT", plugin_root p); (lit "CLAUDE_PLUGIN_ROOT", plugin_root p);
       (lit "PLUGIN_DATA", plugin_data_root p); (lit "CLAUDE_PLUGIN_DATA", plugin_data_root p)])
    (Some (plugin_id p)).

Definition append_layer (policy : HookDiscoveryPolicy) (states : gmap str HookStateToml)
    (l : LayerHooks) (d : DiscoveryResult) : DiscoveryResult :=
  if negb (allows policy (layer_source policy states (lh_layer l) [])) then d
  else
    let d := match lh_json l, lh_toml l with
             | Some (json_path, json_events), Some (toml_path, toml_events) =>
                 if negb (is_empty_events json_events) && negb (is_empty_events toml_events)
                 then warn (lit "loading hooks from both " ++ json_path ++ lit " and " ++ toml_path
                              ++ lit "; prefer a single representation for this layer") d
                 else d
             | _, _ => d
             end in
    foldl (λ d '(path, events),
      append_hook_events policy (layer_source policy states (lh_layer l) path) events d) d
      (option_list (lh_json l) ++ option_list (lh_toml l)).

Definition discover_handlers (policy : HookDiscoveryPolicy) (states : gmap str HookStateToml)
    (managed : option ManagedHooks) (layers : list LayerHooks) (plugins : list PluginHookSource)
    (plugin_warnings : list str) : DiscoveryResult :=
  let d := mkDiscovery [] [] plugin_warnings [] 0 in
  let d := match managed with
           | Some m => append_hook_events policy (managed_requirement_source states m) (mh_hooks m) d
           | None => d
           end in
  let d := foldl (λ d l, append_layer policy states l d) d layers in
  foldl (λ d p, append_hook_events policy (plugin_source policy states p) (plugin_hooks p) d) d plugins.

(** ** The engine ([hooks/src/engine/mod.rs]) *)

Record HooksEngine := mkEngine {
  engine_handlers : list (ConfiguredHandler Json);
  engine_warnings : list str;
  engine_required_load_errors : list str;
}.
Definition engine_new (enabled : bool) (policy : HookDiscoveryPolicy) (states : gmap str HookStateToml)
    (managed : option ManagedHooks) (layers : list LayerHooks) (plugins : list PluginHookSource)
    (plugin_warnings : list str) : HooksEngine :=
  match enabled, plugins with
  | false, [] => mkEngine [] [] []
  | _, _ =>
      let d := discover_handlers policy states managed layers plugins plugin_warnings in
      if enabled then mkEngine (d_handlers d) (d_warnings d) (d_required_load_errors d)
      else mkEngine (List.filter builtin (d_handlers d)) [] []
  end.

Record ExecutorPluginHookSource := mkExecutorHooks {
  ex_plugin_id : str;
  ex_environment_id : str;
  ex_mcp_environment_id : option str;
  ex_mcp_metadata : option (list (str * Json));
  ex_manifest_path : str;
  ex_source_relative_path : str;
  ex_hooks : HookEventsToml Json;
}.
Definition i64_max : Z := (2 ^ 63 - 1)%Z.
Definition i64_saturating_add_1 (z : Z) : Z := Z.min i64_max (z + 1).

(** The targets seen, the handlers and the next display order. *)
Abbreviation executor_state :=
  (list (HookEventName * str * str * str) * list (ConfiguredHandler Json) * Z)%type.
(** [None] is the [unreachable!] for a handler that is no MCP tool. *)
Definition append_executor_hook (s : ExecutorPluginHookSource)
    (st : executor_state) (g : HookEventName * list (MatcherGroup Json)) : option executor_state :=
  let '(seen, handlers, order) := st in
  let '(event, groups) := g in
  match concat (group_hooks <$> groups) with
  | [] => Some st
  | McpToolConfig server tool input timeout status_message :: _ =>
      let target := (event, default (ex_environment_id s) (ex_mcp_environment_id s), server, tool) in
      if bool_decide (target ∈ seen) then Some st
      else
        let h := mkHandler true event None (N.max 1 (default 5%N timeout)) status_message default_limit
                   (ExecutorScoped (ex_plugin_id s) (ex_environment_id s) (ex_mcp_environment_id s)
                      (ex_mcp_metadata s) (ex_manifest_path s) (ex_source_relative_path s))
                   Hooks.Plugin order (McpTool server tool input) in
        Some (seen ++ [target], handlers ++ [h], i64_saturating_add_1 order)
  | _ :: _ => None
  end.
Fixpoint fold_option {A B} (f : A → B → option A) (a : A) (l : list B) : option A :=
  match l with [] => Some a | x :: l' => a ← f a x; fold_option f a l' end.
Definition set_executor_hooks (sources : list ExecutorPluginHookSource)
    (handlers : list (ConfiguredHandler Json)) : option (list (ConfiguredHandler Json)) :=
  let handlers := List.filter (λ h, negb (is_executor_scoped h)) handlers in
  let order := match display_order <$> handlers with
               | [] => 0%Z
               | o :: os => i64_saturating_add_1 (foldl Z.max o os)
               end in
  (λ st, st.1.2) <$> fold_option (λ st s, fold_option (append_executor_hook s) st (into_matcher_groups (ex_hooks s)))
    ([], handlers, order) sources.
End discovery.
Arguments DiscoveryEnv : clear implicits.
Arguments DiscoveryResult : clear implicits.
Arguments LayerHooks _ {_}.
Arguments ManagedHooks : clear implicits.
Arguments PluginHookSource : clear implicits.
