(* ===== verification/HookDiscoveryProofs.v ===== *)
(** * Which hooks run

    Every handler discovered is a configured hook that is managed, a bundled
    cleanup call or trusted by the user under a hash of all that it runs; and when
    no load error of required hooks is reported, every required hook is active. *)
From stdpp Require Import numbers strings list gmap.
From S2P Require Import Prelude RustStr ConfigLayers Truncate Hooks HookEvents HookDiscovery.

Section discovery.
Context {Json : Type} `{!RegexCrate} `{CP : ConfigPaths} `{!DiscoveryEnv Json}.
Implicit Types (d : DiscoveryResult Json) (src : HookHandlerSource).

(** ** Induction on discovery *)

(** The hook at the given places of the configuration of a source. *)
Definition hook_at (events : HookEventsToml Json) (event : HookEventName) (gm : option str) (gi hi : nat)
    (config : HookHandlerConfig Json) : Prop :=
  ∃ groups g, (event, groups) ∈ into_matcher_groups events ∧ groups !! gi = Some g ∧ group_matcher g = gm ∧
    group_hooks g !! hi = Some config.

Lemma foldl_inv {A B} (P : A → Prop) (f : A → B → A) (l : list B) a :
  (∀ a b, b ∈ l → P a → P (f a b)) → P a → P (foldl f a l).
Proof.
  revert a. induction l as [|b l IH]; intros a Hf Ha; simpl; [done|].
  apply IH; [by intros a' b' Hb'; apply Hf; right|]. apply Hf; [by left|done].
Qed.

(** What every step of the discovery of one source keeps, the discovery keeps. *)
Section steps.
Context (policy : HookDiscoveryPolicy) (src : HookHandlerSource) (events : HookEventsToml Json)
  (P : DiscoveryResult Json → Prop).
Context (P_warn : ∀ text d, P d → P (warn text d)).
Context (P_failure : ∀ text d, P d → P (record_load_failure src text d)).
Context (P_handler : ∀ event gm gi hi config d, allows policy src = true → hook_at events event gm gi hi config →
  P d → P (append_handler src event (matcher_pattern_for_event event gm) gm gi hi config d)).

Lemma append_handlers_inv event gm gi hi configs d :
  allows policy src = true → (∀ i config, configs !! i = Some config → hook_at events event gm gi (hi + i) config) →
  P d → P (append_handlers src event (matcher_pattern_for_event event gm) gm gi hi configs d).
Proof using Type*.
  intros Ha. revert hi d. induction configs as [|c rest IH]; intros hi d Hat Hd; simpl; [done|]. apply IH.
  - intros i config Hi. rewrite Nat.add_succ_comm. by apply Hat.
  - apply P_handler; [done| |done]. rewrite <- (Nat.add_0_r hi). by apply Hat.
Qed.
Lemma append_groups_inv event gi groups rest d :
  allows policy src = true → (event, groups) ∈ into_matcher_groups events → drop gi groups = rest →
  P d → P (append_matcher_groups src event gi rest d).
Proof using Type*.
  intros Ha Hin. revert gi d. induction rest as [|g rest IH]; intros gi d Hdrop Hd; simpl; [done|].
  assert (groups !! gi = Some g) as Hg by (by rewrite <- (Nat.add_0_r gi), <- lookup_drop, Hdrop).
  apply IH; [erewrite drop_S in Hdrop by done; by injection Hdrop|].
  unfold append_group. repeat case_match; auto. apply append_handlers_inv; [done| |done].
  intros i config Hi. exists groups, g. by rewrite Nat.add_0_l.
Qed.
Lemma append_hook_events_inv d : P d → P (append_hook_events policy src events d).
Proof using Type*.
  intros Hd. unfold append_hook_events. destruct (negb (allows policy src)) eqn:Hn; [done|].
  apply negb_false_iff in Hn as Ha. apply foldl_inv; [|done].
  intros d' [event groups] Hin Hd'. by eapply append_groups_inv.
Qed.
End steps.

(** The sources of a session, with the hooks they configure. *)
Inductive session_source (policy : HookDiscoveryPolicy) (states : gmap str HookStateToml)
    (managed : option (ManagedHooks Json)) (layers : list (LayerHooks Json)) (plugins : list (PluginHookSource Json))
  : HookHandlerSource → HookEventsToml Json → Prop :=
  | managed_session_source m : managed = Some m →
      session_source policy states managed layers plugins (managed_requirement_source states m) (mh_hooks m)
  | layer_session_source l path events : l ∈ layers → (path, events) ∈ option_list (lh_json l) ++ option_list (lh_toml l) →
      session_source policy states managed layers plugins (layer_source policy states (lh_layer l) path) events
  | plugin_session_source p : p ∈ plugins →
      session_source policy states managed layers plugins (plugin_source policy states p) (plugin_hooks p).

Section sources.
Context (policy : HookDiscoveryPolicy) (states : gmap str HookStateToml)
  (managed : option (ManagedHooks Json)) (layers : list (LayerHooks Json)) (plugins : list (PluginHookSource Json))
  (P : DiscoveryResult Json → Prop).
#[local] Abbreviation of_session := (session_source policy states managed layers plugins).
Context (P_warn : ∀ text d, P d → P (warn text d)).
Context (P_failure : ∀ src events text d, of_session src events → P d → P (record_load_failure src text d)).
Context (P_handler : ∀ src events event gm gi hi config d, of_session src events → allows policy src = true →
  hook_at events event gm gi hi config →
  P d → P (append_handler src event (matcher_pattern_for_event event gm) gm gi hi config d)).

Lemma append_source_inv src events d :
  of_session src events → P d → P (append_hook_events policy src events d).
Proof using Type*. intros Hs. apply append_hook_events_inv; eauto. Qed.

Lemma append_layers_inv d : P d → P (foldl (λ d l, append_layer policy states l d) d layers).
Proof using Type*.
  apply foldl_inv. intros d' l Hl Hd. unfold append_layer.
  destruct (negb _); [done|]. apply foldl_inv.
  - intros d'' [path events] Hin Hd''. apply append_source_inv; [by constructor|done].
  - repeat case_match; auto.
Qed.
Lemma append_plugins_inv d :
  P d →
  P (foldl (λ d p, append_hook_events policy (plugin_source policy states p) (plugin_hooks p) d) d plugins).
Proof using Type*.
  apply foldl_inv. intros d' p Hp Hd. apply append_source_inv; [by constructor|done].
Qed.
Lemma discover_inv warnings :
  P (mkDiscovery [] [] warnings [] 0) → P (discover_handlers policy states managed layers plugins warnings).
Proof using Type*.
  intros H0. unfold discover_handlers. apply append_plugins_inv, append_layers_inv.
  assert (∀ m, managed = Some m → P (append_hook_events policy (managed_requirement_source states m) (mh_hooks m)
    (mkDiscovery [] [] warnings [] 0))) as Hm by (intros m Hm; apply append_source_inv; [by constructor|done]).
  case_match; auto.
Qed.
End sources.

(** ** Trust *)

Lemma str_eqb_true_eq (s t : str) : str_eqb s t = true → s = t.
Proof. unfold str_eqb. by case_bool_decide. Qed.

Lemma allowlisted_target plugin_id event gm server tool input timeout message :
  is_allowlisted_bundled_cleanup_hook (Json:=Json) plugin_id event gm
    (McpToolConfig server tool input timeout message) None = true →
  plugin_id ∈ bundled_plugin_id <$> ALLOWLISTED_BUNDLED_HOOKS ∧ event ∈ [StopEvent; Interrupt; SubagentStop] ∧ tool = lit "turn_ended" ∧
  (server = lit "node_repl" ∨ server = lit "cua_repl").
Proof.
  unfold is_allowlisted_bundled_cleanup_hook. destruct gm; [done|].
  intros (b & Hin & Hb)%existsb_exists. apply andb_prop in Hb as [Hb Ht]. apply andb_prop in Hb as [Hpid He].
  split; [apply str_eqb_true_eq in Hpid as <-; apply list_elem_of_fmap; exists b; split; [done|by apply list_elem_of_In]|].
  apply existsb_exists in He as (e & He & ->%bool_decide_eq_true).
  assert (event ∈ [StopEvent; Interrupt; SubagentStop]) as Hevent.
  { unfold ALLOWLISTED_BUNDLED_HOOKS in Hin. apply list_elem_of_In.
    repeat (destruct Hin as [<-|Hin]; [simpl in He |- *; tauto|]). done. }
  split; [done|]. unfold ALLOWLISTED_BUNDLED_HOOKS in Hin. cbn in Hin.
  repeat (destruct Hin as [<-|Hin]; [cbn in Ht; apply andb_prop in Ht as [Hs Htool];
    first [by apply str_eqb_true_eq in Hs, Htool; auto|by rewrite bool_decide_eq_false_2 in Htool]|]).
  done.
Qed.

(** What a configured hook runs: the program or tool with its environment, the
    timeout, the message and the limit of its output. *)
Record executed := mkExecuted {
  ex_kind : ConfiguredHandlerKind Json;
  ex_timeout : N;
  ex_status : option str;
  ex_limit : AdditionalContextLimit;
}.
Definition executes src (event : HookEventName) (config : HookHandlerConfig Json) : option executed :=
  match normalize_handler src event config with
  | (Ok n, _) => Some (mkExecuted (nh_kind n) (nh_timeout_sec n) (nh_status_message n)
                        (limit_from_config (nh_additional_context_limit n)))
  | _ => None
  end.
Definition handler_executes (h : ConfiguredHandler Json) : executed :=
  mkExecuted (kind h) (timeout_sec h) (status_message h) (additional_context_limit h).

(** What the hash of a hook is taken of: the command this platform runs, before
    the variables of the plugin are put in, or the tool with its input; the
    timeout in force, the flag and the message; and the limit where it differs
    from the usual one. *)
Definition effective_timeout (event : HookEventName) (timeout : option N) : N :=
  match event with
  | SessionEnd | Interrupt => N.max 1 (N.min 3 (default 1%N timeout))
  | _ => N.max 1 (default 600%N timeout)
  end.
Definition identity (event : HookEventName) (config : HookHandlerConfig Json) : HookHandlerConfig Json :=
  match config with
  | CommandConfig command command_windows timeout is_async status limit =>
      CommandConfig (if windows then default command command_windows else command) None
        (Some (effective_timeout event timeout)) is_async status
        (if emits_context event then limit ≫= λ l, if (l =? DEFAULT_HOOK_OUTPUT_TOKEN_LIMIT)%N then None else Some l
         else None)
  | McpToolConfig server tool input timeout status =>
      McpToolConfig server tool input (Some (effective_timeout event timeout)) status
  | other => other
  end.
Lemma timeout_effective event timeout path : (normalize_command_hook event timeout path).1 = effective_timeout event timeout.
Proof. by destruct event. Qed.
Lemma normalized_identity src event config n warnings :
  normalize_handler src event config = (Ok n, warnings) → nh_config n = identity event config.
Proof.
  destruct config as [command cw timeout is_async status limit|server tool input timeout status| |]; simpl; [| |done..].
  - destruct (str_eqb _ _); [done|]. rewrite <- (timeout_effective event timeout (src_path src)).
    destruct (normalize_command_hook event timeout (src_path src)) as [t ws]. destruct (emits_context event);
      intros [= <- _]; [|done]. by destruct limit.
  - destruct (is_session_end event); [done|]. destruct (_ || _); [done|].
    rewrite <- (timeout_effective event timeout (src_path src)).
    destruct (normalize_command_hook event timeout (src_path src)) as [t ws]. by intros [= <- _].
Qed.

(** The identity determines all that runs. *)
Lemma identity_determines src event config config' :
  identity event config' = identity event config → executes src event config' = executes src event config.
Proof.
  assert (∀ limit : option N, limit_from_config (if emits_context event then limit else None) =
    limit_from_config (if emits_context event
      then limit ≫= λ l, if (l =? DEFAULT_HOOK_OUTPUT_TOKEN_LIMIT)%N then None else Some l else None)) as Hlimit.
  { intros limit. destruct (emits_context event); [|done]. destruct limit as [l|]; [|done]. simpl.
    destruct (N.eqb_spec l DEFAULT_HOOK_OUTPUT_TOKEN_LIMIT) as [->|]; done. }
  assert (∀ command cw timeout is_async status limit,
    executes src event (CommandConfig command cw timeout is_async status limit) =
    match identity event (CommandConfig command cw timeout is_async status limit) with
    | CommandConfig command _ timeout is_async status limit =>
        if str_eqb (trim command) [] then None
        else Some (mkExecuted
          (Command (foldl (λ command '(key, value), str_replace (lit "${" ++ key ++ lit "}") value command) command (src_env src))
             (src_env src) (is_async && negb (is_session_end event)))
          (default 0%N timeout) status (limit_from_config limit))
    | _ => None
    end) as Hcommand.
  { intros. unfold executes, identity. cbn -[limit_from_config str_replace]. destruct (str_eqb _ _); [done|].
    rewrite <- Hlimit, <- (timeout_effective event timeout (src_path src)).
    destruct (normalize_command_hook event timeout (src_path src)) as [t ws]. by destruct (emits_context event). }
  assert (∀ server tool input timeout status,
    executes src event (McpToolConfig server tool input timeout status) =
    match identity event (McpToolConfig server tool input timeout status) with
    | McpToolConfig server tool input timeout status =>
        if is_session_end event then None else if str_eqb (trim server) [] || str_eqb (trim tool) [] then None
        else Some (mkExecuted (McpTool server tool input) (default 0%N timeout) status (limit_from_config None))
    | _ => None
    end) as Htool.
  { intros. unfold executes, identity. simpl. destruct (is_session_end event); [done|]. destruct (_ || _); [done|].
    rewrite <- (timeout_effective event timeout (src_path src)).
    by destruct (normalize_command_hook event timeout (src_path src)). }
  destruct config, config'; intros E; rewrite ?Hcommand, ?Htool; try (by rewrite E); done.
Qed.

(** The call of a listed plugin that tells a server that the turn has ended. *)
Definition is_turn_cleanup src (event : HookEventName) (config : HookHandlerConfig Json) : Prop :=
  ∃ plugin server input timeout message, src_plugin_id src = Some plugin ∧
    plugin ∈ bundled_plugin_id <$> ALLOWLISTED_BUNDLED_HOOKS ∧ event ∈ [StopEvent; Interrupt; SubagentStop] ∧
    config = McpToolConfig server (lit "turn_ended") input timeout message ∧ server ∈ [lit "node_repl"; lit "cua_repl"].

(** Why a hook may run: the key of the user's state is the place of the hook, the
    hash that of its event, matcher and identity. *)
Definition justified (policy : HookDiscoveryPolicy) (states : gmap str HookStateToml) src (event : HookEventName)
    (gm : option str) (gi hi : nat) (config : HookHandlerConfig Json) : Prop :=
  let key := hook_key (key_source src) event gi hi in
  (allow_managed_hooks_only policy = true → is_managed src = true) ∧
  (is_managed src = true ∨ is_turn_cleanup src event config ∨
   states !! key ≫= state_enabled ≠ Some false ∧
   (policy_bypass policy = true ∨
    states !! key ≫= state_trusted_hash =
      Some (version_for_identity (hook_event_key_label event)
              (mkGroup (matcher_pattern_for_event event gm) [identity event config])))).

Lemma session_source_facts policy states managed layers plugins src events :
  session_source policy states managed layers plugins src events →
  hook_states src = states ∧ (bypass_hook_trust src = true → policy_bypass policy = true).
Proof.
  destruct 1 as [m|l path|p]; [done| |done].
  unfold layer_source. by destruct (hook_metadata_for_config_layer_source (lh_layer l)).
Qed.

Lemma entry_justified policy states managed layers plugins src events event gm gi hi order config n warnings :
  session_source policy states managed layers plugins src events → allows policy src = true →
  normalize_handler src event config = (Ok n, warnings) →
  entry_runs (bypass_hook_trust src)
    (hook_entry src event (matcher_pattern_for_event event gm) gm gi hi order n) = true →
  justified policy states src event gm gi hi config.
Proof.
  intros [Hst Hby]%session_source_facts Ha Hn [Hen Htr]%andb_prop. split.
  { unfold allows in Ha. intros Hm. rewrite Hm in Ha. exact Ha. }
  pose proof (normalized_identity _ _ _ _ _ Hn) as Hid.
  simpl in *. destruct (is_managed src) eqn:Em; [by left|right].
  destruct (match src_plugin_id src with Some _ => _ | None => _ end) eqn:Eb.
  - left. destruct (src_plugin_id src) as [pid|] eqn:Ep; [|done].
    destruct (nh_config n) as [| server tool input timeout message| |] eqn:Ec; try done.
    destruct (allowlisted_target _ _ _ _ _ _ _ _ Eb) as (Hpid & He & -> & Hs).
    destruct config as [|server' tool' input' timeout' message'| |]; try done. simpl in Hid. injection Hid as -> <- -> _ ->.
    exists pid, server', input', timeout', message'. split_and!; [done..|]. set_solver.
  - right. rewrite Hst in *. unfold hook_enabled in Hen. simpl in Hen.
    split; [by apply negb_true_iff, bool_decide_eq_false in Hen|].
    apply orb_prop in Htr as [?|Htr]; [left; auto|right].
    unfold hook_trust_status, hook_trusted_hash, hook_hash in Htr. rewrite Hid in Htr.
    destruct (_ ≫= state_trusted_hash) as [t|] eqn:Et; [|done].
    destruct (str_eqb t _) eqn:E; [|done]. by apply str_eqb_true_eq in E as ->.
Qed.

(** C14: A hook that runs is one that the configuration, the managed requirements or a plugin has at
    some place, and it runs what that place says.  Its source is managed, or it is the call of a listed
    plugin that tells a server that the turn has ended, or the user has not switched the place off and
    has trusted the hash of this event, matcher and identity (or trust is bypassed); with managed hooks
    only, nothing else runs.  The identity that is hashed determines all that runs: another hook of the
    same identity at the same place runs the same. *)
Theorem only_trusted_hooks_run policy states managed layers plugins warnings h :
  h ∈ d_handlers (discover_handlers policy states managed layers plugins warnings) →
  ∃ src events event gm gi hi config,
    session_source policy states managed layers plugins src events ∧ hook_at events event gm gi hi config ∧
    event_name h = event ∧ matcher h = matcher_pattern_for_event event gm ∧
    executes src event config = Some (handler_executes h) ∧
    justified policy states src event gm gi hi config ∧
    ∀ config', identity event config' = identity event config →
      executes src event config' = Some (handler_executes h).
Proof.
  revert h.
  apply (discover_inv policy states managed layers plugins (λ d, ∀ h, h ∈ d_handlers d →
    ∃ src events event gm gi hi config,
    session_source policy states managed layers plugins src events ∧ hook_at events event gm gi hi config ∧
    event_name h = event ∧ matcher h = matcher_pattern_for_event event gm ∧
    executes src event config = Some (handler_executes h) ∧
    justified policy states src event gm gi hi config ∧
    ∀ config', identity event config' = identity event config →
      executes src event config' = Some (handler_executes h))); [done|done| |by intros h []%elem_of_nil].
  intros src events event gm gi hi config d Hs Ha Hat Hd h. unfold append_handler.
  destruct (normalize_handler src event config) as [[n|reason] ws] eqn:En; [|by apply Hd]. simpl.
  intros [Hh|Hh]%elem_of_app; [by apply Hd|].
  destruct (entry_runs _ _) eqn:Er; [|by apply elem_of_nil in Hh]. apply list_elem_of_singleton in Hh as ->.
  exists src, events, event, gm, gi, hi, config.
  assert (executes src event config = Some (handler_executes (entry_to_handler
    (hook_entry src event (matcher_pattern_for_event event gm) gm gi hi (d_display_order d) n) n))) as Hex
    by (unfold executes; by rewrite En).
  split_and!; [done..|by eapply entry_justified|]. intros config' Hid. by rewrite (identity_determines _ _ _ _ Hid).
Qed.

(** ** Required hooks *)

(** The events of the handlers, one for each hook configured. *)
Definition hook_events_of (events : HookEventsToml Json) : list HookEventName :=
  concat ((λ '(event, groups), (λ _, event) <$> concat (group_hooks <$> groups)) <$> into_matcher_groups events).

(** A managed source without new errors activates every hook. *)
Definition activates (f : DiscoveryResult Json → DiscoveryResult Json)
    (events : list HookEventName) : Prop :=
  ∀ d, d_required_load_errors d `prefix_of` d_required_load_errors (f d) ∧
    (d_required_load_errors (f d) = [] →
     ∃ hs, d_handlers (f d) = d_handlers d ++ hs ∧ event_name <$> hs = events).

Lemma activates_compose f g ev ev' :
  activates f ev → activates g ev' → activates (g ∘ f) (ev ++ ev').
Proof.
  intros Hf Hg d. destruct (Hf d) as [Hp1 Hf']. destruct (Hg (f d)) as [Hp2 Hg']. simpl.
  split; [by etrans|]. intros Hnil. destruct (Hg' Hnil) as (hs' & -> & <-).
  destruct Hf' as (hs & -> & <-).
  { rewrite Hnil in Hp2. by apply prefix_nil_inv in Hp2. }
  exists (hs ++ hs'). by rewrite <-(assoc_L (++)), fmap_app.
Qed.
Lemma activates_nothing : activates id [].
Proof. intros d. split; [done|]. intros _. exists []. by rewrite app_nil_r. Qed.
Lemma activates_failure src text ev :
  is_required src = true → activates (record_load_failure src text) ev.
Proof.
  intros Hr d. simpl. rewrite Hr. split; [by apply prefix_app_r|]. by intros [_ ?]%app_eq_nil.
Qed.

Lemma append_handler_activates src event m gm gi hi config :
  is_required src = true → is_managed src = true →
  activates (append_handler src event m gm gi hi config) [event].
Proof.
  intros Hr Hm d. unfold append_handler.
  destruct (normalize_handler src event config) as [[n|reason] ws]; [|by apply activates_failure].
  simpl. split; [done|]. intros _. eexists. split; [reflexivity|].
  unfold entry_runs. simpl. unfold hook_enabled, hook_trust_status. rewrite Hm, orb_true_r.
  destruct (match src_plugin_id src with Some _ => _ | None => _ end); by rewrite orb_true_r.
Qed.
Lemma append_handlers_activates src event m gm gi hi configs :
  is_required src = true → is_managed src = true →
  activates (append_handlers src event m gm gi hi configs) ((λ _, event) <$> configs).
Proof.
  intros Hr Hm. revert hi. induction configs as [|c rest IH]; intros hi; [apply activates_nothing|].
  apply (activates_compose (append_handler src event m gm gi hi c) _ [event]); [|apply IH].
  by apply append_handler_activates.
Qed.
Lemma append_groups_activates src event gi groups :
  is_required src = true → is_managed src = true →
  activates (append_matcher_groups src event gi groups) ((λ _, event) <$> concat (group_hooks <$> groups)).
Proof.
  intros Hr Hm. revert gi. induction groups as [|g rest IH]; intros gi; [apply activates_nothing|].
  simpl. rewrite fmap_app.
  apply (activates_compose (append_group src event gi g) _ _); [|apply IH].
  intros d. unfold append_group.
  destruct (_ ≫= _) as [[m err]|]; [|by apply append_handlers_activates].
  destruct (group_hooks g); [|by apply activates_failure].
  destruct (activates_nothing d) as [_ Hn]. split; [done|]. exact Hn.
Qed.
Lemma append_hook_events_activates policy src events :
  is_required src = true → is_managed src = true →
  activates (append_hook_events policy src events) (hook_events_of events).
Proof.
  intros Hr Hm d. unfold append_hook_events, allows. rewrite Hm, orb_true_r. simpl negb.
  unfold hook_events_of. revert d.
  induction (into_matcher_groups events) as [|[event groups] l IH]; [apply activates_nothing|].
  refine (activates_compose (append_matcher_groups src event 0 groups)
    (λ d, foldl (λ d '(event, groups), append_matcher_groups src event 0 groups d) d l) _ _ _ IH).
  by apply append_groups_activates.
Qed.

(** Handlers and errors only grow. *)
Definition grows (d d' : DiscoveryResult Json) : Prop :=
  d_handlers d `prefix_of` d_handlers d' ∧ d_required_load_errors d `prefix_of` d_required_load_errors d'.
Lemma grows_warn d0 text d : grows d0 d → grows d0 (warn text d).
Proof. done. Qed.
Lemma grows_failure d0 src text d : grows d0 d → grows d0 (record_load_failure src text d).
Proof. intros [H1 H2]. split; [done|]. simpl. case_match; [by apply prefix_app_r|done]. Qed.
Lemma grows_handler d0 src event m gm gi hi config d :
  grows d0 d → grows d0 (append_handler src event m gm gi hi config d).
Proof.
  intros [H1 H2]. unfold append_handler. destruct (normalize_handler _ _ _) as [[n|reason] ws].
  - split; [|done]. simpl. by apply prefix_app_r.
  - by apply grows_failure.
Qed.

(** When the discovery of hooks reports no load error for required hooks, every hook of the managed
    requirements is active, for its event and in its order, before any other hook. *)
Theorem required_hooks_are_active policy states m layers plugins warnings :
  let d := discover_handlers policy states (Some m) layers plugins warnings in
  d_required_load_errors d = [] →
  ∃ hs rest, d_handlers d = hs ++ rest ∧ event_name <$> hs = hook_events_of (mh_hooks m).
Proof.
  cbv zeta. unfold discover_handlers.
  set (d1 := append_hook_events _ _ _ _). intros Hnil.
  assert (grows d1 (foldl (λ d p, append_hook_events policy (plugin_source policy states p) (plugin_hooks p) d)
    (foldl (λ d l, append_layer policy states l d) d1 layers) plugins)) as [Hh He].
  { apply (append_plugins_inv policy states (Some m) layers plugins); [eauto using grows_warn, grows_failure, grows_handler..|].
    apply (append_layers_inv policy states (Some m) layers plugins); [eauto using grows_warn, grows_failure, grows_handler..|].
    split; done. }
  rewrite Hnil in He. apply prefix_nil_inv in He.
  destruct (append_hook_events_activates policy (managed_requirement_source states m) (mh_hooks m)
    eq_refl eq_refl (mkDiscovery [] [] warnings [] 0)) as [_ Ha]. fold d1 in Ha.
  destruct (Ha He) as (hs & Hhs & Hev). destruct Hh as [rest Hrest]. rewrite Hhs in Hrest.
  exists hs, rest. split; [exact Hrest|exact Hev].
Qed.
End discovery.

(** ** Concrete configurations *)

Module MiniDiscovery.
#[local] Instance text_paths : ConfigPaths := {
  cpath := str;
  cparent _ := None;
  cancestors p := [p];
  cdisplay p := p;
}.
#[local] Instance no_regex : RegexCrate := {
  regex := unit;
  regex_new _ := Err (lit "unsupported");
  regex_is_match _ _ := false;
}.
(** The hash is the event and the command. *)
#[local] Instance command_hash : DiscoveryEnv str := {
  version_for_identity label g :=
    label ++ concat ((λ c, match c with CommandConfig command _ _ _ _ _ => command | _ => [] end)
                       <$> group_hooks g);
  debug_str s := s;
  windows := false;
  hash_order entries := entries;
}.
Definition one_hook (command : str) : HookEventsToml str :=
  mkHookEvents [mkGroup (Some (lit "shell")) [CommandConfig command None None false None None]]
    [] [] [] [] [] [] [] [] [] [] [].
Definition trusted_state : gmap str HookStateToml :=
  {[ lit "/user/hooks.json:pre_tool_use:0:0" := mkHookState None (Some (lit "pre_tool_useaudit")) ]}.
Definition user_layer (command : str) : LayerHooks str :=
  mkLayerHooks (ConfigLayers.User (lit "/user/config.toml") None)
    (Some (lit "/user/hooks.json", one_hook command)) None.
Definition discovered (command : str) : DiscoveryResult str :=
  discover_handlers (mkPolicy false false) trusted_state None [user_layer command] [] [].
Definition audit_hook : ConfiguredHandler str :=
  mkHandler false PreToolUse (Some (lit "shell")) 600 None default_limit (Local (lit "/user/hooks.json"))
    Hooks.User 0 (Command (lit "audit") [] false).

(** The hook the user trusted runs; after an edit of its command it does not. *)
Lemma only_trusted_hooks_run_witness :
  audit_hook ∈ d_handlers (discovered (lit "audit")) ∧
  (∃ src events event gm gi hi config,
     session_source (mkPolicy false false) trusted_state None [user_layer (lit "audit")] [] src events ∧
     hook_at events event gm gi hi config ∧ executes src event config = Some (handler_executes audit_hook) ∧
     justified (mkPolicy false false) trusted_state src event gm gi hi config) ∧
  d_handlers (discovered (lit "rm -rf /")) = [].
Proof.
  assert (audit_hook ∈ d_handlers (discovered (lit "audit"))) as Hin by (vm_compute; left).
  split; [exact Hin|]. split; [|vm_compute; reflexivity].
  destruct (only_trusted_hooks_run (mkPolicy false false) trusted_state None
    [user_layer (lit "audit")] [] [] audit_hook Hin) as (src & events & event & gm & gi & hi & config & Hs & Hat & _ & _ & Hex & Hj & _).
  exists src, events, event, gm, gi, hi, config. by split_and!.
Defined.

Definition managed_audit : ManagedHooks str := mkManagedHooks (lit "/etc/hooks") None (one_hook (lit "audit")).
Lemma required_hooks_are_active_witness :
  d_required_load_errors (discover_handlers (mkPolicy true false) ∅ (Some managed_audit)
    [user_layer (lit "audit")] [] []) = [] ∧
  ∃ hs rest, d_handlers (discover_handlers (mkPolicy true false) ∅ (Some managed_audit)
    [user_layer (lit "audit")] [] []) = hs ++ rest ∧ event_name <$> hs = [PreToolUse].
Proof.
  assert (d_required_load_errors (discover_handlers (mkPolicy true false) ∅ (Some managed_audit)
    [user_layer (lit "audit")] [] []) = []) as Hn by (vm_compute; reflexivity).
  split; [exact Hn|]. exact (required_hooks_are_active _ _ _ _ _ _ Hn).
Defined.
End MiniDiscovery.
