(* ===== verification/MarkdownStream.v ===== *)
(** * Markdown source of a stream

    The text of an answer arrives in deltas.  The collector
    ([tui/src/markdown_stream.rs]) commits it line by line; the scanner of
    [tui/src/streaming/table_holdback.rs] finds where a pipe table begins, with
    the line tests of [tui/src/table_detect.rs]; fences around Markdown tables
    are removed before rendering ([unwrap_markdown_fences] of
    [tui/src/markdown.rs]).  The scanner is shown to agree with the definition
    on whole texts that its tests compare it with. *)
From stdpp Require Import numbers strings list.
From S2P Require Import Prelude RustStr ByteStr.

(** ** Table rows ([table_detect.rs]) *)

Definition PIPE : char := chr "|".
Definition BACKSLASH : char := chr "\".
Definition COLON : char := chr ":".
Definition DASH : char := chr "-".

(** Puts text in front of the first segment. *)
Definition push_front (t : str) (segments : list str) : list str :=
  match segments with
  | [] => [t]
  | w :: ws => (t ++ w) :: ws
  end.

(** The source walks over bytes; both separators are ASCII and skipping the
    first byte of an escaped char skips no separator. *)
Fixpoint split_unescaped_pipe (content : str) : list str :=
  match content with
  | [] => [[]]
  | c :: rest =>
      if (c =? BACKSLASH)%N then
        match rest with
        | [] => [[c]]
        | d :: rest' => push_front [c; d] (split_unescaped_pipe rest')
        end
      else if (c =? PIPE)%N then [] :: split_unescaped_pipe rest
      else push_front [c] (split_unescaped_pipe rest)
  end.

Definition strip_prefix_or_id (p s : str) : str := default s (strip_prefix p s).
Definition strip_suffix_or_id (p s : str) : str := default s (strip_suffix p s).

Definition parse_table_segments (line : str) : option (list str) :=
  let trimmed := trim line in
  if bool_decide (trimmed = []) then None
  else
    let has_outer_pipe := starts_with [PIPE] trimmed || ends_with [PIPE] trimmed in
    let content := strip_prefix_or_id [PIPE] trimmed in
    let content := strip_suffix_or_id [PIPE] content in
    let raw_segments := split_unescaped_pipe content in
    if negb has_outer_pipe && (length raw_segments <=? 1) then None
    else
      let segments := trim <$> raw_segments in
      match segments with [] => None | _ => Some segments end.

Definition is_table_header_line (line : str) : bool :=
  match parse_table_segments line with
  | Some segments => existsb (λ s, negb (bool_decide (s = []))) segments
  | None => false
  end.

Definition is_table_delimiter_segment (segment : str) : bool :=
  let trimmed := trim segment in
  if bool_decide (trimmed = []) then false
  else
    let without_leading := strip_prefix_or_id [COLON] trimmed in
    let without_ends := strip_suffix_or_id [COLON] without_leading in
    (3 <=? blen without_ends)%N && forallb (λ c, (c =? DASH)%N) without_ends.

Definition is_table_delimiter_line (line : str) : bool :=
  match parse_table_segments line with
  | Some segments => forallb is_table_delimiter_segment segments
  | None => false
  end.

(** ** Fences ([table_detect.rs]) *)

Inductive FenceKind := Outside | MarkdownFence | OtherFence.
#[global] Instance FenceKind_eq_dec : EqDecision FenceKind.
Proof. solve_decision. Defined.

(** [FenceTracker.state]. *)
Definition fence_tracker : Type := option (char * nat * FenceKind).

(** [bytes().take_while(|b| b == c).count()]. *)
Fixpoint run_length (c : char) (s : str) : nat :=
  match s with
  | d :: s' => if (d =? c)%N then S (run_length c s') else 0
  | [] => 0
  end.

Definition parse_fence_marker (line : str) : option (char * nat) :=
  match line with
  | [] => None
  | first :: _ =>
      if negb (first =? chr "`")%N && negb (first =? chr "~")%N then None
      else
        let len := run_length first line in
        if len <? 3 then None else Some (first, len)
  end.

(** [split_whitespace().next().unwrap_or_default()]. *)
Fixpoint until_whitespace (s : str) : str :=
  match s with
  | c :: s' => if is_whitespace c then [] else c :: until_whitespace s'
  | [] => []
  end.
Definition first_word (s : str) : str := until_whitespace (trim_start s).

Definition is_markdown_fence_info (trimmed_line : str) (marker_len : nat) : bool :=
  let info := first_word (drop marker_len trimmed_line) in
  str_eqb (to_ascii_lowercase info) (lit "md") || str_eqb (to_ascii_lowercase info) (lit "markdown").

(** Each turn takes a marker off; the fuel is the length of the line. *)
Fixpoint strip_blockquote_loop (fuel : nat) (rest : str) : str :=
  match fuel with
  | O => rest
  | S fuel =>
      match strip_prefix [chr ">"] rest with
      | None => rest
      | Some stripped =>
          strip_blockquote_loop fuel (trim_start (strip_prefix_or_id [SPACE] stripped))
      end
  end.
Definition strip_blockquote_prefix (line : str) : str :=
  strip_blockquote_loop (length line) (trim_start line).

Definition fence_advance (raw_line : str) (state : fence_tracker) : fence_tracker :=
  let leading_spaces := run_length SPACE raw_line in
  if 3 <? leading_spaces then state
  else
    let trimmed := drop leading_spaces raw_line in
    let fence_scan_text := strip_blockquote_prefix trimmed in
    match parse_fence_marker fence_scan_text with
    | None => state
    | Some (marker, len) =>
        match state with
        | Some (open_char, open_len, _) =>
            if (marker =? open_char)%N && (open_len <=? len)
               && bool_decide (trim (drop len fence_scan_text) = [])
            then None else state
        | None =>
            let kind :=
              if is_markdown_fence_info fence_scan_text len then MarkdownFence else OtherFence in
            Some (marker, len, kind)
        end
    end.

Definition fence_kind (state : fence_tracker) : FenceKind :=
  match state with None => Outside | Some (_, _, k) => k end.

(** ** The holdback scanner ([table_holdback.rs]) *)

Inductive TableHoldbackState :=
  | NoTable
  | PendingHeader (header_start : N)
  | ConfirmedTable (table_start : N).
#[global] Instance TableHoldbackState_eq_dec : EqDecision TableHoldbackState.
Proof. solve_decision. Defined.

Record PreviousLineState := PreviousLine {
  pl_source_start : N;
  pl_fence_kind : FenceKind;
  pl_is_header : bool;
}.

Record TableHoldbackScanner := HoldbackScanner {
  hs_source_offset : N;
  hs_fence_tracker : fence_tracker;
  hs_previous_line : option PreviousLineState;
  hs_pending_header_start : option N;
  hs_confirmed_table_start : option N;
}.
Definition new_scanner : TableHoldbackScanner := HoldbackScanner 0 None None None None.

Definition scanner_state (sc : TableHoldbackScanner) : TableHoldbackState :=
  match hs_confirmed_table_start sc with
  | Some table_start => ConfirmedTable table_start
  | None =>
      match hs_pending_header_start sc with
      | Some header_start => PendingHeader header_start
      | None => NoTable
      end
  end.

Definition table_candidate_text (line : str) : option str :=
  let stripped := trim (strip_blockquote_prefix line) in
  match parse_table_segments stripped with Some _ => Some stripped | None => None end.

Definition candidate_is (p : str → bool) (candidate : option str) : bool :=
  match candidate with Some text => p text | None => false end.

Definition push_line (source_line : str) (sc : TableHoldbackScanner) : TableHoldbackScanner :=
  let line := strip_suffix_or_id [LF] source_line in
  let source_start := hs_source_offset sc in
  let kind := fence_kind (hs_fence_tracker sc) in
  let candidate_text := if bool_decide (kind = OtherFence) then None else table_candidate_text line in
  let is_header := candidate_is is_table_header_line candidate_text in
  let is_delimiter := candidate_is is_table_delimiter_line candidate_text in
  let '(confirmed, pending) :=
    match hs_confirmed_table_start sc, hs_previous_line sc with
    | None, Some previous_line =>
        if negb (bool_decide (pl_fence_kind previous_line = OtherFence))
           && negb (bool_decide (kind = OtherFence))
           && pl_is_header previous_line && is_delimiter
        then (Some (pl_source_start previous_line), None)
        else (None, hs_pending_header_start sc)
    | confirmed, _ => (confirmed, hs_pending_header_start sc)
    end in
  let pending :=
    match confirmed with
    | None =>
        if negb (bool_decide (trim line = [])) then
          if negb (bool_decide (kind = OtherFence)) && is_header then Some source_start else None
        else pending
    | Some _ => pending
    end in
  HoldbackScanner (hs_source_offset sc + blen source_line)
    (fence_advance line (hs_fence_tracker sc))
    (Some (PreviousLine source_start kind is_header)) pending confirmed.

Definition push_source_chunk (source_chunk : str) (sc : TableHoldbackScanner) : TableHoldbackScanner :=
  if bool_decide (source_chunk = []) then sc
  else foldl (λ sc line, push_line line sc) sc (split_inclusive LF source_chunk).

(** ** The scan of a whole text ([table_holdback.rs], for the tests) *)

Record ParsedLine := mkParsedLine {
  pa_text : str;
  pa_fence_context : FenceKind;
  pa_source_start : N;
}.

Fixpoint parse_lines_from (tracker : fence_tracker) (source_start : N) (raw_lines : list str)
  : list ParsedLine :=
  match raw_lines with
  | [] => []
  | raw_line :: rest =>
      mkParsedLine raw_line (fence_kind tracker) source_start
        :: parse_lines_from (fence_advance raw_line tracker) (source_start + blen raw_line + 1) rest
  end.
Definition parse_lines_with_fence_state (source : str) : list ParsedLine :=
  parse_lines_from None 0 (split LF source).

(** One pair of [lines.windows(2)]. *)
Definition is_table_pair (header_line delimiter_line : ParsedLine) : bool :=
  if bool_decide (pa_fence_context header_line = OtherFence)
     || bool_decide (pa_fence_context delimiter_line = OtherFence)
  then false
  else candidate_is is_table_header_line (table_candidate_text (pa_text header_line))
       && candidate_is is_table_delimiter_line (table_candidate_text (pa_text delimiter_line)).

Fixpoint find_table (parsed : list ParsedLine) : option N :=
  match parsed with
  | header_line :: ((delimiter_line :: _) as rest) =>
      if is_table_pair header_line delimiter_line then Some (pa_source_start header_line)
      else find_table rest
  | _ => None
  end.

Definition not_blank (p : ParsedLine) : bool := negb (bool_decide (trim (pa_text p) = [])).
Definition is_pending_header (p : ParsedLine) : bool :=
  negb (bool_decide (pa_fence_context p = OtherFence))
  && candidate_is is_table_header_line (table_candidate_text (pa_text p)).

Definition table_holdback_state (source : str) : TableHoldbackState :=
  let parsed := parse_lines_with_fence_state source in
  match find_table parsed with
  | Some table_start => ConfirmedTable table_start
  | None =>
      match List.find not_blank (rev parsed) with
      | Some line =>
          if is_pending_header line then PendingHeader (pa_source_start line) else NoTable
      | None => NoTable
      end
  end.

(** ** The collector ([markdown_stream.rs]) *)

Record MarkdownStreamCollector := Collector {
  mc_buffer : str;
  mc_committed_source_len : N;
  mc_width : option N;
}.
Definition new_collector (width : option N) : MarkdownStreamCollector := Collector [] 0 width.

Definition collector_set_width (width : option N) (c : MarkdownStreamCollector) :=
  Collector (mc_buffer c) (mc_committed_source_len c) width.
Definition collector_clear (c : MarkdownStreamCollector) := Collector [] 0 (mc_width c).
Definition collector_push_delta (delta : str) (c : MarkdownStreamCollector) :=
  Collector (mc_buffer c ++ delta) (mc_committed_source_len c) (mc_width c).

Definition commit_complete_source (c : MarkdownStreamCollector)
  : option (N * N) * MarkdownStreamCollector :=
  match rfind_char (N.eqb LF) (mc_buffer c) with
  | None => (None, c)
  | Some (idx, _) =>
      let commit_end := (idx + 1)%N in
      let commit_start := mc_committed_source_len c in
      if (commit_end <=? commit_start)%N then (None, c)
      else (Some (commit_start, commit_end), Collector (mc_buffer c) commit_end (mc_width c))
  end.

Definition committed_source (c : MarkdownStreamCollector) : option str :=
  slice_to (mc_committed_source_len c) (mc_buffer c).

Definition finalize_and_take_source (c : MarkdownStreamCollector) : str * MarkdownStreamCollector :=
  let out := mc_buffer c in
  let out := if negb (bool_decide (out = [])) && negb (ends_with [LF] out) then out ++ [LF] else out in
  (out, collector_clear c).

(** ** Unwrapping Markdown fences ([markdown.rs]) *)

Record Fence := mkFence { fn_marker : char; fn_len : nat; fn_is_blockquoted : bool }.

(** At most three spaces and no tab; [column] is the one reached. *)
Fixpoint strip_indent_from (column : nat) (s : str) : option str :=
  match s with
  | c :: s' =>
      if (c =? SPACE)%N then if 4 <=? S column then None else strip_indent_from (S column) s'
      else if (c =? 9)%N then None
      else Some s
  | [] => Some []
  end.
Definition strip_line_indent (line : str) : option str :=
  strip_indent_from 0 (strip_suffix_or_id [LF] line).

Definition parse_open_fence (line : str) : option (Fence * bool) :=
  trimmed ← strip_line_indent line;
  let is_blockquoted := starts_with [chr ">"] (trim_start trimmed) in
  let fence_scan_text := strip_blockquote_prefix trimmed in
  '(marker, len) ← parse_fence_marker fence_scan_text;
  let is_markdown := is_markdown_fence_info fence_scan_text len in
  Some (mkFence marker len is_blockquoted, is_markdown).

Definition is_close_fence (line : str) (fence : Fence) : bool :=
  match strip_line_indent line with
  | None => false
  | Some trimmed =>
      let text :=
        if fn_is_blockquoted fence then
          if negb (starts_with [chr ">"] (trim_start trimmed)) then None
          else Some (strip_blockquote_prefix trimmed)
        else Some trimmed in
      match text with
      | None => false
      | Some fence_scan_text =>
          match parse_fence_marker fence_scan_text with
          | Some (marker, len) =>
              (marker =? fn_marker fence)%N && (fn_len fence <=? len)
              && bool_decide (trim (drop len fence_scan_text) = [])
          | None => false
          end
      end
  end.

Fixpoint contains_table_from (is_blockquoted_fence : bool) (previous_line : option str)
    (content : list str) : bool :=
  match content with
  | [] => false
  | line :: rest =>
      let text := if is_blockquoted_fence then strip_blockquote_prefix line else line in
      let trimmed := trim text in
      if bool_decide (trimmed = []) then contains_table_from is_blockquoted_fence None rest
      else if match previous_line with
              | Some previous =>
                  is_table_header_line previous && negb (is_table_delimiter_line previous)
                  && is_table_delimiter_line trimmed
              | None => false
              end
      then true
      else contains_table_from is_blockquoted_fence (Some trimmed) rest
  end.
Definition markdown_fence_contains_table (content : str) (is_blockquoted_fence : bool) : bool :=
  contains_table_from is_blockquoted_fence None (lines content).

(** A range of the source is represented by its text, which is a whole line. *)
Inductive ActiveFence :=
  | Passthrough (fence : Fence)
  | MarkdownCandidate (fence : Fence) (opening : str) (content : list str).

(** What one line adds to the output. *)
Definition unwrap_step (active : option ActiveFence) (line : str) : list str * option ActiveFence :=
  match active with
  | Some (Passthrough fence) =>
      ([line], if negb (is_close_fence line fence) then Some (Passthrough fence) else None)
  | Some (MarkdownCandidate fence opening content) =>
      if is_close_fence line fence then
        if markdown_fence_contains_table (concat content) (fn_is_blockquoted fence)
        then (content, None)
        else (opening :: content ++ [line], None)
      else ([], Some (MarkdownCandidate fence opening (content ++ [line])))
  | None =>
      match parse_open_fence line with
      | Some (fence, is_markdown) =>
          if is_markdown then ([], Some (MarkdownCandidate fence line []))
          else ([line], Some (Passthrough fence))
      | None => ([line], None)
      end
  end.

Fixpoint unwrap_loop (active : option ActiveFence) (source_lines : list str) : list str :=
  match source_lines with
  | [] =>
      match active with
      | Some (MarkdownCandidate _ opening content) => opening :: content
      | _ => []
      end
  | line :: rest =>
      let '(out, active) := unwrap_step active line in
      out ++ unwrap_loop active rest
  end.

Definition unwrap_markdown_fences (markdown_source : str) : str :=
  if negb (contains (lit "```") markdown_source) && negb (contains (lit "~~~") markdown_source)
  then markdown_source
  else concat (unwrap_loop None (split_inclusive LF markdown_source)).

(** * The scanner agrees with the scan of the whole text *)

(** Source that ends in a line feed is made of whole lines. *)
Definition whole_lines (s : str) : Prop := s = [] ∨ last s = Some LF.

#[global] Instance whole_lines_dec s : Decision (whole_lines s).
Proof. unfold whole_lines. apply _. Defined.

Lemma whole_lines_split s :
  whole_lines s →
  ∃ ls, split_inclusive LF s = ln <$> ls ∧ split LF s = ls ++ [[]].
Proof.
  remember (length s) as n eqn:Hn. revert s Hn. induction (lt_wf n) as [n _ IH]. intros s -> Hs.
  destruct (decide (s = [])) as [->|Hne]; [by exists []|].
  destruct Hs as [|Hs]; [done|].
  assert (LF ∈ s) as (l & r & -> & Hl)%list_elem_of_split_l
    by (apply last_Some in Hs as [s' ->]; set_solver).
  destruct (IH (length r)) with (s := r) as (ls & H1 & H2); [rewrite length_app; simpl; lia|done| |].
  { destruct (list_snoc_cases r) as [->|(r' & x & ->)]; [by left|right].
    rewrite app_comm_cons, app_assoc, !last_snoc in Hs. by rewrite last_snoc. }
  exists (l :: ls). by rewrite split_inclusive_app, split_app, H1, H2 by done.
Qed.

Lemma whole_lines_app a b : whole_lines a → whole_lines b → whole_lines (a ++ b).
Proof.
  intros [->|Ha] [->|Hb]; rewrite ?app_nil_r; [by left|by right|by right|].
  right. by rewrite last_app, Hb.
Qed.

Lemma whole_lines_concat l : Forall whole_lines l → whole_lines (concat l).
Proof. induction 1; simpl; [by left|by apply whole_lines_app]. Qed.

(** Cutting the source between lines changes nothing. *)
Lemma push_source_chunk_fold c sc :
  push_source_chunk c sc = foldl (λ sc line, push_line line sc) sc (split_inclusive LF c).
Proof. unfold push_source_chunk. case_bool_decide as E; [by subst|done]. Qed.

Lemma push_source_chunk_app a b sc :
  whole_lines a → push_source_chunk (a ++ b) sc = push_source_chunk b (push_source_chunk a sc).
Proof. intros Ha. by rewrite !push_source_chunk_fold, split_inclusive_app_full, foldl_app. Qed.

Lemma push_chunks_concat chunks sc :
  Forall whole_lines chunks →
  foldl (λ sc c, push_source_chunk c sc) sc chunks = push_source_chunk (concat chunks) sc.
Proof.
  intros H. revert sc. induction H as [|c l Hc _ IH]; intros sc; [done|].
  simpl. by rewrite push_source_chunk_app, IH.
Qed.

(** ** Parsed lines *)

Definition end_offset (ls : list str) : N := foldr (λ l n, blen l + 1 + n)%N 0%N ls.
Definition tracker_after (tracker : fence_tracker) (ls : list str) : fence_tracker :=
  foldl (λ t l, fence_advance l t) tracker ls.

Lemma parse_lines_snoc t n ls l :
  parse_lines_from t n (ls ++ [l]) =
  parse_lines_from t n ls ++
    [mkParsedLine l (fence_kind (tracker_after t ls)) (n + end_offset ls)].
Proof.
  revert t n. induction ls as [|x ls IH]; intros t n; simpl; [by rewrite N.add_0_r|].
  rewrite IH. by replace (n + blen x + 1 + end_offset ls)%N with (n + (blen x + 1 + end_offset ls))%N by lia.
Qed.

Lemma find_table_snoc P x :
  find_table (P ++ [x]) =
  match find_table P with
  | Some s => Some s
  | None => h ← last P; if is_table_pair h x then Some (pa_source_start h) else None
  end.
Proof.
  induction P as [|h P IH]; [done|]. destruct P as [|y P]; [done|].
  change (find_table ((h :: y :: P) ++ [x])) with
    (if is_table_pair h y then Some (pa_source_start h) else find_table ((y :: P) ++ [x])).
  simpl find_table at 2. destruct (is_table_pair h y); [done|]. rewrite IH. by destruct P.
Qed.

(** What the scanner remembers of a line. *)
Definition remembered_line (p : ParsedLine) : PreviousLineState :=
  PreviousLine (pa_source_start p) (pa_fence_context p)
    (candidate_is is_table_header_line
       (if bool_decide (pa_fence_context p = OtherFence) then None else table_candidate_text (pa_text p))).

Definition pending_of (P : list ParsedLine) : option N :=
  match List.find not_blank (rev P) with
  | Some line => if is_pending_header line then Some (pa_source_start line) else None
  | None => None
  end.

Definition scanned (ls : list str) (sc : TableHoldbackScanner) : Prop :=
  let P := parse_lines_from None 0 ls in
  hs_source_offset sc = end_offset ls ∧
  hs_fence_tracker sc = tracker_after None ls ∧
  hs_previous_line sc = remembered_line <$> last P ∧
  hs_confirmed_table_start sc = find_table P ∧
  (find_table P = None → hs_pending_header_start sc = pending_of P).

Lemma strip_lf l : strip_suffix_or_id [LF] (ln l) = l.
Proof. unfold strip_suffix_or_id, ln. by rewrite strip_suffix_app. Qed.

Lemma pair_test h x :
  negb (bool_decide (pl_fence_kind (remembered_line h) = OtherFence))
  && negb (bool_decide (pa_fence_context x = OtherFence))
  && pl_is_header (remembered_line h)
  && candidate_is is_table_delimiter_line
       (if bool_decide (pa_fence_context x = OtherFence) then None else table_candidate_text (pa_text x))
  = is_table_pair h x.
Proof. unfold is_table_pair. simpl. by repeat case_bool_decide. Qed.

Lemma pending_snoc P x :
  pending_of (P ++ [x]) =
  if not_blank x then if is_pending_header x then Some (pa_source_start x) else None else pending_of P.
Proof. unfold pending_of. rewrite rev_app_distr. simpl. by destruct (not_blank x). Qed.

Lemma scanned_push ls l sc : scanned ls sc → scanned (ls ++ [l]) (push_line (ln l) sc).
Proof.
  intros (Ho & Ht & Hp & Hc & Hpend). unfold scanned. rewrite parse_lines_snoc, find_table_snoc, last_snoc.
  set (P := parse_lines_from None 0 ls) in *.
  set (x := mkParsedLine l (fence_kind (tracker_after None ls)) (0 + end_offset ls)).
  unfold push_line. rewrite strip_lf, Ho, Ht, Hc, Hp.
  assert (end_offset (ls ++ [l]) = (end_offset ls + blen (ln l))%N) as ->.
  { assert (blen (ln l) = blen l + 1)%N as -> by (unfold ln; by rewrite blen_app).
    clear. induction ls as [|y ls IH]; simpl in *; lia. }
  assert (tracker_after None (ls ++ [l]) = fence_advance l (tracker_after None ls)) as ->
    by (unfold tracker_after; by rewrite foldl_app).
  assert (remembered_line x = PreviousLine (end_offset ls) (fence_kind (tracker_after None ls))
    (candidate_is is_table_header_line (if bool_decide (fence_kind (tracker_after None ls) = OtherFence)
       then None else table_candidate_text l))) as Hx by done.
  destruct (find_table P) as [s|] eqn:Ef; [by split_and!|]. specialize (Hpend eq_refl).
  destruct (last P) as [h|] eqn:El; simpl.
  - pose proof (pair_test h x) as Hpair. simpl in Hpair. rewrite Hpair.
    destruct (is_table_pair h x); simpl; split_and!; try done.
    intros _. rewrite Hpend, pending_snoc. unfold not_blank, is_pending_header. simpl.
    by repeat case_bool_decide.
  - split_and!; try done. intros _. rewrite Hpend, pending_snoc. unfold not_blank, is_pending_header. simpl.
    by repeat case_bool_decide.
Qed.

Lemma scanned_fold ls done_ sc :
  scanned done_ sc → scanned (done_ ++ ls) (foldl (λ sc line, push_line line sc) sc (ln <$> ls)).
Proof.
  revert done_ sc. induction ls as [|l ls IH]; intros done_ sc Hs; simpl; [by rewrite app_nil_r|].
  rewrite cons_middle, app_assoc. by apply IH, scanned_push.
Qed.

(** An empty line is no delimiter and is skipped in the search for a header. *)
Lemma empty_line_no_pair h k n : is_table_pair h (mkParsedLine [] k n) = false.
Proof. unfold is_table_pair. case_match; [done|]. apply andb_false_r. Qed.

(** C34: Whatever the chunks in which whole lines of source arrive, the incremental scanner holds back
    exactly what the scan of the whole text does. *)
Theorem holdback_scanner_reference chunks :
  Forall whole_lines chunks →
  scanner_state (foldl (λ sc c, push_source_chunk c sc) new_scanner chunks) =
  table_holdback_state (concat chunks).
Proof.
  intros Hw. rewrite push_chunks_concat by done.
  destruct (whole_lines_split (concat chunks)) as (ls & Hi & Hs); [by apply whole_lines_concat|].
  rewrite push_source_chunk_fold, Hi.
  destruct (scanned_fold ls [] new_scanner) as (_ & _ & _ & Hc & Hp); [by split_and!|]. simpl in *.
  unfold scanner_state, table_holdback_state, parse_lines_with_fence_state.
  rewrite Hs, parse_lines_snoc, find_table_snoc, Hc.
  destruct (find_table _) as [s|] eqn:Ef; [done|]. rewrite Hp by done.
  assert (∀ P k n, (last P ≫= λ h, if is_table_pair h (mkParsedLine [] k n)
    then Some (pa_source_start h) else None) = None) as ->.
  { intros P k n. destruct (last P) as [h|]; [|done]. simpl. by rewrite empty_line_no_pair. }
  rewrite rev_app_distr. simpl. unfold pending_of. destruct (List.find _ _) as [p|]; [|done].
  by destruct (is_pending_header p).
Qed.

Lemma holdback_scanner_reference_witness :
  scanner_state (foldl (λ sc c, push_source_chunk c sc) new_scanner
    [ln (lit "Result:"); ln (lit "> | A | B |"); ln (lit "> | --- | :---: |"); ln (lit "> | 1 | 2 |")])
  = ConfirmedTable 8.
Proof. rewrite holdback_scanner_reference; [vm_compute; reflexivity|]. by repeat constructor; right. Defined.

(** * Unwrapping removes the fences of tables and nothing else *)

(** Lines of the source against lines of the result: a line is kept, or a
    Markdown fence around a table loses its two fence lines. *)
Inductive unwrapped : list str → list str → Prop :=
  | unwrapped_nil : unwrapped [] []
  | unwrapped_keep line source out :
      unwrapped source out → unwrapped (line :: source) (line :: out)
  | unwrapped_fence fence opening content closing source out :
      parse_open_fence opening = Some (fence, true) →
      Forall (λ l, is_close_fence l fence = false) content →
      is_close_fence closing fence = true →
      markdown_fence_contains_table (concat content) (fn_is_blockquoted fence) = true →
      unwrapped source out →
      unwrapped (opening :: content ++ closing :: source) (content ++ out).

Lemma unwrapped_keeps l source out : unwrapped source out → unwrapped (l ++ source) (l ++ out).
Proof. intros H. induction l as [|x l IH]; simpl; [done|]. by constructor. Qed.

(** The source lines that an open candidate has buffered. *)
Definition buffered (active : option ActiveFence) : list str :=
  match active with
  | Some (MarkdownCandidate _ opening content) => opening :: content
  | _ => []
  end.
Definition active_ok (active : option ActiveFence) : Prop :=
  match active with
  | Some (MarkdownCandidate fence opening content) =>
      parse_open_fence opening = Some (fence, true) ∧
      Forall (λ l, is_close_fence l fence = false) content
  | _ => True
  end.

Lemma unwrap_loop_spec active source_lines :
  active_ok active → unwrapped (buffered active ++ source_lines) (unwrap_loop active source_lines).
Proof.
  revert active. induction source_lines as [|line rest IH]; intros active Ha; simpl.
  - rewrite app_nil_r. destruct active as [[|? opening content]|]; simpl; try constructor.
    rewrite <-(app_nil_r content). apply (unwrapped_keeps content), unwrapped_nil.
  - unfold unwrap_step. destruct active as [[fence|fence opening content]|]; simpl.
    + constructor. destruct (is_close_fence line fence); simpl;
        [by apply (IH None)|by apply (IH (Some (Passthrough fence)))].
    + destruct Ha as [Ho Hc]. destruct (is_close_fence line fence) eqn:Eclose.
      * destruct (markdown_fence_contains_table _ _) eqn:Et.
        -- eapply unwrapped_fence; eauto. by apply (IH None).
        -- simpl. constructor. rewrite <-app_assoc. apply unwrapped_keeps. simpl. constructor.
           by apply (IH None).
      * specialize (IH (Some (MarkdownCandidate fence opening (content ++ [line])))). simpl in IH.
        rewrite <-app_assoc in IH. apply IH. split; [done|]. by apply Forall_snoc_iff.
    + destruct (parse_open_fence line) as [[fence []]|] eqn:Eo; simpl.
      * by apply (IH (Some (MarkdownCandidate fence line []))).
      * constructor. by apply (IH (Some (Passthrough fence))).
      * constructor. by apply (IH None).
Qed.

(** ** The fast path *)

Lemma contains_infix p a b : contains p (a ++ p ++ b) = true.
Proof.
  unfold contains. induction a as [|c a IH].
  - change ([] ++ p ++ b) with (p ++ b). destruct (p ++ b) eqn:E; cbn [find];
      by rewrite <-E, starts_with_app.
  - cbn [app find]. destruct (starts_with p _); [done|]. by destruct (find p (a ++ p ++ b)).
Qed.

Lemma contains_iff p s : contains p s = true ↔ ∃ a b, s = a ++ p ++ b.
Proof.
  split; [|intros (a & b & ->); apply contains_infix]. unfold contains.
  induction s as [|c s IH]; cbn [find].
  - destruct (starts_with p []) eqn:E; [|done]. apply starts_with_spec in E as [r E]. by exists [], r.
  - destruct (starts_with p (c :: s)) eqn:E; [apply starts_with_spec in E as [r E]; by exists [], r|].
    destruct (find p s); [|done]. intros _. destruct IH as (a & b & ->); [done|]. by exists (c :: a), b.
Qed.

Lemma contains_mid p a s b : contains p s = true → contains p (a ++ s ++ b) = true.
Proof.
  intros (x & y & ->)%contains_iff. apply contains_iff. exists (a ++ x), (y ++ b). by rewrite <-!app_assoc.
Qed.

Lemma run_length_split c s : ∃ r, s = replicate (run_length c s) c ++ r.
Proof.
  induction s as [|d s [r IH]]; simpl; [by exists []|].
  destruct (N.eqb_spec d c) as [->|]; [|by eexists]. exists r. simpl. congruence.
Qed.

Definition has_fence_run (s : str) : bool := contains (lit "```") s || contains (lit "~~~") s.

Lemma fence_marker_run text m len : parse_fence_marker text = Some (m, len) → has_fence_run text = true.
Proof.
  unfold parse_fence_marker. destruct text as [|c text]; [done|].
  destruct (negb _ && negb _) eqn:Em; [done|]. destruct (Nat.ltb_spec (run_length c (c :: text)) 3); [done|].
  intros _. destruct (run_length_split c (c :: text)) as [r Hr].
  assert (∃ r', c :: text = [c; c; c] ++ r') as [r' ->].
  { destruct (run_length c (c :: text)) as [|[|[|n]]]; [lia..|]. rewrite Hr. simpl. eauto. }
  unfold has_fence_run. apply orb_true_iff. apply andb_false_iff in Em as [Em|Em];
    apply negb_false_iff, N.eqb_eq in Em as ->; [left; apply (contains_infix (lit "```") [] r')|right; apply (contains_infix (lit "~~~") [] r')].
Qed.

(** Each scan of a line looks at a part of it. *)
Lemma trim_start_suffix s : ∃ a, s = a ++ trim_start s.
Proof. destruct (trim_start_spec s) as (a & ? & _). eauto. Qed.

Lemma strip_blockquote_suffix s : ∃ a, s = a ++ strip_blockquote_prefix s.
Proof.
  unfold strip_blockquote_prefix. destruct (trim_start_suffix s) as [a Ha].
  assert (∀ n t, ∃ b, t = b ++ strip_blockquote_loop n t) as Hloop.
  { intros n. induction n as [|n IH]; intros t; [by exists []|]. cbn [strip_blockquote_loop].
    destruct (strip_prefix [chr ">"] t) as [u|] eqn:E; [|by exists []]. apply strip_prefix_Some in E as ->.
    assert (∃ b, u = b ++ strip_prefix_or_id [SPACE] u) as [b Hb].
    { unfold strip_prefix_or_id. destruct (strip_prefix [SPACE] u) as [v|] eqn:E; [|by exists []].
      apply strip_prefix_Some in E as ->. by exists [SPACE]. }
    destruct (trim_start_suffix (strip_prefix_or_id [SPACE] u)) as [d Hd].
    destruct (IH (trim_start (strip_prefix_or_id [SPACE] u))) as [e He].
    exists ([chr ">"] ++ b ++ d ++ e). rewrite <-!app_assoc, <-He, <-Hd, <-Hb. done. }
  destruct (Hloop (length s) (trim_start s)) as [b Hb]. exists (a ++ b). by rewrite <-app_assoc, <-Hb.
Qed.

(** The fuel is enough: no marker is left. *)
Lemma strip_blockquote_complete s : strip_prefix [chr ">"] (strip_blockquote_prefix s) = None.
Proof.
  unfold strip_blockquote_prefix.
  assert (∀ n t, length t ≤ n → strip_prefix [chr ">"] (strip_blockquote_loop n t) = None) as Hloop.
  { induction n as [|n IH]; intros t Ht; [by destruct t; simpl in *; [|lia]|]. cbn [strip_blockquote_loop].
    destruct (strip_prefix [chr ">"] t) as [u|] eqn:E; [|done]. apply strip_prefix_Some in E as ->.
    apply IH. destruct (trim_start_suffix (strip_prefix_or_id [SPACE] u)) as [d Hd].
    apply (f_equal length) in Hd. rewrite length_app in Hd. simpl in Ht.
    assert (length (strip_prefix_or_id [SPACE] u) ≤ length u); [|lia].
    unfold strip_prefix_or_id. destruct (strip_prefix [SPACE] u) as [v|] eqn:Ev; [|done].
    apply strip_prefix_Some in Ev as ->. simpl. lia. }
  apply Hloop. destruct (trim_start_suffix s) as [a Ha]. rewrite Ha at 2. rewrite length_app. lia.
Qed.

Lemma strip_line_indent_infix line t : strip_line_indent line = Some t → ∃ a b, line = a ++ t ++ b.
Proof.
  unfold strip_line_indent. assert (∀ n s, strip_indent_from n s = Some t → ∃ a, s = a ++ t) as Hind.
  { intros n s. revert n. induction s as [|c s IH]; intros n; cbn [strip_indent_from];
      [intros [= <-]; by exists []|].
    destruct (c =? SPACE)%N; [destruct (4 <=? S n); [done|]; intros (a & ->)%IH; by exists (c :: a)|].
    destruct (c =? 9)%N; [done|]. intros [= <-]. by exists []. }
  intros (a & Ha)%Hind. unfold strip_suffix_or_id in Ha.
  destruct (strip_suffix [LF] line) as [u|] eqn:E; simpl in Ha.
  - apply strip_suffix_Some in E as ->. subst u. exists a, [LF]. by rewrite <-app_assoc.
  - exists a, []. by rewrite app_nil_r.
Qed.

Lemma has_fence_run_mid a s b : has_fence_run s = true → has_fence_run (a ++ s ++ b) = true.
Proof.
  unfold has_fence_run. rewrite !orb_true_iff. intros [H|H]; [left|right]; by apply contains_mid.
Qed.

Lemma open_fence_run line f : parse_open_fence line = Some f → has_fence_run line = true.
Proof.
  unfold parse_open_fence. rewrite bind_Some. intros (t & (a & b & ->)%strip_line_indent_infix & H).
  rewrite bind_Some in H. destruct H as ([m len] & Hm%fence_marker_run & _).
  destruct (strip_blockquote_suffix t) as [d Hd]. apply has_fence_run_mid. rewrite Hd, <-(app_nil_r (strip_blockquote_prefix t)).
  by apply has_fence_run_mid.
Qed.

(** Without a run of three fence chars no line opens a fence. *)
Lemma unwrap_loop_plain source_lines :
  Forall (λ l, parse_open_fence l = None) source_lines → unwrap_loop None source_lines = source_lines.
Proof. induction 1 as [|l ls Hl _ IH]; simpl; [done|]. by rewrite Hl, IH. Qed.

Lemma concat_elem_split {A} (x : list A) l : x ∈ l → ∃ a b, concat l = a ++ x ++ b.
Proof.
  intros (l1 & l2 & ->)%list_elem_of_split. exists (concat l1), (concat l2).
  by rewrite concat_app.
Qed.

Lemma unwrap_fast_path s : concat (unwrap_loop None (split_inclusive LF s)) = unwrap_markdown_fences s.
Proof.
  unfold unwrap_markdown_fences. destruct (negb _ && negb _) eqn:E; [|done].
  rewrite unwrap_loop_plain; [apply split_inclusive_concat|]. apply Forall_forall. intros l Hl.
  destruct (parse_open_fence l) as [f|] eqn:Ef; [|done]. apply open_fence_run in Ef.
  destruct (concat_elem_split l _ Hl) as (a & b & Hs). rewrite split_inclusive_concat in Hs.
  apply (has_fence_run_mid a l b) in Ef. rewrite <-Hs in Ef. unfold has_fence_run in Ef.
  apply andb_true_iff in E as [?%negb_true_iff ?%negb_true_iff]. apply orb_true_iff in Ef as []; congruence.
Qed.

(** The text given to the Markdown parser is the source, fast path or not, in which every closed
    Markdown fence around a table has lost its opening and closing line and nothing else. *)
Theorem unwrap_removes_table_fences s :
  ∃ out, unwrap_markdown_fences s = concat out ∧ unwrapped (split_inclusive LF s) out.
Proof.
  exists (unwrap_loop None (split_inclusive LF s)). rewrite unwrap_fast_path.
  split; [done|]. by apply (unwrap_loop_spec None).
Qed.
