(* ===== verification/Transcript.v ===== *)
(** * Streaming an answer into the transcript

    Complete lines of an answer are rendered as they arrive and leave the screen
    for the scrollback at the pace of an animation.  This file has the incremental
    renderer ([tui/src/streaming/render.rs], [code_fence.rs]), the queue of
    rendered lines ([mod.rs]), the controllers with their stable and mutable
    regions ([controller.rs]), the adaptive pace ([chunking.rs]) and the commit
    tick that puts them together ([commit_tick.rs]).

    The Markdown parser, the syntax highlighter and the styled lines are the class
    [MarkdownRenderer].  Instants and durations are nanoseconds.  [None] is a
    panic: a slice out of range or off a char boundary.  The revision of the
    theme, which other threads change, is an argument for each read of it. *)
From stdpp Require Import numbers strings list.
From S2P Require Import Prelude RustStr ByteStr MarkdownStream.

(** ** What is rendered elsewhere *)

(** [markdown_render::StreamingMarkdownRender]. *)
Record StreamingMarkdownRender (Line : Type) := StreamingMarkdown {
  sm_lines : list Line;
  sm_last_top_level_block_start : option N;
  sm_has_reference_link_definition : bool;
  sm_first_top_level_block_is_html : bool;
}.
Arguments StreamingMarkdown {Line}.
Arguments sm_lines {Line}.
Arguments sm_last_top_level_block_start {Line}.
Arguments sm_has_reference_link_definition {Line}.
Arguments sm_first_top_level_block_is_html {Line}.

Class MarkdownRenderer := {
  Line : Type;
  default_line : Line;
  plain_line : str → Line;
  plan_title : Line;
  plan_line : Line → Line;
  VisContext : Type;
  rewrite_visualizations : option VisContext → str → str;
  render_lines : option VisContext → str → str → option N → list Line;
  render_streaming_lines : str → option N → StreamingMarkdownRender Line;
  Highlighter : Type;
  highlighter_new : N → str → str → N → option Highlighter;
  highlighter_append : N → Highlighter → str → option (Highlighter * list Line);
  indent_line : Line → Line;
}.

(** Offsets of blocks index the text that was rendered. *)
Class MarkdownLaws `{MarkdownRenderer} : Prop := {
  block_start_boundary s w b :
    sm_last_top_level_block_start (render_streaming_lines s w) = Some b → boundary s b;
}.

(** The values [syntax_theme_revision] has when it is read. *)
Record ThemeReads := mkThemeReads {
  th_fence : N;
  th_new : N;
  th_append : N;
  th_pending : N;
  th_detect : N;
}.

Inductive HistoryRenderMode := Rich | Raw.
#[global] Instance HistoryRenderMode_eq_dec : EqDecision HistoryRenderMode.
Proof. solve_decision. Defined.

(** ** Code fences ([code_fence.rs]) *)

Definition MAX_HIGHLIGHT_LINE_BYTES : N := 4096.

(** [trim_matches] with a predicate. *)
Fixpoint trim_start_where (p : char → bool) (s : str) : str :=
  match s with
  | c :: s' => if p c then trim_start_where p s' else s
  | [] => []
  end.
Definition trim_where (p : char → bool) (s : str) : str := trim_end_matches p (trim_start_where p s).
Definition is_info_space (c : char) : bool := existsb (N.eqb c) [SPACE; 9; 11; 12]%N.

(** The part before the first separator. *)
Fixpoint until (p : char → bool) (s : str) : str :=
  match s with
  | c :: s' => if p c then [] else c :: until p s'
  | [] => []
  end.
Definition is_info_separator (c : char) : bool := existsb (N.eqb c) [chr ","; SPACE; 9%N].

Definition has_possible_closing_line (source : str) (marker : char) (marker_len : nat) : bool :=
  existsb (λ line,
    marker_len <=? run_length marker (trim_start_where (λ c, (c =? SPACE)%N || (c =? 9)%N) line))
    (lines source).

Section renderer.
Context `{MarkdownRenderer}.

Record OpenCodeFence := mkOpenCodeFence {
  oc_marker : char;
  oc_marker_len : nat;
  oc_language : str;
  oc_content_start : N;
  oc_source_len : N;
  oc_theme_revision : N;
  oc_highlighter : option Highlighter;
}.

Definition fence_detect (now_revision : N) (source : str) (source_len theme_revision : N)
  : option OpenCodeFence :=
  match source with
  | [] => None
  | marker :: _ =>
      if negb (marker =? chr "`")%N && negb (marker =? chr "~")%N then None
      else
        '(opening, code) ← split_once LF source;
        let marker_len := run_length marker opening in
        if (marker_len <? 3) || negb (ends_with [LF] source)
           || negb (theme_revision =? now_revision)%N
           || contains_char CR source || contains_char 0%N source
        then None
        else
          let info := trim_where is_info_space (drop marker_len opening) in
          if contains_char (chr "&") info || contains_char BACKSLASH info
             || ((marker =? chr "`")%N && contains_char (chr "`") info)
          then None
          else
            let language := until is_info_separator info in
            if bool_decide (language = []) then None
            else if (MAX_HIGHLIGHT_LINE_BYTES <? blen language)%N
                    || has_possible_closing_line code marker marker_len
            then None
            else if (blen code <=? source_len)%N
            then Some (mkOpenCodeFence marker marker_len language (source_len - blen code) source_len
                         theme_revision None)
            else None
  end.

(** The outer option is a panic, the inner one the [None] of the source. *)
Definition fence_append (reads : ThemeReads) (raw_source committed_source : str) (f : OpenCodeFence)
  : option (option (OpenCodeFence * list Line)) :=
  if negb (oc_source_len f + blen committed_source =? blen raw_source)%N
     || negb (ends_with committed_source raw_source)
     || contains_char CR committed_source || contains_char 0%N committed_source
     || has_possible_closing_line committed_source (oc_marker f) (oc_marker_len f)
     || negb (oc_theme_revision f =? th_fence reads)%N
  then Some None
  else
    highlighter ←
      match oc_highlighter f with
      | Some h => Some (Some h)
      | None =>
          code ← get_range (oc_content_start f) (oc_source_len f) raw_source;
          Some (highlighter_new (th_new reads) code (oc_language f) (oc_theme_revision f))
      end;
    match highlighter with
    | None => Some None
    | Some h =>
        match highlighter_append (th_append reads) h committed_source with
        | None => Some None
        | Some (h, new_lines) =>
            Some (Some (mkOpenCodeFence (oc_marker f) (oc_marker_len f) (oc_language f)
                          (oc_content_start f) (blen raw_source) (oc_theme_revision f) (Some h),
                        indent_line <$> new_lines))
        end
    end.

(** ** The incremental renderer ([render.rs], [markdown.rs], [inline_visualization.rs]) *)

Definition contains_inline_visualization (markdown : str) : bool :=
  contains (lit "::rexux-inline-vis{") markdown
  || contains ([57856%N] ++ lit "visualize" ++ [57858%N]) markdown.

Definition raw_lines_from_source (source : str) : list Line :=
  if bool_decide (source = []) then []
  else
    let parts := split LF source in
    let parts := if ends_with [LF] source then removelast parts else parts in
    plain_line <$> parts.

Definition render_markdown_agent_with_links_cwd_and_visualizations (source : str) (width : option N)
    (ctx : option VisContext) : list Line :=
  let normalized := unwrap_markdown_fences (rewrite_visualizations ctx source) in
  render_lines ctx source normalized width.

Definition render_streaming_markdown_agent_with_links_and_cwd (source : str) (width : option N)
  : option (StreamingMarkdownRender Line) :=
  let normalized := unwrap_markdown_fences source in
  let rendered := render_streaming_lines normalized width in
  if bool_decide (normalized = source) then Some rendered
  else
    start ←
      match sm_last_top_level_block_start rendered with
      | None => Some None
      | Some b =>
          tail ← slice_from b normalized;
          Some (blen <$> strip_suffix tail source)
      end;
    Some (StreamingMarkdown (sm_lines rendered) start (sm_has_reference_link_definition rendered)
            (sm_first_top_level_block_is_html rendered)).

Definition render_source (source : str) (width : option N) (mode : HistoryRenderMode)
    (ctx : option VisContext) : list Line :=
  match mode with
  | Rich => render_markdown_agent_with_links_cwd_and_visualizations source width ctx
  | Raw => raw_lines_from_source source
  end.

Record StreamingRender := mkRender {
  sr_lines : list Line;
  sr_stable_source_len : N;
  sr_stable_rendered_len : nat;
  sr_has_reference_link_definition : bool;
  sr_has_inline_visualization_directive : bool;
  sr_open_code_fence : option OpenCodeFence;
}.
Definition new_render : StreamingRender := mkRender [] 0 0 false false None.

Definition recompute (source : str) (width : option N) (mode : HistoryRenderMode)
    (ctx : option VisContext) : option StreamingRender :=
  let inline := contains_inline_visualization source in
  match mode, ctx, inline with
  | Rich, None, false =>
      rendered ← render_streaming_markdown_agent_with_links_and_cwd source width;
      Some (mkRender (sm_lines rendered) 0 0 (sm_has_reference_link_definition rendered) inline None)
  | _, _, _ => Some (mkRender (render_source source width mode ctx) 0 0 false inline None)
  end.

(** The last part of [append]: render the mutable block again. *)
Definition append_pending (reads : ThemeReads) (raw_source : str) (width : option N)
    (ctx : option VisContext) (r : StreamingRender) : option StreamingRender :=
  pending_source ← slice_from (sr_stable_source_len r) raw_source;
  pending ← render_streaming_markdown_agent_with_links_and_cwd pending_source width;
  if sm_has_reference_link_definition pending then recompute raw_source width Rich ctx
  else
    let start := sm_last_top_level_block_start pending in
    final_block ← slice_from (default 0%N start) pending_source;
    let fence := fence_detect (th_detect reads) final_block (blen raw_source) (th_pending reads) in
    '(stable_source_len, newly_stable) ←
      match start with
      | None => Some (sr_stable_source_len r, None)
      | Some b =>
          newly_stable_source ← slice_to b pending_source;
          Some (sr_stable_source_len r + b,
                Some (length (render_source newly_stable_source width Rich ctx)))%N
      end;
    let kept := take (sr_stable_rendered_len r) (sr_lines r) in
    let kept :=
      if negb (bool_decide (length kept = 0))
         && (negb (bool_decide (length (sm_lines pending) = 0)) || negb (bool_decide (trim pending_source = [])))
         && negb (sm_first_top_level_block_is_html pending)
      then kept ++ [default_line] else kept in
    Some (mkRender (kept ++ sm_lines pending) stable_source_len
            match newly_stable with
            | Some n => length kept + n
            | None => sr_stable_rendered_len r
            end
            (sr_has_reference_link_definition r) (sr_has_inline_visualization_directive r) fence).

Definition render_append (reads : ThemeReads) (raw_source committed_source : str) (width : option N)
    (mode : HistoryRenderMode) (ctx : option VisContext) (r : StreamingRender)
  : option StreamingRender :=
  match mode with
  | Raw =>
      Some (mkRender (sr_lines r ++ raw_lines_from_source committed_source) (sr_stable_source_len r)
              (sr_stable_rendered_len r) (sr_has_reference_link_definition r)
              (sr_has_inline_visualization_directive r) (sr_open_code_fence r))
  | Rich =>
      if sr_has_inline_visualization_directive r || contains_inline_visualization committed_source
      then recompute raw_source width mode ctx
      else if sr_has_reference_link_definition r then recompute raw_source width mode ctx
      else
        extended ←
          match sr_open_code_fence r with
          | Some f => fence_append reads raw_source committed_source f
          | None => Some None
          end;
        match extended with
        | Some (f, new_lines) =>
            Some (mkRender (sr_lines r ++ new_lines) (sr_stable_source_len r) (sr_stable_rendered_len r)
                    (sr_has_reference_link_definition r) (sr_has_inline_visualization_directive r)
                    (Some f))
        | None => append_pending reads raw_source width ctx r
        end
  end.

(** ** The queue of rendered lines ([mod.rs]) *)

Record StreamState := mkStreamState {
  ss_collector : MarkdownStreamCollector;
  ss_queued_lines : list (Line * N);
  ss_has_seen_delta : bool;
}.
Definition new_stream_state (width : option N) : StreamState :=
  mkStreamState (new_collector width) [] false.

Definition stream_clear (s : StreamState) : StreamState :=
  mkStreamState (collector_clear (ss_collector s)) [] false.
Definition stream_step (s : StreamState) : list Line * StreamState :=
  match ss_queued_lines s with
  | [] => ([], s)
  | (l, _) :: q => ([l], mkStreamState (ss_collector s) q (ss_has_seen_delta s))
  end.
Definition drain_n (max_lines : nat) (s : StreamState) : list Line * StreamState :=
  let end_ := max_lines `min` length (ss_queued_lines s) in
  ((take end_ (ss_queued_lines s)).*1,
   mkStreamState (ss_collector s) (drop end_ (ss_queued_lines s)) (ss_has_seen_delta s)).
Definition stream_clear_queue (s : StreamState) : StreamState :=
  mkStreamState (ss_collector s) [] (ss_has_seen_delta s).
Definition stream_is_idle (s : StreamState) : bool := bool_decide (length (ss_queued_lines s) = 0).
Definition queued_len (s : StreamState) : nat := length (ss_queued_lines s).
Definition stream_oldest_queued_age (now : N) (s : StreamState) : option N :=
  match ss_queued_lines s with
  | [] => None
  | (_, enqueued_at) :: _ => Some (now - enqueued_at)%N
  end.
Definition enqueue (now : N) (new_lines : list Line) (s : StreamState) : StreamState :=
  mkStreamState (ss_collector s) (ss_queued_lines s ++ ((λ l, (l, now)) <$> new_lines))
    (ss_has_seen_delta s).
Definition with_collector (c : MarkdownStreamCollector) (s : StreamState) : StreamState :=
  mkStreamState c (ss_queued_lines s) (ss_has_seen_delta s).
End renderer.

(** ** The pace ([chunking.rs]) *)

Definition MS : N := 1000000.
Definition ENTER_QUEUE_DEPTH_LINES : nat := 8.
Definition ENTER_OLDEST_AGE : N := 120 * MS.
Definition EXIT_QUEUE_DEPTH_LINES : nat := 2.
Definition EXIT_OLDEST_AGE : N := 40 * MS.
Definition EXIT_HOLD : N := 250 * MS.
Definition REENTER_CATCH_UP_HOLD : N := 250 * MS.
Definition SEVERE_QUEUE_DEPTH_LINES : nat := 64.
Definition SEVERE_OLDEST_AGE : N := 300 * MS.

Inductive ChunkingMode := Smooth | CatchUp.
#[global] Instance ChunkingMode_eq_dec : EqDecision ChunkingMode.
Proof. solve_decision. Defined.
Record QueueSnapshot := mkSnapshot { qs_queued_lines : nat; qs_oldest_age : option N }.
Inductive DrainPlan := Single | Batch (max_lines : nat).
Record ChunkingDecision := mkDecision {
  cd_mode : ChunkingMode;
  cd_entered_catch_up : bool;
  cd_drain_plan : DrainPlan;
}.
Record AdaptiveChunkingPolicy := mkPolicy {
  cp_mode : ChunkingMode;
  cp_below_exit_threshold_since : option N;
  cp_last_catch_up_exit_at : option N;
}.
Definition new_policy : AdaptiveChunkingPolicy := mkPolicy Smooth None None.
(** [reset]. *)
Definition policy_reset (_ : AdaptiveChunkingPolicy) : AdaptiveChunkingPolicy := mkPolicy Smooth None None.

Definition age_is (p : N → bool) (s : QueueSnapshot) : bool :=
  match qs_oldest_age s with Some oldest => p oldest | None => false end.

Definition should_enter_catch_up (s : QueueSnapshot) : bool :=
  (ENTER_QUEUE_DEPTH_LINES <=? qs_queued_lines s) || age_is (λ a, ENTER_OLDEST_AGE <=? a)%N s.
Definition should_exit_catch_up (s : QueueSnapshot) : bool :=
  (qs_queued_lines s <=? EXIT_QUEUE_DEPTH_LINES) && age_is (λ a, a <=? EXIT_OLDEST_AGE)%N s.
Definition is_severe_backlog (s : QueueSnapshot) : bool :=
  (SEVERE_QUEUE_DEPTH_LINES <=? qs_queued_lines s) || age_is (λ a, SEVERE_OLDEST_AGE <=? a)%N s.

Definition reentry_hold_active (now : N) (p : AdaptiveChunkingPolicy) : bool :=
  match cp_last_catch_up_exit_at p with
  | Some exit => (now - exit <? REENTER_CATCH_UP_HOLD)%N
  | None => false
  end.

Definition note_catch_up_exit (now : N) (p : AdaptiveChunkingPolicy) : AdaptiveChunkingPolicy :=
  match cp_mode p with
  | CatchUp => mkPolicy (cp_mode p) (cp_below_exit_threshold_since p) (Some now)
  | Smooth => p
  end.

Definition maybe_enter_catch_up (s : QueueSnapshot) (now : N) (p : AdaptiveChunkingPolicy)
  : bool * AdaptiveChunkingPolicy :=
  if negb (should_enter_catch_up s) then (false, p)
  else if reentry_hold_active now p && negb (is_severe_backlog s) then (false, p)
  else (true, mkPolicy CatchUp None None).

Definition maybe_exit_catch_up (s : QueueSnapshot) (now : N) (p : AdaptiveChunkingPolicy)
  : AdaptiveChunkingPolicy :=
  if negb (should_exit_catch_up s) then mkPolicy (cp_mode p) None (cp_last_catch_up_exit_at p)
  else
    match cp_below_exit_threshold_since p with
    | Some since =>
        if (EXIT_HOLD <=? now - since)%N then mkPolicy Smooth None (Some now) else p
    | None => mkPolicy (cp_mode p) (Some now) (cp_last_catch_up_exit_at p)
    end.

Definition decide_chunk (s : QueueSnapshot) (now : N) (p : AdaptiveChunkingPolicy)
  : ChunkingDecision * AdaptiveChunkingPolicy :=
  if qs_queued_lines s =? 0 then
    let p := note_catch_up_exit now p in
    let p := mkPolicy Smooth None (cp_last_catch_up_exit_at p) in
    (mkDecision (cp_mode p) false Single, p)
  else
    let '(entered_catch_up, p) :=
      match cp_mode p with
      | Smooth => maybe_enter_catch_up s now p
      | CatchUp => (false, maybe_exit_catch_up s now p)
      end in
    let drain_plan :=
      match cp_mode p with
      | Smooth => Single
      | CatchUp => Batch (qs_queued_lines s `max` 1)
      end in
    (mkDecision (cp_mode p) entered_catch_up drain_plan, p).

(** ** The two regions ([controller.rs]) *)

(** [lines[a..b]] of a vector. *)
Definition slice_lines {A} (a b : nat) (l : list A) : option (list A) :=
  if (a <=? b) && (b <=? length l) then Some (take (b - a) (drop a l)) else None.

Section controllers.
Context `{MarkdownRenderer}.

Record StablePrefixLenCache := mkCache {
  ca_source_start : N;
  ca_width : option N;
  ca_stable_prefix_len : nat;
}.

Record StreamCore := mkCore {
  co_state : StreamState;
  co_width : option N;
  co_render : StreamingRender;
  co_enqueued_stable_len : nat;
  co_emitted_stable_len : nat;
  co_context : option VisContext;
  co_render_mode : HistoryRenderMode;
  co_cache : option StablePrefixLenCache;
  co_scanner : TableHoldbackScanner;
}.

Definition new_core (width : option N) (mode : HistoryRenderMode) (ctx : option VisContext) : StreamCore :=
  mkCore (new_stream_state width) width new_render 0 0 ctx mode None new_scanner.

(** Field updates. *)
Definition set_state (s : StreamState) (c : StreamCore) : StreamCore :=
  mkCore s (co_width c) (co_render c) (co_enqueued_stable_len c) (co_emitted_stable_len c)
    (co_context c) (co_render_mode c) (co_cache c) (co_scanner c).
Definition set_render (r : StreamingRender) (c : StreamCore) : StreamCore :=
  mkCore (co_state c) (co_width c) r (co_enqueued_stable_len c) (co_emitted_stable_len c)
    (co_context c) (co_render_mode c) (co_cache c) (co_scanner c).
Definition set_enqueued (n : nat) (c : StreamCore) : StreamCore :=
  mkCore (co_state c) (co_width c) (co_render c) n (co_emitted_stable_len c)
    (co_context c) (co_render_mode c) (co_cache c) (co_scanner c).
Definition set_emitted (n : nat) (c : StreamCore) : StreamCore :=
  mkCore (co_state c) (co_width c) (co_render c) (co_enqueued_stable_len c) n
    (co_context c) (co_render_mode c) (co_cache c) (co_scanner c).
Definition set_cache (cache : option StablePrefixLenCache) (c : StreamCore) : StreamCore :=
  mkCore (co_state c) (co_width c) (co_render c) (co_enqueued_stable_len c) (co_emitted_stable_len c)
    (co_context c) (co_render_mode c) cache (co_scanner c).
Definition set_scanner (sc : TableHoldbackScanner) (c : StreamCore) : StreamCore :=
  mkCore (co_state c) (co_width c) (co_render c) (co_enqueued_stable_len c) (co_emitted_stable_len c)
    (co_context c) (co_render_mode c) (co_cache c) sc.
Definition set_mode (mode : HistoryRenderMode) (c : StreamCore) : StreamCore :=
  mkCore (co_state c) (co_width c) (co_render c) (co_enqueued_stable_len c) (co_emitted_stable_len c)
    (co_context c) mode (co_cache c) (co_scanner c).
Definition set_core_width (width : option N) (c : StreamCore) : StreamCore :=
  mkCore (co_state c) width (co_render c) (co_enqueued_stable_len c) (co_emitted_stable_len c)
    (co_context c) (co_render_mode c) (co_cache c) (co_scanner c).

Definition render_len (c : StreamCore) : nat := length (sr_lines (co_render c)).

Definition stable_prefix_len_for_source_start (source_start : N) (c : StreamCore)
  : option (nat * StreamCore) :=
  let hit :=
    match co_cache c with
    | Some cache =>
        if bool_decide (ca_source_start cache = source_start) && bool_decide (ca_width cache = co_width c)
        then Some (ca_stable_prefix_len cache) else None
    | None => None
    end in
  match hit with
  | Some n => Some (n, c)
  | None =>
      source ← committed_source (ss_collector (co_state c));
      prefix ← slice_to (source_start `min` blen source)%N source;
      let n := length (render_markdown_agent_with_links_cwd_and_visualizations prefix (co_width c)
                         (co_context c)) in
      Some (n, set_cache (Some (mkCache source_start (co_width c) n)) c)
  end.

Definition tail_budget_from_source_start (source_start : N) (c : StreamCore) : option (nat * StreamCore) :=
  if (source_start =? 0)%N then Some (render_len c, c)
  else
    source ← committed_source (ss_collector (co_state c));
    let source_start := (source_start `min` blen source)%N in
    '(stable_prefix_len, c) ← stable_prefix_len_for_source_start source_start c;
    Some (render_len c - stable_prefix_len, c).

Definition active_tail_budget_lines (c : StreamCore) : option (nat * StreamCore) :=
  match co_render_mode c with
  | Raw => Some (0, c)
  | Rich =>
      match scanner_state (co_scanner c) with
      | ConfirmedTable start | PendingHeader start => tail_budget_from_source_start start c
      | NoTable => Some (0, c)
      end
  end.

Definition compute_target_stable_len (c : StreamCore) : option (nat * StreamCore) :=
  '(tail_budget, c) ← active_tail_budget_lines c;
  Some ((render_len c - tail_budget) `max` co_emitted_stable_len c, c).

Definition enqueue_lines (now : N) (a b : nat) (c : StreamCore) : option StreamCore :=
  new_lines ← slice_lines a b (sr_lines (co_render c));
  Some (set_state (enqueue now new_lines (co_state c)) c).

(** Whether lines were enqueued, and the new state. *)
Definition sync_stable_queue (now : N) (c : StreamCore) : option (bool * StreamCore) :=
  '(target, c) ← compute_target_stable_len c;
  if target <? co_enqueued_stable_len c then
    let c := set_state (stream_clear_queue (co_state c)) c in
    c ← (if co_emitted_stable_len c <? target
         then enqueue_lines now (co_emitted_stable_len c) target c else Some c);
    let c := set_enqueued target c in
    Some (0 <? queued_len (co_state c), c)
  else if target =? co_enqueued_stable_len c then Some (false, c)
  else
    c ← enqueue_lines now (co_enqueued_stable_len c) target c;
    Some (true, set_enqueued target c).

Definition rebuild_stable_queue_from_render (now : N) (c : StreamCore) : option StreamCore :=
  '(target, c) ← compute_target_stable_len c;
  let c := set_state (stream_clear_queue (co_state c)) c in
  c ← (if co_emitted_stable_len c <? target
       then enqueue_lines now (co_emitted_stable_len c) target c else Some c);
  Some (set_enqueued target c).

Definition push_delta (reads : ThemeReads) (now : N) (delta : str) (c : StreamCore)
  : option (bool * StreamCore) :=
  let s := co_state c in
  let s := mkStreamState (collector_push_delta delta (ss_collector s)) (ss_queued_lines s)
             (ss_has_seen_delta s || negb (bool_decide (delta = []))) in
  let c := set_state s c in
  if negb (contains_char LF delta) then Some (false, c)
  else
    let '(range, collector) := commit_complete_source (ss_collector (co_state c)) in
    let c := set_state (with_collector collector (co_state c)) c in
    match range with
    | None => Some (false, c)
    | Some (a, b) =>
        source ← committed_source collector;
        committed ← get_range a b source;
        let c := set_scanner (push_source_chunk committed (co_scanner c)) c in
        r ← render_append reads source committed (co_width c) (co_render_mode c) (co_context c) (co_render c);
        sync_stable_queue now (set_render r c)
    end.

Definition finalize_remaining (c : StreamCore) : (list Line * str) * StreamCore :=
  let '(source, collector) := finalize_and_take_source (ss_collector (co_state c)) in
  let rendered := render_source source (co_width c) (co_render_mode c) (co_context c) in
  let remaining := drop (co_emitted_stable_len c `min` length rendered) rendered in
  ((remaining, source), set_state (with_collector collector (co_state c)) c).

Definition core_tick (c : StreamCore) : list Line * StreamCore :=
  let '(step, s) := stream_step (co_state c) in
  (step, set_emitted (co_emitted_stable_len c + length step) (set_state s c)).

Definition core_tick_batch (max_lines : nat) (c : StreamCore) : list Line * StreamCore :=
  if max_lines =? 0 then ([], c)
  else
    let '(step, s) := drain_n max_lines (co_state c) in
    (step, set_emitted (co_emitted_stable_len c + length step) (set_state s c)).

Definition current_tail_lines (c : StreamCore) : list Line :=
  drop (co_enqueued_stable_len c `min` render_len c) (sr_lines (co_render c)).
Definition has_tail (c : StreamCore) : bool := co_enqueued_stable_len c <? render_len c.

(** The common end of [set_width] and [set_render_mode]. *)
Definition after_recompute (now : N) (had_pending_queue had_live_tail : bool) (c : StreamCore)
  : option StreamCore :=
  let c := set_emitted (co_emitted_stable_len c `min` render_len c) c in
  let c :=
    if had_pending_queue && (co_emitted_stable_len c =? render_len c) && (0 <? co_emitted_stable_len c)
    then set_emitted (co_emitted_stable_len c - 1) c else c in
  let c := set_state (stream_clear_queue (co_state c)) c in
  if (0 <? co_emitted_stable_len c) && negb had_pending_queue && negb had_live_tail
  then Some (set_enqueued (render_len c) c)
  else rebuild_stable_queue_from_render now c.

Definition core_set_width (now : N) (width : option N) (c : StreamCore) : option StreamCore :=
  if bool_decide (co_width c = width) then Some c
  else
    let had_pending_queue := 0 <? queued_len (co_state c) in
    let had_live_tail := has_tail c in
    let c := set_core_width width c in
    let c := set_state (with_collector (collector_set_width width (ss_collector (co_state c))) (co_state c)) c in
    source ← committed_source (ss_collector (co_state c));
    if bool_decide (source = []) then Some c
    else
      r ← recompute source (co_width c) (co_render_mode c) (co_context c);
      after_recompute now had_pending_queue had_live_tail (set_render r c).

Definition core_set_render_mode (now : N) (mode : HistoryRenderMode) (c : StreamCore) : option StreamCore :=
  if bool_decide (co_render_mode c = mode) then Some c
  else
    let had_pending_queue := 0 <? queued_len (co_state c) in
    let had_live_tail := has_tail c in
    let c := set_mode mode c in
    source ← committed_source (ss_collector (co_state c));
    if bool_decide (source = []) then Some c
    else
      r ← recompute source (co_width c) (co_render_mode c) (co_context c);
      after_recompute now had_pending_queue had_live_tail (set_render r c).

Definition core_reset (c : StreamCore) : StreamCore :=
  mkCore (stream_clear (co_state c)) (co_width c) new_render 0 0 (co_context c) (co_render_mode c)
    None new_scanner.

(** [clear_queue] of the controllers. *)
Definition core_clear_queue (c : StreamCore) : StreamCore :=
  set_enqueued (co_emitted_stable_len c) (set_state (stream_clear_queue (co_state c)) c).

(** *** Controllers *)

Inductive HistoryCell :=
  | AgentMessageCell (cell_lines : list Line) (is_first_line : bool)
  | ProposedPlanCell (cell_lines : list Line) (is_stream_continuation : bool).

Record StreamController := mkController { sc_core : StreamCore; sc_header_emitted : bool }.

Definition emit (new_lines : list Line) (s : StreamController) : option HistoryCell * StreamController :=
  match new_lines with
  | [] => (None, s)
  | _ => (Some (AgentMessageCell new_lines (negb (sc_header_emitted s))), mkController (sc_core s) true)
  end.

Definition controller_push (reads : ThemeReads) (now : N) (delta : str) (s : StreamController)
  : option (bool * StreamController) :=
  '(enqueued, c) ← push_delta reads now delta (sc_core s);
  Some (enqueued, mkController c (sc_header_emitted s)).

Definition controller_finalize (s : StreamController) : (option HistoryCell * option str) * StreamController :=
  let '((remaining, source), c) := finalize_remaining (sc_core s) in
  let s := mkController c (sc_header_emitted s) in
  if bool_decide (source = []) then ((None, None), mkController (core_reset c) (sc_header_emitted s))
  else
    let '(out, s) := emit remaining s in
    ((out, Some source), mkController (core_reset (sc_core s)) (sc_header_emitted s)).

Definition on_commit_tick (s : StreamController) : (option HistoryCell * bool) * StreamController :=
  let '(step, c) := core_tick (sc_core s) in
  let '(cell, s) := emit step (mkController c (sc_header_emitted s)) in
  ((cell, stream_is_idle (co_state (sc_core s))), s).
Definition on_commit_tick_batch (max_lines : nat) (s : StreamController)
  : (option HistoryCell * bool) * StreamController :=
  let '(step, c) := core_tick_batch max_lines (sc_core s) in
  let '(cell, s) := emit step (mkController c (sc_header_emitted s)) in
  ((cell, stream_is_idle (co_state (sc_core s))), s).

Record PlanStreamController := mkPlanController {
  pc_core : StreamCore;
  pc_header_emitted : bool;
  pc_top_padding_emitted : bool;
}.

Definition render_display_lines (new_lines : list Line) (include_bottom_padding : bool)
    (s : PlanStreamController) : list Line :=
  (if pc_header_emitted s then [] else [plan_title; plain_line (lit " ")]) ++
  (plan_line <$>
     ((if pc_top_padding_emitted s then [] else [plain_line (lit " ")]) ++ new_lines
      ++ (if include_bottom_padding then [plain_line (lit " ")] else []))).

Definition plan_emit (new_lines : list Line) (include_bottom_padding : bool) (s : PlanStreamController)
  : option HistoryCell * PlanStreamController :=
  if bool_decide (length new_lines = 0) && negb include_bottom_padding then (None, s)
  else
    (Some (ProposedPlanCell (render_display_lines new_lines include_bottom_padding s) (pc_header_emitted s)),
     mkPlanController (pc_core s) true true).

Definition plan_push (reads : ThemeReads) (now : N) (delta : str) (s : PlanStreamController)
  : option (bool * PlanStreamController) :=
  '(enqueued, c) ← push_delta reads now delta (pc_core s);
  Some (enqueued, mkPlanController c (pc_header_emitted s) (pc_top_padding_emitted s)).

Definition with_plan_core (c : StreamCore) (s : PlanStreamController) : PlanStreamController :=
  mkPlanController c (pc_header_emitted s) (pc_top_padding_emitted s).

Definition plan_finalize (s : PlanStreamController)
  : (option HistoryCell * option str) * PlanStreamController :=
  let '((remaining, source), c) := finalize_remaining (pc_core s) in
  if bool_decide (source = []) then ((None, None), with_plan_core (core_reset c) s)
  else
    let '(out, s) := plan_emit remaining true (with_plan_core c s) in
    ((out, Some source), with_plan_core (core_reset (pc_core s)) s).

Definition plan_on_commit_tick (s : PlanStreamController)
  : (option HistoryCell * bool) * PlanStreamController :=
  let '(step, c) := core_tick (pc_core s) in
  let '(cell, s) := plan_emit step false (with_plan_core c s) in
  ((cell, stream_is_idle (co_state (pc_core s))), s).
Definition plan_on_commit_tick_batch (max_lines : nat) (s : PlanStreamController)
  : (option HistoryCell * bool) * PlanStreamController :=
  let '(step, c) := core_tick_batch max_lines (pc_core s) in
  let '(cell, s) := plan_emit step false (with_plan_core c s) in
  ((cell, stream_is_idle (co_state (pc_core s))), s).

(** ** The commit tick ([commit_tick.rs]) *)

Inductive CommitTickScope := AnyMode | CatchUpOnly.
Record CommitTickOutput := mkTickOutput {
  to_cells : list HistoryCell;
  to_has_controller : bool;
  to_all_idle : bool;
}.
Definition default_tick_output : CommitTickOutput := mkTickOutput [] false true.

Definition max_duration (lhs rhs : option N) : option N :=
  match lhs, rhs with
  | Some l, Some r => Some (l `max` r)%N
  | Some l, None => Some l
  | None, r => r
  end.

Definition core_snapshot (now : N) (core : option StreamCore) (snapshot : QueueSnapshot) : QueueSnapshot :=
  match core with
  | Some c =>
      mkSnapshot (qs_queued_lines snapshot + queued_len (co_state c))
        (max_duration (qs_oldest_age snapshot) (stream_oldest_queued_age now (co_state c)))
  | None => snapshot
  end.
Definition stream_queue_snapshot (s : option StreamController) (p : option PlanStreamController) (now : N)
  : QueueSnapshot :=
  core_snapshot now (pc_core <$> p) (core_snapshot now (sc_core <$> s) (mkSnapshot 0 None)).

Definition drain_stream_controller (plan : DrainPlan) (s : StreamController) :=
  match plan with
  | Single => on_commit_tick s
  | Batch max_lines => on_commit_tick_batch max_lines s
  end.
Definition drain_plan_stream_controller (plan : DrainPlan) (s : PlanStreamController) :=
  match plan with
  | Single => plan_on_commit_tick s
  | Batch max_lines => plan_on_commit_tick_batch max_lines s
  end.

Definition add_drained (drained : option HistoryCell * bool) (out : CommitTickOutput) : CommitTickOutput :=
  mkTickOutput (to_cells out ++ match drained.1 with Some cell => [cell] | None => [] end) true
    (to_all_idle out && drained.2).

Definition apply_commit_tick_plan (plan : DrainPlan) (s : option StreamController)
    (p : option PlanStreamController)
  : CommitTickOutput * option StreamController * option PlanStreamController :=
  let out := default_tick_output in
  let '(out, s) :=
    match s with
    | Some c => let '(drained, c) := drain_stream_controller plan c in (add_drained drained out, Some c)
    | None => (out, None)
    end in
  let '(out, p) :=
    match p with
    | Some c => let '(drained, c) := drain_plan_stream_controller plan c in (add_drained drained out, Some c)
    | None => (out, None)
    end in
  (out, s, p).

Definition run_commit_tick (policy : AdaptiveChunkingPolicy) (s : option StreamController)
    (p : option PlanStreamController) (scope : CommitTickScope) (now : N)
  : CommitTickOutput * AdaptiveChunkingPolicy * option StreamController * option PlanStreamController :=
  let snapshot := stream_queue_snapshot s p now in
  let '(decision, policy) := decide_chunk snapshot now policy in
  match scope, cd_mode decision with
  | CatchUpOnly, Smooth => (default_tick_output, policy, s, p)
  | _, _ =>
      let '(out, s, p) := apply_commit_tick_plan (cd_drain_plan decision) s p in
      (out, policy, s, p)
  end.
End controllers.
