(* ===== verification/TranscriptProofs.v ===== *)
(** * What the streamed transcript shows

    The pace cannot flap between its two modes; no operation of a controller
    indexes out of range, whatever the Markdown renderer makes of the source; and
    in raw mode the lines emitted, tick by tick and at the end, are those of the
    source, each once and in order. *)
From stdpp Require Import numbers strings list.
From S2P Require Import Prelude RustStr ByteStr MarkdownStream Transcript.

(** ** The pace *)

Definition ticks : Type := list (QueueSnapshot * N).
Definition policy_after (p : AdaptiveChunkingPolicy) (ts : ticks) : AdaptiveChunkingPolicy :=
  foldl (λ p '(s, now), (decide_chunk s now p).2) p ts.
Definition mode_after (ts : ticks) : ChunkingMode := cp_mode (policy_after new_policy ts).

Lemma policy_after_snoc p ts s now :
  policy_after p (ts ++ [(s, now)]) = (decide_chunk s now (policy_after p ts)).2.
Proof. unfold policy_after. by rewrite foldl_app. Qed.

Ltac decide_cases :=
  unfold decide_chunk, maybe_enter_catch_up, maybe_exit_catch_up, note_catch_up_exit in *;
  repeat case_match; simplify_eq/=; try done.

(** The ticks since pressure fell below the thresholds. *)
Definition calm_since (ts : ticks) (t0 : N) : Prop :=
  ∃ before s0 calm, ts = before ++ (s0, t0) :: calm ∧
    should_exit_catch_up s0 = true ∧ Forall (λ x, should_exit_catch_up x.1 = true) calm.

Lemma below_threshold_is_calm ts t0 :
  cp_below_exit_threshold_since (policy_after new_policy ts) = Some t0 →
  mode_after ts = CatchUp ∧ calm_since ts t0.
Proof.
  unfold mode_after. revert t0. induction ts as [|[s now] ts IH] using rev_ind; intros t0; [done|].
  rewrite policy_after_snoc. destruct (policy_after new_policy ts) as [m since exit] eqn:Ep. simpl in IH.
  unfold decide_chunk. destruct (qs_queued_lines s =? 0); [by destruct m|]. destruct m; simpl.
  - unfold maybe_enter_catch_up. destruct (negb _); [intros Hs; by destruct (IH _ Hs)|].
    destruct (_ && _); [intros Hs; by destruct (IH _ Hs)|done].
  - unfold maybe_exit_catch_up. simpl. destruct (should_exit_catch_up s) eqn:Ex; [|done]. simpl.
    destruct since as [t|]; simpl.
    + destruct (_ <=? _)%N; [done|]. simpl. intros [= ->]. split; [done|].
      destruct (IH t0) as (_ & before & s0 & calm & -> & H0 & Hc); [done|].
      exists before, s0, (calm ++ [(s, now)]). rewrite <-app_assoc. split_and!; [done..|].
      by apply Forall_snoc_iff.
    + intros [= ->]. split; [done|]. exists ts, s, []. by repeat constructor.
Qed.

(** Leaving the catch-up mode is recorded, and remembered while the mode stays smooth. *)
Lemma exit_is_recorded ts s now :
  mode_after ts = CatchUp → mode_after (ts ++ [(s, now)]) = Smooth →
  cp_last_catch_up_exit_at (policy_after new_policy (ts ++ [(s, now)])) = Some now.
Proof.
  unfold mode_after. rewrite policy_after_snoc. destruct (policy_after new_policy ts) as [m since exit].
  simpl. intros ->. decide_cases.
Qed.

Lemma smooth_keeps_exit p ts t :
  cp_mode p = Smooth → cp_last_catch_up_exit_at p = Some t →
  (∀ ts1 ts2, ts = ts1 ++ ts2 → cp_mode (policy_after p ts1) = Smooth) →
  cp_last_catch_up_exit_at (policy_after p ts) = Some t.
Proof.
  intros Hm Ht. induction ts as [|[s now] ts IH] using rev_ind; intros Hall; [done|].
  assert (cp_mode (policy_after p ts) = Smooth) as Hs by (by apply (Hall ts [(s, now)])).
  assert (cp_mode (policy_after p (ts ++ [(s, now)])) = Smooth) as Hs' by (apply (Hall _ []); by rewrite app_nil_r).
  rewrite policy_after_snoc in *. destruct (policy_after p ts) as [m since exit] eqn:Ep. simpl in *. subst m.
  assert (exit = Some t) as ->.
  { apply IH. intros ts1 ts2 ->. apply (Hall ts1 (ts2 ++ [(s, now)])). by rewrite app_assoc. }
  decide_cases.
Qed.

(** The pace does not flap: the catch-up mode is left while lines are queued only when the pressure
    has been low at every tick of the last 250 ms, and after it was left it is entered again only
    250 ms later or with a severe backlog. *)
Theorem catch_up_is_damped ts s now :
  (mode_after ts = CatchUp → mode_after (ts ++ [(s, now)]) = Smooth → qs_queued_lines s ≠ 0 →
     should_exit_catch_up s = true ∧ ∃ t0, calm_since ts t0 ∧ (EXIT_HOLD ≤ now - t0)%N) ∧
  (mode_after ts = CatchUp → mode_after (ts ++ [(s, now)]) = Smooth →
     ∀ smooth s' now',
       (∀ ts1 ts2, smooth = ts1 ++ ts2 → mode_after (ts ++ (s, now) :: ts1) = Smooth) →
       mode_after (ts ++ (s, now) :: smooth ++ [(s', now')]) = CatchUp →
       is_severe_backlog s' = true ∨ (REENTER_CATCH_UP_HOLD ≤ now' - now)%N).
Proof.
  split.
  - intros Hc Hm Hq. pose proof (below_threshold_is_calm ts) as Hcalm.
    unfold mode_after in *. rewrite policy_after_snoc in Hm.
    destruct (policy_after new_policy ts) as [m since exit]. simpl in *. subst m. unfold decide_chunk in Hm.
    destruct (Nat.eqb_spec (qs_queued_lines s) 0); [done|]. simpl in Hm. unfold maybe_exit_catch_up in Hm.
    destruct (should_exit_catch_up s); [|done]. simpl in Hm. destruct since as [t0|]; [|done].
    destruct (N.leb_spec EXIT_HOLD (now - t0)); [|done]. split; [done|]. exists t0. split; [|done].
    by apply Hcalm.
  - intros Hc Hm smooth s' now' Hall Hagain. pose proof (exit_is_recorded _ _ _ Hc Hm) as Hexit.
    assert (∀ l, policy_after new_policy (ts ++ (s, now) :: l) =
      policy_after (policy_after new_policy (ts ++ [(s, now)])) l) as Happ.
    { intros l. unfold policy_after. by rewrite <-foldl_app, <-app_assoc. }
    assert (∀ ts1 ts2, smooth = ts1 ++ ts2 →
      cp_mode (policy_after (policy_after new_policy (ts ++ [(s, now)])) ts1) = Smooth) as Hall'
      by (intros ts1 ts2 E; rewrite <-Happ; by apply (Hall ts1 ts2)).
    unfold mode_after in Hagain. rewrite Happ, policy_after_snoc in Hagain.
    pose proof (smooth_keeps_exit _ smooth now Hm Hexit Hall') as Hlast.
    specialize (Hall' smooth [] ltac:(by rewrite app_nil_r)).
    destruct (policy_after _ smooth) as [m since exit]. simpl in *. subst m exit.
    unfold decide_chunk, maybe_enter_catch_up, reentry_hold_active in Hagain. simpl in Hagain.
    destruct (_ =? 0); [done|]. destruct (negb (should_enter_catch_up s')); [done|].
    destruct (N.ltb_spec (now' - now) REENTER_CATCH_UP_HOLD); [|by right].
    destruct (is_severe_backlog s'); [by left|done].
Qed.

(** ** Offsets into the source *)

Lemma boundary_grow s t n : boundary s n → boundary (s ++ t) n.
Proof. intros Hb. apply boundary_app_l; [by apply boundary_le|done]. Qed.

Lemma boundary_slice_from s n : boundary s n → ∃ t, slice_from n s = Some t.
Proof. intros (a & b & -> & <-)%boundary_iff. exists b. apply slice_from_Some. eauto. Qed.

Lemma boundary_slice_to s n : boundary s n → ∃ t, slice_to n s = Some t.
Proof. intros (a & b & -> & <-)%boundary_iff. exists a. apply slice_to_Some. eauto. Qed.

(** The source line by line: lines begin at char boundaries. *)
Lemma whole_lines_join s : whole_lines s → ∃ ls, s = concat (ln <$> ls) ∧ split_inclusive LF s = ln <$> ls.
Proof.
  intros (ls & Hi & _)%whole_lines_split. exists ls. split; [|done].
  by rewrite <-Hi, split_inclusive_concat.
Qed.

Lemma end_offset_blen ls : end_offset ls = blen (concat (ln <$> ls)).
Proof.
  induction ls as [|l ls IH]; [done|]. cbn [fmap list_fmap concat]. rewrite blen_app, <-IH.
  unfold ln. rewrite blen_app. change (blen [LF]) with 1%N. by cbn [end_offset foldr].
Qed.

Lemma parsed_start_boundary ls p :
  p ∈ parse_lines_from None 0 ls → boundary (concat (ln <$> ls)) (pa_source_start p).
Proof.
  induction ls as [|l ls IH] using rev_ind; [by intros ?%elem_of_nil|].
  rewrite parse_lines_snoc, elem_of_app, list_elem_of_singleton, fmap_app, concat_app.
  intros [Hp| ->]; [by apply boundary_grow, IH|].
  cbn [pa_source_start]. rewrite N.add_0_l, end_offset_blen. apply boundary_blen_app.
Qed.

Lemma find_table_elem P s : find_table P = Some s → ∃ p, p ∈ P ∧ pa_source_start p = s.
Proof.
  induction P as [|h P IH]; [done|]. destruct P as [|d P]; [done|]. cbn [find_table].
  destruct (is_table_pair h d); [intros [= <-]; exists h; by split; [left|]|].
  intros (p & ? & ?)%IH. exists p. by split; [right|].
Qed.

Definition held_start (st : TableHoldbackState) : option N :=
  match st with NoTable => None | PendingHeader s | ConfirmedTable s => Some s end.

Lemma held_start_boundary src s :
  whole_lines src → held_start (scanner_state (push_source_chunk src new_scanner)) = Some s →
  boundary src s.
Proof.
  intros (ls & Hsrc & Hi)%whole_lines_join. rewrite push_source_chunk_fold, Hi.
  destruct (scanned_fold ls [] new_scanner) as (_ & _ & _ & Hc & Hp); [by split_and!|]. simpl in *.
  unfold scanner_state. rewrite Hc. destruct (find_table _) as [t|] eqn:Ef; simpl.
  - intros [= ->]. apply find_table_elem in Ef as (p & Hin & <-). subst src. by apply parsed_start_boundary.
  - rewrite Hp by done. unfold pending_of. destruct (List.find _ _) as [p|] eqn:Efind; [|done].
    destruct (is_pending_header p); [|done]. intros [= <-]. subst src. apply parsed_start_boundary.
    apply find_some in Efind as [Hin _]. by apply list_elem_of_In, in_rev.
Qed.

(** ** The collector *)

Definition collected (c : MarkdownStreamCollector) (src : str) : Prop :=
  committed_source c = Some src ∧ whole_lines src.

Lemma collected_push c src delta : collected c src → collected (collector_push_delta delta c) src.
Proof.
  intros [Hs Hw]. split; [|done]. unfold committed_source in *. simpl.
  apply slice_to_Some in Hs as (b & -> & Hn). apply slice_to_Some. exists (b ++ delta). by rewrite app_assoc.
Qed.

(** A commit adds whole lines to the committed source. *)
Lemma commit_spec c src range c' :
  collected c src → commit_complete_source c = (range, c') →
  mc_buffer c' = mc_buffer c ∧
  match range with
  | None => c' = c ∧ ∃ rest, mc_buffer c = src ++ rest ∧ LF ∉ rest
  | Some (a, b) => ∃ committed rest, collected c' (src ++ committed) ∧
      get_range a b (src ++ committed) = Some committed ∧ committed ≠ [] ∧ whole_lines committed ∧
      mc_buffer c = src ++ committed ++ rest ∧ LF ∉ rest
  end.
Proof.
  intros [(b & Hb & Hn)%slice_to_Some Hw]. unfold commit_complete_source. rewrite Hb.
  destruct (rfind_char (N.eqb LF) (src ++ b)) as [[idx ch]|] eqn:Er.
  - apply rfind_char_Some in Er as (x & y & Hxy & <- & <-%N.eqb_eq & Hy).
    assert (LF ∉ y) as Hly. { intros Hin. rewrite Forall_forall in Hy. by apply Hy in Hin. }
    destruct (N.leb_spec (blen x + 1) (mc_committed_source_len c)) as [Hle|Hlt]; intros [= <- <-].
    + split; [done|]. split; [done|]. exists b. split; [done|].
      destruct (app_blen_le (x ++ [LF]) y src b) as (m & -> & ->).
      { by rewrite <-app_assoc. } { rewrite blen_app. change (blen [LF]) with 1%N. lia. }
      set_solver.
    + split; [done|]. destruct (app_blen_le src b (x ++ [LF]) y) as (m & Hm & ->).
      { by rewrite <-app_assoc. } { rewrite blen_app. change (blen [LF]) with 1%N. lia. }
      assert (blen (src ++ m) = blen x + 1)%N as Hlen.
      { rewrite <-Hm, blen_app. done. }
      assert (m ≠ []) as Hne. { intros ->. rewrite app_nil_r in Hlen. lia. }
      assert (last m = Some LF) as Hlast.
      { apply (f_equal last) in Hm. rewrite last_snoc, last_app in Hm.
        destruct (last m) eqn:E; [by rewrite Hm|by apply last_None in E]. }
      exists m, y. split_and!; [split|..]; try done.
      * unfold committed_source. simpl. apply slice_to_Some. exists y. by rewrite <-app_assoc.
      * apply whole_lines_app; [done|by right].
      * apply get_range_Some. exists src, []. rewrite app_nil_r. split_and!; [done|done|].
        by rewrite <-blen_app.
      * by right.
  - intros [= <- <-]. split; [done|]. split; [done|]. exists b. split; [done|]. intros Hin.
    assert (is_Some (rfind_char (N.eqb LF) (src ++ b))) as [? ?]; [|congruence].
    assert (LF ∈ src ++ b) as Hin' by set_solver. clear -Hin'.
    induction (src ++ b) as [|d s IH]; [by apply elem_of_nil in Hin'|]. cbn [rfind_char].
    destruct (rfind_char (N.eqb LF) s) as [[]|]; [done|].
    apply elem_of_cons in Hin' as [<-|Hin']; [by rewrite N.eqb_refl|]. by destruct IH.
Qed.

(** ** The renderer never indexes out of range *)

Section safety.
Context `{MarkdownLaws}.
#[local] Set Default Proof Using "All".
#[local] Arguments recompute : simpl never.
#[local] Arguments append_pending : simpl never.

Lemma streaming_markdown_total src w :
  ∃ r, render_streaming_markdown_agent_with_links_and_cwd src w = Some r ∧
    ∀ b, sm_last_top_level_block_start r = Some b → boundary src b.
Proof.
  unfold render_streaming_markdown_agent_with_links_and_cwd. case_bool_decide as E.
  { eexists. split; [done|]. intros b Hb%block_start_boundary. by rewrite E in Hb. }
  destruct (sm_last_top_level_block_start _) as [b|] eqn:Eb; [|by eexists].
  apply block_start_boundary in Eb. destruct (boundary_slice_from _ _ Eb) as [t Ht]. simpl. rewrite Ht.
  eexists. split; [done|]. simpl. intros n. rewrite fmap_Some. intros (p & Hp%strip_suffix_Some & ->).
  rewrite Hp. apply boundary_blen_app.
Qed.

Definition fence_ok (src : str) (f : OpenCodeFence) : Prop :=
  boundary src (oc_content_start f) ∧ boundary src (oc_source_len f) ∧
  (oc_content_start f ≤ oc_source_len f)%N.

Definition render_ok (src : str) (r : StreamingRender) : Prop :=
  boundary src (sr_stable_source_len r) ∧ ∀ f, sr_open_code_fence r = Some f → fence_ok src f.

Lemma fence_ok_grow src t f : fence_ok src f → fence_ok (src ++ t) f.
Proof. intros (? & ? & ?). split_and!; [by apply boundary_grow..|done]. Qed.

Lemma recompute_total src w mode ctx : ∃ r, recompute src w mode ctx = Some r ∧ render_ok src r.
Proof.
  assert (∀ ls a b, render_ok src (mkRender ls 0 0 a b None)) as Hok
    by (intros; split; [apply boundary_0|done]).
  unfold recompute. destruct (streaming_markdown_total src w) as (r & Hr & _).
  repeat case_match; simplify_eq/=; rewrite ?Hr; eauto.
Qed.

Lemma fence_detect_ok rev pre final theme f :
  fence_detect rev final (blen (pre ++ final)) theme = Some f → fence_ok (pre ++ final) f.
Proof.
  unfold fence_detect. destruct final as [|m final]; [done|]. destruct (negb _ && negb _); [done|].
  rewrite bind_Some. intros ([opening code] & Hs%split_once_Some & Hf). rewrite Hs in *.
  repeat case_match; simplify_eq. unfold fence_ok. simpl.
  assert (blen (pre ++ opening ++ LF :: code) - blen code = blen (pre ++ opening ++ [LF]))%N as ->.
  { rewrite !blen_app. simpl. lia. }
  assert (pre ++ opening ++ LF :: code = (pre ++ opening ++ [LF]) ++ code) as -> by (by rewrite <-!app_assoc).
  split_and!; [apply boundary_blen_app|apply boundary_len|rewrite (blen_app (pre ++ _)); lia].
Qed.

Lemma fence_append_total reads src committed f :
  fence_ok src f →
  ∃ res, fence_append reads (src ++ committed) committed f = Some res ∧
    ∀ f' ls, res = Some (f', ls) → fence_ok (src ++ committed) f'.
Proof.
  intros Hok. pose proof (fence_ok_grow _ committed _ Hok) as (Hc & Hs & Hle).
  assert (∀ h, fence_ok (src ++ committed) (mkOpenCodeFence (oc_marker f) (oc_marker_len f) (oc_language f)
    (oc_content_start f) (blen (src ++ committed)) (oc_theme_revision f) h)) as Hnew.
  { intros h. split_and!; [done|apply boundary_len|by apply boundary_le]. }
  destruct (proj2 (get_range_is_Some _ _ _) (conj Hc (conj Hs Hle))) as [code Hcode].
  unfold fence_append. case_match; [by eexists|].
  destruct (oc_highlighter f) as [h|]; simpl; [|rewrite Hcode; simpl; destruct (highlighter_new _ _ _ _) as [h|]];
    try (by eexists); destruct (highlighter_append _ h committed) as [[h' ls]|]; eexists;
    (split; [done|]); intros f' ls'; by intros [= <- _] || done.
Qed.

Lemma append_pending_total reads raw w ctx r :
  boundary raw (sr_stable_source_len r) →
  ∃ r', append_pending reads raw w ctx r = Some r' ∧ render_ok raw r'.
Proof.
  intros Hb. unfold append_pending. destruct (boundary_slice_from _ _ Hb) as [p Hp]. rewrite Hp. simpl.
  apply slice_from_Some in Hp as (pre & -> & Hpre).
  destruct (streaming_markdown_total p w) as (m & Hm & Hstart). rewrite Hm. simpl.
  destruct (sm_has_reference_link_definition m); [apply recompute_total|].
  assert (boundary p (default 0%N (sm_last_top_level_block_start m))) as Hfb.
  { destruct (sm_last_top_level_block_start m); [by apply Hstart|apply boundary_0]. }
  destruct (boundary_slice_from _ _ Hfb) as [final Hf]. rewrite Hf. simpl.
  apply slice_from_Some in Hf as (q & -> & _).
  assert (∀ f, fence_detect (th_detect reads) final (blen (pre ++ q ++ final)) (th_pending reads) = Some f →
    fence_ok (pre ++ q ++ final) f) as Hfence.
  { intros f. rewrite !app_assoc. apply fence_detect_ok. }
  destruct (sm_last_top_level_block_start m) as [b|].
  - specialize (Hstart b eq_refl). destruct (boundary_slice_to _ _ Hstart) as [t Ht]. rewrite Ht.
    eexists. split; [done|]. split; [|done]. simpl. rewrite <-Hpre. by apply boundary_app_r.
  - eexists. split; [done|]. by split.
Qed.

Lemma render_append_total reads src committed w mode ctx r :
  render_ok src r →
  ∃ r', render_append reads (src ++ committed) committed w mode ctx r = Some r' ∧
    render_ok (src ++ committed) r'.
Proof.
  intros [Hb Hf]. assert (boundary (src ++ committed) (sr_stable_source_len r)) as Hb' by (by apply boundary_grow).
  unfold render_append. destruct mode.
  - destruct (_ || _); [apply recompute_total|].
    destruct (sr_has_reference_link_definition r); [apply recompute_total|].
    destruct (sr_open_code_fence r) as [f|]; simpl; [|by apply append_pending_total].
    destruct (fence_append_total reads src committed f) as (res & Hres & Hok); [by apply Hf|].
    rewrite Hres. simpl. destruct res as [[f' ls]|]; [|by apply append_pending_total].
    eexists. split; [done|]. split; [done|]. simpl. intros ? [= <-]. by eapply Hok.
  - eexists. split; [done|]. split; [done|]. simpl. intros f ?%Hf. by apply fence_ok_grow.
Qed.

(** ** The two regions *)

(** The committed source, the scanner and the renderer agree, and the counters
    bound the queue. *)
Definition core_ok (src : str) (c : StreamCore) : Prop :=
  collected (ss_collector (co_state c)) src ∧
  co_scanner c = push_source_chunk src new_scanner ∧
  render_ok src (co_render c) ∧
  queued_len (co_state c) + co_emitted_stable_len c ≤ co_enqueued_stable_len c.

Lemma new_core_ok w mode ctx : core_ok [] (new_core w mode ctx).
Proof. split_and!; [split; [done|by left]|done|split; [apply boundary_0|done]|done]. Qed.

Lemma set_cache_id c : set_cache (co_cache c) c = c.
Proof. by destruct c. Qed.

(** The target is within the render, or it is what was emitted. *)
Lemma target_total src c :
  collected (ss_collector (co_state c)) src → co_scanner c = push_source_chunk src new_scanner →
  ∃ target cache, compute_target_stable_len c = Some (target, set_cache cache c) ∧
    co_emitted_stable_len c ≤ target ∧
    (target ≤ render_len c ∨ target = co_emitted_stable_len c).
Proof.
  intros [Hsrc Hw] Hsc.
  assert (∃ n cache, active_tail_budget_lines c = Some (n, set_cache cache c)) as (n & cache & Hn).
  { unfold active_tail_budget_lines. destruct (co_render_mode c); [|exists 0, (co_cache c); by rewrite set_cache_id].
    assert (∀ s, held_start (scanner_state (co_scanner c)) = Some s →
      ∃ n cache, tail_budget_from_source_start s c = Some (n, set_cache cache c)) as Htail.
    { intros s. rewrite Hsc. intros Hb%held_start_boundary; [|done]. unfold tail_budget_from_source_start.
      destruct (s =? 0)%N; [exists (render_len c), (co_cache c); by rewrite set_cache_id|].
      rewrite Hsrc. simpl. unfold stable_prefix_len_for_source_start.
      set (hit := match co_cache c with Some _ => _ | None => _ end). destruct hit as [k|]; simpl.
      { eexists _, (co_cache c). by rewrite set_cache_id. }
      rewrite Hsrc. simpl. assert (boundary src ((s `min` blen src) `min` blen src)%N) as Hb'.
      { destruct (N.min_spec s (blen src)) as [[? ->]|[? ->]]; [|rewrite N.min_id; apply boundary_len].
        rewrite N.min_l by lia. done. }
      destruct (boundary_slice_to _ _ Hb') as [t Ht]. rewrite Ht. simpl. eexists _, _. done. }
    destruct (scanner_state (co_scanner c)) as [|s|s]; [exists 0, (co_cache c); by rewrite set_cache_id|by apply Htail..]. }
  unfold compute_target_stable_len. rewrite Hn. simpl. eexists _, cache. split; [done|].
  unfold render_len. simpl. lia.
Qed.

Lemma slice_lines_total {A} a b (l : list A) :
  a ≤ b → b ≤ length l → ∃ ls, slice_lines a b l = Some ls ∧ length ls = b - a.
Proof.
  intros Hab Hb. unfold slice_lines. rewrite (proj2 (Nat.leb_le _ _) Hab), (proj2 (Nat.leb_le _ _) Hb). simpl.
  eexists. split; [done|]. rewrite length_take, length_drop. lia.
Qed.

(** Emptying the queue and filling it from the emitted lines to the target. *)
Lemma refill_total now target c :
  co_emitted_stable_len c ≤ target → (target ≤ render_len c ∨ target = co_emitted_stable_len c) →
  ∃ q, (if co_emitted_stable_len c <? target
        then enqueue_lines now (co_emitted_stable_len c) target (set_state (stream_clear_queue (co_state c)) c)
        else Some (set_state (stream_clear_queue (co_state c)) c)) =
       Some (set_state (mkStreamState (ss_collector (co_state c)) q (ss_has_seen_delta (co_state c))) c) ∧
       length q + co_emitted_stable_len c = target.
Proof.
  intros He Ht. destruct (Nat.ltb_spec (co_emitted_stable_len c) target) as [Hlt|Hge].
  - destruct (slice_lines_total (co_emitted_stable_len c) target (sr_lines (co_render c))) as (ls & Hls & Hlen);
      [lia|unfold render_len in Ht; lia|].
    unfold enqueue_lines. simpl. rewrite Hls. exists ((λ l, (l, now)) <$> ls). split; [done|].
    rewrite length_fmap. lia.
  - exists []. split; [done|]. simpl. lia.
Qed.

Lemma sync_total src now c :
  core_ok src c → ∃ b c', sync_stable_queue now c = Some (b, c') ∧ core_ok src c'.
Proof.
  intros (Hcol & Hsc & Hr & Hq). unfold sync_stable_queue.
  destruct (target_total src c) as (target & cache & Ht & He & Hb); [done..|]. rewrite Ht. simpl.
  destruct (Nat.ltb_spec target (co_enqueued_stable_len c)).
  - destruct (refill_total now target (set_cache cache c)) as (q & Hfill & Hlen); [done..|].
    simpl in Hfill, Hlen. rewrite Hfill. simpl. eexists _, _. split; [done|]. split_and!; [done..|]. simpl.
    unfold queued_len. simpl. lia.
  - destruct (Nat.eqb_spec target (co_enqueued_stable_len c)); [eexists _, _; by split|].
    unfold enqueue_lines. simpl.
    destruct (slice_lines_total (co_enqueued_stable_len c) target (sr_lines (co_render c))) as (ls & Hls & Hlen);
      [lia|unfold render_len in Hb; lia|].
    rewrite Hls. simpl. eexists _, _. split; [done|]. split_and!; [done..|]. simpl.
    unfold queued_len in *. simpl. rewrite length_app, length_fmap. lia.
Qed.

Lemma push_delta_total src reads now delta c :
  core_ok src c → ∃ b c' more, push_delta reads now delta c = Some (b, c') ∧ core_ok (src ++ more) c'.
Proof.
  intros (Hcol & Hsc & Hr & Hq). apply (collected_push _ _ delta) in Hcol. unfold push_delta.
  set (c1 := set_state _ c). assert (core_ok src c1) as Hok1 by (by split_and!).
  destruct (negb (contains_char LF delta)); [exists false, c1, []; by rewrite app_nil_r|].
  destruct (commit_complete_source (ss_collector (co_state c1))) as [range col] eqn:Ec.
  destruct (commit_spec _ _ _ _ Hcol Ec) as [_ Hrange]. destruct range as [[a b]|].
  - destruct Hrange as (committed & rest & [Hsrc Hw] & Hget & Hne & Hwc & _).
    rewrite Hsrc. simpl. rewrite Hget. simpl.
    destruct (render_append_total reads src committed (co_width c) (co_render_mode c) (co_context c) (co_render c))
      as (r & -> & Hr'); [done|]. simpl.
    edestruct (sync_total (src ++ committed) now) as (b' & c' & Hsync & Hok'); [|rewrite Hsync; by exists b', c', committed].
    split_and!; [done| |done|done]. simpl. rewrite Hsc. symmetry. apply push_source_chunk_app. apply Hcol.
  - destruct Hrange as [-> _]. eexists false, _, []. rewrite app_nil_r. split; [done|]. by split_and!.
Qed.

Lemma after_recompute_total src now q t c :
  collected (ss_collector (co_state c)) src → co_scanner c = push_source_chunk src new_scanner →
  render_ok src (co_render c) →
  ∃ c', after_recompute now q t c = Some c' ∧ core_ok src c'.
Proof.
  intros Hcol Hsc Hr. unfold after_recompute. cbv zeta.
  set (c1 := set_emitted (co_emitted_stable_len c `min` render_len c) c).
  set (c2 := if q && (co_emitted_stable_len c1 =? render_len c1) && (0 <? co_emitted_stable_len c1)
             then set_emitted (co_emitted_stable_len c1 - 1) c1 else c1).
  assert (co_emitted_stable_len c2 ≤ render_len c2 ∧ co_render c2 = co_render c ∧ co_scanner c2 = co_scanner c ∧
    co_state c2 = co_state c) as (Hle & Hr2 & Hs2 & Hst2).
  { unfold c2. destruct (_ && _); unfold render_len; simpl; split_and!; try done; unfold render_len; lia. }
  set (c3 := set_state (stream_clear_queue (co_state c2)) c2).
  assert (collected (ss_collector (co_state c3)) src) as Hcol3 by (simpl; by rewrite Hst2).
  assert (co_scanner c3 = push_source_chunk src new_scanner) as Hsc3 by (simpl; by rewrite Hs2).
  destruct ((0 <? co_emitted_stable_len c3) && negb q && negb t).
  - exists (set_enqueued (render_len c3) c3). split; [reflexivity|].
    split_and!; [done|done|simpl; by rewrite Hr2|]. simpl. unfold render_len in *. simpl. lia.
  - unfold rebuild_stable_queue_from_render.
    destruct (target_total src c3) as (target & cache & Ht & He & Hb); [done..|]. rewrite Ht. simpl.
    destruct (refill_total now target (set_cache cache c3)) as (qq & Hfill & Hlen); [done..|].
    simpl in Hfill, Hlen. rewrite Hfill. simpl. eexists. split; [done|].
    split_and!; [done|done|simpl; by rewrite Hr2|]. simpl. unfold queued_len. simpl. lia.
Qed.

Lemma set_width_total src now w c : core_ok src c → ∃ c', core_set_width now w c = Some c' ∧ core_ok src c'.
Proof.
  intros (Hcol & Hsc & Hr & Hq). unfold core_set_width. case_bool_decide; [eexists; by split|].
  destruct Hcol as [Hsrc Hw].
  assert (committed_source (collector_set_width w (ss_collector (co_state c))) = Some src) as Hsrc' by done.
  simpl. rewrite Hsrc'. simpl. case_bool_decide; [eexists; split; [done|]; by split_and!|].
  destruct (recompute_total src w (co_render_mode c) (co_context c)) as (r & -> & Hr'). simpl.
  by apply after_recompute_total.
Qed.

Lemma set_render_mode_total src now m c :
  core_ok src c → ∃ c', core_set_render_mode now m c = Some c' ∧ core_ok src c'.
Proof.
  intros (Hcol & Hsc & Hr & Hq). unfold core_set_render_mode. case_bool_decide; [eexists; by split|].
  pose proof Hcol as [Hsrc Hw]. simpl. rewrite Hsrc. simpl.
  case_bool_decide; [eexists; split; [done|]; by split_and!|].
  destruct (recompute_total src (co_width c) m (co_context c)) as (r & -> & Hr'). simpl.
  by apply after_recompute_total.
Qed.

Lemma tick_ok src c : core_ok src c → core_ok src (core_tick c).2.
Proof.
  intros (Hcol & Hsc & Hr & Hq). unfold core_tick, stream_step, queued_len in *.
  destruct (ss_queued_lines (co_state c)) as [|[l t] q] eqn:E; simpl in *; split_and!; try done; simpl.
  - unfold queued_len. rewrite E. simpl. lia.
  - unfold queued_len. simpl. lia.
Qed.

Lemma tick_batch_ok src n c : core_ok src c → core_ok src (core_tick_batch n c).2.
Proof.
  intros (Hcol & Hsc & Hr & Hq). unfold core_tick_batch. destruct (n =? 0); [done|].
  split_and!; try done. simpl. unfold queued_len in *. simpl.
  rewrite length_drop, length_fmap, length_take. lia.
Qed.

(** Everything a controller does with its core; [finalize] resets it. *)
Inductive core_op :=
  | OpPush (reads : ThemeReads) (now : N) (delta : str)
  | OpTick
  | OpTickBatch (max_lines : nat)
  | OpSetWidth (now : N) (width : option N)
  | OpSetMode (now : N) (mode : HistoryRenderMode)
  | OpClearQueue
  | OpFinalize.

Definition apply_core_op (op : core_op) (c : StreamCore) : option StreamCore :=
  match op with
  | OpPush reads now delta => snd <$> push_delta reads now delta c
  | OpTick => Some (core_tick c).2
  | OpTickBatch n => Some (core_tick_batch n c).2
  | OpSetWidth now w => core_set_width now w c
  | OpSetMode now m => core_set_render_mode now m c
  | OpClearQueue => Some (core_clear_queue c)
  | OpFinalize => Some (core_reset (finalize_remaining c).2)
  end.

Definition run_core (ops : list core_op) (c : StreamCore) : option StreamCore :=
  foldl (λ oc op, oc ≫= apply_core_op op) (Some c) ops.

Lemma core_op_total src op c :
  core_ok src c → ∃ src' c', apply_core_op op c = Some c' ∧ core_ok src' c'.
Proof.
  intros Hok. destruct op as [reads now delta| |n|now w|now m| |]; simpl.
  - destruct (push_delta_total src reads now delta c Hok) as (b & c' & more & -> & Hok'). by eexists _, _.
  - eexists src, _. split; [done|]. by apply tick_ok.
  - eexists src, _. split; [done|]. by apply tick_batch_ok.
  - destruct (set_width_total src now w c Hok) as (c' & ? & ?). by eexists _, _.
  - destruct (set_render_mode_total src now m c Hok) as (c' & ? & ?). by eexists _, _.
  - destruct Hok as (? & ? & ? & ?). eexists src, _. split; [done|]. by split_and!.
  - eexists [], _. split; [done|]. destruct (finalize_remaining c) as [? c'].
    split_and!; [split; [done|by left]|done|split; [apply boundary_0|done]|done].
Qed.

Lemma run_core_total ops src c : core_ok src c → ∃ src' c', run_core ops c = Some c' ∧ core_ok src' c'.
Proof.
  unfold run_core. revert src c. induction ops as [|op ops IH]; intros src c Hok; [by exists src, c|].
  simpl. destruct (core_op_total src op c Hok) as (src' & c' & -> & Hok'). by eapply IH.
Qed.

(** C33: Whatever the deltas, the ticks, the resizes and the changes of mode, and whatever the Markdown
    parser makes of the source, no operation indexes out of range; the emitted lines are at most the
    enqueued ones and the queue holds no more than those between. *)
Theorem stream_never_panics ops w mode ctx :
  ∃ c, run_core ops (new_core w mode ctx) = Some c ∧
    co_emitted_stable_len c ≤ co_enqueued_stable_len c ∧
    queued_len (co_state c) ≤ co_enqueued_stable_len c - co_emitted_stable_len c.
Proof.
  destruct (run_core_total ops [] (new_core w mode ctx)) as (src & c & Hrun & _ & _ & _ & Hq); [apply new_core_ok|].
  exists c. split; [done|]. lia.
Qed.
End safety.

(** ** What raw mode shows *)

Section raw.
Context `{MarkdownRenderer}.

Definition shown_lines (cell : HistoryCell) : list Line :=
  match cell with AgentMessageCell ls _ | ProposedPlanCell ls _ => ls end.
Definition cell_shows (cell : option HistoryCell) : list Line :=
  match cell with Some cell => shown_lines cell | None => [] end.

(** What reaches an answer's controller: deltas and commit ticks. *)
Inductive transcript_op :=
  | Delta (reads : ThemeReads) (now : N) (delta : str)
  | CommitTick (scope : CommitTickScope) (now : N).

(** The lines shown by one operation. *)
Definition transcript_step (op : transcript_op) (st : AdaptiveChunkingPolicy * StreamController)
  : option (list Line * (AdaptiveChunkingPolicy * StreamController)) :=
  let '(policy, s) := st in
  match op with
  | Delta reads now delta =>
      '(_, s) ← controller_push reads now delta s;
      Some ([], (policy, s))
  | CommitTick scope now =>
      let '(out, policy, s, _) := run_commit_tick policy (Some s) None scope now in
      s ← s;
      Some (concat (shown_lines <$> to_cells out), (policy, s))
  end.

Fixpoint run_transcript (ops : list transcript_op) (st : AdaptiveChunkingPolicy * StreamController)
  : option (list Line * (AdaptiveChunkingPolicy * StreamController)) :=
  match ops with
  | [] => Some ([], st)
  | op :: ops =>
      '(shown, st) ← transcript_step op st;
      '(more, st) ← run_transcript ops st;
      Some (shown ++ more, st)
  end.

Definition delta_of (op : transcript_op) : str :=
  match op with Delta _ _ delta => delta | CommitTick _ _ => [] end.

(** A final line feed is added where it is missing. *)
Definition terminated (text : str) : str :=
  if negb (bool_decide (text = [])) && negb (ends_with [LF] text) then text ++ [LF] else text.

Lemma raw_lines_whole s :
  whole_lines s → raw_lines_from_source s = plain_line <$> (strip_suffix_or_id [LF] <$> split_inclusive LF s).
Proof.
  intros Hw. unfold raw_lines_from_source. case_bool_decide as E; [by subst|].
  destruct (whole_lines_split s Hw) as (ls & -> & ->).
  destruct Hw as [|Hl]; [done|].
  assert (ends_with [LF] s = true) as -> by (apply last_Some in Hl as [r ->]; by apply ends_with_spec; exists r).
  rewrite removelast_last. f_equal. induction ls as [|l ls IH]; [done|]. cbn [fmap list_fmap].
  by rewrite strip_lf, <-IH.
Qed.

Lemma raw_lines_app a b :
  whole_lines a → whole_lines b →
  raw_lines_from_source (a ++ b) = raw_lines_from_source a ++ raw_lines_from_source b.
Proof.
  intros Ha Hb. rewrite !raw_lines_whole by (done || by apply whole_lines_app).
  by rewrite split_inclusive_app_full, !fmap_app.
Qed.

Lemma terminated_app src rest :
  whole_lines src → ∃ more, terminated (src ++ rest) = src ++ more ∧ whole_lines more.
Proof.
  intros Hw. unfold terminated. case_bool_decide as E.
  { apply app_nil in E as [-> ->]. exists []. split; [done|by left]. }
  destruct (ends_with [LF] (src ++ rest)) eqn:Ee; simpl.
  - exists rest. split; [done|]. apply ends_with_spec in Ee as [r Hr].
    destruct (list_snoc_cases rest) as [->|(rest' & x & ->)]; [by left|right].
    rewrite app_assoc in Hr. apply app_inj_tail in Hr as [_ ->]. by rewrite last_snoc.
  - exists (rest ++ [LF]). rewrite <-app_assoc. split; [done|right]. by rewrite last_snoc.
Qed.

(** Emitted lines, queue and source in raw mode. *)
Definition raw_ok (text : str) (shown : list Line) (c : StreamCore) : Prop :=
  ∃ src, collected (ss_collector (co_state c)) src ∧ mc_buffer (ss_collector (co_state c)) = text ∧
    co_render_mode c = Raw ∧
    sr_lines (co_render c) = raw_lines_from_source src ∧
    co_enqueued_stable_len c = render_len c ∧
    co_emitted_stable_len c = length shown ∧
    shown ++ (ss_queued_lines (co_state c)).*1 = sr_lines (co_render c).

Lemma raw_sync now text shown c more :
  co_render_mode c = Raw → co_emitted_stable_len c = length shown →
  sr_lines (co_render c) = shown ++ (ss_queued_lines (co_state c)).*1 ++ more →
  co_enqueued_stable_len c = length shown + length (ss_queued_lines (co_state c)) →
  mc_buffer (ss_collector (co_state c)) = text →
  ∃ b c', sync_stable_queue now c = Some (b, c') ∧
    co_state c' = enqueue now more (co_state c) ∧ co_render c' = co_render c ∧ co_render_mode c' = Raw ∧
    co_emitted_stable_len c' = length shown ∧ co_enqueued_stable_len c' = render_len c.
Proof.
  intros Hm He Hl Hq Ht. unfold sync_stable_queue, compute_target_stable_len, active_tail_budget_lines.
  rewrite Hm. simpl. assert (render_len c = length shown + length (ss_queued_lines (co_state c)) + length more) as Hlen.
  { unfold render_len. rewrite Hl, !length_app, length_fmap. lia. }
  replace ((render_len c - 0) `max` co_emitted_stable_len c) with (render_len c) by lia.
  rewrite (proj2 (Nat.ltb_ge _ _)) by lia.
  destruct (Nat.eqb_spec (render_len c) (co_enqueued_stable_len c)) as [Heq|Hne].
  - assert (more = []) as -> by (apply length_zero_iff_nil; lia). exists false, c. split_and!; try done.
    unfold enqueue. simpl. rewrite app_nil_r. by destruct (co_state c).
  - unfold enqueue_lines, slice_lines. rewrite (proj2 (Nat.leb_le _ _)) by lia.
    rewrite (proj2 (Nat.leb_le _ _)) by (unfold render_len; lia). simpl.
    assert (take (render_len c - co_enqueued_stable_len c) (drop (co_enqueued_stable_len c) (sr_lines (co_render c)))
      = more) as ->.
    { rewrite Hl, Hq, app_assoc.
      rewrite drop_app_length' by (rewrite length_app, length_fmap; lia). apply take_ge. lia. }
    eexists true, _. split_and!; try done.
Qed.

Lemma raw_push reads now delta text shown c :
  raw_ok text shown c → ∃ b c', push_delta reads now delta c = Some (b, c') ∧ raw_ok (text ++ delta) shown c'.
Proof.
  intros (src & Hcol & Hbuf & Hm & Hl & Hen & Hem & Hq). apply (collected_push _ _ delta) in Hcol.
  unfold push_delta. set (c1 := set_state _ c).
  assert (raw_ok (text ++ delta) shown c1) as Hok1.
  { exists src. split_and!; try done. simpl. by rewrite Hbuf. }
  destruct (negb (contains_char LF delta)); [by exists false, c1|].
  destruct (commit_complete_source (ss_collector (co_state c1))) as [range col] eqn:Ec.
  destruct (commit_spec _ _ _ _ Hcol Ec) as [Hb Hrange]. destruct range as [[a b]|].
  - destruct Hrange as (committed & rest & [Hsrc Hw] & Hget & Hne & Hwc & _).
    rewrite Hsrc. simpl. rewrite Hget. simpl. rewrite Hm. simpl.
    match goal with |- context [sync_stable_queue now ?core] => set (c2 := core) end.
    destruct (raw_sync now (text ++ delta) shown c2 (raw_lines_from_source committed))
      as (b' & c' & Hsync & Hst & Hr & Hm' & Hem' & Hen').
    + done.
    + done.
    + simpl. by rewrite app_assoc, Hq.
    + simpl. rewrite Hen. unfold render_len. rewrite <-Hq, length_app, length_fmap. done.
    + simpl. by rewrite Hb; simpl; rewrite Hbuf.
    + rewrite Hsync. exists b', c'. split; [done|]. exists (src ++ committed).
      rewrite Hst, Hr, Hm', Hem'. simpl. split_and!; try done.
      * simpl. rewrite Hb. simpl. by rewrite Hbuf.
      * rewrite Hl. symmetry. by apply raw_lines_app; [apply Hcol|].
      * rewrite Hen'. unfold render_len. by rewrite Hr.
      * rewrite fmap_app, <-list_fmap_compose. simpl. rewrite app_assoc, Hq. f_equal.
        rewrite <-(list_fmap_id (raw_lines_from_source committed)) at 2. by apply list_fmap_ext.
  - destruct Hrange as [-> _]. exists false. eexists. split; [done|].
    destruct Hok1 as (src1 & ? & ? & ? & ? & ? & ? & ?). exists src1. by split_and!.
Qed.

Lemma emit_shows ls s cell s' :
  emit ls s = (cell, s') → cell_shows cell = ls ∧ sc_core s' = sc_core s.
Proof. unfold emit. destruct ls; intros [= <- <-]; done. Qed.

Lemma raw_drain n text shown c step s :
  raw_ok text shown c → drain_n n (co_state c) = (step, s) →
  raw_ok text (shown ++ step) (set_emitted (co_emitted_stable_len c + length step) (set_state s c)).
Proof.
  intros (src & Hcol & Hbuf & Hm & Hl & Hen & Hem & Hq) [= <- <-]. exists src. split_and!; try done; simpl.
  - by rewrite Hem, length_app.
  - rewrite <-Hq, <-app_assoc, <-fmap_app, take_drop. done.
Qed.

Lemma step_is_drain (s : StreamState) : stream_step s = drain_n 1 s.
Proof. unfold stream_step, drain_n. by destruct s as [? [|[l t] q] ?]. Qed.

Lemma raw_tick plan text shown s drained s' :
  raw_ok text shown (sc_core s) → drain_stream_controller plan s = (drained, s') →
  raw_ok text (shown ++ cell_shows drained.1) (sc_core s').
Proof.
  intros Hok. assert (∀ step st c', drain_n (match plan with Single => 1 | Batch n => n end) (co_state (sc_core s))
      = (step, st) → c' = set_emitted (co_emitted_stable_len (sc_core s) + length step) (set_state st (sc_core s)) →
    (let '(cell, s) := emit step (mkController c' (sc_header_emitted s)) in
       ((cell, stream_is_idle (co_state (sc_core s))), s)) = (drained, s') →
    raw_ok text (shown ++ cell_shows drained.1) (sc_core s')) as Hdrain.
  { intros step st c' Hd Hc'. destruct (emit step _) as [cell s1] eqn:Ee. apply emit_shows in Ee as [Hcell Hcore].
    intros [= <- <-]. simpl. rewrite Hcell, Hcore, Hc'. by eapply raw_drain. }
  unfold drain_stream_controller. destruct plan as [|n].
  - unfold on_commit_tick, core_tick. rewrite step_is_drain.
    destruct (drain_n 1 _) as [step st] eqn:Ed. by eapply Hdrain.
  - unfold on_commit_tick_batch, core_tick_batch. destruct (Nat.eqb_spec n 0) as [->|].
    + simpl. intros [= <- <-]. simpl. by rewrite app_nil_r.
    + destruct (drain_n n _) as [step st] eqn:Ed. by eapply Hdrain.
Qed.

Lemma raw_step op text shown policy s :
  raw_ok text shown (sc_core s) →
  ∃ more policy' s', transcript_step op (policy, s) = Some (more, (policy', s')) ∧
    raw_ok (text ++ delta_of op) (shown ++ more) (sc_core s').
Proof.
  intros Hok. destruct op as [reads now delta|scope now]; simpl.
  - unfold controller_push. destruct (raw_push reads now delta text shown _ Hok) as (b & c' & -> & Hok'). simpl.
    eexists _, _, _. split; [done|]. by rewrite app_nil_r.
  - unfold run_commit_tick. destruct (decide_chunk _ now policy) as [d policy'].
    assert (∀ out s1 p1, apply_commit_tick_plan (cd_drain_plan d) (Some s) None = (out, s1, p1) →
      ∃ s', s1 = Some s' ∧ raw_ok text (shown ++ concat (shown_lines <$> to_cells out)) (sc_core s')) as Happly.
    { intros out s1 p1. unfold apply_commit_tick_plan.
      destruct (drain_stream_controller (cd_drain_plan d) s) as [drained s'] eqn:Ed. intros [= <- <- <-].
      exists s'. split; [done|]. apply (raw_tick _ text shown) in Ed; [|done]. simpl.
      destruct drained as [[cell|] idle]; simpl in *; rewrite ?app_nil_r in *; done. }
    destruct (apply_commit_tick_plan (cd_drain_plan d) (Some s) None) as [[out s1] p1] eqn:Ea.
    destruct (Happly _ _ _ eq_refl) as (s' & -> & Hok').
    destruct scope, (cd_mode d); simpl; eexists _, _, _; (split; [done|]);
      rewrite ?app_nil_r; try done.
Qed.

Lemma raw_run ops text shown policy s :
  raw_ok text shown (sc_core s) →
  ∃ more policy' s', run_transcript ops (policy, s) = Some (more, (policy', s')) ∧
    raw_ok (text ++ concat (delta_of <$> ops)) (shown ++ more) (sc_core s').
Proof.
  revert text shown policy s. induction ops as [|op ops IH]; intros text shown policy s Hok.
  - exists [], policy, s. simpl. by rewrite !app_nil_r.
  - cbn [run_transcript]. destruct (raw_step op text shown policy s Hok) as (m1 & p1 & s1 & -> & Hok1). simpl.
    destruct (IH _ _ p1 s1 Hok1) as (m2 & p2 & s2 & -> & Hok2). simpl. eexists _, _, _. split; [done|].
    by rewrite !app_assoc.
Qed.

Lemma raw_finalize text shown s :
  raw_ok text shown (sc_core s) →
  shown ++ cell_shows (controller_finalize s).1.1 = raw_lines_from_source (terminated text).
Proof.
  intros (src & [Hsrc Hw] & Hbuf & Hm & Hl & Hen & Hem & Hq).
  unfold controller_finalize, finalize_remaining, finalize_and_take_source. rewrite Hbuf, Hm.
  fold (terminated text). apply slice_to_Some in Hsrc as (rest & Hrest & _). rewrite Hbuf in Hrest.
  destruct (terminated_app src rest Hw) as (more & Hmore & Hwm). rewrite <-Hrest in Hmore.
  assert (raw_lines_from_source (terminated text) =
    shown ++ (ss_queued_lines (co_state (sc_core s))).*1 ++ raw_lines_from_source more) as Hall.
  { rewrite Hmore, raw_lines_app, <-Hl, <-Hq by done. by rewrite app_assoc. }
  cbn [fst snd]. case_bool_decide as Ee.
  - simpl. rewrite Ee in Hall |- *. rewrite app_nil_r. unfold raw_lines_from_source in Hall at 1. simpl in Hall.
    symmetry in Hall. apply app_nil in Hall as [-> _]. done.
  - simpl render_source. rewrite Hall, Hem.
    rewrite Nat.min_l by (rewrite length_app; lia). rewrite drop_app_length.
    destruct (emit _ _) as [cell s'] eqn:E. apply emit_shows in E as [Hc _]. simpl. by rewrite Hc.
Qed.

(** C19: In raw mode the lines shown, at whatever pace the commit ticks take them from the queue and with
    what is left at the end, are the lines of the streamed text, each once and in order, however the
    text was cut into deltas. *)
Theorem raw_transcript_shows_source ops w ctx :
  ∃ shown policy s,
    run_transcript ops (new_policy, mkController (new_core w Raw ctx) false) = Some (shown, (policy, s)) ∧
    shown ++ cell_shows (controller_finalize s).1.1 =
    raw_lines_from_source (terminated (concat (delta_of <$> ops))).
Proof.
  destruct (raw_run ops [] [] new_policy (mkController (new_core w Raw ctx) false)) as (shown & p & s & Hrun & Hok).
  { exists []. split_and!; try done. split; [done|by left]. }
  exists shown, p, s. split; [done|]. by apply raw_finalize.
Qed.
End raw.

(** ** A small renderer

    Lines wrapped at the width, and link reference definitions whose destination
    is on the next line, which show nothing. *)
Module MiniMarkdown.

Fixpoint wrap (fuel : nat) (w : nat) (s : str) : list str :=
  match fuel with
  | O => [s]
  | S fuel => if length s <=? w then [s] else take w s :: wrap fuel w (drop w s)
  end.
Definition wrap_line (width : option N) (s : str) : list str :=
  match width with Some w => wrap (length s) (N.to_nat w) s | None => [s] end.

Definition is_definition_label (s : str) : bool := starts_with (lit "[") s && ends_with (lit "]:") s.
Fixpoint without_definitions (ls : list str) : list str :=
  match ls with
  | l :: ((d :: rest) as ls') =>
      if is_definition_label l then without_definitions rest else l :: without_definitions ls'
  | _ => ls
  end.
Definition shown (s : str) (width : option N) : list str :=
  concat (wrap_line width <$> without_definitions (lines s)).

#[export] Instance mini_markdown : MarkdownRenderer := {|
  Line := str;
  default_line := [];
  plain_line := id;
  plan_title := lit "Proposed Plan";
  plan_line l := lit "  " ++ l;
  VisContext := unit;
  rewrite_visualizations _ s := s;
  render_lines _ _ normalized width := shown normalized width;
  render_streaming_lines s width :=
    StreamingMarkdown (shown s width) None
      (negb (bool_decide (without_definitions (lines s) = lines s))) false;
  Highlighter := unit;
  highlighter_new _ _ _ _ := None;
  highlighter_append _ _ _ := None;
  indent_line := id;
|}.

#[export] Instance mini_markdown_laws : MarkdownLaws.
Proof. by split. Qed.

Definition reads : ThemeReads := mkThemeReads 0 0 0 0 0.
Definition push_line_op (s : str) : core_op := OpPush reads 0 (ln s).

(** The lines each tick emits, and the last ones. *)
Fixpoint emitted_by (ops : list core_op) (c : StreamCore) : option (list str) :=
  match ops with
  | [] => Some (finalize_remaining c).1.1
  | op :: ops =>
      let now := match op with OpTick => (core_tick c).1 | _ => [] end in
      c ← apply_core_op op c;
      more ← emitted_by ops c;
      Some (now ++ more)
  end.
End MiniMarkdown.

Lemma stream_never_panics_witness :
  ∃ c, run_core (H := MiniMarkdown.mini_markdown)
         [MiniMarkdown.push_line_op (lit "one line"); OpTick; OpSetWidth 5 (Some 4%N);
          MiniMarkdown.push_line_op (lit "more"); OpSetMode 9 Raw; OpTickBatch 3]
         (new_core (Some 8%N) Rich None) = Some c ∧
    co_emitted_stable_len c ≤ co_enqueued_stable_len c ∧
    queued_len (co_state c) ≤ co_enqueued_stable_len c - co_emitted_stable_len c.
Proof. apply (@stream_never_panics _ MiniMarkdown.mini_markdown_laws). Defined.

(** After a resize that wraps emitted lines anew, a line that was emitted is returned again at the
    end of the stream: the emitted count is behind what the queue has given out. *)
Lemma resize_repeats_line :
  MiniMarkdown.emitted_by
    [MiniMarkdown.push_line_op (lit "abcdefgh"); OpTick; OpSetWidth 1 (Some 4%N);
     MiniMarkdown.push_line_op (lit "xyz"); OpTick] (new_core (Some 8%N) Rich None)
  = Some [lit "abcdefgh"; lit "xyz"; lit "xyz"].
Proof. vm_compute. reflexivity. Qed.

(** A line that turns out to be the label of a link definition disappears from the render after it
    was emitted; the counters then exceed the rendered lines and the next line is not emitted. *)
Lemma definition_hides_next_line :
  (render_len <$> run_core (H := MiniMarkdown.mini_markdown) [MiniMarkdown.push_line_op (lit "[a]:"); OpTick; MiniMarkdown.push_line_op (lit "/u")]
     (new_core None Rich None)) = Some 0 ∧
  (co_enqueued_stable_len <$> run_core (H := MiniMarkdown.mini_markdown) [MiniMarkdown.push_line_op (lit "[a]:"); OpTick;
     MiniMarkdown.push_line_op (lit "/u")] (new_core None Rich None)) = Some 1 ∧
  MiniMarkdown.emitted_by
    [MiniMarkdown.push_line_op (lit "[a]:"); OpTick; MiniMarkdown.push_line_op (lit "/u");
     MiniMarkdown.push_line_op (lit "text"); OpTick] (new_core None Rich None)
  = Some [lit "[a]:"].
Proof. vm_compute. done. Qed.

Lemma catch_up_is_damped_witness :
  let busy := mkSnapshot 9 (Some 0%N) in let calm := mkSnapshot 1 (Some 0%N) in
  let ts := [(busy, 0%N); (calm, (1 * MS)%N)] in
  should_exit_catch_up calm = true ∧ ∃ t0, calm_since ts t0 ∧ (EXIT_HOLD ≤ 251 * MS - t0)%N.
Proof. simpl. apply catch_up_is_damped; vm_compute; done. Defined.
