(* ===== verification/TurnInput.v ===== *)
(** * The input of a turn

    Input that arrives while a turn runs waits in the state of the turn
    ([core/src/state/turn.rs]); mail from other agents waits in the mailbox of the
    session ([core/src/session/input_queue.rs]) and is delivered to the running
    turn, or, once its answer has been shown, to the next one.  Each section under
    a lock is one step, and the steps of concurrent tasks interleave.  The
    context window of a session ([core/src/state/auto_compact_window.rs]) counts
    its compactions.

    A channel that somebody waits on is known by a number.  JSON values, the
    items of the model and their metadata are type parameters. *)
From stdpp Require Import numbers strings list gmap.
From AAC_tactics Require Import AAC.
From S2P Require Import Prelude RustStr.

(** ** Data *)

Inductive CyberAccessProgram := StandardAccess | DaybreakBlue | DaybreakRed.

Section data.
Context {Json Item UserItem Metadata Passthrough : Type}.

Record TurnStartOptions := mkStartOptions {
  so_turn_trigger : option str;
  so_final_output_json_schema : option Json;
  so_service_tier : option str;
  so_parent_turn_id : option str;
  so_root_turn_id : option str;
  so_cyber_access_program : option CyberAccessProgram;
}.
Definition default_start_options : TurnStartOptions := mkStartOptions None None None None None None.

Record InterAgentCommunication := mkCommunication {
  ic_id : option str;
  ic_author : str;
  ic_recipient : str;
  ic_other_recipients : list str;
  ic_content : str;
  ic_encrypted_content : option str;
  ic_passthrough : option Passthrough;
  ic_trigger_turn : bool;
}.

Inductive TurnInput :=
  | UserInput (content : list UserItem) (client_id : option str)
  | FunctionCallOutput (item : Item)
  | ResponseItem (item : Item) (metadata : option Metadata)
  | AgentMail (communication : InterAgentCommunication).

Record PendingMail := mkMail {
  pm_communication : InterAgentCommunication;
  pm_start_options : TurnStartOptions;
}.
Definition triggers (m : PendingMail) : bool := ic_trigger_turn (pm_communication m).

(** ** The state of a turn ([turn.rs]) *)

Inductive MailboxDeliveryPhase := CurrentTurn | NextTurn.
#[global] Instance MailboxDeliveryPhase_eq_dec : EqDecision MailboxDeliveryPhase.
Proof. solve_decision. Defined.

Definition channel : Type := nat.

Record TurnState := mkTurnState {
  ts_pending_approvals : gmap str channel;
  ts_pending_request_permissions : gmap str channel;
  ts_pending_user_input : gmap str channel;
  ts_pending_elicitations : gmap (str * (Z + str)) channel;
  ts_mcp_tool_approval_metadata : gmap str Metadata;
  ts_pending_dynamic_tools : gmap str channel;
  ts_pending_input : list TurnInput;
  ts_mailbox_delivery_phase : MailboxDeliveryPhase;
  ts_strict_auto_review_enabled : bool;
}.
Definition new_turn_state : TurnState := mkTurnState ∅ ∅ ∅ ∅ ∅ ∅ [] CurrentTurn false.

(** [HashMap::insert] and [HashMap::remove] return what was there. *)
Definition insert_pending_approval (key : str) (tx : channel) (t : TurnState) : option channel * TurnState :=
  (ts_pending_approvals t !! key,
   mkTurnState (<[key := tx]> (ts_pending_approvals t)) (ts_pending_request_permissions t)
     (ts_pending_user_input t) (ts_pending_elicitations t) (ts_mcp_tool_approval_metadata t)
     (ts_pending_dynamic_tools t) (ts_pending_input t) (ts_mailbox_delivery_phase t)
     (ts_strict_auto_review_enabled t)).
Definition remove_pending_approval (key : str) (t : TurnState) : option channel * TurnState :=
  (ts_pending_approvals t !! key,
   mkTurnState (delete key (ts_pending_approvals t)) (ts_pending_request_permissions t)
     (ts_pending_user_input t) (ts_pending_elicitations t) (ts_mcp_tool_approval_metadata t)
     (ts_pending_dynamic_tools t) (ts_pending_input t) (ts_mailbox_delivery_phase t)
     (ts_strict_auto_review_enabled t)).
Definition insert_pending_elicitation (server : str) (id : Z + str) (tx : channel) (t : TurnState)
  : option channel * TurnState :=
  (ts_pending_elicitations t !! (server, id),
   mkTurnState (ts_pending_approvals t) (ts_pending_request_permissions t)
     (ts_pending_user_input t) (<[(server, id) := tx]> (ts_pending_elicitations t))
     (ts_mcp_tool_approval_metadata t) (ts_pending_dynamic_tools t) (ts_pending_input t)
     (ts_mailbox_delivery_phase t) (ts_strict_auto_review_enabled t)).
Definition remove_pending_elicitation (server : str) (id : Z + str) (t : TurnState)
  : option channel * TurnState :=
  (ts_pending_elicitations t !! (server, id),
   mkTurnState (ts_pending_approvals t) (ts_pending_request_permissions t)
     (ts_pending_user_input t) (delete (server, id) (ts_pending_elicitations t))
     (ts_mcp_tool_approval_metadata t) (ts_pending_dynamic_tools t) (ts_pending_input t)
     (ts_mailbox_delivery_phase t) (ts_strict_auto_review_enabled t)).

Definition clear_pending_waiters (t : TurnState) : TurnState :=
  mkTurnState ∅ ∅ ∅ ∅ ∅ ∅ (ts_pending_input t) (ts_mailbox_delivery_phase t)
    (ts_strict_auto_review_enabled t).

Definition with_pending_input (items : list TurnInput) (t : TurnState) : TurnState :=
  mkTurnState (ts_pending_approvals t) (ts_pending_request_permissions t) (ts_pending_user_input t)
    (ts_pending_elicitations t) (ts_mcp_tool_approval_metadata t) (ts_pending_dynamic_tools t) items
    (ts_mailbox_delivery_phase t) (ts_strict_auto_review_enabled t).
Definition set_mailbox_delivery_phase (phase : MailboxDeliveryPhase) (t : TurnState) : TurnState :=
  mkTurnState (ts_pending_approvals t) (ts_pending_request_permissions t) (ts_pending_user_input t)
    (ts_pending_elicitations t) (ts_mcp_tool_approval_metadata t) (ts_pending_dynamic_tools t)
    (ts_pending_input t) phase (ts_strict_auto_review_enabled t).
Definition accept_mailbox_delivery_for_current_turn (t : TurnState) : TurnState :=
  set_mailbox_delivery_phase CurrentTurn t.
Definition accepts_mailbox_delivery_for_current_turn (t : TurnState) : bool :=
  bool_decide (ts_mailbox_delivery_phase t = CurrentTurn).
Definition enable_strict_auto_review (t : TurnState) : TurnState :=
  mkTurnState (ts_pending_approvals t) (ts_pending_request_permissions t) (ts_pending_user_input t)
    (ts_pending_elicitations t) (ts_mcp_tool_approval_metadata t) (ts_pending_dynamic_tools t)
    (ts_pending_input t) (ts_mailbox_delivery_phase t) true.

(** [TurnInputQueue::has_pending_input]. *)
Definition is_steer (input : TurnInput) : bool :=
  match input with UserInput _ _ | FunctionCallOutput _ => true | _ => false end.
Definition has_pending_steer (t : TurnState) : bool := existsb is_steer (ts_pending_input t).

(** [clear_pending] of the input queue. *)
Definition clear_pending (t : TurnState) : TurnState := with_pending_input [] (clear_pending_waiters t).

(** The locked part of [defer_mailbox_delivery_to_next_turn]. *)
Definition queue_only (input : TurnInput) : bool :=
  match input with AgentMail communication => negb (ic_trigger_turn communication) | _ => false end.
Definition defer_section (t : TurnState) : TurnState :=
  if existsb (λ input, negb (queue_only input)) (ts_pending_input t) then t
  else set_mailbox_delivery_phase NextTurn t.

(** ** The mailbox ([input_queue.rs]) *)

Definition not_blank_id (id : str) : bool := negb (bool_decide (trim id = [])).
Definition filter_opt {A} (p : A → bool) (o : option A) : option A :=
  match o with Some x => if p x then Some x else None | None => None end.

(** [Iterator::reduce]. *)
Definition reduce {A} (f : A → A → A) (l : list A) : option A :=
  match l with [] => None | x :: l => Some (foldl f x l) end.

Definition agreed_id (expected candidate : option str) : option str :=
  filter_opt (λ id, bool_decide (candidate = Some id)) expected.

Definition merged_parent_turn_id (mails : list PendingMail) : option str :=
  reduce agreed_id
    (map (λ m, so_parent_turn_id (pm_start_options m)) (List.filter triggers mails))
  ≫= filter_opt not_blank_id.

Definition merged_root_turn_id (mails : list PendingMail) : option str :=
  m ← List.find triggers mails;
  _ ← filter_opt not_blank_id (so_parent_turn_id (pm_start_options m));
  filter_opt not_blank_id (so_root_turn_id (pm_start_options m)).

Definition merged_start_options (mails : list PendingMail) : TurnStartOptions :=
  let base :=
    match List.find triggers (rev mails) with
    | Some m => pm_start_options m
    | None => default_start_options
    end in
  mkStartOptions (so_turn_trigger base) (so_final_output_json_schema base) (so_service_tier base)
    (merged_parent_turn_id mails) (merged_root_turn_id mails) (so_cyber_access_program base).

Definition mail_item (m : PendingMail) : TurnInput := AgentMail (pm_communication m).

(** [drain_mailbox_input_items] leaves the mailbox empty. *)
Definition drain_mailbox_input_items (mailbox : list PendingMail) : list TurnInput * TurnStartOptions :=
  (map mail_item mailbox, merged_start_options mailbox).

Definition has_trigger_turn_mailbox_items (mailbox : list PendingMail) : bool := existsb triggers mailbox.
Definition has_pending_mailbox_items (mailbox : list PendingMail) : bool :=
  negb (bool_decide (length mailbox = 0)).

Inductive InputQueueActivity := MailboxActivity | SteerActivity.

(** What a new subscriber is told. *)
Definition subscribe_pending (t : option TurnState) (mailbox : list PendingMail) : option InputQueueActivity :=
  let has_pending_steer := match t with Some t => has_pending_steer t | None => false end in
  if has_pending_steer then Some SteerActivity
  else if has_pending_mailbox_items mailbox then Some MailboxActivity
  else None.

(** The first locked section of [get_pending_input]: what is taken from the turn
    and whether mail may be delivered to it. *)
Definition take_for_delivery (t : TurnState) : list TurnInput * bool * TurnState :=
  if accepts_mailbox_delivery_for_current_turn t
  then (ts_pending_input t, true, with_pending_input [] t)
  else ([], false, t).

(** [get_pending_input] and [has_pending_input] when nothing happens between
    their sections. *)
Definition get_pending_input (active : option TurnState) (mailbox : list PendingMail)
  : list TurnInput * TurnStartOptions * option TurnState * list PendingMail :=
  let '(pending, accepts, active) :=
    match active with
    | Some t => let '(p, a, t) := take_for_delivery t in (p, a, Some t)
    | None => ([], true, None)
    end in
  if negb accepts then (pending, default_start_options, active, mailbox)
  else
    let '(items, options) := drain_mailbox_input_items mailbox in
    (match pending with [] => items | _ => pending ++ items end, options, active, []).

Definition has_pending_input (active : option TurnState) (mailbox : list PendingMail) : bool :=
  let '(has_turn_pending_input, accepts) :=
    match active with
    | Some t => (negb (bool_decide (length (ts_pending_input t) = 0)),
                 accepts_mailbox_delivery_for_current_turn t)
    | None => (false, true)
    end in
  if negb accepts then false
  else if has_turn_pending_input then true
  else has_pending_mailbox_items mailbox.

(** ** What mail decides about the turn it starts *)

Lemma foldl_agreed expected l p :
  foldl agreed_id expected l = Some p ↔ expected = Some p ∧ Forall (λ c, c = Some p) l.
Proof.
  revert expected. induction l as [|c l IH]; intros expected; simpl; [split; [by split|by intros [? _]]|].
  rewrite IH, Forall_cons. unfold agreed_id, filter_opt. destruct expected as [e|]; [|naive_solver].
  case_bool_decide; naive_solver.
Qed.

Lemma filter_opt_Some {A} (p : A → bool) o x : filter_opt p o = Some x ↔ o = Some x ∧ p x = true.
Proof.
  destruct o as [y|]; simpl; [|by split; [|intros [? _]]].
  destruct (p y) eqn:E; split; [by intros [= <-]|by intros [[= <-] _]|done|intros [[= ->] ?]; congruence].
Qed.

(** The parent turn is known only when all mails that start the turn agree on it. *)
Lemma merged_parent_iff mails p :
  merged_parent_turn_id mails = Some p ↔
  not_blank_id p = true ∧ (∃ m, m ∈ mails ∧ triggers m = true) ∧
  ∀ m, m ∈ mails → triggers m = true → so_parent_turn_id (pm_start_options m) = Some p.
Proof.
  unfold merged_parent_turn_id, reduce.
  destruct (List.filter triggers mails) as [|m ms] eqn:E; simpl.
  - split; [done|]. intros (_ & (m & Hm & Ht) & _).
    assert (m ∈ List.filter triggers mails) as Hin by (by apply elem_of_List_filter). rewrite E in Hin.
    by apply elem_of_nil in Hin.
  - assert (∀ x, x ∈ mails ∧ triggers x = true ↔ x ∈ m :: ms) as Hmem
      by (intros x; rewrite <-elem_of_List_filter, E; reflexivity).
    set (o := foldl agreed_id _ _).
    assert (∀ q, o = Some q ↔ ∀ x, x ∈ m :: ms → so_parent_turn_id (pm_start_options x) = Some q) as Ho.
    { intros q. unfold o. rewrite foldl_agreed. split.
      - intros [Hm Hall] x [->|Hx]%elem_of_cons; [done|]. rewrite Forall_forall in Hall.
        apply Hall, list_elem_of_In, in_map_iff. exists x. by rewrite <-list_elem_of_In.
      - intros Hall. split; [apply Hall; by left|]. apply Forall_forall. intros c.
        rewrite list_elem_of_In, in_map_iff. intros (x & <- & Hx%list_elem_of_In). apply Hall. by right. }
    rewrite filter_opt_Some, Ho. split.
    + intros [Hall Hnb]. split_and!; [done|exists m; apply Hmem; by left|].
      intros x Hx Hxt. apply Hall, Hmem. done.
    + intros (Hnb & _ & Hall). split; [|done]. intros x [Hx Hxt]%Hmem. auto.
Qed.

(** Mail that starts a turn: the settings come from the last mail that asks for a turn; the parent
    turn is the one all of them agree on, if it is not blank, and the root turn that of the first,
    if its parent is known.  Without such mail no setting is made. *)
Theorem mail_starts_turn_as_agreed mails :
  (∀ before m after, mails = before ++ m :: after → triggers m = true →
     Forall (λ m', triggers m' = false) after →
     so_turn_trigger (merged_start_options mails) = so_turn_trigger (pm_start_options m) ∧
     so_final_output_json_schema (merged_start_options mails) = so_final_output_json_schema (pm_start_options m) ∧
     so_service_tier (merged_start_options mails) = so_service_tier (pm_start_options m) ∧
     so_cyber_access_program (merged_start_options mails) = so_cyber_access_program (pm_start_options m)) ∧
  (∀ p, so_parent_turn_id (merged_start_options mails) = Some p ↔
     not_blank_id p = true ∧ (∃ m, m ∈ mails ∧ triggers m = true) ∧
     ∀ m, m ∈ mails → triggers m = true → so_parent_turn_id (pm_start_options m) = Some p) ∧
  (Forall (λ m, triggers m = false) mails → merged_start_options mails = default_start_options).
Proof.
  split_and!.
  - intros before m after -> Hm Hafter. unfold merged_start_options.
    assert (List.find triggers (rev (before ++ m :: after)) = Some m) as ->; [|done].
    rewrite rev_app_distr. simpl. rewrite <-app_assoc. simpl.
    assert (Forall (λ m', triggers m' = false) (rev after)) as Hrev by (by apply Forall_rev).
    induction Hrev as [|x l Hx _ IH]; simpl; [by rewrite Hm|by rewrite Hx].
  - intros p. apply merged_parent_iff.
  - intros Hnone. unfold merged_start_options, merged_root_turn_id.
    assert (List.find triggers (rev mails) = None) as ->.
    { destruct (List.find triggers (rev mails)) as [m|] eqn:E; [|done].
      apply find_some in E as [Hin Ht]. rewrite Forall_forall in Hnone.
      rewrite (Hnone m) in Ht; [done|]. by apply list_elem_of_In, in_rev. }
    assert (List.find triggers mails = None) as ->.
    { destruct (List.find triggers mails) as [m|] eqn:E; [|done].
      apply find_some in E as [Hin Ht]. rewrite Forall_forall in Hnone.
      rewrite (Hnone m) in Ht; [done|]. by apply list_elem_of_In. }
    assert (merged_parent_turn_id mails = None) as ->; [|done].
    destruct (merged_parent_turn_id mails) as [p|] eqn:E; [|done].
    apply merged_parent_iff in E as (_ & (m & Hm & Ht) & _). rewrite Forall_forall in Hnone.
    by rewrite (Hnone m) in Ht.
Qed.

(** A turn is told that input is pending exactly when taking it returns some. *)
Lemma pending_is_what_is_taken active mailbox :
  has_pending_input active mailbox = true ↔ (get_pending_input active mailbox).1.1.1 ≠ [].
Proof.
  unfold has_pending_input, get_pending_input, has_pending_mailbox_items, take_for_delivery.
  destruct active as [t|]; [destruct (accepts_mailbox_delivery_for_current_turn t)|]; simpl.
  - destruct (ts_pending_input t) as [|x l]; simpl; [|done]. destruct mailbox; simpl; by split.
  - by split.
  - destruct mailbox; simpl; by split.
Qed.

(** ** Concurrent tasks

    A session with its turns, each known by its position, and the tasks that are
    between two sections.  [sy_accepted], [sy_delivered], [sy_discarded],
    [sy_enqueued] and [sy_drained] record what happened; no section reads them. *)

Inductive input_task :=
  | Notify (activity : InputQueueActivity)
  | Deliver (pending : list TurnInput) (root : option nat)
  | SetRoot (root : nat) (id : str)
  | DeferOn (turn : nat)
  | AcceptOn (turn : nat)
  | StartMail (items : list TurnInput)
  | Carry (items : list TurnInput) (turn : nat)
  | SubscribeSteer (seen : nat) (turn : option nat)
  | SubscribeMail (seen : nat).

(** The task of an active turn: its submission id and where its root id is kept. *)
Record active_turn := mkActive { at_task : option (str * nat); at_turn : nat }.

Record input_system := mkInputSystem {
  sy_turns : list TurnState;
  sy_active : option active_turn;
  sy_roots : list (option str);
  sy_mailbox : list PendingMail;
  sy_version : nat;
  sy_activity : InputQueueActivity;
  sy_tasks : list input_task;
  sy_subscribers : list (nat * option InputQueueActivity);
  sy_accepted : list TurnInput;
  sy_delivered : list TurnInput;
  sy_discarded : list TurnInput;
  sy_enqueued : list PendingMail;
  sy_drained : list PendingMail;
}.
Definition empty_input_system : input_system :=
  mkInputSystem [] None [] [] 0 MailboxActivity [] [] [] [] [] [] [].

Inductive input_action :=
  | EnqueueMail (m : PendingMail)
  | ExtendPending (turn : nat) (items : list TurnInput)
  | ExtendAndAccept (turn : nat) (items : list TurnInput)
  | TakePending (turn : nat)
  | ClearPending (turn : nat)
  | GetPending
  | Defer (sub_id : str)
  | Accept (sub_id : str)
  | StartTask
  | Subscribe (turn : option nat)
  | ReserveTurn
  | RunTask (sub_id : str)
  | FinishTask
  | TakeActive
  | AdvanceTask (i : nat).

(** Field updates. *)
Definition upd_turns (f : list TurnState → list TurnState) (s : input_system) : input_system :=
  mkInputSystem (f (sy_turns s)) (sy_active s) (sy_roots s) (sy_mailbox s) (sy_version s) (sy_activity s)
    (sy_tasks s) (sy_subscribers s) (sy_accepted s) (sy_delivered s) (sy_discarded s) (sy_enqueued s) (sy_drained s).
Definition upd_active (a : option active_turn) (s : input_system) : input_system :=
  mkInputSystem (sy_turns s) a (sy_roots s) (sy_mailbox s) (sy_version s) (sy_activity s)
    (sy_tasks s) (sy_subscribers s) (sy_accepted s) (sy_delivered s) (sy_discarded s) (sy_enqueued s) (sy_drained s).
Definition upd_roots (f : list (option str) → list (option str)) (s : input_system) : input_system :=
  mkInputSystem (sy_turns s) (sy_active s) (f (sy_roots s)) (sy_mailbox s) (sy_version s) (sy_activity s)
    (sy_tasks s) (sy_subscribers s) (sy_accepted s) (sy_delivered s) (sy_discarded s) (sy_enqueued s) (sy_drained s).
Definition upd_tasks (f : list input_task → list input_task) (s : input_system) : input_system :=
  mkInputSystem (sy_turns s) (sy_active s) (sy_roots s) (sy_mailbox s) (sy_version s) (sy_activity s)
    (f (sy_tasks s)) (sy_subscribers s) (sy_accepted s) (sy_delivered s) (sy_discarded s) (sy_enqueued s) (sy_drained s).
Definition send_replace (a : InputQueueActivity) (s : input_system) : input_system :=
  mkInputSystem (sy_turns s) (sy_active s) (sy_roots s) (sy_mailbox s) (S (sy_version s)) a
    (sy_tasks s) (sy_subscribers s) (sy_accepted s) (sy_delivered s) (sy_discarded s) (sy_enqueued s) (sy_drained s).
Definition add_subscriber (x : nat * option InputQueueActivity) (s : input_system) : input_system :=
  mkInputSystem (sy_turns s) (sy_active s) (sy_roots s) (sy_mailbox s) (sy_version s) (sy_activity s)
    (sy_tasks s) (sy_subscribers s ++ [x]) (sy_accepted s) (sy_delivered s) (sy_discarded s) (sy_enqueued s) (sy_drained s).
Definition log (accepted delivered discarded : list TurnInput) (s : input_system) : input_system :=
  mkInputSystem (sy_turns s) (sy_active s) (sy_roots s) (sy_mailbox s) (sy_version s) (sy_activity s)
    (sy_tasks s) (sy_subscribers s) (sy_accepted s ++ accepted) (sy_delivered s ++ delivered)
    (sy_discarded s ++ discarded) (sy_enqueued s) (sy_drained s).
Definition push_mail (m : PendingMail) (s : input_system) : input_system :=
  mkInputSystem (sy_turns s) (sy_active s) (sy_roots s) (sy_mailbox s ++ [m]) (sy_version s) (sy_activity s)
    (sy_tasks s) (sy_subscribers s) (sy_accepted s) (sy_delivered s) (sy_discarded s) (sy_enqueued s ++ [m]) (sy_drained s).
Definition empty_mailbox (s : input_system) : input_system :=
  mkInputSystem (sy_turns s) (sy_active s) (sy_roots s) [] (sy_version s) (sy_activity s)
    (sy_tasks s) (sy_subscribers s) (sy_accepted s) (sy_delivered s) (sy_discarded s) (sy_enqueued s)
    (sy_drained s ++ sy_mailbox s).

(** [turn_state_for_sub_id]. *)
Definition turn_state_for_sub_id (sub_id : str) (s : input_system) : option nat :=
  a ← sy_active s;
  '(id, _) ← at_task a;
  if str_eqb id sub_id then Some (at_turn a) else None.

(** [get_or_insert_with(ActiveTurn::default)]. *)
Definition get_or_insert_active (s : input_system) : active_turn * input_system :=
  match sy_active s with
  | Some a => (a, s)
  | None =>
      let a := mkActive None (length (sy_turns s)) in
      (a, upd_active (Some a) (upd_turns (λ l, l ++ [new_turn_state]) s))
  end.

(** The next section of a task that has been taken off the list. *)
Definition advance_task (task : input_task) (s : input_system) : option input_system :=
  match task with
  | Notify a => Some (send_replace a s)
  | Deliver pending root =>
      let '(items, options) := drain_mailbox_input_items (sy_mailbox s) in
      let s := log [] (pending ++ items) [] (empty_mailbox s) in
      match root, so_root_turn_id options with
      | Some h, Some id =>
          match sy_roots s !! h with
          | Some None => Some (upd_tasks (λ l, l ++ [SetRoot h id]) s)
          | _ => Some s
          end
      | _, _ => Some s
      end
  | SetRoot h id =>
      match sy_roots s !! h with
      | Some None => Some (if not_blank_id id then upd_roots (<[h := Some id]>) s else s)
      | _ => Some s
      end
  | DeferOn t => _ ← sy_turns s !! t; Some (upd_turns (alter defer_section t) s)
  | AcceptOn t => _ ← sy_turns s !! t; Some (upd_turns (alter accept_mailbox_delivery_for_current_turn t) s)
  | StartMail items =>
      let '(a, s) := get_or_insert_active s in
      Some (upd_tasks (λ l, l ++ [Carry items (at_turn a)]) s)
  | Carry items t =>
      st ← sy_turns s !! t;
      Some (upd_turns (alter (with_pending_input (ts_pending_input st ++ items)) t) s)
  | SubscribeSteer seen turn =>
      let steer := match turn with
                   | Some t => match sy_turns s !! t with Some st => has_pending_steer st | None => false end
                   | None => false
                   end in
      Some (if steer then add_subscriber (seen, Some SteerActivity) s
            else upd_tasks (λ l, l ++ [SubscribeMail seen]) s)
  | SubscribeMail seen =>
      Some (add_subscriber
              (seen, if has_pending_mailbox_items (sy_mailbox s) then Some MailboxActivity else None) s)
  end.

Definition fire_input (act : input_action) (s : input_system) : option input_system :=
  match act with
  | EnqueueMail m =>
      Some (upd_tasks (λ l, l ++ [Notify MailboxActivity]) (log [mail_item m] [] [] (push_mail m s)))
  | ExtendPending t items =>
      st ← sy_turns s !! t;
      Some (log items [] [] (upd_turns (alter (with_pending_input (ts_pending_input st ++ items)) t) s))
  | ExtendAndAccept t items =>
      st ← sy_turns s !! t;
      Some (upd_tasks (λ l, l ++ [Notify SteerActivity])
              (log items [] [] (upd_turns (alter (λ st', accept_mailbox_delivery_for_current_turn
                 (with_pending_input (ts_pending_input st ++ items) st')) t) s)))
  | TakePending t =>
      st ← sy_turns s !! t;
      Some (log [] (ts_pending_input st) [] (upd_turns (alter (with_pending_input []) t) s))
  | ClearPending t =>
      st ← sy_turns s !! t;
      Some (log [] [] (ts_pending_input st) (upd_turns (alter clear_pending t) s))
  | GetPending =>
      match sy_active s with
      | Some a =>
          st ← sy_turns s !! at_turn a;
          let '(pending, accepts, st') := take_for_delivery st in
          let s := upd_turns (alter (λ _, st') (at_turn a)) s in
          if accepts then Some (upd_tasks (λ l, l ++ [Deliver pending (snd <$> at_task a)]) s) else Some s
      | None => Some (upd_tasks (λ l, l ++ [Deliver [] None]) s)
      end
  | Defer sub_id =>
      Some (match turn_state_for_sub_id sub_id s with
            | Some t => upd_tasks (λ l, l ++ [DeferOn t]) s
            | None => s
            end)
  | Accept sub_id =>
      Some (match turn_state_for_sub_id sub_id s with
            | Some t => upd_tasks (λ l, l ++ [AcceptOn t]) s
            | None => s
            end)
  | StartTask =>
      let items := (drain_mailbox_input_items (sy_mailbox s)).1 in
      Some (upd_tasks (λ l, l ++ [StartMail items]) (empty_mailbox s))
  | Subscribe turn => Some (upd_tasks (λ l, l ++ [SubscribeSteer (sy_version s) turn]) s)
  | ReserveTurn => Some (get_or_insert_active s).2
  | RunTask sub_id =>
      let '(a, s) := get_or_insert_active s in
      Some (upd_active (Some (mkActive (Some (sub_id, length (sy_roots s))) (at_turn a)))
              (upd_roots (λ l, l ++ [None]) s))
  | FinishTask => Some (upd_active ((λ a, mkActive None (at_turn a)) <$> sy_active s) s)
  | TakeActive => Some (upd_active None s)
  | AdvanceTask i =>
      task ← sy_tasks s !! i;
      advance_task task (upd_tasks (delete i) s)
  end.

Inductive input_reachable : input_system → Prop :=
  | reachable_empty : input_reachable empty_input_system
  | reachable_fire act s s' : input_reachable s → fire_input act s = Some s' → input_reachable s'.

(** ** No input is lost, duplicated or reordered *)

#[local] Instance perm_app_assoc : Associative (@Permutation TurnInput) (@app TurnInput).
Proof. intros a b c. by rewrite app_assoc. Qed.
#[local] Instance perm_app_comm : Commutative (@Permutation TurnInput) (@app TurnInput).
Proof. intros a b. apply Permutation_app_comm. Qed.
#[local] Instance perm_app_unit : Unit (@Permutation TurnInput) (@app TurnInput) [].
Proof. split; intros a; [done|by rewrite app_nil_r]. Qed.
#[local] Instance perm_lift : AAC_lift (@Permutation TurnInput) (@Permutation TurnInput).
Proof. split; [apply _|]. intros ??????. by f_equiv. Qed.

Definition held_by (t : input_task) : list TurnInput :=
  match t with
  | Deliver pending _ => pending
  | StartMail items | Carry items _ => items
  | _ => []
  end.
Definition in_turns (s : input_system) : list TurnInput := concat (ts_pending_input <$> sy_turns s).
Definition in_tasks (s : input_system) : list TurnInput := concat (held_by <$> sy_tasks s).
Definition in_mailbox (s : input_system) : list TurnInput := map mail_item (sy_mailbox s).

Definition conserved (s : input_system) : Prop :=
  Permutation (sy_accepted s)
    (sy_delivered s ++ sy_discarded s ++ in_mailbox s ++ in_turns s ++ in_tasks s) ∧
  sy_enqueued s = sy_drained s ++ sy_mailbox s.

(** Acting on one turn exchanges its items. *)
Lemma alter_insert_lookup {A} (f : A → A) (l : list A) i x : l !! i = Some x → alter f i l = <[i := f x]> l.
Proof. revert i. induction l as [|y l IH]; intros [|i] H; simplify_eq/=; [done|]. f_equal. by apply IH. Qed.

Lemma turn_items (f : TurnState → TurnState) l i st :
  l !! i = Some st → ∃ others,
    Permutation (concat (ts_pending_input <$> l)) (ts_pending_input st ++ others) ∧
    Permutation (concat (ts_pending_input <$> alter f i l)) (ts_pending_input (f st) ++ others).
Proof.
  intros Hi. rewrite (alter_insert_lookup _ _ _ _ Hi).
  destruct (list_lookup_split l i st Hi) as (l1 & l2 & Hl & Hins & _). rewrite Hins, Hl.
  exists (concat (ts_pending_input <$> l1) ++ concat (ts_pending_input <$> l2)).
  rewrite !fmap_app, !fmap_cons, !concat_app, !concat_cons. split; aac_reflexivity.
Qed.

Lemma turn_items_same (f : TurnState → TurnState) l i st :
  l !! i = Some st → ts_pending_input (f st) = ts_pending_input st →
  Permutation (concat (ts_pending_input <$> alter f i l)) (concat (ts_pending_input <$> l)).
Proof. intros Hi Hf. destruct (turn_items f l i st Hi) as (o & -> & ->). by rewrite Hf. Qed.

Lemma task_items l i task :
  l !! i = Some task →
  Permutation (concat (held_by <$> l)) (held_by task ++ concat (held_by <$> delete i l)).
Proof.
  intros Hi. destruct (list_lookup_split l i task Hi) as (l1 & l2 & Hl & _ & Hdel). rewrite Hdel, Hl.
  rewrite !fmap_app, !fmap_cons, !concat_app, !concat_cons. aac_reflexivity.
Qed.

Lemma new_task_items l task :
  concat (held_by <$> (l ++ [task])) = concat (held_by <$> l) ++ held_by task.
Proof. rewrite fmap_app, concat_app. simpl. by rewrite app_nil_r. Qed.

Lemma get_or_insert_items s a s' :
  get_or_insert_active s = (a, s') →
  in_turns s' = in_turns s ∧ sy_mailbox s' = sy_mailbox s ∧ sy_tasks s' = sy_tasks s ∧
  sy_accepted s' = sy_accepted s ∧ sy_delivered s' = sy_delivered s ∧ sy_discarded s' = sy_discarded s ∧
  sy_enqueued s' = sy_enqueued s ∧ sy_drained s' = sy_drained s ∧
  sy_version s' = sy_version s ∧ sy_subscribers s' = sy_subscribers s.
Proof.
  unfold get_or_insert_active. destruct (sy_active s); intros [= <- <-]; [done|].
  split_and!; try done. unfold in_turns. simpl. rewrite fmap_app, concat_app. simpl. by rewrite app_nil_r.
Qed.

Ltac items := unfold conserved, in_turns, in_tasks, in_mailbox in *; simpl in *;
  rewrite ?new_task_items, ?map_app, ?app_nil_r in *; simpl in *.

(** What a task does with the input it holds. *)
Lemma advance_conserves task s s' :
  Permutation (sy_accepted s)
    (sy_delivered s ++ sy_discarded s ++ in_mailbox s ++ in_turns s ++ held_by task ++ in_tasks s) →
  sy_enqueued s = sy_drained s ++ sy_mailbox s →
  advance_task task s = Some s' → conserved s'.
Proof.
  intros Hp Ho. destruct task as [a|pending root|h id|t|t|items|items t|seen turn|seen]; simpl.
  - intros [= <-]. items. by split.
  - set (s1 := log [] _ [] (empty_mailbox s)).
    assert (conserved s1) as H1.
    { unfold s1. items. split; [|done]. rewrite Hp. aac_reflexivity. }
    assert (∀ h id, conserved (upd_tasks (λ l, l ++ [SetRoot h id]) s1)) as H2.
    { intros h id. unfold s1 in *. items. done. }
    destruct root as [h|]; [|by intros [= <-]]. destruct (merged_root_turn_id _) as [id|]; [|by intros [= <-]].
    destruct (sy_roots s !! h) as [[r|]|]; intros [= <-]; [exact H1|apply H2|exact H1].
  - destruct (sy_roots s !! h) as [[r|]|]; intros [= <-]; [| destruct (not_blank_id id)|]; items; by split.
  - rewrite bind_Some. intros (st & Hst & [= <-]). items. split; [|done]. rewrite Hp.
    rewrite (turn_items_same defer_section _ _ _ Hst); [done|]. unfold defer_section. by destruct (existsb _ _).
  - rewrite bind_Some. intros (st & Hst & [= <-]). items. split; [|done]. rewrite Hp.
    by rewrite (turn_items_same accept_mailbox_delivery_for_current_turn _ _ _ Hst).
  - destruct (get_or_insert_active s) as [a s1] eqn:E.
    apply get_or_insert_items in E as (E1 & E2 & E3 & E4 & E5 & E6 & E7 & E8 & _). intros [= <-].
    unfold conserved, in_tasks, in_mailbox. simpl.
    change (in_turns (upd_tasks (λ l, l ++ [Carry items (at_turn a)]) s1)) with (in_turns s1).
    rewrite new_task_items, E1, E2, E3, E4, E5, E6, E7, E8. split; [|done]. rewrite Hp.
    unfold in_mailbox, in_tasks. simpl. aac_reflexivity.
  - rewrite bind_Some. intros (st & Hst & [= <-]). items. split; [|done].
    destruct (turn_items (with_pending_input (ts_pending_input st ++ items)) _ _ _ Hst) as (o & Ho1 & Ho2).
    rewrite Hp, Ho1, Ho2. simpl. aac_reflexivity.
  - destruct (match turn with Some _ => _ | None => _ end); intros [= <-]; items; by split.
  - intros [= <-]. items. by split.
Qed.

(** C18: In every interleaving, each input handed to the queue is in exactly one place: delivered to a
    turn, discarded with a turn that was cleared, waiting in the mailbox or in a turn, or in the hands
    of a task; and mail leaves the mailbox in the order in which it came. *)
Theorem input_is_conserved s : input_reachable s → conserved s.
Proof.
  induction 1 as [|act s s' _ [Hp Ho] Hf]; [by split|].
  destruct act as [m|t items|t items|t|t| |sub|sub| |turn| |sub| | |i]; simpl in Hf.
  - injection Hf as <-. items. split; [rewrite Hp; aac_reflexivity|]. by rewrite Ho, app_assoc.
  - apply bind_Some in Hf as (st & Hst & [= <-]). items. split; [|done].
    destruct (turn_items (with_pending_input (ts_pending_input st ++ items)) _ _ _ Hst) as (o & Ho1 & Ho2).
    rewrite Hp, Ho1, Ho2. simpl. aac_reflexivity.
  - apply bind_Some in Hf as (st & Hst & [= <-]). items. split; [|done].
    destruct (turn_items (λ st', accept_mailbox_delivery_for_current_turn
      (with_pending_input (ts_pending_input st ++ items) st')) _ _ _ Hst) as (o & Ho1 & Ho2).
    rewrite Hp, Ho1, Ho2. simpl. aac_reflexivity.
  - apply bind_Some in Hf as (st & Hst & [= <-]). items. split; [|done].
    destruct (turn_items (with_pending_input []) _ _ _ Hst) as (o & Ho1 & Ho2).
    rewrite Hp, Ho1, Ho2. simpl. aac_reflexivity.
  - apply bind_Some in Hf as (st & Hst & [= <-]). items. split; [|done].
    destruct (turn_items clear_pending _ _ _ Hst) as (o & Ho1 & Ho2).
    rewrite Hp, Ho1, Ho2. simpl. aac_reflexivity.
  - destruct (sy_active s) as [a|]; [|injection Hf as <-; items; by split].
    apply bind_Some in Hf as (st & Hst & Hf). unfold take_for_delivery in Hf.
    destruct (accepts_mailbox_delivery_for_current_turn st); injection Hf as <-; items; (split; [|done]).
    + destruct (turn_items (λ _, with_pending_input [] st) _ _ _ Hst) as (o & Ho1 & Ho2).
      rewrite Hp, Ho1, Ho2. simpl. aac_reflexivity.
    + by rewrite Hp, (turn_items_same (λ _, st) _ _ _ Hst).
  - injection Hf as <-. destruct (turn_state_for_sub_id sub s); [|by split]. items. by split.
  - injection Hf as <-. destruct (turn_state_for_sub_id sub s); [|by split]. items. by split.
  - injection Hf as <-. items. split; [|done]. rewrite Hp. aac_reflexivity.
  - injection Hf as <-. items. by split.
  - injection Hf as <-. destruct (get_or_insert_active s) as [a s1] eqn:E.
    apply get_or_insert_items in E as (E1 & E2 & E3 & E4 & E5 & E6 & E7 & E8 & _).
    unfold conserved, in_tasks, in_mailbox in *. simpl. by rewrite E1, E2, E3, E4, E5, E6, E7, E8.
  - destruct (get_or_insert_active s) as [a s1] eqn:E.
    apply get_or_insert_items in E as (E1 & E2 & E3 & E4 & E5 & E6 & E7 & E8 & _). injection Hf as <-.
    unfold conserved, in_tasks, in_mailbox, in_turns in *. simpl. by rewrite E1, E2, E3, E4, E5, E6, E7, E8.
  - injection Hf as <-. items. by split.
  - injection Hf as <-. items. by split.
  - apply bind_Some in Hf as (task & Ht & Hf). eapply advance_conserves; [| |exact Hf]; [|done].
    unfold in_tasks, in_turns, in_mailbox in *. simpl. rewrite Hp, (task_items _ _ _ Ht). done.
Qed.

(** ** No wakeup is lost *)

Definition seen_by (t : input_task) : option nat :=
  match t with
  | SubscribeSteer seen _ | SubscribeMail seen => Some seen
  | _ => None
  end.

Definition wakes (version : nat) (subscribers : list (nat * option InputQueueActivity))
    (mailbox : list PendingMail) (tasks : list input_task) : Prop :=
  (∀ v r, (v, r) ∈ subscribers → v ≤ version) ∧
  (∀ t v, t ∈ tasks → seen_by t = Some v → v ≤ version) ∧
  (∀ v, (v, None) ∈ subscribers → mailbox ≠ [] → v < version ∨ Notify MailboxActivity ∈ tasks).

Lemma wakes_grow version subs mailbox mailbox' tasks more :
  wakes version subs mailbox tasks → (mailbox' = mailbox ∨ mailbox' = []) →
  (∀ t v, t ∈ more → seen_by t = Some v → v ≤ version) →
  wakes version subs mailbox' (tasks ++ more).
Proof.
  intros (H1 & H2 & H3) Hm Hmore. split_and!; [done| |].
  - intros t v [?|?]%elem_of_app; eauto.
  - intros v Hv Hne. destruct Hm as [->| ->]; [|done]. destruct (H3 v Hv Hne); [by left|right; set_solver].
Qed.

Lemma wakes_add version subs mailbox tasks task :
  wakes version subs mailbox tasks → seen_by task = None → wakes version subs mailbox (tasks ++ [task]).
Proof.
  intros H Hs. eapply wakes_grow; [done|by left|]. intros t v ->%list_elem_of_singleton. by rewrite Hs.
Qed.

Lemma wakes_notified version subs mailbox m tasks :
  wakes version subs mailbox tasks → wakes version subs (mailbox ++ [m]) (tasks ++ [Notify MailboxActivity]).
Proof.
  intros (H1 & H2 & H3). split_and!; [done| |].
  - intros t v [?| ->%list_elem_of_singleton]%elem_of_app; [eauto|done].
  - intros v _ _. right. set_solver.
Qed.

Lemma wakes_send version subs mailbox tasks :
  (∀ v r, (v, r) ∈ subs → v ≤ version) → (∀ t v, t ∈ tasks → seen_by t = Some v → v ≤ version) →
  wakes (S version) subs mailbox tasks.
Proof.
  intros H1 H2. split_and!; [intros v r Hv; specialize (H1 _ _ Hv); lia|intros t v Ht Hs; specialize (H2 _ _ Ht Hs); lia|].
  intros v Hv _. left. specialize (H1 _ _ Hv). lia.
Qed.

Lemma elem_of_delete_ne {A} (l : list A) i x y : l !! i = Some y → x ∈ l → x ≠ y → x ∈ delete i l.
Proof. intros (l1 & l2 & -> & _ & ->)%list_lookup_split. set_solver. Qed.

Lemma elem_of_delete_sub {A} (l : list A) i y x : l !! i = Some y → x ∈ delete i l → x ∈ l.
Proof. intros (l1 & l2 & -> & _ & ->)%list_lookup_split. set_solver. Qed.

Definition wakes_in (s : input_system) : Prop :=
  wakes (sy_version s) (sy_subscribers s) (sy_mailbox s) (sy_tasks s).

Lemma wakes_insert_active s a s' :
  wakes_in s → get_or_insert_active s = (a, s') →
  sy_version s' = sy_version s ∧ sy_subscribers s' = sy_subscribers s ∧ sy_mailbox s' = sy_mailbox s ∧
  sy_tasks s' = sy_tasks s.
Proof. intros _ (_ & ? & ? & _ & _ & _ & _ & _ & ? & ?)%get_or_insert_items. by split_and!. Qed.

Lemma advance_wakes task s s' :
  wakes_in s → (∀ v, seen_by task = Some v → v ≤ sy_version s) → task ≠ Notify MailboxActivity →
  advance_task task s = Some s' → wakes_in s'.
Proof.
  intros Hw Hseen Hne. unfold wakes_in in *.
  destruct task as [a|pending root|h id|t|t|items|items t|seen turn|seen]; simpl.
  - intros [= <-]. destruct Hw as (? & ? & _). by apply wakes_send.
  - assert (wakes (sy_version s) (sy_subscribers s) [] (sy_tasks s)) as Hw0.
    { rewrite <-(app_nil_r (sy_tasks s)). eapply wakes_grow; [done|by right|by intros ? ? ?%elem_of_nil]. }
    destruct root as [h|]; [|by intros [= <-]]. destruct (merged_root_turn_id _); [|by intros [= <-]].
    destruct (sy_roots s !! h) as [[]|]; intros [= <-]; [done|by apply wakes_add|done].
  - destruct (sy_roots s !! h) as [[]|]; intros [= <-]; [done| |done]. by destruct (not_blank_id id).
  - rewrite bind_Some. by intros (? & _ & [= <-]).
  - rewrite bind_Some. by intros (? & _ & [= <-]).
  - destruct (get_or_insert_active s) as [a s1] eqn:E.
    destruct (wakes_insert_active _ _ _ Hw E) as (E1 & E2 & E3 & E4). intros [= <-]. simpl.
    rewrite E1, E2, E3, E4. by apply wakes_add.
  - rewrite bind_Some. by intros (? & _ & [= <-]).
  - specialize (Hseen seen eq_refl). destruct (match turn with Some _ => _ | None => _ end); intros [= <-]; simpl.
    + destruct Hw as (H1 & H2 & H3). split_and!; [|done|].
      * intros v r [?|[= -> ->]%list_elem_of_singleton]%elem_of_app; eauto.
      * intros v [?|?%list_elem_of_singleton]%elem_of_app; [eauto|done].
    + eapply wakes_grow; [done|by left|]. by intros t v ->%list_elem_of_singleton [= <-].
  - specialize (Hseen seen eq_refl). intros [= <-]. simpl. destruct Hw as (H1 & H2 & H3). split_and!; [|done|].
    + intros v r [?|[= -> ->]%list_elem_of_singleton]%elem_of_app; eauto.
    + intros v [?|Hx%list_elem_of_singleton]%elem_of_app; [eauto|]. intros Hmail. exfalso.
      unfold has_pending_mailbox_items in Hx. by destruct (sy_mailbox s).
Qed.

(** No wakeup is lost: a subscriber that was told of no pending activity either has a change of the
    channel to see, or a notification is still to come, as long as there is mail. *)
Theorem subscriber_sees_mail s v :
  input_reachable s → (v, None) ∈ sy_subscribers s → sy_mailbox s ≠ [] →
  v < sy_version s ∨ Notify MailboxActivity ∈ sy_tasks s.
Proof.
  intros Hr. assert (wakes_in s) as (_ & _ & Hw); [|by apply Hw].
  unfold wakes_in. induction Hr as [|act s s' _ Hw Hf].
  { split_and!; [by intros ? ? ?%elem_of_nil|by intros ? ? ?%elem_of_nil|by intros ? ?%elem_of_nil]. }
  destruct act as [m|t items|t items|t|t| |sub|sub| |turn| |sub| | |i]; simpl in Hf.
  - injection Hf as <-. by apply wakes_notified.
  - apply bind_Some in Hf as (? & _ & [= <-]). done.
  - apply bind_Some in Hf as (? & _ & [= <-]). by apply wakes_add.
  - apply bind_Some in Hf as (? & _ & [= <-]). done.
  - apply bind_Some in Hf as (? & _ & [= <-]). done.
  - destruct (sy_active s) as [a|]; [|injection Hf as <-; by apply wakes_add].
    apply bind_Some in Hf as (st & _ & Hf). destruct (take_for_delivery st) as [[p acc] st'].
    destruct acc; injection Hf as <-; [by apply wakes_add|done].
  - injection Hf as <-. destruct (turn_state_for_sub_id sub s); [by apply wakes_add|done].
  - injection Hf as <-. destruct (turn_state_for_sub_id sub s); [by apply wakes_add|done].
  - injection Hf as <-. simpl. eapply wakes_grow; [done|by right|]. by intros t v' ->%list_elem_of_singleton.
  - injection Hf as <-. simpl. eapply wakes_grow; [done|by left|]. by intros t v' ->%list_elem_of_singleton [= <-].
  - injection Hf as <-. destruct (get_or_insert_active s) as [a s1] eqn:E.
    destruct (wakes_insert_active _ _ _ Hw E) as (E1 & E2 & E3 & E4). simpl. by rewrite E1, E2, E3, E4.
  - destruct (get_or_insert_active s) as [a s1] eqn:E.
    destruct (wakes_insert_active _ _ _ Hw E) as (E1 & E2 & E3 & E4). injection Hf as <-. simpl.
    by rewrite E1, E2, E3, E4.
  - by injection Hf as <-.
  - by injection Hf as <-.
  - apply bind_Some in Hf as (task & Ht & Hf). destruct Hw as (H1 & H2 & H3).
    assert (∀ t v, t ∈ delete i (sy_tasks s) → seen_by t = Some v → v ≤ sy_version s) as H2'
      by (intros t v' Hin; eapply H2, elem_of_delete_sub; eauto).
    assert (task = Notify MailboxActivity ∨ task ≠ Notify MailboxActivity) as [->|Hne].
    { destruct task as [[]| | | | | | | |]; auto. }
    + injection Hf as <-. by apply wakes_send.
    + eapply advance_wakes; [| |exact Hne|exact Hf].
      * split_and!; [done|done|]. intros v' Hv' Hm. destruct (H3 v' Hv' Hm); [by left|right].
        eapply elem_of_delete_ne; eauto.
      * intros v'. simpl. apply H2. by eapply list_elem_of_lookup_2.
Qed.
End data.

(** ** The context window ([auto_compact_window.rs]) *)

Definition u64_max : N := 18446744073709551615.
Definition uuid : Type := N.

Record AutoCompactWindowIds := mkWindowIds {
  wi_first_window_id : uuid;
  wi_previous_window_id : option uuid;
  wi_window_id : uuid;
}.
Definition new_initial (now : uuid) : AutoCompactWindowIds := mkWindowIds now None now.

Inductive AutoCompactWindowPrefill := ServerObserved (tokens : Z) | Estimated (tokens : Z).

Record AutoCompactWindow := mkWindow {
  aw_window_number : N;
  aw_ids : AutoCompactWindowIds;
  aw_new_context_window_requested : bool;
  aw_prefill_input_tokens : option AutoCompactWindowPrefill;
  aw_token_budget_reminder_delivered : bool;
  aw_auto_compact_fallback_delivered : bool;
}.
Definition new_with_ids (ids : AutoCompactWindowIds) : AutoCompactWindow := mkWindow 0 ids false None false false.

Definition clear_prefill (w : AutoCompactWindow) : AutoCompactWindow :=
  mkWindow (aw_window_number w) (aw_ids w) (aw_new_context_window_requested w) None
    (aw_token_budget_reminder_delivered w) (aw_auto_compact_fallback_delivered w).
Definition restore (number : N) (ids : AutoCompactWindowIds) (w : AutoCompactWindow) : AutoCompactWindow :=
  mkWindow number ids (aw_new_context_window_requested w) (aw_prefill_input_tokens w)
    (aw_token_budget_reminder_delivered w) (aw_auto_compact_fallback_delivered w).
(** [advance]; the argument is the fresh id. *)
Definition advance_window (fresh : uuid) (w : AutoCompactWindow) : AutoCompactWindow :=
  mkWindow (N.min u64_max (aw_window_number w + 1))
    (mkWindowIds (wi_first_window_id (aw_ids w)) (Some (wi_window_id (aw_ids w))) fresh)
    false (aw_prefill_input_tokens w) false false.
Definition claim_token_budget_reminder (w : AutoCompactWindow) : bool * AutoCompactWindow :=
  (negb (aw_token_budget_reminder_delivered w),
   mkWindow (aw_window_number w) (aw_ids w) (aw_new_context_window_requested w) (aw_prefill_input_tokens w)
     true (aw_auto_compact_fallback_delivered w)).
Definition claim_auto_compact_fallback (w : AutoCompactWindow) : bool * AutoCompactWindow :=
  (negb (aw_auto_compact_fallback_delivered w),
   mkWindow (aw_window_number w) (aw_ids w) (aw_new_context_window_requested w) (aw_prefill_input_tokens w)
     (aw_token_budget_reminder_delivered w) true).
Definition request_new_context_window (w : AutoCompactWindow) : AutoCompactWindow :=
  mkWindow (aw_window_number w) (aw_ids w) true (aw_prefill_input_tokens w)
    (aw_token_budget_reminder_delivered w) (aw_auto_compact_fallback_delivered w).
Definition take_new_context_window_request (w : AutoCompactWindow) : bool * AutoCompactWindow :=
  (aw_new_context_window_requested w,
   mkWindow (aw_window_number w) (aw_ids w) false (aw_prefill_input_tokens w)
     (aw_token_budget_reminder_delivered w) (aw_auto_compact_fallback_delivered w)).
Definition with_prefill (p : AutoCompactWindowPrefill) (w : AutoCompactWindow) : AutoCompactWindow :=
  mkWindow (aw_window_number w) (aw_ids w) (aw_new_context_window_requested w) (Some p)
    (aw_token_budget_reminder_delivered w) (aw_auto_compact_fallback_delivered w).
Definition ensure_server_observed_prefill_from_usage (input_tokens : Z) (w : AutoCompactWindow)
  : AutoCompactWindow :=
  match aw_prefill_input_tokens w with
  | Some (ServerObserved _) => w
  | _ => with_prefill (ServerObserved (input_tokens `max` 0)) w
  end.
Definition set_estimated_prefill (tokens : Z) (w : AutoCompactWindow) : AutoCompactWindow :=
  match aw_prefill_input_tokens w with
  | Some (ServerObserved _) => w
  | _ => with_prefill (Estimated (tokens `max` 0)) w
  end.
Definition window_snapshot (w : AutoCompactWindow) : option Z :=
  match aw_prefill_input_tokens w with
  | Some (ServerObserved tokens) | Some (Estimated tokens) => Some tokens
  | None => None
  end.

Inductive window_op :=
  | ClearPrefill
  | AdvanceWindow (fresh : uuid)
  | ClaimReminder
  | ClaimFallback
  | RequestWindow
  | TakeRequest
  | ObservePrefill (input_tokens : Z)
  | EstimatePrefill (tokens : Z).

(** The answer of a claim, and the new state. *)
Definition apply_window_op (op : window_op) (w : AutoCompactWindow) : bool * AutoCompactWindow :=
  match op with
  | ClearPrefill => (false, clear_prefill w)
  | AdvanceWindow fresh => (false, advance_window fresh w)
  | ClaimReminder => claim_token_budget_reminder w
  | ClaimFallback => claim_auto_compact_fallback w
  | RequestWindow => (false, request_new_context_window w)
  | TakeRequest => take_new_context_window_request w
  | ObservePrefill tokens => (false, ensure_server_observed_prefill_from_usage tokens w)
  | EstimatePrefill tokens => (false, set_estimated_prefill tokens w)
  end.

(** Reminders granted by a sequence of operations. *)
Fixpoint reminders_granted (ops : list window_op) (w : AutoCompactWindow) : nat :=
  match ops with
  | [] => 0
  | op :: ops =>
      let '(answer, w) := apply_window_op op w in
      (match op with ClaimReminder => if answer then 1 else 0 | _ => 0 end) + reminders_granted ops w
  end.

Definition advances (op : window_op) : bool := match op with AdvanceWindow _ => true | _ => false end.

(** A reminder is given at most once in a window, however often it is asked for. *)
Lemma one_reminder_per_window ops w :
  forallb (λ op, negb (advances op)) ops = true →
  reminders_granted ops w ≤ if aw_token_budget_reminder_delivered w then 0 else 1.
Proof.
  revert w. induction ops as [|op ops IH]; intros w; simpl;
    [destruct (aw_token_budget_reminder_delivered w); lia|].
  intros [Hop Hops]%andb_true_iff. destruct op; simpl in *; try done;
    try (etrans; [by apply IH|done]).
  - destruct (aw_token_budget_reminder_delivered w) eqn:E; simpl.
    + etrans; [by apply IH|done].
    + pose proof (IH (mkWindow (aw_window_number w) (aw_ids w) (aw_new_context_window_requested w)
        (aw_prefill_input_tokens w) true (aw_auto_compact_fallback_delivered w)) Hops) as Hle. simpl in Hle. lia.
  - etrans; [by apply IH|]. unfold ensure_server_observed_prefill_from_usage.
    by destruct (aw_prefill_input_tokens w) as [[]|].
  - etrans; [by apply IH|]. unfold set_estimated_prefill. by destruct (aw_prefill_input_tokens w) as [[]|].
Qed.

(** ** A run of the queue

    Mail arrives while a subscriber looks, and a turn takes it with the input
    it was steered with. *)
Module MiniInput.
Definition mail (n : N) (trigger : bool) (parent : option str) : PendingMail (Json := unit) (Passthrough := unit) :=
  mkMail (mkCommunication None (lit "/root/a") (lit "/root") [] [n] None None trigger)
    (mkStartOptions None None None parent (Some (lit "r")) None).
Definition action : Type :=
  input_action (Json := unit) (Item := unit) (UserItem := unit) (Metadata := unit) (Passthrough := unit).
Definition system : Type :=
  input_system (Json := unit) (Item := unit) (UserItem := unit) (Metadata := unit) (Passthrough := unit).
Definition run (acts : list action) : option system :=
  foldl (λ os act, os ≫= fire_input act) (Some empty_input_system) acts.
Definition before_mail : list action :=
  [Subscribe None; AdvanceTask 0; AdvanceTask 0; EnqueueMail (mail 1 true (Some (lit "p")))].
Definition whole_run : list action :=
  before_mail ++ [RunTask (lit "t"); ExtendAndAccept 0 [UserInput [()] None]; GetPending; AdvanceTask 2; AdvanceTask 2].

Lemma run_reachable acts s : run acts = Some s → input_reachable s.
Proof.
  unfold run. revert s. induction acts as [|act acts IH] using rev_ind; intros s.
  - intros [= <-]. constructor.
  - rewrite foldl_app. simpl. rewrite bind_Some. intros (s0 & Hs0 & Hf). eapply reachable_fire; eauto.
Qed.
End MiniInput.

Lemma input_is_conserved_witness :
  ∃ s, MiniInput.run MiniInput.whole_run = Some s ∧ conserved s ∧ length (sy_delivered s) = 2.
Proof.
  eexists. split; [vm_compute; reflexivity|]. split; [|reflexivity].
  apply input_is_conserved. apply (MiniInput.run_reachable MiniInput.whole_run). vm_compute. reflexivity.
Defined.

Lemma subscriber_sees_mail_witness :
  ∃ s, MiniInput.run MiniInput.before_mail = Some s ∧ sy_subscribers s = [(0, None)] ∧
    (0 < sy_version s ∨ Notify MailboxActivity ∈ sy_tasks s).
Proof.
  eexists. split; [vm_compute; reflexivity|]. split; [reflexivity|].
  apply subscriber_sees_mail; [|by left|done].
  apply (MiniInput.run_reachable MiniInput.before_mail). vm_compute. reflexivity.
Defined.

Lemma mail_starts_turn_as_agreed_witness :
  so_parent_turn_id (merged_start_options
    [MiniInput.mail 1 true (Some (lit "p")); MiniInput.mail 2 false None; MiniInput.mail 3 true (Some (lit "p"))])
  = Some (lit "p").
Proof.
  apply mail_starts_turn_as_agreed. split_and!; [reflexivity|eexists; split; [by left|reflexivity]|].
  intros m Hm. repeat (apply elem_of_cons in Hm as [->|Hm]; [try done|]). by apply elem_of_nil in Hm.
Defined.
