(* ===== verification/StringUtils.v ===== *)
(** * String utilities ([utils/string/src/lib.rs], [json.rs])

    Cutting a text at a byte budget, cleaning the value of a metric tag, the
    location suffix of a Markdown link, and JSON strings made of ASCII only.  The
    search for UUIDs is a regular expression and is left out. *)
From stdpp Require Import numbers strings list.
From S2P Require Import Prelude RustStr ByteStr.

(** ** Cutting at a char boundary *)

(** The loop over [char_indices]: the last end of a char within the budget. *)
Fixpoint last_ok_loop (maxb i last_ok : N) (s : str) : N :=
  match s with
  | [] => last_ok
  | ch :: rest =>
      let nb := (i + len_utf8 ch)%N in
      if (maxb <? nb)%N then last_ok else last_ok_loop maxb nb nb rest
  end.

(** [None] where the slice panics. *)
Definition take_bytes_at_char_boundary (s : str) (maxb : N) : option str :=
  if (blen s <=? maxb)%N then Some s else slice_to (last_ok_loop maxb 0 0 s) s.

(** ** Metric tags *)

Definition is_ascii_alphanumeric (c : char) : bool :=
  is_ascii_digit c || ((65 <=? c) && (c <=? 90))%N || ((97 <=? c) && (c <=? 122))%N.
Definition is_tag_char (c : char) : bool :=
  is_ascii_alphanumeric c || existsb (N.eqb c) [chr "."; chr "_"; chr "-"; chr "/"].
Definition UNDERSCORE : char := chr "_".
Definition TAG_MAX_LEN : N := 256.

Fixpoint trim_start_char (d : char) (s : str) : str :=
  match s with
  | c :: s' => if (c =? d)%N then trim_start_char d s' else s
  | [] => []
  end.
(** [trim_matches] of a char. *)
Definition trim_char (d : char) (s : str) : str := trim_end_matches (λ c, (c =? d)%N) (trim_start_char d s).

Definition sanitize_metric_tag_value (value : str) : option str :=
  let sanitized := (λ ch, if is_tag_char ch then ch else UNDERSCORE) <$> value in
  let trimmed := trim_char UNDERSCORE sanitized in
  if bool_decide (trimmed = []) || forallb (λ ch, negb (is_ascii_alphanumeric ch)) trimmed
  then Some (lit "unspecified")
  else if (blen trimmed <=? TAG_MAX_LEN)%N then Some trimmed
  else slice_to TAG_MAX_LEN trimmed.

(** ** Location suffixes *)

Definition parse_markdown_hash_location_point (point : str) : option (str * option str) :=
  point ← strip_prefix (lit "L") point;
  Some (match split_once (chr "C") point with
        | Some (line, column) => (line, Some column)
        | None => (point, None)
        end).

Definition push_point (p : str * option str) : str :=
  p.1 ++ match p.2 with Some column => lit ":" ++ column | None => [] end.

Definition normalize_markdown_hash_location_suffix (suffix : str) : option str :=
  fragment ← strip_prefix (lit "#") suffix;
  let '(start, end_) :=
    match split_once (chr "-") fragment with
    | Some (start, end_) => (start, Some end_)
    | None => (fragment, None)
    end in
  start ← parse_markdown_hash_location_point start;
  let normalized := lit ":" ++ push_point start in
  match end_ with
  | None => Some normalized
  | Some e =>
      e ← parse_markdown_hash_location_point e;
      Some (normalized ++ lit "-" ++ push_point e)
  end.

(** ** ASCII JSON *)

Definition is_ascii (c : char) : bool := (c <? 128)%N.

(** [char::encode_utf16]. *)
Definition encode_utf16 (c : char) : list N :=
  if (c <? 65536)%N then [c]
  else [55296 + N.shiftr (c - 65536) 10; 56320 + N.land (c - 65536) 1023]%N.

(** [{:04x}] of a 16-bit unit. *)
Definition hex_digit (d : N) : char := if (d <? 10)%N then (48 + d)%N else (87 + d)%N.
Definition hex4 (u : N) : str :=
  [hex_digit (u / 4096); hex_digit (u / 256 mod 16); hex_digit (u / 16 mod 16); hex_digit (u mod 16)]%N.
Definition escape_unit (u : N) : str := lit "\u" ++ hex4 u.

(** [write_string_fragment]: runs of ASCII are copied, other chars escaped. *)
Definition write_string_fragment (fragment : str) : str :=
  fragment ≫= λ ch, if is_ascii ch then [ch] else encode_utf16 ch ≫= escape_unit.

(** ** What the cuts keep *)

Lemma last_ok_loop_spec maxb s : ∀ pre,
  (blen pre ≤ maxb)%N →
  ∃ a b, s = a ++ b ∧ last_ok_loop maxb (blen pre) (blen pre) s = blen (pre ++ a) ∧
    (blen (pre ++ a) ≤ maxb)%N ∧ ∀ c b', b = c :: b' → (maxb < blen (pre ++ a) + len_utf8 c)%N.
Proof.
  induction s as [|c s IH]; intros pre Hpre; simpl.
  - exists [], []. rewrite !app_nil_r. split_and!; done.
  - destruct (N.ltb_spec maxb (blen pre + len_utf8 c)).
    + exists [], (c :: s). rewrite !app_nil_r. split_and!; [done..|]. by intros ? ? [= <- <-].
    + assert (blen pre + len_utf8 c = blen (pre ++ [c]))%N as -> by (rewrite blen_app; simpl; lia).
      destruct (IH (pre ++ [c])) as (a & b & -> & Hl & Hle & Hmax); [rewrite blen_app; simpl; lia|].
      exists (c :: a), b. rewrite <-app_assoc in *. by split_and!.
Qed.

(** The cut never panics and returns the longest beginning of the text within the budget that ends
    at a char. *)
Theorem take_bytes_longest_prefix s maxb :
  ∃ a b, take_bytes_at_char_boundary s maxb = Some a ∧ s = a ++ b ∧ (blen a ≤ maxb)%N ∧
    ∀ a' b', s = a' ++ b' → (blen a' ≤ maxb)%N → (blen a' ≤ blen a)%N.
Proof.
  unfold take_bytes_at_char_boundary. destruct (N.leb_spec (blen s) maxb).
  - exists s, []. rewrite app_nil_r. split_and!; try done. intros a' b' -> _. rewrite blen_app. lia.
  - destruct (last_ok_loop_spec maxb s []) as (a & b & -> & Hl & Hle & Hmax); [simpl; lia|]. simpl in *.
    rewrite Hl. exists a, b. split_and!; [apply slice_to_Some; eauto|done|done|]. intros a' b' E Ha'.
    destruct (N.le_gt_cases (blen a') (blen a)); [done|].
    destruct (app_blen_le a b a' b') as (m & -> & ->); [done|lia|]. destruct m as [|c m].
    + rewrite app_nil_r in *. lia.
    + specialize (Hmax c (m ++ b') eq_refl). rewrite blen_app in Ha'. simpl in Ha'. lia.
Qed.

Lemma tag_char_ascii c : is_tag_char c = true → len_utf8 c = 1%N.
Proof.
  unfold is_tag_char, is_ascii_alphanumeric, is_ascii_digit. intros H.
  assert (c < 128)%N as Hc.
  { rewrite !orb_true_iff, !andb_true_iff, !N.leb_le in H. destruct H as [[[?|?]|?]|H]; [lia..|].
    apply existsb_true_elem in H as (d & Hd & ->%N.eqb_eq).
    repeat (apply elem_of_cons in Hd as [->|Hd]; [done|]). by apply elem_of_nil in Hd. }
  unfold len_utf8. by destruct (N.ltb_spec c 128); [|lia].
Qed.

Lemma tag_blen s : Forall (λ c, is_tag_char c = true) s → blen s = N.of_nat (length s).
Proof. induction 1 as [|c s Hc _ IH]; simpl; [done|]. rewrite (tag_char_ascii c Hc), IH. lia. Qed.

Lemma trim_char_sub d s : ∃ a b, s = a ++ trim_char d s ++ b.
Proof.
  unfold trim_char. assert (∃ a, s = a ++ trim_start_char d s) as [a Ha].
  { induction s as [|c s [a IH]]; simpl; [by exists []|]. destruct (c =? d)%N; [|by exists []].
    exists (c :: a). simpl. by rewrite <-IH. }
  destruct (trim_end_matches_spec (λ c, (c =? d)%N) (trim_start_char d s)) as (b & Hb & _).
  exists a, b. by rewrite <-Hb.
Qed.

(** A metric tag is never refused and never empty, has at most 256 bytes and only allowed chars. *)
Theorem metric_tag_is_valid value :
  ∃ tag, sanitize_metric_tag_value value = Some tag ∧ tag ≠ [] ∧ (blen tag ≤ TAG_MAX_LEN)%N ∧
    Forall (λ c, is_tag_char c = true) tag.
Proof.
  unfold sanitize_metric_tag_value. set (sanitized := _ <$> value).
  assert (Forall (λ c, is_tag_char c = true) sanitized) as Hall.
  { apply Forall_fmap, Forall_forall. intros c _. simpl. destruct (is_tag_char c) eqn:E; [done|reflexivity]. }
  destruct (trim_char_sub UNDERSCORE sanitized) as (a & b & Hs). rewrite Hs in Hall.
  apply Forall_app in Hall as [_ [Ht _]%Forall_app]. set (t := trim_char UNDERSCORE sanitized) in *.
  destruct (bool_decide (t = []) || _) eqn:E.
  { eexists. split; [done|]. split_and!; [done|done|by repeat constructor]. }
  apply orb_false_iff in E as [E%bool_decide_eq_false _].
  destruct (N.leb_spec (blen t) TAG_MAX_LEN) as [|Hlong]; [by exists t|].
  pose proof Ht as Hlen%tag_blen. exists (take 256 t).
  assert (Forall (λ c, is_tag_char c = true) (take 256 t)) as Hcut by (by apply Forall_take).
  assert (blen (take 256 t) = TAG_MAX_LEN) as Hb.
  { rewrite tag_blen, length_take by done. unfold TAG_MAX_LEN in *. lia. }
  split_and!; [|by intros Hn; rewrite Hn in Hb|by rewrite Hb|done].
  apply slice_to_Some. exists (drop 256 t). by rewrite take_drop.
Qed.

(** A location written the Markdown way becomes the one a terminal understands. *)
Lemma location_suffix_printed l c l' c' :
  chr "C" ∉ l → chr "C" ∉ l' → chr "-" ∉ l → chr "-" ∉ c →
  normalize_markdown_hash_location_suffix (lit "#L" ++ l ++ lit "C" ++ c ++ lit "-L" ++ l' ++ lit "C" ++ c')
  = Some (lit ":" ++ l ++ lit ":" ++ c ++ lit "-" ++ l' ++ lit ":" ++ c').
Proof.
  intros Hl Hl' Hd Hc. unfold normalize_markdown_hash_location_suffix.
  assert (∀ (d : char) (a b : str), d ∉ a → split_once d (a ++ d :: b) = Some (a, b)) as Hsplit.
  { intros d a b. induction a as [|x a IH]; simpl; [by rewrite N.eqb_refl|]. rewrite not_elem_of_cons.
    intros [Hx Ha]. destruct (N.eqb_spec x d); [congruence|]. by rewrite IH. }
  assert (lit "#L" ++ l ++ lit "C" ++ c ++ lit "-L" ++ l' ++ lit "C" ++ c' =
    lit "#" ++ (lit "L" ++ l ++ lit "C" ++ c) ++ chr "-" :: (lit "L" ++ l' ++ lit "C" ++ c')) as ->
    by (rewrite <-!app_assoc; reflexivity).
  rewrite strip_prefix_app. cbn [mbind option_bind].
  rewrite Hsplit.
  2:{ rewrite !not_elem_of_app. split_and!; [by apply not_elem_of_cons; split; [|apply not_elem_of_nil]|done| |done].
      by apply not_elem_of_cons; split; [|apply not_elem_of_nil]. }
  unfold parse_markdown_hash_location_point. rewrite !strip_prefix_app. cbn [mbind option_bind].
  change (lit "C" ++ c) with (chr "C" :: c). change (lit "C" ++ c') with (chr "C" :: c').
  rewrite !(Hsplit (chr "C")) by done. cbn [mbind option_bind push_point fst snd].
  unfold push_point. cbn [fst snd]. by rewrite <-!app_assoc.
Qed.

(** ** Reading the escapes back *)

Definition hex_value (c : char) : option N :=
  if is_ascii_digit c then Some (c - 48)%N
  else if ((97 <=? c) && (c <=? 102))%N then Some (c - 87)%N else None.

(** Code units of a JSON string whose only escapes are [\uXXXX], then chars. *)
Fixpoint read_units (s : str) : option (list N) :=
  match s with
  | [] => Some []
  | c :: s' =>
      if (c =? chr "\")%N then
        match s' with
        | u :: a :: b :: d :: e :: rest =>
            if (u =? chr "u")%N then
              a ← hex_value a; b ← hex_value b; d ← hex_value d; e ← hex_value e;
              us ← read_units rest;
              Some ((a * 4096 + b * 256 + d * 16 + e)%N :: us)
            else None
        | _ => None
        end
      else us ← read_units s'; Some (c :: us)
  end.
Fixpoint decode_utf16 (us : list N) : str :=
  match us with
  | [] => []
  | h :: us' =>
      if ((55296 <=? h) && (h <? 56320))%N then
        match us' with
        | l :: us'' => (65536 + (h - 55296) * 1024 + (l - 56320))%N :: decode_utf16 us''
        | [] => [h]
        end
      else h :: decode_utf16 us'
  end.

(** A char of Rust: a scalar value. *)
Definition scalar (c : char) : Prop := (c < 55296 ∨ 57344 ≤ c ∧ c < 1114112)%N.

Lemma hex_value_digit d : (d < 16)%N → hex_value (hex_digit d) = Some d.
Proof.
  intros Hd. unfold hex_digit, hex_value, is_ascii_digit. destruct (N.ltb_spec d 10).
  - rewrite (proj2 (N.leb_le _ _)), (proj2 (N.leb_le _ _)) by lia. simpl. f_equal. lia.
  - destruct (N.leb_spec 48 (87 + d)), (N.leb_spec (87 + d) 57), (N.leb_spec 97 (87 + d)),
      (N.leb_spec (87 + d) 102); simpl; try lia. f_equal. lia.
Qed.

Lemma read_escape u rest us :
  (u < 65536)%N → read_units rest = Some us → read_units (escape_unit u ++ rest) = Some (u :: us).
Proof.
  intros Hu Hrest. unfold escape_unit, hex4.
  assert (u / 4096 < 16)%N as H1 by (apply N.Div0.div_lt_upper_bound; lia).
  assert (∀ n, n mod 16 < 16)%N as H2 by (intros; apply N.mod_lt; lia).
  change (lit "\u" ++ ?x) with (chr "\" :: chr "u" :: x). cbn [app read_units].
  rewrite N.eqb_refl. cbn. rewrite !hex_value_digit by auto. simpl. rewrite Hrest. simpl. do 2 f_equal.
  assert (u / 256 = u / 16 / 16)%N as -> by (by rewrite N.Div0.div_div).
  assert (u / 4096 = u / 16 / 16 / 16)%N as -> by (by rewrite !N.Div0.div_div).
  pose proof (N.div_mod u 16). pose proof (N.div_mod (u / 16) 16). pose proof (N.div_mod (u / 16 / 16) 16). lia.
Qed.

Lemma encode_units_small c : scalar c → Forall (λ u, (u < 65536)%N) (encode_utf16 c).
Proof.
  unfold scalar, encode_utf16. intros Hc. destruct (N.ltb_spec c 65536); [by repeat constructor|].
  repeat constructor.
  - rewrite N.shiftr_div_pow2. change (2 ^ 10)%N with 1024%N.
    assert ((c - 65536) / 1024 < 1024)%N by (apply N.Div0.div_lt_upper_bound; lia). lia.
  - change 1023%N with (N.ones 10). rewrite N.land_ones. change (2 ^ 10)%N with 1024%N.
    pose proof (N.mod_lt (c - 65536) 1024). lia.
Qed.

Lemma decode_encode c us : scalar c → decode_utf16 (encode_utf16 c ++ us) = c :: decode_utf16 us.
Proof.
  unfold scalar, encode_utf16. intros Hc. destruct (N.ltb_spec c 65536).
  - cbn [app decode_utf16]. destruct (N.leb_spec 55296 c), (N.ltb_spec c 56320); simpl; try done. lia.
  - cbn [app decode_utf16]. rewrite N.shiftr_div_pow2. change (2 ^ 10)%N with 1024%N.
    change 1023%N with (N.ones 10). rewrite N.land_ones. change (2 ^ 10)%N with 1024%N.
    assert ((c - 65536) / 1024 < 1024)%N as Hq by (apply N.Div0.div_lt_upper_bound; lia).
    pose proof (N.div_mod (c - 65536) 1024 ltac:(lia)) as Hdm.
    set (q := ((c - 65536) / 1024)%N) in *. set (r := ((c - 65536) mod 1024)%N) in *. clearbody q r.
    destruct (N.leb_spec 55296 (55296 + q)); [|lia].
    destruct (N.ltb_spec (55296 + q) 56320); [|lia]. cbn [andb]. f_equal. lia.
Qed.

Lemma read_escapes l rest us :
  Forall (λ u, (u < 65536)%N) l → read_units rest = Some us →
  read_units ((l ≫= escape_unit) ++ rest) = Some (l ++ us).
Proof.
  intros Hl Hr. induction Hl as [|u l Hu _ IH]; [done|].
  change ((u :: l) ≫= escape_unit) with (escape_unit u ++ (l ≫= escape_unit)).
  rewrite <-app_assoc. by apply read_escape.
Qed.

Lemma escape_unit_ascii u : (u < 65536)%N → Forall (λ c, is_ascii c = true) (escape_unit u).
Proof.
  intros Hu. unfold escape_unit, hex4, hex_digit.
  assert (u / 4096 < 16)%N by (apply N.Div0.div_lt_upper_bound; lia).
  pose proof (N.mod_lt (u / 256) 16). pose proof (N.mod_lt (u / 16) 16). pose proof (N.mod_lt u 16).
  repeat constructor; unfold is_ascii; apply N.ltb_lt;
    repeat match goal with |- context [(?d <? 10)%N] => destruct (N.ltb_spec d 10) end; lia.
Qed.

(** A fragment of a JSON string, which holds no backslash and no surrogate, is written in ASCII, and
    reading the escapes back gives the fragment. *)
Theorem ascii_json_round_trip fragment :
  Forall scalar fragment → chr "\" ∉ fragment →
  Forall (λ c, is_ascii c = true) (write_string_fragment fragment) ∧
  decode_utf16 <$> read_units (write_string_fragment fragment) = Some fragment.
Proof.
  intros Hs. induction Hs as [|c s Hc Hs IH]; [by split|]. rewrite not_elem_of_cons. intros [Hb Hn].
  destruct (IH Hn) as [Ha Hr]. apply fmap_Some in Hr as (us & Hus & Hd).
  change (write_string_fragment (c :: s)) with
    ((if is_ascii c then [c] else encode_utf16 c ≫= escape_unit) ++ write_string_fragment s).
  pose proof (encode_units_small c Hc) as Hunits. destruct (is_ascii c) eqn:Ec.
  - split; [by constructor|]. cbn [app read_units]. destruct (N.eqb_spec c (chr "\")); [congruence|].
    rewrite Hus. simpl. apply N.ltb_lt in Ec.
    destruct (N.leb_spec 55296 c); [lia|]. simpl. by rewrite <-Hd.
  - split.
    + apply Forall_app. split; [|done]. clear -Hunits. induction Hunits as [|u l Hu _ IH]; [constructor|].
      apply Forall_app. split; [by apply escape_unit_ascii|done].
    + rewrite (read_escapes _ _ us) by done. simpl. by rewrite decode_encode, <-Hd.
Qed.

Lemma ascii_json_round_trip_witness :
  Forall (λ c, is_ascii c = true) (write_string_fragment [233; 97; 128512]%N) ∧
  decode_utf16 <$> read_units (write_string_fragment [233; 97; 128512]%N) = Some [233; 97; 128512]%N.
Proof.
  apply ascii_json_round_trip; [repeat constructor; unfold scalar; lia|].
  rewrite !not_elem_of_cons. repeat split; try done. apply not_elem_of_nil.
Defined.

(** The emoji is a pair of surrogates. *)
Lemma emoji_escaped : write_string_fragment [128512]%N = lit "\ud83d\ude00".
Proof. reflexivity. Qed.
